(* ===== verification/_CoqProject ===== *)
-Q . S2P
Prelude.v
Leb128.v
Scale.v
Nibble.v
TrieNode.v
BTree.v
Sources.v
Disjoint.v
ForkTree.v
ForkTreePrune.v
ForkTreeFacts.v
Allocator.v
KBuckets.v
VerificationQueue.v
StorageDiff.v
RuntimeStorage.v
ProofVerify.v
PrefixProof.v
HeaderBase.v
HeaderAura.v
HeaderBabe.v
HeaderGrandpa.v
Header.v
HeaderDigest.v
HeaderCodec.v
ChainInformation.v
AsyncTree.v
AsyncTreeInv.v
AsyncTreeOps.v
AsyncTreeOutput.v
AsyncTreeRun.v
LightPool.v
LightPoolInv.v
LightPoolPurge.v
LightPoolOps.v
LightPoolBody.v
LightPoolFinal.v
LightPoolRun.v
TxPool.v
FinalityBase.v
Justification.v
JustificationVerify.v
Commit.v
CommitVerify.v
WarpSync.v
Protobuf.v
BlockRequest.v
PeerId.v
Multiaddr.v
PeerMessages.v
GossipMessages.v
VerifyBase.v
VerifyAura.v
VerifyBabe.v
VerifyBabeSpec.v
HeaderOnly.v
BlocksTree.v
BlocksTreeBest.v
BlocksTreeInv.v
BlocksTreeFinality.v
BlocksTreeRun.v
BlocksTreeSpec.v
PendingBlocks.v
PendingBlocksInv.v
PendingBlocksRun.v
TrieStructure.v
TrieStructureInv.v
TrieStructureOps.v
TrieStructureUpdate.v
TrieStructureRun.v
CanonicalTrie.v
CalculateRoot.v
CalculateRootWalk.v
CalculateRootSpec.v
CalculateRootCache.v
RootProof.v
TrieRoot.v
ReadWrite.v
Multistream.v
MultistreamSpec.v
