(* ===== verification/Prelude.v ===== *)
(** * smoldot: a verification development

    ** The program

    smoldot ([src/]) is a client of Substrate-based blockchains, written in Rust.
    It connects to peers ([src/src/libp2p], [src/src/network]), downloads headers
    and blocks from them ([src/src/sync]), verifies them ([src/src/verify],
    [src/src/finality]) and keeps the tree of the blocks that are not finalized
    ([src/src/chain]). Verifying a block, or answering a call, runs the WebAssembly
    runtime of the chain ([src/src/executor]) over a storage that is a Merkle trie
    ([src/src/trie]); a light client has only its root, and checks the entries it is
    given against it. The library does no input or output of its own: its modules
    are data structures and state machines that the executables drive. These
    structures are what is modelled here.

    ** The files

    - Prelude.v (this file): integers of a width, results, panics, lists of bytes,
      the tactics and the hints.
    - BTree.v: ordered maps and sets, over [gmap] and [gset].
    - Leb128.v: [src/src/util/leb128.rs], variable-length integers and the
      incremental reader of length-prefixed frames, used by the connections.
    - Scale.v: the compact integers of [src/src/util.rs], used by the trie and the runtime.
    - Nibble.v, TrieNode.v: [src/src/trie/nibble.rs], [node_value.rs] and
      [proof_node_decode.rs]: the encoding of a node of the trie, its Merkle value
      and its decoding.
    - ProofVerify.v: [src/src/trie/proof_verify.rs], the verification of storage
      proofs; it uses the decoder, and its specification uses the encoder.
    - PrefixProof.v: [src/src/trie/prefix_proof.rs], the scan of the keys of a prefix
      by a sequence of proofs.
    - TrieStructure.v, TrieStructureInv.v, TrieStructureOps.v, TrieStructureUpdate.v
      and TrieStructureRun.v: [src/src/trie/trie_structure.rs], the nodes of a trie
      without their values: the definitions, the invariant and the searches, the
      changes of the links, the insertions and removals, and the runs.
    - CanonicalTrie.v: the tries that a storage has, and that their entries
      determine them. CalculateRoot.v, CalculateRootWalk.v, CalculateRootSpec.v and
      CalculateRootCache.v: [src/src/trie/calculate_root.rs], the calculation of the
      root over a trie structure that caches Merkle values: the definitions, the
      walk, the calculation and the updates of the cache. TrieRoot.v:
      [src/src/trie.rs], the roots of lists of entries. RootProof.v: proofs against a
      root that was calculated.
    - StorageDiff.v: [src/src/executor/storage_diff.rs], the changes of a storage.
    - RuntimeStorage.v: the storage part of [src/src/executor/runtime_host.rs]: what
      a runtime call does to a [StorageDiff], with transactions.
    - Allocator.v: [src/src/executor/allocator.rs], the heap of the runtime.
    - ForkTree.v, ForkTreePrune.v: [src/src/chain/fork_tree.rs]. ForkTreeFacts.v:
      what the users of the fork tree share.
    - AsyncTree.v, AsyncTreeInv.v, AsyncTreeOps.v, AsyncTreeOutput.v and
      AsyncTreeRun.v: [src/src/chain/async_tree.rs], the blocks of a fork tree with
      an asynchronous operation each: the definitions, the invariant, the
      operations, the output and the runs.
    - LightPool.v, LightPoolInv.v, LightPoolPurge.v, LightPoolOps.v, LightPoolBody.v,
      LightPoolFinal.v and LightPoolRun.v: [src/src/transactions/light_pool.rs], the
      transactions of a light client and the blocks of a fork tree in which they
      are included: the definitions, the invariant, the removals, the operations,
      the bodies, finality and the runs.
    - TxPool.v: [src/src/transactions/pool.rs], the general-purpose
      pool of transactions: the operations, then the runs, the invariant and the
      theorems.
    - HeaderBase.v, HeaderAura.v, HeaderBabe.v, HeaderGrandpa.v and Header.v:
      [src/src/header.rs] and [src/src/header/*.rs], the codec of headers, of their
      digests and of the logs of the consensus engines; HeaderDigest.v has the
      invariant of the digests and HeaderCodec.v the theorems on the codec.
    - FinalityBase.v, Justification.v, JustificationVerify.v, Commit.v,
      CommitVerify.v and WarpSync.v: [src/src/finality]: the codecs of
      justifications and of commits, their verification, and the verification of
      warp sync proofs, which goes through headers and their justifications.
    - ChainInformation.v: [src/src/chain/chain_information.rs], what is known of the
      finalized block, and its validation.
    - VerifyBase.v, VerifyAura.v, VerifyBabe.v, VerifyBabeSpec.v and
      HeaderOnly.v: [src/src/verify/aura.rs], [babe.rs] and [header_only.rs], the
      verification of a header on top of its parent by the rules of Aura or Babe.
    - BlocksTree.v: [src/src/chain/blocks_tree.rs] and its submodules, the tree of the
      blocks that are not finalized, over ForkTree.v, HeaderOnly.v,
      JustificationVerify.v and CommitVerify.v: the definitions. BlocksTreeBest.v: the best
      block; BlocksTreeInv.v: the invariant and the insertion; BlocksTreeFinality.v: the
      finalization and the changes of authorities; BlocksTreeRun.v: the epochs, the chain
      information, the proofs of finality and the runs; BlocksTreeSpec.v: the theorems
      and the examples.
    - Sources.v, Disjoint.v: [sources.rs] and [disjoint.rs] of
      [src/src/sync/all_forks]: who knows which block, and the blocks whose parent
      is not known yet. PendingBlocks.v, PendingBlocksInv.v and PendingBlocksRun.v:
      [pending_blocks.rs], which puts the two together with the requests of blocks:
      the definitions, the invariant and the runs.
    - VerificationQueue.v: [src/src/sync/optimistic/verification_queue.rs], the
      ranges of blocks to download, being downloaded and to verify.
    - KBuckets.v: [src/src/network/kademlia/kbuckets.rs], the table of peers.
    - Protobuf.v: [src/src/util/protobuf.rs], the encoders and decoders of Protobuf
      messages, the wire format, and the decoder in terms of it.
      BlockRequest.v and PeerMessages.v: the messages of
      [src/src/network/protocol] that are in Protobuf, the requests of blocks, of state
      and of proofs, Kademlia and identify. GossipMessages.v: those in SCALE, the
      announces of blocks, the notifications of GrandPa and the responses of warp
      sync, over Header.v, Justification.v and Commit.v.
    - PeerId.v and Multiaddr.v: [multihash.rs], [peer_id.rs] and [multiaddr.rs] of
      [src/src/libp2p], the identifiers and the addresses of peers.
    - ReadWrite.v: [src/src/libp2p/read_write.rs], the buffers of a socket. Multistream.v:
      [src/src/libp2p/connection/multistream_select.rs], the negotiation of a protocol,
      over ReadWrite.v and Leb128.v: the definitions, the bytes of the messages and the
      reading of frames. MultistreamSpec.v: what each side does, and the two sides
      together.

    A definition has the name of the function or type it translates, with a prefix
    where the source has a method of a common name ([fork_insert], [kb_get],
    [Queue_new]). A loop that the source writes inline is a definition of its own.

    ** How Rust is read

    - An integer of [w] bits is a [Z] with its range; [+], [-] and [*] wrap around
      as in a release build, [checked_*] returns an option. The width of [usize] is
      the class [Platform], 32 or 64.
    - [Result] is [result]. A panic (a failed [unwrap] or [assert!], an index out
      of range, [unreachable!]) is [None] of an option around the result; a theorem
      that a function returns excludes it. Debug assertions are not executed, except in
      Multistream.v, where they are shown to hold.
    - A hash map is a [gmap], a [BTreeMap] a [gmap] iterated in the order of its
      keys, a slab a [gmap] whose next key is an argument. A mutable reference is
      the new value that the function returns. An iterator is the list it yields,
      or its [next] function with the loop that drives it.
    - Third-party code is a parameter with its documented laws: the hash function
      ([Blake2b], [Blake2bLaws]), the parser combinators of the headers ([Nom],
      [NomLaws]), of the finality ([NomMulti], [NomMultiLaws]) and of the messages
      ([NomLengthData], [NomLengthDataLaws], [NomChoice], [NomChoiceLaws]), the text and hash functions
      of identifiers and addresses ([PeerIdDeps], [PeerIdDepsLaws], [MultiaddrDeps],
      [MultiaddrDepsLaws]), the signatures
      ([Ed25519], [Ed25519Laws]; [Schnorrkel], which has no law), the power of
      floating-point numbers ([Powf], [PowfLaws]), the digest of the keys in
      KBuckets.v, the linear memory ([Memory]), and the cache of the root calculation in RuntimeStorage.v
      ([CalculationCache]), which is code of the repository used through two
      functions. A toy instance of each witnesses that the laws can hold.

    ** Fuel

    A loop that is not structural takes a number of turns as an argument, and the
    theorem about it shows that the number given is enough: the number of blocks
    for [set_block_bad], the number of nodes for the paths in the fork tree and
    its enumeration and twice that for pruning, the number of entries of the difference for the search of the next key,
    the length of the key for a proof, the height of the trie for the scan of a
    prefix, the lengths of the two lists for the merge
    of the keys of a prefix, the length of the input for the items of a digest and
    the authorities of a log, twice the number of blocks for the loop on
    [try_advance_output], twice the number of votes for the questions on a commit,
    the number of fragments for a warp sync proof, the number of blocks for the
    ancestors that a request covers, the length of the key for the search in a trie
    structure and the number of its nodes for paths, the square of that number for
    the walk of the root calculation, the number of keys for its questions, the length
    of the input for the fields of a message and the protocols of an address, twice the
    length of the received data for a call of a negotiation.

    ** What is shown

    - Codecs: round trips in both directions, independence of the way the input is
      cut into pieces, bounds (Leb128.v, Scale.v, TrieNode.v).
    - Trie: the Merkle value is that of the encoding; decoding inverts encoding,
      except for key lengths on which the encoding is ambiguous, where two tries
      have the same root; the verification of a proof gives exactly what the trie
      has, unless the hash collides, and always ends; the scan of a prefix finds
      exactly its keys if the proof is complete, and can lose keys otherwise (a root
      node of less than 32 bytes is never found). The
      trie structure has exactly the nodes that its set of keys needs, whatever
      the insertions and removals; the calculation of a root ends and gives the
      root of the one canonical trie of the storage, asking each value once, if no key
      is given after one that it is a prefix of; the
      updates of the cache keep it right, but for keys inserted between two nodes;
      a proof accepted against a calculated root tells what the storage has.
    - Runtime: the allocator never gives memory that overlaps a live allocation and
      implements its abstract heap, while its bumper is not near 4 GiB; the storage operations of a call implement a
      storage with one level of transaction, and a rollback restores it, except
      after an append that the transaction does not record.
    - Headers: decoding inverts encoding, the two decoders of digests agree, a
      digest that was accepted iterates without panic over its items and the
      accessors find the items at the recorded positions; decoding returns
      except on the inputs, characterised exactly, in which the size of a Babe epoch
      wraps around.
    - Finality: the decoders accept exactly the encodings of commits and of
      justifications; the verification of a justification or of a commit returns the
      one verdict that its votes have, and a commit asks at most two questions for
      each; as in the code the quorum of a commit counts the votes of unknown ancestry; two justifications that are accepted share the signatures
      of more than a third of the authorities; a warp sync proof is accepted exactly
      when each header is justified by the authorities of its time.
    - Verification: a header is accepted exactly when it is linked to its parent, has
      no item of another engine, and its authorship follows the rules of Aura or of Babe, and
      the panics are listed, for Babe while the parent is before the next epoch; chain information is validated exactly when it is
      coherent.
    - Tree of blocks: every tree that a run reaches (the blocks are inserted by their
      headers, the insertion with a verified body is not a step) is coherent, its best block is a
      leaf of the chain of greatest score (the count of primary claims for Babe), and the chain information of its
      finalized block is valid; finalizing a block keeps its descendants and
      applies the changes of authorities of its chain, though not one that was pending
      before, and finality is not reverted; a
      justification or a commit is accepted only with the votes of more than two
      thirds of the current authorities, for a block below which these do not change;
      the inputs on which the check of the target panics are characterised.
    - Chain and syncing: the fork tree implements an abstract forest, pruning
      included; the asynchronous tree keeps its invariant under every sequence of
      calls, starts and retries operations for whole groups of blocks, emits
      updates from which its output can be rebuilt and that list exactly the blocks
      that a finalization prunes, and brings the output to the
      input once the operations are finished; the sources implement a set of known
      blocks; marking a block bad marks its descendants; the indices of the pending
      blocks agree and no call within its conditions panics, the requests that they
      desire are exactly those that are needed, and each good block is on its way to
      be verified; the verification queue implements a map from heights
      to states, under the conditions without which it loses blocks.
    - Transactions: whatever the calls that keep the best block and the parents of new
      blocks at the finalized block or among its descendants, a transaction of the pool is included in the
      best chain exactly if its bytes were found in a body of that chain; a client
      that follows the reports knows which transactions these are; pruning removes
      exactly the finalized blocks whose bodies are known, with the transactions
      found in them. In the general-purpose pool, the search by bytes is exact in every
      run; a finalization and a retraction do what they say while the index by
      height is exact, which they and the inclusion of a transaction of the pool do not
      maintain: the next finalization panics.
    - Network: the k-buckets keep their invariant, an entry is replaced only when it
      is disconnected and expired, and the enumeration is by distance. The decoder of
      Protobuf messages reads the fields in any order and skips those that it does not
      know; the requests that are sent are read back, and the responses give what they were
      built from, or are refused or cut in the cases that are listed; the decoders of the
      other messages accept exactly the encodings of messages. The bytes that
      are accepted as an identifier or as an address are those of valid ones, and
      the text of an address is read back, but for one protocol. The state of
      each side of a negotiation is a function of the bytes it sent and received,
      however they were cut; but for the names ls and na, the two sides together never fail, agree on the protocol,
      and end after a bounded number of rounds.

    Where the code does not do what it says, a closed theorem shows it on a concrete
    input ([merkle_value_collision], [append_survives_rollback],
    [finish_request_loses_blocks], [queue_panics], [append_noncanonical],
    [short_root_not_found], [prefix_scan_loses_keys], [insert_misses_bad_parent],
    [bump_wraps_around], [insert_connected_panics], [malformed_epoch_panics],
    [pop_seal_keeps_index], [push_two_seals], [reencoding_differs],
    [input_finalized_finished], [unknown_op_ignored], [precommits_iter_panics],
    [unrelated_votes_accepted], [unknown_votes_accepted], [few_votes_unknown],
    [remove_source_leaves_entries], [insert_again_is_stuck],
    [set_finalized_max_keeps], [structure_equal_misses_nodes],
    [cache_between_wrong], [keys_order_panics], [trie_root_panics],
    [longevity_restarts], [lower_validation_wins], [best_above_finalized_panics],
    [validation_of_root], [late_block_breaks_children], [unparsable_data_panics],
    [primary_threshold_panics], [scheduled_change_lost], [network_data_panics],
    [pool_inclusion_errors], [long_number_wraps], [incomplete_chunk_ignored],
    [sha256_prefix_invalid], [short_hash_accepted], [long_handshake_accepted],
    [listener_reads_too_much], [listener_refuses_data], [listener_ignores_newline],
    [ls_response_prefix], [na_disagrees], [ls_fails], [write_out_past_end]).

    ** What is not modelled, and the plan

    Cryptography, the WebAssembly engines, sockets, JSON and SQLite are third-party
    code or glue; the verification of a block body, the authoring of blocks and the
    validation of transactions are runtime calls. Of the library's own logic, what is left
    is: the state machines of the syncing
    ([all_forks.rs], [optimistic.rs], [warp_sync.rs] and [all.rs]), over PendingBlocks.v,
    VerificationQueue.v, WarpSync.v and BlocksTree.v; the multiplexing of connections
    ([yamux.rs]), their substreams and the
    collections of connections; the services of the executables. *)

From stdpp Require Export base list gmap.
From Stdlib Require Export ZArith Lia.

Open Scope Z_scope.

(** ** Machine integers

    A Rust integer of width [w] is a [Z] between [0] and [2^w - 1]; the
    operations below write the wrap-around, or the check, out. *)

Abbreviation u8 := Z (only parsing).
Abbreviation u16 := Z (only parsing).
Abbreviation u32 := Z (only parsing).
Abbreviation u64 := Z (only parsing).
Abbreviation usize := Z (only parsing).

(** [is_uint w v]: [v] is a value of the unsigned type of width [w]. *)
Definition is_uint (w v : Z) : Prop := 0 <= v < 2 ^ w.

Abbreviation is_u8 := (is_uint 8).
Abbreviation is_u32 := (is_uint 32).
Abbreviation is_u64 := (is_uint 64).

#[export] Instance is_uint_dec w v : Decision (is_uint w v).
Proof. unfold is_uint. apply _. Defined.

(** A byte string all of whose elements are bytes. *)
Abbreviation is_bytes := (Forall (is_uint 8)).

(** [a as uN], [a + b], [a - b], [a * b] in a build without overflow checks. *)
Definition wrap (w v : Z) : Z := v `mod` 2 ^ w.
Definition wadd (w a b : Z) : Z := wrap w (a + b).
Definition wsub (w a b : Z) : Z := wrap w (a - b).
Definition wmul (w a b : Z) : Z := wrap w (a * b).

(** [uN::checked_add], [checked_sub], [checked_mul], [checked_shl]. *)
Definition checked (w v : Z) : option Z :=
  if (0 <=? v) && (v <? 2 ^ w) then Some v else None.
Definition checked_add (w a b : Z) : option Z := checked w (a + b).
Definition checked_sub (w a b : Z) : option Z := checked w (a - b).
Definition checked_mul (w a b : Z) : option Z := checked w (a * b).
Definition checked_shl (w a s : Z) : option Z :=
  if s <? w then Some (wrap w (Z.shiftl a s)) else None.
(** [uN::saturating_sub]. *)
Definition saturating_sub (a b : Z) : Z := Z.max 0 (a - b).

(** The width of [usize] is a parameter of the platform: 32 bits on the
    WebAssembly target, 64 bits on the native ones. *)
Class Platform := {
  usize_bits : Z;
  usize_bits_spec : usize_bits = 32 \/ usize_bits = 64
}.

(** [usize::max_value()]. *)
Definition usize_max `{Platform} : usize := 2 ^ usize_bits - 1.

Definition platform32 : Platform := {| usize_bits := 32; usize_bits_spec := or_introl eq_refl |}.
Definition platform64 : Platform := {| usize_bits := 64; usize_bits_spec := or_intror eq_refl |}.

Abbreviation is_usize := (is_uint usize_bits).

(** [slice.len()]. *)
Definition len {A} (l : list A) : Z := Z.of_nat (length l).

(** ** Results

    [Result<A, E>] of the source. A panic ([unwrap] of [None], an index out of
    range, a failed [assert!]) is [None] of [option] around the result. *)

Inductive result (E A : Type) :=
  | Ok (a : A)
  | Err (e : E).
Arguments Ok {E A} _.
Arguments Err {E A} _.

#[export] Instance result_eq_dec `{EqDecision E, EqDecision A} : EqDecision (result E A).
Proof. solve_decision. Defined.

Definition result_bind {E A B} (r : result E A) (f : A -> result E B) : result E B :=
  match r with
  | Ok a => f a
  | Err e => Err e
  end.

Definition ok_or {E A} (o : option A) (e : E) : result E A :=
  match o with
  | Some a => Ok a
  | None => Err e
  end.

Definition map_err {E F A} (f : E -> F) (r : result E A) : result F A :=
  match r with
  | Ok a => Ok a
  | Err e => Err (f e)
  end.

Declare Scope rust_scope.
Delimit Scope rust_scope with rust.

(** The [?] operator of the source on a [Result]. *)
Notation "'let?' x ':=' e 'in' k" := (result_bind e (fun x => k))
  (at level 10, x pattern, e at level 100, k at level 200) : rust_scope.
(** A step that may panic. *)
Notation "'let!' x ':=' e 'in' k" := (match e with Some x => k | None => None end)
  (at level 10, x pattern, e at level 100, k at level 200) : rust_scope.

(** A function that returns a [Result] and may panic: [None] is the panic. *)
Definition outcome (E A : Type) : Type := option (result E A).

Definition outcome_bind {E A B} (r : outcome E A) (f : A -> outcome E B) : outcome E B :=
  match r with
  | Some (Ok a) => f a
  | Some (Err e) => Some (Err e)
  | None => None
  end.

(** The [?] operator in such a function. *)
Notation "'let*' x ':=' e 'in' k" := (outcome_bind e (fun x => k))
  (at level 10, x pattern, e at level 100, k at level 200) : rust_scope.

Open Scope rust_scope.

(** ** Automation *)

Create HintDb smoldot.
Create Rewrite HintDb len.

(** Powers of two that appear as widths. *)
Lemma pow2_8 : 2 ^ 8 = 256. Proof. reflexivity. Qed.
Lemma pow2_32 : 2 ^ 32 = 4294967296. Proof. reflexivity. Qed.
Lemma pow2_64 : 2 ^ 64 = 18446744073709551616. Proof. reflexivity. Qed.

Ltac unfold_uint :=
  unfold is_uint in *;
  rewrite ?pow2_8, ?pow2_32, ?pow2_64 in *.

(** Splits the booleans and the options a goal or a hypothesis matches on. *)
Ltac case_if :=
  match goal with
  | |- context [if ?b then _ else _] => destruct b eqn:?
  | _ : context [if ?b then _ else _] |- _ => destruct b eqn:?
  end.

Ltac bool_to_prop :=
  repeat match goal with
  | H : (_ && _)%bool = true |- _ => apply andb_prop in H as [? ?]
  | H : (_ && _)%bool = false |- _ => apply andb_false_iff in H
  | H : (_ || _)%bool = true |- _ => apply orb_prop in H
  | H : (_ || _)%bool = false |- _ => apply orb_false_elim in H as [? ?]
  | H : negb _ = true |- _ => apply negb_true_iff in H
  | H : negb _ = false |- _ => apply negb_false_iff in H
  | H : (_ =? _) = true |- _ => apply Z.eqb_eq in H
  | H : (_ =? _) = false |- _ => apply Z.eqb_neq in H
  | H : (_ <? _) = true |- _ => apply Z.ltb_lt in H
  | H : (_ <? _) = false |- _ => apply Z.ltb_ge in H
  | H : (_ <=? _) = true |- _ => apply Z.leb_le in H
  | H : (_ <=? _) = false |- _ => apply Z.leb_gt in H
  | H : bool_decide _ = true |- _ => apply bool_decide_eq_true in H
  | H : bool_decide _ = false |- _ => apply bool_decide_eq_false in H
  end.

(** Rewrites the conditionals whose test [lia] decides. *)
Ltac decide_tests :=
  repeat match goal with
  | |- context [?a <? ?b] =>
      first [ rewrite (proj2 (Z.ltb_lt a b)) by lia | rewrite (proj2 (Z.ltb_ge a b)) by lia ]
  | |- context [?a <=? ?b] =>
      first [ rewrite (proj2 (Z.leb_le a b)) by lia | rewrite (proj2 (Z.leb_gt a b)) by lia ]
  | |- context [?a =? ?b] =>
      first [ rewrite (proj2 (Z.eqb_eq a b)) by lia | rewrite (proj2 (Z.eqb_neq a b)) by lia ]
  end; cbn [andb orb negb].

(** ** Integers *)

Lemma pow2_pos n : 0 <= n -> 0 < 2 ^ n.
Proof. intros. apply Z.pow_pos_nonneg; lia. Qed.

Lemma usize_bits_pos `{Platform} : 0 < usize_bits.
Proof. destruct usize_bits_spec; lia. Qed.

Lemma checked_Some w v r : checked w v = Some r <-> r = v /\ is_uint w v.
Proof.
  unfold checked, is_uint. destruct ((0 <=? v) && (v <? 2 ^ w)) eqn:E; bool_to_prop.
  - split; [intros [= <-]; lia | intros [-> _]; done].
  - split; [done | lia].
Qed.

Lemma checked_small w v : is_uint w v -> checked w v = Some v.
Proof. intros. by apply checked_Some. Qed.

Lemma checked_None w v : checked w v = None <-> ~ is_uint w v.
Proof.
  unfold checked, is_uint. destruct ((0 <=? v) && (v <? 2 ^ w)) eqn:E; bool_to_prop;
    split; try done; lia.
Qed.

Lemma wrap_small w v : is_uint w v -> wrap w v = v.
Proof. unfold wrap, is_uint. apply Z.mod_small. Qed.

Lemma wrap_uint w v : 0 <= w -> is_uint w (wrap w v).
Proof. intros. apply Z.mod_pos_bound, pow2_pos; lia. Qed.

(** Disjoint bits add up: the source's [hi << n | lo]. *)
Lemma lor_shiftl_add a b n :
  0 <= n -> 0 <= a < 2 ^ n -> Z.lor a (Z.shiftl b n) = a + b * 2 ^ n.
Proof.
  intros Hn Ha. rewrite <- Z.shiftl_mul_pow2 by lia.
  rewrite <- Z.add_lor_land.
  enough (Z.land a (Z.shiftl b n) = 0) by lia.
  apply Z.bits_inj'. intros k Hk. rewrite Z.land_spec, Z.shiftl_spec, Z.bits_0 by lia.
  destruct (Z.lt_ge_cases k n) as [?|?].
  - rewrite (Z.testbit_neg_r b) by lia. apply andb_false_r.
  - replace a with (a `mod` 2 ^ n) by (apply Z.mod_small; lia).
    by rewrite Z.mod_pow2_bits_high by lia.
Qed.

Lemma lor_mul_add a b n :
  0 <= n -> 0 <= a < 2 ^ n -> Z.lor a (b * 2 ^ n) = a + b * 2 ^ n.
Proof. intros. by rewrite <- Z.shiftl_mul_pow2, lor_shiftl_add, Z.shiftl_mul_pow2 by lia. Qed.

(** Masking the [n] low bits. *)
Lemma land_mask a m n : 0 <= n -> m = 2 ^ n - 1 -> Z.land a m = a `mod` 2 ^ n.
Proof. intros ? ->. by rewrite <- Z.land_ones, Z.ones_equiv, Z.sub_1_r by lia. Qed.

(** Testing one bit. *)
Lemma land_bit a n : 0 <= n -> Z.land a (2 ^ n) = if Z.testbit a n then 2 ^ n else 0.
Proof.
  intros Hn. apply Z.bits_inj'. intros k Hk.
  rewrite Z.land_spec. destruct (Z.eq_dec k n) as [->|Hne].
  - rewrite Z.pow2_bits_true, andb_true_r by lia.
    destruct (Z.testbit a n); [by rewrite Z.pow2_bits_true | by rewrite Z.bits_0].
  - rewrite Z.pow2_bits_false, andb_false_r by lia.
    destruct (Z.testbit a n); [by rewrite Z.pow2_bits_false by lia | by rewrite Z.bits_0].
Qed.

(** ** Lists *)

Lemma len_nonneg {A} (l : list A) : 0 <= len l.
Proof. unfold len. lia. Qed.

Lemma len_nil {A} : len (@nil A) = 0.
Proof. reflexivity. Qed.

Lemma len_cons {A} (x : A) l : len (x :: l) = 1 + len l.
Proof. unfold len. cbn [length]. lia. Qed.

Lemma len_app {A} (l k : list A) : len (l ++ k) = len l + len k.
Proof. unfold len. rewrite length_app. lia. Qed.

#[export] Hint Rewrite @len_nil @len_cons @len_app : len.
#[export] Hint Resolve len_nonneg pow2_pos : smoldot.

(** Arithmetic on lengths. *)
Ltac len_lia :=
  autorewrite with len in *;
  repeat match goal with
  | |- context [len ?l] => lazymatch goal with H : 0 <= len l |- _ => fail | _ => pose proof (len_nonneg l) end
  | _ : context [len ?l] |- _ => lazymatch goal with H : 0 <= len l |- _ => fail | _ => pose proof (len_nonneg l) end
  end; lia.

Lemma concat_if {A} (b : bool) (l : list (list A)) :
  concat (if b then l else []) = if b then concat l else [].
Proof. by destruct b. Qed.

Lemma concat_if_one {A} (b : bool) (x : list A) :
  concat (if b then [x] else []) = if b then x else [].
Proof. destruct b; cbn; by rewrite ?app_nil_r. Qed.

(** A fact about one byte is checked on the 256 values. *)
Lemma u8_exhaust (P : Z -> bool) :
  forallb P (seqZ 0 256) = true -> forall b, is_u8 b -> P b = true.
Proof.
  intros Hall b Hb. unfold_uint. rewrite forallb_forall in Hall.
  apply Hall, list_elem_of_In, elem_of_seqZ. lia.
Qed.

Lemma u8_eqb (f g : Z -> Z) :
  forallb (fun b => f b =? g b) (seqZ 0 256) = true -> forall b, is_u8 b -> f b = g b.
Proof. intros Hall b Hb. apply Z.eqb_eq. by apply (u8_exhaust (fun b => f b =? g b)). Qed.

Lemma u8_bool_eqb (f g : Z -> bool) :
  forallb (fun b => Bool.eqb (f b) (g b)) (seqZ 0 256) = true -> forall b, is_u8 b -> f b = g b.
Proof. intros Hall b Hb. apply eqb_prop. by apply (u8_exhaust (fun b => Bool.eqb (f b) (g b))). Qed.

(** ** Little-endian byte strings ([uN::from_le_bytes], [uN::to_le_bytes]) *)

Fixpoint from_le_bytes (bs : list u8) : Z :=
  match bs with
  | [] => 0
  | b :: bs => b + 256 * from_le_bytes bs
  end.

Fixpoint to_le_bytes (n : nat) (v : Z) : list u8 :=
  match n with
  | O => []
  | S n => v `mod` 256 :: to_le_bytes n (v / 256)
  end.

Lemma length_to_le_bytes n v : length (to_le_bytes n v) = n.
Proof. revert v. induction n; intros; cbn; auto. Qed.

Lemma to_le_bytes_bytes n v : is_bytes (to_le_bytes n v).
Proof.
  revert v. induction n; intros; cbn; constructor; auto.
  unfold_uint. apply Z.mod_pos_bound. lia.
Qed.

Lemma pow2_8_S n : 2 ^ (8 * Z.of_nat (S n)) = 256 * 2 ^ (8 * Z.of_nat n).
Proof. replace (8 * Z.of_nat (S n)) with (8 + 8 * Z.of_nat n) by lia. by rewrite Z.pow_add_r by lia. Qed.

Lemma from_to_le_bytes n v :
  0 <= v < 2 ^ (8 * Z.of_nat n) -> from_le_bytes (to_le_bytes n v) = v.
Proof.
  revert v. induction n as [|n IH]; intros v Hv; cbn [to_le_bytes from_le_bytes].
  - change (2 ^ (8 * Z.of_nat 0)) with 1 in Hv. lia.
  - rewrite pow2_8_S in Hv. rewrite IH.
    + pose proof (Z.div_mod v 256). lia.
    + split; [apply Z.div_pos; lia | apply Z.div_lt_upper_bound; lia].
Qed.

Lemma from_le_bytes_bound bs :
  is_bytes bs -> 0 <= from_le_bytes bs < 2 ^ (8 * len bs).
Proof.
  induction 1 as [|b bs Hb Hbs IH]; cbn [from_le_bytes]; [done|].
  unfold len in *. cbn [length]. rewrite pow2_8_S. unfold_uint. lia.
Qed.

Lemma to_from_le_bytes bs :
  is_bytes bs -> to_le_bytes (length bs) (from_le_bytes bs) = bs.
Proof.
  induction 1 as [|b bs Hb Hbs IH]; cbn; [done|]. unfold_uint.
  rewrite (Z.mul_comm 256), Z.mod_add, Z.mod_small, Z.div_add, Z.div_small, Z.add_0_l by lia.
  by rewrite IH.
Qed.

Lemma from_le_bytes_app bs cs :
  from_le_bytes (bs ++ cs) = from_le_bytes bs + 2 ^ (8 * len bs) * from_le_bytes cs.
Proof.
  induction bs as [|b bs IH]; cbn [app from_le_bytes].
  - change (2 ^ (8 * len (@nil Z))) with 1. lia.
  - unfold len in *. cbn [length]. rewrite pow2_8_S, IH. lia.
Qed.

Lemma from_le_bytes_zero bs : Forall (eq 0) bs -> from_le_bytes bs = 0.
Proof. induction 1; cbn; lia. Qed.
