(* ===== verification/Leb128.v ===== *)
(** * LEB128 integers and length-prefixed frames ([src/src/util/leb128.rs])

    The encoder is the iterator of the source, driven to its end; the decoder
    is the loop of [nom_leb128_usize]. Decoding is shown to be the exact inverse
    of encoding, in both directions: the decoder accepts the canonical encoding
    of every [usize] and nothing else. [FramedInProgress] is the incremental
    frame reader; the theorems show that cutting the input into pieces does not
    change what is read. *)

From S2P Require Import Prelude.

(** ** The encoding iterator *)

Record EncodeIter := mkEncodeIter { value : u64; finished : bool }.

Definition EncodeIter_next (self : EncodeIter) : option (u8 * EncodeIter) :=
  if finished self then None
  else if value self <? 2 ^ 7 then
    Some (value self, {| value := value self; finished := true |})
  else
    let ret := Z.lor (2 ^ 7) (Z.land (value self) 127) in
    Some (ret, {| value := Z.shiftr (value self) 7; finished := finished self |}).

(** The items of the iterator. A [u64] has at most ten base-128 digits. *)
Fixpoint EncodeIter_collect (fuel : nat) (self : EncodeIter) : list u8 :=
  match fuel with
  | O => []
  | S fuel =>
      match EncodeIter_next self with
      | None => []
      | Some (b, self) => b :: EncodeIter_collect fuel self
      end
  end.

Definition encode_fuel : nat := 11.

Definition encode (v : u64) : list u8 :=
  EncodeIter_collect encode_fuel {| value := v; finished := false |}.

(** [EncodeIter::size_hint]: the iterator is cloned and counted. *)
Definition EncodeIter_size_hint (self : EncodeIter) : usize * option usize :=
  let n := len (EncodeIter_collect encode_fuel self) in (n, Some n).

Definition encode_usize (v : usize) : list u8 := encode v.

(** ** The decoder

    An error carries the input and the kind, as [nom::error::make_error] is
    given them. *)

Inductive ErrorKind := KLengthValue | KVerify | KEof | KSatisfy.

#[export] Instance ErrorKind_eq_dec : EqDecision ErrorKind.
Proof. solve_decision. Defined.

Definition IResult (A : Type) : Type := result (list u8 * ErrorKind) (list u8 * A).

Section decoder.
Context `{Platform}.

Fixpoint nom_leb128_usize_loop (bytes : list u8) (n : Z) (out : usize) (iter : list u8)
    : IResult usize :=
  match iter with
  | [] => Err (bytes, KEof)
  | byte :: iter =>
      if usize_bits <=? 7 * n then Err (bytes, KLengthValue)
      else
        match checked_mul usize_bits (Z.land byte 127) (Z.shiftl 1 (7 * n)) with
        | None => Err (bytes, KLengthValue)
        | Some o =>
            let out := Z.lor out o in
            if Z.land byte 128 =? 0 then
              if (1 <=? n) && (byte =? 0) then Err (bytes, KVerify)
              else Ok (iter, out)
            else nom_leb128_usize_loop bytes (n + 1) out iter
        end
  end.

Definition nom_leb128_usize (bytes : list u8) : IResult usize :=
  nom_leb128_usize_loop bytes 0 0 bytes.

(** ** Frames *)

Inductive FramedInner :=
  | Length
  | Body (expected_len : usize).

Record FramedInProgress := mkFramedInProgress {
  max_len : usize;
  buffer : list u8;
  inner : FramedInner
}.

Inductive Framed :=
  | InProgress (f : FramedInProgress)
  | Finished (frame : list u8).

Inductive FramedError :=
  | LengthPrefixTooLarge
  | NonMinimalLengthPrefix
  | MaxLengthExceeded (max_allowed : usize).

(** [FramedInProgress::new]; the capacity of the buffer is not modelled. *)
Definition FramedInProgress_new (max_len : usize) : FramedInProgress :=
  {| max_len := max_len; buffer := []; inner := Length |}.

(** The local [decode_leb128] of [FramedInProgress::update]. *)
Fixpoint decode_leb128 (n : Z) (out : usize) (iter : list u8) : option (result FramedError usize) :=
  match iter with
  | [] => None
  | byte :: iter =>
      if usize_bits <=? 7 * n then Some (Err LengthPrefixTooLarge)
      else
        match checked_mul usize_bits (Z.land byte 127) (Z.shiftl 1 (7 * n)) with
        | None => Some (Err LengthPrefixTooLarge)
        | Some o =>
            let out := Z.lor out o in
            if Z.land byte 128 =? 0 then
              if (1 <=? n) && (byte =? 0) then Some (Err NonMinimalLengthPrefix)
              else Some (Ok out)
            else decode_leb128 (n + 1) out iter
        end
  end.

(** The [FramedInner::Body] arm of the loop of [update]; it always returns. *)
Definition update_body (self : FramedInProgress) (expected_len : usize) (data : list u8)
    (total_read : usize) : result FramedError (usize * Framed) :=
  let missing := wsub usize_bits expected_len (len (buffer self)) in
  let available := Z.min missing (len data) in
  let buffer' := buffer self ++ take (Z.to_nat available) data in
  let total_read := total_read + available in
  if expected_len =? len buffer' then Ok (total_read, Finished buffer')
  else Ok (total_read,
           InProgress {| max_len := max_len self; buffer := buffer'; inner := inner self |}).

(** The loop of [update]: one iteration per byte of the length prefix. *)
Fixpoint update_loop (self : FramedInProgress) (data : list u8) (total_read : usize)
    : result FramedError (usize * Framed) :=
  match inner self with
  | Body expected_len => update_body self expected_len data total_read
  | Length =>
      match data with
      | [] => Ok (total_read, InProgress self)
      | b :: data =>
          let buffer' := buffer self ++ [b] in
          let total_read := total_read + 1 in
          if 2 * (usize_bits / 8) <=? len buffer' then Err LengthPrefixTooLarge
          else
            match decode_leb128 0 0 buffer' with
            | Some (Err e) => Err e
            | Some (Ok expected_len) =>
                if max_len self <? expected_len then Err (MaxLengthExceeded (max_len self))
                else update_loop {| max_len := max_len self; buffer := [];
                                    inner := Body expected_len |} data total_read
            | None => update_loop {| max_len := max_len self; buffer := buffer';
                                     inner := Length |} data total_read
            end
      end
  end.

Definition update (self : FramedInProgress) (data : list u8) : result FramedError (usize * Framed) :=
  update_loop self data 0.

End decoder.

(** ** Reference definition of the encoding *)

(** [v] in base 128, least significant digit first, with continuation bits. *)
Fixpoint leb128_digits (fuel : nat) (v : Z) : list u8 :=
  match fuel with
  | O => []
  | S fuel =>
      if v <? 128 then [v]
      else (128 + v `mod` 128) :: leb128_digits fuel (v / 128)
  end.

Lemma encode_iter_finished fuel v :
  EncodeIter_collect fuel {| value := v; finished := true |} = [].
Proof. by destruct fuel. Qed.

Lemma encode_iter_digits fuel v :
  0 <= v < 2 ^ (7 * Z.of_nat (S fuel)) ->
  EncodeIter_collect (S (S fuel)) {| value := v; finished := false |} = leb128_digits (S fuel) v.
Proof.
  revert v. induction fuel as [|fuel IH]; intros v Hv.
  all: cbn [EncodeIter_collect leb128_digits]; unfold EncodeIter_next; cbn [value finished].
  all: change (2 ^ 7) with 128; destruct (Z.ltb_spec v 128).
  - done.
  - change (2 ^ (7 * Z.of_nat 1)) with 128 in Hv. lia.
  - by rewrite ?encode_iter_finished.
  - rewrite (land_mask v 127 7), Z.shiftr_div_pow2 by lia. change (2 ^ 7) with 128.
    f_equal.
    + rewrite Z.lor_comm. change (Z.lor _ 128) with (Z.lor (v `mod` 128) (1 * 2 ^ 7)).
      rewrite lor_mul_add; [lia..|]. change (2 ^ 7) with 128. apply Z.mod_pos_bound. lia.
    + apply IH. split; [apply Z.div_pos; lia|]. apply Z.div_lt_upper_bound; [lia|].
      replace (7 * Z.of_nat (S (S fuel))) with (7 + 7 * Z.of_nat (S fuel)) in Hv by lia.
      rewrite Z.pow_add_r in Hv by lia. change (2 ^ 7) with 128 in Hv. lia.
Qed.

Lemma encode_digits v : is_u64 v -> encode v = leb128_digits 10 v.
Proof.
  unfold is_uint, encode. intros Hv. apply (encode_iter_digits 9).
  assert (2 ^ 64 < 2 ^ (7 * Z.of_nat 10)) by reflexivity. lia.
Qed.

(** ** The decoding loop against the digits *)

Lemma land_128_spec b : is_u8 b -> (Z.land b 128 =? 0) = (b <? 128).
Proof. by apply (u8_bool_eqb (fun b => Z.land b 128 =? 0) (fun b => b <? 128)). Qed.

Lemma land_127_spec b : Z.land b 127 = b `mod` 128.
Proof. by apply (land_mask b 127 7). Qed.

Lemma pow2_7_succ n : 0 <= n -> 2 ^ (7 * (n + 1)) = 128 * 2 ^ (7 * n).
Proof. intros. replace (7 * (n + 1)) with (7 + 7 * n) by lia. by rewrite Z.pow_add_r by lia. Qed.

Lemma pow2_7_S fuel : 2 ^ (7 * Z.of_nat (S fuel)) = 128 * 2 ^ (7 * Z.of_nat fuel).
Proof. rewrite <- pow2_7_succ by lia. f_equal. lia. Qed.

Section decoding.
Context `{Platform}.

(** One digit of the loop: the product does not overflow exactly when the
    sum stays a [usize]. *)
Lemma leb128_step d n out :
  0 <= d < 128 -> 0 <= n -> 7 * n < usize_bits -> 0 <= out < 2 ^ (7 * n) ->
  (is_usize (d * 2 ^ (7 * n)) <-> is_usize (out + d * 2 ^ (7 * n))) /\
  Z.lor out (d * 2 ^ (7 * n)) = out + d * 2 ^ (7 * n) /\
  0 <= out + d * 2 ^ (7 * n) < 2 ^ (7 * (n + 1)).
Proof.
  intros Hd Hn Hb Hout. unfold is_uint.
  assert (Hsplit : 2 ^ usize_bits = 2 ^ (usize_bits - 7 * n) * 2 ^ (7 * n))
    by (rewrite <- Z.pow_add_r by lia; f_equal; lia).
  rewrite Hsplit, lor_mul_add, pow2_7_succ by lia.
  set (q := 2 ^ (7 * n)) in *. set (B := 2 ^ (usize_bits - 7 * n)).
  assert (d * q < B * q <-> d < B) by (rewrite <- Z.mul_lt_mono_pos_r; lia).
  assert (d < B -> d * q + q <= B * q) by (intros; nia).
  assert (0 <= d * q <= 127 * q) by nia. lia.
Qed.

Lemma checked_mul_digit d n :
  0 <= n -> checked_mul usize_bits d (Z.shiftl 1 (7 * n)) = checked usize_bits (d * 2 ^ (7 * n)).
Proof. intros. unfold checked_mul. by rewrite Z.shiftl_1_l. Qed.

(** The loop goes on after a digit that is not the last. *)
Lemma decode_loop_more bytes iter v n out :
  0 <= n -> 0 <= out < 2 ^ (7 * n) -> 128 <= v -> is_usize (out + v * 2 ^ (7 * n)) ->
  let out' := out + v `mod` 128 * 2 ^ (7 * n) in
  nom_leb128_usize_loop bytes n out ((128 + v `mod` 128) :: iter)
  = nom_leb128_usize_loop bytes (n + 1) out' iter /\
  0 <= out' < 2 ^ (7 * (n + 1)) /\ 1 <= v / 128 /\
  out + v * 2 ^ (7 * n) = out' + v / 128 * 2 ^ (7 * (n + 1)).
Proof.
  intros Hn Hout Hv Hu out'.
  assert (7 * n < usize_bits) as Hbits.
  { apply (Z.pow_lt_mono_r_iff 2); [lia | pose proof usize_bits_pos; lia |].
    unfold is_uint in Hu. pose proof (pow2_pos (7 * n)). nia. }
  assert (0 <= v `mod` 128 < 128) by (apply Z.mod_pos_bound; lia).
  assert (v = 128 * (v / 128) + v `mod` 128) as Hdm by (apply Z.div_mod; lia).
  assert (1 <= v / 128) by (apply Z.div_le_lower_bound; lia).
  destruct (leb128_step (v `mod` 128) n out) as (Hiff & Hlor & Hb); [lia..|].
  pose proof (pow2_7_succ n Hn) as Hp.
  cbn [nom_leb128_usize_loop]. rewrite (proj2 (Z.leb_gt _ _)) by lia.
  rewrite land_128_spec, land_127_spec, checked_mul_digit by (unfold_uint; lia).
  replace ((128 + v `mod` 128) `mod` 128) with (v `mod` 128)
    by (rewrite Z.add_mod, Z.mod_mod, Z.mod_same, Z.add_0_l, Z.mod_mod by lia; done).
  rewrite checked_small, Hlor, (proj2 (Z.ltb_ge _ 128)); [| lia |].
  - split_and!; [done | lia | lia | lia | unfold out'; nia].
  - apply Hiff. unfold is_uint in *. pose proof (pow2_pos (7 * n)). nia.
Qed.

(** Decoding the digits of [v] after [n] digits worth [out]. *)
Lemma decode_loop_digits bytes rest fuel v n out :
  0 <= n -> 0 <= out < 2 ^ (7 * n) -> (1 <= n -> v <> 0) ->
  0 <= v < 2 ^ (7 * Z.of_nat fuel) -> (0 < fuel)%nat ->
  is_usize (out + v * 2 ^ (7 * n)) ->
  nom_leb128_usize_loop bytes n out (leb128_digits fuel v ++ rest)
  = Ok (rest, out + v * 2 ^ (7 * n)).
Proof.
  revert v n out. induction fuel as [|fuel IH]; intros v n out Hn Hout Hnz Hv Hf Hu; [lia|].
  cbn [leb128_digits]. destruct (Z.ltb_spec v 128) as [Hlt|Hge].
  - assert (7 * n < usize_bits) as Hbits.
    { destruct (Z.eq_dec n 0) as [->|]; [apply usize_bits_pos|].
      apply (Z.pow_lt_mono_r_iff 2); [lia | pose proof usize_bits_pos; lia |].
      unfold is_uint in Hu. pose proof (pow2_pos (7 * n)). nia. }
    cbn [app nom_leb128_usize_loop]. rewrite (proj2 (Z.leb_gt _ _)) by lia.
    rewrite land_128_spec, land_127_spec, Z.mod_small, checked_mul_digit by (unfold_uint; lia).
    destruct (leb128_step v n out) as (Hiff & Hlor & _); [lia..|].
    rewrite checked_small, Hlor, (proj2 (Z.ltb_lt v 128)) by (lia || by apply Hiff).
    destruct ((1 <=? n) && (v =? 0)) eqn:E; [bool_to_prop; lia | done].
  - cbn [app]. destruct (decode_loop_more bytes (leb128_digits fuel (v / 128) ++ rest) v n out)
      as (-> & Hout' & Hdiv & Heq); [done..|].
    rewrite Heq in *. apply IH; try done; try lia; [| destruct fuel; [|lia]].
    + rewrite pow2_7_S in Hv. split; [lia|]. apply Z.div_lt_upper_bound; lia.
    + change (2 ^ (7 * Z.of_nat 1)) with 128 in Hv. lia.
Qed.

(** What a successful run of the loop has read. *)
Lemma decode_loop_inv bytes iter rest v n out :
  is_bytes iter -> 0 <= n -> 0 <= out < 2 ^ (7 * n) ->
  nom_leb128_usize_loop bytes n out iter = Ok (rest, v) ->
  exists w, v = out + w * 2 ^ (7 * n) /\ is_usize v /\ 0 <= w /\ (1 <= n -> w <> 0) /\
    forall fuel, w < 2 ^ (7 * Z.of_nat fuel) -> (0 < fuel)%nat ->
      iter = leb128_digits fuel w ++ rest.
Proof.
  intros Hbytes. revert n out. induction Hbytes as [|b iter Hb Hiter IH];
    intros n out Hn Hout; cbn [nom_leb128_usize_loop]; [done|].
  destruct (Z.leb_spec usize_bits (7 * n)); [done|].
  rewrite land_127_spec, checked_mul_digit, land_128_spec by done.
  destruct (checked _ _) as [o|] eqn:Ho; [|done]. apply checked_Some in Ho as [-> Ho].
  assert (0 <= b `mod` 128 < 128) by (apply Z.mod_pos_bound; lia).
  destruct (leb128_step (b `mod` 128) n out) as (Hiff & -> & Hnext); [lia..|].
  apply Hiff in Ho. unfold_uint. destruct (Z.ltb_spec b 128) as [Hlt|Hge].
  - destruct ((1 <=? n) && (b =? 0)) eqn:E; [done|]. intros [= <- <-].
    rewrite Z.mod_small in * by lia. exists b. repeat (split; [bool_to_prop; lia|]).
    intros [|fuel] ? ?; [lia|]. cbn [leb128_digits]. by rewrite (proj2 (Z.ltb_lt b 128)) by lia.
  - intros Hrun. apply IH in Hrun as (w & -> & Hu & Hw & Hnz & Hdig); [|lia..].
    rewrite pow2_7_succ in * by lia. exists (b `mod` 128 + w * 128).
    repeat (split; [lia|]). intros [|fuel] Hfuel ?; [lia|].
    assert (1 <= w) by lia.
    cbn [leb128_digits]. rewrite (proj2 (Z.ltb_ge _ 128)) by lia.
    rewrite Z.mod_add, Z.mod_mod, Z.div_add, Z.div_small, Z.add_0_l by lia. cbn [app]. f_equal.
    + rewrite (Z.mod_eq b 128) by lia. enough (b / 128 = 1) by lia.
      symmetry. apply (Z.div_unique_pos b 128 1 (b - 128)); lia.
    + apply Hdig; [|destruct fuel; [|lia]].
      * rewrite pow2_7_S in Hfuel. lia.
      * change (2 ^ (7 * Z.of_nat 1)) with 128 in Hfuel. lia.
Qed.

(** Running out of input inside the digits. *)
Lemma decode_loop_prefix bytes fuel v n out pre post :
  0 <= n -> 0 <= out < 2 ^ (7 * n) ->
  0 <= v -> is_usize (out + v * 2 ^ (7 * n)) ->
  leb128_digits fuel v = pre ++ post -> post <> [] -> (1 <= n -> v <> 0) ->
  nom_leb128_usize_loop bytes n out pre = Err (bytes, KEof).
Proof.
  revert v n out pre. induction fuel as [|fuel IH]; intros v n out pre Hn Hout Hv Hu Hdig Hpost Hnz.
  { symmetry in Hdig. by apply app_eq_nil in Hdig as [_ ->]. }
  cbn [leb128_digits] in Hdig. destruct pre as [|b pre]; [done|].
  destruct (Z.ltb_spec v 128).
  { injection Hdig as -> Hdig. symmetry in Hdig. by apply app_eq_nil in Hdig as [_ ->]. }
  injection Hdig as <- Hdig.
  destruct (decode_loop_more bytes pre v n out) as (-> & Hout' & Hdiv & Heq); [done..|].
  rewrite Heq in Hu. apply (IH (v / 128)); done || lia.
Qed.

Lemma is_usize_u64 v : is_usize v -> is_u64 v.
Proof. unfold is_uint. destruct usize_bits_spec as [-> | ->]; unfold_uint; lia. Qed.

Lemma u64_digits_fuel v : is_u64 v -> 0 <= v < 2 ^ (7 * Z.of_nat 10).
Proof. unfold is_uint. assert (2 ^ 64 < 2 ^ (7 * Z.of_nat 10)) by reflexivity. lia. Qed.

(** Decoding inverts encoding, both ways. [nom_leb128_usize] succeeds
    on an input exactly when the input starts with the bytes [encode_usize]
    produces for a [usize]; it then returns that integer and what follows. So
    every encoding is accepted, and no non-canonical, overflowing or truncated
    encoding is. *)
Theorem nom_leb128_usize_iff (bytes rest : list u8) (v : usize) :
  is_bytes bytes ->
  nom_leb128_usize bytes = Ok (rest, v) <-> is_usize v /\ bytes = encode_usize v ++ rest.
Proof.
  intros Hbytes. unfold nom_leb128_usize, encode_usize. split.
  - intros Hrun. apply decode_loop_inv in Hrun as (w & -> & Hu & Hw & _ & Hdig); [|done|lia|done].
    replace (0 + w * 2 ^ (7 * 0)) with w in * by lia. split; [done|].
    pose proof (is_usize_u64 w Hu). rewrite encode_digits by done.
    apply Hdig; [apply (u64_digits_fuel w); done | lia].
  - intros [Hu ->]. pose proof (is_usize_u64 v Hu). rewrite encode_digits by done.
    rewrite decode_loop_digits; replace (0 + v * 2 ^ (7 * 0)) with v by lia;
      done || lia || by apply u64_digits_fuel.
Qed.

(** ** Frames *)

(** The prefix decoder of frames is the same loop, with other errors. *)
Lemma decode_leb128_nom bytes n out iter :
  decode_leb128 n out iter =
  match nom_leb128_usize_loop bytes n out iter with
  | Ok (_, v) => Some (Ok v)
  | Err (_, KEof) => None
  | Err (_, KVerify) => Some (Err NonMinimalLengthPrefix)
  | Err (_, _) => Some (Err LengthPrefixTooLarge)
  end.
Proof.
  revert n out. induction iter as [|b iter IH]; intros n out; cbn; [done|].
  repeat (case_match; try done).
Qed.

Lemma decode_leb128_encode v : is_usize v -> decode_leb128 0 0 (encode_usize v) = Some (Ok v).
Proof.
  intros Hu. pose proof (is_usize_u64 v Hu). unfold encode_usize.
  rewrite (decode_leb128_nom []), <- (app_nil_r (encode v)), encode_digits by done.
  rewrite decode_loop_digits; replace (0 + v * 2 ^ (7 * 0)) with v by lia;
    done || lia || by apply u64_digits_fuel.
Qed.

Lemma decode_leb128_prefix v pre post :
  is_usize v -> encode_usize v = pre ++ post -> post <> [] -> decode_leb128 0 0 pre = None.
Proof.
  intros Hu. pose proof (is_usize_u64 v Hu) as Hu64. unfold encode_usize.
  rewrite encode_digits by done. intros Heq Hpost.
  rewrite (decode_leb128_nom []), (decode_loop_prefix _ 10 v 0 0 pre post);
    replace (0 + v * 2 ^ (7 * 0)) with v by lia; done || (unfold is_uint in *; lia).
Qed.

(** The number of digits. *)
Lemma leb128_digits_length fuel v k :
  0 <= v < 2 ^ (7 * Z.of_nat k) -> (0 < k)%nat -> (length (leb128_digits fuel v) <= k)%nat.
Proof.
  revert v k. induction fuel as [|fuel IH]; intros v k Hv Hk; cbn; [lia|].
  destruct (Z.ltb_spec v 128); cbn; [lia|]. destruct k as [|k]; [lia|].
  rewrite pow2_7_S in Hv. apply le_n_S, IH.
  - split; [apply Z.div_pos; lia | apply Z.div_lt_upper_bound; lia].
  - destruct k; [|lia]. change (2 ^ (7 * Z.of_nat 0)) with 1 in Hv. lia.
Qed.

(** A length prefix is shorter than the limit [update] puts on it. *)
Lemma encode_usize_short v : is_usize v -> len (encode_usize v) < 2 * (usize_bits / 8).
Proof.
  intros Hu. pose proof (is_usize_u64 v Hu). unfold encode_usize, len, is_uint in *.
  rewrite encode_digits by done.
  destruct usize_bits_spec as [E|E]; rewrite E in *.
  - change (2 * (32 / 8)) with 8.
    enough (length (leb128_digits 10 v) <= 5)%nat by lia. apply leb128_digits_length; [|lia].
    assert (2 ^ 32 < 2 ^ (7 * Z.of_nat 5)) by reflexivity. lia.
  - change (2 * (64 / 8)) with 16.
    enough (length (leb128_digits 10 v) <= 10)%nat by lia. apply leb128_digits_length; [|lia].
    assert (2 ^ 64 < 2 ^ (7 * Z.of_nat 10)) by reflexivity. lia.
Qed.

(** [total_read] is an accumulator. *)
Definition add_read (t : Z) (r : result FramedError (usize * Framed)) :
    result FramedError (usize * Framed) :=
  match r with
  | Ok (n, f) => Ok (t + n, f)
  | Err e => Err e
  end.

Lemma update_body_total self el data t :
  update_body self el data t = add_read t (update_body self el data 0).
Proof. unfold update_body. case_if; cbn; do 2 f_equal; lia. Qed.

Lemma update_loop_total self data t :
  update_loop self data t = add_read t (update_loop self data 0).
Proof.
  revert self t. induction data as [|b data IH]; intros self t; cbn.
  - case_match; [cbn; do 2 f_equal; lia | apply update_body_total].
  - case_match; [|apply update_body_total].
    repeat (case_match; try done); subst; rewrite IH; symmetry; rewrite IH;
      destruct (update_loop _ data 0) as [[??]|]; cbn; try done; do 2 f_equal; lia.
Qed.

(** The invariant of a frame being read: the buffer holds bytes of the prefix,
    or not more of the body than was announced. *)
Definition framed_ok (self : FramedInProgress) : Prop :=
  match inner self with
  | Length => is_bytes (buffer self)
  | Body expected_len => is_usize expected_len /\ len (buffer self) <= expected_len
  end.

Lemma decode_leb128_usize buf v :
  is_bytes buf -> decode_leb128 0 0 buf = Some (Ok v) -> is_usize v.
Proof.
  intros Hbuf. rewrite (decode_leb128_nom []).
  destruct (nom_leb128_usize_loop [] 0 0 buf) as [[r w]|[? []]] eqn:E; try done.
  intros [= ->]. by apply decode_loop_inv in E as (? & ? & ? & _); [| |lia|].
Qed.

Lemma is_usize_missing el n : is_usize el -> 0 <= n <= el -> wsub usize_bits el n = el - n.
Proof. intros. apply wrap_small. unfold is_uint in *. lia. Qed.

(** The body arm reads what is missing and available. *)
Lemma update_body_short self el data t :
  is_usize el -> len (buffer self) <= el -> len (buffer self) + len data < el ->
  update_body self el data t =
  Ok (t + len data, InProgress {| max_len := max_len self; buffer := buffer self ++ data;
                                  inner := inner self |}).
Proof.
  intros Hel Hle Hlt. unfold update_body. pose proof (len_nonneg (buffer self)).
  rewrite is_usize_missing by (done || lia). rewrite Z.min_r by lia.
  rewrite take_ge by (unfold len; lia).
  rewrite len_app, (proj2 (Z.eqb_neq _ _)) by lia. done.
Qed.

Lemma update_body_done self el body rest t :
  is_usize el -> len (buffer self) + len body = el ->
  update_body self el (body ++ rest) t = Ok (t + len body, Finished (buffer self ++ body)).
Proof.
  intros Hel Heq. unfold update_body. pose proof (len_nonneg (buffer self)).
  pose proof (len_nonneg body). pose proof (len_nonneg rest).
  rewrite is_usize_missing, (len_app body rest), Z.min_l by (done || lia).
  replace (el - len (buffer self)) with (len body) by lia.
  rewrite (take_app_length' body) by (unfold len; lia).
  by rewrite len_app, (proj2 (Z.eqb_eq _ _)) by lia.
Qed.

(** At least as much data as is missing: the frame is a prefix of it. *)
Lemma split_at_len {A} (l : list A) n :
  0 <= n <= len l -> exists l1 l2, l = l1 ++ l2 /\ len l1 = n.
Proof.
  intros Hn. exists (take (Z.to_nat n) l), (drop (Z.to_nat n) l).
  rewrite take_drop. split; [done|]. unfold len in *. rewrite length_take. lia.
Qed.

Lemma update_body_app self el d1 d2 t :
  framed_ok self -> inner self = Body el ->
  update_body self el (d1 ++ d2) t =
  match update_body self el d1 t with
  | Ok (n, InProgress self') => update_body self' el d2 n
  | r => r
  end.
Proof.
  intros Hok Hinner. unfold framed_ok in Hok. rewrite Hinner in Hok. destruct Hok as [Hel Hle].
  destruct (Z.lt_ge_cases (len (buffer self) + len d1) el) as [Hlt|Hge].
  - rewrite (update_body_short _ _ d1) by done.
    destruct (Z.lt_ge_cases (len (buffer self) + len (d1 ++ d2)) el) as [Hlt2|Hge2].
    + rewrite !update_body_short by (done || cbn; len_lia). cbn. rewrite app_assoc.
      do 2 f_equal. len_lia.
    + destruct (split_at_len d2 (el - len (buffer self) - len d1)) as (b & r & -> & Hb); [len_lia|].
      rewrite app_assoc, !update_body_done by (done || cbn; len_lia). cbn.
      rewrite app_assoc. do 2 f_equal. len_lia.
  - destruct (split_at_len d1 (el - len (buffer self))) as (b & r & -> & Hb); [len_lia|].
    rewrite <- app_assoc, !update_body_done by (done || lia). done.
Qed.

Lemma update_body_ok self el data t n self' :
  framed_ok self -> inner self = Body el -> update_body self el data t = Ok (n, InProgress self') ->
  framed_ok self' /\ inner self' = Body el /\ n = t + len data.
Proof.
  intros Hok Hinner. pose proof Hok as Hok'. unfold framed_ok in Hok'. rewrite Hinner in Hok'.
  destruct Hok' as [Hel Hle].
  destruct (Z.lt_ge_cases (len (buffer self) + len data) el) as [Hlt|Hge].
  - rewrite update_body_short by done. intros [= <- <-]. unfold framed_ok.
    cbn [inner buffer]. rewrite Hinner. split; [split; [done|len_lia]|done].
  - destruct (split_at_len data (el - len (buffer self))) as (b & r & -> & Hb); [len_lia|].
    by rewrite update_body_done by (done || lia).
Qed.

Lemma update_loop_body self el data t :
  inner self = Body el -> update_loop self data t = update_body self el data t.
Proof. intros Hi. destruct data; cbn; by rewrite Hi. Qed.

Lemma update_loop_app self d1 d2 t :
  framed_ok self -> is_bytes d1 ->
  update_loop self (d1 ++ d2) t =
  match update_loop self d1 t with
  | Ok (n, InProgress self') => update_loop self' d2 n
  | r => r
  end.
Proof.
  intros Hok Hd1. revert self t Hok. induction Hd1 as [|b d1 Hb Hd1 IH]; intros self t Hok.
  - cbn [app]. destruct (inner self) as [|el] eqn:Hinner.
    + cbn. by rewrite Hinner.
    + rewrite !(update_loop_body _ el) by done.
      rewrite <- (app_nil_l d2) at 1. rewrite update_body_app by done.
      destruct (update_body self el [] t) as [[n [self'|]]|] eqn:E; try done.
      apply update_body_ok in E as (_ & Hi & _); [|done..]. by rewrite (update_loop_body _ el).
  - cbn [app update_loop]. destruct (inner self) as [|el] eqn:Hinner.
    + unfold framed_ok in Hok. rewrite Hinner in Hok.
      assert (Hbuf : is_bytes (buffer self ++ [b])) by (apply Forall_app; auto).
      destruct (_ <=? _); [done|].
      destruct (decode_leb128 0 0 (buffer self ++ [b])) as [[v|]|] eqn:E; [|done|by apply IH].
      destruct (_ <? v); [done|]. apply IH. apply (decode_leb128_usize _ _ Hbuf) in E.
      split; [done|]. unfold is_uint in E. cbn [buffer]. len_lia.
    + rewrite app_comm_cons, (update_body_app _ _ (b :: d1)) by done.
      destruct (update_body self el (b :: d1) t) as [[n [self'|]]|] eqn:E; try done.
      apply update_body_ok in E as (_ & Hi & _); [|done..]. by rewrite (update_loop_body _ el).
Qed.

(** Reading a frame is insensitive to how the input is cut. Feeding
    [d1 ++ d2] at once gives what feeding [d1] gives when that finishes or fails,
    and otherwise what feeding [d2] to the reader that [d1] left gives, with the
    counts of bytes read added up. *)
Theorem update_app (self : FramedInProgress) (d1 d2 : list u8) :
  framed_ok self -> is_bytes d1 ->
  update self (d1 ++ d2) =
  match update self d1 with
  | Ok (n, InProgress self') => add_read n (update self' d2)
  | Ok (n, Finished frame) => Ok (n, Finished frame)
  | Err e => Err e
  end.
Proof.
  intros Hok Hd. unfold update. rewrite update_loop_app by done.
  destruct (update_loop self d1 0) as [[n [self'|]]|]; [apply update_loop_total|done..].
Qed.

(** Reading the rest of a length prefix. *)
Lemma update_loop_prefix max v pre post data t :
  is_usize v -> encode_usize v = pre ++ post -> post <> [] ->
  update_loop {| max_len := max; buffer := pre; inner := Length |} (post ++ data) t =
  if max <? v then Err (MaxLengthExceeded max)
  else update_loop {| max_len := max; buffer := []; inner := Body v |} data (t + len post).
Proof.
  intros Hu. revert pre t. induction post as [|b post IH]; intros pre t Henc Hpost; [done|].
  cbn [app update_loop inner buffer max_len].
  pose proof (encode_usize_short v Hu) as Hshort. rewrite Henc in Hshort.
  rewrite (proj2 (Z.leb_gt _ _)) by len_lia. rewrite cons_middle, app_assoc in Henc.
  destruct post as [|b' post].
  - rewrite app_nil_r in Henc. rewrite <- Henc, decode_leb128_encode by done. done.
  - rewrite (decode_leb128_prefix v _ (b' :: post)) by done.
    rewrite IH by done. case_if; [done|]. f_equal. len_lia.
Qed.

Lemma encode_usize_nonempty v : encode_usize v <> [].
Proof. unfold encode_usize, encode, encode_fuel. cbn. unfold EncodeIter_next. cbn. by case_if. Qed.

(** A frame that is not longer than the limit of the reader is read
    back exactly: after the length prefix and the frame the reader returns the
    frame and the number of bytes they take, and leaves what follows. *)
Theorem framed_roundtrip (max : usize) (frame rest : list u8) :
  is_usize (len frame) -> len frame <= max ->
  update (FramedInProgress_new max) (encode_usize (len frame) ++ frame ++ rest)
  = Ok (len (encode_usize (len frame)) + len frame, Finished frame).
Proof.
  intros Hu Hmax. unfold update, FramedInProgress_new.
  rewrite (update_loop_prefix _ (len frame) []); [|done..|apply encode_usize_nonempty].
  rewrite (proj2 (Z.ltb_ge _ _)), (update_loop_body _ (len frame)) by done.
  by rewrite update_body_done.
Qed.

(** [update] enforces the limit: an announced length above [max_len]
    is an error, whatever follows it. *)
Theorem framed_too_long (max v : usize) (rest : list u8) :
  is_usize v -> max < v ->
  update (FramedInProgress_new max) (encode_usize v ++ rest) = Err (MaxLengthExceeded max).
Proof.
  intros Hu Hmax. unfold update, FramedInProgress_new.
  rewrite (update_loop_prefix _ v []); [|done..|apply encode_usize_nonempty].
  by rewrite (proj2 (Z.ltb_lt _ _)).
Qed.

End decoding.

(** ** Witnesses *)

Example encode_known :
  encode 0x123456789abcdef = [239; 155; 175; 205; 248; 172; 209; 145; 1].
Proof. reflexivity. Qed.

Lemma nom_leb128_usize_iff_witness :
  is_bytes [172; 2; 7] /\ nom_leb128_usize (H := platform64) [172; 2; 7] = Ok ([7], 300).
Proof.
  assert (Hb : is_bytes [172; 2; 7]) by (repeat constructor; by vm_compute).
  split; [exact Hb|]. apply (nom_leb128_usize_iff (H := platform64)); [exact Hb|].
  split; [by vm_compute | reflexivity].
Defined.

Lemma update_app_witness :
  update (H := platform32) (FramedInProgress_new 10) ([3; 1] ++ [2; 3; 4])
  = Ok (4, Finished [1; 2; 3]).
Proof.
  rewrite (update_app (H := platform32)); [reflexivity | constructor |].
  repeat constructor; by vm_compute.
Defined.

Lemma framed_roundtrip_witness :
  update (H := platform64) (FramedInProgress_new 5) ([2; 8; 9; 1; 1])
  = Ok (3, Finished [8; 9]).
Proof.
  apply (framed_roundtrip (H := platform64) 5 [8; 9] [1; 1]); [by vm_compute | done].
Defined.

Lemma framed_too_long_witness :
  update (H := platform32) (FramedInProgress_new 5) [6; 1] = Err (MaxLengthExceeded 5).
Proof. apply (framed_too_long (H := platform32) 5 6 [1]); [by vm_compute | done]. Defined.
