(* ===== verification/Scale.v ===== *)
(** * SCALE compact integers ([src/src/util.rs])

    [decode_scale_compact!] and [encode_scale_compact!] are macros over the
    integer type; the definitions take its width [w] instead (64 for [u64], the
    platform's for [usize]). The number decoder of variable size used for block
    numbers is the closure given to [map_opt]. *)

From S2P Require Import Prelude Leb128.
From Stdlib Require Import Btauto.

(** ** Decoding *)

(** The loop over [1..=num_bytes] of the big-integer mode. [None] is the overflow. *)
Fixpoint scale_compact_loop (w : Z) (bytes : list u8) (shift out_value : Z) : option Z :=
  match bytes with
  | [] => Some out_value
  | b :: bytes =>
      match (match checked_shl w 1 shift with
             | Some shl => checked_mul w b shl
             | None => None
             end) with
      | Some v => scale_compact_loop w bytes (shift + 8) (Z.lor out_value v)
      | None => None
      end
  end.

Definition nom_scale_compact (w : Z) (bytes : list u8) : IResult Z :=
  match bytes with
  | [] => Err (bytes, KEof)
  | b0 :: tl =>
      match Z.land b0 3 with
      | 0 => Ok (tl, Z.shiftr b0 2)
      | 1 =>
          match tl with
          | b1 :: rest => Ok (rest, Z.lor (Z.shiftl b1 6) (Z.shiftr b0 2))
          | _ => Err (bytes, KEof)
          end
      | 2 =>
          match tl with
          | b1 :: b2 :: b3 :: rest =>
              let byte0 := Z.shiftr b0 2 in
              match checked_shl 32 b1 6, checked_shl 32 b2 14, checked_shl 32 b3 22 with
              | Some byte1, Some byte2, Some byte3 =>
                  let value := Z.lor (Z.lor (Z.lor byte3 byte2) byte1) byte0 in
                  match checked w value with
                  | Some v => Ok (rest, v)
                  | None => Err (bytes, KSatisfy)
                  end
              | _, _, _ => Err (bytes, KSatisfy)
              end
          | _ => Err (bytes, KEof)
          end
      | _ =>
          let num_bytes := Z.shiftr b0 2 + 4 in
          if len bytes <? num_bytes + 1 then Err (bytes, KEof)
          else if default 0 (bytes !! Z.to_nat num_bytes) =? 0 then Err (bytes, KSatisfy)
          else
            match scale_compact_loop w (take (Z.to_nat num_bytes) tl) 0 0 with
            | Some out_value => Ok (drop (Z.to_nat num_bytes) tl, out_value)
            | None => Err (bytes, KSatisfy)
            end
      end
  end.

Definition nom_scale_compact_u64 (bytes : list u8) : IResult u64 := nom_scale_compact 64 bytes.
Definition nom_scale_compact_usize `{Platform} (bytes : list u8) : IResult usize :=
  nom_scale_compact usize_bits bytes.

(** ** Encoding *)

(** [while value != 0 { array.push(value & 0xff); value >>= 8 }]; a [u64] has
    at most eight bytes. *)
Fixpoint scale_compact_bytes (fuel : nat) (value : Z) : list u8 :=
  match fuel with
  | O => []
  | S fuel =>
      if value =? 0 then []
      else Z.land value 255 :: scale_compact_bytes fuel (Z.shiftr value 8)
  end.

Definition encode_scale_compact (value : Z) : list u8 :=
  if value <? 64 then [Z.shiftl value 2]
  else if value <? 2 ^ 14 then
    [Z.lor (Z.shiftl (Z.land value 63) 2) 1; Z.land (Z.shiftr value 6) 255]
  else if value <? 2 ^ 30 then
    [Z.lor (Z.shiftl (Z.land value 63) 2) 2; Z.land (Z.shiftr value 6) 255;
     Z.land (Z.shiftr value 14) 255; Z.land (Z.shiftr value 22) 255]
  else
    let tail := scale_compact_bytes 9 value in
    Z.lor (Z.shiftl (len (0 :: tail) - 1 - 4) 2) 3 :: tail.

Definition encode_scale_compact_u64 (value : u64) : list u8 := encode_scale_compact value.
Definition encode_scale_compact_usize (value : usize) : list u8 := encode_scale_compact value.

(** The closure of [nom_varsize_number_decode_u64], applied to the [num_bytes]
    bytes that were taken from the input. *)
Definition varsize_number_decode_u64 (num_bytes : usize) (slice : list u8) : option u64 :=
  let clamp := Z.to_nat (Z.min 8 num_bytes) in
  if existsb (fun b => negb (b =? 0)) (drop clamp slice) then None
  else Some (from_le_bytes (take clamp slice ++ replicate (8 - clamp) 0)).

(** ** The big-integer mode *)

Lemma land_255 v : Z.land v 255 = v `mod` 256.
Proof. by apply (land_mask v 255 8). Qed.

Lemma scale_compact_bytes_le fuel v n :
  0 < v -> 2 ^ (8 * (Z.of_nat n - 1)) <= v < 2 ^ (8 * Z.of_nat n) -> (n <= fuel)%nat ->
  scale_compact_bytes fuel v = to_le_bytes n v.
Proof.
  revert v n. induction fuel as [|fuel IH]; intros v n Hpos Hv Hf.
  - destruct n; [|lia]. done.
  - destruct n as [|n]; [change (2 ^ (8 * Z.of_nat 0)) with 1 in Hv; lia|].
    cbn [scale_compact_bytes to_le_bytes]. rewrite (proj2 (Z.eqb_neq v 0)) by lia.
    rewrite land_255, Z.shiftr_div_pow2 by lia. change (2 ^ 8) with 256. f_equal.
    rewrite pow2_8_S in Hv. destruct n as [|n].
    + change (2 ^ (8 * Z.of_nat 0)) with 1 in Hv. rewrite Z.div_small by lia. by destruct fuel.
    + replace (8 * (Z.of_nat (S (S n)) - 1)) with (8 * Z.of_nat (S n)) in Hv by lia.
      rewrite pow2_8_S in Hv at 1. pose proof (pow2_pos (8 * Z.of_nat n)).
      assert (2 ^ (8 * Z.of_nat n) <= v / 256) by (apply Z.div_le_lower_bound; lia).
      apply IH; [lia| |lia]. replace (8 * (Z.of_nat (S n) - 1)) with (8 * Z.of_nat n) by lia.
      split; [done|]. apply Z.div_lt_upper_bound; lia.
Qed.

(** The most significant byte. *)
Lemma to_le_bytes_last k v :
  0 <= v -> to_le_bytes (S k) v !! k = Some ((v / 2 ^ (8 * Z.of_nat k)) `mod` 256).
Proof.
  revert v. induction k as [|k IH]; intros v Hv.
  - cbn. by rewrite Z.div_1_r.
  - change (to_le_bytes (S (S k)) v) with (v `mod` 256 :: to_le_bytes (S k) (v / 256)).
    cbn [lookup list_lookup]. rewrite IH by (apply Z.div_pos; lia).
    rewrite pow2_8_S, Z.div_div by (try apply Z.pow_nonzero; lia). done.
Qed.

(** The number of bytes of a number. *)
Lemma byte_size_exists (v : Z) (n : nat) :
  0 < v < 2 ^ (8 * Z.of_nat n) ->
  exists k, (1 <= k <= n)%nat /\ 2 ^ (8 * (Z.of_nat k - 1)) <= v < 2 ^ (8 * Z.of_nat k).
Proof.
  induction n as [|n IH]; intros Hv; [change (2 ^ (8 * Z.of_nat 0)) with 1 in Hv; lia|].
  destruct (Z.lt_ge_cases v (2 ^ (8 * Z.of_nat n))) as [Hlt|Hge].
  - destruct IH as (k & ? & ?); [lia|]. exists k. split; [lia|done].
  - exists (S n). split; [lia|]. split; [|lia].
    replace (8 * (Z.of_nat (S n) - 1)) with (8 * Z.of_nat n) by lia. done.
Qed.

(** The loop succeeds exactly when all the bytes have a place in the integer. *)
Lemma scale_compact_loop_spec w m bs k out r :
  w = 8 * m -> 0 <= k -> is_bytes bs -> 0 <= out < 2 ^ (8 * k) ->
  scale_compact_loop w bs (8 * k) out = Some r <->
  (bs = [] \/ k + len bs <= m) /\ r = out + 2 ^ (8 * k) * from_le_bytes bs.
Proof.
  intros Hw Hk Hbs. revert k out Hk. induction Hbs as [|b bs Hb Hbs IH]; intros k out Hk Hout;
    cbn [scale_compact_loop from_le_bytes].
  - split; [intros [= <-]; split; [by left|lia] | intros [_ ->]; f_equal; lia].
  - unfold checked_shl. rewrite len_cons. pose proof (len_nonneg bs).
    destruct (Z.ltb_spec (8 * k) w) as [Hlt|Hge]; [|split; [done | intros [[?|?] _]; [done|lia]]].
    assert (2 ^ (8 * k) * 256 <= 2 ^ w) as Hpw.
    { change 256 with (2 ^ 8). rewrite <- Z.pow_add_r by lia. apply Z.pow_le_mono_r; lia. }
    assert (2 ^ (8 * (k + 1)) = 2 ^ (8 * k) * 256) as Hp1.
    { change 256 with (2 ^ 8). rewrite <- Z.pow_add_r by lia. f_equal. lia. }
    pose proof (pow2_pos (8 * k)).
    rewrite Z.shiftl_1_l, wrap_small by (unfold is_uint; lia).
    unfold checked_mul. rewrite checked_small by (unfold_uint; nia).
    rewrite lor_mul_add by lia. replace (8 * k + 8) with (8 * (k + 1)) by lia.
    rewrite IH by (unfold_uint; nia). rewrite Hp1.
    split; intros [Hc ->]; (split; [|lia]).
    + right. destruct Hc as [->|?]; [rewrite len_nil; lia|lia].
    + right. destruct Hc as [?|?]; [done|lia].
Qed.

(** Which byte is the header of the encoding. *)
Lemma header_shift x m : 0 <= x -> 0 <= m < 4 -> Z.lor (Z.shiftl x 2) m = m + 4 * x.
Proof. intros. rewrite Z.lor_comm, lor_shiftl_add by (cbn; lia). lia. Qed.

Lemma header_mode x m : 0 <= m < 4 -> Z.land (m + 4 * x) 3 = m.
Proof.
  intros. rewrite (land_mask _ 3 2) by lia. change (2 ^ 2) with 4.
  rewrite Z.add_comm, Z.mul_comm, Z.add_comm, Z.mod_add, Z.mod_small by lia. done.
Qed.

Lemma header_payload x m : 0 <= m < 4 -> Z.shiftr (m + 4 * x) 2 = x.
Proof.
  intros. rewrite Z.shiftr_div_pow2 by lia. change (2 ^ 2) with 4.
  rewrite Z.mul_comm, Z.div_add, Z.div_small by lia. lia.
Qed.

(** The four bytes of the third mode. *)
Lemma scale_assemble4 x0 b1 b2 b3 :
  0 <= x0 < 64 -> is_u8 b1 -> is_u8 b2 -> is_u8 b3 ->
  Z.lor (Z.lor (Z.lor (Z.shiftl b3 22) (Z.shiftl b2 14)) (Z.shiftl b1 6)) x0
  = x0 + 2 ^ 6 * b1 + 2 ^ 14 * b2 + 2 ^ 22 * b3.
Proof.
  intros. unfold_uint.
  transitivity (Z.lor (Z.lor (Z.lor x0 (Z.shiftl b1 6)) (Z.shiftl b2 14)) (Z.shiftl b3 22)).
  { apply Z.bits_inj'. intros n Hn. rewrite !Z.lor_spec. btauto. }
  rewrite (lor_shiftl_add x0) by lia. rewrite (lor_shiftl_add (x0 + _)) by lia.
  rewrite lor_shiftl_add by lia. lia.
Qed.

Lemma checked_shl_byte b s :
  is_u8 b -> 0 <= s <= 22 -> checked_shl 32 b s = Some (Z.shiftl b s).
Proof.
  intros Hb Hs. unfold checked_shl. rewrite (proj2 (Z.ltb_lt _ _)) by lia. f_equal.
  apply wrap_small. unfold_uint. rewrite Z.shiftl_mul_pow2 by lia.
  assert (2 ^ s <= 2 ^ 22) by (apply Z.pow_le_mono_r; lia).
  change (2 ^ 22) with 4194304 in *. pose proof (pow2_pos s). nia.
Qed.

(** A width the macros are used with: a whole number of bytes, between four
    and eight. *)
Definition scale_width (w : Z) : Prop := exists m, w = 8 * m /\ 4 <= m <= 8.

Lemma scale_width_64 : scale_width 64.
Proof. exists 8. lia. Qed.

Lemma scale_width_usize `{Platform} : scale_width usize_bits.
Proof. destruct usize_bits_spec as [-> | ->]; [exists 4 | exists 8]; lia. Qed.

Lemma pow2_14 : 2 ^ 14 = 16384. Proof. reflexivity. Qed.
Lemma pow2_30 : 2 ^ 30 = 1073741824. Proof. reflexivity. Qed.

(** The big-integer mode, encoded: the bytes of the value and their number. *)
Lemma encode_scale_big w v :
  scale_width w -> is_uint w v -> 2 ^ 30 <= v ->
  exists k, (4 <= k)%nat /\ 8 * Z.of_nat k <= w /\
    2 ^ (8 * (Z.of_nat k - 1)) <= v < 2 ^ (8 * Z.of_nat k) /\
    encode_scale_compact v = (3 + 4 * (Z.of_nat k - 4)) :: to_le_bytes k v.
Proof.
  intros (m & -> & Hm) Hv Hbig. unfold is_uint in Hv.
  destruct (byte_size_exists v (Z.to_nat m)) as (k & Hk & Hsize).
  { rewrite Z2Nat.id by lia. lia. }
  assert (4 <= k)%nat.
  { destruct (Nat.le_gt_cases 4 k) as [?|Hlt]; [done|].
    assert (2 ^ (8 * Z.of_nat k) <= 2 ^ 24) by (apply Z.pow_le_mono_r; lia).
    change (2 ^ 24) with 16777216 in *. change (2 ^ 30) with 1073741824 in *. lia. }
  exists k. split_and!; [done | lia | lia | lia |].
  rewrite pow2_30 in Hbig. unfold encode_scale_compact.
  rewrite pow2_14, pow2_30, !(proj2 (Z.ltb_ge v _)) by lia.
  rewrite (scale_compact_bytes_le 9 v k) by lia.
  rewrite len_cons. unfold len. rewrite length_to_le_bytes.
  rewrite header_shift by lia. f_equal. lia.
Qed.

Lemma decode_scale_big w k v rest :
  scale_width w -> (4 <= k)%nat -> 8 * Z.of_nat k <= w ->
  2 ^ (8 * (Z.of_nat k - 1)) <= v < 2 ^ (8 * Z.of_nat k) ->
  nom_scale_compact w ((3 + 4 * (Z.of_nat k - 4)) :: to_le_bytes k v ++ rest) = Ok (rest, v).
Proof.
  intros (m & -> & Hm) Hk Hw Hv. pose proof (pow2_pos (8 * (Z.of_nat k - 1))) as Hp.
  cbn [nom_scale_compact]. rewrite header_mode, header_payload by lia.
  replace (Z.of_nat k - 4 + 4) with (Z.of_nat k) by lia. rewrite Nat2Z.id.
  rewrite len_cons, len_app. unfold len at 1. rewrite length_to_le_bytes.
  pose proof (len_nonneg rest). rewrite (proj2 (Z.ltb_ge _ _)) by lia.
  rewrite take_app_length', drop_app_length' by (symmetry; apply length_to_le_bytes).
  assert (scale_compact_loop (8 * m) (to_le_bytes k v) 0 0 = Some v) as ->.
  { apply (scale_compact_loop_spec (8 * m) m _ 0 0 v); [done | done | apply to_le_bytes_bytes | done |].
    split; [right; unfold len; rewrite length_to_le_bytes; lia|].
      rewrite from_to_le_bytes by lia. change (2 ^ (8 * 0)) with 1. lia. }
  destruct k as [|k]; [lia|].
  match goal with |- context [?l !! S k] =>
    change (l !! S k) with ((to_le_bytes (S k) v ++ rest) !! k) end.
  rewrite lookup_app_l by (rewrite length_to_le_bytes; lia).
  rewrite to_le_bytes_last by lia. cbn [default from_option id].
  replace (8 * (Z.of_nat (S k) - 1)) with (8 * Z.of_nat k) in * by lia.
  assert (1 <= v / 2 ^ (8 * Z.of_nat k)) by (apply Z.div_le_lower_bound; lia).
  assert (v / 2 ^ (8 * Z.of_nat k) < 256)
    by (apply Z.div_lt_upper_bound; [lia | rewrite pow2_8_S in Hv; lia]).
  rewrite Z.mod_small, (proj2 (Z.eqb_neq _ _)) by lia. done.
Qed.

(** The first mode. *)
Lemma scale_small_roundtrip w v rest :
  0 <= v < 64 -> nom_scale_compact w (encode_scale_compact v ++ rest) = Ok (rest, v).
Proof.
  intros Hv. unfold encode_scale_compact. rewrite (proj2 (Z.ltb_lt _ _)) by lia.
  replace (Z.shiftl v 2) with (0 + 4 * v) by (rewrite Z.shiftl_mul_pow2 by lia; lia).
  cbn [app nom_scale_compact]. by rewrite header_mode, header_payload by lia.
Qed.

Lemma scale_medium_roundtrip w v rest :
  64 <= v < 2 ^ 14 -> nom_scale_compact w (encode_scale_compact v ++ rest) = Ok (rest, v).
Proof.
  rewrite pow2_14. intros Hv. unfold encode_scale_compact. rewrite pow2_14.
  rewrite (proj2 (Z.ltb_ge v 64)), (proj2 (Z.ltb_lt v 16384)) by lia.
  rewrite (land_mask v 63 6), header_shift, land_255, Z.shiftr_div_pow2 by (try apply Z.mod_pos_bound; lia).
  change (2 ^ 6) with 64.
  pose proof (Z.mod_pos_bound v 64). pose proof (Z.div_mod v 64).
  assert (v / 64 < 256) by (apply Z.div_lt_upper_bound; lia).
  cbn [app nom_scale_compact]. rewrite header_mode, header_payload by lia.
  rewrite (Z.mod_small (v / 64) 256) by (split; [apply Z.div_pos|]; lia).
  rewrite Z.lor_comm, lor_shiftl_add by (cbn; lia). do 2 f_equal. cbn. lia.
Qed.

Lemma scale_large_roundtrip w v rest :
  scale_width w -> 2 ^ 14 <= v < 2 ^ 30 ->
  nom_scale_compact w (encode_scale_compact v ++ rest) = Ok (rest, v).
Proof.
  rewrite pow2_14, pow2_30. intros (m & -> & Hm) Hv. unfold encode_scale_compact.
  rewrite pow2_14, pow2_30.
  rewrite (proj2 (Z.ltb_ge v 64)), (proj2 (Z.ltb_ge v 16384)), (proj2 (Z.ltb_lt v _)) by lia.
  rewrite (land_mask v 63 6), header_shift, !land_255, !Z.shiftr_div_pow2
    by (try apply Z.mod_pos_bound; lia).
  change (2 ^ 6) with 64. change (2 ^ 14) with (64 * 256). change (2 ^ 22) with (64 * 256 * 256).
  rewrite <- !Z.div_div by lia.
  pose proof (Z.mod_pos_bound v 64). pose proof (Z.div_mod v 64).
  set (q := v / 64) in *.
  pose proof (Z.mod_pos_bound q 256). pose proof (Z.div_mod q 256).
  set (q2 := q / 256) in *.
  pose proof (Z.mod_pos_bound q2 256). pose proof (Z.div_mod q2 256).
  rewrite (Z.mod_small (q2 / 256) 256) by lia.
  cbn [app nom_scale_compact]. rewrite header_mode, header_payload by lia.
  rewrite !checked_shl_byte by (unfold_uint; lia).
  rewrite scale_assemble4 by (unfold_uint; lia).
  match goal with |- context [checked _ ?x] => replace x with v by lia end.
  rewrite checked_small; [done|]. unfold is_uint.
  assert (2 ^ 32 <= 2 ^ (8 * m)) by (apply Z.pow_le_mono_r; lia).
  change (2 ^ 32) with 4294967296 in *. lia.
Qed.

Lemma nom_scale_compact_encode w v rest :
  scale_width w -> is_uint w v ->
  nom_scale_compact w (encode_scale_compact v ++ rest) = Ok (rest, v).
Proof.
  intros Hw Hv. pose proof Hv as Hv'. unfold is_uint in Hv'.
  destruct (Z.lt_ge_cases v 64); [apply scale_small_roundtrip; lia|].
  destruct (Z.lt_ge_cases v (2 ^ 14)); [apply scale_medium_roundtrip; lia|].
  destruct (Z.lt_ge_cases v (2 ^ 30)); [apply scale_large_roundtrip; [done|lia]|].
  destruct (encode_scale_big w v) as (k & Hk & Hkw & Hsize & ->); [done..|].
  by apply decode_scale_big.
Qed.

(** Every integer round-trips through the compact encoding, and decoding
    stops exactly at the end of the encoding; for both instances of the macros. *)
Theorem scale_compact_roundtrip `{Platform} (v : Z) (rest : list u8) :
  (is_u64 v -> nom_scale_compact_u64 (encode_scale_compact_u64 v ++ rest) = Ok (rest, v)) /\
  (is_usize v -> nom_scale_compact_usize (encode_scale_compact_usize v ++ rest) = Ok (rest, v)).
Proof.
  split; apply nom_scale_compact_encode; [apply scale_width_64 | apply scale_width_usize].
Qed.

(** The size of an encoding. *)
Lemma encode_scale_compact_len v n :
  0 <= v < 2 ^ (8 * Z.of_nat n) -> (4 <= n <= 8)%nat ->
  len (encode_scale_compact v) <= 1 + Z.of_nat n.
Proof.
  intros Hv Hn. destruct (Z.lt_ge_cases v (2 ^ 30)) as [Hlt|Hge].
  - unfold encode_scale_compact. repeat case_if; unfold len; cbn [length]; bool_to_prop; lia.
  - destruct (encode_scale_big (8 * Z.of_nat n) v) as (k & Hk & Hkw & _ & ->);
      [exists (Z.of_nat n); lia | unfold is_uint; lia | done |].
    rewrite len_cons. unfold len. rewrite length_to_le_bytes. lia.
Qed.

Lemma shiftr_byte_2 b : is_u8 b -> 0 <= Z.shiftr b 2 < 64.
Proof.
  intros Hb. unfold_uint. rewrite Z.shiftr_div_pow2 by lia. change (2 ^ 2) with 4.
  split; [apply Z.div_pos; lia | apply Z.div_lt_upper_bound; lia].
Qed.

Lemma encode_scale_compact_len_fixed v :
  (v < 64 -> len (encode_scale_compact v) <= 1) /\
  (v < 2 ^ 14 -> len (encode_scale_compact v) <= 2) /\
  (v < 2 ^ 30 -> len (encode_scale_compact v) <= 4).
Proof.
  rewrite pow2_14, pow2_30. unfold encode_scale_compact. rewrite pow2_14, pow2_30.
  repeat case_if; unfold len; cbn [length]; bool_to_prop; lia.
Qed.

Lemma scale_mode b : is_u8 b ->
  Z.land b 3 = 0 \/ Z.land b 3 = 1 \/ Z.land b 3 = 2 \/ Z.land b 3 = 3.
Proof.
  intros. rewrite (land_mask _ 3 2) by lia. pose proof (Z.mod_pos_bound b (2 ^ 2)).
  change (2 ^ 2) with 4 in *. lia.
Qed.

(** The big-integer mode, decoded. *)
Lemma scale_big_inv m b0 tl rest v :
  4 <= m <= 8 -> is_u8 b0 -> is_bytes tl -> Z.land b0 3 = 3 ->
  nom_scale_compact (8 * m) (b0 :: tl) = Ok (rest, v) ->
  exists n, (4 <= n)%nat /\ Z.of_nat n <= m /\ tl = take n tl ++ rest /\
    length (take n tl) = n /\ v = from_le_bytes (take n tl).
Proof.
  intros Hm Hb0 Htl Hmode. cbn [nom_scale_compact]. rewrite Hmode.
  pose proof (shiftr_byte_2 b0 Hb0) as Hx. set (n := Z.shiftr b0 2 + 4) in *.
  destruct (Z.ltb_spec (len (b0 :: tl)) (n + 1)) as [|Hlen]; [done|]. case_if; [done|].
  destruct (scale_compact_loop _ _ 0 0) as [r|] eqn:Hloop; [|done]. intros [= <- <-].
  apply (scale_compact_loop_spec (8 * m) m _ 0 0) in Hloop as [Hfit ->];
    [| done | lia | by apply Forall_take | done].
  assert (length (take (Z.to_nat n) tl) = Z.to_nat n) as Hl.
  { rewrite length_take. unfold len in Hlen. cbn [length] in Hlen. lia. }
  exists (Z.to_nat n). rewrite take_drop. split_and!; try done; try lia.
  destruct Hfit as [Hnil|Hfit]; [rewrite Hnil in Hl; cbn in Hl; lia|].
  unfold len in Hfit. lia.
Qed.

(** What the decoder accepts. A successful decoding consumes a non-empty
    prefix and yields a value of the type; the encoding of that value is never
    longer than the prefix, so the encoder's output is the shortest input that
    decodes to a value. *)
Theorem scale_compact_minimal (w v : Z) (bytes rest : list u8) :
  scale_width w -> is_bytes bytes -> nom_scale_compact w bytes = Ok (rest, v) ->
  is_uint w v /\ exists pre, bytes = pre ++ rest /\ pre <> [] /\ len (encode_scale_compact v) <= len pre.
Proof.
  intros (m & -> & Hm) Hbytes. destruct Hbytes as [|b0 tl Hb0 Htl]; [done|].
  assert (2 ^ 32 <= 2 ^ (8 * m)) by (apply Z.pow_le_mono_r; lia).
  change (2 ^ 32) with 4294967296 in *.
  pose proof (shiftr_byte_2 b0 Hb0) as Hx. pose proof (encode_scale_compact_len_fixed v) as Hfix.
  rewrite pow2_14, pow2_30 in Hfix.
  destruct (scale_mode b0 Hb0) as [E|[E|[E|E]]]; [cbn [nom_scale_compact]; rewrite E..|].
  - intros [= <- <-]. unfold is_uint. split; [lia|]. exists [b0]. split_and!; [done..|].
    rewrite len_cons, len_nil. lia.
  - destruct Htl as [|b1 tl Hb1 Htl]; [done|]. intros [= <- <-].
    rewrite Z.lor_comm, lor_shiftl_add in * by (cbn; lia). change (2 ^ 6) with 64 in *.
    unfold_uint. split; [unfold is_uint; lia|]. exists [b0; b1]. split_and!; [done..|].
    rewrite !len_cons, len_nil. lia.
  - destruct Htl as [|b1 ? Hb1 [|b2 ? Hb2 [|b3 tl Hb3 Htl]]]; try done.
    rewrite !checked_shl_byte, scale_assemble4 by (done || lia). cbn [len] in *.
    destruct (checked _ _) as [r|] eqn:Hc; [|done]. intros [= <- <-].
    apply checked_Some in Hc as [-> Hc]. split; [done|]. exists [b0; b1; b2; b3].
    split_and!; [done..|]. unfold_uint. rewrite !len_cons, len_nil. lia.
  - intros Hd. apply scale_big_inv in Hd as (n & Hn & Hnm & Htake & Hl & ->); [|done..].
    pose proof (from_le_bytes_bound (take n tl) (Forall_take _ _ _ Htl)) as Hbound.
    unfold len in Hbound. rewrite Hl in Hbound.
    assert (2 ^ (8 * Z.of_nat n) <= 2 ^ (8 * m)) by (apply Z.pow_le_mono_r; lia).
    split; [unfold is_uint; lia|]. exists (b0 :: take n tl). split_and!; [|done|].
    + cbn [app]. by rewrite <- Htake.
    + etrans; [apply (encode_scale_compact_len _ n); lia|]. rewrite len_cons. unfold len. lia.
Qed.

Lemma existsb_nonzero bs :
  is_bytes bs -> existsb (fun b => negb (b =? 0)) bs = negb (from_le_bytes bs =? 0).
Proof.
  induction 1 as [|b bs Hb Hbs IH]; cbn [existsb from_le_bytes]; [done|].
  rewrite IH. pose proof (from_le_bytes_bound bs Hbs). unfold_uint.
  destruct (Z.eqb_spec b 0), (Z.eqb_spec (from_le_bytes bs) 0);
    destruct (Z.eqb_spec (b + 256 * from_le_bytes bs) 0); cbn; done || lia.
Qed.

Lemma from_le_bytes_pad bs n : from_le_bytes (bs ++ replicate n 0) = from_le_bytes bs.
Proof.
  rewrite from_le_bytes_app, (from_le_bytes_zero (replicate n 0)); [lia|].
  by apply Forall_replicate.
Qed.

(** The block-number decoder accepts a little-endian number of any size
    exactly when its value fits in 64 bits, and returns that value. *)
Theorem varsize_number_decode_u64_spec (slice : list u8) :
  is_bytes slice ->
  varsize_number_decode_u64 (len slice) slice =
  if from_le_bytes slice <? 2 ^ 64 then Some (from_le_bytes slice) else None.
Proof.
  intros Hs. unfold varsize_number_decode_u64. set (clamp := Z.to_nat _).
  rewrite existsb_nonzero by (by apply Forall_drop).
  rewrite from_le_bytes_pad. pose proof (from_le_bytes_app (take clamp slice) (drop clamp slice)) as Happ.
  rewrite take_drop in Happ.
  pose proof (from_le_bytes_bound _ (Forall_take _ clamp _ Hs)) as Hlo.
  pose proof (from_le_bytes_bound _ (Forall_drop _ clamp _ Hs)) as Hhi.
  destruct (Z.le_gt_cases (len slice) 8) as [Hle|Hgt].
  - assert (drop clamp slice = []) as Hd by (apply drop_ge; unfold clamp, len in *; lia).
    rewrite Hd in *. cbn [from_le_bytes] in *.
    assert (2 ^ (8 * len (take clamp slice)) <= 2 ^ 64).
    { apply Z.pow_le_mono_r; [lia|]. unfold len in *. rewrite length_take. lia. }
    cbn [Z.eqb negb]. rewrite (proj2 (Z.ltb_lt _ _)) by lia. f_equal. lia.
  - assert (len (take clamp slice) = 8) as H8.
    { unfold clamp, len in *. rewrite length_take. lia. }
    rewrite H8 in *. change (8 * 8) with 64 in *.
    destruct (Z.eqb_spec (from_le_bytes (drop clamp slice)) 0) as [E|E]; cbn [negb].
    + rewrite (proj2 (Z.ltb_lt _ _)) by lia. f_equal. lia.
    + by rewrite (proj2 (Z.ltb_ge _ _)) by nia.
Qed.

(** ** Witnesses *)

Lemma scale_compact_roundtrip_witness :
  nom_scale_compact_u64 ([3; 0; 0; 0; 64] ++ [9]) = Ok ([9], 1073741824).
Proof.
  apply (scale_compact_roundtrip (H := platform64) 1073741824 [9]). by vm_compute.
Defined.

Lemma scale_compact_minimal_witness :
  is_uint 32 5 /\ exists pre, [21; 0; 9] = pre ++ [9] /\ pre <> [] /\ 1 <= len pre.
Proof.
  apply (scale_compact_minimal 32 5 [21; 0; 9] [9]); [exists 4; lia | | reflexivity].
  repeat constructor; by vm_compute.
Defined.

Lemma varsize_number_decode_u64_spec_witness :
  varsize_number_decode_u64 9 [1; 2; 0; 0; 0; 0; 0; 0; 0] = Some 513 /\
  varsize_number_decode_u64 9 [1; 2; 0; 0; 0; 0; 0; 0; 1] = None.
Proof.
  split; [apply (varsize_number_decode_u64_spec [1; 2; 0; 0; 0; 0; 0; 0; 0])
         | apply (varsize_number_decode_u64_spec [1; 2; 0; 0; 0; 0; 0; 0; 1])];
    repeat constructor; by vm_compute.
Defined.
