(* ===== verification/Nibble.v ===== *)
(** * Nibbles ([src/src/trie/nibble.rs])

    Keys of the trie are sequences of 4-bit values. The iterators of the source
    are their [next] functions, driven to the end. *)

From S2P Require Import Prelude.

(** A [Nibble] wraps a [u8] below 16. *)
Abbreviation Nibble := Z (only parsing).
Abbreviation is_nibble := (is_uint 4).

Inductive NibbleFromU8Error := TooLarge.

Definition Nibble_try_from (val : u8) : result NibbleFromU8Error Nibble :=
  if val <? 16 then Ok val else Err TooLarge.

Definition all_nibbles : list Nibble := seqZ 0 16.

(** [nibbles_to_bytes_extend]: one call of [next] takes two nibbles. *)
Definition nibbles_to_bytes_next (it : list Nibble) : option (u8 * list Nibble) :=
  match it with
  | [] => None
  | n1 :: it =>
      let '(n2, it) := match it with [] => (0, []) | n2 :: it => (n2, it) end in
      Some (Z.lor (wrap 8 (Z.shiftl n1 4)) n2, it)
  end.

Fixpoint nibbles_to_bytes_extend_fuel (fuel : nat) (it : list Nibble) : list u8 :=
  match fuel with
  | O => []
  | S fuel =>
      match nibbles_to_bytes_next it with
      | None => []
      | Some (b, it) => b :: nibbles_to_bytes_extend_fuel fuel it
      end
  end.

Definition nibbles_to_bytes_extend (nibbles : list Nibble) : list u8 :=
  nibbles_to_bytes_extend_fuel (S (length nibbles)) nibbles.

(** The [size_hint] of the iterator, on an iterator that knows its length. *)
Definition nibbles_to_bytes_size `{Platform} (n : usize) : usize :=
  Z.min (n + 1) (2 ^ usize_bits - 1) / 2.

(** [BytesToNibbles] holds the low nibble of the byte whose high nibble was
    returned last. *)
Record BytesToNibbles := mkBytesToNibbles {
  btn_inner : list u8;
  btn_next : option Nibble
}.

Definition bytes_to_nibbles (bytes : list u8) : BytesToNibbles :=
  {| btn_inner := bytes; btn_next := None |}.

Definition BytesToNibbles_next (self : BytesToNibbles) : option (Nibble * BytesToNibbles) :=
  match btn_next self with
  | Some next => Some (next, {| btn_inner := btn_inner self; btn_next := None |})
  | None =>
      match btn_inner self with
      | [] => None
      | byte :: inner =>
          Some (Z.shiftr byte 4, {| btn_inner := inner; btn_next := Some (Z.land byte 15) |})
      end
  end.

Fixpoint BytesToNibbles_collect (fuel : nat) (self : BytesToNibbles) : list Nibble :=
  match fuel with
  | O => []
  | S fuel =>
      match BytesToNibbles_next self with
      | None => []
      | Some (n, self) => n :: BytesToNibbles_collect fuel self
      end
  end.

(** [BytesToNibbles::len], from the [size_hint] of a byte iterator of known length. *)
Definition BytesToNibbles_len (self : BytesToNibbles) : usize :=
  match btn_next self with
  | Some _ => len (btn_inner self) * 2 + 1
  | None => len (btn_inner self) * 2
  end.

Definition BytesToNibbles_all (self : BytesToNibbles) : list Nibble :=
  BytesToNibbles_collect (S (Z.to_nat (BytesToNibbles_len self))) self.

(** ** The nibbles of a byte string *)

Definition nibbles_of (bytes : list u8) : list Nibble :=
  flat_map (fun b => [b / 16; b `mod` 16]) bytes.

Lemma nibbles_of_cons b bytes : nibbles_of (b :: bytes) = b / 16 :: b `mod` 16 :: nibbles_of bytes.
Proof. done. Qed.

Lemma land_15 b : Z.land b 15 = b `mod` 16.
Proof. by apply (land_mask b 15 4). Qed.

Lemma shiftr_4 b : Z.shiftr b 4 = b / 16.
Proof. by rewrite Z.shiftr_div_pow2 by lia. Qed.

Lemma BytesToNibbles_collect_spec bytes next fuel :
  (2 * length bytes + length (option_list next) < fuel)%nat ->
  BytesToNibbles_collect fuel {| btn_inner := bytes; btn_next := next |}
  = option_list next ++ nibbles_of bytes.
Proof.
  assert (Hnone : forall bytes fuel, (2 * length bytes < fuel)%nat ->
    BytesToNibbles_collect fuel {| btn_inner := bytes; btn_next := None |} = nibbles_of bytes).
  { clear. induction bytes as [|b bytes IH]; intros [|[|fuel]] Hf; cbn [length] in Hf; try lia; try done.
    cbn [BytesToNibbles_collect]; unfold BytesToNibbles_next; cbn [btn_next btn_inner].
    rewrite IH by lia. cbn. by rewrite land_15, shiftr_4. }
  destruct next as [n|], fuel as [|fuel]; cbn [option_list length app]; intros Hf; try lia.
  - cbn in Hf |- *. f_equal. apply Hnone. lia.
  - cbn in Hf. apply Hnone. lia.
Qed.

Lemma length_nibbles_of bytes : length (nibbles_of bytes) = (2 * length bytes)%nat.
Proof. unfold nibbles_of. induction bytes as [|b bytes IH]; cbn [flat_map app length]; lia. Qed.

Lemma nibbles_of_nibbles bytes : is_bytes bytes -> Forall is_nibble (nibbles_of bytes).
Proof.
  induction 1 as [|b bytes Hb _ IH]; cbn; [done|]. unfold is_uint in *.
  change (2 ^ 8) with 256 in *. change (2 ^ 4) with 16 in *.
  repeat constructor; try done;
    [apply Z.div_pos; lia | apply Z.div_lt_upper_bound; lia | apply Z.mod_pos_bound; lia..].
Qed.

(** The iterator yields the nibbles of the bytes, after the one it holds. *)
Lemma BytesToNibbles_all_spec self :
  BytesToNibbles_all self = option_list (btn_next self) ++ nibbles_of (btn_inner self).
Proof.
  destruct self as [bytes next]. unfold BytesToNibbles_all, BytesToNibbles_len.
  apply BytesToNibbles_collect_spec. unfold len. destruct next; cbn; lia.
Qed.

(** Two nibbles make the byte they come from. *)
Lemma join_nibbles h l : is_nibble h -> is_nibble l -> Z.lor (wrap 8 (Z.shiftl h 4)) l = l + h * 16.
Proof.
  unfold is_uint. change (2 ^ 4) with 16. intros Hh Hl.
  rewrite wrap_small, Z.lor_comm, lor_shiftl_add; [done | lia | done |].
  unfold_uint. rewrite Z.shiftl_mul_pow2 by lia. lia.
Qed.

Lemma nibbles_to_bytes_fuel_spec fuel ns :
  Forall is_nibble ns -> (length ns < fuel)%nat ->
  nibbles_of (nibbles_to_bytes_extend_fuel fuel ns)
  = ns ++ (if Nat.even (length ns) then [] else [0]).
Proof.
  assert (H0 : is_nibble 0) by (by vm_compute).
  assert (Hsplit : forall h l, is_nibble h -> is_nibble l ->
    nibbles_of [l + h * 16] = [h; l]).
  { unfold is_uint. change (2 ^ 4) with 16. intros h l Hh Hl. cbn.
    by rewrite Z.div_add, Z.mod_add, Z.div_small, Z.mod_small by lia. }
  revert ns. induction fuel as [|fuel IH]; intros ns Hns Hf; [lia|].
  destruct Hns as [|n1 ns Hn1 Hns]; [done|]. destruct Hns as [|n2 ns Hn2 Hns];
    cbn [nibbles_to_bytes_extend_fuel nibbles_to_bytes_next length Nat.even app] in *.
  - rewrite join_nibbles by done. destruct fuel; [lia|]. cbn [nibbles_to_bytes_extend_fuel].
    cbn [nibbles_to_bytes_next]. by apply Hsplit.
  - rewrite join_nibbles by done. change (?x :: ?l) with ([x] ++ l) at 1.
    unfold nibbles_of in *. rewrite flat_map_app, Hsplit, IH by (done || lia). done.
Qed.

Lemma nibbles_of_inj bs cs : is_bytes bs -> is_bytes cs -> nibbles_of bs = nibbles_of cs -> bs = cs.
Proof.
  intros Hbs. revert cs. induction Hbs as [|b bs Hb Hbs IH]; intros cs Hcs Heq;
    destruct Hcs as [|c cs Hc Hcs]; try done. cbn in Heq. injection Heq as Hq Hr Htl.
  f_equal; [|by apply IH]. rewrite (Z.div_mod b 16), (Z.div_mod c 16) by lia. lia.
Qed.

(** Splitting a byte string into nibbles and joining it back is the
    identity; joining nibbles and splitting gives them back, with a zero nibble
    after an odd number of them. *)
Lemma nibbles_join_split ns :
  Forall is_nibble ns ->
  BytesToNibbles_all (bytes_to_nibbles (nibbles_to_bytes_extend ns))
  = ns ++ (if Nat.even (length ns) then [] else [0]).
Proof.
  intros Hns. rewrite BytesToNibbles_all_spec. cbn [bytes_to_nibbles btn_next btn_inner option_list app].
  apply nibbles_to_bytes_fuel_spec; [done|lia].
Qed.
