(* ===== verification/TrieNode.v ===== *)
(** * Trie nodes: encoding, Merkle values and decoding
    ([src/src/trie/node_value.rs], [src/src/trie/proof_node_decode.rs])

    [calculate_merkle_value] pushes the encoding of a node, piece by piece, into
    a sink that keeps it inline while it is short and hashes it otherwise. The
    pieces are a list of byte strings here, in the order of the calls of
    [update]; the sink is folded over them. [decode] is the decoder of the nodes
    found in storage proofs. The hash function is third-party code: it is the
    class [Blake2b], with its documented streaming law. *)

From S2P Require Import Prelude Leb128 Scale Nibble.

(** ** The hash function *)

Class Blake2b := {
  hasher : Type;
  hasher_new : hasher;
  hasher_update : hasher -> list u8 -> hasher;
  hasher_finalize : hasher -> list u8;
  blake2b_32 : list u8 -> list u8
}.

(** What the code relies on: hashing piecewise is hashing the concatenation, and
    a hash is 32 bytes. *)
Class Blake2bLaws `{Blake2b} : Prop := {
  blake2b_stream : forall chunks,
    hasher_finalize (foldl hasher_update hasher_new chunks) = blake2b_32 (concat chunks);
  blake2b_length : forall data, length (blake2b_32 data) = 32%nat;
  blake2b_bytes : forall data, is_bytes (blake2b_32 data)
}.

(** ** Data *)

Inductive TrieEntryVersion := V0 | V1.

Inductive NodeTy :=
  | Root (key : list Nibble)
  | NonRoot (partial_key : list Nibble).

(** [Output]: an inline node value, a hash, or bytes given by the caller. *)
Inductive Output :=
  | OutInline (bytes : list u8)
  | OutHasher (bytes : list u8)
  | OutBytes (bytes : list u8).

Definition Output_as_ref (self : Output) : list u8 :=
  match self with
  | OutInline a => a
  | OutHasher a => a
  | OutBytes a => a
  end.

(** [Output::from_bytes]; [None] is the panic. *)
Definition Output_from_bytes (bytes : list u8) : option Output :=
  if len bytes <=? 32 then Some (OutBytes bytes) else None.

Record Config := mkConfig {
  cfg_ty : NodeTy;
  cfg_children : list (option Output);
  cfg_stored_value : option (list u8);
  cfg_version : TrieEntryVersion
}.

Definition cfg_partial_key (config : Config) : list Nibble :=
  match cfg_ty config with
  | Root key => key
  | NonRoot partial_key => partial_key
  end.

(** ** Encoding *)

(** [config.children.any(|c| c.is_some())]. *)
Definition has_children (config : Config) : bool :=
  existsb (fun c => bool_decide (is_Some c)) (cfg_children config).

Definition stored_value_to_be_hashed (config : Config) : option bool :=
  (fun value => match cfg_version config with
                | V1 => 33 <=? len value
                | V0 => false
                end) <$> cfg_stored_value config.

(** The most significant bits of the header, and the number of bits left for
    the length of the partial key. *)
Definition node_header (config : Config) : u8 * u8 :=
  match stored_value_to_be_hashed config, has_children config with
  | None, false => (0, 6)
  | Some false, false => (64, 6)
  | Some true, false => (32, 5)
  | None, true => (128, 6)
  | Some false, true => (192, 6)
  | Some true, true => (16, 4)
  end.

(** [while pk_len > 255 { pk_len -= 255; sink.update(&[255]) }] and the last byte. *)
Fixpoint pk_len_chunks (fuel : nat) (pk_len : usize) : list (list u8) :=
  match fuel with
  | O => []
  | S fuel =>
      if 255 <? pk_len then [255] :: pk_len_chunks fuel (pk_len - 255)
      else [[pk_len]]
  end.

Definition header_chunks (config : Config) : list (list u8) :=
  let '(header_msb, header_pkll_num_bytes) := node_header config in
  let pk_len := len (cfg_partial_key config) in
  let pk_len_first_byte_max := Z.shiftl 1 header_pkll_num_bytes - 1 in
  if pk_len_first_byte_max <=? pk_len then
    [Z.lor header_msb pk_len_first_byte_max]
      :: pk_len_chunks (S (length (cfg_partial_key config))) (pk_len - pk_len_first_byte_max)
  else [[Z.lor header_msb pk_len]].

(** The loop over pairs of nibbles; [None] is the failed [assert!]. *)
Fixpoint nibble_pair_chunks (previous : option Nibble) (pk : list Nibble) : option (list (list u8)) :=
  match pk with
  | [] => match previous with None => Some [] | Some _ => None end
  | nibble :: pk =>
      match previous with
      | Some prev =>
          let! chunks := nibble_pair_chunks None pk in
          Some ([Z.lor (wrap 8 (Z.shiftl prev 4)) nibble] :: chunks)
      | None => nibble_pair_chunks (Some nibble) pk
      end
  end.

Definition partial_key_chunks (pk : list Nibble) : option (list (list u8)) :=
  if negb (len pk `mod` 2 =? 0) then
    match pk with
    | nibble :: pk => let! chunks := nibble_pair_chunks None pk in Some ([nibble] :: chunks)
    | [] => None
    end
  else nibble_pair_chunks None pk.

Section encoding.
Context `{Blake2b}.

(** The storage value, inline or hashed. *)
Definition stored_value_chunks (config : Config) : list (list u8) :=
  match stored_value_to_be_hashed config, cfg_stored_value config with
  | Some true, Some stored_value => [blake2b_32 stored_value]
  | Some false, Some stored_value =>
      [encode_scale_compact_usize (len stored_value); stored_value]
  | _, _ => []
  end.

(** [for (child_index, child) in children.enumerate() { ... |= 1 << child_index }]. *)
Fixpoint children_bitmap_loop (child_index : Z) (children : list (option Output)) (acc : u16) : u16 :=
  match children with
  | [] => acc
  | child :: children =>
      children_bitmap_loop (child_index + 1) children
        (match child with Some _ => Z.lor acc (Z.shiftl 1 child_index) | None => acc end)
  end.

Definition children_chunks (children : list (option Output)) : list (list u8) :=
  flat_map (fun child =>
    match child with
    | Some v => [encode_scale_compact_usize (len (Output_as_ref v)); Output_as_ref v]
    | None => []
    end) children.

(** The arguments of the calls of [merkle_value_sink.update], in order; [None]
    is a failed assertion. *)
Definition node_value_chunks (config : Config) : option (list (list u8)) :=
  if negb (len (cfg_children config) =? 16) then None
  else
    let! pk := partial_key_chunks (cfg_partial_key config) in
    if negb (has_children config) then
      Some (header_chunks config ++ pk ++ stored_value_chunks config)
    else
      Some (header_chunks config ++ pk
            ++ [to_le_bytes 2 (children_bitmap_loop 0 (cfg_children config) 0)]
            ++ stored_value_chunks config ++ children_chunks (cfg_children config)).

(** ** The sink *)

Inductive HashOrInline :=
  | Inline (curr : list u8)
  | Hasher (h : hasher).

(** [ArrayVec<u8, 31>::try_extend_from_slice] leaves the vector as it was when
    the bytes do not fit. *)
Definition HashOrInline_update (self : HashOrInline) (data : list u8) : HashOrInline :=
  match self with
  | Inline curr =>
      if len curr + len data <=? 31 then Inline (curr ++ data)
      else Hasher (hasher_update (hasher_update hasher_new curr) data)
  | Hasher h => Hasher (hasher_update h data)
  end.

Definition HashOrInline_finalize (self : HashOrInline) : Output :=
  match self with
  | Inline b => OutInline b
  | Hasher h => OutHasher (hasher_finalize h)
  end.

Definition merkle_value_sink (ty : NodeTy) : HashOrInline :=
  match ty with
  | Root _ => Hasher hasher_new
  | NonRoot _ => Inline []
  end.

Definition calculate_merkle_value (config : Config) : option Output :=
  let! chunks := node_value_chunks config in
  Some (HashOrInline_finalize (foldl HashOrInline_update (merkle_value_sink (cfg_ty config)) chunks)).

End encoding.

(** ** Decoding *)

Inductive StorageValue :=
  | Unhashed (value : list u8)
  | Hashed (hash : list u8)
  | NoStorageValue.

Record PartialKey := mkPartialKey { pk_inner : BytesToNibbles; pk_skip_first : bool }.

Definition PartialKey_next (self : PartialKey) : option (Nibble * PartialKey) :=
  match BytesToNibbles_next (pk_inner self) with
  | None => None
  | Some (nibble, inner) =>
      if pk_skip_first self then
        match BytesToNibbles_next inner with
        | None => None
        | Some (nibble, inner) => Some (nibble, {| pk_inner := inner; pk_skip_first := false |})
        end
      else Some (nibble, {| pk_inner := inner; pk_skip_first := false |})
  end.

Fixpoint PartialKey_collect (fuel : nat) (self : PartialKey) : list Nibble :=
  match fuel with
  | O => []
  | S fuel =>
      match PartialKey_next self with
      | None => []
      | Some (n, self) => n :: PartialKey_collect fuel self
      end
  end.

(** [PartialKey::size_hint]. *)
Definition PartialKey_len (self : PartialKey) : usize :=
  if pk_skip_first self then BytesToNibbles_len (pk_inner self) - 1
  else BytesToNibbles_len (pk_inner self).

Definition PartialKey_all (self : PartialKey) : list Nibble :=
  PartialKey_collect (S (Z.to_nat (BytesToNibbles_len (pk_inner self)))) self.

Record Decoded := mkDecoded {
  dec_partial_key : PartialKey;
  dec_children : list (option (list u8));
  dec_storage_value : StorageValue
}.

(** [Decoded::children_bitmap]. *)
Definition Decoded_children_bitmap (self : Decoded) : u16 :=
  foldl (fun out n =>
           match mjoin (dec_children self !! Z.to_nat n) with
           | None => out
           | Some _ => Z.lor out (Z.shiftl 1 n)
           end) 0 (seqZ 0 16).

Inductive Error :=
  | Empty | InvalidHeaderBits | PartialKeyLenTooShort | PartialKeyLenOverflow
  | PartialKeyTooShort | InvalidPartialKeyPadding | ChildrenBitmapTooShort
  | ChildLenDecode | ChildrenTooShort | StorageValueLenDecode | StorageValueTooShort | TooLong.

#[export] Instance Error_eq_dec : EqDecision Error.
Proof. solve_decision. Defined.

(** The type of the node: whether it has children, whether its value is hashed
    ([None]: no value), and the bits of the length in the first byte. *)
Definition decode_header (b : u8) : result Error (bool * option bool * Z) :=
  match Z.shiftr b 6 with
  | 0 =>
      if Z.shiftr b 5 =? 1 then Ok (false, Some true, 5)
      else if Z.shiftr b 4 =? 1 then Ok (true, Some true, 4)
      else if b =? 0 then Ok (false, None, 6)
      else Err InvalidHeaderBits
  | 2 => Ok (true, None, 6)
  | 1 => Ok (false, Some false, 6)
  | _ => Ok (true, Some false, 6)
  end.

Section decoding.
Context `{Platform}.

(** The [while continue_iter] loop over the length of the partial key. *)
Fixpoint decode_pk_len (continue_iter : bool) (accumulator : usize) (node_value : list u8)
    : result Error (usize * list u8) :=
  if continue_iter then
    match node_value with
    | [] => Err PartialKeyLenTooShort
    | b :: node_value =>
        let? accumulator := ok_or (checked_add usize_bits accumulator b) PartialKeyLenOverflow in
        decode_pk_len (b =? 255) accumulator node_value
    end
  else Ok (accumulator, node_value).

Definition decode_partial_key (pk_len : usize) (node_value : list u8)
    : result Error (list u8 * list u8) :=
  let pk_len_bytes := if pk_len =? 0 then 0 else 1 + (pk_len - 1) / 2 in
  if len node_value <? pk_len_bytes then Err PartialKeyTooShort
  else
    let pk := take (Z.to_nat pk_len_bytes) node_value in
    let node_value := drop (Z.to_nat pk_len_bytes) node_value in
    if (pk_len `mod` 2 =? 1) && negb (Z.land (default 0 (head pk)) 240 =? 0)
    then Err InvalidPartialKeyPadding
    else Ok (pk, node_value).

Definition decode_children_bitmap (has_children : bool) (node_value : list u8)
    : result Error (u16 * list u8) :=
  if has_children then
    if len node_value <? 2 then Err ChildrenBitmapTooShort
    else Ok (from_le_bytes (take 2 node_value), drop 2 node_value)
  else Ok (0, node_value).

(** A length and that many bytes. *)
Definition decode_sized (len_error short_error : Error) (node_value : list u8)
    : result Error (list u8 * list u8) :=
  match nom_scale_compact_usize node_value with
  | Err _ => Err len_error
  | Ok (node_value, n) =>
      if len node_value <? n then Err short_error
      else Ok (take (Z.to_nat n) node_value, drop (Z.to_nat n) node_value)
  end.

Definition decode_storage_value (storage_value_hashed : option bool) (node_value : list u8)
    : result Error (StorageValue * list u8) :=
  match storage_value_hashed with
  | Some false =>
      let? (v, node_value) := decode_sized StorageValueLenDecode StorageValueTooShort node_value in
      Ok (Unhashed v, node_value)
  | Some true =>
      if len node_value <? 32 then Err StorageValueTooShort
      else Ok (Hashed (take 32 node_value), drop 32 node_value)
  | None => Ok (NoStorageValue, node_value)
  end.

(** [for (n, child) in children.iter_mut().enumerate()], over the 16 indices. *)
Fixpoint decode_children (indices : list Z) (children_bitmap : u16) (node_value : list u8)
    : result Error (list (option (list u8)) * list u8) :=
  match indices with
  | [] => Ok ([], node_value)
  | n :: indices =>
      if Z.land children_bitmap (Z.shiftl 1 n) =? 0 then
        let? (children, node_value) := decode_children indices children_bitmap node_value in
        Ok (None :: children, node_value)
      else
        let? (child, node_value) := decode_sized ChildLenDecode ChildrenTooShort node_value in
        let? (children, node_value) := decode_children indices children_bitmap node_value in
        Ok (Some child :: children, node_value)
  end.

Definition decode (node_value : list u8) : result Error Decoded :=
  match node_value with
  | [] => Err Empty
  | b :: node_value =>
      let? (has_children, storage_value_hashed, pk_len_first_byte_bits) := decode_header b in
      let first_byte_max := Z.shiftl 1 pk_len_first_byte_bits - 1 in
      let accumulator := Z.land b first_byte_max in
      let? (pk_len, node_value) :=
        decode_pk_len (accumulator =? first_byte_max) accumulator node_value in
      let? (partial_key, node_value) := decode_partial_key pk_len node_value in
      let? (children_bitmap, node_value) := decode_children_bitmap has_children node_value in
      let? (storage_value, node_value) := decode_storage_value storage_value_hashed node_value in
      let? (children, node_value) := decode_children (seqZ 0 16) children_bitmap node_value in
      match node_value with
      | _ :: _ => Err TooLong
      | [] =>
          Ok {| dec_partial_key := {| pk_inner := bytes_to_nibbles partial_key;
                                      pk_skip_first := pk_len `mod` 2 =? 1 |};
                dec_children := children;
                dec_storage_value := storage_value |}
      end
  end.

End decoding.

(** ** The sink *)

Section sink.
Context `{Blake2bLaws}.

Lemma sink_hasher chunks h :
  foldl HashOrInline_update (Hasher h) chunks = Hasher (foldl hasher_update h chunks).
Proof. revert h. induction chunks as [|c chunks IH]; intros h; cbn; auto. Qed.

Lemma sink_inline chunks curr :
  len curr <= 31 ->
  Output_as_ref (HashOrInline_finalize (foldl HashOrInline_update (Inline curr) chunks)) =
  if len (curr ++ concat chunks) <=? 31 then curr ++ concat chunks
  else blake2b_32 (curr ++ concat chunks).
Proof.
  revert curr. induction chunks as [|c chunks IH]; intros curr Hc; cbn [foldl concat].
  - rewrite app_nil_r, (proj2 (Z.leb_le _ _)) by done. done.
  - cbn [HashOrInline_update]. destruct (Z.leb_spec (len curr + len c) 31) as [Hle|Hgt].
    + rewrite IH by len_lia. by rewrite <- app_assoc.
    + rewrite sink_hasher. cbn [HashOrInline_finalize Output_as_ref].
      change (hasher_update (hasher_update hasher_new curr) c)
        with (foldl hasher_update hasher_new [curr; c]).
      rewrite <- foldl_app, blake2b_stream. cbn [app concat].
      rewrite (proj2 (Z.leb_gt _ _)) by len_lia. done.
Qed.

Lemma merkle_value_eq (config : Config) (chunks : list (list u8)) (out : Output) :
  node_value_chunks config = Some chunks ->
  calculate_merkle_value config = Some out ->
  Output_as_ref out =
  match cfg_ty config with
  | NonRoot _ => if len (concat chunks) <? 32 then concat chunks else blake2b_32 (concat chunks)
  | Root _ => blake2b_32 (concat chunks)
  end.
Proof.
  unfold calculate_merkle_value. intros -> [= <-]. destruct (cfg_ty config) as [key|pk].
  - cbn [merkle_value_sink]. rewrite sink_hasher. apply blake2b_stream.
  - cbn [merkle_value_sink]. rewrite sink_inline by done. cbn [app].
    destruct (Z.leb_spec (len (concat chunks)) 31), (Z.ltb_spec (len (concat chunks)) 32); done || lia.
Qed.

(** The Merkle value of a node is its node value, the concatenation of
    the pieces, when it is shorter than 32 bytes and the node is not the root, and
    the hash of the node value otherwise. In particular the switch of the sink
    from inline to hashing loses nothing, wherever it happens. *)
Theorem calculate_merkle_value_spec (config : Config) (chunks : list (list u8)) (out : Output) :
  node_value_chunks config = Some chunks ->
  calculate_merkle_value config = Some out ->
  Output_as_ref out =
  match cfg_ty config with
  | NonRoot _ => if len (concat chunks) <? 32 then concat chunks else blake2b_32 (concat chunks)
  | Root _ => blake2b_32 (concat chunks)
  end.
Proof. apply merkle_value_eq. Qed.

End sink.

(** ** The partial key *)

Lemma PartialKey_collect_plain fuel inner :
  PartialKey_collect fuel {| pk_inner := inner; pk_skip_first := false |}
  = BytesToNibbles_collect fuel inner.
Proof.
  revert inner. induction fuel as [|fuel IH]; intros inner; [done|].
  cbn [PartialKey_collect BytesToNibbles_collect]. unfold PartialKey_next.
  cbn [pk_inner pk_skip_first]. destruct (BytesToNibbles_next inner) as [[n inner']|]; [|done].
  by rewrite IH.
Qed.

(** The decoded partial key, when the first nibble is skipped and when not. *)
Lemma PartialKey_all_spec bytes skip :
  PartialKey_all {| pk_inner := bytes_to_nibbles bytes; pk_skip_first := skip |}
  = if skip then tail (nibbles_of bytes) else nibbles_of bytes.
Proof.
  unfold PartialKey_all. cbn [pk_inner]. destruct skip.
  - destruct bytes as [|b bytes]; [done|].
    unfold BytesToNibbles_len, bytes_to_nibbles. cbn [btn_next btn_inner].
    cbn [PartialKey_collect]. unfold PartialKey_next at 1.
    cbn [pk_inner pk_skip_first BytesToNibbles_next btn_next btn_inner].
    rewrite PartialKey_collect_plain, BytesToNibbles_collect_spec, land_15; [done|].
    unfold len. cbn. lia.
  - rewrite PartialKey_collect_plain. change (BytesToNibbles_collect _ _) with
      (BytesToNibbles_all (bytes_to_nibbles bytes)). by rewrite BytesToNibbles_all_spec.
Qed.

Lemma nibble_pair_chunks_even pk :
  Forall is_nibble pk -> Nat.Even (length pk) ->
  exists chunks, nibble_pair_chunks None pk = Some chunks /\ nibbles_of (concat chunks) = pk /\
    is_bytes (concat chunks).
Proof.
  intros Hpk [k Hk]. revert pk Hpk Hk. induction k as [|k IH]; intros pk Hpk Hk.
  - destruct pk; [|cbn in Hk; lia]. by exists [].
  - destruct Hpk as [|n1 pk Hn1 Hpk]; [cbn in Hk; lia|].
    destruct Hpk as [|n2 pk Hn2 Hpk]; [cbn in Hk; lia|].
    destruct (IH pk) as (chunks & Hc & Hn & Hb); [done | cbn in Hk; lia |].
    cbn [nibble_pair_chunks]. rewrite Hc. eexists. split; [done|].
    cbn [concat app]. rewrite join_nibbles by done. unfold is_uint in *.
    change (2 ^ 4) with 16 in *. split.
    + rewrite nibbles_of_cons, Hn, Z.div_add, Z.mod_add, Z.div_small, Z.mod_small by lia. done.
    + constructor; [|done]. unfold_uint. lia.
Qed.

Lemma partial_key_chunks_spec pk :
  Forall is_nibble pk ->
  exists chunks, partial_key_chunks pk = Some chunks /\ is_bytes (concat chunks) /\
    nibbles_of (concat chunks) = (if len pk `mod` 2 =? 1 then [0] else []) ++ pk.
Proof.
  intros Hpk. unfold partial_key_chunks. pose proof (Z.mod_pos_bound (len pk) 2).
  pose proof (Z.div_mod (len pk) 2) as Hdm.
  destruct (Z.eqb_spec (len pk `mod` 2) 0) as [E|E]; cbn [negb].
  - destruct (nibble_pair_chunks_even pk) as (chunks & Hc & Hn & Hb); [done| |].
    { exists (Z.to_nat (len pk / 2)). unfold len in *. lia. }
    exists chunks. rewrite E. done.
  - destruct Hpk as [|n pk Hn1 Hpk]; [done|]. rewrite len_cons in *.
    destruct (nibble_pair_chunks_even pk) as (chunks & Hc & Hn & Hb); [done| |].
    { exists (Z.to_nat ((1 + len pk) / 2)). unfold len in *. lia. }
    rewrite Hc. eexists. split; [done|]. rewrite (proj2 (Z.eqb_eq _ 1)) by lia.
    cbn [concat app]. unfold is_uint in Hn1. change (2 ^ 4) with 16 in Hn1. split.
    + constructor; [|done]. unfold_uint. lia.
    + by rewrite nibbles_of_cons, Hn, Z.div_small, Z.mod_small by lia.
Qed.

Lemma decode_partial_key_spec pk chunks rest :
  Forall is_nibble pk -> partial_key_chunks pk = Some chunks ->
  decode_partial_key (len pk) (concat chunks ++ rest) = Ok (concat chunks, rest) /\
  PartialKey_all {| pk_inner := bytes_to_nibbles (concat chunks);
                    pk_skip_first := len pk `mod` 2 =? 1 |} = pk.
Proof.
  intros Hpk Hc. destruct (partial_key_chunks_spec pk Hpk) as (chunks' & Hc' & Hb & Hn).
  rewrite Hc in Hc'. injection Hc' as <-.
  pose proof (length_nibbles_of (concat chunks)) as Hlen. rewrite Hn, length_app in Hlen.
  pose proof (Z.mod_pos_bound (len pk) 2). pose proof (Z.div_mod (len pk) 2) as Hdm.
  assert (len (concat chunks) = if len pk =? 0 then 0 else 1 + (len pk - 1) / 2) as Hl.
  { destruct (Z.eqb_spec (len pk) 0), (Z.eqb_spec (len pk `mod` 2) 1); cbn [length] in Hlen;
      unfold len in *; try lia.
    - replace (Z.of_nat (length pk) - 1) with (Z.of_nat (length pk) / 2 * 2) by lia.
      rewrite Z.div_mul by lia. lia.
    - replace (Z.of_nat (length pk) - 1) with (1 + (Z.of_nat (length pk) / 2 - 1) * 2) by lia.
      rewrite Z.div_add by lia. change (1 / 2) with 0. lia. }
  split.
  - unfold decode_partial_key. rewrite <- Hl. pose proof (len_nonneg rest).
    rewrite len_app, (proj2 (Z.ltb_ge _ _)) by lia.
    rewrite take_app_length', drop_app_length' by (unfold len; lia).
    destruct (Z.eqb_spec (len pk `mod` 2) 1) as [E|E]; [|done]. cbn [andb].
    destruct (concat chunks) as [|b bs]; [done|]. cbn [head default from_option id hd_error].
    rewrite nibbles_of_cons in Hn. injection Hn as Hb0 Hn. apply Forall_cons in Hb as [Hb _].
    assert (b < 16). { unfold_uint. pose proof (Z.div_mod b 16). pose proof (Z.mod_pos_bound b 16). lia. }
    enough ((Z.land b 240 =? 0) = (b <? 16)) as -> by (by rewrite (proj2 (Z.ltb_lt _ _))).
    by apply (u8_bool_eqb (fun b => Z.land b 240 =? 0) (fun b => b <? 16)).
  - rewrite PartialKey_all_spec, Hn. by destruct (len pk `mod` 2 =? 1).
Qed.

(** ** The header *)

(** The lengths of partial keys whose encoding is ambiguous: the bytes after
    the first one would all be 255. *)
Definition pk_len_ambiguous (first_byte_max pk_len : Z) : Prop :=
  exists k, 1 <= k /\ pk_len = first_byte_max + 255 * k.

Definition first_byte_max (config : Config) : Z := Z.shiftl 1 (snd (node_header config)) - 1.

(** The header byte of a configuration tells its type apart from the others,
    whatever the bits of the length. *)
Lemma decode_header_spec config x :
  0 <= x <= first_byte_max config ->
  (has_children config = false -> cfg_stored_value config = None -> x = 0) ->
  decode_header (Z.lor (fst (node_header config)) x)
  = Ok (has_children config, stored_value_to_be_hashed config, snd (node_header config)) /\
  Z.land (Z.lor (fst (node_header config)) x) (first_byte_max config) = x.
Proof.
  unfold first_byte_max, node_header. intros Hx Hleaf.
  assert (Hcheck : forall msb bits hc hashed,
    forallb (fun x => bool_decide (decode_header (Z.lor msb x) = Ok (hc, hashed, bits))
                      && (Z.land (Z.lor msb x) (Z.shiftl 1 bits - 1) =? x))
      (seqZ 0 (Z.shiftl 1 bits)) = true ->
    0 <= x <= Z.shiftl 1 bits - 1 ->
    decode_header (Z.lor msb x) = Ok (hc, hashed, bits) /\
    Z.land (Z.lor msb x) (Z.shiftl 1 bits - 1) = x).
  { intros msb bits hc hashed Hall Hx'. rewrite forallb_forall in Hall.
    specialize (Hall x). rewrite <- list_elem_of_In, elem_of_seqZ in Hall.
    specialize (Hall ltac:(lia)). bool_to_prop. done. }
  assert (Hnone : stored_value_to_be_hashed config = None -> cfg_stored_value config = None).
  { unfold stored_value_to_be_hashed. by destruct (cfg_stored_value config). }
  destruct (stored_value_to_be_hashed config) as [[]|], (has_children config);
    cbn [fst snd] in *; try (by apply Hcheck).
  rewrite (Hleaf eq_refl (Hnone eq_refl)). done.
Qed.

Section roundtrip.
Context `{Platform}.

Lemma pk_len_chunks_decode fuel n acc rest :
  0 <= n < Z.of_nat fuel -> (forall k, 1 <= k -> n <> 255 * k) ->
  0 <= acc -> is_usize (acc + n) ->
  decode_pk_len true acc (concat (pk_len_chunks fuel n) ++ rest) = Ok (acc + n, rest).
Proof.
  revert n acc. induction fuel as [|fuel IH]; intros n acc Hn Hamb Hacc Hu; [lia|].
  unfold is_uint in Hu. cbn [pk_len_chunks]. destruct (Z.ltb_spec 255 n) as [Hgt|Hle].
  - cbn [concat app decode_pk_len]. unfold checked_add.
    rewrite checked_small by (unfold is_uint; lia). cbn [ok_or result_bind Z.eqb Pos.eqb].
    rewrite IH; [do 2 f_equal; lia | lia | | lia | unfold is_uint; lia].
    intros k Hk E. apply (Hamb (k + 1)); lia.
  - cbn [concat app decode_pk_len]. unfold checked_add.
    rewrite checked_small by (unfold is_uint; lia). cbn [ok_or result_bind].
    rewrite (proj2 (Z.eqb_neq n 255)) by (intros ->; by apply (Hamb 1)).
    by destruct rest.
Qed.

Lemma decode_sized_spec e1 e2 v rest :
  is_usize (len v) ->
  decode_sized e1 e2 (encode_scale_compact_usize (len v) ++ v ++ rest) = Ok (v, rest).
Proof.
  intros Hv. unfold decode_sized, nom_scale_compact_usize, encode_scale_compact_usize.
  rewrite nom_scale_compact_encode by (done || apply scale_width_usize).
  pose proof (len_nonneg rest). rewrite len_app, (proj2 (Z.ltb_ge _ _)) by lia.
  by rewrite take_app_length', drop_app_length' by (unfold len; lia).
Qed.

(** The bitmap has one bit per child. *)
Lemma children_bitmap_bits children i acc n :
  0 <= i -> 0 <= n ->
  Z.testbit (children_bitmap_loop i children acc) n =
  Z.testbit acc n ||
  ((i <=? n) && bool_decide (is_Some (mjoin (children !! Z.to_nat (n - i))))).
Proof.
  revert i acc. induction children as [|c children IH]; intros i acc Hi Hn;
    cbn [children_bitmap_loop].
  - rewrite lookup_nil. cbn. by rewrite andb_false_r, orb_false_r.
  - rewrite IH by lia.
    assert (Hbit : Z.testbit (match c with Some _ => Z.lor acc (Z.shiftl 1 i) | None => acc end) n
      = Z.testbit acc n || ((i =? n) && bool_decide (is_Some c))).
    { destruct c as [o|]; [|by rewrite (bool_decide_eq_false_2 (is_Some None)), andb_false_r, orb_false_r
        by (by intros [? ?])].
      rewrite Z.lor_spec, Z.shiftl_1_l, Z.pow2_bits_eqb, bool_decide_eq_true_2, andb_true_r by eauto || lia.
      done. }
    rewrite Hbit. destruct (Z.eqb_spec i n) as [->|Hne].
    + rewrite Z.leb_refl, (proj2 (Z.leb_gt _ _)) by lia. rewrite Z.sub_diag. cbn.
      by rewrite orb_false_r.
    + cbn. rewrite orb_false_r. f_equal.
      destruct (Z.leb_spec i n), (Z.leb_spec (i + 1) n); try lia; try done.
      replace (Z.to_nat (n - i)) with (S (Z.to_nat (n - (i + 1)))) by lia. done.
Qed.

Lemma children_bitmap_nonneg children i acc : 0 <= i -> 0 <= acc -> 0 <= children_bitmap_loop i children acc.
Proof.
  revert i acc. induction children as [|[o|] children IH]; intros i acc Hi Hacc; cbn; [done|..];
    apply IH; try lia. apply Z.lor_nonneg. split; [done|]. apply Z.shiftl_nonneg. lia.
Qed.

Lemma children_bitmap_bound children :
  len children = 16 -> 0 <= children_bitmap_loop 0 children 0 < 2 ^ 16.
Proof.
  intros Hl. pose proof (children_bitmap_nonneg children 0 0) as Hnn.
  replace (children_bitmap_loop 0 children 0) with ((children_bitmap_loop 0 children 0) `mod` 2 ^ 16);
    [apply Z.mod_pos_bound; lia|].
  apply Z.bits_inj'. intros n Hn. rewrite Z.testbit_mod_pow2 by lia.
  destruct (Z.ltb_spec n 16); [done|]. cbn. rewrite children_bitmap_bits, Z.bits_0 by lia. cbn.
  rewrite lookup_ge_None_2 by (unfold len in Hl; lia).
  by rewrite bool_decide_eq_false_2, andb_false_r by (by intros [? ?]).
Qed.

Lemma decode_children_spec children i bitmap rest :
  0 <= i ->
  Forall (fun c => forall v, c = Some v -> is_usize (len (Output_as_ref v))) children ->
  (forall j, (j < length children)%nat ->
     Z.testbit bitmap (i + Z.of_nat j) = bool_decide (is_Some (mjoin (children !! j)))) ->
  decode_children (seqZ i (len children)) bitmap (concat (children_chunks children) ++ rest)
  = Ok (map (option_map Output_as_ref) children, rest).
Proof.
  intros Hi Hch. revert i Hi. induction Hch as [|c children Hc Hch IH]; intros i Hi Hbits; [done|].
  rewrite len_cons, seqZ_cons by (pose proof (len_nonneg children); lia).
  replace (Z.pred (1 + len children)) with (len children) by lia.
  assert (Hbit : Z.testbit bitmap i = bool_decide (is_Some c)).
  { specialize (Hbits 0%nat). cbn in Hbits. rewrite Z.add_0_r in Hbits. apply Hbits. lia. }
  assert (Hnext : decode_children (seqZ (Z.succ i) (len children)) bitmap
      (concat (children_chunks children) ++ rest) = Ok (map (option_map Output_as_ref) children, rest)).
  { apply (IH (Z.succ i)); [lia|]. intros j Hj. specialize (Hbits (S j)).
    replace (Z.succ i + Z.of_nat j) with (i + Z.of_nat (S j)) by lia. apply Hbits. cbn. lia. }
  cbn [decode_children children_chunks flat_map].
  rewrite Z.shiftl_1_l, land_bit, Hbit by lia. destruct c as [v|].
  - rewrite bool_decide_eq_true_2 by eauto. rewrite (proj2 (Z.eqb_neq _ _)) by (pose proof (pow2_pos i); lia).
    cbn [app concat]. rewrite <- !app_assoc, decode_sized_spec by (by apply Hc). cbn [result_bind].
    change (flat_map _ children) with (children_chunks children). by rewrite Hnext.
  - rewrite bool_decide_eq_false_2 by (by intros [? ?]). cbn [Z.eqb app].
    change (flat_map _ children) with (children_chunks children). by rewrite Hnext.
Qed.

(** ** Round trip *)

Context `{Blake2bLaws}.

(** A configuration the source accepts: sixteen children, nibbles in the key,
    lengths that are [usize]s; a node without value and without children has an
    empty key (the root of an empty trie). *)
Record config_ok (config : Config) : Prop := {
  ok_children : len (cfg_children config) = 16;
  ok_key : Forall is_nibble (cfg_partial_key config);
  ok_key_len : is_usize (len (cfg_partial_key config));
  ok_child_len : Forall (fun c => forall v, c = Some v -> is_usize (len (Output_as_ref v)))
    (cfg_children config);
  ok_value_len : forall v, cfg_stored_value config = Some v -> is_usize (len v);
  ok_empty : has_children config = false -> cfg_stored_value config = None ->
    cfg_partial_key config = []
}.

(** What decoding the node is expected to give for the storage value. *)
Definition expected_storage_value (config : Config) : StorageValue :=
  match cfg_stored_value config, stored_value_to_be_hashed config with
  | Some v, Some true => Hashed (blake2b_32 v)
  | Some v, _ => Unhashed v
  | None, _ => NoStorageValue
  end.

(** The first byte and the length that follows it. *)
Lemma header_decode config rest :
  config_ok config -> ~ pk_len_ambiguous (first_byte_max config) (len (cfg_partial_key config)) ->
  exists b tl, concat (header_chunks config) ++ rest = b :: tl /\
    decode_header b
    = Ok (has_children config, stored_value_to_be_hashed config, snd (node_header config)) /\
    let acc := Z.land b (first_byte_max config) in
    decode_pk_len (acc =? first_byte_max config) acc tl = Ok (len (cfg_partial_key config), rest).
Proof.
  intros Hok Hamb. unfold header_chunks. pose proof (len_nonneg (cfg_partial_key config)) as Hnn.
  pose proof (ok_empty _ Hok) as Hempty. pose proof (ok_key_len _ Hok) as Hu.
  assert (Hmax : 15 <= first_byte_max config).
  { unfold first_byte_max, node_header. clear. repeat case_match; by vm_compute. }
  destruct (node_header config) as [msb bits] eqn:Hnh.
  change bits with (snd (msb, bits)). rewrite <- Hnh. fold (first_byte_max config).
  assert (Hleaf : forall x, x <= len (cfg_partial_key config) -> 0 <= x ->
    has_children config = false -> cfg_stored_value config = None -> x = 0).
  { intros x Hx Hx0 Hc Hv. rewrite (Hempty Hc Hv), len_nil in Hx. lia. }
  change msb with (fst (msb, bits)). rewrite <- Hnh.
  destruct (Z.leb_spec (first_byte_max config) (len (cfg_partial_key config))) as [Hge|Hlt].
  - destruct (decode_header_spec config (first_byte_max config)) as [Hd Hl]; [lia|apply Hleaf; lia|].
    eexists _, _. split; [cbn [concat app]; reflexivity|]. split; [done|]. cbv zeta. rewrite Hl, Z.eqb_refl.
    rewrite pk_len_chunks_decode; [do 2 f_equal; lia | unfold len in *; lia | | lia |].
    + intros k Hk E. apply Hamb. exists k. lia.
    + unfold is_uint in *. lia.
  - destruct (decode_header_spec config (len (cfg_partial_key config))) as [Hd Hl]; [lia|apply Hleaf; lia|].
    eexists _, _. split; [cbn [concat app]; reflexivity|]. split; [done|]. cbv zeta.
    rewrite Hl, (proj2 (Z.eqb_neq _ _)) by lia. by destruct rest.
Qed.

Lemma stored_value_decode config rest :
  config_ok config ->
  decode_storage_value (stored_value_to_be_hashed config)
    (concat (stored_value_chunks config) ++ rest) = Ok (expected_storage_value config, rest).
Proof.
  intros Hok. unfold expected_storage_value, stored_value_chunks, stored_value_to_be_hashed.
  pose proof (ok_value_len _ Hok) as Hlen.
  destruct (cfg_stored_value config) as [v|]; [|done]. cbn [fmap option_fmap option_map].
  destruct (match cfg_version config with V0 => _ | V1 => _ end);
    cbn [decode_storage_value concat app].
  - rewrite app_nil_r. pose proof (blake2b_length v) as Hl. pose proof (len_nonneg rest).
    rewrite len_app, (proj2 (Z.ltb_ge _ _)) by (unfold len in *; lia).
    by rewrite take_app_length', drop_app_length' by lia.
  - rewrite app_nil_r, <- !app_assoc, decode_sized_spec by auto. done.
Qed.

(** The children part, for a node that has children and for one that has none. *)
Lemma children_decode config rest :
  config_ok config ->
  exists bitmap, (forall rest',
    decode_children_bitmap (has_children config)
      ((if has_children config then to_le_bytes 2 (children_bitmap_loop 0 (cfg_children config) 0)
        else []) ++ rest') = Ok (bitmap, rest')) /\
    decode_children (seqZ 0 16) bitmap
      ((if has_children config then concat (children_chunks (cfg_children config)) else []) ++ rest)
    = Ok (map (option_map Output_as_ref) (cfg_children config), rest).
Proof.
  intros Hok. pose proof (ok_children _ Hok) as H16. destruct (has_children config) eqn:Hhc.
  - exists (children_bitmap_loop 0 (cfg_children config) 0). split.
    + intros rest'. unfold decode_children_bitmap. pose proof (len_nonneg rest').
      rewrite len_app. change (len (to_le_bytes 2 _)) with 2. rewrite (proj2 (Z.ltb_ge _ _)) by lia.
      rewrite take_app_length', drop_app_length' by (symmetry; apply length_to_le_bytes).
      rewrite from_to_le_bytes by (apply (children_bitmap_bound _ H16)). done.
    + rewrite <- H16. apply decode_children_spec; [lia | by apply ok_child_len |].
      intros j Hj. rewrite children_bitmap_bits, Z.bits_0 by lia. cbn [orb].
      rewrite (proj2 (Z.leb_le _ _)) by lia. by replace (Z.to_nat _) with j by lia.
  - exists 0. split; [done|].
    unfold has_children in Hhc.
    assert (Hnone : forall children i, existsb (fun c : option Output => bool_decide (is_Some c)) children = false ->
      decode_children (seqZ i (len children)) 0 rest = Ok (map (option_map Output_as_ref) children, rest)).
    { clear. induction children as [|c children IH]; intros i Hhc; [done|].
      cbn [existsb] in Hhc. apply orb_false_elim in Hhc as [Hc Hhc].
      rewrite len_cons, seqZ_cons by (pose proof (len_nonneg children); lia).
      replace (Z.pred (1 + len children)) with (len children) by lia.
      cbn [decode_children]. rewrite Z.land_0_l. cbn [Z.eqb]. rewrite IH by done.
      destruct c; [by rewrite bool_decide_eq_true_2 in Hc by eauto | done]. }
    rewrite <- H16. by apply Hnone.
Qed.

Lemma node_value_decode (config : Config) :
  config_ok config ->
  ~ pk_len_ambiguous (first_byte_max config) (len (cfg_partial_key config)) ->
  exists chunks decoded, node_value_chunks config = Some chunks /\
    decode (concat chunks) = Ok decoded /\
    PartialKey_all (dec_partial_key decoded) = cfg_partial_key config /\
    dec_children decoded = map (option_map Output_as_ref) (cfg_children config) /\
    dec_storage_value decoded = expected_storage_value config.
Proof.
  intros Hok Hamb. unfold node_value_chunks. rewrite (proj2 (Z.eqb_eq _ _) (ok_children _ Hok)).
  destruct (partial_key_chunks_spec _ (ok_key _ Hok)) as (pk & Hpk & _ & _). rewrite Hpk. cbn [negb].
  set (chunks := header_chunks config ++ pk ++
    (if has_children config then [to_le_bytes 2 (children_bitmap_loop 0 (cfg_children config) 0)] else [])
    ++ stored_value_chunks config ++
    (if has_children config then children_chunks (cfg_children config) else [])).
  destruct (children_decode config [] Hok) as (bitmap & Hbitmap & Hchildren).
  rewrite app_nil_r in Hchildren.
  pose proof (decode_partial_key_spec (cfg_partial_key config) pk) as Hpkd.
  exists chunks. eexists. split; [|split].
  - unfold chunks. destruct (has_children config); cbn [negb app]; by rewrite ?app_nil_r.
  - unfold chunks. rewrite !concat_app.
    destruct (header_decode config (concat pk ++
      (if has_children config then to_le_bytes 2 (children_bitmap_loop 0 (cfg_children config) 0) else [])
      ++ concat (stored_value_chunks config) ++
      (if has_children config then concat (children_chunks (cfg_children config)) else [])) Hok Hamb)
      as (b & tl & Heq & Hd & Hlen).
    rewrite (concat_if_one (has_children config)), (concat_if (has_children config)).
    rewrite Heq. cbn [decode]. rewrite Hd. cbn [result_bind]. fold (first_byte_max config).
    rewrite Hlen. cbn [result_bind].
    rewrite (proj1 (Hpkd _ (ok_key _ Hok) Hpk)). cbn [result_bind].
    rewrite Hbitmap. cbn [result_bind]. rewrite stored_value_decode by done. cbn [result_bind].
    rewrite Hchildren. cbn [result_bind]. reflexivity.
  - cbn [dec_partial_key dec_children dec_storage_value].
    rewrite (proj2 (Hpkd [] (ok_key _ Hok) Hpk)). done.
Qed.

(** Decoding the value of a node gives the node back: its partial key,
    its children, and its storage value or the hash of it; provided the length
    of the partial key is not one of the ambiguous ones. *)
Theorem node_value_roundtrip (config : Config) :
  config_ok config ->
  ~ pk_len_ambiguous (first_byte_max config) (len (cfg_partial_key config)) ->
  exists chunks decoded, node_value_chunks config = Some chunks /\
    decode (concat chunks) = Ok decoded /\
    PartialKey_all (dec_partial_key decoded) = cfg_partial_key config /\
    dec_children decoded = map (option_map Output_as_ref) (cfg_children config) /\
    dec_storage_value decoded = expected_storage_value config.
Proof. apply node_value_decode. Qed.

(** ** The ambiguous lengths *)

(** A leaf that is the whole trie. *)
Definition single_leaf (key_bytes value : list u8) : Config :=
  {| cfg_ty := Root (nibbles_of key_bytes); cfg_children := replicate 16 None;
     cfg_stored_value := Some value; cfg_version := V0 |}.

Lemma single_leaf_ok key_bytes value :
  is_bytes key_bytes -> len key_bytes < 2 ^ 30 -> len value < 2 ^ 30 ->
  config_ok (single_leaf key_bytes value).
Proof.
  rewrite pow2_30. intros Hb Hk Hv.
  assert (2 ^ 32 <= 2 ^ usize_bits) by (destruct usize_bits_spec as [-> | ->]; by vm_compute).
  rewrite pow2_32 in *. pose proof (len_nonneg value). pose proof (len_nonneg key_bytes).
  split; cbn [cfg_ty cfg_children cfg_stored_value cfg_partial_key single_leaf].
  - done.
  - by apply nibbles_of_nibbles.
  - unfold is_uint, len in *. rewrite length_nibbles_of. lia.
  - by apply Forall_replicate.
  - intros v [= <-]. unfold is_uint. lia.
  - done.
Qed.

Lemma merkle_value_of_root config key chunks :
  cfg_ty config = Root key -> node_value_chunks config = Some chunks ->
  calculate_merkle_value config = Some (OutHasher (blake2b_32 (concat chunks))).
Proof.
  intros Hty Hc. unfold calculate_merkle_value. rewrite Hc, Hty. cbn [merkle_value_sink].
  rewrite sink_hasher. cbn [HashOrInline_finalize]. by rewrite blake2b_stream.
Qed.

(** On the ambiguous lengths the encoding is not injective: two tries
    of one entry each, with different keys and different values, have the same
    root, whatever the hash function. The first key has 318 nibbles, 63 plus 255:
    the loop [while pk_len > 255] writes a single byte 255 where the format wants
    another byte after it, and the decoder takes the first byte of the key for it. *)
Theorem merkle_value_collision :
  let key1 := 2 :: replicate 158 0 in
  let key2 := replicate 158 0 ++ [8; 0] in
  config_ok (single_leaf key1 [0; 0]) /\ config_ok (single_leaf key2 []) /\
  key1 <> key2 /\
  calculate_merkle_value (single_leaf key1 [0; 0]) = calculate_merkle_value (single_leaf key2 []) /\
  calculate_merkle_value (single_leaf key1 [0; 0]) <> None.
Proof.
  intros key1 key2.
  assert (is_bytes key1 /\ is_bytes key2) as [Hb1 Hb2].
  { split; apply (bool_decide_unpack _); by vm_compute. }
  split; [by apply single_leaf_ok|]. split; [by apply single_leaf_ok|]. split; [done|].
  assert (exists c1 c2, node_value_chunks (single_leaf key1 [0; 0]) = Some c1 /\
    node_value_chunks (single_leaf key2 []) = Some c2 /\ concat c1 = concat c2)
    as (c1 & c2 & Hc1 & Hc2 & Heq).
  { eexists _, _. split; [vm_compute; reflexivity|]. split; [vm_compute; reflexivity|]. reflexivity. }
  rewrite (merkle_value_of_root _ (nibbles_of key1) c1), (merkle_value_of_root _ (nibbles_of key2) c2)
    by done.
  by rewrite Heq.
Qed.

End roundtrip.

(** ** Witnesses *)

(** A function with the two laws, to instantiate the class. *)
Definition toy_blake2b : Blake2b := {|
  hasher := list u8;
  hasher_new := [];
  hasher_update := fun h data => h ++ data;
  hasher_finalize := fun h => replicate 32 (foldr Z.add 0 h `mod` 256);
  blake2b_32 := fun data => replicate 32 (foldr Z.add 0 data `mod` 256)
|}.

Lemma toy_blake2b_laws : Blake2bLaws (H := toy_blake2b).
Proof.
  assert (Hfold : forall chunks acc, foldl (fun h data : list u8 => h ++ data) acc chunks = acc ++ concat chunks).
  { induction chunks as [|c chunks IH]; intros acc; cbn; [by rewrite app_nil_r|].
    by rewrite IH, app_assoc. }
  split; cbn [hasher hasher_new hasher_update hasher_finalize blake2b_32 toy_blake2b].
  - intros chunks. by rewrite Hfold.
  - intros. apply length_replicate.
  - intros. apply Forall_replicate. unfold_uint. apply Z.mod_pos_bound. lia.
Qed.

(** The example of the documentation of the module. *)
Definition doc_children : list (option Output) :=
  replicate 2 None ++ [Some (OutBytes [102; 111; 111])] ++ replicate 7 None
  ++ [Some (OutBytes [98; 97; 114])] ++ replicate 5 None.

Definition doc_config : Config :=
  {| cfg_ty := NonRoot [8; 12; 1]; cfg_children := doc_children;
     cfg_stored_value := Some [104; 101; 108; 108; 111; 32; 119; 111; 114; 108; 100];
     cfg_version := V1 |}.

Example doc_merkle_value `{Blake2b} :
  calculate_merkle_value doc_config =
  Some (OutInline [195; 8; 193; 4; 4; 44; 104; 101; 108; 108; 111; 32; 119; 111; 114; 108; 100; 12;
                   102; 111; 111; 12; 98; 97; 114]).
Proof. reflexivity. Qed.

Lemma calculate_merkle_value_spec_witness :
  Output_as_ref (OutInline [195; 8; 193; 4; 4; 44; 104; 101; 108; 108; 111; 32; 119; 111; 114; 108; 100; 12;
                   102; 111; 111; 12; 98; 97; 114])
  = [195; 8; 193; 4; 4; 44; 104; 101; 108; 108; 111; 32; 119; 111; 114; 108; 100; 12;
     102; 111; 111; 12; 98; 97; 114].
Proof.
  pose proof toy_blake2b_laws as Hlaws.
  apply (calculate_merkle_value_spec (H := toy_blake2b) doc_config
           (default [] (node_value_chunks (H := toy_blake2b) doc_config))); reflexivity.
Defined.

Lemma node_value_roundtrip_witness :
  exists chunks decoded, node_value_chunks (H := toy_blake2b) doc_config = Some chunks /\
    decode (H := platform64) (concat chunks) = Ok decoded /\
    PartialKey_all (dec_partial_key decoded) = [8; 12; 1] /\
    dec_children decoded = map (option_map Output_as_ref) doc_children /\
    dec_storage_value decoded = Unhashed [104; 101; 108; 108; 111; 32; 119; 111; 114; 108; 100].
Proof.
  apply (node_value_roundtrip (H := platform64) (H0 := toy_blake2b) (H1 := toy_blake2b_laws) doc_config).
  - split; try done.
    + repeat constructor; by vm_compute.
    + apply Forall_forall. intros c Hc v ->. cbn in Hc.
      repeat (apply elem_of_cons in Hc as [Hc|Hc]; [simplify_eq; by vm_compute|]).
      by apply elem_of_nil in Hc.
    + intros v [= <-]. by vm_compute.
  - intros (k & Hk & E). change (first_byte_max doc_config) with 63 in E.
    change (len (cfg_partial_key doc_config)) with 3 in E. lia.
Defined.

Lemma merkle_value_collision_witness :
  calculate_merkle_value (H := toy_blake2b) (single_leaf (2 :: replicate 158 0) [0; 0])
  = calculate_merkle_value (H := toy_blake2b) (single_leaf (replicate 158 0 ++ [8; 0]) []).
Proof.
  destruct (merkle_value_collision (H := platform64) (H0 := toy_blake2b) (H1 := toy_blake2b_laws))
    as (_ & _ & _ & Heq & _).
  exact Heq.
Defined.
