(* ===== verification/BTree.v ===== *)
(** * Ordered maps and sets

    [BTreeMap] and [BTreeSet] are [gmap] and [gset]; what they add to a hash map,
    iteration in the order of the keys and ranges, is [btree_iter],
    [btree_range], [bset_iter] and [bset_range]. The order of the keys is a
    class, with the instances the code uses: integers, and tuples and byte strings
    compared lexicographically. A 32-byte hash is the [Z] it is the big-endian writing of:
    the order of byte strings of that length is the order of these integers. *)

From stdpp Require Export sorting.
From S2P Require Import Prelude.

Open Scope Z_scope.

Class KeyOrder (K : Type) := {
  key_le : relation K;
  #[global] key_le_dec :: RelDecision key_le;
  #[global] key_le_trans :: Transitive key_le;
  #[global] key_le_total :: Total key_le;
  #[global] key_le_antisymm :: AntiSymm eq key_le
}.

#[export] Instance key_order_Z : KeyOrder Z.
Proof. refine {| key_le := Z.le |}; apply _. Defined.

(** Lexicographic order. *)
Definition lex_le {A B} `{KeyOrder A, KeyOrder B} (x y : A * B) : Prop :=
  key_le (fst x) (fst y) /\ (fst x = fst y -> key_le (snd x) (snd y)).

#[export] Instance key_order_prod `{KeyOrder A, KeyOrder B, EqDecision A} : KeyOrder (A * B).
Proof.
  refine {| key_le := lex_le |}.
  - intros x y. unfold lex_le. apply _.
  - intros [a1 b1] [a2 b2] [a3 b3] [H1 H2] [H3 H4]. unfold lex_le in *. cbn in *. split.
    + by transitivity a2.
    + intros ->. assert (a3 = a2) as -> by (by apply (anti_symm key_le)).
      transitivity b2; auto.
  - intros [a1 b1] [a2 b2]. unfold lex_le. cbn.
    destruct (decide (a1 = a2)) as [->|Hne].
    + destruct (total key_le b1 b2); [left|right]; (split; [by destruct (total key_le a2 a2)|done]).
    + destruct (total key_le a1 a2); [left|right]; split; congruence || done.
  - intros [a1 b1] [a2 b2] [H1 H2] [H3 H4]. cbn in *.
    assert (a1 = a2) as -> by (by apply (anti_symm key_le)).
    f_equal. apply (anti_symm key_le); auto.
Defined.

(** Byte strings, compared lexicographically. *)
Fixpoint bytes_le (x y : list Z) : Prop :=
  match x, y with
  | [], _ => True
  | _ :: _, [] => False
  | a :: x, b :: y => a < b \/ (a = b /\ bytes_le x y)
  end.

#[local] Instance bytes_le_dec : RelDecision bytes_le.
Proof.
  intros x. induction x as [|a x IH]; intros [|b y]; cbn; [by left|by left|right; tauto|].
  destruct (IH y); apply _.
Defined.

#[export] Instance key_order_bytes : KeyOrder (list Z).
Proof.
  refine {| key_le := bytes_le |}.
  - intros x. induction x as [|a x IH]; intros [|b y] [|c z]; cbn; try done.
    intros [?|[-> ?]] [?|[-> ?]]; [left; lia | left; lia | by left | right; eauto].
  - intros x. induction x as [|a x IH]; intros [|b y]; cbn; try (by left); try (by right).
    destruct (Z.lt_trichotomy a b) as [?|[->|?]]; [by left; left| |by right; left].
    destruct (IH y); [left|right]; by right.
  - intros x. induction x as [|a x IH]; intros [|b y]; cbn; try done.
    intros [?|[-> ?]] [?|[? ?]]; try lia. f_equal; auto.
Defined.

(** A 32-byte hash. *)
Abbreviation Hash := Z (only parsing).
Abbreviation is_hash := (is_uint 256).

Definition hash_min : Hash := 0.
Definition hash_max : Hash := 2 ^ 256 - 1.
Definition u64_max : u64 := 2 ^ 64 - 1.

(** Sortedness of sublists. *)
Lemma StronglySorted_filter {A} (R : relation A) (P : A -> Prop) `{!forall x, Decision (P x)} l :
  StronglySorted R l -> StronglySorted R (filter P l).
Proof.
  induction 1 as [|x l Hl IH Hx]; [constructor|]. rewrite filter_cons. case_decide; [|done].
  constructor; [done|]. rewrite Forall_forall in *. intros y [_ Hy]%list_elem_of_filter. auto.
Qed.

Section btree.
Context {K : Type} `{KeyOrder K, Countable K} {V : Type}.

Definition entry_le (x y : K * V) : Prop := key_le (fst x) (fst y).

#[local] Instance entry_le_dec : RelDecision entry_le.
Proof. intros x y. unfold entry_le. apply _. Defined.

(** [BTreeMap::iter]. *)
Definition btree_iter (m : gmap K V) : list (K * V) := merge_sort entry_le (map_to_list m).

(** [BTreeMap::range(lo..=hi)]. *)
Definition btree_range (lo hi : K) (m : gmap K V) : list (K * V) :=
  filter (fun kv => key_le lo (fst kv) /\ key_le (fst kv) hi) (btree_iter m).

(** [BTreeMap::range(lo..)] and [BTreeMap::range((Bound::Excluded(lo), Bound::Unbounded))]. *)
Definition btree_from (lo : K) (m : gmap K V) : list (K * V) :=
  filter (fun kv => key_le lo (fst kv)) (btree_iter m).

Definition btree_after (lo : K) (m : gmap K V) : list (K * V) :=
  filter (fun kv => ~ key_le (fst kv) lo) (btree_iter m).

(** [BTreeSet::iter] and [BTreeSet::range(lo..=hi)]. *)
Definition bset_iter (s : gset K) : list K := merge_sort key_le (elements s).

Definition bset_range (lo hi : K) (s : gset K) : list K :=
  filter (fun k => key_le lo k /\ key_le k hi) (bset_iter s).

Lemma elem_of_btree_iter m k v : (k, v) ∈ btree_iter m <-> m !! k = Some v.
Proof. unfold btree_iter. rewrite merge_sort_Permutation. apply elem_of_map_to_list. Qed.

Lemma elem_of_btree_range lo hi m k v :
  (k, v) ∈ btree_range lo hi m <-> (key_le lo k /\ key_le k hi) /\ m !! k = Some v.
Proof. unfold btree_range. by rewrite list_elem_of_filter, elem_of_btree_iter. Qed.

Lemma btree_iter_sorted m : StronglySorted entry_le (btree_iter m).
Proof.
  apply StronglySorted_merge_sort.
  - intros x y z. unfold entry_le. apply transitivity.
  - intros x y. unfold entry_le. apply total. apply _.
Qed.

Lemma btree_iter_NoDup m : NoDup (btree_iter m).*1.
Proof. unfold btree_iter. rewrite merge_sort_Permutation. apply NoDup_fst_map_to_list. Qed.

Lemma elem_of_bset_iter s k : k ∈ bset_iter s <-> k ∈ s.
Proof. unfold bset_iter. by rewrite merge_sort_Permutation, elem_of_elements. Qed.

Lemma elem_of_bset_range lo hi s k :
  k ∈ bset_range lo hi s <-> (key_le lo k /\ key_le k hi) /\ k ∈ s.
Proof. unfold bset_range. by rewrite list_elem_of_filter, elem_of_bset_iter. Qed.

Lemma bset_iter_sorted s : StronglySorted key_le (bset_iter s).
Proof. apply StronglySorted_merge_sort; apply _. Qed.

Lemma bset_iter_NoDup s : NoDup (bset_iter s).
Proof. unfold bset_iter. rewrite merge_sort_Permutation. apply NoDup_elements. Qed.

(** The first entry of a sorted list with a property. *)
Lemma head_filter_sorted (P : K * V -> Prop) `{!forall x, Decision (P x)} (l : list (K * V)) :
  StronglySorted entry_le l ->
  match head (filter P l) with
  | Some x => x ∈ l /\ P x /\ forall y, y ∈ l -> P y -> entry_le x y
  | None => forall y, y ∈ l -> ~ P y
  end.
Proof.
  intros Hs%(StronglySorted_filter entry_le P). destruct (filter P l) as [|x f] eqn:Ef; cbn.
  - intros y Hy HP. assert (y ∈ filter P l) as Hin by (by apply list_elem_of_filter). rewrite Ef in Hin. by apply not_elem_of_nil in Hin.
  - assert (x ∈ filter P l) as [HP Hx]%list_elem_of_filter by (rewrite Ef; left).
    split; [done|]. split; [done|]. intros y Hy HPy.
    assert (y ∈ filter P l) as Hin by (by apply list_elem_of_filter). rewrite Ef in Hin.
    apply elem_of_cons in Hin as [->|Hin]; [by unfold entry_le; destruct (total key_le (fst x) (fst x))|].
    inversion Hs as [|? ? _ Hall]; subst. rewrite Forall_forall in Hall. auto.
Qed.

End btree.

(** Removing a list of keys, one by one. *)
Definition gset_remove_all `{Countable K} (l : list K) (s : gset K) : gset K :=
  foldl (fun s k => s ∖ {[k]}) s l.

Lemma elem_of_gset_remove_all `{Countable K} (l : list K) (s : gset K) k :
  k ∈ gset_remove_all l s <-> k ∈ s /\ k ∉ l.
Proof.
  revert s. induction l as [|x l IH]; intros s.
  - unfold gset_remove_all. cbn. rewrite elem_of_nil. tauto.
  - change (gset_remove_all (x :: l) s) with (gset_remove_all l (s ∖ {[x]})).
    rewrite IH, elem_of_difference, elem_of_singleton, elem_of_cons. tauto.
Qed.

Lemma gset_size_add `{Countable K} (x : K) (s : gset K) : x ∉ s -> size ({[x]} ∪ s) = S (size s).
Proof. intros Hx. rewrite size_union by set_solver. by rewrite size_singleton. Qed.

(** Fewer elements satisfy a stronger property. *)
Lemma length_filter_strict {A} (P Q : A -> Prop) `{!forall x, Decision (P x), !forall x, Decision (Q x)} l x :
  (forall y, Q y -> P y) -> x ∈ l -> P x -> ~ Q x -> (length (filter Q l) < length (filter P l))%nat.
Proof.
  intros HQP. assert (Hle : forall l, (length (filter Q l) <= length (filter P l))%nat).
  { clear l. intros l. induction l as [|y l IH]; [done|]. rewrite !filter_cons.
    destruct (decide (Q y)); [rewrite decide_True by auto; cbn; lia|]. case_decide; cbn; lia. }
  induction l as [|y l IH]; [by intros ?%not_elem_of_nil|].
  intros [->|Hin]%elem_of_cons HP HQ; rewrite !filter_cons.
  - rewrite decide_False, decide_True by done. cbn. specialize (Hle l). lia.
  - specialize (IH Hin HP HQ). destruct (decide (Q y)); [rewrite decide_True by auto; cbn; lia|]. case_decide; cbn; lia.
Qed.

(** Sorted lists without duplicates are determined by their elements. *)
Lemma sorted_ext `{KeyOrder K} (l k : list K) :
  StronglySorted key_le l -> StronglySorted key_le k -> NoDup l -> NoDup k -> (forall x, x ∈ l <-> x ∈ k) -> l = k.
Proof. intros. eapply (StronglySorted_unique key_le); [done|done|by apply NoDup_Permutation]. Qed.
