(* ===== verification/Sources.v ===== *)
(** * Sources of the syncing ([src/src/sync/all_forks/sources.rs])

    [AllForksSources] keeps, for each source, its best block and the set of
    non-finalized blocks it knows, twice: by source and by block. Every public
    operation is a function on the state; a panic is [None]. The specification
    keeps one set; the refinement theorem shows that every operation acts on the
    two sets as the specification does on the one. *)

From S2P Require Import Prelude BTree.

Open Scope Z_scope.

Section sources.
Context {TSrc : Type}.

Record Source := mkSource {
  best_block_number : u64;
  best_block_hash : Hash;
  src_user_data : TSrc
}.

Record AllForksSources := mkAllForksSources {
  sources : gmap Z Source;
  next_source_id : u64;
  known_blocks1 : gset (Z * Z * Z);
  known_blocks2 : gset (Z * Z * Z);
  src_finalized_block_height : u64
}.

(** ** Operations *)

Definition AllForksSources_new (finalized_block_height : u64) : AllForksSources :=
  {| sources := ∅; next_source_id := 0; known_blocks1 := ∅; known_blocks2 := ∅;
     src_finalized_block_height := finalized_block_height |}.

Definition sources_is_empty (self : AllForksSources) : bool := bool_decide (sources self = ∅).

Definition sources_len (self : AllForksSources) : usize := Z.of_nat (size (sources self)).

(** The fold of [num_blocks]: consecutive entries of the same block count once. *)
Definition num_blocks_step (acc : Z * option (Z * Z)) (next : Z * Z * Z) : Z * option (Z * Z) :=
  let '(uniques, prev) := acc in
  let '(nn, nh, _) := next in
  match prev with
  | Some (pn, ph) =>
      if (pn =? nn) && (ph =? nh) then (uniques, Some (pn, ph)) else (uniques + 1, Some (nn, nh))
  | None => (uniques + 1, Some (nn, nh))
  end.

Definition num_blocks (self : AllForksSources) : usize :=
  fst (foldl num_blocks_step (0, None) (bset_iter (known_blocks2 self))).

Definition add_source (self : AllForksSources) (best_number : u64) (best_hash : Hash) (user_data : TSrc)
    : u64 * AllForksSources :=
  let new_id := next_source_id self in
  let sources' := <[new_id := {| best_block_number := best_number; best_block_hash := best_hash;
                                 src_user_data := user_data |}]> (sources self) in
  let known := src_finalized_block_height self <? best_number in
  (new_id,
   {| sources := sources';
      next_source_id := wadd 64 new_id 1;
      known_blocks1 := if known then {[(new_id, best_number, best_hash)]} ∪ known_blocks1 self
                       else known_blocks1 self;
      known_blocks2 := if known then {[(best_number, best_hash, new_id)]} ∪ known_blocks2 self
                       else known_blocks2 self;
      src_finalized_block_height := src_finalized_block_height self |}).

(** The loop shared by the removals: each entry is taken out of both sets. *)
Definition purge (entries : list (Z * Z * Z)) (self : AllForksSources) : AllForksSources :=
  {| sources := sources self; next_source_id := next_source_id self;
     known_blocks1 := gset_remove_all ((fun '(n, h, i) => (i, n, h)) <$> entries) (known_blocks1 self);
     known_blocks2 := gset_remove_all entries (known_blocks2 self);
     src_finalized_block_height := src_finalized_block_height self |}.

(** The entries of [known_blocks2] that a source has in [known_blocks1]. *)
Definition entries_of_source (self : AllForksSources) (source_id : u64) : list (Z * Z * Z) :=
  let known_blocks := (fun '(_, n, h) => (n, h)) <$>
    bset_range (source_id, 0, hash_min) (source_id, u64_max, hash_max) (known_blocks1 self) in
  (fun '(height, hash) => (height, hash, source_id)) <$> known_blocks.

Definition remove_source (self : AllForksSources) (source_id : u64) : option (TSrc * AllForksSources) :=
  let! source := sources self !! source_id in
  let self := purge (entries_of_source self source_id) self in
  Some (src_user_data source,
        {| sources := delete source_id (sources self); next_source_id := next_source_id self;
           known_blocks1 := known_blocks1 self; known_blocks2 := known_blocks2 self;
           src_finalized_block_height := src_finalized_block_height self |}).

Definition set_finalized_block_height (self : AllForksSources) (height : u64) : option AllForksSources :=
  if height <? src_finalized_block_height self then None
  else
    let entries := bset_range (0, hash_min, 0) (height, hash_max, u64_max) (known_blocks2 self) in
    let self := purge entries self in
    Some {| sources := sources self; next_source_id := next_source_id self;
            known_blocks1 := known_blocks1 self; known_blocks2 := known_blocks2 self;
            src_finalized_block_height := height |}.

Definition add_known_block (self : AllForksSources) (source_id : u64) (height : u64) (hash : Hash)
    : AllForksSources :=
  if src_finalized_block_height self <? height then
    {| sources := sources self; next_source_id := next_source_id self;
       known_blocks1 := {[(source_id, height, hash)]} ∪ known_blocks1 self;
       known_blocks2 := {[(height, hash, source_id)]} ∪ known_blocks2 self;
       src_finalized_block_height := src_finalized_block_height self |}
  else self.

(** The entries of a block. *)
Definition entries_of_block (self : AllForksSources) (height : u64) (hash : Hash) : list (Z * Z * Z) :=
  let sources := (fun '(_, _, source) => source) <$>
    bset_range (height, hash, 0) (height, hash, u64_max) (known_blocks2 self) in
  (fun source_id => (height, hash, source_id)) <$> sources.

Definition remove_known_block (self : AllForksSources) (height : u64) (hash : Hash) : AllForksSources :=
  purge (entries_of_block self height hash) self.

Definition source_remove_known_block (self : AllForksSources) (source_id : u64) (height : u64)
    (hash : Hash) : AllForksSources :=
  {| sources := sources self; next_source_id := next_source_id self;
     known_blocks1 := known_blocks1 self ∖ {[(source_id, height, hash)]};
     known_blocks2 := known_blocks2 self ∖ {[(height, hash, source_id)]};
     src_finalized_block_height := src_finalized_block_height self |}.

Definition add_known_block_and_set_best (self : AllForksSources) (source_id : u64) (height : u64)
    (hash : Hash) : option AllForksSources :=
  let self := add_known_block self source_id height hash in
  let! source := sources self !! source_id in
  Some {| sources := <[source_id := {| best_block_number := height; best_block_hash := hash;
                                       src_user_data := src_user_data source |}]> (sources self);
          next_source_id := next_source_id self;
          known_blocks1 := known_blocks1 self; known_blocks2 := known_blocks2 self;
          src_finalized_block_height := src_finalized_block_height self |}.

Definition best_block (self : AllForksSources) (source_id : u64) : option (u64 * Hash) :=
  let! source := sources self !! source_id in
  Some (best_block_number source, best_block_hash source).

Definition knows_non_finalized_block (self : AllForksSources) (height : u64) (hash : Hash)
    : option (list u64) :=
  if height <=? src_finalized_block_height self then None
  else Some ((fun '(_, _, id) => id) <$>
               bset_range (height, hash, 0) (height, hash, u64_max) (known_blocks2 self)).

Definition source_knows_non_finalized_block (self : AllForksSources) (source_id : u64) (height : u64)
    (hash : Hash) : option bool :=
  if height <=? src_finalized_block_height self then None
  else Some (bool_decide ((source_id, height, hash) ∈ known_blocks1 self)).

Definition sources_contains (self : AllForksSources) (source_id : u64) : bool :=
  bool_decide (is_Some (sources self !! source_id)).

(** [keys], in an order that the hash map does not specify. *)
Definition sources_keys (self : AllForksSources) : list u64 := fst <$> map_to_list (sources self).

(** [user_data_iter_mut] and [index_mut], with what is done through the references. *)
Definition user_data_iter_mut (self : AllForksSources) (f : TSrc -> TSrc) : AllForksSources :=
  {| sources := (fun s => {| best_block_number := best_block_number s; best_block_hash := best_block_hash s;
                             src_user_data := f (src_user_data s) |}) <$> sources self;
     next_source_id := next_source_id self;
     known_blocks1 := known_blocks1 self; known_blocks2 := known_blocks2 self;
     src_finalized_block_height := src_finalized_block_height self |}.

Definition sources_index_mut (self : AllForksSources) (id : u64) (f : TSrc -> TSrc) : option AllForksSources :=
  let! s := sources self !! id in
  Some {| sources := <[id := {| best_block_number := best_block_number s; best_block_hash := best_block_hash s;
                                src_user_data := f (src_user_data s) |}]> (sources self);
          next_source_id := next_source_id self;
          known_blocks1 := known_blocks1 self; known_blocks2 := known_blocks2 self;
          src_finalized_block_height := src_finalized_block_height self |}.

Definition sources_index (self : AllForksSources) (id : u64) : option TSrc :=
  src_user_data <$> sources self !! id.

(** ** Invariant *)

Record sources_ok (self : AllForksSources) : Prop := {
  ok_mirror : forall i n h, (i, n, h) ∈ known_blocks1 self <-> (n, h, i) ∈ known_blocks2 self;
  ok_height : forall i n h, (i, n, h) ∈ known_blocks1 self -> src_finalized_block_height self < n;
  ok_types : forall i n h, (i, n, h) ∈ known_blocks1 self -> is_u64 i /\ is_u64 n /\ is_hash h;
  ok_ids : forall i, is_Some (sources self !! i) -> 0 <= i < next_source_id self;
  ok_next : 0 <= next_source_id self <= u64_max;
  ok_finalized : is_u64 (src_finalized_block_height self)
}.

(** ** The operations as events, and their specification *)

Inductive source_op :=
  | OpAddSource (best_number : u64) (best_hash : Hash) (user_data : TSrc)
  | OpRemove (source_id : u64)
  | OpSetFinalized (height : u64)
  | OpAddKnown (source_id height : u64) (hash : Hash)
  | OpRemoveKnown (height : u64) (hash : Hash)
  | OpSourceRemoveKnown (source_id height : u64) (hash : Hash)
  | OpAddKnownBest (source_id height : u64) (hash : Hash).

Definition run_source_op (self : AllForksSources) (op : source_op) : option AllForksSources :=
  match op with
  | OpAddSource n h u => Some (snd (add_source self n h u))
  | OpRemove i => snd <$> remove_source self i
  | OpSetFinalized n => set_finalized_block_height self n
  | OpAddKnown i n h => Some (add_known_block self i n h)
  | OpRemoveKnown n h => Some (remove_known_block self n h)
  | OpSourceRemoveKnown i n h => Some (source_remove_known_block self i n h)
  | OpAddKnownBest i n h => add_known_block_and_set_best self i n h
  end.

(** Arguments of the types the source gives them, and a fresh identifier left. *)
Definition source_op_ok (self : AllForksSources) (op : source_op) : Prop :=
  match op with
  | OpAddSource n h _ => is_u64 n /\ is_hash h /\ next_source_id self < u64_max
  | OpRemove i => is_u64 i
  | OpSetFinalized n => is_u64 n
  | OpAddKnown i n h | OpSourceRemoveKnown i n h | OpAddKnownBest i n h =>
      is_u64 i /\ is_u64 n /\ is_hash h
  | OpRemoveKnown n h => is_u64 n /\ is_hash h
  end.

(** The specification: one relation between sources and blocks, the height of
    the finalized block, and the best block of each source. *)
Record sources_spec := mkSourcesSpec {
  spec_known : Z -> Z -> Z -> Prop;
  spec_finalized : Z;
  spec_best : Z -> option (Z * Z)
}.

Definition sources_abs (self : AllForksSources) : sources_spec :=
  {| spec_known := fun i n h => (i, n, h) ∈ known_blocks1 self;
     spec_finalized := src_finalized_block_height self;
     spec_best := best_block self |}.

Definition spec_update {A} (f : Z -> option A) (i : Z) (v : option A) : Z -> option A :=
  fun j => if decide (i = j) then v else f j.

(** What each operation means; [next] is the identifier given to a new source. *)
Definition run_source_spec (next : Z) (s : sources_spec) (op : source_op) : sources_spec :=
  match op with
  | OpAddSource n h _ =>
      {| spec_known := fun i n' h' => spec_known s i n' h' \/
           (i = next /\ n' = n /\ h' = h /\ spec_finalized s < n);
         spec_finalized := spec_finalized s;
         spec_best := spec_update (spec_best s) next (Some (n, h)) |}
  | OpRemove i =>
      {| spec_known := fun i' n h => spec_known s i' n h /\ i' <> i;
         spec_finalized := spec_finalized s;
         spec_best := spec_update (spec_best s) i None |}
  | OpSetFinalized n =>
      {| spec_known := fun i n' h => spec_known s i n' h /\ n < n';
         spec_finalized := n; spec_best := spec_best s |}
  | OpAddKnown i n h =>
      {| spec_known := fun i' n' h' => spec_known s i' n' h' \/
           (i' = i /\ n' = n /\ h' = h /\ spec_finalized s < n);
         spec_finalized := spec_finalized s; spec_best := spec_best s |}
  | OpRemoveKnown n h =>
      {| spec_known := fun i n' h' => spec_known s i n' h' /\ ~ (n' = n /\ h' = h);
         spec_finalized := spec_finalized s; spec_best := spec_best s |}
  | OpSourceRemoveKnown i n h =>
      {| spec_known := fun i' n' h' => spec_known s i' n' h' /\ ~ (i' = i /\ n' = n /\ h' = h);
         spec_finalized := spec_finalized s; spec_best := spec_best s |}
  | OpAddKnownBest i n h =>
      {| spec_known := fun i' n' h' => spec_known s i' n' h' \/
           (i' = i /\ n' = n /\ h' = h /\ spec_finalized s < n);
         spec_finalized := spec_finalized s;
         spec_best := spec_update (spec_best s) i (Some (n, h)) |}
  end.

(** Two specifications that agree everywhere. *)
Definition spec_equiv (s t : sources_spec) : Prop :=
  (forall i n h, spec_known s i n h <-> spec_known t i n h) /\
  spec_finalized s = spec_finalized t /\
  (forall i, spec_best s i = spec_best t i).

#[export] Instance spec_equiv_equivalence : Equivalence spec_equiv.
Proof.
  split.
  - intros s. split; [done|]. by split.
  - intros s t (H1 & H2 & H3). split; [intros; by rewrite H1|]. split; [done | intros; by rewrite H3].
  - intros s t u (H1 & H2 & H3) (H4 & H5 & H6). split; [intros; by rewrite H1, H4|].
    split; [congruence | intros; by rewrite H3, H6].
Qed.

#[export] Instance run_source_spec_proper next :
  Proper (spec_equiv ==> eq ==> spec_equiv) (run_source_spec next).
Proof.
  intros s t (Hk & Hf & Hb) op ? <-.
  destruct op; (split; [|split]); cbn; unfold spec_update; intros; rewrite ?Hk, ?Hf, ?Hb; done.
Qed.

(** ** Ranges *)

(** A range over all blocks of a source, over all sources of a block, and over
    all entries up to a height. *)
Lemma range_of_source self i n h :
  sources_ok self ->
  (i, n, h) ∈ known_blocks1 self -> forall i',
  (key_le (i', 0, hash_min) (i, n, h) /\ key_le (i, n, h) (i', u64_max, hash_max)) <-> i = i'.
Proof.
  intros Hok Hin i'. destruct (ok_types _ Hok _ _ _ Hin) as (Hi & Hn & Hh).
  unfold is_uint, u64_max, hash_max, hash_min in *. cbn. unfold lex_le. cbn. unfold lex_le. cbn.
  split; [intros ((H1 & _) & (H2 & _)); lia | intros ->].
  split; (split; [split; [lia|intros _; lia] | intros _; lia]).
Qed.

Lemma range_of_block self i n h :
  sources_ok self ->
  (n, h, i) ∈ known_blocks2 self -> forall n' h',
  (key_le (n', h', 0) (n, h, i) /\ key_le (n, h, i) (n', h', u64_max)) <-> n = n' /\ h = h'.
Proof.
  intros Hok Hin n' h'. apply (ok_mirror _ Hok) in Hin.
  destruct (ok_types _ Hok _ _ _ Hin) as (Hi & Hn & Hh).
  unfold is_uint, u64_max in *. cbn. unfold lex_le. cbn. unfold lex_le. cbn. split.
  - intros (((H1 & H2) & _) & ((H3 & H4) & _)). assert (n = n') by lia. lia.
  - intros [-> ->]. split; (split; [split; [lia|intros _; lia] | intros _; lia]).
Qed.

Lemma range_up_to self i n h :
  sources_ok self ->
  (n, h, i) ∈ known_blocks2 self -> forall n',
  (key_le (0, hash_min, 0) (n, h, i) /\ key_le (n, h, i) (n', hash_max, u64_max)) <-> n <= n'.
Proof.
  intros Hok Hin n'. apply (ok_mirror _ Hok) in Hin.
  destruct (ok_types _ Hok _ _ _ Hin) as (Hi & Hn & Hh).
  unfold is_uint, u64_max, hash_max, hash_min in *. cbn. unfold lex_le. cbn. unfold lex_le. cbn. split.
  - intros (_ & ((H3 & _) & _)). lia.
  - intros Hle. split; (split; [split; [lia|intros _; lia] | intros _; lia]).
Qed.

(** Purging removes the same entries from both sets. *)
Lemma purge_known entries self i n h :
  (i, n, h) ∈ known_blocks1 (purge entries self) <->
  (i, n, h) ∈ known_blocks1 self /\ (n, h, i) ∉ entries.
Proof.
  unfold purge. cbn. rewrite elem_of_gset_remove_all, list_elem_of_fmap.
  split; intros [Hin Hne]; (split; [done|]).
  - intros Hin'. apply Hne. by exists (n, h, i).
  - intros ([[n' h'] i'] & [= -> -> ->] & Hin'). done.
Qed.

Lemma purge_ok entries self : sources_ok self -> sources_ok (purge entries self).
Proof.
  intros Hok. split; try (unfold purge; cbn; apply Hok).
  - intros i n h. rewrite purge_known. unfold purge. cbn.
    by rewrite elem_of_gset_remove_all, (ok_mirror _ Hok).
  - intros i n h [Hin _]%purge_known. by apply (ok_height _ Hok) in Hin.
  - intros i n h [Hin _]%purge_known. by apply (ok_types _ Hok) in Hin.
Qed.

(** Adding a block above the finalized height to both sets. *)
Lemma add_known_ok self i n h :
  sources_ok self -> is_u64 i -> is_u64 n -> is_hash h -> sources_ok (add_known_block self i n h).
Proof.
  intros Hok Hi Hn Hh. unfold add_known_block.
  destruct (Z.ltb_spec (src_finalized_block_height self) n) as [Hlt|]; [|done].
  split; cbn; try apply Hok; intros i' n' h'; rewrite !elem_of_union, !elem_of_singleton.
  - rewrite (ok_mirror _ Hok). naive_solver.
  - intros [[= -> -> ->]|Hin]; [done | by apply (ok_height _ Hok) in Hin].
  - intros [[= -> -> ->]|Hin]; [done | by apply (ok_types _ Hok) in Hin].
Qed.

Lemma add_known_known self i n h i' n' h' :
  (i', n', h') ∈ known_blocks1 (add_known_block self i n h) <->
  (i', n', h') ∈ known_blocks1 self \/
  (i' = i /\ n' = n /\ h' = h /\ src_finalized_block_height self < n).
Proof.
  unfold add_known_block. destruct (Z.ltb_spec (src_finalized_block_height self) n) as [Hlt|Hge].
  - cbn. rewrite elem_of_union, elem_of_singleton. split; naive_solver.
  - split; [by left | intros [?|?]; [done|lia]].
Qed.

Lemma add_known_same self i n h :
  sources (add_known_block self i n h) = sources self /\
  next_source_id (add_known_block self i n h) = next_source_id self /\
  src_finalized_block_height (add_known_block self i n h) = src_finalized_block_height self.
Proof. unfold add_known_block. by case_if. Qed.

(** A new source is the insertion of the source, then of its best block. *)
Lemma add_source_alt self n h u :
  let self1 := {| sources := <[next_source_id self := {| best_block_number := n; best_block_hash := h;
                               src_user_data := u |}]> (sources self);
                  next_source_id := wadd 64 (next_source_id self) 1;
                  known_blocks1 := known_blocks1 self; known_blocks2 := known_blocks2 self;
                  src_finalized_block_height := src_finalized_block_height self |} in
  snd (add_source self n h u) = add_known_block self1 (next_source_id self) n h.
Proof. unfold add_source, add_known_block. cbn. by case_if. Qed.

Lemma add_source_refines self n h u :
  sources_ok self -> source_op_ok self (OpAddSource n h u) ->
  let self' := snd (add_source self n h u) in
  sources_ok self' /\
  spec_equiv (sources_abs self') (run_source_spec (next_source_id self) (sources_abs self) (OpAddSource n h u)).
Proof.
  intros Hok (Hn & Hh & Hnext) self'. unfold self'. rewrite add_source_alt.
  set (self1 := {| sources := _ |}). pose proof (ok_next _ Hok) as Hnn. unfold u64_max in *.
  assert (Hw : wadd 64 (next_source_id self) 1 = next_source_id self + 1)
    by (apply wrap_small; unfold is_uint; lia).
  assert (Hok1 : sources_ok self1).
  { split; try apply Hok; cbn; rewrite ?Hw; [|unfold u64_max; lia].
    intros i. destruct (decide (next_source_id self = i)) as [<-|Hne]; [lia|].
    rewrite lookup_insert_ne by done. intros Hi. apply (ok_ids _ Hok) in Hi. lia. }
  split; [apply add_known_ok; try done; unfold is_uint; lia|].
  destruct (add_known_same self1 (next_source_id self) n h) as (Hs & _ & Hf). split; [|split]; cbn.
  - intros i n' h'. by rewrite add_known_known.
  - by rewrite Hf.
  - intros i. unfold best_block, spec_update. rewrite Hs. cbn. rewrite lookup_insert.
    case_decide; done.
Qed.

Lemma remove_source_refines self i u self' :
  sources_ok self -> is_u64 i -> remove_source self i = Some (u, self') ->
  sources_ok self' /\
  spec_equiv (sources_abs self') (run_source_spec (next_source_id self) (sources_abs self) (OpRemove i)).
Proof.
  intros Hok Hi. unfold remove_source. destruct (sources self !! i) as [src|] eqn:Hsrc; [|done].
  intros [= <- <-]. set (entries := entries_of_source self i).
  assert (Hentries : forall i' n h, (i', n, h) ∈ known_blocks1 self -> (n, h, i') ∈ entries <-> i' = i).
  { intros i' n h Hin. unfold entries, entries_of_source. rewrite list_elem_of_fmap.
    setoid_rewrite list_elem_of_fmap. split.
    - intros ([n' h'] & Heq & _). by simplify_eq/=.
    - intros ->. exists (n, h). split; [done|]. exists (i, n, h). split; [done|].
      apply elem_of_bset_range. split; [|done]. by apply (range_of_source self). }
  pose proof (purge_ok entries self Hok) as Hp. split.
  - split; try apply Hp. cbn. intros j. rewrite lookup_delete. case_decide; [by intros [? ?]|].
    apply (ok_ids _ Hok).
  - split; [|split]; cbn; [|done|].
    + intros i' n h. change (gset_remove_all _ _) with (known_blocks1 (purge entries self)).
      rewrite purge_known. split; intros [Hin Hne]; (split; [done|]); by rewrite Hentries in *.
    + intros j. unfold best_block, spec_update. cbn. rewrite lookup_delete. by case_decide.
Qed.

Lemma set_finalized_refines self n self' :
  sources_ok self -> is_u64 n -> set_finalized_block_height self n = Some self' ->
  sources_ok self' /\
  spec_equiv (sources_abs self') (run_source_spec (next_source_id self) (sources_abs self) (OpSetFinalized n)).
Proof.
  intros Hok Hn. unfold set_finalized_block_height.
  destruct (Z.ltb_spec n (src_finalized_block_height self)) as [|Hge]; [done|]. intros [= <-].
  set (entries := bset_range _ _ _). pose proof (purge_ok entries self Hok) as Hp.
  assert (Hentries : forall i n' h, (i, n', h) ∈ known_blocks1 self -> (n', h, i) ∈ entries <-> n' <= n).
  { intros i n' h Hin. apply (ok_mirror _ Hok) in Hin. unfold entries.
    rewrite elem_of_bset_range, (range_up_to self) by done. tauto. }
  assert (Hknown : forall i n' h, (i, n', h) ∈ known_blocks1 (purge entries self) <->
    (i, n', h) ∈ known_blocks1 self /\ n < n').
  { intros i n' h. rewrite purge_known. split; intros [Hin Hne]; (split; [done|]);
      rewrite Hentries in * by done; lia. }
  split.
  - split; try apply Hp; cbn; [|done].
    intros i n' h [_ Hlt]%Hknown. done.
  - split; [|split]; cbn; [|done|done]. apply Hknown.
Qed.

Lemma remove_known_refines self n h :
  sources_ok self ->
  let self' := remove_known_block self n h in
  sources_ok self' /\
  spec_equiv (sources_abs self') (run_source_spec (next_source_id self) (sources_abs self) (OpRemoveKnown n h)).
Proof.
  intros Hok self'. unfold self', remove_known_block. set (entries := entries_of_block self n h).
  split; [by apply purge_ok|]. split; [|split]; cbn; [|done|done].
  intros i n' h'. change (gset_remove_all _ _) with (known_blocks1 (purge entries self)).
  rewrite purge_known. unfold entries, entries_of_block. rewrite list_elem_of_fmap. setoid_rewrite list_elem_of_fmap.
  split; intros [Hin Hne]; (split; [done|]).
  - intros [-> ->]. apply Hne. exists i. split; [done|]. exists (n, h, i). split; [done|].
    pose proof Hin as Hin2. apply (ok_mirror _ Hok) in Hin2.
    apply elem_of_bset_range. split; [|done]. by apply (range_of_block self).
  - intros (i' & Heq & _). simplify_eq. by apply Hne.
Qed.

Lemma source_remove_known_refines self i n h :
  sources_ok self ->
  let self' := source_remove_known_block self i n h in
  sources_ok self' /\
  spec_equiv (sources_abs self')
    (run_source_spec (next_source_id self) (sources_abs self) (OpSourceRemoveKnown i n h)).
Proof.
  intros Hok self'.
  assert (Hk : forall i' n' h', (i', n', h') ∈ known_blocks1 self' <->
    (i', n', h') ∈ known_blocks1 self /\ ~ (i' = i /\ n' = n /\ h' = h)).
  { intros. cbn. rewrite elem_of_difference, elem_of_singleton. split; naive_solver. }
  split; [|by split; [apply Hk | split]].
  split; try apply Hok.
  - intros i' n' h'. rewrite Hk. cbn. rewrite elem_of_difference, elem_of_singleton.
    rewrite (ok_mirror _ Hok). naive_solver.
  - intros i' n' h' [Hin _]%Hk. by apply (ok_height _ Hok) in Hin.
  - intros i' n' h' [Hin _]%Hk. by apply (ok_types _ Hok) in Hin.
Qed.

Lemma add_known_refines self i n h :
  sources_ok self -> is_u64 i -> is_u64 n -> is_hash h ->
  let self' := add_known_block self i n h in
  sources_ok self' /\
  spec_equiv (sources_abs self') (run_source_spec (next_source_id self) (sources_abs self) (OpAddKnown i n h)).
Proof.
  intros Hok Hi Hn Hh self'. unfold self'. split; [by apply add_known_ok|].
  destruct (add_known_same self i n h) as (Hs & _ & Hf). split; [|split]; cbn.
  - intros. by rewrite add_known_known.
  - done.
  - intros j. unfold best_block. by rewrite Hs.
Qed.

Lemma add_known_best_refines self i n h self' :
  sources_ok self -> is_u64 i -> is_u64 n -> is_hash h ->
  add_known_block_and_set_best self i n h = Some self' ->
  sources_ok self' /\
  spec_equiv (sources_abs self') (run_source_spec (next_source_id self) (sources_abs self) (OpAddKnownBest i n h)).
Proof.
  intros Hok Hi Hn Hh. unfold add_known_block_and_set_best.
  destruct (add_known_same self i n h) as (Hs & Hnx & Hf). rewrite Hs.
  destruct (sources self !! i) as [src|] eqn:Hsrc; [|done]. intros [= <-].
  pose proof (add_known_ok self i n h Hok Hi Hn Hh) as Hok'. split.
  - split; try apply Hok'. cbn. intros j. rewrite lookup_insert, Hnx. case_decide as Hd.
    + subst. intros _. apply (ok_ids _ Hok). by rewrite Hsrc.
    + apply (ok_ids _ Hok).
  - split; [|split]; cbn; [intros; by rewrite add_known_known | done |].
    intros j. unfold best_block, spec_update. cbn. rewrite lookup_insert. by case_decide.
Qed.

(** One operation. *)
Lemma source_op_refines self op self' :
  sources_ok self -> source_op_ok self op -> run_source_op self op = Some self' ->
  sources_ok self' /\
  spec_equiv (sources_abs self') (run_source_spec (next_source_id self) (sources_abs self) op).
Proof.
  intros Hok Hop. destruct op; cbn [run_source_op]; try (intros [= <-]).
  - by apply add_source_refines.
  - destruct (remove_source self source_id) as [[u s]|] eqn:E; [|done]. intros [= <-].
    by apply (remove_source_refines _ _ u).
  - by apply set_finalized_refines.
  - destruct Hop as (? & ? & ?). by apply add_known_refines.
  - by apply remove_known_refines.
  - by apply source_remove_known_refines.
  - destruct Hop as (? & ? & ?). by apply add_known_best_refines.
Qed.

(** ** Runs *)

(** Several operations, all defined. *)
Inductive source_run : AllForksSources -> list source_op -> AllForksSources -> Prop :=
  | source_run_nil s : source_run s [] s
  | source_run_cons s op s1 ops s2 :
      source_op_ok s op -> run_source_op s op = Some s1 -> source_run s1 ops s2 ->
      source_run s (op :: ops) s2.

(** The specification of a run; the identifiers are given in sequence. *)
Fixpoint run_source_specs (next : Z) (s : sources_spec) (ops : list source_op) : sources_spec :=
  match ops with
  | [] => s
  | op :: ops =>
      run_source_specs (match op with OpAddSource _ _ _ => next + 1 | _ => next end)
        (run_source_spec next s op) ops
  end.

#[export] Instance run_source_specs_proper next :
  Proper (spec_equiv ==> eq ==> spec_equiv) (run_source_specs next).
Proof.
  intros s t Hst ops ? <-. revert next s t Hst.
  induction ops as [|op ops IH]; intros next s t Hst; [done|]. cbn. apply IH. by rewrite Hst.
Qed.

Lemma run_source_op_next self op self' :
  sources_ok self -> source_op_ok self op -> run_source_op self op = Some self' ->
  next_source_id self' =
  match op with OpAddSource _ _ _ => next_source_id self + 1 | _ => next_source_id self end.
Proof.
  intros Hok Hop. pose proof (ok_next _ Hok). destruct op; cbn [run_source_op].
  - intros [= <-]. destruct Hop as (_ & _ & Hlt). cbn. apply wrap_small.
    unfold is_uint, u64_max in *. lia.
  - unfold remove_source. destruct (sources self !! source_id); [|done]. by intros [= <-].
  - unfold set_finalized_block_height. case_if; [done|]. by intros [= <-].
  - intros [= <-]. apply add_known_same.
  - by intros [= <-].
  - by intros [= <-].
  - unfold add_known_block_and_set_best. destruct (_ !! _); [|done]. intros [= <-]. cbn.
    apply add_known_same.
Qed.

Lemma sources_new_ok n : is_u64 n -> sources_ok (AllForksSources_new n).
Proof.
  intros Hn. split; cbn; try done; try set_solver.
  intros i. rewrite lookup_empty. by intros [? ?].
Qed.

Lemma source_run_refines s ops self :
  source_run s ops self -> sources_ok s ->
  sources_ok self /\
  spec_equiv (sources_abs self) (run_source_specs (next_source_id s) (sources_abs s) ops).
Proof.
  induction 1 as [s|s op s1 ops s2 Hop Hstep Hrun IH]; intros Hok; [done|].
  destruct (source_op_refines _ _ _ Hok Hop Hstep) as [Hok1 Heq]. destruct (IH Hok1) as [Hok2 Hrest].
  split; [done|]. cbn. rewrite Hrest, Heq.
  by rewrite (run_source_op_next _ _ _ Hok Hop Hstep).
Qed.

(** Any sequence of operations on a new container refines the
    specification: the set of blocks each source knows, the finalized height and
    the best blocks are those the specification computes, and the two indices of
    the container mirror each other, contain only blocks above the finalized
    height, and only identifiers that were given out are in use. *)
Theorem sources_refinement (n : u64) (ops : list source_op) (self : AllForksSources) :
  is_u64 n -> source_run (AllForksSources_new n) ops self ->
  sources_ok self /\
  spec_equiv (sources_abs self)
    (run_source_specs 0 {| spec_known := fun _ _ _ => False; spec_finalized := n;
                           spec_best := fun _ => None |} ops).
Proof.
  intros Hn Hrun.
  destruct (source_run_refines _ _ _ Hrun (sources_new_ok n Hn)) as [Hok Heq]. split; [done|].
  rewrite Heq. cbn. f_equiv. split; [|split]; cbn; [set_solver | done |].
  intros i. unfold best_block. cbn. by rewrite lookup_empty.
Qed.

(** ** Queries *)

(** The list of the sources that know a block. *)
Lemma knows_sources (self : AllForksSources) (n : u64) (h : Hash) :
  sources_ok self ->
  if n <=? src_finalized_block_height self then knows_non_finalized_block self n h = None
  else exists ids, knows_non_finalized_block self n h = Some ids /\ NoDup ids /\
    forall i, i ∈ ids <-> (i, n, h) ∈ known_blocks1 self.
Proof.
  intros Hok. unfold knows_non_finalized_block. destruct (n <=? src_finalized_block_height self); [done|]. eexists. split; [done|].
  set (r := bset_range _ _ _).
  assert (Hr : forall x, x ∈ r <-> exists i, x = (n, h, i) /\ (n, h, i) ∈ known_blocks2 self).
  { intros [[n' h'] i]. unfold r. rewrite elem_of_bset_range. split.
    - intros [Hrange Hin]. apply (range_of_block self) in Hrange as [-> ->]; eauto.
    - intros (i' & [= -> -> ->] & Hin). split; [by apply (range_of_block self)|done]. }
  split.
  - apply NoDup_fmap_2_strong.
    + intros x y Hx Hy. apply Hr in Hx as (i & -> & _), Hy as (j & -> & _). by intros ->.
    + apply NoDup_filter, bset_iter_NoDup.
  - intros i. rewrite list_elem_of_fmap, (ok_mirror _ Hok). split.
    + intros (x & -> & Hx). apply Hr in Hx as (j & -> & Hin). done.
    + intros Hin. exists (n, h, i). split; [done|]. apply Hr. eauto.
Qed.

(** On a non-finalized block the two queries agree with each other: a
    source is in the list of the sources that know the block exactly when it
    knows it, and appears there once. On a finalized height both panic. *)
Theorem knows_queries_agree (self : AllForksSources) (n : u64) (h : Hash) :
  sources_ok self ->
  if n <=? src_finalized_block_height self then
    knows_non_finalized_block self n h = None /\
    forall i, source_knows_non_finalized_block self i n h = None
  else exists ids, knows_non_finalized_block self n h = Some ids /\ NoDup ids /\
    forall i, source_knows_non_finalized_block self i n h = Some (bool_decide (i ∈ ids)).
Proof.
  intros Hok. pose proof (knows_sources self n h Hok) as Hk. unfold source_knows_non_finalized_block.
  destruct (n <=? src_finalized_block_height self); [done|]. destruct Hk as (ids & Hrun & Hnd & Hids).
  exists ids. split; [done|]. split; [done|]. intros i. f_equal. apply bool_decide_ext. by rewrite Hids.
Qed.

(** The set of blocks known by some source. *)
Definition distinct_blocks (l : list (Z * Z * Z)) : gset (Z * Z) := list_to_set (fst <$> l).

Lemma num_blocks_fold l u p :
  StronglySorted key_le l -> Forall (fun x => key_le p (fst x)) l ->
  fst (foldl num_blocks_step (u, Some p) l) = u + Z.of_nat (size (distinct_blocks l ∖ {[p]})).
Proof.
  intros Hsort. revert u p. induction Hsort as [|[[n h] i] l Hsort IH Hx]; intros u [pn ph] Hp.
  - unfold distinct_blocks. cbn. rewrite difference_empty_L || idtac.
    replace (size _) with 0%nat; [lia|]. symmetry. apply size_empty_iff. set_solver.
  - apply Forall_cons in Hp as [Hpx Hp]. cbn in Hpx. cbn [foldl num_blocks_step].
    assert (Hle : Forall (fun x => key_le (n, h) (fst x)) l).
    { eapply Forall_impl; [exact Hx|]. intros [[n' h'] i'] [Hle _]. exact Hle. }
    destruct ((pn =? n) && (ph =? h)) eqn:E.
    + bool_to_prop. subst. rewrite IH by done. do 2 f_equal.
      apply set_size_proper. unfold distinct_blocks. cbn. set_solver.
    + rewrite IH by done. enough (size (distinct_blocks ((n, h, i) :: l) ∖ {[(pn, ph)]})
        = S (size (distinct_blocks l ∖ {[(n, h)]}))) by lia.
      assert ((pn, ph) ≠ (n, h)) as Hne.
      { intros [= -> ->]. rewrite !Z.eqb_refl in E. done. }
      assert ((pn, ph) ∉ distinct_blocks l).
      { unfold distinct_blocks. rewrite elem_of_list_to_set, list_elem_of_fmap. intros (x & Heq & Hin).
        rewrite Forall_forall in Hle. apply Hle in Hin. rewrite <- Heq in Hin.
        apply Hne. by apply (anti_symm key_le). }
      rewrite <- (gset_size_add (n, h)) by set_solver.
      apply set_size_proper. unfold distinct_blocks in *. cbn. intros x.
      destruct (decide (x = (n, h))); set_solver.
Qed.

(** [num_blocks] counts the distinct blocks known by at least one
    source. *)
Theorem num_blocks_spec (self : AllForksSources) :
  num_blocks self =
  Z.of_nat (size (set_map (D := gset (Z * Z)) fst (known_blocks2 self))).
Proof.
  unfold num_blocks. pose proof (bset_iter_sorted (known_blocks2 self)) as Hsort.
  transitivity (Z.of_nat (size (distinct_blocks (bset_iter (known_blocks2 self))))).
  - destruct Hsort as [|[[n h] i] l Hsort Hx]; [done|]. cbn [foldl num_blocks_step].
    rewrite num_blocks_fold; [|done|].
    + rewrite Z.add_comm, Z.add_1_r, <- Nat2Z.inj_succ, <- (gset_size_add (n, h)) by set_solver.
      f_equal. apply set_size_proper. unfold distinct_blocks. cbn. intros x.
      destruct (decide (x = (n, h))); set_solver.
    + eapply Forall_impl; [exact Hx|]. intros [[n' h'] i'] [Hle _]. exact Hle.
  - f_equal. apply set_size_proper. intros x. unfold distinct_blocks.
    rewrite elem_of_list_to_set, list_elem_of_fmap, elem_of_map.
    split; intros (y & -> & Hy); exists y; (split; [done|]); by apply elem_of_bset_iter.
Qed.

End sources.

(** ** Witnesses *)

(** The scenario of the unit test of the source. *)
Definition basic_ops : list (source_op (TSrc := unit)) :=
  [OpAddSource 12 1 (); OpAddKnownBest 0 13 2; OpRemoveKnown 13 2; OpSetFinalized 12].

Definition basic_state : AllForksSources (TSrc := unit) :=
  default (AllForksSources_new 10)
    (foldl (fun s op => s ← s; run_source_op s op) (Some (AllForksSources_new 10)) basic_ops).

Lemma basic_run : source_run (AllForksSources_new 10) basic_ops basic_state.
Proof.
  repeat (eapply source_run_cons; [by vm_compute | reflexivity |]). apply source_run_nil.
Qed.

Lemma sources_refinement_witness :
  sources_ok basic_state /\ best_block basic_state 0 = Some (13, 2) /\ num_blocks basic_state = 0.
Proof.
  destruct (sources_refinement 10 basic_ops basic_state ltac:(by vm_compute) basic_run)
    as (Hok & _ & _ & Hbest).
  split; [exact Hok|]. split; [exact (Hbest 0) | reflexivity].
Defined.

Lemma knows_queries_agree_witness :
  exists ids, knows_non_finalized_block basic_state 14 5 = Some ids /\ NoDup ids /\
    forall i, source_knows_non_finalized_block basic_state i 14 5 = Some (bool_decide (i ∈ ids)).
Proof.
  apply (knows_queries_agree basic_state 14 5).
  apply (source_run_refines (AllForksSources_new 10) basic_ops);
    [exact basic_run | by apply sources_new_ok; vm_compute].
Defined.
