(* ===== verification/Disjoint.v ===== *)
(** * Disjoint blocks ([src/src/sync/all_forks/disjoint.rs])

    The collection of blocks that are known to exist but cannot be verified yet,
    keyed by height and hash. The central property is the one the module
    documents: the descendants of a bad block are bad. It is [bad_closed] below:
    marking a block bad, setting a parent and removing blocks keep it; inserting
    a block keeps it only under a condition, and two counterexamples show where
    the source loses it. *)

From S2P Require Import Prelude BTree.

Open Scope Z_scope.

Section disjoint.
Context {TBl : Type}.

Record Block := mkBlock {
  parent_hash : option Hash;
  bad : bool;
  user_data : TBl
}.

Record DisjointBlocks := mkDisjointBlocks { blocks : gmap (Z * Z) Block }.

(** ** Operations *)

Definition DisjointBlocks_new : DisjointBlocks := {| blocks := ∅ |}.

Definition disjoint_is_empty (self : DisjointBlocks) : bool := Nat.eqb (size (blocks self)) 0.

Definition disjoint_len (self : DisjointBlocks) : usize := Z.of_nat (size (blocks self)).

Definition disjoint_iter (self : DisjointBlocks) : list (u64 * Hash * TBl) :=
  (fun '((he, ha), bl) => (he, ha, user_data bl)) <$> btree_iter (blocks self).

Definition disjoint_contains (self : DisjointBlocks) (height : u64) (hash : Hash) : bool :=
  bool_decide (is_Some (blocks self !! (height, hash))).

(** [self.blocks.get(&key).map_or(false, |b| b.bad)]. *)
Definition get_bad (m : gmap (Z * Z) Block) (k : Z * Z) : bool :=
  match m !! k with Some b => bad b | None => false end.

(** [parent_is_bad] of [insert]. *)
Definition parent_is_bad (m : gmap (Z * Z) Block) (height : u64) (parent : option Hash) : bool :=
  match checked_sub 64 height 1, parent with
  | Some parent_height, Some parent_hash => get_bad m (parent_height, parent_hash)
  | _, _ => false
  end.

Definition disjoint_insert (self : DisjointBlocks) (height : u64) (hash : Hash)
    (parent : option Hash) (data : TBl) : option TBl * DisjointBlocks :=
  let parent_is_bad := parent_is_bad (blocks self) height parent in
  match blocks self !! (height, hash) with
  | Some entry =>
      let parent' :=
        match parent, parent_hash entry with
        | Some _, Some ph => Some ph
        | Some parent_hash, None => Some parent_hash
        | None, ph => ph
        end in
      (Some (user_data entry),
       {| blocks := <[(height, hash) := {| parent_hash := parent'; bad := bad entry;
                                           user_data := data |}]> (blocks self) |})
  | None =>
      (None,
       {| blocks := <[(height, hash) := {| parent_hash := parent; bad := parent_is_bad;
                                           user_data := data |}]> (blocks self) |})
  end.

Definition disjoint_remove (self : DisjointBlocks) (height : u64) (hash : Hash)
    : option (TBl * DisjointBlocks) :=
  let! b := blocks self !! (height, hash) in
  Some (user_data b, {| blocks := delete (height, hash) (blocks self) |}).

Definition remove_below_height (self : DisjointBlocks) (threshold : u64)
    : list (u64 * Hash * TBl) * DisjointBlocks :=
  let above_threshold := filter (fun kv => key_le (threshold, hash_min) (fst kv)) (blocks self) in
  let below_threshold := filter (fun kv => ~ key_le (threshold, hash_min) (fst kv)) (blocks self) in
  ((fun '((he, ha), v) => (he, ha, user_data v)) <$> btree_iter below_threshold,
   {| blocks := above_threshold |}).

Definition disjoint_user_data (self : DisjointBlocks) (height : u64) (hash : Hash) : option TBl :=
  user_data <$> blocks self !! (height, hash).

(** [user_data_mut], with what is done through the reference; [None] if there is no
    such block. *)
Definition disjoint_user_data_mut (self : DisjointBlocks) (height : u64) (hash : Hash) (f : TBl -> TBl)
    : option DisjointBlocks :=
  let! block := blocks self !! (height, hash) in
  Some {| blocks := <[(height, hash) := {| parent_hash := parent_hash block; bad := bad block;
                                          user_data := f (user_data block) |}]> (blocks self) |}.

Definition disjoint_parent_hash (self : DisjointBlocks) (height : u64) (hash : Hash) : option Hash :=
  blocks self !! (height, hash) ≫= parent_hash.

(** The entries at [height + 1] whose parent is [hash], shared by [children] and
    [set_block_bad]. *)
Definition children_entries (m : gmap (Z * Z) Block) (height : u64) (hash : Hash)
    : list (Z * Z * Block) :=
  filter (fun kv => parent_hash (snd kv) = Some hash)
    (btree_range (wadd 64 height 1, hash_min) (wadd 64 height 1, hash_max) m).

Definition disjoint_children (self : DisjointBlocks) (height : u64) (hash : Hash)
    : list (u64 * Hash * TBl) :=
  (fun '((he, ha), bl) => (he, ha, user_data bl)) <$> children_entries (blocks self) height hash.

Definition set_bad (b : Block) : Block :=
  {| parent_hash := parent_hash b; bad := true; user_data := user_data b |}.

(** One pass of the [while] loop of [set_block_bad]: the blocks of the list are
    marked, and their children collected. *)
Fixpoint mark_level (m : gmap (Z * Z) Block) (l : list (Z * Z)) (children : list (Z * Z))
    : option (gmap (Z * Z) Block * list (Z * Z)) :=
  match l with
  | [] => Some (m, children)
  | (height, hash) :: l =>
      let! b := m !! (height, hash) in
      let m := <[(height, hash) := set_bad b]> m in
      let children := children ++ ((fun kv => (wadd 64 height 1, snd (fst kv)))
                                     <$> children_entries m height hash) in
      mark_level m l children
  end.

(** The loop; [None] is a panic, or the end of the fuel. *)
Fixpoint set_block_bad_loop (fuel : nat) (m : gmap (Z * Z) Block) (l : list (Z * Z))
    : option (gmap (Z * Z) Block) :=
  match l with
  | [] => Some m
  | _ :: _ =>
      match fuel with
      | O => None
      | S fuel => let! (m, children) := mark_level m l [] in set_block_bad_loop fuel m children
      end
  end.

(** Each pass is one height up, so there are no more passes than blocks. *)
Definition set_block_bad (self : DisjointBlocks) (height : u64) (hash : Hash) : option DisjointBlocks :=
  let! m := set_block_bad_loop (S (size (blocks self))) (blocks self) [(height, hash)] in
  Some {| blocks := m |}.

Definition set_parent_hash (self : DisjointBlocks) (height : u64) (hash : Hash) (parent : Hash)
    : option DisjointBlocks :=
  let parent_is_bad :=
    match checked_sub 64 height 1 with
    | Some parent_height => get_bad (blocks self) (parent_height, parent)
    | None => false
    end in
  let! block := blocks self !! (height, hash) in
  let! parent' :=
    match parent_hash block with
    | Some ph => if ph =? parent then Some ph else None
    | None => Some parent
    end in
  let self := {| blocks := <[(height, hash) := {| parent_hash := Some parent'; bad := bad block;
                                                  user_data := user_data block |}]> (blocks self) |} in
  if parent_is_bad then set_block_bad self height hash else Some self.

Record TreeRoot := mkTreeRoot { tr_block_hash : Hash; tr_block_number : u64; tr_parent_block_hash : Hash }.

Definition good_tree_roots (self : DisjointBlocks) : list TreeRoot :=
  omap (fun '((height, hash), block) =>
    let! parent := parent_hash block in
    if bool_decide (is_Some (blocks self !! (wsub 64 height 1, parent))) then None
    else Some {| tr_block_hash := hash; tr_block_number := height; tr_parent_block_hash := parent |})
    (filter (fun kv => bad (snd kv) = false) (btree_iter (blocks self))).

(** [iter1] of [unknown_blocks]: the blocks whose parent is not known. *)
Definition unknown_iter1 (m : gmap (Z * Z) Block) : list (u64 * Hash) :=
  fst <$> filter (fun kv => bad (snd kv) = false /\ parent_hash (snd kv) = None) (btree_iter m).

(** [iter2]: the parents that are missing from the collection. *)
Definition unknown_iter2 (m : gmap (Z * Z) Block) : list (u64 * Hash) :=
  filter (fun k => m !! k = None)
    (omap (fun '((n, _), s) => (fun h => (wsub 64 n 1, h)) <$> parent_hash s)
      (filter (fun kv => bad (snd kv) = false) (btree_iter m))).

Definition height_le (b1 b2 : Z * Z) : Prop := fst b1 <= fst b2.

#[export] Instance height_le_dec : RelDecision height_le.
Proof. intros x y. unfold height_le. apply _. Defined.

(** [iter1] and [iter2] are merged: the next element is taken from [iter2] when
    the height at the head of [iter1] is strictly above. *)
Definition unknown_blocks (self : DisjointBlocks) : list (u64 * Hash) :=
  list_merge height_le (unknown_iter1 (blocks self)) (unknown_iter2 (blocks self)).

Definition is_bad (self : DisjointBlocks) (height : u64) (hash : Hash) : option bool :=
  bad <$> blocks self !! (height, hash).

Definition is_parent_bad (self : DisjointBlocks) (height : u64) (hash : Hash) : option bool :=
  let! b := blocks self !! (height, hash) in
  let! parent := parent_hash b in
  match checked_sub 64 height 1 with
  | None => Some false
  | Some parent_height => Some (get_bad (blocks self) (parent_height, parent))
  end.

(** ** Well-formedness and the documented invariant *)

(** Keys of the types of the source; no block has the largest height, and a
    block of height zero has no parent. *)
Record disjoint_ok (m : gmap (Z * Z) Block) : Prop := {
  dis_types : forall n h b, m !! (n, h) = Some b -> is_u64 n /\ is_hash h /\ n < u64_max;
  dis_genesis : forall h b, m !! (0, h) = Some b -> parent_hash b = None
}.

(** [child_of m p x]: [x] is a block of the collection whose parent is [p]. *)
Definition child_of (m : gmap (Z * Z) Block) (p x : Z * Z) : Prop :=
  fst x = fst p + 1 /\ exists b, m !! x = Some b /\ parent_hash b = Some (snd p).

(** Every block whose parent is a bad block of the collection is bad. *)
Definition bad_closed (m : gmap (Z * Z) Block) : Prop :=
  forall p x, get_bad m p = true -> child_of m p x -> get_bad m x = true.

Inductive descends (m : gmap (Z * Z) Block) (a : Z * Z) : Z * Z -> Prop :=
  | descends_refl : descends m a a
  | descends_child p x : descends m a p -> child_of m p x -> descends m a x.

(** ** Marking *)

Lemma get_bad_true m k : get_bad m k = true <-> exists b, m !! k = Some b /\ bad b = true.
Proof. unfold get_bad. destruct (m !! k); naive_solver. Qed.

(** Two collections that differ in the [bad] marks only. *)
Definition same_shape (m m' : gmap (Z * Z) Block) : Prop :=
  forall k, set_bad <$> m !! k = set_bad <$> m' !! k.

#[local] Instance same_shape_equiv : Equivalence same_shape.
Proof.
  split; [intros m k; done | intros m m' Hs k; by rewrite Hs |].
  intros m1 m2 m3 H12 H23 k. by rewrite H12, H23.
Qed.

Lemma same_shape_child m m' p x : same_shape m m' -> child_of m p x -> child_of m' p x.
Proof.
  intros Hs (Hh & b & Hb & Hp). split; [done|]. specialize (Hs x). rewrite Hb in Hs.
  destruct (m' !! x) as [b'|]; [|done]. exists b'. split; [done|]. injection Hs. congruence.
Qed.

#[local] Instance child_of_proper : Proper (same_shape ==> eq ==> eq ==> iff) child_of.
Proof. intros m m' Hs p ? <- x ? <-. split; apply same_shape_child; [done|by symmetry]. Qed.

Lemma same_shape_is_Some m m' k : same_shape m m' -> is_Some (m !! k) <-> is_Some (m' !! k).
Proof. intros Hs. specialize (Hs k). destruct (m !! k), (m' !! k); try done; by split. Qed.

Lemma same_shape_mark m k b : m !! k = Some b -> same_shape m (<[k := set_bad b]> m).
Proof. intros Hb x. rewrite lookup_insert. case_decide as E; [|done]. subst. by rewrite Hb. Qed.

Lemma same_shape_ok m m' : same_shape m m' -> disjoint_ok m -> disjoint_ok m'.
Proof.
  intros Hs [H1 H2]. split.
  - intros n h b Hb. specialize (Hs (n, h)). rewrite Hb in Hs.
    destruct (m !! (n, h)) as [b'|] eqn:E; [|done]. by eapply H1.
  - intros h b Hb. specialize (Hs (0, h)). rewrite Hb in Hs.
    destruct (m !! (0, h)) as [b'|] eqn:E; [|done]. injection Hs. intros _ <-. by eapply H2.
Qed.

(** The range of a height holds the blocks of that height. *)
Lemma children_entries_spec m n h k b :
  disjoint_ok m -> is_u64 n -> n < u64_max ->
  (k, b) ∈ children_entries m n h <-> fst k = n + 1 /\ m !! k = Some b /\ parent_hash b = Some h.
Proof.
  intros Hok Hn Hlt. unfold children_entries. destruct k as [n' h'].
  rewrite list_elem_of_filter, elem_of_btree_range. cbn [fst snd].
  assert (Hw : wadd 64 n 1 = n + 1) by (apply wrap_small; unfold is_uint, u64_max in *; lia).
  rewrite Hw. split.
  - intros (Hp & (H1 & H2) & Hb). cbn in H1, H2. unfold lex_le in *. cbn in *.
    split_and!; try done. lia.
  - intros (-> & Hb & Hp). split; [done|]. split; [|done].
    destruct (dis_types _ Hok _ _ _ Hb) as (_ & Hh & _). unfold is_uint, hash_min, hash_max in *.
    cbn. unfold lex_le. cbn. lia.
Qed.

(** One pass marks the blocks of the list and finds exactly their children. *)
Lemma mark_level_spec m l acc cur :
  disjoint_ok m -> Forall (fun k => fst k = cur /\ is_Some (m !! k)) l ->
  exists m' children, mark_level m l acc = Some (m', acc ++ children) /\
    same_shape m m' /\
    (forall k, get_bad m' k = true <-> get_bad m k = true \/ k ∈ l) /\
    (forall x, x ∈ children <-> exists p, p ∈ l /\ child_of m p x).
Proof.
  revert m acc. induction l as [|[n h] l IH]; intros m acc Hok Hl.
  - exists m, []. cbn. rewrite app_nil_r. split_and!; [done | done | set_solver | set_solver].
  - apply Forall_cons in Hl as [[Hn [b Hb]] Hl]. cbn in Hn. subst n. cbn [mark_level]. rewrite Hb.
    set (m1 := <[_ := set_bad b]> m). pose proof (same_shape_mark m _ b Hb) as Hs1. fold m1 in Hs1.
    destruct (dis_types _ Hok _ _ _ Hb) as (Hu & _ & Hlt).
    set (cs := _ <$> children_entries m1 cur h).
    destruct (IH m1 (acc ++ cs)) as (m' & children & Hrun & Hs & Hbad & Hch).
    { by eapply same_shape_ok. }
    { eapply Forall_impl; [exact Hl|]. intros k [Hk Hk']. split; [done|].
      by apply (same_shape_is_Some m m1). }
    exists m', (cs ++ children). rewrite Hrun, app_assoc. split_and!; [done | by rewrite Hs1 | |].
    + intros k. rewrite Hbad, elem_of_cons, !get_bad_true. unfold m1. rewrite lookup_insert.
      case_decide as E; [|naive_solver]. subst. split; [naive_solver|]. intros _. left. by eexists.
    + intros x. rewrite elem_of_app, Hch. setoid_rewrite <- Hs1.
      assert (Hcs : x ∈ cs <-> child_of m (cur, h) x).
      { unfold cs. rewrite list_elem_of_fmap. split.
        - intros ([k b'] & -> & Hin). apply children_entries_spec in Hin as (Hk & Hb' & Hp);
            [|by eapply same_shape_ok|done..]. cbn [fst snd].
          replace (wadd 64 cur 1, snd k) with k; [rewrite Hs1; split; [done|by eexists]|].
          destruct k. cbn in *. subst. f_equal. symmetry. apply wrap_small. unfold is_uint, u64_max in *. lia.
        - rewrite Hs1. intros (Hx & b' & Hb' & Hp). exists (x, b'). split.
          + destruct x as [xn xh]. cbn in *. subst. f_equal. symmetry. apply wrap_small. unfold is_uint, u64_max in *. lia.
          + apply children_entries_spec; [by eapply same_shape_ok|done..]. }
      rewrite Hcs. setoid_rewrite elem_of_cons. naive_solver.
Qed.

Lemma descends_step m a x : descends m a x <-> a = x \/ exists c, child_of m a c /\ descends m c x.
Proof.
  split.
  - induction 1 as [|p x Hap IH Hpx]; [by left|]. right. destruct IH as [->|(c & Hac & Hcp)].
    + exists x. split; [done|constructor].
    + exists c. split; [done|]. by econstructor.
  - intros [->|(c & Hac & Hcx)]; [constructor|].
    induction Hcx as [|p x Hap IH Hpx]; [|by econstructor].
    econstructor; [constructor|done].
Qed.

#[local] Instance descends_proper : Proper (same_shape ==> eq ==> eq ==> iff) descends.
Proof.
  assert (Himp : forall m m', same_shape m m' -> forall a x, descends m a x -> descends m' a x).
  { intros m m' Hs a x. induction 1 as [|p x Hap IH Hpx]; [constructor|].
    econstructor; [done|]. by rewrite <- Hs. }
  intros m m' Hs a ? <- x ? <-. split; apply Himp; [done|by symmetry].
Qed.

Lemma same_shape_dom m m' : same_shape m m' -> dom m = dom m'.
Proof. intros Hs. apply set_eq. intros k. rewrite !elem_of_dom. by apply same_shape_is_Some. Qed.

(** The blocks that the passes from height [cur] on can still reach. *)
Definition keys_from (cur : Z) (m : gmap (Z * Z) Block) : gset (Z * Z) :=
  filter (fun k => cur <= fst k) (dom m).

Lemma keys_from_decr m cur k :
  fst k = cur -> is_Some (m !! k) -> (size (keys_from (cur + 1) m) < size (keys_from cur m))%nat.
Proof.
  intros Hk Hin. apply subset_size. unfold keys_from. split.
  - intros x. rewrite !elem_of_filter. intros [? ?]. split; [lia|done].
  - intros Hsub. specialize (Hsub k). rewrite !elem_of_filter, !elem_of_dom in Hsub.
    destruct Hsub as [? _]; [|lia]. split; [lia|done].
Qed.

Lemma set_block_bad_loop_spec fuel m l cur :
  disjoint_ok m -> Forall (fun k => fst k = cur /\ is_Some (m !! k)) l ->
  (size (keys_from cur m) < fuel)%nat ->
  exists m', set_block_bad_loop fuel m l = Some m' /\ same_shape m m' /\
    forall k, get_bad m' k = true <-> get_bad m k = true \/ exists a, a ∈ l /\ descends m a k.
Proof.
  revert m l cur. induction fuel as [|fuel IH]; intros m l cur Hok Hl Hf; [lia|].
  destruct l as [|k0 l'].
  { exists m. split; [done|]. split; [done|]. intros k. split; [by left|].
    intros [?|(a & Ha & _)]; [done|]. by apply elem_of_nil in Ha. }
  remember (k0 :: l') as l eqn:El.
  destruct (mark_level_spec m l [] cur Hok Hl) as (m1 & children & Hrun & Hs1 & Hbad1 & Hch).
  assert (Hstep : set_block_bad_loop (S fuel) m l = set_block_bad_loop fuel m1 children).
  { subst l. cbn [set_block_bad_loop]. rewrite Hrun. done. }
  assert (Hk0 : fst k0 = cur /\ is_Some (m !! k0)).
  { rewrite Forall_forall in Hl. apply Hl. subst l. by left. }
  destruct (IH m1 children (cur + 1)) as (m' & Hrun' & Hs' & Hbad').
  { by eapply same_shape_ok. }
  { apply Forall_forall. intros x (p & Hp & Hpx)%Hch. rewrite Forall_forall in Hl.
    destruct (Hl p Hp) as [Hpc _]. split.
    - destruct Hpx as [-> _]. lia.
    - apply (same_shape_is_Some m m1); [done|]. destruct Hpx as (_ & b & -> & _). by eexists. }
  { unfold keys_from in *. rewrite <- (same_shape_dom m m1) by done.
    pose proof (keys_from_decr m cur k0 (proj1 Hk0) (proj2 Hk0)) as Hd. unfold keys_from in Hd. lia. }
  exists m'. rewrite Hstep, Hrun'. split; [done|]. split; [by rewrite Hs1|].
  intros k. rewrite Hbad', Hbad1. setoid_rewrite <- Hs1. split.
  - intros [[Hb|Hk]|(a & Ha & Hak)]; [by left | right; exists k; by split; [|constructor] |].
    right. apply Hch in Ha as (p & Hp & Hpa). exists p. split; [done|].
    apply descends_step. right. eauto.
  - intros [Hb|(a & Ha & Hak)]; [by left; left|]. apply descends_step in Hak as [->|(c & Hac & Hck)].
    + left. by right.
    + right. exists c. split; [|done]. apply Hch. eauto.
Qed.

Lemma set_block_bad_run (self : DisjointBlocks) (n : u64) (h : Hash) :
  disjoint_ok (blocks self) -> is_Some (blocks self !! (n, h)) ->
  exists self', set_block_bad self n h = Some self' /\ same_shape (blocks self) (blocks self') /\
    forall k, get_bad (blocks self') k = true <-> get_bad (blocks self) k = true \/ descends (blocks self) (n, h) k.
Proof.
  intros Hok Hin. unfold set_block_bad.
  destruct (set_block_bad_loop_spec (S (size (blocks self))) (blocks self) [(n, h)] n)
    as (m' & -> & Hs & Hbad); [done | by repeat constructor | |].
  - unfold keys_from. rewrite <- size_dom. apply Nat.lt_succ_r, subseteq_size.
    intros x [_ Hx]%elem_of_filter. done.
  - exists {| blocks := m' |}. split; [done|]. split; [done|]. intros k. cbn [blocks]. rewrite Hbad.
    setoid_rewrite list_elem_of_singleton. naive_solver.
Qed.

(** [set_block_bad] terminates, does not panic on a block of the
    collection, marks the block and all its descendants, and changes nothing
    else: a block is bad afterwards exactly if it was bad or is the block or one
    of its descendants. *)
Theorem set_block_bad_spec (self : DisjointBlocks) (n : u64) (h : Hash) :
  disjoint_ok (blocks self) -> is_Some (blocks self !! (n, h)) ->
  exists self', set_block_bad self n h = Some self' /\ same_shape (blocks self) (blocks self') /\
    forall n' h', is_bad self' n' h' = Some true <->
      is_bad self n' h' = Some true \/ descends (blocks self) (n, h) (n', h').
Proof.
  intros Hok Hin. destruct (set_block_bad_run self n h Hok Hin) as (self' & Hrun & Hs & Hbad).
  exists self'. split; [done|]. split; [done|]. intros n' h'.
  assert (Hib : forall s, is_bad s n' h' = Some true <-> get_bad (blocks s) (n', h') = true).
  { intros s. unfold is_bad, get_bad. destruct (blocks s !! _) as [[? [] ?]|]; cbn; naive_solver. }
  by rewrite !Hib.
Qed.

(** ** The invariant under the operations *)

(** The inserts that keep the invariant: the parent is not a bad block, or the
    block is new and has no child yet, or the block was bad or had a parent. *)
Definition insert_safe (self : DisjointBlocks) (n : u64) (h : Hash) (parent : option Hash) : Prop :=
  parent_is_bad (blocks self) n parent = false \/
  match blocks self !! (n, h) with
  | Some b => bad b = true \/ is_Some (parent_hash b)
  | None => forall x, ~ child_of (blocks self) (n, h) x
  end.

Inductive disjoint_step : DisjointBlocks -> DisjointBlocks -> Prop :=
  | step_insert self n h parent data out :
      is_u64 n -> is_hash h -> n < u64_max -> (n = 0 -> parent = None) ->
      insert_safe self n h parent ->
      disjoint_insert self n h parent data = out -> disjoint_step self (snd out)
  | step_remove self n h data self' :
      disjoint_remove self n h = Some (data, self') -> disjoint_step self self'
  | step_remove_below self threshold :
      disjoint_step self (snd (remove_below_height self threshold))
  | step_set_bad self n h self' : set_block_bad self n h = Some self' -> disjoint_step self self'
  | step_set_parent self n h parent self' :
      n <> 0 -> set_parent_hash self n h parent = Some self' -> disjoint_step self self'.

Record disjoint_inv (m : gmap (Z * Z) Block) : Prop := {
  dinv_ok : disjoint_ok m;
  dinv_bad : bad_closed m
}.

Lemma disjoint_inv_submap m m' : m' ⊆ m -> disjoint_inv m -> disjoint_inv m'.
Proof.
  intros Hsub [[H1 H2] H3]. rewrite map_subseteq_spec in Hsub. split; [split; eauto|].
  intros p x (b & Hb & Hbad)%get_bad_true (Hx & b' & Hb' & Hp).
  specialize (H3 p x). rewrite !get_bad_true in *. destruct H3 as (b'' & Hb'' & ?).
  - eauto.
  - split; eauto.
  - exists b'. rewrite (Hsub _ _ Hb') in Hb''. by simplify_eq.
Qed.

Lemma set_block_bad_inv m n h m' :
  disjoint_ok m -> (forall p x, get_bad m p = true -> child_of m p x ->
                      get_bad m x = true \/ x = (n, h)) ->
  set_block_bad {| blocks := m |} n h = Some {| blocks := m' |} -> disjoint_inv m'.
Proof.
  intros Hok Hc. unfold set_block_bad. cbn [blocks].
  destruct (m !! (n, h)) as [b|] eqn:Hb; [|cbn; rewrite Hb; done].
  destruct (set_block_bad_loop_spec (S (size m)) m [(n, h)] n) as (m1 & -> & Hs & Hbad);
    [done | by repeat constructor | |].
  - unfold keys_from. rewrite <- size_dom. apply Nat.lt_succ_r, subseteq_size.
    intros x [_ Hx]%elem_of_filter. done.
  - intros [= <-]. split; [by eapply same_shape_ok|]. intros p x Hp Hx.
    apply (same_shape_child m1 m) in Hx; [|by symmetry]. rewrite Hbad in Hp |- *.
    setoid_rewrite list_elem_of_singleton. destruct Hp as [Hp|(? & ->%list_elem_of_singleton & Hp)].
    + destruct (Hc p x Hp Hx) as [?| ->]; [by left|]. right. exists (n, h). split; [done|constructor].
    + right. exists (n, h). split; [done|]. by econstructor.
Qed.

Lemma child_of_update m k b p x :
  child_of (<[k := b]> m) p x ->
  (x = k /\ fst k = fst p + 1 /\ parent_hash b = Some (snd p)) \/ (x <> k /\ child_of m p x).
Proof.
  intros (Hx & b' & Hb' & Hp). rewrite lookup_insert in Hb'. case_decide as E.
  - subst. simplify_eq. left. done.
  - right. split; [done|]. split; [done|]. eauto.
Qed.

Lemma get_bad_update m k b x :
  get_bad (<[k := b]> m) x = if decide (x = k) then bad b else get_bad m x.
Proof. unfold get_bad. rewrite lookup_insert. repeat case_decide; by simplify_eq. Qed.

Lemma parent_is_bad_spec m n ph :
  is_u64 n -> n <> 0 -> parent_is_bad m n (Some ph) = get_bad m (n - 1, ph).
Proof.
  intros Hn H0. unfold parent_is_bad, checked_sub, checked. unfold is_uint in Hn.
  by rewrite (proj2 (Z.leb_le 0 _)), (proj2 (Z.ltb_lt _ _)) by lia.
Qed.

Lemma disjoint_insert_inv self n h parent data :
  is_u64 n -> is_hash h -> n < u64_max -> (n = 0 -> parent = None) ->
  insert_safe self n h parent -> disjoint_inv (blocks self) ->
  disjoint_inv (blocks (snd (disjoint_insert self n h parent data))).
Proof.
  intros Hn Hh Hlt Hgen Hsafe [Hok Hbad]. destruct self as [m]. cbn [blocks] in *.
  unfold disjoint_insert. cbn [blocks]. unfold insert_safe in Hsafe. cbn [blocks] in Hsafe.
  assert (Htypes : forall b, (n = 0 -> parent_hash b = None) -> disjoint_ok (<[(n, h) := b]> m)).
  { intros b Hb. split.
    - intros n' h' b'. rewrite lookup_insert. case_decide; [naive_solver|]. apply Hok.
    - intros h' b'. rewrite lookup_insert. case_decide; [naive_solver|]. apply Hok. }
  destruct (m !! (n, h)) as [b|] eqn:Eb; cbn [snd blocks].
  - split; [apply Htypes; cbn; intros ->; rewrite (Hgen eq_refl); by eapply dis_genesis|].
    intros p x Hp Hx. rewrite get_bad_update in Hp |- *. cbn [bad] in *.
    assert (Hp' : get_bad m p = true).
    { case_decide; [|done]. subst. by apply get_bad_true; eauto. }
    apply child_of_update in Hx as [(-> & Hx & Hph)|[Hxk Hx]].
    + rewrite decide_True by done. cbn in Hph, Hx.
      assert (Hold : is_Some (parent_hash b) -> bad b = true).
      { intros [ph Eph]. assert (Hg : get_bad m (n, h) = true).
        { apply (Hbad p); [done|]. split; [done|]. exists b. split; [done|]. destruct parent; rewrite Eph in Hph; congruence. }
        apply get_bad_true in Hg as (? & ? & ?). congruence. }
      destruct (parent_hash b) as [ph|] eqn:Eph; [apply Hold; eauto|].
      destruct parent as [ph|]; [|done]. injection Hph as ->.
      destruct Hsafe as [Hsafe|[?|[? ?]]]; [|done..].
      rewrite parent_is_bad_spec in Hsafe by (done || intros ->; by specialize (Hgen eq_refl)).
      destruct p as [pn ph]. cbn [fst snd] in *. replace (n - 1) with pn in Hsafe by lia. congruence.
    + rewrite decide_False by done. by eapply Hbad.
  - split; [by apply Htypes|]. intros p x Hp Hx. rewrite get_bad_update in Hp |- *. cbn [bad] in *.
    apply child_of_update in Hx as [(-> & Hx & Hph)|[Hxk Hx]].
    + rewrite decide_True by done. cbn [fst parent_hash] in *.
      rewrite decide_False in Hp by (intros ->; cbn in *; lia). subst parent.
      rewrite parent_is_bad_spec by (done || intros ->; by specialize (Hgen eq_refl)).
      destruct p as [pn ph]. cbn [fst snd] in *. by replace (n - 1) with pn by lia.
    + rewrite decide_False by done. case_decide as E; [|by eapply Hbad]. subst.
      destruct Hsafe as [Hsafe|Hsafe]; [congruence|]. by destruct (Hsafe x).
Qed.

Lemma set_parent_hash_inv self n h parent self' :
  n <> 0 -> set_parent_hash self n h parent = Some self' ->
  disjoint_inv (blocks self) -> disjoint_inv (blocks self').
Proof.
  intros H0 Hrun [Hok Hbad]. destruct self as [m], self' as [m']. cbn [blocks] in *.
  unfold set_parent_hash in Hrun. cbn [blocks] in Hrun.
  destruct (m !! (n, h)) as [b|] eqn:Eb; [|done]. cbn in Hrun.
  destruct (dis_types _ Hok _ _ _ Eb) as (Hn & Hh & Hlt).
  assert (Hpar : match parent_hash b with Some ph => if ph =? parent then Some ph else None
                 | None => Some parent end = Some parent).
  { destruct (parent_hash b) as [ph|]; [|done]. destruct (Z.eqb_spec ph parent); [by subst|done]. }
  rewrite Hpar in Hrun. cbn in Hrun.
  change (match checked_sub 64 n 1 with Some ph => get_bad m (ph, parent) | None => false end)
    with (parent_is_bad m n (Some parent)) in Hrun.
  rewrite parent_is_bad_spec in Hrun by done.
  set (b1 := {| parent_hash := Some parent; bad := bad b; user_data := user_data b |}) in Hrun.
  assert (Hok1 : disjoint_ok (<[(n, h) := b1]> m)).
  { split.
    - intros n' h' b'. rewrite lookup_insert. case_decide; [naive_solver|]. apply Hok.
    - intros h' b'. rewrite lookup_insert. case_decide; [naive_solver|]. apply Hok. }
  assert (Hsame : forall k, get_bad (<[(n, h) := b1]> m) k = get_bad m k).
  { intros k. rewrite get_bad_update. case_decide; [|done]. subst. unfold get_bad. by rewrite Eb. }
  assert (Hc : forall p x, get_bad m p = true -> child_of (<[(n, h) := b1]> m) p x ->
            (x = (n, h) /\ p = (n - 1, parent)) \/ get_bad m x = true).
  { intros p x Hp [(-> & Hx & Hph)|[Hxk Hx]]%child_of_update; [left|right; by eapply Hbad].
    split; [done|]. destruct p. cbn in *. injection Hph as ->. f_equal. lia. }
  destruct (get_bad m (n - 1, parent)) eqn:Epb.
  - eapply set_block_bad_inv; [done| |done]. intros p x. rewrite !Hsame. intros Hp Hx.
    destruct (Hc p x Hp Hx) as [[-> _]|?]; [by right|by left].
  - injection Hrun as <-. split; [done|]. intros p x. rewrite !Hsame. intros Hp Hx.
    destruct (Hc p x Hp Hx) as [[-> ->]|?]; [congruence|done].
Qed.

Lemma disjoint_step_inv self self' :
  disjoint_step self self' -> disjoint_inv (blocks self) -> disjoint_inv (blocks self').
Proof.
  destruct 1 as [self n h parent data out ? ? ? ? ? <- | self n h data self' Hrun
                | self threshold | self n h self' Hrun | self n h parent self' H0 Hrun]; intros Hinv.
  - by apply disjoint_insert_inv.
  - unfold disjoint_remove in Hrun. destruct (blocks self !! (n, h)); [|done]. injection Hrun as _ <-.
    eapply disjoint_inv_submap; [|done]. apply delete_subseteq.
  - eapply disjoint_inv_submap; [|done]. apply map_filter_subseteq.
  - destruct self as [m], self' as [m'], Hinv as [Hok Hbad].
    eapply set_block_bad_inv; [done| |done]. intros p x Hp Hx. left. by eapply Hbad.
  - by eapply set_parent_hash_inv.
Qed.

Lemma disjoint_reachable_inv self : rtc disjoint_step DisjointBlocks_new self -> disjoint_inv (blocks self).
Proof.
  assert (Hrtc : forall s1 s2, rtc disjoint_step s1 s2 -> disjoint_inv (blocks s1) -> disjoint_inv (blocks s2)).
  { induction 1; eauto using disjoint_step_inv. }
  intros Hr. apply (Hrtc _ _ Hr). split; [split; naive_solver|].
  intros p x Hp. by apply get_bad_true in Hp as (? & ? & ?).
Qed.

(** Whatever the operations that led from an empty collection to the
    current one (the inserts being [insert_safe]), a block that descends from a
    bad block of the collection is reported bad by [is_bad], and a parent
    reported bad by [is_parent_bad] implies a bad block. *)
Theorem descendants_of_bad_are_bad (self : DisjointBlocks) (n n' : u64) (h h' : Hash) :
  rtc disjoint_step DisjointBlocks_new self ->
  (is_bad self n h = Some true -> descends (blocks self) (n, h) (n', h') ->
   is_bad self n' h' = Some true) /\
  (is_parent_bad self n h = Some true -> is_bad self n h = Some true).
Proof.
  intros Hrtc.
  destruct (disjoint_reachable_inv self Hrtc) as [Hok Hbad].
  assert (Hib : forall n h, is_bad self n h = Some true <-> get_bad (blocks self) (n, h) = true).
  { intros n1 h1. unfold is_bad, get_bad. destruct (blocks self !! _) as [[? [] ?]|]; cbn; naive_solver. }
  rewrite !Hib. split.
  - intros Hb Hd. remember (n', h') as y eqn:Ey. clear Ey n' h'.
    induction Hd as [|p x Hd IH Hx]; [done|]. by eapply Hbad.
  - unfold is_parent_bad. destruct (blocks self !! (n, h)) as [b|] eqn:Eb; [|done]. cbn.
    destruct (parent_hash b) as [ph|] eqn:Eph; [|done]. cbn.
    destruct (dis_types _ Hok _ _ _ Eb) as (Hn & _).
    assert (H0 : n <> 0). { intros ->. by rewrite (dis_genesis _ Hok _ _ Eb) in Eph. }
    pose proof (parent_is_bad_spec (blocks self) n ph Hn H0) as Hp. unfold parent_is_bad in Hp.
    destruct (checked_sub 64 n 1) as [pn|]; [|done]. rewrite Hp. intros [= Hg].
    apply (Hbad (n - 1, ph)); [done|]. split; [cbn; lia|]. eauto.
Qed.

(** ** The blocks to ask for *)

Lemma StronglySorted_map_heights {A} (R : relation A) (f : A -> Z * Z) l :
  (forall x y, x ∈ l -> y ∈ l -> R x y -> fst (f x) <= fst (f y)) ->
  StronglySorted R l -> StronglySorted height_le (f <$> l).
Proof.
  intros Hf Hs. revert Hf. induction Hs as [|x l Hl IH Hx]; intros Hf; [constructor|]. cbn. constructor.
  - apply IH. intros. apply Hf; [by right..|done].
  - rewrite Forall_forall in *. intros y (z & -> & Hz)%list_elem_of_fmap.
    apply Hf; [by left | by right |]. rewrite Forall_forall in Hx. by apply Hx.
Qed.

Lemma entry_le_height (x y : Z * Z * Block) : entry_le x y -> fst (fst x) <= fst (fst y).
Proof. intros [H _]. exact H. Qed.

Lemma unknown_iter1_sorted m : StronglySorted height_le (unknown_iter1 m).
Proof.
  unfold unknown_iter1. apply (StronglySorted_map_heights entry_le).
  - intros x y _ _. apply entry_le_height.
  - apply StronglySorted_filter, btree_iter_sorted.
Qed.

Lemma elem_of_unknown_iter1 m k :
  k ∈ unknown_iter1 m <-> exists b, m !! k = Some b /\ bad b = false /\ parent_hash b = None.
Proof.
  unfold unknown_iter1. rewrite list_elem_of_fmap. split.
  - intros ([? b] & -> & [[? ?] Hb%elem_of_btree_iter]%list_elem_of_filter). eauto.
  - intros (b & Hb & ? & ?). exists (k, b). split; [done|]. apply list_elem_of_filter.
    split; [done|]. by apply elem_of_btree_iter.
Qed.

(** The good blocks with a known parent, in order, and the keys of these parents. *)
Lemma unknown_iter2_eq (m : gmap (Z * Z) Block) :
  unknown_iter2 m = filter (fun k => m !! k = None)
    ((fun kv => (wsub 64 (fst (fst kv)) 1, default 0 (parent_hash (snd kv)))) <$>
       filter (fun kv => is_Some (parent_hash (snd kv)))
         (filter (fun kv => bad (snd kv) = false) (btree_iter m))).
Proof.
  unfold unknown_iter2. f_equal.
  induction (filter (fun kv => bad (snd kv) = false) (btree_iter m)) as [|[[n h] b] l IH]; [done|].
  rewrite filter_cons. cbn. destruct (parent_hash b) as [ph|] eqn:E.
  - rewrite decide_True by eauto. cbn. by rewrite E, IH.
  - rewrite decide_False by (intros [? ?]; congruence). done.
Qed.

Lemma wsub_parent_height m n h b ph :
  disjoint_ok m -> m !! (n, h) = Some b -> parent_hash b = Some ph ->
  wsub 64 n 1 = n - 1 /\ is_u64 (n - 1).
Proof.
  intros Hok Hb Hp. destruct (dis_types _ Hok _ _ _ Hb) as (Hn & _).
  assert (n <> 0). { intros ->. by rewrite (dis_genesis _ Hok _ _ Hb) in Hp. }
  split; [apply wrap_small|]; unfold is_uint in *; lia.
Qed.

Lemma elem_of_filter2 (m : gmap (Z * Z) Block) kv :
  kv ∈ filter (fun kv => is_Some (parent_hash (snd kv)))
         (filter (fun kv => bad (snd kv) = false) (btree_iter m)) <->
  is_Some (parent_hash (snd kv)) /\ bad (snd kv) = false /\ kv ∈ btree_iter m.
Proof. by rewrite !list_elem_of_filter. Qed.

Lemma unknown_iter2_sorted m : disjoint_ok m -> StronglySorted height_le (unknown_iter2 m).
Proof.
  intros Hok. rewrite unknown_iter2_eq. apply StronglySorted_filter.
  apply (StronglySorted_map_heights entry_le).
  - intros [[n1 h1] b1] [[n2 h2] b2].
    intros ([p1 Hp1] & _ & Hb1%elem_of_btree_iter)%elem_of_filter2
           ([p2 Hp2] & _ & Hb2%elem_of_btree_iter)%elem_of_filter2 Hle.
    apply entry_le_height in Hle. cbn in *.
    destruct (wsub_parent_height _ _ _ _ _ Hok Hb1 Hp1) as [-> _].
    destruct (wsub_parent_height _ _ _ _ _ Hok Hb2 Hp2) as [-> _]. lia.
  - apply StronglySorted_filter, StronglySorted_filter, btree_iter_sorted.
Qed.

Lemma elem_of_unknown_iter2 m n h :
  disjoint_ok m -> (n, h) ∈ unknown_iter2 m <->
  m !! (n, h) = None /\ exists h' b, child_of m (n, h) (n + 1, h') /\ m !! (n + 1, h') = Some b /\ bad b = false.
Proof.
  intros Hok. rewrite unknown_iter2_eq, list_elem_of_filter, list_elem_of_fmap. split.
  - intros (Hnone & [[n' h'] b] & Heq & ([ph Hp] & Hbad & Hb%elem_of_btree_iter)%elem_of_filter2).
    cbn in *. destruct (wsub_parent_height _ _ _ _ _ Hok Hb Hp) as [Hw _]. rewrite Hw, Hp in Heq.
    cbn in Heq. split; [done|]. injection Heq as -> ->. replace (n' - 1 + 1) with n' by lia.
    exists h', b. split; [|done]. split; [cbn; lia|]. eauto.
  - intros (Hnone & h' & b & (_ & b' & Hb' & Hp) & Hb & Hbad). split; [done|].
    assert (b' = b) as -> by congruence. exists ((n + 1, h'), b). cbn in Hp |- *.
    destruct (wsub_parent_height _ _ _ _ _ Hok Hb Hp) as [-> _]. split.
    + rewrite Hp. cbn. f_equal. lia.
    + apply elem_of_filter2. split; [eauto|]. split; [done|]. by apply elem_of_btree_iter.
Qed.

(** In every reachable collection [unknown_blocks] yields, by ascending
    height, exactly the good blocks whose parent hash is not known and the
    missing parents of good blocks; a bad block is never asked for. *)
Theorem unknown_blocks_spec (self : DisjointBlocks) :
  rtc disjoint_step DisjointBlocks_new self ->
  Sorted height_le (unknown_blocks self) /\
  forall n h, (n, h) ∈ unknown_blocks self <->
    (disjoint_contains self n h = true /\ is_bad self n h = Some false /\
     disjoint_parent_hash self n h = None) \/
    (disjoint_contains self n h = false /\
     exists h', disjoint_parent_hash self (n + 1) h' = Some h /\ is_bad self (n + 1) h' = Some false).
Proof.
  intros [Hok _]%disjoint_reachable_inv. unfold unknown_blocks. split.
  - assert (Total height_le) by (intros [] []; unfold height_le; cbn; lia).
    apply (Sorted_list_merge _); apply StronglySorted_Sorted;
      [apply unknown_iter1_sorted | by apply unknown_iter2_sorted].
  - intros n h. rewrite merge_Permutation, elem_of_app, elem_of_unknown_iter1, elem_of_unknown_iter2 by done.
    unfold disjoint_contains, is_bad, disjoint_parent_hash, child_of. cbn [fst snd].
    rewrite bool_decide_eq_true, bool_decide_eq_false.
    destruct (blocks self !! (n, h)) as [b|] eqn:E; cbn.
    + split; [|naive_solver]. intros [(b' & ? & ? & ?)|[? _]]; [|done]. simplify_eq.
      left. split; [eauto|]. split; [by f_equal|done].
    + split.
      * intros [(? & ? & _)|(_ & h' & b & (_ & b' & Hb' & Hp) & Hb & Hbad)]; [done|]. right.
        split; [by intros []|]. exists h'. rewrite Hb. cbn. simplify_eq. split; [done|by f_equal].
      * intros [[[? ?] _]|(_ & h' & Hp & Hb)]; [done|]. right. split; [done|].
        destruct (blocks self !! (n + 1, h')) as [b|] eqn:Eb; [|done]. cbn in *.
        exists h', b. split; [split; [done|eauto]|]. split; [done|]. by injection Hb.
Qed.

End disjoint.

Arguments Block : clear implicits.
Arguments DisjointBlocks : clear implicits.

(** ** Concrete collections *)

Definition dis0 : DisjointBlocks unit := DisjointBlocks_new.
Definition ins (self : DisjointBlocks unit) (n : u64) (h : Hash) (parent : option Hash) : DisjointBlocks unit :=
  snd (disjoint_insert self n h parent tt).

(** A chain of three blocks, the first marked bad. *)
Definition dis_chain : DisjointBlocks unit := ins (ins (ins dis0 1 10 (Some 9)) 2 20 (Some 10)) 3 30 (Some 20).

Lemma set_block_bad_spec_witness :
  disjoint_ok (blocks dis_chain) /\ is_Some (blocks dis_chain !! (1, 10)) /\
  exists self', set_block_bad dis_chain 1 10 = Some self' /\
    same_shape (blocks dis_chain) (blocks self') /\
    forall n' h', is_bad self' n' h' = Some true <->
      is_bad dis_chain n' h' = Some true \/ descends (blocks dis_chain) (1, 10) (n', h').
Proof.
  assert (Hok : disjoint_ok (blocks dis_chain)).
  { split.
    - intros n h b Hb. apply elem_of_map_to_list in Hb. vm_compute in Hb. unfold is_uint, u64_max.
      repeat (apply elem_of_cons in Hb as [Hb|Hb]; [injection Hb as -> -> ->; lia|]). by apply elem_of_nil in Hb.
    - intros h b Hb. apply elem_of_map_to_list in Hb. vm_compute in Hb.
      repeat (apply elem_of_cons in Hb as [Hb|Hb]; [discriminate Hb|]). by apply elem_of_nil in Hb. }
  split; [exact Hok|]. split; [by eexists|].
  apply (set_block_bad_spec dis_chain 1 10); [exact Hok|]. by eexists.
Defined.


(** A parent and its child, and then the parent marked bad. *)
Definition dis_pair : DisjointBlocks unit := ins (ins dis0 1 10 (Some 9)) 2 20 (Some 10).
Definition dis_pair_bad : DisjointBlocks unit := default dis0 (set_block_bad dis_pair 1 10).

Lemma dis_step_insert self n h parent :
  is_u64 n -> is_hash h -> n < u64_max -> n <> 0 -> insert_safe self n h parent ->
  disjoint_step self (ins self n h parent).
Proof. intros. by apply (step_insert self n h parent tt (disjoint_insert self n h parent tt)). Qed.

Lemma dis_pair_reachable : rtc disjoint_step dis0 dis_pair.
Proof.
  apply rtc_l with (ins dis0 1 10 (Some 9)); [|apply rtc_once];
    (apply dis_step_insert; [unfold is_uint; lia | unfold is_uint; lia | by vm_compute | lia | left; by vm_compute]).
Qed.

Lemma descendants_of_bad_are_bad_witness :
  rtc disjoint_step dis0 dis_pair_bad /\ is_bad dis_pair_bad 1 10 = Some true /\
  is_bad dis_pair_bad 2 20 = Some true.
Proof.
  assert (Hr : rtc disjoint_step dis0 dis_pair_bad).
  { eapply rtc_r; [exact dis_pair_reachable|]. apply (step_set_bad _ 1 10). by vm_compute. }
  assert (Hb : is_bad dis_pair_bad 1 10 = Some true) by (by vm_compute).
  split; [exact Hr|]. split; [exact Hb|].
  apply (proj1 (descendants_of_bad_are_bad dis_pair_bad 1 2 10 20 Hr)); [exact Hb|].
  eapply descends_child; [apply descends_refl|]. split; [done|].
  eexists. split; [by vm_compute|done].
Defined.

Lemma unknown_blocks_spec_witness :
  rtc disjoint_step dis0 dis_pair /\ unknown_blocks dis_pair = [(0, 9)] /\
  Sorted height_le (unknown_blocks dis_pair) /\
  ((0, 9) ∈ unknown_blocks dis_pair <->
    (disjoint_contains dis_pair 0 9 = true /\ is_bad dis_pair 0 9 = Some false /\
     disjoint_parent_hash dis_pair 0 9 = None) \/
    (disjoint_contains dis_pair 0 9 = false /\
     exists h', disjoint_parent_hash dis_pair 1 h' = Some 9 /\ is_bad dis_pair 1 h' = Some false)).
Proof.
  split; [exact dis_pair_reachable|]. split; [by vm_compute|].
  split; apply (unknown_blocks_spec dis_pair dis_pair_reachable).
Defined.

(** Two sequences of calls after which a block has a bad parent and is not bad:
    giving a bad parent to a block inserted before without one, and inserting a
    block with a bad parent when its own child is there already. *)
Definition dis_late_parent : DisjointBlocks unit :=
  ins (default dis0 (set_block_bad (ins (ins dis0 2 20 None) 1 10 (Some 9)) 1 10)) 2 20 (Some 10).

Definition dis_child_first : DisjointBlocks unit :=
  ins (default dis0 (set_block_bad (ins (ins dis0 3 30 (Some 20)) 1 10 (Some 9)) 1 10)) 2 20 (Some 10).

(** [insert] does not mark a block already in the collection that learns of
    a bad parent, nor the child, already in the collection, of a new block with
    a bad parent: after these calls the parent is bad and the block is not. *)
Lemma insert_misses_bad_parent :
  (is_parent_bad dis_late_parent 2 20 = Some true /\ is_bad dis_late_parent 2 20 = Some false) /\
  (is_parent_bad dis_child_first 3 30 = Some true /\ is_bad dis_child_first 3 30 = Some false).
Proof. by vm_compute. Qed.
