(* ===== verification/ForkTree.v ===== *)
(** * The fork tree ([src/src/chain/fork_tree.rs])

    A tree of blocks stored in a slab, each node linked to its parent, its first
    child and its two siblings. [rep] relates the links to an abstract forest;
    inserting, pruning, the enumeration in ancestry order and the paths to the
    root are shown to implement the operations on forests.

    The slab is a finite map from keys to nodes; the key it chooses for a new
    node is an argument of [fork_insert], and its iterators go by ascending key.
    A panic is [None]. Debug assertions are not modelled. *)

From S2P Require Import Prelude BTree.

Open Scope Z_scope.

Abbreviation NodeIndex := Z (only parsing).

Section fork_tree.
Context {T : Type}.

(** ** Data *)

Record Node := mkNode {
  parent : option usize;
  first_child : option usize;
  next_sibling : option usize;
  previous_sibling : option usize;
  is_prune_target_ancestor : bool;
  data : T
}.

Record ForkTree := mkForkTree {
  nodes : gmap Z Node;
  first_root : option usize
}.

Definition ForkTree_new : ForkTree := {| nodes := ∅; first_root := None |}.

Definition fork_clear (self : ForkTree) : ForkTree := {| nodes := ∅; first_root := None |}.

Definition fork_is_empty (self : ForkTree) : bool := Nat.eqb (size (nodes self)) 0.

Definition fork_len (self : ForkTree) : usize := Z.of_nat (size (nodes self)).

Definition iter_unordered (self : ForkTree) : list (NodeIndex * T) :=
  (fun '(i, n) => (i, data n)) <$> btree_iter (nodes self).

Definition fork_get (self : ForkTree) (index : NodeIndex) : option T := data <$> nodes self !! index.

(** ** Field updates *)

Definition set_parent (v : option usize) (n : Node) : Node :=
  mkNode v (first_child n) (next_sibling n) (previous_sibling n) (is_prune_target_ancestor n) (data n).
Definition set_first_child (v : option usize) (n : Node) : Node :=
  mkNode (parent n) v (next_sibling n) (previous_sibling n) (is_prune_target_ancestor n) (data n).
Definition set_next_sibling (v : option usize) (n : Node) : Node :=
  mkNode (parent n) (first_child n) v (previous_sibling n) (is_prune_target_ancestor n) (data n).
Definition set_previous_sibling (v : option usize) (n : Node) : Node :=
  mkNode (parent n) (first_child n) (next_sibling n) v (is_prune_target_ancestor n) (data n).
Definition set_prune (v : bool) (n : Node) : Node :=
  mkNode (parent n) (first_child n) (next_sibling n) (previous_sibling n) v (data n).

(** [self.nodes[i]] assigned through; panics on a vacant key. *)
Definition update_node (i : usize) (f : Node -> Node) (m : gmap Z Node) : option (gmap Z Node) :=
  let! n := m !! i in Some (<[i := f n]> m).

Definition set_data (v : T) (n : Node) : Node :=
  mkNode (parent n) (first_child n) (next_sibling n) (previous_sibling n) (is_prune_target_ancestor n) v.

(** What the caller does through [self.get_mut(index).unwrap()] is [f]. *)
Definition fork_get_mut (self : ForkTree) (index : NodeIndex) (f : T -> T) : option ForkTree :=
  let! m := update_node index (fun n => set_data (f (data n)) n) (nodes self) in
  Some {| nodes := m; first_root := first_root self |}.

(** ** Iteration *)

(** [core::iter::successors]: the successor is computed when an item is taken.
    [None] is a panic of [succ], or the end of the fuel. *)
Fixpoint successors (fuel : nat) (succ : Z -> option (option Z)) (first : option Z) : option (list Z) :=
  match first with
  | None => Some []
  | Some item =>
      match fuel with
      | O => None
      | S fuel =>
          let! next := succ item in
          let! rest := successors fuel succ next in
          Some (item :: rest)
      end
  end.

(** The [while] loop of [ancestry_order_next]. *)
Fixpoint ancestry_climb (fuel : nat) (m : gmap Z Node) (return_value : option usize) : option (option usize) :=
  match return_value with
  | None => Some None
  | Some idx =>
      match fuel with
      | O => None
      | S fuel =>
          let! n := m !! idx in
          match next_sibling n with
          | Some next_sibling => Some (Some next_sibling)
          | None => ancestry_climb fuel m (parent n)
          end
      end
  end.

Definition ancestry_order_next (self : ForkTree) (node_index : NodeIndex) : option (option NodeIndex) :=
  let! n := nodes self !! node_index in
  match first_child n with
  | Some idx => Some (Some idx)
  | None =>
      match next_sibling n with
      | Some idx => Some (Some idx)
      | None => ancestry_climb (size (nodes self)) (nodes self) (parent n)
      end
  end.

(** A walk that does not repeat a node has at most [size (nodes self)] items. *)
Definition iter_ancestry_order (self : ForkTree) : option (list (NodeIndex * T)) :=
  let! l := successors (size (nodes self)) (ancestry_order_next self) (first_root self) in
  mapM (fun idx => let! n := nodes self !! idx in Some (idx, data n)) l.

Definition fork_parent (self : ForkTree) (node : NodeIndex) : option (option NodeIndex) :=
  parent <$> nodes self !! node.

Definition fork_children (self : ForkTree) (node : option NodeIndex) : option (list NodeIndex) :=
  let! first :=
    match node with
    | Some n => first_child <$> nodes self !! n
    | None => Some (first_root self)
    end in
  successors (size (nodes self)) (fun n => next_sibling <$> nodes self !! n) first.

Definition node_to_root_path (self : ForkTree) (node_index : NodeIndex) : option (list NodeIndex) :=
  successors (size (nodes self)) (fun n => parent <$> nodes self !! n) (Some node_index).

(** [iter.take_while(cond)]. *)
Fixpoint take_while (cond : Z -> bool) (l : list Z) : list Z :=
  match l with
  | [] => []
  | x :: l => if cond x then x :: take_while cond l else []
  end.

(** [iter.skip_while(cond)]. *)
Fixpoint skip_while (cond : Z -> bool) (l : list Z) : list Z :=
  match l with
  | [] => []
  | x :: l' => if cond x then skip_while cond l' else l
  end.

Context `{Platform}.

(** The first item is the invalid key, and is skipped. *)
Definition root_to_node_path (self : ForkTree) (node_index : NodeIndex) : option (list NodeIndex) :=
  let succ current :=
    let! path := node_to_root_path self node_index in
    Some (last (take_while (fun n => negb (n =? current)) path)) in
  let! l := successors (S (size (nodes self))) succ (Some (2 ^ usize_bits - 1)) in
  Some (drop 1 l).

Fixpoint common_ancestor_loop (iter1 iter2 : list NodeIndex) : option (option NodeIndex) :=
  match iter1, iter2 with
  | a :: iter1, b :: iter2 => if a =? b then Some (Some a) else common_ancestor_loop iter1 iter2
  | [], [] => Some None
  | _, _ => None
  end.

Definition common_ancestor (self : ForkTree) (node1 node2 : NodeIndex) : option (option NodeIndex) :=
  let! path1 := node_to_root_path self node1 in
  let! path2 := node_to_root_path self node2 in
  let dist_to_root1 := length path1 in
  let dist_to_root2 := length path2 in
  common_ancestor_loop (drop (dist_to_root1 - dist_to_root2) path1)
                       (drop (dist_to_root2 - dist_to_root1) path2).

Fixpoint is_ancestor_loop (fuel : nat) (m : gmap Z Node) (maybe_ancestor iter : usize) : option bool :=
  if iter =? maybe_ancestor then Some true
  else
    match fuel with
    | O => None
    | S fuel =>
        let! n := m !! iter in
        match parent n with
        | Some p => is_ancestor_loop fuel m maybe_ancestor p
        | None => Some false
        end
    end.

Definition is_ancestor (self : ForkTree) (maybe_ancestor maybe_descendant : NodeIndex) : option bool :=
  let! _ := nodes self !! maybe_descendant in
  is_ancestor_loop (size (nodes self)) (nodes self) maybe_ancestor maybe_descendant.

Definition ascend_and_descend (self : ForkTree) (node1 node2 : NodeIndex)
    : option (list NodeIndex * list NodeIndex) :=
  let! common_ancestor := common_ancestor self node1 node2 in
  let! path1 := node_to_root_path self node1 in
  let iter1 := take_while (fun v => negb (bool_decide (Some v = common_ancestor))) path1 in
  let! path2 := root_to_node_path self node2 in
  let iter2 :=
    match common_ancestor with
    | Some common_ancestor => drop 1 (skip_while (fun v => negb (v =? common_ancestor)) path2)
    | None => path2
    end in
  Some (iter1, iter2).

Definition fork_find (self : ForkTree) (cond : T -> bool) : option NodeIndex :=
  head (fst <$> filter (fun kn => cond (data (snd kn)) = true) (btree_iter (nodes self))).

End fork_tree.

Arguments Node : clear implicits.
Arguments ForkTree : clear implicits.

Definition fork_map {T U : Type} (self : ForkTree T) (map : T -> U) : ForkTree U :=
  {| nodes := (fun node => mkNode (parent node) (first_child node) (next_sibling node)
                             (previous_sibling node) (is_prune_target_ancestor node)
                             (map (data node))) <$> nodes self;
     first_root := first_root self |}.

(** ** Insertion *)

Section insert.
Context {T : Type}.

Definition fork_insert (self : ForkTree T) (new_node_index : usize) (parent : option NodeIndex)
    (child : T) : option (NodeIndex * ForkTree T) :=
  match parent with
  | Some parent =>
      let! p := nodes self !! parent in
      let next_sibling := first_child p in
      let m := <[new_node_index := mkNode (Some parent) None next_sibling None false child]> (nodes self) in
      let! m := update_node parent (set_first_child (Some new_node_index)) m in
      let! m :=
        match next_sibling with
        | Some next_sibling => update_node next_sibling (set_previous_sibling (Some new_node_index)) m
        | None => Some m
        end in
      Some (new_node_index, {| nodes := m; first_root := first_root self |})
  | None =>
      let m := <[new_node_index := mkNode None None (first_root self) None false child]> (nodes self) in
      let! m :=
        match first_root self with
        | Some first_root => update_node first_root (set_previous_sibling (Some new_node_index)) m
        | None => Some m
        end in
      Some (new_node_index, {| nodes := m; first_root := Some new_node_index |})
  end.

End insert.

(** ** Abstract forests

    A forest in first-child, next-sibling form: the first tree, given by its
    root and the forest of its children, and the other trees. *)

Inductive forest (T : Type) :=
  | FNil
  | FCons (i : Z) (d : T) (children siblings : forest T).

Arguments FNil {T}.
Arguments FCons {T} i d children siblings.

Section forest.
Context {T : Type}.
Implicit Types f : forest T.

Definition froot f : option Z := match f with FNil => None | FCons i _ _ _ => Some i end.

(** The nodes, each before its children. *)
Fixpoint fitems f : list (Z * T) :=
  match f with
  | FNil => []
  | FCons i d cs sib => (i, d) :: fitems cs ++ fitems sib
  end.

Definition fids f : list Z := fst <$> fitems f.

Definition finsert_root (i : Z) (d : T) f : forest T := FCons i d FNil f.

(** A new first child of node [p]. *)
Fixpoint finsert (p i : Z) (d : T) f : forest T :=
  match f with
  | FNil => FNil
  | FCons j e cs sib =>
      if j =? p then FCons j e (FCons i d FNil cs) sib
      else FCons j e (finsert p i d cs) (finsert p i d sib)
  end.

(** The path from a node to the root. *)
Fixpoint fpath (i : Z) f : option (list Z) :=
  match f with
  | FNil => None
  | FCons j _ cs sib =>
      if j =? i then Some [j]
      else match fpath i cs with
           | Some l => Some (l ++ [j])
           | None => fpath i sib
           end
  end.

(** The children of a node. *)
Fixpoint fchildren (i : Z) f : forest T :=
  match f with
  | FNil => FNil
  | FCons j _ cs sib =>
      if j =? i then cs
      else match fpath i cs with Some _ => fchildren i cs | None => fchildren i sib end
  end.

(** The node, its ancestors and its descendants. *)
Fixpoint funcles (i : Z) f : forest T :=
  match f with
  | FNil => FNil
  | FCons j d cs sib =>
      if j =? i then FCons j d cs FNil
      else match fpath i cs with
           | Some _ => FCons j d (funcles i cs) FNil
           | None => funcles i sib
           end
  end.

(** The data of node [i] changed by [g]. *)
Fixpoint falter (i : Z) (g : T -> T) f : forest T :=
  match f with
  | FNil => FNil
  | FCons j d cs sib => FCons j (if j =? i then g d else d) (falter i g cs) (falter i g sib)
  end.

End forest.

(** ** Representation *)

(** The links of the nodes of [f], the children of [par], [prev] being the
    sibling before the first; [fl] tells which nodes are marked. *)
Fixpoint rep {T} (fl : Z -> bool) (m : gmap Z (Node T)) (par prev : option Z) (f : forest T) : Prop :=
  match f with
  | FNil => True
  | FCons i d cs sib =>
      m !! i = Some (mkNode par (froot cs) (froot sib) prev (fl i) d) /\
      rep fl m (Some i) None cs /\ rep fl m par (Some i) sib
  end.

Definition unmarked : Z -> bool := fun _ => false.

Record fork_rep {T} (self : ForkTree T) (f : forest T) : Prop := {
  fr_links : rep unmarked (nodes self) None None f;
  fr_root : first_root self = froot f;
  fr_nodup : NoDup (fids f);
  fr_dom : forall k, k ∈ fids f <-> is_Some (nodes self !! k)
}.

Section facts.
Context {T : Type}.
Implicit Types (f cs sib : forest T) (m : gmap Z (Node T)).

Lemma fids_cons i (d : T) cs sib : fids (FCons i d cs sib) = i :: fids cs ++ fids sib.
Proof. unfold fids. cbn. by rewrite fmap_app. Qed.

Lemma rep_ext fl fl' m m' par prev f :
  (forall k, k ∈ fids f -> m !! k = m' !! k /\ fl k = fl' k) ->
  rep fl m par prev f -> rep fl' m' par prev f.
Proof.
  revert par prev. induction f as [|i d cs IH1 sib IH2]; intros par prev Hext; [done|].
  rewrite fids_cons in Hext. cbn. intros (Hi & Hcs & Hsib).
  destruct (Hext i) as [Hm Hf]; [by left|]. rewrite <- Hm, <- Hf. split; [done|]. split.
  - apply IH1; [|done]. intros k Hk. apply Hext. right. apply elem_of_app. by left.
  - apply IH2; [|done]. intros k Hk. apply Hext. right. apply elem_of_app. by right.
Qed.

Lemma rep_lookup fl m par prev f i d :
  rep fl m par prev f -> (i, d) ∈ fitems f -> exists n, m !! i = Some n /\ data n = d.
Proof.
  revert par prev. induction f as [|j e cs IH1 sib IH2]; intros par prev; cbn.
  - intros _ Hin. by apply elem_of_nil in Hin.
  - intros (Hj & Hcs & Hsib) [Heq|[Hin|Hin]%elem_of_app]%elem_of_cons; [|eauto..].
    injection Heq as -> ->. eauto.
Qed.

Lemma fork_size (self : ForkTree T) f : fork_rep self f -> size (nodes self) = length (fids f).
Proof.
  intros [_ _ Hnd Hdom]. rewrite <- size_dom, <- (size_list_to_set (C := gset Z) (fids f)) by done.
  f_equal. apply set_eq. intros k. by rewrite elem_of_dom, elem_of_list_to_set, Hdom.
Qed.

Lemma successors_mono n n' succ first l :
  (n <= n')%nat -> successors n succ first = Some l -> successors n' succ first = Some l.
Proof.
  revert n' first l. induction n as [|n IH]; intros n' [i|] l Hle; cbn.
  - done.
  - by destruct n'.
  - destruct n' as [|n']; [lia|]. cbn. destruct (succ i) as [next|]; [|done]. cbn.
    destruct (successors n succ next) as [rest|] eqn:E; [|done]. cbn.
    rewrite (IH n' next rest) by (done || lia). done.
  - by destruct n'.
Qed.

Lemma ancestry_climb_mono n n' m i r :
  (n <= n')%nat -> ancestry_climb n m i = Some r -> ancestry_climb n' m i = Some r.
Proof.
  revert n' i. induction n as [|n IH]; intros n' [i|] Hle; cbn.
  - done.
  - by destruct n'.
  - destruct n' as [|n']; [lia|]. cbn. destruct (m !! i) as [nd|]; [|done]. cbn.
    destruct (next_sibling nd); [done|]. apply IH. lia.
  - by destruct n'.
Qed.

(** The node a walk in ancestry order goes to: the root of [f], or [r] if [f] is
    empty. *)
Definition entry f (r : option Z) : option Z := match froot f with Some i => Some i | None => r end.

Lemma ancestry_walk fl (self : ForkTree T) par prev f d r k l :
  rep fl (nodes self) par prev f -> (d + length (fids f) <= size (nodes self))%nat ->
  ancestry_climb d (nodes self) par = Some r ->
  successors k (ancestry_order_next self) r = Some l ->
  successors (length (fids f) + k) (ancestry_order_next self) (entry f r) = Some (fids f ++ l).
Proof.
  revert par prev d r k l. induction f as [|i e cs IH1 sib IH2]; intros par prev d r k l Hrep Hd Hclimb Hk; [done|].
  rewrite fids_cons in *. cbn [length app] in *. rewrite length_app in *. cbn [rep] in Hrep.
  destruct Hrep as (Hi & Hcs & Hsib).
  specialize (IH2 par (Some i) d r k l Hsib ltac:(lia) Hclimb Hk).
  assert (Hc : ancestry_climb (S d) (nodes self) (Some i) = Some (entry sib r)).
  { cbn. rewrite Hi. cbn. by destruct sib. }
  specialize (IH1 (Some i) None (S d) _ _ _ Hcs ltac:(lia) Hc IH2).
  cbn [Nat.add]. rewrite <- app_assoc, <- Nat.add_assoc. cbn [successors entry froot].
  assert (Hnext : ancestry_order_next self i = Some (entry cs (entry sib r))).
  { unfold ancestry_order_next. rewrite Hi. cbn. destruct cs; [|done]. cbn.
    destruct sib; [|done]. cbn. eapply ancestry_climb_mono; [|done]. lia. }
  rewrite Hnext. cbn. by rewrite IH1.
Qed.

Lemma mapM_lookup fl m par prev f :
  rep fl m par prev f ->
  mapM (fun idx => let! n := m !! idx in Some (idx, data n)) (fids f) = Some (fitems f).
Proof.
  intros Hrep. apply mapM_Some. unfold fids. apply Forall2_fmap_l, Forall_Forall2_diag, Forall_forall.
  intros [i d] Hin. destruct (rep_lookup _ _ _ _ _ _ _ Hrep Hin) as (n & Hn & <-). cbn. by rewrite Hn.
Qed.

(** Paths. *)
Lemma fpath_is_Some i f : is_Some (fpath i f) <-> i ∈ fids f.
Proof.
  induction f as [|j d cs IH1 sib IH2]; [cbn; split; [by intros []|by intros ?%elem_of_nil]|].
  rewrite fids_cons, elem_of_cons, elem_of_app, <- IH1, <- IH2. cbn.
  destruct (Z.eqb_spec j i) as [->|Hne].
  - split; [by left|eauto].
  - destruct (fpath i cs); split; [eauto | eauto | eauto |].
    intros [?|[[? ?]|?]]; [congruence|done|done].
Qed.

Lemma fpath_sub i f l : fpath i f = Some l -> (forall k, k ∈ l -> k ∈ fids f) /\ (length l <= length (fids f))%nat.
Proof.
  revert l. induction f as [|j d cs IH1 sib IH2]; intros l; [done|]. rewrite fids_cons. cbn [fpath length].
  rewrite length_app. destruct (Z.eqb_spec j i) as [->|Hne].
  - intros [= <-]. split; [|cbn; lia]. intros k ->%list_elem_of_singleton. by left.
  - destruct (fpath i cs) as [l'|].
    + intros [= <-]. destruct (IH1 l' eq_refl) as [Hin Hlen]. rewrite length_app. cbn. split; [|lia].
      intros k [Hk| ->%list_elem_of_singleton]%elem_of_app; [|by left].
      right. apply elem_of_app. left. auto.
    + intros E. destruct (IH2 l E) as [Hin Hlen]. split; [|lia].
      intros k Hk. right. apply elem_of_app. right. auto.
Qed.

Lemma path_walk fl m par prev f i l k lp :
  rep fl m par prev f -> fpath i f = Some l ->
  successors k (fun n => parent <$> m !! n) par = Some lp ->
  successors (length l + k) (fun n => parent <$> m !! n) (Some i) = Some (l ++ lp).
Proof.
  revert par prev l k lp. induction f as [|j d cs IH1 sib IH2]; intros par prev l k lp; [done|].
  cbn [rep fpath]. intros (Hj & Hcs & Hsib). destruct (Z.eqb_spec j i) as [->|Hne].
  - intros [= <-] Hk. cbn. rewrite Hj. cbn. by rewrite Hk.
  - destruct (fpath i cs) as [l'|].
    + intros [= <-] Hk. rewrite length_app, <- app_assoc, <- Nat.add_assoc. cbn [length app Nat.add].
      apply (IH1 (Some j) None); [done..|]. cbn. rewrite Hj. cbn. by rewrite Hk.
    + eauto.
Qed.

Lemma node_to_root_path_rep (self : ForkTree T) f i l :
  fork_rep self f -> fpath i f = Some l -> node_to_root_path self i = Some l.
Proof.
  intros Hrep Hp. unfold node_to_root_path. apply (successors_mono (length l + 0)).
  - rewrite (fork_size self f) by done. apply fpath_sub in Hp as [_ ?]. lia.
  - rewrite <- (app_nil_r l) at 2. eapply path_walk; [apply Hrep|done|done].
Qed.

(** *** Insertion *)

Lemma fids_nodup i (d : T) cs sib :
  NoDup (fids (FCons i d cs sib)) <->
  (i ∉ fids cs /\ i ∉ fids sib) /\ NoDup (fids cs) /\ NoDup (fids sib) /\ (forall k, k ∈ fids cs -> k ∉ fids sib).
Proof. rewrite fids_cons, NoDup_cons, NoDup_app, not_elem_of_app. naive_solver. Qed.

Lemma rep_in fl m par prev f k : rep fl m par prev f -> k ∈ fids f -> is_Some (m !! k).
Proof.
  intros Hrep ([i d] & -> & Hin)%list_elem_of_fmap.
  destruct (rep_lookup _ _ _ _ _ _ _ Hrep Hin) as (n & Hn & _). eauto.
Qed.

(** The first node of a list of siblings gets a new previous sibling. *)
Definition relink (first : option Z) (p : option Z) m : option (gmap Z (Node T)) :=
  match first with Some i => update_node i (set_previous_sibling p) m | None => Some m end.

Lemma rep_relink fl m par prev p f :
  rep fl m par prev f -> NoDup (fids f) ->
  exists m', relink (froot f) p m = Some m' /\ rep fl m' par p f /\
    forall k, k ∉ fids f -> m' !! k = m !! k.
Proof.
  destruct f as [|i d cs sib]; [eauto|]. intros (Hi & Hcs & Hsib) [[Hncs Hnsib] _]%fids_nodup.
  cbn [relink froot]. unfold update_node. rewrite Hi. eexists. split; [reflexivity|]. split.
  - cbn [rep]. rewrite lookup_insert_eq. split; [done|].
    split; (eapply rep_ext; [|done]); intros k Hk; rewrite lookup_insert_ne by congruence; done.
  - intros k Hk. rewrite fids_cons in Hk. apply lookup_insert_ne. set_solver.
Qed.

Lemma finsert_notin p i d f : p ∉ fids f -> finsert p i d f = f.
Proof.
  induction f as [|j e cs IH1 sib IH2]; [done|]. rewrite fids_cons, not_elem_of_cons, not_elem_of_app.
  intros (Hj & Hcs & Hsib). cbn. rewrite (proj2 (Z.eqb_neq j p)) by congruence. by rewrite IH1, IH2.
Qed.

Lemma froot_finsert p i d f : froot (finsert p i d f) = froot f.
Proof. destruct f; [done|]. cbn. by case_match. Qed.

Lemma finsert_items p i d f :
  p ∈ fids f -> NoDup (fids f) -> fitems (finsert p i d f) ≡ₚ (i, d) :: fitems f.
Proof.
  induction f as [|j e cs IH1 sib IH2]; [by intros ?%elem_of_nil|].
  intros Hp (_ & Hn1 & Hn2 & Hdisj)%fids_nodup. rewrite fids_cons, elem_of_cons, elem_of_app in Hp.
  cbn. destruct (Z.eqb_spec j p) as [->|Hne]; [cbn; by rewrite Permutation_swap|].
  destruct (decide (p ∈ fids cs)) as [Hin|Hin].
  - cbn. rewrite IH1, (finsert_notin _ _ _ sib) by (done || by apply Hdisj). cbn. by rewrite Permutation_swap.
  - cbn. rewrite (finsert_notin _ _ _ cs), IH2 by (done || naive_solver).
    rewrite <- Permutation_middle. by rewrite Permutation_swap.
Qed.

Lemma finsert_ids p i d f : p ∈ fids f -> NoDup (fids f) -> fids (finsert p i d f) ≡ₚ i :: fids f.
Proof. intros Hp Hnd. unfold fids. by rewrite finsert_items. Qed.

(** The new node is linked below [p]. *)
Lemma rep_insert_child fl m par prev f p i d :
  rep fl m par prev f -> NoDup (fids f) -> i ∉ fids f -> p ∈ fids f -> fl i = false ->
  exists pn m1 m', m !! p = Some pn /\
    update_node p (set_first_child (Some i))
      (<[i := mkNode (Some p) None (first_child pn) None false d]> m) = Some m1 /\
    relink (first_child pn) (Some i) m1 = Some m' /\
    rep fl m' par prev (finsert p i d f) /\ forall k, k ∉ i :: fids f -> m' !! k = m !! k.
Proof.
  revert par prev. induction f as [|j e cs IH1 sib IH2]; intros par prev; [by intros _ _ _ ?%elem_of_nil|].
  intros Hrep Hnd Hi Hp Hfl. pose proof Hrep as (Hj & Hcs & Hsib).
  apply fids_nodup in Hnd as ([Hjcs Hjsib] & Hn1 & Hn2 & Hdisj).
  rewrite fids_cons, not_elem_of_cons, not_elem_of_app in Hi. destruct Hi as (Hij & Hics & Hisib).
  rewrite fids_cons, elem_of_cons, elem_of_app in Hp. cbn [finsert].
  destruct (Z.eqb_spec j p) as [->|Hne].
  - exists (mkNode par (froot cs) (froot sib) prev (fl p) e).
    set (m0 := <[i := _]> m). set (m1 := <[p := set_first_child (Some i) (mkNode par (froot cs) (froot sib) prev (fl p) e)]> m0).
    assert (Hm1 : forall k, k <> i -> k <> p -> m1 !! k = m !! k).
    { intros k ? ?. unfold m1, m0. by rewrite !lookup_insert_ne by congruence. }
    destruct (rep_relink fl m1 (Some p) None (Some i) cs) as (m' & Hrel & Hcs' & Hm').
    { eapply rep_ext; [|done]. intros k Hk. split; [|done]. symmetry. apply Hm1; congruence. }
    { done. }
    exists m1, m'. split; [done|]. split; [|split; [done|split]].
    + unfold update_node, m0. rewrite lookup_insert_ne, Hj by congruence. done.
    + cbn [rep]. rewrite Hm' by done. unfold m1 at 1. rewrite lookup_insert_eq. split; [done|].
      rewrite Hm' by done. unfold m1 at 1, m0. rewrite lookup_insert_ne, lookup_insert_eq, Hfl by congruence.
      split; [done|]. eapply rep_ext; [|done]. intros k Hk. split; [|done].
      rewrite Hm' by (intros ?; by apply (Hdisj k)). symmetry. apply Hm1; congruence.
    + intros k. rewrite !not_elem_of_cons, fids_cons, not_elem_of_cons, not_elem_of_app. intros (? & ? & ? & ?).
      rewrite Hm', Hm1 by done. done.
  - destruct (decide (p ∈ fids cs)) as [Hin|Hin].
    + destruct (IH1 (Some j) None) as (pn & m1 & m' & H1 & H2 & H3 & H4 & H5); [done..|].
      exists pn, m1, m'. split; [done|]. split; [done|]. split; [done|].
      rewrite (finsert_notin p i d sib) by (by apply Hdisj). split.
      * cbn. rewrite froot_finsert, H5 by set_solver. split; [done|]. split; [done|].
        eapply rep_ext; [|done]. intros k Hk. split; [|done]. symmetry. apply H5.
        rewrite not_elem_of_cons. split; [congruence|]. intros ?. by apply (Hdisj k).
      * intros k Hk. rewrite fids_cons in Hk. apply H5. set_solver.
    + assert (Hin' : p ∈ fids sib) by naive_solver.
      destruct (IH2 par (Some j)) as (pn & m1 & m' & H1 & H2 & H3 & H4 & H5); [done..|].
      exists pn, m1, m'. split; [done|]. split; [done|]. split; [done|].
      rewrite (finsert_notin p i d cs) by done. split.
      * cbn. rewrite froot_finsert, H5 by set_solver. split; [done|]. split; [|done].
        eapply rep_ext; [|done]. intros k Hk. split; [|done]. symmetry. apply H5.
        rewrite not_elem_of_cons. split; [congruence|]. by apply Hdisj.
      * intros k Hk. rewrite fids_cons in Hk. apply H5. set_solver.
Qed.

(** Insertion implements [finsert]. *)
Lemma fork_insert_rep (self : ForkTree T) f new par d :
  fork_rep self f -> nodes self !! new = None -> (forall p, par = Some p -> is_Some (nodes self !! p)) ->
  exists self', fork_insert self new par d = Some (new, self') /\
    fork_rep self' (match par with Some p => finsert p new d f | None => finsert_root new d f end) /\
    forall k, fork_get self' k = if decide (k = new) then Some d else fork_get self k.
Proof.
  intros Hrep Hnew Hpar. pose proof Hrep as [Hlinks Hroot Hnd Hdom].
  assert (Hni : new ∉ fids f). { rewrite Hdom, Hnew. by intros []. }
  assert (Hget : forall self' f', fork_rep self' f' -> fitems f' ≡ₚ (new, d) :: fitems f ->
            forall k, fork_get self' k = if decide (k = new) then Some d else fork_get self k).
  { intros self' f' [Hl' _ _ Hdom'] Hitems k. unfold fork_get. case_decide as E.
    - subst. destruct (rep_lookup _ _ _ _ _ new d Hl') as (n & -> & <-); [rewrite Hitems; by left|done].
    - destruct (nodes self !! k) as [n|] eqn:Ek.
      + assert (Hin : k ∈ fids f) by (apply Hdom; eauto).
        apply list_elem_of_fmap in Hin as ([k' e] & -> & Hin).
        destruct (rep_lookup _ _ _ _ _ _ _ Hlinks Hin) as (n1 & Hn1 & <-). cbn in *.
        destruct (rep_lookup _ _ _ _ _ k' (data n1) Hl') as (n2 & -> & Hd2); [rewrite Hitems; by right|].
        cbn. congruence.
      + destruct (nodes self' !! k) as [n|] eqn:Ek'; [|done]. exfalso.
        assert (Hin : k ∈ fids f') by (apply Hdom'; eauto). unfold fids in Hin. rewrite Hitems in Hin.
        cbn in Hin. apply elem_of_cons in Hin as [?|Hin]; [done|].
        apply (proj1 (Hdom k)) in Hin. rewrite Ek in Hin. by destruct Hin. }
  destruct par as [p|]; unfold fork_insert.
  - assert (Hp : p ∈ fids f) by (apply Hdom; auto).
    destruct (rep_insert_child unmarked (nodes self) None None f p new d) as (pn & m1 & m' & H1 & H2 & H3 & H4 & H5);
      [done..|]. rewrite H1. cbn. rewrite H2. cbn. unfold relink in H3. rewrite H3. cbn. eexists. split; [done|].
    assert (Hrep' : fork_rep {| nodes := m'; first_root := first_root self |} (finsert p new d f)).
    { split; cbn; [done | by rewrite froot_finsert | rewrite finsert_ids by done; by constructor |].
      intros k. split; [by eapply rep_in|]. intros Hk. rewrite finsert_ids, elem_of_cons, Hdom by done.
      destruct (decide (k = new)); [by left|]. right. destruct (decide (k ∈ fids f)); [by apply Hdom|].
      rewrite <- H5; [done|]. rewrite not_elem_of_cons. done. }
    split; [done|]. eapply Hget; [done|]. by apply finsert_items.
  - rewrite Hroot. set (m0 := <[new := _]> (nodes self)).
    destruct (rep_relink unmarked m0 None None (Some new) f) as (m' & H1 & H2 & H3); [|done|].
    { eapply rep_ext; [|done]. intros k Hk. split; [|done]. unfold m0. rewrite lookup_insert_ne by congruence. done. }
    unfold relink in H1. rewrite H1. cbn. eexists. split; [done|].
    assert (Hrep' : fork_rep {| nodes := m'; first_root := Some new |} (finsert_root new d f)).
    { assert (Hids : fids (finsert_root new d f) = new :: fids f) by done.
      split; cbn [nodes first_root]; [| done | rewrite Hids; by constructor |].
      - cbn. rewrite H3 by done. unfold m0. rewrite lookup_insert_eq. done.
      - intros k. rewrite Hids, elem_of_cons. destruct (decide (k ∈ fids f)) as [Hin|Hin].
        + split; [intros _; by eapply rep_in | by right].
        + rewrite H3 by done. unfold m0. rewrite lookup_insert. case_decide; subst; [naive_solver|].
          rewrite Hdom. naive_solver. }
    split; [done|]. eapply Hget; [done|]. done.
Qed.

(** *** Paths and common ancestors *)

Lemma successors_suffix n succ first l1 a l2 :
  successors n succ first = Some (l1 ++ a :: l2) -> successors n succ (Some a) = Some (a :: l2).
Proof.
  revert n first. induction l1 as [|x l1 IH]; intros n [i|]; destruct n as [|n]; try done; cbn [successors app].
  - destruct (succ i) as [next|] eqn:Es; [|done]. cbn.
    destruct (successors n succ next) as [rest|] eqn:E; [|done]. cbn. intros [= -> ->].
    by rewrite Es; cbn; rewrite E.
  - destruct (succ i) as [next|] eqn:Es; [|done]. cbn.
    destruct (successors n succ next) as [rest|] eqn:E; [|done]. cbn. intros [= -> ->].
    apply IH in E. apply (successors_mono n (S n)) in E; [|lia]. done.
Qed.

(** Two paths that meet go on together. *)
Definition joining (p1 p2 : list Z) : Prop :=
  forall u1 u2 a s1 s2, p1 = u1 ++ a :: s1 -> p2 = u2 ++ a :: s2 -> s1 = s2.

Lemma paths_joining (self : ForkTree T) i1 i2 p1 p2 :
  node_to_root_path self i1 = Some p1 -> node_to_root_path self i2 = Some p2 -> joining p1 p2.
Proof.
  unfold node_to_root_path. intros H1 H2 u1 u2 a s1 s2 -> ->.
  apply successors_suffix in H1, H2. congruence.
Qed.

Lemma joining_drop p1 p2 n1 n2 : joining p1 p2 -> joining (drop n1 p1) (drop n2 p2).
Proof.
  intros Hj u1 u2 a s1 s2 E1 E2. apply (Hj (take n1 p1 ++ u1) (take n2 p2 ++ u2) a);
    rewrite <- app_assoc, <- ?E1, <- ?E2, take_drop; done.
Qed.

(** A common element is at the same distance of the ends. *)
Lemma joining_drop_common p1 p2 a :
  joining p1 p2 -> a ∈ p1 -> a ∈ p2 -> a ∈ drop (length p1 - length p2) p1.
Proof.
  intros Hj (u1 & s1 & ->)%list_elem_of_split (u2 & s2 & ->)%list_elem_of_split.
  assert (s1 = s2) as -> by (by eapply Hj). rewrite !length_app. cbn.
  rewrite drop_app_le by lia. apply elem_of_app. right. by left.
Qed.

(** What [common_ancestor] returns on two paths. *)
Definition closest_common (p1 p2 : list Z) (r : option Z) : Prop :=
  match r with
  | Some a => exists u1 u2 s, p1 = u1 ++ a :: s /\ p2 = u2 ++ a :: s /\ forall k, k ∈ u1 -> k ∉ p2
  | None => forall k, k ∈ p1 -> k ∉ p2
  end.

Lemma common_ancestor_loop_spec p1 p2 :
  joining p1 p2 -> length p1 = length p2 ->
  exists r, common_ancestor_loop p1 p2 = Some r /\ closest_common p1 p2 r.
Proof.
  revert p2. induction p1 as [|x p1 IH]; intros [|y p2] Hj Hlen; try done.
  - exists None. split; [done|]. intros k ?%elem_of_nil. done.
  - cbn in Hlen |- *. destruct (Z.eqb_spec x y) as [->|Hne].
    + exists (Some y). split; [done|]. exists [], [], p1.
      split; [done|]. split; [cbn; rewrite (Hj [] [] y p1 p2) by done; done|]. by intros k ?%elem_of_nil.
    + destruct (IH p2) as (r & Hr & Hcc); [by apply (joining_drop (x :: p1) (y :: p2) 1 1) | lia |].
      assert (Hx : x ∉ y :: p2).
      { intros [?|(u2 & s2 & ->)%list_elem_of_split]%elem_of_cons; [done|].
        assert (p1 = s2) as -> by (by apply (Hj [] (y :: u2) x)).
        rewrite length_app in Hlen. cbn in Hlen. lia. }
      assert (Hy : forall k, k ∈ p1 -> k ∉ p2 -> k ∉ y :: p2).
      { intros k (u1 & s1 & ->)%list_elem_of_split Hk2 [->|?]%elem_of_cons; [|done].
        assert (s1 = p2) as -> by (by apply (Hj (x :: u1) [] y)).
        rewrite length_app in Hlen. cbn in Hlen. lia. }
      exists r. split; [done|]. destruct r as [a|]; cbn in *.
      * destruct Hcc as (u1 & u2 & s & -> & -> & Hu). exists (x :: u1), (y :: u2), s.
        split; [done|]. split; [done|]. intros k [->|Hk]%elem_of_cons; [done|].
        apply Hy; [apply elem_of_app; by left|auto].
      * intros k [->|Hk]%elem_of_cons; [done|]. auto.
Qed.

Lemma common_ancestor_paths (self : ForkTree T) i1 i2 p1 p2 :
  node_to_root_path self i1 = Some p1 -> node_to_root_path self i2 = Some p2 ->
  exists r, common_ancestor self i1 i2 = Some r /\ closest_common p1 p2 r.
Proof.
  intros H1 H2. unfold common_ancestor. rewrite H1, H2. cbn.
  pose proof (paths_joining _ _ _ _ _ H1 H2) as Hj.
  assert (Hj' : joining p2 p1) by (intros u1 u2 a s1 s2 E1 E2; symmetry; by eapply Hj).
  destruct (common_ancestor_loop_spec (drop (length p1 - length p2) p1) (drop (length p2 - length p1) p2))
    as (r & Hr & Hcc); [by apply joining_drop | rewrite !length_drop; lia |].
  exists r. split; [done|].
  assert (Hd : forall k, k ∈ p1 -> k ∈ p2 ->
             k ∈ drop (length p1 - length p2) p1 /\ k ∈ drop (length p2 - length p1) p2).
  { intros k ? ?. split; by apply joining_drop_common. }
  destruct r as [a|]; cbn in *.
  - destruct Hcc as (u1 & u2 & s & E1 & E2 & Hu).
    exists (take (length p1 - length p2) p1 ++ u1), (take (length p2 - length p1) p2 ++ u2), s.
    rewrite <- !app_assoc, <- E1, <- E2, !take_drop. split; [done|]. split; [done|].
    intros k Hk Hk2. assert (Hk1 : k ∈ p1).
    { rewrite <- (take_drop (length p1 - length p2) p1), E1, app_assoc. apply elem_of_app. by left. }
    destruct (Hd k Hk1 Hk2) as [Hd1 Hd2]. apply elem_of_app in Hk as [Hk|Hk]; [|by apply (Hu k)].
    apply list_elem_of_split in Hd1 as (v1 & w1 & Ev1). apply list_elem_of_split in Hk as (v0 & w0 & Ev0).
    pose proof (take_drop (length p1 - length p2) p1) as Etd.
    apply list_elem_of_split in Hk2 as (v2 & w2 & Ev2).
    assert (w0 ++ drop (length p1 - length p2) p1 = w2) as Hw2.
    { apply (Hj v0 v2 k); [|done]. rewrite <- Etd at 1. rewrite Ev0, <- app_assoc. done. }
    assert (w1 = w2) as Hw1.
    { apply (Hj (take (length p1 - length p2) p1 ++ v1) v2 k); [|done]. by rewrite <- app_assoc, <- Ev1. }
    apply (f_equal length) in Hw1, Hw2, Ev1. rewrite length_app in *. cbn in *. lia.
  - intros k Hk1 Hk2. destruct (Hd k Hk1 Hk2) as [? ?]. by apply (Hcc k).
Qed.

Lemma take_while_app (cond : Z -> bool) l1 a l2 :
  (forall x, x ∈ l1 -> cond x = true) -> cond a = false -> take_while cond (l1 ++ a :: l2) = l1.
Proof.
  intros H1 Ha. induction l1 as [|x l1 IH]; cbn; [by rewrite Ha|].
  rewrite H1 by (by left). f_equal. apply IH. intros. apply H1. by right.
Qed.

Lemma take_while_all (cond : Z -> bool) l : (forall x, x ∈ l -> cond x = true) -> take_while cond l = l.
Proof.
  induction l as [|x l IH]; intros Hl; [done|]. cbn. rewrite Hl by (by left). f_equal. apply IH.
  intros. apply Hl. by right.
Qed.

Lemma skip_while_app (cond : Z -> bool) l1 a l2 :
  (forall x, x ∈ l1 -> cond x = true) -> cond a = false -> skip_while cond (l1 ++ a :: l2) = a :: l2.
Proof.
  intros H1 Ha. induction l1 as [|x l1 IH]; cbn; [by rewrite Ha|].
  rewrite H1 by (by left). apply IH. intros. apply H1. by right.
Qed.

Lemma fpath_nodup i f l : fpath i f = Some l -> NoDup (fids f) -> NoDup l.
Proof.
  revert l. induction f as [|j d cs IH1 sib IH2]; intros l; [done|]. cbn [fpath].
  intros Hl ((Hj & _) & Hn1 & Hn2 & _)%fids_nodup. destruct (Z.eqb_spec j i) as [->|Hne].
  - injection Hl as <-. apply NoDup_singleton.
  - destruct (fpath i cs) as [l'|] eqn:E; [|auto]. injection Hl as <-. apply NoDup_app.
    split; [auto|]. split; [|apply NoDup_singleton].
    intros k Hk ->%list_elem_of_singleton. apply Hj. by apply (fpath_sub i cs l').
Qed.

Context `{Platform}.

Lemma root_to_node_path_rep (self : ForkTree T) f i l :
  fork_rep self f -> fpath i f = Some l -> nodes self !! (2 ^ usize_bits - 1) = None ->
  root_to_node_path self i = Some (rev l).
Proof.
  intros Hrep Hp Hmax. unfold root_to_node_path.
  rewrite (node_to_root_path_rep self f i l) by done. cbn [mbind option_bind].
  set (succ := fun current => Some (last (take_while (fun n => negb (n =? current)) l))).
  pose proof (fpath_nodup _ _ _ Hp (fr_nodup _ _ Hrep)) as Hnd.
  assert (Hwalk : forall u v, l = u ++ v -> successors (length u) succ (last u) = Some (rev u)).
  { induction u as [|x u IH] using rev_ind; intros v ->; [done|].
    rewrite last_snoc, length_app, Nat.add_comm, rev_unit. cbn [length Nat.add successors].
    unfold succ at 1. rewrite <- app_assoc in *. cbn [app] in *. rewrite take_while_app.
    - cbn [mbind option_bind]. rewrite (IH (x :: v)) by done. done.
    - intros y Hy. apply negb_true_iff, Z.eqb_neq. intros ->.
      apply NoDup_app in Hnd as (_ & Hnd & _). apply (Hnd x Hy). by left.
    - by rewrite Z.eqb_refl. }
  assert (Hfirst : succ (2 ^ usize_bits - 1) = Some (last l)).
  { unfold succ. rewrite take_while_all; [done|]. intros x Hx. apply negb_true_iff, Z.eqb_neq. intros ->.
    apply fpath_sub in Hp as [Hsub _]. apply Hsub, (fr_dom _ _ Hrep) in Hx as [? ?]. congruence. }
  cbn [successors]. rewrite Hfirst. cbn [mbind option_bind].
  rewrite (successors_mono (length l) _ _ _ (rev l)); [done | |].
  - rewrite (fork_size self f) by done. by apply fpath_sub in Hp as [_ ?].
  - apply (Hwalk l []). by rewrite app_nil_r.
Qed.

Lemma is_ancestor_loop_path n m a i l :
  successors n (fun n => parent <$> m !! n) (Some i) = Some l ->
  is_ancestor_loop n m a i = Some (bool_decide (a ∈ l)).
Proof.
  revert i l. induction n as [|n IH]; intros i l; [done|]. cbn.
  destruct (m !! i) as [nd|] eqn:Ei; [|done]. cbn.
  destruct (successors n _ (parent nd)) as [rest|] eqn:E; [|done]. cbn. intros [= <-].
  destruct (Z.eqb_spec i a) as [->|Hne].
  - rewrite bool_decide_eq_true_2 by (by left). done.
  - destruct (parent nd) as [p|].
    + rewrite (IH p rest E). f_equal. apply bool_decide_ext. rewrite elem_of_cons. naive_solver.
    + assert (rest = []) as -> by (destruct n; by injection E).
      rewrite bool_decide_eq_false_2; [done|]. by intros [?|?%elem_of_nil]%elem_of_cons.
Qed.

(** *** Changes of the data of a node *)

Lemma falter_ids i g f : fids (falter i g f) = fids f.
Proof.
  induction f as [|j d cs IH1 sib IH2]; [done|]. cbn [falter]. by rewrite !fids_cons, IH1, IH2.
Qed.

Lemma falter_path i g k f : fpath k (falter i g f) = fpath k f.
Proof. induction f as [|j d cs IH1 sib IH2]; [done|]. cbn. by rewrite IH1, IH2. Qed.

Lemma froot_falter i g f : froot (falter i g f) = froot f.
Proof. by destruct f. Qed.

Lemma rep_falter fl m par prev f i g n :
  rep fl m par prev f -> m !! i = Some n -> rep fl (<[i := set_data (g (data n)) n]> m) par prev (falter i g f).
Proof.
  intros Hrep Hi. revert par prev Hrep. induction f as [|j d cs IH1 sib IH2]; intros par prev; [done|].
  cbn. intros (Hj & Hcs & Hsib). rewrite !froot_falter. split; [|eauto].
  destruct (Z.eqb_spec j i) as [->|Hne].
  - rewrite lookup_insert_eq. rewrite Hi in Hj. injection Hj as ->. done.
  - by rewrite lookup_insert_ne.
Qed.

(** Assigning through [get_mut] keeps the shape of the forest. *)
Lemma fork_get_mut_rep (self : ForkTree T) f i g :
  fork_rep self f -> is_Some (fork_get self i) ->
  exists self', fork_get_mut self i g = Some self' /\ fork_rep self' (falter i g f) /\
    (forall k, fork_get self' k = if decide (k = i) then g <$> fork_get self i else fork_get self k) /\
    (forall k, fork_parent self' k = fork_parent self k) /\ dom (nodes self') = dom (nodes self).
Proof.
  intros [Hl Hr Hnd Hdom] [n Hn]%fmap_is_Some. unfold fork_get_mut, update_node. rewrite Hn.
  eexists. split; [done|]. split_and!; cbn [nodes first_root].
  - split; cbn [nodes first_root].
    + by apply rep_falter.
    + by rewrite froot_falter.
    + by rewrite falter_ids.
    + intros k. rewrite falter_ids, Hdom. rewrite lookup_insert. case_decide; subst; [|done]. rewrite Hn. naive_solver.
  - intros k. unfold fork_get. cbn [nodes]. rewrite lookup_insert. case_decide; case_decide; subst; try done.
    by rewrite Hn.
  - intros k. unfold fork_parent. cbn [nodes]. rewrite lookup_insert. case_decide; subst; [|done]. by rewrite Hn.
  - apply dom_insert_lookup_L. eauto.
Qed.

(** *** Parents *)

Lemma fork_get_parent (self : ForkTree T) k : is_Some (fork_parent self k) <-> is_Some (fork_get self k).
Proof. unfold fork_parent, fork_get. by rewrite !fmap_is_Some. Qed.

(** The path to the root of a node is the node, and the path of its parent. *)
Lemma fork_path_parent (self : ForkTree T) f k l :
  fork_rep self f -> fpath k f = Some l ->
  exists l', l = k :: l' /\
    match fork_parent self k with
    | Some (Some p) => fpath p f = Some l'
    | Some None => l' = []
    | None => False
    end.
Proof.
  intros Hrep Hp. pose proof (node_to_root_path_rep _ _ _ _ Hrep Hp) as Hw.
  unfold node_to_root_path in Hw. destruct (size (nodes self)) as [|n] eqn:En; [done|]. cbn in Hw.
  unfold fork_parent. destruct (nodes self !! k) as [nd|] eqn:Ek; cbn in Hw |- *; [|done].
  destruct (successors n _ (parent nd)) as [rest|] eqn:E; [|done]. injection Hw as <-. exists rest. split; [done|].
  destruct (parent nd) as [p|] eqn:Epar; [|by destruct n; injection E].
  assert (Hpf : p ∈ fids f).
  { destruct n as [|n]; [done|]. cbn in E. destruct (nodes self !! p) as [np|] eqn:Enp; [|done].
    apply Hrep. eauto. }
  apply fpath_is_Some in Hpf as [lp Hlp]. rewrite Hlp. f_equal.
  pose proof (node_to_root_path_rep _ _ _ _ Hrep Hlp) as Hw'. unfold node_to_root_path in Hw'.
  rewrite En in Hw'. apply (successors_mono n (S n)) in E; [|lia]. congruence.
Qed.

Lemma fork_parent_get (self : ForkTree T) f k p :
  fork_rep self f -> fork_parent self k = Some (Some p) -> is_Some (fork_get self p).
Proof.
  intros Hrep Hpar. assert (Hk : k ∈ fids f).
  { apply Hrep. unfold fork_parent in Hpar. apply fmap_Some in Hpar as (n & ? & _). eauto. }
  apply fpath_is_Some in Hk as [l Hl]. destruct (fork_path_parent _ _ _ _ Hrep Hl) as (l' & -> & Hp).
  rewrite Hpar in Hp. unfold fork_get. apply fmap_is_Some. apply Hrep. apply fpath_is_Some. eauto.
Qed.

Lemma update_node_parent i (g : Node T -> Node T) m m' :
  update_node i g m = Some m' -> (forall n, parent (g n) = parent n) ->
  forall k, parent <$> m' !! k = parent <$> m !! k.
Proof.
  unfold update_node. intros Hu Hg k. destruct (m !! i) as [n|] eqn:Ei; [|done]. injection Hu as <-.
  rewrite lookup_insert. case_decide; subst; [|done]. rewrite Ei. cbn. by rewrite Hg.
Qed.

(** The parents after an insertion. *)
Lemma fork_insert_parent (self : ForkTree T) new par d i self' :
  fork_insert self new par d = Some (i, self') ->
  forall k, fork_parent self' k = if decide (k = new) then Some par else fork_parent self k.
Proof.
  unfold fork_insert, fork_parent. intros Hins k.
  assert (Hnew : forall nd, parent <$> <[new := nd]> (nodes self) !! k =
    if decide (k = new) then Some (parent nd) else parent <$> nodes self !! k).
  { intros nd. rewrite lookup_insert. repeat case_decide; by subst. }
  destruct par as [p|].
  - destruct (nodes self !! p) as [np|]; [|done].
    destruct (update_node p _ _) as [m1|] eqn:E1; [|done].
    pose proof (update_node_parent _ _ _ _ E1 ltac:(done) k) as H1. rewrite Hnew in H1.
    destruct (first_child np) as [c|]; [|injection Hins as <- <-; done].
    destruct (update_node c _ _) as [m2|] eqn:E2; [|done]. injection Hins as <- <-. cbn [nodes].
    by rewrite (update_node_parent _ _ _ _ E2 ltac:(done) k).
  - destruct (first_root self) as [r|]; [|injection Hins as <- <-; apply Hnew].
    destruct (update_node r _ _) as [m2|] eqn:E2; [|done]. injection Hins as <- <-. cbn [nodes].
    rewrite (update_node_parent _ _ _ _ E2 ltac:(done) k). apply Hnew.
Qed.

(** The path of a node ends at the only root on it. *)
Lemma fork_path_root (self : ForkTree T) f l : forall k,
  fork_rep self f -> fpath k f = Some l ->
  exists l' r, l = l' ++ [r] /\ fork_parent self r = Some None /\
    forall x, x ∈ l -> fork_parent self x = Some None -> x = r.
Proof.
  induction l as [|y l IH]; intros k Hf Hl; destruct (fork_path_parent _ _ _ _ Hf Hl) as (l0 & E & Hp); [done|].
  injection E as -> <-. destruct (fork_parent self k) as [[p|]|] eqn:Ek; [| |done].
  - destruct (IH p Hf Hp) as (l' & r & -> & Hr & Hu). exists (k :: l'), r. split; [done|]. split; [done|].
    intros x [->|Hx]%elem_of_cons Hxr; [congruence|auto].
  - subst l. exists [], k. split; [done|]. split; [done|]. by intros x ->%list_elem_of_singleton.
Qed.

(** What holds of the children of a node when it holds of it holds everywhere. *)
Lemma fork_parent_ind (self : ForkTree T) f (P : Z -> Prop) :
  fork_rep self f ->
  (forall k, fork_parent self k = Some None -> P k) ->
  (forall k p, fork_parent self k = Some (Some p) -> P p -> P k) ->
  forall k, is_Some (fork_get self k) -> P k.
Proof.
  intros Hrep Hroot Hstep k Hk. assert (Hin : k ∈ fids f).
  { apply Hrep. by apply fmap_is_Some in Hk. }
  apply fpath_is_Some in Hin as [l Hl]. clear Hk. revert k Hl. induction l as [|x l IH]; intros k Hl.
  - destruct (fork_path_parent _ _ _ _ Hrep Hl) as (? & ? & _). done.
  - destruct (fork_path_parent _ _ _ _ Hrep Hl) as (l' & [= -> ->] & Hp).
    destruct (fork_parent self k) as [[p|]|] eqn:Epar; [|auto|done]. eauto.
Qed.

End facts.

(** ** Main results *)

Section results.
Context {T : Type}.

(** The parent of a node comes before it. *)
Lemma rep_parent_first fl (m : gmap Z (Node T)) par prev f idx i n p :
  rep fl m par prev f -> fids f !! idx = Some i -> m !! i = Some n -> parent n = Some p ->
  par = Some p \/ exists idx', (idx' < idx)%nat /\ fids f !! idx' = Some p.
Proof.
  revert par prev idx. induction f as [|j d cs IH1 sib IH2]; intros par prev idx; [done|].
  intros (Hj & Hcs & Hsib) Hidx Hi Hp. rewrite fids_cons in *. destruct idx as [|idx]; cbn in Hidx.
  - injection Hidx as ->. left. rewrite Hj in Hi. injection Hi as <-. done.
  - apply lookup_app_Some in Hidx as [Hidx|[Hle Hidx]].
    + right. destruct (IH1 _ _ _ Hcs Hidx Hi Hp) as [[= <-]|(idx' & Hlt & Hidx')].
      * exists 0%nat. split; [lia|done].
      * exists (S idx'). split; [lia|].
        change ((fids cs ++ fids sib) !! idx' = Some p). by apply lookup_app_l_Some.
    + destruct (IH2 _ _ _ Hsib Hidx Hi Hp) as [->|(idx' & Hlt & Hidx')]; [by left|right].
      exists (S (length (fids cs) + idx')). split; [lia|].
      change ((fids cs ++ fids sib) !! (length (fids cs) + idx')%nat = Some p). rewrite lookup_app_r by lia.
      by replace (length (fids cs) + idx' - length (fids cs))%nat with idx' by lia.
Qed.

Lemma fork_get_items (self : ForkTree T) f k d : fork_rep self f -> fork_get self k = Some d <-> (k, d) ∈ fitems f.
Proof.
  intros Hrep. unfold fork_get. split.
  - intros (n & Hn & ->)%fmap_Some. assert (Hk : k ∈ fids f) by (apply Hrep; eauto).
    apply list_elem_of_fmap in Hk as ([k' d'] & -> & Hin). cbn in *.
    destruct (rep_lookup _ _ _ _ _ _ _ (fr_links _ _ Hrep) Hin) as (n' & Hn' & Hd).
    assert (n = n') as -> by congruence. by rewrite Hd.
  - intros Hin. destruct (rep_lookup _ _ _ _ _ _ _ (fr_links _ _ Hrep) Hin) as (n & -> & <-). done.
Qed.

Lemma iter_ancestry_order_rep (self : ForkTree T) f :
  fork_rep self f -> iter_ancestry_order self = Some (fitems f).
Proof.
  intros Hrep. pose proof Hrep as [Hlinks Hroot _ _]. unfold iter_ancestry_order.
  rewrite (successors_mono (length (fids f) + 0) _ _ _ (fids f ++ [])).
  - cbn. rewrite app_nil_r. by eapply mapM_lookup.
  - rewrite (fork_size self f) by done. lia.
  - replace (first_root self) with (entry f None) by (rewrite Hroot; by destruct f).
    eapply (ancestry_walk unmarked self None None f 0); [done| |done|done].
    rewrite (fork_size self f) by done. lia.
Qed.

(** [insert] does not panic when the parent exists, returns the key the
    slab chose, and implements the insertion of a first child in the abstract
    forest; the data of the other nodes are as before. *)
Theorem fork_insert_spec (self : ForkTree T) (f : forest T) (new : usize) (par : option NodeIndex) (d : T) :
  fork_rep self f -> nodes self !! new = None -> (forall p, par = Some p -> is_Some (fork_get self p)) ->
  exists self', fork_insert self new par d = Some (new, self') /\
    fork_rep self' (match par with Some p => finsert p new d f | None => finsert_root new d f end) /\
    (forall k, fork_get self' k = if decide (k = new) then Some d else fork_get self k).
Proof.
  intros Hrep Hnew Hpar. apply fork_insert_rep; [done|done|].
  intros p Hp. by eapply fmap_is_Some, Hpar.
Qed.

(** [iter_ancestry_order] ends, and enumerates every node of the tree once
    with its data, a parent always before its children. *)
Theorem iter_ancestry_order_spec (self : ForkTree T) (f : forest T) :
  fork_rep self f ->
  exists l, iter_ancestry_order self = Some l /\ NoDup l.*1 /\
    (forall k d, (k, d) ∈ l <-> fork_get self k = Some d) /\
    (forall idx k d p, l !! idx = Some (k, d) -> fork_parent self k = Some (Some p) ->
       exists idx' d', (idx' < idx)%nat /\ l !! idx' = Some (p, d')).
Proof.
  intros Hrep. exists (fitems f). split; [by apply iter_ancestry_order_rep|]. split; [apply Hrep|]. split.
  - intros k d. by rewrite fork_get_items.
  - intros idx k d p Hidx (n & Hn & Hp)%fmap_Some.
    assert (Hk : fids f !! idx = Some k) by (unfold fids; by rewrite list_lookup_fmap, Hidx).
    destruct (rep_parent_first _ _ _ _ _ _ _ _ _ (fr_links _ _ Hrep) Hk Hn (eq_sym Hp)) as [?|(idx' & Hlt & Hp')]; [done|].
    unfold fids in Hp'. rewrite list_lookup_fmap in Hp'. apply fmap_Some in Hp' as ([p' d'] & Hp' & ->). eauto.
Qed.

Context `{Platform}.

(** For two nodes of the tree [ascend_and_descend] does not panic, and is
    the way from the first to the second through their closest common ancestor:
    the path of [node1] to the root is the first iterator followed by the part
    common to both paths, the path of [node2] the reverse of the second followed
    by the same part, and no node of the first iterator is an ancestor of
    [node2]. [common_ancestor] is the first node of the common part. *)
Theorem ascend_and_descend_spec (self : ForkTree T) (f : forest T) (node1 node2 : NodeIndex) :
  fork_rep self f -> nodes self !! (2 ^ usize_bits - 1) = None ->
  is_Some (fork_get self node1) -> is_Some (fork_get self node2) ->
  exists up down common,
    ascend_and_descend self node1 node2 = Some (up, down) /\
    node_to_root_path self node1 = Some (up ++ common) /\
    node_to_root_path self node2 = Some (rev down ++ common) /\
    root_to_node_path self node2 = Some (rev common ++ down) /\
    common_ancestor self node1 node2 = Some (head common) /\
    (forall k, k ∈ up -> is_ancestor self k node2 = Some false).
Proof.
  intros Hrep Hmax H1 H2.
  assert (Hpath : forall i, is_Some (fork_get self i) -> exists p, fpath i f = Some p).
  { intros i Hi. apply fpath_is_Some, (fr_dom _ _ Hrep). by apply fmap_is_Some in Hi. }
  destruct (Hpath _ H1) as [p1 Hp1]. destruct (Hpath _ H2) as [p2 Hp2].
  pose proof (node_to_root_path_rep _ _ _ _ Hrep Hp1) as Hn1. pose proof (node_to_root_path_rep _ _ _ _ Hrep Hp2) as Hn2.
  pose proof (root_to_node_path_rep _ _ _ _ Hrep Hp2 Hmax) as Hr2.
  destruct (common_ancestor_paths self node1 node2 p1 p2 Hn1 Hn2) as (r & Hca & Hcc).
  assert (Hanc : forall k, k ∉ p2 -> is_ancestor self k node2 = Some false).
  { intros k Hk. apply fmap_is_Some in H2 as [n Hn]. unfold is_ancestor. rewrite Hn. cbn.
    rewrite (is_ancestor_loop_path _ _ _ _ p2) by done. by rewrite bool_decide_eq_false_2. }
  pose proof (fpath_nodup _ _ _ Hp1 (fr_nodup _ _ Hrep)) as Hnd1.
  pose proof (fpath_nodup _ _ _ Hp2 (fr_nodup _ _ Hrep)) as Hnd2.
  unfold ascend_and_descend. rewrite Hca. cbn [mbind option_bind]. rewrite Hn1. cbn [mbind option_bind].
  rewrite Hr2. cbn [mbind option_bind]. destruct r as [a|]; cbn in Hcc.
  - destruct Hcc as (u1 & u2 & s & -> & -> & Hu). exists u1, (rev u2), (a :: s).
    apply NoDup_app in Hnd1 as (_ & Hd1 & _). apply NoDup_app in Hnd2 as (_ & Hd2 & Hnd2).
    assert (Hrev : rev (u2 ++ a :: s) = rev (a :: s) ++ rev u2) by apply rev_app_distr.
    rewrite rev_involutive. split; [|split; [done|split; [done|split; [by rewrite <- Hrev|split; [done|auto]]]]].
    f_equal. f_equal.
    + apply take_while_app; [|by rewrite bool_decide_eq_true_2].
      intros x Hx. rewrite bool_decide_eq_false_2; [done|]. intros [= ->]. apply (Hd1 a Hx). by left.
    + rewrite Hrev. cbn [rev]. rewrite <- app_assoc. cbn [app].
      rewrite skip_while_app; [done| |by rewrite Z.eqb_refl].
      intros x Hx. apply negb_true_iff, Z.eqb_neq. intros ->. rewrite list_elem_of_In, <- in_rev, <- list_elem_of_In in Hx.
      by apply NoDup_cons in Hnd2 as [? _].
  - exists p1, (rev p2), []. rewrite !app_nil_r, rev_involutive.
    split; [|split; [done|split; [done|split; [done|split; [done|auto]]]]].
    f_equal. f_equal. apply take_while_all. intros x Hx. by rewrite bool_decide_eq_false_2.
Qed.

End results.

(** *** A concrete tree *)

(** How to check that a concrete tree represents a forest. *)
Lemma fork_rep_intro {T} (self : ForkTree T) f :
  rep unmarked (nodes self) None None f -> first_root self = froot f -> NoDup (fids f) ->
  dom (nodes self) = list_to_set (fids f) -> fork_rep self f.
Proof.
  intros H1 H2 H3 H4. split; [done..|]. intros k. rewrite <- elem_of_dom, H4. by rewrite elem_of_list_to_set.
Qed.

Definition fork_ins (self : ForkTree Z) (new : Z) (par : option Z) : ForkTree Z :=
  match fork_insert self new par (100 + new) with Some (_, t) => t | None => self end.

(** Two roots, 0 and 4; 0 has the children 1 and 5, and 1 the children 2 and 3. *)
Definition fork_example : ForkTree Z :=
  fork_ins (fork_ins (fork_ins (fork_ins (fork_ins (fork_ins ForkTree_new 0 None) 1 (Some 0)) 2 (Some 1))
    3 (Some 1)) 4 None) 5 (Some 0).

Definition forest_example : forest Z :=
  FCons 4 104 FNil (FCons 0 100 (FCons 5 105 FNil
    (FCons 1 101 (FCons 3 103 FNil (FCons 2 102 FNil FNil)) FNil)) FNil).

Lemma fork_example_rep : fork_rep fork_example forest_example.
Proof.
  apply fork_rep_intro; [by vm_compute; auto 20 | by vm_compute | | by vm_compute].
  apply (bool_decide_unpack _). by vm_compute.
Qed.

Lemma fork_insert_spec_witness :
  fork_rep fork_example forest_example /\ nodes fork_example !! 7 = None /\
  exists self', fork_insert fork_example 7 (Some 2) 107 = Some (7, self') /\
    fork_rep self' (finsert 2 7 107 forest_example) /\
    (forall k, fork_get self' k = if decide (k = 7) then Some 107 else fork_get fork_example k).
Proof.
  split; [exact fork_example_rep|]. split; [by vm_compute|].
  apply (fork_insert_spec fork_example forest_example 7 (Some 2) 107); [exact fork_example_rep | by vm_compute |].
  intros p [= <-]. by eexists.
Defined.

Lemma iter_ancestry_order_spec_witness :
  fork_rep fork_example forest_example /\
  exists l, iter_ancestry_order fork_example = Some l /\ NoDup l.*1 /\
    (forall k d, (k, d) ∈ l <-> fork_get fork_example k = Some d) /\
    (forall idx k d p, l !! idx = Some (k, d) -> fork_parent fork_example k = Some (Some p) ->
       exists idx' d', (idx' < idx)%nat /\ l !! idx' = Some (p, d')).
Proof.
  split; [exact fork_example_rep|].
  apply (iter_ancestry_order_spec fork_example forest_example fork_example_rep).
Defined.

Lemma ascend_and_descend_spec_witness :
  fork_rep fork_example forest_example /\
  @ascend_and_descend Z platform64 fork_example 3 5 = Some ([3; 1], [5]) /\
  exists up down common,
    @ascend_and_descend Z platform64 fork_example 3 5 = Some (up, down) /\
    node_to_root_path fork_example 3 = Some (up ++ common) /\
    node_to_root_path fork_example 5 = Some (rev down ++ common) /\
    @root_to_node_path Z platform64 fork_example 5 = Some (rev common ++ down) /\
    common_ancestor fork_example 3 5 = Some (head common) /\
    (forall k, k ∈ up -> is_ancestor fork_example k 5 = Some false).
Proof.
  split; [exact fork_example_rep|]. split; [by vm_compute|].
  apply (@ascend_and_descend_spec Z platform64 fork_example forest_example 3 5);
    [exact fork_example_rep | by vm_compute | by eexists | by eexists].
Defined.
