(* ===== verification/ForkTreePrune.v ===== *)
(** * Pruning the fork tree ([src/src/chain/fork_tree.rs], [PruneAncestorsIter])

    Pruning walks over the whole tree, children first, and removes nodes while it
    goes: [prune_ancestors] keeps the descendants of the target, [prune_uncles]
    its descendants, itself and its ancestors. The walk is shown to end, to keep
    exactly these nodes with their data and their links, and to return the
    others, the ancestors of the target from child to parent. *)

From S2P Require Import Prelude BTree ForkTree.

Open Scope Z_scope.

Section prune.
Context {T : Type}.

(** The iterator; [tree] is the tree it borrows. *)
Record PruneAncestorsIter := mkPrune {
  finished : bool;
  tree : ForkTree T;
  iter : usize;
  traversing_up : bool;
  new_final : NodeIndex;
  uncles_only : bool
}.

Record PrunedNode := mkPruned {
  pn_index : NodeIndex;
  pn_is_prune_target_ancestor : bool;
  pn_user_data : T
}.

(** The loop of [prune_ancestors_inner]: the target and its ancestors are
    marked. *)
Fixpoint mark_ancestors (fuel : nat) (uncles_only : bool) (self : ForkTree T) (node : usize)
    : option (ForkTree T) :=
  match fuel with
  | O => None
  | S fuel =>
      let! m := update_node node (set_prune true) (nodes self) in
      let self := {| nodes := m; first_root := if uncles_only then Some node else first_root self |} in
      let! n := m !! node in
      match parent n with
      | Some n => mark_ancestors fuel uncles_only self n
      | None => Some self
      end
  end.

Definition prune_ancestors_inner (self : ForkTree T) (node_index : NodeIndex) (uncles_only : bool)
    : option PruneAncestorsIter :=
  let! iter := first_root self in
  let! self := mark_ancestors (size (nodes self)) uncles_only self node_index in
  let! self :=
    if negb uncles_only then
      let! n := nodes self !! node_index in
      Some {| nodes := nodes self; first_root := first_child n |}
    else Some self in
  Some {| finished := false; tree := self; uncles_only := uncles_only; new_final := node_index;
          iter := iter; traversing_up := false |}.

(** The state with new nodes and a new position. *)
Definition prune_with (self : PruneAncestorsIter) (m : gmap Z (Node T)) (it : usize) (up fin : bool)
    : PruneAncestorsIter :=
  {| finished := fin; tree := {| nodes := m; first_root := first_root (tree self) |};
     iter := it; traversing_up := up; new_final := new_final self; uncles_only := uncles_only self |}.

(** One turn of the loop of [next], on an iterator that is not finished: the new
    state, and the node that ends the loop if one was removed. *)
Definition prune_turn (self : PruneAncestorsIter) : option (PruneAncestorsIter * option PrunedNode) :=
  let m := nodes (tree self) in
  let! iter_node := m !! iter self in
  if bool_decide (parent iter_node = Some (new_final self)) then
    let m := if negb (uncles_only self) then <[iter self := set_parent None iter_node]> m else m in
    match next_sibling iter_node with
    | Some next_sibling => Some (prune_with self m next_sibling (traversing_up self) false, None)
    | None => Some (prune_with self m (new_final self) true false, None)
    end
  else
    match traversing_up self, first_child iter_node with
    | false, Some first_child => Some (prune_with self m first_child false false, None)
    | _, _ =>
        let index := iter self in
        let '(it, up, fin) :=
          match next_sibling iter_node, parent iter_node with
          | Some next_sibling, _ => (next_sibling, false, false)
          | None, Some parent => (parent, true, false)
          | None, None => (iter self, traversing_up self, true)
          end in
        if uncles_only self && is_prune_target_ancestor iter_node then
          let m := <[index := set_previous_sibling None (set_next_sibling None (set_prune false iter_node))]> m in
          let! m :=
            match previous_sibling iter_node, parent iter_node with
            | Some _, Some parent => update_node parent (set_first_child (Some index)) m
            | _, _ => Some m
            end in
          Some (prune_with self m it up fin, None)
        else
          Some (prune_with self (delete index m) it up fin,
                Some {| pn_index := index;
                        pn_is_prune_target_ancestor := is_prune_target_ancestor iter_node;
                        pn_user_data := data iter_node |})
    end.

(** [PruneAncestorsIter::next]. *)
Fixpoint prune_next (fuel : nat) (self : PruneAncestorsIter)
    : option (option PrunedNode * PruneAncestorsIter) :=
  if finished self then Some (None, self)
  else
    match fuel with
    | O => None
    | S fuel =>
        let! (self, out) := prune_turn self in
        match out with
        | Some pruned => Some (Some pruned, self)
        | None => prune_next fuel self
        end
    end.

(** [next] called until the end, as [drop] does: the nodes removed and the tree. *)
Fixpoint prune_drop (fuel turns : nat) (self : PruneAncestorsIter)
    : option (list PrunedNode * ForkTree T) :=
  match fuel with
  | O => None
  | S fuel =>
      let! (out, self) := prune_next turns self in
      match out with
      | None => Some ([], tree self)
      | Some pruned =>
          let! (rest, t) := prune_drop fuel turns self in
          Some (pruned :: rest, t)
      end
  end.

(** A node is visited at most twice, and removed at most once. *)
Definition prune_all (self : ForkTree T) (node_index : NodeIndex) (uncles_only : bool)
    : option (list PrunedNode * ForkTree T) :=
  let! it := prune_ancestors_inner self node_index uncles_only in
  prune_drop (S (size (nodes self))) (S (2 * size (nodes self))) it.

Definition prune_ancestors (self : ForkTree T) (node_index : NodeIndex) : option (list PrunedNode * ForkTree T) :=
  prune_all self node_index false.

Definition prune_uncles (self : ForkTree T) (node_index : NodeIndex) : option (list PrunedNode * ForkTree T) :=
  prune_all self node_index true.

End prune.

Arguments PruneAncestorsIter : clear implicits.
Arguments PrunedNode : clear implicits.

(** ** Pruning *)

Section pruning.
Context {T : Type}.
Implicit Types (f cs sib : forest T) (m : gmap Z (Node T)) (s : PruneAncestorsIter T).

(** [prune_run k s outs s']: [k] turns lead from [s] to [s'] and remove [outs]. *)
Inductive prune_run : nat -> PruneAncestorsIter T -> list (PrunedNode T) -> PruneAncestorsIter T -> Prop :=
  | run_nil s : prune_run 0 s [] s
  | run_turn k s s1 out outs s2 :
      finished s = false -> prune_turn s = Some (s1, out) -> prune_run k s1 outs s2 ->
      prune_run (S k) s (match out with Some o => o :: outs | None => outs end) s2.

Lemma prune_run_app k1 k2 s o1 s1 o2 s2 :
  prune_run k1 s o1 s1 -> prune_run k2 s1 o2 s2 -> prune_run (k1 + k2) s (o1 ++ o2) s2.
Proof.
  induction 1 as [|k s s1 out outs s2' Hf Ht Hr IH]; intros H2; [done|].
  apply IH in H2. pose proof (run_turn _ _ _ out _ _ Hf Ht H2) as H3. by destruct out.
Qed.

Lemma prune_run_one s s1 out :
  finished s = false -> prune_turn s = Some (s1, out) -> prune_run 1 s (option_list out) s1.
Proof. intros Hf Ht. pose proof (run_turn _ _ _ out _ _ Hf Ht (run_nil s1)). by destruct out. Qed.

(** A run to the end is what [next] and [drop] compute, with enough fuel. *)
Lemma prune_next_run k s outs s2 turns :
  prune_run k s outs s2 -> finished s2 = true -> (k <= turns)%nat ->
  match outs with
  | [] => prune_next turns s = Some (None, s2)
  | o :: outs' => exists k' s1, prune_next turns s = Some (Some o, s1) /\ prune_run k' s1 outs' s2 /\ (k' <= k)%nat
  end.
Proof.
  intros Hr. revert turns. induction Hr as [s|k s s1 out outs s2 Hf Ht Hr IH]; intros turns Hfin Hle.
  - by destruct turns; cbn; rewrite Hfin.
  - destruct turns as [|turns]; [lia|]. destruct out as [o|]; cbn; rewrite Hf, Ht; cbn.
    + exists k, s1. split; [done|]. split; [done|lia].
    + specialize (IH turns Hfin ltac:(lia)). destruct outs as [|o outs]; [done|].
      destruct IH as (k' & s' & H1 & H2 & H3). exists k', s'. split; [done|]. split; [done|lia].
Qed.

Lemma prune_drop_run k s outs s2 fuel turns :
  prune_run k s outs s2 -> finished s2 = true -> (k <= turns)%nat -> (length outs < fuel)%nat ->
  prune_drop fuel turns s = Some (outs, tree s2).
Proof.
  intros Hr Hfin. revert k s fuel Hr. induction outs as [|o outs IH]; intros k s fuel Hr Hk Hlen;
    (destruct fuel as [|fuel]; [cbn in Hlen; lia|]);
    pose proof (prune_next_run _ _ _ _ turns Hr Hfin Hk) as Hn; cbn [prune_drop].
  - rewrite Hn. done.
  - destruct Hn as (k' & s1 & -> & Hr1 & Hk'). cbn. cbn in Hlen.
    rewrite (IH k' s1 fuel) by (done || lia). done.
Qed.

Context (fr : option Z) (t : Z) (u : bool).

(** The state of a pruning of [t]. *)
Definition st m (it : Z) (up fin : bool) : PruneAncestorsIter T :=
  mkPrune fin (mkForkTree m fr) it up t u.

(** The state in which the children of [par] are left. *)
Definition exit_st m (par : option Z) s : Prop :=
  match par with
  | Some p => s = st m p true false
  | None => exists it up, s = st m it up true
  end.

(** The state in which the siblings [sib] are entered. *)
Definition enter_st m (par : option Z) sib s : Prop :=
  match froot sib with Some j => s = st m j false false | None => exit_st m par s end.

(** The node [i] is visited, and its children are done. *)
Definition done_st m (i : Z) (fc : option Z) s : Prop :=
  exists up, s = st m i up false /\ (up = true \/ fc = None).

Definition item (o : PrunedNode T) : Z * T := (pn_index o, pn_user_data o).

Lemma turn_down m i n j :
  m !! i = Some n -> parent n <> Some t -> first_child n = Some j ->
  prune_run 1 (st m i false false) [] (st m j false false).
Proof.
  intros Hi Hp Hj. apply (prune_run_one _ _ None); [done|]. unfold prune_turn, st. cbn. rewrite Hi. cbn.
  rewrite bool_decide_eq_false_2 by done. by rewrite Hj.
Qed.

(** Where the walk goes after the node [i]. *)
Definition after_st m (i : Z) (up : bool) (par next : option Z) : PruneAncestorsIter T :=
  match next, par with
  | Some j, _ => st m j false false
  | None, Some p => st m p true false
  | None, None => st m i up true
  end.

Lemma after_enter m i up par sib : enter_st m par sib (after_st m i up par (froot sib)).
Proof. unfold enter_st, exit_st, after_st. destruct sib; cbn; [destruct par; eauto|done]. Qed.

(** A node whose children are done is removed, and the walk goes on. *)
Lemma turn_remove m i par fc sib prev flag d s :
  m !! i = Some (mkNode par fc (froot sib) prev flag d) -> par <> Some t -> u && flag = false ->
  done_st m i fc s ->
  exists s', prune_run 1 s [mkPruned i flag d] s' /\ enter_st (delete i m) par sib s'.
Proof.
  intros Hi Hp Hu (up & -> & Hup).
  assert (Hfc : up = false -> fc = None) by (destruct Hup; congruence).
  exists (after_st (delete i m) i up par (froot sib)). split; [|apply after_enter].
  apply (prune_run_one _ _ (Some _)); [done|]. unfold prune_turn, st. cbn. rewrite Hi. cbn.
  rewrite bool_decide_eq_false_2 by done. rewrite Hu. unfold after_st.
  destruct up; [|rewrite Hfc by done]; destruct (froot sib), par; reflexivity.
Qed.

(** The target and its ancestors are kept when only the uncles are pruned. *)
Lemma turn_keep m i par fc sib prev d s :
  m !! i = Some (mkNode par fc (froot sib) prev true d) -> par <> Some t -> par <> Some i -> u = true ->
  (forall p, par = Some p -> is_Some (m !! p)) -> done_st m i fc s ->
  exists s' m', prune_run 1 s [] s' /\ enter_st m' par sib s' /\
    m' !! i = Some (mkNode par fc None None false d) /\
    (forall k, k <> i -> par <> Some k -> m' !! k = m !! k) /\
    (forall p, par = Some p -> m' !! p =
       match prev with Some _ => set_first_child (Some i) <$> m !! p | None => m !! p end).
Proof.
  intros Hi Hp Hpi Hu Hpar (up & -> & Hup).
  assert (Hfc : up = false -> fc = None) by (destruct Hup; congruence).
  assert (Huu : u && true = true) by (by rewrite Hu).
  set (n' := mkNode par fc None None false d).
  set (m' := match prev, par with
             | Some _, Some p => match m !! p with
                                 | Some pn => <[p := set_first_child (Some i) pn]> (<[i := n']> m)
                                 | None => m end
             | _, _ => <[i := n']> m end).
  exists (after_st m' i up par (froot sib)), m'. split; [|split; [apply after_enter|]].
  - apply (prune_run_one _ _ None); [done|]. unfold prune_turn, st. cbn. rewrite Hi. cbn.
    rewrite bool_decide_eq_false_2 by done. rewrite Huu. unfold after_st, m'. cbn.
    destruct prev as [q|], par as [p|];
      [destruct (Hpar p eq_refl) as [pn Hpn]; unfold update_node;
       rewrite lookup_insert_ne, Hpn by congruence | ..];
      (destruct up, fc; [| |by specialize (Hfc eq_refl)|]; destruct (froot sib); reflexivity).
  - unfold m'. destruct par as [p|].
    + destruct (Hpar p eq_refl) as [pn Hpn]. rewrite Hpn. split_and!.
      * destruct prev; [rewrite lookup_insert_ne by congruence|]; by rewrite lookup_insert_eq.
      * intros k ? ?. destruct prev; by rewrite !lookup_insert_ne by congruence.
      * intros ? [= <-]. rewrite Hpn. destruct prev; [by rewrite lookup_insert_eq|].
        by rewrite lookup_insert_ne by congruence.
    + split_and!; [destruct prev; by rewrite lookup_insert_eq | | done].
      intros k ? _. destruct prev; by rewrite lookup_insert_ne by congruence.
Qed.

(** *** Subtrees without the target are removed *)

Definition removed m m' (l : list Z) : Prop :=
  (forall k, k ∈ l -> m' !! k = None) /\ (forall k, k ∉ l -> m' !! k = m !! k).

Definition clean (fl : Z -> bool) f : Prop := forall k, k ∈ fids f -> k <> t /\ fl k = false.

Definition clean_run fl m par f : Prop :=
  forall prev s, rep fl m par prev f -> NoDup (fids f) -> clean fl f -> par <> Some t -> enter_st m par f s ->
  exists k m' outs s', prune_run k s outs s' /\ (k <= 2 * length (fids f))%nat /\ exit_st m' par s' /\
    removed m m' (fids f) /\ (item <$> outs) ≡ₚ fitems f /\
    Forall (fun o => pn_is_prune_target_ancestor o = false) outs.

(** Down into the children of an unmarked node and back. *)
Lemma children_clean fl m i n cs :
  (forall m' par, clean_run fl m' par cs) ->
  m !! i = Some n -> parent n <> Some t -> first_child n = froot cs -> i <> t -> i ∉ fids cs ->
  rep fl m (Some i) None cs -> NoDup (fids cs) -> clean fl cs ->
  exists k m' outs s', prune_run k (st m i false false) outs s' /\ (k <= 1 + 2 * length (fids cs))%nat /\
    done_st m' i (froot cs) s' /\ removed m m' (fids cs) /\ (item <$> outs) ≡ₚ fitems cs /\
    Forall (fun o => pn_is_prune_target_ancestor o = false) outs.
Proof.
  intros IH Hi Hp Hfc Hit Hics Hrep Hnd Hcl. destruct (froot cs) as [j|] eqn:Ej.
  - destruct (IH m (Some i) None (st m j false false)) as (k & m' & outs & s' & Hr & Hk & Hex & Hrest);
      [done..|congruence|unfold enter_st; by rewrite Ej|].
    exists (S k), m', outs, s'. split; [|split; [lia|split; [|done]]].
    + apply (prune_run_app 1 k _ [] _ _ _ (turn_down m i n j Hi Hp Hfc) Hr).
    + exists true. cbn in Hex. eauto.
  - destruct cs; [|done]. exists 0%nat, m, [], (st m i false false). split; [constructor|].
    split; [lia|]. split; [by exists false; eauto|]. split; [|done].
    split; [by intros ? ?%elem_of_nil|done].
Qed.

Lemma clean_runs fl f : forall m par, clean_run fl m par f.
Proof.
  induction f as [|i d cs IH1 sib IH2]; intros m par prev s Hrep Hnd Hcl Hpar Hen.
  - exists 0%nat, m, [], s. split; [constructor|]. split; [lia|]. split; [done|]. split; [|done].
    split; [by intros ? ?%elem_of_nil|done].
  - cbn in Hen. subst s. pose proof Hrep as (Hi & Hcs & Hsib).
    apply fids_nodup in Hnd as ([Hics Hisib] & Hn1 & Hn2 & Hdisj).
    assert (Hc : (i <> t /\ fl i = false) /\ clean fl cs /\ clean fl sib).
    { unfold clean in *. rewrite fids_cons in Hcl. set_solver. }
    destruct Hc as ([Hit Hfl] & Hcl1 & Hcl2). rewrite fids_cons, Hfl in *.
    edestruct (children_clean fl m i _ cs IH1 Hi) as (k1 & m1 & o1 & s1 & Hr1 & Hk1 & Hd1 & Hrm1 & Ho1 & Hf1);
      [done..|].
    destruct (turn_remove m1 i par (froot cs) sib prev false d s1) as (s2 & Hr2 & Hen2);
      [by rewrite (proj2 Hrm1) | done | by rewrite andb_false_r | done |].
    destruct (IH2 (delete i m1) par (Some i) s2) as (k3 & m3 & o3 & s3 & Hr3 & Hk3 & Hex3 & Hrm3 & Ho3 & Hf3);
      [ | done..|].
    { eapply rep_ext; [|done]. intros k Hk. split; [|done]. rewrite lookup_delete_ne by congruence.
      symmetry. apply (proj2 Hrm1). intros ?. by apply (Hdisj k). }
    exists (k1 + (1 + k3))%nat, m3, (o1 ++ [mkPruned i false d] ++ o3), s3.
    split; [by eapply prune_run_app; [|eapply prune_run_app]|].
    split; [cbn; rewrite length_app; lia|]. split; [done|]. split; [|split].
    + split.
      * intros k [->|[Hk|Hk]%elem_of_app]%elem_of_cons; [| |by apply Hrm3].
        -- rewrite (proj2 Hrm3) by done. apply lookup_delete_eq.
        -- rewrite (proj2 Hrm3) by (by apply Hdisj). rewrite lookup_delete_ne by congruence. by apply Hrm1.
      * intros k. rewrite not_elem_of_cons, not_elem_of_app. intros (? & ? & ?).
        rewrite (proj2 Hrm3), lookup_delete_ne by done. by apply Hrm1.
    + rewrite !fmap_app. cbn. rewrite Ho1, Ho3. unfold item at 1. cbn. by rewrite Permutation_middle.
    + apply Forall_app. split; [done|]. by constructor.
Qed.

(** *** The target and its ancestors *)

Definition kept f : forest T := if u then funcles t f else fchildren t f.
Definition new_parent (par : option Z) : option Z := if u then par else None.

(** The children of the target stay, and lose their parent if it is removed. *)
Lemma kids_run fl m prev cs j :
  rep fl m (Some t) prev cs -> NoDup (fids cs) -> froot cs = Some j ->
  exists k m', prune_run k (st m j false false) [] (st m' t true false) /\ (k <= length (fids cs))%nat /\
    (forall k, k ∉ fids cs -> m' !! k = m !! k) /\ rep fl m' (new_parent (Some t)) prev cs.
Proof.
  revert m prev j. induction cs as [|i d cs _ sib IH]; intros m prev j; [done|].
  intros Hrep Hnd [= <-]. pose proof Hrep as (Hi & Hcs & Hsib).
  apply fids_nodup in Hnd as ([Hics Hisib] & Hn1 & Hn2 & Hdisj).
  set (n := mkNode (Some t) (froot cs) (froot sib) prev (fl i) d) in *.
  set (m1 := if negb u then <[i := set_parent None n]> m else m).
  assert (Hturn : prune_turn (st m i false false) =
            Some (match froot sib with Some j => st m1 j false false | None => st m1 t true false end, None)).
  { unfold prune_turn, st. cbn. rewrite Hi. cbn. rewrite bool_decide_eq_true_2 by done. by destruct (froot sib). }
  assert (Hm1 : forall k, k <> i -> m1 !! k = m !! k).
  { intros k ?. unfold m1. destruct u; [done|]. by apply lookup_insert_ne. }
  assert (Hi1 : m1 !! i = Some (mkNode (new_parent (Some t)) (froot cs) (froot sib) prev (fl i) d)).
  { unfold m1, new_parent. destruct u; [done|]. apply lookup_insert_eq. }
  apply prune_run_one in Hturn; [|done]. rewrite fids_cons. cbn [length]. rewrite length_app. cbn [option_list] in Hturn.
  assert (Hcs1 : forall m', (forall k, k ∉ fids sib -> m' !! k = m1 !! k) -> rep fl m' (Some i) None cs).
  { intros m' Hm'. eapply rep_ext; [|exact Hcs]. intros k Hk. split; [|done].
    rewrite Hm', Hm1 by (by apply Hdisj || congruence). done. }
  destruct (froot sib) as [j|] eqn:Ej.
  - destruct (IH m1 (Some i) j) as (k & m' & Hr & Hk & Hm' & Hrep'); [|done..|].
    { eapply rep_ext; [|exact Hsib]. intros k Hk. split; [|done]. symmetry. apply Hm1. congruence. }
    exists (1 + k)%nat, m'. split; [apply (prune_run_app _ _ _ [] _ [] _ Hturn Hr)|]. split; [lia|]. split.
    + intros k'. rewrite not_elem_of_cons, not_elem_of_app. intros (? & ? & ?). rewrite Hm', Hm1 by done. done.
    + cbn [rep]. rewrite Hm', Hi1, Ej by done. auto.
  - destruct sib; [|done]. exists 1%nat, m1. split; [done|]. split; [lia|]. split.
    + intros k'. rewrite not_elem_of_cons. intros (? & _). by apply Hm1.
    + cbn [rep]. rewrite Hi1. split; [done|]. split; [|done]. by apply Hcs1.
Qed.

(** What happens to the parent of the nodes of a level that has the target below
    it: when the uncles are pruned its only child is [first]. *)
Definition parent_relinked (first par : option Z) m m' : Prop :=
  forall p pn, par = Some p -> m !! p = Some pn ->
    m' !! p = Some (if u then set_first_child first pn else pn).

Definition parent_ready (par prev first : option Z) m (l : list Z) : Prop :=
  par <> Some t /\
  forall p, par = Some p -> p ∉ l /\ exists pn, m !! p = Some pn /\ (prev = None -> first_child pn = first).

(** A marked node whose children are done, and then its siblings. *)
Lemma ancestor_tail fl m i par fc sib prev d s :
  m !! i = Some (mkNode par fc (froot sib) prev true d) -> done_st m i fc s ->
  rep fl m par (Some i) sib -> clean fl sib -> NoDup (fids sib) -> i ∉ fids sib ->
  parent_ready par prev (Some i) m (i :: fids sib) ->
  exists k m' outs s',
    prune_run k s ((if u then [] else [mkPruned i true d]) ++ outs) s' /\
    (k <= 1 + 2 * length (fids sib))%nat /\ exit_st m' par s' /\
    m' !! i = (if u then Some (mkNode par fc None None false d) else None) /\
    (forall k, k ∈ fids sib -> m' !! k = None) /\
    (forall k, k ∉ i :: fids sib -> par <> Some k -> m' !! k = m !! k) /\
    parent_relinked (Some i) par m m' /\
    (item <$> outs) ≡ₚ fitems sib /\ Forall (fun o => pn_is_prune_target_ancestor o = false) outs.
Proof.
  intros Hi Hdone Hrep Hcl Hnd Hisib [Hpt Hpar].
  assert (Hturn : exists s1 m1, prune_run 1 s (if u then [] else [mkPruned i true d]) s1 /\
            enter_st m1 par sib s1 /\ m1 !! i = (if u then Some (mkNode par fc None None false d) else None) /\
            (forall k, k <> i -> par <> Some k -> m1 !! k = m !! k) /\ parent_relinked (Some i) par m m1).
  { destruct (bool_dec u true) as [Hu|Hu].
    - destruct (turn_keep m i par fc sib prev d s) as (s1 & m1 & H1 & H2 & H3 & H4 & H5); [done|done| |done| |done|].
      + intros Hp. destruct (Hpar i Hp) as [Hn _]. apply Hn. by left.
      + intros p Hp. destruct (Hpar p Hp) as (_ & pn & Hpn & _). eauto.
      + exists s1, m1. rewrite Hu. split; [done|]. split; [done|]. split; [done|]. split; [done|].
        intros p pn Hp Hpn. rewrite Hu, (H5 p Hp), Hpn. destruct (Hpar p Hp) as (_ & pn' & Hpn' & Hfc).
        destruct prev; [done|]. f_equal. assert (pn' = pn) as -> by congruence.
        destruct pn. cbn in *. unfold set_first_child. cbn. by rewrite Hfc.
    - apply not_true_is_false in Hu. rewrite Hu.
      destruct (turn_remove m i par fc sib prev true d s) as (s1 & H1 & H2); [done|done|by rewrite Hu|done|].
      exists s1, (delete i m). split; [done|]. split; [done|]. split; [apply lookup_delete_eq|]. split.
      + intros k ? _. by apply lookup_delete_ne.
      + intros p pn Hp Hpn. rewrite Hu. rewrite lookup_delete_ne; [done|]. intros ->.
        destruct (Hpar p Hp) as [Hn _]. apply Hn. by left. }
  destruct Hturn as (s1 & m1 & Hr1 & Hen1 & Hi1 & Hm1 & Hrel1).
  destruct (clean_runs fl sib m1 par (Some i) s1) as (k2 & m2 & o2 & s2 & Hr2 & Hk2 & Hex2 & [Hrm2 Hm2] & Ho2 & Hf2);
    [|done..|].
  { eapply rep_ext; [|done]. intros k Hk. split; [|done]. symmetry. apply Hm1; [congruence|].
    intros Hp. destruct (Hpar k Hp) as [Hn _]. apply Hn. by right. }
  exists (1 + k2)%nat, m2, o2, s2. split; [by eapply prune_run_app|]. split; [lia|]. split; [done|].
  split; [by rewrite Hm2|]. split; [done|]. split; [|split; [|done]].
  - intros k [? ?]%not_elem_of_cons ?. by rewrite Hm2, Hm1.
  - intros p pn Hp Hpn. rewrite Hm2; [by apply Hrel1|]. destruct (Hpar p Hp) as [Hn _]. by apply not_elem_of_cons in Hn as [_ ?].
Qed.

(** The state after the level of [f], which has the target in it or below. *)
Definition level_done m par f path s : Prop :=
  exists k m' outs s', prune_run k s outs s' /\ (k <= 2 * length (fids f))%nat /\ exit_st m' par s' /\
    rep unmarked m' (new_parent par) None (kept f) /\
    (forall k, k ∈ fids f -> k ∉ fids (kept f) -> m' !! k = None) /\
    (forall k, k ∉ fids f -> par <> Some k -> m' !! k = m !! k) /\
    parent_relinked (froot (kept f)) par m m' /\
    fitems f ≡ₚ (item <$> outs) ++ fitems (kept f) /\
    (pn_index <$> filter (fun o => pn_is_prune_target_ancestor o = true) outs) = (if u then [] else path).

Lemma filter_unflagged (outs : list (PrunedNode T)) :
  Forall (fun o => pn_is_prune_target_ancestor o = false) outs ->
  filter (fun o => pn_is_prune_target_ancestor o = true) outs = [].
Proof.
  induction 1 as [|o outs Ho _ IH]; [done|]. rewrite filter_cons, decide_False by congruence. done.
Qed.

Lemma kept_sub (outs : list (Z * T)) f g k : fitems f ≡ₚ outs ++ fitems g -> k ∈ fids g -> k ∈ fids f.
Proof. intros Hp Hk. unfold fids in *. rewrite Hp, fmap_app. apply elem_of_app. by right. Qed.

(** The level of the target. *)
Lemma level_target fl m par prev d cs sib :
  rep fl m par prev (FCons t d cs sib) -> NoDup (fids (FCons t d cs sib)) ->
  (forall k, k ∈ fids (FCons t d cs sib) -> fl k = bool_decide (k ∈ [t])) ->
  parent_ready par prev (Some t) m (fids (FCons t d cs sib)) ->
  level_done m par (FCons t d cs sib) [t] (st m t false false).
Proof.
  intros (Hi & Hcs & Hsib) ([Hics Hisib] & Hn1 & Hn2 & Hdisj)%fids_nodup Hfl [Hpt Hpar].
  rewrite fids_cons in Hfl, Hpar.
  assert (Hfalse : forall k, k ∈ fids cs ++ fids sib -> k <> t /\ fl k = false).
  { intros k Hk. assert (k <> t) by (apply elem_of_app in Hk; naive_solver). split; [done|].
    rewrite Hfl by (by right). apply bool_decide_eq_false_2. by intros ?%list_elem_of_singleton. }
  assert (Hflt : fl t = true) by (rewrite Hfl by (by left); by apply bool_decide_eq_true_2; left).
  assert (Hkids : exists k1 m1 s1, prune_run k1 (st m t false false) [] s1 /\ (k1 <= 1 + length (fids cs))%nat /\
            done_st m1 t (froot cs) s1 /\ (forall k, k ∉ fids cs -> m1 !! k = m !! k) /\
            rep fl m1 (new_parent (Some t)) None cs).
  { destruct (froot cs) as [j|] eqn:Ej.
    - destruct (kids_run fl m None cs j) as (k1 & m1 & Hr & Hk & Hm1 & Hrep1); [done..|].
      exists (1 + k1)%nat, m1, (st m1 t true false). split; [|split; [lia|]].
      + eapply (prune_run_app 1 k1 _ [] _ []); [eapply turn_down; [exact Hi|done|done]|done].
      + split; [by exists true; eauto|done].
    - destruct cs; [|done]. exists 0%nat, m, (st m t false false). split; [constructor|]. split; [lia|].
      split; [by exists false; eauto|done]. }
  destruct Hkids as (k1 & m1 & s1 & Hr1 & Hk1 & Hd1 & Hm1 & Hrep1). rewrite Hflt in Hi.
  destruct (ancestor_tail fl m1 t par (froot cs) sib prev d s1)
    as (k2 & m2 & o2 & s2 & Hr2 & Hk2 & Hex2 & Hi2 & Hrm2 & Hm2 & Hrel2 & Ho2 & Hf2).
  { by rewrite Hm1. } { done. }
  { eapply rep_ext; [|done]. intros k Hk. split; [|done]. symmetry. apply Hm1. intros ?. by apply (Hdisj k). }
  { intros k Hk. apply Hfalse, elem_of_app. by right. } { done. } { done. }
  { split; [done|]. intros p Hp. destruct (Hpar p Hp) as (Hn & pn & Hpn & Hfc).
    rewrite not_elem_of_cons, not_elem_of_app in Hn. destruct Hn as (? & ? & ?). split; [by apply not_elem_of_cons|].
    exists pn. by rewrite Hm1. }
  assert (Hcs2 : forall q, rep fl m1 q None cs -> rep unmarked m2 q None cs).
  { intros q. apply rep_ext. intros k Hk. split.
    - symmetry. apply Hm2; [rewrite not_elem_of_cons; split; [congruence|by apply Hdisj]|].
      intros Hp. destruct (Hpar k Hp) as [Hn _]. apply Hn. right. apply elem_of_app. by left.
    - apply Hfalse, elem_of_app. by left. }
  exists (k1 + k2)%nat, m2, ([] ++ (if u then [] else [mkPruned t true d]) ++ o2), s2.
  assert (Hkept : kept (FCons t d cs sib) = if u then FCons t d cs FNil else cs).
  { unfold kept. cbn. by rewrite Z.eqb_refl. }
  unfold new_parent in Hrep1. rewrite Hkept, fids_cons.
  split; [by eapply prune_run_app|]. split; [cbn; rewrite length_app; lia|]. split; [done|].
  split; [|split; [|split; [|split; [|split]]]].
  - unfold new_parent. destruct u; [|by apply Hcs2]. cbn. split; [done|]. split; [by apply Hcs2|done].
  - intros k [->|[Hk|Hk]%elem_of_app]%elem_of_cons Hnk; [| |by apply Hrm2].
    + destruct u; [|done]. rewrite fids_cons in Hnk. destruct Hnk. by left.
    + destruct u; [|done]. rewrite fids_cons in Hnk. destruct Hnk. right. apply elem_of_app. by left.
  - intros k. rewrite not_elem_of_cons, not_elem_of_app. intros (? & ? & ?) ?.
    rewrite Hm2, Hm1; [done|done|by apply not_elem_of_cons|done].
  - intros p pn Hp Hpn. destruct (Hpar p Hp) as (Hn & _). rewrite not_elem_of_cons, not_elem_of_app in Hn.
    destruct Hn as (? & ? & ?). rewrite (Hrel2 p pn Hp) by (by rewrite Hm1). by destruct u.
  - destruct u; cbn; rewrite Ho2; cbn; rewrite ?app_nil_r, <- ?Permutation_middle;
      by rewrite (Permutation_app_comm (fitems sib)).
  - cbn [app]. rewrite filter_app, (filter_unflagged o2), app_nil_r by done. by destruct u.
Qed.

(** A level with the target below its first node. *)
Lemma level_below fl m par prev i d cs sib path' :
  i <> t -> fpath t cs = Some path' ->
  (forall m' s', rep fl m' (Some i) None cs -> parent_ready (Some i) None (froot cs) m' (fids cs) ->
     enter_st m' (Some i) cs s' -> level_done m' (Some i) cs path' s') ->
  rep fl m par prev (FCons i d cs sib) -> NoDup (fids (FCons i d cs sib)) ->
  (forall k, k ∈ fids (FCons i d cs sib) -> fl k = bool_decide (k ∈ path' ++ [i])) ->
  parent_ready par prev (Some i) m (fids (FCons i d cs sib)) ->
  level_done m par (FCons i d cs sib) (path' ++ [i]) (st m i false false).
Proof.
  intros Hit Hpath IH (Hi & Hcs & Hsib) ([Hics Hisib] & Hn1 & Hn2 & Hdisj)%fids_nodup Hfl [Hpt Hpar].
  rewrite fids_cons in Hfl, Hpar. destruct (fpath_sub _ _ _ Hpath) as [Hsub _].
  assert (Hfli : fl i = true).
  { rewrite Hfl by (by left). apply bool_decide_eq_true_2, elem_of_app. right. by left. }
  assert (Hclean : clean fl sib).
  { intros k Hk. assert (k ∉ path' ++ [i]).
    { intros [?| ->%list_elem_of_singleton]%elem_of_app; [|done]. apply (Hdisj k); auto. }
    split.
    - intros ->. apply (Hdisj t); [|done]. apply fpath_is_Some. eauto.
    - rewrite Hfl by (right; apply elem_of_app; by right). by apply bool_decide_eq_false_2. }
  destruct (froot cs) as [j|] eqn:Ej; [|by destruct cs].
  destruct (IH m (st m j false false)) as (k1 & m1 & o1 & s1 & Hr1 & Hk1 & Hex1 & Hrep1 & Hrm1 & Hm1 & Hrel1 & Ho1 & Hf1).
  { done. }
  { split; [congruence|]. intros ? [= <-]. split; [done|]. eexists. split; [exact Hi|]. done. }
  { unfold enter_st. by rewrite Ej. }
  cbn in Hex1. subst s1. rewrite Hfli in Hi. pose proof (Hrel1 i _ eq_refl Hi) as Hi1.
  set (fc := if u then froot (kept cs) else Some j).
  assert (Hi1' : m1 !! i = Some (mkNode par fc (froot sib) prev true d)).
  { rewrite Hi1. unfold fc. by destruct u. }
  destruct (ancestor_tail fl m1 i par fc sib prev d (st m1 i true false))
    as (k2 & m2 & o2 & s2 & Hr2 & Hk2 & Hex2 & Hi2 & Hrm2 & Hm2 & Hrel2 & Ho2 & Hf2).
  { done. } { by exists true; eauto. }
  { eapply rep_ext; [|done]. intros k Hk. split; [|done]. symmetry. apply Hm1; [|congruence].
    intros ?. by apply (Hdisj k). }
  { done. } { done. } { done. }
  { split; [done|]. intros p Hp. destruct (Hpar p Hp) as (Hn & pn & Hpn & Hfc).
    rewrite not_elem_of_cons, not_elem_of_app in Hn. destruct Hn as (? & ? & ?). split; [by apply not_elem_of_cons|].
    exists pn. rewrite Hm1 by (done || congruence). done. }
  assert (Hksub : forall k, k ∈ fids (kept cs) -> k ∈ fids cs) by (intros k; by eapply kept_sub).
  assert (Hcs2 : forall q, rep unmarked m1 q None (kept cs) -> rep unmarked m2 q None (kept cs)).
  { intros q. apply rep_ext. intros k Hk%Hksub. split; [|done]. symmetry.
    apply Hm2; [rewrite not_elem_of_cons; split; [congruence|by apply Hdisj]|].
    intros Hp. destruct (Hpar k Hp) as [Hn _]. apply Hn. right. apply elem_of_app. by left. }
  exists (1 + (k1 + k2))%nat, m2, ([] ++ o1 ++ (if u then [] else [mkPruned i true d]) ++ o2), s2.
  assert (Hkept : kept (FCons i d cs sib) = if u then FCons i d (kept cs) FNil else kept cs).
  { unfold kept. cbn. rewrite (proj2 (Z.eqb_neq i t)), Hpath by done. by destruct u. }
  rewrite Hkept, fids_cons. unfold new_parent in *.
  split; [eapply prune_run_app; [|by eapply prune_run_app]; by eapply turn_down|].
  split; [cbn [length]; rewrite length_app; lia|]. split; [done|].
  split; [|split; [|split; [|split; [|split]]]].
  - destruct u; [|by apply Hcs2]. cbn. split; [done|]. split; [by apply Hcs2|done].
  - intros k [->|[Hk|Hk]%elem_of_app]%elem_of_cons Hnk; [| |by apply Hrm2].
    + destruct u; [|done]. rewrite fids_cons in Hnk. destruct Hnk. by left.
    + assert (k ∉ fids (kept cs)).
      { intros ?. apply Hnk. destruct u; [|done]. rewrite fids_cons. right. apply elem_of_app. by left. }
      rewrite Hm2; [auto| |].
      * rewrite not_elem_of_cons. split; [congruence|by apply Hdisj].
      * intros Hp. destruct (Hpar k Hp) as [Hn _]. apply Hn. right. apply elem_of_app. by left.
  - intros k. rewrite not_elem_of_cons, not_elem_of_app. intros (? & ? & ?) ?.
    rewrite Hm2, Hm1; [done|done|congruence|by apply not_elem_of_cons|done].
  - intros p pn Hp Hpn. destruct (Hpar p Hp) as (Hn & _). rewrite not_elem_of_cons, not_elem_of_app in Hn.
    destruct Hn as (? & ? & ?). rewrite (Hrel2 p pn Hp) by (rewrite Hm1 by (done || congruence); done). by destruct u.
  - rewrite !fmap_app. cbn [fitems]. rewrite Ho1, Ho2. destruct u; cbn; rewrite ?app_nil_r.
    + rewrite <- Permutation_middle, <- !app_assoc. by rewrite (Permutation_app_comm (fitems sib)).
    + rewrite <- !app_assoc. cbn. rewrite <- Permutation_middle. by rewrite (Permutation_app_comm (fitems sib)).
  - cbn [app]. rewrite !filter_app, (filter_unflagged o2), app_nil_r, fmap_app, Hf1 by done. by destruct u.
Qed.

Lemma level_run fl f : forall m par prev path s,
  rep fl m par prev f -> NoDup (fids f) -> fpath t f = Some path ->
  (forall k, k ∈ fids f -> fl k = bool_decide (k ∈ path)) ->
  parent_ready par prev (froot f) m (fids f) -> enter_st m par f s -> level_done m par f path s.
Proof.
  induction f as [|i d cs IH1 sib IH2]; intros m par prev path s Hrep Hnd Hpath Hfl Hpar Hen; [done|].
  cbn in Hen, Hpath. subst s. destruct (Z.eqb_spec i t) as [->|Hit].
  { injection Hpath as <-. by eapply level_target. }
  pose proof Hnd as ([Hics Hisib] & Hn1 & Hn2 & Hdisj)%fids_nodup.
  destruct (fpath t cs) as [path'|] eqn:Ep.
  { injection Hpath as <-. eapply level_below; [done..| |done|done|done|done].
    intros m' s' ? ? ?. eapply IH1; [done..| |done|done]. intros k Hk.
    rewrite Hfl by (rewrite fids_cons; right; apply elem_of_app; by left). apply bool_decide_ext.
    rewrite elem_of_app, list_elem_of_singleton. split; [intros [?| ->]; done|by left]. }
  destruct Hrep as (Hi & Hcs & Hsib). destruct Hpar as [Hpt Hpar]. rewrite fids_cons in Hpar, Hfl.
  destruct (fpath_sub _ _ _ Hpath) as [Hsub _].
  assert (Hfli : fl i = false). { rewrite Hfl by (by left). apply bool_decide_eq_false_2. auto. }
  assert (Hcl : clean fl cs).
  { intros k Hk. split.
    - intros ->. apply fpath_is_Some in Hk as [? ?]. congruence.
    - rewrite Hfl by (right; apply elem_of_app; by left). apply bool_decide_eq_false_2. intros ?%Hsub. by apply (Hdisj k). }
  rewrite Hfli in Hi.
  edestruct (children_clean fl m i _ cs (clean_runs fl cs) Hi) as (k1 & m1 & o1 & s1 & Hr1 & Hk1 & Hd1 & Hrm1 & Ho1 & Hf1);
    [done..|].
  destruct (turn_remove m1 i par (froot cs) sib prev false d s1) as (s2 & Hr2 & Hen2);
    [by rewrite (proj2 Hrm1) | done | by rewrite andb_false_r | done |].
  assert (Hm2 : forall k, k ∉ i :: fids cs -> delete i m1 !! k = m !! k).
  { intros k [? ?]%not_elem_of_cons. rewrite lookup_delete_ne by done. by apply Hrm1. }
  assert (Hps : forall p, par = Some p -> p ∉ fids sib /\ p ∉ i :: fids cs).
  { intros p Hp. destruct (Hpar p Hp) as [Hn _]. rewrite not_elem_of_cons, not_elem_of_app in Hn.
    rewrite not_elem_of_cons. naive_solver. }
  destruct (IH2 (delete i m1) par (Some i) path s2)
    as (k3 & m3 & o3 & s3 & Hr3 & Hk3 & Hex3 & Hrep3 & Hrm3 & Hm3 & Hrel3 & Ho3 & Hf3); [|done|done| | |done|].
  { eapply rep_ext; [|done]. intros k Hk. split; [|done]. symmetry. apply Hm2. rewrite not_elem_of_cons.
    split; [congruence|]. intros ?. by apply (Hdisj k). }
  { intros k Hk. apply Hfl. right. apply elem_of_app. by right. }
  { split; [done|]. intros p Hp. split; [by apply Hps|]. destruct (Hpar p Hp) as (_ & pn & Hpn & _).
    exists pn. rewrite Hm2 by (by apply Hps). done. }
  exists (k1 + (1 + k3))%nat, m3, (o1 ++ [mkPruned i false d] ++ o3), s3.
  assert (Hkept : kept (FCons i d cs sib) = kept sib).
  { unfold kept. cbn. rewrite (proj2 (Z.eqb_neq i t)), Ep by done. done. }
  rewrite Hkept, fids_cons. split; [by eapply prune_run_app; [|eapply prune_run_app]|].
  split; [cbn [length]; rewrite length_app; lia|]. split; [done|]. split; [done|]. split; [|split; [|split; [|split]]].
  - intros k Hk Hnk. assert (Hout : k ∈ i :: fids cs -> m3 !! k = None).
    { intros Hin. rewrite Hm3.
      - apply elem_of_cons in Hin as [->|Hin]; [apply lookup_delete_eq|].
        rewrite lookup_delete_ne by congruence. by apply Hrm1.
      - apply elem_of_cons in Hin as [->|Hin]; [done|by apply Hdisj].
      - intros Hp. by apply (Hps k Hp). }
    apply elem_of_cons in Hk as [->|[Hk|Hk]%elem_of_app]; [apply Hout; by left | apply Hout; by right | auto].
  - intros k. rewrite not_elem_of_cons, not_elem_of_app. intros (? & ? & ?) ?.
    rewrite Hm3, Hm2; [done|by apply not_elem_of_cons|done|done].
  - intros p pn Hp Hpn. apply Hrel3; [done|]. rewrite Hm2 by (by apply Hps). done.
  - rewrite !fmap_app. cbn. rewrite Ho1, Ho3, <- app_assoc. unfold item at 2. cbn. by rewrite Permutation_middle.
  - rewrite !filter_app, (filter_unflagged o1), (filter_cons _ (mkPruned i false d)), decide_False by done. done.
Qed.

End pruning.

(** *** The whole pruning *)

Section whole.
Context {T : Type}.
Implicit Types (f : forest T) (m : gmap Z (Node T)).

Lemma successors_ext n succ succ' first :
  (forall i, succ i = succ' i) -> successors n succ first = successors n succ' first.
Proof.
  intros He. revert first. induction n as [|n IH]; intros [i|]; try done. cbn. rewrite He.
  destruct (succ' i); [|done]. cbn. by rewrite IH.
Qed.

(** The nodes of the path are marked. *)
Lemma mark_ancestors_spec n u (self : ForkTree T) i l :
  successors n (fun n => parent <$> nodes self !! n) (Some i) = Some l ->
  exists self', mark_ancestors n u self i = Some self' /\
    first_root self' = (if u then last l else first_root self) /\
    forall k, nodes self' !! k = if decide (k ∈ l) then set_prune true <$> nodes self !! k else nodes self !! k.
Proof.
  revert self i l. induction n as [|n IH]; intros self i l; [done|]. cbn. unfold update_node.
  destruct (nodes self !! i) as [nd|] eqn:Ei; [|done]. cbn. rewrite lookup_insert_eq. cbn.
  destruct (successors n _ (parent nd)) as [rest|] eqn:E; [|done]. cbn. intros [= <-].
  destruct (parent nd) as [p|].
  - set (self1 := mkForkTree (<[i := set_prune true nd]> (nodes self)) (if u then Some i else first_root self)).
    destruct (IH self1 p rest) as (self' & -> & Hroot & Hn).
    { rewrite <- E. apply successors_ext. intros k. cbn. rewrite lookup_insert. case_decide; [|done].
      subst. by rewrite Ei. }
    exists self'. split; [done|]. split.
    + rewrite Hroot. destruct u; [|done]. destruct rest; [|done]. destruct n; [done|].
      cbn in E. destruct (nodes self !! p); [|done]. cbn in E. by destruct (successors n _ _).
    + intros k. rewrite Hn. cbn. rewrite lookup_insert. destruct (decide (i = k)) as [->|Hne].
      * rewrite (decide_True (P := k ∈ k :: rest)) by (by left). rewrite Ei. by case_decide.
      * destruct (decide (k ∈ rest)); [rewrite decide_True by (by right) | rewrite decide_False by (rewrite elem_of_cons; naive_solver)]; done.
  - assert (rest = []) as -> by (destruct n; by injection E).
    eexists. split; [done|]. cbn. split; [done|]. intros k. rewrite lookup_insert.
    destruct (decide (i = k)) as [->|Hne].
    + rewrite decide_True by (by left). by rewrite Ei.
    + rewrite decide_False by (rewrite list_elem_of_singleton; congruence). done.
Qed.

Lemma rep_mark fl m m' par prev f (l : list Z) :
  (forall k, m' !! k = if decide (k ∈ l) then set_prune true <$> m !! k else m !! k) ->
  (forall k, k ∈ fids f -> k ∉ l -> fl k = false) ->
  rep fl m par prev f -> rep (fun k => bool_decide (k ∈ l)) m' par prev f.
Proof.
  intros Hm Hfl. revert par prev. induction f as [|i d cs IH1 sib IH2]; intros par prev; [done|].
  rewrite fids_cons in Hfl. cbn. intros (Hi & Hcs & Hsib). split.
  - rewrite Hm, Hi. destruct (decide (i ∈ l)) as [Hin|Hin].
    + by rewrite bool_decide_eq_true_2.
    + rewrite bool_decide_eq_false_2, Hfl by (done || by left). done.
  - split; [apply IH1 | apply IH2]; try done; intros k Hk; apply Hfl; right; apply elem_of_app; auto.
Qed.

Lemma fchildren_lookup fl m par prev f i :
  rep fl m par prev f -> i ∈ fids f -> exists n, m !! i = Some n /\ first_child n = froot (fchildren i f).
Proof.
  revert par prev. induction f as [|j d cs IH1 sib IH2]; intros par prev; [by intros _ ?%elem_of_nil|].
  intros (Hj & Hcs & Hsib) Hin. rewrite fids_cons, elem_of_cons, elem_of_app in Hin. cbn [fchildren].
  destruct (Z.eqb_spec j i) as [->|Hne]; [eauto|].
  destruct (fpath i cs) as [l|] eqn:E.
  - eapply IH1; [done|]. apply fpath_is_Some. eauto.
  - eapply IH2; [done|]. destruct Hin as [?|[Hin|?]]; [congruence| |done].
    apply fpath_is_Some in Hin as [? ?]. congruence.
Qed.

Lemma funcles_root i f l : fpath i f = Some l -> last l = froot (funcles i f).
Proof.
  revert l. induction f as [|j d cs IH1 sib IH2]; intros l; [done|]. cbn.
  destruct (Z.eqb_spec j i) as [->|Hne]; [by intros [= <-]|].
  destruct (fpath i cs); [intros [= <-]; by rewrite last_snoc | auto].
Qed.

(** Pruning implements [kept], and removes the other nodes. *)
Lemma prune_all_rep (self : ForkTree T) f t path u :
  fork_rep self f -> fpath t f = Some path ->
  exists outs self', prune_all self t u = Some (outs, self') /\ fork_rep self' (kept t u f) /\
    fitems f ≡ₚ (item <$> outs) ++ fitems (kept t u f) /\
    (pn_index <$> filter (fun o => pn_is_prune_target_ancestor o = true) outs) = (if u then [] else path).
Proof.
  intros Hrep Hpath. pose proof Hrep as [Hlinks Hroot Hnd Hdom].
  pose proof (node_to_root_path_rep _ _ _ _ Hrep Hpath) as Hwalk. unfold node_to_root_path in Hwalk.
  destruct (mark_ancestors_spec _ u _ _ _ Hwalk) as (self1 & Hmark & Hroot1 & Hn1).
  assert (Hrep1 : rep (fun k => bool_decide (k ∈ path)) (nodes self1) None None f).
  { eapply rep_mark; [exact Hn1| |exact Hlinks]. done. }
  destruct f as [|i d cs sib] eqn:Ef; [done|]. rewrite <- Ef in *.
  assert (Hfr : froot f = Some i) by (by rewrite Ef).
  assert (Htf : t ∈ fids f) by (apply fpath_is_Some; eauto).
  set (fr := froot (kept t u f)).
  assert (Hinner : prune_ancestors_inner self t u = Some (st fr t u (nodes self1) i false false)).
  { unfold prune_ancestors_inner. rewrite Hroot, Hfr. cbn. rewrite Hmark. cbn. unfold fr, kept.
    destruct u; cbn.
    - rewrite <- (funcles_root t f path), <- Hroot1 by done. by destruct self1.
    - destruct (fchildren_lookup _ _ _ _ _ _ Hrep1 Htf) as (n & -> & <-). done. }
  destruct (level_run fr t u _ f (nodes self1) None None path (st fr t u (nodes self1) i false false) Hrep1 Hnd Hpath)
    as (k & m' & outs & s' & Hr & Hk & Hex & Hrep' & Hrm & Hm' & _ & Ho & Hf).
  { done. } { split; [done|]. by intros ? ?. } { unfold enter_st. by rewrite Hfr. }
  destruct Hex as (it & up & ->). exists outs, (mkForkTree m' fr).
  assert (Hlen : (length outs <= length (fids f))%nat).
  { apply Permutation_length in Ho. rewrite length_app, length_fmap in Ho. unfold fids. rewrite length_fmap. lia. }
  pose proof (fork_size _ _ Hrep) as Hsize.
  split; [|split; [|done]].
  - unfold prune_all. rewrite Hinner. cbn [mbind option_bind].
    rewrite (prune_drop_run k _ outs (st fr t u m' it up true)) by (done || lia). done.
  - assert (Hids : fids f ≡ₚ (pn_index <$> outs) ++ fids (kept t u f)).
    { unfold fids. rewrite Ho, fmap_app, <- list_fmap_compose. done. }
    split; cbn [nodes first_root].
    + unfold new_parent in Hrep'. by destruct u.
    + done.
    + rewrite Hids in Hnd. by apply NoDup_app in Hnd as (_ & _ & ?).
    + intros k'. split; [by eapply rep_in|]. intros Hk'. destruct (decide (k' ∈ fids (kept t u f))); [done|].
      destruct (decide (k' ∈ fids f)) as [Hin|Hin].
      * rewrite Hrm in Hk' by done. by destruct Hk'.
      * rewrite Hm' in Hk' by done. rewrite Hn1 in Hk'. destruct Hin. apply Hdom.
        case_decide; [|done]. by apply fmap_is_Some in Hk'.
Qed.

(** *** Which nodes stay *)

Definition below (t k : Z) f : Prop := exists l, fpath k f = Some l /\ t ∈ l.

Lemma below_cons t k i (d : T) cs sib :
  NoDup (fids (FCons i d cs sib)) ->
  below t k (FCons i d cs sib) <->
  (k = i /\ t = i) \/ (k ∈ fids cs /\ (t = i \/ below t k cs)) \/ below t k sib.
Proof.
  intros ([Hics Hisib] & Hn1 & Hn2 & Hdisj)%fids_nodup. unfold below. cbn [fpath].
  destruct (Z.eqb_spec i k) as [->|Hne].
  - split.
    + intros (l & [= <-] & ->%list_elem_of_singleton). by left.
    + intros [[_ ->]|[[? _]|(l & Hl & _)]]; [|done|].
      * exists [k]. split; [done|]. by left.
      * destruct Hisib. apply fpath_is_Some. eauto.
  - destruct (fpath k cs) as [l'|] eqn:E.
    + assert (Hk : k ∈ fids cs) by (apply fpath_is_Some; eauto). split.
      * intros (l & [= <-] & [Hin| ->%list_elem_of_singleton]%elem_of_app); right; left; eauto.
      * intros [[? _]|[(_ & [->|(l & [= <-] & Hl)])|(l & Hl & _)]]; [done| | |].
        -- exists (l' ++ [i]). split; [done|]. apply elem_of_app. right. by left.
        -- exists (l' ++ [i]). split; [done|]. apply elem_of_app. by left.
        -- destruct (Hdisj k Hk). apply fpath_is_Some. eauto.
    + split; [eauto|]. intros [[? _]|[(Hk & _)|?]]; [done| |done].
      apply fpath_is_Some in Hk as [? ?]. congruence.
Qed.

Lemma below_in t k f : below t k f -> t ∈ fids f /\ k ∈ fids f.
Proof.
  intros (l & Hl & Ht). split; [by eapply fpath_sub|]. apply fpath_is_Some. eauto.
Qed.

Lemma fchildren_ids t f k :
  NoDup (fids f) -> k ∈ fids (fchildren t f) <-> below t k f /\ k <> t.
Proof.
  induction f as [|i d cs IH1 sib IH2]; intros Hnd.
  - split; [by intros ?%elem_of_nil|]. by intros [(l & ? & _) _].
  - rewrite below_cons by done. apply fids_nodup in Hnd as ([Hics Hisib] & Hn1 & Hn2 & Hdisj).
    cbn [fchildren]. pose proof (below_in t k cs) as Bcs. pose proof (below_in t k sib) as Bsib.
    destruct (Z.eqb_spec i t) as [->|Hne]; [split; [|naive_solver]|].
    + intros Hk. split; [|congruence]. right. left. auto.
    + destruct (fpath t cs) as [l|] eqn:E.
      * assert (t ∈ fids cs) by (apply fpath_is_Some; eauto). rewrite IH1 by done. naive_solver.
      * assert (t ∉ fids cs) by (rewrite <- fpath_is_Some, E; by intros []). rewrite IH2 by done. naive_solver.
Qed.

Lemma funcles_ids t f k :
  NoDup (fids f) -> t ∈ fids f -> k ∈ fids (funcles t f) <-> below t k f \/ below k t f.
Proof.
  induction f as [|i d cs IH1 sib IH2]; intros Hnd Ht; [by apply elem_of_nil in Ht|].
  rewrite !below_cons by done. apply fids_nodup in Hnd as ([Hics Hisib] & Hn1 & Hn2 & Hdisj).
  rewrite fids_cons, elem_of_cons, elem_of_app in Ht. cbn [funcles].
  pose proof (below_in t k cs) as Bcs. pose proof (below_in t k sib) as Bsib.
  pose proof (below_in k t cs) as Bcs'. pose proof (below_in k t sib) as Bsib'.
  destruct (Z.eqb_spec i t) as [->|Hne].
  - rewrite fids_cons, elem_of_cons, elem_of_app. unfold fids at 2. cbn. rewrite elem_of_nil. naive_solver.
  - destruct (fpath t cs) as [l|] eqn:E.
    + assert (t ∈ fids cs) by (apply fpath_is_Some; eauto).
      rewrite fids_cons, elem_of_cons, elem_of_app, IH1 by done. unfold fids at 1. cbn. rewrite elem_of_nil. naive_solver.
    + assert (t ∉ fids cs) by (rewrite <- fpath_is_Some, E; by intros []). rewrite IH2 by naive_solver. naive_solver.
Qed.

Lemma is_ancestor_rep (self : ForkTree T) f a k :
  fork_rep self f -> is_ancestor self a k = Some true <-> below a k f.
Proof.
  intros Hrep. unfold is_ancestor, below. destruct (nodes self !! k) as [n|] eqn:Ek; cbn.
  - assert (Hk : k ∈ fids f) by (apply Hrep; eauto). apply fpath_is_Some in Hk as [l Hl].
    rewrite (is_ancestor_loop_path _ _ _ _ l) by (by eapply node_to_root_path_rep).
    rewrite Hl. split.
    + intros [= H%bool_decide_eq_true]. eauto.
    + intros (? & [= <-] & ?). f_equal. by apply bool_decide_eq_true_2.
  - split; [done|]. intros (l & Hl & _). assert (Hk : k ∈ fids f) by (apply fpath_is_Some; eauto).
    apply Hrep in Hk as [? ?]. congruence.
Qed.

(** What pruning does, in terms of the queries: the data of the nodes that stay,
    and the nodes that are returned. *)
Lemma prune_all_queries (self : ForkTree T) f t u :
  fork_rep self f -> is_Some (fork_get self t) ->
  exists outs self', prune_all self t u = Some (outs, self') /\ fork_rep self' (kept t u f) /\
    (forall k d, fork_get self' k = Some d <-> fork_get self k = Some d /\ k ∈ fids (kept t u f)) /\
    NoDup (pn_index <$> outs) /\
    (forall k d, (k, d) ∈ (item <$> outs) <-> fork_get self k = Some d /\ k ∉ fids (kept t u f)) /\
    Some (pn_index <$> filter (fun o => pn_is_prune_target_ancestor o = true) outs) =
      (if u then Some [] else node_to_root_path self t).
Proof.
  intros Hrep Hget.
  assert (Ht : t ∈ fids f). { apply Hrep. by apply fmap_is_Some in Hget. }
  apply fpath_is_Some in Ht as [path Hpath].
  destruct (prune_all_rep self f t path u Hrep Hpath) as (outs & self' & Hrun & Hrep' & Hitems & Hflag).
  pose proof (fr_nodup _ _ Hrep) as Hnd. unfold fids in Hnd.
  assert (Hidx : (item <$> outs).*1 = pn_index <$> outs) by (by rewrite <- list_fmap_compose).
  rewrite Hitems, fmap_app, Hidx in Hnd. apply NoDup_app in Hnd as (Hn1 & Hn2 & _).
  exists outs, self'. split; [done|]. split; [done|]. split; [|split; [done|split]].
  - intros k d. rewrite (fork_get_items self' _ k d Hrep'), (fork_get_items self f k d Hrep), Hitems, elem_of_app.
    split.
    + intros Hin. split; [by right|]. apply list_elem_of_fmap. by exists (k, d).
    + intros [[Hin|?] Hk]; [|done]. destruct (Hn2 k); [|done]. rewrite <- Hidx. apply list_elem_of_fmap. by exists (k, d).
  - intros k d. rewrite (fork_get_items self f k d Hrep), Hitems, elem_of_app. split.
    + intros Hin. split; [by left|]. apply Hn2. rewrite <- Hidx. apply list_elem_of_fmap. by exists (k, d).
    + intros [[?|Hin] Hk]; [done|]. destruct Hk. apply list_elem_of_fmap. by exists (k, d).
  - rewrite Hflag, (node_to_root_path_rep _ _ _ _ Hrep Hpath). by destruct u.
Qed.

(** *** Parents and ancestors after pruning *)

Lemma fpath_head i f l : fpath i f = Some l -> exists l', l = i :: l'.
Proof.
  revert l. induction f as [|j d cs IH1 sib IH2]; intros l; [done|]. cbn.
  destruct (Z.eqb_spec j i) as [->|Hne]; [intros [= <-]; eauto|].
  destruct (fpath i cs) as [l1|]; [|auto]. destruct (IH1 _ eq_refl) as [l' ->]. intros [= <-]. cbn. eauto.
Qed.

(** The path to a node left goes through the target. *)
Lemma fpath_fchildren t k f lt l1 :
  NoDup (fids f) -> fpath t f = Some lt -> fpath k (fchildren t f) = Some l1 -> fpath k f = Some (l1 ++ lt).
Proof.
  revert lt. induction f as [|i d cs IH1 sib IH2]; intros lt Hnd Ht Hk; [done|].
  apply fids_nodup in Hnd as ([Hics Hisib] & Hn1 & Hn2 & Hdisj). cbn [fpath fchildren] in *.
  destruct (Z.eqb_spec i t) as [->|Hne].
  - injection Ht as <-. assert (k ∈ fids cs) by (apply fpath_is_Some; eauto).
    destruct (Z.eqb_spec t k); [congruence|]. by rewrite Hk.
  - destruct (fpath t cs) as [l'|] eqn:E.
    + injection Ht as <-. assert (Hin : k ∈ fids cs).
      { assert (Hkc : k ∈ fids (fchildren t cs)) by (apply fpath_is_Some; eauto).
        apply fchildren_ids in Hkc as [Hb _]; [|done]. by apply below_in in Hb as [_ ?]. }
      destruct (Z.eqb_spec i k); [congruence|]. rewrite (IH1 l') by done. by rewrite app_assoc.
    + assert (Hin : k ∈ fids sib).
      { assert (Hkc : k ∈ fids (fchildren t sib)) by (apply fpath_is_Some; eauto).
        apply fchildren_ids in Hkc as [Hb _]; [|done]. by apply below_in in Hb as [_ ?]. }
      destruct (Z.eqb_spec i k); [congruence|]. rewrite (IH2 lt) by done.
      destruct (fpath k cs) eqn:Ek; [|done]. destruct (Hdisj k); [|done]. apply fpath_is_Some. eauto.
Qed.

(** What [prune_ancestors] leaves: the strict descendants of [x], with their
    data; those whose parent is [x] are the new roots. *)
Record pruned_to (self self' : ForkTree T) (x : Z) : Prop := {
  pr_rep : exists f, fork_rep self' f;
  pr_get : forall k d, fork_get self' k = Some d <->
    fork_get self k = Some d /\ is_ancestor self x k = Some true /\ k <> x;
  pr_parent : forall k, is_Some (fork_get self' k) ->
    (fork_parent self k = Some (Some x) /\ fork_parent self' k = Some None) \/
    (exists p, p <> x /\ fork_parent self k = Some (Some p) /\ fork_parent self' k = Some (Some p));
  pr_ancestor : forall a k, is_ancestor self' a k = Some true <->
    is_ancestor self a k = Some true /\ is_Some (fork_get self' a) /\ is_Some (fork_get self' k)
}.

Lemma prune_ancestors_to (self : ForkTree T) f x :
  fork_rep self f -> is_Some (fork_get self x) ->
  exists outs self', prune_ancestors self x = Some (outs, self') /\ pruned_to self self' x /\
    NoDup (pn_index <$> outs) /\
    (forall k d, (k, d) ∈ (item <$> outs) <->
       fork_get self k = Some d /\ ~ (is_ancestor self x k = Some true /\ k <> x)).
Proof.
  intros Hf Hx. destruct (prune_all_queries self f x false Hf Hx) as (outs & self' & Hrun & Hf' & Hget & Hnd & Houts & _).
  unfold kept in *. cbn [negb] in *. exists outs, self'. split; [done|].
  assert (Hkept : forall k, k ∈ fids (fchildren x f) <-> is_ancestor self x k = Some true /\ k <> x).
  { intros k. rewrite fchildren_ids by apply Hf. by rewrite (is_ancestor_rep self f). }
  assert (Hget' : forall k, is_Some (fork_get self' k) <-> k ∈ fids (fchildren x f)).
  { intros k. rewrite (fr_dom _ _ Hf'). unfold fork_get. apply fmap_is_Some. }
  assert (Hxf : x ∈ fids f). { apply Hf. by apply fmap_is_Some in Hx. }
  apply fpath_is_Some in Hxf as [lx Hlx].
  pose proof (fpath_fchildren x) as Hpaths.
  split; [|split; [done|intros k d; by rewrite Houts, Hkept]]. split.
  - eauto.
  - intros k d. by rewrite Hget, Hkept.
  - intros k Hk. apply Hget', fpath_is_Some in Hk as [l1 Hl1].
    pose proof (Hpaths k f lx l1 (fr_nodup _ _ Hf) Hlx Hl1) as Hl.
    destruct (fork_path_parent _ _ _ _ Hf' Hl1) as (l1' & -> & Hp').
    destruct (fork_path_parent _ _ _ _ Hf Hl) as (l' & [= <-] & Hp).
    destruct (fpath_head _ _ _ Hlx) as [lx' ->].
    destruct (fork_parent self k) as [[p|]|]; [|by destruct l1'|done].
    destruct (fpath_head _ _ _ Hp) as [lp Ep].
    destruct (fork_parent self' k) as [[p'|]|]; [|subst l1'|done].
    + right. exists p. destruct (fpath_head _ _ _ Hp') as [lp' ->]. injection Ep as ->. split; [|done].
      intros ->. assert (Hin : x ∈ fids (fchildren x f)) by (apply fpath_is_Some; eauto).
      apply Hkept in Hin as [_ ?]. done.
    + left. injection Ep as -> _. done.
  - intros a k. rewrite (is_ancestor_rep self' _ _ _ Hf'), (is_ancestor_rep self f) by done. rewrite !Hget'. split.
    + intros Hb. pose proof (below_in _ _ _ Hb) as [Ha Hk]. split; [|done].
      destruct Hb as (l1 & Hl1 & Hin). exists (l1 ++ lx). split; [|apply elem_of_app; by left].
      apply (Hpaths k f lx l1); [apply Hf|done|done].
    + intros (Hb & Ha & Hk). apply fpath_is_Some in Hk as [l1 Hl1]. exists l1. split; [done|].
      destruct Hb as (l & Hl & Hin). rewrite (Hpaths k f lx l1 (fr_nodup _ _ Hf) Hlx Hl1) in Hl. injection Hl as <-.
      apply elem_of_app in Hin as [?|Hin]; [done|]. exfalso.
      apply fpath_is_Some in Ha as [la Hla]. pose proof (Hpaths a f lx la (fr_nodup _ _ Hf) Hlx Hla) as Hla2.
      pose proof (fpath_nodup _ _ _ Hla2 (fr_nodup _ _ Hf)) as Hnd2. apply NoDup_app in Hnd2 as (_ & Hd & _).
      destruct (fpath_head _ _ _ Hla) as [la' ->]. apply (Hd a); [by left|done].
Qed.

End whole.

(** ** Main results *)

Section results.
Context {T : Type}.

(** C36: [prune_ancestors] on a node of the tree ends without panic. What is
    left is the forest of the children of the node: exactly its strict
    descendants stay, with their data. Every other node is returned, once, and
    those flagged as ancestors of the target are the path from the target to the
    root, in this order. *)
Theorem prune_ancestors_spec (self : ForkTree T) (f : forest T) (t : NodeIndex) :
  fork_rep self f -> is_Some (fork_get self t) ->
  exists outs self', prune_ancestors self t = Some (outs, self') /\ fork_rep self' (fchildren t f) /\
    (forall k d, fork_get self' k = Some d <->
       fork_get self k = Some d /\ is_ancestor self t k = Some true /\ k <> t) /\
    NoDup (pn_index <$> outs) /\
    (forall k d, (k, d) ∈ (item <$> outs) <->
       fork_get self k = Some d /\ ~ (is_ancestor self t k = Some true /\ k <> t)) /\
    Some (pn_index <$> filter (fun o => pn_is_prune_target_ancestor o = true) outs) = node_to_root_path self t.
Proof.
  intros Hrep Hget. destruct (prune_all_queries self f t false Hrep Hget) as (outs & self' & H1 & H2 & H3 & H4 & H5 & H6).
  exists outs, self'. split; [exact H1|]. split; [exact H2|]. unfold kept in *.
  assert (Hk : forall k, k ∈ fids (fchildren t f) <-> is_ancestor self t k = Some true /\ k <> t).
  { intros k. rewrite fchildren_ids by apply Hrep. by rewrite (is_ancestor_rep self f). }
  split; [intros k d; by rewrite H3, Hk|]. split; [done|]. split; [intros k d; by rewrite H5, Hk | done].
Qed.

(** [prune_uncles] on a node of the tree ends without panic. The node, its
    ancestors and its descendants stay, with their data and the links of the
    forest [funcles]; every other node is returned once, none of them flagged as
    an ancestor of the target. *)
Theorem prune_uncles_spec (self : ForkTree T) (f : forest T) (t : NodeIndex) :
  fork_rep self f -> is_Some (fork_get self t) ->
  exists outs self', prune_uncles self t = Some (outs, self') /\ fork_rep self' (funcles t f) /\
    (forall k d, fork_get self' k = Some d <->
       fork_get self k = Some d /\ (is_ancestor self t k = Some true \/ is_ancestor self k t = Some true)) /\
    NoDup (pn_index <$> outs) /\
    (forall k d, (k, d) ∈ (item <$> outs) <->
       fork_get self k = Some d /\ ~ (is_ancestor self t k = Some true \/ is_ancestor self k t = Some true)) /\
    (pn_index <$> filter (fun o => pn_is_prune_target_ancestor o = true) outs) = [].
Proof.
  intros Hrep Hget. destruct (prune_all_queries self f t true Hrep Hget) as (outs & self' & H1 & H2 & H3 & H4 & H5 & H6).
  exists outs, self'. split; [exact H1|]. split; [exact H2|]. unfold kept in *.
  assert (Ht : t ∈ fids f). { apply Hrep. by apply fmap_is_Some in Hget. }
  assert (Hk : forall k, k ∈ fids (funcles t f) <-> is_ancestor self t k = Some true \/ is_ancestor self k t = Some true).
  { intros k. rewrite funcles_ids by (done || apply Hrep). by rewrite !(is_ancestor_rep self f). }
  split; [intros k d; by rewrite H3, Hk|]. split; [done|]. split; [intros k d; by rewrite H5, Hk|].
  by injection H6.
Qed.

End results.

Lemma prune_ancestors_spec_witness :
  fork_rep fork_example forest_example /\ is_Some (fork_get fork_example 1) /\
  exists outs self', prune_ancestors fork_example 1 = Some (outs, self') /\
    fork_rep self' (fchildren 1 forest_example) /\
    (forall k d, fork_get self' k = Some d <->
       fork_get fork_example k = Some d /\ is_ancestor fork_example 1 k = Some true /\ k <> 1) /\
    NoDup (pn_index <$> outs) /\
    (forall k d, (k, d) ∈ (item <$> outs) <->
       fork_get fork_example k = Some d /\ ~ (is_ancestor fork_example 1 k = Some true /\ k <> 1)) /\
    Some (pn_index <$> filter (fun o => pn_is_prune_target_ancestor o = true) outs) = node_to_root_path fork_example 1.
Proof.
  split; [exact fork_example_rep|]. split; [by eexists|].
  apply (prune_ancestors_spec fork_example forest_example 1); [exact fork_example_rep | by eexists].
Defined.

Lemma prune_uncles_spec_witness :
  fork_rep fork_example forest_example /\ is_Some (fork_get fork_example 1) /\
  exists outs self', prune_uncles fork_example 1 = Some (outs, self') /\
    fork_rep self' (funcles 1 forest_example) /\
    (forall k d, fork_get self' k = Some d <->
       fork_get fork_example k = Some d /\
       (is_ancestor fork_example 1 k = Some true \/ is_ancestor fork_example k 1 = Some true)) /\
    NoDup (pn_index <$> outs) /\
    (forall k d, (k, d) ∈ (item <$> outs) <->
       fork_get fork_example k = Some d /\
       ~ (is_ancestor fork_example 1 k = Some true \/ is_ancestor fork_example k 1 = Some true)) /\
    (pn_index <$> filter (fun o => pn_is_prune_target_ancestor o = true) outs) = [].
Proof.
  split; [exact fork_example_rep|]. split; [by eexists|].
  apply (prune_uncles_spec fork_example forest_example 1); [exact fork_example_rep | by eexists].
Defined.

(** The two prunings of the example, evaluated. *)
Example prune_example :
  (option_map (fun '(outs, t) => (map item outs, iter_ancestry_order t)) (prune_ancestors fork_example 1) =
     Some ([(4, 104); (5, 105); (1, 101); (0, 100)], Some [(3, 103); (2, 102)])) /\
  (option_map (fun '(outs, t) => (map item outs, iter_ancestry_order t)) (prune_uncles fork_example 1) =
     Some ([(4, 104); (5, 105)], Some [(0, 100); (1, 101); (3, 103); (2, 102)])).
Proof. by vm_compute. Qed.
