(* ===== verification/ForkTreeFacts.v ===== *)
(** * Facts on the fork tree for its users

    What the users of ForkTree.v share: [updates] says that the shape of a tree
    stays and the data of each node is changed by a function; then the paths, the
    enumeration of the nodes and the order of ancestors. *)

From S2P Require Import Prelude BTree ForkTree ForkTreePrune.

Open Scope Z_scope.

Lemma NoDup_keys_filter {A B} (P : A * B -> Prop) `{!forall x, Decision (P x)} (l : list (A * B)) :
  NoDup l.*1 -> NoDup (filter P l).*1.
Proof.
  induction l as [|x l IH]; [done|]. rewrite fmap_cons. intros [Hx Hnd]%NoDup_cons. rewrite filter_cons.
  case_decide; [|auto]. rewrite fmap_cons. constructor; [|auto]. intros (y & Hy & Hin)%list_elem_of_fmap.
  apply Hx. rewrite Hy. apply list_elem_of_fmap_2. by apply list_elem_of_filter in Hin as [_ ?].
Qed.

Lemma elem_of_rev {A} (l : list A) x : x ∈ rev l <-> x ∈ l.
Proof. by rewrite <- (Permutation_rev l). Qed.

(** ** Changes of blocks *)

Section updates.
Context {T : Type}.
Implicit Types t : ForkTree T.

Record updates t t' (g : Z -> T -> T) : Prop := {
  up_rep : forall f, fork_rep t f ->
    exists f', fork_rep t' f' /\ fids f' = fids f /\ (forall k, fpath k f' = fpath k f);
  up_get : forall k, fork_get t' k = g k <$> fork_get t k;
  up_parent : forall k, fork_parent t' k = fork_parent t k;
  up_dom : dom (nodes t') = dom (nodes t)
}.

Lemma updates_refl t (g : Z -> T -> T) :
  (forall k b, fork_get t k = Some b -> g k b = b) -> updates t t g.
Proof.
  intros Hg. split; [eauto| |done|done]. intros k. destruct (fork_get t k) eqn:E; [|done]. cbn. by rewrite Hg.
Qed.

Lemma updates_trans t t1 t2 (g h gh : Z -> T -> T) :
  updates t t1 g -> updates t1 t2 h ->
  (forall k b, fork_get t k = Some b -> gh k b = h k (g k b)) -> updates t t2 gh.
Proof.
  intros [R1 G1 P1 D1] [R2 G2 P2 D2] Hgh. split.
  - intros f Hf. destruct (R1 f Hf) as (f1 & Hf1 & I1 & Q1). destruct (R2 f1 Hf1) as (f2 & Hf2 & I2 & Q2).
    exists f2. split; [done|]. split; [congruence|]. intros k. by rewrite Q2, Q1.
  - intros k. rewrite G2, G1. destruct (fork_get t k) eqn:E; [|done]. cbn. by rewrite Hgh.
  - intros k. by rewrite P2, P1.
  - by rewrite D2, D1.
Qed.

Lemma updates_get_mut t i (g : T -> T) :
  (exists f, fork_rep t f) -> is_Some (fork_get t i) ->
  exists t', fork_get_mut t i g = Some t' /\ updates t t' (fun k b => if decide (k = i) then g b else b).
Proof.
  intros [f0 Hf0] Hi. destruct (fork_get_mut_rep t f0 i g Hf0 Hi) as (t' & Ht' & Hrep' & Hget & Hpar & Hdom).
  exists t'. split; [done|]. split; [|..|done|done].
  - intros f Hf. destruct (fork_get_mut_rep t f i g Hf Hi) as (t'' & Ht'' & Hrep'' & _).
    assert (t'' = t') as -> by congruence. exists (falter i g f).
    split; [done|]. split; [apply falter_ids|]. intros k. apply falter_path.
  - intros k. rewrite Hget. case_decide; subst; [done|]. by destruct (fork_get t k).
Qed.

Lemma updates_some t t' g k : updates t t' g -> is_Some (fork_get t' k) <-> is_Some (fork_get t k).
Proof. intros [_ -> _ _]. apply fmap_is_Some. Qed.

Lemma updates_wf t t' g : updates t t' g -> (exists f, fork_rep t f) -> exists f, fork_rep t' f.
Proof. intros [R _ _ _] [f Hf]. destruct (R f Hf) as (f' & ? & _). eauto. Qed.

Lemma updates_nodes t t' g k : updates t t' g -> nodes t' !! k = None <-> nodes t !! k = None.
Proof. intros [_ _ _ Hd]. by rewrite <- !not_elem_of_dom, Hd. Qed.

Lemma updates_ancestor t t' g a k :
  (exists f, fork_rep t f) -> updates t t' g -> is_ancestor t' a k = Some true <-> is_ancestor t a k = Some true.
Proof.
  intros [f Hf] Hup. destruct (up_rep _ _ _ Hup f Hf) as (f' & Hf' & _ & Hp).
  rewrite (is_ancestor_rep t' f') , (is_ancestor_rep t f) by done. unfold below. by setoid_rewrite Hp.
Qed.

(** A block after the change comes from a block before. *)
Lemma updates_inv t t' g k b' :
  updates t t' g -> fork_get t' k = Some b' -> exists b, fork_get t k = Some b /\ b' = g k b.
Proof. intros [_ -> _ _] (b & ? & ->)%fmap_Some. eauto. Qed.

Lemma updates_fwd t t' g k b : updates t t' g -> fork_get t k = Some b -> fork_get t' k = Some (g k b).
Proof. intros [_ -> _ _] ->. done. Qed.

Lemma updates_ext t t' (g h : Z -> T -> T) :
  updates t t' g -> (forall k b, fork_get t k = Some b -> g k b = h k b) -> updates t t' h.
Proof.
  intros [R G P D] Hgh. split; [done| |done|done]. intros k. rewrite G.
  destruct (fork_get t k) eqn:E; [|done]. cbn. by rewrite Hgh.
Qed.

(** A loop that assigns to the nodes of a list. *)
Lemma updates_loop (loop : ForkTree T -> list Z -> option (ForkTree T)) (h : T -> T) :
  (forall t, loop t [] = Some t) ->
  (forall t i l, loop t (i :: l) = let! u := fork_get_mut t i h in loop u l) ->
  forall l t, (exists f, fork_rep t f) -> NoDup l -> (forall k, k ∈ l -> is_Some (fork_get t k)) ->
  exists t', loop t l = Some t' /\ updates t t' (fun k b => if decide (k ∈ l) then h b else b).
Proof.
  intros Hnil Hcons. induction l as [|i l IH]; intros t Hwf Hnd Hall.
  - exists t. split; [done|]. apply updates_refl. intros k b _. by rewrite decide_False by apply not_elem_of_nil.
  - apply NoDup_cons in Hnd as [Hi Hnd].
    destruct (updates_get_mut t i h Hwf (Hall i ltac:(by left))) as (t1 & Ht1 & Hup1).
    destruct (IH t1) as (t2 & Ht2 & Hup2); [by eapply updates_wf | done | |].
    { intros k Hk. apply (updates_some _ _ _ _ Hup1). apply Hall. by right. }
    exists t2. rewrite Hcons, Ht1. split; [done|]. eapply updates_trans; [done..|].
    intros k b _. cbn. destruct (decide (k = i)) as [->|Hne].
    + rewrite decide_True by (by left). by rewrite decide_False.
    + destruct (decide (k ∈ l)); [rewrite decide_True by (by right) | rewrite decide_False]; [done|done|].
      rewrite elem_of_cons. naive_solver.
Qed.

(** *** Paths *)

Lemma fork_path (t : ForkTree T) k :
  (exists f, fork_rep t f) -> is_Some (fork_get t k) ->
  exists l, node_to_root_path t k = Some (k :: l) /\
    (forall a, is_ancestor t a k = Some (bool_decide (a ∈ k :: l))) /\
    (forall j, j ∈ k :: l -> is_Some (fork_get t j)) /\
    match fork_parent t k with
    | Some (Some p) => is_Some (fork_get t p) /\ node_to_root_path t p = Some l
    | Some None => l = []
    | None => False
    end.
Proof.
  intros [f Hf] Hk. pose proof Hk as [n Hn]%fmap_is_Some.
  assert (Hin : k ∈ fids f) by (apply Hf; eauto). apply fpath_is_Some in Hin as [l Hl].
  pose proof (node_to_root_path_rep _ _ _ _ Hf Hl) as Hpath.
  destruct (fork_path_parent _ _ _ _ Hf Hl) as (l' & -> & Hp). exists l'. split; [done|]. split; [|split].
  - intros a. unfold is_ancestor. rewrite Hn. by apply is_ancestor_loop_path.
  - intros j Hj. apply fmap_is_Some, (fr_dom _ _ Hf). by eapply (fpath_sub k).
  - destruct (fork_parent t k) as [[p|]|] eqn:Epar; [|done|done].
    split; [by eapply fork_parent_get|]. by eapply node_to_root_path_rep.
Qed.

(** An enumeration of the nodes goes over each once. *)
Lemma elem_of_iter_unordered t k b : (k, b) ∈ iter_unordered t <-> fork_get t k = Some b.
Proof.
  unfold iter_unordered, fork_get. rewrite list_elem_of_fmap. setoid_rewrite fmap_Some. split.
  - intros ([k' n] & [= -> ->] & Hin%elem_of_btree_iter). eauto.
  - intros (n & Hn & ->). exists (k, n). split; [done|]. by apply elem_of_btree_iter.
Qed.

Lemma iter_unordered_keys t : (iter_unordered t).*1 = (btree_iter (nodes t)).*1.
Proof. unfold iter_unordered. rewrite <- list_fmap_compose. apply list_fmap_ext. by intros ? []. Qed.

Lemma elem_of_iter_keys t k : k ∈ (iter_unordered t).*1 <-> is_Some (fork_get t k).
Proof.
  rewrite list_elem_of_fmap. split.
  - intros ([k' b] & -> & Hin%elem_of_iter_unordered). eauto.
  - intros [b Hb]. exists (k, b). split; [done|]. by apply elem_of_iter_unordered.
Qed.

Lemma iter_keys_NoDup t : NoDup (iter_unordered t).*1.
Proof. rewrite iter_unordered_keys. apply btree_iter_NoDup. Qed.

(** *** Ancestors *)

Lemma ancestor_get t a k :
  (exists f, fork_rep t f) -> is_ancestor t a k = Some true -> is_Some (fork_get t a) /\ is_Some (fork_get t k).
Proof.
  intros [f Hf] Ha%(is_ancestor_rep t f); [|done]. apply below_in in Ha as [Ha Hk].
  unfold fork_get. rewrite !fmap_is_Some. by rewrite <- !(fr_dom _ _ Hf).
Qed.

Lemma ancestor_step t a k :
  (exists f, fork_rep t f) -> is_Some (fork_get t k) ->
  is_ancestor t a k = Some true <->
  a = k \/ exists p, fork_parent t k = Some (Some p) /\ is_ancestor t a p = Some true.
Proof.
  intros Hwf Hk. destruct (fork_path t k Hwf Hk) as (l & _ & Hanc & _ & Hpar). rewrite Hanc.
  destruct (fork_parent t k) as [[p|]|] eqn:Ep; [| |done].
  - destruct Hpar as [Hp Hpp]. destruct (fork_path t p Hwf Hp) as (l' & Hl' & Hanc' & _).
    assert (l = p :: l') as -> by congruence. split.
    + intros [= [->|Ha]%bool_decide_eq_true%elem_of_cons]; [by left|right]. exists p. split; [done|].
      rewrite Hanc'. by rewrite bool_decide_eq_true_2.
    + intros [->|(q & [= <-] & Ha)]; f_equal; apply bool_decide_eq_true_2; [by left|right].
      rewrite Hanc' in Ha. injection Ha as Ha. by apply bool_decide_eq_true in Ha.
  - subst l. split.
    + intros [= Ha%bool_decide_eq_true%list_elem_of_singleton]. by left.
    + intros [->|(q & ? & _)]; [|done]. f_equal. apply bool_decide_eq_true_2. by left.
Qed.

Lemma ancestor_trans t x y k :
  (exists f, fork_rep t f) -> is_ancestor t x y = Some true -> is_ancestor t y k = Some true -> is_ancestor t x k = Some true.
Proof.
  intros Hwf Hxy Hyk. assert (Hk : is_Some (fork_get t k)) by (by eapply ancestor_get). revert k Hk Hyk.
  destruct Hwf as [f Hf].
  apply (fork_parent_ind t f (fun k => is_ancestor t y k = Some true -> is_ancestor t x k = Some true) Hf).
  - intros k Hk Hyk. apply ancestor_step in Hyk as [->|(p & Hp & _)]; [done|congruence|eauto|].
    apply fork_get_parent. eauto.
  - intros k p Hk IH Hyk. assert (Hkg : is_Some (fork_get t k)) by (apply fork_get_parent; eauto).
    apply ancestor_step in Hyk as [->|(q & Hq & Hyq)]; [done| |eauto|done].
    apply ancestor_step; [eauto|done|]. right. exists p. split; [done|]. apply IH. congruence.
Qed.

Lemma ancestor_total t a k :
  (exists f, fork_rep t f) -> is_Some (fork_get t k) -> exists v, is_ancestor t a k = Some v.
Proof. intros Hwf Hk. destruct (fork_path t k Hwf Hk) as (l & _ & Hanc & _). rewrite Hanc. eauto. Qed.

Lemma ancestor_refl t k : (exists f, fork_rep t f) -> is_Some (fork_get t k) -> is_ancestor t k k = Some true.
Proof. intros Hwf Hk. apply ancestor_step; [done|done|]. by left. Qed.

(** The induction on the parents, from a node of the tree. *)
Lemma node_ind t (P : Z -> Prop) :
  (exists f, fork_rep t f) ->
  (forall k, fork_parent t k = Some None -> P k) -> (forall k p, fork_parent t k = Some (Some p) -> P p -> P k) ->
  forall k, is_Some (fork_get t k) -> P k.
Proof. intros [f Hf] H1 H2. by apply (fork_parent_ind t f P Hf). Qed.

(** The ancestors of a node are on one line. *)
Lemma ancestor_linear t a b k :
  (exists f, fork_rep t f) -> is_ancestor t a k = Some true -> is_ancestor t b k = Some true ->
  is_ancestor t a b = Some true \/ is_ancestor t b a = Some true.
Proof.
  intros Hwf Ha Hb. assert (Hk : is_Some (fork_get t k)) by (by eapply ancestor_get). revert k Hk Ha Hb.
  apply (node_ind t (fun k => is_ancestor t a k = Some true -> is_ancestor t b k = Some true -> _) Hwf).
  - intros k Hk Ha Hb. assert (Hg : is_Some (fork_get t k)) by (apply fork_get_parent; eauto).
    pose proof Ha as [->|(p & Hp & _)]%ancestor_step; [by right|congruence|done|done].
  - intros k p Hk IH Ha Hb. assert (Hg : is_Some (fork_get t k)) by (apply fork_get_parent; eauto).
    pose proof Ha as [->|(q & Hq & Ha')]%ancestor_step; [by right| |done|done].
    pose proof Hb as [->|(r & Hr & Hb')]%ancestor_step; [by left| |done|done].
    assert (q = p) as -> by congruence. assert (r = p) as -> by congruence. auto.
Qed.

Lemma ancestor_depth t a k :
  (exists f, fork_rep t f) -> is_ancestor t a k = Some true -> a <> k ->
  exists la lk, node_to_root_path t a = Some la /\ node_to_root_path t k = Some lk /\ (length la < length lk)%nat.
Proof.
  intros Hwf Ha Hne. assert (Hk : is_Some (fork_get t k)) by (by eapply ancestor_get). revert k Hk Ha Hne.
  apply (node_ind t (fun k => is_ancestor t a k = Some true -> a <> k -> _) Hwf).
  - intros k Hk Ha Hne. assert (Hg : is_Some (fork_get t k)) by (apply fork_get_parent; eauto).
    apply ancestor_step in Ha as [->|(p & Hp & _)]; [done|congruence|done|done].
  - intros k p Hk IH Ha Hne. assert (Hg : is_Some (fork_get t k)) by (apply fork_get_parent; eauto).
    destruct (fork_path t k Hwf Hg) as (l & Hl & _ & _ & Hpar). rewrite Hk in Hpar. destruct Hpar as [_ Hp].
    apply ancestor_step in Ha as [->|(q & Hq & Ha)]; [done| |done|done]. assert (q = p) as -> by congruence.
    destruct (decide (a = p)) as [->|Hap].
    + exists l, (k :: l). cbn. split_and!; [done|done|lia].
    + destruct (IH Ha Hap) as (la & lk & H1 & H2 & H3). exists la, (k :: l). cbn. assert (lk = l) as -> by congruence.
      split_and!; [done|done|lia].
Qed.

Lemma ancestor_antisym t a k :
  (exists f, fork_rep t f) -> is_ancestor t a k = Some true -> is_ancestor t k a = Some true -> a = k.
Proof.
  intros Hwf H1 H2. destruct (decide (a = k)) as [|Hne]; [done|].
  destruct (ancestor_depth t a k Hwf H1 Hne) as (l1 & l2 & E1 & E2 & ?).
  destruct (ancestor_depth t k a Hwf H2) as (l3 & l4 & E3 & E4 & ?); [done|].
  assert (l3 = l2) by congruence. assert (l4 = l1) by congruence. subst. lia.
Qed.

(** ** Insertion *)

Record inserted t t' (new : NodeIndex) (par : option NodeIndex) (d : T) : Prop := {
  in_rep : exists f, fork_rep t' f;
  in_new : fork_get t new = None;
  in_par : forall p, par = Some p -> is_Some (fork_get t p);
  in_get : forall k, fork_get t' k = if decide (k = new) then Some d else fork_get t k;
  in_parent : forall k, fork_parent t' k = if decide (k = new) then Some par else fork_parent t k
}.

Lemma fork_get_None t k : fork_get t k = None <-> nodes t !! k = None.
Proof. unfold fork_get. apply fmap_None. Qed.

Lemma fork_insert_inserted t new par d :
  (exists f, fork_rep t f) -> fork_get t new = None -> (forall p, par = Some p -> is_Some (fork_get t p)) ->
  exists t', fork_insert t new par d = Some (new, t') /\ inserted t t' new par d.
Proof.
  intros [f Hf] Hnew Hpar. destruct (fork_insert_rep t f new par d Hf) as (t' & Ht' & Hf' & Hget).
  { by apply fork_get_None. } { intros p Hp. by apply (fmap_is_Some data), Hpar. }
  exists t'. split; [done|]. split; [eauto|done|done|done|]. by eapply fork_insert_parent.
Qed.

Lemma inserted_nodes t t' new par d k :
  inserted t t' new par d -> k <> new -> nodes t !! k = None -> nodes t' !! k = None.
Proof. intros Hins Hne. rewrite <- !fork_get_None, (in_get _ _ _ _ _ Hins). by rewrite decide_False. Qed.

Lemma inserted_some t t' new par d k :
  inserted t t' new par d -> is_Some (fork_get t k) -> is_Some (fork_get t' k) /\ k <> new.
Proof.
  intros Hins Hk. pose proof (in_new _ _ _ _ _ Hins) as Hnew. assert (k <> new). { intros ->. rewrite Hnew in Hk. by destruct Hk. }
  rewrite (in_get _ _ _ _ _ Hins). by rewrite decide_False.
Qed.

(** The ancestors of the nodes that were there. *)
Lemma inserted_ancestor t t' new par d a k :
  (exists f, fork_rep t f) -> inserted t t' new par d -> is_Some (fork_get t k) ->
  is_ancestor t' a k = Some true <-> is_ancestor t a k = Some true.
Proof.
  intros Hwf Hins. revert k. pose proof (in_rep _ _ _ _ _ Hins) as Hwf'.
  assert (Hpar : forall k v, fork_parent t k = Some v -> is_Some (fork_get t k) /\ is_Some (fork_get t' k) /\ fork_parent t' k = Some v).
  { intros k v Hk. assert (Hg : is_Some (fork_get t k)) by (apply fork_get_parent; eauto).
    destruct (inserted_some _ _ _ _ _ _ Hins Hg) as [Hg' Hne]. split_and!; [done|done|].
    rewrite (in_parent _ _ _ _ _ Hins). by rewrite decide_False. }
  apply (node_ind t (fun k => is_ancestor t' a k = Some true <-> is_ancestor t a k = Some true) Hwf).
  - intros k Hk. destruct (Hpar _ _ Hk) as (? & ? & Hk'). rewrite !ancestor_step by done. rewrite Hk, Hk'.
    split; (intros [->|(q & ? & _)]; [by left|done]).
  - intros k p Hk IH. destruct (Hpar _ _ Hk) as (? & ? & Hk'). rewrite !ancestor_step by done. rewrite Hk, Hk'.
    split; (intros [->|(q & [= <-] & Ha)]; [by left|right; exists p; split; [done|by apply IH]]).
Qed.

Lemma inserted_ancestor_new t t' new par d a :
  (exists f, fork_rep t f) -> inserted t t' new par d ->
  is_ancestor t' a new = Some true <-> a = new \/ exists p, par = Some p /\ is_ancestor t a p = Some true.
Proof.
  intros Hwf Hins. pose proof (in_get _ _ _ _ _ Hins new) as Hg. rewrite decide_True in Hg by done.
  pose proof (in_parent _ _ _ _ _ Hins new) as Hp. rewrite decide_True in Hp by done.
  rewrite ancestor_step; [|by eapply in_rep|rewrite Hg; by eexists]. rewrite Hp. split; (intros [->|(p & E & Ha)]; [by left|right; exists p]).
  - injection E as ->. split; [done|]. by apply (inserted_ancestor t t' new (Some p) d a p Hwf Hins (in_par _ _ _ _ _ Hins p eq_refl)).
  - subst par. split; [done|]. by apply (inserted_ancestor t t' new (Some p) d a p Hwf Hins (in_par _ _ _ _ _ Hins p eq_refl)).
Qed.

(** ** Paths from the root *)

Lemma path_ancestors t k l a :
  (exists f, fork_rep t f) -> node_to_root_path t k = Some l -> is_Some (fork_get t k) ->
  a ∈ l <-> is_ancestor t a k = Some true.
Proof.
  intros Hwf Hl Hk. destruct (fork_path t k Hwf Hk) as (l' & Hl' & Hanc & _). assert (l = k :: l') as -> by congruence.
  rewrite Hanc. split; [intros; f_equal; by apply bool_decide_eq_true_2|]. intros [= ?%bool_decide_eq_true]. done.
Qed.

Lemma path_nodup t k l :
  (exists f, fork_rep t f) -> node_to_root_path t k = Some l -> is_Some (fork_get t k) -> NoDup l.
Proof.
  intros [f Hf] Hl Hk. assert (Hin : k ∈ fids f). { apply Hf. by apply fmap_is_Some in Hk. }
  apply fpath_is_Some in Hin as [l' Hl']. rewrite (node_to_root_path_rep _ _ _ _ Hf Hl') in Hl. injection Hl as <-.
  eapply fpath_nodup; [done|apply Hf].
Qed.

Lemma root_path_rev `{Platform} t k :
  (exists f, fork_rep t f) -> nodes t !! (2 ^ usize_bits - 1) = None -> is_Some (fork_get t k) ->
  exists l, node_to_root_path t k = Some l /\ root_to_node_path t k = Some (rev l).
Proof.
  intros [f Hf] Hmax Hk. assert (Hin : k ∈ fids f). { apply Hf. by apply fmap_is_Some in Hk. }
  apply fpath_is_Some in Hin as [l Hl]. exists l. split; [by eapply node_to_root_path_rep|by eapply root_to_node_path_rep].
Qed.

(** What leaves and what enters the chain of ancestors. *)
Lemma ascend_descend_ancestors `{Platform} t n1 n2 :
  (exists f, fork_rep t f) -> nodes t !! (2 ^ usize_bits - 1) = None -> is_Some (fork_get t n1) -> is_Some (fork_get t n2) ->
  exists up down, ascend_and_descend t n1 n2 = Some (up, down) /\ NoDup up /\ NoDup down /\
    (forall k, k ∈ up <-> is_ancestor t k n1 = Some true /\ is_ancestor t k n2 <> Some true) /\
    (forall k, k ∈ down <-> is_ancestor t k n2 = Some true /\ is_ancestor t k n1 <> Some true).
Proof.
  intros Hwf Hmax H1 H2. pose proof Hwf as [f Hf].
  destruct (ascend_and_descend_spec t f n1 n2 Hf Hmax H1 H2) as (up & down & common & E & P1 & P2 & _ & _ & Hup).
  pose proof (path_nodup _ _ _ Hwf P1 H1) as N1. pose proof (path_nodup _ _ _ Hwf P2 H2) as N2.
  apply NoDup_app in N1 as (Nu & _ & _). apply NoDup_app in N2 as (Nd & Hd & _).
  exists up, down. split; [done|]. split; [done|]. split; [by rewrite (Permutation_rev down)|].
  assert (A1 : forall k, is_ancestor t k n1 = Some true <-> k ∈ up \/ k ∈ common).
  { intros k. rewrite <- (path_ancestors _ _ _ k Hwf P1 H1). apply elem_of_app. }
  assert (A2 : forall k, is_ancestor t k n2 = Some true <-> k ∈ down \/ k ∈ common).
  { intros k. rewrite <- (path_ancestors _ _ _ k Hwf P2 H2). by rewrite elem_of_app, elem_of_rev. }
  split; intros k; rewrite A1, A2; split.
  - intros Hk. split; [by left|]. rewrite <- A2, (Hup k Hk). done.
  - intros [[?|?] Hn]; [done|]. destruct Hn. by right.
  - intros Hk. split; [by left|]. intros [Hu|Hc].
    + assert (Ha : is_ancestor t k n2 = Some true) by (apply A2; by left). by rewrite (Hup k Hu) in Ha.
    + apply (Hd k); [by apply elem_of_rev|done].
  - intros [[?|?] Hn]; [done|]. destruct Hn. by right.
Qed.

(** ** What [prune_uncles] leaves *)

Lemma fpath_funcles x k f :
  NoDup (fids f) -> x ∈ fids f -> k ∈ fids (funcles x f) -> fpath k (funcles (T := T) x f) = fpath k f.
Proof.
  induction f as [|i d cs IH1 sib IH2]; intros Hnd Hx Hk; [done|].
  apply fids_nodup in Hnd as ([Hics Hisib] & Hn1 & Hn2 & Hdisj). cbn [funcles fpath] in *.
  destruct (Z.eqb_spec i x) as [->|Hne].
  - cbn [fpath]. destruct (Z.eqb_spec x k); [done|]. rewrite fids_cons in Hk. cbn in Hk. rewrite app_nil_r in Hk.
    apply elem_of_cons in Hk as [?|Hk]; [congruence|]. apply fpath_is_Some in Hk as [l ->]. done.
  - destruct (fpath x cs) as [lx|] eqn:E.
    + cbn [fpath]. destruct (Z.eqb_spec i k); [done|]. rewrite fids_cons in Hk. cbn in Hk. rewrite app_nil_r in Hk.
      apply elem_of_cons in Hk as [?|Hk']; [congruence|].
      assert (Hxc : x ∈ fids cs) by (apply fpath_is_Some; eauto). rewrite (IH1 Hn1 Hxc Hk').
      pose proof Hk' as Hin. apply funcles_ids in Hin; [|done|done]. assert (Hkc : k ∈ fids cs).
      { destruct Hin as [Hb|Hb]; apply below_in in Hb as [? ?]; done. }
      apply fpath_is_Some in Hkc as [l ->]. done.
    + assert (Hxc : x ∉ fids cs) by (rewrite <- fpath_is_Some, E; by intros []).
      assert (Hxs : x ∈ fids sib) by (rewrite fids_cons, elem_of_cons, elem_of_app in Hx; naive_solver).
      pose proof Hk as Hin. apply funcles_ids in Hin; [|done|done]. assert (Hks : k ∈ fids sib).
      { destruct Hin as [Hb|Hb]; apply below_in in Hb as [? ?]; done. }
      rewrite (IH2 Hn2 Hxs Hk). destruct (Z.eqb_spec i k) as [->|]; [done|].
      destruct (fpath k cs) eqn:Ek; [|done]. destruct (Hdisj k); [|done]. apply fpath_is_Some. eauto.
Qed.

Lemma prune_uncles_to t x :
  (exists f, fork_rep t f) -> is_Some (fork_get t x) ->
  exists outs t', prune_uncles t x = Some (outs, t') /\ (exists f, fork_rep t' f) /\
    (forall k d, fork_get t' k = Some d <->
       fork_get t k = Some d /\ (is_ancestor t x k = Some true \/ is_ancestor t k x = Some true)) /\
    NoDup (pn_index <$> outs) /\
    (forall k d, (k, d) ∈ (item <$> outs) <->
       fork_get t k = Some d /\ ~ (is_ancestor t x k = Some true \/ is_ancestor t k x = Some true)) /\
    (forall a k, is_ancestor t' a k = Some true <->
       is_ancestor t a k = Some true /\ is_Some (fork_get t' a) /\ is_Some (fork_get t' k)).
Proof.
  intros [f Hf] Hx. destruct (prune_uncles_spec t f x Hf Hx) as (outs & t' & E & Hf' & Hget & Hnd & Houts & _).
  exists outs, t'. split; [done|]. split; [eauto|]. split; [done|]. split; [done|]. split; [done|].
  assert (Hxf : x ∈ fids f). { apply Hf. by apply fmap_is_Some in Hx. }
  assert (Hget' : forall k, is_Some (fork_get t' k) <-> k ∈ fids (funcles x f)).
  { intros k. rewrite (fr_dom _ _ Hf'). unfold fork_get. apply fmap_is_Some. }
  intros a k. rewrite (is_ancestor_rep t' _ _ _ Hf'), (is_ancestor_rep t f) by done. rewrite !Hget'. split.
  - intros Hb. pose proof (below_in _ _ _ Hb) as [Ha Hk]. split; [|done]. destruct Hb as (l & Hl & Hin).
    exists l. split; [|done]. by rewrite <- (fpath_funcles x k f (fr_nodup _ _ Hf) Hxf Hk).
  - intros ((l & Hl & Hin) & Ha & Hk). exists l. split; [|done]. by rewrite (fpath_funcles x k f (fr_nodup _ _ Hf) Hxf Hk).
Qed.

End updates.
