(* ===== verification/Allocator.v ===== *)
(** * The memory allocator ([src/src/executor/allocator.rs])

    The freeing-bump allocator that serves the allocations of the runtime. The
    linear memory is the trait [Memory] of the source, here a class with the laws
    the allocator relies on; the implementation for byte slices is an instance.

    The abstract state is the list of live allocations and, for each order, the
    list of free chunks. [heap_inv] says that the chunks tile the space between
    the base of the heap and the bumper, that the free lists stored in the memory
    are the abstract ones, and that the headers of the live chunks hold their
    orders; [allocate] and [deallocate] keep it and implement the abstract
    operations. Arithmetic is that of a build without overflow checks. *)

From stdpp Require Import strings.
From S2P Require Import Prelude.

Open Scope Z_scope.

(** ** Constants and orders *)

Inductive AllocError :=
  | RequestedAllocationTooLarge
  | AllocatorOutOfSpace
  | MemoryShrinked
  | Other (msg : string).

Definition MAX_POSSIBLE_ALLOCATION : u32 := 33554432.
Definition ALIGNMENT : u32 := 8.
Definition HEADER_SIZE : u32 := 8.
Definition N_ORDERS : usize := 23.
Definition MIN_POSSIBLE_ALLOCATION : u32 := 8.

(** [struct Order(u32)]. *)
Abbreviation Order := Z (only parsing).

Definition Order_from_raw (order : u32) : result AllocError Order :=
  if order <? N_ORDERS then Ok order else Err (Other "invalid order").

(** [u32::next_power_of_two]. *)
Definition next_power_of_two (v : Z) : Z := 2 ^ Z.log2_up v.

(** [u32::trailing_zeros]. *)
Fixpoint trailing_zeros_from (n : nat) (i v : Z) : Z :=
  match n with
  | O => i
  | S n => if Z.testbit v i then i else trailing_zeros_from n (i + 1) v
  end.
Definition trailing_zeros (v : Z) : Z := trailing_zeros_from 32 0 v.

Definition Order_from_size (size : u32) : result AllocError Order :=
  if MAX_POSSIBLE_ALLOCATION <? size then Err RequestedAllocationTooLarge
  else
    let clamped_size := if size <? MIN_POSSIBLE_ALLOCATION then MIN_POSSIBLE_ALLOCATION else size in
    let power_of_two_size := next_power_of_two clamped_size in
    Ok (wsub 32 (trailing_zeros power_of_two_size) (trailing_zeros MIN_POSSIBLE_ALLOCATION)).

Definition Order_size (self : Order) : u32 := wrap 32 (Z.shiftl MIN_POSSIBLE_ALLOCATION self).

Definition Order_into_raw (self : Order) : u32 := self.

(** ** Links and headers *)

Definition NIL_MARKER : u32 := 2 ^ 32 - 1.

Inductive Link := Nil | Ptr (p : u32).

#[export] Instance link_eq_dec : EqDecision Link.
Proof. solve_decision. Defined.

Definition Link_from_raw (raw : u32) : Link := if negb (raw =? NIL_MARKER) then Ptr raw else Nil.

Definition Link_into_raw (self : Link) : u32 :=
  match self with Nil => NIL_MARKER | Ptr ptr => ptr end.

Inductive Header := Free (l : Link) | Occupied (o : Order).

(** [trait Memory]. *)
Class Memory (M : Type) := {
  read_le_u64 : M -> u32 -> result AllocError u64;
  write_le_u64 : M -> u32 -> u64 -> result AllocError M;
  mem_size : M -> u32
}.

Section header.
Context {M : Type} `{Memory M}.

Definition Header_read_from (memory : M) (header_ptr : u32) : result AllocError Header :=
  let? raw_header := read_le_u64 memory header_ptr in
  let occupied := negb (Z.land raw_header (2 ^ 32) =? 0) in
  let header_data := wrap 32 raw_header in
  if occupied then let? order := Order_from_raw header_data in Ok (Occupied order)
  else Ok (Free (Link_from_raw header_data)).

Definition Header_write_into (self : Header) (memory : M) (header_ptr : u32) : result AllocError M :=
  let '(header_data, occupied_mask) :=
    match self with
    | Occupied order => (Order_into_raw order, 2 ^ 32)
    | Free link => (Link_into_raw link, 0)
    end in
  let raw_header := Z.lor header_data occupied_mask in
  write_le_u64 memory header_ptr raw_header.

End header.

Definition into_occupied (self : Header) : option Order :=
  match self with Occupied order => Some order | _ => None end.

Definition into_free (self : Header) : option Link :=
  match self with Free link => Some link | _ => None end.

(** ** The allocator *)

(** [struct FreeLists]; indexing out of range panics. *)
Record FreeLists := mkFreeLists { heads : list Link }.

Definition FreeLists_new : FreeLists := {| heads := replicate (Z.to_nat N_ORDERS) Nil |}.

Definition FreeLists_index (self : FreeLists) (index : Order) : option Link :=
  heads self !! Z.to_nat index.

Definition FreeLists_set (self : FreeLists) (index : Order) (new : Link) : option FreeLists :=
  let! _ := FreeLists_index self index in
  Some {| heads := <[Z.to_nat index := new]> (heads self) |}.

Definition FreeLists_replace (self : FreeLists) (order : Order) (new : Link) : option (Link * FreeLists) :=
  let! prev := FreeLists_index self order in
  let! self := FreeLists_set self order new in
  Some (prev, self).

Record FreeingBumpHeapAllocator := mkAllocator {
  bumper : u32;
  free_lists : FreeLists;
  total_size : u32;
  poisoned : bool;
  max_total_size : u32;
  max_bumper : u32;
  last_observed_memory_size : u32
}.

Definition Allocator_new (heap_base : u32) : FreeingBumpHeapAllocator :=
  let aligned_heap_base :=
    wmul 32 (wsub 32 (wadd 32 heap_base ALIGNMENT) 1 `div` ALIGNMENT) ALIGNMENT in
  {| bumper := aligned_heap_base; free_lists := FreeLists_new; total_size := 0; poisoned := false;
     max_total_size := 0; max_bumper := aligned_heap_base; last_observed_memory_size := 0 |}.

(** The drop of a [PoisonBomb] that was not disarmed. *)
Definition poison (self : FreeingBumpHeapAllocator) : FreeingBumpHeapAllocator :=
  mkAllocator (bumper self) (free_lists self) (total_size self) true (max_total_size self)
    (max_bumper self) (last_observed_memory_size self).

Definition set_free_lists (fl : FreeLists) (self : FreeingBumpHeapAllocator) : FreeingBumpHeapAllocator :=
  mkAllocator (bumper self) fl (total_size self) (poisoned self) (max_total_size self)
    (max_bumper self) (last_observed_memory_size self).
Definition set_bumper (b : u32) (self : FreeingBumpHeapAllocator) : FreeingBumpHeapAllocator :=
  mkAllocator b (free_lists self) (total_size self) (poisoned self) (max_total_size self)
    (max_bumper self) (last_observed_memory_size self).
Definition set_total_size (t : u32) (self : FreeingBumpHeapAllocator) : FreeingBumpHeapAllocator :=
  mkAllocator (bumper self) (free_lists self) t (poisoned self) (max_total_size self)
    (max_bumper self) (last_observed_memory_size self).
Definition set_last_observed (s : u32) (self : FreeingBumpHeapAllocator) : FreeingBumpHeapAllocator :=
  mkAllocator (bumper self) (free_lists self) (total_size self) (poisoned self) (max_total_size self)
    (max_bumper self) s.

(** "update trackers if needed". *)
Definition update_trackers (self : FreeingBumpHeapAllocator) : FreeingBumpHeapAllocator :=
  mkAllocator (bumper self) (free_lists self) (total_size self) (poisoned self)
    (if max_total_size self <? total_size self then total_size self else max_total_size self)
    (if max_bumper self <? bumper self then bumper self else max_bumper self)
    (last_observed_memory_size self).

(** Returns the old bumper and the new one. *)
Definition bump (bumper : u32) (size heap_end : u32) : result AllocError (u32 * u32) :=
  if heap_end <? wadd 32 bumper size then Err AllocatorOutOfSpace
  else Ok (bumper, wadd 32 bumper size).

Section allocator.
Context {M : Type} `{Memory M}.

Definition observe_memory_size (last_observed_memory_size : u32) (mem : M) : result AllocError u32 :=
  if mem_size mem <? last_observed_memory_size then Err MemoryShrinked else Ok (mem_size mem).

(** The chunk [allocate] takes, from the free list or from the bumper, with the
    allocator after that; [None] is a panic of the [assert!]. *)
Definition allocate_chunk (self : FreeingBumpHeapAllocator) (mem : M) (order : Order)
    : option (result AllocError u32 * FreeingBumpHeapAllocator) :=
  let! link := FreeLists_index (free_lists self) order in
  match link with
  | Ptr header_ptr =>
      if wadd 32 (wadd 32 header_ptr (Order_size order)) HEADER_SIZE <=? mem_size mem then
        match Header_read_from mem header_ptr with
        | Err e => Some (Err e, self)
        | Ok header =>
            match into_free header with
            | None => Some (Err (Other "free list points to a occupied header"), self)
            | Some next_free =>
                let! fl := FreeLists_set (free_lists self) order next_free in
                Some (Ok header_ptr, set_free_lists fl self)
            end
        end
      else None
  | Nil =>
      match bump (bumper self) (wadd 32 (Order_size order) HEADER_SIZE) (mem_size mem) with
      | Err e => Some (Err e, self)
      | Ok (res, bumper) => Some (Ok res, set_bumper bumper self)
      end
  end.

(** The result, the allocator and the memory; [None] is a panic. An error leaves
    the allocator poisoned. *)
Definition allocate (self : FreeingBumpHeapAllocator) (mem : M) (size : u32)
    : option (result AllocError u32 * FreeingBumpHeapAllocator * M) :=
  if poisoned self then Some (Err (Other "the allocator has been poisoned"), self, mem)
  else
    match observe_memory_size (last_observed_memory_size self) mem with
    | Err e => Some (Err e, poison self, mem)
    | Ok observed =>
        let self := set_last_observed observed self in
        match Order_from_size size with
        | Err e => Some (Err e, poison self, mem)
        | Ok order =>
            let! (chunk, self) := allocate_chunk self mem order in
            match chunk with
            | Err e => Some (Err e, poison self, mem)
            | Ok header_ptr =>
                match Header_write_into (Occupied order) mem header_ptr with
                | Err e => Some (Err e, poison self, mem)
                | Ok mem =>
                    let self := set_total_size
                      (wadd 32 (total_size self) (wadd 32 (Order_size order) HEADER_SIZE)) self in
                    let self := update_trackers self in
                    Some (Ok (wadd 32 header_ptr HEADER_SIZE), self, mem)
                end
            end
        end
    end.

Definition deallocate (self : FreeingBumpHeapAllocator) (mem : M) (ptr : u32)
    : option (result AllocError unit * FreeingBumpHeapAllocator * M) :=
  if poisoned self then Some (Err (Other "the allocator has been poisoned"), self, mem)
  else
    match observe_memory_size (last_observed_memory_size self) mem with
    | Err e => Some (Err e, poison self, mem)
    | Ok observed =>
        let self := set_last_observed observed self in
        match checked_sub 32 ptr HEADER_SIZE with
        | None => Some (Err (Other "Invalid pointer for deallocation"), poison self, mem)
        | Some header_ptr =>
            match Header_read_from mem header_ptr with
            | Err e => Some (Err e, poison self, mem)
            | Ok header =>
                match into_occupied header with
                | None => Some (Err (Other "the allocation points to an empty header"), poison self, mem)
                | Some order =>
                    let! (prev_head, fl) := FreeLists_replace (free_lists self) order (Ptr header_ptr) in
                    let self := set_free_lists fl self in
                    match Header_write_into (Free prev_head) mem header_ptr with
                    | Err e => Some (Err e, poison self, mem)
                    | Ok mem =>
                        match checked_sub 32 (total_size self) (wadd 32 (Order_size order) HEADER_SIZE) with
                        | None =>
                            Some (Err (Other "Unable to subtract from total heap size without overflow"),
                                  poison self, mem)
                        | Some total => Some (Ok tt, set_total_size total self, mem)
                        end
                    end
                end
            end
        end
    end.

End allocator.

(** ** The memory of a byte slice *)

Definition heap_range (offset length : u32) (heap_len : usize) : option (Z * Z) :=
  let start := offset in
  let! end_ := checked_add 32 offset length in
  if end_ <=? heap_len then Some (start, end_) else None.

(** [impl Memory for [u8]]; the slice has less than [2^32] bytes. *)
#[export] Instance memory_bytes : Memory (list Z) := {|
  read_le_u64 mem ptr :=
    match heap_range ptr 8 (len mem) with
    | None => Err (Other "read out of heap bounds")
    | Some (start, end_) =>
        Ok (from_le_bytes (take (Z.to_nat (end_ - start)) (drop (Z.to_nat start) mem)))
    end;
  write_le_u64 mem ptr val :=
    match heap_range ptr 8 (len mem) with
    | None => Err (Other "write out of heap bounds")
    | Some (start, end_) =>
        Ok (take (Z.to_nat start) mem ++ to_le_bytes 8 val ++ drop (Z.to_nat end_) mem)
    end;
  mem_size mem := len mem
|}.

(** ** Orders *)

(** The size of the chunks of an order. *)
Definition osize (o : Z) : Z := 2 ^ (o + 3).

Definition is_order (o : Z) : Prop := 0 <= o < 23.

Lemma osize_bounds o : is_order o -> 8 <= osize o <= 2 ^ 25.
Proof.
  intros [? ?]. unfold osize. split.
  - change 8 with (2 ^ 3). apply Z.pow_le_mono_r; lia.
  - apply Z.pow_le_mono_r; lia.
Qed.

Lemma osize_mod8 o : is_order o -> osize o `mod` 8 = 0.
Proof. intros [? ?]. unfold osize. rewrite Z.pow_add_r by lia. apply Z.mod_mul. lia. Qed.

Lemma Order_size_spec o : is_order o -> Order_size o = osize o.
Proof.
  intros Ho. pose proof (osize_bounds o Ho). destruct Ho as [? ?].
  unfold Order_size, MIN_POSSIBLE_ALLOCATION. rewrite Z.shiftl_mul_pow2 by lia.
  replace (8 * 2 ^ o) with (osize o) by (unfold osize; rewrite Z.pow_add_r by lia; lia).
  apply wrap_small. unfold is_uint. lia.
Qed.

Lemma trailing_zeros_pow2 k : 0 <= k < 32 -> trailing_zeros (2 ^ k) = k.
Proof.
  intros Hk. assert (Hall : forallb (fun k => trailing_zeros (2 ^ k) =? k) (seqZ 0 32) = true) by (by vm_compute).
  rewrite forallb_forall in Hall. apply Z.eqb_eq, Hall, list_elem_of_In, elem_of_seqZ. lia.
Qed.

(** The order of a size is the least one whose chunks are large enough. *)
Lemma Order_from_size_spec size :
  0 <= size ->
  match Order_from_size size with
  | Ok o => size <= MAX_POSSIBLE_ALLOCATION /\ is_order o /\ size <= osize o /\ (o = 0 \/ osize (o - 1) < size)
  | Err e => e = RequestedAllocationTooLarge /\ MAX_POSSIBLE_ALLOCATION < size
  end.
Proof.
  intros H0. unfold Order_from_size, MAX_POSSIBLE_ALLOCATION, MIN_POSSIBLE_ALLOCATION.
  destruct (Z.ltb_spec 33554432 size) as [?|Hmax]; [done|].
  set (c := if size <? 8 then 8 else size).
  assert (Hc : 8 <= c <= 2 ^ 25 /\ size <= c /\ (size < 8 /\ c = 8 \/ c = size)).
  { unfold c. change (2 ^ 25) with 33554432. destruct (Z.ltb_spec size 8); lia. }
  destruct Hc as (Hc & Hsc & Hcase). pose proof (Z.log2_up_spec c ltac:(lia)) as Hlog.
  assert (Hk : 3 <= Z.log2_up c <= 25).
  { change 3 with (Z.log2_up (2 ^ 3)) at 1. change 25 with (Z.log2_up (2 ^ 25)). split; apply Z.log2_up_le_mono; lia. }
  unfold next_power_of_two. rewrite trailing_zeros_pow2 by lia. change (trailing_zeros 8) with 3.
  unfold wsub. rewrite wrap_small by (unfold is_uint; lia). unfold is_order, osize.
  replace (Z.log2_up c - 3 + 3) with (Z.log2_up c) by lia.
  replace (Z.log2_up c - 3 - 1 + 3) with (Z.pred (Z.log2_up c)) by lia.
  split; [lia|]. split; [lia|]. split; [lia|].
  destruct Hcase as [[? ->]| ->]; [left; done | right; lia].
Qed.

(** ** Memory *)

(** What the allocator relies on: a write within bounds succeeds, is read back
    and changes no disjoint word. *)
Class MemoryLaws (M : Type) `{Memory M} := {
  mem_ok : M -> Prop;
  mem_size_u32 m : mem_ok m -> is_u32 (mem_size m);
  write_in_bounds m p v :
    mem_ok m -> 0 <= p -> p + 8 <= mem_size m -> is_u64 v ->
    exists m', write_le_u64 m p v = Ok m' /\ mem_ok m' /\ mem_size m' = mem_size m /\
      read_le_u64 m' p = Ok v /\
      forall q, 0 <= q -> q + 8 <= p \/ p + 8 <= q -> read_le_u64 m' q = read_le_u64 m q
}.

Lemma heap_range_Some p n l : 0 <= p -> 0 <= n -> l < 2 ^ 32 -> p + n <= l -> heap_range p n l = Some (p, p + n).
Proof.
  intros. unfold heap_range, checked_add. rewrite checked_small by (unfold is_uint; lia).
  by rewrite (proj2 (Z.leb_le _ _)) by lia.
Qed.

Lemma splice_read (mem bs : list Z) p q :
  0 <= p -> length bs = 8%nat -> p + 8 <= len mem -> 0 <= q -> q + 8 <= len mem -> q + 8 <= p \/ p + 8 <= q ->
  take 8 (drop (Z.to_nat q) (take (Z.to_nat p) mem ++ bs ++ drop (Z.to_nat (p + 8)) mem)) =
  take 8 (drop (Z.to_nat q) mem).
Proof.
  unfold len. intros Hp Hbs Hpl Hq Hql Hdis.
  assert (Ht : length (take (Z.to_nat p) mem) = Z.to_nat p) by (rewrite length_take; lia).
  destruct Hdis as [Hd|Hd].
  - rewrite drop_app_le by lia. rewrite take_app_le by (rewrite length_drop; lia).
    rewrite <- (take_drop (Z.to_nat p) mem) at 2. rewrite drop_app_le by lia.
    rewrite take_app_le by (rewrite length_drop; lia). done.
  - rewrite drop_app_ge by lia. rewrite drop_app_ge by lia. rewrite Ht, Hbs, drop_drop.
    f_equal. f_equal. lia.
Qed.

#[export] Instance memory_bytes_laws : MemoryLaws (list Z).
Proof.
  refine {| mem_ok m := is_bytes m /\ len m < 2 ^ 32 |}.
  - intros m [_ Hl]. unfold is_uint. cbn. unfold len in *. lia.
  - intros m p v [Hb Hl] Hp Hin Hv. cbn [mem_size read_le_u64 write_le_u64 memory_bytes] in *. rewrite heap_range_Some by lia. eexists. split; [done|].
    assert (Hlen : len (take (Z.to_nat p) m ++ to_le_bytes 8 v ++ drop (Z.to_nat (p + 8)) m) = len m).
    { unfold len in *. rewrite !length_app, length_take, length_drop, length_to_le_bytes. lia. }
    assert (Ht : length (take (Z.to_nat p) m) = Z.to_nat p) by (unfold len in *; rewrite length_take; lia).
    split; [split; [|by rewrite Hlen]|]; [|split; [done|split]].
    + apply Forall_app. split; [by apply Forall_take|]. apply Forall_app. split; [apply to_le_bytes_bytes|by apply Forall_drop].
    + rewrite Hlen, heap_range_Some by lia. f_equal. replace (Z.to_nat (p + 8 - p)) with 8%nat by lia.
      rewrite drop_app_ge by lia. rewrite Ht, Nat.sub_diag, drop_0.
      rewrite take_app_le by (rewrite length_to_le_bytes; lia).
      rewrite take_ge by (rewrite length_to_le_bytes; lia). apply from_to_le_bytes. exact Hv.
    + intros q Hq Hd. rewrite Hlen. unfold heap_range, checked_add.
      destruct (checked 32 (q + 8)) as [e|] eqn:Ee; [|done]. apply checked_Some in Ee as [-> _].
      destruct (Z.leb_spec (q + 8) (len m)) as [Hle|]; [|done]. f_equal. f_equal.
      replace (Z.to_nat (q + 8 - q)) with 8%nat by lia. apply splice_read; [done|apply length_to_le_bytes|done..].
Defined.

(** ** Headers *)

Definition header_valid (h : Header) : Prop :=
  match h with
  | Free Nil => True
  | Free (Ptr p) => 0 <= p < NIL_MARKER
  | Occupied o => is_order o
  end.

Section header_laws.
Context {M : Type} `{MemoryLaws M}.

Lemma land_bit32 v : 0 <= v < 2 ^ 32 -> Z.land v (2 ^ 32) = 0.
Proof.
  intros Hv. apply Z.bits_inj'. intros n Hn. rewrite Z.land_spec, Z.bits_0, Z.pow2_bits_eqb by lia.
  destruct (Z.eqb_spec 32 n) as [<-|]; [|apply andb_false_r]. rewrite andb_true_r.
  apply Z.bits_above_log2; [lia|]. destruct (Z.eq_dec v 0) as [->|]; [done|]. apply Z.log2_lt_pow2; lia.
Qed.

(** A header is read back, whatever it is. *)
Lemma Header_write_read (h : Header) (m : M) p :
  mem_ok m -> 0 <= p -> p + 8 <= mem_size m -> header_valid h ->
  exists m', Header_write_into h m p = Ok m' /\ mem_ok m' /\ mem_size m' = mem_size m /\
    Header_read_from m' p = Ok h /\
    forall q, 0 <= q -> q + 8 <= p \/ p + 8 <= q -> Header_read_from m' q = Header_read_from m q.
Proof.
  intros Hok Hp Hin Hv.
  set (raw := match h with
              | Occupied order => Z.lor order (2 ^ 32)
              | Free link => Z.lor (Link_into_raw link) 0 end).
  assert (Hraw : is_u64 raw /\ wrap 32 raw = match h with Occupied o => o | Free l => Link_into_raw l end /\
            Z.land raw (2 ^ 32) = match h with Occupied _ => 2 ^ 32 | Free _ => 0 end).
  { destruct h as [[|q]|o]; cbn in Hv; unfold raw; rewrite ?Z.lor_0_r; cbn [Link_into_raw].
    - done.
    - unfold NIL_MARKER in Hv. split; [unfold is_uint; lia|]. split; [apply wrap_small; unfold is_uint; lia|].
      apply land_bit32. lia.
    - destruct Hv as [Ho1 Ho2]. assert (Hor : Z.lor o (2 ^ 32) = o + 2 ^ 32).
      { change (2 ^ 32) with (Z.shiftl 1 32) at 1. rewrite lor_shiftl_add by lia. lia. }
      rewrite Hor. split; [unfold is_uint; lia|]. split.
      + unfold wrap. rewrite <- (Z.mul_1_l (2 ^ 32)) at 1. rewrite Z.mod_add by lia. apply Z.mod_small. lia.
      + rewrite <- Hor, Z.land_lor_distr_l, land_bit32 by lia. done. }
  destruct Hraw as (Hu & Hw & Hl).
  destruct (write_in_bounds m p raw) as (m' & Hwr & Hok' & Hsz & Hrd & Hfr); [done..|].
  exists m'. split; [|split; [done|split; [done|split]]].
  - unfold Header_write_into. by destruct h as [[|]|].
  - unfold Header_read_from. rewrite Hrd. cbn [result_bind]. rewrite Hl, Hw. destruct h as [[|q]|o]; cbn.
    + done.
    + unfold Link_from_raw. cbn in Hv. by rewrite (proj2 (Z.eqb_neq _ _)) by lia.
    + unfold Order_from_raw, N_ORDERS. cbn in Hv. destruct Hv. by rewrite (proj2 (Z.ltb_lt _ _)) by lia.
  - intros q Hq Hd. unfold Header_read_from. by rewrite (Hfr q Hq Hd).
Qed.

End header_laws.

(** ** The abstract heap *)

(** The live allocations, given by the address of the header and the order, and
    the free chunks of every order, last freed first. *)
Record Heap := mkHeap { live : list (Z * Z); free : Z -> list Z }.

Definition orders : list Z := seqZ 0 23.

Definition free_chunks (fr : Z -> list Z) : list (Z * Z) :=
  mjoin ((fun o => (fun h => (h, o)) <$> fr o) <$> orders).

Definition chunk_size (c : Z * Z) : Z := HEADER_SIZE + osize (snd c).
Definition chunk_end (c : Z * Z) : Z := fst c + chunk_size c.

Definition sum_sizes (l : list (Z * Z)) : Z := foldr (fun c s => chunk_size c + s) 0 l.

Definition chunks_disjoint (c c' : Z * Z) : Prop := chunk_end c <= fst c' \/ chunk_end c' <= fst c.

(** The chunks, last first, cover the space from [base] to [top]. *)
Fixpoint tile (base : Z) (chunks : list (Z * Z)) (top : Z) : Prop :=
  match chunks with
  | [] => top = base
  | c :: l => top = chunk_end c /\ is_order (snd c) /\ tile base l (fst c)
  end.

(** The abstract operations. *)
Definition heap_alloc (h o : Z) (hp : Heap) : Heap :=
  {| live := (h, o) :: live hp;
     free := fun o' => if o' =? o then tail (free hp o) else free hp o' |}.

Definition heap_free (h o : Z) (hp : Heap) : Heap :=
  {| live := filter (fun c => c <> (h, o)) (live hp);
     free := fun o' => if o' =? o then h :: free hp o else free hp o' |}.

Definition heap_empty : Heap := {| live := []; free := fun _ => [] |}.

Lemma tile_facts base l top :
  tile base l top -> base <= top /\ sum_sizes l = top - base /\
  forall c, c ∈ l -> base <= fst c /\ chunk_end c <= top /\ is_order (snd c).
Proof.
  revert top. induction l as [|c l IH]; intros top; cbn [tile sum_sizes foldr].
  - intros ->. split; [lia|]. split; [lia|]. by intros c ?%elem_of_nil.
  - intros (-> & Ho & (Hle & Hsum & Hin)%IH). unfold sum_sizes in *.
    pose proof (osize_bounds _ Ho). assert (chunk_end c >= fst c) by (unfold chunk_end, chunk_size, HEADER_SIZE; lia).
    split; [lia|]. split; [rewrite Hsum; unfold chunk_end; lia|].
    intros c' [->|Hc']%elem_of_cons; [split; [lia|]; split; [lia|done]|]. destruct (Hin c' Hc') as (? & ? & ?). split; [lia|]. split; [lia|done].
Qed.

Lemma tile_aligned base l top :
  base `mod` 8 = 0 -> tile base l top -> top `mod` 8 = 0 /\ forall c, c ∈ l -> fst c `mod` 8 = 0.
Proof.
  intros Hb. revert top. induction l as [|c l IH]; intros top; cbn [tile].
  - intros ->. split; [done|]. by intros c ?%elem_of_nil.
  - intros (-> & Ho & (Hm & Hin)%IH). split.
    + pose proof (osize_mod8 _ Ho). unfold chunk_end, chunk_size, HEADER_SIZE.
      rewrite Z.add_mod, Hm, (Z.add_mod 8), H by lia. done.
    + intros c' [->|?]%elem_of_cons; auto.
Qed.

Lemma tile_disjoint base l top :
  tile base l top -> NoDup l /\ forall c c', c ∈ l -> c' ∈ l -> c <> c' -> chunks_disjoint c c'.
Proof.
  revert top. induction l as [|c l IH]; intros top; cbn [tile].
  - intros _. split; [constructor|]. by intros c c' ?%elem_of_nil.
  - intros (-> & Ho & Ht). pose proof (tile_facts _ _ _ Ht) as (_ & _ & Hin). destruct (IH _ Ht) as [Hnd Hdis].
    assert (Hc : forall c', c' ∈ l -> chunk_end c' <= fst c) by (intros c' Hc'; by apply Hin).
    pose proof (osize_bounds _ Ho). split.
    + constructor; [|done]. intros Hcl%Hc. unfold chunk_end, chunk_size, HEADER_SIZE in Hcl. lia.
    + intros c1 c2 [->|H1]%elem_of_cons [->|H2]%elem_of_cons Hne; [done|right; auto|left; auto|auto].
Qed.

Lemma elem_of_free_chunks fr h o : (h, o) ∈ free_chunks fr <-> is_order o /\ h ∈ fr o.
Proof.
  unfold free_chunks. rewrite list_elem_of_join. split.
  - intros (l & Hin & (o' & -> & Ho')%list_elem_of_fmap). apply list_elem_of_fmap in Hin as (h' & [= -> ->] & Hh).
    split; [|done]. apply elem_of_seqZ in Ho'. exact Ho'.
  - intros [Ho Hh]. exists ((fun h => (h, o)) <$> fr o). split.
    + apply list_elem_of_fmap. eauto.
    + apply list_elem_of_fmap. exists o. split; [done|]. apply elem_of_seqZ. exact Ho.
Qed.

(** Taking a chunk from a free list, or putting one into it. *)
Lemma free_chunks_cons fr o h l :
  is_order o ->
  free_chunks (fun o' => if o' =? o then h :: l else fr o') ≡ₚ
  (h, o) :: free_chunks (fun o' => if o' =? o then l else fr o').
Proof.
  intros Ho. unfold free_chunks. assert (Hin : o ∈ orders) by (apply elem_of_seqZ; exact Ho).
  assert (Hnd : NoDup orders) by apply NoDup_seqZ.
  induction orders as [|o' os IH]; [by apply elem_of_nil in Hin|].
  apply NoDup_cons in Hnd as [Hno Hnd]. cbn. destruct (Z.eqb_spec o' o) as [->|Hne].
  - cbn. f_equiv. f_equiv. f_equiv. apply reflexive_eq. apply list_fmap_ext. intros i x Hx.
    destruct (Z.eqb_spec x o) as [->|]; [|done]. destruct Hno. by eapply list_elem_of_lookup_2.
  - rewrite IH; [by rewrite Permutation_middle | | done].
    apply elem_of_cons in Hin as [?|?]; [congruence|done].
Qed.

Lemma free_chunks_ext fr fr' : (forall o, fr o = fr' o) -> free_chunks fr = free_chunks fr'.
Proof. intros He. unfold free_chunks. f_equal. apply list_fmap_ext. intros i o _. by rewrite He. Qed.

Lemma sum_sizes_perm l l' : l ≡ₚ l' -> sum_sizes l = sum_sizes l'.
Proof. unfold sum_sizes. induction 1; cbn; lia. Qed.

Lemma sum_sizes_app l l' : sum_sizes (l ++ l') = sum_sizes l + sum_sizes l'.
Proof. unfold sum_sizes. induction l as [|c l IH]; cbn; [done|]. rewrite IH. lia. Qed.

Lemma sum_sizes_cons c l : sum_sizes (c :: l) = chunk_size c + sum_sizes l.
Proof. done. Qed.

Lemma sum_sizes_nonneg l : (forall c, c ∈ l -> is_order (snd c)) -> 0 <= sum_sizes l.
Proof.
  induction l as [|c l IH]; intros Hall; [done|]. rewrite sum_sizes_cons. unfold chunk_size, HEADER_SIZE.
  pose proof (osize_bounds (snd c) (Hall c ltac:(by left))).
  assert (0 <= sum_sizes l); [|lia]. apply IH. intros c' ?. apply Hall. by right.
Qed.

Lemma filter_notin `{EqDecision A} (x : A) (l : list A) : x ∉ l -> filter (fun y => y <> x) l = l.
Proof.
  induction l as [|y l IH]; [done|]. intros [Hne Hx]%not_elem_of_cons.
  rewrite filter_cons, decide_True by congruence. f_equal. auto.
Qed.

Lemma filter_out_perm `{EqDecision A} (x : A) (l : list A) :
  NoDup l -> x ∈ l -> l ≡ₚ x :: filter (fun y => y <> x) l.
Proof.
  induction 1 as [|y l Hy Hnd IH]; intros Hin; [by apply elem_of_nil in Hin|].
  rewrite filter_cons. apply elem_of_cons in Hin as [->|Hin].
  - rewrite decide_False by naive_solver. by rewrite filter_notin.
  - rewrite decide_True by congruence. rewrite Permutation_swap. f_equiv. auto.
Qed.

(** ** The invariant *)

Section heap.
Context {M : Type} `{MemoryLaws M}.

(** The free list stored in the memory. *)
Fixpoint list_rep (mem : M) (link : Link) (l : list Z) : Prop :=
  match l with
  | [] => link = Nil
  | h :: l => link = Ptr h /\ exists next, Header_read_from mem h = Ok (Free next) /\ list_rep mem next l
  end.

Record heap_inv (self : FreeingBumpHeapAllocator) (mem : M) (base : Z) (hp : Heap) : Prop := {
  hi_mem : mem_ok mem;
  hi_poisoned : poisoned self = false;
  hi_base : 0 <= base /\ base `mod` 8 = 0;
  hi_bumper : is_u32 (bumper self);
  hi_observed : last_observed_memory_size self <= mem_size mem;
  hi_chunks : exists chunks, tile base chunks (bumper self) /\
    chunks ≡ₚ live hp ++ free_chunks (free hp) /\ (chunks <> [] -> bumper self <= mem_size mem);
  hi_live : forall h o, (h, o) ∈ live hp -> Header_read_from mem h = Ok (Occupied o);
  hi_free : forall o, is_order o ->
    exists link, FreeLists_index (free_lists self) o = Some link /\ list_rep mem link (free hp o);
  hi_total : total_size self = sum_sizes (live hp)
}.

(** A memory in which the headers of some chunks are the same. *)
Lemma list_rep_ext mem mem' link l :
  (forall h, h ∈ l -> Header_read_from mem' h = Header_read_from mem h) ->
  list_rep mem link l -> list_rep mem' link l.
Proof.
  revert link. induction l as [|h l IH]; intros link Hext; [done|]. cbn.
  intros (-> & next & Hr & Hl). split; [done|]. exists next. rewrite Hext by (by left). split; [done|].
  apply IH; [|done]. intros h' Hh'. apply Hext. by right.
Qed.

(** The facts about the chunks of a heap. *)
Record chunk_facts (self : FreeingBumpHeapAllocator) (mem : M) (base : Z) (l : list (Z * Z)) : Prop := {
  cf_nodup : NoDup l;
  cf_in : forall c, c ∈ l -> base <= fst c /\ chunk_end c <= bumper self /\ is_order (snd c) /\
            fst c `mod` 8 = 0 /\ chunk_end c <= mem_size mem;
  cf_disjoint : forall c c', c ∈ l -> c' ∈ l -> c <> c' -> chunks_disjoint c c';
  cf_sum : sum_sizes l = bumper self - base
}.

Lemma heap_chunk_facts self mem base hp :
  heap_inv self mem base hp -> chunk_facts self mem base (live hp ++ free_chunks (free hp)).
Proof.
  intros [_ _ [_ Hmod] _ _ (chunks & Ht & Hperm & Htop) _ _ _].
  destruct (tile_facts _ _ _ Ht) as (_ & Hsum & Hin). destruct (tile_disjoint _ _ _ Ht) as [Hnd Hdis].
  destruct (tile_aligned _ _ _ Hmod Ht) as [_ Hal]. split.
  - by rewrite <- Hperm.
  - intros c Hc. rewrite <- Hperm in Hc. destruct (Hin c Hc) as (? & ? & ?). split; [done|]. split; [done|].
    split; [done|]. split; [auto|]. transitivity (bumper self); [done|]. apply Htop. intros ->. by apply elem_of_nil in Hc.
  - intros c c' Hc Hc'. rewrite <- Hperm in Hc, Hc'. auto.
  - by rewrite <- (sum_sizes_perm _ _ Hperm).
Qed.

(** Two headers of different chunks do not overlap. *)
Lemma headers_apart c c' :
  is_order (snd c) -> is_order (snd c') -> chunks_disjoint c c' -> fst c + 8 <= fst c' \/ fst c' + 8 <= fst c.
Proof.
  intros Ho Ho'. pose proof (osize_bounds _ Ho). pose proof (osize_bounds _ Ho').
  unfold chunks_disjoint, chunk_end, chunk_size, HEADER_SIZE. lia.
Qed.

Lemma FreeLists_set_spec fl o new link :
  FreeLists_index fl o = Some link ->
  exists fl', FreeLists_set fl o new = Some fl' /\
    forall o', 0 <= o -> 0 <= o' -> FreeLists_index fl' o' = if o' =? o then Some new else FreeLists_index fl o'.
Proof.
  intros Hi. unfold FreeLists_set. rewrite Hi. eexists. split; [done|]. intros o' ? ?.
  unfold FreeLists_index in *. cbn. destruct (Z.eqb_spec o' o) as [->|Hne].
  - apply list_lookup_insert_eq. by apply lookup_lt_Some in Hi.
  - apply list_lookup_insert_ne. lia.
Qed.

Lemma heap_inv_observe self mem base hp :
  heap_inv self mem base hp ->
  observe_memory_size (last_observed_memory_size self) mem = Ok (mem_size mem) /\
  heap_inv (set_last_observed (mem_size mem) self) mem base hp.
Proof.
  intros [? ? ? ? ? ? ? ? ?]. unfold observe_memory_size. rewrite (proj2 (Z.ltb_ge _ _)) by done.
  split; [done|]. by split.
Qed.

(** The chunk that is taken: the first of the free list, or a new one. *)
Lemma allocate_chunk_free self mem base hp o h l :
  heap_inv self mem base hp -> is_order o -> free hp o = h :: l ->
  exists fl next, allocate_chunk self mem o = Some (Ok h, set_free_lists fl self) /\ list_rep mem next l /\
    forall o', 0 <= o' -> FreeLists_index fl o' =
      if o' =? o then Some next else FreeLists_index (free_lists self) o'.
Proof.
  intros Hinv Ho Hfree. destruct (hi_free _ _ _ _ Hinv o Ho) as (link & Hidx & Hrep).
  rewrite Hfree in Hrep. destruct Hrep as (-> & next & Hrd & Hl).
  destruct (FreeLists_set_spec _ _ next _ Hidx) as (fl & Hset & Hfl). exists fl, next.
  assert (Hin : (h, o) ∈ live hp ++ free_chunks (free hp)).
  { apply elem_of_app. right. apply elem_of_free_chunks. rewrite Hfree. split; [done|by left]. }
  destruct (cf_in _ _ _ _ (heap_chunk_facts _ _ _ _ Hinv) _ Hin) as (Hb & _ & _ & _ & Hend).
  destruct (hi_base _ _ _ _ Hinv) as [? _]. pose proof (mem_size_u32 mem (hi_mem _ _ _ _ Hinv)) as Hsz.
  pose proof (osize_bounds o Ho). unfold chunk_end, chunk_size, HEADER_SIZE in Hend. cbn in Hend, Hb.
  split; [|split; [done|]].
  - unfold allocate_chunk. rewrite Hidx, Order_size_spec by done. unfold wadd, HEADER_SIZE.
    rewrite (wrap_small 32 (h + osize o)), wrap_small by (unfold is_uint in *; lia).
    rewrite (proj2 (Z.leb_le _ _)) by lia. rewrite Hrd. cbn. by rewrite Hset.
  - intros o' ?. apply Hfl; [|done]. destruct Ho. lia.
Qed.

Lemma allocate_chunk_bump self mem base hp o :
  heap_inv self mem base hp -> is_order o -> free hp o = [] ->
  bumper self + MAX_POSSIBLE_ALLOCATION + HEADER_SIZE < 2 ^ 32 ->
  allocate_chunk self mem o =
    Some (if mem_size mem <? bumper self + chunk_size (bumper self, o) then (Err AllocatorOutOfSpace, self)
          else (Ok (bumper self), set_bumper (bumper self + chunk_size (bumper self, o)) self)).
Proof.
  intros Hinv Ho Hfree Hb. destruct (hi_free _ _ _ _ Hinv o Ho) as (link & Hidx & Hrep).
  rewrite Hfree in Hrep. cbn in Hrep. subst link. pose proof (osize_bounds o Ho).
  pose proof (hi_bumper _ _ _ _ Hinv). unfold MAX_POSSIBLE_ALLOCATION, HEADER_SIZE in *.
  change (2 ^ 25) with 33554432 in *. unfold is_uint in *.
  unfold allocate_chunk. rewrite Hidx, Order_size_spec by done. unfold bump, wadd, chunk_size, HEADER_SIZE. cbn [snd].
  rewrite (wrap_small 32 (osize o + 8)), wrap_small by (unfold is_uint; lia).
  replace (bumper self + (osize o + 8)) with (bumper self + (8 + osize o)) by lia.
  by destruct (mem_size mem <? bumper self + (8 + osize o)).
Qed.

(** The header of the chunk is written: what the other chunks see. *)
Lemma write_header_inv self mem mem' base hp h o live' fr' :
  is_order o -> mem_size mem' = mem_size mem ->
  (forall q, 0 <= q -> q + 8 <= h \/ h + 8 <= q -> Header_read_from mem' q = Header_read_from mem q) ->
  heap_inv self mem base hp ->
  forall chunks top, tile base chunks top -> chunks ≡ₚ live' ++ free_chunks fr' -> (h, o) ∈ chunks ->
  forall c, c ∈ chunks -> c <> (h, o) -> Header_read_from mem' (fst c) = Header_read_from mem (fst c).
Proof.
  intros Ho Hsz Hfr Hinv chunks top Ht Hperm Hin c Hc Hne.
  destruct (tile_facts _ _ _ Ht) as (_ & _ & Hfacts). destruct (tile_disjoint _ _ _ Ht) as [_ Hdis].
  destruct (hi_base _ _ _ _ Hinv) as [? _]. destruct (Hfacts c Hc) as (? & _ & Hco).
  apply Hfr; [lia|]. apply (headers_apart c (h, o)); [done|done|]. by apply Hdis.
Qed.

Lemma alloc_inv self mem base hp self' mem' h o :
  heap_inv self mem base hp -> is_order o ->
  poisoned self' = false -> last_observed_memory_size self' = mem_size mem -> is_u32 (bumper self') ->
  total_size self' = total_size self + chunk_size (h, o) ->
  (exists chunks, tile base chunks (bumper self') /\
     chunks ≡ₚ live (heap_alloc h o hp) ++ free_chunks (free (heap_alloc h o hp)) /\
     (chunks <> [] -> bumper self' <= mem_size mem)) ->
  (forall o', is_order o' -> exists link, FreeLists_index (free_lists self') o' = Some link /\
     list_rep mem link (free (heap_alloc h o hp) o')) ->
  mem_ok mem' -> mem_size mem' = mem_size mem -> Header_read_from mem' h = Ok (Occupied o) ->
  (forall q, 0 <= q -> q + 8 <= h \/ h + 8 <= q -> Header_read_from mem' q = Header_read_from mem q) ->
  heap_inv self' mem' base (heap_alloc h o hp).
Proof.
  intros Hinv Ho Hpo Hobs Hb Htot (chunks & Ht & Hperm & Htop) Hfl Hok Hsz Hrd Hfr.
  assert (Hin : (h, o) ∈ chunks) by (rewrite Hperm; apply elem_of_app; left; by left).
  pose proof (write_header_inv _ _ _ _ _ _ _ _ _ Ho Hsz Hfr Hinv _ _ Ht Hperm Hin) as Hother.
  destruct (tile_disjoint _ _ _ Ht) as [Hnd _]. rewrite Hperm in Hnd. apply NoDup_app in Hnd as (_ & Hsep & _).
  split; try done.
  - apply Hinv.
  - rewrite Hobs, Hsz. done.
  - exists chunks. by rewrite Hsz.
  - intros h' o' Hl. destruct (decide ((h', o') = (h, o))) as [[= -> ->]|Hne]; [done|].
    assert (Hc : (h', o') ∈ chunks) by (rewrite Hperm; apply elem_of_app; by left).
    apply (Hother _ Hc) in Hne. cbn in Hne. rewrite Hne.
    apply elem_of_cons in Hl as [[= -> ->]|Hl]; [congruence|]. by apply Hinv.
  - intros o' Ho'. destruct (Hfl o' Ho') as (link & Hidx & Hrep). exists link. split; [done|].
    eapply list_rep_ext; [|done]. intros h' Hh'.
    assert (Hc : (h', o') ∈ free_chunks (free (heap_alloc h o hp))) by (by apply elem_of_free_chunks).
    apply (Hother (h', o')); [rewrite Hperm; apply elem_of_app; by right|].
    intros [= -> ->]. apply (Hsep (h, o)); [by left|done].
  - rewrite Htot, (hi_total _ _ _ _ Hinv). cbn [heap_alloc live]. rewrite sum_sizes_cons. lia.
Qed.

(** The bookkeeping of a successful allocation. *)
Lemma allocate_finish self mem base hp o h self1 size :
  heap_inv self mem base hp -> Order_from_size size = Ok o -> is_order o ->
  allocate_chunk (set_last_observed (mem_size mem) self) mem o = Some (Ok h, self1) ->
  poisoned self1 = false -> last_observed_memory_size self1 = mem_size mem -> is_u32 (bumper self1) ->
  total_size self1 = total_size self ->
  (exists chunks, tile base chunks (bumper self1) /\
     chunks ≡ₚ live (heap_alloc h o hp) ++ free_chunks (free (heap_alloc h o hp)) /\
     bumper self1 <= mem_size mem) ->
  (forall o', is_order o' -> exists link, FreeLists_index (free_lists self1) o' = Some link /\
     list_rep mem link (free (heap_alloc h o hp) o')) ->
  exists self' mem', allocate self mem size = Some (Ok (h + HEADER_SIZE), self', mem') /\
    heap_inv self' mem' base (heap_alloc h o hp) /\ mem_size mem' = mem_size mem.
Proof.
  intros Hinv Hsize Ho Hchunk Hpo Hobs Hb Htot (chunks & Ht & Hperm & Htop) Hfl.
  destruct (heap_inv_observe _ _ _ _ Hinv) as [Hobserve _].
  assert (Hin : (h, o) ∈ chunks) by (rewrite Hperm; apply elem_of_app; left; by left).
  destruct (tile_facts _ _ _ Ht) as (_ & Hsum & Hfacts). destruct (Hfacts _ Hin) as (Hbase & Hend & _).
  destruct (hi_base _ _ _ _ Hinv) as [? _]. pose proof (osize_bounds o Ho).
  unfold chunk_end, chunk_size, HEADER_SIZE in Hend. cbn in Hend, Hbase.
  destruct (Header_write_read (Occupied o) mem h) as (mem' & Hwr & Hok' & Hsz & Hrd & Hfr);
    [apply Hinv | lia | lia | done |].
  pose proof (mem_size_u32 mem (hi_mem _ _ _ _ Hinv)) as Hu32.
  assert (Hall : forall c, c ∈ chunks -> is_order (snd c)) by (intros c Hc; by apply Hfacts).
  assert (Hsums : 0 <= sum_sizes (live hp) /\ sum_sizes (live hp) + chunk_size (h, o) <= bumper self1 - base).
  { rewrite <- Hsum, (sum_sizes_perm _ _ Hperm), sum_sizes_app. cbn [heap_alloc live]. rewrite sum_sizes_cons.
    assert (0 <= sum_sizes (live hp) /\ 0 <= sum_sizes (free_chunks (free (heap_alloc h o hp)))); [|lia].
    split; apply sum_sizes_nonneg; intros c Hc; apply Hall; rewrite Hperm; apply elem_of_app;
      [left; by right | by right]. }
  pose proof (hi_total _ _ _ _ Hinv) as Htotal. unfold chunk_size, HEADER_SIZE in Hsums. cbn [snd] in Hsums.
  unfold allocate. rewrite (hi_poisoned _ _ _ _ Hinv), Hobserve, Hsize, Hchunk, Hwr, Htot, Order_size_spec by done.
  unfold wadd, HEADER_SIZE. unfold is_uint in *.
  rewrite !(wrap_small 32 (osize o + 8)), (wrap_small 32 (h + 8)), wrap_small by (unfold is_uint; lia).
  eexists _, mem'. split; [reflexivity|]. split; [|done].
  eapply (alloc_inv self mem base hp); try done; cbn [bumper total_size set_total_size update_trackers].
  - unfold chunk_size, HEADER_SIZE. cbn. lia.
  - exists chunks. done.
Qed.

(** The two ways to a new allocation keep the tiling. *)
Lemma alloc_free_perm hp o h l :
  is_order o -> free hp o = h :: l ->
  live hp ++ free_chunks (free hp) ≡ₚ live (heap_alloc h o hp) ++ free_chunks (free (heap_alloc h o hp)).
Proof.
  intros Ho Hfree. cbn [heap_alloc live free]. rewrite Hfree. cbn [tail app]. rewrite Permutation_middle. f_equiv.
  rewrite <- free_chunks_cons by done. apply reflexive_eq, free_chunks_ext.
  intros o'. destruct (Z.eqb_spec o' o); congruence.
Qed.

Lemma alloc_bump_perm hp o h :
  free hp o = [] ->
  (h, o) :: live hp ++ free_chunks (free hp) ≡ₚ live (heap_alloc h o hp) ++ free_chunks (free (heap_alloc h o hp)).
Proof.
  intros Hfree. cbn [heap_alloc live free app]. f_equiv. f_equiv. apply reflexive_eq, free_chunks_ext.
  intros o'. rewrite Hfree. destruct (Z.eqb_spec o' o) as [->|]; done.
Qed.

Lemma allocate_free_ok self mem base hp size o h l :
  heap_inv self mem base hp -> Order_from_size size = Ok o -> is_order o -> free hp o = h :: l ->
  exists self' mem', allocate self mem size = Some (Ok (h + HEADER_SIZE), self', mem') /\
    heap_inv self' mem' base (heap_alloc h o hp) /\ mem_size mem' = mem_size mem.
Proof.
  intros Hinv Eo Ho Ef. destruct (heap_inv_observe _ _ _ _ Hinv) as [Hobs Hinv1].
  destruct (allocate_chunk_free _ _ _ _ _ _ _ Hinv1 Ho Ef) as (fl & next & Hchunk & Hl & Hfl).
  eapply (allocate_finish _ _ _ _ _ _ _ _ Hinv Eo Ho Hchunk); try done.
  - apply Hinv.
  - apply Hinv.
  - destruct (hi_chunks _ _ _ _ Hinv) as (chunks & Ht & Hperm & Htop).
    exists chunks. split; [done|]. split; [by rewrite Hperm, (alloc_free_perm hp o h l)|]. apply Htop.
    intros ->. assert (Hin : (h, o) ∈ ([] : list (Z * Z))); [|by apply elem_of_nil in Hin].
    rewrite Hperm. apply elem_of_app. right. apply elem_of_free_chunks. rewrite Ef. split; [done|by left].
  - intros o' Ho'. cbn. rewrite Hfl by (by destruct Ho'). destruct (Z.eqb_spec o' o) as [->|].
    + exists next. by rewrite Ef.
    + apply Hinv1. done.
Qed.

Lemma allocate_bump_ok self mem base hp size o :
  heap_inv self mem base hp -> Order_from_size size = Ok o -> is_order o -> free hp o = [] ->
  bumper self + MAX_POSSIBLE_ALLOCATION + HEADER_SIZE < 2 ^ 32 ->
  bumper self + chunk_size (bumper self, o) <= mem_size mem ->
  exists self' mem', allocate self mem size = Some (Ok (bumper self + HEADER_SIZE), self', mem') /\
    heap_inv self' mem' base (heap_alloc (bumper self) o hp) /\ mem_size mem' = mem_size mem.
Proof.
  intros Hinv Eo Ho Ef Hb Hge. destruct (heap_inv_observe _ _ _ _ Hinv) as [Hobs Hinv1].
  pose proof (allocate_chunk_bump _ _ _ _ _ Hinv1 Ho Ef Hb) as Hchunk. cbn [bumper set_last_observed] in Hchunk.
  rewrite (proj2 (Z.ltb_ge _ _)) in Hchunk by done.
  eapply (allocate_finish _ _ _ _ _ _ _ _ Hinv Eo Ho Hchunk); try done.
  - apply Hinv.
  - pose proof (hi_bumper _ _ _ _ Hinv). pose proof (mem_size_u32 mem (hi_mem _ _ _ _ Hinv)).
    pose proof (osize_bounds o Ho). unfold is_uint, chunk_size, HEADER_SIZE in *. cbn in *. lia.
  - destruct (hi_chunks _ _ _ _ Hinv) as (chunks & Ht & Hperm & _).
    exists ((bumper self, o) :: chunks). cbn [tile fst snd]. split; [done|]. split; [|done].
    rewrite <- alloc_bump_perm, Hperm by done. done.
  - intros o' Ho'. destruct (hi_free _ _ _ _ Hinv o' Ho') as (link & Hidx & Hrep). exists link. split; [done|].
    cbn. destruct (Z.eqb_spec o' o) as [->|]; [by rewrite Ef in *|done].
Qed.

Lemma allocate_out_of_space self mem base hp size o :
  heap_inv self mem base hp -> Order_from_size size = Ok o -> is_order o -> free hp o = [] ->
  bumper self + MAX_POSSIBLE_ALLOCATION + HEADER_SIZE < 2 ^ 32 ->
  mem_size mem < bumper self + chunk_size (bumper self, o) ->
  exists self', allocate self mem size = Some (Err AllocatorOutOfSpace, self', mem) /\ poisoned self' = true.
Proof.
  intros Hinv Eo Ho Ef Hb Hlt. destruct (heap_inv_observe _ _ _ _ Hinv) as [Hobs Hinv1].
  pose proof (allocate_chunk_bump _ _ _ _ _ Hinv1 Ho Ef Hb) as Hchunk. cbn [bumper set_last_observed] in Hchunk.
  rewrite (proj2 (Z.ltb_lt _ _)) in Hchunk by done. unfold allocate.
  rewrite (hi_poisoned _ _ _ _ Hinv), Hobs, Eo, Hchunk. by eexists.
Qed.

(** What the new invariant says of the new chunk. *)
Lemma alloc_post self' mem' base hp h o :
  is_order o -> heap_inv self' mem' base (heap_alloc h o hp) ->
  (h + HEADER_SIZE) `mod` 8 = 0 /\ h + HEADER_SIZE + Order_size o <= mem_size mem' /\
  forall c, c ∈ live hp -> chunks_disjoint (h, o) c.
Proof.
  intros Ho Hinv'. pose proof (heap_chunk_facts _ _ _ _ Hinv') as Hcf.
  assert (Hin : (h, o) ∈ live (heap_alloc h o hp) ++ free_chunks (free (heap_alloc h o hp)))
    by (apply elem_of_app; left; by left).
  destruct (cf_in _ _ _ _ Hcf _ Hin) as (_ & _ & _ & Hal & Hend). cbn [fst] in Hal.
  rewrite Order_size_spec by done. unfold chunk_end, chunk_size in Hend. cbn in Hend. split; [|split; [lia|]].
  - unfold HEADER_SIZE. rewrite Z.add_mod, Hal by lia. done.
  - intros c Hc. apply (cf_disjoint _ _ _ _ Hcf); [done | apply elem_of_app; left; by right |].
    intros <-. pose proof (cf_nodup _ _ _ _ Hcf) as Hnd. cbn in Hnd. apply NoDup_cons in Hnd as [Hn _].
    apply Hn, elem_of_app. by left.
Qed.

(** [allocate] on a well-formed heap, as long as the bumper cannot wrap
    around: it does not panic. It fails only if the size is above the maximum, or
    if no chunk of the order is free and the bumper cannot advance, and then the
    allocator is poisoned and the memory is not changed. Otherwise the pointer is
    aligned to eight bytes, its chunk is large enough, lies in the memory and is
    disjoint from every live allocation, and the heap is well formed again with
    the chunk among the live ones. *)
Theorem allocate_spec (self : FreeingBumpHeapAllocator) (mem : M) (base : Z) (hp : Heap) (size : u32) :
  heap_inv self mem base hp -> is_u32 size ->
  bumper self + MAX_POSSIBLE_ALLOCATION + HEADER_SIZE < 2 ^ 32 ->
  exists out self' mem', allocate self mem size = Some (out, self', mem') /\
    match out with
    | Ok ptr => exists o,
        Order_from_size size = Ok o /\ size <= Order_size o /\ ptr `mod` 8 = 0 /\
        ptr + Order_size o <= mem_size mem /\
        (forall c, c ∈ live hp -> chunks_disjoint (ptr - HEADER_SIZE, o) c) /\
        heap_inv self' mem' base (heap_alloc (ptr - HEADER_SIZE) o hp) /\ mem_size mem' = mem_size mem
    | Err e =>
        poisoned self' = true /\ mem' = mem /\
        ((e = RequestedAllocationTooLarge /\ MAX_POSSIBLE_ALLOCATION < size) \/
         (e = AllocatorOutOfSpace /\ exists o, Order_from_size size = Ok o /\ free hp o = [] /\
            mem_size mem < bumper self + HEADER_SIZE + Order_size o))
    end.
Proof.
  intros Hinv Hsz Hb. pose proof (Order_from_size_spec size (proj1 Hsz)) as Hord.
  destruct (Order_from_size size) as [o|e] eqn:Eo.
  2:{ exists (Err e), (poison (set_last_observed (mem_size mem) self)), mem. destruct Hord as [-> ?].
      unfold allocate. rewrite (hi_poisoned _ _ _ _ Hinv), (proj1 (heap_inv_observe _ _ _ _ Hinv)), Eo.
      split; [done|]. auto. }
  destruct Hord as (_ & Ho & Hle & _). rewrite <- Order_size_spec in Hle by done.
  assert (Hok : (exists h self' mem', allocate self mem size = Some (Ok (h + HEADER_SIZE), self', mem') /\
              heap_inv self' mem' base (heap_alloc h o hp) /\ mem_size mem' = mem_size mem) \/
            (free hp o = [] /\ mem_size mem < bumper self + chunk_size (bumper self, o))).
  { destruct (free hp o) as [|h l] eqn:Ef; [|left; exists h; by eapply allocate_free_ok].
    destruct (Z.lt_ge_cases (mem_size mem) (bumper self + chunk_size (bumper self, o))) as [Hlt|Hge]; [by right|left].
    exists (bumper self). by apply allocate_bump_ok. }
  destruct Hok as [(h & self' & mem' & Hrun & Hinv' & Hszm)|[Ef Hlt]].
  - eexists _, self', mem'. split; [exact Hrun|]. destruct (alloc_post _ _ _ _ _ _ Ho Hinv') as (H1 & H2 & H3).
    replace (h + HEADER_SIZE - HEADER_SIZE) with h by (unfold HEADER_SIZE; lia). rewrite Hszm in H2. by exists o.
  - destruct (allocate_out_of_space _ _ _ _ _ _ Hinv Eo Ho Ef Hb Hlt) as (self' & Hrun & Hp).
    eexists _, self', mem. split; [exact Hrun|]. split; [done|]. split; [done|]. right. split; [done|].
    exists o. split; [done|]. split; [done|]. rewrite Order_size_spec by done. unfold chunk_size in Hlt. cbn in Hlt. lia.
Qed.

(** *** Deallocation *)

Lemma dealloc_perm hp h o :
  is_order o -> NoDup (live hp) -> (h, o) ∈ live hp ->
  live hp ++ free_chunks (free hp) ≡ₚ live (heap_free h o hp) ++ free_chunks (free (heap_free h o hp)).
Proof.
  intros Ho Hnd Hin. cbn [heap_free live free]. rewrite free_chunks_cons by done.
  rewrite <- Permutation_middle. rewrite (filter_out_perm (h, o) (live hp)) at 1 by done. cbn. f_equiv. f_equiv.
  apply reflexive_eq, free_chunks_ext. intros o'. destruct (Z.eqb_spec o' o) as [->|]; done.
Qed.

(** The facts about a live chunk that deallocation needs. *)
Lemma live_chunk self mem base hp h o :
  heap_inv self mem base hp -> (h, o) ∈ live hp ->
  is_order o /\ 0 <= h /\ h + HEADER_SIZE + osize o <= mem_size mem /\
  NoDup (live hp) /\
  total_size self = chunk_size (h, o) + sum_sizes (filter (fun c => c <> (h, o)) (live hp)) /\
  0 <= sum_sizes (filter (fun c => c <> (h, o)) (live hp)) /\ is_u32 (total_size self).
Proof.
  intros Hinv Hlive. pose proof (heap_chunk_facts _ _ _ _ Hinv) as Hcf.
  assert (Hin : (h, o) ∈ live hp ++ free_chunks (free hp)) by (apply elem_of_app; by left).
  destruct (cf_in _ _ _ _ Hcf _ Hin) as (Hbase & _ & Ho & _ & Hmem). cbn [fst snd] in *.
  destruct (hi_base _ _ _ _ Hinv) as [? _]. pose proof (osize_bounds o Ho).
  unfold chunk_end, chunk_size in Hmem. cbn in Hmem.
  assert (Hnd : NoDup (live hp)) by (pose proof (cf_nodup _ _ _ _ Hcf) as Hn; by apply NoDup_app in Hn as (? & _)).
  assert (Hnn : 0 <= sum_sizes (filter (fun c => c <> (h, o)) (live hp))).
  { apply sum_sizes_nonneg. intros c [_ Hc]%list_elem_of_filter. apply (cf_in _ _ _ _ Hcf), elem_of_app. by left. }
  assert (Hnf : 0 <= sum_sizes (free_chunks (free hp))).
  { apply sum_sizes_nonneg. intros c Hc. apply (cf_in _ _ _ _ Hcf), elem_of_app. by right. }
  pose proof (hi_total _ _ _ _ Hinv) as Htot.
  pose proof (sum_sizes_perm _ _ (filter_out_perm _ _ Hnd Hlive)) as Hsum. rewrite sum_sizes_cons in Hsum.
  pose proof (cf_sum _ _ _ _ Hcf) as Hall. rewrite sum_sizes_app in Hall.
  pose proof (hi_bumper _ _ _ _ Hinv) as Hb. unfold is_uint in *.
  split; [done|]. split; [lia|]. split; [lia|]. split; [done|]. split; [lia|]. split; [done|].
  unfold chunk_size, HEADER_SIZE in *. cbn in *. lia.
Qed.

Lemma free_head_valid self mem base hp o link :
  heap_inv self mem base hp -> is_order o -> list_rep mem link (free hp o) -> header_valid (Free link).
Proof.
  intros Hinv Ho Hrep. destruct (free hp o) as [|h' l] eqn:Ef; cbn in Hrep; [by subst|]. destruct Hrep as [-> _].
  assert (Hin' : (h', o) ∈ live hp ++ free_chunks (free hp)).
  { apply elem_of_app. right. apply elem_of_free_chunks. rewrite Ef. split; [done|by left]. }
  destruct (cf_in _ _ _ _ (heap_chunk_facts _ _ _ _ Hinv) _ Hin') as (? & _ & _ & _ & Hend).
  destruct (hi_base _ _ _ _ Hinv) as [? _]. pose proof (osize_bounds o Ho).
  pose proof (mem_size_u32 mem (hi_mem _ _ _ _ Hinv)) as Hu.
  unfold chunk_end, chunk_size, HEADER_SIZE, is_uint in *. cbn in *. unfold NIL_MARKER. lia.
Qed.

Lemma dealloc_inv self mem base hp self' mem' h o link :
  heap_inv self mem base hp -> (h, o) ∈ live hp ->
  poisoned self' = false -> last_observed_memory_size self' = mem_size mem -> bumper self' = bumper self ->
  total_size self' = total_size self - chunk_size (h, o) -> list_rep mem link (free hp o) ->
  (forall o', is_order o' -> FreeLists_index (free_lists self') o' =
     if o' =? o then Some (Ptr h) else FreeLists_index (free_lists self) o') ->
  mem_ok mem' -> mem_size mem' = mem_size mem -> Header_read_from mem' h = Ok (Free link) ->
  (forall q, 0 <= q -> q + 8 <= h \/ h + 8 <= q -> Header_read_from mem' q = Header_read_from mem q) ->
  heap_inv self' mem' base (heap_free h o hp).
Proof.
  intros Hinv Hlive Hpo Hobs Hb Htot Hrep Hfl Hok Hsz Hrd Hfr.
  destruct (live_chunk _ _ _ _ _ _ Hinv Hlive) as (Ho & _ & _ & Hnd & Hsum & _).
  pose proof (dealloc_perm hp h o Ho Hnd Hlive) as Hperm'.
  destruct (hi_chunks _ _ _ _ Hinv) as (chunks & Ht & Hperm & Htop).
  assert (Hin : (h, o) ∈ chunks) by (rewrite Hperm; apply elem_of_app; by left).
  pose proof (write_header_inv _ _ _ _ _ _ _ _ _ Ho Hsz Hfr Hinv _ _ Ht Hperm Hin) as Hother.
  destruct (tile_disjoint _ _ _ Ht) as [Hndc _]. rewrite Hperm in Hndc. apply NoDup_app in Hndc as (_ & Hsep & _).
  assert (Hlist : forall o' link', is_order o' -> list_rep mem link' (free hp o') -> list_rep mem' link' (free hp o')).
  { intros o' link' Ho' Hr. eapply list_rep_ext; [|done]. intros h' Hh'.
    assert (Hc : (h', o') ∈ free_chunks (free hp)) by (by apply elem_of_free_chunks).
    apply (Hother (h', o')); [rewrite Hperm; apply elem_of_app; by right|].
    intros [= -> ->]. by apply (Hsep (h, o)). }
  split; try done.
  - apply Hinv.
  - rewrite Hb. apply Hinv.
  - rewrite Hobs, Hsz. done.
  - exists chunks. rewrite Hb, Hsz. split; [done|]. split; [by rewrite Hperm|done].
  - intros h' o' [Hne Hl]%list_elem_of_filter.
    assert (Hc : (h', o') ∈ chunks) by (rewrite Hperm; apply elem_of_app; by left).
    apply (Hother _ Hc) in Hne. cbn in Hne. rewrite Hne. by apply Hinv.
  - intros o' Ho'. rewrite Hfl by done. cbn. destruct (Z.eqb_spec o' o) as [->|Hne].
    + exists (Ptr h). split; [done|]. split; [done|]. exists link. auto.
    + destruct (hi_free _ _ _ _ Hinv o' Ho') as (link' & ? & ?). exists link'. auto.
  - rewrite Htot, Hsum. cbn [heap_free live]. lia.
Qed.

Lemma list_rep_header mem link l h : list_rep mem link l -> h ∈ l -> exists next, Header_read_from mem h = Ok (Free next).
Proof.
  revert link. induction l as [|h' l IH]; intros link; [by intros _ ?%elem_of_nil|].
  intros (_ & next & Hr & Hl) [->|Hin]%elem_of_cons; eauto.
Qed.

Lemma deallocate_ok (self : FreeingBumpHeapAllocator) (mem : M) (base : Z) (hp : Heap) (h o : Z) :
  heap_inv self mem base hp -> (h, o) ∈ live hp ->
  exists self' mem', deallocate self mem (h + HEADER_SIZE) = Some (Ok tt, self', mem') /\
    heap_inv self' mem' base (heap_free h o hp) /\ mem_size mem' = mem_size mem /\
    bumper self' = bumper self.
Proof.
  intros Hinv Hlive. destruct (live_chunk _ _ _ _ _ _ Hinv Hlive) as (Ho & Hh & Hend & _ & Hsum & Hnn & Htu).
  pose proof (osize_bounds o Ho). pose proof (mem_size_u32 mem (hi_mem _ _ _ _ Hinv)) as Hu.
  destruct (hi_free _ _ _ _ Hinv o Ho) as (link & Hidx & Hrep).
  destruct (Header_write_read (Free link) mem h) as (mem' & Hwr & Hok' & Hsz & Hrd & Hfr);
    [apply Hinv | done | unfold HEADER_SIZE in *; lia | by eapply free_head_valid |].
  destruct (FreeLists_set_spec _ _ (Ptr h) _ Hidx) as (fl & Hset & Hfl).
  destruct (heap_inv_observe _ _ _ _ Hinv) as [Hobs _].
  unfold deallocate. rewrite (hi_poisoned _ _ _ _ Hinv), Hobs. unfold checked_sub.
  unfold is_uint, chunk_size, HEADER_SIZE in *. cbn [snd] in Hsum.
  replace (h + 8 - 8) with h by lia. rewrite checked_small by (unfold is_uint; lia).
  rewrite (hi_live _ _ _ _ Hinv h o Hlive). cbn [into_occupied]. unfold FreeLists_replace.
  cbn [free_lists set_last_observed]. rewrite Hidx, Hset, Hwr, Order_size_spec by done. unfold wadd.
  rewrite (wrap_small 32 (osize o + 8)) by (unfold is_uint; lia). cbn [total_size set_free_lists set_last_observed].
  rewrite checked_small by (unfold is_uint; lia).
  eexists _, mem'. split; [reflexivity|]. split; [|done].
  eapply (dealloc_inv self mem base hp _ _ h o link); try done; cbn [poisoned total_size free_lists set_total_size].
  - apply Hinv.
  - unfold chunk_size, HEADER_SIZE. cbn. lia.
  - intros o' Ho'. cbn. apply Hfl; [by destruct Ho | by destruct Ho'].
Qed.

(** [deallocate] of the pointer of a live allocation succeeds, and the heap
    is well formed again with the chunk in front of the free list of its order,
    so that the next allocation of this order takes it. [deallocate] of the
    pointer of a chunk that is already free is an error, which poisons the
    allocator and leaves the memory as it is. *)
Theorem deallocate_spec (self : FreeingBumpHeapAllocator) (mem : M) (base : Z) (hp : Heap) (h o : Z) :
  heap_inv self mem base hp ->
  ((h, o) ∈ live hp ->
     exists self' mem', deallocate self mem (h + HEADER_SIZE) = Some (Ok tt, self', mem') /\
       heap_inv self' mem' base (heap_free h o hp) /\ mem_size mem' = mem_size mem /\
       bumper self' = bumper self) /\
  (is_order o -> h ∈ free hp o ->
     exists e self', deallocate self mem (h + HEADER_SIZE) = Some (Err e, self', mem) /\ poisoned self' = true).
Proof.
  intros Hinv. split; [by apply deallocate_ok|]. intros Ho Hfree.
  destruct (hi_free _ _ _ _ Hinv o Ho) as (link & _ & Hrep).
  destruct (list_rep_header _ _ _ _ Hrep Hfree) as [next Hrd].
  assert (Hin : (h, o) ∈ live hp ++ free_chunks (free hp)).
  { apply elem_of_app. right. by apply elem_of_free_chunks. }
  destruct (cf_in _ _ _ _ (heap_chunk_facts _ _ _ _ Hinv) _ Hin) as (? & _ & _ & _ & Hend).
  destruct (hi_base _ _ _ _ Hinv) as [? _]. pose proof (osize_bounds o Ho).
  pose proof (mem_size_u32 mem (hi_mem _ _ _ _ Hinv)) as Hu.
  unfold chunk_end, chunk_size, HEADER_SIZE, is_uint in *. cbn in *.
  unfold deallocate. rewrite (hi_poisoned _ _ _ _ Hinv), (proj1 (heap_inv_observe _ _ _ _ Hinv)).
  unfold checked_sub, HEADER_SIZE. replace (h + 8 - 8) with h by lia.
  rewrite checked_small by (unfold is_uint; lia). rewrite Hrd. by eexists _, _.
Qed.

(** *** Errors *)

(** Every error of [allocate] and of [deallocate] poisons the allocator, and
    a poisoned allocator answers every request with an error, and changes neither
    itself nor the memory. *)
Theorem error_poisons (self : FreeingBumpHeapAllocator) (mem : M) (v : u32) :
  (forall e self' mem', allocate self mem v = Some (Err e, self', mem') -> poisoned self' = true) /\
  (forall e self' mem', deallocate self mem v = Some (Err e, self', mem') -> poisoned self' = true) /\
  (poisoned self = true ->
     exists e, allocate self mem v = Some (Err e, self, mem) /\ deallocate self mem v = Some (Err e, self, mem)).
Proof.
  unfold allocate, deallocate. destruct (poisoned self) eqn:Ep.
  { split; [|split]; [by intros ? ? ? [= _ <- _].. | by eexists]. }
  destruct (observe_memory_size _ mem); [|split; [|split]; [by intros ? ? ? [= _ <- _].. | done]].
  split; [|split; [|done]]; intros e self' mem'.
  - destruct (Order_from_size v); [|by intros [= _ <- _]].
    destruct (allocate_chunk _ mem _) as [[[h|e'] s1]|]; [|by intros [= _ <- _]|done].
    by destruct (Header_write_into _ mem h); intros [= _ <- _].
  - destruct (checked_sub 32 v HEADER_SIZE) as [h|]; [|by intros [= _ <- _]].
    destruct (Header_read_from mem h) as [hd|]; [|by intros [= _ <- _]].
    destruct (into_occupied hd) as [o|]; [|by intros [= _ <- _]].
    destruct (FreeLists_replace _ o _) as [[prev fl]|]; [|done].
    destruct (Header_write_into _ mem h); [|by intros [= _ <- _]].
    by destruct (checked_sub 32 _ _); intros [= _ <- _].
Qed.

(** *** Runs *)

(** The allocator, the memory and the abstract heap. Between the calls the
    program may write to the memory it was given, and the memory may grow. *)
Inductive heap_step : FreeingBumpHeapAllocator * M * Heap -> FreeingBumpHeapAllocator * M * Heap -> Prop :=
  | step_alloc self mem hp size ptr self' mem' o :
      is_u32 size -> bumper self + MAX_POSSIBLE_ALLOCATION + HEADER_SIZE < 2 ^ 32 ->
      allocate self mem size = Some (Ok ptr, self', mem') -> Order_from_size size = Ok o ->
      heap_step (self, mem, hp) (self', mem', heap_alloc (ptr - HEADER_SIZE) o hp)
  | step_dealloc self mem hp h o self' mem' :
      (h, o) ∈ live hp -> deallocate self mem (h + HEADER_SIZE) = Some (Ok tt, self', mem') ->
      heap_step (self, mem, hp) (self', mem', heap_free h o hp)
  | step_write self mem hp h o p v mem' :
      (h, o) ∈ live hp -> h + HEADER_SIZE <= p -> p + 8 <= h + HEADER_SIZE + osize o -> is_u64 v ->
      write_le_u64 mem p v = Ok mem' -> heap_step (self, mem, hp) (self, mem', hp)
  | step_grow self mem hp mem' :
      mem_ok mem' -> mem_size mem <= mem_size mem' ->
      (forall q, 0 <= q -> q + 8 <= mem_size mem -> read_le_u64 mem' q = read_le_u64 mem q) ->
      heap_step (self, mem, hp) (self, mem', hp).

(** A memory that agrees on the headers. *)
Lemma heap_inv_memory self mem mem' base hp :
  heap_inv self mem base hp -> mem_ok mem' -> mem_size mem <= mem_size mem' ->
  (forall c, c ∈ live hp ++ free_chunks (free hp) -> Header_read_from mem' (fst c) = Header_read_from mem (fst c)) ->
  heap_inv self mem' base hp.
Proof.
  intros [H1 H2 H3 H4 H5 H6 H7 H8 H9] Hok Hsz Hhd. split; try done.
  - lia.
  - destruct H6 as (chunks & Ht & Hperm & Htop). exists chunks. split; [done|]. split; [done|]. intros Hne.
    specialize (Htop Hne). lia.
  - intros h o Hl. rewrite <- (H7 h o Hl). apply (Hhd (h, o)), elem_of_app. by left.
  - intros o Ho. destruct (H8 o Ho) as (link & Hidx & Hrep). exists link. split; [done|].
    eapply list_rep_ext; [|done]. intros h Hh. apply (Hhd (h, o)), elem_of_app. right. by apply elem_of_free_chunks.
Qed.

(** A write inside a live allocation does not touch a header. *)
Lemma heap_inv_write self mem mem' base hp h o p v :
  heap_inv self mem base hp -> (h, o) ∈ live hp -> h + HEADER_SIZE <= p -> p + 8 <= h + HEADER_SIZE + osize o ->
  is_u64 v -> write_le_u64 mem p v = Ok mem' -> heap_inv self mem' base hp.
Proof.
  intros Hinv Hlive Hp1 Hp2 Hv Hwr. pose proof (heap_chunk_facts _ _ _ _ Hinv) as Hcf.
  destruct (live_chunk _ _ _ _ _ _ Hinv Hlive) as (Ho & Hh & Hend & _).
  destruct (write_in_bounds mem p v) as (m1 & Hwr1 & Hok & Hsz & _ & Hfr);
    [apply Hinv | unfold HEADER_SIZE in *; lia | lia | done |].
  assert (m1 = mem') as -> by congruence. apply (heap_inv_memory self mem); [done | done | lia |].
  intros c Hc. destruct (cf_in _ _ _ _ Hcf c Hc) as (Hbase & _ & Hco & _). destruct (hi_base _ _ _ _ Hinv) as [? _].
  unfold Header_read_from. rewrite Hfr; [done|lia|].
  destruct (decide (c = (h, o))) as [->|Hne]; [cbn; unfold HEADER_SIZE in *; lia|].
  pose proof (cf_disjoint _ _ _ _ Hcf c (h, o) Hc ltac:(apply elem_of_app; by left) Hne) as Hd.
  pose proof (osize_bounds _ Hco). unfold chunks_disjoint, chunk_end, chunk_size, HEADER_SIZE in *. cbn in *. lia.
Qed.

Lemma allocate_inv self mem base hp size ptr self' mem' o :
  heap_inv self mem base hp -> is_u32 size -> bumper self + MAX_POSSIBLE_ALLOCATION + HEADER_SIZE < 2 ^ 32 ->
  allocate self mem size = Some (Ok ptr, self', mem') -> Order_from_size size = Ok o ->
  heap_inv self' mem' base (heap_alloc (ptr - HEADER_SIZE) o hp).
Proof.
  intros Hinv Hsz Hb Hrun Eo. pose proof (Order_from_size_spec size (proj1 Hsz)) as Hord. rewrite Eo in Hord.
  destruct Hord as (_ & Ho & _).
  assert (Hok : forall h, (exists s m, allocate self mem size = Some (Ok (h + HEADER_SIZE), s, m) /\
            heap_inv s m base (heap_alloc h o hp) /\ mem_size m = mem_size mem) ->
            heap_inv self' mem' base (heap_alloc (ptr - HEADER_SIZE) o hp)).
  { intros h (s & m & Hr & Hi & _). rewrite Hrun in Hr. injection Hr as -> -> ->.
    by replace (h + HEADER_SIZE - HEADER_SIZE) with h by lia. }
  destruct (free hp o) as [|h l] eqn:Ef; [|apply (Hok h); by eapply allocate_free_ok].
  destruct (Z.lt_ge_cases (mem_size mem) (bumper self + chunk_size (bumper self, o))) as [Hlt|Hge].
  - destruct (allocate_out_of_space _ _ _ _ _ _ Hinv Eo Ho Ef Hb Hlt) as (? & Hr & _). congruence.
  - apply (Hok (bumper self)). by apply allocate_bump_ok.
Qed.

Lemma heap_step_inv base st st' :
  heap_step st st' -> heap_inv (fst (fst st)) (snd (fst st)) base (snd st) ->
  heap_inv (fst (fst st')) (snd (fst st')) base (snd st').
Proof.
  destruct 1 as [self mem hp size ptr self' mem' o Hsz Hb Hrun Ho | self mem hp h o self' mem' Hlive Hrun
                | self mem hp h o p v mem' Hlive Hp1 Hp2 Hv Hwr | self mem hp mem' Hok Hsz Hrd]; cbn; intros Hinv.
  - by eapply allocate_inv.
  - destruct (deallocate_ok _ _ _ _ _ _ Hinv Hlive) as (s & m & Hr & Hi & _). rewrite Hrun in Hr.
    by injection Hr as -> ->.
  - by eapply heap_inv_write.
  - apply (heap_inv_memory self mem); [done..|]. intros c Hc.
    destruct (cf_in _ _ _ _ (heap_chunk_facts _ _ _ _ Hinv) c Hc) as (? & _ & Hco & _ & Hend).
    destruct (hi_base _ _ _ _ Hinv) as [? _]. pose proof (osize_bounds _ Hco).
    unfold chunk_end, chunk_size, HEADER_SIZE in Hend. unfold Header_read_from. by rewrite Hrd by lia.
Qed.

Lemma heap_new_inv heap_base mem :
  is_u32 heap_base -> heap_base <= 2 ^ 32 - 8 -> mem_ok mem ->
  heap_inv (Allocator_new heap_base) mem (bumper (Allocator_new heap_base)) heap_empty /\
  heap_base <= bumper (Allocator_new heap_base) < heap_base + 8.
Proof.
  intros Hb Hle Hok. pose proof (mem_size_u32 mem Hok) as Hu. unfold is_uint in Hb, Hu.
  assert (Hbump : bumper (Allocator_new heap_base) = (heap_base + 7) `div` 8 * 8).
  { cbn. unfold wadd, wsub, wmul, ALIGNMENT.
    destruct (Z.eq_dec heap_base (2 ^ 32 - 8)) as [->|Hne]; [by vm_compute|].
    rewrite (wrap_small 32 (heap_base + 8)) by (unfold is_uint; lia).
    replace (heap_base + 8 - 1) with (heap_base + 7) by lia.
    rewrite (wrap_small 32 (heap_base + 7)) by (unfold is_uint; lia). apply wrap_small.
    pose proof (Z.mul_div_le (heap_base + 7) 8 ltac:(lia)).
    assert (0 <= (heap_base + 7) `div` 8) by (apply Z.div_pos; lia). unfold is_uint. lia. }
  rewrite Hbump. pose proof (Z.div_mod (heap_base + 7) 8 ltac:(lia)). pose proof (Z.mod_pos_bound (heap_base + 7) 8 ltac:(lia)).
  split; [|lia]. split; try done.
  - split; [lia|]. apply Z.mod_mul. lia.
  - rewrite Hbump. unfold is_uint. lia.
  - cbn. lia.
  - exists []. rewrite Hbump. done.
  - by intros h o ?%elem_of_nil.
  - intros o Ho. exists Nil. split; [|done]. unfold FreeLists_index. cbn [free_lists Allocator_new FreeLists_new heads].
    apply lookup_replicate. split; [done|]. destruct Ho. unfold N_ORDERS. lia.
Qed.

(** C35: whatever the sequence of allocations, deallocations, writes of the program inside
    its live allocations and growths of the memory, from a new allocator: every live
    allocation is aligned, lies in the memory above the base of the heap, two live
    allocations never overlap, headers included, and freeing a live allocation succeeds.
    An allocation is made only while the bumper is at least the size of the largest chunk
    with its header below 4 GiB: nearer to it the test of the source wraps around
    ([bump_wraps_around]). *)
Theorem heap_safety (heap_base : u32) (mem0 : M) (self : FreeingBumpHeapAllocator) (mem : M) (hp : Heap) :
  is_u32 heap_base -> heap_base <= 2 ^ 32 - 8 -> mem_ok mem0 ->
  rtc heap_step (Allocator_new heap_base, mem0, heap_empty) (self, mem, hp) ->
  (forall h o, (h, o) ∈ live hp ->
     heap_base <= h /\ h `mod` 8 = 0 /\ h + HEADER_SIZE + Order_size o <= mem_size mem /\
     exists self' mem', deallocate self mem (h + HEADER_SIZE) = Some (Ok tt, self', mem')) /\
  (forall c c', c ∈ live hp -> c' ∈ live hp -> c <> c' -> chunks_disjoint c c') /\ NoDup (live hp).
Proof.
  intros Hb Hle Hok Hrun. destruct (heap_new_inv heap_base mem0 Hb Hle Hok) as [Hinit Hbump].
  set (base := bumper (Allocator_new heap_base)) in *.
  assert (Hinv : heap_inv self mem base hp).
  { assert (Hall : forall st st', rtc heap_step st st' -> heap_inv (fst (fst st)) (snd (fst st)) base (snd st) ->
                     heap_inv (fst (fst st')) (snd (fst st')) base (snd st')).
    { induction 1; eauto using heap_step_inv. }
    apply (Hall _ _ Hrun Hinit). }
  pose proof (heap_chunk_facts _ _ _ _ Hinv) as Hcf. split; [|split].
  - intros h o Hl. destruct (live_chunk _ _ _ _ _ _ Hinv Hl) as (Ho & _ & Hend & _).
    destruct (cf_in _ _ _ _ Hcf (h, o)) as (? & _ & _ & ? & _); [apply elem_of_app; by left|]. cbn in *.
    rewrite Order_size_spec by done. split; [lia|]. split; [done|]. split; [done|].
    destruct (deallocate_ok _ _ _ _ _ _ Hinv Hl) as (self' & mem' & Hr & _). eauto.
  - intros c c' Hc Hc'. apply (cf_disjoint _ _ _ _ Hcf); apply elem_of_app; by left.
  - pose proof (cf_nodup _ _ _ _ Hcf) as Hn. by apply NoDup_app in Hn as (? & _).
Qed.

End heap.

(** ** Concrete heaps *)

Definition mem64 : list Z := replicate 64 0.
Definition alloc_run (self : FreeingBumpHeapAllocator) (mem : list Z) (size : u32)
    : FreeingBumpHeapAllocator * list Z :=
  match allocate self mem size with Some (_, self, mem) => (self, mem) | None => (self, mem) end.

Definition heap1 : FreeingBumpHeapAllocator * list Z := alloc_run (Allocator_new 3) mem64 10.
Definition hp1 : Heap := heap_alloc 8 1 heap_empty.

Lemma mem64_ok : mem_ok mem64.
Proof. split; [|by vm_compute]. apply (bool_decide_unpack _). by vm_compute. Qed.

Lemma heap0_inv : heap_inv (Allocator_new 3) mem64 8 heap_empty.
Proof.
  apply (heap_new_inv 3 mem64); [unfold is_uint; lia | lia | exact mem64_ok].
Qed.

Lemma heap1_inv : heap_inv (fst heap1) (snd heap1) 8 hp1.
Proof.
  apply (allocate_inv (Allocator_new 3) mem64 8 heap_empty 10 16 (fst heap1) (snd heap1) 1 heap0_inv);
    [unfold is_uint; lia | by vm_compute | by vm_compute | by vm_compute].
Qed.

Lemma allocate_spec_witness :
  heap_inv (fst heap1) (snd heap1) 8 hp1 /\ is_u32 8 /\
  exists out self' mem', allocate (fst heap1) (snd heap1) 8 = Some (out, self', mem') /\
    match out with
    | Ok ptr => exists o,
        Order_from_size 8 = Ok o /\ 8 <= Order_size o /\ ptr `mod` 8 = 0 /\
        ptr + Order_size o <= mem_size (snd heap1) /\
        (forall c, c ∈ live hp1 -> chunks_disjoint (ptr - HEADER_SIZE, o) c) /\
        heap_inv self' mem' 8 (heap_alloc (ptr - HEADER_SIZE) o hp1) /\ mem_size mem' = mem_size (snd heap1)
    | Err e =>
        poisoned self' = true /\ mem' = snd heap1 /\
        ((e = RequestedAllocationTooLarge /\ MAX_POSSIBLE_ALLOCATION < 8) \/
         (e = AllocatorOutOfSpace /\ exists o, Order_from_size 8 = Ok o /\ free hp1 o = [] /\
            mem_size (snd heap1) < bumper (fst heap1) + HEADER_SIZE + Order_size o))
    end.
Proof.
  split; [exact heap1_inv|]. split; [unfold is_uint; lia|].
  apply (allocate_spec (fst heap1) (snd heap1) 8 hp1 8); [exact heap1_inv | unfold is_uint; lia | by vm_compute].
Defined.

Lemma deallocate_spec_witness :
  heap_inv (fst heap1) (snd heap1) 8 hp1 /\
  exists self' mem', deallocate (fst heap1) (snd heap1) 16 = Some (Ok tt, self', mem') /\
    heap_inv self' mem' 8 (heap_free 8 1 hp1) /\ mem_size mem' = mem_size (snd heap1) /\
    bumper self' = bumper (fst heap1).
Proof.
  split; [exact heap1_inv|].
  apply (proj1 (deallocate_spec (fst heap1) (snd heap1) 8 hp1 8 1 heap1_inv)). by left.
Defined.

Lemma heap1_run : rtc heap_step (Allocator_new 3, mem64, heap_empty) (fst heap1, snd heap1, hp1).
Proof.
  apply rtc_once. change hp1 with (heap_alloc (16 - HEADER_SIZE) 1 heap_empty).
  apply (step_alloc _ _ _ 10); [unfold is_uint; lia | by vm_compute | by vm_compute | by vm_compute].
Qed.

Lemma heap_safety_witness :
  rtc heap_step (Allocator_new 3, mem64, heap_empty) (fst heap1, snd heap1, hp1) /\
  (forall h o, (h, o) ∈ live hp1 ->
     3 <= h /\ h `mod` 8 = 0 /\ h + HEADER_SIZE + Order_size o <= mem_size (snd heap1) /\
     exists self' mem', deallocate (fst heap1) (snd heap1) (h + HEADER_SIZE) = Some (Ok tt, self', mem')) /\
  (forall c c', c ∈ live hp1 -> c' ∈ live hp1 -> c <> c' -> chunks_disjoint c c') /\ NoDup (live hp1).
Proof.
  split; [exact heap1_run|].
  apply (heap_safety 3 mem64 (fst heap1) (snd heap1) hp1);
    [unfold is_uint; lia | lia | exact mem64_ok | exact heap1_run].
Defined.

(** A large memory with the words that were written, to evaluate the allocator
    near the end of the address space. *)
Record WordMemory := mkWordMemory { wm_size : u32; wm_words : list (Z * Z) }.

#[local] Instance memory_words : Memory WordMemory := {|
  read_le_u64 mem ptr :=
    if ptr + 8 <=? wm_size mem
    then Ok (match find (fun w => fst w =? ptr) (wm_words mem) with Some w => snd w | None => 0 end)
    else Err (Other "out of bounds access");
  write_le_u64 mem ptr val :=
    if ptr + 8 <=? wm_size mem then Ok (mkWordMemory (wm_size mem) ((ptr, val) :: wm_words mem))
    else Err (Other "out of bounds access");
  mem_size := wm_size
|}.

(** A memory of 65535 pages. *)
Definition big_memory : WordMemory := mkWordMemory (65535 * 65536) [].

(** With a memory of 65535 pages and a heap that starts one page before its
    end, the addition in [bump] wraps around: an allocation of 32 MiB succeeds
    although 64 KiB are left, so that it reaches past the end of the memory, and
    the next allocation is below the base of the heap. *)
Lemma bump_wraps_around :
  match allocate (Allocator_new (65534 * 65536)) big_memory MAX_POSSIBLE_ALLOCATION with
  | Some (Ok ptr, self, mem) =>
      mem_size mem < ptr + MAX_POSSIBLE_ALLOCATION /\
      match allocate self mem 8 with
      | Some (Ok ptr', _, _) => ptr' < 65534 * 65536
      | _ => False
      end
  | _ => False
  end.
Proof. vm_compute. split; reflexivity. Qed.
