(* ===== verification/KBuckets.v ===== *)
(** * The k-buckets ([src/src/network/kademlia/kbuckets.rs])

    The partial view of the peer-to-peer network: 256 buckets of a bounded number
    of entries, the connected ones first. The SHA-256 digest of a key is a
    parameter; time is an integer. A panic is [None].

    The distance is shown to be the position of the highest bit in which two
    digests differ. [bucket_ok] is the invariant of the buckets; [insert] of
    disconnected entries and [set_state] keep it and do not panic, and an entry
    is only ever replaced if it is disconnected and has expired. Inserting a
    connected entry can break the invariant, and then the next insertion
    panics. *)

From stdpp Require Import sorting.
From S2P Require Import Prelude.

Open Scope Z_scope.

(** ** The distance between two digests *)

(** [u8::leading_zeros]. *)
Fixpoint leading_zeros_from (n : nat) (v : Z) : Z :=
  match n with
  | O => 0
  | S n => if Z.testbit v (Z.of_nat n) then 0 else 1 + leading_zeros_from n v
  end.
Definition leading_zeros (v : u8) : Z := leading_zeros_from 8 v.

(** The loop of [distance_log2] over the bytes [n], [n + 1], ... *)
Fixpoint distance_loop (n : Z) (a b : list u8) : option u8 :=
  match a, b with
  | x :: a, y :: b =>
      let xor_leading_zeroes := leading_zeros (Z.lxor x y) in
      if xor_leading_zeroes =? 8 then distance_loop (n + 1) a b
      else
        let xor_distance := (31 - n) * 8 + (8 - xor_leading_zeroes) in
        Some (xor_distance - 1)
  | _, _ => None
  end.

Definition distance_log2 (a b : list u8) : option u8 := distance_loop 0 a b.

Inductive PeerState := Connected | Disconnected.
Inductive InsertError := InsertFull.
Inductive OrInsertError := OrInsertFull | OrInsertLocalKey.

Section kbuckets.
Context {K V : Type} `{EqDecision K}.
(** [Sha256::digest]. *)
Context (digest : K -> list u8).
(** [ENTRIES_PER_BUCKET]. *)
Context (ENTRIES_PER_BUCKET : nat).

Record Bucket := mkBucket {
  entries : list (K * V);
  num_connected_entries : nat;
  pending_entry : option Z
}.

Record KBuckets := mkKBuckets {
  local_key : K * list u8;
  buckets : list Bucket;
  pending_timeout : Z
}.

Definition KBuckets_new (local_key : K) (pending_timeout : Z) : KBuckets :=
  {| local_key := (local_key, digest local_key);
     buckets := replicate 256 {| entries := []; num_connected_entries := 0; pending_entry := None |};
     pending_timeout := pending_timeout |}.

Definition bucket_get (self : Bucket) (key : K) : option V :=
  snd <$> find (fun e => bool_decide (fst e = key)) (entries self).

(** [self.buckets[usize::from(distance)]]. *)
Definition bucket_at (self : KBuckets) (distance : u8) : option Bucket :=
  buckets self !! Z.to_nat distance.

Definition set_bucket (self : KBuckets) (distance : u8) (b : Bucket) : KBuckets :=
  {| local_key := local_key self; buckets := <[Z.to_nat distance := b]> (buckets self);
     pending_timeout := pending_timeout self |}.

(** [KBuckets::get]; the outer option is a panic. *)
Definition kb_get (self : KBuckets) (key : K) : option (option V) :=
  match distance_log2 (snd (local_key self)) (digest key) with
  | None => Some None
  | Some distance => let! b := bucket_at self distance in Some (bucket_get b key)
  end.

(** [KBuckets::entry]. *)
Inductive Entry :=
  | LocalKey
  | Vacant (distance : u8)
  | Occupied (distance : u8).

Definition kb_entry (self : KBuckets) (key : K) : option Entry :=
  match distance_log2 (snd (local_key self)) (digest key) with
  | None => Some LocalKey
  | Some distance =>
      let! b := bucket_at self distance in
      Some (if bool_decide (is_Some (bucket_get b key)) then Occupied distance else Vacant distance)
  end.

(** [ArrayVec]: a list of at most [ENTRIES_PER_BUCKET] elements. *)
Definition is_full (l : list (K * V)) : bool := Nat.eqb (length l) ENTRIES_PER_BUCKET.

Definition av_insert (i : nat) (x : K * V) (l : list (K * V)) : option (list (K * V)) :=
  if Nat.leb (length l) i && negb (Nat.eqb (length l) i) then None
  else if is_full l then None
  else Some (take i l ++ x :: drop i l).

Definition av_push (x : K * V) (l : list (K * V)) : option (list (K * V)) :=
  if is_full l then None else Some (l ++ [x]).

Definition av_pop (l : list (K * V)) : option (K * V) * list (K * V) :=
  (last l, take (length l - 1) l).

Definition av_remove (i : nat) (l : list (K * V)) : option (K * V * list (K * V)) :=
  let! x := l !! i in Some (x, delete i l).

(** [VacantEntry::insert], on the bucket: the new bucket and the entry that was
    removed to make space. *)
Definition bucket_insert (timeout : Z) (bucket : Bucket) (key : K) (value : V) (now : Z) (state : PeerState)
    : option (result InsertError (Bucket * option (K * V))) :=
  match state with
  | Connected =>
      if Nat.ltb (num_connected_entries bucket) ENTRIES_PER_BUCKET then
        let '(previous_entry, l, pending) :=
          if is_full (entries bucket) then
            let '(previous_entry, l) := av_pop (entries bucket) in (previous_entry, l, Some (now + timeout))
          else (None, entries bucket, pending_entry bucket) in
        let! l := av_insert (num_connected_entries bucket) (key, value) l in
        let num := S (num_connected_entries bucket) in
        let pending := if Nat.eqb num ENTRIES_PER_BUCKET then None else pending in
        Some (Ok ({| entries := l; num_connected_entries := num; pending_entry := pending |}, previous_entry))
      else Some (Err InsertFull)
  | Disconnected =>
      if is_full (entries bucket) then
        if Nat.eqb (num_connected_entries bucket) ENTRIES_PER_BUCKET then Some (Err InsertFull)
        else
          let! pending := pending_entry bucket in
          if now <? pending then Some (Err InsertFull)
          else
            let '(previous_entry, l) := av_pop (entries bucket) in
            let! l := av_push (key, value) l in
            Some (Ok ({| entries := l; num_connected_entries := num_connected_entries bucket;
                         pending_entry := Some (now + timeout) |}, previous_entry))
      else
        let! l := av_push (key, value) (entries bucket) in
        let pending := if is_full l then Some (now + timeout) else pending_entry bucket in
        Some (Ok ({| entries := l; num_connected_entries := num_connected_entries bucket;
                     pending_entry := pending |}, None))
  end.

Definition vacant_insert (self : KBuckets) (distance : u8) (key : K) (value : V) (now : Z) (state : PeerState)
    : option (result InsertError (KBuckets * option (K * V))) :=
  let! bucket := bucket_at self distance in
  let! r := bucket_insert (pending_timeout self) bucket key value now state in
  match r with
  | Ok (bucket, previous_entry) => Some (Ok (set_bucket self distance bucket, previous_entry))
  | Err e => Some (Err e)
  end.

(** [KBuckets::entry] followed by [Entry::or_insert]. *)
Definition or_insert (self : KBuckets) (key : K) (value : V) (now : Z) (state : PeerState)
    : option (result OrInsertError KBuckets) :=
  let! e := kb_entry self key in
  match e with
  | LocalKey => Some (Err OrInsertLocalKey)
  | Vacant distance =>
      let! r := vacant_insert self distance key value now state in
      match r with
      | Ok (self, _) => Some (Ok self)
      | Err InsertFull => Some (Err OrInsertFull)
      end
  | Occupied _ => Some (Ok self)
  end.

(** [iter().position(|(k, _)| *k == *self.key)]. *)
Definition position (key : K) (l : list (K * V)) : option nat :=
  fst <$> list_find (fun e => fst e = key) l.

(** [OccupiedEntry::set_state], on the bucket. *)
Definition bucket_set_state (timeout : Z) (bucket : Bucket) (key : K) (now : Z) (state : PeerState) : option Bucket :=
  let! position := position key (entries bucket) in
  let num := num_connected_entries bucket in
  match state with
  | Connected =>
      if Nat.leb num position then
        let! (entry, l) := av_remove position (entries bucket) in
        let! l := av_insert num entry l in
        let pending := if Nat.eqb position (ENTRIES_PER_BUCKET - 1) then Some (now + timeout)
                       else pending_entry bucket in
        Some {| entries := l; num_connected_entries := S num; pending_entry := pending |}
      else Some bucket
  | Disconnected =>
      if Nat.ltb position num then
        let! (entry, l) := av_remove position (entries bucket) in
        let num := (num - 1)%nat in
        let! l := av_insert num entry l in
        let pending := if Nat.eqb num (ENTRIES_PER_BUCKET - 1) then Some (now + timeout)
                       else pending_entry bucket in
        Some {| entries := l; num_connected_entries := num; pending_entry := pending |}
      else Some bucket
  end.

(** [KBuckets::entry], [Entry::into_occupied] and [OccupiedEntry::set_state]. *)
Definition kb_set_state (self : KBuckets) (key : K) (now : Z) (state : PeerState) : option KBuckets :=
  let! e := kb_entry self key in
  match e with
  | LocalKey | Vacant _ => Some self
  | Occupied distance =>
      let! bucket := bucket_at self distance in
      let! bucket := bucket_set_state (pending_timeout self) bucket key now state in
      Some (set_bucket self distance bucket)
  end.

Definition iter_ordered (self : KBuckets) : list (K * V) := mjoin (entries <$> buckets self).

(** The key by which [closest_entries] sorts. *)
Definition sort_key (target : K) (e : K * V) : Z :=
  match distance_log2 (digest (fst e)) (digest target) with Some d => d + 1 | None => 0 end.

(** [slice::sort_by_key], which is stable. *)
Fixpoint sort_insert (f : K * V -> Z) (x : K * V) (l : list (K * V)) : list (K * V) :=
  match l with
  | [] => [x]
  | y :: l' => if f x <=? f y then x :: l else y :: sort_insert f x l'
  end.
Definition sort_by_key (f : K * V -> Z) (l : list (K * V)) : list (K * V) := foldr (sort_insert f) [] l.

Definition closest_entries (self : KBuckets) (target : K) : list (K * V) :=
  sort_by_key (sort_key target) (iter_ordered self).

End kbuckets.

Arguments Bucket : clear implicits.
Arguments KBuckets : clear implicits.

(** ** The distance is a logarithm *)

(** The number that a digest writes, most significant byte first. *)
Definition be_value (l : list u8) : Z := from_le_bytes (rev l).

Definition is_digest (l : list u8) : Prop := length l = 32%nat /\ is_bytes l.

Lemma be_value_cons x l : be_value (x :: l) = be_value l + 2 ^ (8 * len l) * x.
Proof.
  unfold be_value. cbn. rewrite from_le_bytes_app. unfold len. rewrite length_rev. cbn. lia.
Qed.

Lemma be_value_bound l : is_bytes l -> 0 <= be_value l < 2 ^ (8 * len l).
Proof.
  intros Hl. unfold be_value. replace (len l) with (len (rev l)) by (unfold len; by rewrite length_rev).
  apply from_le_bytes_bound. by apply Forall_rev.
Qed.

Lemma leading_zeros_spec v : is_u8 v -> leading_zeros v = if v =? 0 then 8 else 7 - Z.log2 v.
Proof.
  apply (u8_eqb leading_zeros (fun v => if v =? 0 then 8 else 7 - Z.log2 v)). by vm_compute.
Qed.

Lemma log2_bound k w : 0 < k -> 0 <= w < 2 ^ k -> Z.log2 w < k.
Proof. intros Hk Hw. destruct (Z.eq_dec w 0) as [->|]; [done|]. apply Z.log2_lt_pow2; lia. Qed.

Lemma lxor_bound k u v : 0 <= k -> 0 <= u < 2 ^ k -> 0 <= v < 2 ^ k -> 0 <= Z.lxor u v < 2 ^ k.
Proof.
  intros Hk Hu Hv. split; [apply Z.lxor_nonneg; lia|].
  destruct (Z.eq_dec (Z.lxor u v) 0) as [->|Hne]; [lia|].
  assert (0 < k).
  { destruct (Z.eq_dec k 0) as [->|]; [|lia]. change (2 ^ 0) with 1 in *. destruct Hne.
    replace u with 0 by lia. by replace v with 0 by lia. }
  apply Z.log2_lt_cancel. rewrite Z.log2_pow2 by lia. pose proof (Z.log2_lxor u v ltac:(lia) ltac:(lia)).
  pose proof (log2_bound k u). pose proof (log2_bound k v). lia.
Qed.

Lemma lxor_high k x y u v :
  0 <= k -> 0 <= u < 2 ^ k -> 0 <= v < 2 ^ k ->
  Z.lxor (u + 2 ^ k * x) (v + 2 ^ k * y) = Z.lxor u v + 2 ^ k * Z.lxor x y.
Proof.
  intros Hk Hu Hv.
  assert (Hlor : forall a b, 0 <= a < 2 ^ k -> a + 2 ^ k * b = Z.lor a (Z.shiftl b k)).
  { intros a b Ha. rewrite lor_shiftl_add by lia. lia. }
  pose proof (lxor_bound k u v Hk Hu Hv) as Hb.
  rewrite !Hlor by done. apply Z.bits_inj'. intros n Hn.
  rewrite Z.lxor_spec, !Z.lor_spec, !Z.shiftl_spec, !Z.lxor_spec by done.
  destruct (Z.lt_ge_cases n k) as [Hnk|Hnk].
  - rewrite !(Z.testbit_neg_r _ (n - k)) by lia. by rewrite !orb_false_r.
  - assert (Hz : forall w, 0 <= w < 2 ^ k -> Z.testbit w n = false).
    { intros w Hw. destruct (Z.eq_dec w 0) as [->|]; [apply Z.bits_0|].
      apply Z.bits_above_log2; [lia|]. assert (Z.log2 w < k) by (apply Z.log2_lt_pow2; lia). lia. }
    by rewrite (Hz u), (Hz v) by done.
Qed.

Lemma log2_high k z u : 0 <= k -> 0 <= u < 2 ^ k -> 0 < z -> Z.log2 (u + 2 ^ k * z) = k + Z.log2 z.
Proof.
  intros Hk Hu Hz. pose proof (Z.log2_spec z Hz) as [H1 H2]. apply Z.log2_unique; [pose proof (Z.log2_nonneg z); lia|].
  pose proof (Z.log2_nonneg z). rewrite Z.pow_add_r, <- Z.add_succ_r, Z.pow_add_r by lia. nia.
Qed.

Lemma distance_loop_spec n a b :
  0 <= n -> len a = 32 - n -> length a = length b -> is_bytes a -> is_bytes b ->
  distance_loop n a b =
  if be_value a =? be_value b then None else Some (Z.log2 (Z.lxor (be_value a) (be_value b))).
Proof.
  revert n b. induction a as [|x a IH]; intros n [|y b] Hn Hlen Hlb Ha Hb; try done.
  apply Forall_cons in Ha as [Hx Ha]. apply Forall_cons in Hb as [Hy Hb].
  assert (Hlen' : len a = 31 - n) by (unfold len in *; cbn in *; lia).
  assert (Hl2 : length a = length b) by (cbn in Hlb; lia).
  assert (Hlb' : len b = len a) by (unfold len; cbn in Hlb; lia).
  pose proof (be_value_bound a Ha) as Hba. pose proof (be_value_bound b Hb) as Hbb.
  cbn [distance_loop]. rewrite !be_value_cons, Hlb' in *. unfold is_uint in Hx, Hy.
  assert (Hk : 0 <= 8 * len a) by (unfold len; lia).
  assert (Hz : 0 <= Z.lxor x y) by (apply Z.lxor_nonneg; lia).
  assert (Hz8 : is_u8 (Z.lxor x y)).
  { apply lxor_bound; lia. }
  rewrite leading_zeros_spec by done. set (k := 8 * len a) in *.
  destruct (Z.eqb_spec (Z.lxor x y) 0) as [Hxy|Hxy].
  - apply Z.lxor_eq in Hxy as ->. change (8 =? 8) with true. cbn iota. rewrite IH by (done || lia).
    rewrite lxor_high, Z.lxor_nilpotent by lia. rewrite Z.mul_0_r, Z.add_0_r.
    destruct (Z.eqb_spec (be_value a) (be_value b)); destruct (Z.eqb_spec (be_value a + 2 ^ k * y) (be_value b + 2 ^ k * y)); done || lia.
  - assert (Hlog : 0 <= Z.log2 (Z.lxor x y)) by apply Z.log2_nonneg.
    rewrite (proj2 (Z.eqb_neq (7 - _) 8)) by lia.
    assert (Hne : be_value a + 2 ^ k * x <> be_value b + 2 ^ k * y).
    { intros Heq. apply Hxy. assert (x = y) as -> by nia. apply Z.lxor_nilpotent. }
    rewrite (proj2 (Z.eqb_neq _ _) Hne). f_equal.
    rewrite lxor_high, log2_high by (lia || by apply lxor_bound). unfold k. lia.
Qed.

Lemma be_value_inj a b : is_digest a -> is_digest b -> be_value a = be_value b -> a = b.
Proof.
  intros [Ha1 Ha2] [Hb1 Hb2] Heq. unfold be_value in Heq.
  assert (Hrev : rev a = rev b).
  { rewrite <- (to_from_le_bytes (rev a)), <- (to_from_le_bytes (rev b)) by (by apply Forall_rev).
    by rewrite !length_rev, Ha1, Hb1, Heq. }
  by rewrite <- (rev_involutive a), Hrev, rev_involutive.
Qed.

Lemma distance_digest a b :
  is_digest a -> is_digest b ->
  distance_log2 a b = if decide (a = b) then None else Some (Z.log2 (Z.lxor (be_value a) (be_value b))).
Proof.
  intros Ha Hb. pose proof Ha as [Ha1 Ha2]. pose proof Hb as [Hb1 Hb2]. unfold distance_log2.
  rewrite distance_loop_spec by (done || unfold len; lia).
  case_decide as E; [subst; by rewrite Z.eqb_refl|].
  rewrite (proj2 (Z.eqb_neq _ _)); [done|]. intros Heq. by apply E, be_value_inj.
Qed.

(** [distance_log2] of two digests is the position of the highest bit in which
    they differ, that is the integer logarithm of their exclusive or as numbers,
    and there is none exactly if they are equal; it is the same in both
    directions, and always one of the 256 buckets. *)
Theorem distance_log2_spec (a b : list u8) :
  is_digest a -> is_digest b ->
  (distance_log2 a b = if decide (a = b) then None else Some (Z.log2 (Z.lxor (be_value a) (be_value b)))) /\
  distance_log2 a b = distance_log2 b a /\
  (forall d, distance_log2 a b = Some d -> 0 <= d < 256).
Proof.
  intros Ha Hb. pose proof (distance_digest a b Ha Hb) as Hab.
  split; [done|]. split.
  - rewrite Hab, (distance_digest b a Hb Ha), Z.lxor_comm. do 2 case_decide; congruence.
  - intros d. rewrite Hab. case_decide; [done|]. intros [= <-]. split; [apply Z.log2_nonneg|].
    apply log2_bound; [lia|]. change (2 ^ 256) with (2 ^ (8 * 32)).
    destruct Ha as [Ha1 Ha2], Hb as [Hb1 Hb2].
    pose proof (be_value_bound a Ha2) as B1. pose proof (be_value_bound b Hb2) as B2.
    unfold len in B1, B2. rewrite Ha1 in B1. rewrite Hb1 in B2. apply lxor_bound; [lia|done|done].
Qed.

(** ** The invariant of the buckets *)

Section invariant.
Context {K V : Type} `{EqDecision K} (digest : K -> list u8) (N : nat).
Hypothesis digest_ok : forall k, is_digest (digest k).
Hypothesis N_pos : (0 < N)%nat.
Implicit Types (b : Bucket K V) (self : KBuckets K V).

(** The entries have different keys and are at most [N], the connected ones
    first; a full bucket with a disconnected entry has an expiration. *)
Record bucket_ok b : Prop := {
  bo_nodup : NoDup (entries b).*1;
  bo_num : (num_connected_entries b <= length (entries b) <= N)%nat;
  bo_pending : length (entries b) = N -> (num_connected_entries b < N)%nat -> is_Some (pending_entry b)
}.

Record kb_ok self : Prop := {
  ko_local : snd (local_key self) = digest (fst (local_key self));
  ko_len : length (buckets self) = 256%nat;
  ko_bucket : forall i b, buckets self !! i = Some b -> bucket_ok b /\
    forall k v, (k, v) ∈ entries b -> distance_log2 (snd (local_key self)) (digest k) = Some (Z.of_nat i)
}.

Lemma bucket_get_elem b k v : NoDup (entries b).*1 -> bucket_get b k = Some v <-> (k, v) ∈ entries b.
Proof.
  unfold bucket_get. induction (entries b) as [|[k' v'] l IH]; cbn; intros Hnd.
  - split; [done|]. by intros ?%elem_of_nil.
  - apply NoDup_cons in Hnd as [Hk Hnd]. case_bool_decide as E; cbn.
    + subst. split; [intros [= ->]; by left|]. intros [[= ->]|Hin]%elem_of_cons; [done|].
      destruct Hk. apply list_elem_of_fmap. by exists (k, v).
    + rewrite IH by done. rewrite elem_of_cons. naive_solver.
Qed.

Lemma bucket_get_None b k : bucket_get b k = None <-> k ∉ (entries b).*1.
Proof.
  unfold bucket_get. induction (entries b) as [|[k' v'] l IH]; cbn.
  - split; [by intros _ ?%elem_of_nil|done].
  - rewrite not_elem_of_cons. case_bool_decide as E; cbn; [naive_solver|]. rewrite IH. naive_solver.
Qed.

(** [VacantEntry::insert] of a disconnected entry does not panic. *)
Lemma bucket_insert_disconnected timeout b k v now :
  bucket_ok b -> k ∉ (entries b).*1 ->
  exists r, bucket_insert N timeout b k v now Disconnected = Some r /\
    match r with
    | Err InsertFull => length (entries b) = N /\
        (num_connected_entries b = N \/ exists t, pending_entry b = Some t /\ now < t)
    | Ok (b', None) => (length (entries b) < N)%nat /\ bucket_ok b' /\ entries b' = entries b ++ [(k, v)] /\
        num_connected_entries b' = num_connected_entries b
    | Ok (b', Some e) => bucket_ok b' /\ exists l t, entries b = l ++ [e] /\ entries b' = l ++ [(k, v)] /\
        length (entries b) = N /\ (num_connected_entries b <= length l)%nat /\
        num_connected_entries b' = num_connected_entries b /\ pending_entry b = Some t /\ t <= now
    end.
Proof.
  intros [Hnd Hnum Hpend] Hk. unfold bucket_insert, is_full.
  destruct (Nat.eqb_spec (length (entries b)) N) as [Hfull|Hfull].
  - destruct (Nat.eqb_spec (num_connected_entries b) N) as [Hall|Hall].
    { eexists. split; [done|]. cbn. auto. }
    destruct (Hpend Hfull ltac:(lia)) as [t Ht]. rewrite Ht.
    destruct (Z.ltb_spec now t) as [Hlt|Hge]; [eexists; split; [done|]; cbn; eauto|].
    destruct (entries b) as [|e l _] eqn:El using rev_ind; [cbn in Hfull; lia|].
    rewrite length_app in *. cbn in Hfull, Hnum.
    unfold av_pop. rewrite last_snoc, length_app. cbn [length].
    replace (length l + 1 - 1)%nat with (length l) by lia. rewrite take_app_length.
    unfold av_push, is_full. rewrite (proj2 (Nat.eqb_neq (length l) N)) by lia.
    eexists. split; [done|]. cbn. split.
    + rewrite fmap_app in Hnd, Hk. cbn in Hnd, Hk. apply NoDup_app in Hnd as (Hnd & _ & _).
      apply not_elem_of_app in Hk as [Hk _]. split; cbn.
      * rewrite fmap_app. cbn. apply NoDup_app. split; [done|]. split; [|apply NoDup_singleton].
        by intros x Hx ->%list_elem_of_singleton.
      * rewrite length_app. cbn. lia.
      * eauto.
    + exists l, t. split_and!; try done; try lia.
  - unfold av_push, is_full. rewrite (proj2 (Nat.eqb_neq _ _)) by done.
    eexists. split; [done|]. cbn. split; [lia|]. split; [|done]. split; cbn.
    + rewrite fmap_app. cbn. apply NoDup_app. split; [done|]. split; [|apply NoDup_singleton].
      by intros x Hx ->%list_elem_of_singleton.
    + rewrite length_app. cbn. lia.
    + intros Hlen _. rewrite (proj2 (Nat.eqb_eq _ _)) by done. eauto.
Qed.

(** The connected entries of a bucket. *)
Definition connected b : list K := (take (num_connected_entries b) (entries b)).*1.

Lemma av_move l i j (x : K * V) :
  l !! i = Some x -> (j < length l <= N)%nat ->
  exists l', av_remove i l = Some (x, delete i l) /\ av_insert N j x (delete i l) = Some l' /\
    l' = take j (delete i l) ++ x :: drop j (delete i l) /\ l' ≡ₚ l /\ length l' = length l.
Proof.
  intros Hi Hj. unfold av_remove. rewrite Hi. pose proof (length_delete l i ltac:(eauto)) as Hd.
  exists (take j (delete i l) ++ x :: drop j (delete i l)). split; [done|].
  unfold av_insert, is_full. rewrite (proj2 (Nat.eqb_neq (length (delete i l)) N)) by lia.
  assert (Hle : Nat.leb (length (delete i l)) j && negb (Nat.eqb (length (delete i l)) j) = false).
  { destruct (Nat.leb_spec (length (delete i l)) j); [|done]. rewrite (proj2 (Nat.eqb_eq _ _)) by lia. done. }
  rewrite Hle. split; [done|]. split; [done|].
  assert (Hp : take j (delete i l) ++ x :: drop j (delete i l) ≡ₚ l).
  { rewrite <- Permutation_middle, take_drop. symmetry. by apply delete_Permutation. }
  split; [done|]. by apply Permutation_length.
Qed.

(** The first entries after a move to the front of the disconnected ones, or to
    the end of the connected ones. *)
Lemma take_move_up (l1 l2 : list (K * V)) x num :
  (num <= length l1)%nat ->
  take (S num) (take num (l1 ++ l2) ++ x :: drop num (l1 ++ l2)) = take num (l1 ++ x :: l2) ++ [x].
Proof.
  intros Hle. rewrite !(take_app_le l1) by done.
  assert (Hl : length (take num l1) = num) by (rewrite length_take; lia).
  rewrite take_app_ge by lia. rewrite Hl. replace (S num - num)%nat with 1%nat by lia. done.
Qed.

Lemma take_move_down (l1 l2 : list (K * V)) x num :
  (length l1 < num)%nat -> (num <= length (l1 ++ x :: l2))%nat ->
  take (num - 1) (take (num - 1) (l1 ++ l2) ++ x :: drop (num - 1) (l1 ++ l2)) =
    l1 ++ take (num - 1 - length l1) l2 /\
  take num (l1 ++ x :: l2) = l1 ++ x :: take (num - 1 - length l1) l2.
Proof.
  rewrite length_app. cbn. intros Hlt Hle. split.
  - rewrite take_app_le by (rewrite length_take, length_app; lia). rewrite take_take, Nat.min_id.
    by rewrite take_app_ge by lia.
  - rewrite take_app_ge by lia. by replace (num - length l1)%nat with (S (num - 1 - length l1)) by lia.
Qed.

(** [set_state] does not panic on an entry of the bucket, keeps the entries, and
    makes the entry connected or not; the others are as they were. *)
Lemma bucket_set_state_spec timeout b k now state :
  bucket_ok b -> k ∈ (entries b).*1 ->
  exists b', bucket_set_state N timeout b k now state = Some b' /\ bucket_ok b' /\ entries b' ≡ₚ entries b /\
    forall k', k' ∈ connected b' <->
      (if decide (k' = k) then state = Connected else k' ∈ connected b).
Proof.
  intros Hok Hk. pose proof Hok as [Hnd Hnum Hpend]. unfold bucket_set_state, position.
  destruct (list_find (fun e => fst e = k) (entries b)) as [[i x]|] eqn:Ef.
  2:{ apply list_elem_of_fmap in Hk as (e & -> & Hin).
      destruct (list_find_elem_of (fun e' => fst e' = fst e) _ _ Hin eq_refl) as [? Hf]. congruence. }
  apply list_find_Some in Ef as (Hi & Hx & _). destruct x as [k0 v]. cbn in Hx. subst k0.
  set (num := num_connected_entries b) in *.
  pose proof (take_drop_middle _ _ _ Hi) as Hl. pose proof (lookup_lt_Some _ _ _ Hi) as Hlt.
  set (l1 := take i (entries b)) in *. set (l2 := drop (S i) (entries b)) in *.
  assert (Hl1 : length l1 = i) by (unfold l1; rewrite length_take; lia).
  assert (Hdel : delete i (entries b) = l1 ++ l2) by apply delete_take_drop.
  assert (Hsep : k ∉ l1.*1 /\ k ∉ l2.*1).
  { rewrite <- Hl, fmap_app in Hnd. cbn in Hnd. apply NoDup_app in Hnd as (_ & Hsep & Hnd).
    apply NoDup_cons in Hnd as [Hk2 _]. split; [|done]. intros Hk1. apply (Hsep k Hk1). by left. }
  assert (Hmove : forall j, (j < length (entries b))%nat ->
            exists l', av_remove i (entries b) = Some (k, v, delete i (entries b)) /\
              av_insert N j (k, v) (delete i (entries b)) = Some l' /\
              l' = take j (l1 ++ l2) ++ (k, v) :: drop j (l1 ++ l2) /\ l' ≡ₚ entries b /\ length l' = length (entries b)).
  { intros j Hj. destruct (av_move (entries b) i j (k, v) Hi) as (l' & ? & ? & Hl' & ? & ?); [lia|].
    exists l'. rewrite Hdel in Hl'. done. }
  assert (Hsame : (state = Connected <-> (i < num)%nat) ->
            exists b', Some b = Some b' /\ bucket_ok b' /\ entries b' ≡ₚ entries b /\
              forall k', k' ∈ connected b' <-> (if decide (k' = k) then state = Connected else k' ∈ connected b)).
  { intros Hst. exists b. split; [done|]. split; [done|]. split; [done|]. intros k'. case_decide; [subst k'|done].
    rewrite Hst. unfold connected. fold num. destruct (Nat.lt_ge_cases i num) as [Hlt'|Hge].
    - split; [done|]. intros _. rewrite <- Hl, take_app_ge by lia.
      destruct (num - length l1)%nat eqn:En; [lia|]. cbn. rewrite fmap_app. apply elem_of_app. right. by left.
    - split; [|lia]. rewrite <- Hl, take_app_le by lia. intros Hin. destruct Hsep as [[] _].
      apply list_elem_of_fmap in Hin as (e & -> & He). apply list_elem_of_fmap. exists e. split; [done|].
      apply elem_of_take in He as (? & He & _). by eapply list_elem_of_lookup_2. }
  cbn [fst fmap option_fmap option_map].
  destruct state; [destruct (Nat.leb_spec num i) as [Hle|Hgt]; [|apply Hsame; naive_solver lia] |
                   destruct (Nat.ltb_spec i num) as [Hgt|Hle]; [|apply Hsame; naive_solver lia]].
  - destruct (Hmove num) as (l' & -> & -> & Hl' & Hperm & Hlen); [lia|]. eexists. split; [done|]. split; [|split].
    + split; cbn.
      * by rewrite Hperm.
      * lia.
      * intros HN ?. case_match; [eauto|]. apply Hpend; lia.
    + done.
    + intros k'. unfold connected. cbn. fold num.
      rewrite Hl', take_move_up, Hl, fmap_app, elem_of_app by lia. cbn [fmap list_fmap fst].
      rewrite list_elem_of_singleton. case_decide; [naive_solver|]. naive_solver.
  - destruct (Hmove (num - 1)%nat) as (l' & -> & -> & Hl' & Hperm & Hlen); [lia|]. eexists. split; [done|]. split; [|split].
    + split; cbn.
      * by rewrite Hperm.
      * lia.
      * intros HN ?. destruct (Nat.eqb_spec (num - 1) (N - 1)) as [?|Hne]; [eauto|]. apply Hpend; lia.
    + done.
    + intros k'. unfold connected. cbn. fold num.
      destruct (take_move_down l1 l2 (k, v) num) as [Hd1 Hd2]; [lia | rewrite Hl; lia |].
      rewrite Hl in Hd2. rewrite Hl', Hd1, Hd2, !fmap_app, fmap_cons.
      assert (Hsub : k' ∈ (take (num - 1 - length l1) l2).*1 -> k' ∈ l2.*1).
      { intros (e & -> & He)%list_elem_of_fmap. apply list_elem_of_fmap. exists e. split; [done|].
        apply elem_of_take in He as (? & He & _). by eapply list_elem_of_lookup_2. }
      case_decide; rewrite !elem_of_app, ?elem_of_cons; cbn [fst]; [|naive_solver].
      subst k'. naive_solver.
Qed.

(** *** The buckets together *)

Definition dist self (k : K) : option Z := distance_log2 (snd (local_key self)) (digest k).

Lemma dist_bound self k d : kb_ok self -> dist self k = Some d -> 0 <= d < 256.
Proof.
  intros Hok. unfold dist. rewrite (ko_local _ Hok), distance_digest by apply digest_ok. case_decide; [done|].
  intros [= <-]. split; [apply Z.log2_nonneg|]. apply log2_bound; [lia|].
  destruct (digest_ok (fst (local_key self))) as [Ha1 Ha2], (digest_ok k) as [Hb1 Hb2].
  pose proof (be_value_bound _ Ha2) as B1. pose proof (be_value_bound _ Hb2) as B2.
  unfold len in B1, B2. rewrite Ha1 in B1. rewrite Hb1 in B2. apply lxor_bound; [lia|done|done].
Qed.

Lemma bucket_at_ok self k d : kb_ok self -> dist self k = Some d -> exists b, bucket_at self d = Some b /\ bucket_ok b.
Proof.
  intros Hok Hd. pose proof (dist_bound _ _ _ Hok Hd). unfold bucket_at.
  destruct (lookup_lt_is_Some_2 (buckets self) (Z.to_nat d)) as [b Hb]; [rewrite (ko_len _ Hok); lia|].
  exists b. split; [done|]. by apply (ko_bucket _ Hok _ _ Hb).
Qed.

Lemma kb_get_at self k d b :
  dist self k = Some d -> bucket_at self d = Some b -> kb_get digest self k = Some (bucket_get b k).
Proof. unfold kb_get, dist. intros -> Hb. by rewrite Hb. Qed.

Lemma set_bucket_ok self d b b' :
  kb_ok self -> 0 <= d -> bucket_at self d = Some b -> bucket_ok b' ->
  (forall k v, (k, v) ∈ entries b' -> (k, v) ∈ entries b \/ dist self k = Some d) ->
  kb_ok (set_bucket self d b').
Proof.
  intros [Hl Hn Hb] Hd Hat Hok Hin. split; cbn; [done | by rewrite length_insert |].
  intros i c. destruct (decide (i = Z.to_nat d)) as [->|Hne].
  - rewrite list_lookup_insert_eq by (by eapply lookup_lt_Some). intros [= <-]. split; [done|].
    intros k v [Hin'|Hdist]%Hin; [by eapply Hb|]. rewrite Z2Nat.id by done. exact Hdist.
  - rewrite list_lookup_insert_ne by congruence. apply Hb.
Qed.

(** What [get] returns after a bucket was replaced. *)
Lemma kb_get_set self d b b' k :
  kb_ok self -> 0 <= d -> bucket_at self d = Some b ->
  kb_get digest (set_bucket self d b') k =
  if decide (dist self k = Some d) then Some (bucket_get b' k) else kb_get digest self k.
Proof.
  intros Hok Hd Hat. unfold kb_get, dist. cbn. unfold bucket_at in *. cbn.
  destruct (distance_log2 _ (digest k)) as [d'|] eqn:Ed; [|done]. case_decide as E.
  - injection E as ->. by rewrite list_lookup_insert_eq by (by eapply lookup_lt_Some).
  - rewrite list_lookup_insert_ne; [done|]. pose proof (dist_bound self k d' Hok Ed). intros ?. apply E. f_equal. lia.
Qed.

Lemma elem_fst (l : list (K * V)) k v : (k, v) ∈ l -> k ∈ l.*1.
Proof. intros Hin. apply list_elem_of_fmap. by exists (k, v). Qed.

Lemma bucket_get_fst b k : bucket_ok b -> is_Some (bucket_get b k) <-> k ∈ (entries b).*1.
Proof.
  intros [Hnd _ _]. destruct (bucket_get b k) as [v|] eqn:E.
  - split; [|eauto]. intros _. apply bucket_get_elem in E; [|done]. by eapply elem_fst.
  - apply bucket_get_None in E. split; [by intros []|done].
Qed.

Lemma bucket_get_ext b b' k :
  bucket_ok b -> bucket_ok b' -> (forall v, (k, v) ∈ entries b' <-> (k, v) ∈ entries b) -> bucket_get b' k = bucket_get b k.
Proof.
  intros Hok Hok' Hext. apply option_eq. intros v.
  rewrite !bucket_get_elem by (apply Hok || apply Hok'). apply Hext.
Qed.

(** The entry [k] of the bucket is the last one, disconnected and expired. *)
Definition evictable b (now : Z) (k : K) : Prop :=
  length (entries b) = N /\ last (entries b).*1 = Some k /\ k ∉ connected b /\
  exists t, pending_entry b = Some t /\ t <= now.

(** The entries after the insertion of a disconnected entry. *)
Lemma bucket_insert_gets timeout b key v now b' prev :
  bucket_ok b -> key ∉ (entries b).*1 ->
  bucket_insert N timeout b key v now Disconnected = Some (Ok (b', prev)) ->
  bucket_ok b' /\ bucket_get b' key = Some v /\
  (forall k0 v0, (k0, v0) ∈ entries b' -> (k0, v0) ∈ entries b \/ k0 = key) /\
  forall k, k <> key -> bucket_get b' k = bucket_get b k \/ (evictable b now k /\ bucket_get b' k = None).
Proof.
  intros Hbok Hk Hrun. destruct (bucket_insert_disconnected timeout b key v now Hbok Hk) as (r & Hr & Hspec).
  rewrite Hrun in Hr. injection Hr as <-.
  assert (Hb' : bucket_ok b' /\ exists l, entries b' = l ++ [(key, v)] /\ entries b = l ++ option_list prev).
  { destruct prev as [e|]; [destruct Hspec as (? & l & t & ? & ? & _); eauto|].
    destruct Hspec as (_ & ? & ? & _). split; [done|]. exists (entries b). by rewrite app_nil_r. }
  destruct Hb' as (Hbok' & l & Hl' & Hl).
  assert (Hin' : forall k0 v0, (k0, v0) ∈ entries b' <-> (k0, v0) ∈ l \/ (k0, v0) = (key, v)).
  { intros k0 v0. by rewrite Hl', elem_of_app, list_elem_of_singleton. }
  split; [done|]. split; [apply bucket_get_elem; [apply Hbok'|]; apply Hin'; by right|]. split.
  { intros k0 v0 [Hin|[= -> ->]]%Hin'; [left; rewrite Hl; apply elem_of_app; by left | by right]. }
  intros k Hne. destruct prev as [[ke ve]|].
  2:{ left. apply bucket_get_ext; [done|done|]. intros v0. rewrite Hin', Hl, elem_of_app. cbn.
      rewrite elem_of_nil. naive_solver. }
  destruct (decide (k = ke)) as [->|Hke].
  2:{ left. apply bucket_get_ext; [done|done|]. intros v0. rewrite Hin', Hl, elem_of_app. cbn.
      rewrite list_elem_of_singleton. naive_solver. }
  right. destruct Hspec as (_ & l0 & t & Hl0 & Hl0' & Hlen & Hnum & _ & Ht & Hle).
  assert (Hf : (entries b).*1 = l0.*1 ++ [ke]) by (by rewrite Hl0, fmap_app).
  assert (He : ke ∉ l0.*1).
  { pose proof (bo_nodup _ Hbok) as Hnd. rewrite Hf in Hnd. apply NoDup_app in Hnd as (_ & Hnd & _).
    intros Hin. apply (Hnd _ Hin). by left. }
  split; [split; [done|split; [by rewrite Hf, last_snoc|split; [|eauto]]]|].
  - unfold connected. rewrite Hl0, take_app_le by done. intros Hin. apply He.
    apply list_elem_of_fmap in Hin as (e' & -> & He'). apply list_elem_of_fmap. exists e'. split; [done|].
    apply elem_of_take in He' as (? & He' & _). by eapply list_elem_of_lookup_2.
  - apply bucket_get_None. rewrite Hl0', fmap_app. cbn. rewrite elem_of_app, list_elem_of_singleton. naive_solver.
Qed.

Definition or_insert_post self key v now (r : result OrInsertError (KBuckets K V)) : Prop :=
  match r with
  | Err OrInsertLocalKey => digest key = snd (local_key self)
  | Err OrInsertFull => exists d b, dist self key = Some d /\ bucket_at self d = Some b /\
      kb_get digest self key = Some None /\ length (entries b) = N /\
      (num_connected_entries b = N \/ exists t, pending_entry b = Some t /\ now < t)
  | Ok self' => kb_ok self' /\
      (forall old, kb_get digest self key = Some old -> kb_get digest self' key = Some (Some (default v old))) /\
      (forall k, k <> key -> kb_get digest self' k = kb_get digest self k \/
         exists d b, bucket_at self d = Some b /\ evictable b now k /\ kb_get digest self' k = Some None)
  end.

Lemma or_insert_ok self key v now :
  kb_ok self ->
  exists r, or_insert digest N self key v now Disconnected = Some r /\ or_insert_post self key v now r.
Proof.
  intros Hok. unfold or_insert, kb_entry. fold (dist self key).
  destruct (dist self key) as [d|] eqn:Ed.
  2:{ eexists. split; [done|]. cbn. unfold dist in Ed. rewrite (ko_local _ Hok), distance_digest in Ed by apply digest_ok.
      rewrite (ko_local _ Hok). case_decide; congruence. }
  destruct (bucket_at_ok _ _ _ Hok Ed) as (b & Hb & Hbok). pose proof (dist_bound _ _ _ Hok Ed) as Hd.
  rewrite Hb. pose proof (kb_get_at _ _ _ _ Ed Hb) as Hget. case_bool_decide as Ein.
  { eexists. split; [done|]. cbn. split; [done|]. split; [|by left]. intros old. rewrite Hget. intros [= <-].
    destruct Ein as [v' ->]. done. }
  assert (Hkey : bucket_get b key = None) by (by destruct (bucket_get b key); [destruct Ein; eauto|]).
  assert (Hk : key ∉ (entries b).*1) by (by apply bucket_get_None).
  unfold vacant_insert. rewrite Hb.
  destruct (bucket_insert_disconnected (pending_timeout self) b key v now Hbok Hk) as (r & Hrun & Hr).
  rewrite Hrun. destruct r as [[b' prev]|[]].
  2:{ eexists. split; [done|]. cbn. exists d, b. rewrite Hget, Hkey. naive_solver. }
  eexists. split; [done|]. cbn.
  destruct (bucket_insert_gets _ _ _ _ _ _ _ Hbok Hk Hrun) as (Hbok' & Hnew & Hsub & Hother).
  split; [|split].
  - apply (set_bucket_ok self d b); [done | lia | done | done |].
    intros k0 v0 [Hin| ->]%Hsub; [by left | by right].
  - intros old. rewrite Hget, Hkey. intros [= <-]. rewrite (kb_get_set self d b) by (done || lia).
    rewrite decide_True by done. by rewrite Hnew.
  - intros k Hne. rewrite (kb_get_set self d b) by (done || lia). case_decide as Edk; [|by left].
    rewrite (kb_get_at self k d b) by done. destruct (Hother k Hne) as [->|[? ->]]; [by left|]. right. eauto.
Qed.

(** [set_state] on the buckets. *)
Lemma kb_set_state_ok self key now state :
  kb_ok self ->
  exists self', kb_set_state digest N self key now state = Some self' /\ kb_ok self' /\
    (forall k, kb_get digest self' k = kb_get digest self k) /\
    forall d b, dist self key = Some d -> bucket_at self d = Some b -> key ∈ (entries b).*1 ->
      exists b', bucket_at self' d = Some b' /\ entries b' ≡ₚ entries b /\
        forall k, k ∈ connected b' <-> (if decide (k = key) then state = Connected else k ∈ connected b).
Proof.
  intros Hok. unfold kb_set_state, kb_entry. fold (dist self key).
  destruct (dist self key) as [d|] eqn:Ed; [|by exists self; naive_solver].
  destruct (bucket_at_ok _ _ _ Hok Ed) as (b & Hb & Hbok). pose proof (dist_bound _ _ _ Hok Ed) as Hd.
  rewrite Hb. case_bool_decide as Ein; rewrite bucket_get_fst in Ein by done.
  2:{ exists self. split; [done|]. split; [done|]. split; [done|]. intros ? ? [= <-]. naive_solver. }
  rewrite Hb. destruct (bucket_set_state_spec (pending_timeout self) b key now state Hbok Ein)
    as (b' & -> & Hbok' & Hperm & Hconn).
  exists (set_bucket self d b'). split; [done|]. split; [|split].
  - apply (set_bucket_ok self d b); [done | lia | done | done |]. intros k v. rewrite Hperm. by left.
  - intros k. rewrite (kb_get_set self d b) by (done || lia). case_decide as Edk; [|done].
    rewrite (kb_get_at self k d b) by done. f_equal. apply bucket_get_ext; [done|done|]. intros v. by rewrite Hperm.
  - intros ? b0 [= <-] Hb0 _. assert (b0 = b) as -> by congruence. exists b'. split; [|done].
    unfold bucket_at. cbn. apply list_lookup_insert_eq. by eapply lookup_lt_Some.
Qed.

(** *** Runs *)

(** The calls made by the network service: peers are inserted disconnected, and
    the state of a known peer is updated. *)
Inductive kb_step : KBuckets K V -> KBuckets K V -> Prop :=
  | kb_step_insert self key v now self' :
      or_insert digest N self key v now Disconnected = Some (Ok self') -> kb_step self self'
  | kb_step_state self key now state self' :
      kb_set_state digest N self key now state = Some self' -> kb_step self self'.

Lemma KBuckets_new_ok lk timeout : kb_ok (KBuckets_new digest lk timeout).
Proof.
  split; [done | done |]. cbn [KBuckets_new buckets local_key snd].
  intros i b [-> Hi]%lookup_replicate. split; [split; cbn|].
  - constructor.
  - lia.
  - lia.
  - by intros k v ?%elem_of_nil.
Qed.

Lemma kb_reach_ok lk timeout self : rtc kb_step (KBuckets_new digest lk timeout) self -> kb_ok self.
Proof.
  assert (Hall : forall s1 s2, rtc kb_step s1 s2 -> kb_ok s1 -> kb_ok s2).
  { induction 1 as [|s1 s2 s3 Hstep _ IH]; [done|]. intros Hok. apply IH.
    destruct Hstep as [self0 key v now self' Hrun|self0 key now state self' Hrun].
    - destruct (or_insert_ok self0 key v now Hok) as (r & Hr & Hpost). rewrite Hrun in Hr. injection Hr as <-. apply Hpost.
    - destruct (kb_set_state_ok self0 key now state Hok) as (r & Hr & Hpost & _). congruence. }
  intros Hr. apply (Hall _ _ Hr), KBuckets_new_ok.
Qed.

(** In every state reached by inserting disconnected peers and updating the
    state of known ones, inserting a disconnected peer does not panic. It fails
    for a peer with the digest of the local one, and for a full bucket whose
    entries are all connected or whose last entry has not expired; otherwise the
    peer is there afterwards with the value it had or else the new one, and every
    other peer is as before, except possibly one that was the last of a full
    bucket, disconnected and expired, which is gone. *)
Theorem or_insert_spec lk timeout self (key : K) (v : V) (now : Z) :
  rtc kb_step (KBuckets_new digest lk timeout) self ->
  exists r, or_insert digest N self key v now Disconnected = Some r /\ or_insert_post self key v now r.
Proof. intros Hr. by eapply or_insert_ok, kb_reach_ok. Qed.

(** In every reachable state [set_state] does not panic and keeps every peer
    with its value; in the bucket of the peer exactly its own state changes, the
    connected entries being the first ones. *)
Theorem set_state_spec lk timeout self (key : K) (now : Z) (state : PeerState) :
  rtc kb_step (KBuckets_new digest lk timeout) self ->
  exists self', kb_set_state digest N self key now state = Some self' /\
    (forall k, kb_get digest self' k = kb_get digest self k) /\
    forall d b, dist self key = Some d -> bucket_at self d = Some b -> key ∈ (entries b).*1 ->
      exists b', bucket_at self' d = Some b' /\ entries b' ≡ₚ entries b /\
        forall k, k ∈ connected b' <-> (if decide (k = key) then state = Connected else k ∈ connected b).
Proof.
  intros Hr. destruct (kb_set_state_ok self key now state) as (self' & H1 & _ & H2 & H3); [by eapply kb_reach_ok|].
  by exists self'.
Qed.

(** *** Closest entries *)

Lemma sort_insert_perm (g : K * V -> Z) x l : sort_insert g x l ≡ₚ x :: l.
Proof. induction l as [|y l IH]; [done|]. cbn. case_match; [done|]. by rewrite IH, Permutation_swap. Qed.

Lemma sort_by_key_perm (g : K * V -> Z) l : sort_by_key g l ≡ₚ l.
Proof. induction l as [|x l IH]; [done|]. cbn. by rewrite sort_insert_perm, IH. Qed.

Lemma sort_insert_sorted (g : K * V -> Z) x l :
  StronglySorted (fun a c => g a <= g c) l -> StronglySorted (fun a c => g a <= g c) (sort_insert g x l).
Proof.
  induction 1 as [|y l Hl IH Hy]; [by repeat constructor|]. cbn. destruct (Z.leb_spec (g x) (g y)) as [Hle|Hlt].
  - constructor; [by constructor|]. constructor; [done|]. eapply Forall_impl; [exact Hy|]. cbn. intros. lia.
  - constructor; [done|]. rewrite Forall_forall in *. intros z. rewrite sort_insert_perm.
    intros [->|Hz]%elem_of_cons; [lia|auto].
Qed.

Lemma sort_by_key_sorted (g : K * V -> Z) l : StronglySorted (fun a c => g a <= g c) (sort_by_key g l).
Proof. induction l as [|x l IH]; [constructor|]. cbn. by apply sort_insert_sorted. Qed.

Lemma elem_of_iter_ordered self k v :
  kb_ok self -> (k, v) ∈ iter_ordered self <-> kb_get digest self k = Some (Some v).
Proof.
  intros Hok. unfold iter_ordered. rewrite list_elem_of_join. split.
  - intros (l & Hin & (b & -> & (i & Hi)%list_elem_of_lookup)%list_elem_of_fmap).
    destruct (ko_bucket _ Hok i b Hi) as [Hbok Hd]. specialize (Hd k v Hin).
    rewrite (kb_get_at self k (Z.of_nat i) b Hd) by (unfold bucket_at; by rewrite Nat2Z.id).
    f_equal. apply bucket_get_elem; [apply Hbok|done].
  - unfold kb_get. fold (dist self k). destruct (dist self k) as [d|] eqn:Ed; [|done].
    destruct (bucket_at_ok _ _ _ Hok Ed) as (b & Hb & Hbok). rewrite Hb. intros [= Hg].
    apply bucket_get_elem in Hg; [|apply Hbok]. exists (entries b). split; [done|].
    apply list_elem_of_fmap. exists b. split; [done|]. by eapply list_elem_of_lookup_2.
Qed.

Lemma iter_ordered_nodup self : kb_ok self -> NoDup (iter_ordered self).*1.
Proof.
  intros [_ _ Hb]. unfold iter_ordered.
  assert (Hall : forall off l, (forall i b, l !! i = Some b -> bucket_ok b /\
            forall k v, (k, v) ∈ entries b -> distance_log2 (snd (local_key self)) (digest k) = Some (Z.of_nat (off + i))) ->
            NoDup (mjoin (entries <$> l)).*1).
  { intros off l. revert off. induction l as [|b l IH]; intros off Hl; [constructor|]. cbn. rewrite fmap_app.
    destruct (Hl 0%nat b eq_refl) as [Hbok Hd]. apply NoDup_app. split; [apply Hbok|]. split.
    - intros k ((k1 & v1) & -> & Hin1)%list_elem_of_fmap ((k2 & v2) & Hk & Hin2)%list_elem_of_fmap. cbn in *. subst k2.
      apply list_elem_of_join in Hin2 as (l2 & Hin2 & (b2 & -> & (i & Hi)%list_elem_of_lookup)%list_elem_of_fmap).
      destruct (Hl (S i) b2 Hi) as [_ Hd2]. specialize (Hd _ _ Hin1). specialize (Hd2 _ _ Hin2).
      rewrite Hd in Hd2. injection Hd2. lia.
    - apply (IH (S off)). intros i b' Hi. destruct (Hl (S i) b' Hi) as [? Hd']. split; [done|].
      intros k v Hin. rewrite (Hd' k v Hin). do 2 f_equal. lia. }
  apply (Hall 0%nat). exact Hb.
Qed.

Lemma length_iter_ordered self : kb_ok self -> (length (iter_ordered self) <= 256 * N)%nat.
Proof.
  intros [_ Hlen Hb]. unfold iter_ordered. rewrite <- Hlen.
  assert (Hall : Forall (fun b => (length (entries b) <= N)%nat) (buckets self)).
  { apply Forall_forall. intros b (i & Hi)%list_elem_of_lookup. by apply (Hb i b Hi). }
  clear Hlen Hb. induction Hall as [|b l Hb0 _ IH]; [done|]. cbn [fmap list_fmap mjoin list_join length].
  rewrite length_app. change (length (mjoin (entries <$> l)) <= length l * N)%nat in IH.
  unfold mjoin in *. cbn [Nat.mul]. lia.
Qed.

(** In every reachable state [closest_entries] yields every entry of the
    buckets once, at most [256 * N] of them, ordered by the logarithm of the
    distance of their digests to the target, a peer with the target's digest
    first. *)
Theorem closest_entries_spec lk timeout self (target : K) :
  rtc kb_step (KBuckets_new digest lk timeout) self ->
  StronglySorted (fun a c => sort_key digest target a <= sort_key digest target c) (closest_entries digest self target) /\
  NoDup (closest_entries digest self target).*1 /\
  (forall k v, (k, v) ∈ closest_entries digest self target <-> kb_get digest self k = Some (Some v)) /\
  (length (closest_entries digest self target) <= 256 * N)%nat.
Proof.
  intros Hok%kb_reach_ok. unfold closest_entries. split; [apply sort_by_key_sorted|].
  rewrite sort_by_key_perm. split; [by apply iter_ordered_nodup|]. split; [|by apply length_iter_ordered].
  intros k v. rewrite sort_by_key_perm. by apply elem_of_iter_ordered.
Qed.

End invariant.

(** ** Concrete buckets *)

(** Keys are numbers, with their 32 bytes as the digest; two entries per bucket. *)
Definition digest_num (k : Z) : list u8 := rev (to_le_bytes 32 k).

Lemma digest_num_ok k : is_digest (digest_num k).
Proof.
  unfold digest_num. split; [by rewrite length_rev, length_to_le_bytes|].
  apply Forall_rev, to_le_bytes_bytes.
Qed.

Definition kb0 : KBuckets Z Z := KBuckets_new digest_num 0 10.
Definition kb_ins (self : KBuckets Z Z) (k now : Z) (state : PeerState) : KBuckets Z Z :=
  match or_insert digest_num 2 self k (100 + k) now state with Some (Ok s) => s | _ => self end.

(** The peers 4 and 5, in the same bucket, which they fill. *)
Definition kb2 : KBuckets Z Z := kb_ins (kb_ins kb0 4 0 Disconnected) 5 1 Disconnected.

Lemma kb2_reach : rtc (kb_step digest_num 2) kb0 kb2.
Proof.
  apply rtc_l with (kb_ins kb0 4 0 Disconnected); [|apply rtc_once];
    [apply (kb_step_insert _ _ _ 4 104 0) | apply (kb_step_insert _ _ _ 5 105 1)]; by vm_compute.
Qed.

Lemma distance_log2_spec_witness :
  is_digest (digest_num 4) /\ is_digest (digest_num 13) /\ distance_log2 (digest_num 4) (digest_num 13) = Some 3 /\
  distance_log2 (digest_num 4) (digest_num 13) = distance_log2 (digest_num 13) (digest_num 4).
Proof.
  split; [apply digest_num_ok|]. split; [apply digest_num_ok|]. split; [by vm_compute|].
  apply (distance_log2_spec (digest_num 4) (digest_num 13)); apply digest_num_ok.
Defined.

Lemma or_insert_spec_witness :
  rtc (kb_step digest_num 2) kb0 kb2 /\
  exists r, or_insert digest_num 2 kb2 6 106 11 Disconnected = Some r /\ or_insert_post digest_num 2 kb2 6 106 11 r.
Proof.
  split; [exact kb2_reach|].
  apply (or_insert_spec digest_num 2 digest_num_ok ltac:(lia) 0 10 kb2 6 106 11). exact kb2_reach.
Defined.

Lemma set_state_spec_witness :
  rtc (kb_step digest_num 2) kb0 kb2 /\
  exists self', kb_set_state digest_num 2 kb2 5 3 Connected = Some self' /\
    (forall k, kb_get digest_num self' k = kb_get digest_num kb2 k) /\
    forall d b, dist digest_num kb2 5 = Some d -> bucket_at kb2 d = Some b -> 5 ∈ (entries b).*1 ->
      exists b', bucket_at self' d = Some b' /\ entries b' ≡ₚ entries b /\
        forall k, k ∈ connected b' <-> (if decide (k = 5) then Connected = Connected else k ∈ connected b).
Proof.
  split; [exact kb2_reach|].
  apply (set_state_spec digest_num 2 digest_num_ok ltac:(lia) 0 10 kb2 5 3 Connected). exact kb2_reach.
Defined.

Lemma closest_entries_spec_witness :
  rtc (kb_step digest_num 2) kb0 kb2 /\ closest_entries digest_num kb2 5 = [(5, 105); (4, 104)] /\
  StronglySorted (fun a c => sort_key digest_num 5 a <= sort_key digest_num 5 c) (closest_entries digest_num kb2 5) /\
  NoDup (closest_entries digest_num kb2 5).*1 /\
  (forall k v, (k, v) ∈ closest_entries digest_num kb2 5 <-> kb_get digest_num kb2 k = Some (Some v)) /\
  (length (closest_entries digest_num kb2 5%Z) <= 256 * 2)%nat.
Proof.
  split; [exact kb2_reach|]. split; [by vm_compute|].
  apply (closest_entries_spec digest_num 2 digest_num_ok ltac:(lia) 0 10 kb2 5). exact kb2_reach.
Defined.

(** A connected peer inserted into a bucket with one place left fills it
    without an expiration being set; the next insertion of a disconnected peer
    into this bucket panics on the expiration that is not there. *)
Lemma insert_connected_panics :
  or_insert digest_num 2 (kb_ins (kb_ins kb0 4 0 Disconnected) 5 1 Connected) 6 106 100 Disconnected = None.
Proof. by vm_compute. Qed.
