(* ===== verification/VerificationQueue.v ===== *)
(** * The verification queue ([src/src/sync/optimistic/verification_queue.rs])

    The queue of the optimistic syncing: ranges of block heights that are missing,
    requested from a source, or downloaded and ready to be verified.

    [status] is the abstract state of the queue, a state for every height;
    [queue_ok] the invariant of the list of entries. Popping a block, starting a
    request, finishing one and draining a source are shown to be the updates of
    [status] they document, under the conditions the source needs;
    [finish_request_loses_blocks] and [queue_panics] show what happens without
    them. A panic is [None]. *)

From S2P Require Import Prelude.

Open Scope Z_scope.

Section queue.
Context {TRq TBl : Type}.

(** ** Data *)

Abbreviation SourceId := Z (only parsing).

Inductive VerificationQueueEntryTy :=
  | Missing
  | Requested (user_data : TRq) (source : SourceId)
  | Queued (source : SourceId) (blocks : list TBl).

Record VerificationQueueEntry := mkEntry {
  block_height : u64;
  ty : VerificationQueueEntryTy
}.

Record VerificationQueue := mkQueue { verification_queue : list VerificationQueueEntry }.

(** [NonZeroU64::new(v).unwrap()]. *)
Definition nonzero (v : Z) : option Z := if v =? 0 then None else Some v.

Definition is_missing (e : VerificationQueueEntry) : bool :=
  match ty e with Missing => true | _ => false end.

Definition set_height (h : u64) (e : VerificationQueueEntry) : VerificationQueueEntry := mkEntry h (ty e).
Definition set_ty (t : VerificationQueueEntryTy) (e : VerificationQueueEntry) : VerificationQueueEntry :=
  mkEntry (block_height e) t.

(** [queue[i] = ...], [queue.insert(i, e)] and [queue.remove(i)] of a [VecDeque]. *)
Definition update_at (i : nat) (f : VerificationQueueEntry -> VerificationQueueEntry)
    (q : list VerificationQueueEntry) : option (list VerificationQueueEntry) :=
  let! e := q !! i in Some (<[i := f e]> q).
Definition insert_at (i : nat) (e : VerificationQueueEntry) (q : list VerificationQueueEntry)
    : list VerificationQueueEntry :=
  take i q ++ e :: drop i q.

(** ** Operations *)

Definition Queue_new (base_block_number : u64) : option VerificationQueue :=
  let! h := nonzero base_block_number in Some {| verification_queue := [mkEntry h Missing] |}.

Definition blocks_ready (self : VerificationQueue) : option bool :=
  let! e := head (verification_queue self) in
  Some (match ty e with Queued _ _ => true | _ => false end).

Definition first_block (self : VerificationQueue) : option (option TBl) :=
  let! e := head (verification_queue self) in
  match ty e with
  | Queued _ blocks => let! b := head blocks in Some (Some b)
  | _ => Some None
  end.

Definition pop_first_block (self : VerificationQueue)
    : option (option (TBl * SourceId) * VerificationQueue) :=
  match verification_queue self with
  | [] => None
  | front :: q =>
      match ty front with
      | Queued source blocks =>
          match blocks with
          | [] => None
          | block :: blocks =>
              let! h := nonzero (wadd 64 (block_height front) 1) in
              let front := mkEntry h (Queued source blocks) in
              Some (Some (block, source),
                    {| verification_queue := match blocks with [] => q | _ :: _ => front :: q end |})
          end
      | _ => Some (None, self)
      end
  end.

(** [tuple_windows::<(_, _)>()]. *)
Fixpoint tuple_windows (q : list VerificationQueueEntry) : list (VerificationQueueEntry * VerificationQueueEntry) :=
  match q with
  | e :: (e' :: _) as q' => (e, e') :: tuple_windows q'
  | _ => []
  end.

(** The range of a missing entry, up to the next one or to the limit. *)
Definition desired_range (max_block_number : Z) (w : VerificationQueueEntry * VerificationQueueEntry)
    : option (u64 * u32) :=
  let '(entry, next_entry) := w in
  let max := Z.min max_block_number (block_height next_entry) in
  let n := wsub 64 max (block_height entry) in
  if n <? 2 ^ 32 then let! n := nonzero n in Some (block_height entry, n) else None.

Definition desired_requests (self : VerificationQueue) (download_ahead_blocks : u32)
    : option (list (u64 * u32)) :=
  let! front := head (verification_queue self) in
  let max_block_number := wadd 64 (block_height front) download_ahead_blocks in
  let! iter1 := mapM (desired_range max_block_number)
    (filter (fun w => is_missing (fst w) = true /\ block_height (fst w) <= max_block_number)
       (tuple_windows (verification_queue self))) in
  let! verif_queue_last := last (verification_queue self) in
  let iter2 :=
    if block_height verif_queue_last <? max_block_number then [(block_height verif_queue_last, 2 ^ 32 - 1)]
    else [] in
  Some (iter1 ++ iter2).

(** The entry in which a request for [block_height] falls. *)
Definition insert_position (q : list VerificationQueueEntry) (h : u64) : option nat :=
  match list_find (fun entry => h < block_height entry) q with
  | Some (O, _) => None
  | Some (S n, _) => Some n
  | None => Some (length q - 1)%nat
  end.

(** "If [block_height] doesn't exactly match an entry in the queue, insert a new
    one in-between." *)
Definition split_entry (q : list VerificationQueueEntry) (insert_pos : nat) (h : u64)
    : option (list VerificationQueueEntry * nat) :=
  let! e := q !! insert_pos in
  if block_height e <? h then
    let! q := update_at insert_pos (set_height h) q in
    Some (insert_at insert_pos (mkEntry (block_height e) Missing) q, S insert_pos)
  else Some (q, insert_pos).

(** The gap between an entry and the next, of which [n] blocks are not covered by
    the entry: the next entry is moved, or a new one inserted at [h + n]. *)
Definition fill_gap (q : list VerificationQueueEntry) (index : nat) (h n : u64)
    : option (list VerificationQueueEntry) :=
  let! next := q !! S index in
  if is_missing next then
    let! h' := nonzero (wsub 64 (block_height next) n) in
    update_at (S index) (set_height h') q
  else
    let! h' := nonzero (wadd 64 h n) in
    Some (insert_at (S index) (mkEntry h' Missing) q).

(** The rest of [insert_request], once the entry at [insert_pos] starts at the
    block height of the request. *)
Definition start_request (q : list VerificationQueueEntry) (insert_pos : nat) (h : u64) (num_blocks : u32)
    (source : SourceId) (user_data : TRq) : option (list VerificationQueueEntry) :=
  let! q := update_at insert_pos (set_ty (Requested user_data source)) q in
  let! q :=
    if Nat.eqb insert_pos (length q - 1) then
      let! h' := checked_add 64 h num_blocks in
      let! h' := nonzero h' in
      Some (q ++ [mkEntry h' Missing])
    else Some q in
  let! next := q !! S insert_pos in
  match checked_sub 64 (wsub 64 (block_height next) h) num_blocks with
  | None => None
  | Some 0 => Some q
  | Some n => fill_gap q insert_pos h n
  end.

(** [insert_request]; [Ok] is the new queue, [Err] the user data. *)
Definition insert_request (self : VerificationQueue) (h : u64) (num_blocks : u32) (source : SourceId)
    (user_data : TRq) : option (result TRq VerificationQueue) :=
  let q := verification_queue self in
  match insert_position q h with
  | None => Some (Err user_data)
  | Some insert_pos =>
      let! e := q !! insert_pos in
      if negb (is_missing e) then Some (Err user_data)
      else
        let! (q, insert_pos) := split_entry q insert_pos h in
        let! q := start_request q insert_pos h num_blocks source user_data in
        Some (Ok {| verification_queue := q |})
  end.

(** [iter.take(n)]. *)
Fixpoint ztake (n : Z) (l : list TBl) : list TBl :=
  match l with
  | [] => []
  | x :: l => if n <=? 0 then [] else x :: ztake (n - 1) l
  end.

Context `{Platform}.

(** The [Ok] case of [finish_request], on the entry at [index]. *)
Definition finish_ok (q : list VerificationQueueEntry) (index : nat) (source_id : SourceId) (blocks : list TBl)
    : option (list VerificationQueueEntry) :=
  let! e := q !! index in
  let! next := q !! S index in
  let gap_with_next := wsub 64 (block_height next) (block_height e) in
  let limit := if gap_with_next <? 2 ^ usize_bits then gap_with_next else 2 ^ usize_bits - 1 in
  let blocks := ztake limit blocks in
  let num_blocks := len blocks in
  let! q := update_at index (set_ty (Queued source_id blocks)) q in
  let! q :=
    match checked_sub 64 gap_with_next num_blocks with
    | None => None
    | Some 0 => Some q
    | Some n => fill_gap q index (block_height e) n
    end in
  if Nat.eqb index (length q - 1) then
    let! back := last q in
    match ty back with
    | Queued _ blocks =>
        let! h' := nonzero (wadd 64 (block_height back) (len blocks)) in
        Some (q ++ [mkEntry h' Missing])
    | _ => None
    end
  else Some q.

(** The [Err] case. *)
Definition finish_err (q : list VerificationQueueEntry) (index : nat) : option (list VerificationQueueEntry) :=
  let! q := update_at index (set_ty Missing) q in
  let! next := q !! S index in
  Some (if is_missing next then delete (S index) q else q).

(** The index of the request, with its data and its source. *)
Fixpoint find_request (request_find : TRq -> bool) (index : nat) (q : list VerificationQueueEntry)
    : option (nat * TRq * SourceId) :=
  match q with
  | [] => None
  | e :: q =>
      match ty e with
      | Requested user_data source =>
          if request_find user_data then Some (index, user_data, source)
          else find_request request_find (S index) q
      | _ => find_request request_find (S index) q
      end
  end.

(** [finish_request]; the result is [Some blocks] for [Ok], [None] for [Err]. *)
Definition finish_request (self : VerificationQueue) (request_find : TRq -> bool) (result : option (list TBl))
    : option (TRq * SourceId * VerificationQueue) :=
  let! (index, user_data, source_id) := find_request request_find 0 (verification_queue self) in
  let! q :=
    match result with
    | Some blocks => finish_ok (verification_queue self) index source_id blocks
    | None => finish_err (verification_queue self) index
    end in
  Some (user_data, source_id, {| verification_queue := q |}).

Definition into_requests (self : VerificationQueue) : list (TRq * SourceId) :=
  omap (fun e => match ty e with Requested user_data source => Some (user_data, source) | _ => None end)
    (verification_queue self).

Definition requested_by (source_id : SourceId) (e : VerificationQueueEntry) : bool :=
  match ty e with Requested _ source => source =? source_id | _ => false end.

(** [SourceDrain::next] until the end: the user data, and the queue. *)
Fixpoint drain_entries (source_id : SourceId) (q : list VerificationQueueEntry)
    : list TRq * list VerificationQueueEntry :=
  match q with
  | [] => ([], [])
  | e :: q =>
      let '(out, q) := drain_entries source_id q in
      match ty e with
      | Requested user_data source =>
          if source =? source_id then (user_data :: out, set_ty Missing e :: q) else (out, e :: q)
      | _ => (out, e :: q)
      end
  end.

(** The loop of [SourceDrain::drop], from the last index down. *)
Fixpoint merge_missing (index : nat) (q : list VerificationQueueEntry) : list VerificationQueueEntry :=
  match index with
  | O => q
  | S prev =>
      let q :=
        match q !! index, q !! prev with
        | Some e, Some e' => if is_missing e && is_missing e' then delete index q else q
        | _, _ => q
        end in
      merge_missing prev q
  end.

(** [drain_source], with the iterator driven to its end and dropped. *)
Definition drain_source (self : VerificationQueue) (source_id : SourceId) : list TRq * VerificationQueue :=
  let '(out, q) := drain_entries source_id (verification_queue self) in
  (out, {| verification_queue := merge_missing (length q - 1) q |}).

Definition source_num_ongoing_requests (self : VerificationQueue) (source_id : SourceId) : usize :=
  len (filter (fun e => requested_by source_id e = true) (verification_queue self)).

End queue.

Arguments VerificationQueueEntryTy : clear implicits.
Arguments VerificationQueueEntry : clear implicits.
Arguments VerificationQueue : clear implicits.

(** ** The abstract state *)

Section status.
Context {TRq TBl : Type}.
Implicit Types (e : VerificationQueueEntry TRq TBl) (q : list (VerificationQueueEntry TRq TBl)).

(** The state of a block height. *)
Inductive Status :=
  | SMissing
  | SRequested (user_data : TRq) (source : Z)
  | SQueued (source : Z) (block : TBl).

Definition entry_status e (h : Z) : option Status :=
  match ty e with
  | Missing => Some SMissing
  | Requested u s => Some (SRequested u s)
  | Queued s bs => SQueued s <$> bs !! Z.to_nat (h - block_height e)
  end.

(** The state of the height [h]; none below the front of the queue. *)
Fixpoint status q (h : Z) : option Status :=
  match q with
  | [] => None
  | e :: q' =>
      if h <? block_height e then None
      else match q' with
           | e' :: _ => if block_height e' <=? h then status q' h else entry_status e h
           | [] => entry_status e h
           end
  end.

(** The blocks of a queued entry reach exactly to the next entry. *)
Definition entry_fits e (next : Z) : Prop :=
  match ty e with Queued _ bs => bs <> [] /\ next = block_height e + len bs | _ => True end.

Fixpoint queue_ok q : Prop :=
  match q with
  | [] => False
  | e :: q' =>
      (is_u64 (block_height e) /\ 0 < block_height e) /\
      match q' with
      | [] => ty e = Missing
      | e' :: _ => block_height e < block_height e' /\ entry_fits e (block_height e') /\ queue_ok q'
      end
  end.

Lemma queue_ok_head e q : queue_ok (e :: q) -> is_u64 (block_height e) /\ 0 < block_height e.
Proof. by intros [? _]. Qed.

Lemma queue_ok_tail e e' q : queue_ok (e :: e' :: q) ->
  block_height e < block_height e' /\ entry_fits e (block_height e') /\ queue_ok (e' :: q).
Proof. by intros [_ ?]. Qed.

(** Only the height of the first entry of the rest matters to what comes before. *)
Lemma queue_ok_app pre e q :
  queue_ok (pre ++ e :: q) <-> queue_ok (pre ++ [mkEntry (block_height e) Missing]) /\ queue_ok (e :: q).
Proof.
  induction pre as [|x pre IH]; cbn [app].
  - split; [|by intros [_ ?]]. intros Hq. split; [|done]. apply queue_ok_head in Hq. by split.
  - destruct pre as [|y pre]; cbn [app] in *.
    + cbn [queue_ok block_height]. naive_solver.
    + change (queue_ok (x :: y :: pre ++ e :: q)) with
        ((is_u64 (block_height x) /\ 0 < block_height x) /\ block_height x < block_height y /\
         entry_fits x (block_height y) /\ queue_ok (y :: pre ++ e :: q)).
      rewrite IH. cbn [queue_ok]. naive_solver.
Qed.

Lemma status_below e q h : h < block_height e -> status (e :: q) h = None.
Proof. intros Hh. cbn. by rewrite (proj2 (Z.ltb_lt _ _)) by done. Qed.

Lemma status_first e e' q h :
  block_height e <= h < block_height e' -> status (e :: e' :: q) h = entry_status e h.
Proof.
  intros Hh. cbn [status]. rewrite (proj2 (Z.ltb_ge _ _)) by lia. by rewrite (proj2 (Z.leb_gt _ _)) by lia.
Qed.

Lemma status_next e e' q h :
  block_height e < block_height e' <= h -> status (e :: e' :: q) h = status (e' :: q) h.
Proof.
  intros Hh. cbn [status]. rewrite (proj2 (Z.ltb_ge h (block_height e))) by lia.
  by rewrite (proj2 (Z.leb_le _ _)) by lia.
Qed.

Lemma status_last e h : block_height e <= h -> status [e] h = entry_status e h.
Proof. intros Hh. cbn. by rewrite (proj2 (Z.ltb_ge _ _)) by lia. Qed.

Lemma status_app pre e q h :
  queue_ok (pre ++ e :: q) ->
  status (pre ++ e :: q) h =
  if block_height e <=? h then status (e :: q) h else status (pre ++ [mkEntry (block_height e) Missing]) h.
Proof.
  induction pre as [|x pre IH]; intros Hok.
  - cbn [app]. destruct (Z.leb_spec (block_height e) h) as [?|Hlt]; [done|]. by rewrite !status_below.
  - destruct pre as [|y pre]; cbn [app] in *.
    + apply queue_ok_tail in Hok as (Hlt & _ & _). destruct (Z.leb_spec (block_height e) h) as [Hle|Hgt].
      * by apply status_next.
      * destruct (Z.lt_ge_cases h (block_height x)); [by rewrite !status_below | by rewrite !status_first by (cbn; lia)].
    + apply queue_ok_tail in Hok as (Hlt & _ & Hok). specialize (IH Hok).
      assert (Hye : block_height y < block_height e).
      { clear -Hok. revert y Hok. induction pre as [|z pre IHp]; intros y Hok; cbn [app] in Hok;
          apply queue_ok_tail in Hok as (? & _ & Hok); [done|]. apply IHp in Hok. lia. }
      destruct (Z.lt_ge_cases h (block_height x)) as [|Hx].
      { rewrite (proj2 (Z.leb_gt (block_height e) h)) by lia. rewrite !(status_below x) by done. done. }
      destruct (Z.lt_ge_cases h (block_height y)) as [|Hy].
      { rewrite (proj2 (Z.leb_gt (block_height e) h)) by lia. by rewrite !(status_first x y) by lia. }
      rewrite (status_next x y) by lia. rewrite IH. destruct (_ <=? _); [done|]. by rewrite status_next by lia.
Qed.

(** Replacing the end of a queue. *)
Lemma queue_replace pre e q e1 q1 :
  queue_ok (pre ++ e :: q) -> queue_ok (e1 :: q1) -> block_height e1 = block_height e ->
  queue_ok (pre ++ e1 :: q1) /\
  forall h, status (pre ++ e1 :: q1) h =
    if block_height e <=? h then status (e1 :: q1) h else status (pre ++ e :: q) h.
Proof.
  intros Hok Hok1 Hh. assert (Hok1' : queue_ok (pre ++ e1 :: q1)).
  { apply queue_ok_app. rewrite Hh. split; [|done]. by apply queue_ok_app in Hok as [? _]. }
  split; [done|]. intros h. rewrite (status_app pre e1 q1), (status_app pre e q), Hh by done.
  by destruct (_ <=? _).
Qed.

End status.

Arguments Status : clear implicits.

(** ** Popping *)

Section operations.
Context {TRq TBl : Type}.
Implicit Types (e : VerificationQueueEntry TRq TBl) (q : list (VerificationQueueEntry TRq TBl))
               (self : VerificationQueue TRq TBl).

Lemma nonzero_pos v : 0 < v -> nonzero v = Some v.
Proof. intros ?. unfold nonzero. by rewrite (proj2 (Z.eqb_neq _ _)) by lia. Qed.

(** The height of the first entry. *)
Definition front_height q : Z := match q with e :: _ => block_height e | [] => 0 end.

(** [pop_first_block] on a well-formed queue does not panic. It returns the
    block of the first height if it is ready, and then the queue starts at the
    next height and every other height is as before; otherwise it returns nothing
    and the queue is the same. *)
Theorem pop_first_block_spec self :
  queue_ok (verification_queue self) ->
  exists out self', pop_first_block self = Some (out, self') /\ queue_ok (verification_queue self') /\
    let h0 := front_height (verification_queue self) in
    match out with
    | Some (b, s) =>
        status (verification_queue self) h0 = Some (SQueued s b) /\
        front_height (verification_queue self') = h0 + 1 /\
        forall h, h <> h0 -> status (verification_queue self') h = status (verification_queue self) h
    | None => self' = self /\ forall s b, status (verification_queue self) h0 <> Some (SQueued s b)
    end.
Proof.
  destruct self as [[|e q]]; [done|]. intros Hok. unfold pop_first_block. cbn [verification_queue] in *.
  destruct e as [h0 [|u s|s bs]]; cbn [ty block_height].
  1, 2: exists None; eexists; split; [done|]; split; [done|]; split; [done|]; intros s0 b0;
        cbn [front_height block_height status]; rewrite Z.ltb_irrefl; destruct q as [|e' q];
        [done | apply queue_ok_tail in Hok as (Hlt & _); cbn in Hlt; by rewrite (proj2 (Z.leb_gt _ _)) by lia].
  destruct q as [|e' q]; [by destruct Hok|]. pose proof (queue_ok_head _ _ Hok) as [Hu Hpos].
  apply queue_ok_tail in Hok as (Hlt & [Hne Hnext] & Hok). cbn [block_height] in *.
  destruct bs as [|b bs]; [done|]. pose proof (queue_ok_head _ _ Hok) as [Hu' Hpos'].
  unfold is_uint in *. rewrite len_cons in Hnext. pose proof (len_nonneg bs).
  unfold wadd. rewrite wrap_small, nonzero_pos by (unfold is_uint; lia). eexists _, _. split; [done|].
  cbn [verification_queue].
  assert (Hfirst : status (mkEntry h0 (Queued s (b :: bs)) :: e' :: q) h0 = Some (SQueued s b)).
  { rewrite status_first by (cbn; lia). unfold entry_status. cbn. by rewrite Z.sub_diag. }
  destruct bs as [|b1 bs].
  - split; [done|]. split; [done|]. cbn [front_height block_height]. split; [unfold len in *; cbn in *; lia|].
    intros h Hh. destruct (Z.lt_ge_cases h h0); [by rewrite !status_below by (cbn; lia)|].
    symmetry. apply status_next. cbn. unfold len in *. cbn in *. lia.
  - rewrite len_cons in *. pose proof (len_nonneg bs). split; [|split; [done|split; [done|]]].
    + split; [cbn; unfold is_uint; lia|]. cbn [block_height]. split; [lia|]. split; [|done].
      unfold entry_fits. cbn [ty block_height]. rewrite len_cons. split; [done|lia].
    + intros h Hh. cbn in Hh. destruct (Z.lt_ge_cases h h0); [by rewrite !status_below by (cbn; lia)|].
      destruct (Z.lt_ge_cases h (block_height e')).
      * rewrite !status_first by (cbn; lia). unfold entry_status. cbn [ty block_height].
        replace (Z.to_nat (h - h0)) with (S (Z.to_nat (h - (h0 + 1)))) by lia. done.
      * rewrite !status_next by (cbn; lia). done.
Qed.

(** ** Edits in the middle of the queue *)

Lemma lookup_pre {A} (pre : list A) x (q : list A) : (pre ++ x :: q) !! length pre = Some x.
Proof. by rewrite lookup_app_r, Nat.sub_diag by lia. Qed.

Lemma lookup_pre_S {A} (pre : list A) x y (q : list A) : (pre ++ x :: y :: q) !! S (length pre) = Some y.
Proof. rewrite lookup_app_r by lia. by replace (S (length pre) - length pre)%nat with 1%nat by lia. Qed.

Lemma update_pre pre e q f : update_at (length pre) f (pre ++ e :: q) = Some (pre ++ f e :: q).
Proof.
  unfold update_at. rewrite lookup_pre. f_equal. rewrite insert_app_r_alt by lia. by rewrite Nat.sub_diag.
Qed.

Lemma update_pre_S pre e e' q f : update_at (S (length pre)) f (pre ++ e :: e' :: q) = Some (pre ++ e :: f e' :: q).
Proof.
  unfold update_at. rewrite lookup_pre_S. f_equal. rewrite insert_app_r_alt by lia.
  by replace (S (length pre) - length pre)%nat with 1%nat by lia.
Qed.

Lemma insert_pre pre e q : insert_at (length pre) e (pre ++ q) = pre ++ e :: q.
Proof. unfold insert_at. by rewrite take_app_length, drop_app_length. Qed.

(** The entry of a height. *)
Lemma insert_position_spec q h :
  queue_ok q -> front_height q <= h ->
  exists pre e post, q = pre ++ e :: post /\ insert_position q h = Some (length pre) /\ block_height e <= h /\
    match post with e' :: _ => h < block_height e' | [] => True end.
Proof.
  intros Hok Hfront. unfold insert_position.
  destruct (list_find (fun e => h < block_height e) q) as [[i x]|] eqn:Ef.
  - apply list_find_Some in Ef as (Hi & Hx & Hmin). destruct i as [|n].
    + destruct q; [done|]. cbn in *. injection Hi as ->. lia.
    + destruct (q !! n) as [e|] eqn:Ee; [|apply lookup_ge_None in Ee; apply lookup_lt_Some in Hi; lia].
      exists (take n q), e, (drop (S n) q).
      split; [by rewrite take_drop_middle|].
      split; [rewrite length_take; apply lookup_lt_Some in Ee; f_equal; lia|].
      split; [apply Z.nlt_ge, (Hmin n e Ee); lia|].
      rewrite (drop_S q x (S n) Hi). done.
  - apply list_find_None in Ef. destruct q as [|e q _] using rev_ind; [done|].
    exists q, e, []. split; [done|]. rewrite length_app. cbn.
    split; [f_equal; lia|]. split; [|done]. rewrite Forall_forall in Ef. apply Z.nlt_ge, Ef, elem_of_app. right. by left.
Qed.

(** The status of the entry found. *)
Lemma status_at pre e post h :
  queue_ok (pre ++ e :: post) -> block_height e <= h ->
  match post with e' :: _ => h < block_height e' | [] => True end ->
  status (pre ++ e :: post) h = entry_status e h.
Proof.
  intros Hok Hle Hpost. rewrite status_app, (proj2 (Z.leb_le _ _)) by done.
  destruct post as [|e' post]; [by apply status_last | apply status_first; lia].
Qed.

(** A missing entry can be cut in two. *)
Lemma split_missing (pre post : list (VerificationQueueEntry TRq TBl)) h0 h :
  queue_ok (pre ++ mkEntry h0 Missing :: post) -> h0 < h -> is_u64 h ->
  match post with e' :: _ => h < block_height e' | [] => True end ->
  queue_ok ((pre ++ [mkEntry h0 Missing]) ++ mkEntry h Missing :: post) /\
  forall h', status ((pre ++ [mkEntry h0 Missing]) ++ mkEntry h Missing :: post) h' =
             status (pre ++ mkEntry h0 Missing :: post) h'.
Proof.
  intros Hok Hlt Hu Hpost. rewrite <- app_assoc. cbn [app].
  pose proof Hok as [_ Hok2]%queue_ok_app. pose proof (queue_ok_head _ _ Hok2) as Hh. cbn in Hh.
  destruct (queue_replace pre (mkEntry h0 Missing) post (mkEntry h0 Missing) (mkEntry h Missing :: post)) as [H1 H2];
    [done| |done|].
  { cbn [queue_ok block_height]. split; [done|]. split; [done|]. split; [done|]. unfold is_uint in *. split; [lia|].
    destruct post as [|e' post]; [done|]. apply queue_ok_tail in Hok2 as (_ & _ & ?). done. }
  split; [done|]. intros h'. rewrite H2. cbn [block_height].
  destruct (Z.leb_spec h0 h') as [Hle|]; [|done]. rewrite status_app by done. cbn [block_height].
  rewrite (proj2 (Z.leb_le h0 h')) by done. destruct (Z.lt_ge_cases h' h).
  - rewrite status_first by (cbn; lia). destruct post as [|e' post]; [by rewrite status_last | by rewrite status_first by (cbn; lia)].
  - rewrite status_next by (cbn; lia). destruct post as [|e' post]; [by rewrite !status_last|].
    destruct (Z.lt_ge_cases h' (block_height e')); [by rewrite !status_first by (cbn; lia) | by rewrite !status_next by (cbn; lia)].
Qed.

(** The heights from that of the entry [e] on are replaced: [n] of them by an
    entry of type [t], the rest by the queue [e2 :: post2]. *)
Lemma range_replace pre e post t n e2 post2 :
  queue_ok (pre ++ e :: post) -> 0 < n -> entry_fits (mkEntry (block_height e) t) (block_height e + n) ->
  queue_ok (e2 :: post2) -> block_height e2 = block_height e + n ->
  queue_ok (pre ++ mkEntry (block_height e) t :: e2 :: post2) /\
  forall h', status (pre ++ mkEntry (block_height e) t :: e2 :: post2) h' =
    if h' <? block_height e then status (pre ++ e :: post) h'
    else if h' <? block_height e + n then entry_status (mkEntry (block_height e) t) h'
    else status (e2 :: post2) h'.
Proof.
  intros Hok Hn Hfit Hok2 Hh2. pose proof Hok as [_ Hoke]%queue_ok_app. apply queue_ok_head in Hoke.
  destruct (queue_replace pre e post (mkEntry (block_height e) t) (e2 :: post2)) as [H1 H2]; [done| |done|].
  { split; [done|]. cbn [block_height]. split; [lia|]. split; [by rewrite Hh2 | exact Hok2]. }
  split; [done|]. intros h'. rewrite H2. destruct (Z.ltb_spec h' (block_height e)).
  - by rewrite (proj2 (Z.leb_gt _ _)).
  - rewrite (proj2 (Z.leb_le _ _)) by done. destruct (Z.ltb_spec h' (block_height e + n)).
    + by rewrite status_first by (cbn; lia).
    + by rewrite status_next by (cbn; lia).
Qed.

(** The request reaches exactly to the next entry, or the next entry is missing. *)
Definition request_fits (post : list (VerificationQueueEntry TRq TBl)) (h n : Z) : Prop :=
  match post with
  | [] => True
  | e' :: _ => h + n = block_height e' \/ (h + n < block_height e' /\ is_missing e' = true)
  end.

Lemma missing_ty e : is_missing e = true -> ty e = Missing.
Proof. unfold is_missing. by destruct (ty e). Qed.

(** Moving the start of a missing entry down. *)
Lemma missing_lower e post h :
  queue_ok (e :: post) -> is_missing e = true -> 0 < h <= block_height e ->
  queue_ok (set_height h e :: post) /\
  forall h', block_height e <= h' -> status (set_height h e :: post) h' = status (e :: post) h'.
Proof.
  intros Hok Hm Hh. apply missing_ty in Hm. pose proof (queue_ok_head _ _ Hok) as [Hu _]. unfold is_uint in *.
  unfold set_height. rewrite Hm. split.
  - cbn [queue_ok block_height]. split; [unfold is_uint; lia|]. destruct post as [|e' post]; [done|].
    apply queue_ok_tail in Hok as (? & _ & ?). split; [lia|]. done.
  - intros h' Hh'. destruct post as [|e' post].
    + rewrite !status_last by (cbn; lia). unfold entry_status. by rewrite Hm.
    + apply queue_ok_tail in Hok as (? & _ & _). destruct (Z.lt_ge_cases h' (block_height e')).
      * rewrite !status_first by (cbn; lia). unfold entry_status. by rewrite Hm.
      * by rewrite !status_next by (cbn; lia).
Qed.

(** A request that starts at a missing entry. *)
Lemma start_request_spec (pre post : list (VerificationQueueEntry TRq TBl)) h n s u :
  queue_ok (pre ++ mkEntry h Missing :: post) -> 0 < n < 2 ^ 32 -> is_u64 (h + n) -> request_fits post h n ->
  exists q', start_request (pre ++ mkEntry h Missing :: post) (length pre) h n s u = Some q' /\ queue_ok q' /\
    forall h', status q' h' = if (h <=? h') && (h' <? h + n) then Some (SRequested u s)
                              else status (pre ++ mkEntry h Missing :: post) h'.
Proof.
  intros Hok Hn Hu Hfit. pose proof Hok as [_ Hok2]%queue_ok_app. pose proof (queue_ok_head _ _ Hok2) as [Hu0 Hpos]. cbn in Hu0, Hpos.
  unfold is_uint in *.
  (* the new end of the queue *)
  assert (Hend : exists e2 post2,
            start_request (pre ++ mkEntry h Missing :: post) (length pre) h n s u =
              Some (pre ++ mkEntry h (Requested u s) :: e2 :: post2) /\
            queue_ok (e2 :: post2) /\ block_height e2 = h + n /\
            forall h', h + n <= h' -> status (e2 :: post2) h' = status (mkEntry h Missing :: post) h').
  { unfold start_request. rewrite update_pre. cbn [set_ty block_height].
    destruct post as [|e' post].
    - rewrite length_app. cbn [length]. rewrite (proj2 (Nat.eqb_eq _ _)) by lia.
      unfold checked_add. rewrite checked_small, nonzero_pos by (unfold is_uint; lia).
      rewrite <- app_assoc. cbn [app]. rewrite lookup_pre_S. cbn [block_height].
      unfold wsub. rewrite (wrap_small 64 (h + n - h)) by (unfold is_uint; lia).
      replace (h + n - h) with n by lia. unfold checked_sub. rewrite Z.sub_diag. change (checked 64 0) with (Some 0).
      eexists _, []. split; [done|]. split; [|split; [done|]].
      { split; [|done]. cbn. unfold is_uint. lia. }
      intros h' Hh'. by rewrite !status_last by (cbn; lia).
    - apply queue_ok_tail in Hok2 as (Hlt & _ & Hok'). cbn [block_height] in Hlt.
      pose proof (queue_ok_head _ _ Hok') as [Hu' _]. unfold is_uint in Hu'.
      rewrite length_app. cbn [length]. rewrite (proj2 (Nat.eqb_neq _ _)) by lia. rewrite lookup_pre_S.
      unfold wsub. rewrite (wrap_small 64 (block_height e' - h)) by (unfold is_uint; lia).
      cbn in Hfit. unfold checked_sub. rewrite checked_small by (unfold is_uint; lia).
      destruct Hfit as [Heq|[Hlt' Hm]].
      + replace (block_height e' - h - n) with 0 by lia. exists e', post. split; [done|]. split; [done|]. split; [lia|].
        intros h' Hh'. by rewrite status_next by (cbn; lia).
      + destruct (block_height e' - h - n) as [|p|p] eqn:Egap; [lia| |lia]. rewrite <- Egap.
        unfold fill_gap. rewrite lookup_pre_S, Hm. unfold wsub.
        replace (block_height e' - (block_height e' - h - n)) with (h + n) by lia.
        rewrite wrap_small, nonzero_pos by (unfold is_uint; lia). rewrite update_pre_S.
        destruct (missing_lower e' post (h + n) Hok' Hm ltac:(lia)) as [H1 H2].
        exists (set_height (h + n) e'), post. split; [done|]. split; [done|]. split; [done|].
        intros h' Hh'. destruct (Z.lt_ge_cases h' (block_height e')).
        * rewrite status_first by (cbn; lia). apply missing_ty in Hm. destruct post as [|e2 post].
          -- rewrite status_last by (cbn; lia). unfold entry_status. cbn. by rewrite Hm.
          -- apply queue_ok_tail in Hok' as (? & _ & _). rewrite status_first by (cbn; lia). unfold entry_status. cbn. by rewrite Hm.
        * rewrite H2 by lia. by rewrite status_next by (cbn; lia). }
  destruct Hend as (e2 & post2 & -> & Hok3 & Hh2 & Hst). eexists. split; [done|].
  destruct (range_replace pre (mkEntry h Missing) post (Requested u s) n e2 post2) as [H1 H2]; [done|lia|done|done|done|].
  cbn [block_height] in *. split; [done|]. intros h'. rewrite H2.
  destruct (Z.ltb_spec h' h), (Z.leb_spec h h'); try lia; [done|]. cbn [andb].
  destruct (Z.ltb_spec h' (h + n)); [done|]. rewrite Hst by done. rewrite status_app by done. cbn [block_height].
  by rewrite (proj2 (Z.leb_le _ _)).
Qed.

(** The entries that start above a height. *)
Fixpoint above (h : Z) q : list (VerificationQueueEntry TRq TBl) :=
  match q with
  | [] => []
  | e :: q' => if h <? block_height e then q else above h q'
  end.

Lemma heights_before pre e post x : queue_ok (pre ++ e :: post) -> x ∈ pre -> block_height x < block_height e.
Proof.
  revert x. induction pre as [|y pre IH]; intros x Hok; [by intros ?%elem_of_nil|].
  assert (Hy : block_height y < block_height e).
  { destruct pre as [|z pre]; apply queue_ok_tail in Hok as (? & _ & Hok); [done|].
    specialize (IH z Hok ltac:(by left)). lia. }
  intros [->|Hin]%elem_of_cons; [done|]. apply IH; [|done].
  destruct pre; [by apply elem_of_nil in Hin|]. by apply queue_ok_tail in Hok as (_ & _ & ?).
Qed.

Lemma above_app pre e post h :
  queue_ok (pre ++ e :: post) -> block_height e <= h ->
  match post with e' :: _ => h < block_height e' | [] => True end -> above h (pre ++ e :: post) = post.
Proof.
  intros Hok Hle Hpost. assert (Hpre : forall x, x ∈ pre -> block_height x <= h).
  { intros x Hx. pose proof (heights_before _ _ _ _ Hok Hx). lia. }
  clear Hok. induction pre as [|x pre IH]; cbn.
  - rewrite (proj2 (Z.ltb_ge _ _)) by done. destruct post; [done|]. cbn. by rewrite (proj2 (Z.ltb_lt _ _)).
  - rewrite (proj2 (Z.ltb_ge _ _)) by (apply Hpre; by left). apply IH. intros y Hy. apply Hpre. by right.
Qed.

(** [insert_request] on a well-formed queue. A request for a height that is
    not missing is refused. A request for a missing height that reaches exactly to
    the next entry of the queue, or ends before a missing one, is inserted: its
    heights become requested, and every other height is as before. *)
Theorem insert_request_spec self (h n : Z) (s : Z) (u : TRq) :
  queue_ok (verification_queue self) -> 0 < n < 2 ^ 32 -> is_u64 h -> is_u64 (h + n) ->
  let q := verification_queue self in
  (status q h <> Some SMissing -> insert_request self h n s u = Some (Err u)) /\
  (status q h = Some SMissing -> request_fits (above h q) h n ->
     exists self', insert_request self h n s u = Some (Ok self') /\ queue_ok (verification_queue self') /\
       forall h', status (verification_queue self') h' =
         if (h <=? h') && (h' <? h + n) then Some (SRequested u s) else status q h').
Proof.
  destruct self as [q]. cbn [verification_queue]. intros Hok Hn Hu Hun. unfold insert_request. cbn [verification_queue].
  destruct (Z.lt_ge_cases h (front_height q)) as [Hlt|Hge].
  { destruct q as [|e q]; [done|]. cbn in Hlt. unfold insert_position. cbn [list_find].
    rewrite decide_True by done. split; [done|]. by rewrite status_below. }
  destruct (insert_position_spec q h Hok Hge) as (pre & e & post & -> & -> & Hle & Hpost).
  rewrite lookup_pre, (status_at pre e post h), above_app by done. destruct (is_missing e) eqn:Em; cbn [negb].
  2:{ split; [done|]. unfold entry_status. unfold is_missing in Em. destruct (ty e); [done|done|]. by destruct (_ !! _). }
  apply missing_ty in Em. split; [unfold entry_status; by rewrite Em|]. intros _ Hfit.
  destruct e as [h0 t]. cbn in Em, Hle. subst t. unfold split_entry. rewrite lookup_pre. cbn [block_height].
  destruct (Z.ltb_spec h0 h) as [Hlt|Hge'].
  - rewrite update_pre, insert_pre. unfold set_height. cbn [ty].
    destruct (split_missing pre post h0 h Hok Hlt Hu Hpost) as [Hok' Hst'].
    destruct (start_request_spec (pre ++ [mkEntry h0 Missing]) post h n s u Hok' Hn Hun Hfit) as (q' & Hrun & Hq' & Hst).
    rewrite <- app_assoc in Hrun. cbn [app] in Hrun. rewrite length_app, Nat.add_1_r in Hrun. rewrite Hrun.
    eexists. split; [done|]. split; [done|]. intros h'. cbn [verification_queue]. by rewrite Hst, Hst'.
  - assert (h0 = h) as -> by lia.
    destruct (start_request_spec pre post h n s u Hok Hn Hun Hfit) as (q' & -> & Hq' & Hst).
    eexists. split; [done|]. by split.
Qed.

(** ** Finishing *)

Context `{Platform}.

Lemma find_request_spec (request_find : TRq -> bool) i q j u s :
  find_request request_find i q = Some (j, u, s) ->
  exists pre e post, q = pre ++ e :: post /\ j = (i + length pre)%nat /\ ty e = Requested u s /\ request_find u = true.
Proof.
  revert i. induction q as [|e q IH]; intros i; [done|]. cbn.
  assert (Hrec : find_request request_find (S i) q = Some (j, u, s) ->
            exists pre e0 post, e :: q = pre ++ e0 :: post /\ j = (i + length pre)%nat /\ ty e0 = Requested u s /\ request_find u = true).
  { intros (pre & e0 & post & -> & -> & ? & ?)%IH. exists (e :: pre), e0, post. cbn. split; [done|]. split; [lia|done]. }
  destruct (ty e) as [|u' s'|s' bs] eqn:Et; [done| |done].
  destruct (request_find u') eqn:Ef; [|done]. intros [= <- <- <-]. exists [], e, q. cbn. split; [done|]. split; [lia|done].
Qed.

Lemma ztake_spec {A} n (l : list A) : 0 <= n -> ztake n l = take (Z.to_nat n) l.
Proof.
  revert n. induction l as [|x l IH]; intros n Hn; [by rewrite take_nil|]. cbn.
  destruct (Z.leb_spec n 0); [by replace (Z.to_nat n) with 0%nat by lia|].
  rewrite IH by lia. by replace (Z.to_nat n) with (S (Z.to_nat (n - 1))) by lia.
Qed.

(** The blocks that are kept of an answer for [gap] heights. *)
Definition kept_blocks (gap : Z) (blocks : list TBl) : list TBl :=
  ztake (if gap <? 2 ^ usize_bits then gap else 2 ^ usize_bits - 1) blocks.

Lemma kept_blocks_len gap blocks : 0 < gap -> len (kept_blocks gap blocks) <= gap /\ (blocks <> [] -> kept_blocks gap blocks <> []).
Proof.
  intros Hg. unfold kept_blocks. pose proof usize_bits_pos. assert (2 <= 2 ^ usize_bits).
  { change 2 with (2 ^ 1) at 1. apply Z.pow_le_mono_r; lia. }
  set (lim := if gap <? 2 ^ usize_bits then gap else 2 ^ usize_bits - 1).
  assert (Hlim : 0 < lim <= gap) by (unfold lim; destruct (Z.ltb_spec gap (2 ^ usize_bits)); lia).
  rewrite ztake_spec by lia. split.
  - unfold len. rewrite length_take. lia.
  - destruct blocks; [done|]. by destruct (Z.to_nat lim) eqn:E; [lia|].
Qed.

(** The status of the heights of an entry and of those after it. *)
Lemma status_split pre e e' post h' :
  queue_ok (pre ++ e :: e' :: post) -> block_height e' <= h' -> status (pre ++ e :: e' :: post) h' = status (e' :: post) h'.
Proof.
  intros Hok Hle. pose proof Hok as [_ Hok2]%queue_ok_app. apply queue_ok_tail in Hok2 as (Hlt & _ & _).
  rewrite status_app, (proj2 (Z.leb_le _ _)) by (done || lia). apply status_next. lia.
Qed.

Lemma lowered_status e post h h' :
  queue_ok (e :: post) -> is_missing e = true -> h <= h' < block_height e ->
  status (set_height h e :: post) h' = Some SMissing.
Proof.
  intros Hok Hm%missing_ty Hh. destruct post as [|e2 post].
  - rewrite status_last by (cbn; lia). unfold entry_status. cbn. by rewrite Hm.
  - apply queue_ok_tail in Hok as (? & _ & _). rewrite status_first by (cbn; lia). unfold entry_status. cbn. by rewrite Hm.
Qed.

Lemma finish_ok_spec pre e e' post s blocks :
  queue_ok (pre ++ e :: e' :: post) -> blocks <> [] ->
  let h := block_height e in
  let kb := kept_blocks (block_height e' - h) blocks in
  (len kb = block_height e' - h \/ is_missing e' = true) ->
  exists q', finish_ok (pre ++ e :: e' :: post) (length pre) s blocks = Some q' /\ queue_ok q' /\
    forall h', status q' h' =
      if (h <=? h') && (h' <? h + len kb) then SQueued s <$> kb !! Z.to_nat (h' - h)
      else if (h <=? h') && (h' <? block_height e') then Some SMissing
      else status (pre ++ e :: e' :: post) h'.
Proof.
  intros Hok Hne h kb Hcond. pose proof Hok as [_ Hok2]%queue_ok_app. pose proof (queue_ok_head _ _ Hok2) as [Hu Hpos].
  pose proof (queue_ok_tail _ _ _ Hok2) as (Hlt & _ & Hok'). pose proof (queue_ok_head _ _ Hok') as [Hu' _].
  unfold is_uint in *. fold h in Hlt, Hu, Hpos.
  destruct (kept_blocks_len (block_height e' - h) blocks ltac:(lia)) as [Hlen Hkne]. specialize (Hkne Hne). fold kb in Hlen, Hkne.
  assert (Hn : 0 < len kb) by (destruct kb; [done|]; rewrite len_cons; pose proof (len_nonneg kb); lia).
  set (n := len kb) in *.
  (* the queue after the blocks *)
  assert (Hend : exists e2 post2,
            finish_ok (pre ++ e :: e' :: post) (length pre) s blocks = Some (pre ++ mkEntry h (Queued s kb) :: e2 :: post2) /\
            queue_ok (e2 :: post2) /\ block_height e2 = h + n /\
            forall h', h + n <= h' -> status (e2 :: post2) h' =
              if h' <? block_height e' then Some SMissing else status (e' :: post) h').
  { unfold finish_ok. rewrite lookup_pre, lookup_pre_S. fold h. unfold wsub.
    rewrite (wrap_small 64 (block_height e' - h)) by (unfold is_uint; lia).
    change (ztake (if block_height e' - h <? 2 ^ usize_bits then block_height e' - h else 2 ^ usize_bits - 1) blocks) with kb.
    fold n. rewrite update_pre. cbn [set_ty]. fold h. unfold checked_sub.
    rewrite checked_small by (unfold is_uint; lia).
    assert (Hlast : forall x y l, Nat.eqb (length pre) (length (pre ++ x :: y :: l : list (VerificationQueueEntry TRq TBl)) - 1) = false).
    { intros x y l. apply Nat.eqb_neq. rewrite length_app. cbn. lia. }
    destruct (Z.eq_dec n (block_height e' - h)) as [Heq|Hneq].
    - replace (block_height e' - h - n) with 0 by lia. cbn [set_ty]. unfold set_ty. fold h. rewrite Hlast.
      exists e', post. split; [done|]. split; [done|]. split; [lia|].
      intros h' Hh'. by rewrite (proj2 (Z.ltb_ge _ _)) by lia.
    - destruct Hcond as [?|Hm]; [done|]. destruct (block_height e' - h - n) as [|p|p] eqn:Egap; [lia| |lia]. rewrite <- Egap.
      unfold fill_gap, set_ty. fold h. rewrite lookup_pre_S, Hm. unfold wsub.
      replace (block_height e' - (block_height e' - h - n)) with (h + n) by lia.
      rewrite wrap_small, nonzero_pos by (unfold is_uint; lia). rewrite update_pre_S, Hlast.
      destruct (missing_lower e' post (h + n) Hok' Hm ltac:(lia)) as [H1 H2].
      exists (set_height (h + n) e'), post. split; [done|]. split; [done|]. split; [done|].
      intros h' Hh'. destruct (Z.ltb_spec h' (block_height e')); [by apply lowered_status | by apply H2]. }
  destruct Hend as (e2 & post2 & -> & Hok3 & Hh2 & Hst). eexists. split; [done|].
  destruct (range_replace pre e (e' :: post) (Queued s kb) n e2 post2) as [H1 H2]; [done|done|by split|done|done|].
  fold h in H1, H2. split; [done|]. intros h'. rewrite H2.
  destruct (Z.ltb_spec h' h), (Z.leb_spec h h'); try lia; [done|]. cbn [andb].
  destruct (Z.ltb_spec h' (h + n)); [done|]. rewrite Hst by done.
  destruct (Z.ltb_spec h' (block_height e')); [done|]. by rewrite status_split.
Qed.

Lemma finish_err_spec pre e e' post :
  queue_ok (pre ++ e :: e' :: post) ->
  exists q', finish_err (pre ++ e :: e' :: post) (length pre) = Some q' /\ queue_ok q' /\
    forall h', status q' h' =
      if (block_height e <=? h') && (h' <? block_height e') then Some SMissing
      else status (pre ++ e :: e' :: post) h'.
Proof.
  intros Hok. pose proof Hok as [_ Hok2]%queue_ok_app. pose proof (queue_ok_head _ _ Hok2) as [Hu Hpos].
  pose proof (queue_ok_tail _ _ _ Hok2) as (Hlt & _ & Hok').
  unfold finish_err. rewrite update_pre, lookup_pre_S. eexists. split; [done|]. destruct (is_missing e') eqn:Em.
  - assert (Hdel : delete (S (length pre)) (pre ++ set_ty Missing e :: e' :: post) = pre ++ set_height (block_height e) e' :: post).
    { rewrite delete_take_drop, take_app_ge, drop_app_ge by lia.
      replace (S (length pre) - length pre)%nat with 1%nat by lia.
      replace (S (S (length pre)) - length pre)%nat with 2%nat by lia. cbn. rewrite <- app_assoc. cbn.
      unfold set_ty, set_height. by rewrite (missing_ty _ Em). }
    rewrite Hdel. destruct (missing_lower e' post (block_height e) Hok' Em ltac:(lia)) as [H1 H2].
    destruct (queue_replace pre e (e' :: post) (set_height (block_height e) e') post) as [H3 H4]; [done|done|done|].
    split; [done|]. intros h'. rewrite H4. destruct (Z.leb_spec (block_height e) h'); [|done]. cbn [andb].
    destruct (Z.ltb_spec h' (block_height e')).
    + by apply lowered_status.
    + rewrite H2 by done. by rewrite status_split.
  - destruct (range_replace pre e (e' :: post) Missing (block_height e' - block_height e) e' post) as [H1 H2];
      [done|lia|done|done|lia|].
    split; [exact H1|]. intros h'. unfold set_ty. rewrite H2.
    replace (block_height e + (block_height e' - block_height e)) with (block_height e') by lia.
    destruct (Z.ltb_spec h' (block_height e)), (Z.leb_spec (block_height e) h'); try lia; [done|]. cbn [andb].
    destruct (Z.ltb_spec h' (block_height e')); [done|]. by rewrite status_split.
Qed.

(** [finish_request] on a well-formed queue with a matching request. The
    request covers the heights from [h] to [h2]. If it failed, they become missing.
    If it succeeded with at least one block, and the height after the request is
    missing or the answer covers the whole request, its blocks are queued at their
    heights, and the heights of the request without a block become missing. In
    both cases every other height is as before. *)
Theorem finish_request_spec self (request_find : TRq -> bool) :
  queue_ok (verification_queue self) -> find_request request_find 0 (verification_queue self) <> None ->
  let q := verification_queue self in
  exists u s h h2, request_find u = true /\ h < h2 /\
    (forall h', h <= h' < h2 -> status q h' = Some (SRequested u s)) /\
    (exists self', finish_request self request_find None = Some (u, s, self') /\
       queue_ok (verification_queue self') /\
       forall h', status (verification_queue self') h' =
         if (h <=? h') && (h' <? h2) then Some SMissing else status q h') /\
    (forall blocks, blocks <> [] ->
       let kb := kept_blocks (h2 - h) blocks in
       status q h2 = Some SMissing \/ len kb = h2 - h ->
       exists self', finish_request self request_find (Some blocks) = Some (u, s, self') /\
         queue_ok (verification_queue self') /\
         forall h', status (verification_queue self') h' =
           if (h <=? h') && (h' <? h + len kb) then SQueued s <$> kb !! Z.to_nat (h' - h)
           else if (h <=? h') && (h' <? h2) then Some SMissing else status q h').
Proof.
  destruct self as [q]. cbn [verification_queue]. intros Hok Hfind. unfold finish_request. cbn [verification_queue].
  destruct (find_request request_find 0 q) as [[[j u] s]|] eqn:Ef; [|done].
  destruct (find_request_spec _ _ _ _ _ _ Ef) as (pre & e & post & -> & -> & Hty & Hu). cbn [Nat.add].
  pose proof Hok as [_ Hok2]%queue_ok_app.
  destruct post as [|e' post]; [by destruct Hok2 as [_ Hm]; rewrite Hty in Hm|].
  pose proof (queue_ok_tail _ _ _ Hok2) as (Hlt & _ & Hok').
  exists u, s, (block_height e), (block_height e'). split; [done|]. split; [done|]. split; [|split].
  - intros h' Hh'. rewrite (status_at pre e (e' :: post)) by (done || lia). unfold entry_status. by rewrite Hty.
  - destruct (finish_err_spec pre e e' post Hok) as (q' & -> & H1 & H2). eexists. split; [done|]. by split.
  - intros blocks Hne Hcond. destruct (finish_ok_spec pre e e' post s blocks Hok Hne) as (q' & -> & H1 & H2).
    { destruct Hcond as [Hst|?]; [right|by left]. rewrite status_split in Hst by (done || lia).
      assert (He : status (e' :: post) (block_height e') = entry_status e' (block_height e')).
      { destruct post as [|e2 post]; [by rewrite status_last by lia|].
        apply queue_ok_tail in Hok' as (? & _ & _). by rewrite status_first by lia. }
      rewrite He in Hst. unfold entry_status in Hst. unfold is_missing. destruct (ty e'); [done|done|].
      by destruct (_ !! _). }
    eexists. split; [done|]. by split.
Qed.

(** ** Draining a source *)

Definition drained (source_id : Z) e : VerificationQueueEntry TRq TBl :=
  if requested_by source_id e then set_ty Missing e else e.

Lemma drain_entries_spec source_id q :
  drain_entries source_id q =
  (omap (fun e => match ty e with
                  | Requested u s => if s =? source_id then Some u else None
                  | _ => None end) q, drained source_id <$> q).
Proof.
  induction q as [|e q IH]; [done|]. cbn [drain_entries fmap list_fmap omap list_omap]. rewrite IH.
  unfold drained, requested_by. destruct (ty e) as [|u s|]; [done| |done]. by destruct (s =? source_id).
Qed.

Lemma drained_height source_id e : block_height (drained source_id e) = block_height e.
Proof. unfold drained. by destruct (requested_by _ _). Qed.

Definition drained_status (source_id : Z) (st : option (Status TRq TBl)) : option (Status TRq TBl) :=
  match st with
  | Some (SRequested u s) => if s =? source_id then Some SMissing else Some (SRequested u s)
  | _ => st
  end.

Lemma drained_entry_status source_id e h :
  entry_status (drained source_id e) h = drained_status source_id (entry_status e h).
Proof.
  unfold entry_status, drained, requested_by. destruct (ty e) as [|u s|s bs] eqn:Et; cbn; rewrite ?Et; [done| |by destruct (bs !! _)].
  destruct (s =? source_id) eqn:Es; cbn; rewrite ?Et; by rewrite ?Es.
Qed.

Lemma drained_queue source_id q :
  queue_ok q -> queue_ok (drained source_id <$> q) /\
  forall h, status (drained source_id <$> q) h = drained_status source_id (status q h).
Proof.
  induction q as [|e q IH]; [done|]. intros Hok. pose proof (queue_ok_head _ _ Hok) as Hh.
  destruct q as [|e' q].
  - destruct Hok as [_ Hm]. split.
    + split; [by rewrite drained_height|]. unfold drained, requested_by. by rewrite Hm.
    + intros h. cbn. rewrite drained_height. destruct (_ <? _); [done|]. apply drained_entry_status.
  - pose proof (queue_ok_tail _ _ _ Hok) as (Hlt & Hfit & Hok'). destruct (IH Hok') as [H1 H2]. split.
    + split; [by rewrite drained_height|]. cbn [fmap list_fmap]. rewrite !drained_height. split; [done|].
      split; [|exact H1]. unfold entry_fits, drained, requested_by in *. destruct (ty e) eqn:Et; cbn; rewrite ?Et; try done.
      destruct (_ =? _); cbn; by rewrite ?Et.
    + intros h. change (drained source_id <$> e :: e' :: q) with (drained source_id e :: drained source_id e' :: (drained source_id <$> q)).
      destruct (Z.lt_ge_cases h (block_height e)); [by rewrite !status_below by (by rewrite ?drained_height)|].
      destruct (Z.lt_ge_cases h (block_height e')).
      * rewrite !status_first by (rewrite ?drained_height; lia). apply drained_entry_status.
      * rewrite !status_next by (rewrite ?drained_height; lia). apply H2.
Qed.

Lemma merge_pair pre e' e post :
  queue_ok (pre ++ e' :: e :: post) -> is_missing e = true -> is_missing e' = true ->
  queue_ok (pre ++ e' :: post) /\ forall h, status (pre ++ e' :: post) h = status (pre ++ e' :: e :: post) h.
Proof.
  intros Hok Hm Hm'. pose proof Hok as [_ Hok2]%queue_ok_app. pose proof (queue_ok_head _ _ Hok2) as [_ Hpos].
  pose proof (queue_ok_tail _ _ _ Hok2) as (Hlt & _ & Hok').
  assert (He : set_height (block_height e') e = e').
  { unfold set_height. rewrite (missing_ty _ Hm). destruct e' as [h' t']. cbn in *. by rewrite <- (missing_ty _ Hm'). }
  destruct (missing_lower e post (block_height e') Hok' Hm ltac:(lia)) as [H1 H2]. rewrite He in H1, H2.
  destruct (queue_replace pre e' (e :: post) e' post) as [H3 H4]; [done|done|done|]. split; [done|].
  intros h. rewrite H4. destruct (Z.leb_spec (block_height e') h); [|done].
  rewrite status_app, (proj2 (Z.leb_le _ _)) by done. destruct (Z.lt_ge_cases h (block_height e)).
  - rewrite status_first by lia. unfold entry_status. rewrite (missing_ty _ Hm'). rewrite <- He at 1.
    by apply lowered_status.
  - rewrite H2 by done. by rewrite status_next by lia.
Qed.

Lemma merge_missing_spec index q :
  queue_ok q -> (index < length q)%nat ->
  queue_ok (merge_missing index q) /\ forall h, status (merge_missing index q) h = status q h.
Proof.
  revert q. induction index as [|prev IH]; intros q Hok Hlen; [done|]. cbn [merge_missing].
  destruct (lookup_lt_is_Some_2 q (S prev) Hlen) as [e He].
  destruct (lookup_lt_is_Some_2 q prev ltac:(lia)) as [e' He'].
  rewrite He, He'. destruct (is_missing e && is_missing e') eqn:Em; [|apply IH; [done|lia]].
  apply andb_prop in Em as [Hm Hm']. pose proof (take_drop_middle _ _ _ He') as Hq.
  rewrite (drop_S q e (S prev) He) in Hq. set (pre := take prev q) in *. set (post := drop (S (S prev)) q) in *.
  assert (Hpre : length pre = prev) by (unfold pre; rewrite length_take; lia).
  assert (Hdel : delete (S prev) q = pre ++ e' :: post).
  { rewrite delete_take_drop. fold post. rewrite (take_S_r q prev e' He'). fold pre. by rewrite <- app_assoc. }
  rewrite <- Hq in Hok. destruct (merge_pair pre e' e post Hok Hm Hm') as [H1 H2]. rewrite Hdel.
  destruct (IH (pre ++ e' :: post) H1) as [H3 H4]; [rewrite length_app; cbn; lia|].
  split; [done|]. intros h. by rewrite H4, H2, Hq.
Qed.

(** [drain_source], with its iterator run to the end and dropped: the queue
    stays well formed, exactly the heights requested from the source become
    missing, and the user data of its requests are returned in order. *)
Theorem drain_source_spec self (source_id : Z) :
  queue_ok (verification_queue self) ->
  let '(out, self') := drain_source self source_id in
  queue_ok (verification_queue self') /\
  (forall h, status (verification_queue self') h = drained_status source_id (status (verification_queue self) h)) /\
  out = fst <$> filter (fun us => snd us = source_id) (into_requests self).
Proof.
  intros Hok. unfold drain_source. rewrite drain_entries_spec. cbn [verification_queue].
  destruct (drained_queue source_id _ Hok) as [H1 H2].
  destruct (merge_missing_spec (length (drained source_id <$> verification_queue self) - 1) _ H1) as [H3 H4].
  { rewrite length_fmap. destruct (verification_queue self); [done|]. cbn. lia. }
  split; [done|]. split; [intros h; by rewrite H4, H2|]. unfold into_requests.
  clear. induction (verification_queue self) as [|e q IH]; [done|]. cbn. destruct (ty e) as [|u s|]; [done| |done].
  rewrite filter_cons. destruct (Z.eqb_spec s source_id); cbn.
  - rewrite decide_True by done. cbn. by rewrite IH.
  - rewrite decide_False by done. done.
Qed.

(** ** The requests to start *)

Definition in_range (h : Z) (r : u64 * u32) : Prop := fst r <= h < fst r + snd r.

Lemma last_height e q l : queue_ok (e :: q) -> last (e :: q) = Some l -> block_height e <= block_height l.
Proof.
  intros Hok Hl. apply last_Some in Hl as [[|x pre] Hpre]; [injection Hpre as -> _; lia|].
  injection Hpre as -> ->. pose proof (heights_before (x :: pre) l [] x Hok ltac:(by left)). lia.
Qed.

Lemma desired_range_spec (max : Z) e e' :
  is_u64 (block_height e) -> block_height e < block_height e' -> block_height e < max ->
  max - block_height e < 2 ^ 32 ->
  desired_range max (e, e') = Some (block_height e, Z.min max (block_height e') - block_height e).
Proof.
  intros Hu Hlt Hmax Hn. unfold desired_range, wsub. unfold is_uint in *.
  assert (2 ^ 32 < 2 ^ 64) by reflexivity.
  rewrite wrap_small by (unfold is_uint; lia). rewrite (proj2 (Z.ltb_lt _ _)) by lia.
  by rewrite nonzero_pos by lia.
Qed.

Lemma desired_windows_spec (max : Z) q :
  queue_ok q -> max - front_height q < 2 ^ 32 ->
  Forall (fun w => is_missing (fst w) = true -> block_height (fst w) <> max) (tuple_windows q) ->
  exists iter1 l,
    mapM (desired_range max)
      (filter (fun w => is_missing (fst w) = true /\ block_height (fst w) <= max) (tuple_windows q)) = Some iter1 /\
    last q = Some l /\
    forall h, h < max -> (status q h = Some SMissing <-> Exists (in_range h) iter1 \/ block_height l <= h).
Proof.
  induction q as [|e q IH]; [done|]. intros Hok Hn Hw. pose proof (queue_ok_head _ _ Hok) as [Hu _].
  destruct q as [|e' q].
  - destruct Hok as [_ Hm]. exists [], e. split; [done|]. split; [done|]. intros h _.
    rewrite Exists_nil. destruct (Z.lt_ge_cases h (block_height e)).
    + rewrite status_below by done. split; [done|intros [[]|?]; lia].
    + rewrite status_last by done. unfold entry_status. rewrite Hm. split; [by right|done].
  - pose proof (queue_ok_tail _ _ _ Hok) as (Hlt & Hfit & Hok'). cbn [front_height] in Hn, IH.
    change (tuple_windows (e :: e' :: q)) with ((e, e') :: tuple_windows (e' :: q)) in *.
    apply Forall_cons in Hw as [Hw1 Hw]. cbn [fst] in Hw1.
    destruct (IH Hok' ltac:(lia) Hw) as (iter1 & l & Hiter & Hl & Hst).
    pose proof (last_height _ _ _ Hok' Hl) as Hle.
    set (keep := bool_decide (is_missing e = true /\ block_height e <= max)).
    assert (Hf : filter (fun w => is_missing (fst w) = true /\ block_height (fst w) <= max) ((e, e') :: tuple_windows (e' :: q)) =
                 (if keep then [(e, e')] else []) ++
                 filter (fun w => is_missing (fst w) = true /\ block_height (fst w) <= max) (tuple_windows (e' :: q))).
    { rewrite filter_cons. unfold keep. case_bool_decide; [by rewrite decide_True|by rewrite decide_False]. }
    exists ((if keep then [(block_height e, Z.min max (block_height e') - block_height e)] else []) ++ iter1), l.
    split; [|split; [by rewrite <- Hl|]].
    + rewrite Hf. unfold keep. case_bool_decide as Hk; [destruct Hk as [Hm Hmax]|done].
      cbn [app mapM]. rewrite desired_range_spec by (try done; specialize (Hw1 Hm); lia). cbn [mbind option_bind]. by rewrite Hiter.
    + intros h Hh. rewrite Exists_app. specialize (Hst h Hh).
      assert (Hkeep : Exists (in_range h) (if keep then [(block_height e, Z.min max (block_height e') - block_height e)] else [])
                      <-> is_missing e = true /\ block_height e <= h < block_height e').
      { unfold keep. case_bool_decide as Hk; [destruct Hk as [Hm Hmax]|rename Hk into Hno].
        - rewrite Exists_cons, Exists_nil. unfold in_range. cbn [fst snd].
          split; [intros [Hr|[]]; split; [done|]; lia | intros [_ Hr]; left; lia].
        - rewrite Exists_nil. split; [done|]. intros [Hm Hr]. apply Hno. split; [done|lia]. }
      rewrite Hkeep. destruct (Z.lt_ge_cases h (block_height e')) as [Hb|Hb].
      * assert (Hno : ~ Exists (in_range h) iter1).
        { intros Hx. rewrite status_below in Hst by done. destruct Hst as [_ Hst]. by specialize (Hst (or_introl Hx)). }
        destruct (Z.lt_ge_cases h (block_height e)).
        -- rewrite status_below by done. split; [done|]. intros [[[_ ?]|?]|?]; [lia|done|lia].
        -- rewrite status_first by lia. unfold entry_status, is_missing. destruct (ty e) as [| |s bs].
           ++ split; [by left; left|done].
           ++ split; [done|]. intros [[[? _]|?]|?]; [done|done|lia].
           ++ split; [by destruct (_ !! _)|]. intros [[[? _]|?]|?]; [done|done|lia].
      * rewrite status_next by lia. rewrite Hst. split.
        -- intros [?|?]; [by left; right|by right].
        -- intros [[[_ ?]|?]|?]; [lia|by left|by right].
Qed.

(** [desired_requests] on a well-formed queue, when no missing range starts
    exactly at the limit: it does not panic, and a height below the limit is
    missing if and only if it is in one of the ranges. *)
Theorem desired_requests_spec self (download_ahead_blocks : Z) :
  queue_ok (verification_queue self) -> 0 < download_ahead_blocks < 2 ^ 32 ->
  let q := verification_queue self in
  let max := front_height q + download_ahead_blocks in
  is_u64 max ->
  Forall (fun w => is_missing (fst w) = true -> block_height (fst w) <> max) (tuple_windows q) ->
  exists out, desired_requests self download_ahead_blocks = Some out /\
    forall h, h < max -> (status q h = Some SMissing <-> Exists (in_range h) out).
Proof.
  intros Hok Hn q max Hmax Hw.
  destruct (desired_windows_spec max q Hok ltac:(lia) Hw) as (iter1 & l & Hiter & Hl & Hst).
  unfold desired_requests. subst max q. destruct (verification_queue self) as [|e q']; [done|].
  cbn [head front_height] in *. unfold wadd. rewrite wrap_small by done. rewrite Hiter, Hl. eexists. split; [done|].
  intros h Hh. rewrite Hst by done. rewrite Exists_app. destruct (Z.ltb_spec (block_height l) (block_height e + download_ahead_blocks)).
  - rewrite Exists_cons, Exists_nil. unfold in_range at 3. cbn [fst snd].
    pose proof (last_height _ _ _ Hok Hl).
    split; [intros [?|?]; [by left|right; left; lia] | intros [?|[?|[]]]; [by left|right; lia]].
  - rewrite Exists_nil. split; [intros [?|?]; [by left|lia] | intros [?|[]]; by left].
Qed.

End operations.

(** ** A concrete queue *)

Definition example_queue : VerificationQueue Z Z :=
  mkQueue [mkEntry 10 (Queued 7 [100; 101]); mkEntry 12 Missing; mkEntry 15 (Requested 5 8);
           mkEntry 18 (Requested 6 7); mkEntry 20 Missing].

Lemma example_queue_ok : queue_ok (verification_queue example_queue).
Proof. cbn. unfold is_uint, entry_fits. cbn. repeat split; (done || lia). Qed.

Lemma pop_first_block_spec_witness :
  exists out self', pop_first_block example_queue = Some (out, self') /\ queue_ok (verification_queue self').
Proof.
  destruct (pop_first_block_spec example_queue example_queue_ok) as (out & self' & H1 & H2 & _). by exists out, self'.
Defined.

Lemma insert_request_spec_witness :
  exists self', insert_request example_queue 13 2 9 4 = Some (Ok self') /\
    status (verification_queue self') 14 = Some (SRequested 4 9).
Proof.
  destruct (insert_request_spec example_queue 13 2 9 4 example_queue_ok) as [_ Hr]; [lia|done|done|].
  destruct Hr as (self' & H1 & _ & H2); [done|by left|]. exists self'. split; [done|]. by rewrite H2.
Defined.

Lemma finish_request_spec_witness :
  exists u s h h2, (u =? 6) = true /\ h < h2 /\
    forall h', h <= h' < h2 -> status (verification_queue example_queue) h' = Some (SRequested u s).
Proof.
  destruct (@finish_request_spec Z Z platform64 example_queue (fun u => u =? 6) example_queue_ok ltac:(done))
    as (u & s & h & h2 & Hu & Hlt & Hst & _).
  by exists u, s, h, h2.
Defined.

Lemma drain_source_spec_witness :
  let '(out, self') := drain_source example_queue 7 in
  queue_ok (verification_queue self') /\ out = [6].
Proof.
  pose proof (drain_source_spec example_queue 7 example_queue_ok) as Hd.
  destruct (drain_source example_queue 7) as [out self']. destruct Hd as (H1 & _ & H2). by split.
Defined.

Lemma desired_requests_spec_witness :
  exists out, desired_requests example_queue 15 = Some out /\ Exists (in_range 13) out.
Proof.
  destruct (desired_requests_spec example_queue 15 example_queue_ok) as (out & H1 & H2); [lia|done|by repeat constructor|].
  exists out. split; [done|]. by apply H2.
Defined.

(** ** Without the conditions *)

(** The queue after a request of five blocks at 10, and one of five at 15. *)
Definition two_requests : VerificationQueue Z Z :=
  mkQueue [mkEntry 10 (Requested 1 7); mkEntry 15 (Requested 2 7); mkEntry 20 Missing].

(** The answer to a request may have fewer blocks than the request. When the
    next range is requested too, the missing entry is put at the start of the
    range plus the number of blocks that are lacking, not the number received: of
    a request for the heights 10 to 14 answered with one block, the heights 11, 12
    and 13 are neither queued nor missing nor requested; answered with four, the
    missing entry is in the middle of the blocks. *)
Theorem finish_request_loses_blocks :
  queue_ok (verification_queue two_requests) /\
  (exists self', @finish_request _ _ platform64 two_requests (fun u => u =? 1) (Some [100]) = Some (1, 7, self') /\
     status (verification_queue self') 10 = Some (SQueued 7 100) /\
     status (verification_queue self') 11 = None /\ status (verification_queue self') 13 = None /\
     desired_requests self' 10 = Some [(14, 1)]) /\
  (exists self', @finish_request _ _ platform64 two_requests (fun u => u =? 1) (Some [100; 101; 102; 103]) = Some (1, 7, self') /\
     status (verification_queue self') 12 = Some SMissing).
Proof.
  split; [cbn; unfold is_uint, entry_fits; cbn; repeat split; (done || lia)|].
  split; eexists; (split; [reflexivity|]); repeat split.
Qed.

(** Three panics. A successful answer without blocks queues an empty entry,
    and reading the first block then panics; a request that is longer than the gap
    up to the next entry, and for a queue with a missing range at exactly the
    limit, asking which requests to start. *)
Theorem queue_panics :
  (exists self', @finish_request _ _ platform64 two_requests (fun u => u =? 1) (Some []) = Some (1, 7, self') /\
     blocks_ready self' = Some true /\ first_block self' = None /\ pop_first_block self' = None) /\
  (exists self self', @finish_request _ _ platform64 two_requests (fun u => u =? 1) None = Some (1, 7, self) /\
     insert_request self 10 6 7 3 = None /\ insert_request self 10 5 7 3 = Some (Ok self')) /\
  desired_requests example_queue 2 = None.
Proof.
  split; [|split; [|reflexivity]].
  - eexists. split; [reflexivity|]. repeat split.
  - do 2 eexists. split; [reflexivity|]. repeat split.
Qed.
