(* ===== verification/StorageDiff.v ===== *)
(** * Storage differences ([src/src/executor/storage_diff.rs])

    The changes of a storage, as a hash map from the keys to their new value (or
    their removal) and an ordered map of the same keys. Byte strings are lists of
    integers, the maps are [gmap]s; the order of the keys is that of BTree.v.

    [apply_diff] is the meaning of a difference, the storage after it. The
    operations are shown to act on it as documented, [diff_merge] to be the
    composition, the search of the next key to find the least key after the
    change and to end, and the listing of the keys of a prefix to be the sorted
    list of these keys. A panic is [None]. *)

From S2P Require Import Prelude BTree.

Open Scope Z_scope.

Abbreviation bytes := (list Z) (only parsing).

(** ** Data *)

Record StorageDiff := mkStorageDiff {
  btree : gmap bytes bool;
  hashmap : gmap bytes (option bytes)
}.

Inductive StorageNextKey :=
  | Found (key : option bytes)
  | NextOf (key : bytes).

(** ** Operations *)

Definition StorageDiff_empty : StorageDiff := {| btree := ∅; hashmap := ∅ |}.

Definition diff_clear (self : StorageDiff) : StorageDiff := {| btree := ∅; hashmap := ∅ |}.

(** Each operation on an entry returns the entry that was in the diff. *)
Definition diff_insert (self : StorageDiff) (key value : bytes) : option (option bytes) * StorageDiff :=
  let previous := hashmap self !! key in
  (previous,
   {| hashmap := <[key := Some value]> (hashmap self);
      btree := match previous with
               | Some (Some _) => btree self
               | None | Some None => <[key := true]> (btree self)
               end |}).

Definition diff_insert_erase (self : StorageDiff) (key : bytes) : option (option bytes) * StorageDiff :=
  let previous := hashmap self !! key in
  (previous,
   {| hashmap := <[key := None]> (hashmap self);
      btree := match previous with
               | Some None => btree self
               | None | Some (Some _) => <[key := false]> (btree self)
               end |}).

Definition diff_remove (self : StorageDiff) (key : bytes) : option (option bytes) * StorageDiff :=
  let previous := hashmap self !! key in
  (previous,
   {| hashmap := delete key (hashmap self);
      btree := match previous with
               | Some _ => delete key (btree self)
               | None => btree self
               end |}).

Definition diff_get (self : StorageDiff) (key : bytes) : option (option bytes) := hashmap self !! key.

Definition diff_iter_unordered (self : StorageDiff) : list (bytes * option bytes) := map_to_list (hashmap self).

Definition storage_get (self : StorageDiff) (key : bytes) (or_parent : option bytes) : option bytes :=
  match hashmap self !! key with
  | Some opt => opt
  | None => or_parent
  end.

Definition storage_next_key (self : StorageDiff) (key : bytes) (in_parent_next_key : option bytes)
    : option StorageNextKey :=
  let assertion :=
    match in_parent_next_key with Some a => negb (bool_decide (key_le a key)) | None => true end in
  if negb assertion then None
  else
    let in_diff := head (btree_after key (btree self)) in
    Some match in_parent_next_key, in_diff with
         | Some a, Some (b, true) => if decide (key_le a b) then Found (Some a) else Found (Some b)
         | Some a, Some (b, false) => if decide (~ key_le b a) then Found (Some a) else NextOf b
         | Some a, None => Found (Some a)
         | None, Some (b, true) => Found (Some b)
         | None, Some (b, false) =>
             Found (fst <$> head (filter (fun kv => snd kv = true) (btree_after b (btree self))))
         | None, None => Found None
         end.

(** [slice.starts_with(prefix)]. *)
Fixpoint starts_with (key prefix : bytes) : bool :=
  match prefix, key with
  | [], _ => true
  | p :: prefix, k :: key => (k =? p) && starts_with key prefix
  | _ :: _, [] => false
  end.

(** [iter.take_while(f)]. *)
Fixpoint take_while {A} (f : A -> bool) (l : list A) : list A :=
  match l with
  | [] => []
  | x :: l => if f x then x :: take_while f l else []
  end.

(** The closure of [iter::from_fn]: one item, and the two iterators after it. *)
Definition prefix_keys_next (in_finalized_filtered diff_inserted : list bytes)
    : option (bytes * (list bytes * list bytes)) :=
  match in_finalized_filtered, diff_inserted with
  | a :: rest, [] => Some (a, (rest, []))
  | a :: rest_a, b :: rest_b =>
      if decide (~ key_le b a) then Some (a, (rest_a, b :: rest_b)) else Some (b, (a :: rest_a, rest_b))
  | [], b :: rest => Some (b, ([], rest))
  | [], [] => None
  end.

Fixpoint from_fn (fuel : nat) (in_finalized_filtered diff_inserted : list bytes) : list bytes :=
  match fuel with
  | O => []
  | S fuel =>
      match prefix_keys_next in_finalized_filtered diff_inserted with
      | None => []
      | Some (k, (l1, l2)) => k :: from_fn fuel l1 l2
      end
  end.

(** [storage_prefix_keys_ordered], with the iterator driven to its end. *)
Definition storage_prefix_keys_ordered (self : StorageDiff) (prefix : bytes) (in_parent_ordered : list bytes)
    : list bytes :=
  let in_finalized_filtered := filter (fun k => btree self !! k = None) in_parent_ordered in
  let diff_inserted :=
    fst <$> filter (fun kv => snd kv = true)
      (take_while (fun kv => starts_with (fst kv) prefix) (btree_from prefix (btree self))) in
  from_fn (length in_finalized_filtered + length diff_inserted) in_finalized_filtered diff_inserted.

Definition diff_merge (self other : StorageDiff) : StorageDiff :=
  foldl (fun self '(key, value) =>
           {| hashmap := <[key := value]> (hashmap self);
              btree := <[key := bool_decide (is_Some value)]> (btree self) |})
    self (map_to_list (hashmap other)).

Definition diff_eq (self other : StorageDiff) : bool := bool_decide (hashmap self = hashmap other).

(** [from_iter]: a later entry for a key replaces an earlier one. *)
Definition StorageDiff_from_iter (iter : list (bytes * option bytes)) : StorageDiff :=
  let hashmap := foldl (fun m '(k, v) => <[k := v]> m) ∅ iter in
  {| hashmap := hashmap;
     btree := list_to_map ((fun '(k, v) => (k, bool_decide (is_Some v))) <$> map_to_list hashmap) |}.

(** ** Meaning and invariant *)

(** The storage after the difference. *)
Definition overlay (o : option (option bytes)) (b : option bytes) : option bytes :=
  match o with Some v => v | None => b end.

Definition apply_diff (self : StorageDiff) (base : gmap bytes bytes) : gmap bytes bytes :=
  merge overlay (hashmap self) base.

(** "Contains the same entries as [hashmap], except that values are booleans." *)
Definition diff_ok (self : StorageDiff) : Prop :=
  btree self = (fun v => bool_decide (is_Some v)) <$> hashmap self.

Lemma lookup_apply_diff self base k : apply_diff self base !! k = storage_get self k (base !! k).
Proof.
  unfold apply_diff, storage_get. rewrite lookup_merge.
  by destruct (hashmap self !! k), (base !! k).
Qed.

Lemma lookup_btree self k : diff_ok self -> btree self !! k = (fun v => bool_decide (is_Some v)) <$> hashmap self !! k.
Proof. intros ->. apply lookup_fmap. Qed.

Lemma diff_set_ok self k (v : option bytes) (b : bool) :
  diff_ok self -> b = bool_decide (is_Some v) ->
  diff_ok {| hashmap := <[k := v]> (hashmap self); btree := <[k := b]> (btree self) |}.
Proof. intros Hok ->. unfold diff_ok in *. cbn. by rewrite fmap_insert, Hok. Qed.

Lemma btree_same self k b : btree self !! k = Some b -> btree self = <[k := b]> (btree self).
Proof. intros. by rewrite insert_id. Qed.

Lemma diff_insert_ok self k v : diff_ok self -> diff_ok (snd (diff_insert self k v)).
Proof.
  intros Hok. unfold diff_insert. cbn. pose proof (lookup_btree _ k Hok) as Hk.
  destruct (hashmap self !! k) as [[w|]|]; cbn in Hk; try by apply diff_set_ok.
  rewrite (btree_same _ _ _ Hk). by apply diff_set_ok.
Qed.

Lemma diff_insert_erase_ok self k : diff_ok self -> diff_ok (snd (diff_insert_erase self k)).
Proof.
  intros Hok. unfold diff_insert_erase. cbn. pose proof (lookup_btree _ k Hok) as Hk.
  destruct (hashmap self !! k) as [[w|]|]; cbn in Hk; try by apply diff_set_ok.
  rewrite (btree_same _ _ _ Hk). by apply diff_set_ok.
Qed.

Lemma diff_remove_ok self k : diff_ok self -> diff_ok (snd (diff_remove self k)).
Proof.
  intros Hok. unfold diff_remove, diff_ok in *. cbn. rewrite fmap_delete, <- Hok.
  destruct (hashmap self !! k) eqn:Ek; [done|]. rewrite delete_id; [done|]. by rewrite Hok, lookup_fmap, Ek.
Qed.

(** Merging a list of entries. *)
Lemma merge_entries (l : list (bytes * option bytes)) self :
  NoDup l.*1 -> diff_ok self ->
  let self' := foldl (fun self '(key, value) =>
           {| hashmap := <[key := value]> (hashmap self);
              btree := <[key := bool_decide (is_Some value)]> (btree self) |}) self l in
  diff_ok self' /\ hashmap self' = list_to_map l ∪ hashmap self.
Proof.
  revert self. induction l as [|[k v] l IH]; intros self Hnd Hok; cbn.
  - split; [done|]. by rewrite map_empty_union.
  - cbn in Hnd. apply NoDup_cons in Hnd as [Hk Hnd].
    destruct (IH _ Hnd (diff_set_ok self k v _ Hok eq_refl)) as [H1 H2]. split; [done|]. rewrite H2. cbn [hashmap].
    by rewrite <- insert_union_l, insert_union_r by (by apply not_elem_of_list_to_map).
Qed.

Lemma merge_spec self other :
  diff_ok self -> diff_ok (diff_merge self other) /\ hashmap (diff_merge self other) = hashmap other ∪ hashmap self.
Proof.
  intros Hok. destruct (merge_entries (map_to_list (hashmap other)) self (NoDup_fst_map_to_list _) Hok) as [H1 H2].
  split; [done|]. unfold diff_merge. by rewrite H2, list_to_map_to_list.
Qed.

Lemma from_iter_ok iter : diff_ok (StorageDiff_from_iter iter).
Proof.
  unfold diff_ok, StorageDiff_from_iter. cbn.
  rewrite (list_fmap_ext _ (prod_map id (fun v : option bytes => bool_decide (is_Some v)))) by (by intros ? [? ?]).
  by rewrite list_to_map_fmap, list_to_map_to_list.
Qed.

Lemma from_iter_lookup_app (iter : list (bytes * option bytes)) k v :
  hashmap (StorageDiff_from_iter (iter ++ [(k, v)])) = <[k := v]> (hashmap (StorageDiff_from_iter iter)).
Proof. unfold StorageDiff_from_iter. cbn. by rewrite foldl_app. Qed.

(** A difference denotes a change of storage. Every operation keeps the
    ordered map equal to the keys of the hash map, and acts on the storage as it
    documents: inserting sets the key, erasing removes it, removing the entry
    restores what the base has, reading reads, and merging a second difference is
    applying it after the first. Each reports the entry it replaces. *)
Theorem diff_operations_spec self other base (key value : list Z) :
  diff_ok self ->
  let '(p1, d1) := diff_insert self key value in
  let '(p2, d2) := diff_insert_erase self key in
  let '(p3, d3) := diff_remove self key in
  (p1 = diff_get self key /\ diff_ok d1 /\ apply_diff d1 base = <[key := value]> (apply_diff self base)) /\
  (p2 = diff_get self key /\ diff_ok d2 /\ apply_diff d2 base = delete key (apply_diff self base)) /\
  (p3 = diff_get self key /\ diff_ok d3 /\
     apply_diff d3 base = partial_alter (fun _ => base !! key) key (apply_diff self base)) /\
  storage_get self key (base !! key) = apply_diff self base !! key /\
  (diff_ok (diff_merge self other) /\
     apply_diff (diff_merge self other) base = apply_diff other (apply_diff self base)) /\
  (diff_ok (diff_clear self) /\ apply_diff (diff_clear self) base = base).
Proof.
  intros Hok. pose proof (diff_insert_ok _ key value Hok) as H1. pose proof (diff_insert_erase_ok _ key Hok) as H2.
  pose proof (diff_remove_ok _ key Hok) as H3. destruct (merge_spec self other Hok) as [H4 H5].
  unfold diff_insert, diff_insert_erase, diff_remove in *. cbn [snd] in *.
  split; [|split; [|split; [|split; [|split]]]].
  - split; [done|]. split; [done|]. apply map_eq. intros k. rewrite lookup_apply_diff. unfold storage_get. cbn [hashmap].
    destruct (decide (key = k)) as [->|]; [by rewrite !lookup_insert_eq|]. rewrite !lookup_insert_ne by done. by rewrite lookup_apply_diff.
  - split; [done|]. split; [done|]. apply map_eq. intros k. rewrite lookup_apply_diff. unfold storage_get. cbn [hashmap].
    destruct (decide (key = k)) as [->|]; [by rewrite lookup_insert_eq, lookup_delete_eq|].
    rewrite lookup_insert_ne, lookup_delete_ne by done. by rewrite lookup_apply_diff.
  - split; [done|]. split; [done|]. apply map_eq. intros k. rewrite lookup_apply_diff. unfold storage_get. cbn [hashmap].
    destruct (decide (key = k)) as [->|]; [by rewrite lookup_delete_eq, lookup_partial_alter_eq|].
    rewrite lookup_delete_ne, lookup_partial_alter_ne by done. by rewrite lookup_apply_diff.
  - by rewrite lookup_apply_diff.
  - split; [done|]. apply map_eq. intros k. rewrite !lookup_apply_diff. unfold storage_get. rewrite H5, lookup_union.
    by destruct (hashmap other !! k), (hashmap self !! k).
  - split; [done|]. apply map_eq. intros k. by rewrite lookup_apply_diff.
Qed.

(** ** The next key *)

(** [r] is the least key with [P] that is greater than [key], if there is one. *)
Definition is_next (P : list Z -> Prop) (key : list Z) (r : option (list Z)) : Prop :=
  match r with
  | Some k => P k /\ ~ key_le k key /\ forall k', P k' -> ~ key_le k' key -> key_le k k'
  | None => forall k', P k' -> key_le k' key
  end.

(** The key that follows [key] in a storage. *)
Definition next_key {V} (m : gmap bytes V) (key : bytes) : option bytes := fst <$> head (btree_after key m).

(** The search, as [NextKey::inject_key] does it: until a key is found, the
    storage is asked again for the key that follows the one in [NextOf]. *)
Fixpoint next_key_loop (fuel : nat) (self : StorageDiff) (base : gmap bytes bytes) (key : bytes)
    : option (option bytes) :=
  match fuel with
  | O => None
  | S fuel =>
      let! search := storage_next_key self key (next_key base key) in
      match search with
      | Found k => Some k
      | NextOf next => next_key_loop fuel self base next
      end
  end.

Lemma key_lt_le (a b : list Z) : ~ key_le b a -> key_le a b.
Proof. intros. by destruct (total key_le a b). Qed.

Lemma key_lt_le_trans (a b c : list Z) : ~ key_le b a -> key_le b c -> ~ key_le c a.
Proof. intros H1 H2 H3. apply H1. by transitivity c. Qed.

Lemma is_next_unique P key r1 r2 : is_next P key r1 -> is_next P key r2 -> r1 = r2.
Proof.
  destruct r1 as [k1|], r2 as [k2|]; cbn; [| | |done].
  - intros (H1 & H2 & H3) (H4 & H5 & H6). f_equal. apply (anti_symm key_le); [by apply H3|by apply H6].
  - intros (H1 & H2 & _) H. by specialize (H _ H1).
  - intros H (H1 & H2 & _). by specialize (H _ H1).
Qed.

Lemma head_after {V} (m : gmap bytes V) key :
  match head (btree_after key m) with
  | Some (k, v) => m !! k = Some v /\ ~ key_le k key /\ forall k', is_Some (m !! k') -> ~ key_le k' key -> key_le k k'
  | None => forall k', is_Some (m !! k') -> key_le k' key
  end.
Proof.
  pose proof (head_filter_sorted (fun kv => ~ key_le (fst kv) key) _ (btree_iter_sorted m)) as Hh.
  unfold btree_after. destruct (head _) as [[k v]|].
  - destruct Hh as (H1 & H2 & H3). apply elem_of_btree_iter in H1. split; [done|]. split; [done|].
    intros k' [v' Hk'] Hlt. apply (H3 (k', v')); [by apply elem_of_btree_iter|done].
  - intros k' [v' Hk']. destruct (decide (key_le k' key)) as [?|Hn]; [done|].
    exfalso. apply (Hh (k', v')); [by apply elem_of_btree_iter|done].
Qed.

Lemma next_key_spec {V} (m : gmap bytes V) key : is_next (fun k => is_Some (m !! k)) key (next_key m key).
Proof.
  unfold next_key. pose proof (head_after m key) as Hh. destruct (head _) as [[k v]|]; cbn; [|done].
  destruct Hh as (H1 & H2 & H3). split; [by exists v|]. by split.
Qed.

(** The first entry after [key] that is not a removal. *)
Lemma head_after_true self key :
  is_next (fun k => btree self !! k = Some true) key
    (fst <$> head (filter (fun kv => snd kv = true) (btree_after key (btree self)))).
Proof.
  pose proof (head_filter_sorted (fun kv => snd kv = true) (btree_after key (btree self))
    (StronglySorted_filter _ _ _ (btree_iter_sorted _))) as Hh.
  assert (Hin : forall k v, (k, v) ∈ btree_after key (btree self) <-> ~ key_le k key /\ btree self !! k = Some v).
  { intros k v. unfold btree_after. by rewrite list_elem_of_filter, elem_of_btree_iter. }
  destruct (head _) as [[k v]|]; cbn.
  - destruct Hh as ([H1 H2]%Hin & Hv & H3). cbn in Hv. subst v. split; [done|]. split; [done|].
    intros k' Hk' Hlt. apply (H3 (k', true)); [by apply Hin|done].
  - intros k' Hk'. destruct (decide (key_le k' key)) as [?|Hn]; [done|].
    exfalso. apply (Hh (k', true)); [by apply Hin|done].
Qed.

Section next_key.
Context (self : StorageDiff) (base : gmap (list Z) (list Z)).
Hypothesis self_ok : diff_ok self.

Definition present (k : list Z) : Prop := is_Some (apply_diff self base !! k).

Lemma present_spec k :
  present k <-> btree self !! k = Some true \/ (btree self !! k = None /\ is_Some (base !! k)).
Proof.
  unfold present. rewrite lookup_apply_diff, (lookup_btree _ _ self_ok). unfold storage_get.
  destruct (hashmap self !! k) as [[v|]|]; cbn.
  - split; [by left|done].
  - split; [by intros [? ?]|by intros [?|[? _]]].
  - split; [by right|intros [?|[_ ?]]; done].
Qed.

(** The keys after [key] are after the first entry of the diff, or of the base. *)
Lemma present_after key k :
  present k -> ~ key_le k key ->
  (exists b v, head (btree_after key (btree self)) = Some (b, v) /\ key_le b k /\ (b = k -> v = true)) \/
  (btree self !! k = None /\ exists a, next_key base key = Some a /\ key_le a k).
Proof.
  intros Hp Hlt. apply present_spec in Hp as [Hb|[Hn Hb]].
  - left. pose proof (head_after (btree self) key) as Hh. destruct (head _) as [[b v]|].
    + destruct Hh as (H1 & H2 & H3). exists b, v. split; [done|]. split; [apply H3; [by exists true|done]|].
      intros ->. congruence.
    + by specialize (Hh k ltac:(by exists true)).
  - right. split; [done|]. pose proof (next_key_spec base key) as Hh. destruct (next_key base key) as [a|]; cbn in Hh.
    + exists a. split; [done|]. by apply Hh.
    + by specialize (Hh k Hb).
Qed.

Lemma present_base key a :
  next_key base key = Some a ->
  (forall b v, head (btree_after key (btree self)) = Some (b, v) -> ~ key_le b a \/ (key_le a b /\ v = true)) -> present a.
Proof.
  intros Ha Hb. pose proof (next_key_spec base key) as Hn. rewrite Ha in Hn. destruct Hn as (H1 & H2 & _).
  apply present_spec. destruct (btree self !! a) as [v|] eqn:Ea; [|by right].
  pose proof (head_after (btree self) key) as Hh. destruct (head _) as [[b w]|].
  - destruct Hh as (H3 & H4 & H5). specialize (H5 a ltac:(by exists v) H2).
    destruct (Hb b w eq_refl) as [?|[H6 ->]]; [done|]. left. assert (a = b) as -> by (by apply (anti_symm key_le)). congruence.
  - exfalso. apply H2, Hh. by exists v.
Qed.

(** The first entry of the diff is a removal, and the base has nothing before it. *)
Lemma skip_erased key b o :
  head (btree_after key (btree self)) = Some (b, false) ->
  (forall a, next_key base key = Some a -> key_le b a) ->
  is_next present b o -> is_next present key o.
Proof.
  intros Hb Ha Ho. pose proof (present_after key) as Haft. pose proof (head_after (btree self) key) as Hh.
  rewrite Hb in Haft, Hh. destruct Hh as (Hb1 & Hb2 & _).
  assert (Hskip : forall k, present k -> ~ key_le k key -> ~ key_le k b).
  { intros k Hk Hlt Hle. destruct (Haft k Hk Hlt) as [(? & ? & [= <- <-] & H1 & H2)|(Hkn & a & Hna & H1)].
    - by discriminate (H2 (anti_symm key_le _ _ H1 Hle)).
    - assert (k = b) as -> by (apply (anti_symm key_le); [done|transitivity a; [by apply Ha|done]]). congruence. }
  destruct o as [k|]; cbn [is_next] in *.
  - destruct Ho as (H1 & H2 & H3). split; [done|]. split; [|intros k' Hk' Hlt; by apply H3; [|apply Hskip]].
    intros Hle. apply H2. transitivity key; [done|by apply key_lt_le].
  - intros k Hk. destruct (decide (key_le k key)) as [?|Hlt]; [done|]. exfalso. by apply (Hskip k Hk Hlt), Ho.
Qed.

(** Without a next key in the base, the next insertion is the next key. *)
Lemma next_inserted b :
  next_key base b = None ->
  is_next present b (fst <$> head (filter (fun kv => snd kv = true) (btree_after b (btree self)))).
Proof.
  intros Hn. pose proof (next_key_spec base b) as Hb. rewrite Hn in Hb. cbn [is_next] in Hb.
  assert (Hp : forall k, present k -> ~ key_le k b -> btree self !! k = Some true).
  { intros k [?|[_ Hk]]%present_spec Hlt; [done|]. by specialize (Hb k Hk). }
  pose proof (head_after_true self b) as Ht. destruct (fst <$> _) as [k|]; cbn [is_next] in *.
  - destruct Ht as (H1 & H2 & H3). split; [apply present_spec; by left|]. split; [done|].
    intros k' Hk' Hlt. apply H3; [by apply Hp|done].
  - intros k Hk. destruct (decide (key_le k b)) as [?|Hlt]; [done|]. by apply Ht, Hp.
Qed.

Lemma next_key_after key b : ~ key_le b key -> next_key base key = None -> next_key base b = None.
Proof.
  intros Hb Hn. pose proof (next_key_spec base key) as Hk. rewrite Hn in Hk. cbn [is_next] in Hk.
  apply (is_next_unique (fun k => is_Some (base !! k)) b); [apply next_key_spec|]. intros k Hs.
  transitivity key; [by apply Hk|by apply key_lt_le].
Qed.

Lemma storage_next_key_step key :
  exists r, storage_next_key self key (next_key base key) = Some r /\
    match r with
    | Found o => is_next present key o
    | NextOf b => head (btree_after key (btree self)) = Some (b, false) /\
                  forall o, is_next present b o -> is_next present key o
    end.
Proof.
  unfold storage_next_key. pose proof (present_after key) as Haft. pose proof (present_base key) as Hbase.
  pose proof (skip_erased key) as Hskip. pose proof (next_key_after key) as Hnone.
  pose proof (next_key_spec base key) as Hn. pose proof (head_after (btree self) key) as Hh.
  destruct (next_key base key) as [a|]; cbn [is_next] in Hn.
  - destruct Hn as (Ha1 & Ha2 & Ha3). rewrite bool_decide_false by done. cbn [negb].
    destruct (head (btree_after key (btree self))) as [[b [|]]|]; (eexists; split; [done|]).
    + destruct Hh as (Hb1 & Hb2 & Hb3). case_decide as Hab.
      * split; [apply Hbase; [done|]; intros ? ? [= <- <-]; by right|]. split; [done|]. intros k Hk Hlt.
        destruct (Haft k Hk Hlt) as [(? & ? & [= <- <-] & ? & _)|(_ & ? & [= <-] & ?)]; [by transitivity b|done].
      * split; [apply present_spec; by left|]. split; [done|]. intros k Hk Hlt.
        destruct (Haft k Hk Hlt) as [(? & ? & [= <- <-] & ? & _)|(_ & ? & [= <-] & ?)]; [done|].
        transitivity a; [by apply key_lt_le|done].
    + case_decide as Hab.
      * split; [apply Hbase; [done|]; intros ? ? [= <- <-]; by left|]. split; [done|]. intros k Hk Hlt.
        destruct (Haft k Hk Hlt) as [(? & ? & [= <- <-] & ? & _)|(_ & ? & [= <-] & ?)]; [|done].
        transitivity b; [by apply key_lt_le|done].
      * split; [done|]. intros o. apply Hskip; [done|by intros ? [= <-]].
    + split; [by apply Hbase|]. split; [done|]. intros k Hk Hlt.
      by destruct (Haft k Hk Hlt) as [(? & ? & ? & _)|(_ & ? & [= <-] & ?)].
  - cbn [negb]. destruct (head (btree_after key (btree self))) as [[b [|]]|]; (eexists; split; [done|]); cbv beta iota.
    + destruct Hh as (Hb1 & Hb2 & Hb3). split; [apply present_spec; by left|]. split; [done|].
      intros k Hk Hlt. by destruct (Haft k Hk Hlt) as [(? & ? & [= <- <-] & ? & _)|(_ & ? & ? & _)].
    + destruct Hh as (_ & Hb2 & _). apply (Hskip b); [done|done|]. by apply next_inserted, Hnone.
    + intros k Hk. destruct (decide (key_le k key)) as [?|Hlt]; [done|].
      by destruct (Haft k Hk Hlt) as [(? & ? & ? & _)|(_ & ? & ? & _)].
Qed.

Lemma next_key_loop_spec fuel key :
  (length (btree_after key (btree self)) < fuel)%nat ->
  exists r, next_key_loop fuel self base key = Some r /\ is_next present key r.
Proof.
  revert key. induction fuel as [|fuel IH]; intros key Hf; [lia|]. cbn [next_key_loop].
  destruct (storage_next_key_step key) as (r & -> & Hr). destruct r as [k|b]; [by exists k|].
  destruct Hr as [Hb Hr]. destruct (IH b) as (r & -> & H2); [|exists r; split; [done|by apply Hr]].
  pose proof (head_after (btree self) key) as Hh. rewrite Hb in Hh. destruct Hh as (H3 & H4 & _).
  apply (Nat.lt_le_trans _ (length (btree_after key (btree self)))); [|lia].
  apply (length_filter_strict _ _ _ (b, false)); cbn [fst].
  - intros [k v]. cbn [fst]. intros Hk Hle. apply Hk. transitivity key; [done|by apply key_lt_le].
  - by apply elem_of_btree_iter.
  - done.
  - intros Hnn. apply Hnn. by destruct (total key_le b b).
Qed.

End next_key.

Lemma btree_after_size {V} (m : gmap bytes V) key : (length (btree_after key m) <= size m)%nat.
Proof.
  unfold btree_after. etransitivity; [apply length_filter|]. unfold btree_iter.
  by rewrite merge_sort_Permutation, length_map_to_list.
Qed.

Lemma storage_next_key_spec' self base (key : list Z) :
  diff_ok self ->
  next_key_loop (S (size (btree self))) self base key = Some (next_key (apply_diff self base) key).
Proof.
  intros Hok. destruct (next_key_loop_spec self base Hok (S (size (btree self))) key) as (r & -> & Hr).
  - pose proof (btree_after_size (btree self) key). lia.
  - f_equal. eapply is_next_unique; [done|]. apply next_key_spec.
Qed.

(** The search of the next key with [storage_next_key], asking the base
    storage again as long as it answers [NextOf], does not panic, ends after at
    most one more question than the diff has entries, and finds the least key
    after the given one of the storage with the diff applied. *)
Theorem storage_next_key_spec self base (key : list Z) :
  diff_ok self ->
  next_key_loop (S (size (btree self))) self base key = Some (next_key (apply_diff self base) key) /\
  is_next (fun k => is_Some (apply_diff self base !! k)) key (next_key (apply_diff self base) key).
Proof. intros Hok. split; [by apply storage_next_key_spec'|apply next_key_spec]. Qed.

(** ** The keys of a prefix *)

(** The keys of a storage that start with [prefix], in order. *)
Definition prefix_keys {V} (m : gmap bytes V) (prefix : bytes) : list bytes :=
  filter (fun k => starts_with k prefix = true) (fst <$> btree_iter m).

Lemma fst_sorted {V} (l : list (bytes * V)) : StronglySorted entry_le l -> StronglySorted key_le l.*1.
Proof.
  induction 1 as [|[k v] l Hl IH Hall]; cbn; [constructor|]. constructor; [done|].
  apply Forall_forall. intros k' ([k2 v2] & -> & Hin)%list_elem_of_fmap. by apply (proj1 (Forall_forall _ _) Hall (k2, v2)).
Qed.

Lemma elem_of_keys {V} (m : gmap bytes V) k : k ∈ (btree_iter m).*1 <-> is_Some (m !! k).
Proof.
  rewrite list_elem_of_fmap. split.
  - intros ([k' v] & -> & Hin). exists v. by apply elem_of_btree_iter.
  - intros [v Hv]. exists (k, v). split; [done|]. by apply elem_of_btree_iter.
Qed.

Lemma elem_of_prefix_keys {V} (m : gmap bytes V) prefix k :
  k ∈ prefix_keys m prefix <-> starts_with k prefix = true /\ is_Some (m !! k).
Proof. unfold prefix_keys. by rewrite list_elem_of_filter, elem_of_keys. Qed.

Lemma prefix_keys_sorted {V} (m : gmap bytes V) prefix :
  StronglySorted key_le (prefix_keys m prefix) /\ NoDup (prefix_keys m prefix).
Proof.
  split; [apply StronglySorted_filter, fst_sorted, btree_iter_sorted | apply NoDup_filter, btree_iter_NoDup].
Qed.

(** The keys with a prefix are an interval that starts at the prefix. *)
Lemma starts_with_le k prefix : starts_with k prefix = true -> key_le prefix k.
Proof.
  revert k. induction prefix as [|p prefix IH]; intros [|x k]; cbn; try done.
  intros [->%Z.eqb_eq ?]%andb_prop. right. split; [done|]. by apply IH.
Qed.

Lemma starts_with_between a b prefix :
  key_le prefix a -> key_le a b -> starts_with b prefix = true -> starts_with a prefix = true.
Proof.
  revert a b. induction prefix as [|p prefix IH]; intros [|x a] [|y b]; cbn; try done.
  intros [?|[<- Hp]] [?|[? Hab]] [Hy%Z.eqb_eq Hb]%andb_prop; try lia. subst y. rewrite Z.eqb_refl. cbn. by apply (IH a b).
Qed.

Lemma take_while_filter {V} prefix (l : list (bytes * V)) :
  StronglySorted entry_le l -> Forall (fun kv => key_le prefix (fst kv)) l ->
  take_while (fun kv => starts_with (fst kv) prefix) l = filter (fun kv => starts_with (fst kv) prefix = true) l.
Proof.
  induction 1 as [|x l Hl IH Hx]; [done|]. intros [Hp Hps]%Forall_cons. cbn [take_while]. rewrite filter_cons.
  destruct (starts_with (fst x) prefix) eqn:Ex.
  - rewrite decide_True by done. by rewrite IH.
  - rewrite decide_False by done.
    assert (Hnone : forall y, y ∈ filter (fun kv : bytes * V => starts_with (fst kv) prefix = true) l -> False).
    { intros y [Hy Hin]%list_elem_of_filter. rewrite Forall_forall in Hx. specialize (Hx y Hin).
      by rewrite (starts_with_between _ _ _ Hp Hx Hy) in Ex. }
    destruct (filter _ l) as [|y f]; [done|]. exfalso. apply (Hnone y). left.
Qed.

(** The two sorted lists are merged. *)
Lemma from_fn_spec fuel l1 l2 :
  (length l1 + length l2 <= fuel)%nat -> StronglySorted key_le l1 -> StronglySorted key_le l2 ->
  StronglySorted key_le (from_fn fuel l1 l2) /\ from_fn fuel l1 l2 ≡ₚ l1 ++ l2.
Proof.
  revert l1 l2. induction fuel as [|fuel IH]; intros l1 l2 Hf Hs1 Hs2.
  - destruct l1, l2; cbn in *; try lia. by split.
  - cbn [from_fn]. destruct l1 as [|a l1], l2 as [|b l2]; cbn [prefix_keys_next length] in *; [by split| | |].
    + inversion Hs2 as [|? ? Hs2' Hb]; subst. destruct (IH [] l2) as [H1 H2]; [cbn; lia|done|done|].
      split; [|by rewrite H2]. constructor; [done|]. by rewrite H2.
    + inversion Hs1 as [|? ? Hs1' Ha]; subst. destruct (IH l1 []) as [H1 H2]; [cbn; lia|done|done|].
      split; [|by rewrite H2]. constructor; [done|]. by rewrite H2, app_nil_r.
    + inversion Hs1 as [|? ? Hs1' Ha]; inversion Hs2 as [|? ? Hs2' Hb]; subst. case_decide as Hab.
      * destruct (IH l1 (b :: l2)) as [H1 H2]; [cbn; lia|done|done|]. split; [|by rewrite H2].
        constructor; [done|]. apply key_lt_le in Hab. rewrite H2, Forall_app, Forall_cons. split; [done|]. split; [done|].
        eapply Forall_impl; [done|]. intros x Hx. by transitivity b.
      * destruct (IH (a :: l1) l2) as [H1 H2]; [cbn; lia|done|done|]. split; [|by rewrite H2, <- Permutation_middle].
        constructor; [done|]. rewrite H2. cbn [app]. rewrite Forall_cons, Forall_app. split; [done|]. split; [|done].
        eapply Forall_impl; [done|]. intros x Hx. by transitivity a.
Qed.

Lemma storage_prefix_keys_spec' self base (prefix : list Z) :
  diff_ok self ->
  storage_prefix_keys_ordered self prefix (prefix_keys base prefix) = prefix_keys (apply_diff self base) prefix.
Proof.
  intros Hok. unfold storage_prefix_keys_ordered.
  assert (Hfrom : StronglySorted entry_le (btree_from prefix (btree self))) by apply StronglySorted_filter, btree_iter_sorted.
  rewrite (take_while_filter prefix _ Hfrom); [|by apply Forall_forall; intros x [? _]%list_elem_of_filter].
  set (ins := fst <$> filter _ _). set (kept := filter _ (prefix_keys base prefix)).
  assert (Hins : forall k, k ∈ ins <-> starts_with k prefix = true /\ btree self !! k = Some true).
  { intros k. unfold ins, btree_from. rewrite list_elem_of_fmap. split.
    - intros ([k' v] & -> & Hin). rewrite !list_elem_of_filter, elem_of_btree_iter in Hin. cbn in *. by destruct Hin as (-> & ? & _ & ?).
    - intros [H1 H2]. exists (k, true). split; [done|]. rewrite !list_elem_of_filter, elem_of_btree_iter. cbn [fst snd].
      split; [done|]. split; [done|]. split; [by apply starts_with_le|done]. }
  assert (Hkept : forall k, k ∈ kept <-> btree self !! k = None /\ starts_with k prefix = true /\ is_Some (base !! k)).
  { intros k. unfold kept. by rewrite list_elem_of_filter, elem_of_prefix_keys. }
  assert (Hs : StronglySorted key_le ins) by apply fst_sorted, StronglySorted_filter, StronglySorted_filter, Hfrom.
  assert (Hnd : NoDup ins).
  { apply (sublist_NoDup _ (btree_iter (btree self)).*1); [apply btree_iter_NoDup|]. apply fmap_sublist.
    by unfold btree_from; rewrite !sublist_filter. }
  destruct (prefix_keys_sorted base prefix) as [Hps Hpn].
  destruct (from_fn_spec (length kept + length ins) kept ins) as [H1 H2]; [done|by apply StronglySorted_filter|done|].
  destruct (prefix_keys_sorted (apply_diff self base) prefix) as [Hqs Hqn].
  apply sorted_ext; [done|done| |done|].
  - rewrite H2. apply NoDup_app. split; [by apply NoDup_filter|]. split; [|done].
    intros k [? _]%Hkept [_ ?]%Hins. congruence.
  - intros k. rewrite H2, elem_of_app, Hins, Hkept, elem_of_prefix_keys.
    change (is_Some (apply_diff self base !! k)) with (present self base k). rewrite present_spec by done. tauto.
Qed.

(** Given the ordered keys of the base with a prefix,
    [storage_prefix_keys_ordered] lists exactly the keys with that prefix of the
    storage with the diff applied, each once and in lexicographic order. *)
Theorem storage_prefix_keys_spec self base (prefix : list Z) :
  diff_ok self ->
  let keys := storage_prefix_keys_ordered self prefix (prefix_keys base prefix) in
  StronglySorted key_le keys /\ NoDup keys /\
  forall k, k ∈ keys <-> starts_with k prefix = true /\ is_Some (apply_diff self base !! k).
Proof.
  intros Hok keys. unfold keys. rewrite storage_prefix_keys_spec' by done.
  destruct (prefix_keys_sorted (apply_diff self base) prefix). split; [done|]. split; [done|]. apply elem_of_prefix_keys.
Qed.

(** ** A concrete difference *)

Definition example_diff : StorageDiff :=
  StorageDiff_from_iter [([1; 2], Some [9]); ([1; 5], None); ([3], Some [])].
Definition example_base : gmap (list Z) (list Z) := {[ [1; 5] := [7]; [1; 7] := [8] ]}.

Lemma diff_operations_spec_witness :
  apply_diff (snd (diff_insert_erase example_diff [1; 7])) example_base = delete [1; 7] (apply_diff example_diff example_base).
Proof.
  destruct (diff_operations_spec example_diff StorageDiff_empty example_base [1; 7] [] (from_iter_ok _)) as (_ & (_ & _ & H1) & _).
  exact H1.
Defined.

Lemma storage_next_key_spec_witness :
  next_key_loop 4 example_diff example_base [1; 3] = Some (Some [1; 7]).
Proof.
  destruct (storage_next_key_spec example_diff example_base [1; 3] (from_iter_ok _)) as [H1 _].
  transitivity (next_key_loop (S (size (btree example_diff))) example_diff example_base [1; 3]); [by vm_compute|].
  rewrite H1. by vm_compute.
Defined.

Lemma storage_prefix_keys_spec_witness :
  NoDup (storage_prefix_keys_ordered example_diff [1] (prefix_keys example_base [1])) /\
  storage_prefix_keys_ordered example_diff [1] (prefix_keys example_base [1]) = [[1; 2]; [1; 7]].
Proof.
  destruct (storage_prefix_keys_spec example_diff example_base [1] (from_iter_ok _)) as (_ & H1 & _).
  split; [exact H1|by vm_compute].
Defined.
