(* ===== verification/RuntimeStorage.v ===== *)
(** * The storage of a runtime call ([src/src/executor/runtime_host.rs])

    The virtual machine of a runtime call asks for storage operations; [Inner]
    keeps the changes of the call as a [StorageDiff], and within a transaction the
    entries to restore. The operations of this file are the arms of [Inner::run]
    that touch the storage, together with the [inject_*] methods by which the
    embedder answers from the base storage.

    The request that the virtual machine makes is the argument of the operation.
    The cache of the root calculation is behind the class [CalculationCache], of
    which the source uses two functions. The virtual machine, the calculation of
    the root and the logs are not modelled. A panic is [None].

    The calls are shown to implement a storage with one level of transaction
    ([abs_step]), except for the append of a value that is not in the changes,
    which the transaction does not record. *)

From S2P Require Import Prelude Scale BTree StorageDiff.

Open Scope Z_scope.

(** ** Appending to an encoded list *)

Section append.
Context `{Platform}.

(** [value.insert(0, 0)], [n] times; a vector of more than [isize::MAX] bytes panics. *)
Definition insert_zeros (n : usize) (value : list u8) : option (list u8) :=
  if n + len value <? 2 ^ (usize_bits - 1) then Some (replicate (Z.to_nat n) 0 ++ value) else None.

Definition append_to_storage_value (value to_add : list u8) : option (list u8) :=
  let fresh := encode_scale_compact_usize 1 ++ to_add in
  match nom_scale_compact_usize value with
  | Err _ => Some fresh
  | Ok (rest, curr_len) =>
      let curr_len_encoded_size := wsub usize_bits (len value) (len rest) in
      match checked_add usize_bits curr_len 1 with
      | None => Some fresh
      | Some new_len =>
          let new_len_encoded := encode_scale_compact_usize new_len in
          let new_len_encoded_size := len new_len_encoded in
          let! value := insert_zeros (wsub usize_bits new_len_encoded_size curr_len_encoded_size) value in
          if len value <? new_len_encoded_size then None
          else Some (new_len_encoded ++ drop (Z.to_nat new_len_encoded_size) value ++ to_add)
      end
  end.

End append.

(** ** State *)

(** What is used of [calculate_root::CalculationCache]. *)
Class CalculationCache (TCache : Type) := {
  cache_default : TCache;
  storage_value_update : list Z -> bool -> TCache -> TCache
}.

Section inner.
Context `{Platform} {TCache : Type} `{CalculationCache TCache}.

Record Inner := mkInner {
  top_trie_changes : StorageDiff;
  top_trie_transaction_revert : option (gmap (list Z) (option (option (list Z))));
  offchain_storage_changes : StorageDiff;
  top_trie_root_calculation_cache : option TCache
}.

(** [run]: the state at the start of a call. *)
Definition Inner_start (storage_top_trie_changes offchain : StorageDiff) (cache : option TCache) : Inner :=
  {| top_trie_changes := storage_top_trie_changes; top_trie_transaction_revert := None;
     offchain_storage_changes := offchain;
     top_trie_root_calculation_cache := Some (default cache_default cache) |}.

Definition set_changes (d : StorageDiff) (self : Inner) : Inner :=
  {| top_trie_changes := d; top_trie_transaction_revert := top_trie_transaction_revert self;
     offchain_storage_changes := offchain_storage_changes self;
     top_trie_root_calculation_cache := top_trie_root_calculation_cache self |}.

(** [cache.as_mut().unwrap().storage_value_update(key, has_value)]. *)
Definition update_cache (key : list Z) (has_value : bool) (self : Inner) : option Inner :=
  let! cache := top_trie_root_calculation_cache self in
  Some {| top_trie_changes := top_trie_changes self;
          top_trie_transaction_revert := top_trie_transaction_revert self;
          offchain_storage_changes := offchain_storage_changes self;
          top_trie_root_calculation_cache := Some (storage_value_update key has_value cache) |}.

(** Within a transaction, the entry is recorded if the key has none yet. *)
Definition record_revert (key : list Z) (previous_value : option (option (list Z))) (self : Inner) : Inner :=
  match top_trie_transaction_revert self with
  | None => self
  | Some revert =>
      {| top_trie_changes := top_trie_changes self;
         top_trie_transaction_revert :=
           Some match revert !! key with
                | Some _ => revert
                | None => <[key := previous_value]> revert
                end;
         offchain_storage_changes := offchain_storage_changes self;
         top_trie_root_calculation_cache := top_trie_root_calculation_cache self |}
  end.

(** ** Operations *)

(** [ExternalStorageGet]: the value of the changes, or the one the embedder injects. *)
Definition external_storage_get (self : Inner) (key : list Z) : option (option (list Z)) :=
  diff_get (top_trie_changes self) key.

Definition external_storage_set (self : Inner) (key : list Z) (value : option (list Z)) : option Inner :=
  let! self := update_cache key (bool_decide (is_Some value)) self in
  let '(previous_value, changes) :=
    match value with
    | Some value => diff_insert (top_trie_changes self) key value
    | None => diff_insert_erase (top_trie_changes self) key
    end in
  Some (record_revert key previous_value (set_changes changes self)).

(** [ExternalStorageAppend]: [Resumed], or the value must first be injected. *)
Inductive RunOutcome :=
  | Resumed (self : Inner)
  | StorageGet (self : Inner).

Definition external_storage_append (self : Inner) (key value : list Z) : option RunOutcome :=
  let! self := update_cache key true self in
  match diff_get (top_trie_changes self) key with
  | Some current_value =>
      let! current_value := append_to_storage_value (default [] current_value) value in
      let '(previous_value, changes) := diff_insert (top_trie_changes self) key current_value in
      Some (Resumed (record_revert key previous_value (set_changes changes self)))
  | None => Some (StorageGet self)
  end.

(** [StorageGet::inject_value] for an append. *)
Definition inject_append (self : Inner) (key to_add : list Z) (value : option (list Z)) : option Inner :=
  let! value := append_to_storage_value (default [] value) to_add in
  Some (set_changes (snd (diff_insert (top_trie_changes self) key value)) self).

(** The loop that collects the keys to remove: the keys, their number, and
    whether some remain. *)
Fixpoint keys_to_remove (max_keys_to_remove : option u32) (keys_removed_so_far : u32) (after_overlay : list (list Z))
    : list (list Z) * u32 * bool :=
  if match max_keys_to_remove with Some max => max <=? keys_removed_so_far | None => false end
  then ([], keys_removed_so_far, match after_overlay with [] => false | _ :: _ => true end)
  else match after_overlay with
       | [] => ([], keys_removed_so_far, false)
       | k :: after_overlay =>
           let '(keys, n, remain) := keys_to_remove max_keys_to_remove (wadd 32 keys_removed_so_far 1) after_overlay in
           (k :: keys, n, remain)
       end.

(** One turn of the loop that removes them. *)
Definition remove_key (self : Inner) (key : list Z) : option Inner :=
  let! self := update_cache key false self in
  let '(previous_value, changes) := diff_insert_erase (top_trie_changes self) key in
  Some (record_revert key previous_value (set_changes changes self)).

Fixpoint remove_keys (self : Inner) (keys : list (list Z)) : option Inner :=
  match keys with
  | [] => Some self
  | key :: keys => let! self := remove_key self key in remove_keys self keys
  end.

(** [PrefixKeys::inject_keys_ordered] for [ExternalStorageClearPrefix]. *)
Definition clear_prefix (self : Inner) (prefix : list Z) (max_keys_to_remove : option u32) (keys : list (list Z))
    : option (Inner * u32 * bool) :=
  let after_overlay := storage_prefix_keys_ordered (top_trie_changes self) prefix keys in
  let '(to_remove, keys_removed_so_far, some_keys_remain) := keys_to_remove max_keys_to_remove 0 after_overlay in
  let! self := remove_keys self to_remove in
  Some (self, keys_removed_so_far, some_keys_remain).

(** [PrefixKeys::inject_keys_ordered] for [ExternalStorageRoot]: the keys of the
    storage, for the calculation of the root. *)
Definition root_keys (self : Inner) (keys : list (list Z)) : gset (list Z) :=
  let kept := filter (fun v => diff_get (top_trie_changes self) v <> Some None) keys in
  foldl (fun list '(key, value) => match value with None => list | Some _ => {[key]} ∪ list end)
    (list_to_set kept) (diff_iter_unordered (top_trie_changes self)).

Definition external_offchain_storage_set (self : Inner) (key : list Z) (value : option (list Z)) : Inner :=
  {| top_trie_changes := top_trie_changes self;
     top_trie_transaction_revert := top_trie_transaction_revert self;
     offchain_storage_changes :=
       match value with
       | Some value => snd (diff_insert (offchain_storage_changes self) key value)
       | None => snd (diff_insert_erase (offchain_storage_changes self) key)
       end;
     top_trie_root_calculation_cache := top_trie_root_calculation_cache self |}.

Definition start_storage_transaction (self : Inner) : Inner :=
  {| top_trie_changes := top_trie_changes self; top_trie_transaction_revert := Some ∅;
     offchain_storage_changes := offchain_storage_changes self;
     top_trie_root_calculation_cache := top_trie_root_calculation_cache self |}.

(** The loop of a rollback, over the recorded entries. *)
Definition revert_entry (changes : StorageDiff) (entry : list Z * option (option (list Z))) : StorageDiff :=
  let '(key, value) := entry in
  match value with
  | Some (Some value) => snd (diff_insert changes key value)
  | Some None => snd (diff_insert_erase changes key)
  | None => snd (diff_remove changes key)
  end.

Definition end_storage_transaction (self : Inner) (rollback : bool) : option Inner :=
  if rollback then
    let! revert := top_trie_transaction_revert self in
    Some {| top_trie_changes := foldl revert_entry (top_trie_changes self) (map_to_list revert);
            top_trie_transaction_revert := None;
            offchain_storage_changes := offchain_storage_changes self;
            top_trie_root_calculation_cache := Some cache_default |}
  else
    Some {| top_trie_changes := top_trie_changes self; top_trie_transaction_revert := None;
            offchain_storage_changes := offchain_storage_changes self;
            top_trie_root_calculation_cache := top_trie_root_calculation_cache self |}.

(** ** Requests, answered from the base storage *)

Inductive Request :=
  | RGet (key : list Z)
  | RSet (key : list Z) (value : option (list Z))
  | RAppend (key value : list Z)
  | RClearPrefix (prefix : list Z) (max_keys_to_remove : option u32)
  | RRootKeys
  | RNextKey (key : list Z)
  | ROffchainSet (key : list Z) (value : option (list Z))
  | RStart
  | REnd (rollback : bool).

Inductive Response :=
  | Done
  | Value (value : option (list Z))
  | Removed (keys_removed_so_far : u32) (some_keys_remain : bool)
  | Keys (keys : gset (list Z))
  | Next (key : option (list Z)).

(** One request, with the questions to the embedder it leads to. *)
Definition step (base : gmap (list Z) (list Z)) (self : Inner) (r : Request) : option (Inner * Response) :=
  match r with
  | RGet key =>
      Some (self, Value (match external_storage_get self key with Some overlay => overlay | None => base !! key end))
  | RSet key value => let! self := external_storage_set self key value in Some (self, Done)
  | RAppend key value =>
      let! outcome := external_storage_append self key value in
      match outcome with
      | Resumed self => Some (self, Done)
      | StorageGet self => let! self := inject_append self key value (base !! key) in Some (self, Done)
      end
  | RClearPrefix prefix max =>
      let! (self, n, remain) := clear_prefix self prefix max (prefix_keys base prefix) in
      Some (self, Removed n remain)
  | RRootKeys => Some (self, Keys (root_keys self (prefix_keys base [])))
  | RNextKey key =>
      let! k := next_key_loop (S (size (btree (top_trie_changes self)))) (top_trie_changes self) base key in
      Some (self, Next k)
  | ROffchainSet key value => Some (external_offchain_storage_set self key value, Done)
  | RStart => Some (start_storage_transaction self, Done)
  | REnd rollback => let! self := end_storage_transaction self rollback in Some (self, Done)
  end.

Fixpoint run_requests (base : gmap (list Z) (list Z)) (self : Inner) (rs : list Request)
    : option (Inner * list Response) :=
  match rs with
  | [] => Some (self, [])
  | r :: rs =>
      let! (self, o) := step base self r in
      let! (self, out) := run_requests base self rs in
      Some (self, o :: out)
  end.

End inner.

Arguments Inner : clear implicits.
Arguments RunOutcome : clear implicits.

(** ** Specification: a storage with one level of transaction *)

Section spec.
Context `{Platform}.

Record Storage := mkStorage {
  current : gmap (list Z) (list Z);
  saved : option (gmap (list Z) (list Z))
}.

Definition set_current (m : gmap (list Z) (list Z)) (s : Storage) : Storage := mkStorage m (saved s).

(** The number of keys to remove of [n], given a limit. *)
Definition to_remove (max : option u32) (n : Z) : Z := match max with Some m => Z.min m n | None => n end.

Definition abs_step (s : Storage) (r : Request) : option (Storage * Response) :=
  match r with
  | RGet key => Some (s, Value (current s !! key))
  | RSet key (Some value) => Some (set_current (<[key := value]> (current s)) s, Done)
  | RSet key None => Some (set_current (delete key (current s)) s, Done)
  | RAppend key value =>
      let! v := append_to_storage_value (default [] (current s !! key)) value in
      Some (set_current (<[key := v]> (current s)) s, Done)
  | RClearPrefix prefix max =>
      let keys := prefix_keys (current s) prefix in
      let n := to_remove max (len keys) in
      Some (set_current (foldr delete (current s) (take (Z.to_nat n) keys)) s, Removed (wrap 32 n) (n <? len keys))
  | RRootKeys => Some (s, Keys (dom (current s)))
  | RNextKey key => Some (s, Next (next_key (current s) key))
  | ROffchainSet _ _ => Some (s, Done)
  | RStart => match saved s with None => Some (mkStorage (current s) (Some (current s)), Done) | Some _ => None end
  | REnd rollback =>
      let! m := saved s in
      Some (mkStorage (if rollback then m else current s) None, Done)
  end.

Fixpoint abs_run (s : Storage) (rs : list Request) : option (Storage * list Response) :=
  match rs with
  | [] => Some (s, [])
  | r :: rs =>
      let! (s, o) := abs_step s r in
      let! (s, out) := abs_run s rs in
      Some (s, o :: out)
  end.

End spec.

(** ** Simulation *)

Section simulation.
Context `{Platform} {TCache : Type} `{CalculationCache TCache}.
Context (base : gmap (list Z) (list Z)).
Implicit Types (self : Inner TCache) (s : Storage) (d : StorageDiff).

(** Restoring the recorded entries gives the difference at the start of the
    transaction. *)
Definition reverts (revert : gmap (list Z) (option (option (list Z)))) d d0 : Prop :=
  forall k, match revert !! k with
            | Some p => hashmap d0 !! k = p
            | None => hashmap d !! k = hashmap d0 !! k
            end.

Definition transaction_ok (revert : option (gmap (list Z) (option (option (list Z))))) d
    (saved : option (gmap (list Z) (list Z))) : Prop :=
  match revert, saved with
  | None, None => True
  | Some revert, Some m => exists d0, apply_diff d0 base = m /\ reverts revert d d0
  | _, _ => False
  end.

Record related self s : Prop := mkRelated {
  related_diff : diff_ok (top_trie_changes self);
  related_current : apply_diff (top_trie_changes self) base = current s;
  related_cache : is_Some (top_trie_root_calculation_cache self);
  related_saved : transaction_ok (top_trie_transaction_revert self) (top_trie_changes self) (saved s)
}.

Lemma apply_diff_ext d d' : hashmap d = hashmap d' -> apply_diff d base = apply_diff d' base.
Proof. intros Hd. unfold apply_diff. by rewrite Hd. Qed.

Lemma apply_diff_set d d' k v :
  hashmap d' = <[k := v]> (hashmap d) -> apply_diff d' base = partial_alter (fun _ => v) k (apply_diff d base).
Proof.
  intros Hd. apply map_eq. intros k'. rewrite lookup_apply_diff. unfold storage_get. rewrite Hd.
  destruct (decide (k = k')) as [->|]; [by rewrite lookup_insert_eq, lookup_partial_alter_eq|].
  rewrite lookup_insert_ne, lookup_partial_alter_ne by done. by rewrite lookup_apply_diff.
Qed.

Lemma update_cache_related self s key b :
  related self s ->
  exists self', update_cache key b self = Some self' /\ related self' s /\
    top_trie_changes self' = top_trie_changes self /\
    top_trie_transaction_revert self' = top_trie_transaction_revert self.
Proof.
  intros [H1 H2 [c Hc] H4]. unfold update_cache. rewrite Hc. eexists. split; [done|].
  split; [|done]. by constructor; [| |eexists|].
Qed.

(** A write, recorded in the transaction. *)
Lemma write_related self s k v d' :
  related self s -> diff_ok d' -> hashmap d' = <[k := v]> (hashmap (top_trie_changes self)) ->
  related (record_revert k (hashmap (top_trie_changes self) !! k) (set_changes d' self))
    (set_current (partial_alter (fun _ => v) k (current s)) s).
Proof.
  intros [H1 H2 H3 H4] Hok Hd. unfold record_revert, set_changes. cbn [top_trie_transaction_revert].
  assert (Hcur : apply_diff d' base = partial_alter (fun _ => v) k (current s)) by (by rewrite <- H2; apply apply_diff_set).
  destruct (top_trie_transaction_revert self) as [revert|] eqn:Er; [|by constructor; cbn; rewrite ?Er].
  constructor; [done|done|done|]. cbn. unfold transaction_ok in *. destruct (saved s) as [m|]; [|done].
  destruct H4 as (d0 & Hm & Hrev). exists d0. split; [done|]. intros k'. specialize (Hrev k').
  destruct (revert !! k) as [p|] eqn:Ek.
  - destruct (revert !! k') eqn:Ek'; [done|]. rewrite Hd, lookup_insert_ne by congruence. done.
  - destruct (decide (k = k')) as [->|Hne].
    + rewrite lookup_insert_eq. by rewrite Ek in Hrev.
    + rewrite lookup_insert_ne by done. destruct (revert !! k') eqn:Ek'; [done|]. by rewrite Hd, lookup_insert_ne.
Qed.

(** A write outside of a transaction needs no record. *)
Lemma write_unrecorded self s k v d' :
  related self s -> top_trie_transaction_revert self = None -> diff_ok d' ->
  hashmap d' = <[k := v]> (hashmap (top_trie_changes self)) ->
  related (set_changes d' self) (set_current (partial_alter (fun _ => v) k (current s)) s).
Proof.
  intros Hr Hn Hok Hd. pose proof (write_related self s k v d' Hr Hok Hd) as Hw.
  unfold record_revert in Hw. cbn [set_changes top_trie_transaction_revert] in Hw. by rewrite Hn in Hw.
Qed.

Lemma remove_key_related self s key :
  related self s ->
  exists self', remove_key self key = Some self' /\ related self' (set_current (delete key (current s)) s).
Proof.
  intros Hr. unfold remove_key. destruct (update_cache_related self s key false Hr) as (self' & -> & Hr' & Hd & _).
  eexists. split; [done|]. apply write_related; [done|apply (diff_insert_erase_ok _ key), Hr'|done].
Qed.

Lemma external_storage_set_related self s key value :
  related self s ->
  exists self', external_storage_set self key value = Some self' /\
    related self' (set_current (partial_alter (fun _ => value) key (current s)) s).
Proof.
  intros Hr. unfold external_storage_set.
  destruct (update_cache_related self s key (bool_decide (is_Some value)) Hr) as (self' & -> & Hr' & Hd & _).
  destruct value as [v|]; (eexists; split; [done|]).
  - apply write_related; [done|apply (diff_insert_ok _ key v), Hr'|done].
  - apply write_related; [done|apply (diff_insert_erase_ok _ key), Hr'|done].
Qed.

Lemma remove_keys_related self s keys :
  related self s ->
  exists self', remove_keys self keys = Some self' /\ related self' (set_current (foldr delete (current s) keys) s).
Proof.
  revert self s. induction keys as [|key keys IH]; intros self s Hr; cbn [remove_keys foldr].
  - exists self. split; [done|]. by destruct s.
  - destruct (remove_key_related self s key Hr) as (self1 & -> & Hr1).
    destruct (IH self1 _ Hr1) as (self2 & -> & Hr2). eexists. split; [done|].
    assert (Hcomm : forall m : gmap (list Z) (list Z), foldr delete (delete key m) keys = delete key (foldr delete m keys)).
    { intros m. clear. induction keys as [|k keys IH]; [done|]. cbn. rewrite IH. apply delete_delete. }
    cbn [set_current current saved] in Hr2. unfold set_current in *. cbn in Hr2. by rewrite Hcomm in Hr2.
Qed.

Lemma keys_to_remove_spec max n0 l :
  0 <= n0 -> match max with Some m => n0 <= m < 2 ^ 32 | None => True end ->
  let n := to_remove ((fun m => m - n0) <$> max) (len l) in
  keys_to_remove max (wrap 32 n0) l = (take (Z.to_nat n) l, wrap 32 (n0 + n), n <? len l).
Proof.
  revert n0. induction l as [|k l IH]; intros n0 Hn0 Hmax.
  - cbn [keys_to_remove]. replace (to_remove _ _) with 0 by (destruct max; cbn in *; unfold len; cbn; lia).
    rewrite Z.add_0_r. by destruct (match max with Some m => _ | None => _ end).
  - pose proof (len_nonneg l). destruct max as [m|]; cbn [keys_to_remove fmap option_fmap option_map to_remove] in *.
    + rewrite (wrap_small 32 n0) by (unfold is_uint; lia). destruct (Z.leb_spec m n0).
      * replace (Z.min (m - n0) (len (k :: l))) with 0 by (len_lia).
        rewrite Z.add_0_r, wrap_small by (unfold is_uint; lia). cbn [take Z.to_nat]. done.
      * unfold wadd. specialize (IH (n0 + 1) ltac:(lia) ltac:(lia)). rewrite IH. cbn [to_remove].
        rewrite len_cons. replace (Z.min (m - n0) (1 + len l)) with (1 + Z.min (m - (n0 + 1)) (len l)) by lia.
        set (n := Z.min (m - (n0 + 1)) (len l)). replace (Z.to_nat (1 + n)) with (S (Z.to_nat n)) by lia. cbn [take].
        replace (n0 + 1 + n) with (n0 + (1 + n)) by lia. f_equal. destruct (Z.ltb_spec n (len l)), (Z.ltb_spec (1 + n) (1 + len l)); (done || lia).
    + unfold wadd. assert (Hw : wrap 32 (wrap 32 n0 + 1) = wrap 32 (n0 + 1)) by (unfold wrap; apply Zplus_mod_idemp_l).
      rewrite Hw, (IH (n0 + 1)) by (done || lia). cbn [to_remove]. rewrite len_cons.
      replace (Z.to_nat (1 + len l)) with (S (Z.to_nat (len l))) by lia. cbn [take].
      replace (n0 + 1 + len l) with (n0 + (1 + len l)) by lia. f_equal. by rewrite !Z.ltb_irrefl.
Qed.

Lemma clear_prefix_related self s prefix max :
  related self s -> match max with Some m => 0 <= m < 2 ^ 32 | None => True end ->
  let keys := prefix_keys (current s) prefix in
  let n := to_remove max (len keys) in
  exists self', clear_prefix self prefix max (prefix_keys base prefix) = Some (self', wrap 32 n, n <? len keys) /\
    related self' (set_current (foldr delete (current s) (take (Z.to_nat n) keys)) s).
Proof.
  intros Hr Hmax keys n. unfold clear_prefix.
  rewrite (storage_prefix_keys_spec' _ _ _ (related_diff _ _ Hr)), (related_current _ _ Hr). fold keys.
  change 0 with (wrap 32 0). rewrite keys_to_remove_spec by (done || (destruct max; lia)).
  replace (to_remove _ (len keys)) with n by (unfold n; destruct max; cbn; [by rewrite Z.sub_0_r|done]).
  destruct (remove_keys_related self s (take (Z.to_nat n) keys) Hr) as (self' & -> & Hr').
  by exists self'.
Qed.

(** Restoring the entries one by one. *)
Lemma revert_entries_spec (l : list (list Z * option (option (list Z)))) d :
  NoDup l.*1 -> diff_ok d ->
  diff_ok (foldl revert_entry d l) /\
  forall k, hashmap (foldl revert_entry d l) !! k =
    match (list_to_map l : gmap (list Z) (option (option (list Z)))) !! k with Some p => p | None => hashmap d !! k end.
Proof.
  revert d. induction l as [|[key p] l IH]; intros d Hnd Hok; cbn [foldl].
  - split; [done|]. intros k. cbn. by rewrite lookup_empty.
  - cbn in Hnd. apply NoDup_cons in Hnd as [Hk Hnd].
    assert (Hone : diff_ok (revert_entry d (key, p)) /\
              forall k, hashmap (revert_entry d (key, p)) !! k = if decide (k = key) then p else hashmap d !! k).
    { destruct p as [[v|]|]; cbn [revert_entry].
      - split; [by apply diff_insert_ok|]. intros k. cbn. case_decide as Hkk; [subst; by rewrite lookup_insert_eq|by rewrite lookup_insert_ne].
      - split; [by apply diff_insert_erase_ok|]. intros k. cbn. case_decide as Hkk; [subst; by rewrite lookup_insert_eq|by rewrite lookup_insert_ne].
      - split; [by apply diff_remove_ok|]. intros k. cbn. case_decide as Hkk; [subst; by rewrite lookup_delete_eq|by rewrite lookup_delete_ne]. }
    destruct Hone as [H1 H2]. destruct (IH _ Hnd H1) as [H3 H4]. split; [done|]. intros k. rewrite H4, H2. cbn [list_to_map foldr].
    destruct (decide (k = key)) as [->|Hne].
    + rewrite lookup_insert_eq. by rewrite not_elem_of_list_to_map_1.
    + by rewrite lookup_insert_ne by done.
Qed.

Lemma end_transaction_related self s rollback m :
  related self s -> saved s = Some m ->
  exists self', end_storage_transaction self rollback = Some self' /\
    related self' (mkStorage (if rollback then m else current s) None).
Proof.
  intros [H1 H2 H3 H4] Hs. unfold end_storage_transaction. rewrite Hs in H4.
  destruct (top_trie_transaction_revert self) as [revert|]; [|done]. destruct H4 as (d0 & Hm & Hrev).
  destruct rollback; (eexists; split; [done|]); [|by constructor].
  destruct (revert_entries_spec (map_to_list revert) (top_trie_changes self) (NoDup_fst_map_to_list _) H1) as [H5 H6].
  constructor; cbn; [done| |by eexists|done]. rewrite <- Hm. apply apply_diff_ext, map_eq. intros k. rewrite H6, list_to_map_to_list.
  specialize (Hrev k). by destruct (revert !! k).
Qed.

Lemma root_keys_spec self : root_keys self (prefix_keys base []) = dom (apply_diff (top_trie_changes self) base).
Proof.
  unfold root_keys, diff_iter_unordered. apply set_eq. intros k. rewrite elem_of_dom, lookup_apply_diff. unfold storage_get.
  set (kept := filter _ _).
  assert (Hfold : forall l (acc : gset (list Z)),
    k ∈ foldl (fun list '(key, value) => match value with None => list | Some _ => {[key]} ∪ list end) acc l <->
    k ∈ acc \/ exists v : list Z, (k, Some v) ∈ l).
  { induction l as [|[k' [v|]] l IH]; intros acc; cbn [foldl].
    - split; [by left|]. by intros [?|[v ?%not_elem_of_nil]].
    - rewrite IH. set_solver.
    - rewrite IH. set_solver. }
  rewrite Hfold, elem_of_list_to_set. unfold kept. rewrite list_elem_of_filter, elem_of_prefix_keys.
  assert (Hm : (exists v, (k, Some v) ∈ map_to_list (hashmap (top_trie_changes self))) <->
               exists v, hashmap (top_trie_changes self) !! k = Some (Some v)).
  { split; intros [v Hv]; exists v; by apply elem_of_map_to_list. }
  rewrite Hm. unfold diff_get. destruct (hashmap (top_trie_changes self) !! k) as [[v|]|].
  - split; [by eexists|]. intros _. right. by exists v.
  - split; [|by intros [? ?]]. by intros [[? _]|[? ?]].
  - split; [by intros [[_ [_ ?]]|[? ?]]|]. intros Hb. left. split; [done|]. split; [by destruct k|done].
Qed.

(** The append that is not recorded. *)
Definition request_ok self (r : Request) : Prop :=
  match r with
  | RAppend key _ => top_trie_transaction_revert self = None \/ diff_get (top_trie_changes self) key <> None
  | RClearPrefix _ (Some max) => 0 <= max < 2 ^ 32
  | _ => True
  end.

Lemma append_related self s key value v :
  related self s -> request_ok self (RAppend key value) ->
  append_to_storage_value (default [] (current s !! key)) value = Some v ->
  exists self', step base self (RAppend key value) = Some (self', Done) /\
    related self' (set_current (<[key := v]> (current s)) s).
Proof.
  intros Hr Hrec Hv. cbn [step]. unfold external_storage_append.
  destruct (update_cache_related self s key true Hr) as (self1 & -> & Hr1 & Hd & Ht).
  rewrite <- (related_current _ _ Hr1), lookup_apply_diff in Hv. unfold storage_get in Hv.
  unfold diff_get in *. destruct (hashmap (top_trie_changes self1) !! key) as [cur|] eqn:Ek.
  - rewrite Hv. eexists. split; [done|].
    apply (write_related self1 s key (Some v)); [done|apply diff_insert_ok, Hr1|done].
  - unfold inject_append. rewrite Hv. eexists. split; [done|].
    apply (write_unrecorded self1 s key (Some v)); [done| |apply diff_insert_ok, Hr1|done].
    rewrite Ht. cbn [request_ok] in Hrec. unfold diff_get in Hrec. rewrite <- Hd, Ek in Hrec. by destruct Hrec.
Qed.

Lemma step_related self s r s' o :
  related self s -> request_ok self r -> abs_step s r = Some (s', o) ->
  exists self', step base self r = Some (self', o) /\ related self' s'.
Proof.
  intros Hr Hok. destruct r as [key|key value|key value|prefix max| |key|key value| |rollback]; cbn [abs_step].
  - intros [= <- <-]. exists self. split; [|done]. cbn. do 3 f_equal.
    by rewrite <- (related_current _ _ Hr), lookup_apply_diff.
  - intros Hs. destruct (external_storage_set_related self s key value Hr) as (self' & Hset & Hr').
    exists self'. cbn [step]. rewrite Hset. destruct value; by injection Hs as <- <-.
  - destruct (append_to_storage_value _ _) as [v|] eqn:Ev; [|done]. intros [= <- <-]. by apply append_related.
  - intros [= <- <-]. destruct (clear_prefix_related self s prefix max Hr) as (self' & Hc & Hr').
    { by destruct max. }
    exists self'. cbn [step]. by rewrite Hc.
  - intros [= <- <-]. exists self. split; [|done]. cbn [step]. by rewrite root_keys_spec, (related_current _ _ Hr).
  - intros [= <- <-]. exists self. split; [|done]. cbn [step].
    rewrite (storage_next_key_spec' _ _ _ (related_diff _ _ Hr)). by rewrite (related_current _ _ Hr).
  - intros [= <- <-]. eexists. split; [done|]. by destruct Hr.
  - destruct (saved s) as [m|] eqn:Es; [done|]. intros [= <- <-]. eexists. split; [done|]. destruct Hr as [H1 H2 H3 H4].
    constructor; cbn; [done|done|done|]. exists (top_trie_changes self). split; [done|]. intros k. by rewrite lookup_empty.
  - destruct (saved s) as [m|] eqn:Es; [|done]. intros [= <- <-].
    destruct (end_transaction_related self s rollback m Hr Es) as (self' & He & Hr'). exists self'. cbn [step]. by rewrite He.
Qed.

End simulation.

Section theorems.
Context `{Platform} {TCache : Type} `{CalculationCache TCache}.
Implicit Types (self : Inner TCache) (s : Storage).

(** Every request of the sequence is one of [request_ok] when it is made. *)
Fixpoint requests_ok (base : gmap (list Z) (list Z)) self (rs : list Request) : Prop :=
  match rs with
  | [] => True
  | r :: rs => request_ok self r /\ forall self' o, step base self r = Some (self', o) -> requests_ok base self' rs
  end.

Lemma run_related base self s rs s' out :
  related base self s -> requests_ok base self rs -> abs_run s rs = Some (s', out) ->
  exists self', run_requests base self rs = Some (self', out) /\ related base self' s'.
Proof.
  revert self s s' out. induction rs as [|r rs IH]; intros self s s' out Hr Hok; cbn [abs_run run_requests].
  - intros [= <- <-]. by exists self.
  - destruct Hok as [Hreq Hok]. destruct (abs_step s r) as [[s1 o]|] eqn:E1; [|done].
    destruct (abs_run s1 rs) as [[s2 out2]|] eqn:E2; [|done]. intros [= <- <-].
    destruct (step_related base self s r s1 o Hr Hreq E1) as (self1 & Hs1 & Hr1). rewrite Hs1.
    destruct (IH self1 s1 s2 out2 Hr1 (Hok _ _ Hs1) E2) as (self2 & -> & Hr2). by exists self2.
Qed.

Lemma start_related base changes offchain (cache : option TCache) :
  diff_ok changes -> related base (Inner_start changes offchain cache) (mkStorage (apply_diff changes base) None).
Proof. intros. constructor; cbn; [done|done|by eexists|done]. Qed.

(** C34: The storage of a runtime call. From the start of a call, for every sequence of
    requests that the storage with one level of transaction serves, the implementation
    serves it without panic, gives the same answers (values, numbers of removed keys, next
    keys, the keys for the root), and ends with changes that, applied to the base, are
    that storage. The sequence may not append, within a transaction, to a key that is not
    in the changes. That restriction is needed: such an append survives the rollback of
    the transaction ([append_survives_rollback]). *)
Theorem runtime_storage_refinement base changes offchain (cache : option TCache) rs s' out :
  diff_ok changes ->
  let self := Inner_start changes offchain cache in
  requests_ok base self rs ->
  abs_run (mkStorage (apply_diff changes base) None) rs = Some (s', out) ->
  exists self', run_requests base self rs = Some (self', out) /\
    diff_ok (top_trie_changes self') /\ apply_diff (top_trie_changes self') base = current s'.
Proof.
  intros Hd self Hok Habs. destruct (run_related base self _ rs s' out (start_related _ _ _ _ Hd) Hok Habs) as (self' & H1 & [H2 H3 _ _]).
  by exists self'.
Qed.

Definition not_transaction (r : Request) : Prop := match r with RStart | REnd _ => False | _ => True end.

Lemma abs_step_saved s r s' o : not_transaction r -> abs_step s r = Some (s', o) -> saved s' = saved s.
Proof.
  destruct r as [|? [|]| | | | | | |]; cbn; try done; try (by intros _ [= <- _]).
  intros _. destruct (append_to_storage_value _ _); [|done]. by intros [= <- _].
Qed.

Lemma abs_run_saved s rs s' out : Forall not_transaction rs -> abs_run s rs = Some (s', out) -> saved s' = saved s.
Proof.
  intros Hrs. revert s s' out. induction Hrs as [|r rs Hr Hrs IH]; intros s s' out; cbn [abs_run].
  - by intros [= <- _].
  - destruct (abs_step s r) as [[s1 o]|] eqn:E1; [|done]. destruct (abs_run s1 rs) as [[s2 out2]|] eqn:E2; [|done].
    intros [= <- _]. rewrite (IH _ _ _ E2). by eapply abs_step_saved.
Qed.

Lemma run_app base self rs rs' self1 out1 self2 out2 :
  run_requests base self rs = Some (self1, out1) -> run_requests base self1 rs' = Some (self2, out2) ->
  run_requests base self (rs ++ rs') = Some (self2, out1 ++ out2).
Proof.
  revert self out1. induction rs as [|r rs IH]; intros self out1; cbn [app run_requests].
  - by intros [= -> <-] ->.
  - destruct (step base self r) as [[self3 o]|]; [|done].
    destruct (run_requests base self3 rs) as [[self4 out4]|] eqn:E; [|done]. intros [= -> <-] H2. by rewrite (IH _ _ E H2).
Qed.

(** A rolled back transaction leaves no trace. From a state without an open
    transaction, a transaction around any requests that the specification serves
    and that append only to keys that are in the changes, ended by a rollback,
    does not panic, and the storage is then what it was at its start. *)
Theorem rollback_restores base self s rs s1 out :
  related base self s -> saved s = None -> Forall not_transaction rs ->
  requests_ok base (start_storage_transaction self) rs ->
  abs_run (mkStorage (current s) (Some (current s))) rs = Some (s1, out) ->
  exists self', run_requests base self (RStart :: rs ++ [REnd true]) = Some (self', Done :: out ++ [Done]) /\
    apply_diff (top_trie_changes self') base = apply_diff (top_trie_changes self) base /\
    top_trie_transaction_revert self' = None.
Proof.
  intros Hr Hs Hrs Hok Habs.
  destruct (step_related base self s RStart (mkStorage (current s) (Some (current s))) Done Hr I) as (self1 & Hs1 & Hr1).
  { cbn. by rewrite Hs. }
  injection Hs1 as <-. destruct (run_related base _ _ rs s1 out Hr1 Hok Habs) as (self2 & Hrun & Hr2).
  assert (Hsv : saved s1 = Some (current s)) by (by rewrite (abs_run_saved _ _ _ _ Hrs Habs)).
  destruct (end_transaction_related base self2 s1 true (current s) Hr2 Hsv) as (self3 & Hend & Hr3).
  exists self3. split; [|split].
  - cbn [run_requests step]. erewrite run_app; [done|exact Hrun|]. cbn [run_requests step]. by rewrite Hend.
  - by rewrite (related_current _ _ _ Hr3), (related_current _ _ _ Hr).
  - pose proof (related_saved _ _ _ Hr3) as Ht. unfold transaction_ok in Ht. cbn in Ht. by destruct (top_trie_transaction_revert self3).
Qed.

End theorems.

(** ** The append to an encoded list *)

Lemma encode_len_cases `{Platform} v :
  is_usize v ->
  (v < 64 /\ len (encode_scale_compact v) = 1) \/
  (64 <= v < 2 ^ 14 /\ len (encode_scale_compact v) = 2) \/
  (2 ^ 14 <= v < 2 ^ 30 /\ len (encode_scale_compact v) = 4) \/
  (2 ^ 30 <= v /\ exists k, 4 <= k <= 8 /\ 2 ^ (8 * (k - 1)) <= v < 2 ^ (8 * k) /\ len (encode_scale_compact v) = 1 + k).
Proof.
  intros Hv. destruct (Z.lt_ge_cases v (2 ^ 30)) as [Hlt|Hge].
  - unfold encode_scale_compact. destruct (Z.ltb_spec v 64); [by left|]. destruct (Z.ltb_spec v (2 ^ 14)); [by right; left|].
    rewrite (proj2 (Z.ltb_lt _ _)) by done. by right; right; left.
  - right. right. right. split; [done|].
    destruct (encode_scale_big usize_bits v scale_width_usize Hv Hge) as (k & Hk & Hw & Hv2 & ->).
    exists (Z.of_nat k). split; [destruct usize_bits_spec; lia|]. split; [done|].
    rewrite len_cons. unfold len. by rewrite length_to_le_bytes.
Qed.

(** The encoding of a length grows with the length. *)
Lemma encode_len_mono `{Platform} v :
  is_usize v -> is_usize (v + 1) ->
  len (encode_scale_compact v) <= len (encode_scale_compact (v + 1)) <= 9.
Proof.
  intros H1 H2. assert (E14 : 2 ^ 14 = 16384) by reflexivity. assert (E30 : 2 ^ 30 = 1073741824) by reflexivity.
  destruct (encode_len_cases v H1) as [[? ->]|[[? ->]|[[? ->]|(? & k & Hk & Hv & ->)]]];
    destruct (encode_len_cases (v + 1) H2) as [[? ->]|[[? ->]|[[? ->]|(? & k' & Hk' & Hv' & ->)]]]; try lia.
  assert (8 * (k - 1) < 8 * k') by (apply (Z.pow_lt_mono_r_iff 2); lia). lia.
Qed.

(** [append_to_storage_value] on the encoding of a list of [n] items gives
    the encoding of the list with the new item at its end, also where the size of
    the encoded length changes; on a value that does not start with a length it
    gives the list of that item alone. *)
Theorem append_to_storage_value_spec `{Platform} (n : Z) (items to_add : list Z) :
  is_usize n -> is_usize (n + 1) -> len items + 18 < 2 ^ (usize_bits - 1) ->
  append_to_storage_value (encode_scale_compact_usize n ++ items) to_add =
    Some (encode_scale_compact_usize (n + 1) ++ items ++ to_add) /\
  forall value e, nom_scale_compact_usize value = Err e ->
    append_to_storage_value value to_add = Some (encode_scale_compact_usize 1 ++ to_add).
Proof.
  intros Hn Hn1 Hlen. split; [|intros value e He; unfold append_to_storage_value; by rewrite He].
  unfold append_to_storage_value, nom_scale_compact_usize, encode_scale_compact_usize.
  rewrite nom_scale_compact_encode by (apply scale_width_usize || done). unfold checked_add. rewrite checked_small by done.
  pose proof (encode_len_mono n Hn Hn1) as Hmono. pose proof (len_nonneg (encode_scale_compact n)). pose proof (len_nonneg items).
  assert (Hp : 2 ^ (usize_bits - 1) < 2 ^ usize_bits) by (apply Z.pow_lt_mono_r; [lia|pose proof usize_bits_pos; lia|lia]).
  assert (18 < 2 ^ usize_bits) by lia.
  set (en := encode_scale_compact n) in *. set (en1 := encode_scale_compact (n + 1)) in *. rewrite len_app. unfold wsub.
  replace (len en + len items - len items) with (len en) by lia. rewrite (wrap_small _ (len en)) by (unfold is_uint; lia).
  rewrite wrap_small by (unfold is_uint; lia). unfold insert_zeros. rewrite len_app, (proj2 (Z.ltb_lt _ _)) by lia.
  assert (Hl : length (replicate (Z.to_nat (len en1 - len en)) 0 ++ en) = Z.to_nat (len en1)).
  { rewrite length_app, length_replicate. unfold len in *. lia. }
  rewrite app_assoc. rewrite (proj2 (Z.ltb_ge _ _)).
  - by rewrite <- Hl, drop_app_length, app_assoc.
  - rewrite len_app. unfold len at 2. rewrite Hl. lia.
Qed.

(** ** Concrete calls *)

#[local] Instance cache_log : CalculationCache (list (list Z * bool)) :=
  {| cache_default := []; storage_value_update k b l := l ++ [(k, b)] |}.
#[local] Existing Instance platform64.

(** The base storage has a list of one item at the key [1]. *)
Definition call_base : gmap (list Z) (list Z) := {[ [1] := [4; 7]; [1; 2] := [9] ]}.
Definition call_start : Inner (list (list Z * bool)) := Inner_start StorageDiff_empty StorageDiff_empty None.

Definition call_requests : list Request :=
  [RSet [1; 3] (Some [5]); RStart; RAppend [1; 3] [6]; RClearPrefix [1] (Some 2); RNextKey [1]; REnd true; RGet [1; 3]; RRootKeys].

Lemma empty_ok : diff_ok StorageDiff_empty.
Proof. done. Qed.

Lemma call_requests_ok : requests_ok call_base call_start call_requests.
Proof.
  repeat match goal with
  | |- requests_ok _ _ [] => exact I
  | |- requests_ok _ _ _ => split; [first [exact I | by cbn | right; vm_compute; discriminate]|];
                            let E := fresh in intros ? ? E; vm_compute in E; injection E as <- _
  end.
Qed.

Lemma runtime_storage_refinement_witness :
  exists self' s' out, run_requests call_base call_start call_requests = Some (self', out) /\
    apply_diff (top_trie_changes self') call_base = current s'.
Proof.
  destruct (abs_run (mkStorage (apply_diff StorageDiff_empty call_base) None) call_requests) as [[s' out]|] eqn:E;
    [|exfalso; by vm_compute in E].
  destruct (runtime_storage_refinement call_base StorageDiff_empty StorageDiff_empty None call_requests s' out
              empty_ok call_requests_ok E) as (self' & H1 & _ & H2).
  by exists self', s', out.
Defined.

Lemma rollback_restores_witness :
  exists self' out, run_requests call_base call_start (RStart :: [RSet [1] None; RGet [1]] ++ [REnd true]) = Some (self', out) /\
    apply_diff (top_trie_changes self') call_base = apply_diff StorageDiff_empty call_base.
Proof.
  destruct (abs_run (mkStorage (apply_diff StorageDiff_empty call_base) (Some (apply_diff StorageDiff_empty call_base)))
              [RSet [1] None; RGet [1]]) as [[s1 out]|] eqn:E; [|exfalso; by vm_compute in E].
  destruct (rollback_restores call_base call_start (mkStorage (apply_diff StorageDiff_empty call_base) None)
              [RSet [1] None; RGet [1]] s1 out) as (self' & H1 & H2 & _);
    [by apply start_related|done|by repeat constructor|by repeat split|exact E|].
  by exists self', (Done :: out ++ [Done]).
Defined.

Lemma append_to_storage_value_spec_witness :
  append_to_storage_value (encode_scale_compact_usize 63 ++ [7]) [8] = Some (encode_scale_compact_usize 64 ++ [7; 8]).
Proof. by destruct (append_to_storage_value_spec 63 [7] [8]) as [H1 _]. Defined.

(** An append survives a rollback. [inject_value] changes the value without
    recording the entry: when a transaction appends to a list that is in the base
    storage and not in the changes, and is rolled back, the storage has the list
    with the new item. *)
Theorem append_survives_rollback :
  let rs := [RStart; RAppend [1] [8]; REnd true; RGet [1]] in
  (exists s, abs_run (mkStorage call_base None) rs = Some (s, [Done; Done; Done; Value (Some [4; 7])])) /\
  (exists self, run_requests call_base call_start rs = Some (self, [Done; Done; Done; Value (Some [8; 7; 8])])).
Proof. split; eexists; vm_compute; reflexivity. Qed.

(** The decoder accepts lengths that are not encoded in the shortest form. For
    such a value the number of bytes to insert wraps around. And the size of the
    encoded length grows by two at 16384 items. *)
Lemma append_noncanonical :
  append_to_storage_value (H := platform64) [2; 0; 0; 0] [8] = None /\
  append_to_storage_value (H := platform32) [2; 0; 0; 0] [8] = None /\
  len (encode_scale_compact_usize 16384) = len (encode_scale_compact_usize 16383) + 2.
Proof. repeat split. Qed.
