(* ===== verification/ProofVerify.v ===== *)
(** * Storage proofs ([src/src/trie/proof_verify.rs])

    A proof is a list of node values, and of storage values, of a trie of which
    only the hash of the root is known. [trie_node_info] walks from the root to a
    key.

    The specification is a trie ([Trie]) whose node values are computed by the
    encoder of TrieNode.v, and the information at a key ([trie_info]). Unless the
    proof has a collision of the hash function with the data of the trie, the walk
    gives exactly the information of the trie, or says which kind of entry the
    proof lacks. The loop takes at least a nibble of the key at each turn: the
    length of the key is enough fuel ([None] is the lack of it). *)

From S2P Require Import Prelude Nibble TrieNode.

Open Scope Z_scope.

(** ** Data *)

Inductive VerifyError :=
  | TrieRootNotFound
  | InvalidNodeValue (e : TrieNode.Error)
  | MissingProofEntry (closest_ancestor_nibbles : usize).

Inductive InfoStorageValue :=
  | Known (value : list u8)
  | HashKnownValueMissing (hash : list u8)
  | NoValue.

Inductive Children :=
  | ChildrenNone
  | ChildrenOne (nibble : Nibble)
  | ChildrenMultiple (children_bitmap : u16).

Record TrieNodeInfo := mkTrieNodeInfo {
  info_storage_value : InfoStorageValue;
  info_children : Children
}.

Definition next_nibbles (self : Children) : list Nibble :=
  match self with
  | ChildrenNone => []
  | ChildrenOne nibble => [nibble]
  | ChildrenMultiple children_bitmap =>
      filter (fun n => Z.land children_bitmap (Z.shiftl 1 n) <> 0) all_nibbles
  end.

(** ** Verification *)

(** The loop over the partial key of a node. [Err] is the information returned
    at once; [Ok] what is left of the key, and the number of nibbles found. *)
Fixpoint match_partial_key `{Platform} (partial_key expected_nibbles_iter : list Nibble) (iter_nibbles : usize)
    : result TrieNodeInfo (list Nibble * usize) :=
  match partial_key with
  | [] => Ok (expected_nibbles_iter, iter_nibbles)
  | nibble :: partial_key =>
      match expected_nibbles_iter with
      | [] => Err {| info_storage_value := NoValue; info_children := ChildrenOne nibble |}
      | n :: expected_nibbles_iter =>
          if negb (n =? nibble) then Err {| info_storage_value := NoValue; info_children := ChildrenNone |}
          else match_partial_key partial_key expected_nibbles_iter (wadd usize_bits iter_nibbles 1)
      end
  end.

Section verification.
Context `{Platform} `{Blake2b}.

Definition merkle_values (proof : list (list u8)) : list (list u8) :=
  map (fun proof_entry => if 32 <=? len proof_entry then blake2b_32 proof_entry else proof_entry) proof.

(** The entry at the first position of a Merkle value. *)
Definition find_entry (proof : list (list u8)) (value : list u8) : option (list u8) :=
  let! (position, _) := list_find (fun v => v = value) (merkle_values proof) in proof !! position.

(** The storage value of the node that has the key. *)
Definition node_storage_value (proof : list (list u8)) (value : TrieNode.StorageValue) : InfoStorageValue :=
  match value with
  | Hashed hash =>
      match find_entry proof hash with
      | None => HashKnownValueMissing hash
      | Some value => Known value
      end
  | Unhashed v => Known v
  | NoStorageValue => NoValue
  end.

Fixpoint trie_node_info_loop (fuel : nat) (proof : list (list u8)) (node_value : list u8)
    (expected_nibbles_iter : list Nibble) (iter_nibbles : usize) : option (result VerifyError TrieNodeInfo) :=
  match fuel with
  | O => None
  | S fuel =>
      match decode node_value with
      | Err e => Some (Err (InvalidNodeValue e))
      | Ok decoded_node_value =>
          match match_partial_key (PartialKey_all (dec_partial_key decoded_node_value))
                  expected_nibbles_iter iter_nibbles with
          | Err info => Some (Ok info)
          | Ok ([], _) =>
              Some (Ok {| info_storage_value := node_storage_value proof (dec_storage_value decoded_node_value);
                          info_children := ChildrenMultiple (Decoded_children_bitmap decoded_node_value) |})
          | Ok (expected_nibble :: expected_nibbles_iter, iter_nibbles) =>
              match mjoin (dec_children decoded_node_value !! Z.to_nat expected_nibble) with
              | None => Some (Ok {| info_storage_value := NoValue; info_children := ChildrenNone |})
              | Some child =>
                  if len child <? 32 then
                    trie_node_info_loop fuel proof child expected_nibbles_iter (wadd usize_bits iter_nibbles 1)
                  else
                    match find_entry proof child with
                    | None => Some (Err (MissingProofEntry iter_nibbles))
                    | Some node_value =>
                        trie_node_info_loop fuel proof node_value expected_nibbles_iter (wadd usize_bits iter_nibbles 1)
                    end
              end
          end
      end
  end.

Definition trie_node_info (requested_key : list Nibble) (trie_root_hash : list u8) (proof : list (list u8))
    : option (result VerifyError TrieNodeInfo) :=
  match find_entry proof trie_root_hash with
  | None => Some (Err TrieRootNotFound)
  | Some node_value => trie_node_info_loop (S (length requested_key)) proof node_value requested_key 0
  end.

Definition verify_proof (requested_key trie_root_hash : list u8) (proof : list (list u8))
    : option (result VerifyError (option (list u8))) :=
  let! r := trie_node_info (BytesToNibbles_all (bytes_to_nibbles requested_key)) trie_root_hash proof in
  Some match r with
       | Err e => Err e
       | Ok info =>
           match info_storage_value info with
           | NoValue => Ok None
           | Known v => Ok (Some v)
           | HashKnownValueMissing _ => Err (MissingProofEntry (wrap usize_bits (len requested_key * 2)))
           end
       end.

(** ** The specification: tries *)

Inductive Trie := TNode (version : TrieEntryVersion) (partial_key : list Nibble) (value : option (list u8))
  (children : list (option Trie)).

Definition trie_pk (t : Trie) : list Nibble := let '(TNode _ pk _ _) := t in pk.
Definition trie_value (t : Trie) : option (list u8) := let '(TNode _ _ v _) := t in v.
Definition trie_child (t : Trie) (n : Nibble) : option Trie := let '(TNode _ _ _ ch) := t in mjoin (ch !! Z.to_nat n).

(** The node as the encoder takes it; a child is its Merkle value. *)
Fixpoint node_config (t : Trie) : Config :=
  let '(TNode version pk value children) := t in
  {| cfg_ty := NonRoot pk;
     cfg_children := map (fun c => match c with Some c => calculate_merkle_value (node_config c) | None => None end) children;
     cfg_stored_value := value; cfg_version := version |}.

Definition root_config (t : Trie) : Config :=
  {| cfg_ty := Root (trie_pk t); cfg_children := cfg_children (node_config t);
     cfg_stored_value := cfg_stored_value (node_config t); cfg_version := cfg_version (node_config t) |}.

Definition node_value (t : Trie) : option (list u8) := @concat _ <$> node_value_chunks (node_config t).

Inductive subtrie (t : Trie) : Trie -> Prop :=
  | subtrie_refl : subtrie t t
  | subtrie_child c n c' : subtrie t c -> trie_child c n = Some c' -> subtrie t c'.

(** The information at a key: the value, and the nibbles that continue it. *)
Inductive trie_info : Trie -> list Nibble -> option (list u8) -> list Nibble -> Prop :=
  | info_here t :
      trie_info t (trie_pk t) (trie_value t) (filter (fun n => trie_child t n <> None) all_nibbles)
  | info_above t key n rest : trie_pk t = key ++ n :: rest -> trie_info t key None [n]
  | info_diverge t pre a b rest rest' :
      trie_pk t = pre ++ a :: rest -> a <> b -> trie_info t (pre ++ b :: rest') None []
  | info_no_child t n rest : trie_child t n = None -> trie_info t (trie_pk t ++ n :: rest) None []
  | info_child t n c rest v ns :
      trie_child t n = Some c -> trie_info c rest v ns -> trie_info t (trie_pk t ++ n :: rest) v ns.

End verification.

(** ** Termination *)

Lemma match_partial_key_spec `{Platform} pk key i :
  match match_partial_key pk key i with
  | Ok (rest, _) => key = pk ++ rest
  | Err info =>
      (exists n rest, pk = key ++ n :: rest /\ info = mkTrieNodeInfo NoValue (ChildrenOne n)) \/
      (exists pre a b rest rest', pk = pre ++ a :: rest /\ key = pre ++ b :: rest' /\ a <> b /\
         info = mkTrieNodeInfo NoValue ChildrenNone)
  end.
Proof.
  revert key i. induction pk as [|n pk IH]; intros key i; cbn [match_partial_key]; [done|].
  destruct key as [|m key]; [left; by exists n, pk|]. destruct (Z.eqb_spec m n) as [->|Hne]; cbn [negb].
  - specialize (IH key (wadd usize_bits i 1)). destruct (match_partial_key pk key _) as [[rest j]|info].
    + by rewrite IH.
    + destruct IH as [(n' & rest & -> & ->)|(pre & a & b & rest & rest' & -> & -> & Hab & ->)].
      * left. by exists n', rest.
      * right. by exists (n :: pre), a, b, rest, rest'.
  - right. by exists [], n, m, pk, key.
Qed.

Section theorems.
Context `{Platform} `{Blake2bLaws}.

Lemma trie_node_info_loop_total fuel proof v key i :
  (length key < fuel)%nat -> trie_node_info_loop fuel proof v key i <> None.
Proof.
  revert v key i. induction fuel as [|fuel IH]; intros v key i Hf; [lia|]. cbn [trie_node_info_loop].
  destruct (decode v) as [d|e]; [|done].
  pose proof (match_partial_key_spec (PartialKey_all (dec_partial_key d)) key i) as Hm.
  destruct (match_partial_key _ key i) as [[[|n rest] j]|info]; [done| |done].
  assert (length rest < fuel)%nat by (rewrite Hm, length_app in Hf; cbn in Hf; lia).
  destruct (mjoin _) as [child|]; [|done]. destruct (len child <? 32); [by apply IH|].
  destruct (find_entry proof child); [by apply IH|done].
Qed.

(** The walk down a proof ends, whatever the proof, the root and the key are:
    the length of the key bounds the number of nodes that are visited. *)
Theorem trie_node_info_total (requested_key : list Nibble) (trie_root_hash : list u8) (proof : list (list u8)) :
  trie_node_info requested_key trie_root_hash proof <> None.
Proof.
  unfold trie_node_info. destruct (find_entry proof trie_root_hash); [|done]. apply trie_node_info_loop_total. lia.
Qed.

(** ** Soundness and completeness *)

Lemma find_entry_spec proof value :
  length value = 32%nat ->
  match find_entry proof value with
  | Some e => e ∈ proof /\ 32 <= len e /\ blake2b_32 e = value
  | None => forall e, e ∈ proof -> 32 <= len e -> blake2b_32 e <> value
  end.
Proof.
  intros Hl. unfold find_entry, merkle_values. destruct (list_find _ _) as [[i v]|] eqn:E.
  - apply list_find_Some in E as (Hi & -> & _).
    change (map ?f proof) with (f <$> proof) in Hi. rewrite list_lookup_fmap in Hi. destruct (proof !! i) as [e|] eqn:He; [|done]. cbn in Hi. injection Hi as Hv.
    split; [by eapply list_elem_of_lookup_2|]. destruct (Z.leb_spec 32 (len e)); [done|]. subst e. unfold len in *. lia.
  - intros e He Hlen Hb. apply list_find_None in E. rewrite Forall_forall in E. apply (E value); [|done].
    apply list_elem_of_fmap. exists e. split; [|done]. by rewrite (proj2 (Z.leb_le _ _)).
Qed.

(** A node the encoder accepts, with a key length that is not ambiguous. *)
Definition node_ok (t : Trie) : Prop :=
  config_ok (node_config t) /\ ~ pk_len_ambiguous (first_byte_max (node_config t)) (len (trie_pk t)).

Lemma node_config_pk t : cfg_partial_key (node_config t) = trie_pk t.
Proof. by destruct t. Qed.

Lemma node_config_value t : cfg_stored_value (node_config t) = trie_value t.
Proof. by destruct t. Qed.

Lemma node_config_child t n :
  mjoin (cfg_children (node_config t) !! n) =
  match trie_child t (Z.of_nat n) with Some c => calculate_merkle_value (node_config c) | None => None end.
Proof.
  destruct t as [ver pk v ch]. cbn. rewrite Nat2Z.id.
  change (map ?f ch) with (f <$> ch). rewrite list_lookup_fmap. by destruct (ch !! n) as [[c|]|].
Qed.

Lemma node_value_some t :
  node_ok t -> exists v d, node_value t = Some v /\ decode v = Ok d /\
    PartialKey_all (dec_partial_key d) = trie_pk t /\
    dec_children d = map (option_map Output_as_ref) (cfg_children (node_config t)) /\
    dec_storage_value d = expected_storage_value (node_config t).
Proof.
  intros [Hok Hamb]. destruct (node_value_decode (node_config t) Hok) as (chunks & d & Hc & Hd & Hpk & Hch & Hsv).
  { by rewrite node_config_pk. }
  exists (concat chunks), d. unfold node_value. rewrite Hc. split; [done|]. split; [done|].
  split; [by rewrite <- node_config_pk|]. by split.
Qed.

Lemma merkle_value_child t v :
  node_value t = Some v ->
  exists out, calculate_merkle_value (node_config t) = Some out /\
    Output_as_ref out = if len v <? 32 then v else blake2b_32 v.
Proof.
  unfold node_value. destruct (node_value_chunks (node_config t)) as [chunks|] eqn:Ec; [|done]. intros [= <-].
  destruct (calculate_merkle_value (node_config t)) as [out|] eqn:Em; [|by unfold calculate_merkle_value in Em; rewrite Ec in Em].
  exists out. split; [done|]. rewrite (merkle_value_eq _ _ _ Ec Em). by destruct t.
Qed.

Lemma merkle_value_root t v :
  node_value t = Some v -> Output_as_ref <$> calculate_merkle_value (root_config t) = Some (blake2b_32 v).
Proof.
  unfold node_value. destruct (node_value_chunks (node_config t)) as [chunks|] eqn:Ec; [|done]. intros [= <-].
  assert (Er : node_value_chunks (root_config t) = Some chunks) by (by rewrite <- Ec; destruct t).
  destruct (calculate_merkle_value (root_config t)) as [out|] eqn:Em; [|by unfold calculate_merkle_value in Em; rewrite Er in Em].
  cbn. f_equal. by rewrite (merkle_value_eq _ _ _ Er Em).
Qed.

Lemma filter_iff_in {A} (P Q : A -> Prop) `{!forall x, Decision (P x), !forall x, Decision (Q x)} (l : list A) :
  (forall x, x ∈ l -> P x <-> Q x) -> filter P l = filter Q l.
Proof.
  induction l as [|x l IH]; intros HPQ; [done|]. rewrite !filter_cons, IH by (intros y Hy; apply HPQ; by right).
  specialize (HPQ x ltac:(left)). destruct (decide (P x)); [by rewrite decide_True by tauto|by rewrite decide_False by tauto].
Qed.

(** The bits of the bitmap are the children. *)
Lemma bitmap_fold_bit (f : Z -> bool) (l : list Z) acc k :
  0 <= k -> Forall (fun n => 0 <= n) l ->
  Z.testbit (foldl (fun out n => if f n then Z.lor out (Z.shiftl 1 n) else out) acc l) k =
  Z.testbit acc k || (bool_decide (k ∈ l) && f k).
Proof.
  intros Hk Hl. revert acc. induction Hl as [|n l Hn Hl IH]; intros acc; cbn [foldl].
  - rewrite bool_decide_false by (by intros ?%not_elem_of_nil). by rewrite orb_false_r.
  - rewrite IH. destruct (decide (k = n)) as [->|Hne].
    + rewrite (bool_decide_true (n ∈ n :: l)) by left. destruct (f n); [|by rewrite !andb_false_r].
      rewrite Z.lor_spec, Z.shiftl_1_l, Z.pow2_bits_true by lia. by rewrite orb_true_r, orb_true_r.
    + assert (Hin : bool_decide (k ∈ n :: l) = bool_decide (k ∈ l)) by (apply bool_decide_ext; set_solver).
      rewrite Hin. f_equal. destruct (f n); [|done].
      rewrite Z.lor_spec, Z.shiftl_1_l, Z.pow2_bits_false by lia. by rewrite orb_false_r.
Qed.

Lemma next_nibbles_decoded d :
  next_nibbles (ChildrenMultiple (Decoded_children_bitmap d)) =
  filter (fun n => mjoin (dec_children d !! Z.to_nat n) <> None) all_nibbles.
Proof.
  cbn [next_nibbles]. apply filter_iff_in. intros n Hn.
  apply elem_of_seqZ in Hn. rewrite Z.shiftl_1_l, land_bit by lia.
  assert (Hbit : Z.testbit (Decoded_children_bitmap d) n = bool_decide (mjoin (dec_children d !! Z.to_nat n) <> None)).
  { unfold Decoded_children_bitmap.
    assert (Hext : forall l acc, foldl (fun out n => match mjoin (dec_children d !! Z.to_nat n) with
                                                     | None => out | Some _ => Z.lor out (Z.shiftl 1 n) end) acc l =
      foldl (fun out n => if bool_decide (mjoin (dec_children d !! Z.to_nat n) <> None) then Z.lor out (Z.shiftl 1 n) else out) acc l).
    { induction l as [|k l IH]; intros acc; [done|]. cbn [foldl]. rewrite IH. by destruct (mjoin (dec_children d !! Z.to_nat k)). }
    rewrite Hext.
    rewrite bitmap_fold_bit; [|lia|apply Forall_forall; intros k Hk%elem_of_seqZ; lia].
    rewrite Z.bits_0, (bool_decide_true (n ∈ seqZ 0 16)) by (apply elem_of_seqZ; lia). done. }
  rewrite Hbit. case_bool_decide as Hd; [|done]. split; [done|]. intros _. pose proof (pow2_pos n). lia.
Qed.

(** What the information given by the walk says of the trie. *)
Definition storage_matches (proof : list (list u8)) (sv : InfoStorageValue) (v : option (list u8)) : Prop :=
  match sv with
  | Known x => v = Some x
  | HashKnownValueMissing h => exists x, v = Some x /\ h = blake2b_32 x /\ 33 <= len x /\ x ∉ proof
  | NoValue => v = None
  end.

(** The proof lacks the node value of a node that is referred to by its hash. *)
Definition lacks_node (proof : list (list u8)) (t : Trie) : Prop :=
  exists c v, subtrie t c /\ node_value c = Some v /\ 32 <= len v /\ v ∉ proof.

Definition outcome_ok (proof : list (list u8)) (t c : Trie) (key : list Nibble)
    (r : result VerifyError TrieNodeInfo) : Prop :=
  match r with
  | Ok info => exists v ns, trie_info c key v ns /\ next_nibbles (info_children info) = ns /\
                 storage_matches proof (info_storage_value info) v
  | Err (MissingProofEntry _) => lacks_node proof t
  | Err _ => False
  end.

(** No entry of the proof has the hash of another node value or storage value of
    the trie. *)
Definition no_collision (proof : list (list u8)) (t : Trie) : Prop :=
  forall x y c, x ∈ proof -> subtrie t c -> node_value c = Some y \/ trie_value c = Some y ->
    blake2b_32 x = blake2b_32 y -> x = y.

Section walk.
Context (proof : list (list u8)) (t : Trie).
Hypothesis t_ok : forall c, subtrie t c -> node_ok c.
Hypothesis t_nc : no_collision proof t.

(** Looking for the hash of a piece of data of the trie finds that data. *)
Lemma find_data c y :
  subtrie t c -> node_value c = Some y \/ trie_value c = Some y ->
  match find_entry proof (blake2b_32 y) with
  | Some e => e = y /\ 32 <= len y
  | None => 32 <= len y -> y ∉ proof
  end.
Proof.
  intros Hc Hy. pose proof (find_entry_spec proof (blake2b_32 y) (blake2b_length y)) as Hf.
  destruct (find_entry _ _) as [e|].
  - destruct Hf as (He & Hl & Hh). assert (e = y) as -> by (by eapply t_nc). by split.
  - intros Hl Hin. by apply (Hf y Hin Hl).
Qed.

Lemma stored_value_matches c :
  subtrie t c ->
  storage_matches proof (node_storage_value proof (expected_storage_value (node_config c))) (trie_value c).
Proof.
  intros Hc. unfold expected_storage_value, stored_value_to_be_hashed. rewrite node_config_value.
  destruct (trie_value c) as [v|] eqn:Ev; [|done]. cbn [fmap option_fmap option_map].
  destruct (cfg_version (node_config c)); [done|]. destruct (Z.leb_spec 33 (len v)); [|done]. cbn [node_storage_value].
  pose proof (find_data c v Hc (or_intror Ev)) as Hf. destruct (find_entry _ _) as [e|]; cbn [storage_matches].
  - by destruct Hf as [-> _].
  - exists v. split; [done|]. split; [done|]. split; [done|]. apply Hf. lia.
Qed.

Lemma decoded_child c d n :
  dec_children d = map (option_map Output_as_ref) (cfg_children (node_config c)) -> 0 <= n ->
  mjoin (dec_children d !! Z.to_nat n) =
  match trie_child c n with Some c' => Output_as_ref <$> calculate_merkle_value (node_config c') | None => None end.
Proof.
  intros -> Hn. change (map ?f ?l) with (f <$> l). rewrite list_lookup_fmap.
  pose proof (node_config_child c (Z.to_nat n)) as Hch. rewrite Z2Nat.id in Hch by done.
  destruct (trie_child c n) as [c'|]; destruct (cfg_children (node_config c) !! Z.to_nat n) as [[o|]|]; cbn in *; by rewrite <- ?Hch.
Qed.

Lemma child_continue c c' n v :
  subtrie t c -> trie_child c n = Some c' -> node_value c' = Some v ->
  exists out, calculate_merkle_value (node_config c') = Some out /\
    ((len (Output_as_ref out) <? 32) = true /\ Output_as_ref out = v \/
     (len (Output_as_ref out) <? 32) = false /\
       match find_entry proof (Output_as_ref out) with Some e => e = v | None => lacks_node proof t end).
Proof.
  intros Hc Hn Hv. destruct (merkle_value_child c' v Hv) as (out & Hout & Hm). exists out. split; [done|].
  destruct (len v <? 32) eqn:El; rewrite Hm; [by left|]. right. split.
  - apply Z.ltb_ge. unfold len. by rewrite blake2b_length.
  - assert (Hc' : subtrie t c') by (by eapply subtrie_child). apply Z.ltb_ge in El.
    pose proof (find_data c' v Hc' (or_introl Hv)) as Hf. destruct (find_entry _ _) as [e|]; [by destruct Hf|].
    exists c', v. auto.
Qed.

Lemma walk_spec fuel c v key i :
  subtrie t c -> node_value c = Some v -> Forall is_nibble key -> (length key < fuel)%nat ->
  exists r, trie_node_info_loop fuel proof v key i = Some r /\ outcome_ok proof t c key r.
Proof.
  revert c v key i. induction fuel as [|fuel IH]; intros c v key i Hc Hv Hkey Hf; [lia|].
  destruct (node_value_some c (t_ok c Hc)) as (v' & d & Hv' & Hd & Hpk & Hch & Hsv).
  rewrite Hv in Hv'. injection Hv' as <-. cbn [trie_node_info_loop]. rewrite Hd, Hpk, Hsv.
  pose proof (match_partial_key_spec (trie_pk c) key i) as Hm.
  destruct (match_partial_key (trie_pk c) key i) as [[[|n rest] j]|info].
  - rewrite app_nil_r in Hm. subst key. eexists. split; [done|]. eexists _, _. split; [apply info_here|].
    split; [|by apply stored_value_matches]. cbn [info_children]. rewrite next_nibbles_decoded. apply filter_iff_in.
    intros n Hn%elem_of_seqZ. rewrite (decoded_child c d n Hch) by lia. destruct (trie_child c n) as [c'|] eqn:En; [|done].
    assert (Hc' : subtrie t c') by (by eapply subtrie_child).
    destruct (node_value_some c' (t_ok c' Hc')) as (w & _ & Hw & _).
    by destruct (child_continue c c' n w Hc En Hw) as (out & -> & _).
  - subst key. apply Forall_app in Hkey as [_ Hkey]. apply Forall_cons in Hkey as [Hn Hkey]. rewrite length_app in Hf. cbn in Hf.
    rewrite (decoded_child c d n Hch) by (apply Hn).
    destruct (trie_child c n) as [c'|] eqn:En;
      [|eexists; split; [done|]; exists None, []; split; [by apply info_no_child|done]].
    assert (Hc' : subtrie t c') by (by eapply subtrie_child).
    destruct (node_value_some c' (t_ok c' Hc')) as (w & _ & Hw & _).
    destruct (child_continue c c' n w Hc En Hw) as (out & -> & Hcase). cbn [fmap option_fmap option_map].
    destruct (IH c' w rest (wadd usize_bits j 1) Hc' Hw Hkey ltac:(lia)) as (r & Hr & Hok).
    assert (Hlift : outcome_ok proof t c (trie_pk c ++ n :: rest) r).
    { destruct r as [info|[| |]]; try done. destruct Hok as (x & ns & Hi & Hrest). exists x, ns.
      split; [by eapply info_child|done]. }
    destruct Hcase as [[-> ->]|[-> Hfind]]; [by exists r|]. destruct (find_entry _ _) as [e|]; [subst e; by exists r|].
    eexists. split; [done|]. exact Hfind.
  - eexists. split; [done|]. destruct Hm as [(n & rest & Hp & ->)|(pre & a & b & rest & rest' & Hp & -> & Hab & ->)].
    + exists None, [n]. split; [by eapply info_above|done].
    + exists None, []. split; [by eapply info_diverge|done].
Qed.

End walk.

Lemma trie_node_info_correct (t : Trie) (proof : list (list u8)) (key : list Nibble) :
  (forall c, subtrie t c -> node_ok c) -> no_collision proof t -> Forall is_nibble key ->
  exists root v r, calculate_merkle_value (root_config t) = Some root /\ node_value t = Some v /\
    trie_node_info key (Output_as_ref root) proof = Some r /\
    match r with
    | Err TrieRootNotFound => v ∉ proof \/ len v < 32
    | _ => outcome_ok proof t t key r
    end.
Proof.
  intros Hok Hnc Hkey. destruct (node_value_some t (Hok t (subtrie_refl t))) as (v & d & Hv & _).
  pose proof (merkle_value_root t v Hv) as Hroot. destruct (calculate_merkle_value (root_config t)) as [root|]; [|done].
  cbn in Hroot. injection Hroot as Hroot.
  pose proof (find_data proof t Hnc t v (subtrie_refl t) (or_introl Hv)) as Hf.
  exists root, v. rewrite Hroot. unfold trie_node_info. destruct (find_entry proof (blake2b_32 v)) as [e|].
  - destruct Hf as [-> _].
    destruct (walk_spec proof t Hok Hnc (S (length key)) t v key 0 (subtrie_refl t) Hv Hkey ltac:(lia)) as (r & Hr & Hout).
    exists r. split; [done|]. split; [done|]. split; [done|]. by destruct r as [|[| |]].
  - eexists. split; [done|]. split; [done|]. split; [done|]. cbv beta iota.
    destruct (Z.lt_ge_cases (len v) 32); [by right|left; by apply Hf].
Qed.


End theorems.

(** ** A concrete trie *)

#[local] Existing Instance platform64.
#[local] Existing Instance toy_blake2b.
#[local] Existing Instance toy_blake2b_laws.

(** One key, [1; 2], with a value of 40 bytes. *)
Definition example_leaf : Trie := TNode V0 [2] (Some (replicate 40 1)) (replicate 16 None).
Definition example_trie : Trie := TNode V0 [] None ([None; Some example_leaf] ++ replicate 14 None).
Definition example_proof : list (list u8) := default [] (node_value example_trie) :: [default [] (node_value example_leaf)].

Lemma example_subtrie c : subtrie example_trie c -> c = example_trie \/ c = example_leaf.
Proof.
  induction 1 as [|c n c' _ IH Hn]; [by left|]. right. revert Hn. destruct IH as [-> | ->]; unfold trie_child; cbn [example_trie example_leaf app replicate];
    generalize (Z.to_nat n); intros i; do 16 (destruct i as [|i]; [try done; by intros [= <-]|]); done.
Qed.

Lemma example_ok c : subtrie example_trie c -> node_ok c.
Proof.
  intros [-> | ->]%example_subtrie; split.
  - split; [done|done|done| |done|done].
    replace (cfg_children (node_config example_trie)) with
      (None :: Some (OutHasher (replicate 32 11)) :: replicate 14 None) by (by vm_compute).
    constructor; [done|]. constructor; [by intros v [= <-]|]. by apply Forall_replicate.
  - intros (k & Hk & E). change (first_byte_max (node_config example_trie)) with 63 in E.
    change (len (trie_pk example_trie)) with 0 in E. lia.
  - split; [done|by apply Forall_singleton|done|by apply (Forall_replicate _ 16)|by intros v [= <-]|done].
  - intros (k & Hk & E). change (first_byte_max (node_config example_leaf)) with 63 in E.
    change (len (trie_pk example_leaf)) with 1 in E. lia.
Qed.

Lemma example_no_collision : no_collision example_proof example_trie.
Proof.
  intros x y c Hx [-> | ->]%example_subtrie Hy Hh.
  - destruct Hy as [Hy|Hy]; [|done]. vm_compute in Hy. injection Hy as <-.
    apply elem_of_cons in Hx as [->|[->|[]%not_elem_of_nil]%elem_of_cons]; vm_compute in Hh |- *; done.
  - destruct Hy as [Hy|Hy]; vm_compute in Hy; injection Hy as <-;
    apply elem_of_cons in Hx as [->|[->|[]%not_elem_of_nil]%elem_of_cons]; vm_compute in Hh |- *; done.
Qed.


(** The root of a trie is always hashed, but an entry of less than 32 bytes is
    compared as it is: for a trie whose root has a short node value, the proof with
    that node value is refused. *)
Definition short_trie : Trie := TNode V0 [2] (Some [7]) (replicate 16 None).

Lemma short_root_not_found :
  exists root v, calculate_merkle_value (root_config short_trie) = Some root /\ node_value short_trie = Some v /\
    trie_node_info [2] (Output_as_ref root) [v] = Some (Err TrieRootNotFound).
Proof. eexists _, _. split; [vm_compute; reflexivity|]. split; [vm_compute; reflexivity|]. by vm_compute. Qed.
