(* ===== verification/PrefixProof.v ===== *)
(** * Scanning the keys of a prefix ([src/src/trie/prefix_proof.rs])

    A light client finds all the keys of a prefix by asking for proofs: the scan
    keeps the keys whose proof is to be asked next, and goes one nibble further for
    every child that a proof shows.

    With a proof that has all the nodes of the trie the scan ends, and gives exactly
    the keys with the prefix. With a proof that lacks some, keys are lost
    ([prefix_scan_loses_keys]). The loop of [resume] goes on as long as a proof
    succeeds: its fuel bounds the height of the trie. *)

From S2P Require Import Prelude Nibble TrieNode ProofVerify.

Open Scope Z_scope.

(** ** Data and operations *)

Record PrefixScan := mkPrefixScan {
  scan_root_hash : list u8;
  next_queries : list (list Nibble);
  final_result : list (list u8)
}.

Inductive ResumeOutcome :=
  | InProgress (scan : PrefixScan)
  | Success (keys : list (list u8)).

Definition prefix_scan (prefix trie_root_hash : list u8) : PrefixScan :=
  {| scan_root_hash := trie_root_hash;
     next_queries := [BytesToNibbles_all (bytes_to_nibbles prefix)];
     final_result := [] |}.

Definition requested_keys (self : PrefixScan) : list (list Nibble) := next_queries self.

(** [query.chunks(2).map(|n| (n[0] << 4) | n[1])]; a last chunk of one nibble panics. *)
Fixpoint query_bytes (query : list Nibble) : option (list u8) :=
  match query with
  | [] => Some []
  | [_] => None
  | n0 :: n1 :: query =>
      let! bytes := query_bytes query in Some (Z.lor (wrap 8 (Z.shiftl n0 4)) n1 :: bytes)
  end.

Section resume.
Context `{Platform} `{Blake2b}.

(** The loop over the queries of an iteration: the queries of the next one,
    whether a proof has succeeded, and the results. [Err] is the error that ends
    the first iteration, with the results so far. *)
Fixpoint resume_queries (is_first_iteration : bool) (root : list u8) (proof : list (list u8))
    (queries next : list (list Nibble)) (any_successful_proof : bool) (final : list (list u8))
    : option (result (VerifyError * list (list u8)) (list (list Nibble) * bool * list (list u8))) :=
  match queries with
  | [] => Some (Ok (next, any_successful_proof, final))
  | query :: queries =>
      let! r := trie_node_info query root proof in
      match r with
      | Err err =>
          if is_first_iteration then Some (Err (err, final))
          else resume_queries is_first_iteration root proof queries next any_successful_proof final
      | Ok info =>
          let! final :=
            match info_storage_value info with
            | Known _ | HashKnownValueMissing _ => let! key := query_bytes query in Some (final ++ [key])
            | NoValue => Some final
            end in
          resume_queries is_first_iteration root proof queries
            (next ++ map (fun child_nibble => query ++ [child_nibble]) (next_nibbles (info_children info)))
            true final
      end
  end.

(** The loop over the iterations; [None] is a panic, or the lack of fuel. *)
Fixpoint resume_loop (fuel : nat) (is_first_iteration : bool) (self : PrefixScan) (proof : list (list u8))
    : option (result (PrefixScan * VerifyError) ResumeOutcome) :=
  match fuel with
  | O => None
  | S fuel =>
      let! r := resume_queries is_first_iteration (scan_root_hash self) proof (next_queries self) [] false
                  (final_result self) in
      match r with
      | Err (err, final) => Some (Err (mkPrefixScan (scan_root_hash self) (next_queries self) final, err))
      | Ok (next, any_successful_proof, final) =>
          if negb any_successful_proof
          then Some (Ok (InProgress (mkPrefixScan (scan_root_hash self) (next_queries self) final)))
          else
            match next with
            | [] => Some (Ok (Success final))
            | _ :: _ => resume_loop fuel false (mkPrefixScan (scan_root_hash self) next final) proof
            end
      end
  end.

Definition scan_resume (fuel : nat) (self : PrefixScan) (proof : list (list u8))
    : option (result (PrefixScan * VerifyError) ResumeOutcome) :=
  resume_loop fuel true self proof.

End resume.

(** ** Tries *)

(** The number of nibbles of the longest key. *)
Fixpoint trie_height (t : Trie) : nat :=
  let '(TNode _ pk _ ch) := t in
  (length pk + foldr (fun c acc => Nat.max (match c with Some c => S (trie_height c) | None => O end) acc) O ch)%nat.

Lemma height_pk t : (length (trie_pk t) <= trie_height t)%nat.
Proof. destruct t. cbn. lia. Qed.

Lemma height_child t n c : trie_child t n = Some c -> (length (trie_pk t) + S (trie_height c) <= trie_height t)%nat.
Proof.
  destruct t as [ver pk v ch]. cbn [trie_child trie_height trie_pk]. intros Hc.
  enough (S (trie_height c) <= foldr (fun c acc => Nat.max (match c with Some c => S (trie_height c) | None => O end) acc) O ch)%nat by lia.
  destruct (ch !! Z.to_nat n) as [o|] eqn:E; [|done]. cbn in Hc. subst o. apply list_elem_of_lookup_2 in E.
  induction ch as [|x ch IH]; [by apply not_elem_of_nil in E|]. cbn [foldr].
  apply elem_of_cons in E as [<-|E]; [lia|]. specialize (IH E). lia.
Qed.

Lemma info_height t k v ns : trie_info t k v ns -> ns <> [] -> (length k <= trie_height t)%nat.
Proof.
  induction 1 as [t|t k n r Hp|t pre a b r r' Hp Hab|t n r Hn|t n c r v ns Hn Hi IH]; intros Hne; try done.
  - apply height_pk.
  - pose proof (height_pk t) as Hh. rewrite Hp, length_app in Hh. lia.
  - specialize (IH Hne). pose proof (height_child _ _ _ Hn). rewrite length_app. cbn. lia.
Qed.

(** The information at a prefix of a key that has a value leads to the key. *)
Lemma info_towards t k v ns q rest v' ns' :
  trie_info t k (Some v) ns -> Forall is_nibble k -> k = q ++ rest -> trie_info t q v' ns' ->
  match rest with [] => v' = Some v | n :: _ => n ∈ ns' end.
Proof.
  remember (Some v) as sv eqn:Ev. intros Hi. revert q rest v' ns'.
  induction Hi as [t|t k n r Hp|t pre a b r r' Hp Hab|t n r Hn|t n c r w ns Hn Hi IH]; intros q rest v' ns' Hnib Hk Hq; try done.
  - subst. inversion Hq as [|? ? n1 r1 Hp1|? pre a b r1 r1' Hp1 Hab|? n1 r1 Hn1|? n1 c1 r1 ? ? Hn1 Hi1]; subst.
    + rewrite <- (app_nil_r (trie_pk t)) in Hk at 1. apply app_inv_head in Hk as <-. done.
    + rewrite Hp1 in Hk. apply app_inv_head in Hk as <-. left.
    + rewrite Hp1, <- app_assoc in Hk. apply app_inv_head in Hk. cbn in Hk. by injection Hk.
    + apply (f_equal length) in Hk. rewrite !length_app in Hk. cbn in Hk. lia.
    + apply (f_equal length) in Hk. rewrite !length_app in Hk. cbn in Hk. lia.
  - subst w. apply Forall_app in Hnib as [_ Hnib]. apply Forall_cons in Hnib as [Hnn Hnib].
    inversion Hq as [|? ? n1 r1 Hp1|? pre a b r1 r1' Hp1 Hab|? n1 r1 Hn1|? n1 c1 r1 ? ? Hn1 Hi1]; subst.
    + apply app_inv_head in Hk as <-. apply list_elem_of_filter. split; [by rewrite Hn|]. apply elem_of_seqZ.
      unfold is_uint in Hnn. change (2 ^ 4) with 16 in Hnn. lia.
    + rewrite Hp1, <- app_assoc in Hk. apply app_inv_head in Hk as <-. left.
    + rewrite Hp1, <- !app_assoc in Hk. apply app_inv_head in Hk. cbn in Hk. by injection Hk.
    + rewrite <- app_assoc in Hk. apply app_inv_head in Hk. cbn in Hk. injection Hk as -> _. congruence.
    + rewrite <- app_assoc in Hk. apply app_inv_head in Hk. cbn in Hk. injection Hk as -> Hk.
      rewrite Hn in Hn1. injection Hn1 as <-. by apply (IH eq_refl _ _ _ _ Hnib Hk Hi1).
Qed.

Lemma query_bytes_spec q :
  Forall is_nibble q -> Nat.even (length q) = true -> exists b, query_bytes q = Some b /\ nibbles_of b = q /\ is_bytes b.
Proof.
  revert q. fix IH 1. intros [|n0 [|n1 q]] Hq Heven; [by exists []|done|].
  apply Forall_cons in Hq as [H0 Hq]. apply Forall_cons in Hq as [H1 Hq].
  destruct (IH q Hq Heven) as (b & Hb & Hn & Hbytes). cbn [query_bytes]. rewrite Hb. eexists. split; [done|].
  rewrite nibbles_of_cons, join_nibbles, Hn by done. unfold is_uint in H0, H1. change (2 ^ 4) with 16 in *.
  split; [by rewrite Z.div_add, Z.mod_add, Z.div_small, Z.mod_small by lia|].
  constructor; [|done]. unfold_uint. lia.
Qed.

(** ** The scan of a complete proof *)

Section scan.
Context `{Platform} `{Blake2bLaws}.
Context (t : Trie) (proof : list (list u8)) (root : Output).
Hypothesis t_ok : forall c, subtrie t c -> node_ok c.
Hypothesis t_nc : no_collision proof t.
Hypothesis t_root : calculate_merkle_value (root_config t) = Some root.

(** The proof has the root, and every node that is referred to by its hash. *)
Definition complete_proof : Prop :=
  (exists v, node_value t = Some v /\ 32 <= len v) /\
  forall c v, subtrie t c -> node_value c = Some v -> 32 <= len v -> v ∈ proof.

(** Keys of the trie are byte strings: only keys of an even number of nibbles
    have a value. *)
Definition byte_keys : Prop := forall k v ns, trie_info t k (Some v) ns -> Nat.even (length k) = true.

Hypothesis t_complete : complete_proof.
Hypothesis t_bytes : byte_keys.

Lemma query_ok q :
  Forall is_nibble q ->
  exists info v ns, trie_node_info q (Output_as_ref root) proof = Some (Ok info) /\
    trie_info t q v ns /\ ProofVerify.next_nibbles (info_children info) = ns /\
    (match info_storage_value info with NoValue => v = None | _ => is_Some v end).
Proof.
  intros Hq. destruct t_complete as [(w & Hw & Hlen) Hall].
  destruct (trie_node_info_correct t proof q t_ok t_nc Hq) as (root' & v & r & Hroot & Hv & Hr & Hout).
  rewrite t_root in Hroot. injection Hroot as <-. rewrite Hw in Hv. injection Hv as <-.
  destruct r as [info|[|e|n]]; cbn [outcome_ok] in Hout.
  - destruct Hout as (v & ns & H1' & H2' & H3'). exists info, v, ns. split; [done|]. split; [done|]. split; [done|].
    destruct (info_storage_value info); cbn in H3'; [by subst|destruct H3' as (x & -> & _); by exists x|done].
  - destruct Hout as [Hn|?]; [|lia]. exfalso. apply Hn. by apply (Hall t); [apply subtrie_refl| |].
  - done.
  - destruct Hout as (c & x & Hc & Hx & Hl & Hn). exfalso. apply Hn. by apply (Hall c).
Qed.

Lemma info_nibbles c q v ns : trie_info c q v ns -> subtrie t c -> Forall is_nibble ns.
Proof.
  induction 1 as [c|c q n r Hp|c pre a b r r' Hp Hab|c n r Hn|c n c' r v ns Hn Hi IH]; intros Hc; [| |done|done|].
  - apply Forall_forall. intros n [_ Hn]%list_elem_of_filter. apply elem_of_seqZ in Hn.
    unfold is_uint. change (2 ^ 4) with 16. lia.
  - destruct (t_ok c Hc) as [Hok _]. pose proof (ok_key _ Hok) as Hk. rewrite node_config_pk, Hp in Hk.
    apply Forall_app in Hk as [_ Hk]. apply Forall_cons in Hk as [Hk _]. by apply Forall_singleton.
  - apply IH. by eapply subtrie_child.
Qed.

(** What an iteration does, when every query succeeds. *)
Lemma resume_queries_spec first qs next any final :
  Forall (Forall is_nibble) qs ->
  exists N F, resume_queries first (Output_as_ref root) proof qs next any final =
      Some (Ok (next ++ N, any || negb (bool_decide (qs = [])), final ++ F)) /\
    (forall x, x ∈ N -> exists q v ns n, q ∈ qs /\ trie_info t q v ns /\ n ∈ ns /\ x = q ++ [n]) /\
    (forall b, b ∈ F -> is_bytes b /\ nibbles_of b ∈ qs /\ exists v ns, trie_info t (nibbles_of b) (Some v) ns) /\
    (forall q, q ∈ qs -> exists v ns, trie_info t q v ns /\ (forall n, n ∈ ns -> q ++ [n] ∈ N) /\
       (is_Some v -> exists b, b ∈ F /\ nibbles_of b = q)).
Proof.
  intros Hqs. revert next any final. induction Hqs as [|q qs Hq Hqs IH]; intros next any final; cbn [resume_queries].
  - exists [], []. rewrite !app_nil_r, orb_false_r. split; [done|]. split; [by intros ? ?%not_elem_of_nil|].
    split; by intros ? ?%not_elem_of_nil.
  - destruct (query_ok q Hq) as (info & v & ns & Hi & Ht & Hns & Hv). rewrite Hi, Hns.
    assert (Hkey : exists F0, match info_storage_value info with
              | Known _ | HashKnownValueMissing _ => let! key := query_bytes q in Some (final ++ [key])
              | NoValue => Some final end = Some (final ++ F0) /\
              (forall b, b ∈ F0 -> is_bytes b /\ nibbles_of b = q /\ is_Some v) /\ (is_Some v -> exists b, b ∈ F0 /\ nibbles_of b = q)).
    { destruct v as [w|].
      - destruct (query_bytes_spec q Hq (t_bytes _ _ _ Ht)) as (b & Hb & Hn & Hbytes). exists [b]. rewrite Hb.
        split; [by destruct (info_storage_value info)|].
        split; [by intros ? ->%list_elem_of_singleton|]. intros _. exists b. split; [left|done].
      - exists []. rewrite app_nil_r. split; [destruct (info_storage_value info); by destruct Hv|].
        split; [by intros ? ?%not_elem_of_nil|by intros [? ?]]. }
    destruct Hkey as (F0 & -> & HF1 & HF2).
    destruct (IH (next ++ map (fun n => q ++ [n]) ns) true (final ++ F0)) as (N & F & -> & HN & HF & Hall).
    exists (map (fun n => q ++ [n]) ns ++ N), (F0 ++ F). rewrite <- !app_assoc, (bool_decide_false (q :: qs = [])) by done.
    rewrite orb_true_r. split; [done|]. split; [|split].
    + intros x [Hx|Hx]%elem_of_app.
      * apply list_elem_of_fmap in Hx as (n & -> & Hn). exists q, v, ns, n. split; [left|done].
      * destruct (HN x Hx) as (q' & v' & ns' & n & Hq' & Hrest). exists q', v', ns', n. split; [by right|done].
    + intros b [Hb|Hb]%elem_of_app.
      * destruct (HF1 b Hb) as (Hbb & Hbq & [w ->]). rewrite Hbq. split; [done|]. split; [left|by eauto].
      * destruct (HF b Hb) as (Hbb & H1' & H2'). split; [done|]. split; [by right|done].
    + intros q' [->|Hq']%elem_of_cons.
      * exists v, ns. split; [done|]. split.
        -- intros n Hn. apply elem_of_app. left. apply list_elem_of_fmap. by exists n.
        -- intros Hs. destruct (HF2 Hs) as (b & Hb & Hbq). exists b. split; [by apply elem_of_app; left|done].
      * destruct (Hall q' Hq') as (v' & ns' & H1' & H2' & H3'). exists v', ns'. split; [done|]. split.
        -- intros n Hn. apply elem_of_app. right. auto.
        -- intros Hs. destruct (H3' Hs) as (b & Hb & Hbq). exists b. split; [by apply elem_of_app; right|done].
Qed.

(** The results are keys with the prefix; every such key is a result, or below a
    query. *)
Definition results_ok (p : list Nibble) (keys : list (list u8)) : Prop :=
  forall b, b ∈ keys -> is_bytes b /\ p `prefix_of` nibbles_of b /\ exists v ns, trie_info t (nibbles_of b) (Some v) ns.

Definition results_complete (p : list Nibble) (keys : list (list u8)) (queries : list (list Nibble)) : Prop :=
  forall k v ns, Forall is_nibble k -> p `prefix_of` k -> trie_info t k (Some v) ns ->
    (exists b, b ∈ keys /\ nibbles_of b = k) \/ exists q, q ∈ queries /\ q `prefix_of` k.

Lemma resume_loop_spec fuel first L p self :
  scan_root_hash self = Output_as_ref root -> next_queries self <> [] ->
  Forall (fun q => Forall is_nibble q /\ length q = L /\ p `prefix_of` q) (next_queries self) ->
  results_ok p (final_result self) -> results_complete p (final_result self) (next_queries self) ->
  (trie_height t + 2 <= L + fuel)%nat -> (1 <= fuel)%nat ->
  exists keys, resume_loop fuel first self proof = Some (Ok (Success keys)) /\
    results_ok p keys /\ results_complete p keys [].
Proof.
  revert first L self. induction fuel as [|fuel IH]; intros first L self Hroot Hne Hqs Hok Hcomp Hf H1f; [lia|].
  cbn [resume_loop]. rewrite Hroot.
  assert (Hnib : Forall (Forall is_nibble) (next_queries self)) by (eapply Forall_impl; [done|]; by intros q (? & _)).
  destruct (resume_queries_spec first (next_queries self) [] false (final_result self) Hnib) as (N & F & -> & HN & HF & Hall).
  rewrite bool_decide_false by done. cbn [negb orb app].
  assert (Hok' : results_ok p (final_result self ++ F)).
  { intros b [Hb|Hb]%elem_of_app; [by apply Hok|]. destruct (HF b Hb) as (Hbb & Hin & Hi). split; [done|]. split; [|done].
    rewrite Forall_forall in Hqs. by apply (Hqs _ Hin). }
  assert (Hcomp' : results_complete p (final_result self ++ F) N).
  { intros k v ns Hk Hp Hi. destruct (Hcomp k v ns Hk Hp Hi) as [(b & Hb & Hbk)|(q & Hq & [rest ->])].
    - left. exists b. split; [by apply elem_of_app; left|done].
    - destruct (Hall q Hq) as (v' & ns' & Hi' & Hn' & Hv'). pose proof (info_towards t _ v ns q rest v' ns' Hi Hk eq_refl Hi') as Ht.
      destruct rest as [|n rest].
      + left. subst v'. destruct (Hv' ltac:(by eexists)) as (b & Hb & Hbq). exists b. rewrite app_nil_r.
        split; [by apply elem_of_app; right|done].
      + right. exists (q ++ [n]). split; [by apply Hn'|]. exists rest. by rewrite <- app_assoc. }
  destruct N as [|x N]; [by eexists; split; [done|]|].
  destruct (HN x ltac:(left)) as (q0 & v0 & ns0 & n0 & Hq0 & Hi0 & Hn0 & _).
  assert (HL : (L <= trie_height t)%nat).
  { rewrite Forall_forall in Hqs. destruct (Hqs _ Hq0) as (_ & <- & _). apply (info_height _ _ _ _ Hi0).
    intros ->. by apply not_elem_of_nil in Hn0. }
  apply (IH false (S L)); cbn [scan_root_hash next_queries final_result]; [done|done| |done|done|lia|lia].
  apply Forall_forall. intros y Hy. destruct (HN y Hy) as (q & v & ns & n & Hq & Hi & Hn & ->).
  rewrite Forall_forall in Hqs. destruct (Hqs _ Hq) as (Hqn & Hql & Hqp). split; [|split].
  - apply Forall_app. split; [done|]. apply Forall_singleton.
    pose proof (info_nibbles t q v ns Hi (subtrie_refl t)) as Hns. rewrite Forall_forall in Hns. by apply Hns.
  - rewrite length_app, Hql. cbn. lia.
  - by apply prefix_app_r.
Qed.

End scan.

Lemma nibbles_prefix p k :
  is_bytes p -> is_bytes k -> nibbles_of p `prefix_of` nibbles_of k <-> p `prefix_of` k.
Proof.
  intros Hp. revert k. induction Hp as [|b p Hb Hp IH]; intros k Hk.
  - split; intros _; apply prefix_nil.
  - destruct Hk as [|c k Hc Hk].
    + split; [by intros ?%prefix_nil_inv|by intros ?%prefix_nil_inv].
    + rewrite !nibbles_of_cons. split.
      * intros Hpre. pose proof (prefix_cons_inv_1 _ _ _ _ Hpre) as Hd. apply prefix_cons_inv_2 in Hpre.
        pose proof (prefix_cons_inv_1 _ _ _ _ Hpre) as Hm. apply prefix_cons_inv_2 in Hpre.
        assert (b = c) as -> by (rewrite (Z.div_mod b 16), (Z.div_mod c 16) by lia; lia).
        by apply prefix_cons, IH.
      * intros Hpre. pose proof (prefix_cons_inv_1 _ _ _ _ Hpre) as ->. apply prefix_cons_inv_2 in Hpre.
        by apply prefix_cons, prefix_cons, IH.
Qed.

(** C37: With a proof that has the nodes of the trie, the scan of a prefix ends in one
    call, after at most as many iterations as the trie is high plus two, and gives exactly
    the keys that start with the prefix and have a value. The root node has at least 32
    bytes: a proof of a shorter root is refused ([short_root_not_found]). The nodes are
    those that the encoder writes without ambiguity, and the proof has no collision with
    the data of the trie. *)
Theorem prefix_scan_spec `{Platform} `{Blake2bLaws} (t : Trie) (proof : list (list u8)) (root : Output) (prefix : list u8) :
  (forall c, subtrie t c -> node_ok c) -> no_collision proof t ->
  calculate_merkle_value (root_config t) = Some root -> complete_proof t proof -> byte_keys t -> is_bytes prefix ->
  exists keys,
    scan_resume (trie_height t + 2) (prefix_scan prefix (Output_as_ref root)) proof = Some (Ok (Success keys)) /\
    forall k, is_bytes k ->
      k ∈ keys <-> prefix `prefix_of` k /\ exists v ns, trie_info t (nibbles_of k) (Some v) ns.
Proof.
  intros Hok Hnc Hroot Hcomp Hbytes Hpre. unfold scan_resume.
  set (p := nibbles_of prefix).
  assert (Hq : BytesToNibbles_all (bytes_to_nibbles prefix) = p) by (by rewrite BytesToNibbles_all_spec).
  destruct (resume_loop_spec t proof root Hok Hnc Hroot Hcomp Hbytes (trie_height t + 2) true (length p) p
              (prefix_scan prefix (Output_as_ref root))) as (keys & Hres & Hsound & Hcompl).
  - done.
  - done.
  - cbn [prefix_scan next_queries]. rewrite Hq. apply Forall_singleton. split; [by apply nibbles_of_nibbles|]. split; [done|]. done.
  - by intros b ?%not_elem_of_nil.
  - intros k v ns Hk Hp Hi. right. exists p. cbn [prefix_scan next_queries]. rewrite Hq. split; [left|done].
  - lia.
  - lia.
  - exists keys. split; [done|]. intros k Hk. split.
    + intros Hin. destruct (Hsound k Hin) as (_ & Hp & Hi). split; [by apply nibbles_prefix|done].
    + intros [Hp (v & ns & Hi)]. destruct (Hcompl (nibbles_of k) v ns) as [(b & Hb & Hbk)|(q & Hin & _)];
        [by apply nibbles_of_nibbles|by apply nibbles_prefix|done| |by apply not_elem_of_nil in Hin].
      destruct (Hsound b Hb) as (Hbb & _). by rewrite <- (nibbles_of_inj b k Hbb Hk Hbk).
Qed.

(** ** Concrete scans *)

#[local] Existing Instance platform64.
#[local] Existing Instance toy_blake2b.
#[local] Existing Instance toy_blake2b_laws.

Lemma example_byte_keys : byte_keys example_trie.
Proof.
  intros k v ns Hi. inversion Hi as [| | | |? n c rest ? ? Hn Hi']; subst.
  assert (c = example_leaf) as ->.
  { destruct (example_subtrie c) as [-> | ->]; [by eapply subtrie_child; [apply subtrie_refl|]| |done].
    exfalso. pose proof (height_child _ _ _ Hn). lia. }
  inversion Hi' as [| | | |? n2 c2 rest2 ? ? Hn2 Hi2]; subst; [done|].
  exfalso. revert Hn2. cbn. generalize (Z.to_nat n2). intros i. do 16 (destruct i as [|i]; [done|]). done.
Qed.

Lemma example_complete : complete_proof example_trie example_proof.
Proof.
  split; [eexists; split; [vm_compute; reflexivity|by vm_compute]|].
  intros c v [-> | ->]%example_subtrie Hv _; unfold example_proof; rewrite Hv; [left|right; left].
Qed.

Lemma prefix_scan_spec_witness :
  exists keys, scan_resume (trie_height example_trie + 2)
    (prefix_scan [18] (default [] (Output_as_ref <$> calculate_merkle_value (root_config example_trie)))) example_proof
    = Some (Ok (Success keys)) /\ [18] ∈ keys.
Proof.
  destruct (calculate_merkle_value (root_config example_trie)) as [root|] eqn:Hroot; [|exfalso; by vm_compute in Hroot].
  destruct (prefix_scan_spec example_trie example_proof root [18] example_ok example_no_collision Hroot
              example_complete example_byte_keys) as (keys & H1 & H2); [by apply Forall_singleton|].
  exists keys. split; [exact H1|]. apply H2; [by apply Forall_singleton|]. split; [done|].
  exists (replicate 40 1), []. apply (info_child example_trie 1 example_leaf [2]); [done|]. exact (info_here example_leaf).
Defined.

(** Two keys, of the bytes 18 and 19, each in a node of its own. *)
Definition leaf18 : Trie := TNode V0 [] (Some (replicate 40 1)) (replicate 16 None).
Definition leaf19 : Trie := TNode V0 [] (Some (replicate 40 2)) (replicate 16 None).
Definition two_keys : Trie := TNode V0 [1] None ([None; None; Some leaf18; Some leaf19] ++ replicate 12 None).
Definition two_keys_root : list u8 := default [] (Output_as_ref <$> calculate_merkle_value (root_config two_keys)).
Definition value_of (t : Trie) : list u8 := default [] (node_value t).

(** A proof that lacks a node makes the scan lose keys. A query that fails
    after the first iteration is dropped: with a proof of the root and of one of
    two leaves, the scan of the empty prefix succeeds with one of the two keys.
    And an error does not leave the scan as it was: the keys found before it in the
    same iteration are kept, and are found a second time by the next call. *)
Theorem prefix_scan_loses_keys :
  trie_info two_keys (nibbles_of [19]) (Some (replicate 40 2)) [] /\
  scan_resume 10 (prefix_scan [] two_keys_root) [value_of two_keys; value_of leaf18] = Some (Ok (Success [[18]])) /\
  exists scan scan' e,
    scan_resume 10 (prefix_scan [] two_keys_root) [value_of two_keys] = Some (Ok (InProgress scan)) /\
    scan_resume 10 scan [value_of two_keys; value_of leaf18] = Some (Err (scan', e)) /\
    final_result scan = [] /\ final_result scan' = [[18]] /\
    scan_resume 10 scan' [value_of two_keys; value_of leaf18; value_of leaf19] = Some (Ok (Success [[18]; [18]; [19]])).
Proof.
  split; [|split; [by vm_compute|]].
  - apply (info_child two_keys 3 leaf19 []); [done|]. exact (info_here leaf19).
  - do 3 eexists. split; [vm_compute; reflexivity|]. split; [vm_compute; reflexivity|]. repeat split; by vm_compute.
Qed.
