(* ===== verification/HeaderBase.v ===== *)
(** * What the codecs of the headers share ([src/src/header.rs] and its submodules)

    The errors of decoding, fixed-size arrays, the iterators over a list of
    authorities that is either a slice of decoded values or a slice of encoded
    bytes cut into chunks, and the interface between the header and the logs of
    the consensus engines: the header decodes and encodes their content through
    the class [LogCodec], and relies on [LogCodecLaws]. *)

From S2P Require Import Prelude Leb128 Scale.

(** [enum Error]. *)
Inductive Error :=
  | TooShort
  | TooLong
  | BlockNumberDecodeError
  | DigestLenDecodeError
  | DigestItemLenDecodeError
  | DigestItemDecodeError
  | UnknownDigestLogType (ty : u8)
  | SealIsntLastItem
  | BadAuraSealLength
  | BadAuraConsensusRefType
  | BadAuraAuthoritiesListLen
  | MultipleAuraPreRuntimeDigests
  | BadBabeSealLength
  | BadBabePreDigestRefType
  | BadBabeConsensusRefType
  | BadBabeNextConfigVersion
  | MultipleBabePreRuntimeDigests
  | MultipleBabeEpochDescriptors
  | MultipleBabeConfigDescriptors
  | MutipleRuntimeEnvironmentUpdated
  | UnexpectedBabeConfigDescriptor
  | GrandpaConsensusLogDecodeError
  | PowIdeologicallyNotSupported.

#[export] Instance Error_eq_dec : EqDecision Error.
Proof. solve_decision. Defined.

(** ** Parsers of the nom crate

    [nom::bytes::complete::take] and [nom::number::complete::le_u32] and [le_u64]
    ([nom_le 4] and [nom_le 8]), with what is documented of them: they return the
    rest of the input and the bytes or the integer at its start, or fail when the
    input is too short. [None] is an error. *)
Class Nom := {
  nom_take : nat -> list u8 -> option (list u8 * list u8);
  nom_le : nat -> list u8 -> option (list u8 * Z)
}.

Class NomLaws `{Nom} : Prop := {
  nom_take_spec : forall n bytes,
    nom_take n bytes = if Nat.leb n (length bytes) then Some (drop n bytes, take n bytes) else None;
  nom_le_spec : forall n bytes,
    nom_le n bytes
    = if Nat.leb n (length bytes) then Some (drop n bytes, from_le_bytes (take n bytes)) else None
}.

(** An instance. *)
Definition nom_complete : Nom := {|
  nom_take := fun n bytes =>
    if Nat.leb n (length bytes) then Some (drop n bytes, take n bytes) else None;
  nom_le := fun n bytes =>
    if Nat.leb n (length bytes) then Some (drop n bytes, from_le_bytes (take n bytes)) else None
|}.

Lemma nom_complete_laws : NomLaws (H := nom_complete).
Proof. split; reflexivity. Qed.

(** ** Arrays and vectors *)

(** [<[u8; n]>::try_from(slice)]. *)
Definition array_try_from (n : nat) (slice : list u8) : option (list u8) :=
  if Nat.eqb (length slice) n then Some slice else None.

(** A value of type [[u8; n]]. *)
Definition is_array (n : nat) (a : list u8) : Prop := length a = n /\ is_bytes a.

(** A [Vec<T>] whose elements take [size] bytes: no allocation is larger than
    [isize::MAX]. *)
Definition vec_ok `{Platform} {A} (size : Z) (l : list A) : Prop :=
  size * len l < 2 ^ (usize_bits - 1).

Lemma array_try_from_Some n slice a :
  array_try_from n slice = Some a <-> a = slice /\ length slice = n.
Proof. unfold array_try_from. destruct (Nat.eqb_spec (length slice) n); naive_solver. Qed.

Lemma array_try_from_array n a : is_array n a -> array_try_from n a = Some a.
Proof. intros [Ha _]. by apply array_try_from_Some. Qed.

Lemma len_array n a : is_array n a -> len a = Z.of_nat n.
Proof. intros [Ha _]. unfold len. by rewrite Ha. Qed.

Lemma take_array n a rest : is_array n a -> take n (a ++ rest) = a.
Proof. intros [Ha _]. by rewrite take_app_length'. Qed.

Lemma drop_array n a rest : is_array n a -> drop n (a ++ rest) = rest.
Proof. intros [Ha _]. by rewrite drop_app_length'. Qed.

Lemma is_array_app n m a b : is_array n a -> is_array m b -> is_array (n + m) (a ++ b).
Proof. intros [Ha ?] [Hb ?]. split; [rewrite length_app; lia | by apply Forall_app]. Qed.

Lemma is_array_cons n b a : is_u8 b -> is_array n a -> is_array (S n) (b :: a).
Proof. intros ? [Ha ?]. split; [cbn; lia | by constructor]. Qed.

Lemma is_array_le n v : is_array n (to_le_bytes n v).
Proof. split; [apply length_to_le_bytes | apply to_le_bytes_bytes]. Qed.

Lemma len_le_bytes n v : len (to_le_bytes n v) = Z.of_nat n.
Proof. apply len_array, is_array_le. Qed.

(** An integer of [n] bytes that is read back. *)
Lemma from_le_bytes_take n v rest :
  is_uint (8 * Z.of_nat n) v -> from_le_bytes (take n (to_le_bytes n v ++ rest)) = v.
Proof. intros Hv. rewrite (take_array n) by apply is_array_le. by apply from_to_le_bytes. Qed.

Lemma is_uint_from_le_bytes n bs :
  is_array n bs -> is_uint (8 * Z.of_nat n) (from_le_bytes bs).
Proof. intros [Hl Hb]. pose proof (from_le_bytes_bound bs Hb) as Hv. unfold len in Hv. by rewrite Hl in Hv. Qed.

Lemma is_array_take n bs : is_bytes bs -> (n <= length bs)%nat -> is_array n (take n bs).
Proof. intros Hb Hl. split; [by rewrite length_take_le | by apply Forall_take]. Qed.

Lemma half_usize `{Platform} : 2 ^ usize_bits = 2 * 2 ^ (usize_bits - 1).
Proof. destruct usize_bits_spec as [-> | ->]; reflexivity. Qed.

(** The smallest [isize::MAX] of a platform. *)
Lemma half_usize_big `{Platform} : 2 ^ 31 <= 2 ^ (usize_bits - 1).
Proof. destruct usize_bits_spec as [-> | ->]; vm_compute; discriminate. Qed.

#[export] Hint Rewrite len_le_bytes : len.

(** ** Compact lengths *)

Lemma encode_scale_compact_bytes v : is_uint 64 v -> is_bytes (encode_scale_compact v).
Proof.
  intros Hv. destruct (Z.lt_ge_cases v (2 ^ 30)) as [Hlt|Hge].
  - unfold encode_scale_compact. unfold is_uint in Hv.
    assert (forall x, is_u8 (Z.land x 255)) as H255.
    { intros x. rewrite land_255. unfold_uint. apply Z.mod_pos_bound. lia. }
    assert (forall x m, 0 <= m < 4 -> is_u8 (Z.lor (Z.shiftl (Z.land x 63) 2) m)) as H63.
    { intros x m Hm. pose proof (Z.mod_pos_bound x 64). rewrite (land_mask x 63 6) by lia.
      change (2 ^ 6) with 64. rewrite header_shift by lia. unfold_uint. lia. }
    destruct (Z.ltb_spec v 64).
    { rewrite Forall_singleton, Z.shiftl_mul_pow2 by lia. unfold_uint. lia. }
    rewrite (proj2 (Z.ltb_lt v (2 ^ 30))) by done.
    case_if; rewrite !Forall_cons; (split_and!; [by apply H63 | auto..]).
  - destruct (encode_scale_big 64 v) as (k & Hk & Hkw & _ & ->); [apply scale_width_64 | done.. |].
    constructor; [unfold_uint; lia | apply to_le_bytes_bytes].
Qed.

(** The decoder reads a prefix, and sees nothing after it. *)
Lemma nom_scale_compact_local w bs rest v :
  nom_scale_compact w bs = Ok (rest, v) ->
  exists pre, bs = pre ++ rest /\ pre <> [] /\
    forall rest', nom_scale_compact w (pre ++ rest') = Ok (rest', v).
Proof.
  destruct bs as [|b0 tl]; [done|]. cbn [nom_scale_compact].
  destruct (decide (Z.land b0 3 = 0)) as [E|E0].
  { rewrite E. intros [= <- <-]. exists [b0]. split_and!; [done..|]. intros rest'. cbn. by rewrite E. }
  destruct (decide (Z.land b0 3 = 1)) as [E|E1].
  { rewrite E. destruct tl as [|b1 tl]; [done|]. intros [= <- <-]. exists [b0; b1].
    split_and!; [done..|]. intros rest'. cbn. by rewrite E. }
  destruct (decide (Z.land b0 3 = 2)) as [E|E2].
  { rewrite E. destruct tl as [|b1 [|b2 [|b3 tl]]]; [done..|].
    repeat case_match; intros [= <- <-]; try done. exists [b0; b1; b2; b3].
    split_and!; [done..|]. intros rest'. cbn [app nom_scale_compact]. rewrite E.
    by repeat match goal with H : _ = Some _ |- _ => rewrite H; clear H; cbn beta iota zeta end. }
  assert (forall A (x y z t : A), match Z.land b0 3 with 0 => x | 1 => y | 2 => z | _ => t end = t) as Hm.
  { intros. destruct (Z.land b0 3) as [|[?|[]|]|]; done. }
  rewrite Hm. set (n := Z.shiftr b0 2 + 4).
  destruct (Z.ltb_spec (len (b0 :: tl)) (n + 1)) as [|Hlen]; [done|].
  destruct (Z.eqb_spec (default 0 ((b0 :: tl) !! Z.to_nat n)) 0) as [|Hnz]; [done|].
  destruct (scale_compact_loop _ _ 0 0) as [r|] eqn:Hloop; [|done]. intros [= <- <-].
  assert (length (take (Z.to_nat n) tl) = Z.to_nat n) as Ht.
  { rewrite length_take_le; [done|]. unfold len in Hlen. cbn [length] in Hlen. lia. }
  exists (b0 :: take (Z.to_nat n) tl). split_and!; [cbn; by rewrite take_drop | done |].
  intros rest'. cbn [app nom_scale_compact]. rewrite Hm. fold n.
  rewrite (proj2 (Z.ltb_ge _ _)) by (unfold len in *; cbn [length] in *; rewrite length_app, Ht; lia).
  assert ((b0 :: take (Z.to_nat n) tl ++ rest') !! Z.to_nat n = (b0 :: tl) !! Z.to_nat n) as ->.
  { rewrite app_comm_cons, lookup_app_l by (cbn [length]; lia).
    destruct (Z.to_nat n) as [|m]; [done|]. cbn [lookup list_lookup]. apply lookup_take_lt. lia. }
  rewrite (proj2 (Z.eqb_neq _ _)) by done.
  rewrite take_app_length', drop_app_length' by done. by rewrite Hloop.
Qed.

Section usize.
Context `{Platform}.

Lemma usize_encode v :
  is_usize v -> is_bytes (encode_scale_compact_usize v) /\ len (encode_scale_compact_usize v) <= 9.
Proof.
  intros Hv%is_usize_u64. split; [by apply encode_scale_compact_bytes|].
  apply (encode_scale_compact_len v 8); [exact Hv | lia].
Qed.

Lemma usize_decode_encode v rest :
  is_usize v -> nom_scale_compact_usize (encode_scale_compact_usize v ++ rest) = Ok (rest, v).
Proof. intros. apply nom_scale_compact_encode; [apply scale_width_usize | done]. Qed.

Lemma usize_decode_inv bs rest v :
  is_bytes bs -> nom_scale_compact_usize bs = Ok (rest, v) ->
  is_usize v /\ is_bytes rest /\ (length rest < length bs)%nat /\ exists pre, bs = pre ++ rest.
Proof.
  intros Hbs Hd. destruct (scale_compact_minimal usize_bits v bs rest) as [Hv (pre & -> & Hpre & _)];
    [apply scale_width_usize | done.. |].
  apply Forall_app in Hbs as [_ Hrest]. split_and!; [done.. | | by eexists].
  rewrite length_app. destruct pre; [done | cbn; lia].
Qed.

Lemma vec_ok_usize {A} size (l : list A) : 1 <= size -> vec_ok size l -> is_usize (len l).
Proof.
  unfold vec_ok. intros Hs Hv. pose proof half_usize. pose proof (len_nonneg l). unfold is_uint.
  nia.
Qed.

End usize.

(** ** Iterators over the authorities *)

(** [AuraAuthoritiesIterInner], [BabeAuthoritiesIterInner] and
    [GrandpaAuthoritiesIterInner]: the chunks of a slice of bytes ([Raw] or
    [Encoded], [slice::Chunks]), or a slice of values ([List] or [Decoded],
    [slice::Iter]). *)
Inductive AuthoritiesIter (A : Type) :=
  | Raw (slice : list u8)
  | Listed (l : list A).
Arguments Raw {A} _.
Arguments Listed {A} _.

(** What an engine says about its authorities: the length of a chunk, how [next]
    decodes one ([None] is a panic), the buffers of [scale_encoding], and the
    values of the type. *)
Class ChunkCodec (A : Type) := {
  chunk_len : nat;
  decode_chunk : list u8 -> option A;
  encode_chunk : A -> list (list u8);
  chunk_ok : A -> Prop
}.

Class ChunkCodecLaws {A} `{!ChunkCodec A} : Prop := {
  chunk_pos : (0 < chunk_len)%nat;
  chunk_encode_array : forall a, chunk_ok a -> is_array chunk_len (concat (encode_chunk a));
  chunk_decode_encode : forall a, chunk_ok a -> decode_chunk (concat (encode_chunk a)) = Some a;
  chunk_decode_length : forall bs a, decode_chunk bs = Some a -> length bs = chunk_len;
  chunk_decode_inv : forall bs a, decode_chunk bs = Some a -> is_bytes bs ->
    chunk_ok a /\ concat (encode_chunk a) = bs
}.

Section iter.
Context {A : Type} `{!ChunkCodec A}.

(** [Iterator::next]: [None] is a panic, [Some None] the end. *)
Definition iter_next (self : AuthoritiesIter A) : option (option (A * AuthoritiesIter A)) :=
  match self with
  | Listed [] => Some None
  | Listed (a :: l) => Some (Some (a, Listed l))
  | Raw [] => Some None
  | Raw slice =>
      let! a := decode_chunk (take chunk_len slice) in
      Some (Some (a, Raw (drop chunk_len slice)))
  end.

(** The number of turns of a loop over the iterator, at most. *)
Definition iter_fuel (self : AuthoritiesIter A) : nat :=
  match self with
  | Raw slice => S (length slice)
  | Listed l => S (length l)
  end.

(** A loop that runs [next] until the end. *)
Fixpoint iter_loop (fuel : nat) (self : AuthoritiesIter A) : option (list A) :=
  match fuel with
  | O => None
  | S fuel =>
      match iter_next self with
      | None => None
      | Some None => Some []
      | Some (Some (a, self)) => let! l := iter_loop fuel self in Some (a :: l)
      end
  end.

Definition iter_collect (self : AuthoritiesIter A) : option (list A) :=
  iter_loop (iter_fuel self) self.

(** [ExactSizeIterator::len], from the [size_hint] of the slice iterators. *)
Definition iter_len (self : AuthoritiesIter A) : usize :=
  match self with
  | Listed l => len l
  | Raw slice =>
      len slice / Z.of_nat chunk_len + (if len slice `mod` Z.of_nat chunk_len =? 0 then 0 else 1)
  end.

(** [PartialEq::eq]: the two iterators are run side by side. *)
Fixpoint iter_eq_loop `{EqDecision A} (fuel : nat) (a b : AuthoritiesIter A) : option bool :=
  match fuel with
  | O => None
  | S fuel =>
      let! x := iter_next a in
      let! y := iter_next b in
      match x, y with
      | Some (x, a), Some (y, b) => if decide (x = y) then iter_eq_loop fuel a b else Some false
      | None, None => Some true
      | _, _ => Some false
      end
  end.

Definition iter_eq `{EqDecision A} (a b : AuthoritiesIter A) : option bool :=
  iter_eq_loop (iter_fuel a) a b.

(** The buffers that the three engines write for a list of authorities: its
    length, and the authorities one after the other. *)
Definition authorities_scale_encoding (self : AuthoritiesIter A) : option (list (list u8)) :=
  let! l := iter_collect self in
  Some (encode_scale_compact_usize (iter_len self) :: concat (map encode_chunk l)).

(** *** Lemmas *)

Lemma iter_collect_listed l : iter_collect (Listed l) = Some l.
Proof.
  unfold iter_collect. induction l as [|a l IH]; [done|].
  transitivity (let! l := iter_loop (iter_fuel (Listed l)) (Listed l) in Some (a :: l)); [done|].
  by rewrite IH.
Qed.

Lemma iter_loop_fuel fuel self l fuel' :
  iter_loop fuel self = Some l -> (fuel <= fuel')%nat -> iter_loop fuel' self = Some l.
Proof.
  revert self l fuel'. induction fuel as [|fuel IH]; intros self l fuel' Hl Hf; [done|].
  destruct fuel' as [|fuel']; [lia|]. cbn [iter_loop] in *.
  destruct (iter_next self) as [[[a self']|]|]; [|done..].
  destruct (iter_loop fuel self') as [l'|] eqn:Hrec; [|done].
  by rewrite (IH _ _ fuel' Hrec) by lia.
Qed.

(** Two iterators are equal when they yield the same values, in whichever form. *)
Lemma iter_eq_spec `{EqDecision A} a b la lb :
  iter_collect a = Some la -> iter_collect b = Some lb -> iter_eq a b = Some (bool_decide (la = lb)).
Proof.
  unfold iter_collect, iter_eq. generalize (iter_fuel a), (iter_fuel b). intros fa fb.
  revert a b la lb fb. induction fa as [|fa IH]; intros a b la lb fb Ha Hb; [done|].
  destruct fb as [|fb]; [done|]. cbn [iter_loop iter_eq_loop] in *.
  destruct (iter_next a) as [[[x a']|]|], (iter_next b) as [[[y b']|]|]; try done;
    repeat match goal with
    | H : (let! _ := ?e in _) = Some _ |- _ => destruct e eqn:?; [|done]
    end; simplify_eq; try by rewrite bool_decide_eq_false_2 by done.
  - case_decide as Hxy; [subst y | by rewrite bool_decide_eq_false_2 by congruence].
    rewrite (IH a' b' _ _ fb) by done. f_equal. apply bool_decide_ext. naive_solver.
  - by rewrite bool_decide_eq_true_2.
Qed.

Context `{!ChunkCodecLaws}.

(** The number of values that are yielded is the announced one, since a chunk that
    is not whole is not decoded. *)
Lemma iter_loop_raw_length fuel slice l :
  iter_loop fuel (Raw slice) = Some l -> length slice = (chunk_len * length l)%nat.
Proof.
  revert slice l. induction fuel as [|fuel IH]; intros slice l; [done|]. cbn [iter_loop iter_next].
  destruct slice as [|b slice]; [intros [= <-]; cbn; lia|].
  destruct (decode_chunk _) as [a|] eqn:Ha; [|done]. apply chunk_decode_length in Ha.
  destruct (iter_loop fuel _) as [l'|] eqn:Hl; [|done]. intros [= <-].
  apply IH in Hl. rewrite length_drop in Hl. rewrite length_take in Ha. cbn [length] in *. lia.
Qed.

Lemma iter_collect_len (self : AuthoritiesIter A) l :
  iter_collect self = Some l -> iter_len self = len l.
Proof.
  destruct self as [slice|l']; [|rewrite iter_collect_listed; naive_solver].
  intros Hl%iter_loop_raw_length. cbn [iter_len]. pose proof chunk_pos.
  unfold len. rewrite Hl, Nat2Z.inj_mul, Z.mul_comm, Z.div_mul, Z.mod_mul by lia. cbn. lia.
Qed.

(** The encoding depends on the authorities only. *)
Lemma authorities_encoding_collect self l :
  iter_collect self = Some l ->
  authorities_scale_encoding self
  = Some (encode_scale_compact_usize (len l) :: concat (map encode_chunk l)).
Proof. intros Hl. unfold authorities_scale_encoding. by rewrite Hl, (iter_collect_len self l). Qed.

Definition authorities_bytes (l : list A) : list u8 := concat (map (fun a => concat (encode_chunk a)) l).

Lemma concat_encodings (l : list A) : concat (concat (map encode_chunk l)) = authorities_bytes l.
Proof.
  unfold authorities_bytes. induction l as [|a l IH]; cbn [map concat]; [done|].
  by rewrite concat_app, IH.
Qed.

Lemma authorities_bytes_array l :
  Forall chunk_ok l -> is_array (chunk_len * length l) (authorities_bytes l).
Proof.
  unfold authorities_bytes. induction 1 as [|a l Ha Hl [IH1 IH2]]; cbn [map concat length].
  - split; [cbn; lia | done].
  - destruct (chunk_encode_array a Ha) as [Hlen Hb]. split.
    + rewrite length_app, IH1, Hlen. lia.
    + apply Forall_app. done.
Qed.

Lemma authorities_encoded `{Platform} l :
  Forall chunk_ok l -> is_usize (len l) ->
  is_bytes (encode_scale_compact_usize (len l) ++ authorities_bytes l) /\
  len (encode_scale_compact_usize (len l) ++ authorities_bytes l) <= 9 + Z.of_nat chunk_len * len l.
Proof.
  intros Hl Hn. destruct (usize_encode _ Hn) as [Hb Hlen].
  pose proof (authorities_bytes_array l Hl) as Harr. split; [apply Forall_app; by destruct Harr|].
  rewrite len_app, (len_array _ _ Harr). unfold len in *. lia.
Qed.

Lemma iter_next_raw a l :
  chunk_ok a ->
  iter_next (Raw (concat (encode_chunk a) ++ authorities_bytes l))
  = Some (Some (a, Raw (authorities_bytes l))).
Proof.
  intros Ha. pose proof (chunk_encode_array a Ha) as Harr. pose proof chunk_pos.
  assert (exists b bs, concat (encode_chunk a) = b :: bs) as (b & bs & Hb).
  { destruct Harr as [Hlen _]. destruct (concat _) as [|b bs]; [cbn in Hlen; lia | by exists b, bs]. }
  unfold iter_next. rewrite Hb. cbn [app].
  change (b :: bs ++ ?x) with ((b :: bs) ++ x). rewrite <- Hb.
  rewrite (take_array chunk_len), (drop_array chunk_len) by done.
  by rewrite chunk_decode_encode by done.
Qed.

Lemma iter_collect_raw l :
  Forall chunk_ok l -> iter_collect (Raw (authorities_bytes l)) = Some l.
Proof.
  intros Hl. unfold iter_collect. cbn [iter_fuel].
  destruct (authorities_bytes_array l Hl) as [-> _].
  assert (length l < S (chunk_len * length l))%nat as Hf by (pose proof chunk_pos; nia).
  revert Hf. generalize (S (chunk_len * length l)) as fuel.
  induction Hl as [|a l Ha Hl IH]; intros fuel Hf; (destruct fuel as [|fuel]; [cbn in Hf; lia|]); [done|].
  cbn [iter_loop]. change (authorities_bytes (a :: l)) with (concat (encode_chunk a) ++ authorities_bytes l).
  rewrite iter_next_raw by done. cbn in Hf. by rewrite IH by lia.
Qed.

(** Bytes that are all yielded are the encoding of what is yielded. *)
Lemma iter_collect_raw_inv slice l :
  is_bytes slice -> iter_collect (Raw slice) = Some l ->
  Forall chunk_ok l /\ slice = authorities_bytes l.
Proof.
  unfold iter_collect. generalize (iter_fuel (Raw slice)) as fuel.
  intros fuel. revert slice l. induction fuel as [|fuel IH]; intros slice l Hb; [done|].
  cbn [iter_loop iter_next]. destruct slice as [|b slice]; [by intros [= <-]|].
  destruct (decode_chunk _) as [a|] eqn:Ha; [|done].
  destruct (iter_loop fuel _) as [l'|] eqn:Hl; [|done]. intros [= <-].
  apply IH in Hl as [Hok Heq]; [|by apply Forall_drop].
  apply chunk_decode_inv in Ha as [Haok Haeq]; [|by apply Forall_take].
  split; [by constructor|]. unfold authorities_bytes. cbn [map concat].
  rewrite Haeq. fold (authorities_bytes l'). by rewrite <- Heq, take_drop.
Qed.

(** A whole number of chunks, each of which is accepted, is yielded. *)
Lemma iter_collect_aligned n slice :
  length slice = (chunk_len * n)%nat ->
  (forall i, (i < n)%nat -> is_Some (decode_chunk (take chunk_len (drop (chunk_len * i) slice)))) ->
  exists l, iter_collect (Raw slice) = Some l /\ length l = n.
Proof.
  intros Hlen Hdec.
  assert (exists l, iter_loop (S n) (Raw slice) = Some l /\ length l = n) as (l & Hl & Hn).
  { revert slice Hlen Hdec. induction n as [|n IH]; intros slice Hlen Hdec; pose proof chunk_pos.
    - exists []. destruct slice; [done | cbn in Hlen; lia].
    - destruct (Hdec 0%nat) as [a Ha]; [lia|]. rewrite Nat.mul_0_r, drop_0 in Ha.
      destruct (IH (drop chunk_len slice)) as (l & Hl & Hn).
      { rewrite length_drop. lia. }
      { intros i Hi. rewrite drop_drop. replace (chunk_len + chunk_len * i)%nat with (chunk_len * S i)%nat by lia.
        apply Hdec. lia. }
      exists (a :: l). split; [|cbn; lia]. remember (S n) as m. cbn [iter_loop iter_next].
      destruct slice as [|b slice]; [cbn in Hlen; lia|]. by rewrite Ha, Hl. }
  exists l. split; [|done]. unfold iter_collect.
  assert (S n <= iter_fuel (Raw slice))%nat as Hf.
  { cbn [iter_fuel]. pose proof chunk_pos. nia. }
  by apply (iter_loop_fuel (S n)).
Qed.

End iter.

(** ** The interface of a log of a consensus engine

    [owned] is the type of the owned log and [borrowed] its [...Ref]; they differ
    by the lists of authorities. *)
Class LogCodec (owned borrowed : Type) := {
  log_from_slice : list u8 -> outcome Error borrowed;
  (* The buffers of [scale_encoding]. *)
  log_scale_encoding : borrowed -> option (list (list u8));
  (* [From<&owned> for borrowed]. *)
  log_borrow : owned -> borrowed;
  (* [From<borrowed> for owned]. *)
  log_into : borrowed -> option owned;
  (* The values of the owned type. *)
  log_ok : owned -> Prop;
  (* A borrowed log whose encoded authorities are a whole number of chunks. *)
  log_aligned : borrowed -> Prop
}.

(** What the header relies on: a log can be encoded and its encoding decodes to
    it; a log can be borrowed and taken back; the encoding does not depend on the
    form of the authorities; and a decoded log can be taken, when its authorities
    are a whole number. *)
Class LogCodecLaws {owned borrowed} `{Platform} `{!LogCodec owned borrowed} : Prop := {
  log_roundtrip : forall o, log_ok o -> exists bufs r,
    log_scale_encoding (log_borrow o) = Some bufs /\ is_bytes (concat bufs) /\
    is_usize (len (concat bufs)) /\
    log_from_slice (concat bufs) = Some (Ok r) /\ log_into r = Some o /\ log_aligned r;
  log_borrow_into : forall o, log_into (log_borrow o) = Some o;
  log_encoding_into : forall r o, log_into r = Some o ->
    log_scale_encoding r = log_scale_encoding (log_borrow o);
  log_into_decoded : forall bs r, is_bytes bs -> len bs < 2 ^ (usize_bits - 1) ->
    log_from_slice bs = Some (Ok r) -> log_aligned r ->
    exists o, log_into r = Some o /\ log_ok o
}.
