(* ===== verification/HeaderAura.v ===== *)
(** * Aura logs of a header ([src/src/header/aura.rs])

    Borrowed and owned types are one type with the list of authorities as a
    parameter; [AuraAuthorityRef] and [AuraAuthority] are the same record. *)

From S2P Require Import Prelude Leb128 Scale HeaderBase.

(** ** Data *)

Record AuraAuthority := mkAuraAuthority { aura_public_key : list u8 }.

#[export] Instance AuraAuthority_eq_dec : EqDecision AuraAuthority.
Proof. solve_decision. Defined.

Definition AuraAuthoritiesIter : Type := AuthoritiesIter AuraAuthority.

Inductive AuraConsensusLogOf (authorities : Type) :=
  | AuraAuthoritiesChange (l : authorities)
  | AuraOnDisabled (n : u32).
Arguments AuraAuthoritiesChange {_} _.
Arguments AuraOnDisabled {_} _.

Definition AuraConsensusLogRef : Type := AuraConsensusLogOf AuraAuthoritiesIter.
Definition AuraConsensusLog : Type := AuraConsensusLogOf (list AuraAuthority).

Record AuraPreDigest := mkAuraPreDigest { aura_slot_number : u64 }.

(** ** Authorities *)

Definition AuraAuthority_scale_encoding (self : AuraAuthority) : list (list u8) :=
  [aura_public_key self].

(** The decoding of a chunk in [next]: [assert_eq!(item.len(), 32)]. *)
Definition AuraAuthority_from_chunk (item : list u8) : option AuraAuthority :=
  let! key := array_try_from 32 item in Some (mkAuraAuthority key).

Definition AuraAuthority_ok (a : AuraAuthority) : Prop := is_array 32 (aura_public_key a).

#[export] Instance AuraAuthority_chunks : ChunkCodec AuraAuthority := {|
  chunk_len := 32;
  decode_chunk := AuraAuthority_from_chunk;
  encode_chunk := AuraAuthority_scale_encoding;
  chunk_ok := AuraAuthority_ok
|}.

Definition AuraAuthoritiesIter_next (self : AuraAuthoritiesIter)
    : option (option (AuraAuthority * AuraAuthoritiesIter)) := iter_next self.
Definition AuraAuthoritiesIter_len (self : AuraAuthoritiesIter) : usize := iter_len self.
Definition AuraAuthoritiesIter_eq (self other : AuraAuthoritiesIter) : option bool :=
  iter_eq self other.

Definition AuraAuthoritiesIter_from_slice (slice : list AuraAuthority) : AuraAuthoritiesIter :=
  Listed slice.

Section aura.
Context `{Platform}.

Definition AuraAuthoritiesIter_decode (data : list u8) : result Error AuraAuthoritiesIter :=
  let? (data, num_items) := map_err (fun _ => TooShort) (nom_scale_compact_usize data) in
  let? expected := ok_or (checked_mul usize_bits num_items 32) BadAuraAuthoritiesListLen in
  if negb (len data =? expected) then Err BadAuraAuthoritiesListLen
  else Ok (Raw data).

(** ** Consensus logs *)

Definition AuraConsensusLogRef_from_slice (slice : list u8) : result Error AuraConsensusLogRef :=
  match slice with
  | 1 :: tl => let? l := AuraAuthoritiesIter_decode tl in Ok (AuraAuthoritiesChange l)
  | 2 :: tl =>
      let? a := ok_or (array_try_from 4 tl) DigestItemDecodeError in
      Ok (AuraOnDisabled (from_le_bytes a))
  | _ :: _ => Err BadAuraConsensusRefType
  | [] => Err TooShort
  end.

Definition AuraConsensusLogRef_scale_encoding (self : AuraConsensusLogRef)
    : option (list (list u8)) :=
  match self with
  | AuraAuthoritiesChange list =>
      let! body := authorities_scale_encoding list in Some ([1] :: body)
  | AuraOnDisabled digest => Some [[2]; to_le_bytes 4 digest]
  end.

(** [From<&AuraConsensusLog> for AuraConsensusLogRef]. *)
Definition AuraConsensusLogRef_from (a : AuraConsensusLog) : AuraConsensusLogRef :=
  match a with
  | AuraAuthoritiesChange v => AuraAuthoritiesChange (Listed v)
  | AuraOnDisabled v => AuraOnDisabled v
  end.

(** [From<AuraConsensusLogRef> for AuraConsensusLog]. *)
Definition AuraConsensusLog_from (a : AuraConsensusLogRef) : option AuraConsensusLog :=
  match a with
  | AuraAuthoritiesChange v => let! l := iter_collect v in Some (AuraAuthoritiesChange l)
  | AuraOnDisabled v => Some (AuraOnDisabled v)
  end.

(** ** Pre-runtime digests *)

Definition AuraPreDigest_from_slice (slice : list u8) : result Error AuraPreDigest :=
  if negb (len slice =? 8) then Err TooShort
  else Ok (mkAuraPreDigest (from_le_bytes slice)).

Definition AuraPreDigest_scale_encoding (self : AuraPreDigest) : list (list u8) :=
  [to_le_bytes 8 (aura_slot_number self)].

(** ** The codec *)

Definition AuraConsensusLog_ok (o : AuraConsensusLog) : Prop :=
  match o with
  | AuraAuthoritiesChange l => Forall chunk_ok l /\ vec_ok 32 l
  | AuraOnDisabled n => is_u32 n
  end.

Definition AuraPreDigest_ok (o : AuraPreDigest) : Prop := is_u64 (aura_slot_number o).

#[export] Instance AuraConsensusLog_codec : LogCodec AuraConsensusLog AuraConsensusLogRef := {|
  log_from_slice := fun slice => Some (AuraConsensusLogRef_from_slice slice);
  log_scale_encoding := AuraConsensusLogRef_scale_encoding;
  log_borrow := AuraConsensusLogRef_from;
  log_into := AuraConsensusLog_from;
  log_ok := AuraConsensusLog_ok;
  log_aligned := fun _ => True
|}.

#[export] Instance AuraPreDigest_codec : LogCodec AuraPreDigest AuraPreDigest := {|
  log_from_slice := fun slice => Some (AuraPreDigest_from_slice slice);
  log_scale_encoding := fun self => Some (AuraPreDigest_scale_encoding self);
  log_borrow := fun o => o;
  log_into := fun o => Some o;
  log_ok := AuraPreDigest_ok;
  log_aligned := fun _ => True
|}.

(** ** Proofs *)

#[export] Instance AuraAuthority_chunk_laws : ChunkCodecLaws (A := AuraAuthority).
Proof.
  split; cbn [chunk_len chunk_ok encode_chunk decode_chunk AuraAuthority_chunks
    AuraAuthority_scale_encoding concat].
  - lia.
  - intros a Ha. by rewrite app_nil_r.
  - intros a Ha. rewrite app_nil_r. unfold AuraAuthority_from_chunk.
    rewrite array_try_from_array by done. by destruct a.
  - intros bs a. unfold AuraAuthority_from_chunk. destruct (array_try_from 32 bs) eqn:He; [|done].
    by apply array_try_from_Some in He as [_ ?].
  - intros bs a. unfold AuraAuthority_from_chunk. destruct (array_try_from 32 bs) eqn:He; [|done].
    apply array_try_from_Some in He as [-> ?]. intros [= <-] Hb. rewrite app_nil_r. done.
Qed.

Lemma AuraAuthoritiesIter_decode_encode (l : list AuraAuthority) :
  Forall chunk_ok l -> vec_ok 32 l ->
  AuraAuthoritiesIter_decode (encode_scale_compact_usize (len l) ++ authorities_bytes l)
  = Ok (Raw (authorities_bytes l)).
Proof.
  intros Hl Hv. unfold AuraAuthoritiesIter_decode.
  rewrite usize_decode_encode by (by apply (vec_ok_usize 32)). cbn [map_err result_bind].
  unfold vec_ok in Hv. pose proof half_usize. pose proof (len_nonneg l).
  unfold checked_mul. rewrite checked_small by (unfold is_uint; lia). cbn [ok_or result_bind].
  rewrite (len_array _ _ (authorities_bytes_array l Hl)).
  rewrite (proj2 (Z.eqb_eq _ _)); [done|]. unfold len. cbn [chunk_len AuraAuthority_chunks]. lia.
Qed.

Lemma AuraAuthoritiesIter_decode_inv data it :
  is_bytes data -> len data < 2 ^ (usize_bits - 1) -> AuraAuthoritiesIter_decode data = Ok it ->
  exists l : list AuraAuthority, it = Raw (authorities_bytes l) /\ Forall chunk_ok l /\ vec_ok 32 l.
Proof.
  intros Hb Hlen. unfold AuraAuthoritiesIter_decode.
  destruct (nom_scale_compact_usize data) as [[rest n]|] eqn:Hd; [|done]. cbn [map_err result_bind].
  apply usize_decode_inv in Hd as (Hn & Hrest & Hlt & _); [|done].
  destruct (checked_mul usize_bits n 32) as [e|] eqn:He; [|done]. cbn [ok_or result_bind].
  apply checked_Some in He as [-> He].
  destruct (Z.eqb_spec (len rest) (n * 32)) as [Heq|]; cbn [negb]; [|done]. intros [= <-].
  unfold len in Heq, Hlen. unfold is_uint in Hn.
  destruct (iter_collect_aligned (A := AuraAuthority) (Z.to_nat n) rest) as (l & Hl & Hln).
  { cbn [chunk_len AuraAuthority_chunks]. lia. }
  { intros i Hi. cbn [decode_chunk AuraAuthority_chunks chunk_len]. unfold AuraAuthority_from_chunk.
    rewrite array_try_from_array; [by eexists|]. apply is_array_take; [by apply Forall_drop|].
    rewrite length_drop. lia. }
  apply iter_collect_raw_inv in Hl as [Hok ->]; [|done]. exists l. split_and!; [done..|].
  unfold vec_ok, len. lia.
Qed.

#[export] Instance AuraConsensusLog_laws :
  LogCodecLaws (owned := AuraConsensusLog) (borrowed := AuraConsensusLogRef).
Proof.
  split; cbn [log_ok log_scale_encoding log_borrow log_into log_from_slice log_aligned AuraConsensusLog_codec].
  - intros [l|n] Hok; cbn [AuraConsensusLog_ok] in Hok.
    + destruct Hok as [Hl Hv]. exists ([1] :: encode_scale_compact_usize (len l) :: concat (map encode_chunk l)).
      exists (AuraAuthoritiesChange (Raw (authorities_bytes l))).
      cbn [concat]. rewrite concat_encodings.
      destruct (authorities_encoded l Hl (vec_ok_usize 32 l ltac:(lia) Hv)) as [Hb Hn].
      split_and!; [| | | | |done].
      * cbn. by rewrite (authorities_encoding_collect _ l) by apply iter_collect_listed.
      * by constructor.
      * unfold vec_ok in Hv. pose proof half_usize. pose proof half_usize_big.
        cbn [chunk_len AuraAuthority_chunks] in Hn. unfold is_uint. len_lia.
      * cbn [app AuraConsensusLogRef_from_slice]. by rewrite AuraAuthoritiesIter_decode_encode by done.
      * cbn [AuraConsensusLog_from]. by rewrite iter_collect_raw by done.
    + exists [[2]; to_le_bytes 4 n], (AuraOnDisabled n).
      cbn [concat AuraConsensusLog_from]. rewrite app_nil_r. pose proof (is_array_le 4 n) as Harr.
      split_and!; [done | constructor; [done | by destruct Harr] | | |done..].
      * pose proof half_usize. pose proof half_usize_big. unfold is_uint. len_lia.
      * cbn [app AuraConsensusLogRef_from_slice]. rewrite array_try_from_array by done.
        cbn [ok_or result_bind]. by rewrite from_to_le_bytes by done.
  - intros [l|n]; cbn [AuraConsensusLogRef_from AuraConsensusLog_from]; [by rewrite iter_collect_listed | done].
  - intros [l|n] o; cbn [AuraConsensusLog_from]; [|by intros [= <-]].
    destruct (iter_collect l) as [l'|] eqn:Hl; [|done]. intros [= <-].
    cbn. rewrite (authorities_encoding_collect _ _ Hl).
    by rewrite (authorities_encoding_collect _ l') by apply iter_collect_listed.
  - intros bs r Hb Hlen [= Hd] _. unfold AuraConsensusLogRef_from_slice in Hd.
    repeat case_match; simplify_eq/=.
    + destruct (array_try_from 4 _) eqn:Ha; [|done]. apply array_try_from_Some in Ha as [-> Ha].
      simplify_eq/=. eexists. split; [done|]. apply (is_uint_from_le_bytes 4). by inversion Hb.
    + destruct (AuraAuthoritiesIter_decode _) as [it|] eqn:Hit; [|done]. simplify_eq/=.
      apply AuraAuthoritiesIter_decode_inv in Hit as (l' & -> & Hl' & Hv); [|by inversion Hb | len_lia].
      rewrite iter_collect_raw by done. by eexists.
Qed.

#[export] Instance AuraPreDigest_laws : LogCodecLaws (owned := AuraPreDigest) (borrowed := AuraPreDigest).
Proof.
  split; cbn [log_ok log_scale_encoding log_borrow log_into log_from_slice log_aligned AuraPreDigest_codec];
    [|done|naive_solver|].
  - intros [n] Hn. exists [to_le_bytes 8 n], (mkAuraPreDigest n). cbn [concat]. rewrite app_nil_r.
    unfold AuraPreDigest_from_slice. pose proof half_usize. pose proof half_usize_big.
    rewrite len_le_bytes. cbn [negb Z.eqb]. rewrite (proj2 (Z.eqb_eq _ _)) by lia.
    split_and!; [done | apply to_le_bytes_bytes | unfold is_uint; lia | | done..].
    cbn [negb]. by rewrite from_to_le_bytes by done.
  - intros bs r Hb _ [= Hd] _. unfold AuraPreDigest_from_slice in Hd.
    destruct (Z.eqb_spec (len bs) 8) as [Hlen|]; cbn [negb] in Hd; [|done]. injection Hd as <-.
    eexists. split; [done|]. apply (is_uint_from_le_bytes 8). split; [unfold len in Hlen; lia | done].
Qed.

End aura.
