(* ===== verification/HeaderBabe.v ===== *)
(** * Babe logs of a header ([src/src/header/babe.rs])

    As for Aura, borrowed and owned types are one type with the list of
    authorities as a parameter. The product [authorities_len * 40] is not checked
    by the source: it wraps around, and [BabeNextEpochRef_from_slice] can panic or
    leave a last chunk of less than 40 bytes, on which [next] panics. *)

From S2P Require Import Prelude Leb128 Scale HeaderBase.

(** ** Data *)

Record BabeAuthority := mkBabeAuthority { babe_public_key : list u8; babe_weight : u64 }.

#[export] Instance BabeAuthority_eq_dec : EqDecision BabeAuthority.
Proof. solve_decision. Defined.

Definition BabeAuthoritiesIter : Type := AuthoritiesIter BabeAuthority.

Record BabeNextEpochOf (authorities : Type) := mkBabeNextEpoch {
  epoch_authorities : authorities;
  epoch_randomness : list u8
}.
Arguments mkBabeNextEpoch {_} _ _.
Arguments epoch_authorities {_} _.
Arguments epoch_randomness {_} _.

Definition BabeNextEpochRef : Type := BabeNextEpochOf BabeAuthoritiesIter.
Definition BabeNextEpoch : Type := BabeNextEpochOf (list BabeAuthority).

Inductive BabeAllowedSlots :=
  | PrimarySlots
  | PrimaryAndSecondaryPlainSlots
  | PrimaryAndSecondaryVrfSlots.

Record BabeNextConfig := mkBabeNextConfig {
  config_c : u64 * u64;
  config_allowed_slots : BabeAllowedSlots
}.

Inductive BabeConsensusLogOf (epoch : Type) :=
  | NextEpochData (v : epoch)
  | BabeOnDisabled (n : u32)
  | NextConfigData (v : BabeNextConfig).
Arguments NextEpochData {_} _.
Arguments BabeOnDisabled {_} _.
Arguments NextConfigData {_} _.

Definition BabeConsensusLogRef : Type := BabeConsensusLogOf BabeNextEpochRef.
Definition BabeConsensusLog : Type := BabeConsensusLogOf BabeNextEpoch.

(** [BabePrimaryPreDigest] and its [Ref]. *)
Record BabePrimaryPreDigest := mkBabePrimaryPreDigest {
  primary_authority_index : u32;
  primary_slot_number : u64;
  primary_vrf_output : list u8;
  primary_vrf_proof : list u8
}.

Record BabeSecondaryPlainPreDigest := mkBabeSecondaryPlainPreDigest {
  plain_authority_index : u32;
  plain_slot_number : u64
}.

(** [BabeSecondaryVRFPreDigest] and its [Ref] have the fields of the primary one. *)
Definition BabeSecondaryVRFPreDigest : Type := BabePrimaryPreDigest.

Inductive BabePreDigest :=
  | Primary (digest : BabePrimaryPreDigest)
  | SecondaryPlain (digest : BabeSecondaryPlainPreDigest)
  | SecondaryVRF (digest : BabeSecondaryVRFPreDigest).

(** ** Authorities *)

Definition BabeAuthority_scale_encoding (self : BabeAuthority) : list (list u8) :=
  [babe_public_key self; to_le_bytes 8 (babe_weight self)].

(** The decoding of a chunk in [next]: [assert_eq!(item.len(), 40)]. *)
Definition BabeAuthority_from_chunk (item : list u8) : option BabeAuthority :=
  let! item := array_try_from 40 item in
  Some (mkBabeAuthority (take 32 item) (from_le_bytes (drop 32 item))).

Definition BabeAuthority_ok (a : BabeAuthority) : Prop :=
  is_array 32 (babe_public_key a) /\ is_u64 (babe_weight a).

#[export] Instance BabeAuthority_chunks : ChunkCodec BabeAuthority := {|
  chunk_len := 40;
  decode_chunk := BabeAuthority_from_chunk;
  encode_chunk := BabeAuthority_scale_encoding;
  chunk_ok := BabeAuthority_ok
|}.

Definition BabeAuthoritiesIter_next (self : BabeAuthoritiesIter)
    : option (option (BabeAuthority * BabeAuthoritiesIter)) := iter_next self.
Definition BabeAuthoritiesIter_len (self : BabeAuthoritiesIter) : usize := iter_len self.
Definition BabeAuthoritiesIter_eq (self other : BabeAuthoritiesIter) : option bool :=
  iter_eq self other.
Definition BabeAuthoritiesIter_from_slice (slice : list BabeAuthority) : BabeAuthoritiesIter :=
  Listed slice.

(** ** Pre-runtime digests *)

Definition BabePrimaryPreDigestRef_from_slice (slice : list u8) : result Error BabePrimaryPreDigest :=
  if negb (len slice =? 4 + 8 + 32 + 64) then Err TooShort
  else Ok {|
    primary_authority_index := from_le_bytes (take 4 slice);
    primary_slot_number := from_le_bytes (take 8 (drop 4 slice));
    primary_vrf_output := take 32 (drop 12 slice);
    primary_vrf_proof := take 64 (drop 44 slice)
  |}.

Definition BabePrimaryPreDigestRef_scale_encoding (self : BabePrimaryPreDigest) : list (list u8) :=
  [to_le_bytes 4 (primary_authority_index self); to_le_bytes 8 (primary_slot_number self);
   primary_vrf_output self; primary_vrf_proof self].

Definition BabeSecondaryPlainPreDigest_from_slice (slice : list u8)
    : result Error BabeSecondaryPlainPreDigest :=
  if negb (len slice =? 12) then Err DigestItemDecodeError
  else
    let authority_index := from_le_bytes (take 4 slice) in
    let slot_number := from_le_bytes (drop 4 slice) in
    Ok (mkBabeSecondaryPlainPreDigest authority_index slot_number).

Definition BabeSecondaryPlainPreDigest_scale_encoding (self : BabeSecondaryPlainPreDigest)
    : list (list u8) :=
  [to_le_bytes 4 (plain_authority_index self); to_le_bytes 8 (plain_slot_number self)].

(** The code is that of the primary digest. *)
Definition BabeSecondaryVRFPreDigestRef_from_slice (slice : list u8)
    : result Error BabeSecondaryVRFPreDigest :=
  BabePrimaryPreDigestRef_from_slice slice.
Definition BabeSecondaryVRFPreDigestRef_scale_encoding (self : BabeSecondaryVRFPreDigest)
    : list (list u8) :=
  BabePrimaryPreDigestRef_scale_encoding self.

Definition BabePreDigestRef_from_slice (slice : list u8) : result Error BabePreDigest :=
  match slice with
  | 1 :: tl => let? digest := BabePrimaryPreDigestRef_from_slice tl in Ok (Primary digest)
  | 2 :: tl => let? digest := BabeSecondaryPlainPreDigest_from_slice tl in Ok (SecondaryPlain digest)
  | 3 :: tl => let? digest := BabeSecondaryVRFPreDigestRef_from_slice tl in Ok (SecondaryVRF digest)
  | _ :: _ => Err BadBabePreDigestRefType
  | [] => Err TooShort
  end.

Definition BabePreDigestRef_is_primary (self : BabePreDigest) : bool :=
  match self with
  | Primary _ => true
  | _ => false
  end.

Definition BabePreDigestRef_slot_number (self : BabePreDigest) : u64 :=
  match self with
  | Primary digest => primary_slot_number digest
  | SecondaryPlain digest => plain_slot_number digest
  | SecondaryVRF digest => primary_slot_number digest
  end.

Definition BabePreDigestRef_scale_encoding (self : BabePreDigest) : list (list u8) :=
  match self with
  | Primary digest => [1] :: BabePrimaryPreDigestRef_scale_encoding digest
  | SecondaryPlain digest => [2] :: BabeSecondaryPlainPreDigest_scale_encoding digest
  | SecondaryVRF digest => [3] :: BabeSecondaryVRFPreDigestRef_scale_encoding digest
  end.

(** ** Configurations *)

Definition BabeAllowedSlots_from_slice (slice : list u8) : result Error BabeAllowedSlots :=
  match slice with
  | 0 :: _ => Ok PrimarySlots
  | 1 :: _ => Ok PrimaryAndSecondaryPlainSlots
  | 2 :: _ => Ok PrimaryAndSecondaryVrfSlots
  | _ => Err BadBabePreDigestRefType
  end.

Definition BabeAllowedSlots_scale_encoding (self : BabeAllowedSlots) : list (list u8) :=
  [match self with
   | PrimarySlots => [0]
   | PrimaryAndSecondaryPlainSlots => [1]
   | PrimaryAndSecondaryVrfSlots => [2]
   end].

Definition BabeNextConfig_from_slice (slice : list u8) : result Error BabeNextConfig :=
  if len slice <? 16 then Err TooShort
  else
    let c0 := from_le_bytes (take 8 slice) in
    let c1 := from_le_bytes (take 8 (drop 8 slice)) in
    let? allowed_slots := BabeAllowedSlots_from_slice (drop 16 slice) in
    Ok (mkBabeNextConfig (c0, c1) allowed_slots).

Definition BabeNextConfig_scale_encoding (self : BabeNextConfig) : list (list u8) :=
  to_le_bytes 8 (fst (config_c self)) :: to_le_bytes 8 (snd (config_c self))
    :: BabeAllowedSlots_scale_encoding (config_allowed_slots self).

(** ** Proofs on the parts *)

#[export] Instance BabeAuthority_chunk_laws : ChunkCodecLaws (A := BabeAuthority).
Proof.
  split; cbn [chunk_len chunk_ok encode_chunk decode_chunk BabeAuthority_chunks
    BabeAuthority_scale_encoding concat].
  - lia.
  - intros [key w] [Hkey _]. rewrite app_nil_r.
    apply (is_array_app 32 8); [done | apply is_array_le].
  - intros [key w] [Hkey Hw]; cbn [babe_public_key babe_weight] in *. rewrite app_nil_r.
    unfold BabeAuthority_from_chunk. rewrite array_try_from_array
      by (apply (is_array_app 32 8); [done | apply is_array_le]).
    rewrite (take_array 32), (drop_array 32), from_to_le_bytes by done. done.
  - intros bs a. unfold BabeAuthority_from_chunk. destruct (array_try_from 40 bs) eqn:He; [|done].
    by apply array_try_from_Some in He as [_ ?].
  - intros bs a. unfold BabeAuthority_from_chunk. destruct (array_try_from 40 bs) eqn:He; [|done].
    apply array_try_from_Some in He as [-> Hl]. intros [= <-] Hb.
    assert (is_array 8 (drop 32 bs)) as Hw.
    { split; [rewrite length_drop; lia | by apply Forall_drop]. }
    split; [split; [apply is_array_take; [done|lia] | by apply (is_uint_from_le_bytes 8)]|].
    cbn [babe_public_key babe_weight]. rewrite app_nil_r. destruct Hw as [Hw1 Hw2].
    pose proof (to_from_le_bytes _ Hw2) as Hle. rewrite Hw1 in Hle. rewrite Hle. apply take_drop.
Qed.

Definition BabePrimaryPreDigest_ok (d : BabePrimaryPreDigest) : Prop :=
  is_u32 (primary_authority_index d) /\ is_u64 (primary_slot_number d) /\
  is_array 32 (primary_vrf_output d) /\ is_array 64 (primary_vrf_proof d).

Lemma BabePrimaryPreDigest_roundtrip d :
  BabePrimaryPreDigest_ok d ->
  is_array 108 (concat (BabePrimaryPreDigestRef_scale_encoding d)) /\
  BabePrimaryPreDigestRef_from_slice (concat (BabePrimaryPreDigestRef_scale_encoding d)) = Ok d.
Proof.
  destruct d as [i s out prf]. intros (Hi & Hs & Hout & Hprf). cbn in Hi, Hs, Hout, Hprf.
  unfold BabePrimaryPreDigestRef_scale_encoding.
  cbn [primary_authority_index primary_slot_number primary_vrf_output primary_vrf_proof concat].
  rewrite app_nil_r.
  assert (is_array 108 (to_le_bytes 4 i ++ to_le_bytes 8 s ++ out ++ prf)) as Harr.
  { repeat (apply (is_array_app 4 104) || apply (is_array_app 8 96) || apply (is_array_app 32 64));
      done || apply is_array_le. }
  split; [done|]. unfold BabePrimaryPreDigestRef_from_slice.
  rewrite (len_array _ _ Harr). cbn [negb Z.eqb Z.of_nat Z.add]. rewrite (proj2 (Z.eqb_eq _ _)) by lia.
  cbn [negb]. set (l := to_le_bytes 4 i ++ _).
  assert (drop 4 l = to_le_bytes 8 s ++ out ++ prf) as D4 by apply drop_array, is_array_le.
  assert (drop 12 l = out ++ prf) as D12.
  { transitivity (drop 8 (drop 4 l)); [by rewrite drop_drop|]. rewrite D4. apply drop_array, is_array_le. }
  assert (drop 44 l = prf) as ->.
  { transitivity (drop 32 (drop 12 l)); [by rewrite drop_drop|]. rewrite D12. by apply drop_array. }
  rewrite D4, D12, (take_array 32), (take_ge prf 64) by (done || (destruct Hprf; lia)).
  unfold l. by rewrite !from_le_bytes_take by done.
Qed.

Lemma BabePrimaryPreDigest_from_slice_ok bs d :
  is_bytes bs -> BabePrimaryPreDigestRef_from_slice bs = Ok d -> BabePrimaryPreDigest_ok d.
Proof.
  intros Hb. unfold BabePrimaryPreDigestRef_from_slice.
  destruct (Z.eqb_spec (len bs) (4 + 8 + 32 + 64)) as [Hlen|]; cbn [negb]; [|done]. intros [= <-].
  unfold len in Hlen.
  assert (forall n k, (k + n <= 108)%nat -> is_array n (take n (drop k bs))) as Hcut.
  { intros n k Hk. apply is_array_take; [by apply Forall_drop|]. rewrite length_drop. lia. }
  split_and!; [apply (is_uint_from_le_bytes 4), (Hcut 4%nat 0%nat); lia
    | apply (is_uint_from_le_bytes 8), Hcut; lia | apply Hcut; lia..].
Qed.

Lemma BabeSecondaryPlainPreDigest_roundtrip d :
  is_u32 (plain_authority_index d) -> is_u64 (plain_slot_number d) ->
  is_array 12 (concat (BabeSecondaryPlainPreDigest_scale_encoding d)) /\
  BabeSecondaryPlainPreDigest_from_slice (concat (BabeSecondaryPlainPreDigest_scale_encoding d)) = Ok d.
Proof.
  destruct d as [i s]. intros Hi Hs. cbn in Hi, Hs. unfold BabeSecondaryPlainPreDigest_scale_encoding.
  cbn [plain_authority_index plain_slot_number concat]. rewrite app_nil_r.
  assert (is_array 12 (to_le_bytes 4 i ++ to_le_bytes 8 s)) as Harr
    by (apply (is_array_app 4 8); apply is_array_le).
  split; [done|]. unfold BabeSecondaryPlainPreDigest_from_slice.
  rewrite (len_array _ _ Harr), (proj2 (Z.eqb_eq _ _)) by lia. cbn [negb].
  by rewrite (drop_array 4), from_le_bytes_take, from_to_le_bytes by (done || apply is_array_le).
Qed.

Lemma BabeNextConfig_roundtrip v :
  is_u64 (fst (config_c v)) -> is_u64 (snd (config_c v)) ->
  is_array 17 (concat (BabeNextConfig_scale_encoding v)) /\
  BabeNextConfig_from_slice (concat (BabeNextConfig_scale_encoding v)) = Ok v.
Proof.
  destruct v as [[c0 c1] slots]. cbn [config_c fst snd]. intros H0 H1.
  unfold BabeNextConfig_scale_encoding, BabeAllowedSlots_scale_encoding.
  cbn [config_c config_allowed_slots fst snd concat]. rewrite app_nil_r.
  set (b := match slots with
            | PrimarySlots => [0]
            | PrimaryAndSecondaryPlainSlots => [1]
            | PrimaryAndSecondaryVrfSlots => [2]
            end).
  assert (is_array 1 b) as Hb by (unfold b; destruct slots; by repeat constructor).
  assert (is_array 17 (to_le_bytes 8 c0 ++ to_le_bytes 8 c1 ++ b)) as Harr.
  { apply (is_array_app 8 9), (is_array_app 8 1); [apply is_array_le..|done]. }
  split; [done|]. unfold BabeNextConfig_from_slice.
  rewrite (len_array _ _ Harr). cbn [Z.ltb Z.compare Z.of_nat]. rewrite (proj2 (Z.ltb_ge _ _)) by lia.
  set (l := to_le_bytes 8 c0 ++ _).
  assert (drop 8 l = to_le_bytes 8 c1 ++ b) as D8 by apply drop_array, is_array_le.
  assert (drop 16 l = b) as ->.
  { transitivity (drop 8 (drop 8 l)); [by rewrite drop_drop|]. rewrite D8. apply drop_array, is_array_le. }
  rewrite D8. unfold l. rewrite !from_le_bytes_take by done. unfold b. by destruct slots.
Qed.

Lemma BabeNextConfig_from_slice_ok bs v :
  is_bytes bs -> BabeNextConfig_from_slice bs = Ok v ->
  is_u64 (fst (config_c v)) /\ is_u64 (snd (config_c v)).
Proof.
  intros Hb. unfold BabeNextConfig_from_slice. destruct (Z.ltb_spec (len bs) 16) as [|Hlen]; [done|].
  destruct (BabeAllowedSlots_from_slice _); [|done]. intros [= <-]. unfold len in Hlen.
  split; apply (is_uint_from_le_bytes 8), is_array_take; rewrite ?length_drop;
    try lia; try done; by apply Forall_drop.
Qed.

Section babe.
Context `{Platform}.

(** ** Epochs *)

(** [slice[0..authorities_len * 40]] and the conversion of
    [slice[authorities_len * 40..]] panic when they do not fit. *)
Definition BabeNextEpochRef_from_slice (slice : list u8) : outcome Error BabeNextEpochRef :=
  match nom_scale_compact_usize slice with
  | Err _ => Some (Err TooShort)
  | Ok (slice, authorities_len) =>
      let total := wmul usize_bits authorities_len 40 in
      if negb (len slice =? wadd usize_bits total 32) then Some (Err TooShort)
      else if len slice <? total then None
      else
        let! randomness := array_try_from 32 (drop (Z.to_nat total) slice) in
        Some (Ok (mkBabeNextEpoch (Raw (take (Z.to_nat total) slice)) randomness))
  end.

Definition BabeNextEpochRef_scale_encoding (self : BabeNextEpochRef) : option (list (list u8)) :=
  let! authorities := authorities_scale_encoding (epoch_authorities self) in
  Some (authorities ++ [epoch_randomness self]).

(** [From<&BabeNextEpoch> for BabeNextEpochRef] and back. *)
Definition BabeNextEpochRef_from (a : BabeNextEpoch) : BabeNextEpochRef :=
  mkBabeNextEpoch (Listed (epoch_authorities a)) (epoch_randomness a).
Definition BabeNextEpoch_from (a : BabeNextEpochRef) : option BabeNextEpoch :=
  let! l := iter_collect (epoch_authorities a) in
  Some (mkBabeNextEpoch l (epoch_randomness a)).

(** ** Consensus logs *)

Definition BabeConsensusLogRef_from_slice (slice : list u8) : outcome Error BabeConsensusLogRef :=
  match slice with
  | 1 :: tl => let* epoch := BabeNextEpochRef_from_slice tl in Some (Ok (NextEpochData epoch))
  | 2 :: tl => Some (
      let? a := ok_or (array_try_from 4 tl) DigestItemDecodeError in
      Ok (BabeOnDisabled (from_le_bytes a)))
  | 3 :: 1 :: tl => Some (let? config := BabeNextConfig_from_slice tl in Ok (NextConfigData config))
  | 3 :: _ => Some (Err BadBabeNextConfigVersion)
  | _ :: _ => Some (Err BadBabeConsensusRefType)
  | [] => Some (Err TooShort)
  end.

Definition BabeConsensusLogRef_scale_encoding (self : BabeConsensusLogRef)
    : option (list (list u8)) :=
  match self with
  | NextEpochData digest => let! body := BabeNextEpochRef_scale_encoding digest in Some ([1] :: body)
  | BabeOnDisabled digest => Some [[2]; to_le_bytes 4 digest]
  | NextConfigData digest => Some ([3] :: [1] :: BabeNextConfig_scale_encoding digest)
  end.

Definition BabeConsensusLogRef_from (a : BabeConsensusLog) : BabeConsensusLogRef :=
  match a with
  | NextEpochData v => NextEpochData (BabeNextEpochRef_from v)
  | BabeOnDisabled v => BabeOnDisabled v
  | NextConfigData v => NextConfigData v
  end.

Definition BabeConsensusLog_from (a : BabeConsensusLogRef) : option BabeConsensusLog :=
  match a with
  | NextEpochData v => let! v := BabeNextEpoch_from v in Some (NextEpochData v)
  | BabeOnDisabled v => Some (BabeOnDisabled v)
  | NextConfigData v => Some (NextConfigData v)
  end.

(** ** The codec *)

Definition BabeConsensusLog_ok (o : BabeConsensusLog) : Prop :=
  match o with
  | NextEpochData v =>
      Forall chunk_ok (epoch_authorities v) /\ vec_ok 40 (epoch_authorities v) /\
      is_array 32 (epoch_randomness v)
  | BabeOnDisabled n => is_u32 n
  | NextConfigData v => is_u64 (fst (config_c v)) /\ is_u64 (snd (config_c v))
  end.

Definition BabePreDigest_ok (o : BabePreDigest) : Prop :=
  match o with
  | Primary d | SecondaryVRF d => BabePrimaryPreDigest_ok d
  | SecondaryPlain d => is_u32 (plain_authority_index d) /\ is_u64 (plain_slot_number d)
  end.

(** The bytes of the authorities are a whole number of chunks. *)
Definition BabeConsensusLogRef_aligned (self : BabeConsensusLogRef) : Prop :=
  match self with
  | NextEpochData v =>
      match epoch_authorities v with
      | Raw slice => len slice `mod` 40 = 0
      | Listed _ => True
      end
  | _ => True
  end.

#[export] Instance BabeConsensusLog_codec : LogCodec BabeConsensusLog BabeConsensusLogRef := {|
  log_from_slice := BabeConsensusLogRef_from_slice;
  log_scale_encoding := BabeConsensusLogRef_scale_encoding;
  log_borrow := BabeConsensusLogRef_from;
  log_into := BabeConsensusLog_from;
  log_ok := BabeConsensusLog_ok;
  log_aligned := BabeConsensusLogRef_aligned
|}.

#[export] Instance BabePreDigest_codec : LogCodec BabePreDigest BabePreDigest := {|
  log_from_slice := fun slice => Some (BabePreDigestRef_from_slice slice);
  log_scale_encoding := fun self => Some (BabePreDigestRef_scale_encoding self);
  log_borrow := fun o => o;
  log_into := fun o => Some o;
  log_ok := BabePreDigest_ok;
  log_aligned := fun _ => True
|}.

(** ** Proofs *)

Lemma BabeNextEpochRef_decode_encode (l : list BabeAuthority) (rnd : list u8) :
  Forall chunk_ok l -> vec_ok 40 l -> is_array 32 rnd ->
  BabeNextEpochRef_from_slice (encode_scale_compact_usize (len l) ++ authorities_bytes l ++ rnd)
  = Some (Ok (mkBabeNextEpoch (Raw (authorities_bytes l)) rnd)).
Proof.
  intros Hl Hv Hrnd.
  unfold BabeNextEpochRef_from_slice. rewrite usize_decode_encode by (by apply (vec_ok_usize 40)).
  unfold vec_ok in Hv. pose proof half_usize. pose proof half_usize_big. pose proof (len_nonneg l).
  pose proof (authorities_bytes_array l Hl) as Harr.
  unfold wadd, wmul. rewrite (wrap_small _ (len l * 40)), wrap_small by (unfold is_uint; lia).
  rewrite len_app, (len_array _ _ Harr), (len_array _ _ Hrnd). cbn [chunk_len BabeAuthority_chunks].
  replace (Z.of_nat (40 * length l)) with (len l * 40) by (unfold len; lia).
  rewrite (proj2 (Z.eqb_eq _ _)), (proj2 (Z.ltb_ge _ _)) by lia. cbn [negb].
  assert (Z.to_nat (len l * 40) = 40 * length l)%nat as -> by (unfold len; lia).
  change (40 * length l)%nat with (chunk_len * length l)%nat.
  by rewrite (take_array _ _ _ Harr), (drop_array _ _ _ Harr), array_try_from_array.
Qed.

(** What a decoded epoch is made of. *)
Lemma BabeNextEpochRef_from_slice_inv bs v :
  is_bytes bs -> BabeNextEpochRef_from_slice bs = Some (Ok v) ->
  exists slice, epoch_authorities v = Raw slice /\ is_bytes slice /\ len slice <= len bs /\
    is_array 32 (epoch_randomness v).
Proof.
  intros Hb. unfold BabeNextEpochRef_from_slice.
  destruct (nom_scale_compact_usize bs) as [[rest n]|] eqn:Hd; [|done].
  apply usize_decode_inv in Hd as (_ & Hrest & Hlt & _); [|done].
  case_if; [done|]. case_if; [done|]. destruct (array_try_from 32 _) eqn:Ha; [|done].
  apply array_try_from_Some in Ha as [-> Hr]. intros [= <-]. cbn [epoch_authorities epoch_randomness].
  eexists. split_and!; [done | by apply Forall_take | | split; [done | by apply Forall_drop]].
  unfold len. rewrite length_take. lia.
Qed.

(** The decoding of an epoch panics only when the size of its authorities
    overflows. *)
Lemma BabeNextEpochRef_from_slice_panic bs :
  is_bytes bs -> len bs < 2 ^ usize_bits ->
  BabeNextEpochRef_from_slice bs = None <->
  exists rest n, nom_scale_compact_usize bs = Ok (rest, n) /\
    len rest = (n * 40) `mod` 2 ^ usize_bits + 32 - 2 ^ usize_bits.
Proof.
  intros Hb Hlen. unfold BabeNextEpochRef_from_slice.
  destruct (nom_scale_compact_usize bs) as [[rest n]|] eqn:Hd; [|split; [done|by intros (? & ? & ? & _)]].
  apply usize_decode_inv in Hd as (Hn & Hrest & Hlt & _); [|done]. change (wmul usize_bits n 40) with ((n * 40) `mod` 2 ^ usize_bits).
  pose proof (pow2_pos usize_bits (Z.lt_le_incl _ _ usize_bits_pos)) as Hpos. pose proof half_usize. pose proof half_usize_big.
  pose proof (Z.mod_pos_bound (n * 40) (2 ^ usize_bits) Hpos) as Hm. set (total := (n * 40) `mod` 2 ^ usize_bits) in *.
  assert (Hex : (exists rest' n', Ok (rest, n) = @Ok (list u8 * ErrorKind) _ (rest', n') /\
    len rest' = (n' * 40) `mod` 2 ^ usize_bits + 32 - 2 ^ usize_bits) <-> len rest = total + 32 - 2 ^ usize_bits).
  { split; [by intros (? & ? & [= <- <-] & ?)|]. intros E. by exists rest, n. }
  rewrite Hex. pose proof (len_nonneg rest). unfold wadd, wrap. destruct (Z.lt_ge_cases (total + 32) (2 ^ usize_bits)) as [Hs|Hs].
  - rewrite (Z.mod_small (total + 32)) by lia. destruct (Z.eqb_spec (len rest) (total + 32)) as [E|]; cbn [negb]; [|split; [done|lia]].
    rewrite (proj2 (Z.ltb_ge _ _)) by lia. rewrite array_try_from_array; [split; [done|lia]|]. split; [|by apply Forall_drop].
    rewrite length_drop. unfold len in E. lia.
  - assert (E : (total + 32) `mod` 2 ^ usize_bits = total + 32 - 2 ^ usize_bits).
    { symmetry. apply (Z.mod_unique_pos _ _ 1); lia. }
    rewrite E. destruct (Z.eqb_spec (len rest) (total + 32 - 2 ^ usize_bits)) as [E'|]; cbn [negb]; [|split; [done|lia]].
    by rewrite (proj2 (Z.ltb_lt _ _)) by lia.
Qed.

(** Every chunk of 40 bytes is an authority. *)
Lemma babe_collect_aligned slice :
  is_bytes slice -> len slice `mod` 40 = 0 ->
  exists l : list BabeAuthority,
    iter_collect (Raw slice) = Some l /\ Forall chunk_ok l /\ 40 * len l = len slice.
Proof.
  intros Hb Hmod. pose proof (Z.div_mod (len slice) 40 ltac:(lia)) as Hdiv. rewrite Hmod in Hdiv.
  pose proof (Z.div_pos (len slice) 40 (len_nonneg _) ltac:(lia)).
  unfold len in Hdiv, Hmod. set (q := Z.of_nat (length slice) / 40) in *.
  destruct (iter_collect_aligned (A := BabeAuthority) (Z.to_nat q) slice) as (l & Hl & Hln).
  { cbn [chunk_len BabeAuthority_chunks]. lia. }
  { intros i Hi. cbn [decode_chunk BabeAuthority_chunks chunk_len]. unfold BabeAuthority_from_chunk.
    rewrite array_try_from_array; [by eexists|]. apply is_array_take; [by apply Forall_drop|].
    rewrite length_drop. lia. }
  exists l. split; [done|]. apply iter_collect_raw_inv in Hl as [Hok _]; [|done].
  split; [done|]. unfold len. fold q in Hdiv. lia.
Qed.

#[export] Instance BabeConsensusLog_laws :
  LogCodecLaws (owned := BabeConsensusLog) (borrowed := BabeConsensusLogRef).
Proof.
  pose proof half_usize as Hhalf. pose proof half_usize_big.
  split; cbn [log_ok log_scale_encoding log_borrow log_into log_from_slice log_aligned BabeConsensusLog_codec].
  - intros [[l rnd]|n|v] Hok; cbn [BabeConsensusLog_ok epoch_authorities epoch_randomness] in Hok.
    + destruct Hok as (Hl & Hv & Hrnd).
      exists ([1] :: (encode_scale_compact_usize (len l) :: concat (map encode_chunk l)) ++ [rnd]).
      exists (NextEpochData (mkBabeNextEpoch (Raw (authorities_bytes l)) rnd)).
      cbn [concat app]. rewrite concat_app, concat_encodings. cbn [concat]. rewrite app_nil_r, app_assoc.
      destruct (authorities_encoded l Hl (vec_ok_usize 40 l ltac:(lia) Hv)) as [Hb Hn].
      split_and!.
      * cbn [BabeConsensusLogRef_from BabeConsensusLogRef_scale_encoding].
        unfold BabeNextEpochRef_scale_encoding. cbn [BabeNextEpochRef_from epoch_authorities epoch_randomness].
        by rewrite (authorities_encoding_collect _ l) by apply iter_collect_listed.
      * constructor; [done|]. apply Forall_app. by destruct Hrnd.
      * unfold vec_ok in Hv. cbn [chunk_len BabeAuthority_chunks] in Hn.
        pose proof (len_array _ _ Hrnd). unfold is_uint. len_lia.
      * cbn [BabeConsensusLogRef_from_slice]. rewrite <- app_assoc.
        by rewrite BabeNextEpochRef_decode_encode by done.
      * cbn [BabeConsensusLog_from]. unfold BabeNextEpoch_from. cbn [epoch_authorities epoch_randomness].
        by rewrite iter_collect_raw by done.
      * cbn. rewrite (len_array _ _ (authorities_bytes_array l Hl)). cbn [chunk_len BabeAuthority_chunks].
        rewrite Nat2Z.inj_mul, Z.mul_comm. by apply Z.mod_mul.
    + exists [[2]; to_le_bytes 4 n], (BabeOnDisabled n).
      cbn [concat BabeConsensusLog_from]. rewrite app_nil_r. pose proof (is_array_le 4 n) as Harr.
      split_and!; [done | constructor; [done | by destruct Harr] | unfold is_uint; len_lia | |done..].
      cbn [app BabeConsensusLogRef_from_slice]. rewrite array_try_from_array by done.
      cbn [ok_or result_bind]. by rewrite from_to_le_bytes by done.
    + destruct Hok as [Hc0 Hc1]. destruct (BabeNextConfig_roundtrip v Hc0 Hc1) as [Harr Hrt].
      exists ([3] :: [1] :: BabeNextConfig_scale_encoding v), (NextConfigData v).
      cbn [concat app BabeConsensusLogRef_from_slice BabeConsensusLog_from]. rewrite Hrt.
      pose proof (len_array _ _ Harr). destruct Harr as [_ Hbytes].
      split_and!; [done | by rewrite !Forall_cons | unfold is_uint; len_lia | done..].
  - intros [[l rnd]|n|v]; cbn [BabeConsensusLogRef_from BabeConsensusLog_from]; [|done..].
    unfold BabeNextEpoch_from, BabeNextEpochRef_from. cbn [epoch_authorities epoch_randomness].
    by rewrite iter_collect_listed.
  - intros [[l rnd]|n|v] o; cbn [BabeConsensusLog_from]; [|by intros [= <-]..].
    unfold BabeNextEpoch_from. cbn [epoch_authorities epoch_randomness].
    destruct (iter_collect l) as [l'|] eqn:Hl; [|done]. intros [= <-].
    cbn [BabeConsensusLogRef_from BabeConsensusLogRef_scale_encoding].
    unfold BabeNextEpochRef_scale_encoding. cbn [BabeNextEpochRef_from epoch_authorities epoch_randomness].
    rewrite (authorities_encoding_collect _ _ Hl).
    by rewrite (authorities_encoding_collect _ l') by apply iter_collect_listed.
  - intros bs r Hb Hlen Hd Hal. unfold BabeConsensusLogRef_from_slice in Hd.
    repeat case_match; simplify_eq/=; inversion Hb as [|? ? _ Hb']; subst.
    + destruct (BabeNextConfig_from_slice _) as [v|] eqn:Hv; [|done]. simplify_eq/=.
      eexists. split; [done|]. inversion Hb'; subst. by eapply BabeNextConfig_from_slice_ok.
    + destruct (array_try_from 4 _) eqn:Ha; [|done]. apply array_try_from_Some in Ha as [-> Ha].
      simplify_eq/=. eexists. split; [done|]. by apply (is_uint_from_le_bytes 4).
    + destruct (BabeNextEpochRef_from_slice _) as [[v|]|] eqn:Hv; [|done..]. simplify_eq/=.
      apply BabeNextEpochRef_from_slice_inv in Hv as (s & Hs & Hsb & Hslen & Hrnd); [|done].
      unfold BabeNextEpoch_from. rewrite Hs in *.
      destruct (babe_collect_aligned s) as (l' & Hl' & Hok & Hn); [done..|]. rewrite Hl'.
      eexists. split; [done|]. cbn [BabeConsensusLog_ok epoch_authorities epoch_randomness].
      split_and!; [done | unfold vec_ok; len_lia | done].
Qed.

#[export] Instance BabePreDigest_laws : LogCodecLaws (owned := BabePreDigest) (borrowed := BabePreDigest).
Proof.
  pose proof half_usize. pose proof half_usize_big.
  split; cbn [log_ok log_scale_encoding log_borrow log_into log_from_slice log_aligned BabePreDigest_codec];
    [|done|naive_solver|].
  - intros o Hok. exists (BabePreDigestRef_scale_encoding o), o.
    assert (exists n, (n <= 200)%nat /\ is_array n (concat (BabePreDigestRef_scale_encoding o)) /\
      BabePreDigestRef_from_slice (concat (BabePreDigestRef_scale_encoding o)) = Ok o)
      as (n & Hn & Harr & Hrt).
    { destruct o as [d|d|d]; cbn [BabePreDigest_ok BabePreDigestRef_scale_encoding concat app
        BabePreDigestRef_from_slice] in *.
      - destruct (BabePrimaryPreDigest_roundtrip d Hok) as [Harr ->]. exists (1 + 108)%nat.
        split_and!; [lia | by apply is_array_cons | done].
      - destruct Hok as [Hi Hs]. destruct (BabeSecondaryPlainPreDigest_roundtrip d Hi Hs) as [Harr ->].
        exists (1 + 12)%nat. split_and!; [lia | by apply is_array_cons | done].
      - unfold BabeSecondaryVRFPreDigestRef_from_slice, BabeSecondaryVRFPreDigestRef_scale_encoding.
        destruct (BabePrimaryPreDigest_roundtrip d Hok) as [Harr ->]. exists (1 + 108)%nat.
        split_and!; [lia | by apply is_array_cons | done]. }
    rewrite (len_array _ _ Harr). unfold is_uint.
    split_and!; [done | by destruct Harr | lia | lia | by rewrite Hrt | done..].
  - intros bs r Hb _ [= Hd] _. exists r. split; [done|]. unfold BabePreDigestRef_from_slice in Hd.
    repeat case_match; simplify_eq/=; inversion Hb as [|? ? _ Hb']; subst.
    all: match goal with H : (let? _ := ?e in _) = _ |- _ => destruct e eqn:Hv; [|done] end; simplify_eq/=.
    + by eapply BabePrimaryPreDigest_from_slice_ok.
    + unfold BabeSecondaryPlainPreDigest_from_slice in Hv.
      destruct (Z.eqb_spec (len l) 12) as [Hlen|]; cbn [negb] in Hv; [|done]. injection Hv as <-.
      unfold len in Hlen. split; [apply (is_uint_from_le_bytes 4), is_array_take; [done|lia]|].
      apply (is_uint_from_le_bytes 8). split; [rewrite length_drop; lia | by apply Forall_drop].
    + by eapply BabePrimaryPreDigest_from_slice_ok.
Qed.

End babe.
