(* ===== verification/HeaderGrandpa.v ===== *)
(** * GrandPa logs of a header ([src/src/header/grandpa.rs])

    The decoders are nom parsers. [from_slice] replaces every error by
    [GrandpaConsensusLogDecodeError], so a parser here is a function from the input
    to the rest of the input and a value, or [None]. *)

From S2P Require Import Prelude Leb128 Scale HeaderBase.

(** ** Data *)

(** [weight] is a [NonZeroU64]. *)
Record GrandpaAuthority := mkGrandpaAuthority { grandpa_public_key : list u8; grandpa_weight : u64 }.

#[export] Instance GrandpaAuthority_eq_dec : EqDecision GrandpaAuthority.
Proof. solve_decision. Defined.

Definition GrandpaAuthoritiesIter : Type := AuthoritiesIter GrandpaAuthority.

Record GrandpaScheduledChangeOf (authorities : Type) := mkGrandpaScheduledChange {
  next_authorities : authorities;
  change_delay : u32
}.
Arguments mkGrandpaScheduledChange {_} _ _.
Arguments next_authorities {_} _.
Arguments change_delay {_} _.

Definition GrandpaScheduledChangeRef : Type := GrandpaScheduledChangeOf GrandpaAuthoritiesIter.
Definition GrandpaScheduledChange : Type := GrandpaScheduledChangeOf (list GrandpaAuthority).

Inductive GrandpaConsensusLogOf (change : Type) :=
  | ScheduledChange (v : change)
  | ForcedChange (reset_block_height : u32) (v : change)
  | GrandpaOnDisabled (n : u64)
  | Pause (n : u32)
  | Resume (n : u32).
Arguments ScheduledChange {_} _.
Arguments ForcedChange {_} _ _.
Arguments GrandpaOnDisabled {_} _.
Arguments Pause {_} _.
Arguments Resume {_} _.

Definition GrandpaConsensusLogRef : Type := GrandpaConsensusLogOf GrandpaScheduledChangeRef.
Definition GrandpaConsensusLog : Type := GrandpaConsensusLogOf GrandpaScheduledChange.

(** ** Parsers *)

Section grandpa.
Context `{Platform} `{Nom}.

Definition grandpa_authority_ref (bytes : list u8) : option (list u8 * GrandpaAuthority) :=
  let! (bytes, public_key) := nom_take 32 bytes in
  let! (bytes, weight) := nom_le 8 bytes in
  if weight =? 0 then None else Some (bytes, mkGrandpaAuthority public_key weight).

(** [fold_many_m_n(num, num, grandpa_authority_ref, ..)]: the rest of the input
    after [num] authorities. Each takes 40 bytes: the length of the input is
    enough turns. *)
Fixpoint fold_authorities (fuel : nat) (num : Z) (bytes : list u8) : option (list u8) :=
  if num =? 0 then Some bytes
  else
    match fuel with
    | O => None
    | S fuel =>
        let! (bytes, _) := grandpa_authority_ref bytes in
        fold_authorities fuel (num - 1) bytes
    end.

(** ** Authorities *)

Definition GrandpaAuthority_scale_encoding (self : GrandpaAuthority) : list (list u8) :=
  [grandpa_public_key self; to_le_bytes 8 (grandpa_weight self)].

(** [all_consuming(grandpa_authority_ref)(item).unwrap()] in [next]. *)
Definition GrandpaAuthority_from_chunk (item : list u8) : option GrandpaAuthority :=
  match grandpa_authority_ref item with
  | Some ([], a) => Some a
  | _ => None
  end.

Definition GrandpaAuthority_ok (a : GrandpaAuthority) : Prop :=
  is_array 32 (grandpa_public_key a) /\ is_u64 (grandpa_weight a) /\ grandpa_weight a <> 0.

#[export] Instance GrandpaAuthority_chunks : ChunkCodec GrandpaAuthority := {|
  chunk_len := 40;
  decode_chunk := GrandpaAuthority_from_chunk;
  encode_chunk := GrandpaAuthority_scale_encoding;
  chunk_ok := GrandpaAuthority_ok
|}.

Definition GrandpaAuthoritiesIter_next (self : GrandpaAuthoritiesIter)
    : option (option (GrandpaAuthority * GrandpaAuthoritiesIter)) := iter_next self.
Definition GrandpaAuthoritiesIter_len (self : GrandpaAuthoritiesIter) : usize := iter_len self.
Definition GrandpaAuthoritiesIter_eq (self other : GrandpaAuthoritiesIter) : option bool :=
  iter_eq self other.
Definition GrandpaAuthoritiesIter_new (slice : list GrandpaAuthority) : GrandpaAuthoritiesIter :=
  Listed slice.

(** ** Consensus logs *)

Definition grandpa_scheduled_change_ref (bytes : list u8)
    : option (list u8 * GrandpaScheduledChangeRef) :=
  match nom_scale_compact_usize bytes with
  | Err _ => None
  | Ok (bytes, num_authorities) =>
      let! rest := fold_authorities (length bytes) num_authorities bytes in
      (* [recognize]: what the parser has consumed. *)
      let recognized := take (length bytes - length rest) bytes in
      let! (rest, delay) := nom_le 4 rest in
      Some (rest, mkGrandpaScheduledChange (Raw recognized) delay)
  end.

Definition grandpa_consensus_log_ref (bytes : list u8)
    : option (list u8 * GrandpaConsensusLogRef) :=
  match bytes with
  | 1 :: tl =>
      let! (rest, change) := grandpa_scheduled_change_ref tl in Some (rest, ScheduledChange change)
  | 2 :: tl =>
      let! (tl, reset_block_height) := nom_le 4 tl in
      let! (rest, change) := grandpa_scheduled_change_ref tl in
      Some (rest, ForcedChange reset_block_height change)
  | 3 :: tl => let! (rest, n) := nom_le 8 tl in Some (rest, GrandpaOnDisabled n)
  | 4 :: tl => let! (rest, n) := nom_le 4 tl in Some (rest, Pause n)
  | 5 :: tl => let! (rest, n) := nom_le 4 tl in Some (rest, Resume n)
  | _ => None
  end.

Definition GrandpaConsensusLogRef_from_slice (slice : list u8) : result Error GrandpaConsensusLogRef :=
  match grandpa_consensus_log_ref slice with
  | Some ([], log) => Ok log
  | _ => Err GrandpaConsensusLogDecodeError
  end.

Definition GrandpaScheduledChangeRef_scale_encoding (self : GrandpaScheduledChangeRef)
    : option (list (list u8)) :=
  let! authorities := authorities_scale_encoding (next_authorities self) in
  Some (authorities ++ [to_le_bytes 4 (change_delay self)]).

Definition GrandpaConsensusLogRef_scale_encoding (self : GrandpaConsensusLogRef)
    : option (list (list u8)) :=
  match self with
  | ScheduledChange change =>
      let! body := GrandpaScheduledChangeRef_scale_encoding change in Some ([1] :: body)
  | ForcedChange reset_block_height change =>
      let! body := GrandpaScheduledChangeRef_scale_encoding change in
      Some ([2] :: to_le_bytes 4 reset_block_height :: body)
  | GrandpaOnDisabled n => Some [[3]; to_le_bytes 8 n]
  | Pause n => Some [[4]; to_le_bytes 4 n]
  | Resume n => Some [[5]; to_le_bytes 4 n]
  end.

(** [From<&GrandpaScheduledChange> for GrandpaScheduledChangeRef] and back. *)
Definition GrandpaScheduledChangeRef_from (gp : GrandpaScheduledChange) : GrandpaScheduledChangeRef :=
  mkGrandpaScheduledChange (Listed (next_authorities gp)) (change_delay gp).
Definition GrandpaScheduledChange_from (gp : GrandpaScheduledChangeRef) : option GrandpaScheduledChange :=
  let! l := iter_collect (next_authorities gp) in
  Some (mkGrandpaScheduledChange l (change_delay gp)).

Definition GrandpaConsensusLogRef_from (a : GrandpaConsensusLog) : GrandpaConsensusLogRef :=
  match a with
  | ScheduledChange v => ScheduledChange (GrandpaScheduledChangeRef_from v)
  | ForcedChange h v => ForcedChange h (GrandpaScheduledChangeRef_from v)
  | GrandpaOnDisabled v => GrandpaOnDisabled v
  | Pause v => Pause v
  | Resume v => Resume v
  end.

Definition GrandpaConsensusLog_from (a : GrandpaConsensusLogRef) : option GrandpaConsensusLog :=
  match a with
  | ScheduledChange v => let! v := GrandpaScheduledChange_from v in Some (ScheduledChange v)
  | ForcedChange h v => let! v := GrandpaScheduledChange_from v in Some (ForcedChange h v)
  | GrandpaOnDisabled v => Some (GrandpaOnDisabled v)
  | Pause v => Some (Pause v)
  | Resume v => Some (Resume v)
  end.

(** ** The codec *)

Definition GrandpaScheduledChange_ok (v : GrandpaScheduledChange) : Prop :=
  Forall chunk_ok (next_authorities v) /\ vec_ok 40 (next_authorities v) /\ is_u32 (change_delay v).

Definition GrandpaConsensusLog_ok (o : GrandpaConsensusLog) : Prop :=
  match o with
  | ScheduledChange v => GrandpaScheduledChange_ok v
  | ForcedChange h v => is_u32 h /\ GrandpaScheduledChange_ok v
  | GrandpaOnDisabled n => is_u64 n
  | Pause n | Resume n => is_u32 n
  end.

#[export] Instance GrandpaConsensusLog_codec : LogCodec GrandpaConsensusLog GrandpaConsensusLogRef := {|
  log_from_slice := fun slice => Some (GrandpaConsensusLogRef_from_slice slice);
  log_scale_encoding := GrandpaConsensusLogRef_scale_encoding;
  log_borrow := GrandpaConsensusLogRef_from;
  log_into := GrandpaConsensusLog_from;
  log_ok := GrandpaConsensusLog_ok;
  log_aligned := fun _ => True
|}.

(** ** Proofs *)

Context `{!NomLaws}.

Lemma nom_take_array n a rest : is_array n a -> nom_take n (a ++ rest) = Some (rest, a).
Proof.
  intros Ha. rewrite nom_take_spec. rewrite (take_array n), (drop_array n) by done. destruct Ha as [Ha _].
  rewrite length_app, (proj2 (Nat.leb_le _ _)) by lia. done.
Qed.

Lemma nom_le_encode n v rest :
  is_uint (8 * Z.of_nat n) v -> nom_le n (to_le_bytes n v ++ rest) = Some (rest, v).
Proof.
  intros Hv. rewrite nom_le_spec, length_app, length_to_le_bytes, (proj2 (Nat.leb_le _ _)) by lia.
  by rewrite (drop_array n), from_le_bytes_take by (done || apply is_array_le).
Qed.

Lemma nom_le_encode_nil n v :
  is_uint (8 * Z.of_nat n) v -> nom_le n (to_le_bytes n v) = Some ([], v).
Proof. intros Hv. rewrite <- (app_nil_r (to_le_bytes n v)) at 1. by apply nom_le_encode. Qed.

Lemma nom_take_inv n bytes rest a :
  nom_take n bytes = Some (rest, a) -> bytes = a ++ rest /\ length a = n.
Proof.
  rewrite nom_take_spec. destruct (Nat.leb_spec n (length bytes)); [|done]. intros [= <- <-].
  split; [by rewrite take_drop | by rewrite length_take_le].
Qed.

Lemma nom_le_inv n bytes rest v :
  is_bytes bytes -> nom_le n bytes = Some (rest, v) ->
  is_uint (8 * Z.of_nat n) v /\ bytes = to_le_bytes n v ++ rest.
Proof.
  intros Hb. rewrite nom_le_spec. destruct (Nat.leb_spec n (length bytes)) as [Hn|]; [|done].
  intros [= <- <-]. pose proof (is_array_take n bytes Hb Hn) as Harr.
  split; [by apply is_uint_from_le_bytes|]. destruct Harr as [Ha Htb].
  pose proof (to_from_le_bytes _ Htb) as Hle. rewrite Ha in Hle. by rewrite Hle, take_drop.
Qed.

Lemma grandpa_authority_ref_encode a rest :
  GrandpaAuthority_ok a ->
  grandpa_authority_ref (concat (GrandpaAuthority_scale_encoding a) ++ rest) = Some (rest, a).
Proof.
  destruct a as [key w]. intros (Hkey & Hw & Hnz); cbn in Hkey, Hw, Hnz.
  cbn [GrandpaAuthority_scale_encoding grandpa_public_key grandpa_weight concat].
  rewrite app_nil_r, <- app_assoc. unfold grandpa_authority_ref.
  rewrite nom_take_array, nom_le_encode by done. by rewrite (proj2 (Z.eqb_neq _ _)).
Qed.

Lemma grandpa_authority_ref_inv bytes rest a :
  grandpa_authority_ref bytes = Some (rest, a) ->
  length bytes = (40 + length rest)%nat /\
  (is_bytes bytes -> GrandpaAuthority_ok a /\ bytes = concat (GrandpaAuthority_scale_encoding a) ++ rest).
Proof.
  unfold grandpa_authority_ref. destruct (nom_take 32 bytes) as [[r key]|] eqn:Hk; [|done].
  apply nom_take_inv in Hk as [-> Hkey].
  destruct (nom_le 8 r) as [[r' w]|] eqn:Hw; [|done]. destruct (Z.eqb_spec w 0); [done|].
  intros [= <- <-]. rewrite length_app, Hkey. split.
  - rewrite nom_le_spec in Hw. destruct (Nat.leb_spec 8 (length r)); [|done]. simplify_eq.
    rewrite length_drop. lia.
  - intros [Hkb Hr]%Forall_app. apply nom_le_inv in Hw as [Hw ->]; [|done].
    split; [done|]. cbn [GrandpaAuthority_scale_encoding grandpa_public_key grandpa_weight concat].
    by rewrite app_nil_r, <- app_assoc.
Qed.

#[export] Instance GrandpaAuthority_chunk_laws : ChunkCodecLaws (A := GrandpaAuthority).
Proof.
  split; cbn [chunk_len chunk_ok encode_chunk decode_chunk GrandpaAuthority_chunks];
    unfold GrandpaAuthority_from_chunk.
  - lia.
  - intros [key w] (Hkey & _). cbn [GrandpaAuthority_scale_encoding grandpa_public_key concat].
    rewrite app_nil_r. apply (is_array_app 32 8); [done | apply is_array_le].
  - intros a Ha. rewrite <- (app_nil_r (concat _)). by rewrite grandpa_authority_ref_encode.
  - intros bs a. destruct (grandpa_authority_ref bs) as [[[|] ?]|] eqn:Hr; try done.
    apply grandpa_authority_ref_inv in Hr as [Hl _]. cbn in Hl. lia.
  - intros bs a. destruct (grandpa_authority_ref bs) as [[[|] ?]|] eqn:Hr; try done. intros [= <-] Hb.
    apply grandpa_authority_ref_inv in Hr as [_ Hr]. destruct (Hr Hb) as [Hok ->].
    by rewrite app_nil_r.
Qed.

(** The number of turns is enough: more would give the same. *)
Lemma fold_authorities_fuel fuel num bytes :
  (length bytes <= fuel)%nat -> fold_authorities fuel num bytes = fold_authorities (length bytes) num bytes.
Proof.
  assert (forall n fuel num bytes, (length bytes <= n)%nat -> (length bytes <= fuel)%nat ->
    fold_authorities fuel num bytes = fold_authorities (length bytes) num bytes) as Hgen.
  { clear fuel num bytes. induction n as [|n IH]; intros fuel num bytes Hn Hf.
    - destruct bytes; [|cbn in Hn; lia]. cbn [length]. destruct fuel; [done|].
      cbn [fold_authorities]. case_if; [done|].
      destruct (grandpa_authority_ref []) as [[r a]|] eqn:Hr; [|done].
      apply grandpa_authority_ref_inv in Hr as [Hl _]. cbn in Hl. lia.
    - destruct bytes as [|b bytes]; [by apply IH; cbn; lia|].
      destruct fuel as [|fuel]; [cbn in Hf; lia|].
      cbn [length fold_authorities]. case_if; [done|].
      destruct (grandpa_authority_ref _) as [[r a]|] eqn:Hr; [|done].
      apply grandpa_authority_ref_inv in Hr as [Hl _]. cbn [length] in *.
      rewrite (IH fuel), (IH (length bytes)) by lia. done. }
  intros Hf. by apply (Hgen (length bytes)).
Qed.

Lemma fold_authorities_encode (l : list GrandpaAuthority) rest fuel :
  Forall chunk_ok l -> (length l <= fuel)%nat ->
  fold_authorities fuel (len l) (authorities_bytes l ++ rest) = Some rest.
Proof.
  intros Hl. revert fuel. induction Hl as [|a l Ha Hl IH]; intros fuel Hf; [by destruct fuel|].
  destruct fuel as [|fuel]; [cbn in Hf; lia|]. cbn [fold_authorities].
  rewrite len_cons. pose proof (len_nonneg l). rewrite (proj2 (Z.eqb_neq _ _)) by lia.
  change (authorities_bytes (a :: l)) with (concat (encode_chunk a) ++ authorities_bytes l).
  rewrite <- app_assoc. rewrite grandpa_authority_ref_encode by done.
  replace (1 + len l - 1) with (len l) by lia. apply IH. cbn in Hf. lia.
Qed.

Lemma fold_authorities_inv fuel num bytes rest :
  is_bytes bytes -> 0 <= num -> fold_authorities fuel num bytes = Some rest ->
  exists l : list GrandpaAuthority, Forall chunk_ok l /\ bytes = authorities_bytes l ++ rest.
Proof.
  revert num bytes. induction fuel as [|fuel IH]; intros num bytes Hb Hnum; cbn [fold_authorities].
  - case_if; [|done]. intros [= ->]. by exists [].
  - case_if; [intros [= ->]; by exists []|]. bool_to_prop.
    destruct (grandpa_authority_ref bytes) as [[r a]|] eqn:Hr; [|done].
    apply grandpa_authority_ref_inv in Hr as [_ Hr]. destruct (Hr Hb) as [Ha ->].
    intros Hf. apply Forall_app in Hb as [_ Hb].
    destruct (IH (num - 1) r) as (l & Hl & ->); [done | lia | done |].
    exists (a :: l). split; [by constructor|]. unfold authorities_bytes. cbn [map concat].
    by rewrite <- app_assoc.
Qed.

(** The buffers of a change. *)
Definition change_bytes (v : GrandpaScheduledChange) : list u8 :=
  encode_scale_compact_usize (len (next_authorities v)) ++
  authorities_bytes (next_authorities v) ++ to_le_bytes 4 (change_delay v).

Lemma change_scale_encoding r v :
  GrandpaScheduledChange_from r = Some v ->
  exists bufs, GrandpaScheduledChangeRef_scale_encoding r = Some bufs /\ concat bufs = change_bytes v /\
    GrandpaScheduledChangeRef_scale_encoding (GrandpaScheduledChangeRef_from v) = Some bufs.
Proof.
  unfold GrandpaScheduledChange_from. destruct (iter_collect _) as [l|] eqn:Hl; [|done]. intros [= <-].
  unfold GrandpaScheduledChangeRef_scale_encoding. rewrite (authorities_encoding_collect _ _ Hl).
  eexists. split; [done|]. split.
  - unfold change_bytes. cbn [app concat next_authorities change_delay].
    rewrite concat_app, concat_encodings. cbn [concat]. by rewrite app_nil_r.
  - cbn [GrandpaScheduledChangeRef_from next_authorities change_delay].
    by rewrite (authorities_encoding_collect _ l) by apply iter_collect_listed.
Qed.

Lemma change_borrow_into v : GrandpaScheduledChange_from (GrandpaScheduledChangeRef_from v) = Some v.
Proof.
  destruct v as [l d]. unfold GrandpaScheduledChange_from, GrandpaScheduledChangeRef_from.
  cbn [next_authorities change_delay]. by rewrite iter_collect_listed.
Qed.

Lemma change_bytes_size v :
  GrandpaScheduledChange_ok v ->
  is_bytes (change_bytes v) /\ len (change_bytes v) <= 13 + 2 ^ (usize_bits - 1).
Proof.
  intros (Hl & Hv & Hd).
  destruct (authorities_encoded _ Hl (vec_ok_usize 40 _ ltac:(lia) Hv)) as [Hb Hn].
  unfold change_bytes. rewrite app_assoc. split; [apply Forall_app; split; [done | apply to_le_bytes_bytes]|].
  unfold vec_ok in Hv. cbn [chunk_len GrandpaAuthority_chunks] in Hn. len_lia.
Qed.

Lemma grandpa_scheduled_change_ref_encode v :
  GrandpaScheduledChange_ok v ->
  exists r, grandpa_scheduled_change_ref (change_bytes v) = Some ([], r) /\
    GrandpaScheduledChange_from r = Some v.
Proof.
  destruct v as [l d]. intros (Hl & Hv & Hd). cbn [next_authorities change_delay] in *.
  unfold grandpa_scheduled_change_ref, change_bytes. cbn [next_authorities change_delay].
  rewrite usize_decode_encode by (by apply (vec_ok_usize 40)).
  pose proof (authorities_bytes_array l Hl) as Harr. pose proof (is_array_le 4 d) as Hdarr.
  rewrite fold_authorities_encode by (done || (destruct Harr as [Hal _]; rewrite length_app, Hal;
    cbn [chunk_len GrandpaAuthority_chunks]; lia)).
  rewrite nom_le_encode_nil by done. eexists. split; [done|].
  unfold GrandpaScheduledChange_from. cbn [next_authorities change_delay].
  rewrite length_app, Nat.add_sub. destruct Harr as [Hal _].
  rewrite take_app_length' by done. by rewrite iter_collect_raw.
Qed.

Lemma grandpa_scheduled_change_ref_inv bytes rest r :
  is_bytes bytes -> len bytes < 2 ^ (usize_bits - 1) ->
  grandpa_scheduled_change_ref bytes = Some (rest, r) ->
  exists v, GrandpaScheduledChange_from r = Some v /\ GrandpaScheduledChange_ok v.
Proof.
  intros Hb Hlen. unfold grandpa_scheduled_change_ref.
  destruct (nom_scale_compact_usize bytes) as [[bs n]|] eqn:Hd; [|done].
  apply usize_decode_inv in Hd as (Hn & Hbs & Hlt & _); [|done].
  destruct (fold_authorities _ n bs) as [r'|] eqn:Hf; [|done].
  apply fold_authorities_inv in Hf as (l & Hl & ->); [|done | unfold is_uint in Hn; lia].
  apply Forall_app in Hbs as [_ Hr'].
  destruct (nom_le 4 r') as [[rest' d]|] eqn:Hle; [|done]. intros [= <- <-].
  apply nom_le_inv in Hle as [Hd ->]; [|done]. pose proof (authorities_bytes_array l Hl) as [Hal _].
  unfold GrandpaScheduledChange_from. cbn [next_authorities change_delay].
  rewrite length_app, Nat.add_sub, take_app_length', iter_collect_raw by done.
  eexists. split; [done|]. split_and!; [done | | done]. cbn [next_authorities]. unfold vec_ok.
  rewrite !length_app, Hal in Hlt. cbn [chunk_len GrandpaAuthority_chunks] in Hlt.
  unfold len in *. lia.
Qed.

(** A log that is a tag and an integer. *)
Ltac solve_integer_log :=
  cbn [concat app]; rewrite app_nil_r; unfold GrandpaConsensusLogRef_from_slice;
  cbn [grandpa_consensus_log_ref]; rewrite nom_le_encode_nil by done;
  split_and!; [done | constructor; [done | apply to_le_bytes_bytes] | len_lia | len_lia | done..].

#[export] Instance GrandpaConsensusLog_laws :
  LogCodecLaws (owned := GrandpaConsensusLog) (borrowed := GrandpaConsensusLogRef).
Proof.
  pose proof half_usize as Hhalf. pose proof half_usize_big as Hbig.
  split; cbn [log_ok log_scale_encoding log_borrow log_into log_from_slice log_aligned
    GrandpaConsensusLog_codec].
  - intros o Hok. unfold is_uint at 2.
    destruct o as [v|h v|n|n|n]; cbn [GrandpaConsensusLog_ok GrandpaConsensusLogRef_from] in *.
    + destruct (change_scale_encoding _ v (change_borrow_into v)) as (bufs & Henc & Hcat & _).
      destruct (grandpa_scheduled_change_ref_encode v Hok) as (r & Hdec & Hinto).
      destruct (change_bytes_size v Hok) as [Hb Hn].
      exists ([1] :: bufs), (ScheduledChange r).
      cbn [GrandpaConsensusLogRef_scale_encoding GrandpaConsensusLog_from concat app].
      rewrite Henc, Hinto, Hcat. unfold GrandpaConsensusLogRef_from_slice.
      cbn [grandpa_consensus_log_ref]. rewrite Hdec.
      split_and!; [done | by constructor | len_lia.. | done | done | done].
    + destruct Hok as [Hh Hok].
      destruct (change_scale_encoding _ v (change_borrow_into v)) as (bufs & Henc & Hcat & _).
      destruct (grandpa_scheduled_change_ref_encode v Hok) as (r & Hdec & Hinto).
      destruct (change_bytes_size v Hok) as [Hb Hn].
      exists ([2] :: to_le_bytes 4 h :: bufs), (ForcedChange h r).
      cbn [GrandpaConsensusLogRef_scale_encoding GrandpaConsensusLog_from concat app].
      rewrite Henc, Hinto, Hcat. unfold GrandpaConsensusLogRef_from_slice.
      cbn [grandpa_consensus_log_ref]. rewrite nom_le_encode, Hdec by done.
      split_and!; [done | | len_lia.. | done | done | done].
      constructor; [done|]. apply Forall_app. split; [apply to_le_bytes_bytes | done].
    + exists [[3]; to_le_bytes 8 n], (GrandpaOnDisabled n). solve_integer_log.
    + exists [[4]; to_le_bytes 4 n], (Pause n). solve_integer_log.
    + exists [[5]; to_le_bytes 4 n], (Resume n). solve_integer_log.
  - intros [v|h v|n|n|n]; cbn [GrandpaConsensusLogRef_from GrandpaConsensusLog_from]; try done;
      by rewrite change_borrow_into.
  - intros [v|h v|n|n|n] o; cbn [GrandpaConsensusLog_from]; try (by intros [= <-]);
      destruct (GrandpaScheduledChange_from v) as [v'|] eqn:Hv; try done; intros [= <-];
      destruct (change_scale_encoding v v' Hv) as (bufs & Henc & _ & Henc');
      cbn [GrandpaConsensusLogRef_from GrandpaConsensusLogRef_scale_encoding]; by rewrite Henc, Henc'.
  - intros bs r Hb Hlen [= Hd] _. unfold GrandpaConsensusLogRef_from_slice in Hd.
    destruct (grandpa_consensus_log_ref bs) as [[[|] log]|] eqn:Hlog; try done. injection Hd as <-.
    unfold grandpa_consensus_log_ref in Hlog. repeat case_match; simplify_eq/=;
      inversion Hb as [|? ? _ Hb']; subst;
      repeat match goal with H : (let! _ := ?e in _) = Some _ |- _ => destruct e as [[? ?]|] eqn:?; [|done] end;
      simplify_eq/=;
      repeat match goal with H : nom_le _ _ = Some _ |- _ => apply nom_le_inv in H as [? ->]; [|done] end;
      try (eexists; split; [done|]; done).
    + apply Forall_app in Hb' as [_ Hb'].
      edestruct grandpa_scheduled_change_ref_inv as (v & -> & Hv); [exact Hb' | | done | by eexists].
      rewrite len_cons, len_app, len_le_bytes in Hlen. lia.
    + edestruct grandpa_scheduled_change_ref_inv as (v & -> & Hv); [exact Hb' | | done | by eexists].
      rewrite len_cons in Hlen. lia.
Qed.

End grandpa.
