(* ===== verification/Header.v ===== *)
(** * Block headers and their digests ([src/src/header.rs])

    The logs of the engines come from HeaderAura.v, HeaderBabe.v and
    HeaderGrandpa.v through the class [LogCodec]. A digest is either a slice of
    encoded bytes that was validated when it was decoded, or a slice of items; an
    iterator over it decodes the items again. *)

From S2P Require Import Prelude Leb128 Scale Nibble TrieNode HeaderBase HeaderAura HeaderBabe HeaderGrandpa.

(** ** Data *)

(** [DigestItemRef] and [DigestItem]: the parameters are the logs of the engines. *)
Inductive DigestItemOf (aura babe grandpa : Type) :=
  | ItemAuraPreDigest (v : AuraPreDigest)
  | ItemAuraSeal (seal : list u8)
  | ItemAuraConsensus (v : aura)
  | ItemBabePreDigest (v : BabePreDigest)
  | ItemBabeConsensus (v : babe)
  | ItemBabeSeal (seal : list u8)
  | ItemGrandpaConsensus (v : grandpa)
  | ItemUnknownConsensus (engine opaque : list u8)
  | ItemUnknownPreRuntime (engine opaque : list u8)
  | ItemUnknownSeal (engine opaque : list u8)
  | ItemOther (v : list u8)
  | ItemRuntimeEnvironmentUpdated.
Arguments ItemAuraPreDigest {_ _ _} _.
Arguments ItemAuraSeal {_ _ _} _.
Arguments ItemAuraConsensus {_ _ _} _.
Arguments ItemBabePreDigest {_ _ _} _.
Arguments ItemBabeConsensus {_ _ _} _.
Arguments ItemBabeSeal {_ _ _} _.
Arguments ItemGrandpaConsensus {_ _ _} _.
Arguments ItemUnknownConsensus {_ _ _} _ _.
Arguments ItemUnknownPreRuntime {_ _ _} _ _.
Arguments ItemUnknownSeal {_ _ _} _ _.
Arguments ItemOther {_ _ _} _.
Arguments ItemRuntimeEnvironmentUpdated {_ _ _}.

Definition DigestItemRef : Type :=
  DigestItemOf AuraConsensusLogRef BabeConsensusLogRef GrandpaConsensusLogRef.
Definition DigestItem : Type := DigestItemOf AuraConsensusLog BabeConsensusLog GrandpaConsensusLog.

(** The fields that [DigestRef] and [Digest] share. *)
Record DigestIndices := mkDigestIndices {
  aura_seal_index : option usize;
  aura_predigest_index : option usize;
  babe_seal_index : option usize;
  babe_predigest_index : option usize;
  babe_next_epoch_data_index : option usize;
  babe_next_config_data_index : option usize;
  has_runtime_environment_updated : bool
}.

Inductive DigestRefInner :=
  | Undecoded (digest_logs_len : usize) (digest : list u8)
  | Parsed (list : list DigestItem).

Record DigestRef := mkDigestRef { dr_inner : DigestRefInner; dr_indices : DigestIndices }.

Record Digest := mkDigest { dg_list : list DigestItem; dg_indices : DigestIndices }.

(** [HeaderRef] and [Header], by their digest. *)
Record HeaderOf (digest : Type) := mkHeader {
  parent_hash : list u8;
  hd_number : u64;
  hd_state_root : list u8;
  hd_extrinsics_root : list u8;
  hd_digest : digest
}.
Arguments mkHeader {_} _ _ _ _ _.
Arguments parent_hash {_} _.
Arguments hd_number {_} _.
Arguments hd_state_root {_} _.
Arguments hd_extrinsics_root {_} _.
Arguments hd_digest {_} _.

Definition HeaderRef : Type := HeaderOf DigestRef.
Definition Header : Type := HeaderOf Digest.

Inductive Seal :=
  | SealAura (seal : list u8)
  | SealBabe (seal : list u8).

(** [LogsIter]. *)
Inductive LogsIter :=
  | LogsDecoded (iter : list DigestItem)
  | LogsUndecoded (pointer : list u8) (remaining_len : usize).

(** The names of the engines: [b"pow_"], [b"aura"], [b"BABE"] and [b"FRNK"]. *)
Definition engine_pow : list u8 := [112; 111; 119; 95].
Definition engine_aura : list u8 := [97; 117; 114; 97].
Definition engine_babe : list u8 := [66; 65; 66; 69].
Definition engine_grandpa : list u8 := [70; 82; 78; 75].

Definition empty_indices : DigestIndices := {|
  aura_seal_index := None; aura_predigest_index := None; babe_seal_index := None;
  babe_predigest_index := None; babe_next_epoch_data_index := None;
  babe_next_config_data_index := None; has_runtime_environment_updated := false
|}.

(** ** Items *)

Definition DigestItemRef_is_aura (self : DigestItemRef) : bool :=
  match self with
  | ItemAuraPreDigest _ | ItemAuraSeal _ | ItemAuraConsensus _ => true
  | _ => false
  end.

Definition DigestItemRef_is_babe (self : DigestItemRef) : bool :=
  match self with
  | ItemBabePreDigest _ | ItemBabeConsensus _ | ItemBabeSeal _ => true
  | _ => false
  end.

Section header.
Context `{Platform} `{Nom}.

(** A tag, an engine, and a content with its length. *)
Definition encode_engine_item (index : u8) (engine content : list u8) : list u8 :=
  [index] ++ engine ++ encode_scale_compact_usize (len content) ++ content.

Definition DigestItemRef_scale_encoding (self : DigestItemRef) : option (list u8) :=
  match self with
  | ItemAuraPreDigest v =>
      let! bufs := log_scale_encoding v in Some (encode_engine_item 6 engine_aura (concat bufs))
  | ItemAuraSeal seal => Some (encode_engine_item 5 engine_aura seal)
  | ItemAuraConsensus v =>
      let! bufs := log_scale_encoding v in Some (encode_engine_item 4 engine_aura (concat bufs))
  | ItemBabePreDigest v =>
      let! bufs := log_scale_encoding v in Some (encode_engine_item 6 engine_babe (concat bufs))
  | ItemBabeConsensus v =>
      let! bufs := log_scale_encoding v in Some (encode_engine_item 4 engine_babe (concat bufs))
  | ItemGrandpaConsensus v =>
      let! bufs := log_scale_encoding v in Some (encode_engine_item 4 engine_grandpa (concat bufs))
  | ItemBabeSeal seal => Some (encode_engine_item 5 engine_babe seal)
  | ItemUnknownConsensus engine opaque => Some (encode_engine_item 4 engine opaque)
  | ItemUnknownSeal engine opaque => Some (encode_engine_item 5 engine opaque)
  | ItemUnknownPreRuntime engine opaque => Some (encode_engine_item 6 engine opaque)
  | ItemOther raw => Some ([0] ++ encode_scale_compact_usize (len raw) ++ raw)
  | ItemRuntimeEnvironmentUpdated => Some [8]
  end.

(** [From<&DigestItem> for DigestItemRef]. *)
Definition DigestItemRef_from (a : DigestItem) : DigestItemRef :=
  match a with
  | ItemAuraPreDigest v => ItemAuraPreDigest v
  | ItemAuraConsensus v => ItemAuraConsensus (log_borrow v)
  | ItemAuraSeal v => ItemAuraSeal v
  | ItemBabePreDigest v => ItemBabePreDigest (log_borrow v)
  | ItemBabeConsensus v => ItemBabeConsensus (log_borrow v)
  | ItemBabeSeal v => ItemBabeSeal v
  | ItemGrandpaConsensus v => ItemGrandpaConsensus (log_borrow v)
  | ItemUnknownConsensus engine opaque => ItemUnknownConsensus engine opaque
  | ItemUnknownSeal engine opaque => ItemUnknownSeal engine opaque
  | ItemUnknownPreRuntime engine opaque => ItemUnknownPreRuntime engine opaque
  | ItemOther v => ItemOther v
  | ItemRuntimeEnvironmentUpdated => ItemRuntimeEnvironmentUpdated
  end.

(** [From<DigestItemRef> for DigestItem]. *)
Definition DigestItem_from (a : DigestItemRef) : option DigestItem :=
  match a with
  | ItemAuraPreDigest v => Some (ItemAuraPreDigest v)
  | ItemAuraConsensus v => let! v := log_into v in Some (ItemAuraConsensus v)
  | ItemAuraSeal v => Some (ItemAuraSeal v)
  | ItemBabePreDigest v => let! v := log_into v in Some (ItemBabePreDigest v)
  | ItemBabeConsensus v => let! v := log_into v in Some (ItemBabeConsensus v)
  | ItemBabeSeal v => Some (ItemBabeSeal v)
  | ItemGrandpaConsensus v => let! v := log_into v in Some (ItemGrandpaConsensus v)
  | ItemUnknownConsensus engine opaque => Some (ItemUnknownConsensus engine opaque)
  | ItemUnknownSeal engine opaque => Some (ItemUnknownSeal engine opaque)
  | ItemUnknownPreRuntime engine opaque => Some (ItemUnknownPreRuntime engine opaque)
  | ItemOther v => Some (ItemOther v)
  | ItemRuntimeEnvironmentUpdated => Some ItemRuntimeEnvironmentUpdated
  end.

Definition decode_item_from_parts (index : u8) (engine_id content : list u8)
    : outcome Error DigestItemRef :=
  if bool_decide (engine_id = engine_pow) then Some (Err PowIdeologicallyNotSupported)
  else
    match index with
    | 4 =>
        if bool_decide (engine_id = engine_aura) then
          let* v := log_from_slice content in Some (Ok (ItemAuraConsensus v))
        else if bool_decide (engine_id = engine_babe) then
          let* v := log_from_slice content in Some (Ok (ItemBabeConsensus v))
        else if bool_decide (engine_id = engine_grandpa) then
          let* v := log_from_slice content in Some (Ok (ItemGrandpaConsensus v))
        else Some (Ok (ItemUnknownConsensus engine_id content))
    | 5 =>
        if bool_decide (engine_id = engine_aura) then
          Some (let? seal := ok_or (array_try_from 64 content) BadAuraSealLength in Ok (ItemAuraSeal seal))
        else if bool_decide (engine_id = engine_babe) then
          Some (let? seal := ok_or (array_try_from 64 content) BadBabeSealLength in Ok (ItemBabeSeal seal))
        else Some (Ok (ItemUnknownSeal engine_id content))
    | 6 =>
        if bool_decide (engine_id = engine_aura) then
          let* v := log_from_slice content in Some (Ok (ItemAuraPreDigest v))
        else if bool_decide (engine_id = engine_babe) then
          let* v := log_from_slice content in Some (Ok (ItemBabePreDigest v))
        else Some (Ok (ItemUnknownPreRuntime engine_id content))
    | _ => None
    end.

(** A length and as many bytes. *)
Definition decode_content (slice : list u8) : result Error (list u8 * list u8) :=
  let? (slice, n) := map_err (fun _ => DigestItemLenDecodeError) (nom_scale_compact_usize slice) in
  if len slice <? n then Err TooShort
  else Ok (take (Z.to_nat n) slice, drop (Z.to_nat n) slice).

Definition decode_item (slice : list u8) : outcome Error (DigestItemRef * list u8) :=
  match slice with
  | [] => Some (Err TooShort)
  | index :: slice =>
      match index with
      | 4 | 5 | 6 =>
          if len slice <? 4 then Some (Err TooShort)
          else
            let* (content, rest) := Some (decode_content (drop 4 slice)) in
            let* item := decode_item_from_parts index (take 4 slice) content in
            Some (Ok (item, rest))
      | 8 => Some (Ok (ItemRuntimeEnvironmentUpdated, slice))
      | 0 =>
          let* (content, rest) := Some (decode_content slice) in
          Some (Ok (ItemOther content, rest))
      | ty => Some (Err (UnknownDigestLogType ty))
      end
  end.

(** ** Digests *)

(** The body of the loops of [from_slice] and [from_scale_bytes], which is written
    twice: [last] is [item_num == len - 1]. *)
Definition check_item {epoch A G} (last : bool) (item_num : usize)
    (item : DigestItemOf A (BabeConsensusLogOf epoch) G) (st : DigestIndices)
    : result Error DigestIndices :=
  match item with
  | ItemAuraPreDigest _ =>
      if aura_predigest_index st then Err MultipleAuraPreRuntimeDigests
      else Ok (mkDigestIndices (aura_seal_index st) (Some item_num) (babe_seal_index st)
        (babe_predigest_index st) (babe_next_epoch_data_index st) (babe_next_config_data_index st)
        (has_runtime_environment_updated st))
  | ItemAuraConsensus _ => Ok st
  | ItemBabePreDigest _ =>
      if babe_predigest_index st then Err MultipleBabePreRuntimeDigests
      else Ok (mkDigestIndices (aura_seal_index st) (aura_predigest_index st) (babe_seal_index st)
        (Some item_num) (babe_next_epoch_data_index st) (babe_next_config_data_index st)
        (has_runtime_environment_updated st))
  | ItemBabeConsensus (NextEpochData _) =>
      if babe_next_epoch_data_index st then Err MultipleBabeEpochDescriptors
      else Ok (mkDigestIndices (aura_seal_index st) (aura_predigest_index st) (babe_seal_index st)
        (babe_predigest_index st) (Some item_num) (babe_next_config_data_index st)
        (has_runtime_environment_updated st))
  | ItemBabeConsensus (NextConfigData _) =>
      if babe_next_config_data_index st then Err MultipleBabeConfigDescriptors
      else Ok (mkDigestIndices (aura_seal_index st) (aura_predigest_index st) (babe_seal_index st)
        (babe_predigest_index st) (babe_next_epoch_data_index st) (Some item_num)
        (has_runtime_environment_updated st))
  | ItemBabeConsensus (BabeOnDisabled _) => Ok st
  | ItemGrandpaConsensus _ => Ok st
  | ItemAuraSeal _ =>
      if last then
        Ok (mkDigestIndices (Some item_num) (aura_predigest_index st) (babe_seal_index st)
          (babe_predigest_index st) (babe_next_epoch_data_index st) (babe_next_config_data_index st)
          (has_runtime_environment_updated st))
      else Err SealIsntLastItem
  | ItemBabeSeal _ =>
      if last then
        Ok (mkDigestIndices (aura_seal_index st) (aura_predigest_index st) (Some item_num)
          (babe_predigest_index st) (babe_next_epoch_data_index st) (babe_next_config_data_index st)
          (has_runtime_environment_updated st))
      else Err SealIsntLastItem
  | ItemRuntimeEnvironmentUpdated =>
      if has_runtime_environment_updated st then Err MutipleRuntimeEnvironmentUpdated
      else Ok (mkDigestIndices (aura_seal_index st) (aura_predigest_index st) (babe_seal_index st)
        (babe_predigest_index st) (babe_next_epoch_data_index st) (babe_next_config_data_index st) true)
  | ItemUnknownSeal _ _ => if last then Ok st else Err SealIsntLastItem
  | ItemUnknownConsensus _ _ | ItemUnknownPreRuntime _ _ | ItemOther _ => Ok st
  end.

(** The test after the loops. *)
Definition check_config (st : DigestIndices) : result Error DigestIndices :=
  if babe_next_config_data_index st then
    if babe_next_epoch_data_index st then Ok st else Err UnexpectedBabeConfigDescriptor
  else Ok st.

(** The loop of [from_slice]. *)
Fixpoint check_items {epoch A G} (total item_num : Z)
    (items : list (DigestItemOf A (BabeConsensusLogOf epoch) G)) (st : DigestIndices)
    : result Error DigestIndices :=
  match items with
  | [] => Ok st
  | item :: items =>
      let? st := check_item (item_num =? total - 1) item_num item st in
      check_items total (item_num + 1) items st
  end.

Definition DigestRef_from_slice (slice : list DigestItem) : result Error DigestRef :=
  let? st := check_items (len slice) 0 slice empty_indices in
  let? st := check_config st in
  Ok (mkDigestRef (Parsed slice) st).

(** The loop of [from_scale_bytes]. An item takes at least one byte: the length of
    the input is enough turns, after which decoding an item fails on an empty
    slice. *)
Fixpoint decode_items (fuel : nat) (total item_num : Z) (next_digest : list u8)
    (st : DigestIndices) : outcome Error (DigestIndices * list u8) :=
  if item_num =? total then Some (Ok (st, next_digest))
  else
    match fuel with
    | O => Some (Err TooShort)
    | S fuel =>
        let* (item, next) := decode_item next_digest in
        let* st := Some (check_item (item_num =? total - 1) item_num item st) in
        decode_items fuel total (item_num + 1) next st
    end.

Definition DigestRef_from_scale_bytes (scale_encoded : list u8)
    : outcome Error (DigestRef * list u8) :=
  let* (scale_encoded, digest_logs_len) :=
    Some (map_err (fun _ => DigestItemLenDecodeError) (nom_scale_compact_usize scale_encoded)) in
  let* (st, next_digest) :=
    decode_items (length scale_encoded) digest_logs_len 0 scale_encoded empty_indices in
  let* st := Some (check_config st) in
  Some (Ok (mkDigestRef (Undecoded digest_logs_len scale_encoded) st, next_digest)).

Definition DigestRef_empty : DigestRef := mkDigestRef (Parsed []) empty_indices.

(** [From<&Digest> for DigestRef]. *)
Definition DigestRef_from (digest : Digest) : DigestRef :=
  mkDigestRef (Parsed (dg_list digest)) (dg_indices digest).

(** *** Iterating over the logs *)

(** [LogsIter::next]: [None] is the panic of [decode_item(..).unwrap()]. *)
Definition LogsIter_next (self : LogsIter) : option (option (DigestItemRef * LogsIter)) :=
  match self with
  | LogsDecoded [] => Some None
  | LogsDecoded (item :: iter) => Some (Some (DigestItemRef_from item, LogsDecoded iter))
  | LogsUndecoded pointer remaining_len =>
      if remaining_len =? 0 then Some None
      else
        match decode_item pointer with
        | Some (Ok (item, new_pointer)) =>
            Some (Some (item, LogsUndecoded new_pointer (remaining_len - 1)))
        | _ => None
        end
  end.

Definition LogsIter_len (self : LogsIter) : usize :=
  match self with
  | LogsDecoded iter => len iter
  | LogsUndecoded _ remaining_len => remaining_len
  end.

Definition LogsIter_fuel (self : LogsIter) : nat :=
  match self with
  | LogsDecoded iter => S (length iter)
  | LogsUndecoded pointer _ => S (length pointer)
  end.

Fixpoint LogsIter_loop (fuel : nat) (self : LogsIter) : option (list DigestItemRef) :=
  match fuel with
  | O => None
  | S fuel =>
      match LogsIter_next self with
      | None => None
      | Some None => Some []
      | Some (Some (item, self)) => let! l := LogsIter_loop fuel self in Some (item :: l)
      end
  end.

Definition LogsIter_collect (self : LogsIter) : option (list DigestItemRef) :=
  LogsIter_loop (LogsIter_fuel self) self.

(** [Iterator::nth]. *)
Fixpoint LogsIter_nth (n : nat) (self : LogsIter) : option (option DigestItemRef) :=
  match LogsIter_next self with
  | None => None
  | Some None => Some None
  | Some (Some (item, self)) =>
      match n with
      | O => Some (Some item)
      | S n => LogsIter_nth n self
      end
  end.

(** [for _ in 0..n { iter.next(); }]. *)
Fixpoint LogsIter_skip (n : nat) (self : LogsIter) : option LogsIter :=
  match n with
  | O => Some self
  | S n =>
      match LogsIter_next self with
      | None => None
      | Some None => LogsIter_skip n self
      | Some (Some (_, self)) => LogsIter_skip n self
      end
  end.

Definition DigestRef_logs (self : DigestRef) : LogsIter :=
  match dr_inner self with
  | Parsed list => LogsDecoded list
  | Undecoded digest_logs_len digest => LogsUndecoded digest digest_logs_len
  end.

Definition DigestRef_has_any_aura (self : DigestRef) : option bool :=
  let! logs := LogsIter_collect (DigestRef_logs self) in Some (existsb DigestItemRef_is_aura logs).
Definition DigestRef_has_any_babe (self : DigestRef) : option bool :=
  let! logs := LogsIter_collect (DigestRef_logs self) in Some (existsb DigestItemRef_is_babe logs).

(** [self.logs().nth(index).unwrap()], and the item it must be. *)
Definition DigestRef_nth {A} (self : DigestRef) (index : option usize)
    (select : DigestItemRef -> option A) : option (option A) :=
  match index with
  | None => Some None
  | Some i =>
      match LogsIter_nth (Z.to_nat i) (DigestRef_logs self) with
      | Some (Some item) => let! a := select item in Some (Some a)
      | _ => None
      end
  end.

Definition select_aura_seal (item : DigestItemRef) : option (list u8) :=
  match item with ItemAuraSeal seal => Some seal | _ => None end.
Definition select_aura_pre_digest (item : DigestItemRef) : option AuraPreDigest :=
  match item with ItemAuraPreDigest v => Some v | _ => None end.
Definition select_babe_seal (item : DigestItemRef) : option (list u8) :=
  match item with ItemBabeSeal seal => Some seal | _ => None end.
Definition select_babe_pre_digest (item : DigestItemRef) : option BabePreDigest :=
  match item with ItemBabePreDigest v => Some v | _ => None end.
Definition select_next_epoch (item : DigestItemRef) : option BabeNextEpochRef :=
  match item with ItemBabeConsensus (NextEpochData v) => Some v | _ => None end.
Definition select_next_config (item : DigestItemRef) : option BabeNextConfig :=
  match item with ItemBabeConsensus (NextConfigData v) => Some v | _ => None end.

Definition DigestRef_aura_seal (self : DigestRef) : option (option (list u8)) :=
  DigestRef_nth self (aura_seal_index (dr_indices self)) select_aura_seal.
Definition DigestRef_aura_pre_runtime (self : DigestRef) : option (option AuraPreDigest) :=
  DigestRef_nth self (aura_predigest_index (dr_indices self)) select_aura_pre_digest.
Definition DigestRef_babe_seal (self : DigestRef) : option (option (list u8)) :=
  DigestRef_nth self (babe_seal_index (dr_indices self)) select_babe_seal.
Definition DigestRef_babe_pre_runtime (self : DigestRef) : option (option BabePreDigest) :=
  DigestRef_nth self (babe_predigest_index (dr_indices self)) select_babe_pre_digest.

Definition DigestRef_babe_epoch_information (self : DigestRef)
    : option (option (BabeNextEpochRef * option BabeNextConfig)) :=
  let! epoch := DigestRef_nth self (babe_next_epoch_data_index (dr_indices self)) select_next_epoch in
  match epoch with
  | None => Some None
  | Some epoch =>
      let! config :=
        DigestRef_nth self (babe_next_config_data_index (dr_indices self)) select_next_config in
      Some (Some (epoch, config))
  end.

(** *** Seals *)

Definition set_babe_seal_index (st : DigestIndices) (i : option usize) : DigestIndices :=
  mkDigestIndices (aura_seal_index st) (aura_predigest_index st) i (babe_predigest_index st)
    (babe_next_epoch_data_index st) (babe_next_config_data_index st) (has_runtime_environment_updated st).
Definition set_aura_seal_index (st : DigestIndices) (i : option usize) : DigestIndices :=
  mkDigestIndices i (aura_predigest_index st) (babe_seal_index st) (babe_predigest_index st)
    (babe_next_epoch_data_index st) (babe_next_config_data_index st) (has_runtime_environment_updated st).

Definition DigestRef_pop_seal (self : DigestRef) : option (option Seal * DigestRef) :=
  match (match babe_seal_index (dr_indices self) with
         | Some i => Some i
         | None => aura_seal_index (dr_indices self)
         end) with
  | None => Some (None, self)
  | Some seal_pos =>
      match dr_inner self with
      | Parsed list =>
          let! item := list !! Z.to_nat seal_pos in
          let self := mkDigestRef (Parsed (take (Z.to_nat seal_pos) list)) (dr_indices self) in
          match item with
          | ItemAuraSeal seal => Some (Some (SealAura seal), self)
          | ItemBabeSeal seal => Some (Some (SealBabe seal), self)
          | _ => None
          end
      | Undecoded digest_logs_len digest =>
          let! iter := LogsIter_skip (Z.to_nat seal_pos) (LogsUndecoded digest digest_logs_len) in
          match iter with
          | LogsDecoded _ => None
          | LogsUndecoded pointer _ =>
              let self :=
                mkDigestRef
                  (Undecoded (wsub usize_bits digest_logs_len 1)
                    (take (length digest - length pointer) digest))
                  (set_babe_seal_index (dr_indices self) None) in
              match LogsIter_next iter with
              | Some (Some (ItemAuraSeal seal, _)) => Some (Some (SealAura seal), self)
              | Some (Some (ItemBabeSeal seal, _)) => Some (Some (SealBabe seal), self)
              | _ => None
              end
          end
      end
  end.

Inductive PushSealError := mkPushSealError.

Definition Digest_push_aura_seal (self : Digest) (seal : list u8) : result PushSealError Digest :=
  match aura_seal_index (dg_indices self) with
  | None => Ok (mkDigest (dg_list self ++ [ItemAuraSeal seal])
              (set_aura_seal_index (dg_indices self) (Some (len (dg_list self)))))
  | Some _ => Err mkPushSealError
  end.

Definition Digest_push_babe_seal (self : Digest) (seal : list u8) : result PushSealError Digest :=
  match babe_seal_index (dg_indices self) with
  | None => Ok (mkDigest (dg_list self ++ [ItemBabeSeal seal])
              (set_babe_seal_index (dg_indices self) (Some (len (dg_list self)))))
  | Some _ => Err mkPushSealError
  end.

(** *** Encoding and conversion *)

Definition DigestRef_scale_encoding (self : DigestRef) : option (list (list u8)) :=
  let encoded_len := encode_scale_compact_usize (LogsIter_len (DigestRef_logs self)) in
  let! logs := LogsIter_collect (DigestRef_logs self) in
  let! items := mapM DigestItemRef_scale_encoding logs in
  Some (encoded_len :: items).

(** [From<DigestRef> for Digest]. *)
Definition Digest_from (digest : DigestRef) : option Digest :=
  let! logs := LogsIter_collect (DigestRef_logs digest) in
  let! list := mapM DigestItem_from logs in
  Some (mkDigest list (dr_indices digest)).

(** The methods of [Digest] go through [DigestRef]. *)
Definition Digest_logs (self : Digest) : LogsIter := DigestRef_logs (DigestRef_from self).
Definition Digest_aura_seal (self : Digest) := DigestRef_aura_seal (DigestRef_from self).
Definition Digest_babe_seal (self : Digest) := DigestRef_babe_seal (DigestRef_from self).
Definition Digest_babe_pre_runtime (self : Digest) := DigestRef_babe_pre_runtime (DigestRef_from self).
Definition Digest_babe_epoch_information (self : Digest) :=
  DigestRef_babe_epoch_information (DigestRef_from self).

(** ** Headers *)

Definition decode_partial (scale_encoded : list u8) : outcome Error (HeaderRef * list u8) :=
  if len scale_encoded <? 32 + 1 then Some (Err TooShort)
  else
    let parent_hash := take 32 scale_encoded in
    let* (scale_encoded, number) :=
      Some (map_err (fun _ => BlockNumberDecodeError) (nom_scale_compact_u64 (drop 32 scale_encoded))) in
    if len scale_encoded <? 32 + 32 + 1 then Some (Err TooShort)
    else
      let state_root := take 32 scale_encoded in
      let extrinsics_root := take 32 (drop 32 scale_encoded) in
      let* (digest, remainder) := DigestRef_from_scale_bytes (drop 32 (drop 32 scale_encoded)) in
      Some (Ok (mkHeader parent_hash number state_root extrinsics_root digest, remainder)).

Definition decode (scale_encoded : list u8) : outcome Error HeaderRef :=
  let* (header, remainder) := decode_partial scale_encoded in
  match remainder with
  | [] => Some (Ok header)
  | _ :: _ => Some (Err TooLong)
  end.

Definition HeaderRef_scale_encoding (self : HeaderRef) : option (list (list u8)) :=
  let! digest := DigestRef_scale_encoding (hd_digest self) in
  Some ([parent_hash self; encode_scale_compact_u64 (hd_number self);
         hd_state_root self; hd_extrinsics_root self] ++ digest).

Definition HeaderRef_scale_encoding_vec (self : HeaderRef) : option (list u8) :=
  let! bufs := HeaderRef_scale_encoding self in Some (concat bufs).

(** [From<&Header> for HeaderRef] and [From<HeaderRef> for Header]. *)
Definition HeaderRef_from (a : Header) : HeaderRef :=
  mkHeader (parent_hash a) (hd_number a) (hd_state_root a) (hd_extrinsics_root a)
    (DigestRef_from (hd_digest a)).
Definition Header_from (a : HeaderRef) : option Header :=
  let! digest := Digest_from (hd_digest a) in
  Some (mkHeader (parent_hash a) (hd_number a) (hd_state_root a) (hd_extrinsics_root a) digest).

Definition Header_scale_encoding (self : Header) : option (list (list u8)) :=
  HeaderRef_scale_encoding (HeaderRef_from self).
Definition Header_scale_encoding_vec (self : Header) : option (list u8) :=
  HeaderRef_scale_encoding_vec (HeaderRef_from self).

(** [with_key(32, &[])] is the 32-byte hash without a key. *)
Definition hash_from_scale_encoded_header_vectored `{Blake2b} (header : list (list u8)) : list u8 :=
  hasher_finalize (foldl hasher_update hasher_new header).
Definition hash_from_scale_encoded_header `{Blake2b} (header : list u8) : list u8 :=
  hash_from_scale_encoded_header_vectored [header].

Definition HeaderRef_hash `{Blake2b} (self : HeaderRef) : option (list u8) :=
  let! bufs := HeaderRef_scale_encoding self in Some (hash_from_scale_encoded_header_vectored bufs).
Definition Header_hash `{Blake2b} (self : Header) : option (list u8) :=
  HeaderRef_hash (HeaderRef_from self).

End header.
