(* ===== verification/HeaderDigest.v ===== *)
(** * The invariant of a digest ([DigestRef] in [src/src/header.rs])

    A digest stands for a list of items ([digest_view]): iterating yields the items
    without panic, they satisfy the rules on repeated items and seals, and the
    indices are the positions of the items. Every way to build a digest gives a
    view; on a view the accessors do not panic and return the item of their kind. *)

From S2P Require Import Prelude Leb128 Scale Nibble TrieNode HeaderBase HeaderAura HeaderBabe HeaderGrandpa Header.

(** ** The rules on the items, by kind *)

Inductive ItemKind :=
  | KAuraPreDigest | KBabePreDigest | KNextEpoch | KNextConfig
  | KAuraSeal | KBabeSeal | KUnknownSeal | KRuntime | KPlain.

#[export] Instance ItemKind_eq_dec : EqDecision ItemKind.
Proof. solve_decision. Defined.

Definition item_kind {epoch A G} (item : DigestItemOf A (BabeConsensusLogOf epoch) G) : ItemKind :=
  match item with
  | ItemAuraPreDigest _ => KAuraPreDigest
  | ItemBabePreDigest _ => KBabePreDigest
  | ItemBabeConsensus (NextEpochData _) => KNextEpoch
  | ItemBabeConsensus (NextConfigData _) => KNextConfig
  | ItemAuraSeal _ => KAuraSeal
  | ItemBabeSeal _ => KBabeSeal
  | ItemUnknownSeal _ _ => KUnknownSeal
  | ItemRuntimeEnvironmentUpdated => KRuntime
  | _ => KPlain
  end.

(** The kinds of which a digest has one item at most, and the seals. *)
Definition unique_kind (k : ItemKind) : bool :=
  match k with
  | KAuraPreDigest | KBabePreDigest | KNextEpoch | KNextConfig | KRuntime => true
  | _ => false
  end.
Definition seal_kind (k : ItemKind) : bool :=
  match k with
  | KAuraSeal | KBabeSeal | KUnknownSeal => true
  | _ => false
  end.

(** The position of the first item of a kind. *)
Fixpoint index_from (k : ItemKind) (i : Z) (ks : list ItemKind) : option Z :=
  match ks with
  | [] => None
  | k' :: ks => if decide (k' = k) then Some i else index_from k (i + 1) ks
  end.
Definition index_of (k : ItemKind) (ks : list ItemKind) : option Z := index_from k 0 ks.

Definition indices_of (ks : list ItemKind) : DigestIndices := {|
  aura_seal_index := index_of KAuraSeal ks;
  aura_predigest_index := index_of KAuraPreDigest ks;
  babe_seal_index := index_of KBabeSeal ks;
  babe_predigest_index := index_of KBabePreDigest ks;
  babe_next_epoch_data_index := index_of KNextEpoch ks;
  babe_next_config_data_index := index_of KNextConfig ks;
  has_runtime_environment_updated := if index_of KRuntime ks then true else false
|}.

(** What is required of the list: no kind that must be unique is repeated, a seal
    is last, and a new configuration comes with an epoch. *)
Definition no_repeat (ks : list ItemKind) : Prop :=
  forall i j k, ks !! i = Some k -> ks !! j = Some k -> unique_kind k = true -> i = j.
Definition seals_last (total : nat) (ks : list ItemKind) : Prop :=
  forall i k, ks !! i = Some k -> seal_kind k = true -> S i = total.
Definition kinds_wf (ks : list ItemKind) : Prop :=
  no_repeat ks /\ seals_last (length ks) ks /\ (KNextConfig ∈ ks -> KNextEpoch ∈ ks).

Lemma index_from_app k i ks ks' :
  index_from k i (ks ++ ks') =
  match index_from k i ks with
  | Some j => Some j
  | None => index_from k (i + len ks) ks'
  end.
Proof.
  revert i. induction ks as [|k' ks IH]; intros i; cbn [app index_from].
  - by rewrite len_nil, Z.add_0_r.
  - case_decide; [done|]. rewrite IH. rewrite len_cons. by rewrite Z.add_assoc.
Qed.

Lemma index_of_snoc k ks k' :
  index_of k (ks ++ [k']) =
  if decide (k' = k) then
    match index_of k ks with
    | Some j => Some j
    | None => Some (len ks)
    end
  else index_of k ks.
Proof.
  unfold index_of. rewrite index_from_app. cbn [index_from].
  destruct (index_from k 0 ks); by case_decide.
Qed.

Lemma index_from_None k i ks : index_from k i ks = None <-> k ∉ ks.
Proof.
  revert i. induction ks as [|k' ks IH]; intros i; cbn [index_from]; [by split; [intros _; apply not_elem_of_nil|]|].
  rewrite not_elem_of_cons. case_decide; [naive_solver|]. rewrite IH. naive_solver.
Qed.

Lemma index_of_None k ks : index_of k ks = None <-> k ∉ ks.
Proof. apply index_from_None. Qed.

Lemma index_from_Some k i ks j :
  index_from k i ks = Some j -> exists n, j = i + Z.of_nat n /\ ks !! n = Some k /\ k ∉ take n ks.
Proof.
  revert i. induction ks as [|k' ks IH]; intros i; cbn [index_from]; [done|]. case_decide as Hk.
  - intros [= <-]. exists 0%nat. subst. split_and!; [lia | done | apply not_elem_of_nil].
  - intros (n & -> & Hn & Hnot)%IH. exists (S n). split_and!; [lia | done |].
    cbn [take]. rewrite not_elem_of_cons. naive_solver.
Qed.

Lemma index_of_elem k ks i : index_of k ks = Some i -> k ∈ ks.
Proof. intros (n & _ & Hn & _)%index_from_Some. by eapply list_elem_of_lookup_2. Qed.

(** The body of the loops sees only the kind. *)
Lemma check_item_kind {epoch A G epoch' A' G'} last n st
    (a : DigestItemOf A (BabeConsensusLogOf epoch) G) (b : DigestItemOf A' (BabeConsensusLogOf epoch') G') :
  item_kind a = item_kind b -> check_item last n a st = check_item last n b st.
Proof. destruct a as [| | | |[]| | | | | | |], b as [| | | |[]| | | | | | |]; done. Qed.

Lemma no_repeat_snoc ks k :
  no_repeat (ks ++ [k]) <-> no_repeat ks /\ (unique_kind k = true -> k ∉ ks).
Proof.
  split.
  - intros Hno. split.
    + intros i j k' Hi Hj. apply Hno; rewrite lookup_app_l; eauto using lookup_lt_Some.
    + intros Hk [i Hi]%list_elem_of_lookup. apply lookup_lt_Some in Hi as Hlt.
      enough (i = length ks) by lia. apply (Hno i (length ks) k); [|apply list_lookup_middle|]; try done.
      by rewrite lookup_app_l.
  - intros [Hno Hk] i j k' Hi Hj Hu.
    apply lookup_snoc_Some in Hi as [[_ Hi]|[-> ->]], Hj as [[_ Hj]|[-> Hj]]; subst; [by eapply Hno | | | done].
    + exfalso. apply Hk; [done|]. by eapply list_elem_of_lookup_2.
    + exfalso. apply Hk; [done|]. by eapply list_elem_of_lookup_2.
Qed.

(** One turn of the loop, on a list without seals. *)
Lemma check_item_spec {epoch A G} (total : Z) (ks : list ItemKind) st
    (item : DigestItemOf A (BabeConsensusLogOf epoch) G) :
  (forall k, k ∈ ks -> seal_kind k = false) ->
  check_item (len ks =? total - 1) (len ks) item (indices_of ks) = Ok st <->
  (unique_kind (item_kind item) = true -> item_kind item ∉ ks) /\
  (seal_kind (item_kind item) = true -> len ks = total - 1) /\
  st = indices_of (ks ++ [item_kind item]).
Proof.
  intros Hseal.
  assert (index_of KAuraSeal ks = None) as Ha by (apply index_of_None; intros ?%Hseal; done).
  assert (index_of KBabeSeal ks = None) as Hb by (apply index_of_None; intros ?%Hseal; done).
  unfold indices_of. rewrite !index_of_snoc.
  destruct (index_of (item_kind item) ks) eqn:Hi;
    [assert (item_kind item ∈ ks) as Hin
      by (destruct (decide (item_kind item ∈ ks)) as [|Hn]; [done|];
          apply index_of_None in Hn; by rewrite Hn in Hi)
    |assert (item_kind item ∉ ks) as Hin by (by apply index_of_None)].
  all: destruct (Z.eqb_spec (len ks) (total - 1));
    destruct item as [| | | |[]| | | | | | |]; cbn in Hi, Hin |- *; rewrite ?Hi, ?Ha, ?Hb; naive_solver.
Qed.

Lemma seals_last_snoc total ks k :
  seals_last total (ks ++ [k]) <->
  seals_last total ks /\ (seal_kind k = true -> S (length ks) = total).
Proof.
  split.
  - intros Hs. split.
    + intros i k' Hi. apply (Hs i k'). rewrite lookup_app_l; eauto using lookup_lt_Some.
    + intros Hk. apply (Hs (length ks) k); [apply list_lookup_middle|]; done.
  - intros [Hs Hk] i k' Hi Hk'. apply lookup_snoc_Some in Hi as [[_ Hi]|[-> <-]]; [by eapply Hs | auto].
Qed.

Lemma seals_last_none total ks :
  seals_last total ks -> (length ks < total)%nat -> forall k, k ∈ ks -> seal_kind k = false.
Proof.
  intros Hs Hlt k [i Hi]%list_elem_of_lookup. destruct (seal_kind k) eqn:Hk; [|done].
  pose proof (Hs i k Hi Hk). apply lookup_lt_Some in Hi. lia.
Qed.

Lemma no_repeat_prefix ks ks' : no_repeat (ks ++ ks') -> no_repeat ks.
Proof.
  intros Hno i j k Hi Hj. apply Hno; rewrite lookup_app_l; eauto using lookup_lt_Some.
Qed.

Lemma seals_last_prefix total ks ks' : seals_last total (ks ++ ks') -> seals_last total ks.
Proof. intros Hs i k Hi. apply (Hs i k). rewrite lookup_app_l; eauto using lookup_lt_Some. Qed.

(** The loop accepts exactly the lists that follow the rules, and computes the
    positions. *)
Lemma check_items_spec {epoch A G} (items : list (DigestItemOf A (BabeConsensusLogOf epoch) G))
    (pre : list ItemKind) total st :
  total = (length pre + length items)%nat -> no_repeat pre -> seals_last total pre ->
  check_items (Z.of_nat total) (len pre) items (indices_of pre) = Ok st <->
  let ks := pre ++ map item_kind items in
  no_repeat ks /\ seals_last total ks /\ st = indices_of ks.
Proof.
  revert pre. induction items as [|item items IH]; intros pre Htot Hno Hseal; cbn [check_items map].
  { rewrite app_nil_r. naive_solver. }
  cbn [length] in Htot.
  assert (forall k, k ∈ pre -> seal_kind k = false) as Hnone by (eapply seals_last_none; [done|lia]).
  replace (pre ++ item_kind item :: map item_kind items)
    with ((pre ++ [item_kind item]) ++ map item_kind items) by (by rewrite <- app_assoc).
  destruct (check_item _ _ item _) as [st1|e] eqn:Hc; cbn [result_bind].
  - apply check_item_spec in Hc as (Hu & Hs & ->); [|done].
    replace (len pre + 1) with (len (pre ++ [item_kind item])) by len_lia.
    apply IH; [rewrite length_app; cbn; lia | by apply no_repeat_snoc |].
    apply seals_last_snoc. split; [done|]. intros Hk. apply Hs in Hk. unfold len in Hk. lia.
  - split; [done|]. intros (Hno' & Hseal' & _).
    apply no_repeat_prefix, no_repeat_snoc in Hno' as [_ Hu].
    apply seals_last_prefix, seals_last_snoc in Hseal' as [_ Hs].
    assert (check_item (len pre =? Z.of_nat total - 1) (len pre) item (indices_of pre)
            = Ok (indices_of (pre ++ [item_kind item]))) as Hok.
    { apply check_item_spec; [done|]. split_and!; [done | | done]. intros Hk. apply Hs in Hk. unfold len. lia. }
    by rewrite Hok in Hc.
Qed.

Lemma check_config_spec ks st :
  check_config (indices_of ks) = Ok st <->
  st = indices_of ks /\ (KNextConfig ∈ ks -> KNextEpoch ∈ ks).
Proof.
  unfold check_config. cbn [indices_of babe_next_config_data_index babe_next_epoch_data_index].
  destruct (index_of KNextConfig ks) eqn:Hc, (index_of KNextEpoch ks) eqn:He;
    try apply index_of_elem in Hc; try apply index_of_elem in He;
    rewrite ?index_of_None in *; naive_solver.
Qed.

(** The checks of [from_slice] and [from_scale_bytes], together. *)
Definition checked_indices {epoch A G} (items : list (DigestItemOf A (BabeConsensusLogOf epoch) G))
    : result Error DigestIndices :=
  let? st := check_items (len items) 0 items empty_indices in check_config st.

Lemma checked_indices_spec {epoch A G} (items : list (DigestItemOf A (BabeConsensusLogOf epoch) G)) st :
  checked_indices items = Ok st <->
  kinds_wf (map item_kind items) /\ st = indices_of (map item_kind items).
Proof.
  unfold checked_indices, kinds_wf. rewrite length_map.
  change empty_indices with (indices_of []). change 0 with (len (@nil ItemKind)).
  assert (no_repeat []) as Hno by (intros ? ? ? H1; by rewrite lookup_nil in H1).
  assert (seals_last (length items) []) as Hs by (intros ? ? H1; by rewrite lookup_nil in H1).
  destruct (check_items _ _ items _) as [st1|e] eqn:Hc; cbn [result_bind].
  - apply (check_items_spec items [] (length items)) in Hc as (Hno' & Hs' & ->); [|done..].
    rewrite check_config_spec. naive_solver.
  - split; [done|]. intros ((Hno' & Hs' & _) & _).
    assert (Err e = Ok (indices_of (map item_kind items))) as Hbad; [|done].
    rewrite <- Hc. by apply (check_items_spec items [] (length items)).
Qed.

(** ** Decoding items *)

(** Closes the goals that a selector finds the items of its kind. *)
Ltac solve_select :=
  intros [| | | |[]| | | | | | |]; cbn; split; (done || (intros [? ?]; done) || (intros; eauto)).

Section view.
Context `{Platform} `{Nom}.

Lemma decode_content_local slice content rest :
  decode_content slice = Ok (content, rest) ->
  exists pre, slice = pre ++ rest /\
    forall rest', decode_content (pre ++ rest') = Ok (content, rest').
Proof.
  unfold decode_content, nom_scale_compact_usize.
  destruct (nom_scale_compact usize_bits slice) as [[s n]|] eqn:Hn; [|done]. cbn [map_err result_bind].
  apply nom_scale_compact_local in Hn as (pre & -> & _ & Hloc).
  destruct (Z.ltb_spec (len s) n) as [|Hlen]; [done|]. intros [= <- <-].
  exists (pre ++ take (Z.to_nat n) s). split; [by rewrite <- app_assoc, take_drop|].
  intros rest'. rewrite <- app_assoc, Hloc. cbn [map_err result_bind].
  assert (length (take (Z.to_nat n) s) = Z.to_nat n) as Ht.
  { apply length_take_le. unfold len in Hlen. lia. }
  rewrite len_app, (proj2 (Z.ltb_ge _ _)) by (unfold len; rewrite Ht; lia).
  by rewrite take_app_length', drop_app_length' by done.
Qed.

(** An item is a prefix of its input, that is decoded independently of what
    follows. *)
Lemma decode_item_local bs item rest :
  decode_item bs = Some (Ok (item, rest)) ->
  exists pre, bs = pre ++ rest /\ pre <> [] /\
    forall rest', decode_item (pre ++ rest') = Some (Ok (item, rest')).
Proof.
  destruct bs as [|index slice]; [done|]. cbn [decode_item].
  assert (forall A (x y z t : A), index = 4 \/ index = 5 \/ index = 6 ->
    match index with 4 | 5 | 6 => x | 8 => y | 0 => z | _ => t end = x) as Hengine.
  { intros A x y z t [-> | [-> | ->]]; done. }
  destruct (decide (index = 4 \/ index = 5 \/ index = 6)) as [Hi|Hi].
  { rewrite Hengine by done. destruct (Z.ltb_spec (len slice) 4) as [|Hlen]; [done|].
    destruct (decode_content (drop 4 slice)) as [[content r]|] eqn:Hc; [|done]. cbn [outcome_bind].
    destruct (decode_item_from_parts index (take 4 slice) content) as [[it|]|] eqn:Hp; [|done..].
    cbn [outcome_bind]. intros [= <- <-]. apply decode_content_local in Hc as (pre & Hpre & Hloc).
    assert (length (take 4 slice) = 4%nat) as H4 by (apply length_take_le; unfold len in Hlen; lia).
    exists (index :: take 4 slice ++ pre).
    split_and!; [cbn; by rewrite <- app_assoc, <- Hpre, take_drop | done |].
    intros rest'. cbn [app decode_item]. rewrite Hengine by done. rewrite <- app_assoc.
    rewrite len_app, (proj2 (Z.ltb_ge _ _))
      by (unfold len; rewrite H4; lia).
    rewrite take_app_length', drop_app_length' by done. rewrite Hloc. cbn [outcome_bind].
    by rewrite Hp. }
  destruct (decide (index = 8)) as [->|H8].
  { intros [= <- <-]. by exists [8]. }
  destruct (decide (index = 0)) as [->|Hi0].
  { destruct (decode_content slice) as [[content r]|] eqn:Hc; [|done]. cbn [outcome_bind].
    intros [= <- <-]. apply decode_content_local in Hc as (pre & -> & Hloc).
    exists (0 :: pre). split_and!; [done..|]. intros rest'. cbn [app decode_item]. by rewrite Hloc. }
  repeat case_match; try done; lia.
Qed.

(** [decodes bs items rest]: [bs] starts with the encoding of the items. *)
Inductive decodes : list u8 -> list DigestItemRef -> list u8 -> Prop :=
  | decodes_nil bs : decodes bs [] bs
  | decodes_cons bs item next items rest :
      decode_item bs = Some (Ok (item, next)) -> decodes next items rest ->
      decodes bs (item :: items) rest.

Lemma decodes_local bs items rest :
  decodes bs items rest ->
  exists pre, bs = pre ++ rest /\ (length items <= length pre)%nat /\
    forall rest', decodes (pre ++ rest') items rest'.
Proof.
  induction 1 as [bs|bs item next items rest Hd _ (pre & -> & Hlen & Hloc)].
  - exists []. split_and!; [done..|]. constructor.
  - apply decode_item_local in Hd as (pre' & -> & Hne & Hloc').
    exists (pre' ++ pre). split_and!; [by rewrite app_assoc | |].
    + rewrite length_app. destruct pre'; [done|]. cbn in *. lia.
    + intros rest'. rewrite <- app_assoc. by eapply decodes_cons.
Qed.

Lemma decodes_snoc bs items item rest :
  decodes bs (items ++ [item]) rest <->
  exists mid, decodes bs items mid /\ decode_item mid = Some (Ok (item, rest)).
Proof.
  split.
  - revert bs. induction items as [|x items IH]; intros bs Hd; cbn [app] in Hd;
      inversion Hd as [|? ? next ? ? Hx Hrest]; subst.
    + inversion Hrest; subst. exists bs. split; [constructor | done].
    + apply IH in Hrest as (mid & ? & ?). exists mid. split; [by econstructor | done].
  - intros (mid & Hd & Hi). induction Hd as [bs|bs x next items rest' Hx Hd IH]; cbn [app].
    + econstructor; [done|]. constructor.
    + econstructor; [done|]. by apply IH.
Qed.

(** ** What an iterator yields *)

Inductive yields : LogsIter -> list DigestItemRef -> Prop :=
  | yields_nil it : LogsIter_next it = Some None -> yields it []
  | yields_cons it item it' items :
      LogsIter_next it = Some (Some (item, it')) -> yields it' items -> yields it (item :: items).

Lemma yields_decoded list : yields (LogsDecoded list) (map DigestItemRef_from list).
Proof. induction list; [by constructor | by econstructor]. Qed.

Lemma decodes_yields bs items rest :
  decodes bs items rest -> yields (LogsUndecoded bs (len items)) items.
Proof.
  induction 1 as [bs|bs item next items rest Hd _ IH]; [by constructor|].
  rewrite len_cons. pose proof (len_nonneg items). econstructor; [|done].
  cbn [LogsIter_next]. rewrite (proj2 (Z.eqb_neq _ _)) by lia. rewrite Hd.
  by replace (1 + len items - 1) with (len items) by lia.
Qed.

Lemma yields_fuel it items : yields it items -> (length items < LogsIter_fuel it)%nat.
Proof.
  induction 1 as [it|it item it' items Hn _ IH]; [by destruct it; cbn; lia|].
  destruct it as [[|x list]|pointer n]; cbn [LogsIter_next] in Hn; [done| |].
  - simplify_eq. cbn in *. lia.
  - case_if; [done|]. destruct (decode_item pointer) as [[[? new]|]|] eqn:Hd; [|done..]. simplify_eq.
    apply decode_item_local in Hd as ([|b pre] & -> & Hne & _); [done|].
    cbn [LogsIter_fuel app length] in *. rewrite length_app. lia.
Qed.

Lemma yields_collect it items : yields it items -> LogsIter_collect it = Some items.
Proof.
  intros Hy. unfold LogsIter_collect. apply yields_fuel in Hy as Hf. revert Hf.
  generalize (LogsIter_fuel it) as fuel.
  induction Hy as [it Hn|it item it' items Hn _ IH]; intros fuel Hf;
    (destruct fuel as [|fuel]; [cbn in Hf; lia|]); cbn [LogsIter_loop]; rewrite Hn; [done|].
  rewrite IH by (cbn in Hf; lia). done.
Qed.

Lemma yields_nth it items n : yields it items -> LogsIter_nth n it = Some (items !! n).
Proof.
  intros Hy. revert n. induction Hy as [it Hn|it item it' items Hn _ IH]; intros n;
    destruct n; cbn [LogsIter_nth]; rewrite Hn; done.
Qed.

(** ** The view of a digest *)

Record digest_view (d : DigestRef) (items : list DigestItemRef) : Prop := {
  view_yields : yields (DigestRef_logs d) items;
  view_len : LogsIter_len (DigestRef_logs d) = len items;
  view_wf : kinds_wf (map item_kind items);
  view_indices : dr_indices d = indices_of (map item_kind items)
}.

Lemma item_kind_from (item : DigestItem) : item_kind (DigestItemRef_from item) = item_kind item.
Proof. by destruct item as [| | | |[]| | | | | | |]. Qed.

Lemma map_item_kind_from (list : list DigestItem) :
  map item_kind (map DigestItemRef_from list) = map item_kind list.
Proof. rewrite map_map. apply map_ext. apply item_kind_from. Qed.

Lemma view_parsed list st :
  kinds_wf (map item_kind list) -> st = indices_of (map item_kind list) ->
  digest_view (mkDigestRef (Parsed list) st) (map DigestItemRef_from list).
Proof.
  intros Hwf ->. split; cbn [DigestRef_logs dr_inner dr_indices LogsIter_len];
    rewrite ?map_item_kind_from; [apply yields_decoded | unfold len; by rewrite length_map | done..].
Qed.

(** [from_slice] accepts the lists that follow the rules. *)
Lemma from_slice_view list d :
  DigestRef_from_slice list = Ok d <->
  kinds_wf (map item_kind list) /\ d = mkDigestRef (Parsed list) (indices_of (map item_kind list)).
Proof.
  transitivity (exists st, checked_indices list = Ok st /\ d = mkDigestRef (Parsed list) st).
  - unfold DigestRef_from_slice, checked_indices.
    destruct (check_items _ _ list _) as [st|]; cbn [result_bind]; [|naive_solver].
    destruct (check_config st); cbn [result_bind]; naive_solver.
  - setoid_rewrite checked_indices_spec. naive_solver.
Qed.

Lemma decode_items_inv fuel total num bs st st' rest :
  num <= total -> decode_items fuel total num bs st = Some (Ok (st', rest)) ->
  exists items, decodes bs items rest /\ num + len items = total /\
    check_items total num items st = Ok st'.
Proof.
  revert num bs st. induction fuel as [|fuel IH]; intros num bs st Hle; cbn [decode_items];
    (destruct (Z.eqb_spec num total) as [->|Hne];
      [intros [= <- <-]; exists []; split_and!; [constructor | rewrite len_nil; lia | done]|]); [done|].
  destruct (decode_item bs) as [[[item next]|]|] eqn:Hd; [|done..]. cbn [outcome_bind].
  destruct (check_item _ num item st) as [st1|] eqn:Hc; [|done]. cbn [outcome_bind].
  intros (items & Hdec & Hlen & Hcs)%IH; [|lia]. exists (item :: items).
  split_and!; [by econstructor | rewrite len_cons; lia | cbn [check_items]; by rewrite Hc].
Qed.

Lemma decode_items_decodes fuel total num bs items rest st :
  decodes bs items rest -> num + len items = total -> (length items <= fuel)%nat ->
  decode_items fuel total num bs st =
  match check_items total num items st with
  | Ok st' => Some (Ok (st', rest))
  | Err e => Some (Err e)
  end.
Proof.
  intros Hd. revert fuel num st. induction Hd as [bs|bs item next items rest Hd _ IH];
    intros fuel num st Hlen Hf.
  - rewrite len_nil in Hlen. destruct fuel; cbn [decode_items]; by rewrite (proj2 (Z.eqb_eq _ _)) by lia.
  - destruct fuel as [|fuel]; [cbn in Hf; lia|]. rewrite len_cons in Hlen. pose proof (len_nonneg items).
    cbn [decode_items check_items]. rewrite (proj2 (Z.eqb_neq num total)) by lia. rewrite Hd.
    cbn [outcome_bind]. destruct (check_item _ num item st) as [st1|]; [|done]. cbn [outcome_bind result_bind].
    apply IH; [lia | cbn in Hf; lia].
Qed.

(** [from_scale_bytes] decodes a number of items, checks them as [from_slice]
    does, and keeps the bytes. *)
Lemma from_scale_bytes_inv bs d rest :
  is_bytes bs -> DigestRef_from_scale_bytes bs = Some (Ok (d, rest)) ->
  exists body items, nom_scale_compact_usize bs = Ok (body, len items) /\ decodes body items rest /\
    checked_indices items = Ok (dr_indices d) /\ dr_inner d = Undecoded (len items) body.
Proof.
  intros Hb. unfold DigestRef_from_scale_bytes.
  destruct (nom_scale_compact_usize bs) as [[body n]|] eqn:Hn; [|done]. cbn [map_err outcome_bind].
  apply usize_decode_inv in Hn as (Huint & _); [|done]. unfold is_uint in Huint.
  destruct (decode_items _ _ _ _ _) as [[[st next]|]|] eqn:Hd; [|done..]. cbn [outcome_bind].
  apply decode_items_inv in Hd as (items & Hdec & Hlen & Hc); [|lia]. rewrite Z.add_0_l in Hlen. subst n.
  destruct (check_config st) as [st'|] eqn:Hcfg; [|done]. cbn [outcome_bind]. intros [= <- <-].
  exists body, items. split_and!; [done | done | | done]. cbn [dr_indices].
  apply (f_equal (fun r => result_bind r check_config)) in Hc. cbn [result_bind] in Hc.
  rewrite Hcfg in Hc. exact Hc.
Qed.

Lemma view_undecoded d body items rest :
  decodes body items rest -> checked_indices items = Ok (dr_indices d) ->
  dr_inner d = Undecoded (len items) body -> digest_view d items.
Proof.
  intros Hd [Hwf Hst]%checked_indices_spec Hin. unfold DigestRef_logs.
  split; unfold DigestRef_logs; rewrite ?Hin; [by eapply decodes_yields | done..].
Qed.

Lemma from_scale_bytes_view bs d rest :
  is_bytes bs -> DigestRef_from_scale_bytes bs = Some (Ok (d, rest)) -> exists items, digest_view d items.
Proof.
  intros Hb (body & items & _ & Hd & Hc & Hin)%from_scale_bytes_inv; [|done].
  exists items. by eapply view_undecoded.
Qed.

(** ** Accessors *)

(** The first item that is selected. *)
Definition first_of {A} (select : DigestItemRef -> option A) (items : list DigestItemRef) : option A :=
  head (omap select items).

Lemma first_of_index {A} (select : DigestItemRef -> option A) k (items : list DigestItemRef) :
  (forall item, is_Some (select item) <-> item_kind item = k) ->
  match index_of k (map item_kind items) with
  | Some i => exists (item : DigestItemRef) (a : A), items !! Z.to_nat i = Some item /\ select item = Some a /\
                first_of select items = Some a
  | None => first_of select items = None
  end.
Proof.
  intros Hsel. unfold index_of, first_of.
  enough (forall j, 0 <= j -> match index_from k j (map item_kind items) with
    | Some i => exists (item : DigestItemRef) (a : A), j <= i /\ items !! Z.to_nat (i - j) = Some item /\ select item = Some a /\
                  head (omap select items) = Some a
    | None => head (omap select items) = None
    end) as Hgen.
  { specialize (Hgen 0 ltac:(lia)). destruct (index_from _ _ _); [|done].
    destruct Hgen as (item & a & _ & Hl & ? & ?). rewrite Z.sub_0_r in Hl. eauto. }
  induction items as [|item items IH]; intros j Hj; [done|]. cbn [map index_from omap list_omap].
  case_decide as Hk.
  - apply Hsel in Hk as [a Ha]. exists item, a. rewrite Ha, Z.sub_diag. split_and!; [lia|done..].
  - assert (select item = None) as ->.
    { destruct (select item) eqn:E; [|done]. destruct Hk. apply Hsel. by rewrite E. }
    specialize (IH (j + 1) ltac:(lia)). destruct (index_from k (j + 1) _); [|done].
    destruct IH as (it & a & Hle & Hl & Ha & Hh). exists it, a. split_and!; [lia | | done..].
    replace (Z.to_nat (z - j)) with (S (Z.to_nat (z - (j + 1)))) by lia. done.
Qed.

Lemma DigestRef_nth_spec {A} (select : DigestItemRef -> option A) k d (items : list DigestItemRef) :
  digest_view d items -> (forall item, is_Some (select item) <-> item_kind item = k) ->
  DigestRef_nth d (index_of k (map item_kind items)) select = Some (first_of select items).
Proof.
  intros Hv Hsel. pose proof (first_of_index select k items Hsel) as Hf. unfold DigestRef_nth.
  destruct (index_of k _) as [i|]; [|by rewrite Hf]. destruct Hf as (item & a & Hl & Ha & Hf).
  rewrite (yields_nth _ items) by apply Hv.
  rewrite Hl, Ha, Hf. done.
Qed.

(** What the accessors return on the view of a digest. *)
Record accessors_agree (d : DigestRef) (items : list DigestItemRef) : Prop := {
  acc_aura_seal : DigestRef_aura_seal d = Some (first_of select_aura_seal items);
  acc_aura_pre_runtime : DigestRef_aura_pre_runtime d = Some (first_of select_aura_pre_digest items);
  acc_babe_seal : DigestRef_babe_seal d = Some (first_of select_babe_seal items);
  acc_babe_pre_runtime : DigestRef_babe_pre_runtime d = Some (first_of select_babe_pre_digest items);
  acc_babe_epoch : DigestRef_babe_epoch_information d =
    Some (match first_of select_next_epoch items with
          | Some epoch => Some (epoch, first_of select_next_config items)
          | None => None
          end);
  acc_config_epoch : first_of select_next_config items <> None -> first_of select_next_epoch items <> None;
  acc_any_aura : DigestRef_has_any_aura d = Some (existsb DigestItemRef_is_aura items);
  acc_any_babe : DigestRef_has_any_babe d = Some (existsb DigestItemRef_is_babe items);
  acc_runtime : has_runtime_environment_updated (dr_indices d) = true <->
    ItemRuntimeEnvironmentUpdated ∈ items
}.

Lemma first_of_None {A} (select : DigestItemRef -> option A) k (items : list DigestItemRef) :
  (forall item, is_Some (select item) <-> item_kind item = k) ->
  first_of select items = None <-> k ∉ map item_kind items.
Proof.
  intros Hsel. pose proof (first_of_index select k items Hsel) as Hf. rewrite <- index_of_None.
  destruct (index_of _ _); [|done]. destruct Hf as (? & ? & _ & _ & ->). done.
Qed.

Lemma runtime_kind (items : list DigestItemRef) :
  KRuntime ∈ map item_kind items <-> ItemRuntimeEnvironmentUpdated ∈ items.
Proof.
  rewrite list_elem_of_fmap. split.
  - intros (item & Hk & Hin). by destruct item as [| | | |[]| | | | | | |].
  - intros Hin. by exists ItemRuntimeEnvironmentUpdated.
Qed.

Lemma view_accessors d items : digest_view d items -> accessors_agree d items.
Proof.
  intros Hv. pose proof (view_indices d items Hv) as Hidx. split.
  1-4: unfold DigestRef_aura_seal, DigestRef_aura_pre_runtime, DigestRef_babe_seal,
         DigestRef_babe_pre_runtime; rewrite Hidx; apply DigestRef_nth_spec; [done | solve_select].
  - unfold DigestRef_babe_epoch_information. rewrite Hidx. cbn [indices_of babe_next_epoch_data_index
      babe_next_config_data_index]. rewrite (DigestRef_nth_spec select_next_epoch) by (done || solve_select).
    destruct (first_of select_next_epoch items); [|done].
    by rewrite (DigestRef_nth_spec select_next_config) by (done || solve_select).
  - destruct (view_wf d items Hv) as (_ & _ & Hcfg).
    rewrite (first_of_None select_next_config KNextConfig), (first_of_None select_next_epoch KNextEpoch)
      by solve_select.
    intros Hc He. apply Hc. intros Hin. by apply He, Hcfg.
  - unfold DigestRef_has_any_aura. by rewrite (yields_collect _ items) by apply Hv.
  - unfold DigestRef_has_any_babe. by rewrite (yields_collect _ items) by apply Hv.
  - rewrite Hidx. cbn [indices_of has_runtime_environment_updated].
    destruct (index_of KRuntime _) eqn:Hr.
    + by apply index_of_elem, runtime_kind in Hr.
    + by rewrite index_of_None, runtime_kind in Hr.
Qed.

End view.

(** ** Seals *)

Section seals.
Context `{Platform} `{Nom}.

Definition item_seal (item : DigestItemRef) : option Seal :=
  match item with
  | ItemAuraSeal seal => Some (SealAura seal)
  | ItemBabeSeal seal => Some (SealBabe seal)
  | _ => None
  end.

Lemma yields_det it l l' : yields it l -> yields it l' -> l = l'.
Proof.
  intros Hy. revert l'. induction Hy as [it Hn|it item it' l Hn _ IH]; intros l' Hy';
    inversion Hy' as [|? ? ? ? Hn' Hy'']; subst; try congruence.
  rewrite Hn in Hn'. simplify_eq. f_equal. by apply IH.
Qed.

Lemma yields_undecoded bs n items :
  yields (LogsUndecoded bs n) items -> n = len items /\ exists rest, decodes bs items rest.
Proof.
  remember (LogsUndecoded bs n) as it eqn:Hit. intros Hy. revert bs n Hit.
  induction Hy as [it Hn|it item it' items Hn _ IH]; intros bs n ->; cbn [LogsIter_next] in Hn.
  - destruct (Z.eqb_spec n 0) as [Hz|]; [split; [done|]; eexists; constructor|].
    by destruct (decode_item bs) as [[[? ?]|]|].
  - destruct (Z.eqb_spec n 0) as [|Hz]; [done|].
    destruct (decode_item bs) as [[[x next]|]|] eqn:Hd; [|done..]. injection Hn as <- <-.
    destruct (IH _ _ eq_refl) as [Hlen (rest & Hr)]. rewrite len_cons. split; [lia|].
    exists rest. by econstructor.
Qed.

Lemma decodes_skip bs items rest total :
  decodes bs items rest -> len items <= total ->
  LogsIter_skip (length items) (LogsUndecoded bs total) = Some (LogsUndecoded rest (total - len items)).
Proof.
  intros Hd. revert total. induction Hd as [bs|bs item next items rest Hd _ IH]; intros total Htot.
  - cbn. by rewrite Z.sub_0_r.
  - rewrite len_cons in *. pose proof (len_nonneg items). cbn [length LogsIter_skip LogsIter_next].
    rewrite (proj2 (Z.eqb_neq _ _)) by lia. rewrite Hd, IH by lia. do 2 f_equal. lia.
Qed.

(** The list without its seal. *)
Lemma kinds_wf_unseal ks k :
  seal_kind k = true -> kinds_wf (ks ++ [k]) ->
  kinds_wf ks /\ (forall k', k' ∈ ks -> seal_kind k' = false).
Proof.
  intros Hk (Hno & Hs & Hcfg).
  assert (forall k', k' ∈ ks -> seal_kind k' = false) as Hnone.
  { apply (seals_last_none (length (ks ++ [k]))); [by eapply seals_last_prefix | rewrite length_app; cbn; lia]. }
  split; [split_and!|done].
  - by eapply no_repeat_prefix.
  - intros i k' Hi Hk'. apply list_elem_of_lookup_2, Hnone in Hi. congruence.
  - intros Hin. assert (KNextEpoch ∈ ks ++ [k]) as Hin' by (apply Hcfg; rewrite elem_of_app; auto).
    rewrite elem_of_app, list_elem_of_singleton in Hin'. destruct Hin' as [?| <-]; [done|]. by cbn in Hk.
Qed.

Lemma index_of_seal ks k k' :
  (forall k', k' ∈ ks -> seal_kind k' = false) -> seal_kind k = true ->
  index_of k (ks ++ [k']) = if decide (k' = k) then Some (len ks) else None.
Proof.
  intros Hnone Hk. rewrite index_of_snoc.
  assert (index_of k ks = None) as ->; [|done].
  apply index_of_None. intros Hin%Hnone. congruence.
Qed.

(** The position [pop_seal] uses. *)
Lemma seal_pos_spec d items item s :
  digest_view d (items ++ [item]) -> item_seal item = Some s ->
  match babe_seal_index (dr_indices d) with
  | Some i => Some i
  | None => aura_seal_index (dr_indices d)
  end = Some (len items).
Proof.
  intros [_ _ Hwf Hidx] Hs. rewrite Hidx. cbn [indices_of babe_seal_index aura_seal_index].
  rewrite map_app in *. cbn [map] in *.
  assert (seal_kind (item_kind item) = true) as Hk by (by destruct item as [| | | |[]| | | | | | |]).
  destruct (kinds_wf_unseal _ _ Hk Hwf) as [_ Hnone]. rewrite !index_of_seal by done.
  unfold len. rewrite length_map. by destruct item as [| | | |[]| | | | | | |].
Qed.

Lemma parsed_logs list items :
  yields (LogsDecoded list) items -> items = map DigestItemRef_from list.
Proof. intros Hy. eapply yields_det; [done | apply yields_decoded]. Qed.

(** [pop_seal] removes the seal and returns it. Only the index of a Babe seal is
    reset, and only in an undecoded digest: the view that is left is that of the
    inner list with the indices that it should have. *)
Lemma pop_seal_some d items item s :
  digest_view d (items ++ [item]) -> item_seal item = Some s -> is_usize (len items + 1) ->
  exists d', DigestRef_pop_seal d = Some (Some s, d') /\
    digest_view (mkDigestRef (dr_inner d') (indices_of (map item_kind items))) items /\
    dr_indices d' = match dr_inner d with
                    | Parsed _ => dr_indices d
                    | Undecoded _ _ => set_babe_seal_index (dr_indices d) None
                    end.
Proof.
  intros Hv Hs Hu. pose proof (seal_pos_spec _ _ _ _ Hv Hs) as Hpos.
  destruct Hv as [Hy Hlen Hwf Hidx]. unfold DigestRef_pop_seal. rewrite Hpos.
  rewrite map_app in Hwf. cbn [map] in Hwf.
  assert (seal_kind (item_kind item) = true) as Hk by (by destruct item as [| | | |[]| | | | | | |]).
  destruct (kinds_wf_unseal _ _ Hk Hwf) as [Hwf' _].
  unfold DigestRef_logs in Hy, Hlen. destruct (dr_inner d) as [n digest|list]; cbn [LogsIter_len] in Hlen.
  - destruct (yields_undecoded _ _ _ Hy) as [-> (rest & Hd)]. apply decodes_snoc in Hd as (mid & Hd & Hi).
    assert (Z.to_nat (len items) = length items) as -> by (unfold len; lia).
    rewrite (decodes_skip digest items mid) by (done || len_lia).
    replace (len (items ++ [item]) - len items) with 1 by len_lia.
    cbn [LogsIter_next Z.eqb]. rewrite Hi.
    assert (decodes (take (length digest - length mid) digest) items []) as Hd'.
    { apply decodes_local in Hd as (pre & -> & _ & Hloc). rewrite length_app, Nat.add_sub.
      rewrite take_app_length, <- (app_nil_r pre). apply Hloc. }
    assert (wsub usize_bits (len (items ++ [item])) 1 = len items) as ->.
    { unfold wsub. rewrite wrap_small; [len_lia|]. unfold is_uint in *. len_lia. }
    destruct item as [| | | |[]| | | | | | |]; cbn [item_seal] in Hs; try done; injection Hs as <-.
    all: eexists; split; [reflexivity|]; split; [|done]; cbn [dr_inner].
    all: split; cbn [DigestRef_logs dr_inner dr_indices LogsIter_len];
      [by eapply decodes_yields | done..].
  - apply parsed_logs in Hy. assert (exists l x, list = l ++ [x]) as (l & x & ->).
    { destruct list as [|x l _] using rev_ind; [destruct items; done | eauto]. }
    rewrite map_app in Hy. apply app_inj_tail in Hy as [-> ->].
    assert (len (map DigestItemRef_from l) = len l) as Hml by (unfold len; by rewrite length_map).
    rewrite Hml. assert (Z.to_nat (len l) = length l) as -> by (unfold len; lia).
    rewrite list_lookup_middle, take_app_length by done.
    rewrite map_item_kind_from in *.
    destruct x as [| | | |[]| | | | | | |]; cbn [item_seal DigestItemRef_from] in Hs; try done; injection Hs as <-.
    all: eexists; split; [reflexivity|]; split; [|done]; cbn [dr_inner]; by apply view_parsed.
Qed.

(** Without an Aura or a Babe seal, [pop_seal] does nothing. *)
Lemma pop_seal_none d items :
  digest_view d items -> (forall item, item ∈ items -> item_seal item = None) ->
  DigestRef_pop_seal d = Some (None, d).
Proof.
  intros [_ _ _ Hidx] Hnone. unfold DigestRef_pop_seal. rewrite Hidx.
  cbn [indices_of babe_seal_index aura_seal_index].
  assert (forall k, k = KAuraSeal \/ k = KBabeSeal -> index_of k (map item_kind items) = None) as Hk.
  { intros k Hk. apply index_of_None. intros (item & -> & Hin)%list_elem_of_fmap.
    apply Hnone in Hin. destruct item as [| | | |[]| | | | | | |]; naive_solver. }
  rewrite !Hk by auto. done.
Qed.

(** C33: whatever bytes are decoded, a digest that is accepted stands for a list of
    items: iterating over it never panics and yields the announced number of
    items, of which at most one is of each kind that must be unique and only the
    last is a seal; the accessors never panic and return the item of their kind,
    and a new configuration comes with an epoch. [from_slice] accepts a list exactly
    when it follows these rules. *)
Theorem digest_invariant (bs : list u8) (list : list DigestItem) :
  is_bytes bs ->
  (forall d rest, DigestRef_from_scale_bytes bs = Some (Ok (d, rest)) ->
    exists items, LogsIter_collect (DigestRef_logs d) = Some items /\
      LogsIter_len (DigestRef_logs d) = len items /\
      kinds_wf (map item_kind items) /\ accessors_agree d items) /\
  (forall d, DigestRef_from_slice list = Ok d <->
    kinds_wf (map item_kind list) /\ d = mkDigestRef (Parsed list) (indices_of (map item_kind list))) /\
  (forall d, DigestRef_from_slice list = Ok d -> accessors_agree d (map DigestItemRef_from list)).
Proof.
  intros Hb. split_and!.
  - intros d rest Hd. destruct (from_scale_bytes_view bs d rest Hb Hd) as [items Hv].
    exists items. split_and!; [by apply yields_collect, Hv | apply Hv | apply Hv | by apply view_accessors].
  - intros d. apply from_slice_view.
  - intros d [Hwf ->]%from_slice_view. by apply view_accessors, view_parsed.
Qed.

(** [pop_seal] on a digest that stands for a list of items. When the last one
    is an Aura or Babe seal, it returns it without panic and leaves a digest that
    stands for, and encodes, the other items: the content that the seal signs.
    Otherwise it changes nothing. *)
Theorem pop_seal_spec (d : DigestRef) (items : list DigestItemRef) :
  digest_view d items -> is_usize (len items) ->
  (forall l item s, items = l ++ [item] -> item_seal item = Some s ->
    exists d', DigestRef_pop_seal d = Some (Some s, d') /\
      LogsIter_collect (DigestRef_logs d') = Some l /\ LogsIter_len (DigestRef_logs d') = len l /\
      forall bufs, mapM DigestItemRef_scale_encoding l = Some bufs ->
        DigestRef_scale_encoding d' = Some (encode_scale_compact_usize (len l) :: bufs)) /\
  ((forall item, item ∈ items -> item_seal item = None) -> DigestRef_pop_seal d = Some (None, d)).
Proof.
  intros Hv Hu. split.
  - intros l item s -> Hs.
    destruct (pop_seal_some d l item s) as (d' & Hpop & Hview & _); [done | done | by autorewrite with len in Hu |].
    assert (DigestRef_logs d' = DigestRef_logs (mkDigestRef (dr_inner d') (indices_of (map item_kind l))))
      as Hlogs by done.
    exists d'. unfold DigestRef_scale_encoding. rewrite Hlogs.
    rewrite (yields_collect _ l), (view_len _ l) by apply Hview.
    split_and!; [done..|]. intros bufs ->. done.
  - intros Hnone. by eapply pop_seal_none.
Qed.

End seals.
