(* ===== verification/HeaderCodec.v ===== *)
(** * Theorems on the codec of the headers ([src/src/header.rs])

    Decoding an encoded header gives it back; [from_scale_bytes] and [from_slice]
    accept the same digests with the same errors and indices; a decoded digest can
    be used without panic; and what decoding does on the inputs it should refuse:
    it panics when the size of the authorities of a Babe epoch overflows. *)

From S2P Require Import Prelude Leb128 Scale Nibble TrieNode HeaderBase HeaderAura HeaderBabe HeaderGrandpa Header HeaderDigest.

Section codec.
Context `{Platform} `{Nom} `{!NomLaws}.

(** ** The values of the types *)

(** An engine that is not one of the known ones. *)
Definition engine_ok (known : list (list u8)) (engine : list u8) : Prop :=
  is_array 4 engine /\ engine <> engine_pow /\ engine ∉ known.
Definition bytes_ok (v : list u8) : Prop := is_bytes v /\ vec_ok 1 v.

Definition item_ok (o : DigestItem) : Prop :=
  match o with
  | ItemAuraPreDigest v => log_ok v
  | ItemAuraSeal seal | ItemBabeSeal seal => is_array 64 seal
  | ItemAuraConsensus v => log_ok v
  | ItemBabePreDigest v => log_ok v
  | ItemBabeConsensus v => log_ok v
  | ItemGrandpaConsensus v => log_ok v
  | ItemUnknownConsensus engine opaque =>
      engine_ok [engine_aura; engine_babe; engine_grandpa] engine /\ bytes_ok opaque
  | ItemUnknownPreRuntime engine opaque | ItemUnknownSeal engine opaque =>
      engine_ok [engine_aura; engine_babe] engine /\ bytes_ok opaque
  | ItemOther v => bytes_ok v
  | ItemRuntimeEnvironmentUpdated => True
  end.

(** The digests that [from_slice] accepts, with items of their types. *)
Definition digest_ok (d : Digest) : Prop :=
  Forall item_ok (dg_list d) /\ vec_ok 1 (dg_list d) /\
  DigestRef_from_slice (dg_list d) = Ok (DigestRef_from d).

Definition header_ok (h : Header) : Prop :=
  is_array 32 (parent_hash h) /\ is_u64 (hd_number h) /\ is_array 32 (hd_state_root h) /\
  is_array 32 (hd_extrinsics_root h) /\ digest_ok (hd_digest h).

(** ** Items *)

Lemma decode_content_encode content rest :
  is_usize (len content) ->
  decode_content (encode_scale_compact_usize (len content) ++ content ++ rest) = Ok (content, rest).
Proof.
  intros Hu. unfold decode_content. rewrite usize_decode_encode by done. cbn [map_err result_bind].
  pose proof (len_nonneg rest). rewrite len_app, (proj2 (Z.ltb_ge _ _)) by lia.
  unfold len. rewrite Nat2Z.id. by rewrite take_app_length, drop_app_length.
Qed.

Lemma decode_engine_item index engine content rest :
  index = 4 \/ index = 5 \/ index = 6 -> is_array 4 engine -> is_usize (len content) ->
  decode_item (encode_engine_item index engine content ++ rest) =
  let* item := decode_item_from_parts index engine content in Some (Ok (item, rest)).
Proof.
  intros Hi He Hu. unfold encode_engine_item. rewrite <- !app_assoc. cbn [app decode_item].
  set (tl := engine ++ _).
  assert ((len tl <? 4) = false) as Hlen.
  { apply Z.ltb_ge. unfold tl. rewrite len_app, (len_array _ _ He).
    match goal with |- _ <= _ + len ?l => pose proof (len_nonneg l) end. lia. }
  assert (drop 4 tl = encode_scale_compact_usize (len content) ++ content ++ rest) as Hd
    by (by apply drop_array).
  assert (take 4 tl = engine) as Ht by (by apply take_array).
  destruct Hi as [-> | [-> | ->]]; rewrite Hlen, Hd, Ht, decode_content_encode by done; done.
Qed.

Lemma encode_engine_item_bytes index engine content :
  is_u8 index -> is_array 4 engine -> is_bytes content -> is_usize (len content) ->
  is_bytes (encode_engine_item index engine content).
Proof.
  intros Hi [_ He] Hc Hu. unfold encode_engine_item. repeat (apply Forall_app; split);
    [by constructor | done | by apply usize_encode | done].
Qed.

Lemma bytes_ok_usize v : bytes_ok v -> is_usize (len v).
Proof. intros [_ Hv]. by apply (vec_ok_usize 1). Qed.

Lemma seal_usize (seal : list u8) : is_array 64 seal -> is_usize (len seal).
Proof.
  intros Hs. rewrite (len_array _ _ Hs). pose proof half_usize. pose proof half_usize_big.
  unfold is_uint. lia.
Qed.

(** A log of a known engine, with the law of its codec. *)
Lemma decode_log_item {owned borrowed} `{!LogCodec owned borrowed, !LogCodecLaws} index engine (o : owned) :
  index = 4 \/ index = 5 \/ index = 6 -> is_array 4 engine -> log_ok o ->
  exists bufs r, log_scale_encoding (log_borrow o) = Some bufs /\ log_into r = Some o /\
    is_bytes (encode_engine_item index engine (concat bufs)) /\
    log_from_slice (concat bufs) = Some (Ok r) /\
    forall rest, decode_item (encode_engine_item index engine (concat bufs) ++ rest) =
      let* item := decode_item_from_parts index engine (concat bufs) in Some (Ok (item, rest)).
Proof.
  intros Hi He (bufs & r & Henc & Hb & Hu & Hdec & Hinto & _)%log_roundtrip.
  exists bufs, r. split_and!; [done | done | | done |].
  - apply encode_engine_item_bytes; [|done..]. destruct Hi as [-> | [-> | ->]]; done.
  - intros rest. by apply decode_engine_item.
Qed.

Lemma known_engines content :
  decode_item_from_parts 6 engine_aura content
    = (let* v := log_from_slice content in Some (Ok (ItemAuraPreDigest v))) /\
  decode_item_from_parts 4 engine_aura content
    = (let* v := log_from_slice content in Some (Ok (ItemAuraConsensus v))) /\
  decode_item_from_parts 6 engine_babe content
    = (let* v := log_from_slice content in Some (Ok (ItemBabePreDigest v))) /\
  decode_item_from_parts 4 engine_babe content
    = (let* v := log_from_slice content in Some (Ok (ItemBabeConsensus v))) /\
  decode_item_from_parts 4 engine_grandpa content
    = (let* v := log_from_slice content in Some (Ok (ItemGrandpaConsensus v))).
Proof. done. Qed.

Lemma known_seals seal :
  is_array 64 seal ->
  decode_item_from_parts 5 engine_aura seal = Some (Ok (ItemAuraSeal seal)) /\
  decode_item_from_parts 5 engine_babe seal = Some (Ok (ItemBabeSeal seal)).
Proof.
  intros Hs. split; unfold decode_item_from_parts;
    rewrite bool_decide_eq_false_2 by done; rewrite array_try_from_array by done; done.
Qed.

Lemma unknown_engines engine content :
  engine_ok [engine_aura; engine_babe] engine ->
  decode_item_from_parts 5 engine content = Some (Ok (ItemUnknownSeal engine content)) /\
  decode_item_from_parts 6 engine content = Some (Ok (ItemUnknownPreRuntime engine content)) /\
  (engine <> engine_grandpa ->
    decode_item_from_parts 4 engine content = Some (Ok (ItemUnknownConsensus engine content))).
Proof.
  intros (_ & Hp & Hn). rewrite !not_elem_of_cons in Hn. destruct Hn as (Ha & Hb & _).
  unfold decode_item_from_parts. rewrite !(bool_decide_eq_false_2 (engine = _)) by done.
  split_and!; [done..|]. intros Hg. by rewrite bool_decide_eq_false_2.
Qed.

(** An item of a known engine decodes to the item of its log. *)
Ltac solve_log_item v index engine :=
  destruct (decode_log_item index engine v ltac:(lia) ltac:(by repeat constructor) ltac:(done))
    as (bufs & r & Henc & Hinto & Hbs & Hdec & Hit);
  destruct (known_engines (concat bufs)) as (K1 & K2 & K3 & K4 & K5);
  eexists _, _; split_and!; [by rewrite Henc | exact Hbs | |
    intros rest; rewrite Hit; first [rewrite K1 | rewrite K2 | rewrite K3 | rewrite K4 | rewrite K5];
    rewrite Hdec; reflexivity];
  cbn [DigestItem_from]; by rewrite ?Hinto.

(** An item that is its bytes. *)
Ltac solve_plain_item Heq :=
  eexists _, _; split_and!;
    [reflexivity | apply encode_engine_item_bytes; try done | |
     intros rest; rewrite decode_engine_item, Heq; [reflexivity | lia | |] ];
    try first [done | by repeat constructor | by apply seal_usize | by apply bytes_ok_usize
              | match goal with
                | H : is_array _ _ |- _ => by apply H
                | H : bytes_ok _ |- _ => by apply H
                | H : engine_ok _ _ |- _ => by apply H
                end].

Lemma decode_item_encode o :
  item_ok o ->
  exists bs r, DigestItemRef_scale_encoding (DigestItemRef_from o) = Some bs /\ is_bytes bs /\
    DigestItem_from r = Some o /\ forall rest, decode_item (bs ++ rest) = Some (Ok (r, rest)).
Proof.
  destruct o as [v|seal|v|v|v|seal|v|e c|e c|e c|v|];
    cbn [item_ok DigestItemRef_from DigestItemRef_scale_encoding]; intros Hok.
  - destruct (decode_log_item 6 engine_aura v ltac:(lia) ltac:(by repeat constructor) Hok)
      as (bufs & r & Henc & Hinto & Hbs & Hdec & Hit).
    cbn in Henc, Hinto. injection Henc as <-. injection Hinto as ->.
    eexists _, _. split_and!; [done | exact Hbs | | intros rest; rewrite Hit].
    2: { rewrite (proj1 (known_engines _)), Hdec. reflexivity. }
    done.
  - solve_plain_item (proj1 (known_seals seal Hok)).
  - solve_log_item v 4 engine_aura.
  - solve_log_item v 6 engine_babe.
  - solve_log_item v 4 engine_babe.
  - solve_plain_item (proj2 (known_seals seal Hok)).
  - solve_log_item v 4 engine_grandpa.
  - destruct Hok as [(He & Hpow & Hn) Hc]. rewrite !not_elem_of_cons in Hn. destruct Hn as (? & ? & ? & _).
    assert (engine_ok [engine_aura; engine_babe] e) as Hek.
    { split_and!; [done..|]. rewrite !not_elem_of_cons. auto using not_elem_of_nil. }
    solve_plain_item (proj2 (proj2 (unknown_engines e c Hek)) ltac:(done)).
  - destruct Hok as [He Hc]. solve_plain_item (proj1 (proj2 (unknown_engines e c He))).
  - destruct Hok as [He Hc]. solve_plain_item (proj1 (unknown_engines e c He)).
  - exists ([0] ++ encode_scale_compact_usize (len v) ++ v), (ItemOther v).
    split_and!; [done | | done |].
    + destruct Hok as [Hb Hv]. apply Forall_app; split; [by repeat constructor|].
      apply Forall_app; split; [apply usize_encode; by apply (vec_ok_usize 1) | done].
    + intros rest. rewrite <- !app_assoc. cbn [app decode_item].
      by rewrite decode_content_encode by (by apply bytes_ok_usize).
  - exists [8], ItemRuntimeEnvironmentUpdated. split_and!; [done | by repeat constructor | done..].
Qed.

(** ** Lists of items *)

Lemma item_kind_into r o : DigestItem_from r = Some o -> item_kind r = item_kind o.
Proof.
  destruct r as [v|seal|v|v|[v|v|v]|seal|v|e c|e c|e c|v|]; cbn [DigestItem_from]; intros Hr;
    repeat match type of Hr with (let! _ := ?e in _) = Some _ => destruct e eqn:?; [|done] end;
    try (injection Hr as <-; done).
  all: injection Hr as <-; match goal with H : log_into _ = Some _ |- _ => cbn in H end;
    repeat case_match; by simplify_eq.
Qed.

Lemma map_item_kind_into refs items :
  mapM DigestItem_from refs = Some items -> map item_kind refs = map item_kind items.
Proof.
  rewrite mapM_Some. induction 1 as [|r o refs items Hr _ IH]; [done|]. cbn [map].
  by rewrite (item_kind_into r o), IH.
Qed.

Lemma mapM_into_len refs items : mapM DigestItem_from refs = Some items -> len refs = len items.
Proof. rewrite mapM_Some. intros Hm%Forall2_length. unfold len. by rewrite Hm. Qed.

Lemma check_items_kinds {epoch A G epoch' A' G'} total num st
    (a : list (DigestItemOf A (BabeConsensusLogOf epoch) G))
    (b : list (DigestItemOf A' (BabeConsensusLogOf epoch') G')) :
  map item_kind a = map item_kind b -> check_items total num a st = check_items total num b st.
Proof.
  revert num st b. induction a as [|x a IH]; intros num st [|y b] Hk; try done.
  cbn [map] in Hk. injection Hk as Hx Hk. cbn [check_items]. rewrite (check_item_kind _ _ _ x y Hx).
  destruct (check_item _ _ y _); [|done]. by apply IH.
Qed.

Lemma decodes_encode items :
  Forall item_ok items ->
  exists bufs refs, mapM DigestItemRef_scale_encoding (map DigestItemRef_from items) = Some bufs /\
    is_bytes (concat bufs) /\ mapM DigestItem_from refs = Some items /\
    forall rest, decodes (concat bufs ++ rest) refs rest.
Proof.
  induction 1 as [|o items Ho _ (bufs & refs & Henc & Hb & Hinto & Hdec)].
  - exists [], []. split_and!; [done..|]. constructor.
  - destruct (decode_item_encode o Ho) as (bs & r & Hbs & Hbytes & Hr & Hd).
    exists (bs :: bufs), (r :: refs). split_and!.
    + cbn. by rewrite Hbs, Henc.
    + apply Forall_app. done.
    + cbn. by rewrite Hr, Hinto.
    + intros rest. cbn [concat]. rewrite <- app_assoc. by econstructor.
Qed.

(** A borrowed item and the owned one have the same encoding. *)
Lemma item_encoding_into r o :
  DigestItem_from r = Some o ->
  DigestItemRef_scale_encoding r = DigestItemRef_scale_encoding (DigestItemRef_from o).
Proof.
  destruct r as [v|seal|v|v|v|seal|v|e c|e c|e c|v|]; cbn [DigestItem_from]; intros Hr;
    try (injection Hr as <-; reflexivity);
    (destruct (log_into v) as [w|] eqn:Hw; [|done]); injection Hr as <-;
    cbn [DigestItemRef_from DigestItemRef_scale_encoding]; by rewrite (log_encoding_into v w Hw).
Qed.

Lemma items_encoding_into refs items :
  mapM DigestItem_from refs = Some items ->
  mapM DigestItemRef_scale_encoding refs
  = mapM DigestItemRef_scale_encoding (map DigestItemRef_from items).
Proof.
  rewrite mapM_Some. induction 1 as [|r o refs items Hr _ IH]; [done|]. cbn [map].
  cbn. by rewrite (item_encoding_into r o Hr), IH.
Qed.

(** A loop over the logs that ends has run the iterator. *)
Lemma collect_yields it items : LogsIter_collect it = Some items -> yields it items.
Proof.
  unfold LogsIter_collect. generalize (LogsIter_fuel it) as fuel. intros fuel.
  revert it items. induction fuel as [|fuel IH]; intros it items; [done|]. cbn [LogsIter_loop].
  destruct (LogsIter_next it) as [[[x it']|]|] eqn:Hn; [| |done].
  - destruct (LogsIter_loop fuel it') as [l|] eqn:Hl; [|done]. intros [= <-]. econstructor; [done|]. by apply IH.
  - intros [= <-]. by constructor.
Qed.

Lemma yields_len it items : yields it items -> LogsIter_len it = len items.
Proof.
  intros Hy. destruct it as [list|bs n].
  - apply parsed_logs in Hy as ->. unfold len. by rewrite length_map.
  - by apply yields_undecoded in Hy as [-> _].
Qed.

(** ** Digests *)

Lemma encode_compact_nonempty v : is_usize v -> encode_scale_compact_usize v <> [].
Proof.
  intros Hv Hnil. pose proof (usize_decode_encode v [] Hv) as Hd. rewrite Hnil in Hd. done.
Qed.

Lemma parsed_encoding items st bufs :
  mapM DigestItemRef_scale_encoding (map DigestItemRef_from items) = Some bufs ->
  DigestRef_scale_encoding (mkDigestRef (Parsed items) st)
  = Some (encode_scale_compact_usize (len items) :: bufs).
Proof.
  intros Henc. unfold DigestRef_scale_encoding. cbn [DigestRef_logs dr_inner LogsIter_len].
  rewrite (yields_collect _ _ (yields_decoded items)), Henc. done.
Qed.

(** The encoding of a list of items is checked as the list is, with the same
    errors, and decodes to the list. *)
Lemma from_scale_bytes_encode items rest :
  Forall item_ok items -> vec_ok 1 items ->
  exists bufs, (forall st, DigestRef_scale_encoding (mkDigestRef (Parsed items) st) = Some bufs) /\
    is_bytes (concat bufs) /\ concat bufs <> [] /\
    match DigestRef_from_slice items with
    | Ok d => exists d', DigestRef_from_scale_bytes (concat bufs ++ rest) = Some (Ok (d', rest)) /\
                dr_indices d' = dr_indices d /\ Digest_from d' = Some (mkDigest items (dr_indices d))
    | Err e => DigestRef_from_scale_bytes (concat bufs ++ rest) = Some (Err e)
    end.
Proof.
  intros Hok Hv. apply (vec_ok_usize 1) in Hv as Hu; [|lia].
  destruct (decodes_encode items Hok) as (bufs & refs & Henc & Hb & Hinto & Hdec).
  exists (encode_scale_compact_usize (len items) :: bufs). split_and!.
  { intros st. by apply parsed_encoding. }
  { apply Forall_app. split; [by apply usize_encode | done]. }
  { cbn [concat]. intros [Hnil _]%app_nil. by apply encode_compact_nonempty in Hnil. }
  cbn [concat]. rewrite <- app_assoc. unfold DigestRef_from_scale_bytes.
  rewrite usize_decode_encode by done. cbn [map_err outcome_bind].
  apply map_item_kind_into in Hinto as Hkinds.
  pose proof (mapM_into_len refs items Hinto) as Hlen.
  pose proof (Hdec rest) as Hd. apply decodes_local in Hd as Hl.
  destruct Hl as (pre & Hpre & Hlt & _). rewrite (decode_items_decodes _ _ _ _ refs rest); [|done| |].
  2: { rewrite Hlen. lia. }
  2: { rewrite Hpre, length_app. lia. }
  unfold DigestRef_from_slice. rewrite (check_items_kinds _ _ _ refs items Hkinds).
  destruct (check_items _ _ items _) as [st|]; cbn [outcome_bind result_bind]; [|done].
  destruct (check_config st) as [st'|]; cbn [outcome_bind result_bind]; [|done].
  eexists. split_and!; [done..|]. unfold Digest_from. cbn [DigestRef_logs dr_inner dr_indices].
  rewrite (yields_collect _ refs) by (rewrite <- Hlen; by eapply decodes_yields).
  by rewrite Hinto.
Qed.

(** The form of a digest does not matter to its encoding. *)
Lemma digest_encoding_into d dg :
  Digest_from d = Some dg -> DigestRef_scale_encoding d = DigestRef_scale_encoding (DigestRef_from dg).
Proof.
  unfold Digest_from, DigestRef_scale_encoding at 1.
  destruct (LogsIter_collect (DigestRef_logs d)) as [logs|] eqn:Hlogs; [|done].
  destruct (mapM DigestItem_from logs) as [list|] eqn:Hlist; [|done]. intros [= <-].
  apply collect_yields, yields_len in Hlogs. rewrite Hlogs, (items_encoding_into _ _ Hlist).
  rewrite (mapM_into_len logs list Hlist).
  unfold DigestRef_scale_encoding, DigestRef_from. cbn [DigestRef_logs dr_inner dg_list LogsIter_len].
  by rewrite (yields_collect _ _ (yields_decoded list)).
Qed.

(** ** Headers *)

Definition header_prefix (h : Header) : list u8 :=
  parent_hash h ++ encode_scale_compact_u64 (hd_number h) ++ hd_state_root h ++ hd_extrinsics_root h.

Lemma decode_partial_prefix h digest :
  header_ok h -> digest <> [] ->
  decode_partial (header_prefix h ++ digest) =
  let* (d, remainder) := DigestRef_from_scale_bytes digest in
  Some (Ok (mkHeader (parent_hash h) (hd_number h) (hd_state_root h) (hd_extrinsics_root h) d, remainder)).
Proof.
  intros (Hp & Hn & Hs & He & _) Hne. unfold header_prefix, decode_partial. rewrite <- !app_assoc.
  pose proof (len_array _ _ Hp). pose proof (len_array _ _ Hs). pose proof (len_array _ _ He).
  assert (1 <= len digest) by (destruct digest; [done | len_lia]).
  rewrite (proj2 (Z.ltb_ge _ _)) by len_lia.
  rewrite (take_array 32), (drop_array 32) by done. unfold nom_scale_compact_u64, encode_scale_compact_u64.
  rewrite nom_scale_compact_encode by (apply scale_width_64 || done). cbn [map_err outcome_bind].
  rewrite (proj2 (Z.ltb_ge _ _)) by len_lia.
  rewrite (take_array 32 (hd_state_root h)), (drop_array 32 (hd_state_root h)) by done.
  by rewrite (take_array 32), (drop_array 32) by done.
Qed.

(** The encoding of a header, and its decoding in front of other data. *)
Lemma header_encode_decode h rest :
  header_ok h ->
  exists bytes r, Header_scale_encoding_vec h = Some bytes /\
    decode_partial (bytes ++ rest) = Some (Ok (r, rest)) /\ Header_from r = Some h.
Proof.
  intros Hok. pose proof Hok as (_ & _ & _ & _ & Hitems & Hv & Hslice).
  destruct (from_scale_bytes_encode (dg_list (hd_digest h)) rest Hitems Hv) as (bufs & Henc & _ & Hne & Hdec).
  rewrite Hslice in Hdec. destruct Hdec as (d & Hd & _ & Hinto).
  exists (header_prefix h ++ concat bufs). eexists. split_and!.
  - unfold Header_scale_encoding_vec, HeaderRef_scale_encoding_vec, HeaderRef_scale_encoding, HeaderRef_from.
    cbn [hd_digest parent_hash hd_number hd_state_root hd_extrinsics_root].
    unfold DigestRef_from. rewrite Henc. unfold header_prefix. cbn [concat app]. by rewrite <- !app_assoc.
  - rewrite <- app_assoc, decode_partial_prefix, Hd;
      [reflexivity | done | by intros [? _]%app_nil].
  - unfold Header_from. cbn [hd_digest parent_hash hd_number hd_state_root hd_extrinsics_root].
    rewrite Hinto. cbn [DigestRef_from dr_indices]. by destruct h as [? ? ? ? [? ?]].
Qed.

Lemma header_encoding_into r h :
  Header_from r = Some h -> HeaderRef_scale_encoding r = Header_scale_encoding h.
Proof.
  unfold Header_from. destruct (Digest_from (hd_digest r)) as [dg|] eqn:Hdg; [|done]. intros [= <-].
  unfold Header_scale_encoding, HeaderRef_scale_encoding, HeaderRef_from.
  cbn [hd_digest parent_hash hd_number hd_state_root hd_extrinsics_root].
  by rewrite (digest_encoding_into _ _ Hdg).
Qed.

(** C29: a header is encoded without panic, and decoding the encoding gives the
    header back: as a borrowed header that converts to it, encodes to the same
    bytes and has the hash of these bytes. Data after the header is left to the
    caller of [decode_partial], and refused by [decode]. *)
Theorem header_roundtrip `{Blake2bLaws} (h : Header) :
  header_ok h ->
  exists bytes, Header_scale_encoding_vec h = Some bytes /\
    (exists r, decode bytes = Some (Ok r) /\ Header_from r = Some h /\
       HeaderRef_scale_encoding_vec r = Some bytes /\
       HeaderRef_hash r = Some (hash_from_scale_encoded_header bytes) /\
       Header_hash h = Some (hash_from_scale_encoded_header bytes)) /\
    forall b rest,
      (exists r, decode_partial (bytes ++ b :: rest) = Some (Ok (r, b :: rest)) /\ Header_from r = Some h) /\
      decode (bytes ++ b :: rest) = Some (Err TooLong).
Proof.
  intros Hok. destruct (header_encode_decode h [] Hok) as (bytes & r & Henc & Hdec & Hinto).
  rewrite app_nil_r in Hdec. exists bytes. split; [done|]. split.
  - exists r. pose proof (header_encoding_into r h Hinto) as Hr.
    unfold Header_scale_encoding_vec, HeaderRef_scale_encoding_vec in *.
    fold (Header_scale_encoding h) in Henc. rewrite <- Hr in Henc.
    assert (forall bufs, concat bufs = bytes ->
      hash_from_scale_encoded_header_vectored bufs = hash_from_scale_encoded_header bytes) as Hhash.
    { intros bufs Hb. unfold hash_from_scale_encoded_header, hash_from_scale_encoded_header_vectored.
      rewrite !blake2b_stream, Hb. cbn [concat]. by rewrite app_nil_r. }
    unfold Header_hash, HeaderRef_hash. fold (Header_scale_encoding h). rewrite <- Hr.
    destruct (HeaderRef_scale_encoding r) as [bufs|]; [|done]. injection Henc as Hb.
    split_and!; [by unfold decode; rewrite Hdec | done | by rewrite Hb | by rewrite Hhash..].
  - intros b rest. destruct (header_encode_decode h (b :: rest) Hok) as (bytes' & r' & Henc' & Hdec' & Hinto').
    rewrite Henc in Henc'. injection Henc' as <-. split; [by eauto|]. unfold decode. by rewrite Hdec'.
Qed.

(** The decoder of digests and the checker of lists of items agree: on the
    encoding of a list of items the decoder returns the error of [from_slice], or
    a digest with the same indices that stands for the list and leaves the data
    that follows. *)
Theorem digest_decoders_agree (items : list DigestItem) (rest : list u8) :
  Forall item_ok items -> vec_ok 1 items ->
  exists bufs, (forall st, DigestRef_scale_encoding (mkDigestRef (Parsed items) st) = Some bufs) /\
    match DigestRef_from_slice items with
    | Ok d => exists d', DigestRef_from_scale_bytes (concat bufs ++ rest) = Some (Ok (d', rest)) /\
                dr_indices d' = dr_indices d /\ Digest_from d' = Some (mkDigest items (dr_indices d))
    | Err e => DigestRef_from_scale_bytes (concat bufs ++ rest) = Some (Err e)
    end.
Proof.
  intros Hok Hv. destruct (from_scale_bytes_encode items rest Hok Hv) as (bufs & Henc & _ & _ & Hd).
  by exists bufs.
Qed.

(** ** Panics *)

(** The content of a Babe item that describes an epoch, whose number of authorities is such
    that the size in bytes of the authorities is within 32 of [2^usize_bits], modulo that: adding
    the size of the randomness wraps around, and what is left is as short as the sum. *)
Definition overflowing_epoch (content : list u8) : Prop :=
  exists tl rest n, content = 1 :: tl /\ nom_scale_compact_usize tl = Ok (rest, n) /\
    len rest = (n * 40) `mod` 2 ^ usize_bits + 32 - 2 ^ usize_bits.

(** The slice starts with an item of Babe that has such a content. *)
Definition overflowing_item (bs : list u8) : Prop :=
  exists slice content rest, bs = 4 :: engine_babe ++ slice /\ decode_content slice = Ok (content, rest) /\
    overflowing_epoch content.

(** [items] are decoded from [bs], and [bs'] is what follows them. *)
Inductive decodes : list DigestItemRef -> list u8 -> list u8 -> Prop :=
  | decodes_nil bs : decodes [] bs bs
  | decodes_cons item items bs next bs' :
      decode_item bs = Some (Ok (item, next)) -> decodes items next bs' -> decodes (item :: items) bs bs'.

(** The encoding of a digest with such an item, after items that are decoded and accepted. *)
Definition overflowing_digest (bs : list u8) : Prop :=
  exists slice total items bs' st, nom_scale_compact_usize bs = Ok (slice, total) /\ decodes items slice bs' /\
    check_items total 0 items empty_indices = Ok st /\ len items < total /\ overflowing_item bs'.

(** The digest of a header comes after the hash of the parent, the number and two roots. *)
Definition overflowing_header (bs : list u8) : Prop :=
  32 < len bs /\ exists after number, nom_scale_compact_u64 (drop 32 bs) = Ok (after, number) /\
    64 < len after /\ overflowing_digest (drop 64 after).

Lemma babe_log_panic content :
  is_bytes content -> len content < 2 ^ usize_bits ->
  BabeConsensusLogRef_from_slice content = None <-> overflowing_epoch content.
Proof.
  intros Hb Hlen. unfold overflowing_epoch. split.
  - intros Hnone. unfold BabeConsensusLogRef_from_slice in Hnone.
    repeat case_match; simplify_eq/=. inversion Hb as [|? ? _ Hb']; subst.
    destruct (BabeNextEpochRef_from_slice _) as [[]|] eqn:Hnone'; [done..|].
    apply BabeNextEpochRef_from_slice_panic in Hnone' as (rest & n & Hn & Hov); [|done | len_lia]. by exists l, rest, n.
  - intros (tl & rest & n & -> & Hn & Hov). inversion Hb as [|? ? _ Hb']; subst. cbn [BabeConsensusLogRef_from_slice].
    rewrite (proj2 (BabeNextEpochRef_from_slice_panic tl Hb' ltac:(len_lia))); [done|]. by exists rest, n.
Qed.

Lemma decode_content_inv slice content rest :
  is_bytes slice -> decode_content slice = Ok (content, rest) ->
  exists pre, slice = pre ++ content ++ rest.
Proof.
  intros Hb. unfold decode_content. destruct (nom_scale_compact_usize slice) as [[s n]|] eqn:Hn; [|done].
  apply usize_decode_inv in Hn as (_ & _ & _ & pre & ->); [|done]. cbn [map_err result_bind].
  case_if; [done|]. intros [= <- <-]. exists pre. by rewrite take_drop.
Qed.

Lemma decode_item_from_parts_panic index engine content :
  index = 4 \/ index = 5 \/ index = 6 ->
  decode_item_from_parts index engine content = None <->
  index = 4 /\ engine = engine_babe /\ BabeConsensusLogRef_from_slice content = None.
Proof.
  intros Hi. split.
  - unfold decode_item_from_parts. case_if; [done|].
    destruct Hi as [-> | [-> | ->]]; repeat (case_if; [try done|]); try done.
    all: cbn [log_from_slice AuraConsensusLog_codec AuraPreDigest_codec BabePreDigest_codec
      GrandpaConsensusLog_codec BabeConsensusLog_codec]; intros Hnone.
    all: try (destruct (AuraConsensusLogRef_from_slice content); done).
    all: try (destruct (AuraPreDigest_from_slice content); done).
    all: try (destruct (BabePreDigestRef_from_slice content); done).
    all: try (destruct (GrandpaConsensusLogRef_from_slice content); done).
    bool_to_prop. by destruct (BabeConsensusLogRef_from_slice content) as [[]|].
  - intros (-> & -> & Hnone). unfold decode_item_from_parts.
    rewrite (bool_decide_false (engine_babe = engine_pow)), (bool_decide_false (engine_babe = engine_aura)) by done.
    rewrite bool_decide_true by done. cbn [log_from_slice BabeConsensusLog_codec]. by rewrite Hnone.
Qed.

Lemma decode_item_panic bs :
  is_bytes bs -> len bs < 2 ^ usize_bits -> decode_item bs = None <-> overflowing_item bs.
Proof.
  intros Hb Hlen. unfold overflowing_item. destruct Hb as [|index slice Hi Hb]; [by split; [|intros (? & ? & ? & ? & _)]|].
  rewrite len_cons in Hlen. cbn [decode_item].
  assert (Hcontent : forall content rest, decode_content (drop 4 slice) = Ok (content, rest) ->
    is_bytes content /\ len content < 2 ^ usize_bits).
  { intros content rest Hc. assert (is_bytes (drop 4 slice)) as Hdrop by (by apply Forall_drop).
    apply decode_content_inv in Hc as (pre & Hpre); [|done]. rewrite Hpre, !Forall_app in Hdrop. split; [apply Hdrop|].
    assert (len (drop 4 slice) <= len slice) by (unfold len; rewrite length_drop; lia). rewrite Hpre in *. len_lia. }
  assert (Hengine : index = 4 \/ index = 5 \/ index = 6 ->
    (if len slice <? 4 then Some (Err TooShort)
     else let* (content, rest) := Some (decode_content (drop 4 slice)) in
          let* item := decode_item_from_parts index (take 4 slice) content in
          Some (Ok (item, rest))) = None <->
    exists slice' content rest, index :: slice = 4 :: engine_babe ++ slice' /\ decode_content slice' = Ok (content, rest) /\ overflowing_epoch content).
  { intros Hidx. split.
    - case_if; [done|]. destruct (decode_content (drop 4 slice)) as [[content rest]|] eqn:Hc; [|done]. cbn [outcome_bind].
      destruct (decode_item_from_parts index (take 4 slice) content) as [[]|] eqn:Hp; [done..|]. intros _.
      apply decode_item_from_parts_panic in Hp as (-> & He & Hp); [|done]. destruct (Hcontent _ _ eq_refl) as [Hcb Hcl].
      apply babe_log_panic in Hp; [|done..]. exists (drop 4 slice), content, rest. by rewrite <- He, take_drop.
    - intros (slice' & content & rest & [= -> Heq] & Hc & Hov). rewrite Heq in *.
      change (drop 4 (66 :: 65 :: 66 :: 69 :: slice')) with slice' in *.
      change (take 4 (66 :: 65 :: 66 :: 69 :: slice')) with engine_babe.
      rewrite (proj2 (Z.ltb_ge _ _)) by (rewrite !len_cons; pose proof (len_nonneg slice'); lia).
      rewrite Hc. cbn [outcome_bind]. destruct (Hcontent _ _ Hc) as [Hcb Hcl].
      rewrite (proj2 (decode_item_from_parts_panic 4 engine_babe content ltac:(by left))); [done|]. by rewrite babe_log_panic. }
  destruct (decide (index = 4)) as [->|]; [by apply Hengine; auto|].
  destruct (decide (index = 5)) as [->|]; [by apply Hengine; auto|].
  destruct (decide (index = 6)) as [->|]; [by apply Hengine; auto|].
  clear Hengine. split; [|by intros (? & ? & ? & [= ? _] & _)].
  intros Hnone. repeat case_match; simplify_eq/=; try done.
  by destruct (decode_content slice) as [[]|].
Qed.

Lemma decode_items_panic fuel total num bs st :
  is_bytes bs -> len bs < 2 ^ usize_bits -> (length bs <= fuel)%nat -> 0 <= num <= total ->
  decode_items fuel total num bs st = None <->
  exists items bs' st', decodes items bs bs' /\ check_items total num items st = Ok st' /\ num + len items < total /\ overflowing_item bs'.
Proof.
  revert num bs st. induction fuel as [|fuel IH]; intros num bs st Hb Hlen Hfuel Hnum; cbn [decode_items];
    destruct (Z.eqb_spec num total) as [->|Hne].
  1, 3: split; [done|]; intros (items & ? & ? & _ & _ & Hlt & _); pose proof (len_nonneg items); lia.
  - split; [done|]. destruct bs; [|cbn in Hfuel; lia]. intros (items & bs' & st' & Hd & _ & _ & Hov). inversion Hd; subst; [|done].
    by destruct Hov as (? & ? & ? & ? & _).
  - destruct (decode_item bs) as [[[item next]|e]|] eqn:Hd; cbn [outcome_bind].
    + destruct (decode_item_local _ _ _ Hd) as (pre & Hpre & Hpne & _). assert (Hl : (length next < length bs)%nat).
      { rewrite Hpre, length_app. destruct pre; [done|cbn; lia]. }
      assert (Hbn : is_bytes next) by (rewrite Hpre in Hb; by apply Forall_app in Hb as [_ ?]).
      assert (Hex : (exists items bs' st', decodes items bs bs' /\ check_items total num items st = Ok st' /\ num + len items < total /\ overflowing_item bs') <->
        exists st1, check_item (num =? total - 1) num item st = Ok st1 /\
          exists items bs' st', decodes items next bs' /\ check_items total (num + 1) items st1 = Ok st' /\ num + 1 + len items < total /\ overflowing_item bs').
      { split.
        - intros (items & bs' & st' & Hds & Hck & Hlt & Hov). inversion Hds as [|item' items' ? next' ? Hd' Hds']; subst.
          + apply decode_item_panic in Hov; [|done..]. congruence.
          + rewrite Hd in Hd'. injection Hd' as <- <-. cbn [check_items] in Hck. destruct (check_item _ _ _ _) as [st1|]; [|done].
            exists st1. split; [done|]. exists items', bs', st'. rewrite len_cons in Hlt. split_and!; try done. lia.
        - intros (st1 & Hc & items & bs' & st' & Hds & Hck & Hlt & Hov). exists (item :: items), bs', st'. rewrite len_cons.
          split_and!; [by econstructor| |lia|done]. cbn [check_items]. by rewrite Hc. }
      rewrite Hex. destruct (check_item _ _ _ _) as [st1|e]; cbn [outcome_bind].
      * rewrite (IH (num + 1) next st1) by (done || unfold len in *; lia). split; [intros Hi; by exists st1|by intros (? & [= <-] & ?)].
      * split; [done|by intros (? & ? & _)].
    + split; [done|]. intros (items & bs' & st' & Hds & _ & _ & Hov). inversion Hds; subst; [|congruence].
      apply decode_item_panic in Hov; [|done..]. congruence.
    + split; [intros _|done]. exists [], bs, st. rewrite len_nil. split_and!; [constructor|done|lia|by apply decode_item_panic].
Qed.

Lemma decode_digest_panic bs :
  is_bytes bs -> len bs < 2 ^ usize_bits -> DigestRef_from_scale_bytes bs = None <-> overflowing_digest bs.
Proof.
  intros Hb Hlen. unfold DigestRef_from_scale_bytes, overflowing_digest.
  destruct (nom_scale_compact_usize bs) as [[slice total]|] eqn:Hn; cbn [map_err outcome_bind]; [|by split; [|intros (? & ? & ? & ? & ? & ? & _)]].
  apply usize_decode_inv in Hn as (Hu & Hs & Hl & _); [|done]. unfold is_uint in Hu.
  pose proof (decode_items_panic (length slice) total 0 slice empty_indices Hs ltac:(unfold len in *; lia) ltac:(lia) ltac:(lia)) as Hiff.
  destruct (decode_items _ _ _ _ _) as [[[st next]|]|]; cbn [outcome_bind].
  3: { split; [intros _|done]. destruct (proj1 Hiff eq_refl) as (items & bs' & st & Hd & Hc & Hlt & Hov).
    rewrite Z.add_0_l in Hlt. by exists slice, total, items, bs', st. }
  all: split; [repeat case_match; by simplify_eq/=|].
  all: intros (? & ? & items & bs' & st' & [= <- <-] & Hd & Hc & Hlt & Hov).
  all: discriminate (proj2 Hiff (ex_intro _ items (ex_intro _ bs' (ex_intro _ st' (conj Hd (conj Hc (conj Hlt Hov))))))).
Qed.

(** C38: the inputs on which decoding a header panics. These are exactly those whose
    digest has, after items that are decoded and accepted, an item of Babe that describes
    an epoch with a number of authorities [n] such that [40 * n], modulo [2^usize_bits],
    is within 32 of [2^usize_bits], so that adding the size of the randomness wraps
    around, and with as many bytes left as the wrapped sum says. Every other input gives a
    header or an error. *)
Theorem decode_panics_only_on_overflow (bs : list u8) :
  is_bytes bs -> len bs < 2 ^ usize_bits -> decode_partial bs = None <-> overflowing_header bs.
Proof.
  intros Hb Hlen. unfold decode_partial, overflowing_header. destruct (Z.ltb_spec (len bs) (32 + 1)) as [|Hl]; [by split; [|lia]|].
  assert (Hdb : is_bytes (drop 32 bs)) by (by apply Forall_drop). assert (Hdl : len (drop 32 bs) <= len bs) by (unfold len; rewrite length_drop; lia).
  destruct (nom_scale_compact_u64 (drop 32 bs)) as [[s n]|] eqn:Hn; cbn [map_err outcome_bind]; [|by split; [|intros (_ & ? & ? & ? & _)]].
  apply nom_scale_compact_local in Hn as (pre & Hpre & _). rewrite Hpre in Hdb, Hdl. apply Forall_app in Hdb as [_ Hsb].
  destruct (Z.ltb_spec (len s) (32 + 32 + 1)) as [|Hls]; [split; [done|intros (_ & ? & ? & [= <- <-] & ? & _); lia]|].
  rewrite drop_drop. change (32 + 32)%nat with 64%nat.
  assert (Hl64 : len (drop 64 s) <= len s) by (unfold len; rewrite length_drop; lia). rewrite len_app in Hdl. pose proof (len_nonneg pre).
  pose proof (decode_digest_panic (drop 64 s) ltac:(by apply Forall_drop) ltac:(lia)) as Hiff.
  destruct (DigestRef_from_scale_bytes (drop 64 s)) as [[[d rem]|]|]; cbn [outcome_bind].
  3: { split; [intros _|done]. split; [lia|]. exists s, n. split; [done|]. split; [lia|]. by apply Hiff. }
  all: split; [done|]; intros (_ & ? & ? & [= <- <-] & _ & Hov); by apply Hiff in Hov.
Qed.

End codec.

(** ** Inputs on which the code does not do what it should *)

(** A header whose only item announces [n] authorities for the next Babe epoch. *)
Definition epoch_header (n : Z) (body : list u8) : list u8 :=
  replicate 32 0 ++ [0] ++ replicate 64 0 ++ [4] ++
  encode_engine_item 4 engine_babe ([1] ++ encode_scale_compact_usize n ++ body).

(** A conjunction of closed equations, from left to right. *)
Ltac eval_and := repeat (split; [vm_compute; reflexivity|]); vm_compute; reflexivity.

(** Decoding panics on headers of 114 and 109 bytes, with the 64-bit and the
    32-bit [usize]. With one authority more and 40 bytes of data the header is
    accepted, and reading the authorities, or taking ownership of the header,
    panics. *)
Theorem malformed_epoch_panics :
  @decode platform64 nom_complete (epoch_header 922337203685477580 []) = None /\
  len (epoch_header 922337203685477580 []) = 114 /\
  @decode platform32 nom_complete (epoch_header 214748364 []) = None /\
  len (epoch_header 214748364 []) = 109 /\
  exists h epoch,
    @decode platform64 nom_complete (epoch_header 922337203685477581 (replicate 40 0)) = Some (Ok h) /\
    @DigestRef_babe_epoch_information platform64 nom_complete (hd_digest h) = Some (Some (epoch, None)) /\
    iter_collect (epoch_authorities epoch) = None /\
    @Header_from platform64 nom_complete h = None.
Proof. do 4 (split; [vm_compute; reflexivity|]). eexists _, _. eval_and. Qed.

(** The digest of a header with an Aura seal only. *)
Definition sealed_digest : list u8 := [4] ++ encode_engine_item 5 engine_aura (replicate 64 7).

(** After [pop_seal] has removed an Aura seal, the index of the seal is still
    there: [aura_seal] and a second [pop_seal] panic. *)
Lemma pop_seal_keeps_index :
  exists d d', @DigestRef_from_scale_bytes platform64 nom_complete sealed_digest = Some (Ok (d, [])) /\
    @DigestRef_pop_seal platform64 nom_complete d = Some (Some (SealAura (replicate 64 7)), d') /\
    @DigestRef_aura_seal platform64 nom_complete d' = None /\ @DigestRef_pop_seal platform64 nom_complete d' = None.
Proof. eexists _, _. eval_and. Qed.

(** A Babe seal can be pushed after an Aura one: the digest is then one that no
    decoder accepts. *)
Lemma push_two_seals :
  exists d1 d2, Digest_push_aura_seal (mkDigest [] empty_indices) (replicate 64 7) = Ok d1 /\
    Digest_push_babe_seal d1 (replicate 64 8) = Ok d2 /\
    DigestRef_from_slice (dg_list d2) = Err SealIsntLastItem.
Proof. eexists _, _. eval_and. Qed.

(** A header whose number 0 takes two bytes, and one with a byte after a Babe
    configuration. *)
Definition long_number_header : list u8 := replicate 32 0 ++ [1; 0] ++ replicate 64 0 ++ [0].
Definition long_config_header : list u8 :=
  replicate 32 0 ++ [0] ++ replicate 64 0 ++ [8] ++
  encode_engine_item 4 engine_babe ([1] ++ [0] ++ replicate 32 0) ++
  encode_engine_item 4 engine_babe ([3; 1] ++ replicate 16 0 ++ [0; 99]).

(** These are accepted, and encode to other bytes than the ones received. *)
Lemma reencoding_differs :
  (exists h bytes, @decode platform64 nom_complete long_number_header = Some (Ok h) /\
     @HeaderRef_scale_encoding_vec platform64 nom_complete h = Some bytes /\ bytes <> long_number_header) /\
  (exists h bytes, @decode platform64 nom_complete long_config_header = Some (Ok h) /\
     @HeaderRef_scale_encoding_vec platform64 nom_complete h = Some bytes /\ bytes <> long_config_header).
Proof.
  split; eexists _, _; (do 2 (split; [vm_compute; reflexivity|])); intros Heq;
    apply (f_equal length) in Heq; vm_compute in Heq; discriminate.
Qed.

(** ** Witnesses *)

Definition example_items : list DigestItem :=
  [ItemAuraPreDigest (mkAuraPreDigest 5);
   ItemBabeConsensus (NextEpochData (mkBabeNextEpoch [mkBabeAuthority (replicate 32 3) 9] (replicate 32 4)));
   ItemGrandpaConsensus (Pause 6);
   ItemUnknownConsensus [1; 2; 3; 4] [5];
   ItemAuraSeal (replicate 64 7)].

Definition example_digest : Digest :=
  mkDigest example_items (indices_of (map item_kind example_items)).

Definition example_header : Header :=
  mkHeader (replicate 32 1) 1000 (replicate 32 2) (replicate 32 3) example_digest.

Lemma is_array_replicate n b : is_u8 b -> is_array n (replicate n b).
Proof. intros Hb. split; [apply length_replicate | by apply Forall_replicate]. Qed.

Lemma example_items_ok : Forall (@item_ok platform64 nom_complete) example_items /\ @vec_ok platform64 _ 1 example_items.
Proof.
  split; [|reflexivity].
  repeat apply Forall_cons_2; [..|apply Forall_nil_2]; cbn [item_ok log_ok].
  - done.
  - split; [|split; [reflexivity | by apply (is_array_replicate 32 4)]].
    apply Forall_singleton. split; [by apply (is_array_replicate 32 3) | done].
  - done.
  - split; [split_and!|split]; [by repeat constructor | done | | by repeat constructor | done].
    rewrite !not_elem_of_cons. split_and!; try done. apply not_elem_of_nil.
  - by apply is_array_replicate.
Qed.

Lemma header_roundtrip_witness :
  exists bytes r, @Header_scale_encoding_vec platform64 nom_complete example_header = Some bytes /\
    @decode platform64 nom_complete bytes = Some (Ok r) /\ @Header_from platform64 nom_complete r = Some example_header.
Proof.
  destruct (@header_roundtrip platform64 nom_complete nom_complete_laws toy_blake2b toy_blake2b_laws example_header)
    as (bytes & Henc & (r & Hdec & Hinto & _) & _).
  - split_and!; [by apply is_array_replicate | done | by apply is_array_replicate.. |].
    split_and!; [apply example_items_ok | apply example_items_ok | reflexivity].
  - by exists bytes, r.
Defined.

Lemma digest_decoders_agree_witness :
  exists bufs d, @DigestRef_scale_encoding platform64 nom_complete (DigestRef_from example_digest) = Some bufs /\
    @DigestRef_from_scale_bytes platform64 nom_complete (concat bufs ++ [1; 2; 3]) = Some (Ok (d, [1; 2; 3])).
Proof.
  destruct (@digest_decoders_agree platform64 nom_complete nom_complete_laws example_items [1; 2; 3]) as (bufs & Henc & Hd).
  - apply example_items_ok.
  - apply example_items_ok.
  - destruct Hd as (d & Hd & _). exists bufs, d. split; [apply Henc | exact Hd].
Defined.

Lemma digest_invariant_witness :
  exists d items, @DigestRef_from_scale_bytes platform64 nom_complete sealed_digest = Some (Ok (d, [])) /\
    @accessors_agree platform64 nom_complete d items.
Proof.
  destruct (@digest_invariant platform64 nom_complete sealed_digest []) as [Hd _].
  - unfold sealed_digest. by repeat constructor.
  - edestruct Hd as (items & _ & _ & _ & Hacc); [vm_compute; reflexivity|].
    eexists _, items. split; [|exact Hacc]. vm_compute. reflexivity.
Defined.

Lemma pop_seal_spec_witness :
  exists d', @DigestRef_pop_seal platform64 nom_complete (DigestRef_from example_digest)
    = Some (Some (SealAura (replicate 64 7)), d').
Proof.
  destruct (@pop_seal_spec platform64 nom_complete (DigestRef_from example_digest) (map (@DigestItemRef_from platform64 nom_complete) example_items))
    as [Hpop _].
  - apply view_parsed; [|reflexivity]. apply (@from_slice_view example_items (DigestRef_from example_digest)).
    reflexivity.
  - vm_compute. split; [discriminate | reflexivity].
  - edestruct (Hpop (map (@DigestItemRef_from platform64 nom_complete) (take 4 example_items)) (ItemAuraSeal (replicate 64 7)))
      as (d' & Hd' & _); [reflexivity | reflexivity |]. by exists d'.
Defined.

Lemma decode_panics_only_on_overflow_witness :
  is_bytes (epoch_header 922337203685477580 []) /\ @overflowing_header platform64 nom_complete (epoch_header 922337203685477580 []).
Proof.
  assert (Hb : is_bytes (epoch_header 922337203685477580 [])) by (apply (bool_decide_unpack _); vm_compute; exact I).
  split; [exact Hb|]. apply (@decode_panics_only_on_overflow platform64 nom_complete (epoch_header 922337203685477580 []) Hb).
  - reflexivity.
  - vm_compute. reflexivity.
Defined.
