(* ===== verification/ChainInformation.v ===== *)
(** * The finalized state of a chain ([src/src/chain/chain_information.rs])

    The header of the finalized block and what is needed to verify its children:
    the consensus engine with its authorities or its epochs, and the finality
    engine. The borrowed and the owned types are one type with the lists of
    authorities as parameters. *)

From S2P Require Import Prelude Leb128 Scale Nibble TrieNode HeaderBase HeaderAura HeaderBabe HeaderGrandpa Header.

(** ** Data *)

Record BabeEpochInformationOf (authorities : Type) := mkBabeEpochInformation {
  epoch_index : u64;
  start_slot_number : option u64;
  ei_authorities : authorities;
  ei_randomness : list u8;
  ei_c : u64 * u64;
  ei_allowed_slots : BabeAllowedSlots
}.
Arguments mkBabeEpochInformation {_} _ _ _ _ _ _.
Arguments epoch_index {_} _.
Arguments start_slot_number {_} _.
Arguments ei_authorities {_} _.
Arguments ei_randomness {_} _.
Arguments ei_c {_} _.
Arguments ei_allowed_slots {_} _.

Definition BabeEpochInformation : Type := BabeEpochInformationOf (list BabeAuthority).
Definition BabeEpochInformationRef : Type := BabeEpochInformationOf BabeAuthoritiesIter.

Inductive BabeValidityError := InvalidConstant.

(** [ChainInformationConsensus] and its [Ref]; [slot_duration] and
    [slots_per_epoch] are [NonZeroU64]. *)
Inductive ChainInformationConsensusOf (aura babe : Type) :=
  | ConsensusUnknown
  | ConsensusAura (finalized_authorities_list : aura) (slot_duration : u64)
  | ConsensusBabe (slots_per_epoch : u64)
      (finalized_block_epoch_information : option (BabeEpochInformationOf babe))
      (finalized_next_epoch_transition : BabeEpochInformationOf babe).
Arguments ConsensusUnknown {_ _}.
Arguments ConsensusAura {_ _} _ _.
Arguments ConsensusBabe {_ _} _ _ _.

Definition ChainInformationConsensus : Type :=
  ChainInformationConsensusOf (list AuraAuthority) (list BabeAuthority).
Definition ChainInformationConsensusRef : Type :=
  ChainInformationConsensusOf AuraAuthoritiesIter BabeAuthoritiesIter.

(** [ChainInformationFinality], and its [Ref], which has slices for vectors. *)
Inductive ChainInformationFinality :=
  | Outsourced
  | Grandpa (after_finalized_block_authorities_set_id : u64)
      (finalized_triggered_authorities : list GrandpaAuthority)
      (finalized_scheduled_change : option (u64 * list GrandpaAuthority)).

Record ChainInformationOf (header consensus : Type) := mkChainInformation {
  ci_finalized_block_header : header;
  ci_consensus : consensus;
  ci_finality : ChainInformationFinality
}.
Arguments mkChainInformation {_ _} _ _ _.
Arguments ci_finalized_block_header {_ _} _.
Arguments ci_consensus {_ _} _.
Arguments ci_finality {_ _} _.

Definition ChainInformation : Type := ChainInformationOf Header ChainInformationConsensus.
Definition ChainInformationRef : Type := ChainInformationOf HeaderRef ChainInformationConsensusRef.

Inductive ValidityError :=
  | UnexpectedBabeSlotStartNumber
  | MissingBabeSlotStartNumber
  | UnexpectedBabeFinalizedEpoch
  | NonLinearBabeEpochs
  | NoBabeFinalizedEpoch
  | ScheduledGrandPaChangeBeforeFinalized
  | FinalizedZeroButNonZeroAuthoritiesSetId
  | InvalidBabe (err : BabeValidityError).

(** [ValidChainInformation] and its [Ref]: the inner value has been validated. *)
Record ValidChainInformationOf (info : Type) := mkValidChainInformation { valid_inner : info }.
Arguments mkValidChainInformation {_} _.
Arguments valid_inner {_} _.

Definition ValidChainInformation : Type := ValidChainInformationOf ChainInformation.
Definition ValidChainInformationRef : Type := ValidChainInformationOf ChainInformationRef.

(** ** Conversions *)

(** [From<&BabeEpochInformation> for BabeEpochInformationRef]. *)
Definition BabeEpochInformationRef_from (info : BabeEpochInformation) : BabeEpochInformationRef :=
  {| epoch_index := epoch_index info;
     start_slot_number := start_slot_number info;
     ei_authorities := BabeAuthoritiesIter_from_slice (ei_authorities info);
     ei_randomness := ei_randomness info;
     ei_c := ei_c info;
     ei_allowed_slots := ei_allowed_slots info |}.

(** [From<BabeEpochInformationRef> for BabeEpochInformation]: the iterator is
    collected, and may panic. *)
Definition BabeEpochInformation_from (info : BabeEpochInformationRef) : option BabeEpochInformation :=
  let! authorities := iter_collect (ei_authorities info) in
  Some {| epoch_index := epoch_index info;
          start_slot_number := start_slot_number info;
          ei_authorities := authorities;
          ei_randomness := ei_randomness info;
          ei_c := ei_c info;
          ei_allowed_slots := ei_allowed_slots info |}.

Definition ChainInformationConsensusRef_from (consensus : ChainInformationConsensus)
    : ChainInformationConsensusRef :=
  match consensus with
  | ConsensusUnknown => ConsensusUnknown
  | ConsensusAura finalized_authorities_list slot_duration =>
      ConsensusAura (AuraAuthoritiesIter_from_slice finalized_authorities_list) slot_duration
  | ConsensusBabe slots_per_epoch finalized_block_epoch_information finalized_next_epoch_transition =>
      ConsensusBabe slots_per_epoch
        (BabeEpochInformationRef_from <$> finalized_block_epoch_information)
        (BabeEpochInformationRef_from finalized_next_epoch_transition)
  end.

(** [From<&ChainInformation> for ChainInformationRef]. *)
Definition ChainInformationRef_from (info : ChainInformation) : ChainInformationRef :=
  {| ci_finalized_block_header := HeaderRef_from (ci_finalized_block_header info);
     ci_consensus := ChainInformationConsensusRef_from (ci_consensus info);
     ci_finality := ci_finality info |}.

(** [From<ChainInformationRef> for ChainInformation]. *)
Definition ChainInformation_from `{Platform} `{Nom} (info : ChainInformationRef) : option ChainInformation :=
  let! finalized_block_header := Header_from (ci_finalized_block_header info) in
  let! consensus :=
    match ci_consensus info with
    | ConsensusUnknown => Some ConsensusUnknown
    | ConsensusAura finalized_authorities_list slot_duration =>
        let! l := iter_collect finalized_authorities_list in Some (ConsensusAura l slot_duration)
    | ConsensusBabe slots_per_epoch finalized_block_epoch_information finalized_next_epoch_transition =>
        let! current :=
          match finalized_block_epoch_information with
          | None => Some None
          | Some info => let! info := BabeEpochInformation_from info in Some (Some info)
          end in
        let! next := BabeEpochInformation_from finalized_next_epoch_transition in
        Some (ConsensusBabe slots_per_epoch current next)
    end in
  Some (mkChainInformation finalized_block_header consensus (ci_finality info)).

(** ** Validation *)

Definition BabeEpochInformationRef_validate {authorities} (self : BabeEpochInformationOf authorities)
    : result BabeValidityError unit :=
  if snd (ei_c self) <? fst (ei_c self) then Err InvalidConstant else Ok tt.

Definition BabeEpochInformation_validate (self : BabeEpochInformation) : result BabeValidityError unit :=
  BabeEpochInformationRef_validate (BabeEpochInformationRef_from self).

(** The part of [validate] on the epochs. *)
Definition validate_babe {authorities} (number : u64)
    (finalized_block_epoch_information : option (BabeEpochInformationOf authorities))
    (finalized_next_epoch_transition : BabeEpochInformationOf authorities) : result ValidityError unit :=
  let? _ := map_err InvalidBabe (BabeEpochInformationRef_validate finalized_next_epoch_transition) in
  if bool_decide (is_Some (start_slot_number finalized_next_epoch_transition))
     && (epoch_index finalized_next_epoch_transition =? 0) then Err UnexpectedBabeSlotStartNumber
  else if bool_decide (start_slot_number finalized_next_epoch_transition = None)
     && negb (epoch_index finalized_next_epoch_transition =? 0) then Err MissingBabeSlotStartNumber
  else
    let? _ :=
      match finalized_block_epoch_information with
      | Some info => map_err InvalidBabe (BabeEpochInformationRef_validate info)
      | None => Ok tt
      end in
    let? _ :=
      match finalized_block_epoch_information with
      | Some info =>
          if number =? 0 then Err UnexpectedBabeFinalizedEpoch
          else if bool_decide (start_slot_number info = None) then Err MissingBabeSlotStartNumber
          else if negb (wadd 64 (epoch_index info) 1 =? epoch_index finalized_next_epoch_transition)
          then Err NonLinearBabeEpochs
          else Ok tt
      | None => Ok tt
      end in
    if bool_decide (finalized_block_epoch_information = None) && negb (number =? 0)
    then Err NoBabeFinalizedEpoch
    else Ok tt.

(** The part of [validate] on the scheduled changes. *)
Definition validate_grandpa (number : u64) (set_id : u64)
    (finalized_scheduled_change : option (u64 * list GrandpaAuthority)) : result ValidityError unit :=
  let? _ :=
    match finalized_scheduled_change with
    | Some (n, _) => if n <=? number then Err ScheduledGrandPaChangeBeforeFinalized else Ok tt
    | None => Ok tt
    end in
  if (number =? 0) && negb (set_id =? 0) then Err FinalizedZeroButNonZeroAuthoritiesSetId
  else Ok tt.

Definition ChainInformationRef_validate (self : ChainInformationRef) : result ValidityError unit :=
  let? _ :=
    match ci_consensus self with
    | ConsensusBabe _ finalized_block_epoch_information finalized_next_epoch_transition =>
        validate_babe (hd_number (ci_finalized_block_header self))
          finalized_block_epoch_information finalized_next_epoch_transition
    | _ => Ok tt
    end in
  match ci_finality self with
  | Grandpa after_finalized_block_authorities_set_id _ finalized_scheduled_change =>
      validate_grandpa (hd_number (ci_finalized_block_header self))
        after_finalized_block_authorities_set_id finalized_scheduled_change
  | Outsourced => Ok tt
  end.

(** [TryFrom<ChainInformation> for ValidChainInformation] and the same for the [Ref]. *)
Definition ValidChainInformation_try_from (info : ChainInformation)
    : result ValidityError ValidChainInformation :=
  let? _ := ChainInformationRef_validate (ChainInformationRef_from info) in
  Ok (mkValidChainInformation info).
Definition ValidChainInformationRef_try_from (info : ChainInformationRef)
    : result ValidityError ValidChainInformationRef :=
  let? _ := ChainInformationRef_validate info in
  Ok (mkValidChainInformation info).

Definition ValidChainInformation_as_ref (self : ValidChainInformation) : ChainInformationRef :=
  ChainInformationRef_from (valid_inner self).

(** ** What is valid *)

Definition epoch_valid {authorities} (e : BabeEpochInformationOf authorities) : Prop :=
  fst (ei_c e) <= snd (ei_c e).

(** The epochs of a finalized block of a given number: the next epoch has a start
    unless it is epoch 0, block 0 is in no epoch, another block is in an epoch that
    has a start and that the next one follows. *)
Record epochs_valid {authorities} (number : u64) (current : option (BabeEpochInformationOf authorities))
    (next : BabeEpochInformationOf authorities) : Prop := {
  ev_next : epoch_valid next;
  ev_next_start : start_slot_number next = None <-> epoch_index next = 0;
  ev_current : current = None <-> number = 0;
  ev_epoch : forall e, current = Some e ->
    epoch_valid e /\ is_Some (start_slot_number e) /\ wadd 64 (epoch_index e) 1 = epoch_index next
}.

Record grandpa_valid (number set_id : u64) (change : option (u64 * list GrandpaAuthority)) : Prop := {
  gv_change : forall n l, change = Some (n, l) -> number < n;
  gv_set_id : number = 0 -> set_id = 0
}.

Definition chain_valid (info : ChainInformationRef) : Prop :=
  match ci_consensus info with
  | ConsensusBabe _ current next => epochs_valid (hd_number (ci_finalized_block_header info)) current next
  | _ => True
  end /\
  match ci_finality info with
  | Grandpa set_id _ change => grandpa_valid (hd_number (ci_finalized_block_header info)) set_id change
  | Outsourced => True
  end.

Lemma epoch_validate_spec {authorities} (e : BabeEpochInformationOf authorities) :
  BabeEpochInformationRef_validate e = Ok tt <-> epoch_valid e.
Proof.
  unfold BabeEpochInformationRef_validate, epoch_valid.
  destruct (Z.ltb_spec (snd (ei_c e)) (fst (ei_c e))); split; (done || lia).
Qed.

Lemma result_unit_cases {E} (r : result E unit) : r = Ok tt \/ exists e, r = Err e.
Proof. destruct r as [[]|e]; eauto. Qed.

Lemma validate_grandpa_spec number set_id change :
  validate_grandpa number set_id change = Ok tt <-> grandpa_valid number set_id change.
Proof.
  unfold validate_grandpa. destruct change as [[n l]|]; cbn [result_bind].
  - destruct (Z.leb_spec n number); cbn [result_bind].
    { split; [done|]. intros [Hc _]. specialize (Hc _ _ eq_refl). lia. }
    destruct (Z.eqb_spec number 0), (Z.eqb_spec set_id 0); cbn; split; try done;
      try (intros _; split; [naive_solver | tauto]). intros [_ Hs]. tauto.
  - destruct (Z.eqb_spec number 0), (Z.eqb_spec set_id 0); cbn; split; try done;
      try (intros _; split; [naive_solver | tauto]). intros [_ Hs]. tauto.
Qed.

Lemma validate_babe_spec {authorities} number (current : option (BabeEpochInformationOf authorities)) next :
  validate_babe number current next = Ok tt <-> epochs_valid number current next.
Proof.
  unfold validate_babe.
  assert (epochs_valid number current next <->
    epoch_valid next /\ (start_slot_number next = None <-> epoch_index next = 0) /\
    match current with
    | None => number = 0
    | Some e => epoch_valid e /\ number <> 0 /\ start_slot_number e <> None /\
        wadd 64 (epoch_index e) 1 = epoch_index next
    end) as ->.
  { split.
    - intros [? ? Hc He]. split_and!; [done..|]. destruct current as [e|]; [|tauto].
      destruct (He e eq_refl) as (? & [s Hs] & ?). split_and!; try done; [naive_solver | congruence].
    - intros (? & ? & Hc). split; try done.
      + destruct current; naive_solver.
      + intros e ->. destruct Hc as (? & _ & Hs & ?). split_and!; [done| |done].
        destruct (start_slot_number e); [eauto | done]. }
  rewrite <- (epoch_validate_spec next).
  destruct (BabeEpochInformationRef_validate next) as [[]|]; cbn [map_err result_bind]; [|naive_solver].
  destruct (start_slot_number next) as [s|], (Z.eqb_spec (epoch_index next) 0) as [Hi|Hi];
    cbn [negb andb]; rewrite ?andb_true_r, ?andb_false_r;
    repeat (rewrite bool_decide_eq_true_2 by eauto || rewrite bool_decide_eq_false_2 by (done || (intros [? ?]; done)));
    try naive_solver.
  all: destruct current as [e|]; cbn [map_err result_bind];
    [|destruct (Z.eqb_spec number 0); cbn; naive_solver].
  all: rewrite <- (epoch_validate_spec e).
  all: destruct (BabeEpochInformationRef_validate e) as [[]|]; cbn [map_err result_bind]; [|naive_solver].
  all: destruct (Z.eqb_spec number 0); cbn [result_bind]; [naive_solver|].
  all: rewrite (bool_decide_eq_false_2 (Some e = None)) by done.
  all: destruct (bool_decide_reflect (start_slot_number e = None)); cbn [result_bind]; [naive_solver|].
  all: destruct (Z.eqb_spec (wadd 64 (epoch_index e) 1) (epoch_index next)); cbn; naive_solver.
Qed.

(** [validate] accepts exactly the coherent information. *)
Lemma validate_spec info : ChainInformationRef_validate info = Ok tt <-> chain_valid info.
Proof.
  unfold ChainInformationRef_validate, chain_valid.
  destruct (ci_consensus info) as [| |spe current next], (ci_finality info) as [|set_id l change];
    cbn [result_bind]; rewrite ?validate_grandpa_spec; try tauto;
    rewrite <- (validate_babe_spec _ current next);
    destruct (result_unit_cases (validate_babe (hd_number (ci_finalized_block_header info)) current next))
      as [-> | [e ->]]; cbn [result_bind]; rewrite ?validate_grandpa_spec; naive_solver.
Qed.
