(* ===== verification/AsyncTree.v ===== *)
(** * The asynchronous tree ([src/src/chain/async_tree.rs])

    A tree of blocks, each with the state of an asynchronous operation. The input
    inserts blocks and sets its best and its finalized block; the output follows
    it, restricted to the blocks whose operation is finished. This file has the
    definitions; AsyncTreeInv.v shows the invariant, AsyncTreeOps.v the operations
    and AsyncTreeOutput.v the output.

    The tree is that of ForkTree.v: the slab chooses the key of a new node, here an
    argument. Moments are a type with an order and an addition of durations. *)

From S2P Require Import Prelude BTree ForkTree ForkTreePrune.

Open Scope Z_scope.

(** What the code asks of [TNow]: [ops::Add<Duration>] and [Ord]. *)
Class Instant (TNow : Type) := {
  #[global] instant_order :: KeyOrder TNow;
  instant_add : TNow -> Z -> TNow
}.

#[export] Instance instant_Z : Instant Z := {| instant_add := Z.add |}.

Abbreviation AsyncOpId := Z (only parsing).

(** ** Data *)

Inductive AsyncOpState (TNow TAsync : Type) :=
  | Finished (user_data : TAsync) (reported : bool)
  | InProgress (async_op_id : AsyncOpId) (timeout : option TNow)
  | Pending (same_as_parent : bool) (timeout : option TNow).

Arguments Finished {TNow TAsync} user_data reported.
Arguments InProgress {TNow TAsync} async_op_id timeout.
Arguments Pending {TNow TAsync} same_as_parent timeout.

Record Block (TNow TBl TAsync : Type) := mkBlock {
  user_data : TBl;
  async_op : AsyncOpState TNow TAsync;
  input_best_block_weight : u32
}.

Arguments mkBlock {TNow TBl TAsync} user_data async_op input_best_block_weight.
Arguments user_data {TNow TBl TAsync} b : rename.
Arguments async_op {TNow TBl TAsync} b : rename.
Arguments input_best_block_weight {TNow TBl TAsync} b : rename.

Record Config (TAsync : Type) := mkConfig {
  cfg_finalized_async_user_data : TAsync;
  cfg_retry_after_failed : Z
}.

Arguments cfg_finalized_async_user_data {TAsync} c : rename.
Arguments cfg_retry_after_failed {TAsync} c : rename.

Record AsyncTree (TNow TBl TAsync : Type) := mkAsyncTree {
  non_finalized_blocks : ForkTree (Block TNow TBl TAsync);
  finalized_async_user_data : TAsync;
  best_block_index : option NodeIndex;
  input_finalized_index : option NodeIndex;
  input_best_block_next_weight : u32;
  finalized_block_weight : u32;
  next_async_op_id : AsyncOpId;
  retry_after_failed : Z
}.

Arguments mkAsyncTree {TNow TBl TAsync} _ _ _ _ _ _ _ _.
Arguments non_finalized_blocks {TNow TBl TAsync} a : rename.
Arguments finalized_async_user_data {TNow TBl TAsync} a : rename.
Arguments best_block_index {TNow TBl TAsync} a : rename.
Arguments input_finalized_index {TNow TBl TAsync} a : rename.
Arguments input_best_block_next_weight {TNow TBl TAsync} a : rename.
Arguments finalized_block_weight {TNow TBl TAsync} a : rename.
Arguments next_async_op_id {TNow TBl TAsync} a : rename.
Arguments retry_after_failed {TNow TBl TAsync} a : rename.

Record AsyncOpParams (TBl : Type) := mkParams {
  op_id : AsyncOpId;
  op_block_index : NodeIndex;
  op_block_user_data : TBl
}.

Arguments mkParams {TBl} op_id op_block_index op_block_user_data.
Arguments op_id {TBl} a : rename.
Arguments op_block_index {TBl} a : rename.
Arguments op_block_user_data {TBl} a : rename.

Inductive NextNecessaryAsyncOp (TNow TBl : Type) :=
  | Ready (params : AsyncOpParams TBl)
  | NotReady (when : option TNow).

Arguments Ready {TNow TBl} params.
Arguments NotReady {TNow TBl} when.

Inductive NextNecessaryAsyncOpInternal (TNow : Type) :=
  | IReady (async_op_id : AsyncOpId) (block_index : NodeIndex)
  | INotReady (when : option TNow).

Arguments IReady {TNow} async_op_id block_index.
Arguments INotReady {TNow} when.

Record InputIterItem (TBl TAsync : Type) := mkItem {
  it_id : NodeIndex;
  it_user_data : TBl;
  it_async_op_user_data : option TAsync;
  it_is_output_best : bool
}.

Arguments mkItem {TBl TAsync} _ _ _ _.

Record OutputUpdateBlock (TBl TAsync : Type) := mkOutputBlock {
  ub_index : NodeIndex;
  ub_user_data : TBl;
  ub_async_op_user_data : TAsync;
  ub_is_new_best : bool
}.

Arguments mkOutputBlock {TBl TAsync} _ _ _ _.
Arguments ub_index {TBl TAsync} o : rename.
Arguments ub_user_data {TBl TAsync} o : rename.
Arguments ub_async_op_user_data {TBl TAsync} o : rename.
Arguments ub_is_new_best {TBl TAsync} o : rename.

Inductive OutputUpdate (TBl TAsync : Type) :=
  | UFinalized (former_index : NodeIndex) (user_data : TBl) (async_op_user_data : TAsync)
      (former_finalized_async_op_user_data : TAsync) (best_block_index : option NodeIndex)
      (pruned_blocks : list (NodeIndex * TBl * option TAsync))
  | UBlock (block : OutputUpdateBlock TBl TAsync)
  | UBestBlockChanged (best_block_index : option NodeIndex).

Arguments UFinalized {TBl TAsync} _ _ _ _ _ _.
Arguments UBlock {TBl TAsync} block.
Arguments UBestBlockChanged {TBl TAsync} best_block_index.

(** ** Operations *)

Section operations.
Context {TNow TBl TAsync : Type} `{Instant TNow}.

Abbreviation AsyncTree := (AsyncTree TNow TBl TAsync) (only parsing).
Abbreviation Block := (Block TNow TBl TAsync) (only parsing).
Abbreviation AsyncOpState := (AsyncOpState TNow TAsync) (only parsing).

Definition AsyncTree_new (config : Config TAsync) : AsyncTree :=
  {| non_finalized_blocks := ForkTree_new;
     finalized_async_user_data := cfg_finalized_async_user_data config;
     best_block_index := None;
     input_finalized_index := None;
     input_best_block_next_weight := 2;
     finalized_block_weight := 1;
     next_async_op_id := 0;
     retry_after_failed := cfg_retry_after_failed config |}.

(** *** Field updates *)

Definition with_blocks (v : ForkTree Block) (self : AsyncTree) : AsyncTree :=
  mkAsyncTree v (finalized_async_user_data self) (best_block_index self) (input_finalized_index self)
    (input_best_block_next_weight self) (finalized_block_weight self) (next_async_op_id self) (retry_after_failed self).
Definition with_finalized (v : TAsync) (self : AsyncTree) : AsyncTree :=
  mkAsyncTree (non_finalized_blocks self) v (best_block_index self) (input_finalized_index self)
    (input_best_block_next_weight self) (finalized_block_weight self) (next_async_op_id self) (retry_after_failed self).
Definition with_best (v : option NodeIndex) (self : AsyncTree) : AsyncTree :=
  mkAsyncTree (non_finalized_blocks self) (finalized_async_user_data self) v (input_finalized_index self)
    (input_best_block_next_weight self) (finalized_block_weight self) (next_async_op_id self) (retry_after_failed self).
Definition with_input_finalized (v : option NodeIndex) (self : AsyncTree) : AsyncTree :=
  mkAsyncTree (non_finalized_blocks self) (finalized_async_user_data self) (best_block_index self) v
    (input_best_block_next_weight self) (finalized_block_weight self) (next_async_op_id self) (retry_after_failed self).
Definition with_next_weight (v : u32) (self : AsyncTree) : AsyncTree :=
  mkAsyncTree (non_finalized_blocks self) (finalized_async_user_data self) (best_block_index self)
    (input_finalized_index self) v (finalized_block_weight self) (next_async_op_id self) (retry_after_failed self).
Definition with_finalized_weight (v : u32) (self : AsyncTree) : AsyncTree :=
  mkAsyncTree (non_finalized_blocks self) (finalized_async_user_data self) (best_block_index self)
    (input_finalized_index self) (input_best_block_next_weight self) v (next_async_op_id self) (retry_after_failed self).
Definition with_next_id (v : AsyncOpId) (self : AsyncTree) : AsyncTree :=
  mkAsyncTree (non_finalized_blocks self) (finalized_async_user_data self) (best_block_index self)
    (input_finalized_index self) (input_best_block_next_weight self) (finalized_block_weight self) v (retry_after_failed self).

Definition set_async_op (v : AsyncOpState) (b : Block) : Block :=
  mkBlock (user_data b) v (input_best_block_weight b).
Definition set_weight (v : u32) (b : Block) : Block := mkBlock (user_data b) (async_op b) v.
Definition set_user_data (v : TBl) (b : Block) : Block := mkBlock v (async_op b) (input_best_block_weight b).

(** [matches!(b.async_op, Finished { reported: true, .. })]. *)
Definition is_reported (b : Block) : bool :=
  match async_op b with Finished _ true => true | _ => false end.

(** [matches!(b.async_op, InProgress { async_op_id: id, .. } if id == async_op_id)]. *)
Definition in_progress_with (async_op_id : AsyncOpId) (b : Block) : bool :=
  match async_op b with InProgress id _ => id =? async_op_id | _ => false end.

(** *** Queries *)

Definition num_input_non_finalized_blocks (self : AsyncTree) : usize := fork_len (non_finalized_blocks self).

Definition at_best_block_index (self : AsyncTree) : option (option (NodeIndex * TAsync)) :=
  match best_block_index self with
  | None => Some None
  | Some best_block_index =>
      let! b := fork_get (non_finalized_blocks self) best_block_index in
      match async_op b with
      | Finished user_data true => Some (Some (best_block_index, user_data))
      | _ => None
      end
  end.

Definition block_user_data (self : AsyncTree) (node_index : NodeIndex) : option TBl :=
  user_data <$> fork_get (non_finalized_blocks self) node_index.

(** What the caller does through the mutable reference is [f]. *)
Definition block_user_data_mut (self : AsyncTree) (node_index : NodeIndex) (f : TBl -> TBl) : option AsyncTree :=
  let! t := fork_get_mut (non_finalized_blocks self) node_index (fun b => set_user_data (f (user_data b)) b) in
  Some (with_blocks t self).

Definition block_async_user_data (self : AsyncTree) (node_index : NodeIndex) : option (option TAsync) :=
  let! b := fork_get (non_finalized_blocks self) node_index in
  Some (match async_op b with Finished user_data _ => Some user_data | _ => None end).

Definition block_async_user_data_mut (self : AsyncTree) (node_index : NodeIndex) (f : TAsync -> TAsync)
    : option AsyncTree :=
  let! t := fork_get_mut (non_finalized_blocks self) node_index
    (fun b => match async_op b with
              | Finished user_data reported => set_async_op (Finished (f user_data) reported) b
              | _ => b
              end) in
  Some (with_blocks t self).

Definition at_parent (self : AsyncTree) (node : NodeIndex) : option (option NodeIndex) :=
  fork_parent (non_finalized_blocks self) node.

Definition at_children (self : AsyncTree) (node : option NodeIndex) : option (list NodeIndex) :=
  fork_children (non_finalized_blocks self) node.

(** The closure of the two iterators. *)
Definition input_iter_item (self : AsyncTree) (item : NodeIndex * Block) : InputIterItem TBl TAsync :=
  let '(id, b) := item in
  mkItem id (user_data b)
    (match async_op b with Finished user_data true => Some user_data | _ => None end)
    (bool_decide (best_block_index self = Some id)).

Definition input_iter_ancestry_order (self : AsyncTree) : option (list (InputIterItem TBl TAsync)) :=
  let! l := iter_ancestry_order (non_finalized_blocks self) in Some (input_iter_item self <$> l).

Definition input_iter_unordered (self : AsyncTree) : list (InputIterItem TBl TAsync) :=
  input_iter_item self <$> iter_unordered (non_finalized_blocks self).

Definition async_op_blocks (self : AsyncTree) (async_op_id : AsyncOpId) : list TBl :=
  user_data <$> filter (fun b => in_progress_with async_op_id b = true)
                  (snd <$> iter_unordered (non_finalized_blocks self)).

(** *** Operations that end *)

Fixpoint finished_loop (t : ForkTree Block) (list : list NodeIndex) (async_op_id : AsyncOpId) (data : TAsync)
    : option (ForkTree Block) :=
  match list with
  | [] => Some t
  | index :: list =>
      let! t := fork_get_mut t index
        (fun b => if in_progress_with async_op_id b then set_async_op (Finished data false) b else b) in
      finished_loop t list async_op_id data
  end.

Definition async_op_finished (self : AsyncTree) (async_op_id : AsyncOpId) (data : TAsync)
    : option (list NodeIndex * AsyncTree) :=
  let list := fst <$> filter (fun ib => in_progress_with async_op_id (snd ib) = true)
                        (iter_unordered (non_finalized_blocks self)) in
  let! t := finished_loop (non_finalized_blocks self) list async_op_id data in
  Some (list, with_blocks t self).

(** [cmp::min]. *)
Definition instant_min (a b : TNow) : TNow := if decide (key_le a b) then a else b.

(** The body of the loop, for one block. *)
Definition failure_block (t : ForkTree Block) (index : NodeIndex) (async_op_id : AsyncOpId) (new_timeout : TNow)
    : option (ForkTree Block) :=
  let! b := fork_get t index in
  match async_op b with
  | InProgress id timeout =>
      if id =? async_op_id then
        let new_timeout :=
          match timeout with
          | Some timeout => Some (instant_min timeout new_timeout)
          | None => Some new_timeout
          end in
        let! parent := fork_parent t index in
        let! same_as_parent :=
          match parent with
          | None => Some false
          | Some idx => let! p := fork_get t idx in Some (in_progress_with async_op_id p)
          end in
        fork_get_mut t index (set_async_op (Pending same_as_parent new_timeout))
      else Some t
  | _ => Some t
  end.

Fixpoint failure_loop (t : ForkTree Block) (l : list NodeIndex) (async_op_id : AsyncOpId) (new_timeout : TNow)
    : option (ForkTree Block) :=
  match l with
  | [] => Some t
  | index :: l =>
      let! t := failure_block t index async_op_id new_timeout in
      failure_loop t l async_op_id new_timeout
  end.

Definition async_op_failure (self : AsyncTree) (async_op_id : AsyncOpId) (now : TNow) : option AsyncTree :=
  let new_timeout := instant_add now (retry_after_failed self) in
  let! l := iter_ancestry_order (non_finalized_blocks self) in
  let! t := failure_loop (non_finalized_blocks self) (rev (fst <$> l)) async_op_id new_timeout in
  Some (with_blocks t self).

(** *** Operations that start *)

(** [iter.all(|idx| matches!(.., Pending { same_as_parent: true, .. }))]. *)
Fixpoint all_same_as_parent (t : ForkTree Block) (l : list NodeIndex) : option bool :=
  match l with
  | [] => Some true
  | idx :: l =>
      let! b := fork_get t idx in
      match async_op b with
      | Pending true _ => all_same_as_parent t l
      | _ => Some false
      end
  end.

Fixpoint to_update_loop (t : ForkTree Block) (block_index : NodeIndex) (l : list NodeIndex)
    : option (list NodeIndex) :=
  match l with
  | [] => Some []
  | child_index :: l =>
      let! ancestor := is_ancestor t block_index child_index in
      let! push :=
        if ancestor : bool then
          let! path := node_to_root_path t child_index in
          all_same_as_parent t (take_while (fun idx => negb (idx =? block_index)) path)
        else Some false in
      let! rest := to_update_loop t block_index l in
      Some (if push : bool then child_index :: rest else rest)
  end.

Fixpoint in_progress_loop (t : ForkTree Block) (to_update : list NodeIndex) (async_op_id : AsyncOpId)
    : option (ForkTree Block) :=
  match to_update with
  | [] => Some t
  | index :: to_update =>
      let! t := fork_get_mut t index (set_async_op (InProgress async_op_id None)) in
      in_progress_loop t to_update async_op_id
  end.

Definition start_necessary_async_op (self : AsyncTree) (block_index : NodeIndex) (now : TNow)
    : option (NextNecessaryAsyncOpInternal TNow * AsyncTree) :=
  let! b := fork_get (non_finalized_blocks self) block_index in
  match async_op b with
  | Pending false timeout =>
      if match timeout with Some t => bool_decide (key_le t now) | None => true end then
        let async_op_id := next_async_op_id self in
        let self := with_next_id (wadd 64 async_op_id 1) self in
        let! to_update := to_update_loop (non_finalized_blocks self) block_index
                            (fst <$> iter_unordered (non_finalized_blocks self)) in
        let! t := in_progress_loop (non_finalized_blocks self) to_update async_op_id in
        Some (IReady async_op_id block_index, with_blocks t self)
      else Some (INotReady timeout, self)
  | _ => Some (INotReady None, self)
  end.

(** The update of [when_not_ready]. *)
Definition merge_when (when when_not_ready : option TNow) : option TNow :=
  match when, when_not_ready with
  | None, None => None
  | Some a, None => Some a
  | None, Some b => Some b
  | Some a, Some b => Some (instant_min a b)
  end.

(** One of the three attempts; [next] is what follows it. *)
Definition attempt (self : AsyncTree) (idx : NodeIndex) (now : TNow) (when_not_ready : option TNow)
    (next : AsyncTree -> option TNow -> option (NextNecessaryAsyncOp TNow TBl * AsyncTree))
    : option (NextNecessaryAsyncOp TNow TBl * AsyncTree) :=
  let! (r, self) := start_necessary_async_op self idx now in
  match r with
  | IReady async_op_id block_index =>
      let! b := fork_get (non_finalized_blocks self) block_index in
      Some (Ready (mkParams async_op_id block_index (user_data b)), self)
  | INotReady when => next self (merge_when when when_not_ready)
  end.

Fixpoint others_loop (l : list NodeIndex) (self : AsyncTree) (now : TNow) (when_not_ready : option TNow)
    : option (NextNecessaryAsyncOp TNow TBl * AsyncTree) :=
  match l with
  | [] => Some (NotReady when_not_ready, self)
  | idx :: l => attempt self idx now when_not_ready (fun self when => others_loop l self now when)
  end.

(** [iter.max_by_key(|(_, b)| b.input_best_block_weight)]: the last of the
    maximal elements. *)
Fixpoint max_by_weight (l : list (NodeIndex * Block)) (max : option (NodeIndex * Block)) : option (NodeIndex * Block) :=
  match l with
  | [] => max
  | x :: l =>
      max_by_weight l
        (match max with
         | None => Some x
         | Some y => if input_best_block_weight (snd y) <=? input_best_block_weight (snd x) then Some x else Some y
         end)
  end.

(** The last of the three attempts, then the last two. *)
Definition next_other (self : AsyncTree) (now : TNow) (when : option TNow)
    : option (NextNecessaryAsyncOp TNow TBl * AsyncTree) :=
  others_loop (fst <$> iter_unordered (non_finalized_blocks self)) self now when.

Definition next_best (self : AsyncTree) (now : TNow) (when : option TNow)
    : option (NextNecessaryAsyncOp TNow TBl * AsyncTree) :=
  match max_by_weight (iter_unordered (non_finalized_blocks self)) None with
  | Some (idx, _) => attempt self idx now when (fun self when => next_other self now when)
  | None => next_other self now when
  end.

Definition next_necessary_async_op (self : AsyncTree) (now : TNow)
    : option (NextNecessaryAsyncOp TNow TBl * AsyncTree) :=
  match input_finalized_index self with
  | Some idx => attempt self idx now None (fun self when => next_best self now when)
  | None => next_best self now None
  end.

(** *** Input *)

(** The [match] that gives the state of the operation of a new block. *)
Definition inserted_async_op (self : AsyncTree) (same_async_op_as_parent : bool) (parent_index : option NodeIndex)
    : option AsyncOpState :=
  match same_async_op_as_parent, parent_index with
  | true, Some parent_index =>
      let! p := fork_get (non_finalized_blocks self) parent_index in
      Some (match async_op p with
            | InProgress async_op_id _ => InProgress async_op_id None
            | Finished user_data _ => Finished user_data false
            | Pending _ _ => Pending true None
            end)
  | true, None => Some (Finished (finalized_async_user_data self) false)
  | false, _ => Some (Pending false None)
  end.

(** [new_index] is the key that the slab chooses. *)
Definition input_insert_block (self : AsyncTree) (new_index : usize) (block : TBl) (parent_index : option NodeIndex)
    (same_async_op_as_parent is_new_best : bool) : option (NodeIndex * AsyncTree) :=
  let '(weight, self) :=
    if is_new_best then
      let id := input_best_block_next_weight self in (id, with_next_weight (wadd 32 id 1) self)
    else (0, self) in
  let! op := inserted_async_op self same_async_op_as_parent parent_index in
  let! (index, t) := fork_insert (non_finalized_blocks self) new_index parent_index (mkBlock block op weight) in
  Some (index, with_blocks t self).

(** The [match] on the weight, of [input_set_best_block] and [input_finalize]. *)
Definition update_weight (self : AsyncTree) (new_best_block : NodeIndex) : option AsyncTree :=
  let! b := fork_get (non_finalized_blocks self) new_best_block in
  if input_best_block_weight b =? wsub 32 (input_best_block_next_weight self) 1 then Some self
  else
    let! t := fork_get_mut (non_finalized_blocks self) new_best_block
                (set_weight (input_best_block_next_weight self)) in
    Some (with_next_weight (wadd 32 (input_best_block_next_weight self) 1) (with_blocks t self)).

Definition input_set_best_block (self : AsyncTree) (new_best_block : NodeIndex) : option AsyncTree :=
  let! descendant :=
    match input_finalized_index self with
    | None => Some true
    | Some fin_idx => is_ancestor (non_finalized_blocks self) fin_idx new_best_block
    end in
  if descendant : bool then update_weight self new_best_block else None.

Definition input_finalize (self : AsyncTree) (node_to_finalize new_best_block : NodeIndex) : option AsyncTree :=
  let! descendant := is_ancestor (non_finalized_blocks self) node_to_finalize new_best_block in
  if descendant : bool then update_weight (with_input_finalized (Some node_to_finalize) self) new_best_block
  else None.

(** *** Output *)

Record PruneState := mkPruneState {
  ps_self : AsyncTree;
  ps_pruned_blocks : list (NodeIndex * TBl * option TAsync);
  ps_pruned_finalized : option (PrunedNode Block)
}.

(** The body of the loop over the pruned nodes. *)
Definition prune_step (new_finalized : NodeIndex) (st : PruneState) (pruned : PrunedNode Block) : PruneState :=
  let self := ps_self st in
  let self :=
    if match best_block_index self with Some b => b =? pn_index pruned | None => false end
    then with_best None self else self in
  if pn_index pruned =? new_finalized then
    mkPruneState (with_finalized_weight (input_best_block_weight (pn_user_data pruned)) self)
      (ps_pruned_blocks st) (Some pruned)
  else
    let async_op :=
      match async_op (pn_user_data pruned) with
      | Finished user_data reported => if reported then Some user_data else None
      | _ => None
      end in
    mkPruneState self
      (ps_pruned_blocks st ++ [(pn_index pruned, user_data (pn_user_data pruned), async_op)])
      (ps_pruned_finalized st).

(** The weight of the output best block. *)
Definition output_best_weight (self : AsyncTree) : option u32 :=
  match best_block_index self with
  | None => Some (finalized_block_weight self)
  | Some idx => input_best_block_weight <$> fork_get (non_finalized_blocks self) idx
  end.

(** The loop that looks for the finished block of highest weight, and whether it
    found one better than the current one. *)
Fixpoint best_loop (l : list (NodeIndex * Block)) (weight : u32) (best : option NodeIndex) (updated : bool)
    : option NodeIndex * bool :=
  match l with
  | [] => (best, updated)
  | (node_index, block) :: l =>
      if input_best_block_weight block <=? weight then best_loop l weight best updated
      else if negb (is_reported block) then best_loop l weight best updated
      else best_loop l (input_best_block_weight block) (Some node_index) true
  end.

Definition advance_best (self : AsyncTree) : option (bool * AsyncTree) :=
  let! weight := output_best_weight self in
  let '(best, updated) :=
    best_loop (iter_unordered (non_finalized_blocks self)) weight (best_block_index self) false in
  Some (updated, with_best best self).

(** What happens once [new_finalized] is known. *)
Definition advance_finalized (self : AsyncTree) (new_finalized : NodeIndex)
    : option (OutputUpdate TBl TAsync * AsyncTree) :=
  let self :=
    if bool_decide (input_finalized_index self = Some new_finalized)
    then with_input_finalized None self else self in
  let! (outs, t) := prune_ancestors (non_finalized_blocks self) new_finalized in
  let st := foldl (prune_step new_finalized) (mkPruneState (with_blocks t self) [] None) outs in
  let! (_, self) := advance_best (ps_self st) in
  let! pruned_finalized := ps_pruned_finalized st in
  match async_op (pn_user_data pruned_finalized) with
  | Finished data _ =>
      let former := finalized_async_user_data self in
      let self := with_finalized data self in
      Some (UFinalized new_finalized (user_data (pn_user_data pruned_finalized)) data former
              (best_block_index self) (ps_pruned_blocks st), self)
  | _ => None
  end.

(** The loop over the blocks not reported yet; [None] inside when it reaches its
    end. *)
Fixpoint report_loop (l : list NodeIndex) (self : AsyncTree) : option (option (OutputUpdate TBl TAsync * AsyncTree)) :=
  match l with
  | [] => Some None
  | node_index :: l =>
      let! parent := fork_parent (non_finalized_blocks self) node_index in
      let! parent_reported :=
        match parent with
        | None => Some true
        | Some parent => is_reported <$> fork_get (non_finalized_blocks self) parent
        end in
      if negb parent_reported then report_loop l self
      else
        let! b := fork_get (non_finalized_blocks self) node_index in
        match async_op b with
        | Finished data false =>
            let! t := fork_get_mut (non_finalized_blocks self) node_index (set_async_op (Finished data true)) in
            let self := with_blocks t self in
            let! weight := output_best_weight self in
            let is_new_best := weight <? input_best_block_weight b in
            let self := if is_new_best then with_best (Some node_index) self else self in
            Some (Some (UBlock (mkOutputBlock node_index (user_data b) data is_new_best), self))
        | _ => report_loop l self
        end
  end.

Context `{Platform}.

Definition try_advance_output (self : AsyncTree) : option (option (OutputUpdate TBl TAsync) * AsyncTree) :=
  let! new_finalized :=
    match input_finalized_index self with
    | None => Some None
    | Some input_finalized_index =>
        let! path := root_to_node_path (non_finalized_blocks self) input_finalized_index in
        match path with
        | [] => Some None
        | node_index :: _ =>
            let! b := fork_get (non_finalized_blocks self) node_index in
            Some (if is_reported b then Some node_index else None)
        end
    end in
  match new_finalized with
  | Some new_finalized =>
      let! (update, self) := advance_finalized self new_finalized in
      Some (Some update, self)
  | None =>
      let! reported := report_loop (fst <$> iter_unordered (non_finalized_blocks self)) self in
      match reported with
      | Some (update, self) => Some (Some update, self)
      | None =>
          let! (best_block_updated, self) := advance_best self in
          Some (if best_block_updated : bool then Some (UBestBlockChanged (best_block_index self)) else None, self)
      end
  end.

End operations.

(** The data of every operation replaced. *)
Definition map_async_op_user_data {TNow TBl TAsync TAsync2 : Type} (self : AsyncTree TNow TBl TAsync)
    (map : TAsync -> TAsync2) : AsyncTree TNow TBl TAsync2 :=
  {| non_finalized_blocks :=
       fork_map (non_finalized_blocks self) (fun block =>
         mkBlock (user_data block)
           (match async_op block with
            | Finished user_data reported => Finished (map user_data) reported
            | InProgress async_op_id timeout => InProgress async_op_id timeout
            | Pending same_as_parent timeout => Pending same_as_parent timeout
            end)
           (input_best_block_weight block));
     finalized_async_user_data := map (finalized_async_user_data self);
     best_block_index := best_block_index self;
     input_finalized_index := input_finalized_index self;
     input_best_block_next_weight := input_best_block_next_weight self;
     finalized_block_weight := finalized_block_weight self;
     next_async_op_id := next_async_op_id self;
     retry_after_failed := retry_after_failed self |}.
