(* ===== verification/AsyncTreeInv.v ===== *)
(** * The invariant of the asynchronous tree

    The invariant of the state of AsyncTree.v, and that the operations keep it.
    The loops that change the states of blocks are described by [updates] of
    ForkTreeFacts.v. *)

From S2P Require Import Prelude BTree ForkTree ForkTreePrune ForkTreeFacts AsyncTree.

Open Scope Z_scope.

(** ** The invariant *)

Section invariant.
Context {TNow TBl TAsync : Type}.

Abbreviation AsyncTree := (AsyncTree TNow TBl TAsync) (only parsing).
Abbreviation Block := (Block TNow TBl TAsync) (only parsing).
Implicit Types (t : ForkTree Block) (b : Block) (self : AsyncTree).

Definition is_pending b : bool := match async_op b with Pending _ _ => true | _ => false end.
Definition is_same b : bool := match async_op b with Pending true _ => true | _ => false end.

(** The block for which an operation was started: its parent does not take part
    in the operation. *)
Definition op_root t (id : AsyncOpId) (k : NodeIndex) : Prop :=
  (exists b, fork_get t k = Some b /\ in_progress_with id b = true) /\
  (forall p bp, fork_parent t k = Some (Some p) -> fork_get t p = Some bp -> in_progress_with id bp = false).

(** The states of the operations. *)
Record ops_inv t (next_id : AsyncOpId) : Prop := {
  oi_reported : forall k p b, fork_parent t k = Some (Some p) -> fork_get t k = Some b -> is_reported b = true ->
    exists bp, fork_get t p = Some bp /\ is_reported bp = true;
  oi_same : forall k b, fork_get t k = Some b -> is_same b = true ->
    exists p bp, fork_parent t k = Some (Some p) /\ fork_get t p = Some bp /\ is_pending bp = true;
  oi_ids : forall k b id, fork_get t k = Some b -> in_progress_with id b = true -> 0 <= id < next_id;
  oi_root : forall id k k', op_root t id k -> op_root t id k' -> k = k'
}.

(** The weights: they are the order in which the input had best blocks. *)
Record weights_inv t (next_weight fin_weight : u32) : Prop := {
  wi_range : forall k b, fork_get t k = Some b -> 0 <= input_best_block_weight b < next_weight;
  wi_unique : forall k k' b b', fork_get t k = Some b -> fork_get t k' = Some b' ->
    input_best_block_weight b = input_best_block_weight b' -> input_best_block_weight b <> 0 -> k = k';
  wi_fin : 0 <= fin_weight < next_weight;
  wi_fin_unique : forall k b, fork_get t k = Some b -> input_best_block_weight b = fin_weight -> fin_weight = 0
}.

Record async_inv `{Platform} self : Prop := {
  ai_rep : exists f, fork_rep (non_finalized_blocks self) f;
  ai_slab : nodes (non_finalized_blocks self) !! (2 ^ usize_bits - 1) = None;
  ai_ops : ops_inv (non_finalized_blocks self) (next_async_op_id self);
  ai_weights : weights_inv (non_finalized_blocks self) (input_best_block_next_weight self) (finalized_block_weight self);
  ai_best : forall k, best_block_index self = Some k ->
    exists b, fork_get (non_finalized_blocks self) k = Some b /\ is_reported b = true;
  ai_finalized : forall k, input_finalized_index self = Some k -> is_Some (fork_get (non_finalized_blocks self) k);
  ai_next_weight : 2 <= input_best_block_next_weight self < 2 ^ 32;
  ai_next_id : 0 <= next_async_op_id self < 2 ^ 64
}.

(** *** What the parts depend on *)

Lemma weights_updates t t' g nw fw :
  updates t t' g -> (forall k b, input_best_block_weight (g k b) = input_best_block_weight b) ->
  weights_inv t nw fw -> weights_inv t' nw fw.
Proof.
  intros Hup Hg [W1 W2 W3 W4]. split; [| |done|].
  - intros k b' (b & Hb & ->)%(updates_inv _ _ _ _ _ Hup). rewrite Hg. eauto.
  - intros k k' b1 b2 (c1 & H1 & ->)%(updates_inv _ _ _ _ _ Hup) (c2 & H2 & ->)%(updates_inv _ _ _ _ _ Hup).
    rewrite !Hg. eauto.
  - intros k b' (b & Hb & ->)%(updates_inv _ _ _ _ _ Hup). rewrite Hg. eauto.
Qed.

Lemma op_root_updates t t' g id k :
  updates t t' g ->
  (forall k b, fork_get t k = Some b -> in_progress_with id (g k b) = in_progress_with id b) ->
  op_root t' id k <-> op_root t id k.
Proof.
  intros Hup Hg. unfold op_root. rewrite (up_parent _ _ _ Hup). split; intros [(b & Hb & Hid) Hpar]; split.
  - apply (updates_inv _ _ _ _ _ Hup) in Hb as (b0 & Hb0 & ->). exists b0. rewrite Hg in Hid by done. done.
  - intros p bp Hp Hbp. rewrite <- (Hg p bp Hbp). eapply Hpar; [done|]. by eapply updates_fwd.
  - exists (g k b). rewrite Hg by done. split; [|done]. by eapply updates_fwd.
  - intros p bp Hp (b0 & Hb0 & ->)%(updates_inv _ _ _ _ _ Hup). rewrite Hg by done. eauto.
Qed.

(** What a change of the blocks has to respect. The blocks of an operation are
    as before, or all but one have a parent in the operation. *)
Lemma ops_updates t t' g next_id next_id' :
  updates t t' g -> ops_inv t next_id ->
  (forall k p b bp, fork_parent t k = Some (Some p) -> fork_get t k = Some b -> fork_get t p = Some bp ->
     is_reported (g k b) = true -> is_reported (g p bp) = true) ->
  (forall k b, fork_get t k = Some b -> is_same (g k b) = true ->
     exists p bp, fork_parent t k = Some (Some p) /\ fork_get t p = Some bp /\ is_pending (g p bp) = true) ->
  (forall k b id, fork_get t k = Some b -> in_progress_with id (g k b) = true -> 0 <= id < next_id') ->
  (forall id, (forall k b, fork_get t k = Some b -> in_progress_with id (g k b) = in_progress_with id b) \/
     (exists r, forall k b, fork_get t k = Some b -> in_progress_with id (g k b) = true -> k <> r ->
        exists p bp, fork_parent t k = Some (Some p) /\ fork_get t p = Some bp /\ in_progress_with id (g p bp) = true)) ->
  (exists f, fork_rep t f) ->
  ops_inv t' next_id'.
Proof.
  intros Hup [O1 O2 O3 O4] G1 G2 G3 G4 [f Hf]. split.
  - intros k p b' Hp (b & Hb & ->)%(updates_inv _ _ _ _ _ Hup) Hr. rewrite (up_parent _ _ _ Hup) in Hp.
    destruct (fork_parent_get _ _ _ _ Hf Hp) as [bp Hbp]. exists (g p bp). split; [by eapply updates_fwd|eauto].
  - intros k b' (b & Hb & ->)%(updates_inv _ _ _ _ _ Hup) Hs.
    destruct (G2 k b Hb Hs) as (p & bp & Hp & Hbp & Hpp). exists p, (g p bp). rewrite (up_parent _ _ _ Hup).
    split; [done|]. split; [by eapply updates_fwd|done].
  - intros k b' id (b & Hb & ->)%(updates_inv _ _ _ _ _ Hup). eauto.
  - intros id. destruct (G4 id) as [Hsame|[r Hr]].
    + intros k k'. rewrite !(op_root_updates t t' g) by done. apply O4.
    + assert (Hroot : forall k, op_root t' id k -> k = r); [|intros k k' ->%Hroot ->%Hroot; done].
      intros k [(b' & (b & Hb & ->)%(updates_inv _ _ _ _ _ Hup) & Hid) Hpar].
      destruct (decide (k = r)) as [|Hne]; [done|]. destruct (Hr k b Hb Hid Hne) as (p & bp & Hp & Hbp & Hpid).
      rewrite (Hpar p (g p bp)) in Hpid; [done| |by eapply updates_fwd]. by rewrite (up_parent _ _ _ Hup).
Qed.

(** A change that leaves the operations alone. *)
Lemma ops_updates_same t t' g next_id :
  updates t t' g -> (forall k b, async_op (g k b) = async_op b) -> (exists f, fork_rep t f) ->
  ops_inv t next_id -> ops_inv t' next_id.
Proof.
  intros Hup Hg Hwf Hinv. pose proof Hinv as [O1 O2 O3 O4].
  assert (Hid : forall id k b, in_progress_with id (g k b) = in_progress_with id b).
  { intros. unfold in_progress_with. by rewrite Hg. }
  assert (Hr : forall k b, is_reported (g k b) = is_reported b). { intros. unfold is_reported. by rewrite Hg. }
  assert (Hs : forall k b, is_same (g k b) = is_same b). { intros. unfold is_same. by rewrite Hg. }
  assert (Hp : forall k b, is_pending (g k b) = is_pending b). { intros. unfold is_pending. by rewrite Hg. }
  eapply ops_updates; [done..| | | | |done].
  - intros k p b bp Hpar Hb Hbp. rewrite !Hr. intros Hrb. destruct (O1 k p b Hpar Hb Hrb) as (? & ? & ?). congruence.
  - intros k b Hb. rewrite Hs. intros Hsb. destruct (O2 k b Hb Hsb) as (p & bp & ?). exists p, bp. by rewrite Hp.
  - intros k b id Hb. rewrite Hid. apply (O3 k b id Hb).
  - intros id. left. intros. apply Hid.
Qed.

Lemma ops_inv_mono t next_id next_id' : ops_inv t next_id -> next_id <= next_id' -> ops_inv t next_id'.
Proof. intros [O1 O2 O3 O4] Hle. split; [done|done| |done]. intros k b id Hb Hid. specialize (O3 k b id Hb Hid). lia. Qed.

(** ** The loops *)

Section loops.
Context `{Instant TNow}.

Definition finish_block (id : AsyncOpId) (data : TAsync) b : Block :=
  if in_progress_with id b then set_async_op (Finished data false) b else b.

Lemma async_op_finished_updates self id data :
  (exists f, fork_rep (non_finalized_blocks self) f) ->
  exists l t', async_op_finished self id data = Some (l, with_blocks t' self) /\
    updates (non_finalized_blocks self) t' (fun _ => finish_block id data) /\
    (forall k, k ∈ l <-> exists b, fork_get (non_finalized_blocks self) k = Some b /\ in_progress_with id b = true) /\
    NoDup l.
Proof.
  intros Hwf. unfold async_op_finished. set (t := non_finalized_blocks self).
  set (l := fst <$> filter _ (iter_unordered t)).
  assert (Hl : forall k, k ∈ l <-> exists b, fork_get t k = Some b /\ in_progress_with id b = true).
  { intros k. unfold l. rewrite list_elem_of_fmap. split.
    - intros ([k' b] & -> & [Hid Hin]%list_elem_of_filter). cbn in *. exists b. by rewrite <- elem_of_iter_unordered.
    - intros (b & Hb & Hid). exists (k, b). split; [done|]. apply list_elem_of_filter. by rewrite elem_of_iter_unordered. }
  assert (Hnd : NoDup l).
  { apply NoDup_keys_filter, iter_keys_NoDup. }
  destruct (updates_loop (fun t l => finished_loop t l id data) (finish_block id data)) with (l := l) (t := t)
    as (t' & Ht' & Hup); [done|done|done|done| |].
  { intros k (b & Hb & _)%Hl. eauto. }
  rewrite Ht'. exists l, t'. split; [done|]. split; [|done]. eapply updates_ext; [done|].
  intros k b Hb. cbn. case_decide as E; [done|]. unfold finish_block. destruct (in_progress_with id b) eqn:Ei; [|done].
  destruct E. apply Hl. eauto.
Qed.

(** The parent takes part in the operation. *)
Definition parent_in_progress t (id : AsyncOpId) (k : NodeIndex) : bool :=
  match fork_parent t k with
  | Some (Some p) => match fork_get t p with Some bp => in_progress_with id bp | None => false end
  | _ => false
  end.

Definition fail_block t (id : AsyncOpId) (new_timeout : TNow) (k : NodeIndex) b : Block :=
  match async_op b with
  | InProgress id' timeout =>
      if id' =? id then
        set_async_op (Pending (parent_in_progress t id k)
          (Some (match timeout with Some timeout => instant_min timeout new_timeout | None => new_timeout end))) b
      else b
  | _ => b
  end.

Lemma failure_block_updates t k id nt :
  (exists f, fork_rep t f) -> is_Some (fork_get t k) ->
  exists t', failure_block t k id nt = Some t' /\
    updates t t' (fun j b => if decide (j = k) then fail_block t id nt k b else b).
Proof.
  intros Hwf Hk. destruct (fork_path t k Hwf Hk) as (lp & _ & _ & _ & Hpar). destruct Hk as [b Hb].
  unfold failure_block. rewrite Hb.
  assert (Hsame : (forall j c, fork_get t j = Some c -> j = k -> c = b)) by (intros; subst; congruence).
  assert (Hstay : fail_block t id nt k b = b ->
    updates t t (fun j c => if decide (j = k) then fail_block t id nt k c else c)).
  { intros E. apply updates_refl. intros j c Hc. case_decide; [|done]. rewrite (Hsame j c) by done. done. }
  unfold fail_block in Hstay. destruct (async_op b) as [|id' to|] eqn:Eb.
  1,3: eexists; split; [done|]; apply Hstay; done.
  destruct (Z.eqb_spec id' id) as [->|Hne]; [|eexists; split; [done|]; apply Hstay; done].
  set (to' := match to with Some timeout => Some (instant_min timeout nt) | None => Some nt end).
  destruct (updates_get_mut t k (set_async_op (Pending (parent_in_progress t id k) to')) Hwf (ex_intro _ b Hb))
    as (t' & Ht' & Hup).
  exists t'. split.
  - unfold parent_in_progress in Ht'. destruct (fork_parent t k) as [[p|]|]; [|done|done].
    destruct Hpar as [[bp Hbp] _]. rewrite Hbp in *. done.
  - eapply updates_ext; [done|]. intros j c Hc. cbn. case_decide as E; [|done]. rewrite (Hsame j c) by done.
    unfold fail_block. rewrite Eb, Z.eqb_refl. unfold to'. by destruct to.
Qed.

(** Children first: no node of the list is the parent of a later one. *)
Definition children_first t (l : list NodeIndex) : Prop :=
  StronglySorted (fun i k => fork_parent t k <> Some (Some i)) l.

Lemma failure_loop_updates id nt l : forall t,
  (exists f, fork_rep t f) -> NoDup l -> children_first t l -> (forall k, k ∈ l -> is_Some (fork_get t k)) ->
  exists t', failure_loop t l id nt = Some t' /\
    updates t t' (fun k b => if decide (k ∈ l) then fail_block t id nt k b else b).
Proof.
  induction l as [|i l IH]; intros t Hwf Hnd Hcf Hall.
  - exists t. split; [done|]. apply updates_refl. intros k b _. by rewrite decide_False by apply not_elem_of_nil.
  - apply NoDup_cons in Hnd as [Hi Hnd]. apply StronglySorted_inv in Hcf as [Hcf Hfst]. rewrite Forall_forall in Hfst.
    destruct (failure_block_updates t i id nt Hwf (Hall i ltac:(by left))) as (t1 & Ht1 & Hup1).
    destruct (IH t1) as (t2 & Ht2 & Hup2); [by eapply updates_wf | done | | |].
    { unfold children_first in *. clear -Hcf Hup1. induction Hcf as [|x l Hl IHl Hx]; constructor; [done|].
      eapply Forall_impl; [exact Hx|]. intros k. by rewrite (up_parent _ _ _ Hup1). }
    { intros k Hk. apply (updates_some _ _ _ _ Hup1). apply Hall. by right. }
    exists t2. cbn. rewrite Ht1. split; [done|]. eapply updates_trans; [done..|].
    intros k b _. cbn. destruct (decide (k = i)) as [->|Hne].
    + rewrite decide_True by (by left). by rewrite decide_False.
    + destruct (decide (k ∈ l)) as [Hk|Hk]; [rewrite decide_True by (by right) | rewrite decide_False]; [|done|].
      * unfold fail_block, parent_in_progress. rewrite (up_parent _ _ _ Hup1).
        destruct (fork_parent t k) as [[p|]|] eqn:Ep; [|done|done]. rewrite (up_get _ _ _ Hup1).
        destruct (fork_get t p) as [bp|]; [|done]. cbn. rewrite decide_False; [done|]. intros ->. by apply (Hfst k).
      * rewrite elem_of_cons. naive_solver.
Qed.

Lemma rev_children_first t f : fork_rep t f -> children_first t (rev (fids f)).
Proof.
  intros Hf.
  assert (Hgen : forall l, (forall l1 x l2, l = l1 ++ x :: l2 -> forall y, y ∈ l1 -> fork_parent t y <> Some (Some x)) ->
    children_first t (rev l)).
  { unfold children_first. induction l as [|x l IH] using rev_ind; intros Hl; [constructor|]. rewrite rev_unit. constructor.
    - apply IH. intros l1 y l2 -> z Hz. apply (Hl l1 y (l2 ++ [x])); [by rewrite <- app_assoc|done].
    - apply Forall_forall. intros y Hy. rewrite elem_of_rev in Hy. exact (Hl l x [] eq_refl y Hy). }
  apply Hgen. intros l1 x l2 Hids y Hy Hpar.
  unfold fork_parent in Hpar. apply fmap_Some in Hpar as (n & Hn & Hp).
  apply list_elem_of_lookup in Hy as [idx Hidx].
  assert (Hidx' : fids f !! idx = Some y) by (rewrite Hids; by apply lookup_app_l_Some).
  destruct (rep_parent_first _ _ _ _ _ _ _ _ _ (fr_links _ _ Hf) Hidx' Hn (eq_sym Hp)) as [?|(idx' & Hlt & Hx)]; [done|].
  assert (idx' = length l1) as ->.
  { eapply NoDup_lookup; [apply (fr_nodup _ _ Hf)|done|]. rewrite Hids. by apply list_lookup_middle. }
  apply lookup_lt_Some in Hidx. lia.
Qed.

Lemma async_op_failure_updates self id now :
  (exists f, fork_rep (non_finalized_blocks self) f) ->
  exists t', async_op_failure self id now = Some (with_blocks t' self) /\
    updates (non_finalized_blocks self) t'
      (fail_block (non_finalized_blocks self) id (instant_add now (retry_after_failed self))).
Proof.
  intros [f Hf]. unfold async_op_failure. rewrite (iter_ancestry_order_rep _ f Hf). fold (fids f).
  destruct (failure_loop_updates id (instant_add now (retry_after_failed self)) (rev (fids f)) (non_finalized_blocks self))
    as (t' & Ht' & Hup).
  - eauto.
  - rewrite <- (Permutation_rev (fids f)). apply Hf.
  - by apply rev_children_first.
  - intros k Hk. rewrite elem_of_rev in Hk. by apply fmap_is_Some, (fr_dom _ _ Hf).
  - rewrite Ht'. exists t'. split; [done|]. eapply updates_ext; [done|]. intros k b Hb. cbn.
    rewrite decide_True; [done|]. apply elem_of_rev, (fr_dom _ _ Hf), (fmap_is_Some data). by exists b.
Qed.

(** *** Starting an operation *)

(** The blocks for which the operation of [idx] is also theirs. *)
Inductive shares t (idx : NodeIndex) : NodeIndex -> Prop :=
  | shares_self : is_Some (fork_get t idx) -> shares t idx idx
  | shares_child k p b :
      fork_parent t k = Some (Some p) -> fork_get t k = Some b -> is_same b = true ->
      shares t idx p -> shares t idx k.

Lemma shares_get t idx k : shares t idx k -> is_Some (fork_get t k).
Proof. destruct 1; eauto. Qed.

Lemma all_same_as_parent_Some t l :
  (forall k, k ∈ l -> is_Some (fork_get t k)) ->
  exists r, all_same_as_parent t l = Some r /\
    (r = true <-> forall k b, k ∈ l -> fork_get t k = Some b -> is_same b = true).
Proof.
  induction l as [|i l IH]; intros Hall; cbn.
  - exists true. split; [done|]. split; [|done]. intros _ k b Hk. by apply elem_of_nil in Hk.
  - destruct (Hall i) as [b Hb]; [by left|]. rewrite Hb.
    destruct IH as (r & Hr & Hiff); [intros; apply Hall; by right|].
    assert (Hcase : (if is_same b then all_same_as_parent t l else Some false) = Some (is_same b && r)).
    { rewrite Hr. by destruct (is_same b). }
    exists (is_same b && r). split.
    { rewrite <- Hcase. unfold is_same. destruct (async_op b) as [| |[]]; done. }
    rewrite andb_true_iff, Hiff. split.
    + intros [Hs Hl] k c [->|Hk]%elem_of_cons Hc; [congruence|eauto].
    + intros Hl. split; [eapply Hl; [by left|done]|]. intros k c Hk. apply Hl. by right.
Qed.

(** The test of the loop decides [shares]. *)
Lemma shares_test t idx b0 l : forall k,
  (exists f, fork_rep t f) -> fork_get t idx = Some b0 -> is_same b0 = false ->
  node_to_root_path t k = Some l -> is_Some (fork_get t k) ->
  (idx ∈ l /\ (forall j b, j ∈ take_while (fun j => negb (j =? idx)) l -> fork_get t j = Some b -> is_same b = true)) <->
  shares t idx k.
Proof.
  induction l as [|x l IH]; intros k Hwf Hidx Hb0 Hpath Hk.
  - destruct (fork_path t k Hwf Hk) as (l' & Hl & _). congruence.
  - destruct (fork_path t k Hwf Hk) as (l' & Hl & _ & _ & Hpar). rewrite Hl in Hpath. injection Hpath as -> ->.
    cbn. destruct (Z.eqb_spec x idx) as [->|Hne]; cbn.
    + split; [intros _; by constructor; eauto|]. intros _. split; [by left|]. intros j b Hj. by apply elem_of_nil in Hj.
    + destruct Hk as [b Hb]. split.
      * intros [[?|Hin]%elem_of_cons Hall]; [done|]. assert (Hs : is_same b = true) by (eapply Hall; [by left|done]).
        destruct (fork_parent t x) as [[p|]|] eqn:Ep; [|by subst; apply elem_of_nil in Hin|done].
        destruct Hpar as [Hpg Hpp]. eapply shares_child; [done..|]. apply IH; [done..|].
        split; [done|]. intros j c Hj. apply Hall. by right.
      * intros Hsh. destruct Hsh as [|k p b' Hpk Hbk Hsk Hsh]; [done|]. rewrite Hpk in Hpar. destruct Hpar as [Hpg Hpp].
        apply IH in Hsh as [Hin Hall]; [|done..]. split; [by right|].
        intros j c [->|Hj]%elem_of_cons Hc; [congruence|eauto].
Qed.

Lemma to_update_loop_spec t idx b0 l :
  (exists f, fork_rep t f) -> fork_get t idx = Some b0 -> is_same b0 = false ->
  NoDup l -> (forall k, k ∈ l -> is_Some (fork_get t k)) ->
  exists l', to_update_loop t idx l = Some l' /\ NoDup l' /\ forall k, k ∈ l' <-> k ∈ l /\ shares t idx k.
Proof.
  intros Hwf Hidx Hb0. induction l as [|k l IH]; intros Hnd Hall.
  - exists []. split; [done|]. split; [constructor|]. intros k. rewrite elem_of_nil. naive_solver.
  - apply NoDup_cons in Hnd as [Hkl Hnd]. destruct IH as (l' & Hl' & Hnd' & Hin); [done|intros; apply Hall; by right|].
    assert (Hk : is_Some (fork_get t k)) by (apply Hall; by left).
    destruct (fork_path t k Hwf Hk) as (path & Hpath & Hanc & Hex & _).
    pose proof (shares_test t idx b0 (k :: path) k Hwf Hidx Hb0 Hpath Hk) as Hsh.
    cbn [to_update_loop]. rewrite Hanc, Hpath, Hl'.
    destruct (all_same_as_parent_Some t (take_while (fun j => negb (j =? idx)) (k :: path))) as (r & Hr & Hiff).
    { intros j Hj. apply Hex. revert Hj. generalize (k :: path). intros q. induction q as [|y q IHq]; cbn; [done|].
      destruct (negb (y =? idx)); [|by intros ?%elem_of_nil]. rewrite !elem_of_cons. naive_solver. }
    rewrite <- Hiff in Hsh.
    assert (Hpush : exists push, (if bool_decide (idx ∈ k :: path)
        then all_same_as_parent t (take_while (fun j => negb (j =? idx)) (k :: path)) else Some false) = Some push /\
        (push = true <-> shares t idx k)).
    { rewrite Hr. case_bool_decide as E; [exists r|exists false]; (split; [done|]); rewrite <- Hsh; naive_solver. }
    destruct Hpush as (push & -> & Hp). destruct push.
    + exists (k :: l'). split; [done|]. split.
      * constructor; [|done]. rewrite Hin. naive_solver.
      * intros j. rewrite !elem_of_cons, Hin. naive_solver.
    + exists l'. split; [done|]. split; [done|]. intros j. rewrite elem_of_cons, Hin. naive_solver.
Qed.

End loops.

End invariant.
