(* ===== verification/AsyncTreeOps.v ===== *)
(** * The operations of the asynchronous tree

    Every operation keeps the invariant of AsyncTreeInv.v, and does not panic when
    its documented conditions hold; what starting, ending and failing an
    operation do to the states of the blocks. *)

From S2P Require Import Prelude BTree ForkTree ForkTreePrune ForkTreeFacts AsyncTree AsyncTreeInv.

Open Scope Z_scope.

Section preservation.
Context {TNow TBl TAsync : Type} `{Instant TNow}.

Abbreviation AsyncTree := (AsyncTree TNow TBl TAsync) (only parsing).
Abbreviation Block := (Block TNow TBl TAsync) (only parsing).
Implicit Types (t : ForkTree Block) (b : Block) (self : AsyncTree).

(** ** The states of the operations *)

Lemma finish_block_case id data b :
  (in_progress_with id b = true /\ finish_block id data b = set_async_op (Finished data false) b) \/
  (in_progress_with id b = false /\ finish_block id data b = b).
Proof. unfold finish_block. destruct (in_progress_with id b); auto. Qed.

Lemma in_progress_only id b :
  in_progress_with id b = true ->
  is_reported b = false /\ is_same b = false /\ is_pending b = false /\
  forall id', in_progress_with id' b = (id' =? id).
Proof.
  unfold in_progress_with, is_reported, is_same, is_pending.
  destruct (async_op b) as [|id0 to|]; [done| |done]. intros ->%Z.eqb_eq.
  split_and!; [done..|]. intros id'. apply Z.eqb_sym.
Qed.

Lemma finish_ops t t' id data next_id :
  (exists f, fork_rep t f) -> updates t t' (fun _ => finish_block id data) -> ops_inv t next_id -> ops_inv t' next_id.
Proof.
  intros Hwf Hup Hinv. pose proof Hinv as [O1 O2 O3 O4].
  assert (Hr : forall b, is_reported (finish_block id data b) = is_reported b).
  { intros b. destruct (finish_block_case id data b) as [[Hid ->]|[_ ->]]; [|done].
    apply in_progress_only in Hid as [-> _]. done. }
  assert (Hp : forall b, is_pending (finish_block id data b) = is_pending b).
  { intros b. destruct (finish_block_case id data b) as [[Hid ->]|[_ ->]]; [|done].
    apply in_progress_only in Hid as (_ & _ & -> & _). done. }
  eapply ops_updates; [done..| | | | |done]; cbn beta.
  - intros k p b bp Hpar Hb Hbp. rewrite !Hr. intros Hrb. destruct (O1 k p b Hpar Hb Hrb) as (? & ? & ?). congruence.
  - intros k b Hb Hs. destruct (finish_block_case id data b) as [[Hid E]|[_ E]]; rewrite E in Hs; [done|].
    destruct (O2 k b Hb Hs) as (p & bp & ?). exists p, bp. by rewrite Hp.
  - intros k b id' Hb Hid'. destruct (finish_block_case id data b) as [[Hid E]|[_ E]]; rewrite E in Hid'; [done|eauto].
  - intros id'. destruct (decide (id' = id)) as [->|Hne].
    + right. exists 0. intros k b Hb Hid'.
      destruct (finish_block_case id data b) as [[Hid E]|[Hid E]]; rewrite E in Hid'; [done|congruence].
    + left. intros k b Hb. destruct (finish_block_case id data b) as [[Hid ->]|[_ ->]]; [|done].
      apply in_progress_only in Hid as (_ & _ & _ & ->). apply Z.eqb_neq in Hne as ->. done.
Qed.

Lemma fail_block_case t id nt k b :
  (in_progress_with id b = true /\ exists to, fail_block t id nt k b = set_async_op (Pending (parent_in_progress t id k) (Some to)) b) \/
  (in_progress_with id b = false /\ fail_block t id nt k b = b).
Proof.
  unfold fail_block, in_progress_with. destruct (async_op b) as [|id' to|]; [by right| |by right].
  destruct (id' =? id); [left; eauto|by right].
Qed.

Lemma fail_ops t t' id nt next_id :
  (exists f, fork_rep t f) -> updates t t' (fail_block t id nt) -> ops_inv t next_id -> ops_inv t' next_id.
Proof.
  intros Hwf Hup Hinv. pose proof Hinv as [O1 O2 O3 O4].
  assert (Hr : forall k b, is_reported (fail_block t id nt k b) = is_reported b).
  { intros k b. destruct (fail_block_case t id nt k b) as [[Hid [to ->]]|[_ ->]]; [|done].
    apply in_progress_only in Hid as [-> _]. done. }
  assert (Hp : forall k b, is_pending b = true -> is_pending (fail_block t id nt k b) = true).
  { intros k b Hpb. destruct (fail_block_case t id nt k b) as [[Hid [to ->]]|[_ ->]]; done. }
  eapply ops_updates; [done..| | | | |done]; cbn beta.
  - intros k p b bp Hpar Hb Hbp. rewrite !Hr. intros Hrb. destruct (O1 k p b Hpar Hb Hrb) as (? & ? & ?). congruence.
  - intros k b Hb Hs. destruct (fail_block_case t id nt k b) as [[Hid [to E]]|[_ E]]; rewrite E in Hs.
    + unfold is_same in Hs. cbn in Hs. destruct (parent_in_progress t id k) eqn:Epp; [|done].
      unfold parent_in_progress in Epp. destruct (fork_parent t k) as [[p|]|]; [|done|done].
      destruct (fork_get t p) as [bp|] eqn:Ebp; [|done]. exists p, bp. split; [done|]. split; [done|].
      destruct (fail_block_case t id nt p bp) as [[_ [to' ->]]|[? _]]; [done|congruence].
    + destruct (O2 k b Hb Hs) as (p & bp & ? & ? & ?). exists p, bp. auto.
  - intros k b id' Hb Hid'. destruct (fail_block_case t id nt k b) as [[Hid [to E]]|[_ E]]; rewrite E in Hid'; [done|eauto].
  - intros id'. destruct (decide (id' = id)) as [->|Hne].
    + right. exists 0. intros k b Hb Hid'.
      destruct (fail_block_case t id nt k b) as [[Hid [to E]]|[Hid E]]; rewrite E in Hid'; [done|congruence].
    + left. intros k b Hb. destruct (fail_block_case t id nt k b) as [[Hid [to ->]]|[_ ->]]; [|done].
      apply in_progress_only in Hid as (_ & _ & _ & ->). apply Z.eqb_neq in Hne as ->. done.
Qed.

(** The change made by [start_necessary_async_op]. *)
Definition start_block (S : Z -> Prop) `{!forall k, Decision (S k)} (id : AsyncOpId) (k : NodeIndex) b : Block :=
  if decide (S k) then set_async_op (InProgress id None) b else b.

Lemma shares_pending t next_id idx k b0 b :
  ops_inv t next_id -> fork_get t idx = Some b0 -> is_pending b0 = true -> shares t idx k ->
  fork_get t k = Some b -> is_pending b = true.
Proof.
  intros Hinv Hb0 Hp0 Hsh Hb. destruct Hsh as [|k p b' Hpar Hb' Hs Hsh]; [congruence|].
  assert (b' = b) as -> by congruence. unfold is_same, is_pending in *. by destruct (async_op b) as [| |[]].
Qed.

Lemma start_ops t t' idx b0 (S : Z -> Prop) `{!forall k, Decision (S k)} next_id :
  (exists f, fork_rep t f) -> (forall k, S k <-> shares t idx k) ->
  fork_get t idx = Some b0 -> is_pending b0 = true -> is_same b0 = false -> 0 <= next_id ->
  updates t t' (start_block S next_id) -> ops_inv t next_id -> ops_inv t' (next_id + 1).
Proof.
  intros Hwf HS Hb0 Hp0 Hs0 Hnext Hup Hinv. pose proof Hinv as [O1 O2 O3 O4].
  assert (Hold : forall k b, fork_get t k = Some b -> S k ->
    is_pending b = true /\ is_reported b = false /\ forall id, in_progress_with id b = false).
  { intros k b Hb Hk%HS. pose proof (shares_pending _ _ _ _ _ _ Hinv Hb0 Hp0 Hk Hb) as Hp.
    unfold is_pending, is_reported, in_progress_with in *. by destruct (async_op b). }
  assert (Hr : forall k b, fork_get t k = Some b -> is_reported (start_block S next_id k b) = is_reported b).
  { intros k b Hb. unfold start_block. case_decide as E; [|done]. by destruct (Hold k b Hb E) as (_ & -> & _). }
  eapply ops_updates; [done..| | | | |done]; cbn beta.
  - intros k p b bp Hpar Hb Hbp. rewrite !Hr by done. intros Hrb. destruct (O1 k p b Hpar Hb Hrb) as (? & ? & ?). congruence.
  - intros k b Hb. unfold start_block at 1. case_decide as E; [done|]. intros Hs.
    destruct (O2 k b Hb Hs) as (p & bp & Hpar & Hbp & Hpb). exists p, bp. split; [done|]. split; [done|].
    unfold start_block. rewrite decide_False; [done|]. intros HSp%HS. apply E, HS. by eapply shares_child.
  - intros k b id Hb. unfold start_block. case_decide as E; intros Hid.
    + unfold in_progress_with in Hid. cbn in Hid. apply Z.eqb_eq in Hid as <-. lia.
    + specialize (O3 k b id Hb Hid). lia.
  - intros id. destruct (decide (id = next_id)) as [->|Hne].
    + right. exists idx. intros k b Hb. unfold start_block at 1. case_decide as E; intros Hid Hk.
      * apply HS in E. destruct E as [|k p b' Hpar Hb' Hs' Hsh]; [done|]. destruct (shares_get _ _ _ Hsh) as [bp Hbp].
        exists p, bp. split; [done|]. split; [done|]. unfold start_block. rewrite decide_True by (by apply HS).
        unfold in_progress_with. cbn. apply Z.eqb_refl.
      * specialize (O3 k b next_id Hb Hid). lia.
    + left. intros k b Hb. unfold start_block. case_decide as E; [|done].
      destruct (Hold k b Hb E) as (_ & _ & ->). unfold in_progress_with. cbn. by apply Z.eqb_neq.
Qed.

(** A block becomes reported after its parent. *)
Lemma report_ops t t' i b0 data next_id :
  (exists f, fork_rep t f) -> fork_get t i = Some b0 -> async_op b0 = Finished data false ->
  (forall p bp, fork_parent t i = Some (Some p) -> fork_get t p = Some bp -> is_reported bp = true) ->
  updates t t' (fun k b => if decide (k = i) then set_async_op (Finished data true) b else b) ->
  ops_inv t next_id -> ops_inv t' next_id.
Proof.
  intros Hwf Hb0 Hop Hpar0 Hup Hinv. pose proof Hinv as [O1 O2 O3 O4].
  assert (Hi : forall k b, fork_get t k = Some b -> k = i -> b = b0) by (intros; subst; congruence).
  eapply ops_updates; [done..| | | | |done]; cbn beta.
  - intros k p b bp Hpar Hb Hbp. destruct (decide (p = i)) as [|Hpi]; [done|].
    destruct (decide (k = i)) as [->|Hki]; [eauto|]. intros Hr. destruct (O1 k p b Hpar Hb Hr) as (? & ? & ?). congruence.
  - intros k b Hb. case_decide as E; [done|]. intros Hs. destruct (O2 k b Hb Hs) as (p & bp & Hpar & Hbp & Hpb).
    exists p, bp. split; [done|]. split; [done|]. case_decide as Epi; [|done].
    rewrite (Hi p bp Hbp Epi) in Hpb. unfold is_pending in Hpb. by rewrite Hop in Hpb.
  - intros k b id Hb. case_decide; [done|eauto].
  - intros id. left. intros k b Hb. case_decide as E; [|done]. rewrite (Hi k b Hb E). unfold in_progress_with.
    by rewrite Hop.
Qed.

(** Pruning keeps whole operations. *)
Lemma prune_ops t t' x b0 next_id :
  pruned_to t t' x -> fork_get t x = Some b0 -> is_reported b0 = true -> ops_inv t next_id -> ops_inv t' next_id.
Proof.
  intros Hpr Hb0 Hr0 [O1 O2 O3 O4].
  assert (Hx : is_pending b0 = false /\ forall id, in_progress_with id b0 = false).
  { unfold is_reported, is_pending, in_progress_with in *. by destruct (async_op b0). }
  assert (Hroot : forall id k, op_root t' id k -> op_root t id k).
  { intros id k [(b & Hb & Hid) Hpar]. destruct (pr_parent _ _ _ Hpr k) as [[Hp Hp']|(p & Hpx & Hp & Hp')]; [eauto| |].
    - apply (pr_get _ _ _ Hpr) in Hb as [Hb _]. split; [eauto|]. intros p bp Hpk Hbp.
      assert (p = x) as -> by congruence. assert (bp = b0) as -> by congruence. apply Hx.
    - split; [apply (pr_get _ _ _ Hpr) in Hb as [Hb _]; eauto|]. intros q bq Hq Hbq.
      assert (q = p) as -> by congruence.
      destruct (pr_rep _ _ _ Hpr) as [f' Hf']. destruct (fork_parent_get _ _ _ _ Hf' Hp') as [bp Hbp].
      pose proof Hbp as [Hbp' _]%(pr_get _ _ _ Hpr). assert (bq = bp) as -> by congruence. eauto. }
  split.
  - intros k p b Hp Hb Hr. destruct (pr_rep _ _ _ Hpr) as [f' Hf']. destruct (fork_parent_get _ _ _ _ Hf' Hp) as [bp Hbp].
    exists bp. split; [done|]. apply (pr_get _ _ _ Hpr) in Hbp as [Hbp _].
    destruct (pr_parent _ _ _ Hpr k) as [[_ Hp']|(q & _ & Hq & Hq')]; [eauto|congruence|].
    assert (q = p) as -> by congruence. apply (pr_get _ _ _ Hpr) in Hb as [Hb _].
    destruct (O1 k p b Hq Hb Hr) as (? & ? & ?). congruence.
  - intros k b Hb Hs. pose proof Hb as [Hb' _]%(pr_get _ _ _ Hpr).
    destruct (O2 k b Hb' Hs) as (p & bp & Hpar & Hbp & Hpb).
    destruct (pr_parent _ _ _ Hpr k) as [[Hp Hp']|(q & _ & Hq & Hq')]; [eauto| |].
    + assert (p = x) as -> by congruence. assert (bp = b0) as -> by congruence. destruct Hx. congruence.
    + assert (q = p) as -> by congruence. exists p, bp. split; [done|]. split; [|done].
      destruct (pr_rep _ _ _ Hpr) as [f' Hf']. destruct (fork_parent_get _ _ _ _ Hf' Hq') as [bp' Hbp'].
      pose proof Hbp' as [? _]%(pr_get _ _ _ Hpr). congruence.
  - intros k b id [Hb _]%(pr_get _ _ _ Hpr). eauto.
  - intros id k k' ?%Hroot ?%Hroot. eauto.
Qed.

(** ** Insertion *)

Lemma insert_ops t t' new par d next_id :
  inserted t t' new par d -> (exists f, fork_rep t f) -> ops_inv t next_id ->
  is_reported d = false ->
  (is_same d = true -> exists p bp, par = Some p /\ fork_get t p = Some bp /\ is_pending bp = true) ->
  (forall id, in_progress_with id d = true ->
     exists p bp, par = Some p /\ fork_get t p = Some bp /\ in_progress_with id bp = true) ->
  ops_inv t' next_id.
Proof.
  intros [Hrep Hnew Hpar Hget Hpar'] [f Hf] [O1 O2 O3 O4] Hr Hs Hid.
  assert (Hold : forall k b, fork_get t k = Some b -> fork_get t' k = Some b).
  { intros k b Hb. rewrite Hget. case_decide; [congruence|done]. }
  assert (Hroot : forall id k, op_root t' id k -> op_root t id k).
  { intros id k [(b & Hb & Hidb) Hpk]. rewrite Hget in Hb. setoid_rewrite Hpar' in Hpk. case_decide as E.
    - injection Hb as <-. destruct (Hid id Hidb) as (p & bp & -> & Hbp & Hidp). rewrite (Hpk p bp) in Hidp; auto. done.
    - split; [eauto|]. intros p bp Hp Hbp. eapply Hpk; [done|]. auto. }
  split.
  - intros k p b. rewrite Hpar', Hget. case_decide as E; [intros _ [= <-]; congruence|]. intros Hp Hb Hrb.
    destruct (O1 k p b Hp Hb Hrb) as (bp & ? & ?). exists bp. auto.
  - intros k b. rewrite Hget, Hpar'. case_decide as E.
    + intros [= <-] Hsb. destruct (Hs Hsb) as (p & bp & -> & ? & ?). exists p, bp. auto.
    + intros Hb Hsb. destruct (O2 k b Hb Hsb) as (p & bp & ? & ? & ?). exists p, bp. auto.
  - intros k b id. rewrite Hget. case_decide as E; [|eauto].
    intros [= <-] Hidb. destruct (Hid id Hidb) as (p & bp & _ & Hbp & Hidp). eauto.
  - intros id k k' ?%Hroot ?%Hroot. eauto.
Qed.

(** ** Weights *)

Lemma insert_weights t t' new par d nw nw' fw :
  inserted t t' new par d -> weights_inv t nw fw ->
  (input_best_block_weight d = 0 /\ nw' = nw) \/ (input_best_block_weight d = nw /\ nw' = nw + 1) ->
  weights_inv t' nw' fw.
Proof.
  intros [_ Hnew _ Hget _] [W1 W2 W3 W4] Hd. split; [| |lia|].
  - intros k b. rewrite Hget. case_decide; [intros [= <-]; lia|]. intros Hb%W1. lia.
  - intros k k' b b'. rewrite !Hget. case_decide; case_decide; subst; [done| | |eauto].
    + intros [= <-] Hb'%W1. lia.
    + intros Hb%W1 [= <-]. lia.
  - intros k b. rewrite Hget. case_decide; [intros [= <-]; lia|]. eauto.
Qed.

Lemma set_weight_weights t t' i nw fw :
  updates t t' (fun k b => if decide (k = i) then set_weight nw b else b) ->
  weights_inv t nw fw -> weights_inv t' (nw + 1) fw.
Proof.
  intros Hup [W1 W2 W3 W4]. split; [| |lia|].
  - intros k b' (b & Hb & ->)%(updates_inv _ _ _ _ _ Hup). apply W1 in Hb. case_decide; cbn; lia.
  - intros k k' b1 b2 (c1 & H1 & ->)%(updates_inv _ _ _ _ _ Hup) (c2 & H2 & ->)%(updates_inv _ _ _ _ _ Hup).
    pose proof (W1 k c1 H1). pose proof (W1 k' c2 H2).
    case_decide; case_decide; cbn; subst; [done|lia|lia|eauto].
  - intros k b' (b & Hb & ->)%(updates_inv _ _ _ _ _ Hup). case_decide; cbn; [lia|eauto].
Qed.

Lemma prune_weights t t' x b0 nw fw :
  pruned_to t t' x -> fork_get t x = Some b0 -> weights_inv t nw fw ->
  weights_inv t' nw (input_best_block_weight b0).
Proof.
  intros Hpr Hb0 [W1 W2 W3 W4]. split.
  - intros k b [Hb _]%(pr_get _ _ _ Hpr). eauto.
  - intros k k' b b' [Hb _]%(pr_get _ _ _ Hpr) [Hb' _]%(pr_get _ _ _ Hpr). eauto.
  - eauto.
  - intros k b (Hb & _ & Hne)%(pr_get _ _ _ Hpr) Hw.
    destruct (decide (input_best_block_weight b0 = 0)) as [|Hnz]; [done|]. destruct Hne. symmetry. eapply W2; eauto.
Qed.

End preservation.

(** ** Operations *)

Section operations.
Context {TNow TBl TAsync : Type} `{Instant TNow} `{Platform}.

Abbreviation AsyncTree := (AsyncTree TNow TBl TAsync) (only parsing).
Abbreviation Block := (Block TNow TBl TAsync) (only parsing).
Implicit Types (b : Block) (self : AsyncTree).

Lemma inv_new (config : Config TAsync) : async_inv (AsyncTree_new (TNow := TNow) (TBl := TBl) config).
Proof.
  split; cbn; [| |split|split| | | |]; try done; try lia.
  - exists FNil. split; [done|done|constructor|]. intros k. cbn. rewrite lookup_empty. split; [by intros ?%elem_of_nil|by intros []].
  - intros id k k' [(b & Hb & _) _]. done.
Qed.

(** A change of the blocks keeps what the other parts of the state rely on. *)
Lemma inv_updates self self' g :
  async_inv self -> updates (non_finalized_blocks self) (non_finalized_blocks self') g ->
  (forall k b, fork_get (non_finalized_blocks self) k = Some b -> is_reported b = true -> is_reported (g k b) = true) ->
  ops_inv (non_finalized_blocks self') (next_async_op_id self') ->
  weights_inv (non_finalized_blocks self') (input_best_block_next_weight self') (finalized_block_weight self') ->
  best_block_index self' = best_block_index self -> 
  (input_finalized_index self' = input_finalized_index self \/
   forall k, input_finalized_index self' = Some k -> is_Some (fork_get (non_finalized_blocks self) k)) ->
  2 <= input_best_block_next_weight self' < 2 ^ 32 -> 0 <= next_async_op_id self' < 2 ^ 64 ->
  async_inv self'.
Proof.
  intros [A1 A2 A3 A4 A5 A6 A7 A8] Hup Hr Hops Hw Hbest Hfin Hnw Hnid. split; [|..|done|done].
  - by eapply updates_wf.
  - by apply (updates_nodes _ _ _ _ Hup).
  - done.
  - done.
  - intros k Hk. rewrite Hbest in Hk. destruct (A5 k Hk) as (b & Hb & Hrb). exists (g k b).
    split; [by eapply updates_fwd|eauto].
  - intros k Hk. apply (updates_some _ _ _ _ Hup). destruct Hfin as [Hfin|Hfin]; [rewrite Hfin in Hk|]; auto.
Qed.

Lemma inv_async_op_finished self id data :
  async_inv self -> exists l self', async_op_finished self id data = Some (l, self') /\ async_inv self' /\
    updates (non_finalized_blocks self) (non_finalized_blocks self') (fun _ => finish_block id data).
Proof.
  intros Hinv. pose proof Hinv as [A1 A2 A3 A4 A5 A6 A7 A8].
  destruct (async_op_finished_updates self id data A1) as (l & t' & -> & Hup & _). eexists l, _. split; [done|].
  split; [|done]. apply (inv_updates self _ (fun _ => finish_block id data)); try done; [| | |by left].
  - intros k b Hb Hr. destruct (finish_block_case id data b) as [[Hid _]|[_ ->]]; [|done].
    apply in_progress_only in Hid as [? _]. congruence.
  - by eapply finish_ops.
  - eapply weights_updates; [done| |done]. intros ? b. cbn. by destruct (finish_block_case id data b) as [[_ ->]|[_ ->]].
Qed.

Lemma inv_async_op_failure self id now :
  async_inv self -> exists self', async_op_failure self id now = Some self' /\ async_inv self' /\
    updates (non_finalized_blocks self) (non_finalized_blocks self')
      (fail_block (non_finalized_blocks self) id (instant_add now (retry_after_failed self))).
Proof.
  intros Hinv. pose proof Hinv as [A1 A2 A3 A4 A5 A6 A7 A8].
  destruct (async_op_failure_updates self id now A1) as (t' & -> & Hup). eexists. split; [done|]. split; [|done].
  set (T := non_finalized_blocks self) in *. set (nt := instant_add now (retry_after_failed self)) in *.
  apply (inv_updates self _ (fail_block T id nt)); try done; [| | |by left].
  - intros k b Hb Hr. destruct (fail_block_case T id nt k b) as [[Hid _]|[_ ->]]; [|done].
    apply in_progress_only in Hid as [? _]. congruence.
  - by eapply fail_ops.
  - eapply weights_updates; [done| |done]. intros k b. by destruct (fail_block_case T id nt k b) as [[_ [? ->]]|[_ ->]].
Qed.

(** *** Input *)

Lemma inv_update_weight self k fin :
  async_inv self -> is_Some (fork_get (non_finalized_blocks self) k) ->
  (forall x, fin = Some x -> is_Some (fork_get (non_finalized_blocks self) x)) ->
  input_best_block_next_weight self + 1 < 2 ^ 32 ->
  exists self', update_weight (with_input_finalized fin self) k = Some self' /\ async_inv self' /\
    (exists nw, updates (non_finalized_blocks self) (non_finalized_blocks self')
       (fun j b => if decide (j = k) then set_weight nw b else b)) /\
    input_finalized_index self' = fin /\ best_block_index self' = best_block_index self /\
    finalized_async_user_data self' = finalized_async_user_data self /\
    (forall j b, fork_get (non_finalized_blocks self') j = Some b ->
       j = k <-> input_best_block_weight b = input_best_block_next_weight self' - 1).
Proof.
  intros Hinv [b Hb] Hfin Hnw. pose proof Hinv as [A1 A2 A3 A4 A5 A6 A7 A8].
  unfold update_weight. cbn [with_input_finalized non_finalized_blocks input_best_block_next_weight].
  rewrite Hb. unfold wsub, wadd. rewrite !wrap_small by (unfold_uint; lia).
  destruct (Z.eqb_spec (input_best_block_weight b) (input_best_block_next_weight self - 1)) as [Hw|Hw].
  - eexists. split; [done|]. split; [|split_and!; try done].
    + apply (inv_updates self _ (fun _ b => b)); try done; [|by right]. apply updates_refl. done.
    + exists (input_best_block_weight b). apply updates_refl. intros j c Hc. destruct (decide (j = k)) as [->|]; [|done].
      change (fork_get (non_finalized_blocks self) k = Some c) in Hc.
      assert (c = b) as -> by congruence. by destruct b.
    + cbn [with_input_finalized non_finalized_blocks input_best_block_next_weight].
      intros j c Hc. split; [intros ->; congruence|]. intros Hwc. eapply (wi_unique _ _ _ A4); eauto; lia.
  - destruct (updates_get_mut (non_finalized_blocks self) k (set_weight (input_best_block_next_weight self)) A1 (ex_intro _ b Hb))
      as (t' & -> & Hup). eexists. split; [done|]. split; [|split_and!; eauto].
    + apply (inv_updates self _ (fun j b => if decide (j = k) then set_weight (input_best_block_next_weight self) b else b));
        try done; cbn beta.
      * intros j c _ Hr. by case_decide.
      * eapply ops_updates_same; [done| |done|done]. intros j c. cbn beta. by case_decide.
      * by eapply set_weight_weights.
      * by right.
      * cbn. lia.
    + cbn [with_input_finalized with_next_weight with_blocks non_finalized_blocks input_best_block_next_weight].
      intros j c' (c & Hc & ->)%(updates_inv _ _ _ _ _ Hup). apply (wi_range _ _ _ A4) in Hc.
      case_decide; cbn; split; intros; (done || lia).
Qed.

Lemma inv_input_insert_block self new block par same best :
  async_inv self -> fork_get (non_finalized_blocks self) new = None -> new <> 2 ^ usize_bits - 1 ->
  (forall p, par = Some p -> is_Some (fork_get (non_finalized_blocks self) p)) ->
  input_best_block_next_weight self + 1 < 2 ^ 32 ->
  exists self' d, input_insert_block self new block par same best = Some (new, self') /\ async_inv self' /\
    inserted (non_finalized_blocks self) (non_finalized_blocks self') new par d /\
    user_data d = block /\ is_reported d = false /\
    input_finalized_index self' = input_finalized_index self /\ best_block_index self' = best_block_index self /\
    finalized_async_user_data self' = finalized_async_user_data self.
Proof.
  intros Hinv Hnew Hmax Hpar Hnw. pose proof Hinv as [A1 A2 A3 A4 A5 A6 A7 A8]. set (T := non_finalized_blocks self) in *.
  set (weight := if best then input_best_block_next_weight self else 0).
  set (self1 := if best then with_next_weight (input_best_block_next_weight self + 1) self else self).
  assert (Hop : exists op, inserted_async_op self same par = Some op /\ is_reported (mkBlock block op weight) = false /\
      (is_same (mkBlock block op weight) = true -> exists p bp, par = Some p /\ fork_get T p = Some bp /\ is_pending bp = true) /\
      (forall id, in_progress_with id (mkBlock block op weight) = true ->
         exists p bp, par = Some p /\ fork_get T p = Some bp /\ in_progress_with id bp = true)).
  { unfold inserted_async_op. destruct same; [destruct par as [p|]|].
    - fold T. destruct (Hpar p eq_refl) as [bp Hbp]. rewrite Hbp. eexists. split; [done|].
      unfold is_reported, is_same, is_pending, in_progress_with. cbn.
      destruct (async_op bp) eqn:Eb; (split; [done|]); (split; [try done|]); try done.
      + intros id Hid. exists p, bp. by rewrite Eb.
      + intros _. exists p, bp. by rewrite Eb.
    - by eexists.
    - by eexists. }
  destruct Hop as (op & Hop & Hr & Hs & Hid).
  destruct (fork_insert_inserted T new par (mkBlock block op weight) A1 Hnew Hpar) as (t' & Ht' & Hins).
  exists (with_blocks t' self1), (mkBlock block op weight).
  split.
  { unfold input_insert_block, wadd. rewrite wrap_small by (unfold_uint; lia).
    unfold weight, self1 in *. destruct best; cbv beta iota zeta.
    - change (inserted_async_op (with_next_weight _ self) same par) with (inserted_async_op self same par).
      rewrite Hop. change (non_finalized_blocks (with_next_weight _ self)) with T. by rewrite Ht'.
    - rewrite Hop. fold T. by rewrite Ht'. }
  pose proof (in_get _ _ _ _ _ Hins) as Hget.
  assert (Hkeep : forall k c, fork_get T k = Some c -> fork_get t' k = Some c).
  { intros k c Hc. rewrite Hget. case_decide; [congruence|done]. }
  split; [|split_and!; try done; by destruct best].
  split; cbn [with_blocks non_finalized_blocks].
  - apply (in_rep _ _ _ _ _ Hins).
  - apply fork_get_None. rewrite Hget, decide_False by done. by apply fork_get_None.
  - replace (next_async_op_id (with_blocks t' self1)) with (next_async_op_id self) by (by destruct best).
    by eapply insert_ops.
  - replace (finalized_block_weight (with_blocks t' self1)) with (finalized_block_weight self) by (by destruct best).
    eapply insert_weights; [done|apply A4|]. unfold weight, self1. destruct best; cbn; auto.
  - replace (best_block_index (with_blocks t' self1)) with (best_block_index self) by (by destruct best).
    intros k (b & Hb & Hrb)%A5. eauto.
  - replace (input_finalized_index (with_blocks t' self1)) with (input_finalized_index self) by (by destruct best).
    intros k [b Hb]%A6. eauto.
  - unfold self1. destruct best; cbn; lia.
  - unfold self1. destruct best; cbn; lia.
Qed.

(** *** Starting operations *)

(** The operation of the block can start now. *)
Definition startable self (now : TNow) (k : NodeIndex) : Prop :=
  exists b timeout, fork_get (non_finalized_blocks self) k = Some b /\ async_op b = Pending false timeout /\
    match timeout with Some t => key_le t now | None => True end.

(** The moment at which the operation of a block can start, if it is to start
    and has to wait. *)
Definition waiting b : option TNow := match async_op b with Pending false timeout => timeout | _ => None end.

(** The operation [id] of [k] has started. *)
Record started self self' (k : NodeIndex) (id : AsyncOpId) : Prop := {
  st_shares : forall j, shares (non_finalized_blocks self) k j ->
    fork_get (non_finalized_blocks self') j =
      set_async_op (InProgress id None) <$> fork_get (non_finalized_blocks self) j;
  st_others : forall j, ~ shares (non_finalized_blocks self) k j ->
    fork_get (non_finalized_blocks self') j = fork_get (non_finalized_blocks self) j;
  st_state : exists t' g, self' = with_blocks t' (with_next_id (id + 1) self) /\
    updates (non_finalized_blocks self) t' g /\
    forall j b, fork_get (non_finalized_blocks self) j = Some b ->
      g j b = b \/ (is_pending b = true /\ g j b = set_async_op (InProgress id None) b)
}.

Lemma in_progress_loop_updates (t : ForkTree Block) l id :
  (exists f, fork_rep t f) -> NoDup l -> (forall k, k ∈ l -> is_Some (fork_get t k)) ->
  exists t', in_progress_loop t l id = Some t' /\ updates t t' (start_block (fun k => k ∈ l) id).
Proof.
  intros Hwf Hnd Hall.
  by apply (updates_loop (fun t l => in_progress_loop t l id) (set_async_op (InProgress id None))).
Qed.

Lemma start_spec self now k b :
  async_inv self -> fork_get (non_finalized_blocks self) k = Some b -> next_async_op_id self + 1 < 2 ^ 64 ->
  (startable self now k /\ exists self', start_necessary_async_op self k now = Some (IReady (next_async_op_id self) k, self') /\
     async_inv self' /\ started self self' k (next_async_op_id self)) \/
  (~ startable self now k /\ start_necessary_async_op self k now = Some (INotReady (waiting b), self)).
Proof.
  intros Hinv Hb Hid. pose proof Hinv as [A1 A2 A3 A4 A5 A6 A7 A8]. set (T := non_finalized_blocks self) in *.
  assert (Hno : (forall to, async_op b = Pending false to -> exists t, to = Some t /\ ~ key_le t now) -> ~ startable self now k).
  { intros Hto (b' & to & Hb' & Hop & Hle). fold T in Hb'. assert (b' = b) as -> by congruence.
    destruct (Hto to Hop) as (t & -> & ?). done. }
  unfold start_necessary_async_op, waiting. fold T. rewrite Hb.
  destruct (async_op b) as [data rep|id to|[] to] eqn:Eb.
  1,2,3: right; split; [by apply Hno|done].
  destruct (match to with Some t => bool_decide (key_le t now) | None => true end) eqn:Eto.
  2: { right. split; [|done]. apply Hno. intros to' [= <-]. destruct to as [t|]; [|done].
       exists t. split; [done|]. by apply bool_decide_eq_false in Eto. }
  left. split. { exists b, to. split; [done|]. split; [done|]. destruct to; [by apply bool_decide_eq_true in Eto|done]. }
  unfold wadd. rewrite wrap_small by (unfold_uint; lia). cbn [with_next_id non_finalized_blocks]. fold T.
  assert (Hs : is_same b = false) by (unfold is_same; by rewrite Eb).
  destruct (to_update_loop_spec T k b (iter_unordered T).*1 A1 Hb Hs) as (l & -> & Hnd & Hl).
  { apply iter_keys_NoDup. } { intros j. apply elem_of_iter_keys. }
  assert (HS : forall j, j ∈ l <-> shares T k j).
  { intros j. rewrite Hl, elem_of_iter_keys. split; [by intros [_ ?]|]. intros Hj. split; [by eapply shares_get|done]. }
  destruct (in_progress_loop_updates T l (next_async_op_id self) A1 Hnd) as (t' & -> & Hup).
  { intros j Hj%HS. by eapply shares_get. }
  eexists. split; [done|]. assert (Hp : is_pending b = true) by (unfold is_pending; by rewrite Eb). split.
  - apply (inv_updates self _ (start_block (fun k => k ∈ l) (next_async_op_id self))); try done; [| | |by left|cbn; lia].
    + intros j c Hc Hr. unfold start_block. case_decide as Ej; [|done]. exfalso.
      pose proof (shares_pending _ _ _ _ _ _ A3 Hb Hp (proj1 (HS j) Ej) Hc) as Hpj.
      unfold is_pending, is_reported in *. by destruct (async_op c).
    + cbn. eapply start_ops; [done|exact HS|done|done|done|lia|done|done].
    + eapply weights_updates; [done| |done]. intros j c. unfold start_block. by case_decide.
  - split.
    + intros j Hj. cbn [with_blocks non_finalized_blocks]. rewrite (up_get _ _ _ Hup). fold T.
      destruct (fork_get T j); [|done]. cbn. unfold start_block. by rewrite decide_True by (by apply HS).
    + intros j Hj. cbn [with_blocks non_finalized_blocks]. rewrite (up_get _ _ _ Hup). fold T.
      destruct (fork_get T j); [|done]. cbn. unfold start_block. rewrite decide_False; [done|]. by rewrite HS.
    + exists t', (start_block (fun k => k ∈ l) (next_async_op_id self)). split; [done|]. split; [done|].
      intros j c Hc. unfold start_block. case_decide as Ej; [right|by left]. split; [|done].
      by eapply (shares_pending _ _ _ _ _ _ A3 Hb Hp); [apply HS|].
Qed.

(** The answer [Ready]. *)
Definition is_ready self now (idx : NodeIndex) (r : NextNecessaryAsyncOp TNow TBl) self' : Prop :=
  startable self now idx /\ async_inv self' /\ started self self' idx (next_async_op_id self) /\
  exists b, fork_get (non_finalized_blocks self) idx = Some b /\ r = Ready (mkParams (next_async_op_id self) idx (user_data b)).

Lemma attempt_spec self now idx when next b :
  async_inv self -> fork_get (non_finalized_blocks self) idx = Some b -> next_async_op_id self + 1 < 2 ^ 64 ->
  (exists r self', attempt self idx now when next = Some (r, self') /\ is_ready self now idx r self') \/
  (~ startable self now idx /\ attempt self idx now when next = next self (merge_when (waiting b) when)).
Proof.
  intros Hinv Hb Hid. unfold attempt. destruct (start_spec self now idx b Hinv Hb Hid) as [(Hst & self' & -> & Hinv' & Hs)|[Hst ->]].
  - left. rewrite (st_shares _ _ _ _ Hs) by (constructor; eauto). rewrite Hb. cbn. eexists _, _. split; [done|].
    split; [done|]. split; [done|]. split; [done|]. by exists b.
  - right. done.
Qed.

(** *** The order of the attempts *)

Lemma instant_min_spec (a b : TNow) :
  key_le (instant_min a b) a /\ key_le (instant_min a b) b /\ (instant_min a b = a \/ instant_min a b = b).
Proof.
  assert (Hrefl : forall x : TNow, key_le x x) by (intros x; by destruct (total key_le x x)).
  unfold instant_min. case_decide as E; [by auto|]. destruct (total key_le a b); [done|auto].
Qed.

(** [when] is the first of the moments that the blocks [seen] wait for. *)
Definition when_ok self (seen : list NodeIndex) (when : option TNow) : Prop :=
  (forall t, when = Some t -> exists k b, fork_get (non_finalized_blocks self) k = Some b /\ waiting b = Some t) /\
  (forall k b t, k ∈ seen -> fork_get (non_finalized_blocks self) k = Some b -> waiting b = Some t ->
     exists t0, when = Some t0 /\ key_le t0 t).

Lemma when_ok_merge self seen when k b :
  when_ok self seen when -> fork_get (non_finalized_blocks self) k = Some b ->
  when_ok self (seen ++ [k]) (merge_when (waiting b) when).
Proof.
  intros [W1 W2] Hb.
  assert (Hcase : (forall t, merge_when (waiting b) when = Some t -> when = Some t \/ waiting b = Some t) /\
    (forall t, when = Some t \/ waiting b = Some t -> exists t0, merge_when (waiting b) when = Some t0 /\ key_le t0 t)).
  { assert (Hrefl : forall x : TNow, key_le x x) by (intros x; by destruct (total key_le x x)).
    destruct (waiting b) as [a|], when as [w|]; cbn; [|naive_solver..].
    destruct (instant_min_spec a w) as (L1 & L2 & Hor). split.
    - intros t [= <-]. destruct Hor as [-> | ->]; auto.
    - intros t [[= <-]|[= <-]]; eauto. }
  destruct Hcase as [C1 C2]. split.
  - intros t [Hw|Hw]%C1; eauto.
  - intros j c t [Hj|Hj]%elem_of_app Hc Hw.
    + destruct (W2 j c t Hj Hc Hw) as (t0 & Ht0 & Hle). destruct (C2 t0 (or_introl Ht0)) as (t1 & ? & ?).
      exists t1. split; [done|]. by transitivity t0.
    + apply list_elem_of_singleton in Hj as ->. apply C2. right. congruence.
Qed.

Lemma others_loop_spec self now : async_inv self -> next_async_op_id self + 1 < 2 ^ 64 ->
  forall l seen when, (forall k, k ∈ l -> is_Some (fork_get (non_finalized_blocks self) k)) -> when_ok self seen when ->
  (exists r self' idx, others_loop l self now when = Some (r, self') /\ is_ready self now idx r self') \/
  (exists when', others_loop l self now when = Some (NotReady when', self) /\ when_ok self (seen ++ l) when' /\
     forall k, k ∈ l -> ~ startable self now k).
Proof.
  intros Hinv Hid. induction l as [|k l IH]; intros seen when Hall Hok.
  - right. exists when. rewrite app_nil_r. split; [done|]. split; [done|]. intros k Hk. by apply elem_of_nil in Hk.
  - destruct (Hall k) as [b Hb]; [by left|]. cbn [others_loop].
    destruct (attempt_spec self now k when (fun self when => others_loop l self now when) b Hinv Hb Hid)
      as [(r & self' & -> & Hr)|[Hno ->]]; [left; eauto|].
    destruct (IH (seen ++ [k]) (merge_when (waiting b) when)) as [Hready|(when' & -> & Hok' & Hnone)].
    + intros j Hj. apply Hall. by right.
    + by apply when_ok_merge.
    + by left.
    + right. exists when'. rewrite <- app_assoc in Hok'. split; [done|]. split; [done|].
      intros j [->|Hj]%elem_of_cons; auto.
Qed.

(** The block of highest weight is the best block of the input. *)
Definition heaviest self (x : NodeIndex) : Prop :=
  exists bx, fork_get (non_finalized_blocks self) x = Some bx /\
    forall k b, fork_get (non_finalized_blocks self) k = Some b -> k <> x ->
      input_best_block_weight b < input_best_block_weight bx.

Lemma max_by_weight_spec (l : list (NodeIndex * Block)) : forall max,
  match max_by_weight l max with
  | None => max = None /\ l = []
  | Some y => (y ∈ l \/ max = Some y) /\
      (forall x, x ∈ l \/ max = Some x -> input_best_block_weight (snd x) <= input_best_block_weight (snd y))
  end.
Proof.
  induction l as [|x l IH]; intros max; cbn.
  - destruct max as [y|]; [|done]. split; [by right|]. intros x [Hx%elem_of_nil|[= <-]]; [done|lia].
  - set (max' := match max with None => Some x | Some y => _ end).
    specialize (IH max'). destruct (max_by_weight l max') as [y|].
    + destruct IH as [Hy Hmax]. split.
      * destruct Hy as [Hy|Hy]; [left; by right|]. unfold max' in Hy. destruct max as [y0|]; [|injection Hy as <-; left; by left].
        destruct (_ <=? _); injection Hy as <-; [left; by left|by right].
      * intros z Hz.
        assert (Hm : exists m, max' = Some m /\ input_best_block_weight (snd x) <= input_best_block_weight (snd m) /\
          forall z, max = Some z -> input_best_block_weight (snd z) <= input_best_block_weight (snd m)).
        { unfold max'. destruct max as [y0|]; [|exists x; naive_solver lia].
          destruct (Z.leb_spec (input_best_block_weight (snd y0)) (input_best_block_weight (snd x)));
            eexists; (split; [done|]); (split; [lia|]); intros ? [= <-]; lia. }
        destruct Hm as (m & Hm & Hxm & Hzm). pose proof (Hmax m (or_intror Hm)).
        destruct Hz as [[->|Hz]%elem_of_cons|Hz]; [lia|apply Hmax; by left|]. specialize (Hzm z Hz). lia.
    + destruct IH as [Hn _]. unfold max' in Hn. destruct max as [y0|]; [|done]. by destruct (_ <=? _).
Qed.

Lemma pending_waits self now :
  async_inv self -> (forall k, ~ startable self now k) ->
  forall k, is_Some (fork_get (non_finalized_blocks self) k) ->
  forall b, fork_get (non_finalized_blocks self) k = Some b -> is_pending b = true ->
  exists j c t, fork_get (non_finalized_blocks self) j = Some c /\ waiting c = Some t.
Proof.
  intros [[f Hf] _ A3 _ _ _ _ _] Hno.
  assert (Hfalse : forall k b to, fork_get (non_finalized_blocks self) k = Some b -> async_op b = Pending false to ->
    exists j c t, fork_get (non_finalized_blocks self) j = Some c /\ waiting c = Some t).
  { intros k b to Hb Hop. destruct to as [t|]; [|destruct (Hno k); by exists b, None].
    exists k, b, t. split; [done|]. unfold waiting. by rewrite Hop. }
  apply (fork_parent_ind _ f (fun k => forall b, fork_get (non_finalized_blocks self) k = Some b -> is_pending b = true -> _) Hf).
  - intros k Hk b Hb Hp. unfold is_pending in Hp. destruct (async_op b) as [| |[] to] eqn:Eb; [done|done| |eauto].
    destruct (oi_same _ _ A3 k b Hb) as (p & bp & Hpar & _); [unfold is_same; by rewrite Eb|congruence].
  - intros k p Hk IH b Hb Hp. unfold is_pending in Hp. destruct (async_op b) as [| |[] to] eqn:Eb; [done|done| |eauto].
    destruct (oi_same _ _ A3 k b Hb) as (q & bq & Hpar & Hbq & Hpq); [unfold is_same; by rewrite Eb|].
    assert (q = p) as -> by congruence. eauto.
Qed.

(** The answer of the attempts from some point on: [Ready] for a block with
    property [P], or [NotReady]. *)
Definition answered self now (P : NodeIndex -> Prop) (answer : option (NextNecessaryAsyncOp TNow TBl * AsyncTree)) : Prop :=
  exists r self', answer = Some (r, self') /\
    ((exists idx, is_ready self now idx r self' /\ P idx) \/
     (exists when, r = NotReady when /\ self' = self /\ (forall k, ~ startable self now k) /\
        when_ok self (iter_unordered (non_finalized_blocks self)).*1 when)).

Lemma answered_mono self now (P Q : NodeIndex -> Prop) answer :
  answered self now P answer -> (forall idx, startable self now idx -> P idx -> Q idx) -> answered self now Q answer.
Proof.
  intros (r & self' & E & Hor) HPQ. exists r, self'. split; [done|].
  destruct Hor as [(idx & Hr & HP)|?]; [left|by right]. exists idx. split; [done|]. apply HPQ; [apply Hr|done].
Qed.

Lemma attempt_answered self now idx when next b (P Q : NodeIndex -> Prop) :
  async_inv self -> fork_get (non_finalized_blocks self) idx = Some b -> next_async_op_id self + 1 < 2 ^ 64 ->
  when_ok self [] when -> (startable self now idx -> Q idx) ->
  (forall when, when_ok self [] when -> answered self now P (next self when)) ->
  (forall i, ~ startable self now idx -> P i -> Q i) ->
  answered self now Q (attempt self idx now when next).
Proof.
  intros Hinv Hb Hid Hok HQ Hnext HPQ.
  destruct (attempt_spec self now idx when next b Hinv Hb Hid) as [(r & self' & -> & Hr)|[Hno ->]].
  - exists r, self'. split; [done|]. left. exists idx. split; [done|]. apply HQ, Hr.
  - eapply answered_mono; [apply Hnext|auto]. destruct (when_ok_merge self [] when idx b Hok Hb) as [W _].
    split; [done|]. intros k c m Hk. by apply elem_of_nil in Hk.
Qed.

Lemma other_answered self now when :
  async_inv self -> next_async_op_id self + 1 < 2 ^ 64 -> when_ok self [] when ->
  answered self now (fun _ => True) (next_other self now when).
Proof.
  intros Hinv Hid Hok. unfold next_other.
  destruct (others_loop_spec self now Hinv Hid (iter_unordered (non_finalized_blocks self)).*1 [] when)
    as [(r & self' & idx & E & Hr)|(when' & E & Hok' & Hno)].
  - intros k. apply elem_of_iter_keys.
  - done.
  - exists r, self'. split; [done|]. left. eauto.
  - exists (NotReady when'), self. split; [done|]. right. exists when'. split; [done|]. split; [done|].
    split; [|done]. intros k Hk. apply (Hno k); [|done]. apply elem_of_iter_keys. destruct Hk as (b & _ & Hb & _). eauto.
Qed.

Lemma best_answered self now when :
  async_inv self -> next_async_op_id self + 1 < 2 ^ 64 -> when_ok self [] when ->
  answered self now (fun idx => forall x, heaviest self x -> startable self now x -> idx = x) (next_best self now when).
Proof.
  intros Hinv Hid Hok. unfold next_best. set (T := non_finalized_blocks self).
  pose proof (max_by_weight_spec (iter_unordered T) None) as Hmax.
  destruct (max_by_weight (iter_unordered T) None) as [[idx b]|].
  - destruct Hmax as [[Hin|?] Hmax]; [|done]. apply elem_of_iter_unordered in Hin as Hb.
    assert (Hheavy : forall x, heaviest self x -> idx = x).
    { intros x (bx & Hbx & Hx). destruct (decide (idx = x)) as [|Hne]; [done|].
      specialize (Hx idx b Hb Hne). specialize (Hmax (x, bx)). rewrite elem_of_iter_unordered in Hmax.
      cbn in Hmax. specialize (Hmax (or_introl Hbx)). lia. }
    apply (attempt_answered self now idx when _ b (fun _ => True)); [done..|auto| |].
    + intros w Hw. by apply other_answered.
    + intros i Hno _ x Hx Hst. by apply Hheavy in Hx as ->.
  - destruct Hmax as [_ Hnil]. eapply answered_mono; [by apply other_answered|].
    intros idx _ _ x (bx & Hbx & _) _. apply elem_of_iter_unordered in Hbx. fold T in Hbx. rewrite Hnil in Hbx.
    by apply elem_of_nil in Hbx.
Qed.

Lemma next_answered self now :
  async_inv self -> next_async_op_id self + 1 < 2 ^ 64 ->
  answered self now (fun idx =>
    (forall y, input_finalized_index self = Some y -> startable self now y -> idx = y) /\
    (forall x, heaviest self x -> startable self now x ->
       (forall y, input_finalized_index self = Some y -> ~ startable self now y) -> idx = x))
    (next_necessary_async_op self now).
Proof.
  intros Hinv Hid. unfold next_necessary_async_op.
  assert (Hok : when_ok self [] None). { split; [done|]. intros k b m Hk. by apply elem_of_nil in Hk. }
  destruct (input_finalized_index self) as [y|] eqn:Ey.
  - destruct (ai_finalized _ Hinv y Ey) as [b Hb].
    eapply (attempt_answered self now y None _ b); [done..| |intros w Hw; by apply best_answered|].
    + intros Hst. split; [congruence|]. intros x _ _ Hn. by destruct (Hn y).
    + intros i Hno Hx. split; [intros y' [= <-]; done|auto].
  - eapply answered_mono; [by apply best_answered|]. intros idx _ Hx. split; [done|auto].
Qed.

(** The blocks of a failed operation, and no other, share the operation of the
    block it was started for. *)
Lemma failed_shares self self' (T : ForkTree Block) id nt r :
  (exists f, fork_rep T f) -> ops_inv T (next_async_op_id self) ->
  updates T (non_finalized_blocks self') (fail_block T id nt) -> op_root T id r ->
  forall j, shares (non_finalized_blocks self') r j <-> exists b, fork_get T j = Some b /\ in_progress_with id b = true.
Proof.
  intros [f Hf] Hops Hup Hr. set (T' := non_finalized_blocks self') in *.
  assert (Hget : forall k b, fork_get T k = Some b -> fork_get T' k = Some (fail_block T id nt k b)).
  { intros k b Hb. by eapply updates_fwd. }
  intros j. split.
  - induction 1 as [_|k p b' Hpar Hb' Hs Hsh (bp & Hbp & Hid)]; [apply Hr|].
    apply (updates_inv _ _ _ _ _ Hup) in Hb' as (b & Hb & ->). rewrite (up_parent _ _ _ Hup) in Hpar.
    destruct (fail_block_case T id nt k b) as [[? _]|[_ E]]; [eauto|]. rewrite E in Hs.
    destruct (oi_same _ _ Hops k b Hb Hs) as (q & bq & Hq & Hbq & Hpq).
    assert (q = p) as -> by congruence. assert (bq = bp) as -> by congruence.
    apply in_progress_only in Hid as (_ & _ & ? & _). congruence.
  - intros Hj. assert (Hex : is_Some (fork_get T j)) by (destruct Hj as (? & ? & _); eauto). revert j Hex Hj.
    apply (fork_parent_ind T f
      (fun j => (exists b, fork_get T j = Some b /\ in_progress_with id b = true) -> shares T' r j) Hf).
    + intros k Hk (b & Hb & Hid). assert (k = r) as ->; [|constructor; eauto].
      apply (oi_root _ _ Hops id); [|done]. split; [eauto|congruence].
    + intros k p Hk IH (b & Hb & Hid). destruct (fork_parent_get _ _ _ _ Hf Hk) as [bp Hbp].
      destruct (in_progress_with id bp) eqn:Ep.
      * assert (Hpp : parent_in_progress T id k = true) by (unfold parent_in_progress; by rewrite Hk, Hbp).
        eapply shares_child; [rewrite (up_parent _ _ _ Hup); exact Hk|by apply Hget| |apply IH; eauto].
        destruct (fail_block_case T id nt k b) as [[_ [to ->]]|[? _]]; [|congruence].
        unfold is_same. cbn. by rewrite Hpp.
      * assert (k = r) as ->; [|constructor; eauto]. apply (oi_root _ _ Hops id); [|done]. split; [eauto|].
        intros q bq Hq Hbq. congruence.
Qed.

End operations.

(** ** Main results *)

Section results.
Context {TNow TBl TAsync : Type} `{Instant TNow} `{Platform}.

Abbreviation AsyncTree := (AsyncTree TNow TBl TAsync) (only parsing).
Implicit Types (self : AsyncTree).

(** [next_necessary_async_op] never panics and keeps the invariant. It
    answers [Ready] if the operation of some block can start: with a new
    identifier, for the input finalized block if its operation can start, else
    for the input best block if its operation can start. The blocks that become
    [InProgress] with this identifier are those that share the operation, through
    a chain of [Pending { same_as_parent: true }]; no other block changes.
    Otherwise the state does not change, and [when] is the first moment at which
    an operation can start: it is [None] only if no block is pending. *)
Theorem next_necessary_async_op_spec self now :
  async_inv self -> next_async_op_id self + 1 < 2 ^ 64 ->
  exists r self', next_necessary_async_op self now = Some (r, self') /\ async_inv self' /\
  match r with
  | Ready params =>
      let idx := op_block_index params in
      op_id params = next_async_op_id self /\ block_user_data self idx = Some (op_block_user_data params) /\
      startable self now idx /\ started self self' idx (op_id params) /\
      (forall y, input_finalized_index self = Some y -> startable self now y -> idx = y) /\
      (forall x, heaviest self x -> startable self now x ->
         (forall y, input_finalized_index self = Some y -> ~ startable self now y) -> idx = x)
  | NotReady when =>
      self' = self /\ (forall k, ~ startable self now k) /\
      (when = None -> forall k b, fork_get (non_finalized_blocks self) k = Some b -> is_pending b = false) /\
      (forall m, when = Some m ->
         (exists k b, fork_get (non_finalized_blocks self) k = Some b /\ waiting b = Some m) /\
         forall k b m', fork_get (non_finalized_blocks self) k = Some b -> waiting b = Some m' -> key_le m m')
  end.
Proof.
  intros Hinv Hid. destruct (next_answered self now Hinv Hid) as (r & self' & E & Hpost). exists r, self'. split; [done|].
  destruct Hpost as [(idx & (Hst & Hinv' & Hsd & b & Hb & ->) & Hprio)|(when & -> & -> & Hno & W1 & W2)].
  - split; [done|]. cbn. split; [done|]. split; [|done]. unfold block_user_data. by rewrite Hb.
  - split; [done|]. split; [done|]. split; [done|]. split.
    + intros -> k b Hb. destruct (is_pending b) eqn:Ep; [|done].
      destruct (pending_waits self now Hinv Hno k (ex_intro _ b Hb) b Hb Ep) as (j & c & m & Hc & Hw).
      destruct (W2 j c m) as (? & ? & _); [apply elem_of_iter_keys; eauto|done..].
    + intros m ->. split; [by apply W1|]. intros k b m' Hb Hw.
      destruct (W2 k b m') as (? & [= <-] & ?); [apply elem_of_iter_keys; eauto|done|done|done].
Qed.

(** [async_op_failure] never panics and keeps the invariant. The blocks of
    the operation become [Pending], not to start before the retry delay is over
    (or the moment the block had to wait for, if that is earlier), and no other
    block changes. If the operation had blocks, one of them is the only one whose
    parent did not take part in it, and the operation that can be started again
    for this block is shared by exactly the blocks of the failed one. *)
Theorem async_op_failure_spec self id now :
  async_inv self ->
  let T := non_finalized_blocks self in
  let part k := exists b, fork_get T k = Some b /\ in_progress_with id b = true in
  exists self', async_op_failure self id now = Some self' /\ async_inv self' /\
    let T' := non_finalized_blocks self' in
    (forall k b, fork_get T k = Some b -> in_progress_with id b = false -> fork_get T' k = Some b) /\
    (forall k b, fork_get T k = Some b -> in_progress_with id b = true ->
       exists m, fork_get T' k = Some (set_async_op (Pending (parent_in_progress T id k) (Some m)) b) /\
         key_le m (instant_add now (retry_after_failed self))) /\
    ((exists k, part k) ->
       exists r, op_root T id r /\ (forall r', op_root T id r' -> r' = r) /\ (forall j, shares T' r j <-> part j)).
Proof.
  intros Hinv T part. destruct (inv_async_op_failure self id now Hinv) as (self' & E & Hinv' & Hup).
  exists self'. split; [done|]. split; [done|]. fold T in Hup. set (nt := instant_add now (retry_after_failed self)) in *.
  pose proof Hinv as [[f Hf] _ A3 _ _ _ _ _]. fold T in Hf, A3. cbn zeta. split_and!.
  - intros k b Hb Hid. rewrite (up_get _ _ _ Hup), Hb. cbn. f_equal.
    destruct (fail_block_case T id nt k b) as [[? _]|[_ ->]]; congruence.
  - intros k b Hb Hid. rewrite (up_get _ _ _ Hup), Hb. cbn [fmap option_fmap option_map]. unfold fail_block, in_progress_with in *.
    destruct (async_op b) as [|id' to|]; [done| |done]. rewrite Hid. eexists. split; [done|].
    destruct to as [m|]; [apply (instant_min_spec m nt)|by destruct (total key_le nt nt)].
  - intros [k0 Hk0].
    assert (Hroot : forall k, is_Some (fork_get T k) -> part k -> exists r, op_root T id r).
    { apply (fork_parent_ind T f (fun k => part k -> exists r, op_root T id r) Hf).
      - intros k Hk (b & Hb & Hid). exists k. split; [eauto|]. congruence.
      - intros k p Hk IH (b & Hb & Hid). destruct (fork_parent_get _ _ _ _ Hf Hk) as [bp Hbp].
        destruct (in_progress_with id bp) eqn:Ep; [apply IH; by exists bp|].
        exists k. split; [eauto|]. intros q bq Hq Hbq. congruence. }
    destruct (Hroot k0) as [r Hr]; [destruct Hk0 as (? & ? & _); eauto|done|]. exists r. split; [done|].
    split; [intros r' Hr'; by eapply (oi_root _ _ A3)|]. intros j. apply (failed_shares self self' T id nt r); [eauto|done..].
Qed.

End results.

(** ** A concrete tree *)

Definition ex_insert (self : AsyncTree Z Z Z) (new : NodeIndex) (par : option NodeIndex) (same best : bool) : AsyncTree Z Z Z :=
  match input_insert_block self new (100 + new) par same best with Some (_, s) => s | None => self end.

Definition ex_finish (self : AsyncTree Z Z Z) (id : AsyncOpId) : AsyncTree Z Z Z :=
  match async_op_finished self id (200 + id) with Some (_, s) => s | None => self end.

Definition ex_next (self : AsyncTree Z Z Z) (now : Z) : AsyncTree Z Z Z :=
  match next_necessary_async_op self now with Some (_, s) => s | None => self end.

Section example.
#[local] Existing Instance platform64.

Lemma ex_insert_inv self new par same best :
  async_inv self -> fork_get (non_finalized_blocks self) new = None -> new <> 2 ^ 64 - 1 ->
  match par with Some p => is_Some (fork_get (non_finalized_blocks self) p) | None => True end ->
  input_best_block_next_weight self + 1 < 2 ^ 32 -> async_inv (ex_insert self new par same best).
Proof.
  intros Hinv Hnew Hmax Hpar Hw.
  destruct (inv_input_insert_block self new (100 + new) par same best Hinv Hnew Hmax) as (self' & d & E & Hinv' & _).
  - by intros p ->.
  - done.
  - unfold ex_insert. by rewrite E.
Qed.

Lemma ex_next_inv self now : async_inv self -> next_async_op_id self + 1 < 2 ^ 64 -> async_inv (ex_next self now).
Proof.
  intros Hinv Hid. unfold ex_next. destruct (next_answered self now Hinv Hid) as (r & self' & -> & Hor).
  destruct Hor as [(idx & (_ & ? & _) & _)|(when & _ & -> & _)]; done.
Qed.

Lemma ex_finish_inv self id : async_inv self -> async_inv (ex_finish self id).
Proof.
  intros Hinv. unfold ex_finish. destruct (inv_async_op_finished self id (200 + id) Hinv) as (l & self' & -> & ? & _). done.
Qed.

(** Block 0 with the children 1, which has the operation of its parent, and 2. *)
Definition async_example : AsyncTree Z Z Z :=
  ex_insert (ex_insert (ex_insert (AsyncTree_new (mkConfig Z 200 10)) 0 None false true) 1 (Some 0) true false)
    2 (Some 0) false true.

Lemma async_example_inv : async_inv async_example.
Proof.
  unfold async_example. repeat (apply ex_insert_inv; [|by vm_compute|done|cbn; try done; by eexists|by vm_compute]).
  apply inv_new.
Qed.

Lemma next_necessary_async_op_spec_witness :
  async_inv async_example /\ next_async_op_id async_example + 1 < 2 ^ 64 /\
  exists r self', next_necessary_async_op async_example 5 = Some (r, self') /\ async_inv self'.
Proof.
  split; [exact async_example_inv|]. split; [by vm_compute|].
  destruct (next_necessary_async_op_spec async_example 5 async_example_inv ltac:(by vm_compute)) as (r & self' & E & Hinv & _).
  exists r, self'. split; [exact E|exact Hinv].
Defined.

(** The two operations in progress: 0 for block 2, the best, and 1 for blocks 0
    and 1. *)
Definition async_running : AsyncTree Z Z Z := ex_next (ex_next async_example 5) 5.

Lemma async_running_inv : async_inv async_running.
Proof. apply ex_next_inv; [|by vm_compute]. apply ex_next_inv; [|by vm_compute]. exact async_example_inv. Qed.

Lemma async_op_failure_spec_witness :
  async_inv async_running /\
  exists self', async_op_failure async_running 1 7 = Some self' /\
    exists r, op_root (non_finalized_blocks async_running) 1 r /\
      forall j, shares (non_finalized_blocks self') r j <->
        exists b, fork_get (non_finalized_blocks async_running) j = Some b /\ in_progress_with 1 b = true.
Proof.
  split; [exact async_running_inv|].
  destruct (async_op_failure_spec async_running 1 7 async_running_inv) as (self' & E & _ & _ & _ & Hr).
  exists self'. split; [exact E|]. destruct Hr as (r & Hroot & _ & Hsh).
  - exists 0. eexists. split; vm_compute; reflexivity.
  - exists r. split; [exact Hroot|exact Hsh].
Defined.

End example.
