(* ===== verification/AsyncTreeOutput.v ===== *)
(** * The output of the asynchronous tree

    [try_advance_output] is shown to be a step relation with four cases. From it:
    the invariant holds in every state that calls can reach and no call panics
    ([async_tree_safe]), the updates describe the output exactly
    ([output_refines_updates]), and following the output until there is no
    update left brings it to the input ([drain_reaches_input]). *)

From S2P Require Import Prelude BTree ForkTree ForkTreePrune ForkTreeFacts AsyncTree AsyncTreeInv AsyncTreeOps.

Open Scope Z_scope.

Section output.
Context {TNow TBl TAsync : Type} `{Instant TNow} `{Platform}.

Abbreviation AsyncTree := (AsyncTree TNow TBl TAsync) (only parsing).
Abbreviation Block := (Block TNow TBl TAsync) (only parsing).
Implicit Types (b : Block) (self : AsyncTree).

(** ** Steps *)

(** The data of the operation of a block that is part of the output. *)
Definition output_data b : option TAsync :=
  match async_op b with Finished user_data true => Some user_data | _ => None end.

(** The next block on the way to the input finalized block is in the output. *)
Definition finalizable self (x : NodeIndex) : Prop :=
  exists y b, input_finalized_index self = Some y /\ fork_parent (non_finalized_blocks self) x = Some None /\
    is_ancestor (non_finalized_blocks self) x y = Some true /\
    fork_get (non_finalized_blocks self) x = Some b /\ is_reported b = true.

(** A block that can enter the output. *)
Definition reportable self (k : NodeIndex) : Prop :=
  exists b data, fork_get (non_finalized_blocks self) k = Some b /\ async_op b = Finished data false /\
    forall p bp, fork_parent (non_finalized_blocks self) k = Some (Some p) ->
      fork_get (non_finalized_blocks self) p = Some bp -> is_reported bp = true.

(** No block of the output has a higher weight than the output best block. *)
Definition best_maximal self : Prop :=
  exists w, output_best_weight self = Some w /\
    forall k b, fork_get (non_finalized_blocks self) k = Some b -> is_reported b = true -> input_best_block_weight b <= w.

(** The state after the finalization of [x]. *)
Definition finalized_state self (x : NodeIndex) (t' : ForkTree Block) (data : TAsync) (best : option NodeIndex)
    (weight : u32) : AsyncTree :=
  mkAsyncTree t' data best
    (if bool_decide (input_finalized_index self = Some x) then None else input_finalized_index self)
    (input_best_block_next_weight self) weight (next_async_op_id self) (retry_after_failed self).

(** The blocks that the finalization of [x] prunes, each of them once: those that are neither
    [x] nor its descendants, with the data of those that were part of the output. *)
Definition prunes self (x : NodeIndex) (pruned : list (NodeIndex * TBl * option TAsync)) : Prop :=
  NoDup (pruned.*1.*1) /\
  forall k ud oa, (k, ud, oa) ∈ pruned <->
    exists c, fork_get (non_finalized_blocks self) k = Some c /\ k <> x /\
      ~ is_ancestor (non_finalized_blocks self) x k = Some true /\ ud = user_data c /\ oa = output_data c.

Inductive advance_step self : option (OutputUpdate TBl TAsync) -> AsyncTree -> Prop :=
  | step_finalized x b data t' best pruned :
      finalizable self x -> fork_get (non_finalized_blocks self) x = Some b -> async_op b = Finished data true ->
      pruned_to (non_finalized_blocks self) t' x ->
      prunes self x pruned ->
      (forall k, best = Some k -> exists bk, fork_get t' k = Some bk /\ is_reported bk = true) ->
      best_maximal (finalized_state self x t' data best (input_best_block_weight b)) ->
      advance_step self
        (Some (UFinalized x (user_data b) data (finalized_async_user_data self) best pruned))
        (finalized_state self x t' data best (input_best_block_weight b))
  | step_block k b data t' w :
      (forall x, ~ finalizable self x) -> reportable self k ->
      fork_get (non_finalized_blocks self) k = Some b -> async_op b = Finished data false ->
      updates (non_finalized_blocks self) t'
        (fun j c => if decide (j = k) then set_async_op (Finished data true) c else c) ->
      output_best_weight self = Some w ->
      advance_step self
        (Some (UBlock (mkOutputBlock k (user_data b) data (w <? input_best_block_weight b))))
        (with_best (if w <? input_best_block_weight b then Some k else best_block_index self) (with_blocks t' self))
  | step_best k b w :
      (forall x, ~ finalizable self x) -> (forall j, ~ reportable self j) ->
      output_best_weight self = Some w -> fork_get (non_finalized_blocks self) k = Some b -> is_reported b = true ->
      w < input_best_block_weight b -> best_maximal (with_best (Some k) self) ->
      advance_step self (Some (UBestBlockChanged (Some k))) (with_best (Some k) self)
  | step_none :
      (forall x, ~ finalizable self x) -> (forall j, ~ reportable self j) -> best_maximal self ->
      advance_step self None self.

(** ** The best block *)

Lemma best_loop_spec (l : list (NodeIndex * Block)) : forall w best updated,
  exists w', w <= w' /\ (forall k b, (k, b) ∈ l -> is_reported b = true -> input_best_block_weight b <= w') /\
    ((best_loop l w best updated = (best, updated) /\ w' = w) \/
     (exists k b, best_loop l w best updated = (Some k, true) /\ (k, b) ∈ l /\ is_reported b = true /\
        input_best_block_weight b = w' /\ w < w')).
Proof.
  induction l as [|[k b] l IH]; intros w best updated; cbn.
  - exists w. split; [lia|]. split; [|by left]. intros k b Hk. by apply elem_of_nil in Hk.
  - assert (Hskip : is_reported b = false \/ input_best_block_weight b <= w ->
      exists w', w <= w' /\ (forall j c, (j, c) ∈ (k, b) :: l -> is_reported c = true -> input_best_block_weight c <= w') /\
        ((best_loop l w best updated = (best, updated) /\ w' = w) \/
         (exists j c, best_loop l w best updated = (Some j, true) /\ (j, c) ∈ (k, b) :: l /\ is_reported c = true /\
            input_best_block_weight c = w' /\ w < w'))).
    { intros Hb. destruct (IH w best updated) as (w' & Hle & Hmax & Hor). exists w'. split; [done|]. split.
      - intros j c [[= -> ->]|Hin]%elem_of_cons Hr; [|eauto]. destruct Hb; [congruence|lia].
      - destruct Hor as [?|(j & c & ? & ? & ? & ? & ?)]; [by left|right]. exists j, c. split; [done|]. split; [by right|done]. }
    destruct (Z.leb_spec (input_best_block_weight b) w) as [Hw|Hw]; [apply Hskip; by right|].
    destruct (is_reported b) eqn:Er; cbn [negb]; [|apply Hskip; by left]. clear Hskip.
    destruct (IH (input_best_block_weight b) (Some k) true) as (w' & Hle & Hmax & Hor). exists w'. split; [lia|]. split.
    + intros j c [[= -> ->]|Hin]%elem_of_cons Hr; [lia|eauto].
    + right. destruct Hor as [[E ->]|(j & c & E & ? & ? & ? & ?)].
      * exists k, b. split; [done|]. split; [by left|]. split; [done|]. split; [done|lia].
      * exists j, c. split; [done|]. split; [by right|]. split; [done|]. split; [done|lia].
Qed.

Lemma with_best_same self : with_best (best_block_index self) self = self.
Proof. by destruct self. Qed.

Lemma advance_best_spec self w :
  output_best_weight self = Some w ->
  (advance_best self = Some (false, self) /\ best_maximal self) \/
  (exists k b, advance_best self = Some (true, with_best (Some k) self) /\
     fork_get (non_finalized_blocks self) k = Some b /\ is_reported b = true /\ w < input_best_block_weight b /\
     best_maximal (with_best (Some k) self)).
Proof.
  intros Hw. unfold advance_best. rewrite Hw.
  destruct (best_loop_spec (iter_unordered (non_finalized_blocks self)) w (best_block_index self) false)
    as (w' & Hle & Hmax & [[-> ->]|(k & b & -> & Hin & Hr & Hb & Hlt)]).
  - left. rewrite with_best_same. split; [done|]. exists w. split; [done|].
    intros k b Hb. apply (Hmax k b). by apply elem_of_iter_unordered.
  - right. apply elem_of_iter_unordered in Hin. exists k, b. split; [done|]. split; [done|]. split; [done|].
    split; [lia|]. exists w'. split; [unfold output_best_weight; cbn; by rewrite Hin; cbn; rewrite Hb|].
    intros j c Hc. apply (Hmax j c). by apply elem_of_iter_unordered.
Qed.

(** ** Finalization *)

Definition pruned_entry (o : PrunedNode Block) : NodeIndex * TBl * option TAsync :=
  (pn_index o, user_data (pn_user_data o), output_data (pn_user_data o)).

(** The best block after the nodes [l] are removed. *)
Definition kept_best (l : list NodeIndex) (best : option NodeIndex) : option NodeIndex :=
  match best with Some k => if decide (k ∈ l) then None else Some k | None => None end.

Lemma kept_best_app l1 l2 best : kept_best l2 (kept_best l1 best) = kept_best (l1 ++ l2) best.
Proof.
  destruct best as [k|]; [|done]. cbn. destruct (decide (k ∈ l1)) as [E|E].
  - rewrite decide_True by (apply elem_of_app; by left). done.
  - cbn. apply decide_ext. rewrite elem_of_app. naive_solver.
Qed.

Lemma prune_step_eq x self pb pf (o : PrunedNode Block) :
  prune_step x (mkPruneState self pb pf) o =
  if pn_index o =? x
  then mkPruneState (with_finalized_weight (input_best_block_weight (pn_user_data o))
                       (with_best (kept_best [pn_index o] (best_block_index self)) self)) pb (Some o)
  else mkPruneState (with_best (kept_best [pn_index o] (best_block_index self)) self) (pb ++ [pruned_entry o]) pf.
Proof.
  unfold prune_step. cbn [ps_self ps_pruned_blocks ps_pruned_finalized].
  assert (E : (if match best_block_index self with Some b => b =? pn_index o | None => false end then with_best None self else self) =
    with_best (kept_best [pn_index o] (best_block_index self)) self).
  { destruct self as [t fd [k|] fi nw fw ni ra]; cbn; [|done]. destruct (Z.eqb_spec k (pn_index o)) as [->|Hne].
    - rewrite decide_True by (by left). done.
    - rewrite decide_False by (by rewrite list_elem_of_singleton). done. }
  rewrite E. destruct (pn_index o =? x); [done|]. unfold pruned_entry, output_data.
  by destruct (async_op (pn_user_data o)) as [data [] | |].
Qed.

Lemma prune_fold x (outs : list (PrunedNode Block)) : forall self pb pf,
  x ∉ pn_index <$> outs ->
  foldl (prune_step x) (mkPruneState self pb pf) outs =
  mkPruneState (with_best (kept_best (pn_index <$> outs) (best_block_index self)) self) (pb ++ (pruned_entry <$> outs)) pf.
Proof.
  induction outs as [|o outs IH]; intros self pb pf Hx.
  - cbn. rewrite app_nil_r. destruct self as [t fd [k|] fi nw fw ni ra]; [|done]. cbn.
    by rewrite decide_False by apply not_elem_of_nil.
  - rewrite fmap_cons in Hx. apply not_elem_of_cons in Hx as [Hne Hx].
    cbn [foldl]. rewrite prune_step_eq. destruct (Z.eqb_spec (pn_index o) x); [congruence|].
    rewrite IH by done. cbn [with_best best_block_index]. rewrite kept_best_app, <- app_assoc. done.
Qed.

Lemma prune_fold_all x self o1 nx o2 :
  pn_index nx = x -> NoDup (pn_index <$> o1 ++ nx :: o2) ->
  foldl (prune_step x) (mkPruneState self [] None) (o1 ++ nx :: o2) =
  mkPruneState
    (with_best (kept_best (pn_index <$> o1 ++ nx :: o2) (best_block_index self))
       (with_finalized_weight (input_best_block_weight (pn_user_data nx)) self))
    (pruned_entry <$> o1 ++ o2) (Some nx).
Proof.
  intros Hx Hnd. rewrite fmap_app, fmap_cons in Hnd. apply NoDup_app in Hnd as (_ & Hd & [Hn _]%NoDup_cons).
  rewrite foldl_app. cbn [foldl]. rewrite prune_fold, prune_step_eq, Hx, Z.eqb_refl.
  2: { intros Hin. apply (Hd x Hin). rewrite Hx. by left. }
  rewrite prune_fold by (by rewrite <- Hx). cbn [with_best with_finalized_weight best_block_index].
  assert (E : kept_best (pn_index <$> o2) (kept_best [x] (kept_best (pn_index <$> o1) (best_block_index self))) =
    kept_best (pn_index <$> o1 ++ nx :: o2) (best_block_index self)).
  { by rewrite !kept_best_app, fmap_app, fmap_cons, Hx. }
  rewrite E, (fmap_app pruned_entry). done.
Qed.

(** What the nodes returned by the pruning are. *)
Definition pruned_nodes (T : ForkTree Block) (x : NodeIndex) (outs : list (PrunedNode Block)) : Prop :=
  NoDup (pn_index <$> outs) /\
  forall k d, (k, d) ∈ (item <$> outs) <-> fork_get T k = Some d /\ ~ (is_ancestor T x k = Some true /\ k <> x).

Lemma pruned_entries_spec T x o1 nx o2 :
  pn_index nx = x -> pruned_nodes T x (o1 ++ nx :: o2) ->
  forall k ud oa, (k, ud, oa) ∈ (pruned_entry <$> o1 ++ o2) <->
    exists c, fork_get T k = Some c /\ k <> x /\ ~ is_ancestor T x k = Some true /\ ud = user_data c /\ oa = output_data c.
Proof.
  intros Ex [Hnd Houts].
  assert (Hent : forall o, o ∈ o1 ++ o2 <-> o ∈ o1 ++ nx :: o2 /\ pn_index o <> x).
  { intros o. rewrite fmap_app, fmap_cons in Hnd. apply NoDup_app in Hnd as (_ & Hd & [Hn _]%NoDup_cons).
    rewrite !elem_of_app, elem_of_cons. split; [|naive_solver].
    intros [Ho|Ho]; (split; [by auto|]); intros Eo.
    - apply (Hd (pn_index o)); [by apply list_elem_of_fmap_2|]. rewrite Eo, <- Ex. by left.
    - apply Hn. rewrite Ex, <- Eo. by apply list_elem_of_fmap_2. }
  intros k ud oa. rewrite list_elem_of_fmap. split.
  - intros (o & [= -> -> ->] & [Ho Hne]%Hent). exists (pn_user_data o).
    destruct (proj1 (Houts (pn_index o) (pn_user_data o))) as [Hc Hn].
    { apply list_elem_of_fmap. by exists o. }
    split; [done|]. split; [done|]. split; [|done]. intros Ha. by apply Hn.
  - intros (c & Hc & Hne & Hn & -> & ->). assert (Hi : (k, c) ∈ (item <$> o1 ++ nx :: o2)).
    { apply Houts. split; [done|]. by intros [? _]. }
    apply list_elem_of_fmap in Hi as (o & [= -> ->] & Hi). exists o. split; [done|]. by apply Hent.
Qed.

Lemma kept_best_reported self x t' outs :
  async_inv self -> pruned_to (non_finalized_blocks self) t' x -> pruned_nodes (non_finalized_blocks self) x outs ->
  forall k, kept_best (pn_index <$> outs) (best_block_index self) = Some k ->
  exists bk, fork_get t' k = Some bk /\ is_reported bk = true.
Proof.
  intros Hinv Hpr [_ Houts] k. unfold kept_best. destruct (best_block_index self) as [k0|] eqn:Ek0; [|done].
  case_decide as Ein; [done|]. intros [= ->]. destruct (ai_best _ Hinv k Ek0) as (bk & Hbk & Hrk). exists bk.
  split; [|done]. apply (pr_get _ _ _ Hpr). split; [done|].
  destruct (decide (is_ancestor (non_finalized_blocks self) x k = Some true /\ k <> x)) as [|Hn]; [done|]. destruct Ein.
  assert (Hi : (k, bk) ∈ (item <$> outs)) by (by apply Houts).
  apply list_elem_of_fmap in Hi as (o & [= -> ->] & Hi). by apply list_elem_of_fmap_2.
Qed.

Lemma reported_finished b : is_reported b = true -> exists data, async_op b = Finished data true.
Proof. unfold is_reported. destruct (async_op b) as [d []| |]; eauto; done. Qed.

Lemma advance_finalized_spec self x :
  async_inv self -> finalizable self x ->
  exists u self', advance_finalized self x = Some (u, self') /\ advance_step self (Some u) self'.
Proof.
  intros Hinv Hfin. pose proof Hfin as (y & b & Hy & Hpx & Hxy & Hb & Hr). pose proof (ai_rep _ Hinv) as [f Hf].
  set (T := non_finalized_blocks self) in *. destruct (reported_finished b Hr) as [data Hop].
  unfold advance_finalized.
  set (fi := if bool_decide (input_finalized_index self = Some x) then None else input_finalized_index self).
  set (self1 := if bool_decide (input_finalized_index self = Some x) then with_input_finalized None self else self).
  assert (E1 : self1 = with_input_finalized fi self).
  { unfold self1, fi. case_bool_decide; [done|]. by destruct self. }
  rewrite E1. cbn [with_input_finalized non_finalized_blocks]. fold T.
  destruct (prune_ancestors_to T f x Hf (ex_intro _ b Hb)) as (outs & t' & -> & Hpr & Hnodes).
  assert (Hx : (x, b) ∈ (item <$> outs)). { apply Hnodes. split; [done|]. by intros [_ ?]. }
  apply list_elem_of_fmap in Hx as (nx & Enx & Hin). apply list_elem_of_split in Hin as (o1 & o2 & ->).
  unfold item in Enx. injection Enx as Ex Eb. subst b. symmetry in Ex.
  rewrite (prune_fold_all x) by (done || apply Hnodes). cbn [ps_self ps_pruned_blocks ps_pruned_finalized].
  change (best_block_index (with_blocks t' (with_input_finalized fi self))) with (best_block_index self).
  pose proof (kept_best_reported self x t' _ Hinv Hpr Hnodes) as Hkept.
  set (kept := kept_best _ _) in *. set (selfp := with_best _ _).
  assert (Hw : exists w, output_best_weight selfp = Some w).
  { unfold output_best_weight, selfp. cbn [with_best best_block_index].
    destruct kept as [k|]; [|eauto]. destruct (Hkept k eq_refl) as (bk & Hbk & _). exists (input_best_block_weight bk).
    change (input_best_block_weight <$> fork_get t' k = Some (input_best_block_weight bk)). by rewrite Hbk. }
  destruct Hw as [w Hw].
  assert (Hbest : exists upd best, advance_best selfp = Some (upd, with_best best selfp) /\
    (forall k, best = Some k -> exists bk, fork_get t' k = Some bk /\ is_reported bk = true) /\ best_maximal (with_best best selfp)).
  { destruct (advance_best_spec selfp w Hw) as [[E Hm]|(k & bk & E & Hbk & Hrk & _ & Hm)].
    - exists false, kept. split; [exact E|]. split; [exact Hkept|exact Hm].
    - exists true, (Some k). split; [done|]. split; [|done]. intros k' [= <-]. exists bk. split; [exact Hbk|done]. }
  destruct Hbest as (upd & best & -> & Hbest & Hmax). rewrite Hop. eexists _, _. split; [done|].
  apply (step_finalized self x (pn_user_data nx) data t' best (pruned_entry <$> o1 ++ o2)); try done.
  split; [|by apply (pruned_entries_spec T x o1 nx o2)].
  rewrite <- !list_fmap_compose. destruct Hnodes as [Hnd _]. rewrite fmap_app, fmap_cons in Hnd. rewrite fmap_app.
  apply NoDup_app in Hnd as (Hnd1 & Hd & [_ Hnd2]%NoDup_cons). apply NoDup_app. split; [done|]. split; [|done].
  intros j Hj Hj2. apply (Hd j Hj). by right.
Qed.

(** ** Reports *)

Lemma inv_best_weight self : async_inv self -> exists w, output_best_weight self = Some w.
Proof.
  intros Hinv. unfold output_best_weight. destruct (best_block_index self) as [k|] eqn:Ek; [|eauto].
  destruct (ai_best _ Hinv k Ek) as (b & -> & _). cbn. eauto.
Qed.

Lemma updates_best_weight self t' g :
  updates (non_finalized_blocks self) t' g ->
  (forall k b, input_best_block_weight (g k b) = input_best_block_weight b) ->
  output_best_weight (with_blocks t' self) = output_best_weight self.
Proof.
  intros Hup Hg. unfold output_best_weight. change (best_block_index (with_blocks t' self)) with (best_block_index self).
  destruct (best_block_index self) as [k|]; [|done]. change (non_finalized_blocks (with_blocks t' self)) with t'.
  rewrite (up_get _ _ _ Hup). destruct (fork_get _ k); [|done]. cbn. by rewrite Hg.
Qed.

Lemma report_loop_spec self l :
  async_inv self -> (forall x, ~ finalizable self x) ->
  (forall k, k ∈ l -> is_Some (fork_get (non_finalized_blocks self) k)) ->
  (exists u self', report_loop l self = Some (Some (u, self')) /\ advance_step self (Some u) self') \/
  (report_loop l self = Some None /\ forall k, k ∈ l -> ~ reportable self k).
Proof.
  intros Hinv Hnf. pose proof (ai_rep _ Hinv) as Hwf. set (T := non_finalized_blocks self).
  induction l as [|k l IH]; intros Hall.
  - right. split; [done|]. intros k Hk. by apply elem_of_nil in Hk.
  - assert (Hskip : ~ reportable self k ->
      (exists u self', report_loop l self = Some (Some (u, self')) /\ advance_step self (Some u) self') \/
      (report_loop l self = Some None /\ forall j, j ∈ k :: l -> ~ reportable self j)).
    { intros Hn. destruct IH as [?|[? Hno]]; [intros; apply Hall; by right|by left|right]. split; [done|].
      intros j [->|Hj]%elem_of_cons; auto. }
    destruct (Hall k) as [b Hb]; [by left|]. fold T in Hb.
    destruct (fork_path T k Hwf (ex_intro _ b Hb)) as (lp & _ & _ & _ & Hpar).
    cbn [report_loop]. fold T. destruct (fork_parent T k) as [par|] eqn:Epar; [|done].
    assert (Hpr : exists pr, (match par with None => Some true | Some parent => is_reported <$> fork_get T parent end) = Some pr /\
      (pr = true <-> forall p bp, par = Some p -> fork_get T p = Some bp -> is_reported bp = true)).
    { destruct par as [p|]; [|exists true; done]. destruct Hpar as [[bp Hbp] _]. rewrite Hbp. eexists. split; [done|].
      split; [intros Hr q bq [= <-] Hq; congruence|intros Hq; by apply (Hq p bp)]. }
    destruct Hpr as (pr & -> & Hpr). destruct pr; cbn [negb].
    2: { apply Hskip. intros (b' & data & _ & _ & Hq). assert (false = true); [|done]. apply Hpr. intros p bp ->. by apply Hq. }
    rewrite Hb. destruct (async_op b) as [data [|]| |] eqn:Eop;
      try (apply Hskip; intros (b' & data' & Hb' & Hop & _); fold T in Hb'; congruence).
    assert (Hrep : reportable self k).
    { exists b, data. split; [done|]. split; [done|]. intros p bp Hp. apply Hpr; [done|]. fold T in Hp. congruence. }
    destruct (updates_get_mut T k (set_async_op (Finished data true)) Hwf (ex_intro _ b Hb)) as (t' & -> & Hup).
    destruct (inv_best_weight self Hinv) as [w Hw].
    rewrite (updates_best_weight self t' _ Hup) by (intros; by case_decide). rewrite Hw. left. eexists _, _.
    split; [done|]. pose proof (step_block self k b data t' w Hnf Hrep Hb Eop Hup Hw) as Hstep.
    destruct (w <? input_best_block_weight b); [done|].
    by replace (with_best (best_block_index self) (with_blocks t' self)) with (with_blocks t' self) in Hstep by (by destruct self).
Qed.

(** ** [try_advance_output] *)

Lemma fork_root (T : ForkTree Block) y :
  (exists f, fork_rep T f) -> nodes T !! (2 ^ usize_bits - 1) = None -> is_Some (fork_get T y) ->
  exists x rest, root_to_node_path T y = Some (x :: rest) /\ fork_parent T x = Some None /\
    is_ancestor T x y = Some true /\
    forall x', fork_parent T x' = Some None -> is_ancestor T x' y = Some true -> x' = x.
Proof.
  intros [f Hf] Hslab Hy. assert (Hin : y ∈ fids f). { apply Hf. by apply fmap_is_Some in Hy. }
  apply fpath_is_Some in Hin as [l Hl]. destruct (fork_path_root T f l y Hf Hl) as (l' & x & -> & Hx & Hu).
  exists x, (rev l'). rewrite (root_to_node_path_rep T f y (l' ++ [x])) by done. rewrite rev_unit. split; [done|].
  split; [done|]. split.
  - apply (is_ancestor_rep T f); [done|]. exists (l' ++ [x]). split; [done|]. apply elem_of_app. right. by left.
  - intros x' Hx' (l2 & Hl2 & Hin)%(is_ancestor_rep T f); [|done]. apply Hu; congruence.
Qed.

Lemma try_advance_step self :
  async_inv self -> exists u self', try_advance_output self = Some (u, self') /\ advance_step self u self'.
Proof.
  intros Hinv. pose proof Hinv as [A1 A2 A3 A4 A5 A6 A7 A8]. unfold try_advance_output. set (T := non_finalized_blocks self) in *.
  assert (Hnf : exists nf, (match input_finalized_index self with
      | None => Some None
      | Some y =>
          let! path := root_to_node_path T y in
          match path with
          | [] => Some None
          | node_index :: _ => let! c := fork_get T node_index in Some (if is_reported c then Some node_index else None)
          end
      end) = Some nf /\ match nf with Some x => finalizable self x | None => forall x, ~ finalizable self x end).
  { destruct (input_finalized_index self) as [y|] eqn:Ey.
    2: { exists None. split; [done|]. intros x (y & b & Hy & _). congruence. }
    destruct (fork_root T y A1 A2 (A6 y eq_refl)) as (x & rest & -> & Hx & Hxy & Hu).
    assert (Hxg : is_Some (fork_get T x)) by (apply fork_get_parent; eauto). destruct Hxg as [b Hb]. rewrite Hb.
    eexists. split; [done|]. destruct (is_reported b) eqn:Er; [by exists y, b|].
    intros x' (y' & b' & Hy' & Hx' & Hxy' & Hb' & Hr'). assert (y' = y) as -> by congruence.
    rewrite (Hu x' Hx' Hxy') in Hb'. fold T in Hb'. congruence. }
  destruct Hnf as ([x|] & -> & Hnf).
  - destruct (advance_finalized_spec self x Hinv Hnf) as (u & self' & -> & Hstep). eauto.
  - destruct (report_loop_spec self (iter_unordered T).*1 Hinv Hnf) as [(u & self' & -> & Hstep)|[-> Hno]]; [|eauto|].
    { intros k. apply elem_of_iter_keys. }
    assert (Hno' : forall k, ~ reportable self k).
    { intros k Hk. apply (Hno k); [|done]. apply elem_of_iter_keys. destruct Hk as (b & _ & Hb & _). eauto. }
    destruct (inv_best_weight self Hinv) as [w Hw].
    destruct (advance_best_spec self w Hw) as [[-> Hm]|(k & b & -> & Hb & Hr & Hlt & Hm)].
    + exists None, self. split; [done|]. by apply step_none.
    + exists (Some (UBestBlockChanged (Some k))), (with_best (Some k) self). split; [done|]. by eapply step_best.
Qed.

(** *** The invariant *)

Lemma step_inv self u self' : async_inv self -> advance_step self u self' -> async_inv self'.
Proof.
  intros Hinv Hstep. pose proof Hinv as [A1 A2 A3 A4 A5 A6 A7 A8].
  destruct Hstep as [x b data t' best pruned Hfin Hb Hop Hpr _ Hbest _|k b data t' w _ Hrep Hb Hop Hup Hw
    |k b w _ _ _ Hb Hr _ _|_ _ _]; [| | |done].
  - assert (Hr : is_reported b = true) by (unfold is_reported; by rewrite Hop).
    split; cbn [finalized_state non_finalized_blocks next_async_op_id input_best_block_next_weight finalized_block_weight
      best_block_index input_finalized_index].
    + apply (pr_rep _ _ _ Hpr).
    + apply fork_get_None. destruct (fork_get t' _) as [c|] eqn:E; [|done].
      apply (pr_get _ _ _ Hpr) in E as [E _]. apply fork_get_None in A2. congruence.
    + by eapply prune_ops.
    + by eapply prune_weights.
    + done.
    + intros y. case_bool_decide as E; [done|]. intros Hy. destruct Hfin as (y' & b' & Hy' & _ & Hxy & _).
      assert (y' = y) as -> by congruence. destruct (A6 y Hy) as [c Hc]. exists c. apply (pr_get _ _ _ Hpr).
      split; [done|]. split; [done|]. congruence.
    + done.
    + done.
  - set (g := fun (j : Z) c => if decide (j = k) then set_async_op (Finished data true) c else c) in *.
    assert (Hinv' : async_inv (with_blocks t' self)).
    { apply (inv_updates self _ g); try done; [| | |by left].
      - intros j c _ Hr. unfold g. by case_decide.
      - destruct Hrep as (b' & d & Hb' & Hop' & Hpar). by eapply report_ops.
      - eapply weights_updates; [done| |done]. intros j c. unfold g. by case_decide. }
    destruct Hinv' as [B1 B2 B3 B4 B5 B6 B7 B8]. split; try done. intros j. cbn [with_best best_block_index].
    destruct (w <? input_best_block_weight b); [|apply B5]. intros [= <-]. exists (g k b).
    split; [by eapply updates_fwd|]. unfold g. by rewrite decide_True.
  - split; try done. cbn. intros j [= <-]. eauto.
Qed.

(** ** The updates describe the output *)

Record OutputView := mkView {
  out_blocks : gmap Z (TBl * TAsync);
  out_best : option NodeIndex;
  out_finalized : TAsync
}.

Definition out_entry b : option (TBl * TAsync) := pair (user_data b) <$> output_data b.

Definition output_of self : OutputView :=
  {| out_blocks := omap (fun n => out_entry (data n)) (nodes (non_finalized_blocks self));
     out_best := best_block_index self;
     out_finalized := finalized_async_user_data self |}.

(** What a client that only sees the updates does. *)
Definition apply_update (u : OutputUpdate TBl TAsync) (o : OutputView) : OutputView :=
  match u with
  | UFinalized x _ data _ best pruned =>
      mkView (delete x (foldr delete (out_blocks o) (pruned.*1.*1))) best data
  | UBlock ub =>
      mkView (<[ub_index ub := (ub_user_data ub, ub_async_op_user_data ub)]> (out_blocks o))
        (if ub_is_new_best ub then Some (ub_index ub) else out_best o) (out_finalized o)
  | UBestBlockChanged best => mkView (out_blocks o) best (out_finalized o)
  end.

(** The best block of the output is part of it. *)
Definition best_in (o : OutputView) : Prop := forall k, out_best o = Some k -> is_Some (out_blocks o !! k).

(** What the documentation of [OutputUpdate] says of the values: blocks are
    finalized and reported one after the other, without gap; the data are those
    reported before; the pruned blocks are all those that were in the tree and do not descend
    from the new finalized block, with the data of their operation exactly if they were part of
    the output. A reported block comes with its data and those of its operation. *)
Definition update_valid self (u : OutputUpdate TBl TAsync) : Prop :=
  let o := output_of self in
  match u with
  | UFinalized x ud data former _ pruned =>
      fork_parent (non_finalized_blocks self) x = Some None /\ out_blocks o !! x = Some (ud, data) /\
      former = out_finalized o /\ prunes self x pruned /\
      (forall k ud oa, (k, ud, oa) ∈ pruned -> out_blocks o !! k = pair ud <$> oa)
  | UBlock ub =>
      out_blocks o !! ub_index ub = None /\
      (exists b, fork_get (non_finalized_blocks self) (ub_index ub) = Some b /\ ub_user_data ub = user_data b /\
         async_op b = Finished (ub_async_op_user_data ub) false) /\
      (forall p, fork_parent (non_finalized_blocks self) (ub_index ub) = Some (Some p) -> is_Some (out_blocks o !! p))
  | UBestBlockChanged best => best <> out_best o
  end.

Lemma out_blocks_lookup self k :
  out_blocks (output_of self) !! k = fork_get (non_finalized_blocks self) k ≫= out_entry.
Proof.
  unfold output_of, fork_get. cbn [out_blocks]. rewrite lookup_omap. by destruct (nodes _ !! k).
Qed.

Lemma out_entry_None b : out_entry b = None <-> is_reported b = false.
Proof. unfold out_entry, output_data, is_reported. by destruct (async_op b) as [d []| |]. Qed.

Lemma out_entry_Some b : is_reported b = true -> is_Some (out_entry b).
Proof. unfold out_entry, output_data, is_reported. destruct (async_op b) as [d []| |]; cbn; by eauto. Qed.

Lemma output_ext (o o' : OutputView) :
  (forall k, out_blocks o !! k = out_blocks o' !! k) -> out_best o = out_best o' -> out_finalized o = out_finalized o' -> o = o'.
Proof. destruct o, o'; cbn. intros Hb -> ->. f_equal. by apply map_eq. Qed.

Lemma finalized_output self x b data t' pruned :
  async_inv self -> finalizable self x -> fork_get (non_finalized_blocks self) x = Some b -> async_op b = Finished data true ->
  pruned_to (non_finalized_blocks self) t' x ->
  prunes self x pruned ->
  forall k, fork_get t' k ≫= out_entry =
    delete x (foldr delete (out_blocks (output_of self)) (pruned.*1.*1)) !! k.
Proof.
  intros Hinv Hfin Hb Hop Hpr [_ Hpruned] k. set (T := non_finalized_blocks self) in *.
  assert (Hkey : k ∈ pruned.*1.*1 <-> exists c, fork_get T k = Some c /\ k <> x /\ ~ is_ancestor T x k = Some true).
  { rewrite list_elem_of_fmap. split.
    - intros ([k' ud] & -> & ([[k2 ud2] oa] & [= -> ->] & Hin)%list_elem_of_fmap). apply Hpruned in Hin as (c & ? & ? & ? & _). eauto.
    - intros (c & Hc & Hne & Hna). exists (k, user_data c). split; [done|]. apply list_elem_of_fmap.
      exists (k, user_data c, output_data c). split; [done|]. apply Hpruned. eauto 10. }
  destruct (decide (k = x)) as [->|Hne].
  - rewrite lookup_delete_eq. destruct (fork_get t' x) as [c|] eqn:E; [|done].
    apply (pr_get _ _ _ Hpr) in E as (_ & _ & ?). done.
  - rewrite lookup_delete_ne by done. destruct (decide (k ∈ pruned.*1.*1)) as [Hin|Hin].
    + rewrite lookup_foldr_delete by done. destruct (fork_get t' k) as [c|] eqn:E; [|done].
      apply (pr_get _ _ _ Hpr) in E as (_ & Ha & _). apply Hkey in Hin as (? & _ & _ & ?). done.
    + rewrite lookup_foldr_delete_not_elem_of, out_blocks_lookup by done. fold T.
      destruct (fork_get T k) as [c|] eqn:E.
      * assert (Ha : is_ancestor T x k = Some true).
        { destruct (decide (is_ancestor T x k = Some true)); [done|]. destruct Hin. apply Hkey. eauto. }
        assert (E' : fork_get t' k = Some c) by (by apply (pr_get _ _ _ Hpr)). by rewrite E'.
      * destruct (fork_get t' k) as [c|] eqn:E'; [|done]. apply (pr_get _ _ _ Hpr) in E' as [? _]. congruence.
Qed.

Lemma step_output self u self' :
  async_inv self -> advance_step self (Some u) self' ->
  output_of self' = apply_update u (output_of self) /\ update_valid self u /\ best_in (output_of self').
Proof.
  intros Hinv Hstep. pose proof (step_inv _ _ _ Hinv Hstep) as Hinv'. split; [|split].
  3: { intros k Hk. rewrite out_blocks_lookup. destruct (ai_best _ Hinv' k Hk) as (b & -> & Hr). by apply out_entry_Some. }
  - inversion Hstep; subst; apply output_ext; try done.
    + intros k. rewrite out_blocks_lookup. by eapply finalized_output.
    + intros j. rewrite out_blocks_lookup. cbn [apply_update out_blocks ub_index ub_user_data ub_async_op_user_data].
      rewrite lookup_insert. change (non_finalized_blocks (with_best _ (with_blocks t' self))) with t'.
      match goal with Hup : updates _ t' _ |- _ => rewrite (up_get _ _ _ Hup) end. case_decide; subst.
      * match goal with Hb : fork_get _ _ = Some _ |- _ => rewrite Hb end. cbn. rewrite decide_True by done. done.
      * rewrite decide_False by congruence. rewrite out_blocks_lookup. by destruct (fork_get _ j).
  - inversion Hstep; subst; cbn [update_valid].
    + match goal with Hf : finalizable _ _ |- _ => destruct Hf as (y & c & _ & Hroot & _) end.
      split; [done|]. split; [|split; [done|split; [done|]]].
      * rewrite out_blocks_lookup. match goal with Hb : fork_get _ _ = Some _, Ho : async_op _ = _ |- _ => rewrite Hb; cbn;
          unfold out_entry, output_data; by rewrite Ho end.
      * intros k ud oa Hin. match goal with Hp : prunes _ _ _ |- _ => apply Hp in Hin as (e & He & _ & _ & -> & ->) end.
        by rewrite out_blocks_lookup, He.
    + cbn [ub_index]. match goal with Hr : reportable _ _ |- _ => destruct Hr as (c & d & Hc & Hop & Hpar) end. split; [|split; [by eauto|]].
      * rewrite out_blocks_lookup, Hc. cbn. apply out_entry_None. unfold is_reported. by rewrite Hop.
      * intros p Hp. destruct (ai_rep _ Hinv) as [f Hf]. destruct (fork_parent_get _ _ _ _ Hf Hp) as [bp Hbp].
        rewrite out_blocks_lookup, Hbp. apply out_entry_Some. by eapply Hpar.
    + intros E. unfold output_of in E. cbn in E. 
      match goal with Hw : output_best_weight self = Some _ |- _ => unfold output_best_weight in Hw; rewrite <- E in Hw end.
      match goal with Hb : fork_get _ _ = Some _ |- _ => rewrite Hb in * end. cbn in *. naive_solver lia.
Qed.

End output.
