(* ===== verification/AsyncTreeRun.v ===== *)
(** * Runs of the asynchronous tree

    The calls of the public interface as a state machine, the loop of the callers
    of [try_advance_output], and the main theorems. *)

From S2P Require Import Prelude BTree ForkTree ForkTreePrune ForkTreeFacts AsyncTree AsyncTreeInv AsyncTreeOps AsyncTreeOutput.

Open Scope Z_scope.

Section run.
Context {TNow TBl TAsync : Type} `{Instant TNow} `{Platform}.

Abbreviation AsyncTree := (AsyncTree TNow TBl TAsync) (only parsing).
Abbreviation Block := (Block TNow TBl TAsync) (only parsing).
Implicit Types (b : Block) (self : AsyncTree).

(** ** Calls *)

(** The calls that change the state. [new_index] is the key that the slab
    chooses. *)
Inductive call :=
  | InputInsertBlock (new_index : usize) (block : TBl) (parent : option NodeIndex) (same best : bool)
  | InputSetBestBlock (new_best_block : NodeIndex)
  | InputFinalize (node_to_finalize new_best_block : NodeIndex)
  | NextNecessaryOp (now : TNow)
  | OpFinished (id : AsyncOpId) (data : TAsync)
  | OpFailure (id : AsyncOpId) (now : TNow)
  | TryAdvanceOutput.

(** The new state, and the update of the output. [None] is a panic. *)
Definition run_call self (c : call) : option (option (OutputUpdate TBl TAsync) * AsyncTree) :=
  match c with
  | InputInsertBlock new block parent same best =>
      let! (_, self) := input_insert_block self new block parent same best in Some (None, self)
  | InputSetBestBlock k => let! s := input_set_best_block self k in Some (None, s)
  | InputFinalize k best => let! s := input_finalize self k best in Some (None, s)
  | NextNecessaryOp now => let! (_, self) := next_necessary_async_op self now in Some (None, self)
  | OpFinished id data => let! (_, self) := async_op_finished self id data in Some (None, self)
  | OpFailure id now => let! s := async_op_failure self id now in Some (None, s)
  | TryAdvanceOutput => try_advance_output self
  end.

(** The conditions that the documentation puts on the arguments, that the slab
    chooses a free key, and that the counters do not overflow. *)
Definition call_ok self (c : call) : Prop :=
  let T := non_finalized_blocks self in
  let weight_left := input_best_block_next_weight self + 1 < 2 ^ 32 in
  match c with
  | InputInsertBlock new _ parent _ _ =>
      fork_get T new = None /\ new <> 2 ^ usize_bits - 1 /\
      (forall p, parent = Some p -> is_Some (fork_get T p)) /\ weight_left
  | InputSetBestBlock k =>
      is_Some (fork_get T k) /\ (forall y, input_finalized_index self = Some y -> is_ancestor T y k = Some true) /\ weight_left
  | InputFinalize k best => is_ancestor T k best = Some true /\ weight_left
  | NextNecessaryOp _ => next_async_op_id self + 1 < 2 ^ 64
  | OpFinished _ _ | OpFailure _ _ | TryAdvanceOutput => True
  end.

Inductive reachable (config : Config TAsync) : AsyncTree -> Prop :=
  | reach_new : reachable config (AsyncTree_new config)
  | reach_call self c u self' :
      reachable config self -> call_ok self c -> run_call self c = Some (u, self') -> reachable config self'.

Definition apply_updates (us : list (OutputUpdate TBl TAsync)) (o : OutputView (TBl := TBl) (TAsync := TAsync)) : OutputView :=
  foldl (fun o u => apply_update u o) o us.

(** A change of the blocks that the output does not see. *)
Lemma same_output self self' g :
  updates (non_finalized_blocks self) (non_finalized_blocks self') g ->
  (forall k b, fork_get (non_finalized_blocks self) k = Some b -> out_entry (g k b) = out_entry b) ->
  best_block_index self' = best_block_index self ->
  finalized_async_user_data self' = finalized_async_user_data self -> output_of self' = output_of self.
Proof.
  intros Hup Hg Hb Hf. apply output_ext; [|done|done]. intros k. rewrite !out_blocks_lookup, (up_get _ _ _ Hup).
  destruct (fork_get _ k) as [b|] eqn:E; [|done]. cbn. by apply Hg.
Qed.

Lemma unreported_entry b b' : is_reported b = false -> is_reported b' = false -> out_entry b' = out_entry b.
Proof. intros ->%out_entry_None ->%out_entry_None. done. Qed.

Lemma with_input_finalized_same self : with_input_finalized (input_finalized_index self) self = self.
Proof. by destruct self. Qed.

Lemma update_weight_output self k fin :
  async_inv self -> is_Some (fork_get (non_finalized_blocks self) k) ->
  (forall x, fin = Some x -> is_Some (fork_get (non_finalized_blocks self) x)) ->
  input_best_block_next_weight self + 1 < 2 ^ 32 ->
  exists self', update_weight (with_input_finalized fin self) k = Some self' /\ async_inv self' /\ output_of self' = output_of self.
Proof.
  intros Hinv Hk Hfin Hw.
  destruct (inv_update_weight self k fin Hinv Hk Hfin Hw) as (self' & E & Hinv' & [nw Hup] & _ & Hb & Hd & _).
  exists self'. split; [done|]. split; [done|]. eapply same_output; [done| |done|done].
  intros j b _. cbn. by case_decide.
Qed.

(** What each call does to the invariant and to the output. *)
Definition call_spec self (r : option (option (OutputUpdate TBl TAsync) * AsyncTree)) : Prop :=
  exists u self', r = Some (u, self') /\ async_inv self' /\
    match u with
    | Some u => output_of self' = apply_update u (output_of self) /\ update_valid self u
    | None => output_of self' = output_of self
    end.

Lemma insert_spec self new block par same best :
  async_inv self -> call_ok self (InputInsertBlock new block par same best) ->
  call_spec self (run_call self (InputInsertBlock new block par same best)).
Proof.
  intros Hinv (Hnew & Hmax & Hpar & Hw).
  destruct (inv_input_insert_block self new block par same best Hinv Hnew Hmax Hpar Hw)
    as (self' & d & E & Hinv' & Hins & Hud & Hr & _ & Hb & Hf).
  exists None, self'. cbn [run_call]. rewrite E. split; [done|]. split; [done|]. apply output_ext; [|done|done].
  intros k. rewrite !out_blocks_lookup, (in_get _ _ _ _ _ Hins). case_decide as Ek; [|done]. subst k. rewrite Hnew. cbn.
  by apply out_entry_None.
Qed.

Lemma next_spec self now :
  async_inv self -> call_ok self (NextNecessaryOp now) -> call_spec self (run_call self (NextNecessaryOp now)).
Proof.
  intros Hinv Hid. cbn in Hid. destruct (next_answered self now Hinv Hid) as (r & self' & E & Hor).
  exists None, self'. cbn [run_call]. rewrite E. split; [done|].
  destruct Hor as [(idx & (_ & Hinv' & Hst & _) & _)|(when & _ & -> & _)]; [|done]. split; [done|].
  destruct (st_state _ _ _ _ Hst) as (t' & g & -> & Hup & Hg). eapply same_output; [done| |done|done].
  intros k b Hb. destruct (Hg k b Hb) as [-> |[Hp ->]]; [done|]. apply unreported_entry; [|done].
  unfold is_pending, is_reported in *. by destruct (async_op b).
Qed.

Lemma finished_spec self id data : async_inv self -> call_spec self (run_call self (OpFinished id data)).
Proof.
  intros Hinv. destruct (async_op_finished_updates self id data (ai_rep _ Hinv)) as (l & t' & E & Hup & _).
  destruct (inv_async_op_finished self id data Hinv) as (l' & self' & E' & Hinv' & _).
  exists None, self'. cbn [run_call]. rewrite E'. split; [done|]. split; [done|].
  assert (self' = with_blocks t' self) as -> by congruence. eapply same_output; [done| |done|done].
  intros k b Hb. destruct (finish_block_case id data b) as [[Hid ->]|[_ ->]]; [|done].
  apply in_progress_only in Hid as [Hr _]. by apply unreported_entry.
Qed.

Lemma failure_spec self id now : async_inv self -> call_spec self (run_call self (OpFailure id now)).
Proof.
  intros Hinv. destruct (async_op_failure_updates self id now (ai_rep _ Hinv)) as (t' & E & Hup).
  destruct (inv_async_op_failure self id now Hinv) as (self' & E' & Hinv' & _).
  exists None, self'. cbn [run_call]. rewrite E'. split; [done|]. split; [done|].
  assert (self' = with_blocks t' self) as -> by congruence. eapply same_output; [done| |done|done].
  intros k b Hb. destruct (fail_block_case (non_finalized_blocks self) id (instant_add now (retry_after_failed self)) k b)
    as [[Hid [to ->]]|[_ ->]]; [|done].
  apply in_progress_only in Hid as [Hr _]. by apply unreported_entry.
Qed.

Lemma run_call_spec self c : async_inv self -> call_ok self c -> call_spec self (run_call self c).
Proof.
  intros Hinv Hok. destruct c as [new block par same best|k|k best|now|id data|id now|].
  - by apply insert_spec.
  - destruct Hok as (Hk & Hfin & Hw). cbn [run_call]. unfold input_set_best_block.
    destruct (update_weight_output self k (input_finalized_index self) Hinv Hk (ai_finalized _ Hinv) Hw) as (self' & E & ? & ?).
    rewrite with_input_finalized_same in E. exists None, self'.
    destruct (input_finalized_index self) as [y|]; [rewrite (Hfin y eq_refl)|]; by rewrite E.
  - destruct Hok as (Hk & Hw). cbn [run_call]. unfold input_finalize. rewrite Hk.
    destruct (ancestor_get _ _ _ (ai_rep _ Hinv) Hk) as [Hkg Hbg].
    destruct (update_weight_output self best (Some k) Hinv Hbg) as (self' & E & ? & ?); [by intros x [= <-]|done|].
    rewrite E. by exists None, self'.
  - by apply next_spec.
  - by apply finished_spec.
  - by apply failure_spec.
  - destruct (try_advance_step self Hinv) as (u & self' & E & Hstep). exists u, self'. cbn [run_call].
    split; [done|]. split; [by eapply step_inv|]. destruct u as [u|].
    + destruct (step_output self u self' Hinv Hstep) as (? & ? & _). done.
    + by inversion Hstep.
Qed.

Lemma reachable_inv config self : reachable config self -> async_inv self.
Proof.
  induction 1 as [|self c u self' Hr IH Hok E]; [apply inv_new|].
  destruct (run_call_spec self c IH Hok) as (u' & s' & E' & Hinv' & _). congruence.
Qed.

(** ** The loop on [try_advance_output] *)

(** [try_advance_output] until it returns [None], as its documentation asks. *)
Fixpoint drain (fuel : nat) self : option (list (OutputUpdate TBl TAsync) * AsyncTree) :=
  match fuel with
  | O => None
  | S fuel =>
      let! (update, self) := try_advance_output self in
      match update with
      | None => Some ([], self)
      | Some update =>
          let! (updates, self) := drain fuel self in
          Some (update :: updates, self)
      end
  end.

(** The blocks, and those that are not part of the output. *)
Definition unreported (T : ForkTree Block) : gset Z :=
  filter (fun k => match fork_get T k with Some b => is_reported b | None => true end = false) (dom (nodes T)).

Definition drain_measure self : nat :=
  size (dom (nodes (non_finalized_blocks self))) + size (unreported (non_finalized_blocks self)).

Lemma elem_of_dom_get (T : ForkTree Block) k : k ∈ dom (nodes T) <-> is_Some (fork_get T k).
Proof. rewrite elem_of_dom. unfold fork_get. by rewrite fmap_is_Some. Qed.

Lemma elem_of_unreported (T : ForkTree Block) k :
  k ∈ unreported T <-> exists b, fork_get T k = Some b /\ is_reported b = false.
Proof.
  unfold unreported. rewrite elem_of_filter, elem_of_dom_get. split.
  - intros [Hb [b E]]. rewrite E in Hb. eauto.
  - intros (b & Hb & Hr). rewrite Hb. eauto.
Qed.

Lemma step_measure self u self' :
  async_inv self -> advance_step self (Some u) self' ->
  (drain_measure self' < drain_measure self)%nat \/ advance_step self' None self'.
Proof.
  intros Hinv Hstep. inversion Hstep as [x b data t' best pruned Hfin Hb Hop Hpr _ _ _|k b data t' w _ Hrep Hb Hop Hup _
    |k b w Hnf Hnr Hw Hb Hr Hlt Hmax|]; subst.
  - left. unfold drain_measure. cbn [finalized_state non_finalized_blocks]. set (T := non_finalized_blocks self) in *.
    assert (Hd : dom (nodes t') ⊂ dom (nodes T)).
    { split; [intros k|intros Hsub].
      - rewrite !elem_of_dom_get. intros [c [Hc _]%(pr_get _ _ _ Hpr)]. eauto.
      - assert (Hx : x ∈ dom (nodes t')) by (apply Hsub, elem_of_dom_get; eauto).
        apply elem_of_dom_get in Hx as [c (_ & _ & ?)%(pr_get _ _ _ Hpr)]. done. }
    assert (Hu : unreported t' ⊆ unreported T).
    { intros k. rewrite !elem_of_unreported. intros (c & [Hc _]%(pr_get _ _ _ Hpr) & Hr). eauto. }
    apply subset_size in Hd. apply subseteq_size in Hu. lia.
  - left. unfold drain_measure. cbn [with_best with_blocks non_finalized_blocks]. set (T := non_finalized_blocks self) in *.
    rewrite (up_dom _ _ _ Hup).
    assert (Hu : unreported t' ⊂ unreported T); [|apply subset_size in Hu; lia]. split; [intros j|intros Hsub].
    + rewrite !elem_of_unreported. intros (c' & (c & Hc & ->)%(updates_inv _ _ _ _ _ Hup) & Hr). exists c. split; [done|].
      revert Hr. case_decide; done.
    + assert (Hk : k ∈ unreported t').
      { apply Hsub, elem_of_unreported. exists b. split; [done|]. unfold is_reported. by rewrite Hop. }
      apply elem_of_unreported in Hk as (c' & (c & Hc & ->)%(updates_inv _ _ _ _ _ Hup) & Hr). by rewrite decide_True in Hr.
  - right. by apply step_none.
Qed.

Lemma step_none_try self : async_inv self -> advance_step self None self -> try_advance_output self = Some (None, self).
Proof.
  intros Hinv Hlast. destruct (try_advance_step self Hinv) as (u2 & self2 & -> & Hstep2).
  inversion Hlast as [| | |Hnf Hnr (w & Hw & Hmax)]. inversion Hstep2; subst; try done.
  - by destruct (Hnf x).
  - by destruct (Hnr k).
  - exfalso. assert (w0 = w) as -> by congruence.
    match goal with Hb : fork_get _ k = Some _, Hr : is_reported _ = true |- _ => specialize (Hmax k _ Hb Hr) end. lia.
Qed.

(** The loop ends, in a state that has no update left. *)
Lemma drain_ends n : forall self (P : AsyncTree -> Prop),
  async_inv self -> P self -> (drain_measure self + 2 <= n)%nat ->
  (forall s u s', async_inv s -> P s -> advance_step s (Some u) s' -> P s') ->
  exists us self', drain n self = Some (us, self') /\ async_inv self' /\ P self' /\ advance_step self' None self' /\
    output_of self' = apply_updates us (output_of self).
Proof.
  induction n as [|n IH]; intros self P Hinv HP Hn Hpres; [lia|].
  destruct (try_advance_step self Hinv) as ([u|] & self1 & E & Hstep); cbn [drain]; rewrite E.
  2: { assert (self1 = self) as -> by (by inversion Hstep). exists [], self. by split_and!. }
  pose proof (step_inv _ _ _ Hinv Hstep) as Hinv1. pose proof (Hpres _ _ _ Hinv HP Hstep) as HP1.
  destruct (step_output _ _ _ Hinv Hstep) as (Hout & _ & _).
  destruct (step_measure _ _ _ Hinv Hstep) as [Hlt|Hlast].
  - destruct (IH self1 P Hinv1 HP1 ltac:(lia) Hpres) as (us & self2 & E2 & Hinv2 & HP2 & Hend & Hout2).
    rewrite E2. exists (u :: us), self2. split_and!; try done. rewrite Hout2, Hout. done.
  - destruct n as [|n]; [lia|]. cbn [drain]. rewrite (step_none_try self1) by done. exists [u], self1. split_and!; done.
Qed.

(** *** Where the loop goes *)

Definition is_finished b : bool := match async_op b with Finished _ _ => true | _ => false end.

(** The block once it is part of the output. *)
Definition marked b : Block := match async_op b with Finished d _ => set_async_op (Finished d true) b | _ => b end.

(** The block stays when the input finalized block is finalized. *)
Definition survives self (k : NodeIndex) : Prop :=
  forall y, input_finalized_index self = Some y -> is_ancestor (non_finalized_blocks self) y k = Some true /\ k <> y.

(** The blocks and the data of the finalized block that the output is to have. *)
Definition goal_block self (k : NodeIndex) b' : Prop :=
  exists b, fork_get (non_finalized_blocks self) k = Some b /\ survives self k /\ b' = marked b.

Definition goal_data self (d : TAsync) : Prop :=
  match input_finalized_index self with
  | None => d = finalized_async_user_data self
  | Some y => exists b reported, fork_get (non_finalized_blocks self) y = Some b /\ async_op b = Finished d reported
  end.

Lemma finalized_goal self x b data t' best y :
  async_inv self -> finalizable self x -> fork_get (non_finalized_blocks self) x = Some b -> async_op b = Finished data true ->
  pruned_to (non_finalized_blocks self) t' x -> input_finalized_index self = Some y ->
  let self' := finalized_state self x t' data best (input_best_block_weight b) in
  (forall k b', goal_block self' k b' <-> goal_block self k b') /\ (forall d, goal_data self' d <-> goal_data self d).
Proof.
  intros Hinv Hfin Hb Hop Hpr Hy self'. pose proof (ai_rep _ Hinv) as Hwf. set (T := non_finalized_blocks self) in *.
  destruct Hfin as (y' & c & Hy' & Hroot & Hxy & _). assert (y' = y) as -> by congruence. fold T in Hroot, Hxy.
  unfold goal_block, goal_data, survives, self'. cbn [finalized_state non_finalized_blocks input_finalized_index finalized_async_user_data].
  fold T. rewrite Hy. destruct (decide (y = x)) as [->|Hne].
  - rewrite bool_decide_eq_true_2 by done. split.
    + intros k b'. split.
      * intros (e & (He & Ha & Hk)%(pr_get _ _ _ Hpr) & _ & ->). exists e. split; [done|]. split; [|done]. by intros ? [= <-].
      * intros (e & He & Hs & ->). exists e. destruct (Hs x eq_refl) as [Ha Hk]. split; [by apply (pr_get _ _ _ Hpr)|done].
    + intros d. split; [intros ->; by exists b, true|]. intros (e & r & He & Ho). congruence.
  - rewrite bool_decide_eq_false_2 by congruence.
    assert (Hyg : is_Some (fork_get t' y)).
    { destruct (ancestor_get _ _ _ Hwf Hxy) as [_ [e He]]. exists e. apply (pr_get _ _ _ Hpr). auto. }
    split.
    + intros k b'. split.
      * intros (e & He & Hs & ->). exists e. pose proof He as (He' & _)%(pr_get _ _ _ Hpr). split; [done|]. split; [|done].
        intros ? [= <-]. destruct (Hs y eq_refl) as [[Ha _]%(pr_ancestor _ _ _ Hpr) Hk]. done.
      * intros (e & He & Hs & ->). destruct (Hs y eq_refl) as [Ha Hk].
        assert (He' : fork_get t' k = Some e).
        { apply (pr_get _ _ _ Hpr). split; [done|]. split; [by eapply ancestor_trans|]. intros ->.
          apply ancestor_step in Ha as [?|(p & Hp & _)]; [done|congruence|done|eauto]. }
        exists e. split; [done|]. split; [|done]. intros ? [= <-]. split; [|done].
        apply (pr_ancestor _ _ _ Hpr). eauto.
    + intros d. destruct Hyg as [e He]. pose proof He as [He' _]%(pr_get _ _ _ Hpr).
      split; intros (e2 & r & He2 & Ho); exists e, r; (split; [done|]); fold T in He'; congruence.
Qed.

(** Every update keeps the goal. *)
Lemma step_goal self u self' :
  async_inv self -> (forall k b, fork_get (non_finalized_blocks self) k = Some b -> is_finished b = true) ->
  advance_step self (Some u) self' ->
  (forall k b, fork_get (non_finalized_blocks self') k = Some b -> is_finished b = true) /\
  (forall k b', goal_block self' k b' <-> goal_block self k b') /\ (forall d, goal_data self' d <-> goal_data self d).
Proof.
  intros Hinv Hall Hstep. inversion Hstep as [x b data t' best pruned Hfin Hb Hop Hpr _ _ _|k b data t' w _ Hrep Hb Hop Hup _
    |k b w Hnf Hnr Hw Hb Hr Hlt Hmax|]; subst; [| |done].
  - split; [intros k c [Hc _]%(pr_get _ _ _ Hpr); eauto|]. pose proof Hfin as (y & ? & Hy & _). by eapply finalized_goal.
  - set (T := non_finalized_blocks self) in *.
    set (g := fun (j : Z) c => if decide (j = k) then set_async_op (Finished data true) c else c) in *.
    assert (Hmark : forall j c, fork_get T j = Some c -> marked (g j c) = marked c).
    { intros j c Hc. unfold g. case_decide; [|done]. subst j. assert (c = b) as -> by congruence.
      unfold marked. by rewrite Hop. }
    unfold goal_block, goal_data, survives. cbn [with_best with_blocks non_finalized_blocks input_finalized_index finalized_async_user_data].
    fold T. split; [|split].
    + intros j c' (c & Hc & ->)%(updates_inv _ _ _ _ _ Hup). unfold g. case_decide; [done|eauto].
    + assert (Hanc : forall y j, is_ancestor t' y j = Some true <-> is_ancestor T y j = Some true).
      { intros y j. eapply updates_ancestor; [apply (ai_rep _ Hinv)|done]. }
      intros j b'. split.
      * intros (c' & (c & Hc & ->)%(updates_inv _ _ _ _ _ Hup) & Hs & ->). exists c. split; [done|]. split; [|by apply Hmark].
        intros y Hy. rewrite <- Hanc. auto.
      * intros (c & Hc & Hs & ->). exists (g j c). split; [by eapply updates_fwd|]. split; [|by rewrite Hmark].
        intros y Hy. rewrite Hanc. auto.
    + intros d. destruct (input_finalized_index self) as [y|]; [|done]. split.
      * intros (c' & r & (c & Hc & ->)%(updates_inv _ _ _ _ _ Hup) & Ho). exists c. revert Ho. unfold g. case_decide; [|eauto].
        subst y. assert (c = b) as -> by congruence. intros [= <- <-]. eauto.
      * intros (c & r & Hc & Ho). exists (g y c). unfold g at 2. case_decide as E.
        -- subst y. assert (c = b) as -> by congruence. assert (d = data) as -> by congruence.
           exists true. split; [by eapply updates_fwd|done].
        -- exists r. split; [by eapply updates_fwd|done].
Qed.

(** Nothing is left to do once every operation is finished. *)
Lemma quiescent self :
  async_inv self -> (forall k b, fork_get (non_finalized_blocks self) k = Some b -> is_finished b = true) ->
  advance_step self None self ->
  input_finalized_index self = None /\ best_maximal self /\
  forall k b, fork_get (non_finalized_blocks self) k = Some b -> is_reported b = true.
Proof.
  intros Hinv Hall Hstep. inversion Hstep as [| | |Hnf Hnr Hmax].
  pose proof Hinv as [[f Hf] A2 _ _ _ A6 _ _]. set (T := non_finalized_blocks self) in *.
  assert (Hrep : forall k, is_Some (fork_get T k) -> forall b, fork_get T k = Some b -> is_reported b = true).
  { assert (Hone : forall k b, fork_get T k = Some b ->
      (forall p bp, fork_parent T k = Some (Some p) -> fork_get T p = Some bp -> is_reported bp = true) -> is_reported b = true).
    { intros k b Hb Hpar. specialize (Hall k b Hb). unfold is_finished in Hall. unfold is_reported.
      destruct (async_op b) as [d []| |] eqn:Eop; try done. destruct (Hnr k). by exists b, d. }
    apply (fork_parent_ind T f (fun k => forall b, fork_get T k = Some b -> is_reported b = true) Hf).
    - intros k Hk b Hb. apply (Hone k b Hb). congruence.
    - intros k p Hk IH b Hb. apply (Hone k b Hb). intros q bq Hq Hbq. apply IH. congruence. }
  split; [|split; [done|eauto]]. destruct (input_finalized_index self) as [y|] eqn:Ey; [|done]. exfalso.
  destruct (fork_root T y) as (x & rest & _ & Hx & Hxy & _); [eauto|done|by apply A6|].
  assert (Hxg : is_Some (fork_get T x)) by (apply fork_get_parent; eauto). destruct Hxg as [b Hb].
  apply (Hnf x). exists y, b. split; [done|]. split; [done|]. split; [done|]. split; [done|]. eauto.
Qed.

End run.

(** ** Main results *)

Section results.
Context {TNow TBl TAsync : Type} `{Instant TNow} `{Platform}.

Abbreviation AsyncTree := (AsyncTree TNow TBl TAsync) (only parsing).
Implicit Types (self : AsyncTree).

(** C28: In every state that calls reach from a new tree, the invariant holds and
    a call whose arguments are as the documentation asks does not panic: the
    output best block is reported, the parent of a reported block is reported, a
    block that waits for the operation of its parent has a pending parent, the
    blocks of an operation have one root, and the weights are distinct. *)
Theorem async_tree_safe (config : Config TAsync) self :
  reachable config self ->
  async_inv self /\ forall c, call_ok self c -> exists u self', run_call self c = Some (u, self') /\ reachable config self'.
Proof.
  intros Hr. pose proof (reachable_inv _ _ Hr) as Hinv. split; [done|]. intros c Hok.
  destruct (run_call_spec self c Hinv Hok) as (u & self' & E & _). exists u, self'. split; [done|]. by eapply reach_call.
Qed.

(** C31: The updates describe the output: a client that applies the updates it gets has,
    after every call, the blocks of the output with their data, the output best block and
    the data of the finalized block. Only [try_advance_output] changes them, and each
    update is what its documentation says. The finalized block is a root of the tree and
    was reported; the blocks that come with it are exactly those of the tree that are
    neither the finalized block nor its descendants, each once, with the data of its
    operation if and only if it was part of the output. A reported block is new, its
    parent was reported before, and it comes with its user data and the data of its
    operation. *)
Theorem output_refines_updates self c :
  async_inv self -> call_ok self c ->
  exists u self', run_call self c = Some (u, self') /\ best_in (output_of self') /\
  match u with
  | Some u => c = TryAdvanceOutput /\ output_of self' = apply_update u (output_of self) /\ update_valid self u
  | None => output_of self' = output_of self
  end.
Proof.
  intros Hinv Hok. destruct (run_call_spec self c Hinv Hok) as (u & self' & E & Hinv' & Hu). exists u, self'.
  split; [done|]. split.
  - intros k Hk. rewrite out_blocks_lookup. destruct (ai_best _ Hinv' k Hk) as (b & -> & Hr). by apply out_entry_Some.
  - destruct u as [u|]; [|done]. split; [|done]. destruct c; cbn [run_call] in E; [..|done];
      repeat match type of E with context [match ?x with _ => _ end] => destruct x end; congruence.
Qed.

(** C27: Calling [try_advance_output] until it returns [None] takes at most twice
    the number of blocks, and two, calls. If the operations of all the blocks are
    finished, the output is then the input: the input finalized block is
    finalized with the data of its operation, the blocks left are its
    descendants, all of them reported, and no block has a higher weight than the
    output best block. *)
Theorem drain_reaches_input self :
  async_inv self ->
  exists us self', drain (2 * size (nodes (non_finalized_blocks self)) + 2) self = Some (us, self') /\
    async_inv self' /\ try_advance_output self' = Some (None, self') /\
    output_of self' = apply_updates us (output_of self) /\
    ((forall k b, fork_get (non_finalized_blocks self) k = Some b -> is_finished b = true) ->
       input_finalized_index self' = None /\
       (forall k b', fork_get (non_finalized_blocks self') k = Some b' <->
          exists b, fork_get (non_finalized_blocks self) k = Some b /\ survives self k /\ b' = marked b) /\
       goal_data self (finalized_async_user_data self') /\
       exists w, output_best_weight self' = Some w /\
         forall k b, fork_get (non_finalized_blocks self') k = Some b -> input_best_block_weight b <= w).
Proof.
  intros Hinv. set (n := (2 * size (nodes (non_finalized_blocks self)) + 2)%nat).
  assert (Hn : (drain_measure self + 2 <= n)%nat).
  { unfold drain_measure, n. assert (Hs : unreported (non_finalized_blocks self) ⊆ dom (nodes (non_finalized_blocks self))).
    { intros k (b & Hb & _)%elem_of_unreported. apply elem_of_dom_get. eauto. }
    apply subseteq_size in Hs. rewrite size_dom in *. lia. }
  set (all := forall k b, fork_get (non_finalized_blocks self) k = Some b -> is_finished b = true).
  set (P := fun s : AsyncTree => all ->
    (forall k b, fork_get (non_finalized_blocks s) k = Some b -> is_finished b = true) /\
    (forall k b', goal_block s k b' <-> goal_block self k b') /\ (forall d, goal_data s d <-> goal_data self d)).
  destruct (drain_ends n self P Hinv) as (us & self' & E & Hinv' & HP & Hend & Hout); [by intros Hall|done| |].
  { intros s u s' Hs HP Hstep Hall. destruct (HP Hall) as (H1 & H2 & H3).
    destruct (step_goal s u s' Hs H1 Hstep) as (G1 & G2 & G3). split; [done|]. split.
    - intros k b'. by rewrite G2, H2.
    - intros d. by rewrite G3, H3. }
  exists us, self'. split; [done|]. split; [done|]. split; [|split; [done|]].
  - by apply step_none_try.
  - intros Hall. destruct (HP Hall) as (H1 & H2 & H3). destruct (quiescent self' Hinv' H1 Hend) as (Hfin & (w & Hw & Hmax) & Hrep).
    split; [done|]. split; [|split].
    + intros k b'. fold (goal_block self k b'). rewrite <- H2. unfold goal_block, survives. rewrite Hfin.
      assert (Hm : forall b, fork_get (non_finalized_blocks self') k = Some b -> marked b = b).
      { intros b Hb. destruct (reported_finished b (Hrep k b Hb)) as [d Hd]. unfold marked. rewrite Hd.
        destruct b as [ud op wt]. cbn in *. by rewrite <- Hd. }
      split; [intros Hb; exists b'; rewrite Hm by done; done|]. intros (b & Hb & _ & ->). by rewrite Hm.
    + apply H3. unfold goal_data. by rewrite Hfin.
    + exists w. split; [done|]. intros k b Hb. eapply Hmax; eauto.
Qed.

End results.

(** ** Witnesses *)

Section witnesses.
#[local] Existing Instance platform64.

Lemma async_tree_safe_witness :
  let config := mkConfig Z 200 10 in
  let self : AsyncTree Z Z Z := ex_insert (AsyncTree_new config) 0 None false true in
  reachable config self /\ call_ok self (InputFinalize 0 0) /\
  exists u self', run_call self (InputFinalize 0 0) = Some (u, self') /\ reachable config self'.
Proof.
  intros config self.
  assert (Hr : reachable config self).
  { apply (reach_call config (AsyncTree_new config) (InputInsertBlock 0 100 None false true) None); [constructor| |by vm_compute].
    split; [done|]. split; [done|]. split; [done|by vm_compute]. }
  assert (Hok : call_ok self (InputFinalize 0 0)) by (split; by vm_compute).
  split; [exact Hr|]. split; [exact Hok|]. apply (async_tree_safe config self Hr). exact Hok.
Defined.

(** Both operations of the example are finished, and block 0 is finalized by the
    input. *)
Definition async_done : AsyncTree Z Z Z :=
  match input_finalize (ex_finish (ex_finish async_running 0) 1) 0 2 with Some s => s | None => async_running end.

Lemma async_done_inv : async_inv async_done.
Proof.
  set (s := ex_finish (ex_finish async_running 0) 1).
  assert (Hs : async_inv s). { apply ex_finish_inv, ex_finish_inv, async_running_inv. }
  destruct (run_call_spec s (InputFinalize 0 2) Hs) as (u & s' & E & Hinv & _); [split; by vm_compute|].
  assert (async_done = s') as ->; [|done]. unfold async_done. fold s. cbn [run_call] in E.
  destruct (input_finalize s 0 2); [congruence|done].
Qed.

Lemma output_refines_updates_witness :
  async_inv async_done /\ call_ok async_done TryAdvanceOutput /\
  exists u self', run_call async_done TryAdvanceOutput = Some (Some u, self') /\
    output_of self' = apply_update u (output_of async_done).
Proof.
  split; [exact async_done_inv|]. split; [exact I|].
  destruct (output_refines_updates async_done TryAdvanceOutput async_done_inv I) as (u & self' & E & _ & Hu).
  destruct u as [u|].
  - exists u, self'. split; [exact E|apply Hu].
  - exfalso. revert E. vm_compute. discriminate.
Defined.

(** Three blocks, of which one is finalized: three reports and a finalization. *)
Lemma drain_reaches_input_witness :
  async_inv async_done /\
  exists us self', drain 8 async_done = Some (us, self') /\ length us = 4%nat /\
    input_finalized_index self' = None /\ finalized_async_user_data self' = 201 /\ best_block_index self' = Some 2.
Proof.
  split; [exact async_done_inv|].
  destruct (drain_reaches_input async_done async_done_inv) as (us & self' & E & _).
  exists us, self'. split; [exact E|].
  assert (Er : match drain 8 async_done with
    | Some (us, s) => length us = 4%nat /\ input_finalized_index s = None /\ finalized_async_user_data s = 201 /\
        best_block_index s = Some 2
    | None => False end) by (vm_compute; auto).
  change (2 * size (nodes (non_finalized_blocks async_done)) + 2)%nat with 8%nat in E. rewrite E in Er. exact Er.
Defined.

End witnesses.

(** ** Documentation and code

    The field [input_finalized_index] is documented never to be the index of a
    block whose operation is finished; [input_finalize] stores it without looking
    at the block. *)
Lemma input_finalized_finished :
  exists b, input_finalized_index async_done = Some 0 /\
    fork_get (non_finalized_blocks async_done) 0 = Some b /\ is_finished b = true.
Proof. eexists. repeat (split; [vm_compute; reflexivity|]). vm_compute. reflexivity. Qed.

(** [async_op_finished] and [async_op_failure] are documented to panic on an
    identifier that is not in use; they do nothing. *)
Lemma unknown_op_ignored :
  async_op_finished async_example 77 0 = Some ([], async_example) /\
  async_op_failure async_example 77 0 = Some async_example.
Proof. split; vm_compute; reflexivity. Qed.
