(* ===== verification/LightPool.v ===== *)
(** * The transactions pool of the light client ([src/src/transactions/light_pool.rs])

    A collection of transactions, and a tree of blocks whose bodies are learned
    later. The pool records in which blocks each transaction was found and against
    which blocks it was validated, and reports what a change of the best block
    means for the transactions. This file has the operations; LightPoolInv.v has the
    invariant, LightPoolOps.v what each operation does and LightPoolRun.v the runs
    and the main theorems. *)

From S2P Require Import Prelude TrieNode BTree ForkTree ForkTreePrune.

Open Scope Z_scope.

(** ** Data *)

Abbreviation TransactionId := Z (only parsing).

(** [transactions::validate::ValidTransaction]. *)
Record ValidTransaction := mkValidTransaction {
  vt_priority : u64;
  vt_requires : list (list u8);
  vt_provides : list (list u8);
  vt_longevity : u64;
  vt_propagate : bool
}.

Record Validation := mkValidation {
  longevity_relative_block_height : u64;
  val_propagate : bool
}.

Inductive BodyState := Needed | NotNeeded | Known.

#[export] Instance BodyState_eq_dec : EqDecision BodyState.
Proof. solve_decision. Defined.

Section data.
Context (TTx TBl TErr : Type).

Record Transaction := mkTransaction {
  tx_scale_encoded : list u8;
  tx_user_data : TTx;
  finalized_chain_validation : option (u64 * result TErr Validation);
  best_chain_validation : option (result TErr Validation)
}.

Record LightBlock := mkLightBlock {
  relative_block_height : u64;
  lb_hash : Hash;
  lb_body : BodyState;
  lb_user_data : TBl
}.

Record LightPool := mkLightPool {
  transactions : gmap Z Transaction;
  (** Block, transaction; the index in the body of the block. *)
  transactions_by_inclusion : gmap (Z * Z) usize;
  (** Transaction, block. *)
  included_transactions : gset (Z * Z);
  (** Transaction, block. *)
  transaction_validations : gmap (Z * Z) (result TErr Validation);
  (** Block, transaction. *)
  transactions_by_validation : gset (Z * Z);
  (** Hash of the bytes, transaction. *)
  by_hash : gset (Z * Z);
  blocks_tree : ForkTree LightBlock;
  blocks_by_id : gmap Z NodeIndex;
  lp_best_block_index : option NodeIndex;
  finalized_block_index : option NodeIndex;
  blocks_tree_root_hash : Hash;
  blocks_tree_root_relative_height : u64
}.

Record SetBestBlock := mkSetBestBlock {
  retracted_transactions : list (TransactionId * Hash * usize);
  newly_included_transactions : list (TransactionId * Hash * usize)
}.

Record RemovedTransaction := mkRemovedTransaction {
  rt_id : TransactionId;
  rt_index_in_block : usize;
  rt_scale_encoding : list u8;
  rt_user_data : TTx
}.

Record PruneBodyFinalized := mkPruneBodyFinalized {
  pbf_block_hash : Hash;
  pbf_user_data : TBl;
  pbf_included_transactions : list RemovedTransaction
}.
End data.

Arguments mkTransaction {TTx TErr} _ _ _ _.
Arguments tx_scale_encoded {TTx TErr} t : rename.
Arguments tx_user_data {TTx TErr} t : rename.
Arguments finalized_chain_validation {TTx TErr} t : rename.
Arguments best_chain_validation {TTx TErr} t : rename.
Arguments mkLightBlock {TBl} _ _ _ _.
Arguments relative_block_height {TBl} l : rename.
Arguments lb_hash {TBl} l : rename.
Arguments lb_body {TBl} l : rename.
Arguments lb_user_data {TBl} l : rename.
Arguments mkLightPool {TTx TBl TErr} _ _ _ _ _ _ _ _ _ _ _ _.
Arguments transactions {TTx TBl TErr} l : rename.
Arguments transactions_by_inclusion {TTx TBl TErr} l : rename.
Arguments included_transactions {TTx TBl TErr} l : rename.
Arguments transaction_validations {TTx TBl TErr} l : rename.
Arguments transactions_by_validation {TTx TBl TErr} l : rename.
Arguments by_hash {TTx TBl TErr} l : rename.
Arguments blocks_tree {TTx TBl TErr} l : rename.
Arguments blocks_by_id {TTx TBl TErr} l : rename.
Arguments lp_best_block_index {TTx TBl TErr} l : rename.
Arguments finalized_block_index {TTx TBl TErr} l : rename.
Arguments blocks_tree_root_hash {TTx TBl TErr} l : rename.
Arguments blocks_tree_root_relative_height {TTx TBl TErr} l : rename.
Arguments mkRemovedTransaction {TTx} _ _ _ _.
Arguments rt_id {TTx} r : rename.
Arguments rt_index_in_block {TTx} r : rename.
Arguments rt_scale_encoding {TTx} r : rename.
Arguments rt_user_data {TTx} r : rename.
Arguments mkPruneBodyFinalized {TTx TBl} _ _ _.
Arguments pbf_block_hash {TTx TBl} p : rename.
Arguments pbf_user_data {TTx TBl} p : rename.
Arguments pbf_included_transactions {TTx TBl} p : rename.

Section light_pool.
Context `{Platform} `{Blake2b} {TTx TBl TErr : Type}.

Abbreviation LightPool := (LightPool TTx TBl TErr) (only parsing).
Abbreviation Transaction := (Transaction TTx TErr) (only parsing).
Abbreviation Block := (LightBlock TBl) (only parsing).
(** [blake2_rfc::blake2b::blake2b(32, &[], bytes)], as a number. *)
Definition blake2_hash (bytes : list u8) : Hash := from_le_bytes (rev (blake2b_32 bytes)).

(** *** Assignments to fields *)

Definition with_transactions (v : gmap Z Transaction) (self : LightPool) : LightPool :=
  mkLightPool v (transactions_by_inclusion self) (included_transactions self) (transaction_validations self)
    (transactions_by_validation self) (by_hash self) (blocks_tree self) (blocks_by_id self) (lp_best_block_index self)
    (finalized_block_index self) (blocks_tree_root_hash self) (blocks_tree_root_relative_height self).
Definition with_inclusion (v : gmap (Z * Z) usize) (w : gset (Z * Z)) (self : LightPool) : LightPool :=
  mkLightPool (transactions self) v w (transaction_validations self)
    (transactions_by_validation self) (by_hash self) (blocks_tree self) (blocks_by_id self) (lp_best_block_index self)
    (finalized_block_index self) (blocks_tree_root_hash self) (blocks_tree_root_relative_height self).
Definition with_validation (v : gmap (Z * Z) (result TErr Validation)) (w : gset (Z * Z)) (self : LightPool) : LightPool :=
  mkLightPool (transactions self) (transactions_by_inclusion self) (included_transactions self) v
    w (by_hash self) (blocks_tree self) (blocks_by_id self) (lp_best_block_index self)
    (finalized_block_index self) (blocks_tree_root_hash self) (blocks_tree_root_relative_height self).
Definition with_by_hash (v : gset (Z * Z)) (self : LightPool) : LightPool :=
  mkLightPool (transactions self) (transactions_by_inclusion self) (included_transactions self)
    (transaction_validations self) (transactions_by_validation self) v (blocks_tree self) (blocks_by_id self)
    (lp_best_block_index self) (finalized_block_index self) (blocks_tree_root_hash self)
    (blocks_tree_root_relative_height self).
Definition with_tree (v : ForkTree Block) (w : gmap Z NodeIndex) (self : LightPool) : LightPool :=
  mkLightPool (transactions self) (transactions_by_inclusion self) (included_transactions self)
    (transaction_validations self) (transactions_by_validation self) (by_hash self) v w
    (lp_best_block_index self) (finalized_block_index self) (blocks_tree_root_hash self)
    (blocks_tree_root_relative_height self).
Definition with_heads (best finalized : option NodeIndex) (root : Hash) (self : LightPool) : LightPool :=
  mkLightPool (transactions self) (transactions_by_inclusion self) (included_transactions self)
    (transaction_validations self) (transactions_by_validation self) (by_hash self) (blocks_tree self) (blocks_by_id self)
    best finalized root (blocks_tree_root_relative_height self).

Definition with_best_block (best : option NodeIndex) (self : LightPool) : LightPool :=
  with_heads best (finalized_block_index self) (blocks_tree_root_hash self) self.

(** *** The ranges of the indices *)

Definition included_blocks (self : LightPool) (id : TransactionId) : list Hash :=
  snd <$> bset_range (id, hash_min) (id, hash_max) (included_transactions self).

Definition validated_blocks (self : LightPool) (id : TransactionId) : list Hash :=
  (fun e => snd (fst e)) <$> btree_range (id, hash_min) (id, hash_max) (transaction_validations self).

Definition block_inclusions (self : LightPool) (hash : Hash) : list (TransactionId * usize) :=
  (fun e => (snd (fst e), snd e)) <$> btree_range (hash, 0) (hash, usize_max) (transactions_by_inclusion self).

Definition block_validations (self : LightPool) (hash : Hash) : list TransactionId :=
  snd <$> bset_range (hash, 0) (hash, usize_max) (transactions_by_validation self).

(** ** Transactions *)

Definition LightPool_new (finalized_block_hash : Hash) : LightPool :=
  mkLightPool ∅ ∅ ∅ ∅ ∅ ∅ ForkTree_new ∅ None None finalized_block_hash 0.

Definition num_transactions (self : LightPool) : usize := Z.of_nat (size (transactions self)).

(** [new_id] is the key that the slab gives. *)
Definition add_unvalidated (self : LightPool) (new_id : TransactionId) (scale_encoded : list u8) (user_data : TTx)
    : TransactionId * LightPool :=
  let hash := blake2_hash scale_encoded in
  let self := with_transactions (<[new_id := mkTransaction scale_encoded user_data None None]> (transactions self)) self in
  (new_id, with_by_hash ({[(hash, new_id)]} ∪ by_hash self) self).

(** The two loops of the removal of a transaction. *)
Definition remove_included (id : TransactionId) (blocks : list Hash) (self : LightPool) : LightPool :=
  foldl (fun self block_hash =>
    with_inclusion (delete (block_hash, id) (transactions_by_inclusion self))
      (included_transactions self ∖ {[(id, block_hash)]}) self) self blocks.

Definition remove_validated (id : TransactionId) (blocks : list Hash) (self : LightPool) : LightPool :=
  foldl (fun self block_hash =>
    with_validation (delete (id, block_hash) (transaction_validations self))
      (transactions_by_validation self ∖ {[(block_hash, id)]}) self) self blocks.

(** What [remove_transaction] and [prune_finalized_with_body] both write out. *)
Definition take_transaction (self : LightPool) (id : TransactionId) : option (Transaction * LightPool) :=
  let! tx := transactions self !! id in
  let self := with_transactions (delete id (transactions self)) self in
  let blocks_included := included_blocks self id in
  let blocks_validated := validated_blocks self id in
  let self := remove_included id blocks_included self in
  let self := remove_validated id blocks_validated self in
  Some (tx, with_by_hash (by_hash self ∖ {[(blake2_hash (tx_scale_encoded tx), id)]}) self).

Definition remove_transaction (self : LightPool) (id : TransactionId) : option (list u8 * TTx * LightPool) :=
  let! (tx, self) := take_transaction self id in
  Some (tx_scale_encoded tx, tx_user_data tx, self).

(** [None] is the failure of [unwrap]. *)
Definition best_block_relative_height (self : LightPool) : option u64 :=
  match lp_best_block_index self with
  | Some idx => let! b := fork_get (blocks_tree self) idx in Some (relative_block_height b)
  | None => Some (blocks_tree_root_relative_height self)
  end.

Definition unvalidated_transactions (self : LightPool) : option (list (TransactionId * TTx)) :=
  let! best_block_relative_height := best_block_relative_height self in
  Some ((fun e => (fst e, tx_user_data (snd e))) <$>
    filter (fun e =>
      match best_chain_validation (snd e) with
      | None => true
      | Some (Ok v) => longevity_relative_block_height v <? best_block_relative_height
      | Some (Err _) => false
      end = true) (btree_iter (transactions self))).

Definition transactions_iter (self : LightPool) : list (TransactionId * TTx) :=
  (fun e => (fst e, tx_user_data (snd e))) <$> btree_iter (transactions self).

Definition set_tx_user_data (f : TTx -> TTx) (tx : Transaction) : Transaction :=
  mkTransaction (tx_scale_encoded tx) (f (tx_user_data tx)) (finalized_chain_validation tx) (best_chain_validation tx).

Definition transactions_iter_mut (self : LightPool) (f : TTx -> TTx) : LightPool :=
  with_transactions (set_tx_user_data f <$> transactions self) self.

Definition transaction_user_data (self : LightPool) (id : TransactionId) : option TTx := tx_user_data <$> transactions self !! id.

(** [None] when the function returns [None]; otherwise [f] is what the caller
    does through the reference. *)
Definition transaction_user_data_mut (self : LightPool) (id : TransactionId) (f : TTx -> TTx) : option LightPool :=
  let! tx := transactions self !! id in
  Some (with_transactions (<[id := set_tx_user_data f tx]> (transactions self)) self).

Definition scale_encoding (self : LightPool) (id : TransactionId) : option (list u8) := tx_scale_encoded <$> transactions self !! id.

Definition find_transaction (self : LightPool) (scale_encoded : list u8) : list TransactionId :=
  let hash := blake2_hash scale_encoded in
  snd <$> bset_range (hash, 0) (hash, usize_max) (by_hash self).

(** [self.best_block_index.map_or(false, |best| self.blocks_tree.is_ancestor(index, best))]. *)
Definition in_best_chain (self : LightPool) (index : NodeIndex) : option bool :=
  match lp_best_block_index self with
  | Some best_idx => is_ancestor (blocks_tree self) index best_idx
  | None => Some false
  end.

(** The search of the first block of the best chain. *)
Fixpoint any_in_best_chain (self : LightPool) (blocks : list Hash) : option bool :=
  match blocks with
  | [] => Some false
  | block_hash :: blocks =>
      let! block_index := blocks_by_id self !! block_hash in
      let! found := in_best_chain self block_index in
      if found : bool then Some true else any_in_best_chain self blocks
  end.

Definition is_included_best_chain (self : LightPool) (id : TransactionId) : option bool := any_in_best_chain self (included_blocks self id).

Definition is_valid_against_best_block (self : LightPool) (id : TransactionId) : option bool :=
  let! best_block_relative_height := best_block_relative_height self in
  let! tx := transactions self !! id in
  Some match best_chain_validation tx with
       | None => false
       | Some (Ok v) => best_block_relative_height <=? longevity_relative_block_height v
       | Some (Err _) => false
       end.

Definition invalid_transactions_best_block (self : LightPool) : list (TransactionId * TTx * TErr) :=
  omap (fun e => match best_chain_validation (snd e) with
                 | Some (Err err) => Some (fst e, tx_user_data (snd e), err)
                 | _ => None
                 end) (btree_iter (transactions self)).

Definition invalid_transactions_finalized_block (self : LightPool) : list (TransactionId * TTx * TErr) :=
  omap (fun e => match finalized_chain_validation (snd e) with
                 | Some (_, Err err) => Some (fst e, tx_user_data (snd e), err)
                 | _ => None
                 end) (btree_iter (transactions self)).

(** ** Validations *)

(** [self.transactions[id] = ...]: panics on a vacant key. *)
Definition update_tx (id : TransactionId) (f : Transaction -> Transaction) (self : LightPool) : option LightPool :=
  let! tx := transactions self !! id in
  Some (with_transactions (<[id := f tx]> (transactions self)) self).

Definition set_finalized_validation (v : option (u64 * result TErr Validation)) (tx : Transaction) : Transaction :=
  mkTransaction (tx_scale_encoded tx) (tx_user_data tx) v (best_chain_validation tx).
Definition set_best_validation (v : option (result TErr Validation)) (tx : Transaction) : Transaction :=
  mkTransaction (tx_scale_encoded tx) (tx_user_data tx) (finalized_chain_validation tx) v.

(** The index of a block, [None] for the root. The outer option is [unwrap]. *)
Definition block_index_of (self : LightPool) (hash : Hash) : option (option NodeIndex) :=
  if hash =? blocks_tree_root_hash self then Some None
  else let! idx := blocks_by_id self !! hash in Some (Some idx).

(** Whether the block is an ancestor of [head] or equal to it; [None] is the root. *)
Definition below_head (self : LightPool) (head index : option NodeIndex) : option bool :=
  match head, index with
  | None, None => Some true
  | Some _, None => Some true
  | None, Some _ => Some false
  | Some b, Some i => is_ancestor (blocks_tree self) i b
  end.

(** [u64::saturating_add]. *)
Definition saturating_add64 (a b : u64) : u64 := Z.min (a + b) u64_max.

Definition set_validation_result (self : LightPool) (id : TransactionId) (block_hash : Hash) (r : result TErr ValidTransaction) : option LightPool :=
  let! block_index := block_index_of self block_hash in
  let! block_relative_height :=
    match block_index with
    | Some block_index => let! b := fork_get (blocks_tree self) block_index in Some (relative_block_height b)
    | None => Some (blocks_tree_root_relative_height self)
    end in
  let! _ := transactions self !! id in
  let! block_is_in_best_chain := below_head self (lp_best_block_index self) block_index in
  let! block_is_finalized := below_head self (finalized_block_index self) block_index in
  let r :=
    match r with
    | Err err => Err err
    | Ok v => Ok (mkValidation (saturating_add64 block_relative_height (vt_longevity v)) (vt_propagate v))
    end in
  let! self :=
    if block_is_finalized : bool
    then update_tx id (set_finalized_validation (Some (block_relative_height, r))) self
    else Some self in
  let! self :=
    if block_is_in_best_chain : bool then update_tx id (set_best_validation (Some r)) self else Some self in
  Some (with_validation (<[(id, block_hash) := r]> (transaction_validations self))
          ({[(block_hash, id)]} ∪ transactions_by_validation self) self).

(** ** Blocks *)

(** [new_index] is the key that the slab of the tree gives. *)
Definition add_block (self : LightPool) (new_index : NodeIndex) (hash parent_hash : Hash) (user_data : TBl) : option LightPool :=
  let! (parent_index_in_tree, parent_relative_height) :=
    if parent_hash =? blocks_tree_root_hash self then Some (None, blocks_tree_root_relative_height self)
    else
      let! idx := blocks_by_id self !! parent_hash in
      let! b := fork_get (blocks_tree self) idx in
      Some (Some idx, relative_block_height b) in
  match blocks_by_id self !! hash with
  | Some _ => Some self
  | None =>
      let! (block_index, tree) := fork_insert (blocks_tree self) new_index parent_index_in_tree
        (mkLightBlock (wadd 64 parent_relative_height 1) hash
           (if Nat.eqb (size (transactions self)) 0 then NotNeeded else Needed) user_data) in
      Some (with_tree tree (<[hash := block_index]> (blocks_by_id self)) self)
  end.

(** The transactions validated against a retracted block. *)
Fixpoint retract_validations (ids : list TransactionId) (self : LightPool) : option LightPool :=
  match ids with
  | [] => Some self
  | id :: ids =>
      let! self := update_tx id (fun tx => set_best_validation (snd <$> finalized_chain_validation tx) tx) self in
      retract_validations ids self
  end.

Definition report_inclusions (self : LightPool) (hash : Hash) : list (TransactionId * Hash * usize) :=
  (fun '(id, index) => (id, hash, index)) <$> block_inclusions self hash.

Fixpoint retract_loop (indices : list NodeIndex) (self : LightPool) : option (list (TransactionId * Hash * usize) * LightPool) :=
  match indices with
  | [] => Some ([], self)
  | to_retract_index :: indices =>
      let! retracted := fork_get (blocks_tree self) to_retract_index in
      let out := report_inclusions self (lb_hash retracted) in
      let! self := retract_validations (block_validations self (lb_hash retracted)) self in
      let! (rest, self) := retract_loop indices self in
      Some (out ++ rest, self)
  end.

(** The transactions validated against a block that enters the best chain. *)
Fixpoint include_validations (hash : Hash) (ids : list TransactionId) (self : LightPool) : option LightPool :=
  match ids with
  | [] => Some self
  | id :: ids =>
      let! validation := transaction_validations self !! (id, hash) in
      let! self := update_tx id (set_best_validation (Some validation)) self in
      include_validations hash ids self
  end.

Fixpoint include_loop (indices : list NodeIndex) (self : LightPool) : option (list (TransactionId * Hash * usize) * LightPool) :=
  match indices with
  | [] => Some ([], self)
  | to_include_index :: indices =>
      let! included := fork_get (blocks_tree self) to_include_index in
      let out := report_inclusions self (lb_hash included) in
      let! self := include_validations (lb_hash included) (block_validations self (lb_hash included)) self in
      let! (rest, self) := include_loop indices self in
      Some (out ++ rest, self)
  end.

(** The blocks that leave the best chain and those that enter it. *)
Definition reorg_paths (self : LightPool) (old_best new_best : option NodeIndex) : option (list NodeIndex * list NodeIndex) :=
  match old_best, new_best with
  | Some old_best_index, Some new_best_block_index =>
      ascend_and_descend (blocks_tree self) old_best_index new_best_block_index
  | Some old_best_index, None =>
      let! ascend := node_to_root_path (blocks_tree self) old_best_index in Some (ascend, [])
  | None, Some new_best_block_index =>
      let! descend := root_to_node_path (blocks_tree self) new_best_block_index in Some ([], descend)
  | None, None => Some ([], [])
  end.

Definition set_best_block (self : LightPool) (new_best_block_hash : Hash) : option (SetBestBlock * LightPool) :=
  let! new_best_block_index := block_index_of self new_best_block_hash in
  let! (old_best_to_common_ancestor, common_ancestor_to_new_best) :=
    reorg_paths self (lp_best_block_index self) new_best_block_index in
  let! (retracted, self) := retract_loop old_best_to_common_ancestor self in
  let! (included, self) := include_loop common_ancestor_to_new_best self in
  Some (mkSetBestBlock retracted included, with_best_block new_best_block_index self).

Definition has_block (self : LightPool) (hash : Hash) : bool := bool_decide (is_Some (blocks_by_id self !! hash)).

Definition best_block_hash (self : LightPool) : option Hash :=
  match lp_best_block_index self with
  | Some idx => let! b := fork_get (blocks_tree self) idx in Some (lb_hash b)
  | None => Some (blocks_tree_root_hash self)
  end.

(** The outer option is a panic. *)
Definition block_user_data (self : LightPool) (hash : Hash) : option (option TBl) :=
  match blocks_by_id self !! hash with
  | None => Some None
  | Some index => let! b := fork_get (blocks_tree self) index in Some (Some (lb_user_data b))
  end.

Definition set_block_user_data (f : TBl -> TBl) (b : Block) : Block :=
  mkLightBlock (relative_block_height b) (lb_hash b) (lb_body b) (f (lb_user_data b)).

Definition block_user_data_mut (self : LightPool) (hash : Hash) (f : TBl -> TBl) : option (option LightPool) :=
  match blocks_by_id self !! hash with
  | None => Some None
  | Some index =>
      let! tree := fork_get_mut (blocks_tree self) index (set_block_user_data f) in
      Some (Some (with_tree tree (blocks_by_id self) self))
  end.

Definition set_body (v : BodyState) (b : Block) : Block :=
  mkLightBlock (relative_block_height b) (lb_hash b) v (lb_user_data b).

(** The loop over the blocks in which a transaction was found before. The result
    is [now_included], or nothing when the transaction is skipped. *)
Fixpoint existing_loop (block_index : NodeIndex) (id : TransactionId) (existing : list Hash) (now_included : bool) (self : LightPool)
    : option (option bool * LightPool) :=
  match existing with
  | [] => Some (Some now_included, self)
  | existing_included_block :: existing =>
      let! existing_included_block_idx := blocks_by_id self !! existing_included_block in
      let! found_in_parent := is_ancestor (blocks_tree self) existing_included_block_idx block_index in
      if found_in_parent : bool then Some (None, self)
      else
        let! found_in_child := is_ancestor (blocks_tree self) block_index existing_included_block_idx in
        if found_in_child : bool then
          let self := with_inclusion (delete (existing_included_block, id) (transactions_by_inclusion self))
            (included_transactions self ∖ {[(id, existing_included_block)]}) self in
          let! was_in_best_chain := in_best_chain self existing_included_block_idx in
          existing_loop block_index id existing (if was_in_best_chain : bool then false else now_included) self
        else existing_loop block_index id existing now_included self
  end.

(** The loop over the transactions of the pool that have the bytes. *)
Fixpoint known_txs_loop (block_hash : Hash) (block_index : NodeIndex) (is_in_best_chain : bool)
    (included_body_index : usize) (ids : list TransactionId) (self : LightPool) : option (list (TransactionId * usize) * LightPool) :=
  match ids with
  | [] => Some ([], self)
  | id :: ids =>
      let! (now_included, self) := existing_loop block_index id (included_blocks self id) is_in_best_chain self in
      match now_included with
      | None => known_txs_loop block_hash block_index is_in_best_chain included_body_index ids self
      | Some now_included =>
          let self := with_inclusion (<[(block_hash, id) := included_body_index]> (transactions_by_inclusion self))
            ({[(id, block_hash)]} ∪ included_transactions self) self in
          let! (rest, self) := known_txs_loop block_hash block_index is_in_best_chain included_body_index ids self in
          Some (if now_included : bool then (id, included_body_index) :: rest else rest, self)
      end
  end.

(** The loop over the body. *)
Fixpoint body_loop (block_hash : Hash) (block_index : NodeIndex) (is_in_best_chain : bool)
    (included_body_index : usize) (body : list (list u8)) (self : LightPool) : option (list (TransactionId * usize) * LightPool) :=
  match body with
  | [] => Some ([], self)
  | included_body :: body =>
      let! (out, self) := known_txs_loop block_hash block_index is_in_best_chain included_body_index
        (find_transaction self included_body) self in
      let! (rest, self) := body_loop block_hash block_index is_in_best_chain (wadd usize_bits included_body_index 1) body self in
      Some (out ++ rest, self)
  end.

Definition set_block_body (self : LightPool) (block_hash : Hash) (body : list (list u8))
    : option (list (TransactionId * usize) * LightPool) :=
  let! block_index := blocks_by_id self !! block_hash in
  let! b := fork_get (blocks_tree self) block_index in
  match lb_body b with
  | Known => None
  | _ =>
      let! tree := fork_get_mut (blocks_tree self) block_index (set_body Known) in
      let self := with_tree tree (blocks_by_id self) self in
      let! is_in_best_chain := in_best_chain self block_index in
      body_loop block_hash block_index is_in_best_chain 0 body self
  end.

Definition missing_block_bodies (self : LightPool) : list (Hash * TBl) :=
  omap (fun e => match lb_body (snd e) with
                 | Needed => Some (lb_hash (snd e), lb_user_data (snd e))
                 | _ => None
                 end) (iter_unordered (blocks_tree self)).

(** ** Finality *)

(** The transactions validated against a block that becomes finalized. *)
Fixpoint finalize_validations (b : Block) (ids : list TransactionId) (self : LightPool) : option LightPool :=
  match ids with
  | [] => Some self
  | id :: ids =>
      let! validation := transaction_validations self !! (id, lb_hash b) in
      let! self := update_tx id (set_finalized_validation (Some (relative_block_height b, validation))) self in
      finalize_validations b ids self
  end.

Fixpoint finalize_loop (indices : list NodeIndex) (self : LightPool) : option LightPool :=
  match indices with
  | [] => Some self
  | block_index :: indices =>
      let! b := fork_get (blocks_tree self) block_index in
      let! self := finalize_validations b (block_validations self (lb_hash b)) self in
      finalize_loop indices self
  end.

(** The entries of a block that is removed, in the two loops on pruned blocks. *)
Definition forget_inclusions (hash : Hash) (ids : list TransactionId) (self : LightPool) : LightPool :=
  foldl (fun self id =>
    with_inclusion (delete (hash, id) (transactions_by_inclusion self))
      (included_transactions self ∖ {[(id, hash)]}) self) self ids.

Definition forget_validations (hash : Hash) (ids : list TransactionId) (self : LightPool) : LightPool :=
  foldl (fun self id =>
    with_validation (delete (id, hash) (transaction_validations self))
      (transactions_by_validation self ∖ {[(hash, id)]}) self) self ids.

Fixpoint pruned_uncles_loop (pruned : list (PrunedNode Block)) (self : LightPool) : list (Hash * TBl) * LightPool :=
  match pruned with
  | [] => ([], self)
  | pruned_block :: pruned =>
      let hash := lb_hash (pn_user_data pruned_block) in
      let self := with_tree (blocks_tree self) (delete hash (blocks_by_id self)) self in
      let self := forget_inclusions hash (fst <$> block_inclusions self hash) self in
      let self := forget_validations hash (block_validations self hash) self in
      let '(out, self) := pruned_uncles_loop pruned self in
      ((hash, lb_user_data (pn_user_data pruned_block)) :: out, self)
  end.

Definition set_finalized_block (self : LightPool) (new_finalized_block_hash : Hash) : option (list (Hash * TBl) * LightPool) :=
  if new_finalized_block_hash =? blocks_tree_root_hash self then
    match finalized_block_index self with
    | None => Some ([], self)
    | Some _ => None
    end
  else
    let! new_finalized_block_index := blocks_by_id self !! new_finalized_block_hash in
    let! best := lp_best_block_index self in
    let! is_ancestor_of_best := is_ancestor (blocks_tree self) new_finalized_block_index best in
    if negb is_ancestor_of_best then None
    else
      let! old_finalized_to_new_finalized :=
        match finalized_block_index self with
        | Some old_fin_index =>
            let! (_, descend) := ascend_and_descend (blocks_tree self) old_fin_index new_finalized_block_index in
            Some descend
        | None => root_to_node_path (blocks_tree self) new_finalized_block_index
        end in
      let! self := finalize_loop old_finalized_to_new_finalized self in
      let self := with_heads (lp_best_block_index self) (Some new_finalized_block_index) (blocks_tree_root_hash self) self in
      let! (pruned, tree) := prune_uncles (blocks_tree self) new_finalized_block_index in
      Some (pruned_uncles_loop pruned (with_tree tree (blocks_by_id self) self)).

(** [take_while] on the path to the finalized block. *)
Fixpoint take_with_body (self : LightPool) (path : list NodeIndex) : option (list NodeIndex) :=
  match path with
  | [] => Some []
  | idx :: path =>
      let! b := fork_get (blocks_tree self) idx in
      match lb_body b with
      | Needed => Some []
      | _ => let! rest := take_with_body self path in Some (idx :: rest)
      end
  end.

(** The loop over the transactions included in a pruned block. *)
Fixpoint take_transactions (ids : list (TransactionId * usize)) (self : LightPool)
    : option (list (RemovedTransaction TTx) * LightPool) :=
  match ids with
  | [] => Some ([], self)
  | (id, index_in_block) :: ids =>
      let! (tx, self) := take_transaction self id in
      let! (rest, self) := take_transactions ids self in
      Some (mkRemovedTransaction id index_in_block (tx_scale_encoded tx) (tx_user_data tx) :: rest, self)
  end.

Fixpoint pruned_finalized_loop (pruned : list (PrunedNode Block)) (self : LightPool)
    : option (list (PruneBodyFinalized TTx TBl) * LightPool) :=
  match pruned with
  | [] => Some ([], self)
  | pruned_block :: pruned =>
      let hash := lb_hash (pn_user_data pruned_block) in
      let self := with_tree (blocks_tree self) (delete hash (blocks_by_id self)) self in
      let! (included, self) := take_transactions (block_inclusions self hash) self in
      let self := forget_validations hash (block_validations self hash) self in
      let! (out, self) := pruned_finalized_loop pruned self in
      Some (mkPruneBodyFinalized hash (lb_user_data (pn_user_data pruned_block)) included :: out, self)
  end.

Definition prune_finalized_with_body (self : LightPool) : option (list (PruneBodyFinalized TTx TBl) * LightPool) :=
  match finalized_block_index self with
  | None => Some ([], self)
  | Some finalized_block_index =>
      let! path := root_to_node_path (blocks_tree self) finalized_block_index in
      let! with_body := take_with_body self path in
      match last with_body with
      | None => Some ([], self)
      | Some upmost_to_remove =>
          let! self :=
            if upmost_to_remove =? finalized_block_index then
              let! b := fork_get (blocks_tree self) upmost_to_remove in
              Some (with_heads (lp_best_block_index self) None (lb_hash b) self)
            else Some self in
          let! (pruned, tree) := prune_ancestors (blocks_tree self) upmost_to_remove in
          let! (return_value, self) := pruned_finalized_loop pruned (with_tree tree (blocks_by_id self) self) in
          let! best := lp_best_block_index self in
          Some (return_value, if best =? upmost_to_remove then with_best_block None self else self)
      end
  end.

Definition oldest_block_finality_lag (self : LightPool) : option usize :=
  match finalized_block_index self with
  | Some finalized_block_index =>
      let! path := root_to_node_path (blocks_tree self) finalized_block_index in Some (len path)
  | None => Some 0
  end.

End light_pool.
