(* ===== verification/LightPoolInv.v ===== *)
(** * The invariant of the pool of the light client

    The indices of LightPool.v mirror each other and agree with the tree of blocks.
    The set [seen], which the code does not keep, has the pairs of a transaction of
    the pool and of a block whose body was given while the transaction was in the
    pool and that has its bytes; a transaction is included in the first of these
    blocks of each branch. *)

From S2P Require Import Prelude TrieNode BTree ForkTree ForkTreePrune ForkTreeFacts LightPool.

Open Scope Z_scope.

(** ** Ranges of pairs *)

Lemma pair_range (a lo hi x y : Z) :
  (key_le (a, lo) (x, y) /\ key_le (x, y) (a, hi)) <-> x = a /\ lo <= y <= hi.
Proof. cbn. unfold lex_le. cbn. split; [intros [[? ?] [? ?]]; assert (x = a) by lia|]; lia. Qed.

(** The second components of the elements whose first one is [a]. *)
Lemma elem_of_pairs (a hi y : Z) (s : gset (Z * Z)) :
  y ∈ (snd <$> bset_range (a, 0) (a, hi) s) <-> (a, y) ∈ s /\ 0 <= y <= hi.
Proof.
  rewrite list_elem_of_fmap. split.
  - intros ([x y'] & -> & [[-> ?]%pair_range ?]%elem_of_bset_range). done.
  - intros [Hin Hy]. exists (a, y). split; [done|]. apply elem_of_bset_range. by rewrite pair_range.
Qed.

Lemma elem_of_pair_entries {V} (a hi y : Z) (v : V) (m : gmap (Z * Z) V) :
  (y, v) ∈ ((fun e => (snd (fst e), snd e)) <$> btree_range (a, 0) (a, hi) m) <-> m !! (a, y) = Some v /\ 0 <= y <= hi.
Proof.
  rewrite list_elem_of_fmap. split.
  - intros ([[x y'] v'] & [= -> ->] & [[-> ?]%pair_range ?]%elem_of_btree_range). done.
  - intros [Hin Hy]. exists ((a, y), v). split; [done|]. apply elem_of_btree_range. by rewrite pair_range.
Qed.

Lemma NoDup_pairs (a hi : Z) (s : gset (Z * Z)) : NoDup (snd <$> bset_range (a, 0) (a, hi) s).
Proof.
  apply NoDup_fmap_2_strong; [|apply NoDup_filter, bset_iter_NoDup].
  intros [x1 y1] [x2 y2] [[-> _]%pair_range _]%elem_of_bset_range [[-> _]%pair_range _]%elem_of_bset_range. cbn. congruence.
Qed.

Lemma NoDup_pair_entries {V} (a hi : Z) (m : gmap (Z * Z) V) :
  NoDup ((fun e => (snd (fst e), snd e)) <$> btree_range (a, 0) (a, hi) m).*1.
Proof.
  rewrite <- list_fmap_compose. apply NoDup_fmap_2_strong; [|].
  - intros [[x1 y1] v1] [[x2 y2] v2] [[-> _]%pair_range H1]%elem_of_btree_range [[-> _]%pair_range H2]%elem_of_btree_range.
    cbn. intros ->. congruence.
  - apply NoDup_filter. apply (NoDup_fmap_1 fst), btree_iter_NoDup.
Qed.

Section invariant.
Context `{Platform} `{Blake2b} {TTx TBl TErr : Type}.

Abbreviation LightPool := (LightPool TTx TBl TErr) (only parsing).
Abbreviation Transaction := (Transaction TTx TErr) (only parsing).
Abbreviation Block := (LightBlock TBl) (only parsing).
Implicit Types (self : LightPool) (tx : Transaction) (b : Block) (id : TransactionId) (h : Hash) (seen : gset (Z * Z)).

(** ** Branches *)

(** The block [h] is the block [h'] or one of its ancestors. *)
Definition hash_below self h h' : Prop :=
  exists i i', blocks_by_id self !! h = Some i /\ blocks_by_id self !! h' = Some i' /\
    is_ancestor (blocks_tree self) i i' = Some true.

(** The block [h] is on the best chain. *)
Definition on_best_chain self h : Prop :=
  exists i best, blocks_by_id self !! h = Some i /\ lp_best_block_index self = Some best /\
    is_ancestor (blocks_tree self) i best = Some true.

(** ** Invariant *)

Record blocks_inv self : Prop := {
  bi_rep : exists f, fork_rep (blocks_tree self) f;
  bi_slab : nodes (blocks_tree self) !! (2 ^ usize_bits - 1) = None;
  bi_ids : forall h i, blocks_by_id self !! h = Some i <->
    exists b, fork_get (blocks_tree self) i = Some b /\ lb_hash b = h;
  bi_hash : forall i b, fork_get (blocks_tree self) i = Some b -> is_hash (lb_hash b);
  bi_best : forall k, lp_best_block_index self = Some k -> is_Some (fork_get (blocks_tree self) k);
  bi_fin : forall y, finalized_block_index self = Some y ->
    exists k, lp_best_block_index self = Some k /\ is_ancestor (blocks_tree self) y k = Some true;
  (** The finalized block is on a line with each block. *)
  bi_line : forall y k, finalized_block_index self = Some y -> is_Some (fork_get (blocks_tree self) k) ->
    is_ancestor (blocks_tree self) y k = Some true \/ is_ancestor (blocks_tree self) k y = Some true
}.

Record txs_inv self : Prop := {
  ti_id : forall id, is_Some (transactions self !! id) -> is_uint usize_bits id;
  ti_hash : forall x id, (x, id) ∈ by_hash self <->
    exists tx, transactions self !! id = Some tx /\ x = blake2_hash (tx_scale_encoded tx)
}.

Record validations_inv self : Prop := {
  vi_mirror : forall id h, (h, id) ∈ transactions_by_validation self <-> is_Some (transaction_validations self !! (id, h));
  vi_tx : forall id h, is_Some (transaction_validations self !! (id, h)) -> is_Some (transactions self !! id) /\ is_hash h
}.

(** The indices, apart from the tree. *)
Record index_inv self : Prop := {
  xi_txs : txs_inv self;
  xi_mirror : forall id h, (id, h) ∈ included_transactions self <-> is_Some (transactions_by_inclusion self !! (h, id));
  xi_included : forall id h, (id, h) ∈ included_transactions self -> is_Some (transactions self !! id) /\ is_hash h;
  xi_validations : validations_inv self
}.

Record seen_inv self seen : Prop := {
  si_seen : forall id h, (id, h) ∈ seen -> is_Some (transactions self !! id) /\ is_Some (blocks_by_id self !! h);
  si_first : forall id h, (id, h) ∈ included_transactions self <->
    (id, h) ∈ seen /\ forall h', (id, h') ∈ seen -> hash_below self h' h -> h' = h
}.

Record light_inv self seen : Prop := {
  li_blocks : blocks_inv self;
  li_index : index_inv self;
  li_seen : seen_inv self seen
}.

(** ** Blocks and hashes *)

Lemma ids_tree self h i : blocks_inv self -> blocks_by_id self !! h = Some i ->
  exists b, fork_get (blocks_tree self) i = Some b /\ lb_hash b = h.
Proof. intros Hb. apply (bi_ids _ Hb). Qed.

Lemma ids_get self h i : blocks_inv self -> blocks_by_id self !! h = Some i -> is_Some (fork_get (blocks_tree self) i).
Proof. intros Hb Hi. destruct (ids_tree _ _ _ Hb Hi) as (b & ? & _). eauto. Qed.

Lemma ids_hash self h : blocks_inv self -> is_Some (blocks_by_id self !! h) -> is_hash h.
Proof. intros Hb [i (b & Hg & <-)%(ids_tree _ _ _ Hb)]. by eapply bi_hash. Qed.

Lemma ids_inj self h h' i : blocks_inv self -> blocks_by_id self !! h = Some i -> blocks_by_id self !! h' = Some i -> h = h'.
Proof. intros Hb (b & Hg & <-)%(ids_tree _ _ _ Hb) (b' & Hg' & <-)%(ids_tree _ _ _ Hb). congruence. Qed.

(** A block of the tree has its hash in the index. *)
Lemma tree_ids self i b : blocks_inv self -> fork_get (blocks_tree self) i = Some b -> blocks_by_id self !! lb_hash b = Some i.
Proof. intros Hb Hg. apply (bi_ids _ Hb). eauto. Qed.

Lemma hash_below_refl self h : blocks_inv self -> is_Some (blocks_by_id self !! h) -> hash_below self h h.
Proof.
  intros Hb [i Hi]. exists i, i. split; [done|]. split; [done|].
  apply ancestor_refl; [apply Hb|by eapply ids_get].
Qed.

Lemma hash_below_trans self h1 h2 h3 : blocks_inv self -> hash_below self h1 h2 -> hash_below self h2 h3 -> hash_below self h1 h3.
Proof.
  intros Hb (i & j & Hi & Hj & H1) (j' & k & Hj' & Hk & H2). assert (j' = j) as -> by congruence.
  exists i, k. split; [done|]. split; [done|]. eapply ancestor_trans; [apply Hb|done|done].
Qed.

Lemma hash_below_antisym self h1 h2 : blocks_inv self -> hash_below self h1 h2 -> hash_below self h2 h1 -> h1 = h2.
Proof.
  intros Hb (i & j & Hi & Hj & H1) (j' & i' & Hj' & Hi' & H2). assert (j' = j) as -> by congruence. assert (i' = i) as -> by congruence.
  assert (i = j) as -> by (eapply ancestor_antisym; [apply Hb|done|done]). by eapply ids_inj.
Qed.

Lemma hash_below_linear self h1 h2 h3 :
  blocks_inv self -> hash_below self h1 h3 -> hash_below self h2 h3 -> hash_below self h1 h2 \/ hash_below self h2 h1.
Proof.
  intros Hb (i & k & Hi & Hk & H1) (j & k' & Hj & Hk' & H2). assert (k' = k) as -> by congruence.
  destruct (ancestor_linear _ i j k (bi_rep _ Hb) H1 H2) as [?|?]; [left; exists i, j | right; exists j, i]; done.
Qed.

Lemma best_chain_below self h h' : blocks_inv self -> hash_below self h h' -> on_best_chain self h' -> on_best_chain self h.
Proof.
  intros Hb (i & j & Hi & Hj & H1) (j' & k & Hj' & Hk & H2). assert (j' = j) as -> by congruence.
  exists i, k. split; [done|]. split; [done|]. eapply ancestor_trans; [apply Hb|done|done].
Qed.

Lemma best_chain_linear self h h' :
  blocks_inv self -> on_best_chain self h -> on_best_chain self h' -> hash_below self h h' \/ hash_below self h' h.
Proof.
  intros Hb (i & k & Hi & Hk & H1) (j & k' & Hj & Hk' & H2). assert (k' = k) as -> by congruence.
  destruct (ancestor_linear _ i j k (bi_rep _ Hb) H1 H2) as [?|?]; [left; exists i, j | right; exists j, i]; done.
Qed.

#[global] Instance hash_below_dec self h h' : Decision (hash_below self h h').
Proof.
  refine (match blocks_by_id self !! h as a, blocks_by_id self !! h' as a'
      return blocks_by_id self !! h = a -> blocks_by_id self !! h' = a' -> _ with
    | Some i, Some i' => fun Hi Hi' =>
        match decide (is_ancestor (blocks_tree self) i i' = Some true) with left Ha => left _ | right Ha => right _ end
    | _, _ => fun Hi Hi' => right _
    end eq_refl eq_refl).
  - exists i, i'. done.
  - abstract (intros (j & j' & Hj & Hj' & ?); rewrite Hi in Hj; rewrite Hi' in Hj'; simplify_eq; done).
  - abstract (intros (j & j' & Hj & Hj' & ?); congruence).
  - abstract (intros (j & j' & Hj & Hj' & ?); congruence).
Defined.

(** ** The ranges *)

Lemma elem_of_included_blocks self id h :
  index_inv self -> h ∈ included_blocks self id <-> (id, h) ∈ included_transactions self.
Proof.
  intros Hx. unfold included_blocks, hash_min. rewrite elem_of_pairs. split; [by intros []|]. intros Hin. split; [done|].
  apply (xi_included _ Hx) in Hin as [_ Hh]. unfold is_uint, hash_max in *. lia.
Qed.

Lemma included_blocks_NoDup self id : NoDup (included_blocks self id).
Proof. apply NoDup_pairs. Qed.

Lemma elem_of_block_inclusions self h id ix :
  index_inv self -> (id, ix) ∈ block_inclusions self h <-> transactions_by_inclusion self !! (h, id) = Some ix.
Proof.
  intros Hx. unfold block_inclusions. rewrite elem_of_pair_entries. split; [by intros []|]. intros Hin. split; [done|].
  assert (Hi : (id, h) ∈ included_transactions self) by (apply (xi_mirror _ Hx); eauto).
  apply (xi_included _ Hx) in Hi as [Hi _]. apply (ti_id _ (xi_txs _ Hx)) in Hi. unfold is_uint, usize_max in *. lia.
Qed.

Lemma block_inclusions_NoDup self h : NoDup (block_inclusions self h).*1.
Proof. apply NoDup_pair_entries. Qed.

Lemma elem_of_block_validations self h id :
  index_inv self -> id ∈ block_validations self h <-> is_Some (transaction_validations self !! (id, h)).
Proof.
  intros [Ht _ _ Hv]. unfold block_validations. rewrite elem_of_pairs, (vi_mirror _ Hv). split; [by intros []|]. intros Hin. split; [done|].
  apply (vi_tx _ Hv) in Hin as [Hx _]. apply (ti_id _ Ht) in Hx. unfold is_uint, usize_max in *. lia.
Qed.

Lemma elem_of_validated_blocks self id h :
  index_inv self -> h ∈ validated_blocks self id <-> is_Some (transaction_validations self !! (id, h)).
Proof.
  intros [_ _ _ Hv]. unfold validated_blocks, hash_min. rewrite list_elem_of_fmap. split.
  - intros ([[x y] v] & -> & [[-> ?]%pair_range ?]%elem_of_btree_range). cbn. eauto.
  - intros [v Hin]. exists ((id, h), v). split; [done|]. apply elem_of_btree_range. rewrite pair_range. split; [|done]. split; [done|].
    destruct (vi_tx _ Hv id h) as [_ Hh]; [eauto|]. unfold is_uint, hash_max in *. lia.
Qed.

Lemma elem_of_find_transaction self bytes id :
  index_inv self -> id ∈ find_transaction self bytes <->
  exists tx, transactions self !! id = Some tx /\ blake2_hash (tx_scale_encoded tx) = blake2_hash bytes.
Proof.
  intros [Ht _ _ _]. unfold find_transaction. rewrite elem_of_pairs, (ti_hash _ Ht). split.
  - intros [(tx & ? & ?) _]. eauto.
  - intros (tx & Hx & He). split; [eauto|]. assert (Hu : is_uint usize_bits id) by (apply (ti_id _ Ht); eauto).
    unfold is_uint, usize_max in *. lia.
Qed.

Lemma find_transaction_NoDup self bytes : NoDup (find_transaction self bytes).
Proof. apply NoDup_pairs. Qed.

(** ** Inclusion in the best chain *)

(** Of the blocks of a branch in which a transaction was seen, one is first. *)
Lemma seen_first self seen id h :
  light_inv self seen -> (id, h) ∈ seen -> exists h0, (id, h0) ∈ included_transactions self /\ hash_below self h0 h.
Proof.
  intros [Hb _ Hi] Hin. pose proof (si_seen _ _ Hi _ _ Hin) as [_ [i Hidx]].
  pose proof (ids_get _ _ _ Hb Hidx) as Hg. pose proof (bi_rep _ Hb) as Hwf.
  assert (Hex : exists h1 i1, (id, h1) ∈ seen /\ blocks_by_id self !! h1 = Some i1 /\ is_ancestor (blocks_tree self) i1 i = Some true).
  { exists h, i. split; [done|]. split; [done|]. by apply ancestor_refl. }
  assert (Hgoal : exists h0 i0, (id, h0) ∈ included_transactions self /\ blocks_by_id self !! h0 = Some i0 /\
    is_ancestor (blocks_tree self) i0 i = Some true).
  2: { destruct Hgoal as (h0 & i0 & ? & ? & ?). exists h0. split; [done|]. exists i0, i. done. }
  clear h Hin Hidx. revert i Hg Hex.
  apply (node_ind _ (fun i => (exists h1 i1, _ /\ _ /\ is_ancestor _ i1 i = Some true) -> _) Hwf).
  - intros k Hk (h1 & i1 & Hin & Hi1 & Ha). assert (Hg : is_Some (fork_get (blocks_tree self) k)) by (apply fork_get_parent; eauto).
    exists h1, i1. split; [|done]. apply (si_first _ _ Hi). split; [done|]. intros h' Hin' (j & j' & Hj & Hj' & Ha').
    assert (j' = i1) as -> by congruence. pose proof (ancestor_trans _ _ _ _ Hwf Ha' Ha) as Ha2.
    apply ancestor_step in Ha as [->|(p & Hp & _)]; [|congruence|done|done].
    apply ancestor_step in Ha2 as [->|(p & Hp & _)]; [|congruence|done|done]. by eapply ids_inj.
  - intros k p Hk IH (h1 & i1 & Hin & Hi1 & Ha). assert (Hg : is_Some (fork_get (blocks_tree self) k)) by (apply fork_get_parent; eauto).
    destruct (decide (set_Exists (fun x => fst x = id /\
      (blocks_by_id self !! snd x ≫= fun j => is_ancestor (blocks_tree self) j p) = Some true) seen))
      as [(x & Hx & <- & Hj)|Hno].
    + destruct x as [id h2]. cbn in Hj. destruct (blocks_by_id self !! h2) as [j|] eqn:Ej; [|done].
      destruct IH as (h0 & i0 & ? & ? & Ha0); [by exists h2, j|]. exists h0, i0. split; [done|]. split; [done|].
      apply ancestor_step; [done|done|]. right. eauto.
    + exists h1, i1. split; [|done]. apply (si_first _ _ Hi). split; [done|]. intros h' Hin' (j & j' & Hj & Hj' & Ha').
      assert (j' = i1) as -> by congruence. pose proof (ancestor_trans _ _ _ _ Hwf Ha' Ha) as Ha2.
      assert (Hnop : forall j h, (id, h) ∈ seen -> blocks_by_id self !! h = Some j -> is_ancestor (blocks_tree self) j p = Some true -> False).
      { intros j2 h2 Hs2 Hj2 Hp2. apply Hno. exists (id, h2). split; [done|]. cbn. split; [done|]. by rewrite Hj2. }
      apply ancestor_step in Ha as [->|(q & Hq & Hap)]; [| |done|done].
      2: { assert (q = p) as -> by congruence. by destruct (Hnop i1 h1). }
      apply ancestor_step in Ha2 as [->|(q & Hq & Hap)]; [| |done|done]. { by eapply ids_inj. }
      assert (q = p) as -> by congruence. by destruct (Hnop j h').
Qed.

(** A transaction is seen on the best chain exactly if it is included there. *)
Lemma seen_best_chain self seen id :
  light_inv self seen ->
  (exists h, (id, h) ∈ seen /\ on_best_chain self h) <-> (exists h, (id, h) ∈ included_transactions self /\ on_best_chain self h).
Proof.
  intros Hinv. split.
  - intros (h & Hin & Hbest). destruct (seen_first _ _ _ _ Hinv Hin) as (h0 & Hinc & Hbelow). exists h0. split; [done|].
    eapply best_chain_below; [apply Hinv|done|done].
  - intros (h & Hin & Hbest). exists h. split; [|done]. by apply (si_first _ _ (li_seen _ _ Hinv)).
Qed.

(** No branch includes a transaction twice. *)
Lemma included_once self seen id h h' :
  light_inv self seen -> (id, h) ∈ included_transactions self -> (id, h') ∈ included_transactions self ->
  hash_below self h h' -> h = h'.
Proof.
  intros [_ _ Hi] H1 H2 Hb. apply (si_first _ _ Hi) in H1 as [H1 _]. apply (si_first _ _ Hi) in H2 as [_ H2]. by apply H2.
Qed.

Lemma in_best_chain_spec self h i :
  blocks_inv self -> blocks_by_id self !! h = Some i ->
  exists v, in_best_chain self i = Some v /\ (v = true <-> on_best_chain self h).
Proof.
  intros Hb Hi. unfold in_best_chain, on_best_chain. destruct (lp_best_block_index self) as [best|] eqn:Ebest.
  - destruct (ancestor_total (blocks_tree self) i best) as [v Hv]; [apply Hb|by eapply bi_best|]. rewrite Hv. exists v. split; [done|]. split.
    + intros ->. eauto.
    + intros (i' & best' & ? & [= <-] & Ha). congruence.
  - exists false. split; [done|]. split; [done|]. by intros (? & ? & ? & ? & _).
Qed.

Lemma is_included_spec self seen id :
  light_inv self seen ->
  exists v, is_included_best_chain self id = Some v /\
    (v = true <-> exists h, (id, h) ∈ included_transactions self /\ on_best_chain self h).
Proof.
  intros Hinv. pose proof (li_blocks _ _ Hinv) as Hb.
  assert (Hloop : forall l, (forall h, h ∈ l -> is_Some (blocks_by_id self !! h)) ->
    exists v, any_in_best_chain self l = Some v /\ (v = true <-> exists h, h ∈ l /\ on_best_chain self h)).
  { induction l as [|h l IH]; intros Hall.
    - exists false. split; [done|]. split; [done|]. by intros (h & Hin%elem_of_nil & _).
    - destruct (Hall h) as [i Hi]; [by left|]. destruct (in_best_chain_spec _ _ _ Hb Hi) as (v & Hv & Hiff).
      cbn [any_in_best_chain]. rewrite Hi, Hv. destruct v.
      + exists true. split; [done|]. split; [|done]. intros _. exists h. split; [by left|]. by apply Hiff.
      + destruct IH as (w & Hw & Hiff2). { intros h' Hh'. apply Hall. by right. }
        exists w. split; [done|]. rewrite Hiff2. split; intros (h' & Hin & Hbc); exists h'; (split; [|done]); [by right|].
        apply elem_of_cons in Hin as [->|?]; [|done]. apply Hiff in Hbc. done. }
  destruct (Hloop (included_blocks self id)) as (v & Hv & Hiff).
  { intros h Hin. apply (elem_of_included_blocks _ _ _ (li_index _ _ Hinv)) in Hin.
    apply (si_first _ _ (li_seen _ _ Hinv)) in Hin as [Hin _]. by apply (si_seen _ _ (li_seen _ _ Hinv)) in Hin as [_ ?]. }
  exists v. split; [done|]. rewrite Hiff.
  split; intros (h & Hin & ?); exists h; (split; [|done]); by apply (elem_of_included_blocks self id h (li_index _ _ Hinv)).
Qed.

End invariant.
