(* ===== verification/LightPoolPurge.v ===== *)
(** * Removal from the indices of the pool

    What the loops of LightPool.v that remove transactions, and those that forget
    the blocks that leave the tree, do to the indices. *)

From S2P Require Import Prelude TrieNode BTree ForkTree ForkTreePrune ForkTreeFacts LightPool LightPoolInv.

Open Scope Z_scope.

Lemma Forall2_impl_in {A B} (P Q : A -> B -> Prop) l k :
  Forall2 P l k -> (forall x y, x ∈ l -> P x y -> Q x y) -> Forall2 Q l k.
Proof.
  induction 1 as [|x y l k Hxy Hlk IH]; intros Himp; constructor; [apply Himp; [by left|done]|].
  apply IH. intros x' y' ?. apply Himp. by right.
Qed.

Section purge.
Context `{Platform} `{Blake2b} {TTx TBl TErr : Type}.

Abbreviation LightPool := (LightPool TTx TBl TErr) (only parsing).
Abbreviation Transaction := (Transaction TTx TErr) (only parsing).
Abbreviation Block := (LightBlock TBl) (only parsing).
Implicit Types (self : LightPool) (tx : Transaction) (b : Block) (id : TransactionId) (h : Hash) (seen : gset (Z * Z)).

(** ** The two loops that remove entries *)

Definition drop_inclusions (l : list (Z * Z)) self : LightPool :=
  foldl (fun self p => with_inclusion (delete p (transactions_by_inclusion self))
    (included_transactions self ∖ {[(snd p, fst p)]}) self) self l.

Definition drop_validations (l : list (Z * Z)) self : LightPool :=
  foldl (fun self p => with_validation (delete p (transaction_validations self))
    (transactions_by_validation self ∖ {[(snd p, fst p)]}) self) self l.

Lemma drop_inclusions_spec l : forall self,
  exists v w, drop_inclusions l self = with_inclusion v w self /\
    (forall p u, v !! p = Some u <-> transactions_by_inclusion self !! p = Some u /\ p ∉ l) /\
    (forall x h, (x, h) ∈ w <-> (x, h) ∈ included_transactions self /\ (h, x) ∉ l).
Proof.
  induction l as [|p l IH]; intros self.
  - exists (transactions_by_inclusion self), (included_transactions self). split; [by destruct self|].
    split; intros; (split; [|by intros []]); intros; (split; [done|apply not_elem_of_nil]).
  - destruct (IH (with_inclusion (delete p (transactions_by_inclusion self))
      (included_transactions self ∖ {[(snd p, fst p)]}) self)) as (v & w & E & Hv & Hw).
    exists v, w. split; [exact E|]. split.
    + intros q u. rewrite Hv. cbn. rewrite lookup_delete_Some, not_elem_of_cons. naive_solver.
    + intros x h. rewrite Hw. cbn. rewrite elem_of_difference, elem_of_singleton, not_elem_of_cons. destruct p as [p1 p2]. cbn.
      split; [intros [[? Hne] ?]|intros (? & Hne & ?)]; (split; [try split; [done|congruence] || done|try split; [congruence|done] || done]).
Qed.

Lemma drop_validations_spec l : forall self,
  exists v w, drop_validations l self = with_validation v w self /\
    (forall p u, v !! p = Some u <-> transaction_validations self !! p = Some u /\ p ∉ l) /\
    (forall h x, (h, x) ∈ w <-> (h, x) ∈ transactions_by_validation self /\ (x, h) ∉ l).
Proof.
  induction l as [|p l IH]; intros self.
  - exists (transaction_validations self), (transactions_by_validation self). split; [by destruct self|].
    split; intros; (split; [|by intros []]); intros; (split; [done|apply not_elem_of_nil]).
  - destruct (IH (with_validation (delete p (transaction_validations self))
      (transactions_by_validation self ∖ {[(snd p, fst p)]}) self)) as (v & w & E & Hv & Hw).
    exists v, w. split; [exact E|]. split.
    + intros q u. rewrite Hv. cbn. rewrite lookup_delete_Some, not_elem_of_cons. naive_solver.
    + intros h x. rewrite Hw. cbn. rewrite elem_of_difference, elem_of_singleton, not_elem_of_cons. destruct p as [p1 p2]. cbn.
      split; [intros [[? Hne] ?]|intros (? & Hne & ?)]; (split; [try split; [done|congruence] || done|try split; [congruence|done] || done]).
Qed.

Lemma remove_included_drop id l : forall self, remove_included id l self = drop_inclusions ((fun h => (h, id)) <$> l) self.
Proof. induction l as [|h l IH]; intros self; [done|]. apply IH. Qed.

Lemma forget_inclusions_drop h l : forall self, forget_inclusions h l self = drop_inclusions ((fun id => (h, id)) <$> l) self.
Proof. induction l as [|id l IH]; intros self; [done|]. apply IH. Qed.

Lemma remove_validated_drop id l : forall self, remove_validated id l self = drop_validations ((fun h => (id, h)) <$> l) self.
Proof. induction l as [|h l IH]; intros self; [done|]. apply IH. Qed.

Lemma forget_validations_drop h l : forall self, forget_validations h l self = drop_validations ((fun id => (id, h)) <$> l) self.
Proof. induction l as [|id l IH]; intros self; [done|]. apply IH. Qed.

(** ** Removals *)

(** The heads of the chain and the tree are the same. *)
Definition heads self := (blocks_tree self, lp_best_block_index self, finalized_block_index self,
  blocks_tree_root_hash self, blocks_tree_root_relative_height self).

(** The transactions [gone] are removed, the blocks [ih] from the inclusions, the
    blocks [vh] from the validations, the blocks [dh] from the index of blocks. *)
Record purged (gone ih vh dh : list Z) self self' : Prop := {
  pu_txs : forall x tx, transactions self' !! x = Some tx <-> transactions self !! x = Some tx /\ x ∉ gone;
  pu_incl : forall h x v, transactions_by_inclusion self' !! (h, x) = Some v <->
    transactions_by_inclusion self !! (h, x) = Some v /\ x ∉ gone /\ h ∉ ih;
  pu_val : forall x h v, transaction_validations self' !! (x, h) = Some v <->
    transaction_validations self !! (x, h) = Some v /\ x ∉ gone /\ h ∉ vh;
  pu_ids : forall h i, blocks_by_id self' !! h = Some i <-> blocks_by_id self !! h = Some i /\ h ∉ dh;
  pu_heads : heads self' = heads self;
  pu_index : index_inv self'
}.

Lemma purged_refl self : index_inv self -> purged [] [] [] [] self self.
Proof.
  intros Hx. split; [..|done|done]; intros; pose proof (@not_elem_of_nil Z) as Hn;
    (split; [intros ?; repeat split; [done|apply Hn..]|by intros [? _]]).
Qed.

Lemma purged_trans g1 g2 i1 i2 v1 v2 d1 d2 self self1 self2 :
  purged g1 i1 v1 d1 self self1 -> purged g2 i2 v2 d2 self1 self2 ->
  purged (g1 ++ g2) (i1 ++ i2) (v1 ++ v2) (d1 ++ d2) self self2.
Proof.
  intros [T1 I1 V1 D1 H1 _] [T2 I2 V2 D2 H2 X2]. split; [..|congruence|done].
  - intros x tx. rewrite T2, T1, not_elem_of_app. tauto.
  - intros h x v. rewrite I2, I1, !not_elem_of_app. tauto.
  - intros x h v. rewrite V2, V1, !not_elem_of_app. tauto.
  - intros h i. rewrite D2, D1, !not_elem_of_app. tauto.
Qed.

Lemma purged_included gone ih vh dh self self' x h :
  index_inv self -> purged gone ih vh dh self self' ->
  (x, h) ∈ included_transactions self' <-> (x, h) ∈ included_transactions self /\ x ∉ gone /\ h ∉ ih.
Proof.
  intros Hx Hp. rewrite (xi_mirror _ Hx), (xi_mirror _ (pu_index _ _ _ _ _ _ Hp)). split.
  - intros [v Hv%(pu_incl _ _ _ _ _ _ Hp)]. naive_solver.
  - intros ([v Hv] & ? & ?). exists v. by apply (pu_incl _ _ _ _ _ _ Hp).
Qed.

(** The block leaves the index of blocks. *)
Lemma purged_id self h :
  index_inv self -> purged [] [] [] [h] self (with_tree (blocks_tree self) (delete h (blocks_by_id self)) self).
Proof.
  intros [[T1 T2] Hm Hi [V1 V2]]. pose proof (@not_elem_of_nil Z) as Hn. split; cbn.
  - naive_solver.
  - naive_solver.
  - naive_solver.
  - intros h' i. rewrite lookup_delete_Some, not_elem_of_cons. naive_solver.
  - done.
  - split; [split|..|split]; done.
Qed.

Lemma take_transaction_purged self id tx :
  index_inv self -> transactions self !! id = Some tx ->
  exists self', take_transaction self id = Some (tx, self') /\ purged [id] [] [] [] self self'.
Proof.
  intros Hx Htx. unfold take_transaction. rewrite Htx. cbn zeta.
  set (s1 := with_transactions (delete id (transactions self)) self).
  rewrite remove_included_drop, remove_validated_drop.
  destruct (drop_inclusions_spec ((fun h => (h, id)) <$> included_blocks s1 id) s1) as (v & w & -> & Hv & Hw).
  set (l2 := (fun h => (id, h)) <$> validated_blocks s1 id).
  destruct (drop_validations_spec l2 (with_inclusion v w s1)) as (v2 & w2 & -> & Hv2 & Hw2).
  eexists. split; [reflexivity|].
  assert (Hin1 : forall h x, (h, x) ∈ ((fun h => (h, id)) <$> included_blocks s1 id) <-> x = id /\ (id, h) ∈ included_transactions self).
  { intros h x. rewrite list_elem_of_fmap. split.
    - intros (h' & [= -> ->] & Hin). split; [done|]. by apply (elem_of_included_blocks self).
    - intros [-> Hin]. exists h. split; [done|]. by apply (elem_of_included_blocks self). }
  assert (Hin2 : forall x h, (x, h) ∈ l2 <-> x = id /\ is_Some (transaction_validations self !! (id, h))).
  { intros x h. unfold l2. rewrite list_elem_of_fmap. split.
    - intros (h' & [= -> ->] & Hin). split; [done|]. by apply (elem_of_validated_blocks self).
    - intros [-> Hin]. exists h. split; [done|]. by apply (elem_of_validated_blocks self). }
  cbn in Hv, Hw, Hv2, Hw2. pose proof (@not_elem_of_nil Z) as Hn.
  assert (Hincl : forall h x u, v !! (h, x) = Some u <-> transactions_by_inclusion self !! (h, x) = Some u /\ x <> id).
  { intros h x u. rewrite Hv, Hin1. split; [|naive_solver]. intros [Hu Hno]. split; [done|]. intros ->. apply Hno. split; [done|].
    apply (xi_mirror _ Hx). eauto. }
  assert (Hval : forall x h u, v2 !! (x, h) = Some u <-> transaction_validations self !! (x, h) = Some u /\ x <> id).
  { intros x h u. rewrite Hv2, Hin2. split; [|naive_solver]. intros [Hu Hno]. split; [done|]. intros ->. apply Hno. eauto. }
  destruct Hx as [[T1 T2] Hm Hi [V1 V2]]. split; cbn.
  - intros x t. rewrite lookup_delete_Some, not_elem_of_cons. naive_solver.
  - intros h x u. rewrite Hincl, not_elem_of_cons. naive_solver.
  - intros x h u. rewrite Hval, not_elem_of_cons. naive_solver.
  - naive_solver.
  - done.
  - split; [split| | |split]; cbn.
    + intros x [t [_ Ht]%lookup_delete_Some]. eauto.
    + intros y x. rewrite elem_of_difference, elem_of_singleton, T2. setoid_rewrite lookup_delete_Some. split.
      * intros [(t & Ht & ->) Hne]. exists t. split; [|done]. split; [|done]. intros <-. congruence.
      * intros (t & [Hne Ht] & ->). split; [eauto|]. congruence.
    + intros x h. rewrite Hw, Hin1, Hm. unfold is_Some. setoid_rewrite Hincl. split.
      * intros [[u Hu] Hno]. exists u. split; [done|]. intros ->. apply Hno. split; [done|]. apply Hm. eauto.
      * intros (u & Hu & Hne). split; [eauto|]. naive_solver.
    + intros x h [Hin Hno]%Hw. destruct (Hi _ _ Hin) as [[t Ht] Hh]. split; [|done]. exists t. apply lookup_delete_Some. split; [|done].
      intros <-. apply Hno, Hin1. done.
    + intros x h. rewrite Hw2, Hin2, V1. unfold is_Some. setoid_rewrite Hval. split.
      * intros [[u Hu] Hno]. exists u. split; [done|]. intros ->. apply Hno. eauto.
      * intros (u & Hu & Hne). split; [eauto|]. naive_solver.
    + intros x h [u [Hu Hne]%Hval]. destruct (V2 x h) as [[t Ht] Hh]; [eauto|]. split; [|done]. exists t. apply lookup_delete_Some. done.
Qed.

Lemma forget_inclusions_purged self h :
  index_inv self -> purged [] [h] [] [] self (forget_inclusions h (fst <$> block_inclusions self h) self).
Proof.
  intros Hx. rewrite forget_inclusions_drop. set (l := (fun id => (h, id)) <$> (fst <$> block_inclusions self h)).
  destruct (drop_inclusions_spec l self) as (v & w & -> & Hv & Hw).
  assert (Hin : forall h' x, (h', x) ∈ l <-> h' = h /\ (x, h) ∈ included_transactions self).
  { intros h' x. unfold l. rewrite list_elem_of_fmap, (xi_mirror _ Hx). split.
    - intros (y & [= -> ->] & ([z ix] & -> & Hin)%list_elem_of_fmap). apply elem_of_block_inclusions in Hin; [|done]. cbn. eauto.
    - intros [-> [ix Hix]]. exists x. split; [done|]. apply list_elem_of_fmap. exists (x, ix). split; [done|].
      by apply elem_of_block_inclusions. }
  assert (Hincl : forall h' x u, v !! (h', x) = Some u <-> transactions_by_inclusion self !! (h', x) = Some u /\ h' <> h).
  { intros h' x u. rewrite Hv, Hin. split; [|naive_solver]. intros [Hu Hno]. split; [done|]. intros ->. apply Hno. split; [done|].
    apply (xi_mirror _ Hx). eauto. }
  destruct Hx as [[T1 T2] Hm Hi [V1 V2]]. pose proof (@not_elem_of_nil Z) as Hn. split; cbn; [naive_solver| |naive_solver|naive_solver|done|].
  - intros h' x u. rewrite Hincl, not_elem_of_cons. naive_solver.
  - split; [split|..|split]; cbn; [done|done| | |done|done].
    + intros x h'. rewrite Hw, Hin, Hm. unfold is_Some. setoid_rewrite Hincl. split.
      * intros [[u Hu] Hno]. exists u. split; [done|]. intros ->. apply Hno. split; [done|]. apply Hm. eauto.
      * intros (u & Hu & Hne). split; [eauto|]. naive_solver.
    + intros x h' [Hin' _]%Hw. by apply Hi.
Qed.

Lemma forget_validations_purged self h :
  index_inv self -> purged [] [] [h] [] self (forget_validations h (block_validations self h) self).
Proof.
  intros Hx. rewrite forget_validations_drop. set (l := (fun id => (id, h)) <$> block_validations self h).
  destruct (drop_validations_spec l self) as (v & w & -> & Hv & Hw).
  assert (Hin : forall x h', (x, h') ∈ l <-> h' = h /\ is_Some (transaction_validations self !! (x, h))).
  { intros x h'. unfold l. rewrite list_elem_of_fmap. split.
    - intros (y & [= -> ->] & Hin). split; [done|]. by apply (elem_of_block_validations self).
    - intros [-> Hin]. exists x. split; [done|]. by apply (elem_of_block_validations self). }
  assert (Hval : forall x h' u, v !! (x, h') = Some u <-> transaction_validations self !! (x, h') = Some u /\ h' <> h).
  { intros x h' u. rewrite Hv, Hin. split; [|naive_solver]. intros [Hu Hno]. split; [done|]. intros ->. apply Hno. eauto. }
  destruct Hx as [[T1 T2] Hm Hi [V1 V2]]. pose proof (@not_elem_of_nil Z) as Hn. split; cbn; [naive_solver|naive_solver| |naive_solver|done|].
  - intros x h' u. rewrite Hval, not_elem_of_cons. naive_solver.
  - split; [split|..|split]; cbn; [done|done|done|done| |].
    + intros x h'. rewrite Hw, Hin, V1. unfold is_Some. setoid_rewrite Hval. split.
      * intros [[u Hu] Hno]. exists u. split; [done|]. intros ->. apply Hno. eauto.
      * intros (u & Hu & Hne). split; [eauto|]. naive_solver.
    + intros x h' [u [Hu _]%Hval]. apply V2. eauto.
Qed.

(** ** The loops on pruned blocks *)

Definition pruned_hash (p : PrunedNode Block) : Hash := lb_hash (pn_user_data p).

Lemma uncles_loop_purged pruned : forall self,
  index_inv self ->
  exists self', pruned_uncles_loop pruned self =
      ((fun p => (pruned_hash p, lb_user_data (pn_user_data p))) <$> pruned, self') /\
    purged [] (pruned_hash <$> pruned) (pruned_hash <$> pruned) (pruned_hash <$> pruned) self self'.
Proof.
  induction pruned as [|p pruned IH]; intros self Hx; cbn [pruned_uncles_loop].
  - exists self. split; [done|]. by apply purged_refl.
  - fold (pruned_hash p). pose proof (purged_id self (pruned_hash p) Hx) as P1. revert P1.
    generalize (with_tree (blocks_tree self) (delete (pruned_hash p) (blocks_by_id self)) self) as s1. intros s1 P1.
    pose proof (forget_inclusions_purged s1 (pruned_hash p) (pu_index _ _ _ _ _ _ P1)) as P2. revert P2.
    generalize (forget_inclusions (pruned_hash p) (fst <$> block_inclusions s1 (pruned_hash p)) s1) as s2. intros s2 P2.
    pose proof (forget_validations_purged s2 (pruned_hash p) (pu_index _ _ _ _ _ _ P2)) as P3. revert P3.
    generalize (forget_validations (pruned_hash p) (block_validations s2 (pruned_hash p)) s2) as s3. intros s3 P3.
    destruct (IH s3 (pu_index _ _ _ _ _ _ P3)) as (self' & E & P4). rewrite E. exists self'. split; [done|].
    exact (purged_trans _ _ _ _ _ _ _ _ _ _ _ P1 (purged_trans _ _ _ _ _ _ _ _ _ _ _ P2 (purged_trans _ _ _ _ _ _ _ _ _ _ _ P3 P4))).
Qed.

Definition removed_tx self (id : TransactionId) (ix : usize) : option (RemovedTransaction TTx) :=
  (fun tx => mkRemovedTransaction id ix (tx_scale_encoded tx) (tx_user_data tx)) <$> transactions self !! id.

Lemma take_transactions_purged l : forall self,
  index_inv self -> NoDup l.*1 -> (forall id ix, (id, ix) ∈ l -> is_Some (transactions self !! id)) ->
  exists out self', take_transactions l self = Some (out, self') /\ purged l.*1 [] [] [] self self' /\
    (forall r, r ∈ out <-> exists id ix, (id, ix) ∈ l /\ removed_tx self id ix = Some r).
Proof.
  induction l as [|[id ix] l IH]; intros self Hx Hnd Hall; cbn [take_transactions].
  - exists [], self. split; [done|]. split; [by apply purged_refl|]. intros r. split; [by intros ?%elem_of_nil|].
    by intros (? & ? & ?%elem_of_nil & _).
  - rewrite fmap_cons in Hnd. apply NoDup_cons in Hnd as [Hid Hnd]. destruct (Hall id ix) as [tx Htx]; [by left|].
    destruct (take_transaction_purged self id tx Hx Htx) as (s1 & E1 & P1). rewrite E1.
    assert (Hsame : forall id' ix', (id', ix') ∈ l -> transactions s1 !! id' = transactions self !! id').
    { intros id' ix' Hin. assert (id' <> id). { intros ->. apply Hid, list_elem_of_fmap. by exists (id, ix'). }
      apply option_eq. intros t. rewrite (pu_txs _ _ _ _ _ _ P1), list_elem_of_singleton. naive_solver. }
    destruct (IH s1 (pu_index _ _ _ _ _ _ P1) Hnd) as (out & self' & E2 & P2 & Hout).
    { intros id' ix' Hin. rewrite (Hsame _ _ Hin). apply (Hall id' ix'). by right. }
    rewrite E2. eexists _, self'. split; [reflexivity|]. split; [exact (purged_trans _ _ _ _ _ _ _ _ _ _ _ P1 P2)|].
    intros r. rewrite elem_of_cons, Hout. unfold removed_tx. split.
    + intros [->|(id' & ix' & Hin & Hr)].
      * exists id, ix. split; [by left|]. by rewrite Htx.
      * exists id', ix'. split; [by right|]. by rewrite <- (Hsame id' ix').
    + intros (id' & ix' & [[= -> ->]|Hin]%elem_of_cons & Hr).
      * left. rewrite Htx in Hr. cbn in Hr. congruence.
      * right. exists id', ix'. split; [done|]. by rewrite (Hsame id' ix').
Qed.

(** What is reported of a pruned block. *)
Definition report_of self (p : PrunedNode Block) (r : PruneBodyFinalized TTx TBl) : Prop :=
  pbf_block_hash r = pruned_hash p /\ pbf_user_data r = lb_user_data (pn_user_data p) /\
  forall t, t ∈ pbf_included_transactions r <->
    exists id ix, transactions_by_inclusion self !! (pruned_hash p, id) = Some ix /\ removed_tx self id ix = Some t.

Lemma report_of_ext self self' p r :
  (forall id ix, transactions_by_inclusion self' !! (pruned_hash p, id) = Some ix <->
     transactions_by_inclusion self !! (pruned_hash p, id) = Some ix) ->
  (forall id ix, transactions_by_inclusion self !! (pruned_hash p, id) = Some ix ->
     transactions self' !! id = transactions self !! id) ->
  report_of self' p r -> report_of self p r.
Proof.
  intros Hincl Htx (H1 & H2 & H3). split; [done|]. split; [done|]. intros t. rewrite H3. unfold removed_tx.
  split; intros (id & ix & Hix & Ht); exists id, ix.
  - apply Hincl in Hix. split; [done|]. by rewrite <- (Htx id ix).
  - rewrite (Htx id ix) by done. split; [|done]. by apply Hincl.
Qed.

Lemma finalized_loop_purged pruned : forall self,
  index_inv self -> NoDup (pruned_hash <$> pruned) ->
  (forall id h h', h ∈ pruned_hash <$> pruned -> h' ∈ pruned_hash <$> pruned ->
     (id, h) ∈ included_transactions self -> (id, h') ∈ included_transactions self -> h = h') ->
  exists out self' gone, pruned_finalized_loop pruned self = Some (out, self') /\
    purged gone [] (pruned_hash <$> pruned) (pruned_hash <$> pruned) self self' /\
    (forall x, x ∈ gone <-> exists h, h ∈ pruned_hash <$> pruned /\ (x, h) ∈ included_transactions self) /\
    Forall2 (report_of self) pruned out.
Proof.
  induction pruned as [|p pruned IH]; intros self Hx Hnd Honce; cbn [pruned_finalized_loop].
  - exists [], self, []. split; [done|]. split; [by apply purged_refl|]. split; [|constructor].
    intros x. split; [by intros ?%elem_of_nil|]. by intros (? & ?%elem_of_nil & _).
  - fold (pruned_hash p). set (h := pruned_hash p) in *. rewrite fmap_cons in Hnd, Honce. fold h in Hnd, Honce.
    apply NoDup_cons in Hnd as [Hh Hnd].
    pose proof (purged_id self h Hx) as P1. revert P1. generalize (with_tree (blocks_tree self) (delete h (blocks_by_id self)) self).
    intros s1 P1. pose proof (pu_index _ _ _ _ _ _ P1) as X1.
    assert (Hbi : forall id ix, (id, ix) ∈ block_inclusions s1 h <-> transactions_by_inclusion self !! (h, id) = Some ix).
    { intros id ix. rewrite elem_of_block_inclusions by done. rewrite (pu_incl _ _ _ _ _ _ P1).
      split; [by intros [? _]|]. intros ?. split; [done|]. split; apply not_elem_of_nil. }
    assert (Hgone1 : forall x, x ∈ (block_inclusions s1 h).*1 <-> (x, h) ∈ included_transactions self).
    { intros x. rewrite (xi_mirror _ Hx), list_elem_of_fmap. split.
      - intros ([x' ix] & -> & Hin%Hbi). eauto.
      - intros [ix Hix]. exists (x, ix). split; [done|]. by apply Hbi. }
    assert (Htx1 : forall x, transactions s1 !! x = transactions self !! x).
    { intros x. apply option_eq. intros t. rewrite (pu_txs _ _ _ _ _ _ P1). split; [by intros [? _]|].
      intros ?. split; [done|apply not_elem_of_nil]. }
    destruct (take_transactions_purged (block_inclusions s1 h) s1 X1) as (incl & s2 & E2 & P2 & Hincl).
    { apply block_inclusions_NoDup. }
    { intros id ix Hin%Hbi. rewrite Htx1. apply (xi_included _ Hx id h), (xi_mirror _ Hx). eauto. }
    rewrite E2. pose proof (forget_validations_purged s2 h (pu_index _ _ _ _ _ _ P2)) as P3. revert P3.
    generalize (forget_validations h (block_validations s2 h) s2) as s3. intros s3 P3.
    pose proof (purged_trans _ _ _ _ _ _ _ _ _ _ _ P1 (purged_trans _ _ _ _ _ _ _ _ _ _ _ P2 P3)) as P13. cbn [app] in P13.
    rewrite app_nil_r in P13. pose proof (pu_index _ _ _ _ _ _ P3) as X3.
    assert (Hinc3 : forall x h', (x, h') ∈ included_transactions s3 <-> (x, h') ∈ included_transactions self /\ (x, h) ∉ included_transactions self).
    { intros x h'. rewrite (purged_included _ _ _ _ _ _ x h' Hx P13), Hgone1. pose proof (@not_elem_of_nil Z). naive_solver. }
    destruct (IH s3 X3 Hnd) as (out & self' & gone & E4 & P4 & Hgone & Hrep).
    { intros id h1 h2 ? ? [? _]%Hinc3 [? _]%Hinc3. eapply (Honce id h1 h2); [by right|by right|done|done]. }
    assert (Hkeep : forall x h', h' ∈ pruned_hash <$> pruned -> (x, h') ∈ included_transactions self -> (x, h) ∉ included_transactions self).
    { intros x h' Hin' Hi' Hi. assert (h = h') as E by (eapply (Honce x h h'); [by left|by right|done|done]). by rewrite E in Hh. }
    exists (mkPruneBodyFinalized h (lb_user_data (pn_user_data p)) incl :: out), self', ((block_inclusions s1 h).*1 ++ gone).
    rewrite E4. split; [done|]. split; [exact (purged_trans _ _ _ _ _ _ _ _ _ _ _ P13 P4)|]. split.
    + intros x. rewrite elem_of_app, Hgone1, Hgone. setoid_rewrite elem_of_cons. split.
      * intros [Hi|(h' & Hin & [Hi _]%Hinc3)]; [exists h|exists h']; (split; [|done]); [by left|by right].
      * intros (h' & [->|Hin] & Hi); [by left|right]. exists h'. split; [done|]. apply Hinc3. split; [done|]. by eapply Hkeep.
    + constructor.
      * split; [done|]. split; [done|]. intros t. cbn. rewrite Hincl. unfold removed_tx.
        split; intros (id & ix & Hin & Ht); exists id, ix; rewrite Htx1 in *; (split; [by apply Hbi|done]).
      * eapply Forall2_impl_in; [exact Hrep|]. cbn. intros q r Hq Hr.
        assert (Hqh : pruned_hash q ∈ pruned_hash <$> pruned) by (by apply list_elem_of_fmap_2).
        assert (Hno : forall x, (x, pruned_hash q) ∈ included_transactions self -> x ∉ (block_inclusions s1 h).*1).
        { intros x Hi. rewrite Hgone1. by eapply Hkeep. }
        eapply report_of_ext; [| |exact Hr].
        -- intros id ix. rewrite (pu_incl _ _ _ _ _ _ P13). split; [by intros [? _]|]. intros Hi. split; [done|].
           split; [|apply not_elem_of_nil]. apply Hno, (xi_mirror _ Hx). eauto.
        -- intros id ix Hi. apply option_eq. intros t. rewrite (pu_txs _ _ _ _ _ _ P13). split; [by intros [? _]|].
           intros ?. split; [done|]. apply Hno, (xi_mirror _ Hx). eauto.
Qed.

End purge.
