(* ===== verification/LightPoolOps.v ===== *)
(** * The operations of the pool on transactions, validations and blocks

    Each operation of LightPool.v but those of finality keeps the invariant; what
    [set_best_block] reports is what leaves and what enters the best chain. *)

From S2P Require Import Prelude TrieNode BTree ForkTree ForkTreePrune ForkTreeFacts LightPool LightPoolInv LightPoolPurge.

Open Scope Z_scope.

Section ops.
Context `{Platform} `{Blake2b} {TTx TBl TErr : Type}.

Abbreviation LightPool := (LightPool TTx TBl TErr) (only parsing).
Abbreviation Transaction := (Transaction TTx TErr) (only parsing).
Abbreviation Block := (LightBlock TBl) (only parsing).
Implicit Types (self : LightPool) (tx : Transaction) (b : Block) (id : TransactionId) (h : Hash) (seen : gset (Z * Z)).

(** ** Changes of the status of transactions *)

(** The transactions keep their bytes, everything else stays. *)
Definition restatus self self' : Prop :=
  exists m, self' = with_transactions m self /\
    forall id, tx_scale_encoded <$> m !! id = tx_scale_encoded <$> transactions self !! id.

Lemma restatus_refl self : restatus self self.
Proof. exists (transactions self). split; [by destruct self|done]. Qed.

Lemma restatus_trans self s1 s2 : restatus self s1 -> restatus s1 s2 -> restatus self s2.
Proof. intros (m1 & -> & B1) (m2 & -> & B2). exists m2. split; [done|]. intros id. by rewrite B2, <- B1. Qed.

Lemma restatus_some self self' :
  restatus self self' -> forall id, is_Some (transactions self' !! id) <-> is_Some (transactions self !! id).
Proof.
  intros (m & -> & Hb) id. cbn. by rewrite <- (fmap_is_Some tx_scale_encoded (m !! id)), Hb, fmap_is_Some.
Qed.

Lemma restatus_index self self' : restatus self self' -> index_inv self -> index_inv self'.
Proof.
  intros Hrs [[T1 T2] Hm Hi [V1 V2]]. pose proof (restatus_some _ _ Hrs) as Hsome. destruct Hrs as (m & -> & Hb).
  cbn in Hsome, Hb. split; [split|..|split]; cbn; [| |done| |done|].
  - intros id. rewrite Hsome. apply T1.
  - intros x id. rewrite T2. specialize (Hb id).
    split; intros (tx & Htx & ->); rewrite Htx in Hb; cbn in Hb.
    + apply fmap_Some in Hb as (tx' & ? & ->). eauto.
    + symmetry in Hb. apply fmap_Some in Hb as (tx' & ? & ->). eauto.
  - intros id h. rewrite Hsome. apply Hi.
  - intros id h. rewrite Hsome. apply V2.
Qed.

Lemma restatus_inv self self' seen : restatus self self' -> light_inv self seen -> light_inv self' seen.
Proof.
  intros Hrs [Hb Hx [S1 S2]]. pose proof (restatus_index _ _ Hrs Hx) as Hx'. pose proof (restatus_some _ _ Hrs) as Hsome.
  destruct Hrs as (m & -> & _). split; [by destruct Hb|done|]. split; [|done]. intros id h. rewrite Hsome. apply S1.
Qed.

(** The tree, the index of blocks and the heads stay. *)
Lemma restatus_blocks self self' :
  restatus self self' -> heads self' = heads self /\ blocks_by_id self' = blocks_by_id self /\
  transactions_by_inclusion self' = transactions_by_inclusion self /\ included_transactions self' = included_transactions self.
Proof. intros (m & -> & _). done. Qed.

Lemma update_tx_restatus self id f :
  is_Some (transactions self !! id) -> (forall tx, tx_scale_encoded (f tx) = tx_scale_encoded tx) ->
  exists self', update_tx id f self = Some self' /\ restatus self self'.
Proof.
  intros [tx Htx] Hf. unfold update_tx. rewrite Htx. eexists. split; [reflexivity|]. eexists. split; [reflexivity|]. cbn. intros x.
  destruct (decide (x = id)) as [->|Hne]; [|by rewrite lookup_insert_ne]. rewrite lookup_insert, Htx. case_decide; [|done]. cbn. by rewrite Hf.
Qed.

Lemma retract_validations_restatus l : forall self,
  (forall id, id ∈ l -> is_Some (transactions self !! id)) ->
  exists self', retract_validations l self = Some self' /\ restatus self self'.
Proof.
  induction l as [|id l IH]; intros self Hall; cbn [retract_validations]; [exists self; split; [done|apply restatus_refl]|].
  destruct (update_tx_restatus self id (fun tx => set_best_validation (snd <$> finalized_chain_validation tx) tx)) as (s1 & -> & R1);
    [apply Hall; by left|done|].
  destruct (IH s1) as (s2 & -> & R2).
  { intros id' Hin. apply (restatus_some _ _ R1), Hall. by right. }
  exists s2. split; [done|]. by eapply restatus_trans.
Qed.

Lemma include_validations_restatus h l : forall self,
  index_inv self -> (forall id, id ∈ l -> is_Some (transaction_validations self !! (id, h))) ->
  exists self', include_validations h l self = Some self' /\ restatus self self'.
Proof.
  induction l as [|id l IH]; intros self Hx Hall; cbn [include_validations]; [exists self; split; [done|apply restatus_refl]|].
  destruct (Hall id) as [v Hv]; [by left|]. rewrite Hv.
  destruct (update_tx_restatus self id (set_best_validation (Some v))) as (s1 & -> & R1); [|done|].
  { apply (vi_tx _ (xi_validations _ Hx) id h). eauto. }
  destruct (IH s1) as (s2 & -> & R2); [by eapply restatus_index| |].
  { intros id' Hin. destruct R1 as (m1 & -> & _). apply Hall. by right. }
  exists s2. split; [done|]. by eapply restatus_trans.
Qed.

Lemma finalize_validations_restatus b l : forall self,
  index_inv self -> (forall id, id ∈ l -> is_Some (transaction_validations self !! (id, lb_hash b))) ->
  exists self', finalize_validations b l self = Some self' /\ restatus self self'.
Proof.
  induction l as [|id l IH]; intros self Hx Hall; cbn [finalize_validations]; [exists self; split; [done|apply restatus_refl]|].
  destruct (Hall id) as [v Hv]; [by left|]. rewrite Hv.
  destruct (update_tx_restatus self id (set_finalized_validation (Some (relative_block_height b, v)))) as (s1 & -> & R1); [|done|].
  { apply (vi_tx _ (xi_validations _ Hx) id (lb_hash b)). eauto. }
  destruct (IH s1) as (s2 & -> & R2); [by eapply restatus_index| |].
  { intros id' Hin. destruct R1 as (m1 & -> & _). apply Hall. by right. }
  exists s2. split; [done|]. by eapply restatus_trans.
Qed.

Lemma elem_of_report self h id h' ix :
  index_inv self -> (id, h', ix) ∈ report_inclusions self h <-> h' = h /\ transactions_by_inclusion self !! (h, id) = Some ix.
Proof.
  intros Hx. unfold report_inclusions. rewrite list_elem_of_fmap. split.
  - intros ([id' ix'] & [= -> -> ->] & Hin). by apply elem_of_block_inclusions in Hin.
  - intros [-> Hin]. exists (id, ix). split; [done|]. by apply elem_of_block_inclusions.
Qed.

(** The reports on the blocks of a list, each with the change of the status of
    some transactions. *)
Section report_loop.
Context (step : Hash -> list TransactionId -> LightPool -> option LightPool)
  (loop : list NodeIndex -> LightPool -> option (list (TransactionId * Hash * usize) * LightPool)).
Context (step_ok : forall h l self, index_inv self ->
  (forall id, id ∈ l -> is_Some (transaction_validations self !! (id, h))) ->
  exists self', step h l self = Some self' /\ restatus self self').
Context (loop_nil : forall self, loop [] self = Some ([], self)).
Context (loop_cons : forall i l self, loop (i :: l) self =
  let! c := fork_get (blocks_tree self) i in
  let out := report_inclusions self (lb_hash c) in
  let! s1 := step (lb_hash c) (block_validations self (lb_hash c)) self in
  let! (rest, s2) := loop l s1 in
  Some (out ++ rest, s2)).

Lemma inclusions_loop_spec l : forall self,
  blocks_inv self -> index_inv self -> (forall i, i ∈ l -> is_Some (fork_get (blocks_tree self) i)) ->
  exists out self', loop l self = Some (out, self') /\ restatus self self' /\
    (forall id h ix, (id, h, ix) ∈ out <->
       transactions_by_inclusion self !! (h, id) = Some ix /\ exists i, i ∈ l /\ blocks_by_id self !! h = Some i).
Proof.
  induction l as [|i l IH]; intros self Hb Hx Hall.
  - exists [], self. rewrite loop_nil. split; [done|]. split; [apply restatus_refl|]. intros id h ix.
    split; [by intros ?%elem_of_nil|]. by intros (_ & ? & ?%elem_of_nil & _).
  - rewrite loop_cons. destruct (Hall i) as [b Hg]; [by left|]. rewrite Hg. cbn zeta.
    destruct (step_ok (lb_hash b) (block_validations self (lb_hash b)) self Hx) as (s1 & E1 & R1).
    { intros id. by apply elem_of_block_validations. }
    rewrite E1. destruct (restatus_blocks _ _ R1) as (Hh & Hids & Hti & _). injection Hh as Ht _ _ _ _.
    destruct (IH s1) as (out & s2 & E2 & R2 & Hout).
    { destruct R1 as (m1 & -> & _). by destruct Hb. } { by eapply restatus_index. }
    { intros j Hj. rewrite Ht. apply Hall. by right. }
    rewrite E2. eexists _, s2. split; [reflexivity|]. split; [by eapply restatus_trans|].
    intros id h ix. rewrite elem_of_app, Hout, elem_of_report, Hti, Hids by done. split.
    + intros [[-> Hin]|(Hin & j & Hj & Hh')].
      * split; [done|]. exists i. split; [by left|]. by apply tree_ids.
      * split; [done|]. exists j. split; [by right|done].
    + intros (Hin & j & [->|Hj]%elem_of_cons & Hh'); [left|right; eauto].
      apply (ids_tree _ _ _ Hb) in Hh' as (b' & Hg' & <-). assert (b' = b) as -> by congruence. done.
Qed.
End report_loop.

Lemma retract_loop_spec l self :
  blocks_inv self -> index_inv self -> (forall i, i ∈ l -> is_Some (fork_get (blocks_tree self) i)) ->
  exists out self', retract_loop l self = Some (out, self') /\ restatus self self' /\
    (forall id h ix, (id, h, ix) ∈ out <->
       transactions_by_inclusion self !! (h, id) = Some ix /\ exists i, i ∈ l /\ blocks_by_id self !! h = Some i).
Proof.
  apply (inclusions_loop_spec (fun _ => retract_validations)); [|done|done]. intros h ids s Hx Hall. apply retract_validations_restatus.
  intros id Hid. eapply (vi_tx _ (xi_validations _ Hx)). by apply Hall.
Qed.

Lemma include_loop_spec l self :
  blocks_inv self -> index_inv self -> (forall i, i ∈ l -> is_Some (fork_get (blocks_tree self) i)) ->
  exists out self', include_loop l self = Some (out, self') /\ restatus self self' /\
    (forall id h ix, (id, h, ix) ∈ out <->
       transactions_by_inclusion self !! (h, id) = Some ix /\ exists i, i ∈ l /\ blocks_by_id self !! h = Some i).
Proof. by apply (inclusions_loop_spec include_validations); [exact include_validations_restatus|..]. Qed.

Lemma finalize_loop_restatus l : forall self,
  index_inv self -> (forall i, i ∈ l -> is_Some (fork_get (blocks_tree self) i)) ->
  exists self', finalize_loop l self = Some self' /\ restatus self self'.
Proof.
  induction l as [|i l IH]; intros self Hx Hall; cbn [finalize_loop]; [exists self; split; [done|apply restatus_refl]|].
  destruct (Hall i) as [b Hg]; [by left|]. rewrite Hg.
  destruct (finalize_validations_restatus b (block_validations self (lb_hash b)) self Hx) as (s1 & -> & R1).
  { intros id. by apply elem_of_block_validations. }
  destruct (IH s1) as (s2 & -> & R2); [by eapply restatus_index| |].
  { intros j Hj. destruct R1 as (m1 & -> & _). apply Hall. by right. }
  exists s2. split; [done|]. by eapply restatus_trans.
Qed.

(** ** The best block *)

(** The new best block is in the tree, below the finalized block. *)
Definition best_ok self (idx : option NodeIndex) : Prop :=
  (forall k, idx = Some k -> is_Some (fork_get (blocks_tree self) k)) /\
  (forall y, finalized_block_index self = Some y -> exists k, idx = Some k /\ is_ancestor (blocks_tree self) y k = Some true).

Lemma with_best_inv self idx seen : best_ok self idx -> light_inv self seen -> light_inv (with_best_block idx self) seen.
Proof.
  intros [B1 B2] [[] Hx Hs]. split; [by split|by destruct Hx as [[] ? ? []]|by destruct Hs].
Qed.

Lemma block_index_of_spec self h idx :
  blocks_inv self -> block_index_of self h = Some idx ->
  (idx = None /\ h = blocks_tree_root_hash self) \/
  (exists k, idx = Some k /\ blocks_by_id self !! h = Some k /\ is_Some (fork_get (blocks_tree self) k)).
Proof.
  intros Hb. unfold block_index_of. destruct (Z.eqb_spec h (blocks_tree_root_hash self)); [intros [= <-]; by left|].
  destruct (blocks_by_id self !! h) as [k|] eqn:E; [|done]. intros [= <-]. right. exists k.
  split; [done|]. split; [done|]. by eapply ids_get.
Qed.

(** The chain that ends with a block. *)
Definition chain_of self (idx : option NodeIndex) (k : NodeIndex) : Prop :=
  exists j, idx = Some j /\ is_ancestor (blocks_tree self) k j = Some true.

Lemma on_best_chain_iff self h :
  on_best_chain self h <-> exists i, blocks_by_id self !! h = Some i /\ chain_of self (lp_best_block_index self) i.
Proof. unfold on_best_chain, chain_of. naive_solver. Qed.

Lemma reorg_paths_spec self i1 i2 :
  blocks_inv self -> (forall k, i1 = Some k -> is_Some (fork_get (blocks_tree self) k)) ->
  (forall k, i2 = Some k -> is_Some (fork_get (blocks_tree self) k)) ->
  exists up down, reorg_paths self i1 i2 = Some (up, down) /\
    (forall k, k ∈ up <-> chain_of self i1 k /\ ~ chain_of self i2 k) /\
    (forall k, k ∈ down <-> chain_of self i2 k /\ ~ chain_of self i1 k).
Proof.
  intros Hb H1 H2. pose proof (bi_rep _ Hb) as Hwf. unfold chain_of, reorg_paths.
  pose proof (@not_elem_of_nil Z) as Hn. destruct i1 as [n1|], i2 as [n2|].
  - destruct (ascend_descend_ancestors (blocks_tree self) n1 n2) as (up & down & -> & _ & _ & Hup & Hdown); [done|apply Hb|auto|auto|].
    exists up, down. split; [done|]. split; intros k; [rewrite Hup|rewrite Hdown]; naive_solver.
  - destruct (root_path_rev (blocks_tree self) n1) as (l & E & _); [done|apply Hb|auto|]. rewrite E.
    exists l, []. split; [done|]. split; intros k; [rewrite (path_ancestors _ _ _ _ Hwf E) by auto|]; naive_solver.
  - destruct (root_path_rev (blocks_tree self) n2) as (l & E & E2); [done|apply Hb|auto|]. rewrite E2.
    exists [], (rev l). split; [done|]. split; intros k; [|rewrite elem_of_rev, (path_ancestors _ _ _ _ Hwf E) by auto]; naive_solver.
  - exists [], []. split; [done|]. split; intros k; naive_solver.
Qed.

Lemma chain_of_get self idx k : blocks_inv self -> chain_of self idx k -> is_Some (fork_get (blocks_tree self) k).
Proof. intros Hb (j & _ & Ha). by eapply ancestor_get in Ha as [? _]; [|apply Hb]. Qed.

Lemma set_best_block_effect self seen h idx :
  light_inv self seen -> block_index_of self h = Some idx -> best_ok self idx ->
  exists r self' s1, set_best_block self h = Some (r, self') /\ restatus self s1 /\ self' = with_best_block idx s1 /\
    light_inv self' seen /\
    (forall id h ix, (id, h, ix) ∈ retracted_transactions r <->
       transactions_by_inclusion self !! (h, id) = Some ix /\ on_best_chain self h /\ ~ on_best_chain self' h) /\
    (forall id h ix, (id, h, ix) ∈ newly_included_transactions r <->
       transactions_by_inclusion self !! (h, id) = Some ix /\ on_best_chain self' h /\ ~ on_best_chain self h).
Proof.
  intros Hinv Hidx Hok. pose proof (li_blocks _ _ Hinv) as Hb. unfold set_best_block. rewrite Hidx.
  destruct (reorg_paths_spec self (lp_best_block_index self) idx Hb (bi_best _ Hb) (proj1 Hok)) as (up & down & -> & Hup & Hdown).
  destruct (retract_loop_spec up self Hb (li_index _ _ Hinv)) as (out1 & s1 & -> & R1 & Hout1).
  { intros i [Hi _]%Hup. by eapply chain_of_get. }
  pose proof (restatus_inv _ _ _ R1 Hinv) as Hinv1. destruct (restatus_blocks _ _ R1) as (Hh1 & Hids1 & Hti1 & _).
  pose proof Hh1 as Ht1. injection Ht1 as Ht1 _ _ _ _.
  destruct (include_loop_spec down s1 (li_blocks _ _ Hinv1) (li_index _ _ Hinv1)) as (out2 & s2 & -> & R2 & Hout2).
  { intros i [Hi _]%Hdown. rewrite Ht1. by eapply chain_of_get. }
  pose proof (restatus_trans _ _ _ R1 R2) as R. pose proof (restatus_inv _ _ _ R Hinv) as Hinv2.
  destruct (restatus_blocks _ _ R) as (Hh & Hids & Hti & _). injection Hh as Ht Hbst Hfin _ _.
  eexists _, _, s2. split; [reflexivity|]. split; [done|]. split; [done|]. split.
  { apply with_best_inv; [|done]. unfold best_ok. by rewrite Ht, Hfin. }
  assert (Hbest' : forall h', on_best_chain (with_best_block idx s2) h' <-> exists i, blocks_by_id self !! h' = Some i /\ chain_of self idx i).
  { intros h'. rewrite on_best_chain_iff. unfold chain_of. cbn. by rewrite Hids, Ht. }
  cbn [retracted_transactions newly_included_transactions].
  split; intros id h' ix; rewrite Hbest', on_best_chain_iff; [rewrite Hout1|rewrite Hout2, Hti1, Hids1]; (split;
    [intros (Hix & i & Hin & Hi); (apply Hup in Hin as [Hc Hn] || apply Hdown in Hin as [Hc Hn]);
     split; [done|]; split; [by exists i|]; intros (i' & Hi' & Hc'); assert (i' = i) as -> by congruence; done
    |intros (Hix & (i & Hi & Hc) & Hn); split; [done|]; exists i; split; [|done]]).
  - apply Hup. split; [done|]. intros Hc'. apply Hn. by exists i.
  - apply Hdown. split; [done|]. intros Hc'. apply Hn. by exists i.
Qed.

(** ** Validations *)

Lemma below_head_total self head index :
  blocks_inv self -> (forall k, head = Some k -> is_Some (fork_get (blocks_tree self) k)) -> is_Some (below_head self head index).
Proof.
  intros Hb Hh. destruct head as [k|], index as [i|]; cbn; [|by eexists..].
  destruct (ancestor_total (blocks_tree self) i k) as [v ->]; [apply Hb|auto|]. by eexists.
Qed.

Lemma finalized_get self y : blocks_inv self -> finalized_block_index self = Some y -> is_Some (fork_get (blocks_tree self) y).
Proof.
  intros Hb Hy. destruct (bi_fin _ Hb y Hy) as (k & _ & Ha). by eapply ancestor_get in Ha as [? _]; [|apply Hb].
Qed.

Lemma with_validation_inv self seen id h v :
  light_inv self seen -> is_Some (transactions self !! id) -> is_hash h ->
  light_inv (with_validation (<[(id, h) := v]> (transaction_validations self))
               ({[(h, id)]} ∪ transactions_by_validation self) self) seen.
Proof.
  intros [[] [[] ? ? [V1 V2]] []] Hid Hh. split; [by split| |by split]. split; [by split|done|done|]. split; cbn.
  - intros x h'. rewrite elem_of_union, elem_of_singleton, V1, lookup_insert_is_Some. destruct (decide ((id, h) = (x, h'))) as [E|E].
    + split; [by left|]. intros _. left. congruence.
    + split; [intros [?|?]; [congruence|by right]|intros [?|[_ ?]]; [done|by right]].
  - intros x h' [[= <- <-]|[_ Hv]]%lookup_insert_is_Some; [done|]. by apply V2.
Qed.

Lemma set_validation_result_inv self seen id h r :
  light_inv self seen -> is_Some (transactions self !! id) -> is_hash h ->
  (h = blocks_tree_root_hash self \/ is_Some (blocks_by_id self !! h)) ->
  exists self', set_validation_result self id h r = Some self' /\ light_inv self' seen /\
    heads self' = heads self /\ blocks_by_id self' = blocks_by_id self /\
    (forall x, is_Some (transactions self' !! x) <-> is_Some (transactions self !! x)) /\
    included_transactions self' = included_transactions self.
Proof.
  intros Hinv Hid Hh Hknown. pose proof (li_blocks _ _ Hinv) as Hb. unfold set_validation_result.
  assert (exists idx, block_index_of self h = Some idx) as [idx Hidx].
  { unfold block_index_of. case_if; [eauto|]. destruct Hknown as [?|[k ->]]; [lia|eauto]. }
  rewrite Hidx. apply block_index_of_spec in Hidx; [|done].
  assert (exists hgt, match idx with
    | Some block_index => let! c := fork_get (blocks_tree self) block_index in Some (relative_block_height c)
    | None => Some (blocks_tree_root_relative_height self) end = Some hgt) as [hgt ->].
  { destruct Hidx as [[-> _]|(k & -> & _ & [c ->])]; eauto. }
  destruct Hid as [tx Htx]. rewrite Htx.
  destruct (below_head_total self (lp_best_block_index self) idx Hb (bi_best _ Hb)) as [v1 ->].
  destruct (below_head_total self (finalized_block_index self) idx Hb (fun y => finalized_get self y Hb)) as [v2 ->]. cbn zeta.
  set (res := match r with Ok v => Ok _ | Err err => Err err end).
  assert (exists s1, (if v2 then update_tx id (set_finalized_validation (Some (hgt, res))) self else Some self) = Some s1 /\ restatus self s1)
    as (s1 & -> & R1).
  { destruct v2; [|exists self; split; [done|apply restatus_refl]]. apply update_tx_restatus; [eauto|done]. }
  assert (exists s2, (if v1 then update_tx id (set_best_validation (Some res)) s1 else Some s1) = Some s2 /\ restatus s1 s2)
    as (s2 & -> & R2).
  { destruct v1; [|exists s1; split; [done|apply restatus_refl]]. apply update_tx_restatus; [apply (restatus_some _ _ R1); eauto|done]. }
  pose proof (restatus_trans _ _ _ R1 R2) as R. eexists. split; [reflexivity|]. destruct (restatus_blocks _ _ R) as (E1 & E2 & _ & E4).
  split; [|split; [exact E1|split; [exact E2|split; [|exact E4]]]].
  - apply with_validation_inv; [by eapply restatus_inv|apply (restatus_some _ _ R); eauto|done].
  - exact (restatus_some _ _ R).
Qed.

(** ** What is seen of the transactions and of the blocks that are left *)

Definition restrict self seen : gset (Z * Z) :=
  filter (fun x => is_Some (transactions self !! fst x) /\ is_Some (blocks_by_id self !! snd x)) seen.

Lemma elem_of_restrict self seen id h :
  (id, h) ∈ restrict self seen <-> is_Some (transactions self !! id) /\ is_Some (blocks_by_id self !! h) /\ (id, h) ∈ seen.
Proof. unfold restrict. rewrite elem_of_filter. cbn. tauto. Qed.

Lemma restrict_all self seen : seen_inv self seen -> restrict self seen = seen.
Proof.
  intros [Hs _]. apply set_eq. intros [id h]. rewrite elem_of_restrict. split; [tauto|]. intros Hin. destruct (Hs _ _ Hin). done.
Qed.

Lemma seen_restrict self self' seen :
  seen_inv self seen ->
  (forall id h, (id, h) ∈ included_transactions self' <->
     (id, h) ∈ included_transactions self /\ is_Some (transactions self' !! id) /\ is_Some (blocks_by_id self' !! h)) ->
  (forall h h', is_Some (blocks_by_id self' !! h) -> is_Some (blocks_by_id self' !! h') ->
     hash_below self' h h' <-> hash_below self h h') ->
  (forall id h h', (id, h') ∈ seen -> is_Some (transactions self' !! id) -> is_Some (blocks_by_id self' !! h) ->
     hash_below self h' h -> is_Some (blocks_by_id self' !! h')) ->
  seen_inv self' (restrict self' seen).
Proof.
  intros [Hs Hf] Hincl Hbelow Hclosed. split.
  - intros id h (? & ? & _)%elem_of_restrict. done.
  - intros id h. rewrite Hincl, Hf, elem_of_restrict. split.
    + intros ([Hin Hmin] & Hid & Hh). split; [done|]. intros h' (_ & Hh' & Hin')%elem_of_restrict Hb.
      apply Hmin; [done|]. by apply Hbelow.
    + intros [(Hid & Hh & Hin) Hmin]. split; [|done]. split; [done|]. intros h' Hin' Hb.
      assert (Hh' : is_Some (blocks_by_id self' !! h')) by (by eapply Hclosed).
      apply Hmin; [by apply elem_of_restrict|]. by apply Hbelow.
Qed.

(** ** Transactions *)

Lemma add_unvalidated_inv self seen new_id bytes ud :
  light_inv self seen -> transactions self !! new_id = None -> is_usize new_id ->
  light_inv (snd (add_unvalidated self new_id bytes ud)) seen.
Proof.
  intros [Hb [[T1 T2] Hm Hi [V1 V2]] [S1 S2]] Hnew Hu. cbn.
  assert (Hsome : forall id v, is_Some (transactions self !! id) -> is_Some (<[new_id := v]> (transactions self) !! id)).
  { intros id v Hid. rewrite lookup_insert_is_Some. destruct (decide (new_id = id)); [by left|by right]. }
  split; [by destruct Hb| |].
  - split; [split|..|split]; cbn; [| |done| |done|].
    + intros id [<-|[_ Hid]]%lookup_insert_is_Some; [done|]. by apply T1.
    + intros x id. rewrite elem_of_union, elem_of_singleton, T2. destruct (decide (id = new_id)) as [->|Hne].
      * rewrite lookup_insert. case_decide; [|done]. split.
        -- intros [[= ->]|(t & ? & _)]; [by eexists|congruence].
        -- intros (t & [= <-] & ->). by left.
      * rewrite lookup_insert_ne by done. split; [intros [?|?]; [congruence|done]|by right].
    + intros id h Hin. destruct (Hi id h Hin). auto.
    + intros id h Hin. destruct (V2 id h Hin). auto.
  - split; [|done]. intros id h Hin. destruct (S1 id h Hin). cbn. auto.
Qed.

(** The two ways to change the data of the user. *)
Lemma user_data_restatus self (f : TTx -> TTx) m :
  (forall id, m !! id = transactions self !! id \/ m !! id = set_tx_user_data f <$> transactions self !! id) ->
  restatus self (with_transactions m self).
Proof.
  intros Hm. exists m. split; [done|]. intros id. destruct (Hm id) as [->| ->]; [done|]. by destruct (transactions self !! id).
Qed.

Lemma transactions_iter_mut_restatus self f : restatus self (transactions_iter_mut self f).
Proof. apply (user_data_restatus self f). intros id. right. apply lookup_fmap. Qed.

Lemma transaction_user_data_mut_restatus self id f self' :
  transaction_user_data_mut self id f = Some self' -> restatus self self'.
Proof.
  unfold transaction_user_data_mut. destruct (transactions self !! id) as [tx|] eqn:E; [|done]. intros [= <-].
  apply (user_data_restatus self f). intros x. destruct (decide (x = id)) as [->|].
  - right. rewrite lookup_insert, E. by case_decide.
  - left. by rewrite lookup_insert_ne.
Qed.

Lemma heads_eq self self' :
  heads self' = heads self -> blocks_tree self' = blocks_tree self /\ lp_best_block_index self' = lp_best_block_index self /\
  finalized_block_index self' = finalized_block_index self /\ blocks_tree_root_hash self' = blocks_tree_root_hash self /\
  blocks_tree_root_relative_height self' = blocks_tree_root_relative_height self.
Proof. unfold heads. intros [=]. done. Qed.

Lemma blocks_frame self self' :
  heads self' = heads self -> blocks_by_id self' = blocks_by_id self -> blocks_inv self -> blocks_inv self'.
Proof. intros (E1 & E2 & E3 & _)%heads_eq E4 []. split; rewrite ?E1, ?E2, ?E3, ?E4; done. Qed.

Lemma below_frame self self' h h' :
  heads self' = heads self -> blocks_by_id self' = blocks_by_id self -> hash_below self' h h' <-> hash_below self h h'.
Proof. intros (E1 & _)%heads_eq E2. unfold hash_below. by rewrite E1, E2. Qed.

Lemma best_chain_frame self self' h :
  heads self' = heads self -> blocks_by_id self' = blocks_by_id self -> on_best_chain self' h <-> on_best_chain self h.
Proof. intros (E1 & E3 & _)%heads_eq E2. unfold on_best_chain. by rewrite E1, E2, E3. Qed.

Lemma take_transaction_inv self seen id tx :
  light_inv self seen -> transactions self !! id = Some tx ->
  exists self', take_transaction self id = Some (tx, self') /\ light_inv self' (restrict self' seen) /\
    heads self' = heads self /\ blocks_by_id self' = blocks_by_id self /\
    (forall x tx', transactions self' !! x = Some tx' <-> transactions self !! x = Some tx' /\ x <> id) /\
    (forall x h, (x, h) ∈ included_transactions self' <-> (x, h) ∈ included_transactions self /\ x <> id).
Proof.
  intros [Hb Hx Hs] Htx. destruct (take_transaction_purged self id tx Hx Htx) as (self' & E & P). exists self'. split; [done|].
  pose proof (@not_elem_of_nil Z) as Hn.
  assert (Hids : blocks_by_id self' = blocks_by_id self).
  { apply map_eq. intros h. apply option_eq. intros i. rewrite (pu_ids _ _ _ _ _ _ P). naive_solver. }
  pose proof (pu_heads _ _ _ _ _ _ P) as Hheads.
  assert (Htxs : forall x tx', transactions self' !! x = Some tx' <-> transactions self !! x = Some tx' /\ x <> id).
  { intros x tx'. by rewrite (pu_txs _ _ _ _ _ _ P), list_elem_of_singleton. }
  assert (Hincl : forall x h, (x, h) ∈ included_transactions self' <-> (x, h) ∈ included_transactions self /\ x <> id).
  { intros x h. rewrite (purged_included _ _ _ _ _ _ x h Hx P), list_elem_of_singleton. naive_solver. }
  split; [|done]. split; [by eapply blocks_frame|by eapply pu_index|]. eapply seen_restrict; [done|..].
  - intros x h. rewrite Hincl, Hids. split.
    + intros [Hin Hne]. split; [done|]. apply (si_first _ _ Hs) in Hin as [Hin _]. apply (si_seen _ _ Hs) in Hin as [[t Ht] ?].
      split; [|done]. exists t. by apply Htxs.
    + intros (Hin & [t [_ ?]%Htxs] & _). done.
  - intros h h' _ _. by apply below_frame.
  - intros x h h' _ _ _ (i & _ & Hi & _). rewrite Hids. eauto.
Qed.

(** ** Changes of the data of blocks *)

Lemma retree_below self t' g h h' :
  blocks_inv self -> updates (blocks_tree self) t' g ->
  hash_below (with_tree t' (blocks_by_id self) self) h h' <-> hash_below self h h'.
Proof.
  intros Hb Hup. unfold hash_below. cbn. split; intros (i & i' & ? & ? & Ha); exists i, i'; (split; [done|split; [done|]]);
    by eapply (updates_ancestor _ _ _ i i' (bi_rep _ Hb) Hup).
Qed.

Lemma retree_best self t' g h :
  blocks_inv self -> updates (blocks_tree self) t' g ->
  on_best_chain (with_tree t' (blocks_by_id self) self) h <-> on_best_chain self h.
Proof.
  intros Hb Hup. unfold on_best_chain. cbn. split; intros (i & i' & ? & ? & Ha); exists i, i'; (split; [done|split; [done|]]);
    by eapply (updates_ancestor _ _ _ i i' (bi_rep _ Hb) Hup).
Qed.

Lemma retree_inv self seen t' g :
  light_inv self seen -> updates (blocks_tree self) t' g -> (forall k b, lb_hash (g k b) = lb_hash b) ->
  light_inv (with_tree t' (blocks_by_id self) self) seen.
Proof.
  intros [Hb [[T1 T2] Hm Hi [V1 V2]] [S1 S2]] Hup Hg. pose proof (bi_rep _ Hb) as Hwf.
  pose proof (fun a k => updates_ancestor _ _ _ a k Hwf Hup) as Hanc. split.
  - split; cbn.
    + by eapply updates_wf.
    + apply (updates_nodes _ _ _ _ Hup), Hb.
    + intros h i. rewrite (bi_ids _ Hb). split.
      * intros (b & Hb' & <-). exists (g i b). split; [by eapply updates_fwd|apply Hg].
      * intros (b' & (b & Hb' & ->)%(updates_inv _ _ _ _ _ Hup) & <-). exists b. by rewrite Hg.
    + intros i b' (b & Hb' & ->)%(updates_inv _ _ _ _ _ Hup). rewrite Hg. by eapply bi_hash.
    + intros k Hk. apply (updates_some _ _ _ _ Hup). by apply Hb.
    + intros y Hy. destruct (bi_fin _ Hb y Hy) as (k & ? & ?). exists k. by rewrite Hanc.
    + intros y k Hy Hk%(updates_some _ _ _ _ Hup). rewrite !Hanc. by apply Hb.
  - by split.
  - split; cbn; [done|]. intros id h. rewrite S2. split; (intros [Hin Hmin]; split; [done|]); intros h' Hin' Hbel; apply Hmin; try done;
      by apply (retree_below self t' g h' h Hb Hup).
Qed.

Lemma block_user_data_mut_inv self seen h f :
  light_inv self seen ->
  exists r, block_user_data_mut self h f = Some r /\
    (forall self', r = Some self' -> exists t' g, self' = with_tree t' (blocks_by_id self) self /\
       updates (blocks_tree self) t' g /\ (forall k b, lb_hash (g k b) = lb_hash b)).
Proof.
  intros Hinv. pose proof (li_blocks _ _ Hinv) as Hb. unfold block_user_data_mut.
  destruct (blocks_by_id self !! h) as [i|] eqn:E; [|by exists None].
  destruct (updates_get_mut (blocks_tree self) i (set_block_user_data f)) as (t' & -> & Hup); [apply Hb|by eapply ids_get|].
  eexists. split; [reflexivity|]. intros self' [= <-]. eexists t', _. split; [done|]. split; [exact Hup|].
  intros k b. cbn. by case_decide.
Qed.

(** ** Insertion of a block *)

(** The parent is known, below the finalized block. *)
Definition parent_ok self (parent_hash : Hash) : Prop :=
  exists par, block_index_of self parent_hash = Some par /\
    (forall y, finalized_block_index self = Some y -> exists p, par = Some p /\ is_ancestor (blocks_tree self) y p = Some true).

Lemma add_block_inv self seen new h parent_hash ud :
  light_inv self seen -> fork_get (blocks_tree self) new = None -> new <> 2 ^ usize_bits - 1 -> is_hash h ->
  parent_ok self parent_hash ->
  exists self', add_block self new h parent_hash ud = Some self' /\ light_inv self' seen /\
    transactions self' = transactions self /\ included_transactions self' = included_transactions self /\
    (forall h', on_best_chain self' h' <-> on_best_chain self h') /\
    (forall h', is_Some (blocks_by_id self' !! h') <-> h' = h \/ is_Some (blocks_by_id self !! h')).
Proof.
  intros Hinv Hnew Hmax Hh (par & Hpar & Hfinp). pose proof (li_blocks _ _ Hinv) as Hb. pose proof (bi_rep _ Hb) as Hwf. unfold add_block.
  assert (exists hgt, (if parent_hash =? blocks_tree_root_hash self then Some (None, blocks_tree_root_relative_height self)
    else let! idx := blocks_by_id self !! parent_hash in
      let! c := fork_get (blocks_tree self) idx in Some (Some idx, relative_block_height c)) = Some (par, hgt)) as [hgt ->].
  { unfold block_index_of in Hpar. case_if; [injection Hpar as <-; eauto|].
    destruct (blocks_by_id self !! parent_hash) as [k|] eqn:E; [|done]. injection Hpar as <-.
    destruct (ids_get _ _ _ Hb E) as [c ->]. eauto. }
  assert (Hparg : forall p, par = Some p -> is_Some (fork_get (blocks_tree self) p)).
  { intros p ->. apply block_index_of_spec in Hpar as [[? _]|(k & [= <-] & _ & ?)]; done. }
  destruct (blocks_by_id self !! h) as [i|] eqn:Eh.
  { exists self. split; [done|]. split; [done|]. split; [done|]. split; [done|]. split; [done|]. intros h'. split; [by right|].
    intros [->|?]; [eauto|done]. }
  set (blk := mkLightBlock _ _ _ _).
  destruct (fork_insert_inserted (blocks_tree self) new par blk Hwf Hnew Hparg) as (t' & -> & Hins).
  eexists. split; [reflexivity|].
  assert (Hne : forall h' i, blocks_by_id self !! h' = Some i -> h' <> h /\ i <> new /\ is_Some (fork_get (blocks_tree self) i)).
  { intros h' i Hi. pose proof (ids_get _ _ _ Hb Hi) as [b Hg]. split; [congruence|]. split; [|eauto]. intros ->. congruence. }
  assert (Hold : forall a k, is_Some (fork_get (blocks_tree self) k) -> is_ancestor t' a k = Some true <-> is_ancestor (blocks_tree self) a k = Some true).
  { intros a k Hk. by eapply inserted_ancestor. }
  assert (Hfing : forall y, finalized_block_index self = Some y -> is_Some (fork_get (blocks_tree self) y)) by (intros; by apply finalized_get).
  assert (Hlook : forall h' i, <[h := new]> (blocks_by_id self) !! h' = Some i <-> (h' = h /\ i = new) \/ blocks_by_id self !! h' = Some i).
  { intros h' i. rewrite lookup_insert_Some. split.
    - intros [[<- <-]|[? ?]]; [by left|by right].
    - intros [[-> ->]|Hi]; [by left|]. destruct (Hne _ _ Hi) as (? & _). right. done. }
  split; [|split; [done|split; [done|split]]].
  - destruct Hinv as [_ [[T1 T2] Hm Hi [V1 V2]] [S1 S2]]. split.
    + split; cbn.
      * by eapply in_rep.
      * apply (inserted_nodes _ _ _ _ _ _ Hins); [done|apply Hb].
      * intros h' i. rewrite Hlook, (bi_ids _ Hb), (in_get _ _ _ _ _ Hins). case_decide as E.
        -- subst i. split; [|by intros (b & [= <-] & <-); left]. intros [[-> _]|(b & Hg & _)]; [by exists blk|congruence].
        -- split; [intros [[_ ?]|?]; [done|done]|by right].
      * intros i b. rewrite (in_get _ _ _ _ _ Hins). case_decide; [by intros [= <-]|]. by apply (bi_hash _ Hb).
      * intros k Hk. by apply (inserted_some _ _ _ _ _ _ Hins), Hb.
      * intros y Hy. destruct (bi_fin _ Hb y Hy) as (k & Hk & Ha). exists k. split; [done|]. apply Hold; [by apply Hb|done].
      * intros y k Hy [b Hk]. rewrite (in_get _ _ _ _ _ Hins) in Hk. case_decide as E.
        -- subst k. left. apply (inserted_ancestor_new _ _ _ _ _ y Hwf Hins). right. eauto.
        -- rewrite !Hold by eauto. apply (bi_line _ Hb); eauto.
    + by split.
    + assert (Hbel : forall h1 h2, is_Some (blocks_by_id self !! h2) -> is_Some (blocks_by_id self !! h1) ->
        hash_below (with_tree t' (<[h := new]> (blocks_by_id self)) self) h1 h2 <-> hash_below self h1 h2).
      { intros h1 h2 [i2 E2] [i1 E1]. unfold hash_below. cbn. destruct (Hne _ _ E1) as (? & _ & ?), (Hne _ _ E2) as (? & _ & ?).
        rewrite !lookup_insert_ne by done. split; intros (j1 & j2 & Hj1 & Hj2 & Ha); exists j1, j2; (split; [done|split; [done|]]);
          apply Hold; (done || congruence). }
      split; cbn.
      * intros id h' Hin. destruct (S1 id h' Hin) as [? [i Hi']]. split; [done|]. exists i. apply Hlook. by right.
      * intros id h'. rewrite S2. split; (intros [Hin Hmin]; split; [done|]); intros h'' Hin' Hbl; apply Hmin; try done;
          apply Hbel; try done; by apply (S1 id).
  - intros h'. unfold on_best_chain. cbn. split.
    + intros (i & k & [[-> ->]|Hi]%Hlook & Hk & Ha).
      * apply Hold in Ha; [|by apply Hb]. by eapply ancestor_get in Ha as [[? ?] _]; [congruence|].
      * exists i, k. split; [done|]. split; [done|]. apply Hold; [by apply Hb|done].
    + intros (i & k & Hi & Hk & Ha). exists i, k. split; [apply Hlook; by right|]. split; [done|]. apply Hold; [by apply Hb|done].
  - intros h'. cbn. unfold is_Some. setoid_rewrite Hlook. naive_solver.
Qed.

End ops.
