(* ===== verification/LightPoolBody.v ===== *)
(** * Bodies of blocks

    [set_block_body] of LightPool.v keeps the invariant: each transaction of the
    pool that is in the body is from then on seen in the block, and is reported
    exactly if it enters the best chain with it. *)

From S2P Require Import Prelude TrieNode BTree ForkTree ForkTreePrune ForkTreeFacts LightPool LightPoolInv LightPoolPurge LightPoolOps.

Open Scope Z_scope.

Section body.
Context `{Platform} `{Blake2b} {TTx TBl TErr : Type}.

Abbreviation LightPool := (LightPool TTx TBl TErr) (only parsing).
Abbreviation Transaction := (Transaction TTx TErr) (only parsing).
Abbreviation Block := (LightBlock TBl) (only parsing).
Implicit Types (self : LightPool) (tx : Transaction) (b : Block) (id : TransactionId) (h B : Hash) (ix : usize) (seen : gset (Z * Z)).

(** The transaction is included in a block of the best chain. *)
Definition included_best self id : Prop := exists h, (id, h) ∈ included_transactions self /\ on_best_chain self h.

(** ** The blocks in which a transaction was found before *)

Lemma below_test self h h' i i' :
  blocks_inv self -> blocks_by_id self !! h = Some i -> blocks_by_id self !! h' = Some i' ->
  exists v, is_ancestor (blocks_tree self) i i' = Some v /\ (v = true <-> hash_below self h h').
Proof.
  intros Hb Hi Hi'. destruct (ancestor_total (blocks_tree self) i i') as [v Hv]; [apply Hb|by eapply ids_get|].
  exists v. split; [done|]. unfold hash_below. split.
  - intros ->. by exists i, i'.
  - intros (j & j' & ? & ? & ?). congruence.
Qed.

Lemma existing_skip bi B id l now self :
  blocks_inv self -> blocks_by_id self !! B = Some bi ->
  (forall h, h ∈ l -> is_Some (blocks_by_id self !! h)) ->
  (exists h, h ∈ l /\ hash_below self h B) -> (forall h, h ∈ l -> hash_below self B h -> hash_below self h B) ->
  existing_loop bi id l now self = Some (None, self).
Proof.
  intros Hb HB. induction l as [|h l IH]; intros Hall (h0 & Hin0 & Hb0) Hno; [by apply elem_of_nil in Hin0|]. cbn [existing_loop].
  destruct (Hall h) as [i Hi]; [by left|]. rewrite Hi.
  destruct (below_test self h B i bi Hb Hi HB) as (v & -> & Hv). destruct v; [done|].
  destruct (below_test self B h bi i Hb HB Hi) as (w & -> & Hw). destruct w.
  - exfalso. assert (Hf : false = true); [|done]. apply Hv, Hno; [by left|]. by apply Hw.
  - apply IH; [intros; apply Hall; by right| |intros h' ?; apply Hno; by right]. exists h0. split; [|done].
    apply elem_of_cons in Hin0 as [->|?]; [|done]. apply Hv in Hb0. done.
Qed.

Lemma existing_keep bi B id l : forall now self,
  blocks_inv self -> blocks_by_id self !! B = Some bi ->
  (forall h, h ∈ l -> is_Some (blocks_by_id self !! h)) -> (forall h, h ∈ l -> ~ hash_below self h B) ->
  exists now' v w, existing_loop bi id l now self = Some (Some now', with_inclusion v w self) /\
    (forall h x u, v !! (h, x) = Some u <-> transactions_by_inclusion self !! (h, x) = Some u /\ ~ (x = id /\ h ∈ l /\ hash_below self B h)) /\
    (forall x h, (x, h) ∈ w <-> (x, h) ∈ included_transactions self /\ ~ (x = id /\ h ∈ l /\ hash_below self B h)) /\
    (now' = true <-> now = true /\ forall h, h ∈ l -> hash_below self B h -> ~ on_best_chain self h).
Proof.
  induction l as [|h l IH]; intros now self Hb HB Hall Hno; cbn [existing_loop].
  - exists now, (transactions_by_inclusion self), (included_transactions self). split; [by destruct self|].
    pose proof (@not_elem_of_nil Z) as Hn. naive_solver.
  - destruct (Hall h) as [i Hi]; [by left|]. rewrite Hi. destruct (below_test self h B i bi Hb Hi HB) as (v & -> & Hv).
    destruct v; [by destruct (Hno h); [by left|apply Hv]|].
    assert (Hall' : forall h', h' ∈ l -> is_Some (blocks_by_id self !! h')) by (intros; apply Hall; by right).
    assert (Hno' : forall h', h' ∈ l -> ~ hash_below self h' B) by (intros; apply Hno; by right).
    destruct (below_test self B h bi i Hb HB Hi) as (w & -> & Hw). setoid_rewrite elem_of_cons. destruct w.
    + destruct (in_best_chain_spec self h i Hb Hi) as (u & Hu & Hbest). set (s1 := with_inclusion _ _ _).
      assert (in_best_chain s1 i = Some u) as -> by exact Hu.
      destruct (IH (if u then false else now) s1) as (now' & v & w & E & H1 & H2 & H3); [by destruct Hb|done|done|done|].
      exists now', v, w. split; [exact E|]. assert (Hbh : hash_below self B h) by (by apply Hw). cbn in H1, H2. split; [|split].
      * intros h' x u'. rewrite H1, lookup_delete_Some. destruct (decide (x = id /\ h' = h)) as [[-> ->]|Hne].
        -- split; [intros [[? _] _]; done|]. intros [_ Hf]. destruct Hf. naive_solver.
        -- split; [intros [[_ ?] Hf]|intros [? Hf]]; (split; [|]).
           ++ done. ++ intros (? & [->|?] & ?); [naive_solver|]. apply Hf. done.
           ++ split; [intros [= <- <-]; naive_solver|done]. ++ intros (? & ? & ?). apply Hf. naive_solver.
      * intros x h'. rewrite H2, elem_of_difference, elem_of_singleton. destruct (decide (x = id /\ h' = h)) as [[-> ->]|Hne].
        -- split; [intros [[_ ?] _]; done|]. intros [_ Hf]. destruct Hf. naive_solver.
        -- split; [intros [[? _] Hf]|intros [? Hf]]; (split; [|]).
           ++ done. ++ intros (? & [->|?] & ?); [naive_solver|]. apply Hf. done.
           ++ split; [done|]. intros [= -> ->]. naive_solver. ++ intros (? & ? & ?). apply Hf. naive_solver.
      * rewrite H3. split.
        -- intros [Hn Hl]. destruct u; [done|]. split; [done|]. intros h' [->|?] Hbel; [|by apply Hl].
           intros Hb'. apply Hbest in Hb'. done.
        -- intros [-> Hl]. destruct u; [exfalso; apply (Hl h); [by left|done|by apply Hbest]|]. split; [done|].
           intros h' ? ?. apply Hl; [by right|done].
    + destruct (IH now self Hb HB Hall' Hno') as (now' & v & w & E & H1 & H2 & H3). exists now', v, w. split; [exact E|].
      assert (Hnb : ~ hash_below self B h). { intros Hf. apply Hw in Hf. done. }
      split; [|split].
      * intros h' x u. rewrite H1. split; (intros [? Hf]; split; [done|]; intros (? & Hin & ?); apply Hf; naive_solver).
      * intros x h'. rewrite H2. split; (intros [? Hf]; split; [done|]; intros (? & Hin & ?); apply Hf; naive_solver).
      * rewrite H3. split; (intros [? Hl]; split; [done|]; intros h'; naive_solver).
Qed.

(** ** One transaction of the body *)

Definition see B id seen : gset (Z * Z) := {[(id, B)]} ∪ seen.

Lemma elem_of_see B id seen x h : (x, h) ∈ see B id seen <-> (x = id /\ h = B) \/ (x, h) ∈ seen.
Proof. unfold see. rewrite elem_of_union, elem_of_singleton. naive_solver. Qed.

(** A block of the branch already includes the transaction. *)
Lemma see_skip self seen B id h0 :
  light_inv self seen -> is_Some (transactions self !! id) -> is_Some (blocks_by_id self !! B) ->
  (id, h0) ∈ included_transactions self -> hash_below self h0 B -> light_inv self (see B id seen).
Proof.
  intros Hinv Hid HB Hin0 Hb0. pose proof Hinv as [Hb Hx [S1 S2]]. split; [done|done|]. split.
  - intros x h [[-> ->]|Hin]%elem_of_see; [done|auto].
  - intros x h. rewrite elem_of_see. split.
    + intros Hin. pose proof Hin as [Hs Hmin]%S2. split; [by right|]. intros h' [[-> ->]|Hs']%elem_of_see Hbel; [|by apply Hmin].
      assert (h0 = h) as ->. { eapply included_once; [done|done|done|]. by eapply hash_below_trans. }
      eapply hash_below_antisym; [done|done|done].
    + intros [[[-> ->]|Hs] Hmin].
      * assert (h0 = B) as <-; [|done]. apply Hmin; [|done]. apply elem_of_see. right. by apply S2 in Hin0 as [? _].
      * apply S2. split; [done|]. intros h' Hs' Hbel. apply Hmin; [|done]. apply elem_of_see. by right.
Qed.

(** No block of the branch includes it: the block does, and its descendants no
    longer. *)
Lemma see_insert self seen B id ix v w :
  light_inv self seen -> is_Some (transactions self !! id) -> is_Some (blocks_by_id self !! B) ->
  (forall h, (id, h) ∈ included_transactions self -> ~ hash_below self h B) ->
  (forall h x u, v !! (h, x) = Some u <->
     transactions_by_inclusion self !! (h, x) = Some u /\ ~ (x = id /\ (id, h) ∈ included_transactions self /\ hash_below self B h)) ->
  (forall x h, (x, h) ∈ w <->
     (x, h) ∈ included_transactions self /\ ~ (x = id /\ (id, h) ∈ included_transactions self /\ hash_below self B h)) ->
  light_inv (with_inclusion (<[(B, id) := ix]> v) ({[(id, B)]} ∪ w) self) (see B id seen).
Proof.
  intros Hinv Hid HB Hno Hv Hw. pose proof Hinv as [Hb [[T1 T2] Hm Hi [V1 V2]] [S1 S2]].
  assert (Hns : forall h, (id, h) ∈ seen -> ~ hash_below self h B).
  { intros h Hs Hbel. destruct (seen_first _ _ _ _ Hinv Hs) as (h0 & Hin0 & Hb0). apply (Hno h0 Hin0). by eapply hash_below_trans. }
  split; [by destruct Hb| |].
  - split; [by split|..|by split]; cbn.
    + intros x h. rewrite elem_of_union, elem_of_singleton, lookup_insert_is_Some, Hw. destruct (decide ((B, id) = (h, x))) as [E|E].
      * split; [by left|]. intros _. left. congruence.
      * split.
        -- intros [?|[Hin Hn]]; [congruence|right]. split; [done|]. apply Hm in Hin as [u Hu]. exists u. by apply Hv.
        -- intros [?|[_ [u [Hu Hn]%Hv]]]; [done|right]. split; [|done]. apply Hm. eauto.
    + intros x h [[= -> ->]%elem_of_singleton|[Hin _]%Hw]%elem_of_union; [|by apply Hi]. split; [done|]. by eapply ids_hash.
  - split; cbn.
    + intros x h [[-> ->]|Hin]%elem_of_see; [done|auto].
    + intros x h. rewrite elem_of_union, elem_of_singleton, Hw, elem_of_see. split.
      * intros [[= -> ->]|[Hin Hn]].
        -- split; [by left|]. intros h' [[_ ->]|Hs]%elem_of_see Hbel; [done|]. by destruct (Hns h' Hs).
        -- pose proof Hin as [Hs Hmin]%S2. split; [by right|]. intros h' [[-> ->]|Hs']%elem_of_see Hbel; [|by apply Hmin].
           destruct Hn. done.
      * intros [[[-> ->]|Hs] Hmin]; [by left|]. destruct (decide ((x, h) = (id, B))) as [E|E]; [by left|right].
        assert (Hin : (x, h) ∈ included_transactions self).
        { apply S2. split; [done|]. intros h' Hs' Hbel. apply Hmin; [|done]. apply elem_of_see. by right. }
        split; [done|]. intros (-> & _ & Hbel). apply E. f_equal. symmetry. apply Hmin; [|done]. apply elem_of_see. by left.
Qed.

(** The state after a transaction of the body. *)
Definition body_insert B id ix (now : option bool) self : LightPool :=
  match now with
  | None => self
  | Some _ => with_inclusion (<[(B, id) := ix]> (transactions_by_inclusion self)) ({[(id, B)]} ∪ included_transactions self) self
  end.

Lemma included_best_see self self' seen B id x :
  light_inv self seen -> light_inv self' (see B id seen) -> heads self' = heads self -> blocks_by_id self' = blocks_by_id self ->
  included_best self' x <-> included_best self x \/ (x = id /\ on_best_chain self B).
Proof.
  intros Hinv Hinv' Hh Hi. unfold included_best. rewrite <- (seen_best_chain self' _ x Hinv'), <- (seen_best_chain self _ x Hinv).
  split.
  - intros (h & [[-> ->]|Hs]%elem_of_see & Hbc); apply (best_chain_frame self self' _ Hh Hi) in Hbc; [by right|left; eauto].
  - intros [(h & Hs & Hbc)|[-> Hbc]]; [exists h|exists B]; (split; [apply elem_of_see; auto|by apply (best_chain_frame self self')]).
Qed.

Lemma body_step self seen B bi id ix inb :
  light_inv self seen -> blocks_by_id self !! B = Some bi -> is_Some (transactions self !! id) ->
  (inb = true <-> on_best_chain self B) ->
  exists now s1 v w, existing_loop bi id (included_blocks self id) inb self = Some (now, s1) /\
    body_insert B id ix now s1 = with_inclusion v w self /\ light_inv (with_inclusion v w self) (see B id seen) /\
    (now = Some true <-> on_best_chain self B /\ ~ included_best self id) /\
    (forall x ix', v !! (B, x) = Some ix' -> transactions_by_inclusion self !! (B, x) = Some ix' \/ (x = id /\ ix' = ix)) /\
    (forall x ix', transactions_by_inclusion self !! (B, x) = Some ix' -> v !! (B, x) = Some ix') /\
    (now = Some true -> v !! (B, id) = Some ix).
Proof.
  intros Hinv HB Hid Hinb. pose proof (li_blocks _ _ Hinv) as Hb. pose proof (li_index _ _ Hinv) as Hx.
  assert (HBs : is_Some (blocks_by_id self !! B)) by eauto.
  assert (Hmem : forall h, h ∈ included_blocks self id <-> (id, h) ∈ included_transactions self) by (intros; by apply elem_of_included_blocks).
  assert (Hids : forall h, h ∈ included_blocks self id -> is_Some (blocks_by_id self !! h)).
  { intros h [Hin _]%Hmem%(si_first _ _ (li_seen _ _ Hinv)). by apply (si_seen _ _ (li_seen _ _ Hinv)) in Hin as [_ ?]. }
  destruct (decide (Exists (fun h => hash_below self h B) (included_blocks self id))) as [Hex|Hnex].
  - apply Exists_exists in Hex as (h0 & Hin0 & Hb0). pose proof Hin0 as Hinc0%Hmem.
    exists None, self, (transactions_by_inclusion self), (included_transactions self).
    assert (Eself : with_inclusion (transactions_by_inclusion self) (included_transactions self) self = self) by (by destruct self).
    rewrite Eself. split.
    { apply existing_skip with B; [done|done|done|eauto|]. intros h Hin%Hmem Hbel.
      assert (h0 = h) as <-; [|done]. eapply included_once; [done|done|done|]. by eapply hash_below_trans. }
    split; [done|]. split; [by eapply see_skip|]. split; [|split; [by left|split; done]].
    split; [done|]. intros [Hbc Hn]. destruct Hn. exists h0. split; [done|]. by eapply best_chain_below.
  - assert (Hno : forall h, h ∈ included_blocks self id -> ~ hash_below self h B).
    { intros h Hin Hbel. apply Hnex, Exists_exists. eauto. }
    destruct (existing_keep bi B id (included_blocks self id) inb self Hb HB Hids Hno) as (now & v & w & E & Hv & Hw & Hnow).
    setoid_rewrite Hmem in Hv. setoid_rewrite Hmem in Hw. setoid_rewrite Hmem in Hno.
    eexists (Some now), _, _, _. split; [exact E|]. split; [reflexivity|]. cbn. split; [by apply see_insert|].
    assert (HBno : ~ ((id, B) ∈ included_transactions self)). { intros Hin. apply (Hno B Hin). by apply hash_below_refl. }
    split; [|split; [|split]].
    + split.
      * intros [= ->]. destruct Hnow as [Hn _]. destruct (Hn eq_refl) as [Hi Hl]. apply Hinb in Hi. split; [done|].
        intros (h & Hin & Hbc). destruct (best_chain_linear self h B Hb Hbc Hi) as [Hbel|Hbel]; [by apply (Hno h)|].
        apply (Hl h); [by apply Hmem|done|done].
      * intros [Hbc Hn]. f_equal. apply Hnow. split; [by apply Hinb|]. intros h Hin%Hmem _ Hbc'. apply Hn. by exists h.
    + intros x ix'. rewrite lookup_insert_Some. intros [[[= <-] <-]|[_ [Hix _]%Hv]]; [by right|by left].
    + intros x ix' Hix. rewrite lookup_insert_Some. right. split.
      * intros [= <-]. apply HBno, (xi_mirror _ Hx). eauto.
      * apply Hv. split; [done|]. intros (-> & Hin & _). done.
    + intros _. rewrite lookup_insert. by case_decide.
Qed.

(** ** The loops *)

Definition see_all B (ids : list TransactionId) seen : gset (Z * Z) := list_to_set ((fun id => (id, B)) <$> ids) ∪ seen.

Lemma elem_of_see_all B ids seen x h : (x, h) ∈ see_all B ids seen <-> (x ∈ ids /\ h = B) \/ (x, h) ∈ seen.
Proof.
  unfold see_all. rewrite elem_of_union, elem_of_list_to_set, list_elem_of_fmap. split.
  - intros [(y & [= -> ->] & ?)|?]; [by left|by right].
  - intros [[? ->]|?]; [left; eauto|by right].
Qed.

Lemma see_all_cons B id ids seen : see_all B ids (see B id seen) = see_all B (id :: ids) seen.
Proof.
  apply set_eq. intros [x h]. rewrite !elem_of_see_all, elem_of_see, elem_of_cons. tauto.
Qed.

Lemma see_all_app B l1 l2 seen : see_all B l2 (see_all B l1 seen) = see_all B (l1 ++ l2) seen.
Proof. apply set_eq. intros [x h]. rewrite !elem_of_see_all, elem_of_app. tauto. Qed.

(** What the loops do: the transactions [ids] are seen in the block [B], and [out]
    has those that enter the best chain, each with its entry in the index. *)
Record body_effect B (ids : list TransactionId) (ok : Z -> Z -> Prop) self seen (out : list (TransactionId * usize)) self' : Prop := {
  be_frame : exists v w, self' = with_inclusion v w self;
  be_inv : light_inv self' (see_all B ids seen);
  be_out : forall id, id ∈ out.*1 <-> id ∈ ids /\ on_best_chain self B /\ ~ included_best self id;
  be_nodup : NoDup out.*1;
  be_index : forall id ix, (id, ix) ∈ out -> transactions_by_inclusion self' !! (B, id) = Some ix;
  be_old : forall id ix, transactions_by_inclusion self !! (B, id) = Some ix -> transactions_by_inclusion self' !! (B, id) = Some ix;
  be_new : forall id ix, transactions_by_inclusion self' !! (B, id) = Some ix ->
    transactions_by_inclusion self !! (B, id) = Some ix \/ (id ∈ ids /\ ok id ix)
}.

Lemma be_included B ids ok self seen out self' x :
  light_inv self seen -> body_effect B ids ok self seen out self' ->
  included_best self' x <-> included_best self x \/ (x ∈ ids /\ on_best_chain self B).
Proof.
  intros Hinv He. pose proof (be_inv _ _ _ _ _ _ _ He) as Hinv'. destruct (be_frame _ _ _ _ _ _ _ He) as (v & w & ->).
  unfold included_best. rewrite <- (seen_best_chain _ _ x Hinv'), <- (seen_best_chain _ _ x Hinv). split.
  - intros (h & [[Hx ->]|Hs]%elem_of_see_all & Hbc); [by right|left; eauto].
  - intros [(h & Hs & Hbc)|[Hx Hbc]]; [exists h|exists B]; (split; [apply elem_of_see_all; auto|done]).
Qed.

Lemma body_effect_nil B ok self seen : light_inv self seen -> body_effect B [] ok self seen [] self.
Proof.
  intros Hinv. split.
  - exists (transactions_by_inclusion self), (included_transactions self). by destruct self.
  - assert (see_all B [] seen = seen) as ->; [|done]. apply set_eq. intros [x h]. rewrite elem_of_see_all, elem_of_nil. tauto.
  - intros id. cbn. rewrite elem_of_nil. tauto.
  - constructor.
  - intros id ix Hin. by apply elem_of_nil in Hin.
  - done.
  - by left.
Qed.

Lemma body_effect_app B l1 l2 ok self seen out1 s1 out2 s2 :
  light_inv self seen -> body_effect B l1 ok self seen out1 s1 -> body_effect B l2 ok s1 (see_all B l1 seen) out2 s2 ->
  body_effect B (l1 ++ l2) ok self seen (out1 ++ out2) s2.
Proof.
  intros Hinv He1 He2.
  assert (Hib : forall x, included_best s1 x <-> included_best self x \/ (x ∈ l1 /\ on_best_chain self B)).
  { intros x. by eapply be_included. }
  assert (Hbc : on_best_chain s1 B <-> on_best_chain self B). { by destruct (be_frame _ _ _ _ _ _ _ He1) as (v & w & ->). }
  assert (Hout1 : forall id, id ∈ out1.*1 <-> id ∈ l1 /\ on_best_chain self B /\ ~ included_best self id) by apply He1.
  assert (Hout2 : forall id, id ∈ out2.*1 <-> id ∈ l2 /\ on_best_chain self B /\ ~ included_best self id /\ id ∉ l1).
  { intros id. rewrite (be_out _ _ _ _ _ _ _ He2), Hbc, Hib. split; [|tauto]. intros (? & ? & Hn). split; [done|]. split; [done|].
    split; [tauto|]. intros ?. tauto. }
  split.
  - destruct (be_frame _ _ _ _ _ _ _ He1) as (v1 & w1 & ->), (be_frame _ _ _ _ _ _ _ He2) as (v2 & w2 & ->). by exists v2, w2.
  - rewrite <- see_all_app. apply He2.
  - intros id. rewrite fmap_app, !elem_of_app, Hout1, Hout2. destruct (decide (id ∈ l1)); tauto.
  - rewrite fmap_app. apply NoDup_app. split; [apply He1|]. split; [|apply He2].
    intros id H1%Hout1 H2%Hout2. tauto.
  - intros id ix [Hin|Hin]%elem_of_app; [|by apply He2]. apply (be_old _ _ _ _ _ _ _ He2). by apply He1.
  - intros id ix Hix. by apply (be_old _ _ _ _ _ _ _ He2), (be_old _ _ _ _ _ _ _ He1).
  - intros id ix Hix. apply (be_new _ _ _ _ _ _ _ He2) in Hix as [Hix|[Hin Hok]].
    + apply (be_new _ _ _ _ _ _ _ He1) in Hix as [?|[? ?]]; [by left|right]. split; [|done]. apply elem_of_app. by left.
    + right. split; [|done]. apply elem_of_app. by right.
Qed.

Lemma body_effect_weaken B l (ok ok' : Z -> Z -> Prop) self seen out self' :
  (forall id ix, id ∈ l -> ok id ix -> ok' id ix) -> body_effect B l ok self seen out self' -> body_effect B l ok' self seen out self'.
Proof.
  intros Hok []. split; try done. intros id ix Hix. destruct (be_new0 id ix Hix) as [?|[? ?]]; [by left|right; auto].
Qed.

Lemma known_txs_spec B bi inb ix ids : forall self seen,
  light_inv self seen -> blocks_by_id self !! B = Some bi -> (forall id, id ∈ ids -> is_Some (transactions self !! id)) ->
  (inb = true <-> on_best_chain self B) ->
  exists out self', known_txs_loop B bi inb ix ids self = Some (out, self') /\
    body_effect B ids (fun _ ix' => ix' = ix) self seen out self'.
Proof.
  induction ids as [|id ids IH]; intros self seen Hinv HB Hall Hinb; cbn [known_txs_loop].
  - exists [], self. split; [done|]. by apply body_effect_nil.
  - destruct (body_step self seen B bi id ix inb Hinv HB) as (now & s1 & v & w & E & Es & Hinv1 & Hnow & Hnew & Hold & Hix);
      [apply Hall; by left|done|].
    destruct (IH (with_inclusion v w self) (see B id seen) Hinv1 HB) as (out & self' & E2 & He); [intros; apply Hall; by right|done|].
    assert (He1 : body_effect B [id] (fun _ ix' => ix' = ix) self seen
      (match now with Some true => [(id, ix)] | _ => [] end) (with_inclusion v w self)).
    { assert (Hsee : see B id seen = see_all B [id] seen).
      { apply set_eq. intros [x h]. rewrite elem_of_see, elem_of_see_all, list_elem_of_singleton. done. }
      split; [by exists v, w|by rewrite <- Hsee| | | | |].
      - intros x. destruct now as [[]|]; cbn.
        + rewrite !list_elem_of_singleton. pose proof (proj1 Hnow eq_refl) as [? ?]. split; [intros ->; done|by intros [? _]].
        + rewrite elem_of_nil, list_elem_of_singleton. split; [done|]. intros (-> & Hyes). apply Hnow in Hyes. done.
        + rewrite elem_of_nil, list_elem_of_singleton. split; [done|]. intros (-> & Hyes). apply Hnow in Hyes. done.
      - destruct now as [[]|]; cbn; [apply NoDup_singleton|constructor..].
      - intros x ix'. destruct now as [[]|]; [|by intros ?%elem_of_nil..]. intros [= -> ->]%list_elem_of_singleton. by apply Hix.
      - done.
      - intros x ix' Hx. apply Hnew in Hx as [?|[-> ->]]; [by left|right]. split; [by apply list_elem_of_singleton|done]. }
    assert (He' : body_effect B ids (fun _ ix' => ix' = ix) (with_inclusion v w self) (see_all B [id] seen) out self').
    { assert (Hsee : see_all B [id] seen = see B id seen); [|by rewrite Hsee].
      apply set_eq. intros [x h]. by rewrite elem_of_see, elem_of_see_all, list_elem_of_singleton. }
    exists (match now with Some true => [(id, ix)] | _ => [] end ++ out), self'.
    split; [|exact (body_effect_app B [id] ids _ _ _ _ _ _ _ Hinv He1 He')].
    rewrite E. destruct now as [n|]; cbn [body_insert] in Es.
    + rewrite Es, E2. by destruct n.
    + by rewrite Es, E2.
Qed.

(** The position of a transaction in the body, from the index [start]. *)
Definition position_ok self (start : usize) (body : list (list u8)) id (ix : usize) : Prop :=
  exists n bytes tx, ix = start + Z.of_nat n /\ body !! n = Some bytes /\ transactions self !! id = Some tx /\
    blake2_hash (tx_scale_encoded tx) = blake2_hash bytes.

Lemma body_loop_spec B bi inb body : forall start self seen,
  light_inv self seen -> blocks_by_id self !! B = Some bi -> (inb = true <-> on_best_chain self B) ->
  0 <= start -> start + len body < 2 ^ usize_bits ->
  exists out self', body_loop B bi inb start body self = Some (out, self') /\
    body_effect B (body ≫= find_transaction self) (position_ok self start body) self seen out self'.
Proof.
  induction body as [|bytes body IH]; intros start self seen Hinv HB Hinb Hs Hlen; cbn [body_loop].
  - exists [], self. split; [done|]. by apply body_effect_nil.
  - rewrite len_cons in Hlen. pose proof (len_nonneg body). pose proof (li_index _ _ Hinv) as Hx.
    destruct (known_txs_spec B bi inb start (find_transaction self bytes) self seen Hinv HB) as (out1 & s1 & E1 & He1).
    { intros id (tx & ? & _)%elem_of_find_transaction; [|done]. eauto. } { done. }
    rewrite E1. pose proof (be_frame _ _ _ _ _ _ _ He1) as (v & w & ->).
    destruct (IH (start + 1) (with_inclusion v w self) (see_all B (find_transaction self bytes) seen)) as (out2 & s2 & E2 & He2);
      [apply He1|done|done|lia|lia|].
    unfold wadd. rewrite wrap_small by (unfold is_uint; lia). rewrite E2. exists (out1 ++ out2), s2. split; [done|].
    change (find_transaction (with_inclusion v w self)) with (find_transaction self) in He2.
    cbn [mbind list_bind]. eapply body_effect_app; [done| |].
    + eapply body_effect_weaken; [|exact He1]. intros id ix Hin ->. apply elem_of_find_transaction in Hin as (tx & Htx & Heq); [|done].
      exists 0%nat, bytes, tx. split; [lia|done].
    + eapply body_effect_weaken; [|exact He2]. intros id ix Hin (n & bs & tx & -> & Hn & Htx & Heq).
      exists (S n), bs, tx. split; [lia|done].
Qed.

(** ** The whole operation *)

(** The transactions of the pool that are in a body. *)
Definition sightings self B (body : list (list u8)) : gset (Z * Z) :=
  set_map (fun id => (id, B))
    (dom (filter (fun e => blake2_hash (tx_scale_encoded (snd e)) ∈ blake2_hash <$> body) (transactions self)) : gset Z).

Lemma elem_of_sightings self B body x h :
  (x, h) ∈ sightings self B body <->
  h = B /\ exists tx, transactions self !! x = Some tx /\ blake2_hash (tx_scale_encoded tx) ∈ blake2_hash <$> body.
Proof.
  unfold sightings. rewrite elem_of_map. split.
  - intros (y & [= -> ->] & [tx [Htx Hin]%map_lookup_filter_Some]%elem_of_dom). eauto.
  - intros (-> & tx & Htx & Hin). exists x. split; [done|]. apply elem_of_dom. exists tx. by apply map_lookup_filter_Some.
Qed.

Lemma see_all_sightings self seen B body :
  index_inv self -> see_all B (body ≫= find_transaction self) seen = sightings self B body ∪ seen.
Proof.
  intros Hx. apply set_eq. intros [x h]. rewrite elem_of_see_all, elem_of_union, elem_of_sightings, list_elem_of_bind.
  setoid_rewrite (elem_of_find_transaction self _ _ Hx). setoid_rewrite list_elem_of_fmap. naive_solver.
Qed.

(** The body of the block is not given yet. *)
Definition body_unknown self h : Prop :=
  exists i b, blocks_by_id self !! h = Some i /\ fork_get (blocks_tree self) i = Some b /\ lb_body b <> Known.

Lemma set_block_body_effect self seen B body :
  light_inv self seen -> body_unknown self B -> len body < 2 ^ usize_bits ->
  exists out self', set_block_body self B body = Some (out, self') /\ light_inv self' (sightings self B body ∪ seen) /\
    transactions self' = transactions self /\ blocks_by_id self' = blocks_by_id self /\ NoDup out.*1 /\
    (forall h, on_best_chain self' h <-> on_best_chain self h) /\
    (forall id, id ∈ out.*1 <-> included_best self' id /\ ~ included_best self id) /\
    (forall id, included_best self id -> included_best self' id) /\
    (forall id ix, (id, ix) ∈ out -> position_ok self 0 body id ix).
Proof.
  intros Hinv (bi & b & HB & Hg & Hbody) Hlen. pose proof (li_blocks _ _ Hinv) as Hb. unfold set_block_body. rewrite HB, Hg.
  destruct (updates_get_mut (blocks_tree self) bi (set_body Known)) as (t' & Et & Hup); [apply Hb|eauto|]. rewrite Et.
  assert (Hinv0 : light_inv (with_tree t' (blocks_by_id self) self) seen).
  { eapply retree_inv; [done|done|]. intros k c. cbn. by case_decide. }
  assert (Hbc0 : forall h, on_best_chain (with_tree t' (blocks_by_id self) self) h <-> on_best_chain self h).
  { intros h. by eapply retree_best. }
  set (s0 := with_tree t' (blocks_by_id self) self) in *.
  assert (HB0 : blocks_by_id s0 !! B = Some bi) by done.
  destruct (in_best_chain_spec s0 B bi (li_blocks _ _ Hinv0) HB0) as (inb & Einb & Hinb).
  destruct (body_loop_spec B bi inb body 0 s0 seen Hinv0 HB0 Hinb) as (out & self' & E & He); [lia|lia|].
  assert (Hsee : see_all B (body ≫= find_transaction s0) seen = sightings self B body ∪ seen).
  { change (find_transaction s0) with (find_transaction self). apply see_all_sightings, Hinv. }
 
  assert (Hib : forall x, included_best self' x <-> included_best s0 x \/ (x ∈ body ≫= find_transaction s0 /\ on_best_chain s0 B)).
  { intros x. by eapply be_included. }
  assert (Hib0 : forall x, included_best s0 x <-> included_best self x).
  { intros x. unfold included_best. by setoid_rewrite Hbc0. }
  assert (Hinv' : light_inv self' (sightings self B body ∪ seen)). { rewrite <- Hsee. apply He. }
  assert (Hfresh : forall id, included_best s0 id \/ ~ included_best s0 id).
  { intros id. destruct (is_included_spec s0 seen id Hinv0) as ([] & _ & Hv); [left|right]; unfold included_best; rewrite <- Hv; done. }
  assert (Hout : forall id, id ∈ out.*1 <-> included_best self' id /\ ~ included_best self id).
  { intros id. rewrite (be_out _ _ _ _ _ _ _ He), Hib, <- Hib0. destruct (Hfresh id); tauto. }
  exists out, self'. pose proof (be_frame _ _ _ _ _ _ _ He) as (v & w & Eself).
  split; [destruct (lb_body b); [| |done]; fold s0; by rewrite Einb|]. split; [done|].
  split; [by rewrite Eself|]. split; [by rewrite Eself|]. split; [apply He|]. split; [intros h; rewrite Eself; apply Hbc0|].
  split; [done|]. split; [intros id; rewrite Hib, Hib0; by left|].
  intros id ix Hin. pose proof (be_index _ _ _ _ _ _ _ He id ix Hin) as Hix.
  apply (be_new _ _ _ _ _ _ _ He) in Hix as [Hold|[_ Hok]]; [|done]. exfalso.
  assert (Hid : id ∈ out.*1) by (apply list_elem_of_fmap; by exists (id, ix)).
  apply (be_out _ _ _ _ _ _ _ He) in Hid as (_ & Hbc & Hn). apply Hn. exists B. split; [|done].
  apply (xi_mirror _ (li_index _ _ Hinv0)). eauto.
Qed.

End body.
