(* ===== verification/LightPoolFinal.v ===== *)
(** * Finality in the pool

    [set_finalized_block] and [prune_finalized_with_body] of LightPool.v keep the
    invariant: the first removes the blocks that are on no line with the finalized
    block, the second the finalized blocks whose ancestors and themselves need no
    body, with the transactions that were seen in them. *)

From S2P Require Import Prelude TrieNode BTree ForkTree ForkTreePrune ForkTreeFacts LightPool LightPoolInv LightPoolPurge LightPoolOps LightPoolBody.

Open Scope Z_scope.

(** The path of a node is the end of the path of its descendants. *)
Lemma path_suffix {T} (t : ForkTree T) y l1 k l2 :
  (exists f, fork_rep t f) -> is_Some (fork_get t y) -> node_to_root_path t y = Some (l1 ++ k :: l2) ->
  is_Some (fork_get t k) /\ node_to_root_path t k = Some (k :: l2).
Proof.
  intros Hwf. revert y. induction l1 as [|a l1 IH]; intros y Hy Hp; destruct (fork_path t y Hwf Hy) as (l & Hl & _ & _ & Hpar);
    rewrite Hp in Hl; cbn [app] in Hl.
  - injection Hl as -> ->. done.
  - injection Hl as -> <-. destruct (fork_parent t y) as [[p|]|]; [|by destruct l1|done]. destruct Hpar as [Hg Hpp]. by eapply IH.
Qed.

Section final.
Context `{Platform} `{Blake2b} {TTx TBl TErr : Type}.

Abbreviation LightPool := (LightPool TTx TBl TErr) (only parsing).
Abbreviation Transaction := (Transaction TTx TErr) (only parsing).
Abbreviation Block := (LightBlock TBl) (only parsing).
Implicit Types (self : LightPool) (tx : Transaction) (b : Block) (id : TransactionId) (h : Hash) (seen : gset (Z * Z)).

(** ** What pruning the tree does to the blocks *)

Section pruned.
Context (self self' : LightPool) (t' : ForkTree Block) (outs : list (PrunedNode Block)) (keep : NodeIndex -> Prop).
Context (Hb : blocks_inv self) (keep_dec : forall k, keep k \/ ~ keep k).
Context (Hwf' : exists f, fork_rep t' f)
  (Hget : forall k d, fork_get t' k = Some d <-> fork_get (blocks_tree self) k = Some d /\ keep k)
  (Hanc : forall a k, is_ancestor t' a k = Some true <->
     is_ancestor (blocks_tree self) a k = Some true /\ is_Some (fork_get t' a) /\ is_Some (fork_get t' k))
  (Houts : forall k d, (k, d) ∈ (item <$> outs) <-> fork_get (blocks_tree self) k = Some d /\ ~ keep k).
Context (Htree : blocks_tree self' = t')
  (Hids : forall h i, blocks_by_id self' !! h = Some i <-> blocks_by_id self !! h = Some i /\ h ∉ pruned_hash <$> outs).

Lemma pruned_hashes h : h ∈ pruned_hash <$> outs <-> exists i, blocks_by_id self !! h = Some i /\ ~ keep i.
Proof.
  rewrite list_elem_of_fmap. split.
  - intros (p & -> & Hp). assert (Hi : (pn_index p, pn_user_data p) ∈ (item <$> outs)) by (apply list_elem_of_fmap; by exists p).
    apply Houts in Hi as [Hg Hk]. exists (pn_index p). split; [|done]. by apply tree_ids.
  - intros (i & (b & Hg & <-)%(ids_tree _ _ _ Hb) & Hk). assert (Hi : (i, b) ∈ (item <$> outs)) by (by apply Houts).
    apply list_elem_of_fmap in Hi as (p & [= -> ->] & Hp). by exists p.
Qed.

Lemma pruned_ids h i : blocks_by_id self' !! h = Some i <-> blocks_by_id self !! h = Some i /\ keep i.
Proof.
  rewrite Hids, pruned_hashes. split; intros [Hi Hk]; (split; [done|]).
  - destruct (keep_dec i); [done|]. destruct Hk. eauto.
  - intros (j & Hj & Hn). congruence.
Qed.

Lemma pruned_get k : is_Some (fork_get t' k) <-> is_Some (fork_get (blocks_tree self) k) /\ keep k.
Proof.
  split; [intros [d [Hd Hk]%Hget]; split; [by exists d|done]|]. intros [[d Hd] Hk]. exists d. by apply Hget.
Qed.

Lemma pruned_below h h' :
  is_Some (blocks_by_id self' !! h) -> is_Some (blocks_by_id self' !! h') -> hash_below self' h h' <-> hash_below self h h'.
Proof.
  intros [i [Hi Ki]%pruned_ids] [i' [Hi' Ki']%pruned_ids]. pose proof (ids_get _ _ _ Hb Hi) as G. pose proof (ids_get _ _ _ Hb Hi') as G'.
  unfold hash_below. rewrite Htree. split; intros (j & j' & Hj & Hj' & Ha).
  - apply pruned_ids in Hj as [Hj _]. apply pruned_ids in Hj' as [Hj' _]. apply Hanc in Ha as [Ha _]. by exists j, j'.
  - assert (j = i) as -> by congruence. assert (j' = i') as -> by congruence. exists i, i'.
    split; [by apply pruned_ids|]. split; [by apply pruned_ids|]. apply Hanc. split; [done|]. by rewrite !pruned_get.
Qed.

(** The heads of the new state are the ones that are kept. *)
Lemma pruned_blocks_inv :
  (forall k, lp_best_block_index self' = Some k -> is_Some (fork_get (blocks_tree self) k) /\ keep k) ->
  (forall y, finalized_block_index self' = Some y -> keep y /\
     exists k, lp_best_block_index self' = Some k /\ is_ancestor (blocks_tree self) y k = Some true) ->
  (forall y k, finalized_block_index self' = Some y -> is_Some (fork_get (blocks_tree self) k) -> keep k ->
     is_ancestor (blocks_tree self) y k = Some true \/ is_ancestor (blocks_tree self) k y = Some true) ->
  blocks_inv self'.
Proof.
  intros Hbest Hfin Hline. split; rewrite ?Htree.
  - done.
  - destruct (nodes t' !! _) as [n|] eqn:E; [|done]. exfalso.
    assert (Hs : is_Some (fork_get t' (2 ^ usize_bits - 1))) by (unfold fork_get; by rewrite E).
    apply pruned_get in Hs as [[d Hd] _]. unfold fork_get in Hd. by rewrite (bi_slab _ Hb) in Hd.
  - intros h i. rewrite pruned_ids, (bi_ids _ Hb). setoid_rewrite Hget. naive_solver.
  - intros i b [Hg _]%Hget. by eapply bi_hash.
  - intros k Hk. apply pruned_get. by apply Hbest.
  - intros y Hy. destruct (Hfin y Hy) as (Ky & k & Hk & Ha). exists k. split; [done|]. apply Hanc. split; [done|].
    rewrite !pruned_get. destruct (Hbest k Hk). split; [|done]. split; [|done].
    by eapply ancestor_get in Ha as [? _]; [|apply Hb].
  - intros y k Hy Hk. pose proof Hk as [Hg Kk]%pruned_get. destruct (Hfin y Hy) as (Ky & k' & Hk' & Ha').
    assert (Hys : is_Some (fork_get t' y)).
    { apply pruned_get. split; [|done]. by eapply ancestor_get in Ha' as [? _]; [|apply Hb]. }
    rewrite !Hanc. destruct (Hline y k Hy Hg Kk) as [?|?]; [by left|by right].
Qed.

End pruned.

(** ** The finalized block *)

Definition finalize_ok self h : Prop :=
  (h = blocks_tree_root_hash self /\ finalized_block_index self = None) \/
  (h <> blocks_tree_root_hash self /\
   exists y best, blocks_by_id self !! h = Some y /\ lp_best_block_index self = Some best /\
     is_ancestor (blocks_tree self) y best = Some true /\
     (forall y0, finalized_block_index self = Some y0 -> is_ancestor (blocks_tree self) y0 y = Some true)).

(** The block is on the branch of the finalized block. *)
Definition on_line self (y k : NodeIndex) : Prop :=
  is_ancestor (blocks_tree self) y k = Some true \/ is_ancestor (blocks_tree self) k y = Some true.

Lemma on_line_below self y a k :
  blocks_inv self -> on_line self y k -> is_ancestor (blocks_tree self) a k = Some true -> on_line self y a.
Proof.
  intros Hb [Hk|Hk] Ha.
  - destruct (ancestor_linear _ y a k (bi_rep _ Hb) Hk Ha) as [?|?]; [by left|by right].
  - right. eapply ancestor_trans; [apply Hb|done|done].
Qed.

Lemma finalize_path_total self y :
  blocks_inv self -> is_Some (fork_get (blocks_tree self) y) ->
  exists l, match finalized_block_index self with
    | Some old_fin_index => let! (_, descend) := ascend_and_descend (blocks_tree self) old_fin_index y in Some descend
    | None => root_to_node_path (blocks_tree self) y
    end = Some l /\ (forall i, i ∈ l -> is_ancestor (blocks_tree self) i y = Some true).
Proof.
  intros Hb Hy. pose proof (bi_rep _ Hb) as Hwf. destruct (finalized_block_index self) as [y0|] eqn:E.
  - destruct (ascend_descend_ancestors (blocks_tree self) y0 y) as (up & down & -> & _ & _ & _ & Hd);
      [done|apply Hb|by apply finalized_get|done|]. exists down. split; [done|]. by intros i [? _]%Hd.
  - destruct (root_path_rev (blocks_tree self) y) as (l & El & Er); [done|apply Hb|done|]. exists (rev l). split; [done|].
    intros i. rewrite elem_of_rev. by apply (path_ancestors _ _ _ i Hwf El Hy).
Qed.

Lemma with_heads_index self best fin root : index_inv self -> index_inv (with_heads best fin root self).
Proof. intros [[T1 T2] Hm Hi [V1 V2]]. split; [by split|done|done|by split]. Qed.

Lemma with_tree_index self t m : index_inv self -> index_inv (with_tree t m self).
Proof. intros [[T1 T2] Hm Hi [V1 V2]]. split; [by split|done|done|by split]. Qed.

Lemma set_finalized_block_effect self seen h :
  light_inv self seen -> finalize_ok self h ->
  exists out self', set_finalized_block self h = Some (out, self') /\ light_inv self' (restrict self' seen) /\
    (forall x, is_Some (transactions self' !! x) <-> is_Some (transactions self !! x)) /\
    lp_best_block_index self' = lp_best_block_index self /\ blocks_tree_root_hash self' = blocks_tree_root_hash self /\
    (forall h', on_best_chain self' h' <-> on_best_chain self h') /\
    (forall id h', on_best_chain self h' -> (id, h') ∈ included_transactions self' <-> (id, h') ∈ included_transactions self).
Proof.
  intros Hinv [[-> Hfin]|(Hne & y & best & Hy & Hbest & Ha & Hfin)].
  { exists [], self. unfold set_finalized_block. rewrite Z.eqb_refl, Hfin. split; [done|].
    rewrite restrict_all by apply Hinv. done. }
  pose proof (li_blocks _ _ Hinv) as Hb. pose proof (bi_rep _ Hb) as Hwf. pose proof (ids_get _ _ _ Hb Hy) as Hyg.
  unfold set_finalized_block. apply Z.eqb_neq in Hne. rewrite Hne, Hy, Hbest, Ha. cbn [negb].
  destruct (finalize_path_total self y Hb Hyg) as (l & -> & Hl).
  destruct (finalize_loop_restatus l self (li_index _ _ Hinv)) as (s1 & -> & R1).
  { intros i Hi%Hl. by eapply ancestor_get in Hi as [? _]. }
  destruct (restatus_blocks _ _ R1) as (Hh1 & Hids1 & _ & Hinc1). apply heads_eq in Hh1 as (Ht1 & Hb1 & Hf1 & Hr1 & _).
  cbn zeta. set (s2 := with_heads (lp_best_block_index s1) (Some y) (blocks_tree_root_hash s1) s1).
  assert (Ht2 : blocks_tree s2 = blocks_tree self) by exact Ht1. rewrite Ht2.
  destruct (prune_uncles_to (blocks_tree self) y Hwf Hyg) as (outs & t' & -> & Hwf' & Hget & _ & Houts & Hanc).
  set (s3 := with_tree t' (blocks_by_id s2) s2).
  assert (Hx3 : index_inv s3). { apply with_tree_index, with_heads_index. eapply restatus_index; [done|apply Hinv]. }
  destruct (uncles_loop_purged outs s3 Hx3) as (self' & -> & P).
  pose proof (pu_heads _ _ _ _ _ _ P) as (Ht & Hbst & Hf & Hr & _)%heads_eq. cbn in Ht, Hbst, Hf, Hr.
  assert (Hids : forall h' i, blocks_by_id self' !! h' = Some i <-> blocks_by_id self !! h' = Some i /\ h' ∉ pruned_hash <$> outs).
  { intros h' i. rewrite (pu_ids _ _ _ _ _ _ P). cbn. by rewrite Hids1. }
  assert (Hdec : forall k, on_line self y k \/ ~ on_line self y k).
  { intros k. destruct (decide (on_line self y k)); [by left|by right]. }
  pose proof (pruned_ids self self' outs (on_line self y) Hb Hdec Houts Hids) as Hids'.
  pose proof (pruned_below self self' t' outs (on_line self y) Hb Hdec Hget Hanc Houts Ht Hids) as Hbelow.
  assert (Htx : forall x, is_Some (transactions self' !! x) <-> is_Some (transactions self !! x)).
  { intros x. rewrite <- (restatus_some _ _ R1 x). unfold is_Some. setoid_rewrite (pu_txs _ _ _ _ _ _ P).
    pose proof (@not_elem_of_nil Z x). cbn. naive_solver. }
  assert (Hincl : forall x h', (x, h') ∈ included_transactions self' <->
    (x, h') ∈ included_transactions self /\ is_Some (transactions self' !! x) /\ is_Some (blocks_by_id self' !! h')).
  { intros x h'. rewrite (purged_included _ _ _ _ _ _ x h' Hx3 P). cbn. rewrite Hinc1. split.
    - intros (Hin & _ & Hno). pose proof Hin as [Hs _]%(si_first _ _ (li_seen _ _ Hinv)).
      apply (si_seen _ _ (li_seen _ _ Hinv)) in Hs as [? [i Hi]]. split; [done|]. split; [by apply Htx|]. exists i. by apply Hids.
    - intros (Hin & _ & [i [_ Hno]%Hids]). split; [done|]. split; [apply not_elem_of_nil|done]. }
  assert (Hbl : on_line self y best) by (by left).
  eexists _, self'. split; [reflexivity|]. split; [|split; [done|split; [congruence|split; [congruence|]]]].
  - split.
    + eapply (pruned_blocks_inv self self' t' outs (on_line self y)); [done|done|done|done|done|done|done|done| | |].
      * intros k Hk. rewrite Hbst, Hb1, Hbest in Hk. injection Hk as <-. split; [by eapply bi_best|done].
      * intros y' Hy'. rewrite Hf in Hy'. injection Hy' as <-. split; [left; by apply ancestor_refl|]. exists best. split; [congruence|done].
      * intros y' k Hy' _ Hk. rewrite Hf in Hy'. by injection Hy' as <-.
    + by eapply pu_index.
    + eapply seen_restrict; [apply Hinv|done|done|]. intros x h1 h2 _ _ [i [Hi Ki]%Hids'] (j & i' & Hj & Hi' & Hji).
      exists j. apply Hids'. split; [done|]. eapply on_line_below; [done|exact Ki|]. congruence.
  - assert (Hchain : forall h', on_best_chain self h' -> is_Some (blocks_by_id self' !! h')).
    { intros h' (i & k & Hi & Hk & Hik). exists i. apply Hids'. split; [done|]. eapply on_line_below; [done|exact Hbl|].
      congruence. }
    split.
    + intros h'. split.
      * intros (i & k & [Hi _]%Hids' & Hk & Hik). rewrite Ht in Hik. apply Hanc in Hik as [Hik _]. exists i, k. split; [done|].
        split; [congruence|done].
      * intros Hbc. destruct (Hchain h' Hbc) as [i Hi]. pose proof Hi as [Hi0 Ki]%Hids'. destruct Hbc as (i' & k & Hi' & Hk & Hik).
        assert (i' = i) as -> by congruence. exists i, k. split; [done|]. split; [congruence|]. rewrite Ht. apply Hanc. split; [done|].
        rewrite !(pruned_get self t' (on_line self y)) by done. split; (split; [|try done]).
        -- by eapply ids_get.
        -- by eapply bi_best.
        -- congruence.
    + intros id h' Hbc. rewrite Hincl. split; [by intros [? _]|]. intros Hin. split; [done|]. split; [|by apply Hchain].
      apply Htx. apply (si_first _ _ (li_seen _ _ Hinv)) in Hin as [Hs _]. by apply (si_seen _ _ (li_seen _ _ Hinv)) in Hs as [? _].
Qed.

(** ** Pruning of finalized blocks *)

(** A finalized block that needs no body, and whose ancestors need none. *)
Definition prunable self (k : NodeIndex) : Prop :=
  (exists y, finalized_block_index self = Some y /\ is_ancestor (blocks_tree self) k y = Some true) /\
  (forall a b, is_ancestor (blocks_tree self) a k = Some true -> fork_get (blocks_tree self) a = Some b -> lb_body b <> Needed).

Lemma take_with_body_spec self path :
  (forall k, k ∈ path -> is_Some (fork_get (blocks_tree self) k)) ->
  exists pre post, take_with_body self path = Some pre /\ path = pre ++ post /\
    (forall k b, k ∈ pre -> fork_get (blocks_tree self) k = Some b -> lb_body b <> Needed) /\
    (forall z post', post = z :: post' -> exists b, fork_get (blocks_tree self) z = Some b /\ lb_body b = Needed).
Proof.
  induction path as [|k path IH]; intros Hall; cbn [take_with_body].
  - exists [], []. split; [done|]. split; [done|]. split; [by intros ? ? ?%elem_of_nil|done].
  - destruct (Hall k) as [b Hb]; [by left|]. rewrite Hb. destruct (decide (lb_body b = Needed)) as [E|E].
    + rewrite E. exists [], (k :: path). split; [done|]. split; [done|]. split; [by intros ? ? ?%elem_of_nil|].
      intros z post' [= <- <-]. eauto.
    + destruct IH as (pre & post & -> & -> & H1 & H2); [intros; apply Hall; by right|].
      exists (k :: pre), post. split; [by destruct (lb_body b)|]. split; [done|]. split; [|done].
      intros k' b' [->|Hin]%elem_of_cons Hb'; [congruence|by eapply H1].
Qed.

Lemma upmost_spec self y :
  blocks_inv self -> finalized_block_index self = Some y ->
  exists path pre, root_to_node_path (blocks_tree self) y = Some path /\ take_with_body self path = Some pre /\
    match last pre with
    | None => forall k, ~ prunable self k
    | Some x => is_Some (fork_get (blocks_tree self) x) /\ is_ancestor (blocks_tree self) x y = Some true /\
        (forall k, prunable self k <-> is_ancestor (blocks_tree self) k x = Some true)
    end.
Proof.
  intros Hb Hy. pose proof (bi_rep _ Hb) as Hwf. pose proof (finalized_get _ _ Hb Hy) as Hyg.
  destruct (root_path_rev (blocks_tree self) y Hwf (bi_slab _ Hb) Hyg) as (l & El & Er).
  assert (Hpath : forall k, k ∈ l <-> is_ancestor (blocks_tree self) k y = Some true) by (intros; by apply path_ancestors).
  destruct (take_with_body_spec self (rev l)) as (pre & post & Et & Esplit & Hpre & Hpost).
  { intros k. rewrite elem_of_rev, Hpath. intros Ha. by eapply ancestor_get in Ha as [? _]. }
  exists (rev l), pre. split; [done|]. split; [done|].
  assert (Hl : l = rev post ++ rev pre). { rewrite <- rev_app_distr, <- Esplit. by rewrite rev_involutive. }
  (* A prunable block is in the prefix. *)
  assert (Hin : forall k, prunable self k -> k ∈ pre).
  { intros k [(y' & Hy' & Hk) Hall]. assert (y' = y) as -> by congruence. apply Hpath in Hk. rewrite Hl, elem_of_app, !elem_of_rev in Hk.
    destruct Hk as [Hk|?]; [|done]. exfalso. destruct post as [|z post']; [by apply elem_of_nil in Hk|].
    destruct (Hpost z post' eq_refl) as (b & Hbz & Hneed). apply (Hall z b); [|done|done].
    apply elem_of_cons in Hk as [->|Hk].
    - apply ancestor_refl; [done|eauto].
    - apply list_elem_of_split in Hk as (p1 & p2 & ->). cbn [rev] in Hl. rewrite rev_app_distr in Hl. cbn [rev] in Hl.
      rewrite <- !app_assoc in Hl. cbn [app] in Hl.
      rewrite Hl in El. destruct (path_suffix _ _ _ _ _ Hwf Hyg El) as [Hkg Hkp].
      apply (path_ancestors _ _ _ _ Hwf Hkp Hkg). right. rewrite !elem_of_app. right. by left. }
  destruct (last pre) as [x|] eqn:Elast.
  - apply last_Some in Elast as [pre' ->]. rewrite rev_app_distr in Hl. cbn [rev app] in Hl. rewrite Hl in El.
    destruct (path_suffix _ _ _ _ _ Hwf Hyg El) as [Hxg Hxp]. split; [done|].
    assert (Hx : forall k, k ∈ pre' ++ [x] <-> is_ancestor (blocks_tree self) k x = Some true).
    { intros k. rewrite <- (path_ancestors _ _ _ k Hwf Hxp Hxg), elem_of_app, list_elem_of_singleton, elem_of_cons, elem_of_rev. tauto. }
    assert (Hxy : is_ancestor (blocks_tree self) x y = Some true).
    { apply Hpath. rewrite Hl, elem_of_app. right. by left. }
    split; [done|]. intros k. split; [intros Hk%Hin; by apply Hx|]. intros Hk. split.
    + exists y. split; [done|]. by eapply ancestor_trans.
    + intros a b Ha Hab. apply (Hpre a b); [|done]. apply Hx. by eapply ancestor_trans.
  - apply last_None in Elast as ->. intros k Hk%Hin. by apply elem_of_nil in Hk.
Qed.

(** The blocks that [prune_ancestors] removes are those of the finalized chain. *)
Lemma pruned_line self y x k :
  blocks_inv self -> finalized_block_index self = Some y -> is_ancestor (blocks_tree self) x y = Some true ->
  is_Some (fork_get (blocks_tree self) k) ->
  ~ (is_ancestor (blocks_tree self) x k = Some true /\ k <> x) <-> is_ancestor (blocks_tree self) k x = Some true.
Proof.
  intros Hb Hy Hxy Hk. pose proof (bi_rep _ Hb) as Hwf. split.
  - intros Hn. assert (Hor : is_ancestor (blocks_tree self) k x = Some true \/ is_ancestor (blocks_tree self) x k = Some true).
    { destruct (bi_line _ Hb y k Hy Hk) as [Hyk|Hky].
      - right. by eapply ancestor_trans.
      - by apply (ancestor_linear _ k x y Hwf). }
    destruct Hor as [?|Hxk]; [done|]. destruct (decide (k = x)) as [->|Hne]; [done|]. by destruct Hn.
  - intros Hkx [Hxk Hne]. apply Hne. by eapply ancestor_antisym.
Qed.

Lemma pruned_hash_NoDup self (outs : list (PrunedNode Block)) :
  blocks_inv self -> NoDup (pn_index <$> outs) ->
  (forall p, p ∈ outs -> fork_get (blocks_tree self) (pn_index p) = Some (pn_user_data p)) -> NoDup (pruned_hash <$> outs).
Proof.
  intros Hb Hnd Hget. rewrite NoDup_alt in Hnd. apply NoDup_alt. intros i j h Hi Hj.
  rewrite list_lookup_fmap in Hi, Hj. apply fmap_Some in Hi as (p & Hp & ->). apply fmap_Some in Hj as (q & Hq & Epq).
  apply (Hnd i j (pn_index p)); rewrite list_lookup_fmap; [by rewrite Hp|]. rewrite Hq. cbn. f_equal.
  pose proof (tree_ids _ _ _ Hb (Hget p (list_elem_of_lookup_2 _ _ _ Hp))) as H1.
  pose proof (tree_ids _ _ _ Hb (Hget q (list_elem_of_lookup_2 _ _ _ Hq))) as H2.
  unfold pruned_hash in Epq. rewrite Epq, H2 in H1. by injection H1.
Qed.

(** The transaction was seen in a block that is pruned. *)
Definition seen_pruned self seen id : Prop :=
  exists h i, (id, h) ∈ seen /\ blocks_by_id self !! h = Some i /\ prunable self i.

(** What is reported: the pruned blocks, each once, with the transactions that
    were included in it. *)
Definition prune_reports self (out : list (PruneBodyFinalized TTx TBl)) : Prop :=
  NoDup (pbf_block_hash <$> out) /\
  (forall h, h ∈ pbf_block_hash <$> out <-> exists i, blocks_by_id self !! h = Some i /\ prunable self i) /\
  (forall r t, r ∈ out -> t ∈ pbf_included_transactions r <->
     exists id ix, transactions_by_inclusion self !! (pbf_block_hash r, id) = Some ix /\ removed_tx self id ix = Some t).

Lemma reports_of self outs out :
  NoDup (pruned_hash <$> outs) -> Forall2 (report_of self) outs out ->
  (forall h, h ∈ pruned_hash <$> outs <-> exists i, blocks_by_id self !! h = Some i /\ prunable self i) -> prune_reports self out.
Proof.
  intros Hnd Hrep Hh. assert (E : pbf_block_hash <$> out = pruned_hash <$> outs).
  { clear Hnd Hh. induction Hrep as [|p r outs out (Hp & _) _ IH]; [done|]. rewrite !fmap_cons. by rewrite Hp, IH. }
  split; [by rewrite E|]. split; [by rewrite E|]. intros r t Hr. apply list_elem_of_lookup in Hr as [n Hn].
  destruct (Forall2_lookup_r _ _ _ _ _ Hrep Hn) as (p & _ & Hp & _ & Ht). by rewrite Ht, Hp.
Qed.

Lemma seen_pruned_included self seen id :
  light_inv self seen ->
  seen_pruned self seen id <-> exists h i, (id, h) ∈ included_transactions self /\ blocks_by_id self !! h = Some i /\ prunable self i.
Proof.
  intros Hinv. pose proof (li_blocks _ _ Hinv) as Hb. split.
  - intros (h & i & Hs & Hi & [(y & Hy & Hk) Hall]). destruct (seen_first _ _ _ _ Hinv Hs) as (h0 & Hin & j & i' & Hj & Hi' & Ha).
    assert (i' = i) as -> by congruence. exists h0, j. split; [done|]. split; [done|]. split.
    + exists y. split; [done|]. eapply ancestor_trans; [apply Hb|done|done].
    + intros a b Hab. apply Hall. eapply ancestor_trans; [apply Hb|done|done].
  - intros (h & i & Hin & ? & ?). exists h, i. split; [|done]. by apply (si_first _ _ (li_seen _ _ Hinv)).
Qed.

(** The state after the loop on the pruned blocks. *)
Record prune_core self seen (t' : ForkTree Block) fin root (out : list (PruneBodyFinalized TTx TBl)) s3 : Prop := {
  pc_tree : blocks_tree s3 = t';
  pc_best : lp_best_block_index s3 = lp_best_block_index self;
  pc_fin : finalized_block_index s3 = fin;
  pc_root : blocks_tree_root_hash s3 = root;
  pc_index : index_inv s3;
  pc_ids : forall h i, blocks_by_id s3 !! h = Some i <-> blocks_by_id self !! h = Some i /\ ~ prunable self i;
  pc_txs : forall x tx, transactions s3 !! x = Some tx <-> transactions self !! x = Some tx /\ ~ seen_pruned self seen x;
  pc_incl : forall x h, (x, h) ∈ included_transactions s3 <-> (x, h) ∈ included_transactions self /\ ~ seen_pruned self seen x;
  pc_reports : prune_reports self out
}.

Lemma prune_core_spec self seen y x fin root :
  light_inv self seen -> finalized_block_index self = Some y -> is_Some (fork_get (blocks_tree self) x) ->
  is_ancestor (blocks_tree self) x y = Some true ->
  (forall k, prunable self k <-> is_ancestor (blocks_tree self) k x = Some true) ->
  exists outs t' out s3, prune_ancestors (blocks_tree self) x = Some (outs, t') /\ pruned_to (blocks_tree self) t' x /\
    pruned_finalized_loop outs (with_tree t' (blocks_by_id self) (with_heads (lp_best_block_index self) fin root self)) = Some (out, s3) /\
    prune_core self seen t' fin root out s3 /\
    (forall k d, (k, d) ∈ (item <$> outs) <->
       fork_get (blocks_tree self) k = Some d /\ ~ (is_ancestor (blocks_tree self) x k = Some true /\ k <> x)) /\
    (forall h i, blocks_by_id s3 !! h = Some i <-> blocks_by_id self !! h = Some i /\ h ∉ pruned_hash <$> outs).
Proof.
  intros Hinv Hy Hxg Hxy Hpr. pose proof (li_blocks _ _ Hinv) as Hb. pose proof (bi_rep _ Hb) as [f Hf].
  destruct (prune_ancestors_to (blocks_tree self) f x Hf Hxg) as (outs & t' & Ep & Hto & Hnd & Houts).
  set (s1 := with_tree t' (blocks_by_id self) (with_heads (lp_best_block_index self) fin root self)).
  assert (Hx1 : index_inv s1) by (apply with_tree_index, with_heads_index, Hinv).
  assert (Hndh : NoDup (pruned_hash <$> outs)).
  { eapply pruned_hash_NoDup; [done|done|]. intros p Hp.
    assert (Hi : (pn_index p, pn_user_data p) ∈ (item <$> outs)) by (apply list_elem_of_fmap; by exists p). by apply Houts in Hi as [? _]. }
  assert (Hhs : forall h, h ∈ pruned_hash <$> outs <-> exists i, blocks_by_id self !! h = Some i /\ prunable self i).
  { intros h. rewrite (pruned_hashes self outs (fun k => is_ancestor (blocks_tree self) x k = Some true /\ k <> x)) by done.
    split; intros (i & Hi & Hk); exists i; (split; [done|]); pose proof (ids_get _ _ _ Hb Hi) as Hg.
    - apply Hpr. by apply (pruned_line self y x i).
    - apply (pruned_line self y x i); [done..|]. by apply Hpr. }
  destruct (finalized_loop_purged outs s1 Hx1 Hndh) as (out & s3 & gone & El & P & Hgone & Hrep).
  { intros id h h' (i & Hi & Pi)%Hhs (i' & Hi' & Pi')%Hhs H1 H2. apply Hpr in Pi. apply Hpr in Pi'.
    destruct (ancestor_linear _ i i' x (bi_rep _ Hb) Pi Pi') as [Ha|Ha].
    - apply (included_once self seen id h h' Hinv H1 H2). by exists i, i'.
    - symmetry. apply (included_once self seen id h' h Hinv H2 H1). by exists i', i. }
  assert (Hg : forall x0, x0 ∈ gone <-> seen_pruned self seen x0).
  { intros x0. rewrite Hgone, (seen_pruned_included _ _ _ Hinv). setoid_rewrite Hhs. naive_solver. }
  exists outs, t', out, s3. split; [done|]. split; [done|]. split; [done|].
  pose proof (pu_heads _ _ _ _ _ _ P) as (Et & Eb & Ef & Er & _)%heads_eq. split; [|split; [done|apply (pu_ids _ _ _ _ _ _ P)]].
  split; [done|done|done|done|by eapply pu_index| | | |].
  - intros h i. rewrite (pu_ids _ _ _ _ _ _ P), Hhs. cbn. split; intros [Hi Hn]; (split; [done|]); intros Hp; apply Hn; [eauto|].
    destruct Hp as (j & Hj & ?). congruence.
  - intros x0 tx. by rewrite (pu_txs _ _ _ _ _ _ P), Hg.
  - intros x0 h. rewrite (purged_included _ _ _ _ _ _ x0 h Hx1 P), Hg. pose proof (@not_elem_of_nil Z h). cbn. tauto.
  - by eapply reports_of.
Qed.

(** What the operation does. *)
Record prune_effect self seen (out : list (PruneBodyFinalized TTx TBl)) self' : Prop := {
  pe_inv : light_inv self' (restrict self' seen);
  pe_reports : prune_reports self out;
  pe_txs : forall x tx, transactions self' !! x = Some tx <-> transactions self !! x = Some tx /\ ~ seen_pruned self seen x;
  pe_ids : forall h i, blocks_by_id self' !! h = Some i <-> blocks_by_id self !! h = Some i /\ ~ prunable self i;
  pe_best : best_block_hash self' = best_block_hash self;
  pe_included : forall x, included_best self' x <-> included_best self x /\ ~ seen_pruned self seen x
}.

Lemma prune_nothing self seen :
  light_inv self seen -> (forall k, ~ prunable self k) -> prune_effect self seen [] self.
Proof.
  intros Hinv Hno. assert (Hns : forall x, ~ seen_pruned self seen x) by (intros x (h & i & _ & _ & Hp); by apply (Hno i)).
  split; [by rewrite restrict_all by apply Hinv| | | |done|].
  - split; [constructor|]. split; [|by intros ? ? ?%elem_of_nil]. intros h. split; [by intros ?%elem_of_nil|].
    intros (i & _ & Hp). by apply Hno in Hp.
  - intros x tx. split; [intros ?; split; [done|apply Hns]|by intros [? _]].
  - intros h i. split; [intros ?; split; [done|apply Hno]|by intros [? _]].
  - intros x. split; [intros ?; split; [done|apply Hns]|by intros [? _]].
Qed.

(** The best block of the new state. *)
Lemma prune_best self y x k :
  blocks_inv self -> finalized_block_index self = Some y -> is_ancestor (blocks_tree self) x y = Some true ->
  lp_best_block_index self = Some k ->
  is_ancestor (blocks_tree self) x k = Some true /\ (k = x -> y = x).
Proof.
  intros Hb Hy Hxy Hk. destruct (bi_fin _ Hb y Hy) as (k' & Hk' & Ha). assert (k' = k) as -> by congruence.
  split; [eapply ancestor_trans; [apply Hb|done|done]|]. intros ->. eapply ancestor_antisym; [apply Hb|done|done].
Qed.

(** The state that the operation returns, from that of the loop. *)
Section assemble.
Context (self : LightPool) (seen : gset (Z * Z)) (y x k : NodeIndex) (outs : list (PrunedNode Block)) (t' : ForkTree Block)
  (root : Hash) (out : list (PruneBodyFinalized TTx TBl)) (s3 : LightPool).
Context (Hinv : light_inv self seen) (Hy : finalized_block_index self = Some y) (Hk : lp_best_block_index self = Some k)
  (Hxg : is_Some (fork_get (blocks_tree self) x)) (Hxy : is_ancestor (blocks_tree self) x y = Some true)
  (Hpr : forall j, prunable self j <-> is_ancestor (blocks_tree self) j x = Some true)
  (Hto : pruned_to (blocks_tree self) t' x)
  (Houts : forall j d, (j, d) ∈ (item <$> outs) <->
     fork_get (blocks_tree self) j = Some d /\ ~ (is_ancestor (blocks_tree self) x j = Some true /\ j <> x))
  (Hids3 : forall h i, blocks_by_id s3 !! h = Some i <-> blocks_by_id self !! h = Some i /\ h ∉ pruned_hash <$> outs)
  (Hcore : prune_core self seen t' (if x =? y then None else Some y) root out s3)
  (Hroot : x = y -> exists b, fork_get (blocks_tree self) x = Some b /\ root = lb_hash b).

Definition prune_keep (j : NodeIndex) : Prop := is_ancestor (blocks_tree self) x j = Some true /\ j <> x.

Definition prune_result : LightPool := with_best_block (if k =? x then None else Some k) s3.

Lemma prune_keep_dec j : prune_keep j \/ ~ prune_keep j.
Proof. destruct (decide (prune_keep j)); [by left|by right]. Qed.

Lemma prune_keep_iff j : is_Some (fork_get (blocks_tree self) j) -> prune_keep j <-> ~ prunable self j.
Proof.
  intros Hj. rewrite Hpr, <- (pruned_line self y x j (li_blocks _ _ Hinv) Hy Hxy Hj). fold (prune_keep j).
  destruct (prune_keep_dec j); tauto.
Qed.

Lemma prune_head : is_ancestor (blocks_tree self) x k = Some true /\ (k = x -> y = x).
Proof. by apply (prune_best self y x k (li_blocks _ _ Hinv)). Qed.

Lemma prune_result_ids h i : blocks_by_id prune_result !! h = Some i <-> blocks_by_id self !! h = Some i /\ ~ prunable self i.
Proof. apply (pc_ids _ _ _ _ _ _ _ Hcore). Qed.

Lemma prune_result_blocks : blocks_inv prune_result.
Proof.
  pose proof (li_blocks _ _ Hinv) as Hb. destruct prune_head as [Hxk Hkx].
  eapply (pruned_blocks_inv self prune_result t' outs prune_keep Hb prune_keep_dec (pr_rep _ _ _ Hto)).
  - intros j d. rewrite (pr_get _ _ _ Hto). done.
  - apply Hto.
  - exact Houts.
  - apply (pc_tree _ _ _ _ _ _ _ Hcore).
  - exact Hids3.
  - intros j. cbn. destruct (Z.eqb_spec k x) as [|Hne]; [done|]. intros [= <-]. split; [by eapply bi_best|done].
  - intros y'. cbn. rewrite (pc_fin _ _ _ _ _ _ _ Hcore). destruct (Z.eqb_spec x y) as [|Hne]; [done|]. intros [= <-]. split; [done|].
    exists k. destruct (Z.eqb_spec k x) as [->|]; [by destruct Hne; symmetry; auto|]. split; [done|].
    destruct (bi_fin _ Hb y Hy) as (k' & ? & ?). congruence.
  - intros y' j. cbn. rewrite (pc_fin _ _ _ _ _ _ _ Hcore). destruct (Z.eqb_spec x y) as [|Hne]; [done|]. intros [= <-] Hj _.
    by apply (bi_line _ Hb).
Qed.

Lemma prune_result_below h h' :
  is_Some (blocks_by_id prune_result !! h) -> is_Some (blocks_by_id prune_result !! h') ->
  hash_below prune_result h h' <-> hash_below self h h'.
Proof.
  apply (pruned_below self prune_result t' outs prune_keep (li_blocks _ _ Hinv) prune_keep_dec).
  - intros j d. rewrite (pr_get _ _ _ Hto). done.
  - apply Hto.
  - exact Houts.
  - apply (pc_tree _ _ _ _ _ _ _ Hcore).
  - exact Hids3.
Qed.

Lemma prune_result_inv : light_inv prune_result (restrict prune_result seen).
Proof.
  pose proof (li_seen _ _ Hinv) as Hs. split; [exact prune_result_blocks|exact (with_heads_index _ _ _ _ (pc_index _ _ _ _ _ _ _ Hcore))|].
  eapply seen_restrict; [exact Hs| |exact prune_result_below|].
  - intros id h. change (included_transactions prune_result) with (included_transactions s3).
    change (transactions prune_result) with (transactions s3).
    rewrite (pc_incl _ _ _ _ _ _ _ Hcore). split.
    + intros [Hin Hn]. split; [done|]. pose proof Hin as [Hsn _]%(si_first _ _ Hs). pose proof (si_seen _ _ Hs _ _ Hsn) as [[tx Htx] [i Hi]].
      split; [exists tx; by apply (pc_txs _ _ _ _ _ _ _ Hcore)|]. exists i. apply prune_result_ids. split; [done|].
      intros Hp. apply Hn. by exists h, i.
    + intros (Hin & [tx [_ Hn]%(pc_txs _ _ _ _ _ _ _ Hcore)] & _). done.
  - intros id h h' Hsn [tx [_ Hn]%(pc_txs _ _ _ _ _ _ _ Hcore)] _ _. pose proof (si_seen _ _ Hs _ _ Hsn) as [_ [i Hi]].
    exists i. apply prune_result_ids. split; [done|]. intros Hp. apply Hn. by exists h', i.
Qed.

Lemma prune_result_best_hash : best_block_hash prune_result = best_block_hash self.
Proof.
  destruct prune_head as [Hxk Hkx]. pose proof (bi_best _ (li_blocks _ _ Hinv) k Hk) as [b Hg].
  unfold best_block_hash. cbn. rewrite Hk, Hg. destruct (Z.eqb_spec k x) as [->|Hne].
  - destruct (Hroot (eq_sym (Hkx eq_refl))) as (b' & Hg' & E). rewrite (pc_root _ _ _ _ _ _ _ Hcore), E. congruence.
  - rewrite (pc_tree _ _ _ _ _ _ _ Hcore).
    assert (fork_get t' k = Some b) as ->; [|done]. apply (pr_get _ _ _ Hto). done.
Qed.

Lemma prune_result_included id : included_best prune_result id <-> included_best self id /\ ~ seen_pruned self seen id.
Proof.
  pose proof (li_blocks _ _ Hinv) as Hb. destruct prune_head as [Hxk Hkx]. unfold included_best.
  change (included_transactions prune_result) with (included_transactions s3). setoid_rewrite (pc_incl _ _ _ _ _ _ _ Hcore). split.
  - intros (h & [Hin Hn] & i & j & [Hi _]%prune_result_ids & Hj & Ha). split; [|done]. exists h. split; [done|].
    cbn in Hj. destruct (Z.eqb_spec k x); [done|]. injection Hj as <-. cbn in Ha. rewrite (pc_tree _ _ _ _ _ _ _ Hcore) in Ha.
    apply (pr_ancestor _ _ _ Hto) in Ha as [Ha _]. by exists i, k.
  - intros [(h & Hin & i & j & Hi & Hj & Ha) Hn]. assert (j = k) as -> by congruence. exists h. split; [done|].
    assert (Hnp : ~ prunable self i).
    { intros Hp. apply Hn. exists h, i. split; [|done]. by apply (si_first _ _ (li_seen _ _ Hinv)). }
    pose proof (ids_get _ _ _ Hb Hi) as Hig. assert (Hkeep : prune_keep i) by (by apply prune_keep_iff).
    assert (Hne : k <> x). { intros ->. apply Hnp, Hpr. done. }
    exists i, k. split; [by apply prune_result_ids|]. cbn. apply Z.eqb_neq in Hne as Hne'. rewrite Hne'. split; [done|].
    rewrite (pc_tree _ _ _ _ _ _ _ Hcore). apply (pr_ancestor _ _ _ Hto). split; [done|].
    pose proof (bi_best _ Hb k Hk) as Hkg. assert (prune_keep k) by done.
    rewrite !(pruned_get self t' prune_keep) by (intros j d; apply (pr_get _ _ _ Hto)). done.
Qed.

Lemma prune_result_effect : prune_effect self seen out prune_result.
Proof.
  split; [exact prune_result_inv|apply (pc_reports _ _ _ _ _ _ _ Hcore)|apply (pc_txs _ _ _ _ _ _ _ Hcore)|exact prune_result_ids
    |exact prune_result_best_hash|exact prune_result_included].
Qed.
End assemble.

Lemma prune_finalized_effect self seen :
  light_inv self seen -> exists out self', prune_finalized_with_body self = Some (out, self') /\ prune_effect self seen out self'.
Proof.
  intros Hinv. pose proof (li_blocks _ _ Hinv) as Hb. unfold prune_finalized_with_body.
  destruct (finalized_block_index self) as [y|] eqn:Hy.
  2: { exists [], self. split; [done|]. apply prune_nothing; [done|]. intros k [(y & ? & _) _]. congruence. }
  destruct (upmost_spec self y Hb Hy) as (path & pre & -> & -> & Hup). destruct (last pre) as [x|].
  2: { exists [], self. split; [done|]. by apply prune_nothing. }
  destruct Hup as (Hxg & Hxy & Hpr). destruct (bi_fin _ Hb y Hy) as (k & Hk & _).
  assert (exists root, (if x =? y then let! c := fork_get (blocks_tree self) x in
      Some (with_heads (lp_best_block_index self) None (lb_hash c) self) else Some self) =
      Some (with_heads (lp_best_block_index self) (if x =? y then None else Some y) root self) /\
      (x = y -> exists b, fork_get (blocks_tree self) x = Some b /\ root = lb_hash b)) as (root & -> & Hroot).
  { destruct (Z.eqb_spec x y) as [E|E].
    - destruct Hxg as [b Hg]. rewrite Hg. exists (lb_hash b). split; [done|]. by exists b.
    - exists (blocks_tree_root_hash self). split; [|done]. rewrite <- Hy. by destruct self. }
  destruct (prune_core_spec self seen y x (if x =? y then None else Some y) root Hinv Hy Hxg Hxy Hpr)
    as (outs & t' & out & s3 & Ep & Hto & El & Hcore & Houts & Hids3).
  cbn [with_heads blocks_tree blocks_by_id]. rewrite Ep. cbn [with_heads blocks_by_id] in El. rewrite El.
  rewrite (pc_best _ _ _ _ _ _ _ Hcore), Hk. eexists out, _. split; [reflexivity|].
  assert (E : (if k =? x then with_best_block None s3 else s3) = prune_result x k s3).
  { unfold prune_result. destruct (k =? x); [done|]. rewrite <- Hk, <- (pc_best _ _ _ _ _ _ _ Hcore). by destruct s3. }
  rewrite E. by eapply prune_result_effect.
Qed.

End final.
