(* ===== verification/LightPoolRun.v ===== *)
(** * Runs of the pool of the light client

    The calls of the public interface of LightPool.v as a state machine, next to
    what was seen of the transactions and to a client that follows the reports; the
    main theorems, and what the code does not do. *)

From S2P Require Import Prelude TrieNode BTree ForkTree ForkTreePrune ForkTreeFacts LightPool LightPoolInv LightPoolPurge LightPoolOps LightPoolBody LightPoolFinal.

Open Scope Z_scope.

Section run.
Context `{Platform} `{Blake2b} {TTx TBl TErr : Type}.

Abbreviation LightPool := (LightPool TTx TBl TErr) (only parsing).
Implicit Types (self : LightPool) (id : TransactionId) (h : Hash) (seen : gset (Z * Z)) (client : gset Z).

(** ** Calls *)

(** The calls that change the state. [new_id] and [new_index] are the keys that
    the slabs give; [f] is what the caller does through a mutable reference. *)
Inductive light_call :=
  | AddUnvalidated (new_id : TransactionId) (bytes : list u8) (ud : TTx)
  | RemoveTransaction (tx_id : TransactionId)
  | TransactionsIterMut (f : TTx -> TTx)
  | TransactionUserDataMut (tx_id : TransactionId) (f : TTx -> TTx)
  | SetValidationResult (tx_id : TransactionId) (block : Hash) (r : result TErr ValidTransaction)
  | AddBlock (new_index : NodeIndex) (block parent_hash : Hash) (ud : TBl)
  | SetBest (block : Hash)
  | BlockUserDataMut (block : Hash) (f : TBl -> TBl)
  | SetBlockBody (block : Hash) (body : list (list u8))
  | SetFinalizedBlock (block : Hash)
  | PruneFinalizedWithBody.

Definition report_id (e : TransactionId * Hash * usize) : TransactionId := fst (fst e).

(** The transactions that the call reports as retracted from the best chain, those
    that it reports as included, and the new state. [None] is a panic. *)
Definition run_light_call self (c : light_call) : option (list TransactionId * list TransactionId * LightPool) :=
  match c with
  | AddUnvalidated new_id bytes ud => Some ([], [], snd (add_unvalidated self new_id bytes ud))
  | RemoveTransaction id => let! (_, s) := remove_transaction self id in Some ([], [], s)
  | TransactionsIterMut f => Some ([], [], transactions_iter_mut self f)
  | TransactionUserDataMut id f => Some ([], [], default self (transaction_user_data_mut self id f))
  | SetValidationResult id h r => let! s := set_validation_result self id h r in Some ([], [], s)
  | AddBlock new h parent_hash ud => let! s := add_block self new h parent_hash ud in Some ([], [], s)
  | SetBest h =>
      let! (r, s) := set_best_block self h in
      Some (report_id <$> retracted_transactions r, report_id <$> newly_included_transactions r, s)
  | BlockUserDataMut h f => let! r := block_user_data_mut self h f in Some ([], [], default self r)
  | SetBlockBody h body => let! (out, s) := set_block_body self h body in Some ([], out.*1, s)
  | SetFinalizedBlock h => let! (_, s) := set_finalized_block self h in Some ([], [], s)
  | PruneFinalizedWithBody => let! (_, s) := prune_finalized_with_body self in Some ([], [], s)
  end.

(** The conditions that the documentation puts on the arguments, that a block or
    the best block is on the finalized chain, and that the slabs give free keys. *)
Definition light_call_ok self (c : light_call) : Prop :=
  match c with
  | AddUnvalidated new_id _ _ => transactions self !! new_id = None /\ is_usize new_id
  | RemoveTransaction id => is_Some (transactions self !! id)
  | SetValidationResult id h _ =>
      is_Some (transactions self !! id) /\ is_hash h /\ (h = blocks_tree_root_hash self \/ is_Some (blocks_by_id self !! h))
  | AddBlock new h parent_hash _ =>
      fork_get (blocks_tree self) new = None /\ new <> 2 ^ usize_bits - 1 /\ is_hash h /\ parent_ok self parent_hash
  | SetBest h => exists idx, block_index_of self h = Some idx /\ best_ok self idx
  | SetBlockBody h body => body_unknown self h /\ len body < 2 ^ usize_bits
  | SetFinalizedBlock h => finalize_ok self h
  | TransactionsIterMut _ | TransactionUserDataMut _ _ | BlockUserDataMut _ _ | PruneFinalizedWithBody => True
  end.

(** What was seen, after a call: a body shows the transactions of the pool that it
    has; what leaves the pool is forgotten. *)
Definition seen_after self (c : light_call) self' seen : gset (Z * Z) :=
  restrict self' (match c with SetBlockBody h body => sightings self h body | _ => ∅ end ∪ seen).

(** The client that follows the reports: it knows which transactions of the pool
    are included in the best chain. *)
Definition follow (r i : list TransactionId) self' client : gset Z :=
  filter (fun id => is_Some (transactions self' !! id)) ((client ∖ list_to_set r) ∪ list_to_set i).

Inductive light_reach (root : Hash) : LightPool -> gset (Z * Z) -> gset Z -> Prop :=
  | light_new : light_reach root (LightPool_new root) ∅ ∅
  | light_step self seen client c r i self' :
      light_reach root self seen client -> light_call_ok self c -> run_light_call self c = Some (r, i, self') ->
      light_reach root self' (seen_after self c self' seen) (follow r i self' client).

(** ** Each call *)

Lemma light_inv_new root : light_inv (LightPool_new root : LightPool) ∅.
Proof.
  split.
  - split; [|done|..|done|done|done].
    + exists FNil. split; [done|done|constructor|]. intros i. cbn. rewrite lookup_empty. split; [by intros ?%elem_of_nil|by intros []].
    + intros h i. cbn. rewrite lookup_empty. split; [done|]. intros (b & Hb & _). unfold fork_get in Hb. cbn in Hb. by rewrite lookup_empty in Hb.
    + intros i b Hb. unfold fork_get in Hb. cbn in Hb. by rewrite lookup_empty in Hb.
  - split; [split|..|split]; cbn.
    + intros id. rewrite lookup_empty. by intros [].
    + intros x id. rewrite lookup_empty. split; [by intros ?%not_elem_of_empty|by intros (? & ? & _)].
    + intros id h. rewrite lookup_empty. split; [by intros ?%not_elem_of_empty|by intros []].
    + by intros id h ?%not_elem_of_empty.
    + intros id h. rewrite lookup_empty. split; [by intros ?%not_elem_of_empty|by intros []].
    + intros id h. rewrite lookup_empty. by intros [].
  - split; cbn; [by intros ? ? ?%not_elem_of_empty|]. intros id h.
    split; [by intros ?%not_elem_of_empty|by intros [?%not_elem_of_empty _]].
Qed.

(** The effect of a call: the invariant, and what the client is to know. *)
Definition light_call_spec self seen (c : light_call) : Prop :=
  exists r i self', run_light_call self c = Some (r, i, self') /\ light_inv self' (seen_after self c self' seen) /\
    (forall id, included_best self' id <->
       is_Some (transactions self' !! id) /\ ((included_best self id /\ id ∉ r) \/ id ∈ i)).

Lemma included_tx self seen id : light_inv self seen -> included_best self id -> is_Some (transactions self !! id).
Proof. intros Hinv (h & Hin & _). by apply (xi_included _ (li_index _ _ Hinv)) in Hin as [? _]. Qed.

(** A call that reports nothing. *)
Lemma silent_spec self seen c self' :
  run_light_call self c = Some ([], [], self') -> (forall h body, c <> SetBlockBody h body) ->
  light_inv self' (restrict self' seen) ->
  (forall id, included_best self' id <-> included_best self id /\ is_Some (transactions self' !! id)) ->
  light_call_spec self seen c.
Proof.
  intros Hrun Hc Hinv Hincl. exists [], [], self'. split; [done|]. split.
  - unfold seen_after. assert (E : match c with SetBlockBody h body => sightings self h body | _ => ∅ end ∪ seen = seen); [|by rewrite E].
    destruct c; try apply union_empty_l_L. by destruct (Hc block body).
  - intros id. rewrite Hincl. pose proof (@not_elem_of_nil Z id). tauto.
Qed.

(** A call that removes no transaction and no block. *)
Lemma quiet_spec self seen c self' :
  run_light_call self c = Some ([], [], self') -> (forall h body, c <> SetBlockBody h body) ->
  light_inv self seen -> light_inv self' seen -> included_transactions self' = included_transactions self ->
  (forall h, on_best_chain self' h <-> on_best_chain self h) -> light_call_spec self seen c.
Proof.
  intros Hrun Hc Hinv Hinv' Hincl Hbest. assert (Hib : forall id, included_best self' id <-> included_best self id).
  { intros id. unfold included_best. rewrite Hincl. by setoid_rewrite Hbest. }
  eapply silent_spec; [done|done|by rewrite restrict_all by apply Hinv'|].
  intros id. rewrite Hib. split; [|by intros [? _]]. intros Hi. split; [done|]. by eapply included_tx, Hib.
Qed.

Lemma restatus_spec self seen c self' :
  run_light_call self c = Some ([], [], self') -> (forall h body, c <> SetBlockBody h body) ->
  light_inv self seen -> restatus self self' -> light_call_spec self seen c.
Proof.
  intros Hrun Hc Hinv Hrs. destruct (restatus_blocks _ _ Hrs) as (Hh & Hids & _ & Hincl).
  eapply quiet_spec; [done|done|done|by eapply restatus_inv|done|]. intros h. by apply best_chain_frame.
Qed.

Lemma best_chain_dec self h : blocks_inv self -> on_best_chain self h \/ ~ on_best_chain self h.
Proof.
  intros Hb. destruct (blocks_by_id self !! h) as [i|] eqn:E.
  - destruct (in_best_chain_spec self h i Hb E) as ([] & _ & Hv); [left; by apply Hv|right]. intros Hf. apply Hv in Hf. done.
  - right. intros (i & ? & ? & _). congruence.
Qed.

Lemma set_best_spec self seen h :
  light_inv self seen -> light_call_ok self (SetBest h) -> light_call_spec self seen (SetBest h).
Proof.
  intros Hinv (idx & Hidx & Hok).
  destruct (set_best_block_effect self seen h idx Hinv Hidx Hok) as (r & self' & s1 & E & R & -> & Hinv' & Hret & Hinc).
  eexists _, _, _. cbn [run_light_call]. rewrite E. split; [reflexivity|].
  unfold seen_after. rewrite union_empty_l_L, restrict_all by apply Hinv'. split; [done|].
  destruct (restatus_blocks _ _ R) as (Hh & Hids & Hti & Hincl). set (s' := with_best_block idx s1) in *.
  assert (Hix : forall id h', (id, h') ∈ included_transactions self -> exists ix, transactions_by_inclusion self !! (h', id) = Some ix).
  { intros id h' Hin. by apply (xi_mirror _ (li_index _ _ Hinv)) in Hin. }
  assert (Hxi : forall id h' ix, transactions_by_inclusion self !! (h', id) = Some ix -> (id, h') ∈ included_transactions self).
  { intros id h' ix Hin. apply (xi_mirror _ (li_index _ _ Hinv)). eauto. }
  assert (Hincl' : included_transactions s' = included_transactions self) by exact Hincl.
  intros id. split.
  - intros Hi. split; [by eapply included_tx|]. destruct Hi as (h' & Hin & Hbc). rewrite Hincl' in Hin.
    destruct (Hix id h' Hin) as [ix Hx]. destruct (best_chain_dec self h' (li_blocks _ _ Hinv)) as [Hold|Hnew].
    + left. split; [by exists h'|]. intros ([[id2 h2] ix2] & -> & (Hx2 & Hb2 & Hn2)%Hret)%list_elem_of_fmap. cbn in Hin.
      assert (h2 = h') as ->; [|done]. apply Hxi in Hx2.
      destruct (best_chain_linear self h2 h' (li_blocks _ _ Hinv) Hb2 Hold) as [Hb|Hb]; [|symmetry]; by eapply (included_once self seen).
    + right. apply list_elem_of_fmap. exists (id, h', ix). split; [done|]. by apply Hinc.
  - intros [_ [[(h' & Hin & Hbc) Hn]|Hi]].
    + exists h'. rewrite Hincl'. split; [done|]. destruct (Hix id h' Hin) as [ix Hx].
      destruct (best_chain_dec s' h' (li_blocks _ _ Hinv')) as [|Hnb]; [done|]. destruct Hn. apply list_elem_of_fmap. exists (id, h', ix).
      split; [done|]. by apply Hret.
    + apply list_elem_of_fmap in Hi as ([[id2 h2] ix2] & -> & (Hx2 & Hb2 & _)%Hinc). exists h2. rewrite Hincl'. split; [|done]. by eapply Hxi.
Qed.

Lemma run_light_call_spec self seen c : light_inv self seen -> light_call_ok self c -> light_call_spec self seen c.
Proof.
  intros Hinv Hok.
  destruct c as [new_id bytes ud|id|f|id f|id h r|new h parent_hash ud|h|h f|h body|h|]; cbn [light_call_ok] in Hok.
  - destruct Hok as [Hnew Hu]. eapply quiet_spec; [done|done|done|by apply add_unvalidated_inv|done|done].
  - destruct Hok as [tx Htx]. destruct (take_transaction_inv self seen id tx Hinv Htx) as (self' & E & Hinv' & Hh & Hids & Htxs & Hincl).
    eapply (silent_spec self seen _ self'); [cbn; unfold remove_transaction; by rewrite E|done|done|].
    intros x. unfold included_best. setoid_rewrite Hincl. setoid_rewrite (fun h => best_chain_frame self self' h Hh Hids). split.
    + intros (h & [Hin Hne] & Hbc). split; [by exists h|]. apply (xi_included _ (li_index _ _ Hinv)) in Hin as [[t Ht] _].
      exists t. by apply Htxs.
    + intros [(h & Hin & Hbc) [t [_ Hne]%Htxs]]. by exists h.
  - eapply restatus_spec; [done|done|done|apply transactions_iter_mut_restatus].
  - eapply restatus_spec; [done|done|done|]. destruct (transaction_user_data_mut self id f) as [s'|] eqn:E; [|apply restatus_refl].
    by eapply transaction_user_data_mut_restatus.
  - destruct Hok as (Hid & Hh & Hknown).
    destruct (set_validation_result_inv self seen id h r Hinv Hid Hh Hknown) as (self' & E & Hinv' & Hheads & Hids & _ & Hincl).
    eapply (quiet_spec self seen _ self'); [cbn; by rewrite E|done|done|done|done|]. intros h'. by apply best_chain_frame.
  - destruct Hok as (Hnew & Hmax & Hh & Hpar).
    destruct (add_block_inv self seen new h parent_hash ud Hinv Hnew Hmax Hh Hpar) as (self' & E & Hinv' & _ & Hincl & Hbest & _).
    eapply (quiet_spec self seen _ self'); [cbn; by rewrite E|done|done|done|done|done].
  - by apply set_best_spec.
  - destruct (block_user_data_mut_inv self seen h f Hinv) as (r & E & Hr).
    eapply (quiet_spec self seen _ (default self r)); [cbn; by rewrite E|done|done|..]; destruct r as [s'|]; try done;
      destruct (Hr s' eq_refl) as (t' & g & -> & Hup & Hg); cbn [default]; [by eapply retree_inv|done|].
    intros h'. eapply retree_best; [apply Hinv|done].
  - destruct Hok as [Hunk Hlen].
    destruct (set_block_body_effect self seen h body Hinv Hunk Hlen) as (out & self' & E & Hinv' & Htx & Hids & _ & Hbest & Hout & Hmono & _).
    exists [], out.*1, self'. cbn [run_light_call]. rewrite E. split; [done|]. unfold seen_after.
    rewrite restrict_all by apply Hinv'. split; [done|]. intros id. rewrite Hout. split.
    + intros Hi. split; [by eapply included_tx|]. destruct (is_included_spec self seen id Hinv) as ([] & _ & Hv); [left|right].
      * split; [by apply Hv|apply not_elem_of_nil].
      * split; [done|]. intros Hf. apply Hv in Hf. done.
    + intros [_ [[Hi _]|[Hi _]]]; [by apply Hmono|done].
  - destruct (set_finalized_block_effect self seen h Hinv Hok) as (out & self' & E & Hinv' & Htx & _ & _ & Hbest & Hincl).
    eapply (silent_spec self seen _ self'); [cbn; by rewrite E|done|done|]. intros id. unfold included_best. setoid_rewrite Hbest. split.
    + intros (h' & Hin & Hbc). split; [exists h'; split; [by apply Hincl|done]|].
      by apply (xi_included _ (li_index _ _ Hinv')) in Hin as [? _].
    + intros [(h' & Hin & Hbc) _]. exists h'. split; [by apply Hincl|done].
  - destruct (prune_finalized_effect self seen Hinv) as (out & self' & E & He).
    eapply (silent_spec self seen _ self'); [cbn; by rewrite E|done|apply He|]. intros id. rewrite (pe_included _ _ _ _ He).
    split; (intros [Hi Hx]; split; [done|]).
    + destruct (included_tx _ _ _ Hinv Hi) as [tx Htx]. exists tx. by apply (pe_txs _ _ _ _ He).
    + destruct Hx as [tx [_ ?]%(pe_txs _ _ _ _ He)]. done.
Qed.

Lemma light_reach_inv root self seen client :
  light_reach root self seen client -> light_inv self seen /\ (forall id, id ∈ client <-> included_best self id).
Proof.
  induction 1 as [|self seen client c r i self' _ [IH1 IH2] Hok E].
  - split; [apply light_inv_new|]. intros id. split; [by intros ?%not_elem_of_empty|]. by intros (h & ?%not_elem_of_empty & _).
  - destruct (run_light_call_spec self seen c IH1 Hok) as (r' & i' & s' & E' & Hinv' & Hview).
    rewrite E in E'. injection E' as <- <- <-. split; [done|]. intros id. unfold follow. rewrite Hview, elem_of_filter.
    rewrite elem_of_union, elem_of_difference, !elem_of_list_to_set, IH2. done.
Qed.

(** ** Main results *)

(** C8: from [LightPool::new], whatever the calls within the conditions of [light_call_ok], no
    call panics, and [is_included_best_chain] is true of a transaction of the pool exactly if
    the body of a block of the best chain, given while the transaction was in the pool,
    has its bytes. Beyond the documentation, [light_call_ok] asks that the best block and
    the parents of new blocks be the finalized block or its descendants and that no body
    be given twice: a pool in which the best block is above the finalized one panics later
    ([best_above_finalized_panics]). For an unknown identifier [is_included_best_chain] is
    documented to panic and returns false. *)
Theorem light_pool_inclusion (root : Hash) self seen client :
  light_reach root self seen client ->
  (forall c, light_call_ok self c -> is_Some (run_light_call self c)) /\
  (forall id, exists v, is_included_best_chain self id = Some v /\
     (v = true <-> exists h, (id, h) ∈ seen /\ on_best_chain self h)).
Proof.
  intros [Hinv _]%light_reach_inv. split.
  - intros c Hok. destruct (run_light_call_spec self seen c Hinv Hok) as (r & i & self' & -> & _). eauto.
  - intros id. destruct (is_included_spec self seen id Hinv) as (v & Hv & Hiff). exists v. split; [done|].
    by rewrite (seen_best_chain _ _ _ Hinv).
Qed.

(** C9: A client that starts with no transaction, removes those that [set_best_block]
    reports as retracted, adds those that it or [set_block_body] reports as included and
    forgets those that leave the pool, always agrees with [is_included_best_chain]: the
    reports are complete, and nothing but a change of the best block, finality and pruning
    included, retracts a transaction. The calls are those of [light_call_ok], which wants
    the best block and the parents of new blocks to be the finalized block or its
    descendants, and no body twice. The identifiers that are not in the pool, for which a
    panic is documented, are answered with false. *)
Theorem light_pool_reports (root : Hash) self seen client :
  light_reach root self seen client ->
  forall id, is_included_best_chain self id = Some (bool_decide (id ∈ client)).
Proof.
  intros [Hinv Hclient]%light_reach_inv id. destruct (is_included_spec self seen id Hinv) as (v & -> & Hiff).
  f_equal. apply eq_bool_prop_intro. rewrite bool_decide_spec, Hclient, Is_true_true. exact Hiff.
Qed.

(** C10: [prune_finalized_with_body] removes exactly the blocks of the finalized chain
    that need no body and whose ancestors need none, and exactly the transactions whose
    bytes were seen in one of them. It reports each of these blocks once, with the
    transactions included in it, and keeps the best block and the blocks and transactions
    that are left. The calls are those of [light_call_ok]: after a best block above the
    finalized one, which the documentation allows, this one panics
    ([best_above_finalized_panics]). *)
Theorem light_pool_prune (root : Hash) self seen client :
  light_reach root self seen client ->
  exists out self', prune_finalized_with_body self = Some (out, self') /\ prune_reports self out /\
    (forall h i, blocks_by_id self' !! h = Some i <-> blocks_by_id self !! h = Some i /\ ~ prunable self i) /\
    (forall x tx, transactions self' !! x = Some tx <-> transactions self !! x = Some tx /\ ~ seen_pruned self seen x) /\
    best_block_hash self' = best_block_hash self.
Proof.
  intros [Hinv _]%light_reach_inv. destruct (prune_finalized_effect self seen Hinv) as (out & self' & E & []).
  by exists out, self'.
Qed.

End run.

(** ** Examples *)

#[local] Existing Instance platform64.
#[local] Existing Instance toy_blake2b.

Abbreviation pool := (LightPool unit unit unit) (only parsing).

Definition after (self : pool) (c : light_call (TTx := unit) (TBl := unit) (TErr := unit)) : pool :=
  from_option snd self (run_light_call self c).

Lemma reach_after root (self : pool) c :
  (exists seen client, light_reach root self seen client) -> light_call_ok self c -> is_Some (run_light_call self c) ->
  exists seen client, light_reach root (after self c) seen client.
Proof.
  intros (seen & client & Hr) Hok [[[r i] s'] E]. unfold after. rewrite E. cbn.
  eexists _, _. by eapply light_step.
Qed.

(** A fork after the block 101; the transaction is found in 103, then in its parent
    101, which is finalized. *)
Definition example_calls : list (light_call (TTx := unit) (TBl := unit) (TErr := unit)) :=
  [AddUnvalidated 0 [7] tt; AddBlock 0 101 100 tt; AddBlock 1 102 101 tt; AddBlock 2 103 101 tt; SetBest 103;
   SetBlockBody 103 [[9]; [7]]; SetBlockBody 101 [[7]]; SetBest 102; SetFinalizedBlock 101].

Definition light_example : pool := foldl after (LightPool_new 100) example_calls.

Lemma light_example_reach : exists seen client, light_reach 100 light_example seen client.
Proof.
  unfold light_example, example_calls. cbn [foldl].
  repeat (apply reach_after; [|cbn [light_call_ok]|by vm_compute; eexists]); [by eexists _, _; constructor|..].
  - by vm_compute.
  - split; [done|]. split; [done|]. split; [by vm_compute|]. exists None. by split.
  - split; [done|]. split; [done|]. split; [by vm_compute|]. exists (Some 0). by split.
  - split; [done|]. split; [done|]. split; [by vm_compute|]. exists (Some 0). by split.
  - exists (Some 2). split; [by vm_compute|]. split; [intros k [= <-]; vm_compute; by eexists|by intros y Hy; vm_compute in Hy].
  - split; [|by vm_compute]. exists 2. eexists. by split_and!; vm_compute.
  - split; [|by vm_compute]. exists 0. eexists. by split_and!; vm_compute.
  - exists (Some 1). split; [by vm_compute|]. split; [intros k [= <-]; vm_compute; by eexists|by intros y Hy; vm_compute in Hy].
  - right. split; [by vm_compute|]. exists 0, 1. split_and!; [by vm_compute..|by intros y Hy; vm_compute in Hy].
Qed.

Lemma light_pool_inclusion_witness :
  exists seen client, light_reach 100 light_example seen client /\
    (forall c, light_call_ok light_example c -> is_Some (run_light_call light_example c)) /\
    (exists h, (0, h) ∈ seen /\ on_best_chain light_example h).
Proof.
  destruct light_example_reach as (seen & client & Hr). exists seen, client. split; [exact Hr|].
  destruct (light_pool_inclusion 100 light_example seen client Hr) as [Hok Hin]. split; [exact Hok|].
  destruct (Hin 0) as (v & Hv & Hiff). apply Hiff. vm_compute in Hv. congruence.
Defined.

Lemma light_pool_reports_witness :
  exists seen client, light_reach 100 light_example seen client /\ 0 ∈ client.
Proof.
  destruct light_example_reach as (seen & client & Hr). exists seen, client. split; [exact Hr|].
  pose proof (light_pool_reports 100 light_example seen client Hr 0) as Hv. vm_compute is_included_best_chain in Hv.
  injection Hv as Hv. symmetry in Hv. by apply bool_decide_eq_true in Hv.
Defined.

Lemma light_pool_prune_witness :
  exists seen client, light_reach 100 light_example seen client /\
    exists self', prune_finalized_with_body light_example =
        Some ([mkPruneBodyFinalized 101 tt [mkRemovedTransaction 0 0 [7] tt]], self') /\
      transactions self' !! 0 = None /\ best_block_hash self' = Some 102.
Proof.
  destruct light_example_reach as (seen & client & Hr). exists seen, client. split; [exact Hr|].
  destruct (light_pool_prune 100 light_example seen client Hr) as (out & self' & E & _ & _ & _ & Hbest).
  exists self'. assert (E2 : prune_finalized_with_body light_example = Some (out, self')) by exact E. vm_compute in E2.
  injection E2 as <- <-. split; [exact E|]. by split.
Defined.

(** ** What the code does not do *)

(** The root of the tree keeps the relative height 0 when it moves to the
    finalized block: a transaction validated at the height 2 for one block is still
    held to be valid at the height 5. *)
Example longevity_restarts :
  let self := foldl after (LightPool_new 100 : pool)
    [AddUnvalidated 0 [7] tt; AddBlock 0 101 100 tt; AddBlock 1 102 101 tt; SetBest 102;
     SetValidationResult 0 102 (Ok (mkValidTransaction 0 [] [] 1 true)); SetFinalizedBlock 102;
     SetBlockBody 101 []; SetBlockBody 102 []; PruneFinalizedWithBody;
     AddBlock 0 103 102 tt; AddBlock 1 104 103 tt; AddBlock 2 105 104 tt; SetBest 105] in
  is_valid_against_best_block self 0 = Some true /\ unvalidated_transactions self = Some [].
Proof. by vm_compute. Qed.

(** Without the pruning it has to be validated again. *)
Example longevity_expires :
  let self := foldl after (LightPool_new 100 : pool)
    [AddUnvalidated 0 [7] tt; AddBlock 0 101 100 tt; AddBlock 1 102 101 tt; SetBest 102;
     SetValidationResult 0 102 (Ok (mkValidTransaction 0 [] [] 1 true)); SetFinalizedBlock 102;
     AddBlock 2 103 102 tt; AddBlock 3 104 103 tt; AddBlock 4 105 104 tt; SetBest 105] in
  is_valid_against_best_block self 0 = Some false /\ unvalidated_transactions self = Some [(0, tt)].
Proof. by vm_compute. Qed.

(** A validation against a block replaces the one against a higher block. *)
Example lower_validation_wins :
  let self := foldl after (LightPool_new 100 : pool)
    [AddUnvalidated 0 [7] tt; AddBlock 0 101 100 tt; AddBlock 1 102 101 tt; SetBest 102;
     SetValidationResult 0 102 (Err tt); SetValidationResult 0 101 (Ok (mkValidTransaction 0 [] [] 9 true))] in
  invalid_transactions_best_block self = [] /\ is_valid_against_best_block self 0 = Some true.
Proof. by vm_compute. Qed.

(** The best block put back above the finalized block, which [set_best_block]
    accepts, makes the pruning panic. *)
Example best_above_finalized_panics :
  let self := foldl after (LightPool_new 100 : pool)
    [AddBlock 0 101 100 tt; SetBest 101; SetFinalizedBlock 101; SetBest 100] in
  lp_best_block_index self = None /\ prune_finalized_with_body self = None.
Proof. by vm_compute. Qed.

(** A validation against the root is recorded although the tree does not have it. *)
Example validation_of_root :
  let self := foldl after (LightPool_new 100 : pool)
    [AddUnvalidated 0 [7] tt; SetValidationResult 0 100 (Err tt)] in
  is_Some (transaction_validations self !! (0, 100)) /\ has_block self 100 = false.
Proof. vm_compute. split; [by eexists|done]. Qed.
