(* ===== verification/TxPool.v ===== *)
(** * The general-purpose transactions pool ([src/src/transactions/pool.rs])

    The transactions to include in blocks and those that the best chain has, with
    three indices: by hash of the bytes, by height of inclusion, and the set of those
    to validate. This file has the operations, what holds of the indices over
    every run, and what each operation does; the index by height and the set of
    transactions to validate are not kept up to date by all of them, and the
    theorems say which and what follows. *)

From S2P Require Import Prelude TrieNode BTree ForkTreeFacts LightPool.

Open Scope Z_scope.

(** ** Data *)

(** [pool::Config]; the capacity only reserves memory. *)
Record PoolConfig := mkPoolConfig {
  capacity : usize;
  finalized_block_height : u64
}.

Section data.
Context (TTx TErr : Type).

(** [pool::Transaction]. *)
Record PoolTransaction := mkPoolTransaction {
  pt_scale_encoded : list u8;
  pt_validation : option (u64 * result TErr ValidTransaction);
  pt_included_block_height : option u64;
  pt_user_data : TTx
}.

Record Pool := mkPool {
  pool_transactions : gmap Z PoolTransaction;
  not_validated : gset Z;
  (** Hash of the bytes, transaction. *)
  pool_by_hash : gset (Z * Z);
  (** Height of the block, transaction. *)
  by_height : gset (Z * Z);
  best_block_height : u64
}.
End data.

Arguments mkPoolTransaction {TTx TErr} _ _ _ _.
Arguments pt_scale_encoded {TTx TErr} p : rename.
Arguments pt_validation {TTx TErr} p : rename.
Arguments pt_included_block_height {TTx TErr} p : rename.
Arguments pt_user_data {TTx TErr} p : rename.
Arguments mkPool {TTx TErr} _ _ _ _ _.
Arguments pool_transactions {TTx TErr} p : rename.
Arguments not_validated {TTx TErr} p : rename.
Arguments pool_by_hash {TTx TErr} p : rename.
Arguments by_height {TTx TErr} p : rename.
Arguments best_block_height {TTx TErr} p : rename.

(** [pool::AppendBlockTransaction]: [Vacant] holds the bytes. The user data that
    the second constructor gives access to is that of the transaction [id]. *)
Inductive AppendBlockTransaction :=
  | Unknown (bytes : list u8)
  | NonIncludedUpdated (id : TransactionId).

(** [BTreeSet::range(lo..)]. *)
Definition bset_from `{KeyOrder K, Countable K} (lo : K) (s : gset K) : list K :=
  filter (fun k => key_le lo k) (bset_iter s).

Section pool.
Context `{Platform} `{Blake2b} {TTx TErr : Type}.

Abbreviation Pool := (Pool TTx TErr) (only parsing).
Abbreviation Transaction := (PoolTransaction TTx TErr) (only parsing).

(** *** Assignments to fields *)

Definition set_validation (v : option (u64 * result TErr ValidTransaction)) (tx : Transaction) : Transaction :=
  mkPoolTransaction (pt_scale_encoded tx) v (pt_included_block_height tx) (pt_user_data tx).
Definition set_included (v : option u64) (tx : Transaction) : Transaction :=
  mkPoolTransaction (pt_scale_encoded tx) (pt_validation tx) v (pt_user_data tx).
Definition update_user_data (f : TTx -> TTx) (tx : Transaction) : Transaction :=
  mkPoolTransaction (pt_scale_encoded tx) (pt_validation tx) (pt_included_block_height tx) (f (pt_user_data tx)).

Definition with_pool_transactions (v : gmap Z Transaction) (self : Pool) : Pool :=
  mkPool v (not_validated self) (pool_by_hash self) (by_height self) (best_block_height self).
Definition with_best_height (v : u64) (self : Pool) : Pool :=
  mkPool (pool_transactions self) (not_validated self) (pool_by_hash self) (by_height self) v.

(** ** Operations *)

Definition Pool_new (config : PoolConfig) : Pool := mkPool ∅ ∅ ∅ ∅ (finalized_block_height config).

Definition pool_is_empty (self : Pool) : bool := bool_decide (pool_transactions self = ∅).

Definition pool_len (self : Pool) : usize := Z.of_nat (size (pool_transactions self)).

(** [new_id] is the key that the slab gives. *)
Definition add_unvalidated_inner (self : Pool) (new_id : TransactionId) (scale_encoded : list u8)
    (included_block_height : option u64) (user_data : TTx) : TransactionId * Pool :=
  let hash := blake2_hash scale_encoded in
  (new_id,
   mkPool (<[new_id := mkPoolTransaction scale_encoded None included_block_height user_data]> (pool_transactions self))
     ({[new_id]} ∪ not_validated self) ({[(hash, new_id)]} ∪ pool_by_hash self)
     (match included_block_height with
      | Some included_block_height => {[(included_block_height, new_id)]} ∪ by_height self
      | None => by_height self
      end) (best_block_height self)).

Definition pool_add_unvalidated (self : Pool) (new_id : TransactionId) (scale_encoded : list u8) (user_data : TTx)
    : TransactionId * Pool :=
  add_unvalidated_inner self new_id scale_encoded None user_data.

(** [None] is the panic of [Slab::remove]. *)
Definition pool_remove (self : Pool) (id : TransactionId) : option (TTx * Pool) :=
  let! tx := pool_transactions self !! id in
  Some (pt_user_data tx,
    mkPool (delete id (pool_transactions self))
      (if decide (pt_validation tx = None) then not_validated self ∖ {[id]} else not_validated self)
      (pool_by_hash self ∖ {[(blake2_hash (pt_scale_encoded tx), id)]})
      (match pt_included_block_height tx with
       | Some included_block_height => by_height self ∖ {[(included_block_height, id)]}
       | None => by_height self
       end) (best_block_height self)).

(** The body of the loop of [remove_included]: the index by height is not
    changed. *)
Definition remove_one (self : Pool) (tx_id : TransactionId) : option (TTx * Pool) :=
  let! tx := pool_transactions self !! tx_id in
  Some (pt_user_data tx,
    mkPool (delete tx_id (pool_transactions self))
      (if decide (pt_validation tx = None) then not_validated self ∖ {[tx_id]} else not_validated self)
      (pool_by_hash self ∖ {[(blake2_hash (pt_scale_encoded tx), tx_id)]})
      (by_height self) (best_block_height self)).

Fixpoint remove_loop (to_remove : list TransactionId) (self : Pool) : option (list (TransactionId * TTx) * Pool) :=
  match to_remove with
  | [] => Some ([], self)
  | tx_id :: to_remove =>
      let! (user_data, self) := remove_one self tx_id in
      let! (out, self) := remove_loop to_remove self in
      Some ((tx_id, user_data) :: out, self)
  end.

Definition pool_remove_included (self : Pool) (block_inferior_of_equal : u64)
    : option (list (TransactionId * TTx) * Pool) :=
  remove_loop (snd <$> bset_range (0, 0) (block_inferior_of_equal, usize_max) (by_height self)) self.

(** The height against which a transaction is to be validated. *)
Definition validation_height (self : Pool) (tx : Transaction) : option u64 :=
  match pt_included_block_height tx with
  | Some n => checked_sub 64 n 1
  | None => Some (best_block_height self)
  end.

(** The iterator, run to its end, in the order of [elements], which stands for that
    of the hash set. *)
Definition pool_unvalidated_transactions (self : Pool) : option (list (TransactionId * TTx * u64)) :=
  mapM (fun tx_id =>
    let! tx := pool_transactions self !! tx_id in
    let! height := validation_height self tx in
    Some (tx_id, pt_user_data tx, height)) (elements (not_validated self)).

Definition pool_iter (self : Pool) : list (TransactionId * TTx) :=
  (fun e => (fst e, pt_user_data (snd e))) <$> btree_iter (pool_transactions self).

Definition pool_iter_mut (self : Pool) (f : TTx -> TTx) : Pool :=
  with_pool_transactions (update_user_data f <$> pool_transactions self) self.

Definition pool_user_data (self : Pool) (id : TransactionId) : option TTx :=
  pt_user_data <$> pool_transactions self !! id.

(** [None] when the function returns [None]; otherwise [f] is what the caller
    does through the reference. *)
Definition pool_user_data_mut (self : Pool) (id : TransactionId) (f : TTx -> TTx) : option Pool :=
  let! tx := pool_transactions self !! id in
  Some (with_pool_transactions (<[id := update_user_data f tx]> (pool_transactions self)) self).

Definition pool_included_block_height (self : Pool) (id : TransactionId) : option u64 :=
  pool_transactions self !! id ≫= pt_included_block_height.

Definition pool_scale_encoding (self : Pool) (id : TransactionId) : option (list u8) :=
  pt_scale_encoded <$> pool_transactions self !! id.

(** The range of [by_hash] that [find] and [block_transaction] read. *)
Definition same_hash (self : Pool) (hash : Hash) : list TransactionId :=
  snd <$> bset_range (hash, 0) (hash, usize_max) (pool_by_hash self).

Definition pool_find (self : Pool) (scale_encoded : list u8) : list TransactionId :=
  same_hash self (blake2_hash scale_encoded).

(** The validation of a transaction after a new best block. *)
Definition expire (best : u64) (tx : Transaction) : Transaction :=
  match pt_included_block_height tx with
  | Some _ => tx
  | None =>
      match pt_validation tx with
      | Some (block_validated, Ok v) =>
          if saturating_add64 block_validated (vt_longevity v) <=? best then set_validation None tx else tx
      | _ => tx
      end
  end.

(** [None] is the panic of the overflow of the height. The pool of the result is in
    the wrapper [AppendBlock]. *)
Definition append_block (self : Pool) : option Pool :=
  let! best := checked_add 64 (best_block_height self) 1 in
  Some (with_best_height best (with_pool_transactions (expire best <$> pool_transactions self) self)).

Fixpoint uninclude_loop (l : list (TransactionId * u64)) (txs : gmap Z Transaction) : option (gmap Z Transaction) :=
  match l with
  | [] => Some txs
  | (transaction_id, _) :: l =>
      let! tx_data := txs !! transaction_id in
      uninclude_loop l (<[transaction_id := set_included None tx_data]> txs)
  end.

(** A validation against a retracted block is cancelled. *)
Definition cancel (best : u64) (tx : Transaction) : Transaction :=
  match pt_validation tx with
  | Some (b, _) => if best <? b then set_validation None tx else tx
  | None => tx
  end.

Definition retract_blocks (self : Pool) (num_to_retract : u64) : option (list (TransactionId * u64) * Pool) :=
  let! best := checked_sub 64 (best_block_height self) num_to_retract in
  let transactions_to_retract :=
    (fun e => (snd e, fst e)) <$> bset_from (wadd 64 best 1, 0) (by_height self) in
  let! txs := uninclude_loop transactions_to_retract (pool_transactions self) in
  Some (rev transactions_to_retract, with_best_height best (with_pool_transactions (cancel best <$> txs) self)).

Definition pool_set_validation_result (self : Pool) (id : TransactionId) (block_number_validated_against : u64)
    (r : result TErr ValidTransaction) : option Pool :=
  let! tx := pool_transactions self !! id in
  if from_option (fun b => negb (b =? wadd 64 block_number_validated_against 1)) false (pt_included_block_height tx)
  then Some self
  else Some (with_pool_transactions
    (<[id := set_validation (Some (block_number_validated_against, r)) tx]> (pool_transactions self)) self).

(** ** The block being appended *)

(** [.find(..)] on the range of the index; [None] is the failure of [unwrap]. *)
Fixpoint find_non_included (self : Pool) (ids : list TransactionId) : option (option TransactionId) :=
  match ids with
  | [] => Some None
  | tx_id :: ids =>
      let! tx := pool_transactions self !! tx_id in
      match pt_included_block_height tx with
      | None => Some (Some tx_id)
      | Some _ => find_non_included self ids
      end
  end.

(** The update of a transaction that the new block has. *)
Definition include_at (best : u64) (tx : Transaction) : Transaction :=
  let tx := set_included (Some best) tx in
  match pt_validation tx with
  | Some (b, _) => if negb (wadd 64 b 1 =? best) then set_validation None tx else tx
  | None => tx
  end.

Definition block_transaction (self : Pool) (bytes : list u8) : option (AppendBlockTransaction * Pool) :=
  let! non_included := find_non_included self (same_hash self (blake2_hash bytes)) in
  match non_included with
  | Some id =>
      let! tx := pool_transactions self !! id in
      Some (NonIncludedUpdated id,
        with_pool_transactions (<[id := include_at (best_block_height self) tx]> (pool_transactions self)) self)
  | None => Some (Unknown bytes, self)
  end.

Definition Vacant_insert (self : Pool) (bytes : list u8) (new_id : TransactionId) (user_data : TTx) : TransactionId * Pool :=
  add_unvalidated_inner self new_id bytes (Some (best_block_height self)) user_data.

Definition AppendBlock_finish (self : Pool) : Pool := self.

End pool.

(** ** The general-purpose transactions pool: invariant and theorems

    The runs of the pool, what its indices say in every run, what each
    operation does, and the sequences of calls after which it panics or loses a
    transaction. *)

Section spec.
Context `{Platform} `{Blake2b} {TTx TErr : Type}.

Abbreviation Pool := (Pool TTx TErr) (only parsing).
Abbreviation Transaction := (PoolTransaction TTx TErr) (only parsing).
Implicit Types p : Pool.
Implicit Types tx : Transaction.
Implicit Types txs : gmap Z Transaction.

(** ** Runs *)

Inductive pool_call :=
  | CallAddUnvalidated (new_id : TransactionId) (bytes : list u8) (user_data : TTx)
  | CallRemove (id : TransactionId)
  | CallRemoveIncluded (n : u64)
  | CallIterMut (f : TTx -> TTx)
  | CallUserDataMut (id : TransactionId) (f : TTx -> TTx)
  | CallAppendBlock
  | CallRetractBlocks (n : u64)
  | CallSetValidationResult (id : TransactionId) (block : u64) (r : result TErr ValidTransaction)
  (** [block_transaction], and [f] done through the reference to the user data. *)
  | CallBlockTransaction (bytes : list u8) (f : TTx -> TTx)
  (** [Vacant::insert] on what [block_transaction] returned. *)
  | CallVacantInsert (bytes : list u8) (new_id : TransactionId) (user_data : TTx)
  | CallFinish.

(** The pool, or the pool in the wrapper [AppendBlock]. *)
Inductive pool_state :=
  | Plain (p : Pool)
  | Appending (p : Pool).

Definition pool_of (s : pool_state) : Pool := match s with Plain p | Appending p => p end.

(** The slab gives a key that is not in use. *)
Definition slab_key p (id : TransactionId) : Prop := pool_transactions p !! id = None /\ is_usize id.

(** A call that the types of the code allow, with arguments of their types. *)
Definition pool_call_ok (s : pool_state) (c : pool_call) : Prop :=
  match s, c with
  | Plain p, CallAddUnvalidated new_id _ _ => slab_key p new_id
  | Plain p, (CallRemove _ | CallIterMut _ | CallUserDataMut _ _ | CallAppendBlock) => True
  | Plain p, (CallRemoveIncluded n | CallRetractBlocks n | CallSetValidationResult _ n _) => is_u64 n
  | Appending p, (CallBlockTransaction _ _ | CallFinish) => True
  | Appending p, CallVacantInsert bytes new_id _ => slab_key p new_id /\ block_transaction p bytes = Some (Unknown bytes, p)
  | _, _ => False
  end.

(** [None] is a panic. *)
Definition run_pool_call (s : pool_state) (c : pool_call) : option pool_state :=
  let p := pool_of s in
  match c with
  | CallAddUnvalidated new_id bytes user_data => Some (Plain (snd (pool_add_unvalidated p new_id bytes user_data)))
  | CallRemove id => let! (_, q) := pool_remove p id in Some (Plain q)
  | CallRemoveIncluded n => let! (_, q) := pool_remove_included p n in Some (Plain q)
  | CallIterMut f => Some (Plain (pool_iter_mut p f))
  | CallUserDataMut id f => Some (Plain (default p (pool_user_data_mut p id f)))
  | CallAppendBlock => let! q := append_block p in Some (Appending q)
  | CallRetractBlocks n => let! (_, q) := retract_blocks p n in Some (Plain q)
  | CallSetValidationResult id block r => let! q := pool_set_validation_result p id block r in Some (Plain q)
  | CallBlockTransaction bytes f =>
      let! (r, q) := block_transaction p bytes in
      Some (Appending match r with
                      | NonIncludedUpdated id => default q (pool_user_data_mut q id f)
                      | Unknown _ => q
                      end)
  | CallVacantInsert bytes new_id user_data => Some (Appending (snd (Vacant_insert p bytes new_id user_data)))
  | CallFinish => Some (Plain (AppendBlock_finish p))
  end.

Inductive pool_run (ok : pool_state -> pool_call -> Prop) (config : PoolConfig) : pool_state -> Prop :=
  | run_new : is_u64 (finalized_block_height config) -> pool_run ok config (Plain (Pool_new config))
  | run_call s c s' : pool_run ok config s -> ok s c -> run_pool_call s c = Some s' -> pool_run ok config s'.

(** The calls that keep the index by height: all but the finalization, the
    retraction, and a transaction of the pool that is found in a block. *)
Definition keeps_heights (s : pool_state) (c : pool_call) : Prop :=
  pool_call_ok s c /\
  match c with
  | CallRemoveIncluded _ | CallRetractBlocks _ => False
  | CallBlockTransaction bytes _ => block_transaction (pool_of s) bytes = Some (Unknown bytes, pool_of s)
  | _ => True
  end.

(** ** The invariant *)

Definition heights_ok (txs : gmap Z Transaction) : Prop :=
  forall id tx h, txs !! id = Some tx -> pt_included_block_height tx = Some h -> 1 <= h < 2 ^ 64.

Record pool_inv p : Prop := {
  pi_ids : forall id, is_Some (pool_transactions p !! id) -> is_usize id;
  pi_hash : forall h id, (h, id) ∈ pool_by_hash p <->
    exists tx, pool_transactions p !! id = Some tx /\ h = blake2_hash (pt_scale_encoded tx);
  (** A transaction stays in the set of those to validate as long as it is in the pool. *)
  pi_unvalidated : forall id, is_Some (pool_transactions p !! id) -> id ∈ not_validated p;
  pi_included : heights_ok (pool_transactions p);
  pi_by_height : forall h id, (h, id) ∈ by_height p -> is_u64 h /\ is_usize id;
  pi_best : is_u64 (best_block_height p)
}.

Definition state_inv (s : pool_state) : Prop :=
  pool_inv (pool_of s) /\ match s with Plain _ => True | Appending p => 1 <= best_block_height p end.

(** The index by height is exact. *)
Definition heights_exact p : Prop :=
  forall h id, (h, id) ∈ by_height p <->
    exists tx, pool_transactions p !! id = Some tx /\ pt_included_block_height tx = Some h.

(** *** Changes that keep the bytes of the transactions *)

Definition same_bytes (txs txs' : gmap Z Transaction) : Prop :=
  forall id, pt_scale_encoded <$> txs' !! id = pt_scale_encoded <$> txs !! id.

Lemma same_bytes_some txs txs' id : same_bytes txs txs' -> is_Some (txs' !! id) <-> is_Some (txs !! id).
Proof. intros Hs. specialize (Hs id). destruct (txs !! id), (txs' !! id); cbn in Hs; split; intros []; done. Qed.

Lemma same_bytes_fmap (f : Transaction -> Transaction) txs :
  (forall tx, pt_scale_encoded (f tx) = pt_scale_encoded tx) -> same_bytes txs (f <$> txs).
Proof. intros Hf id. rewrite lookup_fmap. destruct (txs !! id); cbn; by rewrite ?Hf. Qed.

Lemma same_bytes_insert txs id tx tx' :
  txs !! id = Some tx -> pt_scale_encoded tx' = pt_scale_encoded tx -> same_bytes txs (<[id := tx']> txs).
Proof.
  intros Htx Hb id'. destruct (decide (id' = id)) as [->|Hne].
  - by rewrite lookup_insert_eq, Htx; cbn; rewrite Hb.
  - by rewrite lookup_insert_ne.
Qed.

Lemma same_bytes_trans txs txs' txs'' : same_bytes txs txs' -> same_bytes txs' txs'' -> same_bytes txs txs''.
Proof. intros H1 H2 id. by rewrite H2, H1. Qed.

Lemma pool_inv_update p txs best :
  pool_inv p -> same_bytes (pool_transactions p) txs -> heights_ok txs -> is_u64 best ->
  pool_inv (with_best_height best (with_pool_transactions txs p)).
Proof.
  intros [Hids Hhash Hunv _ Hbh _] Hs Hh Hbest. split; cbn; try done.
  - intros id ?%(same_bytes_some _ _ _ Hs). auto.
  - intros h id. rewrite Hhash. specialize (Hs id).
    destruct (pool_transactions p !! id) as [tx|], (txs !! id) as [tx'|]; cbn in Hs; try done.
    injection Hs as Hs.
    split; intros (? & [= <-] & ->); eexists; (split; [done|by rewrite Hs]).
  - intros id ?%(same_bytes_some _ _ _ Hs). auto.
Qed.

Lemma heights_ok_fmap (f : Transaction -> Transaction) txs :
  (forall tx, pt_included_block_height (f tx) = pt_included_block_height tx) -> heights_ok txs -> heights_ok (f <$> txs).
Proof. intros Hf Hh id tx h. rewrite lookup_fmap_Some. intros (tx' & <- & Htx). rewrite Hf. eauto. Qed.

Lemma heights_ok_insert txs id tx :
  heights_ok txs -> (forall h, pt_included_block_height tx = Some h -> 1 <= h < 2 ^ 64) -> heights_ok (<[id := tx]> txs).
Proof. intros Hh Htx id' tx' h. rewrite lookup_insert_Some. intros [[_ <-]|[_ ?]]; eauto. Qed.

Lemma expire_same best tx :
  pt_scale_encoded (expire best tx) = pt_scale_encoded tx /\
  pt_included_block_height (expire best tx) = pt_included_block_height tx /\
  pt_user_data (expire best tx) = pt_user_data tx.
Proof.
  unfold expire. destruct (pt_included_block_height tx) eqn:E; [done|].
  destruct (pt_validation tx) as [[b [v|e]]|]; try done. by case_if.
Qed.

Lemma cancel_same best tx :
  pt_scale_encoded (cancel best tx) = pt_scale_encoded tx /\
  pt_included_block_height (cancel best tx) = pt_included_block_height tx /\
  pt_user_data (cancel best tx) = pt_user_data tx.
Proof. unfold cancel. destruct (pt_validation tx) as [[b r]|]; [|done]. by case_if. Qed.

Lemma include_at_same best tx :
  pt_scale_encoded (include_at best tx) = pt_scale_encoded tx /\
  pt_included_block_height (include_at best tx) = Some best /\
  pt_user_data (include_at best tx) = pt_user_data tx.
Proof. unfold include_at. cbn. destruct (pt_validation tx) as [[b r]|]; [|done]. by case_if. Qed.

(** *** Insertions and removals *)

Lemma pool_inv_new config : is_u64 (finalized_block_height config) -> pool_inv (Pool_new config).
Proof.
  intros Hb. split; cbn; try done.
  - intros id. rewrite lookup_empty. by intros [].
  - intros h id. rewrite lookup_empty. split; [by intros ?%not_elem_of_empty|by intros (? & ? & _)].
  - intros id. rewrite lookup_empty. by intros [].
Qed.

Lemma pool_inv_add p new_id bytes included user_data :
  pool_inv p -> slab_key p new_id -> (forall h, included = Some h -> 1 <= h < 2 ^ 64) ->
  pool_inv (snd (add_unvalidated_inner p new_id bytes included user_data)).
Proof.
  intros [Hids Hhash Hunv Hinc Hbh Hbest] [Hnew Hu] Hh. split; cbn; try done.
  - intros id. rewrite lookup_insert_is_Some. intros [<-|[_ ?]]; auto.
  - intros h id. rewrite elem_of_union, elem_of_singleton, Hhash. destruct (decide (id = new_id)) as [->|Hne].
    + rewrite lookup_insert_eq, Hnew. split.
      * intros [[= ->]|(? & ? & _)]; [|done]. by eexists.
      * intros (? & [= <-] & ->). by left.
    + rewrite lookup_insert_ne by done. split; [intros [[= -> ->]|?]; done|by right].
  - intros id. rewrite lookup_insert_is_Some. intros [<-|[_ ?]]; set_solver.
  - apply heights_ok_insert; done.
  - intros h id. destruct included as [b|]; [|apply Hbh].
    rewrite elem_of_union, elem_of_singleton. intros [[= -> ->]|?]; [|auto].
    destruct (Hh b eq_refl). split; [|done]. unfold_uint. lia.
Qed.

Lemma remove_one_inv p id user_data p' :
  remove_one p id = Some (user_data, p') ->
  exists tx, pool_transactions p !! id = Some tx /\ user_data = pt_user_data tx /\
    pool_transactions p' = delete id (pool_transactions p) /\ by_height p' = by_height p /\
    best_block_height p' = best_block_height p.
Proof.
  unfold remove_one. destruct (pool_transactions p !! id) as [tx|]; [|done]. intros [= <- <-]. by exists tx.
Qed.

Lemma pool_inv_remove_one p id user_data p' : pool_inv p -> remove_one p id = Some (user_data, p') -> pool_inv p'.
Proof.
  unfold remove_one. intros [Hids Hhash Hunv Hinc Hbh Hbest].
  destruct (pool_transactions p !! id) as [tx|] eqn:Htx; [|done]. intros [= _ <-]. split; cbn; try done.
  - intros id' [? [_ ?]%lookup_delete_Some]. eauto.
  - intros h id'. rewrite elem_of_difference, elem_of_singleton, Hhash. destruct (decide (id' = id)) as [->|Hne].
    + rewrite lookup_delete_eq, Htx. split; [intros [(? & [= <-] & ->) Hn]; done|by intros (? & ? & _)].
    + rewrite lookup_delete_ne by done. split; [by intros [? _]|]. intros Hex. split; [done|]. by intros [= _ ->].
  - intros id' [? [Hne ?]%lookup_delete_Some]. assert (id' ∈ not_validated p) by eauto. case_decide; set_solver.
  - intros id' tx' h [_ ?]%lookup_delete_Some. eauto.
Qed.

(** [remove] is the body of the loop of [remove_included], and it also clears
    the index by height. *)
Lemma pool_remove_one p id :
  pool_remove p id =
    let! (user_data, q) := remove_one p id in
    Some (user_data, mkPool (pool_transactions q) (not_validated q) (pool_by_hash q)
      (match pool_included_block_height p id with Some h => by_height p ∖ {[(h, id)]} | None => by_height p end)
      (best_block_height q)).
Proof. unfold pool_remove, remove_one, pool_included_block_height. by destruct (pool_transactions p !! id). Qed.

Lemma pool_inv_by_height p s :
  pool_inv p -> s ⊆ by_height p ->
  pool_inv (mkPool (pool_transactions p) (not_validated p) (pool_by_hash p) s (best_block_height p)).
Proof. intros [Hids Hhash Hunv Hinc Hbh Hbest] Hs. split; cbn; eauto. Qed.

Lemma pool_inv_remove p id user_data p' : pool_inv p -> pool_remove p id = Some (user_data, p') -> pool_inv p'.
Proof.
  intros Hp. rewrite pool_remove_one. destruct (remove_one p id) as [[ud q]|] eqn:E; [|done]. intros [= _ <-].
  apply pool_inv_by_height; [by eapply pool_inv_remove_one|].
  apply remove_one_inv in E as (tx & _ & _ & _ & -> & _). case_match; set_solver.
Qed.

(** The loop of [remove_included], when it returns. *)
Lemma remove_loop_inv l p out p' :
  remove_loop l p = Some (out, p') -> pool_inv p ->
  pool_inv p' /\ NoDup l /\ by_height p' = by_height p /\ best_block_height p' = best_block_height p /\
  out.*1 = l /\
  (forall id user_data, (id, user_data) ∈ out -> exists tx, pool_transactions p !! id = Some tx /\ user_data = pt_user_data tx) /\
  (forall id, pool_transactions p' !! id = if decide (id ∈ l) then None else pool_transactions p !! id).
Proof.
  revert p out. induction l as [|id l IH]; intros p out; cbn.
  - intros [= <- <-] Hp. split_and!; try done; [by apply NoDup_nil|].
    by intros ? ? ?%elem_of_nil.
  - destruct (remove_one p id) as [[ud q]|] eqn:E; [|done].
    destruct (remove_loop l q) as [[out' q']|] eqn:El; [|done]. intros [= <- <-] Hp.
    destruct (IH _ _ El (pool_inv_remove_one _ _ _ _ Hp E)) as (Hp' & Hnd & Hbh & Hb & Hl & Hout & Htxs).
    apply remove_one_inv in E as (tx & Htx & -> & Hq & Hbq & Hbestq).
    assert (Hid : id ∉ l).
    { intros Hin. assert (exists ud, (id, ud) ∈ out') as (ud & Hud).
      { rewrite <- Hl, list_elem_of_fmap in Hin. destruct Hin as ([? ud] & -> & ?). by exists ud. }
      apply Hout in Hud as (? & Hud & _). by rewrite Hq, lookup_delete_eq in Hud. }
    split_and!; [done|by constructor|congruence|congruence|by cbn; rewrite Hl|..].
    + intros id' ud'. rewrite elem_of_cons. intros [[= -> ->]|Hin]; [by exists tx|].
      apply Hout in Hin as (tx' & Hin & ->). rewrite Hq in Hin. apply lookup_delete_Some in Hin as [_ ?]. by exists tx'.
    + intros id'. rewrite Htxs, Hq. destruct (decide (id' = id)) as [->|Hne].
      * rewrite lookup_delete_eq, (decide_True (P := id ∈ id :: l)) by left. by case_decide.
      * rewrite lookup_delete_ne by done. destruct (decide (id' ∈ l)); [by rewrite decide_True by (by right)|].
        rewrite decide_False; [done|]. by rewrite elem_of_cons; intros [?|?].
Qed.

(** *** Retraction *)

Lemma uninclude_loop_inv l txs txs' :
  uninclude_loop l txs = Some txs' ->
  (forall e, e ∈ l -> is_Some (txs !! fst e)) /\
  forall id, txs' !! id = (if decide (id ∈ l.*1) then set_included None else (fun tx => tx)) <$> txs !! id.
Proof.
  revert txs. induction l as [|[id h] l IH]; intros txs; cbn.
  - intros [= <-]. split; [by intros e ?%elem_of_nil|]. intros id. by rewrite option_fmap_id.
  - destruct (txs !! id) as [tx|] eqn:Htx; [|done]. intros [Hl Htxs]%IH. split.
    + intros e [->|He]%elem_of_cons; [by cbn; rewrite Htx|]. destruct (decide (fst e = id)) as [->|Hne]; [by rewrite Htx|].
      apply Hl in He. by rewrite lookup_insert_ne in He by done.
    + intros id'. rewrite Htxs. destruct (decide (id' = id)) as [->|Hne].
      * rewrite lookup_insert_eq, Htx, (decide_True (P := id ∈ id :: l.*1)) by left. cbn. by case_decide.
      * rewrite lookup_insert_ne by done. f_equal.
        destruct (decide (id' ∈ l.*1)); [by rewrite decide_True by (by right)|].
        rewrite decide_False; [done|]. by rewrite elem_of_cons; intros [?|?].
Qed.

Lemma uninclude_loop_some l txs : (forall e, e ∈ l -> is_Some (txs !! fst e)) -> is_Some (uninclude_loop l txs).
Proof.
  revert txs. induction l as [|[id h] l IH]; intros txs Hl; cbn; [by eexists|].
  destruct (Hl (id, h) (list_elem_of_here _ _)) as [tx Htx]. cbn in Htx. rewrite Htx. apply IH.
  intros e He. destruct (decide (fst e = id)) as [->|Hne]; [by rewrite lookup_insert_eq|].
  rewrite lookup_insert_ne by done. apply Hl. by right.
Qed.

Lemma elem_of_rev_fst {A B} (x : A) (l : list (A * B)) : x ∈ (rev l).*1 <-> x ∈ l.*1.
Proof. rewrite !list_elem_of_fmap. by setoid_rewrite elem_of_rev. Qed.

(** What a retracted transaction becomes. *)
Lemma retract_blocks_inv p n l p' :
  retract_blocks p n = Some (l, p') ->
  let best := best_block_height p - n in
  is_u64 best /\ l = rev ((fun e => (snd e, fst e)) <$> bset_from (wadd 64 best 1, 0) (by_height p)) /\
  (forall e, e ∈ l -> is_Some (pool_transactions p !! fst e)) /\
  exists txs, p' = with_best_height best (with_pool_transactions txs p) /\
    forall id, txs !! id =
      (fun tx => cancel best (if decide (id ∈ l.*1) then set_included None tx else tx)) <$> pool_transactions p !! id.
Proof.
  unfold retract_blocks. destruct (checked_sub 64 (best_block_height p) n) as [best|] eqn:Eb; [|done].
  apply checked_Some in Eb as [-> Hb]. destruct (uninclude_loop _ _) as [txs|] eqn:E; [|done].
  intros [= <- <-]. cbn. apply uninclude_loop_inv in E as [Hl Htxs]. split_and!; [done|done|..].
  - intros e. rewrite elem_of_rev. apply Hl.
  - eexists. split; [done|]. intros id. rewrite lookup_fmap, Htxs. destruct (pool_transactions p !! id) as [tx|]; [|done]. cbn.
    do 2 f_equal. repeat case_decide; try done; by exfalso; rewrite elem_of_rev_fst in *.
Qed.

Lemma pool_inv_retract p n l p' : pool_inv p -> retract_blocks p n = Some (l, p') -> pool_inv p'.
Proof.
  intros Hp E. apply retract_blocks_inv in E as (Hb & _ & _ & txs & -> & Htxs).
  apply pool_inv_update; [done| |..|done].
  - intros id. rewrite Htxs. destruct (pool_transactions p !! id) as [tx|]; cbn; [|done].
    rewrite (proj1 (cancel_same _ _)). by case_decide.
  - intros id tx h. rewrite Htxs. destruct (pool_transactions p !! id) as [tx0|] eqn:E; cbn; [|done].
    intros [= <-]. rewrite (proj1 (proj2 (cancel_same _ _))). case_decide; [done|]. by apply (pi_included _ Hp id).
Qed.

(** *** The validation, the user data, and the blocks *)

Lemma pool_inv_insert p id tx tx' :
  pool_inv p -> pool_transactions p !! id = Some tx -> pt_scale_encoded tx' = pt_scale_encoded tx ->
  (forall h, pt_included_block_height tx' = Some h -> 1 <= h < 2 ^ 64) ->
  pool_inv (with_pool_transactions (<[id := tx']> (pool_transactions p)) p).
Proof.
  intros Hp Htx Hb Hh. apply (pool_inv_update p _ (best_block_height p)); [done|by eapply same_bytes_insert| |apply Hp].
  apply heights_ok_insert; [apply Hp|done].
Qed.

Lemma pool_inv_user_data p id f : pool_inv p -> pool_inv (default p (pool_user_data_mut p id f)).
Proof.
  intros Hp. unfold pool_user_data_mut. destruct (pool_transactions p !! id) as [tx|] eqn:E; [|done].
  apply (pool_inv_insert _ _ tx); try done. intros h Hh. by apply (pi_included _ Hp id tx).
Qed.

Lemma pool_inv_validation p id n r p' : pool_inv p -> pool_set_validation_result p id n r = Some p' -> pool_inv p'.
Proof.
  intros Hp. unfold pool_set_validation_result. destruct (pool_transactions p !! id) as [tx|] eqn:E; [|done].
  case_if; intros [= <-]; [done|]. apply (pool_inv_insert _ _ tx); try done. intros h Hh. by apply (pi_included _ Hp id tx).
Qed.

Lemma append_block_inv p p' :
  append_block p = Some p' ->
  is_u64 (best_block_height p + 1) /\
  p' = with_best_height (best_block_height p + 1)
         (with_pool_transactions (expire (best_block_height p + 1) <$> pool_transactions p) p).
Proof.
  unfold append_block, checked_add. destruct (checked _ _) as [best|] eqn:E; [|done].
  intros [= <-]. by apply checked_Some in E as [-> ?].
Qed.

Lemma pool_inv_append p p' : pool_inv p -> append_block p = Some p' -> pool_inv p' /\ 1 <= best_block_height p'.
Proof.
  intros Hp [Hb ->]%append_block_inv. split; [|cbn; pose proof (pi_best _ Hp); unfold_uint; lia].
  apply pool_inv_update; [done| | |done].
  - apply same_bytes_fmap. intros. apply expire_same.
  - apply heights_ok_fmap; [intros; apply expire_same|apply Hp].
Qed.

(** *** The transactions with the same hash *)

Lemma elem_of_same_hash p h id :
  pool_inv p -> id ∈ same_hash p h <-> exists tx, pool_transactions p !! id = Some tx /\ blake2_hash (pt_scale_encoded tx) = h.
Proof.
  intros Hp. unfold same_hash. rewrite list_elem_of_fmap. split.
  - intros ([h' id'] & -> & [Hr Hin]%elem_of_bset_range). cbn. apply (pi_hash _ Hp) in Hin as (tx & Htx & ->).
    exists tx. split; [done|]. destruct Hr as [[H1 _] [H2 _]]. cbn in H1, H2. lia.
  - intros (tx & Htx & <-). exists (blake2_hash (pt_scale_encoded tx), id). split; [done|].
    apply elem_of_bset_range. split; [|apply (pi_hash _ Hp); by exists tx].
    pose proof (pi_ids _ Hp id (mk_is_Some _ _ Htx)) as Hid. unfold is_uint in Hid.
    unfold usize_max. split; (split; [cbn; lia|intros _; cbn; lia]).
Qed.

Lemma same_hash_sorted p h : StronglySorted Z.lt (same_hash p h).
Proof.
  unfold same_hash, bset_range.
  pose proof (StronglySorted_filter key_le (fun k => key_le (h, 0) k /\ key_le k (h, usize_max)) _ (bset_iter_sorted (pool_by_hash p))) as Hs.
  pose proof (NoDup_filter (fun k => key_le (h, 0) k /\ key_le k (h, usize_max)) _ (bset_iter_NoDup (pool_by_hash p))) as Hnd.
  assert (Hh : Forall (fun e => fst e = h) (filter (fun k => key_le (h, 0) k /\ key_le k (h, usize_max)) (bset_iter (pool_by_hash p)))).
  { apply Forall_forall. intros e [[[H1 _] [H2 _]] _]%list_elem_of_filter. cbn in H1, H2. lia. }
  induction Hs as [|[h1 id1] l Hl IH Hx]; cbn; [constructor|].
  apply NoDup_cons in Hnd as [Hn Hnd]. apply Forall_cons in Hh as [Hh1 Hh]. cbn in Hh1. subst h1.
  constructor; [by apply IH|]. apply Forall_fmap, Forall_forall. intros [h2 id2] Hin. cbn.
  rewrite Forall_forall in Hx, Hh. specialize (Hx _ Hin). specialize (Hh _ Hin). cbn in Hh. subst h2.
  destruct Hx as [_ Hx]. specialize (Hx eq_refl). cbn in Hx.
  enough (id1 <> id2) by lia. by intros ->.
Qed.

(** The first transaction with the hash that no block has. *)
Lemma find_non_included_spec p ids :
  (forall id, id ∈ ids -> is_Some (pool_transactions p !! id)) -> StronglySorted Z.lt ids ->
  exists r, find_non_included p ids = Some r /\
  match r with
  | Some id => id ∈ ids /\ (exists tx, pool_transactions p !! id = Some tx /\ pt_included_block_height tx = None) /\
      forall id' tx', id' ∈ ids -> pool_transactions p !! id' = Some tx' -> pt_included_block_height tx' = None -> id <= id'
  | None => forall id tx, id ∈ ids -> pool_transactions p !! id = Some tx -> pt_included_block_height tx <> None
  end.
Proof.
  intros Hs. induction 1 as [|id ids Hl IH Hx]; cbn.
  - exists None. split; [done|]. by intros ? ? ?%elem_of_nil.
  - destruct (Hs id (list_elem_of_here _ _)) as [tx Htx]. rewrite Htx.
    destruct (pt_included_block_height tx) as [h|] eqn:Eh.
    + destruct IH as (r & -> & Hr); [intros; apply Hs; by right|]. exists r. split; [done|]. destruct r as [r|].
      * destruct Hr as (Hin & Hex & Hmin). split; [by right|]. split; [done|]. intros id' tx' [->|?]%elem_of_cons; [congruence|eauto].
      * intros id' tx' [->|?]%elem_of_cons; [congruence|eauto].
    + exists (Some id). split; [done|]. split; [left|]. split; [by exists tx|].
      intros id' tx' [->|Hin]%elem_of_cons _ _; [lia|]. rewrite Forall_forall in Hx. specialize (Hx _ Hin). lia.
Qed.

Lemma block_transaction_cases p bytes :
  pool_inv p ->
  match block_transaction p bytes with
  | Some (NonIncludedUpdated id, p') =>
      exists tx, pool_transactions p !! id = Some tx /\ blake2_hash (pt_scale_encoded tx) = blake2_hash bytes /\
        pt_included_block_height tx = None /\
        p' = with_pool_transactions (<[id := include_at (best_block_height p) tx]> (pool_transactions p)) p /\
        forall id' tx', pool_transactions p !! id' = Some tx' -> blake2_hash (pt_scale_encoded tx') = blake2_hash bytes ->
          pt_included_block_height tx' = None -> id <= id'
  | Some (Unknown bytes', p') =>
      bytes' = bytes /\ p' = p /\
      forall id tx, pool_transactions p !! id = Some tx -> blake2_hash (pt_scale_encoded tx) = blake2_hash bytes ->
        pt_included_block_height tx <> None
  | None => False
  end.
Proof.
  intros Hp. unfold block_transaction.
  destruct (find_non_included_spec p (same_hash p (blake2_hash bytes))) as (r & -> & Hr).
  - intros id (tx & Htx & _)%(elem_of_same_hash _ _ _ Hp). by exists tx.
  - apply same_hash_sorted.
  - destruct r as [id|].
    + destruct Hr as (Hin & (tx & Htx & Hi) & Hmin). rewrite Htx. exists tx.
      apply (elem_of_same_hash _ _ _ Hp) in Hin as (tx' & Htx' & Hh). rewrite Htx in Htx'. injection Htx' as <-.
      split_and!; try done. intros id' tx' Ht' Hh' Hi'. apply (Hmin id' tx'); [|done|done].
      apply (elem_of_same_hash _ _ _ Hp). by exists tx'.
    + split_and!; [done|done|]. intros id tx Htx Hh. apply (Hr id tx); [|done].
      apply (elem_of_same_hash _ _ _ Hp). by exists tx.
Qed.

(** ** The invariant holds in every run *)

Lemma state_inv_call s c s' : state_inv s -> pool_call_ok s c -> run_pool_call s c = Some s' -> state_inv s'.
Proof.
  intros [Hp Hb] Hok Hrun. destruct s as [p|p]; destruct c; cbn in *; try done.
  - injection Hrun as <-. split; [|done]. by apply pool_inv_add.
  - destruct (pool_remove p id) as [[ud q]|] eqn:E; [|done]. injection Hrun as <-. split; [|done]. by eapply pool_inv_remove.
  - destruct (pool_remove_included p n) as [[out q]|] eqn:E; [|done]. injection Hrun as <-. split; [|done].
    by apply remove_loop_inv in E as [? _].
  - injection Hrun as <-. split; [|done]. apply (pool_inv_update p _ (best_block_height p)); [done| | |apply Hp].
    + by apply same_bytes_fmap.
    + apply heights_ok_fmap; [done|apply Hp].
  - injection Hrun as <-. split; [|done]. by apply pool_inv_user_data.
  - destruct (append_block p) as [q|] eqn:E; [|done]. injection Hrun as <-. by apply (pool_inv_append p).
  - destruct (retract_blocks p n) as [[l q]|] eqn:E; [|done]. injection Hrun as <-. split; [|done]. by eapply pool_inv_retract.
  - destruct (pool_set_validation_result p id block r) as [q|] eqn:E; [|done]. injection Hrun as <-. split; [|done].
    by eapply pool_inv_validation.
  - pose proof (block_transaction_cases p bytes Hp) as Hc.
    destruct (block_transaction p bytes) as [[[b|id] q]|]; [| |done]; injection Hrun as <-.
    + by destruct Hc as (_ & -> & _).
    + destruct Hc as (tx & Htx & _ & _ & -> & _). assert (Hq : pool_inv (with_pool_transactions (<[id := include_at (best_block_height p) tx]> (pool_transactions p)) p)).
      { apply (pool_inv_insert _ _ tx); [done|done|apply include_at_same|]. rewrite (proj1 (proj2 (include_at_same _ _))).
        intros h [= <-]. pose proof (pi_best _ Hp). unfold_uint. lia. }
      split; cbn; [by apply pool_inv_user_data|]. unfold pool_user_data_mut. cbn. by rewrite lookup_insert_eq.
  - injection Hrun as <-. destruct Hok as [Hk _]. split; [|done]. apply pool_inv_add; [done|done|].
    intros h [= <-]. pose proof (pi_best _ Hp). unfold_uint. lia.
  - by injection Hrun as <-.
Qed.

Lemma pool_run_mono (ok ok' : pool_state -> pool_call -> Prop) config s :
  (forall s c, ok s c -> ok' s c) -> pool_run ok config s -> pool_run ok' config s.
Proof. intros Hok. induction 1 as [Hc|s c s' _ IH Hc Hrun]; [by constructor|]. eapply run_call; eauto. Qed.

Lemma pool_run_inv ok config s :
  (forall s c, ok s c -> pool_call_ok s c) -> pool_run ok config s -> state_inv s.
Proof.
  intros Hok. induction 1 as [Hc|s c s' _ IH Hc Hrun]; [split; [by apply pool_inv_new|done]|].
  by eapply state_inv_call; eauto.
Qed.

(** ** The index by height *)

Lemma heights_exact_update p txs best :
  heights_exact p ->
  (forall id, pt_included_block_height <$> txs !! id = pt_included_block_height <$> pool_transactions p !! id) ->
  heights_exact (with_best_height best (with_pool_transactions txs p)).
Proof.
  intros Hx Hs h id. cbn. rewrite (Hx h id). specialize (Hs id).
  destruct (pool_transactions p !! id) as [tx|], (txs !! id) as [tx'|]; cbn in Hs; try done.
  injection Hs as Hs. split; intros (? & [= <-] & ?); eexists; (split; [done|congruence]).
Qed.

Lemma heights_exact_insert p id tx tx' :
  heights_exact p -> pool_transactions p !! id = Some tx -> pt_included_block_height tx' = pt_included_block_height tx ->
  heights_exact (with_pool_transactions (<[id := tx']> (pool_transactions p)) p).
Proof.
  intros Hx Htx Hi. apply (heights_exact_update p (<[id := tx']> (pool_transactions p)) (best_block_height p)); [done|]. intros id'.
  destruct (decide (id' = id)) as [->|Hne]; [by rewrite lookup_insert_eq, Htx; cbn; rewrite Hi|by rewrite lookup_insert_ne].
Qed.

Lemma heights_exact_fmap p (f : Transaction -> Transaction) best :
  heights_exact p -> (forall tx, pt_included_block_height (f tx) = pt_included_block_height tx) ->
  heights_exact (with_best_height best (with_pool_transactions (f <$> pool_transactions p) p)).
Proof.
  intros Hx Hf. apply heights_exact_update; [done|]. intros id. rewrite lookup_fmap.
  destruct (pool_transactions p !! id); cbn; by rewrite ?Hf.
Qed.

Lemma heights_exact_add p new_id bytes included user_data :
  heights_exact p -> pool_transactions p !! new_id = None ->
  heights_exact (snd (add_unvalidated_inner p new_id bytes included user_data)).
Proof.
  intros Hx Hnew h id. cbn.
  assert (E : (h, id) ∈ match included with Some b => {[(b, new_id)]} ∪ by_height p | None => by_height p end <->
    (id = new_id /\ included = Some h) \/ (h, id) ∈ by_height p).
  { destruct included as [b|]; [|naive_solver]. rewrite elem_of_union, elem_of_singleton. naive_solver. }
  rewrite E, (Hx h id). destruct (decide (id = new_id)) as [->|Hne].
  - rewrite lookup_insert_eq, Hnew. naive_solver.
  - rewrite lookup_insert_ne by done. naive_solver.
Qed.

Lemma heights_exact_remove p id user_data p' : heights_exact p -> pool_remove p id = Some (user_data, p') -> heights_exact p'.
Proof.
  unfold pool_remove. intros Hx. destruct (pool_transactions p !! id) as [tx|] eqn:Htx; [|done]. intros [= _ <-] h id'. cbn.
  assert (E : (h, id') ∈ match pt_included_block_height tx with Some b => by_height p ∖ {[(b, id)]} | None => by_height p end <->
    (h, id') ∈ by_height p /\ ~ (id' = id /\ pt_included_block_height tx = Some h)).
  { destruct (pt_included_block_height tx) as [b|]; [|naive_solver]. rewrite elem_of_difference, elem_of_singleton. naive_solver. }
  rewrite E, (Hx h id'). destruct (decide (id' = id)) as [->|Hne].
  - rewrite lookup_delete_eq, Htx. naive_solver.
  - rewrite lookup_delete_ne by done. naive_solver.
Qed.

Lemma heights_exact_call s c s' :
  state_inv s -> heights_exact (pool_of s) -> keeps_heights s c -> run_pool_call s c = Some s' -> heights_exact (pool_of s').
Proof.
  intros [Hp _] Hx [Hok Hk] Hrun. destruct s as [p|p]; destruct c; cbn in *; try done.
  - injection Hrun as <-. by apply heights_exact_add; [|apply Hok].
  - destruct (pool_remove p id) as [[ud q]|] eqn:E; [|done]. injection Hrun as <-. by eapply heights_exact_remove.
  - injection Hrun as <-. by apply (heights_exact_fmap p _ (best_block_height p)).
  - injection Hrun as <-. unfold pool_user_data_mut. cbn. destruct (pool_transactions p !! id) as [tx|] eqn:E; [|done].
    by eapply heights_exact_insert.
  - destruct (append_block p) as [q|] eqn:E; [|done]. injection Hrun as <-. apply append_block_inv in E as [_ ->]. cbn.
    apply heights_exact_fmap; [done|]. intros. apply expire_same.
  - unfold pool_set_validation_result in Hrun. destruct (pool_transactions p !! id) as [tx|] eqn:E; [|done].
    destruct (from_option _ _ _); injection Hrun as <-; [done|]. by eapply heights_exact_insert.
  - rewrite Hk in Hrun. by injection Hrun as <-.
  - injection Hrun as <-. by apply heights_exact_add; [|apply Hok].
  - by injection Hrun as <-.
Qed.

Lemma heights_exact_run config s : pool_run keeps_heights config s -> state_inv s /\ heights_exact (pool_of s).
Proof.
  assert (Hok : forall s c, keeps_heights s c -> pool_call_ok s c) by (by intros ? ? [? _]).
  induction 1 as [Hc|s c s' Hr [IHi IHx] Hc Hrun].
  - split; [by split; [apply pool_inv_new|]|]. intros h id. cbn. rewrite lookup_empty.
    split; [by intros ?%not_elem_of_empty|by intros (? & ? & _)].
  - split; [by eapply state_inv_call; eauto|by eapply heights_exact_call].
Qed.

(** *** The transactions that a finalization removes *)

(** The keys of the index up to a height. *)
Definition up_to p (n : u64) : list TransactionId := snd <$> bset_range (0, 0) (n, usize_max) (by_height p).

Lemma elem_of_up_to p n id : pool_inv p -> id ∈ up_to p n <-> exists h, h <= n /\ (h, id) ∈ by_height p.
Proof.
  intros Hp. unfold up_to. rewrite list_elem_of_fmap. split.
  - intros ([h id'] & -> & [[_ [Hr _]] Hin]%elem_of_bset_range). cbn in *. eauto.
  - intros (h & Hh & Hin). exists (h, id). split; [done|]. apply elem_of_bset_range. split; [|done].
    destruct (pi_by_height _ Hp _ _ Hin) as [Hu Hid]. unfold is_uint in Hu, Hid. unfold usize_max.
    split; (split; [cbn; lia|intros _; cbn; lia]).
Qed.

Lemma up_to_NoDup p n : heights_exact p -> NoDup (up_to p n).
Proof.
  intros Hx. unfold up_to. apply NoDup_fmap_2_strong.
  - intros [h1 i1] [h2 i2] [_ H1]%elem_of_bset_range [_ H2]%elem_of_bset_range Heq. cbn in Heq. subst i2.
    apply Hx in H1 as (tx & Htx & H1). apply Hx in H2 as (tx' & Htx' & H2). congruence.
  - apply NoDup_filter, bset_iter_NoDup.
Qed.

Lemma remove_loop_some l p :
  NoDup l -> (forall id, id ∈ l -> is_Some (pool_transactions p !! id)) -> is_Some (remove_loop l p).
Proof.
  intros Hnd. revert p. induction Hnd as [|id l Hid Hnd IH]; intros p Hs; cbn; [by eexists|].
  unfold remove_one. destruct (Hs id (list_elem_of_here _ _)) as [tx ->].
  match goal with |- context [remove_loop l ?q] => destruct (IH q) as [[out q'] ->]; [|by eexists] end.
  intros id' Hin. cbn. rewrite lookup_delete_ne by (intros ->; done). apply Hs. by right.
Qed.

(** A key of the index that is not in the pool makes the loop panic. *)
Lemma remove_loop_panics l p id : id ∈ l -> pool_transactions p !! id = None -> pool_inv p -> remove_loop l p = None.
Proof.
  intros Hin Hn Hp. destruct (remove_loop l p) as [[out p']|] eqn:E; [|done]. exfalso.
  apply remove_loop_inv in E as (_ & _ & _ & _ & Hl & Hout & _); [|done].
  rewrite <- Hl, list_elem_of_fmap in Hin. destruct Hin as ([? ud] & -> & Hin).
  apply Hout in Hin as (tx & Htx & _). cbn in Hn. congruence.
Qed.

(** ** The theorems *)

(** C22: in every run, the search for the bytes of a transaction returns the
    transactions of the pool whose bytes have the same hash, all of them and in
    increasing order, and adding a transaction to the block being appended does not panic:
    it finds the first of these that no block has and marks it as included in the best
    block, or reports that there is none. *)
Theorem pool_find_spec config s bytes :
  pool_run pool_call_ok config s ->
  let p := pool_of s in
  let has_hash tx := blake2_hash (pt_scale_encoded tx) = blake2_hash bytes in
  StronglySorted Z.lt (pool_find p bytes) /\
  (forall id, id ∈ pool_find p bytes <-> exists tx, pool_transactions p !! id = Some tx /\ has_hash tx) /\
  match block_transaction p bytes with
  | Some (NonIncludedUpdated id, p') =>
      exists tx, pool_transactions p !! id = Some tx /\ has_hash tx /\ pt_included_block_height tx = None /\
        p' = with_pool_transactions (<[id := include_at (best_block_height p) tx]> (pool_transactions p)) p /\
        forall id' tx', pool_transactions p !! id' = Some tx' -> has_hash tx' -> pt_included_block_height tx' = None -> id <= id'
  | Some (Unknown bytes', p') =>
      bytes' = bytes /\ p' = p /\
      forall id tx, pool_transactions p !! id = Some tx -> has_hash tx -> pt_included_block_height tx <> None
  | None => False
  end.
Proof.
  intros [Hp _]%(pool_run_inv _ _ _ (fun _ _ H => H)). cbn. split_and!.
  - apply same_hash_sorted.
  - intros id. by apply elem_of_same_hash.
  - by apply block_transaction_cases.
Qed.

(** The listing returns when its set has transactions of the pool only. *)
Lemma unvalidated_returns p :
  pool_inv p ->
  is_Some (pool_unvalidated_transactions p) <-> (forall id, id ∈ not_validated p -> is_Some (pool_transactions p !! id)).
Proof.
  intros Hp. unfold pool_unvalidated_transactions. rewrite mapM_is_Some, Forall_forall.
  setoid_rewrite elem_of_elements. split; intros Hs id Hid; specialize (Hs id Hid).
  - cbn in Hs. destruct (pool_transactions p !! id); [by eexists|]. by destruct Hs.
  - cbn. destruct Hs as [tx Htx]. rewrite Htx. unfold validation_height.
    destruct (pt_included_block_height tx) as [n|] eqn:En; [|by eexists].
    pose proof (pi_included _ Hp _ _ _ Htx En). unfold checked_sub. rewrite checked_small by (unfold_uint; lia). by eexists.
Qed.

Lemma unvalidated_ids p l : pool_unvalidated_transactions p = Some l -> (l.*1).*1 = elements (not_validated p).
Proof.
  intros El%mapM_Some. induction El as [|id e ids l He _ IH]; [done|]. cbn. rewrite IH. f_equal.
  destruct (pool_transactions p !! id); [|done]. destruct (validation_height _ _); [|done]. by injection He as <-.
Qed.

Lemma unvalidated_values p l id user_data height :
  pool_unvalidated_transactions p = Some l -> (id, user_data, height) ∈ l ->
  exists tx, pool_transactions p !! id = Some tx /\ user_data = pt_user_data tx /\
    height = match pt_included_block_height tx with Some n => n - 1 | None => best_block_height p end.
Proof.
  intros El%mapM_Some. induction El as [|id' e ids l He _ IH]; [by intros ?%elem_of_nil|].
  intros [<-|?]%elem_of_cons; [|auto]. destruct (pool_transactions p !! id') as [tx|] eqn:Etx; [|done].
  unfold validation_height in He. destruct (pt_included_block_height tx) as [n|] eqn:En.
  - destruct (checked_sub 64 n 1) as [h|] eqn:Eh; [|done]. apply checked_Some in Eh as [-> _].
    injection He as -> <- <-. exists tx. by rewrite En.
  - injection He as -> <- <-. exists tx. by rewrite En.
Qed.

(** In every run, the list of the transactions to validate has every transaction
    of the pool, the validated ones too, once each, with the height of the block before the
    one that has it, or else of the best block. And removing a transaction that has
    been validated leaves its identifier in the list: the next time it is asked for,
    the pool panics. *)
Theorem pool_unvalidated_spec config s :
  pool_run pool_call_ok config s ->
  let p := pool_of s in
  (forall l, pool_unvalidated_transactions p = Some l ->
    NoDup (l.*1).*1 /\
    forall id user_data height, (id, user_data, height) ∈ l <->
      exists tx, pool_transactions p !! id = Some tx /\ user_data = pt_user_data tx /\
        height = match pt_included_block_height tx with Some n => n - 1 | None => best_block_height p end) /\
  (forall id tx, pool_transactions p !! id = Some tx -> pt_validation tx <> None ->
    exists p', pool_remove p id = Some (pt_user_data tx, p') /\ pool_unvalidated_transactions p' = None).
Proof.
  intros [Hp _]%(pool_run_inv _ _ _ (fun _ _ H => H)). cbn. split.
  - intros l El. pose proof (unvalidated_ids _ _ El) as Hids. pose proof (fun id ud h => unvalidated_values _ _ id ud h El) as Hval.
    split; [rewrite Hids; apply NoDup_elements|]. intros id ud height. split; [apply Hval|].
    intros (tx & Htx & -> & ->). assert (Hin : id ∈ (l.*1).*1).
    { rewrite Hids. apply elem_of_elements, (pi_unvalidated _ Hp). by rewrite Htx. }
    apply list_elem_of_fmap in Hin as ([id' ud] & -> & Hin). apply list_elem_of_fmap in Hin as ([[id1 ud1] height] & [= -> ->] & Hin).
    cbn in Htx. destruct (Hval _ _ _ Hin) as (tx' & Htx' & -> & ->). rewrite Htx in Htx'. by injection Htx' as <-.
  - intros id tx Htx Hv. destruct (pool_remove (pool_of s) id) as [[ud p']|] eqn:E; [|by unfold pool_remove in E; rewrite Htx in E].
    exists p'. pose proof (pool_inv_remove _ _ _ _ Hp E) as Hp'. unfold pool_remove in E. rewrite Htx, decide_False in E by done.
    injection E as <- <-. split; [done|]. rewrite eq_None_not_Some, unvalidated_returns by done. cbn. intros Hs.
    destruct (Hs id) as [? Hd]; [by apply (pi_unvalidated _ Hp); rewrite Htx|]. by rewrite lookup_delete_eq in Hd.
Qed.

(** As long as nothing was finalized or retracted and no transaction of the
    pool was found in a block, finalizing a height removes exactly the transactions included
    up to that height and returns them. But their heights stay in the index: if there
    was any, the next finalization of the same or a higher block panics. *)
Theorem pool_remove_included_spec config p n :
  pool_run keeps_heights config (Plain p) ->
  exists out p', pool_remove_included p n = Some (out, p') /\ NoDup out.*1 /\
    (forall id user_data, (id, user_data) ∈ out <-> exists tx h, pool_transactions p !! id = Some tx /\
      pt_included_block_height tx = Some h /\ h <= n /\ user_data = pt_user_data tx) /\
    (forall id tx, pool_transactions p' !! id = Some tx <-> pool_transactions p !! id = Some tx /\
      forall h, pt_included_block_height tx = Some h -> n < h) /\
    (forall m, n <= m -> out <> [] -> pool_remove_included p' m = None).
Proof.
  intros [[Hp _] Hx]%heights_exact_run. cbn in Hp, Hx.
  assert (Hin : forall id, id ∈ up_to p n <-> exists tx h, pool_transactions p !! id = Some tx /\ pt_included_block_height tx = Some h /\ h <= n).
  { intros id. rewrite elem_of_up_to by done. unfold heights_exact in Hx. setoid_rewrite Hx. naive_solver. }
  destruct (remove_loop_some (up_to p n) p) as [[out p'] E]; [by apply up_to_NoDup|by intros id (tx & h & -> & _)%Hin|].
  exists out, p'. split; [done|].
  destruct (remove_loop_inv _ _ _ _ E Hp) as (Hp' & Hnd & Hbh & _ & Hl & Hout & Htxs).
  split_and!.
  - by rewrite Hl.
  - intros id ud. split.
    + intros Hi. destruct (Hout _ _ Hi) as (tx & Htx & ->).
      assert (id ∈ up_to p n) as (tx' & h & Htx' & Hh & Hle)%Hin by (rewrite <- Hl; apply list_elem_of_fmap; by exists (id, pt_user_data tx)).
      rewrite Htx in Htx'. injection Htx' as <-. by exists tx, h.
    + intros (tx & h & Htx & Hh & Hle & ->). assert (Hi : id ∈ out.*1) by (rewrite Hl; apply Hin; eauto).
      apply list_elem_of_fmap in Hi as ([id' ud] & -> & Hi). destruct (Hout _ _ Hi) as (tx' & Htx' & ->). cbn in *. congruence.
  - intros id tx. rewrite Htxs. case_decide as Hd.
    + apply Hin in Hd as (tx' & h & Htx' & Hh & Hle). split; [done|]. intros [Htx Hall].
      rewrite Htx in Htx'. injection Htx' as <-. apply Hall in Hh. lia.
    + split; [|by intros [? _]]. intros Htx. split; [done|]. intros h Hh. apply Z.nle_gt. intros Hle. apply Hd, Hin. eauto.
  - intros m Hm Hne. destruct out as [|[id ud] out]; [done|]. cbn in Hl.
    assert (Hi : id ∈ up_to p n) by (rewrite <- Hl; left).
    apply (remove_loop_panics _ _ id); [|by rewrite Htxs, decide_True|done]. change (id ∈ up_to p' m).
    apply elem_of_up_to in Hi as (h & Hle & Hi); [|done]. apply elem_of_up_to; [done|]. exists h. rewrite Hbh. split; [lia|done].
Qed.

Lemma elem_of_bset_from `{KeyOrder K, Countable K} (lo : K) (s : gset K) k : k ∈ bset_from lo s <-> key_le lo k /\ k ∈ s.
Proof. unfold bset_from. by rewrite list_elem_of_filter, elem_of_bset_iter. Qed.

(** The transactions above a height, from the highest block to the lowest. *)
Lemma above_sorted p lo :
  StronglySorted (fun a b => snd b <= snd a) (rev ((fun e : Z * Z => (snd e, fst e)) <$> bset_from lo (by_height p))).
Proof.
  unfold bset_from. pose proof (StronglySorted_filter key_le (fun k => key_le lo k) _ (bset_iter_sorted (by_height p))) as Hs.
  induction Hs as [|[h id] l Hl IH Hx]; cbn; [constructor|].
  apply StronglySorted_app_2; [|done|by repeat constructor].
  intros a b Ha Hb. apply elem_of_rev, list_elem_of_fmap in Ha as ([h' id'] & -> & Ha).
  apply list_elem_of_singleton in Hb as ->. cbn. rewrite Forall_forall in Hx. destruct (Hx _ Ha) as [Hle _]. exact Hle.
Qed.

(** As long as nothing was finalized or retracted and no transaction of the
    pool was found in a block, retracting blocks panics exactly when it goes below the
    height 0; otherwise it returns the transactions that the retracted blocks have, from
    the highest block to the lowest, these are no longer included in any
    block, and the validations against retracted blocks are cancelled. *)
Theorem pool_retract_spec config p n :
  pool_run keeps_heights config (Plain p) -> best_block_height p < 2 ^ 64 - 1 -> is_u64 n ->
  let best := best_block_height p - n in
  (retract_blocks p n = None <-> best < 0) /\
  forall l p', retract_blocks p n = Some (l, p') ->
    best_block_height p' = best /\ StronglySorted (fun a b => snd b <= snd a) l /\
    (forall id h, (id, h) ∈ l <-> exists tx, pool_transactions p !! id = Some tx /\ pt_included_block_height tx = Some h /\ best < h) /\
    forall id, pool_transactions p' !! id = (fun tx =>
      cancel best match pt_included_block_height tx with
                  | Some h => if best <? h then set_included None tx else tx
                  | None => tx
                  end) <$> pool_transactions p !! id.
Proof.
  intros [[Hp _] Hx]%heights_exact_run Hmax Hn. cbn in Hp, Hx |- *. pose proof (pi_best _ Hp) as Hb.
  assert (Hl : forall id h, (id, h) ∈ ((fun e : Z * Z => (snd e, fst e)) <$> bset_from (wadd 64 (best_block_height p - n) 1, 0) (by_height p)) <->
    wadd 64 (best_block_height p - n) 1 <= h /\ exists tx, pool_transactions p !! id = Some tx /\ pt_included_block_height tx = Some h).
  { intros id h. rewrite list_elem_of_fmap. split.
    - intros ([h' id'] & [= -> ->] & [[Hle _] Hin]%elem_of_bset_from). split; [exact Hle|by apply Hx].
    - intros [Hle Hin%Hx]. exists (h, id). split; [done|]. apply elem_of_bset_from. split; [|done].
      destruct (pi_by_height _ Hp _ _ Hin) as [_ Hid]. unfold is_uint in Hid. split; [exact Hle|intros _; cbn; lia]. }
  assert (Hw : 0 <= best_block_height p - n -> wadd 64 (best_block_height p - n) 1 = best_block_height p - n + 1).
  { intros. unfold wadd. apply wrap_small. unfold_uint. lia. }
  split.
  - unfold retract_blocks, checked_sub. destruct (checked 64 (best_block_height p - n)) as [b|] eqn:E.
    + apply checked_Some in E as [-> Hu]. split; [|unfold_uint; lia]. intros Hnone. exfalso.
      destruct (uninclude_loop_some ((fun e : Z * Z => (snd e, fst e)) <$> bset_from (wadd 64 (best_block_height p - n) 1, 0) (by_height p))
        (pool_transactions p)) as [txs Etxs]; [|by rewrite Etxs in Hnone].
      intros [id h] (_ & tx & Htx & _)%Hl. by exists tx.
    + apply checked_None in E. unfold_uint. split; [lia|done].
  - intros l p' E. apply retract_blocks_inv in E as (Hu & -> & _ & txs & -> & Htxs). rewrite Hw in * by (unfold_uint; lia). cbn.
    split; [done|]. split; [apply above_sorted|].
    assert (Hl' : forall id h, (id, h) ∈ rev ((fun e : Z * Z => (snd e, fst e)) <$> bset_from (best_block_height p - n + 1, 0) (by_height p)) <->
      exists tx, pool_transactions p !! id = Some tx /\ pt_included_block_height tx = Some h /\ best_block_height p - n < h).
    { intros id h. rewrite elem_of_rev, Hl. split; [intros (? & tx & ? & ?)|intros (tx & ? & ? & ?)].
      - exists tx. split_and!; [done|done|lia].
      - split; [lia|by exists tx]. }
    split; [exact Hl'|]. intros id. rewrite Htxs. destruct (pool_transactions p !! id) as [tx|] eqn:Etx; [|done]. cbn. do 2 f_equal.
    case_decide as Hd.
    + apply list_elem_of_fmap in Hd as ([id' h] & -> & (tx' & Htx' & Hh & Hlt)%Hl'). cbn in Etx. rewrite Etx in Htx'.
      injection Htx' as <-. by rewrite Hh, (proj2 (Z.ltb_lt _ _) Hlt).
    + destruct (pt_included_block_height tx) as [h|] eqn:Hh; [|done]. case_if; bool_to_prop; [|done].
      destruct Hd. apply list_elem_of_fmap. exists (id, h). split; [done|]. apply Hl'. by exists tx.
Qed.
End spec.

(** ** Examples *)

Module Example.
#[local] Existing Instance platform64.
#[local] Existing Instance toy_blake2b.

Abbreviation call := (pool_call (TTx := unit) (TErr := unit)) (only parsing).
Abbreviation state := (pool_state (TTx := unit) (TErr := unit)) (only parsing).

Definition config : PoolConfig := mkPoolConfig 16 0.
Definition start : state := Plain (Pool_new config).

(** A call that does not panic. *)
Definition after (s : state) (c : call) : state := default s (run_pool_call s c).

Definition runs (s : state) (calls : list call) : state := foldl after s calls.

Lemma run_after ok s c :
  pool_run ok config s -> ok s c -> is_Some (run_pool_call s c) -> pool_run ok config (after s c).
Proof. intros Hr Hok [s' E]. unfold after. rewrite E. by eapply run_call. Qed.

Definition valid : result unit ValidTransaction := Ok (mkValidTransaction 0 [] [] 64 true).

(** Two transactions in the pool, the second one validated, and a third one in a
    block. *)
Definition sample_calls : list call :=
  [CallAddUnvalidated 0 [7] tt; CallAddUnvalidated 1 [8] tt; CallSetValidationResult 1 0 valid;
   CallAppendBlock; CallBlockTransaction [9] id; CallVacantInsert [9] 2 tt; CallFinish].

Definition sample : state := runs start sample_calls.

Lemma sample_run : pool_run keeps_heights config sample.
Proof.
  unfold sample, runs, sample_calls. cbn [foldl].
  do 7 (apply run_after; [|split; vm_compute; intuition congruence|vm_compute; eexists; reflexivity]). by constructor.
Qed.

Lemma sample_reach : pool_run pool_call_ok config sample.
Proof. apply (pool_run_mono keeps_heights); [by intros ? ? [? _]|exact sample_run]. Qed.

Lemma pool_find_spec_witness :
  pool_run pool_call_ok config sample /\ pool_find (pool_of sample) [8] = [1] /\ 1 ∈ pool_find (pool_of sample) [8].
Proof.
  split; [exact sample_reach|]. split; [by vm_compute|].
  destruct (pool_find_spec config sample [8] sample_reach) as (_ & Hf & _).
  apply Hf. eexists. split; [by vm_compute|done].
Defined.

Lemma pool_unvalidated_spec_witness :
  pool_run pool_call_ok config sample /\
  (exists l, pool_unvalidated_transactions (pool_of sample) = Some l /\ (1, tt, 1) ∈ l) /\
  exists p', pool_remove (pool_of sample) 1 = Some (tt, p') /\ pool_unvalidated_transactions p' = None.
Proof.
  assert (Htx : pool_transactions (pool_of sample) !! 1 = Some (mkPoolTransaction [8] (Some (0, valid)) None tt)) by (by vm_compute).
  destruct (pool_unvalidated_spec config sample sample_reach) as [Hl Hremove].
  split; [exact sample_reach|]. split; [|by destruct (Hremove 1 _ Htx) as (p' & E & Hp'); [discriminate|exists p'; exact (conj E Hp')]].
  destruct (pool_unvalidated_transactions (pool_of sample)) as [l|] eqn:E; [|by vm_compute in E].
  exists l. split; [done|]. apply (Hl l eq_refl). eexists. split; [exact Htx|]. split; [reflexivity|by vm_compute].
Defined.

Lemma pool_remove_included_spec_witness :
  exists p', pool_remove_included (pool_of sample) 1 = Some ([(2, tt)], p') /\ pool_remove_included p' 2 = None.
Proof.
  destruct (pool_remove_included_spec config (pool_of sample) 1 sample_run) as (out & p' & E & _ & _ & _ & Hnext).
  exists p'. assert (out = [(2, tt)]) as ->.
  { assert (Hf : fst <$> pool_remove_included (pool_of sample) 1 = Some [(2, tt)]) by (by vm_compute).
    rewrite E in Hf. by injection Hf. }
  split; [exact E|]. by apply Hnext.
Defined.

Lemma pool_retract_spec_witness :
  pool_run keeps_heights config sample /\ is_Some (retract_blocks (pool_of sample) 1) /\ retract_blocks (pool_of sample) 2 = None.
Proof.
  split; [exact sample_run|].
  split; [by vm_compute; eexists|].
  assert (Hn : is_u64 2) by (unfold_uint; lia).
  assert (Hb : best_block_height (pool_of sample) < 2 ^ 64 - 1) by (vm_compute; reflexivity).
  destruct (pool_retract_spec config (pool_of sample) 2 sample_run Hb Hn) as [Hnone _]. exact (proj2 Hnone eq_refl).
Defined.

(** Two sequences of calls that the documentation of the pool allows. A
    transaction of a block that is then retracted is removed by the finalization of
    another block of the same height, although no block has it any more. A transaction of
    the pool that is found in a block is neither removed when this block is finalized nor
    released when it is retracted. *)
Theorem pool_inclusion_errors :
  (let s := runs start [CallAppendBlock; CallBlockTransaction [7] id; CallVacantInsert [7] 0 tt; CallFinish;
      CallRetractBlocks 1; CallAppendBlock; CallFinish] in
   pool_run pool_call_ok config s /\ pool_included_block_height (pool_of s) 0 = None /\
   fst <$> pool_remove_included (pool_of s) 1 = Some [(0, tt)]) /\
  (let s := runs start [CallAddUnvalidated 0 [7] tt; CallAppendBlock; CallBlockTransaction [7] id; CallFinish] in
   pool_run pool_call_ok config s /\ pool_included_block_height (pool_of s) 0 = Some 1 /\
   fst <$> pool_remove_included (pool_of s) 1 = Some [] /\
   fst <$> retract_blocks (pool_of s) 1 = Some [] /\
   pool_included_block_height (pool_of (after s (CallRetractBlocks 1))) 0 = Some 1 /\
   best_block_height (pool_of (after s (CallRetractBlocks 1))) = 0).
Proof.
  split; cbv zeta; (split; [|by vm_compute]); unfold runs; cbn [foldl].
  - do 7 (apply run_after; [|by vm_compute|by vm_compute; eexists]). by constructor.
  - do 4 (apply run_after; [|by vm_compute|by vm_compute; eexists]). by constructor.
Qed.
End Example.
