(* ===== verification/FinalityBase.v ===== *)
(** * What the parts of the finality share ([src/src/finality])

    Combinators of the nom crate that repeat a parser or keep what it read, the
    Ed25519 signatures, the message that an authority signs, and the number of
    signatures that a proof of finality needs. *)

From S2P Require Import Prelude Leb128 Scale HeaderBase HeaderGrandpa.

Open Scope Z_scope.

(** ** Parsers *)

(** An error of nom. Its code, which is only printed, is not kept. *)
Inductive NomError := mkNomError.

(** A parser returns the rest of the input and a value, or an error; [None] is a
    panic of a function that it calls. *)
Definition parser (A : Type) : Type := list u8 -> outcome NomError (list u8 * A).

Definition nom_result {A} (o : option A) : outcome NomError A := Some (ok_or o mkNomError).

(** [nom::bytes::complete::take] and [nom::number::complete::le_u64]. *)
Definition take_bytes `{Nom} (n : nat) : parser (list u8) := fun bytes => nom_result (nom_take n bytes).
Definition le_bytes `{Nom} (n : nat) : parser Z := fun bytes => nom_result (nom_le n bytes).

(** [nom::multi::many_m_n(num, num, parser)], of which
    [fold_many_m_n(num, num, parser, || {}, |(), _| ())] drops the values, and
    [nom::combinator::recognize], with what is documented of them: the parser is
    applied [num] times, and one that succeeds without reading anything is an
    error; [recognize] returns the consumed input. *)
Class NomMulti := {
  nom_many_m_n : forall {A : Type}, Z -> parser A -> parser (list A);
  nom_recognize : forall {A : Type}, parser A -> parser (list u8)
}.

Class NomMultiLaws `{NomMulti} : Prop := {
  nom_many_zero : forall A (p : parser A) bytes, nom_many_m_n 0 p bytes = Some (Ok (bytes, []));
  nom_many_step : forall A num (p : parser A) bytes, 0 < num ->
    nom_many_m_n num p bytes =
      (let* (rest, a) := p bytes in
       if Nat.eqb (length rest) (length bytes) then Some (Err mkNomError)
       else
         let* (rest, l) := nom_many_m_n (num - 1) p rest in
         Some (Ok (rest, a :: l)));
  nom_recognize_spec : forall A (p : parser A) bytes,
    nom_recognize p bytes =
      (let* (rest, _) := p bytes in
       Some (Ok (rest, take (length bytes - length rest) bytes)))
}.

(** An instance. *)
Fixpoint many_times {A} (n : nat) (p : parser A) (bytes : list u8) : outcome NomError (list u8 * list A) :=
  match n with
  | O => Some (Ok (bytes, []))
  | S n =>
      let* (rest, a) := p bytes in
      if Nat.eqb (length rest) (length bytes) then Some (Err mkNomError)
      else
        let* (rest, l) := many_times n p rest in
        Some (Ok (rest, a :: l))
  end.

Definition nom_multi : NomMulti := {|
  nom_many_m_n := fun A num p => many_times (Z.to_nat num) p;
  nom_recognize := fun A p bytes =>
    let* (rest, _) := p bytes in
    Some (Ok (rest, take (length bytes - length rest) bytes))
|}.

Lemma nom_multi_laws : NomMultiLaws (H := nom_multi).
Proof.
  split; [done| |done]. intros A num p bytes Hnum. cbn [nom_many_m_n nom_multi].
  replace (Z.to_nat num) with (S (Z.to_nat (num - 1))) by lia. done.
Qed.

(** [nom_varsize_number_decode_u64] of [src/src/util.rs]. *)
Definition nom_varsize_number_decode_u64 `{Nom} (num_bytes : usize) : parser u64 := fun bytes =>
  let* (rest, slice) := take_bytes (Z.to_nat num_bytes) bytes in
  let* v := nom_result (varsize_number_decode_u64 num_bytes slice) in
  Some (Ok (rest, v)).

Definition nom_usize `{Platform} : parser usize := fun bytes =>
  nom_result (match nom_scale_compact_usize bytes with Ok x => Some x | Err _ => None end).

(** ** Signatures *)

(** [ed25519_zebra]: the verification of a signature of a message by a public
    key, and of a batch of them. *)
Class Ed25519 := {
  ed25519_verify : list u8 -> list u8 -> list u8 -> bool;
  batch_verify : list (list u8 * list u8 * list u8) -> bool
}.

(** The verification of a batch succeeds if every item of it is valid. *)
Class Ed25519Laws `{Ed25519} : Prop := {
  batch_verify_spec : forall items,
    batch_verify items = forallb (fun '(key, signature, msg) => ed25519_verify key signature msg) items
}.

(** A toy instance: a signature starts with the key. *)
Definition toy_ed25519 : Ed25519 := {|
  ed25519_verify := fun key signature msg => bool_decide (take 32 signature = key);
  batch_verify := forallb (fun '(key, signature, msg) => bool_decide (take 32 signature = key))
|}.

Lemma toy_ed25519_laws : Ed25519Laws (H := toy_ed25519).
Proof. split. done. Qed.

(** ** The message *)

(** The little-endian block number, cut to [block_number_bytes] bytes or padded. *)
Definition number_bytes (block_number_bytes : usize) (number : u64) : list u8 :=
  take (Z.to_nat (Z.min 8 block_number_bytes)) (to_le_bytes 8 number)
    ++ replicate (Z.to_nat (saturating_sub block_number_bytes 8)) 0.

(** What an authority signs: [1], the block, the round and the identifier of the
    set of authorities. *)
Definition precommit_message (block_number_bytes : usize) (target_hash : list u8) (target_number round set_id : u64)
    : list u8 :=
  [1] ++ target_hash ++ number_bytes block_number_bytes target_number ++ to_le_bytes 8 round ++ to_le_bytes 8 set_id.

(** [(authorities * 2 / 3) + 1]. *)
Definition threshold `{Platform} (authorities : usize) : usize :=
  wadd usize_bits (wmul usize_bits authorities 2 / 3) 1.

(** ** Facts *)

Section facts.
Context `{Platform} `{Nom} `{!NomLaws} `{NomMulti} `{!NomMultiLaws}.

Lemma threshold_small n : 0 <= n -> 2 * n < 2 ^ usize_bits -> threshold n = 2 * n / 3 + 1.
Proof.
  intros Hn Hb. unfold threshold, wadd, wmul. rewrite (wrap_small _ (n * 2)) by (unfold is_uint; lia).
  rewrite (Z.mul_comm n 2). assert (2 * n / 3 <= 2 * n) by (apply Z.div_le_upper_bound; lia).
  assert (0 <= 2 * n / 3) by (apply Z.div_pos; lia).
  rewrite wrap_small; [done|]. unfold is_uint. split; [lia|].
  assert (2 <= 2 ^ usize_bits) by (destruct usize_bits_spec as [-> | ->]; by vm_compute).
  destruct (decide (n = 0)) as [->|]; [change (2 * 0 / 3) with 0; lia|].
  assert (2 * n / 3 < 2 * n) by (apply Z.div_lt_upper_bound; lia). lia.
Qed.

(** As many votes as the threshold are more than two thirds. *)
Lemma quorum_iff n m : 0 <= n -> 2 * n < 2 ^ usize_bits -> threshold n <= m <-> 2 * n < 3 * m.
Proof. intros Hn Hs. rewrite threshold_small by done. pose proof (Z.div_mod (2 * n) 3). pose proof (Z.mod_pos_bound (2 * n) 3). lia. Qed.

(** [p] applied one time after the other. *)
Inductive parses {A} (p : parser A) : list u8 -> list A -> list u8 -> Prop :=
  | parses_nil bytes : parses p bytes [] bytes
  | parses_cons bytes a rest l rest' :
      p bytes = Some (Ok (rest, a)) -> (length rest < length bytes)%nat -> parses p rest l rest' ->
      parses p bytes (a :: l) rest'.

(** A parser that reads at least one byte, and sees nothing after what it reads. *)
Definition local_parser {A B} (same : A -> B) (p : parser A) : Prop :=
  forall bytes rest a, is_bytes bytes -> p bytes = Some (Ok (rest, a)) ->
    exists pre, bytes = pre ++ rest /\ pre <> [] /\
      forall rest', is_bytes rest' -> exists a', p (pre ++ rest') = Some (Ok (rest', a')) /\ same a' = same a.

Lemma local_rest {A B} (same : A -> B) (p : parser A) bytes rest a :
  local_parser same p -> is_bytes bytes -> p bytes = Some (Ok (rest, a)) ->
  is_bytes rest /\ (length rest < length bytes)%nat.
Proof.
  intros Hloc Hb Hp. destruct (Hloc _ _ _ Hb Hp) as (pre & -> & Hne & _). split; [by apply Forall_app in Hb as [_ ?]|].
  rewrite length_app. destruct pre; [done|]. cbn. lia.
Qed.

Lemma many_parses {A B} (same : A -> B) (p : parser A) num bytes rest l :
  local_parser same p -> 0 <= num -> is_bytes bytes ->
  nom_many_m_n num p bytes = Some (Ok (rest, l)) <-> parses p bytes l rest /\ len l = num.
Proof.
  intros Hloc Hnum. revert bytes l. pattern num. apply natlike_ind; [| |done]; clear num Hnum.
  - intros bytes l _. rewrite nom_many_zero. split.
    + intros [= <- <-]. split; [constructor|done].
    + intros [Hp Hl]. destruct Hp; [done|]. rewrite len_cons in Hl. pose proof (len_nonneg l). lia.
  - intros num Hnum IH bytes l Hb. rewrite nom_many_step by lia. replace (Z.succ num - 1) with num by lia. split.
    + destruct (p bytes) as [[[r a]|]|] eqn:Ep; [|done..]. cbn [outcome_bind].
      destruct (local_rest _ _ _ _ _ Hloc Hb Ep) as [Hr Hlt].
      destruct (Nat.eqb_spec (length r) (length bytes)) as [|Hne]; [done|].
      destruct (nom_many_m_n num p r) as [[[r2 l2]|]|] eqn:Er; [|done..]. cbn [outcome_bind]. intros [= <- <-].
      apply IH in Er as [Hp Hl]; [|done]. rewrite len_cons. split; [|lia]. by econstructor.
    + intros [Hp Hl]. destruct Hp as [|bytes a r l rest Ep Hlt Hp]; [rewrite len_nil in Hl; lia|].
      destruct (local_rest _ _ _ _ _ Hloc Hb Ep) as [Hr _]. rewrite len_cons in Hl. rewrite Ep. cbn [outcome_bind].
      destruct (Nat.eqb_spec (length r) (length bytes)) as [|Hne]; [lia|].
      assert (Hm : nom_many_m_n num p r = Some (Ok (rest, l))) by (apply IH; [done|]; split; [done|lia]).
      by rewrite Hm.
Qed.

(** What [recognize] returns is what the parser has read, and the parser reads the
    same values there. *)
Lemma parses_local {A B} (same : A -> B) (p : parser A) bytes l rest :
  local_parser same p -> is_bytes bytes -> parses p bytes l rest ->
  exists pre, bytes = pre ++ rest /\
    forall rest', is_bytes rest' -> exists l', parses p (pre ++ rest') l' rest' /\ map same l' = map same l.
Proof.
  intros Hloc Hb Hp. induction Hp as [bytes|bytes a r l rest Ep Hlt Hp IH].
  - exists []. split; [done|]. intros rest' _. exists []. split; [constructor|done].
  - destruct (local_rest _ _ _ _ _ Hloc Hb Ep) as [Hr _]. destruct (IH Hr) as (pre & -> & IHp).
    destruct (Hloc _ _ _ Hb Ep) as (pre0 & -> & Hne & Hp0). exists (pre0 ++ pre). split; [by rewrite app_assoc|].
    apply Forall_app in Hr as [Hpre _].
    intros rest' Hr'. destruct (IHp rest' Hr') as (l' & Hl' & Hsame).
    destruct (Hp0 (pre ++ rest')) as (a' & Ha & Hsa); [by apply Forall_app|].
    exists (a' :: l'). rewrite <- app_assoc. split; [|cbn; by rewrite Hsa, Hsame].
    econstructor; [done| |done]. rewrite !length_app. destruct pre0; [done|]. cbn. lia.
Qed.

Lemma recognize_many {A B} (same : A -> B) (p : parser A) num bytes rest data :
  local_parser same p -> 0 <= num -> is_bytes bytes ->
  nom_recognize (nom_many_m_n num p) bytes = Some (Ok (rest, data)) ->
  bytes = data ++ rest /\ exists l, parses p bytes l rest /\ len l = num /\
    exists l', parses p data l' [] /\ map same l' = map same l.
Proof.
  intros Hloc Hnum Hb. rewrite nom_recognize_spec.
  destruct (nom_many_m_n num p bytes) as [[[r l]|]|] eqn:E; [|done..]. cbn [outcome_bind]. intros [= <- <-].
  apply (many_parses same) in E as [Hp Hl]; [|done..].
  destruct (parses_local same p bytes l r Hloc Hb Hp) as (pre & -> & Hpre).
  rewrite length_app, Nat.add_sub, take_app_length. split; [done|]. exists l. split; [done|]. split; [done|].
  destruct (Hpre [] ltac:(constructor)) as (l' & Hl' & Hsame). rewrite app_nil_r in Hl'. eauto.
Qed.

Lemma recognize_read {A B} (same : A -> B) (p : parser A) data rest l :
  local_parser same p -> is_bytes (data ++ rest) -> parses p (data ++ rest) l rest ->
  nom_recognize (nom_many_m_n (len l) p) (data ++ rest) = Some (Ok (rest, data)).
Proof.
  intros Hloc Hb Hp. rewrite nom_recognize_spec.
  assert (Hm : nom_many_m_n (len l) p (data ++ rest) = Some (Ok (rest, l))).
  { apply (many_parses same); [done|apply len_nonneg|done|done]. }
  rewrite Hm. cbn [outcome_bind]. by rewrite length_app, Nat.add_sub, take_app_length.
Qed.

(** *** Block numbers *)

Lemma take_to_le_bytes c m w : (c <= m)%nat -> take c (to_le_bytes m w) = to_le_bytes c w.
Proof.
  revert c w. induction m as [|m IH]; intros [|c] w Hc; [done|lia|done|]. cbn [to_le_bytes take]. f_equal. apply IH. lia.
Qed.

Lemma number_bytes_length bnb n : 0 <= bnb -> length (number_bytes bnb n) = Z.to_nat bnb.
Proof.
  intros Hb. unfold number_bytes, saturating_sub. rewrite length_app, length_replicate, length_take, length_to_le_bytes. lia.
Qed.

Lemma number_bytes_bytes bnb n : is_bytes (number_bytes bnb n).
Proof.
  unfold number_bytes. apply Forall_app. split; [apply Forall_take, to_le_bytes_bytes|].
  apply Forall_replicate. unfold_uint. lia.
Qed.

(** The values of a block number of [bnb] bytes. *)
Definition number_ok (bnb : usize) (n : u64) : Prop := 0 <= n < 2 ^ (8 * Z.min 8 bnb).

Lemma varsize_slice_iff bnb (s : list u8) v :
  0 <= bnb -> length s = Z.to_nat bnb -> is_bytes s ->
  varsize_number_decode_u64 bnb s = Some v <-> number_ok bnb v /\ s = number_bytes bnb v.
Proof.
  intros Hb Hs Hsb. set (c := Z.to_nat (Z.min 8 bnb)). assert (Hc : Z.of_nat c = Z.min 8 bnb) by lia.
  unfold varsize_number_decode_u64. fold c.
  assert (Hlow : from_le_bytes (take c s ++ replicate (8 - c) 0) = from_le_bytes (take c s)).
  { rewrite from_le_bytes_app, (from_le_bytes_zero (replicate _ 0)) by (apply Forall_replicate; done). lia. }
  rewrite Hlow. assert (Hlt : length (take c s) = c) by (rewrite length_take; lia).
  pose proof (from_le_bytes_bound (take c s) ltac:(by apply Forall_take)) as Hbound. unfold len in Hbound. rewrite Hlt, Hc in Hbound.
  assert (Hnum : forall w, take c (to_le_bytes 8 w) = to_le_bytes c w) by (intros w; apply take_to_le_bytes; lia).
  split.
  - destruct (existsb _ (drop c s)) eqn:Ex; [done|]. intros [= <-]. split; [done|].
    unfold number_bytes. fold c. rewrite Hnum.
    replace (to_le_bytes c (from_le_bytes (take c s))) with (take c s).
    2: { rewrite <- Hlt at 2. by rewrite to_from_le_bytes by (by apply Forall_take). }
    rewrite <- (take_drop c s) at 1. f_equal.
    assert (Hz : Forall (eq 0) (drop c s)).
    { apply Forall_forall. intros b Hin. destruct (Z.eqb_spec b 0) as [->|Hne]; [done|]. exfalso.
      apply not_true_iff_false in Ex. apply Ex. apply existsb_exists. exists b. split; [by apply list_elem_of_In|].
      by apply negb_true_iff, Z.eqb_neq. }
    symmetry. apply replicate_as_Forall_2; [|exact Hz]. rewrite length_drop. unfold saturating_sub. lia.
  - intros [Hv ->]. unfold number_bytes. fold c. rewrite Hnum.
    rewrite drop_app_length', take_app_length' by (by rewrite length_to_le_bytes).
    assert (Ex : existsb (fun b => negb (b =? 0)) (replicate (Z.to_nat (saturating_sub bnb 8)) 0) = false).
    { generalize (Z.to_nat (saturating_sub bnb 8)). induction n; [done|]. cbn. done. }
    rewrite Ex. f_equal. rewrite from_to_le_bytes; [done|]. rewrite Hc. exact Hv.
Qed.

Lemma varsize_iff bnb bytes rest v :
  0 <= bnb -> is_bytes bytes ->
  nom_varsize_number_decode_u64 bnb bytes = Some (Ok (rest, v)) <->
  number_ok bnb v /\ bytes = number_bytes bnb v ++ rest.
Proof.
  intros Hb Hbytes. unfold nom_varsize_number_decode_u64, take_bytes, nom_result. rewrite nom_take_spec.
  pose proof (fun s => varsize_slice_iff bnb s v Hb) as Hsplit.
  destruct (Nat.leb_spec (Z.to_nat bnb) (length bytes)) as [Hle|Hle]; cbn [ok_or outcome_bind].
  - specialize (Hsplit (take (Z.to_nat bnb) bytes) ltac:(rewrite length_take; lia) ltac:(by apply Forall_take)).
    split.
    + destruct (varsize_number_decode_u64 bnb (take (Z.to_nat bnb) bytes)) as [w|] eqn:Ew; [|done]. cbn [ok_or outcome_bind].
      intros [= <- ->]. destruct (proj1 Hsplit eq_refl) as [Hok Hs]. split; [done|]. by rewrite <- Hs, take_drop.
    + intros [Hok E]. assert (Hs : take (Z.to_nat bnb) bytes = number_bytes bnb v).
      { rewrite E. apply take_app_length'. by rewrite number_bytes_length. }
      rewrite (proj2 Hsplit) by done. cbn [ok_or outcome_bind]. do 3 f_equal. rewrite E.
      apply drop_app_length'. by rewrite number_bytes_length.
  - split; [done|]. intros [_ E]. apply (f_equal length) in E. rewrite length_app, number_bytes_length in E by done. lia.
Qed.

Lemma is_bytes_app_r (a b : list u8) : is_bytes (a ++ b) -> is_bytes b.
Proof. by intros [_ ?]%Forall_app. Qed.

Lemma nom_usize_inv bytes rest v :
  is_bytes bytes -> nom_usize bytes = Some (Ok (rest, v)) ->
  is_usize v /\ is_bytes rest /\ nom_scale_compact_usize bytes = Ok (rest, v).
Proof.
  intros Hb. unfold nom_usize, nom_result. destruct (nom_scale_compact_usize bytes) as [[r w]|] eqn:E; [|done].
  cbn. intros [= <- <-]. destruct (usize_decode_inv _ _ _ Hb E) as (? & ? & _). done.
Qed.

Lemma nom_usize_encode v rest :
  is_usize v -> nom_usize (encode_scale_compact_usize v ++ rest) = Some (Ok (rest, v)).
Proof. intros Hv. unfold nom_usize. by rewrite usize_decode_encode. Qed.

(** *** Codecs *)

(** [codec p ok enc]: [p] reads exactly the encodings [enc a] of the values [ok a],
    and leaves what follows. *)
Definition codec {A} (p : parser A) (ok : A -> Prop) (enc : A -> list u8) : Prop :=
  forall bytes rest a, is_bytes bytes ->
    p bytes = Some (Ok (rest, a)) <-> ok a /\ bytes = enc a ++ rest.

(** The parser does not panic. *)
Definition total {A} (p : parser A) : Prop := forall bytes, p bytes <> None.

Lemma codec_take n : codec (take_bytes n) (is_array n) (fun a => a).
Proof.
  intros bytes rest a Hb. unfold take_bytes, le_bytes, nom_result. split.
  - destruct (nom_take n bytes) as [[r a']|] eqn:E; [|done]. cbn. intros [= -> ->].
    apply nom_take_inv in E as [-> Hl]. apply Forall_app in Hb as [Ha _]. done.
  - intros [Ha ->]. by rewrite nom_take_array.
Qed.

Lemma codec_le n :
  codec (le_bytes n) (is_uint (8 * Z.of_nat n)) (to_le_bytes n).
Proof.
  intros bytes rest a Hb. unfold take_bytes, le_bytes, nom_result. split.
  - destruct (nom_le n bytes) as [[r a']|] eqn:E; [|done]. cbn. intros [= -> ->]. by apply nom_le_inv in E.
  - intros [Ha ->]. by rewrite nom_le_encode.
Qed.

Lemma codec_varsize bnb : 0 <= bnb -> codec (nom_varsize_number_decode_u64 bnb) (number_ok bnb) (number_bytes bnb).
Proof. intros Hb bytes rest a. by apply varsize_iff. Qed.

Lemma take_read n a rest : is_array n a -> take_bytes n (a ++ rest) = Some (Ok (rest, a)).
Proof. intros Ha. unfold take_bytes. by rewrite nom_take_array. Qed.

Lemma le_read n v rest : is_uint (8 * Z.of_nat n) v -> le_bytes n (to_le_bytes n v ++ rest) = Some (Ok (rest, v)).
Proof. intros Hv. unfold le_bytes. by rewrite nom_le_encode. Qed.

Lemma varsize_read bnb v rest :
  0 <= bnb -> number_ok bnb v -> nom_varsize_number_decode_u64 bnb (number_bytes bnb v ++ rest) = Some (Ok (rest, v)).
Proof.
  intros Hb Hv. unfold nom_varsize_number_decode_u64. rewrite take_read.
  - cbn [outcome_bind]. unfold nom_result.
    by rewrite (proj2 (varsize_slice_iff bnb _ v Hb (number_bytes_length _ _ Hb) (number_bytes_bytes _ _))).
  - split; [by apply number_bytes_length|apply number_bytes_bytes].
Qed.

(** A parser after another: what was read, and a value that is read. *)
Lemma codec_bind {A B} (p : parser A) ok enc (f : list u8 -> A -> outcome NomError (list u8 * B)) bytes rest b :
  (let* (r, a) := p bytes in f r a) = Some (Ok (rest, b)) -> codec p ok enc -> is_bytes bytes ->
  exists a r, ok a /\ bytes = enc a ++ r /\ is_bytes r /\ f r a = Some (Ok (rest, b)).
Proof.
  intros Hf Hc Hb. destruct (p bytes) as [[[r a]|]|] eqn:E; [|done..]. cbn [outcome_bind] in Hf.
  apply Hc in E as [Hok ->]; [|done]. exists a, r. split_and!; try done. by apply is_bytes_app_r in Hb.
Qed.

Lemma codec_read {A} (p : parser A) ok enc a rest :
  codec p ok enc -> ok a -> is_bytes (enc a ++ rest) -> p (enc a ++ rest) = Some (Ok (rest, a)).
Proof. intros Hc Hok Hb. by apply Hc. Qed.

Lemma codec_local {A} (p : parser A) ok enc :
  codec p ok enc -> (forall a, ok a -> enc a <> []) -> (forall a, ok a -> is_bytes (enc a)) -> local_parser id p.
Proof.
  intros Hc Hne Hbytes bytes rest a Hb Hp. apply Hc in Hp as [Hok ->]; [|done]. exists (enc a). split_and!; [done|by apply Hne|].
  intros rest' Hr. exists a. split; [|done]. apply Hc; [|done]. apply Forall_app. split; [by apply Hbytes|done].
Qed.

Lemma codec_parses {A} (p : parser A) ok enc bytes l rest :
  codec p ok enc -> (forall a, ok a -> enc a <> []) -> is_bytes bytes ->
  parses p bytes l rest <-> Forall ok l /\ bytes = concat (map enc l) ++ rest.
Proof.
  intros Hc Hne. revert bytes. induction l as [|a l IH]; intros bytes Hb.
  - split; [intros Hp; inversion Hp; by subst|]. intros [_ ->]. constructor.
  - split.
    + intros Hp. inversion Hp as [|? ? r ? ? Ha _ Hl]; subst. apply Hc in Ha as [Hok ->]; [|done].
      apply IH in Hl as [Hall ->]; [|by apply is_bytes_app_r in Hb]. split; [by constructor|]. cbn. by rewrite <- app_assoc.
    + intros [[Hok Hall]%Forall_cons ->]. cbn [map concat] in *. rewrite <- app_assoc in *.
      econstructor; [by apply Hc| |apply IH; [by apply is_bytes_app_r in Hb|done]].
      rewrite (length_app (enc a)). specialize (Hne a Hok).
      destruct (enc a); [done|]. cbn [length]. lia.
Qed.

Lemma codec_many {A} (p : parser A) ok enc num bytes rest l :
  codec p ok enc -> (forall a, ok a -> enc a <> []) -> (forall a, ok a -> is_bytes (enc a)) ->
  0 <= num -> is_bytes bytes ->
  nom_many_m_n num p bytes = Some (Ok (rest, l)) <->
  Forall ok l /\ len l = num /\ bytes = concat (map enc l) ++ rest.
Proof.
  intros Hc Hne Hbytes Hnum Hb. rewrite (many_parses id) by (done || by eapply codec_local).
  rewrite (codec_parses p ok enc) by done. tauto.
Qed.

Lemma many_total {A} (p : parser A) num : total p -> 0 <= num -> total (nom_many_m_n num p).
Proof.
  intros Ht Hnum. pattern num. apply natlike_ind; [| |done]; clear num Hnum.
  - intros bytes. by rewrite nom_many_zero.
  - intros num Hnum IH bytes. rewrite nom_many_step by lia. replace (Z.succ num - 1) with num by lia.
    specialize (Ht bytes). destruct (p bytes) as [[[r a]|]|]; [|done..]. cbn [outcome_bind]. case_match; [done|].
    specialize (IH r). destruct (nom_many_m_n num p r) as [[[r2 l]|]|]; done.
Qed.

(** The bytes that are read as the length [n]. *)
Definition compact_len (n : usize) (pre : list u8) : Prop :=
  is_usize n /\ is_bytes pre /\ pre <> [] /\ forall rest, nom_usize (pre ++ rest) = Some (Ok (rest, n)).

Lemma compact_len_iff bytes rest n :
  is_bytes bytes ->
  nom_usize bytes = Some (Ok (rest, n)) <-> exists pre, compact_len n pre /\ bytes = pre ++ rest.
Proof.
  intros Hb. split.
  - intros Hn. apply nom_usize_inv in Hn as (Hu & Hr & Hn); [|done].
    unfold nom_scale_compact_usize in Hn. destruct (nom_scale_compact_local _ _ _ _ Hn) as (pre & -> & Hne & Hloc).
    exists pre. split; [|done]. apply Forall_app in Hb as [Hpre _]. split_and!; [done..|].
    intros rest'. unfold nom_usize, nom_scale_compact_usize. by rewrite Hloc.
  - intros (pre & (_ & _ & _ & Hloc) & ->). apply Hloc.
Qed.

Lemma compact_len_encode n : is_usize n -> compact_len n (encode_scale_compact_usize n).
Proof.
  intros Hn. pose proof (nom_usize_encode n [] Hn) as Hd. rewrite app_nil_r in Hd.
  assert (Hb : is_bytes (encode_scale_compact_usize n)).
  { apply encode_scale_compact_bytes. unfold is_uint in *.
    destruct usize_bits_spec as [E|E]; rewrite E in Hn; rewrite pow2_64; rewrite ?pow2_32, ?pow2_64 in Hn; lia. }
  split_and!; [done|done| |intros rest; by apply nom_usize_encode].
  intros E. rewrite E in Hd. done.
Qed.

Lemma take_bytes_total n : total (take_bytes n).
Proof. done. Qed.

Lemma le_bytes_total n : total (le_bytes n).
Proof. done. Qed.

(** A parser after another that does not panic. *)
Lemma total_bind {A B} (p : parser A) (f : list u8 -> A -> outcome NomError B) bytes :
  total p -> (forall r a, f r a <> None) -> (let* (r, a) := p bytes in f r a) <> None.
Proof. intros Hp Hf. specialize (Hp bytes). destruct (p bytes) as [[[r a]|]|]; [apply Hf|done..]. Qed.

Lemma usize_total : total nom_usize.
Proof. intros bytes. unfold nom_usize, nom_result. done. Qed.

Lemma varsize_total bnb : total (nom_varsize_number_decode_u64 bnb).
Proof.
  intros bytes. unfold nom_varsize_number_decode_u64, take_bytes, nom_result.
  destruct (nom_take _ bytes) as [[r s]|]; [|done]. cbn. by destruct (varsize_number_decode_u64 bnb s).
Qed.

End facts.

(** [read_step H]: the first parser of the sequence of parsers that [H] says has
    succeeded. *)
Create HintDb codec.
Create Rewrite HintDb codec.
#[export] Hint Resolve codec_take codec_le codec_varsize : codec.
Ltac read_step H :=
  let a := fresh "a" in let r := fresh "r" in let Hok := fresh "Hok" in let Hr := fresh "Hr" in
  eapply codec_bind in H; [|eauto with codec|assumption]; destruct H as (a & r & Hok & -> & Hr & H); cbn beta in *.

(** [read_all]: the parsers of a sequence, on the encodings of values. *)
#[export] Hint Rewrite @take_read @le_read @varsize_read using (solve [assumption | apply _ | done]) : codec.
Ltac read_all := repeat (autorewrite with codec; cbn [outcome_bind]).

(** [never_panics]: the parsers of a sequence do not panic. *)
#[export] Hint Resolve take_bytes_total le_bytes_total usize_total varsize_total : codec.
Ltac never_panics := repeat (apply total_bind; [solve [eauto with codec]|intros ? ?; cbn beta]); done.
