(* ===== verification/Justification.v ===== *)
(** * Justifications ([src/src/finality/justification/decode.rs])

    A justification is a list of signed votes (precommits) for a block or its
    descendants, with the headers between the block and the blocks voted for. A
    decoded justification keeps the encoded votes and headers, and its iterators
    decode them again. *)

From S2P Require Import Prelude Leb128 Scale Nibble TrieNode HeaderBase HeaderAura HeaderBabe HeaderGrandpa Header HeaderDigest HeaderCodec FinalityBase.

Open Scope Z_scope.

(** ** Data *)

Definition PRECOMMIT_ENCODED_LEN : usize := 32 + 4 + 64 + 32.

(** [PrecommitRef] and [Precommit]: the conversions between them copy the fields. *)
Record Precommit := mkPrecommit {
  pc_target_hash : list u8;
  pc_target_number : u64;
  pc_signature : list u8;
  pc_authority_public_key : list u8
}.

#[export] Instance Precommit_eq_dec : EqDecision Precommit.
Proof. solve_decision. Defined.

(** [PrecommitsRefInner]. *)
Inductive PrecommitsRef :=
  | PrecommitsUndecoded (data : list u8) (block_number_bytes : usize)
  | PrecommitsDecoded (l : list Precommit).

(** [PrecommitsRefIterInner]. *)
Inductive PrecommitsRefIter :=
  | PrecommitsIterDecoded (l : list Precommit)
  | PrecommitsIterUndecoded (block_number_bytes remaining_len : usize) (pointer : list u8).

Record VotesAncestriesIter := mkVotesAncestriesIter { va_slice : list u8; va_num : usize }.

Record GrandpaJustificationRef := mkGrandpaJustificationRef {
  jr_round : u64;
  jr_target_hash : list u8;
  jr_target_number : u64;
  jr_precommits : PrecommitsRef;
  jr_votes_ancestries : VotesAncestriesIter
}.

Record GrandpaJustification := mkGrandpaJustification {
  gj_round : u64;
  gj_target_hash : list u8;
  gj_target_number : u64;
  gj_precommits : list Precommit
}.

Section justification.
Context `{Platform} `{Nom} `{NomMulti}.

(** ** Parsers *)

Definition precommit (block_number_bytes : usize) : parser Precommit := fun bytes =>
  let* (bytes, target_hash) := take_bytes 32 bytes in
  let* (bytes, target_number) := nom_varsize_number_decode_u64 block_number_bytes bytes in
  let* (bytes, signature) := take_bytes 64 bytes in
  let* (bytes, authority_public_key) := take_bytes 32 bytes in
  Some (Ok (bytes, mkPrecommit target_hash target_number signature authority_public_key)).

Definition precommits (block_number_bytes : usize) : parser PrecommitsRef := fun bytes =>
  let* (bytes, num_elems) := nom_usize bytes in
  let* (bytes, data) := nom_recognize (nom_many_m_n num_elems (precommit block_number_bytes)) bytes in
  Some (Ok (bytes, PrecommitsUndecoded data block_number_bytes)).

(** The closure of [votes_ancestries]. *)
Definition header_parser : parser HeaderRef := fun s =>
  match decode_partial s with
  | None => None
  | Some (Ok (a, b)) => Some (Ok (b, a))
  | Some (Err _) => Some (Err mkNomError)
  end.

Definition votes_ancestries : parser VotesAncestriesIter := fun bytes =>
  let* (bytes, num_elems) := nom_usize bytes in
  let* (bytes, slice) := nom_recognize (nom_many_m_n num_elems header_parser) bytes in
  Some (Ok (bytes, mkVotesAncestriesIter slice num_elems)).

Definition grandpa_justification (block_number_bytes : usize) : parser GrandpaJustificationRef := fun bytes =>
  let* (bytes, round) := le_bytes 8 bytes in
  let* (bytes, target_hash) := take_bytes 32 bytes in
  let* (bytes, target_number) := nom_varsize_number_decode_u64 block_number_bytes bytes in
  let* (bytes, precommits) := precommits block_number_bytes bytes in
  let* (bytes, votes_ancestries) := votes_ancestries bytes in
  Some (Ok (bytes, mkGrandpaJustificationRef round target_hash target_number precommits votes_ancestries)).

(** The input must be consumed. *)
Definition decode_grandpa (scale_encoded : list u8) (block_number_bytes : usize)
    : outcome NomError GrandpaJustificationRef :=
  let* (remainder, justification) := grandpa_justification block_number_bytes scale_encoded in
  match remainder with
  | [] => Some (Ok justification)
  | _ :: _ => Some (Err mkNomError)
  end.

Definition decode_partial_grandpa (scale_encoded : list u8) (block_number_bytes : usize)
    : outcome NomError (GrandpaJustificationRef * list u8) :=
  let* (remainder, justification) := grandpa_justification block_number_bytes scale_encoded in
  Some (Ok (justification, remainder)).

Definition PrecommitRef_decode_partial (scale_encoded : list u8) (block_number_bytes : usize)
    : outcome NomError (Precommit * list u8) :=
  let* (remainder, precommit) := precommit block_number_bytes scale_encoded in
  Some (Ok (precommit, remainder)).

(** ** Iterators *)

Definition PrecommitsRef_iter (self : PrecommitsRef) : PrecommitsRefIter :=
  match self with
  | PrecommitsUndecoded data block_number_bytes =>
      PrecommitsIterUndecoded block_number_bytes (len data / PRECOMMIT_ENCODED_LEN) data
  | PrecommitsDecoded slice => PrecommitsIterDecoded slice
  end.

(** [None] is the panic of [precommit(..)(pointer).unwrap()]. *)
Definition PrecommitsRefIter_next (self : PrecommitsRefIter) : option (option (Precommit * PrecommitsRefIter)) :=
  match self with
  | PrecommitsIterDecoded [] => Some None
  | PrecommitsIterDecoded (p :: iter) => Some (Some (p, PrecommitsIterDecoded iter))
  | PrecommitsIterUndecoded block_number_bytes remaining_len pointer =>
      if remaining_len =? 0 then Some None
      else
        match precommit block_number_bytes pointer with
        | Some (Ok (new_pointer, precommit)) =>
            Some (Some (precommit, PrecommitsIterUndecoded block_number_bytes (remaining_len - 1) new_pointer))
        | _ => None
        end
  end.

(** [size_hint], which gives [ExactSizeIterator::len]. *)
Definition PrecommitsRefIter_len (self : PrecommitsRefIter) : usize :=
  match self with
  | PrecommitsIterDecoded iter => len iter
  | PrecommitsIterUndecoded _ remaining_len _ => remaining_len
  end.

Fixpoint precommits_loop (fuel : nat) (self : PrecommitsRefIter) : option (list Precommit) :=
  match fuel with
  | O => None
  | S fuel =>
      match PrecommitsRefIter_next self with
      | None => None
      | Some None => Some []
      | Some (Some (p, self)) => let! l := precommits_loop fuel self in Some (p :: l)
      end
  end.

(** All the items of [iter()]. *)
Definition PrecommitsRef_collect (self : PrecommitsRef) : option (list Precommit) :=
  precommits_loop (S (Z.to_nat (PrecommitsRefIter_len (PrecommitsRef_iter self)))) (PrecommitsRef_iter self).

(** [None] is the panic of [header::decode_partial(..).unwrap()]. *)
Definition VotesAncestriesIter_next (self : VotesAncestriesIter)
    : option (option (HeaderRef * VotesAncestriesIter)) :=
  if va_num self =? 0 then Some None
  else
    match decode_partial (va_slice self) with
    | Some (Ok (item, new_slice)) =>
        Some (Some (item, mkVotesAncestriesIter new_slice (va_num self - 1)))
    | _ => None
    end.

Definition VotesAncestriesIter_len (self : VotesAncestriesIter) : usize := va_num self.

Fixpoint votes_loop (fuel : nat) (self : VotesAncestriesIter) : option (list HeaderRef) :=
  match fuel with
  | O => None
  | S fuel =>
      match VotesAncestriesIter_next self with
      | None => None
      | Some None => Some []
      | Some (Some (h, self)) => let! l := votes_loop fuel self in Some (h :: l)
      end
  end.

Definition VotesAncestriesIter_collect (self : VotesAncestriesIter) : option (list HeaderRef) :=
  votes_loop (S (Z.to_nat (va_num self))) self.

(** ** Conversions *)

(** [From<&GrandpaJustification> for GrandpaJustificationRef]. *)
Definition GrandpaJustificationRef_from (j : GrandpaJustification) : GrandpaJustificationRef :=
  mkGrandpaJustificationRef (gj_round j) (gj_target_hash j) (gj_target_number j)
    (PrecommitsDecoded (gj_precommits j)) (mkVotesAncestriesIter [] 0).

(** [From<GrandpaJustificationRef> for GrandpaJustification]. *)
Definition GrandpaJustification_from (j : GrandpaJustificationRef) : option GrandpaJustification :=
  let! l := PrecommitsRef_collect (jr_precommits j) in
  Some (mkGrandpaJustification (jr_round j) (jr_target_hash j) (jr_target_number j) l).

End justification.

(** ** The encoding of a justification *)

Definition precommit_ok (bnb : usize) (p : Precommit) : Prop :=
  is_array 32 (pc_target_hash p) /\ number_ok bnb (pc_target_number p) /\
  is_array 64 (pc_signature p) /\ is_array 32 (pc_authority_public_key p).

Definition precommit_bytes (bnb : usize) (p : Precommit) : list u8 :=
  pc_target_hash p ++ number_bytes bnb (pc_target_number p) ++ pc_signature p ++ pc_authority_public_key p.

Definition precommits_bytes (bnb : usize) (l : list Precommit) : list u8 := concat (map (precommit_bytes bnb) l).

(** ** Facts *)

Section facts.
Context `{Platform} `{Nom} `{!NomLaws} `{NomMulti} `{!NomMultiLaws}.

Lemma precommit_bytes_length bnb p :
  0 <= bnb -> precommit_ok bnb p -> len (precommit_bytes bnb p) = 128 + bnb.
Proof.
  intros Hb (Hh & _ & Hs & Hk). unfold precommit_bytes.
  rewrite !len_app, (len_array _ _ Hh), (len_array _ _ Hs), (len_array _ _ Hk).
  unfold len. rewrite number_bytes_length by done. lia.
Qed.

Lemma precommit_bytes_ok bnb p :
  0 <= bnb -> precommit_ok bnb p -> precommit_bytes bnb p <> [] /\ is_bytes (precommit_bytes bnb p).
Proof.
  intros Hb Hok. split.
  - intros E. apply precommit_bytes_length in Hok; [|done]. rewrite E, len_nil in Hok. lia.
  - destruct Hok as ([_ ?] & _ & [_ ?] & [_ ?]). unfold precommit_bytes. rewrite !Forall_app.
    split_and!; try done. apply number_bytes_bytes.
Qed.

Lemma codec_precommit bnb : 0 <= bnb -> codec (precommit bnb) (precommit_ok bnb) (precommit_bytes bnb).
Proof.
  intros Hb bytes rest p Hbytes. unfold precommit. split.
  - intros Hp. do 4 read_step Hp. injection Hp as <- <-. unfold precommit_bytes. rewrite <- !app_assoc.
    done.
  - intros [(? & ? & ? & ?) ->]. unfold precommit_bytes in *. rewrite <- !app_assoc in *. read_all.
    by destruct p.
Qed.

Lemma precommit_total bnb : total (precommit bnb).
Proof. intros bytes. unfold precommit. never_panics. Qed.

(** The iterator over the encoding of [l] that expects [n] items. *)
Lemma precommits_loop_spec bnb l n :
  0 <= bnb -> Forall (precommit_ok bnb) l ->
  precommits_loop (S n) (PrecommitsIterUndecoded bnb (Z.of_nat n) (precommits_bytes bnb l)) =
  if Nat.leb n (length l) then Some (take n l) else None.
Proof.
  intros Hb Hl. revert l Hl. induction n as [|n IH]; intros l Hl; [done|].
  remember (S n) as fuel eqn:Ef. cbn [precommits_loop PrecommitsRefIter_next]. rewrite (proj2 (Z.eqb_neq _ _)) by lia.
  destruct Hl as [|p l Hp Hl].
  - destruct (precommit bnb (precommits_bytes bnb [])) as [[[r q]|]|] eqn:E; [|by subst fuel..].
    apply codec_precommit in E as [Hok E]; [|done|constructor]. symmetry in E. apply app_eq_nil in E as [E _].
    by destruct (precommit_bytes_ok bnb q Hb Hok) as [[] _].
  - unfold precommits_bytes. cbn [map concat]. fold (precommits_bytes bnb l).
    rewrite (codec_read _ _ _ _ _ (codec_precommit bnb Hb)); [|done|].
    + replace (Z.of_nat fuel - 1) with (Z.of_nat n) by lia. rewrite IH by done. subst fuel. cbn [length Nat.leb take].
      by destruct (Nat.leb n (length l)).
    + apply Forall_app. split; [by apply precommit_bytes_ok|]. unfold precommits_bytes. apply Forall_concat, Forall_map.
      eapply Forall_impl; [done|]. intros x Hx. by apply precommit_bytes_ok.
Qed.

Lemma precommits_bytes_length bnb l :
  0 <= bnb -> Forall (precommit_ok bnb) l -> len (precommits_bytes bnb l) = len l * (128 + bnb).
Proof.
  intros Hb Hl. induction Hl as [|p l Hp Hl IH]; [done|]. unfold precommits_bytes in *. cbn [map concat].
  rewrite len_app, IH, precommit_bytes_length, len_cons by done. lia.
Qed.

(** The number of items that the iterator over [n] encoded precommits expects. *)
Definition iter_count (bnb n : Z) : Z := n * (128 + bnb) / PRECOMMIT_ENCODED_LEN.

Lemma precommits_collect bnb l :
  0 <= bnb -> Forall (precommit_ok bnb) l ->
  PrecommitsRef_collect (PrecommitsUndecoded (precommits_bytes bnb l) bnb) =
  if iter_count bnb (len l) <=? len l then Some (take (Z.to_nat (iter_count bnb (len l))) l) else None.
Proof.
  intros Hb Hl. unfold PrecommitsRef_collect. cbn [PrecommitsRef_iter PrecommitsRefIter_len].
  rewrite precommits_bytes_length by done. fold (iter_count bnb (len l)).
  assert (0 <= iter_count bnb (len l)).
  { unfold iter_count. pose proof (len_nonneg l). apply Z.div_pos; [nia|done]. }
  rewrite <- (Z2Nat.id (iter_count bnb (len l))) at 2 by done. rewrite precommits_loop_spec by done. unfold len in *.
  destruct (Nat.leb_spec (Z.to_nat (iter_count bnb (Z.of_nat (length l)))) (length l)), (Z.leb_spec (iter_count bnb (Z.of_nat (length l))) (Z.of_nat (length l)));
    done || lia.
Qed.

Lemma iter_count_4 n : iter_count 4 n = n.
Proof. apply (Z.div_mul n 132). done. Qed.

(** *** Headers *)

(** The decoder of headers sees nothing after the header, apart from the slice that
    the digest keeps. *)
Lemma digest_local bs d rest :
  is_bytes bs -> DigestRef_from_scale_bytes bs = Some (Ok (d, rest)) ->
  exists pre, bs = pre ++ rest /\ pre <> [] /\
    forall rest', exists d', DigestRef_from_scale_bytes (pre ++ rest') = Some (Ok (d', rest')) /\
      Digest_from d' = Digest_from d.
Proof.
  intros Hb (body & items & Hn & Hd & Hc & Hin)%from_scale_bytes_inv; [|done]. unfold nom_scale_compact_usize in Hn.
  apply nom_scale_compact_local in Hn as (p1 & -> & Hne & Hn). apply decodes_local in Hd as Hl.
  destruct Hl as (p2 & -> & Hlen & Hdl). exists (p1 ++ p2). split; [by rewrite app_assoc|].
  split; [by intros [? _]%app_eq_nil|]. intros rest'. unfold DigestRef_from_scale_bytes, nom_scale_compact_usize.
  rewrite <- app_assoc, Hn. cbn [map_err outcome_bind].
  rewrite (decode_items_decodes _ _ _ _ _ _ _ (Hdl rest')) by (rewrite ?length_app; lia).
  unfold checked_indices in Hc. destruct (check_items _ _ items _) as [st|]; [|done]. cbn [result_bind] in Hc.
  cbn [outcome_bind]. rewrite Hc. cbn [outcome_bind]. eexists. split; [done|].
  unfold Digest_from, DigestRef_logs. rewrite Hin. cbn [dr_inner dr_indices].
  rewrite (yields_collect _ _ (decodes_yields _ _ _ Hd)).
  by rewrite (yields_collect _ _ (decodes_yields _ _ _ (Hdl rest'))).
Qed.

Lemma fixed_parts n (s tl : list u8) :
  length (take n s) = 64%nat ->
  take 32 (take n s ++ tl) = take 32 s /\ take 32 (drop 32 (take n s ++ tl)) = take 32 (drop 32 s).
Proof.
  intros Hn. set (t := take n s) in *. rewrite <- (take_drop n s) at 1 2. fold t.
  rewrite !(take_app_le t), !(drop_app_le t), !(take_app_le (drop 32 t)) by (rewrite ?length_drop; lia). done.
Qed.

Lemma header_local : local_parser Header_from header_parser.
Proof.
  intros bytes rest h Hb. unfold header_parser, decode_partial.
  destruct (Z.ltb_spec (len bytes) (32 + 1)) as [|H33]; [done|].
  destruct (nom_scale_compact_u64 (drop 32 bytes)) as [[s number]|] eqn:Hn; [|done]. cbn [map_err outcome_bind].
  assert (Hs : is_bytes (drop 32 bytes)) by (by apply Forall_drop).
  unfold nom_scale_compact_u64 in *. apply nom_scale_compact_local in Hn as (p1 & Ep & Hne1 & Hn).
  rewrite Ep in Hs. apply is_bytes_app_r in Hs. destruct (Z.ltb_spec (len s) (32 + 32 + 1)) as [|H65]; [done|].
  destruct (DigestRef_from_scale_bytes _) as [[[d r]|]|] eqn:Hd; [|done..]. cbn [outcome_bind]. intros [= <- <-].
  apply digest_local in Hd as (p2 & Ed & Hne2 & Hd); [|by do 2 apply Forall_drop].
  exists (take 32 bytes ++ p1 ++ take 64 s ++ p2). unfold len in *.
  rewrite drop_drop in Ed. change (32 + 32)%nat with 64%nat in Ed. split; [|split].
  - rewrite <- (take_drop 32 bytes) at 1. rewrite <- !app_assoc. f_equal. rewrite Ep. f_equal.
    rewrite <- Ed. by rewrite (take_drop 64 s).
  - intros [_ [E _]%app_eq_nil]%app_eq_nil. done.
  - intros rest' Hr. rewrite <- !app_assoc. assert (H32 : length (take 32 bytes) = 32%nat) by (rewrite length_take; lia).
    assert (H64 : length (take 64 s) = 64%nat) by (rewrite length_take; lia).
    assert (Hp1 : (1 <= length p1)%nat) by (destruct p1; [done|cbn; lia]).
    assert (Hp2 : (1 <= length p2)%nat) by (destruct p2; [done|cbn; lia]).
    rewrite (proj2 (Z.ltb_ge _ _)) by (rewrite !length_app; lia).
    rewrite drop_app_length', take_app_length', Hn by done. cbn [map_err outcome_bind].
    rewrite (proj2 (Z.ltb_ge _ _)) by (rewrite !length_app; lia). rewrite drop_drop. change (32 + 32)%nat with 64%nat. rewrite drop_app_length' by done.
    destruct (Hd rest') as (d' & -> & Hsame). cbn [outcome_bind]. eexists. split; [done|].
    unfold Header_from. cbn [hd_digest parent_hash hd_number hd_state_root hd_extrinsics_root]. rewrite Hsame.
    destruct (fixed_parts 64 s (p2 ++ rest') H64) as [-> ->]; done.
Qed.

Lemma votes_loop_spec data l :
  parses header_parser data l [] -> VotesAncestriesIter_collect (mkVotesAncestriesIter data (len l)) = Some l.
Proof.
  unfold VotesAncestriesIter_collect, len. cbn [va_num]. rewrite Nat2Z.id. remember [] as e eqn:He.
  induction 1 as [|bytes h r l rest Hp _ _ IH]; [done|].
  cbn [length]. remember (S (length l)) as fuel eqn:Ef. cbn [votes_loop].
  unfold VotesAncestriesIter_next. cbn [va_num va_slice]. rewrite (proj2 (Z.eqb_neq _ _)) by lia.
  unfold header_parser in Hp. destruct (decode_partial bytes) as [[[h' r']|]|]; [|done..]. injection Hp as -> ->.
  replace (Z.of_nat fuel - 1) with (Z.of_nat (length l)) by lia. by rewrite IH.
Qed.

(** *** Justifications *)

Lemma precommit_local bnb : 0 <= bnb -> local_parser id (precommit bnb).
Proof.
  intros Hb. eapply codec_local; [by apply codec_precommit|..]; intros p Hp; by apply precommit_bytes_ok.
Qed.

Lemma parses_precommits bnb bytes l rest :
  0 <= bnb -> is_bytes bytes ->
  parses (precommit bnb) bytes l rest <-> Forall (precommit_ok bnb) l /\ bytes = precommits_bytes bnb l ++ rest.
Proof.
  intros Hb Hbytes. apply codec_parses; [by apply codec_precommit| |done]. intros p Hp. by apply precommit_bytes_ok.
Qed.

Lemma precommits_inv bnb bytes rest pr :
  0 <= bnb -> is_bytes bytes -> precommits bnb bytes = Some (Ok (rest, pr)) ->
  exists pre l, compact_len (len l) pre /\ Forall (precommit_ok bnb) l /\ is_bytes rest /\
    bytes = pre ++ precommits_bytes bnb l ++ rest /\ pr = PrecommitsUndecoded (precommits_bytes bnb l) bnb.
Proof.
  intros Hb Hbytes. unfold precommits. destruct (nom_usize bytes) as [[[r n]|]|] eqn:En; [|done..]. cbn [outcome_bind].
  apply compact_len_iff in En as (pre & Hpre & ->); [|done]. apply is_bytes_app_r in Hbytes.
  destruct (nom_recognize _ r) as [[[r2 data]|]|] eqn:Er; [|done..]. cbn [outcome_bind]. intros [= <- <-].
  pose proof Hpre as (Hn & _). unfold is_uint in Hn.
  apply (recognize_many id) in Er as (-> & l & Hp & Hlen & _); [|by apply precommit_local|lia|done].
  apply parses_precommits in Hp as [Hl E]; [|done..]. apply app_inv_tail in E as ->. apply is_bytes_app_r in Hbytes.
  exists pre, l. by rewrite Hlen.
Qed.

Lemma precommits_read bnb pre l rest :
  0 <= bnb -> compact_len (len l) pre -> Forall (precommit_ok bnb) l -> is_bytes (precommits_bytes bnb l ++ rest) ->
  precommits bnb (pre ++ precommits_bytes bnb l ++ rest) =
  Some (Ok (rest, PrecommitsUndecoded (precommits_bytes bnb l) bnb)).
Proof.
  intros Hb (_ & _ & _ & Hn) Hl Hbytes. unfold precommits. rewrite Hn. cbn [outcome_bind].
  rewrite (recognize_read id); [done|by apply precommit_local|done|by apply parses_precommits].
Qed.

Lemma votes_inv bytes rest v :
  is_bytes bytes -> votes_ancestries bytes = Some (Ok (rest, v)) ->
  exists pre hs, compact_len (len hs) pre /\ bytes = pre ++ va_slice v ++ rest /\ va_num v = len hs /\
    parses header_parser (va_slice v) hs [].
Proof.
  intros Hbytes. unfold votes_ancestries. destruct (nom_usize bytes) as [[[r n]|]|] eqn:En; [|done..]. cbn [outcome_bind].
  apply compact_len_iff in En as (pre & Hpre & ->); [|done]. apply is_bytes_app_r in Hbytes.
  destruct (nom_recognize _ r) as [[[r2 data]|]|] eqn:Er; [|done..]. cbn [outcome_bind]. intros [= <- <-].
  pose proof Hpre as (Hn & _). unfold is_uint in Hn. cbn [va_slice va_num].
  apply (recognize_many Header_from) in Er as (-> & l & _ & Hlen & l' & Hp & Hsame); [|apply header_local|lia|done].
  assert (Hl : len l' = n).
  { apply (f_equal length) in Hsame. rewrite !length_map in Hsame. unfold len in *. lia. }
  exists pre, l'. by rewrite Hl.
Qed.

Lemma votes_read pre data hs rest :
  compact_len (len hs) pre -> parses header_parser (data ++ rest) hs rest -> is_bytes (data ++ rest) ->
  votes_ancestries (pre ++ data ++ rest) = Some (Ok (rest, mkVotesAncestriesIter data (len hs))).
Proof.
  intros (_ & _ & _ & Hn) Hp Hb. unfold votes_ancestries. rewrite Hn. cbn [outcome_bind].
  by rewrite (recognize_read Header_from _ _ _ _ header_local Hb Hp).
Qed.

(** The bytes of a justification: [pl] and [hl] are the encoded numbers of precommits
    and of headers. *)
Definition justification_bytes (bnb : usize) (j : GrandpaJustification) (pl hl headers : list u8) : list u8 :=
  to_le_bytes 8 (gj_round j) ++ gj_target_hash j ++ number_bytes bnb (gj_target_number j) ++
  pl ++ precommits_bytes bnb (gj_precommits j) ++ hl ++ headers.

Definition justification_ok (bnb : usize) (j : GrandpaJustification) : Prop :=
  is_u64 (gj_round j) /\ is_array 32 (gj_target_hash j) /\ number_ok bnb (gj_target_number j) /\
  Forall (precommit_ok bnb) (gj_precommits j).

Lemma justification_read bnb j pl hl data refs rest :
  0 <= bnb -> justification_ok bnb j -> compact_len (len (gj_precommits j)) pl -> compact_len (len refs) hl ->
  parses header_parser (data ++ rest) refs rest -> is_bytes (data ++ rest) ->
  decode_partial_grandpa (justification_bytes bnb j pl hl data ++ rest) bnb =
  Some (Ok (mkGrandpaJustificationRef (gj_round j) (gj_target_hash j) (gj_target_number j)
    (PrecommitsUndecoded (precommits_bytes bnb (gj_precommits j)) bnb) (mkVotesAncestriesIter data (len refs)), rest)).
Proof.
  intros Hb (Hr & Hh & Hn & Hl) Hpl Hhl Hp Hbytes. unfold decode_partial_grandpa, grandpa_justification, justification_bytes.
  rewrite <- !app_assoc. read_all. rewrite precommits_read; [|done..|].
  - cbn [outcome_bind]. by rewrite (votes_read hl data refs rest).
  - apply Forall_app. split.
    + apply Forall_concat, Forall_map. eapply Forall_impl; [done|]. intros p Hok. by apply precommit_bytes_ok.
    + apply Forall_app. split; [by destruct Hhl as (_ & ? & _)|done].
Qed.

(** The iterators of a decoded justification. The input is the encoding of the
    fields, of a number of precommits and of a number of headers. The iterator over
    the headers yields this number of headers without panic. The iterator over the
    precommits assumes that each takes 132 bytes, which is the case if block numbers
    have 4 bytes: then it yields the precommits. With more bytes, it expects more
    precommits than there are, and panics after the last one if the difference
    reaches one; with fewer bytes, it drops the last ones. *)
Theorem decoded_justification (bytes rest : list u8) (bnb : usize) (r : GrandpaJustificationRef) :
  is_bytes bytes -> 0 <= bnb -> decode_partial_grandpa bytes bnb = Some (Ok (r, rest)) ->
  exists j pl hl refs,
    justification_ok bnb j /\ compact_len (len (gj_precommits j)) pl /\ compact_len (len refs) hl /\
    bytes = justification_bytes bnb j pl hl (va_slice (jr_votes_ancestries r)) ++ rest /\
    VotesAncestriesIter_collect (jr_votes_ancestries r) = Some refs /\
    let n := len (gj_precommits j) in let m := iter_count bnb n in
    GrandpaJustification_from r =
      (if m <=? n then Some (mkGrandpaJustification (gj_round j) (gj_target_hash j) (gj_target_number j)
         (take (Z.to_nat m) (gj_precommits j)))
       else None) /\
    (bnb = 4 -> GrandpaJustification_from r = Some j).
Proof.
  intros Hbytes Hb Hd. unfold decode_partial_grandpa in Hd.
  destruct (grandpa_justification bnb bytes) as [[[r1 j1]|]|] eqn:E; [|done..]. cbn [outcome_bind] in Hd.
  injection Hd as -> ->. unfold grandpa_justification in E.
  do 3 read_step E. destruct (precommits bnb _) as [[[r4 pr]|]|] eqn:Ep; [|done..]. cbn [outcome_bind] in E.
  apply precommits_inv in Ep as (pl & l & Hpl & Hl & Hr4 & -> & ->); [|done..].
  destruct (votes_ancestries r4) as [[[r5 v]|]|] eqn:Ev; [|done..]. cbn [outcome_bind] in E. injection E as -> <-.
  apply votes_inv in Ev as (hl & refs & Hhl & -> & Hnum & Hp); [|done]. cbn [jr_votes_ancestries].
  exists (mkGrandpaJustification a a0 a1 l), pl, hl, refs. cbn [gj_precommits gj_round gj_target_hash gj_target_number].
  assert (Hc := precommits_collect bnb l Hb Hl).
  split_and!; [done|done|done|unfold justification_bytes; cbn; by rewrite <- !app_assoc| | |].
  - destruct v as [data num]. cbn in Hnum |- *. subst num. by apply votes_loop_spec.
  - unfold GrandpaJustification_from. cbn [jr_precommits jr_round jr_target_hash jr_target_number]. rewrite Hc. by case_match.
  - intros ->. unfold GrandpaJustification_from. cbn [jr_precommits jr_round jr_target_hash jr_target_number]. rewrite Hc, iter_count_4.
    rewrite Z.leb_refl. unfold len. by rewrite Nat2Z.id, firstn_all.
Qed.

(** The encoded headers of the votes. *)
Lemma headers_parse hs rest :
  Forall header_ok hs ->
  exists data refs, mapM Header_scale_encoding_vec hs = Some data /\ mapM Header_from refs = Some hs /\
    len refs = len hs /\ (is_bytes (concat data ++ rest) -> parses header_parser (concat data ++ rest) refs rest).
Proof.
  intros Hok. induction Hok as [|h hs Hh _ (data & refs & Hdata & Hrefs & Hlen & Hp)].
  - exists [], []. split_and!; [done..|]. intros _. constructor.
  - destruct (header_encode_decode h (concat data ++ rest) Hh) as (bytes & r & Henc & Hdec & Hinto).
    exists (bytes :: data), (r :: refs). rewrite !len_cons, Hlen.
    split_and!; [cbn; by rewrite Henc, Hdata|cbn; by rewrite Hinto, Hrefs|done|].
    cbn [concat]. rewrite <- app_assoc. intros Hb.
    assert (Hr : header_parser (bytes ++ concat data ++ rest) = Some (Ok (concat data ++ rest, r))).
    { unfold header_parser. by rewrite Hdec. }
    destruct (local_rest _ _ _ _ _ header_local Hb Hr) as [Hrest Hlt]. econstructor; [exact Hr|done|by apply Hp].
Qed.

(** With block numbers of 4 bytes, decoding inverts encoding: the encoding of a
    justification and of headers decodes, in front of any data, to a justification
    that converts to the first one and iterates over the headers. [decode_grandpa]
    refuses trailing data. *)
Theorem justification_roundtrip (j : GrandpaJustification) (headers : list Header) (data : list (list u8)) (rest : list u8) :
  justification_ok 4 j -> Forall header_ok headers -> is_usize (len (gj_precommits j)) -> is_usize (len headers) ->
  mapM Header_scale_encoding_vec headers = Some data -> is_bytes (concat data ++ rest) ->
  let bytes := justification_bytes 4 j (encode_scale_compact_usize (len (gj_precommits j)))
    (encode_scale_compact_usize (len headers)) (concat data) in
  exists r refs, decode_partial_grandpa (bytes ++ rest) 4 = Some (Ok (r, rest)) /\
    decode_grandpa (bytes ++ rest) 4 = Some (match rest with [] => Ok r | _ :: _ => Err mkNomError end) /\
    GrandpaJustification_from r = Some j /\
    VotesAncestriesIter_collect (jr_votes_ancestries r) = Some refs /\ mapM Header_from refs = Some headers.
Proof.
  intros Hj Hh Hn Hm Hdata Hb bytes. destruct (headers_parse headers rest Hh) as (data' & refs & Hd & Hrefs & Hlen & Hp).
  rewrite Hdata in Hd. injection Hd as <-. specialize (Hp Hb). rewrite <- Hlen in Hm.
  pose proof (justification_read 4 j _ _ _ refs rest ltac:(lia) Hj (compact_len_encode _ Hn) (compact_len_encode _ Hm) Hp Hb) as Hr.
  rewrite Hlen in Hr. fold bytes in Hr.
  destruct (headers_parse headers [] Hh) as (data' & refs' & Hd & Hrefs' & Hlen' & Hp').
  rewrite Hdata in Hd. injection Hd as <-. rewrite app_nil_r in Hp'. apply Forall_app in Hb as [Hb _].
  eexists _, refs'. split; [exact Hr|]. split_and!; [| | |done].
  - unfold decode_grandpa, decode_partial_grandpa in *.
    destruct (grandpa_justification 4 (bytes ++ rest)) as [[[x y]|]|]; [|done..]. cbn [outcome_bind] in *.
    injection Hr as -> ->. by destruct rest.
  - unfold GrandpaJustification_from. cbn [jr_precommits jr_round jr_target_hash jr_target_number].
    rewrite precommits_collect by (lia || by destruct Hj as (_ & _ & _ & ?)).
    rewrite iter_count_4, Z.leb_refl. unfold len. rewrite Nat2Z.id, firstn_all. by destruct j.
  - cbn [jr_votes_ancestries]. rewrite <- Hlen'. by apply votes_loop_spec, Hp'.
Qed.

End facts.

(** ** Examples *)

Definition sample_precommit : Precommit := mkPrecommit (replicate 32 9) 7 (replicate 64 8) (replicate 32 6).
Definition sample_justification (n : nat) : GrandpaJustification :=
  mkGrandpaJustification 5 (replicate 32 9) 7 (replicate n sample_precommit).

Abbreviation decode_with := (@decode_grandpa platform64 nom_complete nom_multi) (only parsing).
Abbreviation into_with := (@GrandpaJustification_from nom_complete) (only parsing).

(** A justification of 33 precommits with block numbers of 8 bytes is accepted, and
    iterating over its precommits panics; one of one precommit with block numbers of
    2 bytes is accepted, and has no precommit. *)
Lemma precommits_iter_panics :
  (exists j, decode_with (justification_bytes 8 (sample_justification 33) [132] [0] []) 8 = Some (Ok j) /\ into_with j = None) /\
  (exists j, decode_with (justification_bytes 2 (sample_justification 1) [4] [0] []) 2 = Some (Ok j) /\
     into_with j = Some (sample_justification 0)).
Proof. split; eexists; split; vm_compute; reflexivity. Qed.

Lemma sample_ok bnb n : 1 <= bnb -> justification_ok bnb (sample_justification n).
Proof.
  intros Hb. assert (Hn : number_ok bnb 7).
  { unfold number_ok. split; [done|]. assert (2 ^ 8 <= 2 ^ (8 * Z.min 8 bnb)) by (apply Z.pow_le_mono_r; lia). change (2 ^ 8) with 256 in *. lia. }
  split_and!; [done|by apply is_array_replicate|done|]. apply Forall_replicate.
  split_and!; [by apply is_array_replicate|done|by apply is_array_replicate..].
Qed.

Lemma decoded_justification_witness :
  exists r j, @decode_partial_grandpa platform64 nom_complete nom_multi
      (justification_bytes 4 (sample_justification 2) [8] [0] [] ++ [1; 2]) 4 = Some (Ok (r, [1; 2])) /\
    into_with r = Some j.
Proof.
  destruct (@decode_partial_grandpa platform64 nom_complete nom_multi
      (justification_bytes 4 (sample_justification 2) [8] [0] [] ++ [1; 2]) 4) as [[[r rest]|]|] eqn:E; [|done..].
  assert (rest = [1; 2]) as -> by (vm_compute in E; by injection E).
  destruct (@decoded_justification platform64 nom_complete nom_complete_laws nom_multi nom_multi_laws
    (justification_bytes 4 (sample_justification 2) [8] [0] [] ++ [1; 2]) [1; 2] 4 r
    ltac:(vm_compute; repeat constructor; discriminate) ltac:(done) E) as (j & pl & hl & refs & _ & _ & _ & _ & _ & _ & Hj).
  exists r, j. split; [done|by apply Hj].
Defined.

Lemma justification_roundtrip_witness :
  exists data r refs, @mapM option _ _ _ _ (@Header_scale_encoding_vec platform64 nom_complete) [example_header] = Some data /\
    decode_with (justification_bytes 4 (sample_justification 2) (@encode_scale_compact_usize 2)
      (@encode_scale_compact_usize 1) (concat data)) 4 = Some (Ok r) /\
    into_with r = Some (sample_justification 2) /\
    @VotesAncestriesIter_collect platform64 nom_complete (jr_votes_ancestries r) = Some refs /\
    @mapM option _ _ _ _ (@Header_from platform64 nom_complete) refs = Some [example_header].
Proof.
  destruct (@mapM option _ _ _ _ (@Header_scale_encoding_vec platform64 nom_complete) [example_header]) as [data|] eqn:E; [|by vm_compute in E].
  exists data.
  destruct (@justification_roundtrip platform64 nom_complete nom_complete_laws nom_multi nom_multi_laws
    (sample_justification 2) [example_header] data []) as (r & refs & _ & Hd & Hj & Hv & Hm).
  - by apply sample_ok.
  - apply Forall_singleton. split_and!; [by apply is_array_replicate | done | by apply is_array_replicate.. |].
    split_and!; [apply example_items_ok | apply example_items_ok | reflexivity].
  - done.
  - done.
  - done.
  - vm_compute in E. injection E as <-. vm_compute. repeat constructor; discriminate.
  - rewrite app_nil_r in Hd. by exists r, refs.
Defined.
