(* ===== verification/JustificationVerify.v ===== *)
(** * Verification of justifications ([src/src/finality/justification/verify.rs])

    The verification is characterised by the list of votes, with the error of each
    way to fail. Two justifications that are accepted for the same authorities have
    signatures of more than a third of them in common. *)

From S2P Require Import Prelude Leb128 Scale Nibble TrieNode HeaderBase HeaderAura HeaderBabe HeaderGrandpa Header HeaderDigest HeaderCodec FinalityBase Justification.

Open Scope Z_scope.

(** ** Data *)

Record Config := mkConfig {
  cf_justification : GrandpaJustificationRef;
  cf_block_number_bytes : usize;
  cf_authorities_set_id : u64;
  cf_authorities_list : list (list u8)
}.

Inductive Error :=
  | BadPublicKey
  | BadSignature
  | DuplicateSignature (key : list u8)
  | NotAuthority (key : list u8)
  | NotEnoughSignatures.

(** ** The verification *)

Section verify.
Context `{Platform} `{Nom} `{Ed25519}.

(** An item of the batch: the key, the signature and the message. *)
Definition batch_item (config : Config) (precommit : Precommit) : list u8 * list u8 * list u8 :=
  (pc_authority_public_key precommit, pc_signature precommit,
   precommit_message (cf_block_number_bytes config) (pc_target_hash precommit) (pc_target_number precommit)
     (jr_round (cf_justification config)) (cf_authorities_set_id config)).

(** The loop over the precommits: [seen_pub_keys] and [batch] are its variables. *)
Fixpoint verify_precommits (config : Config) (l : list Precommit) (seen_pub_keys : gset (list u8))
    (batch : list (list u8 * list u8 * list u8)) : result Error (list (list u8 * list u8 * list u8)) :=
  match l with
  | [] => Ok batch
  | precommit :: l =>
      let key := pc_authority_public_key precommit in
      if negb (existsb (fun a => bool_decide (a = key)) (cf_authorities_list config)) then Err (NotAuthority key)
      else if bool_decide (key ∈ seen_pub_keys) then Err (DuplicateSignature key)
      else verify_precommits config l ({[key]} ∪ seen_pub_keys) (batch ++ [batch_item config precommit])
  end.

(** [None] is a panic of the iterator over the precommits. *)
Definition verify (config : Config) : outcome Error unit :=
  let! precommits := PrecommitsRef_collect (jr_precommits (cf_justification config)) in
  let num_precommits := len precommits in
  if num_precommits <? threshold (len (cf_authorities_list config)) then Some (Err NotEnoughSignatures)
  else
    let* batch := Some (verify_precommits config precommits ∅ []) in
    if batch_verify batch then Some (Ok tt) else Some (Err BadSignature).

End verify.

(** ** What is accepted *)

Section facts.
Context `{Platform} `{Nom} `{Ed25519} `{!Ed25519Laws}.

Abbreviation key := pc_authority_public_key (only parsing).

Definition valid_signature (config : Config) (p : Precommit) : Prop :=
  (let '(k, s, m) := batch_item config p in ed25519_verify k s m) = true.

(** The votes of distinct authorities. *)
Definition good_votes (config : Config) (l : list Precommit) : Prop :=
  Forall (fun p => key p ∈ cf_authorities_list config) l /\ NoDup (map key l).

(** The verdict on the votes [l]: the first vote that is not the first one of an
    authority is reported, before the signatures are verified. *)
Inductive verdict (config : Config) (l : list Precommit) : result Error unit -> Prop :=
  | verdict_few :
      len l < threshold (len (cf_authorities_list config)) -> verdict config l (Err NotEnoughSignatures)
  | verdict_not_authority l1 p l2 :
      threshold (len (cf_authorities_list config)) <= len l ->
      l = l1 ++ p :: l2 -> good_votes config l1 -> key p ∉ cf_authorities_list config ->
      verdict config l (Err (NotAuthority (key p)))
  | verdict_duplicate l1 p l2 :
      threshold (len (cf_authorities_list config)) <= len l ->
      l = l1 ++ p :: l2 -> good_votes config l1 -> key p ∈ cf_authorities_list config -> key p ∈ map key l1 ->
      verdict config l (Err (DuplicateSignature (key p)))
  | verdict_signature :
      threshold (len (cf_authorities_list config)) <= len l ->
      good_votes config l -> ~ Forall (valid_signature config) l -> verdict config l (Err BadSignature)
  | verdict_ok :
      threshold (len (cf_authorities_list config)) <= len l ->
      good_votes config l -> Forall (valid_signature config) l -> verdict config l (Ok tt).

Lemma existsb_key (l : list (list u8)) k : existsb (fun a => bool_decide (a = k)) l = bool_decide (k ∈ l).
Proof.
  induction l as [|a l IH]; [done|]. cbn [existsb]. rewrite IH, <- bool_decide_or.
  apply bool_decide_ext. rewrite elem_of_cons. intuition congruence.
Qed.

Lemma good_votes_snoc config l p :
  good_votes config l -> key p ∈ cf_authorities_list config -> key p ∉ map key l -> good_votes config (l ++ [p]).
Proof.
  intros [Hf Hn] Hp Hk. split; [apply Forall_app; by rewrite Forall_singleton|].
  rewrite map_app. apply NoDup_app. split_and!; [done| |by apply NoDup_singleton].
  intros x Hx Hin. apply list_elem_of_singleton in Hin as ->. done.
Qed.

(** The loop, after the votes [done]. *)
Lemma verify_precommits_spec config l1 l seen batch :
  good_votes config l1 -> (forall k, k ∈ seen <-> k ∈ map key l1) -> batch = map (batch_item config) l1 ->
  match verify_precommits config l seen batch with
  | Ok b => b = map (batch_item config) (l1 ++ l) /\ good_votes config (l1 ++ l)
  | Err (NotAuthority k) => exists l2 p l3, l1 ++ l = l2 ++ p :: l3 /\ good_votes config l2 /\ key p = k /\
      k ∉ cf_authorities_list config
  | Err (DuplicateSignature k) => exists l2 p l3, l1 ++ l = l2 ++ p :: l3 /\ good_votes config l2 /\ key p = k /\
      k ∈ cf_authorities_list config /\ k ∈ map key l2
  | Err _ => False
  end.
Proof.
  revert l1 seen batch. induction l as [|p l IH]; intros l1 seen batch Hg Hseen ->; cbn [verify_precommits].
  - by rewrite app_nil_r.
  - rewrite existsb_key. destruct (decide (key p ∈ cf_authorities_list config)) as [Ha|Ha].
    + rewrite bool_decide_true by done. cbn [negb]. destruct (decide (key p ∈ seen)) as [Hs|Hs].
      * rewrite bool_decide_true by done. exists l1, p, l. rewrite <- Hseen. done.
      * rewrite bool_decide_false by done.
        specialize (IH (l1 ++ [p]) ({[key p]} ∪ seen) (map (batch_item config) l1 ++ [batch_item config p])).
        rewrite <- app_assoc in IH. apply IH; [by apply good_votes_snoc; [..|rewrite <- Hseen]| |by rewrite map_app].
        intros k. rewrite map_app, elem_of_union, elem_of_app, elem_of_singleton, Hseen. cbn [map]. rewrite list_elem_of_singleton. tauto.
    + rewrite bool_decide_false by done. by exists l1, p, l.
Qed.

Lemma batch_valid config l :
  batch_verify (map (batch_item config) l) = true <-> Forall (valid_signature config) l.
Proof.
  rewrite batch_verify_spec. induction l as [|p l IH]; [by split|]. cbn [map forallb].
  rewrite Forall_cons, <- IH. apply andb_true_iff.
Qed.

Lemma good_votes_prefix config l1 l2 : good_votes config (l1 ++ l2) -> good_votes config l1.
Proof. intros [Hf Hn]. rewrite Forall_app in Hf. rewrite map_app in Hn. apply NoDup_app in Hn. by destruct Hf, Hn. Qed.

(** A vote that is not good: the first one is unique. *)
Lemma first_bad_unique config l1 p l2 l1' p' l2' :
  l1 ++ p :: l2 = l1' ++ p' :: l2' -> good_votes config l1 -> good_votes config l1' ->
  ~ good_votes config (l1 ++ [p]) -> ~ good_votes config (l1' ++ [p']) -> l1 = l1' /\ p = p' /\ l2 = l2'.
Proof.
  intros E Hg Hg' Hb Hb'. apply app_eq_app in E as (k & [[-> E]|[-> E]]).
  - destruct k as [|x k]; [by rewrite app_nil_r; simplify_eq/=|]. simplify_eq/=. exfalso. apply Hb'.
    replace (l1' ++ x :: k) with ((l1' ++ [x]) ++ k) in Hg by (by rewrite <- app_assoc). by apply good_votes_prefix in Hg.
  - destruct k as [|x k]; [by rewrite app_nil_r; simplify_eq/=|]. simplify_eq/=. exfalso. apply Hb.
    replace (l1 ++ x :: k) with ((l1 ++ [x]) ++ k) in Hg' by (by rewrite <- app_assoc). by apply good_votes_prefix in Hg'.
Qed.

Lemma bad_not_authority config l p : key p ∉ cf_authorities_list config -> ~ good_votes config (l ++ [p]).
Proof. intros Hk [[_ Hp]%Forall_app _]. apply Forall_cons in Hp as [Hp _]. exact (Hk Hp). Qed.

Lemma bad_duplicate config l p : key p ∈ map key l -> ~ good_votes config (l ++ [p]).
Proof.
  intros Hk [_ Hn]. rewrite map_app in Hn. apply NoDup_app in Hn as (_ & Hd & _). apply (Hd _ Hk). cbn. by left.
Qed.

Lemma bad_split config l1 p l2 : ~ good_votes config (l1 ++ [p]) -> ~ good_votes config (l1 ++ p :: l2).
Proof.
  intros Hb Hg. apply Hb. apply (good_votes_prefix _ _ l2). by rewrite <- app_assoc.
Qed.

#[local] Hint Resolve bad_not_authority bad_duplicate : smoldot.

Lemma verdict_det config l r r' : verdict config l r -> verdict config l r' -> r = r'.
Proof.
  intros [] []; subst; try done; try lia;
    try (exfalso; match goal with Hg : good_votes _ (_ ++ _ :: _) |- _ => eapply bad_split; [|exact Hg]; by eauto with smoldot end);
    match goal with E : _ ++ _ :: _ = _ ++ _ :: _ |- _ =>
      eapply (first_bad_unique config) in E as (-> & -> & ->); by eauto with smoldot end.
Qed.

Lemma verify_verdict config l :
  PrecommitsRef_collect (jr_precommits (cf_justification config)) = Some l ->
  exists r, verify config = Some r /\ verdict config l r.
Proof.
  intros Hl. unfold verify. rewrite Hl. destruct (Z.ltb_spec (len l) (threshold (len (cf_authorities_list config)))) as [Hlt|Hge].
  { eexists. split; [done|]. by apply verdict_few. }
  pose proof (verify_precommits_spec config [] l ∅ []) as Hs. cbn [app map] in Hs.
  specialize (Hs ltac:(split; constructor) ltac:(set_solver) eq_refl).
  destruct (verify_precommits config l ∅ []) as [b|e]; cbn [outcome_bind].
  - destruct Hs as [-> Hg]. pose proof (batch_valid config l) as Hv. destruct (batch_verify _).
    + eexists. split; [done|]. apply verdict_ok; [done..|by apply Hv].
    + eexists. split; [done|]. apply verdict_signature; [done..|]. by rewrite <- Hv.
  - destruct e; [done..| | |done]; eexists; (split; [done|]).
    + destruct Hs as (l2 & p & l3 & -> & Hg & <- & Ha & Hk). by eapply verdict_duplicate.
    + destruct Hs as (l2 & p & l3 & -> & Hg & <- & Ha). by eapply verdict_not_authority.
Qed.

(** The verification of a justification returns the verdict on its votes: it is
    accepted if and only if it has as many votes as the threshold, each of another
    authority, and all the signatures are valid; the error is that of the first vote
    that is not of an authority or is the second one of an authority; signatures are
    verified last. It panics only when the iterator over the votes panics. *)
Theorem verify_spec (config : Config) (r : result Error unit) :
  verify config = Some r <->
  exists l, PrecommitsRef_collect (jr_precommits (cf_justification config)) = Some l /\ verdict config l r.
Proof.
  split.
  - intros Hv. destruct (PrecommitsRef_collect (jr_precommits (cf_justification config))) as [l|] eqn:Hl;
      [|unfold verify in Hv; by rewrite Hl in Hv].
    destruct (verify_verdict config l Hl) as (r' & Hr & Hverdict). exists l. rewrite Hv in Hr. by injection Hr as ->.
  - intros (l & Hl & Hverdict). destruct (verify_verdict config l Hl) as (r' & Hr & Hverdict').
    by rewrite Hr, (verdict_det config l r r').
Qed.

Lemma verify_ok config :
  verify config = Some (Ok tt) ->
  exists l, PrecommitsRef_collect (jr_precommits (cf_justification config)) = Some l /\
    threshold (len (cf_authorities_list config)) <= len l /\ good_votes config l /\ Forall (valid_signature config) l.
Proof.
  intros Hv. destruct (PrecommitsRef_collect (jr_precommits (cf_justification config))) as [l|] eqn:Hl;
    [|unfold verify in Hv; by rewrite Hl in Hv].
  destruct (verify_verdict config l Hl) as (r & Hr & Hverdict). rewrite Hv in Hr. injection Hr as <-.
  exists l. inversion Hverdict. done.
Qed.

(** Two sets of more than two thirds of [n] keys. *)
Lemma two_quorums (n : nat) (A S T : gset (list u8)) :
  S ⊆ A -> T ⊆ A -> size A = n -> 2 * Z.of_nat n / 3 + 1 <= Z.of_nat (size S) -> 2 * Z.of_nat n / 3 + 1 <= Z.of_nat (size T) ->
  Z.of_nat n < 3 * Z.of_nat (size (S ∩ T)).
Proof.
  intros HS HT HA Hs Ht. assert (Hu : (size (S ∪ T) <= n)%nat) by (rewrite <- HA; apply subseteq_size; set_solver).
  rewrite size_union_alt, size_difference_alt in Hu. replace (T ∩ S) with (S ∩ T) in Hu by set_solver.
  assert ((size (S ∩ T) <= size T)%nat) by (apply subseteq_size; set_solver).
  pose proof (Z.mod_pos_bound (2 * Z.of_nat n) 3). pose proof (Z.div_mod (2 * Z.of_nat n) 3). lia.
Qed.

Lemma signers_size config l :
  good_votes config l -> list_to_set (map key l) ⊆@{gset (list u8)} list_to_set (cf_authorities_list config) /\
  size (list_to_set (map key l) : gset (list u8)) = length l.
Proof.
  intros [Hf Hn]. split; [|by rewrite size_list_to_set, length_map].
  intros k Hk%elem_of_list_to_set. apply elem_of_list_to_set. apply list_elem_of_In, in_map_iff in Hk as (p & <- & Hp%list_elem_of_In).
  rewrite Forall_forall in Hf. by apply Hf.
Qed.

(** C30: two justifications that are accepted for the same list of distinct
    authorities have valid signatures of the same authorities, more than a third of
    them: two conflicting blocks cannot both be justified unless more than a third
    of the authorities sign for both. *)
Theorem quorum_intersection (c1 c2 : Config) :
  NoDup (cf_authorities_list c1) -> cf_authorities_list c2 = cf_authorities_list c1 ->
  2 * len (cf_authorities_list c1) < 2 ^ usize_bits ->
  verify c1 = Some (Ok tt) -> verify c2 = Some (Ok tt) ->
  exists keys : list (list u8), NoDup keys /\ len (cf_authorities_list c1) < 3 * len keys /\
    forall k, k ∈ keys -> k ∈ cf_authorities_list c1 /\
      exists l1 l2 p1 p2,
        PrecommitsRef_collect (jr_precommits (cf_justification c1)) = Some l1 /\ p1 ∈ l1 /\ key p1 = k /\ valid_signature c1 p1 /\
        PrecommitsRef_collect (jr_precommits (cf_justification c2)) = Some l2 /\ p2 ∈ l2 /\ key p2 = k /\ valid_signature c2 p2.
Proof.
  intros Hnd E Hsmall (l1 & Hl1 & Ht1 & Hg1 & Hv1)%verify_ok (l2 & Hl2 & Ht2 & Hg2 & Hv2)%verify_ok.
  rewrite E in Ht2. rewrite threshold_small in Ht1, Ht2 by (done || apply len_nonneg).
  destruct (signers_size _ _ Hg1) as [Hs1 Hn1]. destruct (signers_size _ _ Hg2) as [Hs2 Hn2]. rewrite E in Hs2.
  exists (elements (list_to_set (map key l1) ∩ list_to_set (map key l2) : gset (list u8))).
  split; [apply NoDup_elements|]. split.
  - unfold len at 2. fold (size (list_to_set (map key l1) ∩ list_to_set (map key l2) : gset (list u8))).
    unfold len in *. eapply two_quorums; [done|done|by apply size_list_to_set|lia..].
  - intros k Hk. apply elem_of_elements, elem_of_intersection in Hk as [Hk1 Hk2]. apply Hs1 in Hk1 as Ha.
    apply elem_of_list_to_set in Ha. split; [done|]. rewrite elem_of_list_to_set in Hk1, Hk2.
    apply list_elem_of_In, in_map_iff in Hk1 as (p1 & Hp1 & Hin1%list_elem_of_In).
    apply list_elem_of_In, in_map_iff in Hk2 as (p2 & Hp2 & Hin2%list_elem_of_In). rewrite Forall_forall in Hv1, Hv2.
    exists l1, l2, p1, p2. split_and!; auto.
Qed.

End facts.

(** ** Examples *)

(** The vote of the authority whose key is [k] repeated, for a block. *)
Definition toy_vote (k block : u8) (number : u64) : Precommit :=
  mkPrecommit (replicate 32 block) number (replicate 32 k ++ replicate 32 0) (replicate 32 k).

Definition toy_config (target : u8) (votes : list Precommit) : Config :=
  mkConfig (GrandpaJustificationRef_from (mkGrandpaJustification 5 (replicate 32 target) 7 votes)) 4 1
    [replicate 32 1; replicate 32 2; replicate 32 3; replicate 32 4].

Abbreviation toy_verify := (@verify platform64 nom_complete toy_ed25519) (only parsing).

(** The justification of the block [9] at height 7 whose votes are for the block [8]
    at height 2, without any header, is accepted: the target of the votes is not
    compared with that of the justification. *)
Lemma unrelated_votes_accepted :
  toy_verify (toy_config 9 [toy_vote 1 8 2; toy_vote 2 8 2; toy_vote 3 8 2]) = Some (Ok tt).
Proof. vm_compute. reflexivity. Qed.

Lemma verify_spec_witness :
  toy_verify (toy_config 9 [toy_vote 1 9 7; toy_vote 2 9 7; toy_vote 1 9 7]) =
  Some (Err (DuplicateSignature (replicate 32 1))).
Proof.
  apply (@verify_spec platform64 nom_complete toy_ed25519 toy_ed25519_laws).
  exists [toy_vote 1 9 7; toy_vote 2 9 7; toy_vote 1 9 7]. split; [reflexivity|].
  apply (@verdict_duplicate platform64 toy_ed25519 _ _ [toy_vote 1 9 7; toy_vote 2 9 7] (toy_vote 1 9 7) []).
  - vm_compute. discriminate.
  - reflexivity.
  - split; [by repeat constructor|]. apply (bool_decide_unpack _). vm_compute. exact I.
  - by left.
  - by left.
Defined.

Lemma quorum_intersection_witness :
  exists keys : list (list u8), NoDup keys /\ 4 < 3 * len keys.
Proof.
  destruct (@quorum_intersection platform64 nom_complete toy_ed25519 toy_ed25519_laws
    (toy_config 9 [toy_vote 1 9 7; toy_vote 2 9 7; toy_vote 3 9 7])
    (toy_config 8 [toy_vote 4 8 7; toy_vote 2 8 7; toy_vote 3 8 7])) as (keys & Hnd & Hlen & _).
  - apply (bool_decide_unpack _). vm_compute. exact I.
  - reflexivity.
  - reflexivity.
  - vm_compute. reflexivity.
  - vm_compute. reflexivity.
  - exists keys. split; [exact Hnd|exact Hlen].
Defined.

