(* ===== verification/Commit.v ===== *)
(** * Commits ([src/src/finality/grandpa/commit/decode.rs])

    A commit is a list of votes with the list of their signatures. The decoder reads
    exactly the encodings of the commits, up to the encoding of the two lengths. *)

From S2P Require Import Prelude Leb128 Scale HeaderBase HeaderGrandpa FinalityBase.

Open Scope Z_scope.

(** ** Data *)

Record UnsignedPrecommitRef := mkUnsignedPrecommitRef { up_target_hash : list u8; up_target_number : u64 }.

Record CompactCommitRef := mkCompactCommitRef {
  cc_target_hash : list u8;
  cc_target_number : u64;
  cc_precommits : list UnsignedPrecommitRef;
  (** Signatures and public keys. *)
  cc_auth_data : list (list u8 * list u8)
}.

Record CommitMessageRef := mkCommitMessageRef {
  cm_round_number : u64;
  cm_set_id : u64;
  cm_message : CompactCommitRef
}.

(** ** Parsers *)

Section commit.
Context `{Platform} `{Nom} `{NomMulti}.

Definition unsigned_precommit (block_number_bytes : usize) : parser UnsignedPrecommitRef := fun bytes =>
  let* (bytes, target_hash) := take_bytes 32 bytes in
  let* (bytes, target_number) := nom_varsize_number_decode_u64 block_number_bytes bytes in
  Some (Ok (bytes, mkUnsignedPrecommitRef target_hash target_number)).

(** The closure that reads a signature and a public key. *)
Definition auth_datum : parser (list u8 * list u8) := fun bytes =>
  let* (bytes, sig) := take_bytes 64 bytes in
  let* (bytes, pubkey) := take_bytes 32 bytes in
  Some (Ok (bytes, (sig, pubkey))).

(** [flat_map(nom_scale_compact_usize, |num_elems| many_m_n(num_elems, num_elems, p))]. *)
Definition counted {A} (p : parser A) : parser (list A) := fun bytes =>
  let* (bytes, num_elems) := nom_usize bytes in
  nom_many_m_n num_elems p bytes.

Definition compact_commit (block_number_bytes : usize) : parser CompactCommitRef := fun bytes =>
  let* (bytes, target_hash) := take_bytes 32 bytes in
  let* (bytes, target_number) := nom_varsize_number_decode_u64 block_number_bytes bytes in
  let* (bytes, precommits) := counted (unsigned_precommit block_number_bytes) bytes in
  let* (bytes, auth_data) := counted auth_datum bytes in
  Some (Ok (bytes, mkCompactCommitRef target_hash target_number precommits auth_data)).

Definition commit_message (block_number_bytes : usize) : parser CommitMessageRef := fun bytes =>
  let* (bytes, round_number) := le_bytes 8 bytes in
  let* (bytes, set_id) := le_bytes 8 bytes in
  let* (bytes, message) := compact_commit block_number_bytes bytes in
  Some (Ok (bytes, mkCommitMessageRef round_number set_id message)).

Definition decode_grandpa_commit (scale_encoded : list u8) (block_number_bytes : usize)
    : outcome NomError CommitMessageRef :=
  let* (rest, commit) := commit_message block_number_bytes scale_encoded in
  match rest with
  | [] => Some (Ok commit)
  | _ :: _ => Some (Err mkNomError)
  end.

Definition decode_partial_grandpa_commit (scale_encoded : list u8) (block_number_bytes : usize)
    : outcome NomError (CommitMessageRef * list u8) :=
  let* (remainder, commit) := commit_message block_number_bytes scale_encoded in
  Some (Ok (commit, remainder)).

End commit.

(** ** The encoding *)

Section facts.
Context `{Platform} `{Nom} `{!NomLaws} `{NomMulti} `{!NomMultiLaws}.

Definition unsigned_ok (bnb : usize) (p : UnsignedPrecommitRef) : Prop :=
  is_array 32 (up_target_hash p) /\ number_ok bnb (up_target_number p).
Definition unsigned_bytes (bnb : usize) (p : UnsignedPrecommitRef) : list u8 :=
  up_target_hash p ++ number_bytes bnb (up_target_number p).

Definition auth_ok (a : list u8 * list u8) : Prop := is_array 64 a.1 /\ is_array 32 a.2.
Definition auth_bytes (a : list u8 * list u8) : list u8 := a.1 ++ a.2.

Definition commit_ok (bnb : usize) (c : CommitMessageRef) : Prop :=
  is_u64 (cm_round_number c) /\ is_u64 (cm_set_id c) /\ is_array 32 (cc_target_hash (cm_message c)) /\
  number_ok bnb (cc_target_number (cm_message c)) /\
  Forall (unsigned_ok bnb) (cc_precommits (cm_message c)) /\ Forall auth_ok (cc_auth_data (cm_message c)).

(** [pl] and [al] are the encoded lengths of the two lists. *)
Definition commit_bytes (bnb : usize) (c : CommitMessageRef) (pl al : list u8) : list u8 :=
  to_le_bytes 8 (cm_round_number c) ++ to_le_bytes 8 (cm_set_id c) ++
  cc_target_hash (cm_message c) ++ number_bytes bnb (cc_target_number (cm_message c)) ++
  pl ++ concat (map (unsigned_bytes bnb) (cc_precommits (cm_message c))) ++
  al ++ concat (map auth_bytes (cc_auth_data (cm_message c))).

Lemma codec_unsigned bnb : 0 <= bnb -> codec (unsigned_precommit bnb) (unsigned_ok bnb) (unsigned_bytes bnb).
Proof.
  intros Hb bytes rest p Hbytes. unfold unsigned_precommit. split.
  - intros Hp. do 2 read_step Hp. injection Hp as <- <-. unfold unsigned_bytes. by rewrite <- app_assoc.
  - intros [[? ?] ->]. unfold unsigned_bytes. rewrite <- app_assoc. read_all. by destruct p.
Qed.

Lemma codec_auth : codec auth_datum auth_ok auth_bytes.
Proof.
  intros bytes rest p Hbytes. unfold auth_datum. split.
  - intros Hp. do 2 read_step Hp. injection Hp as <- <-. unfold auth_bytes. by rewrite <- app_assoc.
  - intros [[? ?] ->]. unfold auth_bytes. rewrite <- app_assoc. read_all. by destruct p.
Qed.

Lemma unsigned_bytes_ok bnb p :
  unsigned_ok bnb p -> unsigned_bytes bnb p <> [] /\ is_bytes (unsigned_bytes bnb p).
Proof.
  intros [[Hl ?] _]. unfold unsigned_bytes. split; [by intros [E _]%app_eq_nil; rewrite E in Hl|].
  apply Forall_app. split; [done|apply number_bytes_bytes].
Qed.

Lemma auth_bytes_ok a : auth_ok a -> auth_bytes a <> [] /\ is_bytes (auth_bytes a).
Proof.
  intros [[Hl ?] [_ ?]]. unfold auth_bytes. split; [by intros [E _]%app_eq_nil; rewrite E in Hl|]. by apply Forall_app.
Qed.

Lemma counted_iff {A} (p : parser A) ok enc bytes rest l :
  codec p ok enc -> (forall a, ok a -> enc a <> [] /\ is_bytes (enc a)) -> is_bytes bytes ->
  counted p bytes = Some (Ok (rest, l)) <->
  exists pre, compact_len (len l) pre /\ Forall ok l /\ bytes = pre ++ concat (map enc l) ++ rest.
Proof.
  intros Hc Henc Hb. unfold counted. split.
  - destruct (nom_usize bytes) as [[[r n]|]|] eqn:En; [|done..]. cbn [outcome_bind].
    apply compact_len_iff in En as (pre & Hpre & ->); [|done]. apply is_bytes_app_r in Hb. pose proof Hpre as (Hn & _).
    rewrite (codec_many p ok enc) by (done || (intros a Ha; by apply Henc) || by destruct Hn).
    intros (Hl & <- & ->). by exists pre.
  - intros (pre & Hpre & Hl & ->). apply is_bytes_app_r in Hb. pose proof Hpre as (Hn & _ & _ & Hread). rewrite Hread.
    cbn [outcome_bind]. apply (codec_many p ok enc); [done|intros a Ha; by apply Henc..|by destruct Hn|done|done].
Qed.

Lemma counted_total {A} (p : parser A) bytes : total p -> is_bytes bytes -> counted p bytes <> None.
Proof.
  intros Hp Hb. unfold counted. pose proof (usize_total bytes) as Hn.
  destruct (nom_usize bytes) as [[[r n]|]|] eqn:E; [|done..]. cbn [outcome_bind].
  apply nom_usize_inv in E as ([Hn0 _] & _); [|done]. by apply many_total.
Qed.

Lemma counted_inv {A} (p : parser A) ok enc bytes rest l :
  counted p bytes = Some (Ok (rest, l)) ->
  codec p ok enc -> (forall a, ok a -> enc a <> [] /\ is_bytes (enc a)) -> is_bytes bytes ->
  exists pre, compact_len (len l) pre /\ Forall ok l /\ bytes = pre ++ concat (map enc l) ++ rest /\ is_bytes rest.
Proof.
  intros Hd Hc Henc Hb. apply (counted_iff p ok enc) in Hd as (pre & Hpre & Hl & ->); [|done..].
  exists pre. split_and!; try done. by do 2 apply is_bytes_app_r in Hb.
Qed.

Lemma compact_commit_iff bnb bytes rest c :
  0 <= bnb -> is_bytes bytes ->
  compact_commit bnb bytes = Some (Ok (rest, c)) <->
  is_array 32 (cc_target_hash c) /\ number_ok bnb (cc_target_number c) /\
  Forall (unsigned_ok bnb) (cc_precommits c) /\ Forall auth_ok (cc_auth_data c) /\
  exists pl al, compact_len (len (cc_precommits c)) pl /\ compact_len (len (cc_auth_data c)) al /\
    bytes = cc_target_hash c ++ number_bytes bnb (cc_target_number c) ++
      pl ++ concat (map (unsigned_bytes bnb) (cc_precommits c)) ++ al ++ concat (map auth_bytes (cc_auth_data c)) ++ rest.
Proof.
  intros Hb Hbytes. unfold compact_commit. split.
  - intros Hd. do 2 read_step Hd.
    destruct (counted (unsigned_precommit bnb) _) as [[[r1 l1]|]|] eqn:E1; [|done..]. cbn [outcome_bind] in Hd.
    eapply counted_inv in E1 as (pl & Hpl & Hl1 & -> & Hr1); [|by apply codec_unsigned|by apply unsigned_bytes_ok|done].
    destruct (counted auth_datum r1) as [[[r2 l2]|]|] eqn:E2; [|done..]. cbn [outcome_bind] in Hd. injection Hd as -> <-.
    eapply counted_inv in E2 as (al & Hal & Hl2 & -> & _); [|apply codec_auth|apply auth_bytes_ok|done].
    split_and!; [done..|]. exists pl, al. done.
  - intros (Hh & Hn & Hl1 & Hl2 & pl & al & Hpl & Hal & ->). read_all. do 2 apply is_bytes_app_r in Hbytes.
    rewrite (proj2 (counted_iff _ (unsigned_ok bnb) (unsigned_bytes bnb) _ _ (cc_precommits c)
      (codec_unsigned bnb Hb) (unsigned_bytes_ok bnb) Hbytes)) by (by exists pl).
    cbn [outcome_bind]. do 2 apply is_bytes_app_r in Hbytes.
    rewrite (proj2 (counted_iff _ auth_ok auth_bytes _ _ (cc_auth_data c) codec_auth auth_bytes_ok Hbytes)) by (by exists al).
    by destruct c.
Qed.

Lemma commit_decode_iff (bytes rest : list u8) (bnb : usize) (c : CommitMessageRef) :
  0 <= bnb -> is_bytes bytes ->
  decode_partial_grandpa_commit bytes bnb = Some (Ok (c, rest)) <->
  commit_ok bnb c /\ exists pl al, compact_len (len (cc_precommits (cm_message c))) pl /\
    compact_len (len (cc_auth_data (cm_message c))) al /\ bytes = commit_bytes bnb c pl al ++ rest.
Proof.
  intros Hb Hbytes. unfold decode_partial_grandpa_commit. split.
  - destruct (commit_message bnb bytes) as [[[r x]|]|] eqn:E; [|done..]. cbn [outcome_bind]. intros [= -> ->].
    unfold commit_message in E. do 2 read_step E.
    destruct (compact_commit bnb _) as [[[r2 m]|]|] eqn:Em; [|done..]. cbn [outcome_bind] in E. injection E as -> <-.
    apply compact_commit_iff in Em as (Hh & Hn & Hl1 & Hl2 & pl & al & Hpl & Hal & ->); [|done..].
    split; [done|]. exists pl, al. split_and!; [done..|]. unfold commit_bytes. cbn. by rewrite <- !app_assoc.
  - intros [(Hr & Hs & Hh & Hn & Hl1 & Hl2) (pl & al & Hpl & Hal & ->)]. unfold commit_bytes in *. rewrite <- !app_assoc in *.
    unfold commit_message. read_all. do 2 apply is_bytes_app_r in Hbytes.
    rewrite (proj2 (compact_commit_iff bnb _ rest (cm_message c) Hb Hbytes)) by (split_and!; try done; by exists pl, al).
    by destruct c.
Qed.

Lemma decode_commit_partial bytes bnb c :
  decode_grandpa_commit bytes bnb = Some (Ok c) <-> decode_partial_grandpa_commit bytes bnb = Some (Ok (c, [])).
Proof.
  unfold decode_grandpa_commit, decode_partial_grandpa_commit.
  destruct (commit_message bnb bytes) as [[[[|b r] x]|]|]; cbn [outcome_bind]; split; congruence.
Qed.

Lemma unsigned_total bnb : total (unsigned_precommit bnb).
Proof. intros bytes. unfold unsigned_precommit. never_panics. Qed.

Lemma auth_total : total auth_datum.
Proof. intros bytes. unfold auth_datum. never_panics. Qed.

(** A parser returns, and leaves bytes. *)
Definition safe {A} (o : outcome NomError (list u8 * A)) : Prop :=
  match o with
  | None => False
  | Some (Ok (r, _)) => is_bytes r
  | Some (Err _) => True
  end.

Lemma safe_bind {A B} (o : outcome NomError (list u8 * A)) (f : list u8 -> A -> outcome NomError (list u8 * B)) :
  safe o -> (forall r a, is_bytes r -> safe (f r a)) -> safe (let* (r, a) := o in f r a).
Proof. intros Ho Hf. destruct o as [[[r a]|]|]; [by apply Hf|done..]. Qed.

Lemma codec_safe {A} (p : parser A) ok enc bytes : codec p ok enc -> total p -> is_bytes bytes -> safe (p bytes).
Proof.
  intros Hc Ht Hb. specialize (Ht bytes). destruct (p bytes) as [[[r a]|]|] eqn:E; [|done..].
  apply Hc in E as [_ ->]; [|done]. by apply is_bytes_app_r in Hb.
Qed.

Lemma counted_safe {A} (p : parser A) ok enc bytes :
  codec p ok enc -> (forall a, ok a -> enc a <> [] /\ is_bytes (enc a)) -> total p -> is_bytes bytes ->
  safe (counted p bytes).
Proof.
  intros Hc Henc Ht Hb. pose proof (counted_total p bytes Ht Hb) as Hret.
  destruct (counted p bytes) as [[[r a]|]|] eqn:E; [|done..].
  by eapply counted_inv in E as (pre & _ & _ & _ & ?).
Qed.

(** The decoder does not panic. *)
Lemma decode_commit_returns bytes bnb :
  0 <= bnb -> is_bytes bytes -> exists r, decode_grandpa_commit bytes bnb = Some r.
Proof.
  intros Hb Hbytes. cut (safe (commit_message bnb bytes)).
  { unfold decode_grandpa_commit. destruct (commit_message bnb bytes) as [[[[|b r] x]|]|]; cbn [outcome_bind]; [by eauto..|done]. }
  apply safe_bind; [by eapply codec_safe; eauto with codec|]. intros r round Hr.
  apply safe_bind; [by eapply codec_safe; eauto with codec|]. intros r1 set Hr1.
  apply safe_bind; [|intros; done]. apply safe_bind; [by eapply codec_safe; eauto with codec|]. intros r2 hash Hr2.
  apply safe_bind; [by eapply codec_safe; eauto with codec|]. intros r3 number Hr3.
  apply safe_bind; [eapply counted_safe; [by apply codec_unsigned|apply unsigned_bytes_ok|apply unsigned_total|done]|].
  intros r4 l Hr4.
  apply safe_bind; [eapply counted_safe; [apply codec_auth|apply auth_bytes_ok|apply auth_total|done]|]. done.
Qed.

(** The decoder of commits is exact: it accepts the encodings of the commits whose
    fields have the sizes of their types, each as this commit, whichever encoding of
    the lengths is used, and nothing else. It returns on every input. *)
Theorem commit_codec (bytes : list u8) (bnb : usize) :
  0 <= bnb -> is_bytes bytes ->
  (exists r, decode_grandpa_commit bytes bnb = Some r) /\
  forall c,
    let encoded rest := commit_ok bnb c /\
      exists pl al, compact_len (len (cc_precommits (cm_message c))) pl /\
        compact_len (len (cc_auth_data (cm_message c))) al /\ bytes = commit_bytes bnb c pl al ++ rest in
    (forall rest, decode_partial_grandpa_commit bytes bnb = Some (Ok (c, rest)) <-> encoded rest) /\
    (decode_grandpa_commit bytes bnb = Some (Ok c) <-> encoded []).
Proof.
  intros Hb Hbytes. split; [by apply decode_commit_returns|]. intros c encoded.
  split; [intros rest; by apply commit_decode_iff|]. rewrite decode_commit_partial. by apply commit_decode_iff.
Qed.

End facts.

(** ** Examples *)

Definition sample_commit (n : nat) : CommitMessageRef :=
  mkCommitMessageRef 5 1 (mkCompactCommitRef (replicate 32 9) 7
    (replicate n (mkUnsignedPrecommitRef (replicate 32 9) 7)) (replicate n (replicate 64 8, replicate 32 6))).

Lemma commit_codec_witness :
  @decode_partial_grandpa_commit platform64 nom_complete nom_multi
    (commit_bytes 4 (sample_commit 2) [8] [9; 0] ++ [1; 2; 3]) 4 = Some (Ok (sample_commit 2, [1; 2; 3])).
Proof.
  assert (Hr : forall n b, is_u8 b -> is_array n (replicate n b)).
  { intros n b Hb. split; [apply length_replicate|by apply Forall_replicate]. }
  apply (@commit_codec platform64 nom_complete nom_complete_laws nom_multi nom_multi_laws).
  - done.
  - vm_compute. repeat constructor; discriminate.
  - split.
    + split_and!; [done|done|by apply Hr|done|..]; cbn [sample_commit cm_message cc_precommits cc_auth_data];
        apply Forall_replicate; (split; [by apply Hr|]); [done|by apply Hr].
    + exists [8], [9; 0]. split_and!; [| |reflexivity];
        (split_and!; [done|by repeat constructor|done|intros rest; reflexivity]).
Defined.
