(* ===== verification/CommitVerify.v ===== *)
(** * Verification of commits ([src/src/finality/grandpa/commit/verify.rs])

    A state machine: the verification of a commit asks its user, for each vote,
    whether its author is an authority and whether the block voted for descends from
    the target, and then verifies the signatures. A run that answers the questions
    ends, with a verdict that is computed from the decoded commit and the answers. *)

From S2P Require Import Prelude Leb128 Scale HeaderBase HeaderGrandpa FinalityBase Commit.

Open Scope Z_scope.

(** ** Data *)

Record Config := mkConfig {
  cf_commit : list u8;
  cf_block_number_bytes : usize;
  cf_expected_authorities_set_id : u64;
  cf_num_authorities : u32
}.

Inductive Error :=
  | InvalidFormat
  | BadSetId
  | BadPublicKey
  | BadSignature
  | DuplicateSignature (key : list u8)
  | NotAuthority (key : list u8)
  | BadAncestry.

Record Verification := mkVerification {
  commit : list u8;
  block_number_bytes : usize;
  next_precommit_index : usize;
  next_precommit_author_verified : bool;
  next_precommit_block_verified : bool;
  num_verified_signatures : usize;
  num_authorities : u32;
  signatures_batch : list (list u8 * list u8 * list u8)
}.

Inductive InProgress :=
  | IsAuthority (inner : Verification)
  | IsParent (inner : Verification) (block_number : u64)
  | Finished (r : result Error unit)
  | FinishedUnknown.

(** ** The state machine *)

Section verify.
Context `{Platform} `{Nom} `{NomMulti} `{Ed25519}.

(** [decode_grandpa_commit(..).unwrap()]. *)
Definition decoded_commit (self : Verification) : option CommitMessageRef :=
  match decode_grandpa_commit (commit self) (block_number_bytes self) with
  | Some (Ok c) => Some c
  | _ => None
  end.

Definition set_author_verified (self : Verification) : Verification :=
  mkVerification (commit self) (block_number_bytes self) (next_precommit_index self) true
    (next_precommit_block_verified self) (num_verified_signatures self) (num_authorities self) (signatures_batch self).

Definition set_block_verified (self : Verification) : Verification :=
  mkVerification (commit self) (block_number_bytes self) (next_precommit_index self)
    (next_precommit_author_verified self) true (num_verified_signatures self) (num_authorities self)
    (signatures_batch self).

Definition count_signature (self : Verification) : Verification :=
  mkVerification (commit self) (block_number_bytes self) (next_precommit_index self)
    (next_precommit_author_verified self) (next_precommit_block_verified self)
    (wadd usize_bits (num_verified_signatures self) 1) (num_authorities self) (signatures_batch self).

(** Queues the signature of a precommit and goes to the next one. *)
Definition queue_signature (c : CommitMessageRef) (precommit : UnsignedPrecommitRef) (auth : list u8 * list u8)
    (self : Verification) : Verification :=
  let msg := precommit_message (block_number_bytes self) (up_target_hash precommit) (up_target_number precommit)
    (cm_round_number c) (cm_set_id c) in
  mkVerification (commit self) (block_number_bytes self) (wadd usize_bits (next_precommit_index self) 1)
    false false (num_verified_signatures self) (num_authorities self)
    (signatures_batch self ++ [(auth.2, auth.1, msg)]).

Definition same_target (c : CommitMessageRef) (precommit : UnsignedPrecommitRef) : bool :=
  bool_decide (up_target_hash precommit = cc_target_hash (cm_message c)) &&
  (up_target_number precommit =? cc_target_number (cm_message c)).

(** The end of the loop of [resume]. *)
Definition finish (c : CommitMessageRef) (self : Verification) : InProgress :=
  if len (cc_precommits (cm_message c)) <? threshold (num_authorities self) then FinishedUnknown
  else if batch_verify (signatures_batch self) then Finished (Ok tt)
  else Finished (Err BadSignature).

(** The loop of [resume]; [None] is a panic of an access to [auth_data], or that the
    turns are exhausted. *)
Fixpoint Verification_loop (fuel : nat) (c : CommitMessageRef) (self : Verification) : option InProgress :=
  match fuel with
  | O => None
  | S fuel =>
      match cc_precommits (cm_message c) !! Z.to_nat (next_precommit_index self) with
      | Some precommit =>
          if negb (next_precommit_author_verified self) then Some (IsAuthority self)
          else if negb (next_precommit_block_verified self) && negb (same_target c precommit) then
            Some (IsParent self (up_target_number precommit))
          else
            let! auth := cc_auth_data (cm_message c) !! Z.to_nat (next_precommit_index self) in
            Verification_loop fuel c (queue_signature c precommit auth self)
      | None => Some (finish c self)
      end
  end.

(** A turn goes to the next precommit, hence there are at most as many turns as
    precommits and one. *)
Definition Verification_resume (self : Verification) : option InProgress :=
  let! c := decoded_commit self in
  Verification_loop (S (length (cc_precommits (cm_message c)))) c self.

(** [auth_data.iter().find(|(_, pubkey)| !unique.insert(pubkey))]. *)
Fixpoint find_duplicate (auth_data : list (list u8 * list u8)) (unique : gset (list u8)) : option (list u8) :=
  match auth_data with
  | [] => None
  | (_, pubkey) :: auth_data =>
      if bool_decide (pubkey ∈ unique) then Some pubkey else find_duplicate auth_data ({[pubkey]} ∪ unique)
  end.

Definition verify (config : Config) : option InProgress :=
  match decode_grandpa_commit (cf_commit config) (cf_block_number_bytes config) with
  | None => None
  | Some (Err _) => Some (Finished (Err InvalidFormat))
  | Some (Ok c) =>
      if negb (cm_set_id c =? cf_expected_authorities_set_id config) then Some (Finished (Err BadSetId))
      else if negb (len (cc_auth_data (cm_message c)) =? len (cc_precommits (cm_message c))) then
        Some (Finished (Err InvalidFormat))
      else
        match find_duplicate (cc_auth_data (cm_message c)) ∅ with
        | Some faulty_pub_key => Some (Finished (Err (DuplicateSignature faulty_pub_key)))
        | None =>
            Verification_resume (mkVerification (cf_commit config) (cf_block_number_bytes config) 0 false false 0
              (cf_num_authorities config) [])
        end
  end.

Definition IsAuthority_authority_public_key (inner : Verification) : option (list u8) :=
  let! c := decoded_commit inner in
  let! auth := cc_auth_data (cm_message c) !! Z.to_nat (next_precommit_index inner) in
  Some auth.2.

Definition IsAuthority_resume (inner : Verification) (is_authority : bool) : option InProgress :=
  if negb is_authority then
    let! key := IsAuthority_authority_public_key inner in Some (Finished (Err (NotAuthority key)))
  else Verification_resume (set_author_verified inner).

Definition IsParent_block_number (block_number : u64) : u64 := block_number.

Definition IsParent_block_hash (inner : Verification) : option (list u8) :=
  let! c := decoded_commit inner in
  let! precommit := cc_precommits (cm_message c) !! Z.to_nat (next_precommit_index inner) in
  Some (up_target_hash precommit).

Definition IsParent_target_block_number (inner : Verification) : option u64 :=
  let! c := decoded_commit inner in Some (cc_target_number (cm_message c)).

Definition IsParent_target_block_hash (inner : Verification) : option (list u8) :=
  let! c := decoded_commit inner in Some (cc_target_hash (cm_message c)).

Definition IsParent_resume (inner : Verification) (is_parent : option bool) : option InProgress :=
  match is_parent with
  | None => Verification_resume (set_block_verified inner)
  | Some true => Verification_resume (set_block_verified (count_signature inner))
  | Some false => Some (Finished (Err BadAncestry))
  end.

(** ** Runs *)

Section run.
(** The answers of the user of the state machine. *)
Variable is_authority : list u8 -> bool.
Variable is_parent : list u8 -> u64 -> option bool.

(** The loop that answers the questions until the verification is finished. *)
Fixpoint run (fuel : nat) (st : InProgress) : option InProgress :=
  match st with
  | Finished _ | FinishedUnknown => Some st
  | IsAuthority inner =>
      match fuel with
      | O => None
      | S fuel =>
          let! key := IsAuthority_authority_public_key inner in
          let! st := IsAuthority_resume inner (is_authority key) in
          run fuel st
      end
  | IsParent inner block_number =>
      match fuel with
      | O => None
      | S fuel =>
          let! hash := IsParent_block_hash inner in
          let! st := IsParent_resume inner (is_parent hash (IsParent_block_number block_number)) in
          run fuel st
      end
  end.

(** *** The verdict *)

(** The first error of the votes. *)
Fixpoint votes_error (c : CommitMessageRef) (votes : list (UnsignedPrecommitRef * (list u8 * list u8))) : option Error :=
  match votes with
  | [] => None
  | (precommit, (_, key)) :: votes =>
      if negb (is_authority key) then Some (NotAuthority key)
      else if negb (same_target c precommit)
           && bool_decide (is_parent (up_target_hash precommit) (up_target_number precommit) = Some false)
      then Some BadAncestry
      else votes_error c votes
  end.

Definition signature_valid (bnb : usize) (c : CommitMessageRef) (vote : UnsignedPrecommitRef * (list u8 * list u8)) : bool :=
  let '(precommit, (signature, key)) := vote in
  ed25519_verify key signature
    (precommit_message bnb (up_target_hash precommit) (up_target_number precommit) (cm_round_number c) (cm_set_id c)).

(** The verdict on a commit, from its content and the answers. *)
Definition commit_verdict (config : Config) (decoded : result NomError CommitMessageRef) : InProgress :=
  match decoded with
  | Err _ => Finished (Err InvalidFormat)
  | Ok c =>
      let precommits := cc_precommits (cm_message c) in
      let auth_data := cc_auth_data (cm_message c) in
      if negb (cm_set_id c =? cf_expected_authorities_set_id config) then Finished (Err BadSetId)
      else if negb (len auth_data =? len precommits) then Finished (Err InvalidFormat)
      else
        match find_duplicate auth_data ∅ with
        | Some key => Finished (Err (DuplicateSignature key))
        | None =>
            match votes_error c (combine precommits auth_data) with
            | Some e => Finished (Err e)
            | None =>
                if len precommits <? threshold (cf_num_authorities config) then FinishedUnknown
                else if forallb (signature_valid (cf_block_number_bytes config) c) (combine precommits auth_data)
                then Finished (Ok tt)
                else Finished (Err BadSignature)
            end
        end
  end.

(** *** What a run may end with *)

(** A vote that is not an obstacle: of an authority, for the target of the commit or
    for a block that the user has not said to be no descendant of it. *)
Definition good_vote (c : CommitMessageRef) (vote : UnsignedPrecommitRef * (list u8 * list u8)) : Prop :=
  let '(precommit, (_, key)) := vote in
  is_authority key = true /\
  ((up_target_hash precommit = cc_target_hash (cm_message c) /\ up_target_number precommit = cc_target_number (cm_message c)) \/
   is_parent (up_target_hash precommit) (up_target_number precommit) <> Some false).

(** The checks that come before the votes. *)
Record well_formed (config : Config) (c : CommitMessageRef) : Prop := {
  wf_set_id : cm_set_id c = cf_expected_authorities_set_id config;
  wf_lengths : length (cc_auth_data (cm_message c)) = length (cc_precommits (cm_message c));
}.

(** The outcome of a commit: the checks in the order in which they are reported, each
    with the condition under which it is. The quorum is counted on all the votes, and
    the signatures are verified once there is one. *)
Inductive commit_outcome (config : Config) : result NomError CommitMessageRef -> InProgress -> Prop :=
  | outcome_format e : commit_outcome config (Err e) (Finished (Err InvalidFormat))
  | outcome_set_id c :
      cm_set_id c <> cf_expected_authorities_set_id config ->
      commit_outcome config (Ok c) (Finished (Err BadSetId))
  | outcome_lengths c :
      cm_set_id c = cf_expected_authorities_set_id config ->
      length (cc_auth_data (cm_message c)) <> length (cc_precommits (cm_message c)) ->
      commit_outcome config (Ok c) (Finished (Err InvalidFormat))
  | outcome_duplicate c before key after :
      well_formed config c -> (cc_auth_data (cm_message c)).*2 = before ++ key :: after ->
      NoDup before -> key ∈ before ->
      commit_outcome config (Ok c) (Finished (Err (DuplicateSignature key)))
  | outcome_author c before precommit signature key after :
      well_formed config c -> NoDup (cc_auth_data (cm_message c)).*2 ->
      combine (cc_precommits (cm_message c)) (cc_auth_data (cm_message c)) = before ++ (precommit, (signature, key)) :: after ->
      Forall (good_vote c) before -> is_authority key = false ->
      commit_outcome config (Ok c) (Finished (Err (NotAuthority key)))
  | outcome_ancestry c before precommit signature key after :
      well_formed config c -> NoDup (cc_auth_data (cm_message c)).*2 ->
      combine (cc_precommits (cm_message c)) (cc_auth_data (cm_message c)) = before ++ (precommit, (signature, key)) :: after ->
      Forall (good_vote c) before -> is_authority key = true ->
      (up_target_hash precommit, up_target_number precommit) <> (cc_target_hash (cm_message c), cc_target_number (cm_message c)) ->
      is_parent (up_target_hash precommit) (up_target_number precommit) = Some false ->
      commit_outcome config (Ok c) (Finished (Err BadAncestry))
  | outcome_few c :
      well_formed config c -> NoDup (cc_auth_data (cm_message c)).*2 ->
      Forall (good_vote c) (combine (cc_precommits (cm_message c)) (cc_auth_data (cm_message c))) ->
      3 * len (cc_precommits (cm_message c)) <= 2 * cf_num_authorities config ->
      commit_outcome config (Ok c) FinishedUnknown
  | outcome_votes c (valid : bool) :
      well_formed config c -> NoDup (cc_auth_data (cm_message c)).*2 ->
      Forall (good_vote c) (combine (cc_precommits (cm_message c)) (cc_auth_data (cm_message c))) ->
      2 * cf_num_authorities config < 3 * len (cc_precommits (cm_message c)) ->
      (valid = true <-> Forall (fun vote => signature_valid (cf_block_number_bytes config) c vote = true)
        (combine (cc_precommits (cm_message c)) (cc_auth_data (cm_message c)))) ->
      commit_outcome config (Ok c) (Finished (if valid then Ok tt else Err BadSignature)).

End run.

End verify.

(** ** The runs reach the verdict *)

Section facts.
Context `{Platform} `{Nom} `{!NomLaws} `{NomMulti} `{!NomMultiLaws} `{Ed25519} `{!Ed25519Laws}.
Variable is_authority : list u8 -> bool.
Variable is_parent : list u8 -> u64 -> option bool.

Section decoded.
Context (bytes : list u8) (bnb : usize) (num : u32) (c : CommitMessageRef).
Hypothesis Hdec : decode_grandpa_commit bytes bnb = Some (Ok c).
Hypothesis Hlen : length (cc_auth_data (cm_message c)) = length (cc_precommits (cm_message c)).
Hypothesis Hsize : is_usize (len (cc_precommits (cm_message c))).

Let pairs : list (UnsignedPrecommitRef * (list u8 * list u8)) := combine (cc_precommits (cm_message c)) (cc_auth_data (cm_message c)).

Definition commit_item (vote : UnsignedPrecommitRef * (list u8 * list u8)) : list u8 * list u8 * list u8 :=
  (vote.2.2, vote.2.1, precommit_message bnb (up_target_hash vote.1) (up_target_number vote.1) (cm_round_number c) (cm_set_id c)).

(** The state before the vote [i]. *)
Definition at_vote (i : nat) (nv : usize) : Verification :=
  mkVerification bytes bnb (Z.of_nat i) false false nv num (map commit_item (take i pairs)).
(** The question on it, or the end. *)
Definition reach (i : nat) (nv : usize) : InProgress :=
  if decide (i < length (cc_precommits (cm_message c)))%nat then IsAuthority (at_vote i nv) else finish c (at_vote i nv).

Lemma pairs_length : length pairs = length (cc_precommits (cm_message c)).
Proof. unfold pairs. rewrite length_combine, Hlen. lia. Qed.

Lemma pairs_lookup i p a :
  pairs !! i = Some (p, a) ->
  cc_precommits (cm_message c) !! i = Some p /\ cc_auth_data (cm_message c) !! i = Some a.
Proof.
  unfold pairs. generalize (cc_precommits (cm_message c)) (cc_auth_data (cm_message c)). intros l.
  revert i. induction l as [|x l IH]; intros [|i] [|y k] E; cbn in *; try done; [by injection E as <- <-|by apply IH].
Qed.

Lemma loop_at fuel i nv : Verification_loop (S fuel) c (at_vote i nv) = Some (reach i nv).
Proof.
  cbn [Verification_loop at_vote next_precommit_index next_precommit_author_verified]. rewrite Nat2Z.id. unfold reach.
  destruct (cc_precommits (cm_message c) !! i) as [p|] eqn:E.
  - rewrite decide_True by (by eapply lookup_lt_Some). done.
  - rewrite decide_False by (apply lookup_ge_None in E; lia). done.
Qed.

Lemma queue_next i nv p a av bv :
  pairs !! i = Some (p, a) ->
  queue_signature c p a (mkVerification bytes bnb (Z.of_nat i) av bv nv num (map commit_item (take i pairs))) = at_vote (S i) nv.
Proof.
  intros Hi. apply lookup_lt_Some in Hi as Hlt. rewrite pairs_length in Hlt. unfold queue_signature, at_vote.
  cbn [commit block_number_bytes next_precommit_index num_verified_signatures num_authorities signatures_batch].
  rewrite (take_S_r _ _ _ Hi), map_app. unfold wadd, is_uint, len in *. rewrite wrap_small by (unfold is_uint; lia). f_equal. lia.
Qed.

(** The author of the vote [i] is an authority: the block is asked, unless it is the
    target. *)
Lemma resume_author i nv p a :
  pairs !! i = Some (p, a) ->
  Verification_resume (set_author_verified (at_vote i nv)) =
  Some (if same_target c p then reach (S i) nv else IsParent (set_author_verified (at_vote i nv)) (up_target_number p)).
Proof.
  intros Hi. apply pairs_lookup in Hi as Hl. destruct Hl as [Hp Ha]. apply lookup_lt_Some in Hp as Hlt.
  change (set_author_verified (at_vote i nv))
    with (mkVerification bytes bnb (Z.of_nat i) true false nv num (map commit_item (take i pairs))).
  unfold Verification_resume, decoded_commit. cbn [commit block_number_bytes]. rewrite Hdec.
  destruct (Nat.lt_exists_pred 0 (length (cc_precommits (cm_message c)))) as (n & Ef & _); [lia|].
  cbn [Verification_loop next_precommit_index next_precommit_author_verified next_precommit_block_verified negb andb].
  rewrite Nat2Z.id, Hp. destruct (same_target c p); cbn [negb]; [|done].
  rewrite Ha, queue_next by done. rewrite Ef. apply loop_at.
Qed.

Lemma resume_block i nv p a :
  pairs !! i = Some (p, a) ->
  Verification_resume (mkVerification bytes bnb (Z.of_nat i) true true nv num (map commit_item (take i pairs))) =
  Some (reach (S i) nv).
Proof.
  intros Hi. apply pairs_lookup in Hi as Hl. destruct Hl as [Hp Ha]. apply lookup_lt_Some in Hp as Hlt.
  unfold Verification_resume, decoded_commit. cbn [commit block_number_bytes]. rewrite Hdec.
  destruct (Nat.lt_exists_pred 0 (length (cc_precommits (cm_message c)))) as (n & Ef & _); [lia|].
  cbn [Verification_loop next_precommit_index next_precommit_author_verified next_precommit_block_verified negb andb].
  rewrite Nat2Z.id, Hp, Ha, queue_next by done. rewrite Ef. apply loop_at.
Qed.

Lemma batch_all :
  batch_verify (map commit_item pairs) = forallb (signature_valid bnb c) pairs.
Proof.
  rewrite batch_verify_spec. induction pairs as [|[p [s k]] l IH]; [done|]. cbn [map forallb]. by rewrite IH.
Qed.

Lemma ask_key i nv p s k :
  pairs !! i = Some (p, (s, k)) -> IsAuthority_authority_public_key (at_vote i nv) = Some k.
Proof.
  intros [_ Ha]%pairs_lookup. unfold IsAuthority_authority_public_key, decoded_commit.
  cbn [at_vote commit block_number_bytes next_precommit_index]. by rewrite Hdec, Nat2Z.id, Ha.
Qed.

Lemma ask_hash i nv p a :
  pairs !! i = Some (p, a) -> IsParent_block_hash (set_author_verified (at_vote i nv)) = Some (up_target_hash p).
Proof.
  intros [Hp _]%pairs_lookup. unfold IsParent_block_hash, decoded_commit, set_author_verified.
  cbn [at_vote commit block_number_bytes next_precommit_index]. by rewrite Hdec, Nat2Z.id, Hp.
Qed.

(** The answer on the block of the vote [i]. *)
Lemma answer_block i nv p a (answer : option bool) :
  pairs !! i = Some (p, a) ->
  exists nv', IsParent_resume (set_author_verified (at_vote i nv)) answer =
    Some (if bool_decide (answer = Some false) then Finished (Err BadAncestry) else reach (S i) nv').
Proof.
  intros Hi. destruct answer as [[]|]; cbn [IsParent_resume].
  - eexists. exact (resume_block i _ p a Hi).
  - by exists 0.
  - eexists. exact (resume_block i _ p a Hi).
Qed.

(** One vote: two questions at most. *)
Lemma run_vote i nv p s k fuel :
  pairs !! i = Some (p, (s, k)) ->
  exists fuel' nv', (fuel <= fuel')%nat /\
  run is_authority is_parent (S (S fuel)) (reach i nv) =
  if negb (is_authority k) then Some (Finished (Err (NotAuthority k)))
  else if negb (same_target c p) && bool_decide (is_parent (up_target_hash p) (up_target_number p) = Some false)
  then Some (Finished (Err BadAncestry))
  else run is_authority is_parent fuel' (reach (S i) nv').
Proof.
  intros Hi. apply pairs_lookup in Hi as Hl. destruct Hl as [Hp _]. apply lookup_lt_Some in Hp as Hlt.
  unfold reach at 1. rewrite decide_True by done. remember (S fuel) as fuel1 eqn:Ef. cbn [run].
  rewrite (ask_key i nv p s k Hi). unfold IsAuthority_resume. rewrite (ask_key i nv p s k Hi).
  destruct (is_authority k); cbn [negb]; [|exists fuel, nv; split; [lia|by subst fuel1]].
  rewrite (resume_author i nv p _ Hi). destruct (same_target c p); cbn [negb andb]; [exists fuel1, nv; split; [lia|done]|].
  subst fuel1. cbn [run]. rewrite (ask_hash i nv p _ Hi). unfold IsParent_block_number.
  destruct (answer_block i nv p _ (is_parent (up_target_hash p) (up_target_number p)) Hi) as [nv' ->].
  exists fuel, nv'. split; [lia|]. case_match; [by destruct fuel|done].
Qed.

(** What remains to be decided from the vote [i]. *)
Lemma run_from votes i nv fuel :
  drop i pairs = votes -> (i <= length (cc_precommits (cm_message c)))%nat -> (2 * length votes <= fuel)%nat ->
  run is_authority is_parent fuel (reach i nv) =
  Some (match votes_error is_authority is_parent c votes with
        | Some e => Finished (Err e)
        | None =>
            if len (cc_precommits (cm_message c)) <? threshold num then FinishedUnknown
            else if forallb (signature_valid bnb c) pairs then Finished (Ok tt) else Finished (Err BadSignature)
        end).
Proof.
  revert i nv fuel. induction votes as [|[p [s k]] votes IH]; intros i nv fuel Hdrop Hi Hf.
  - assert (Hn : i = length (cc_precommits (cm_message c))).
    { apply (f_equal length) in Hdrop. rewrite length_drop, pairs_length in Hdrop. cbn in Hdrop. lia. }
    unfold reach. rewrite decide_False by lia. cbn [votes_error]. unfold finish. cbn [num_authorities signatures_batch at_vote].
    rewrite take_ge by (rewrite pairs_length; lia). rewrite batch_all.
    destruct (len _ <? threshold num); [by destruct fuel|]. destruct (forallb _ _); by destruct fuel.
  - destruct fuel as [|[|fuel]]; [cbn in Hf; lia..|].
    assert (Hlook : pairs !! i = Some (p, (s, k))) by (by rewrite <- (Nat.add_0_r i), <- lookup_drop, Hdrop).
    assert (Hnext : drop (S i) pairs = votes) by (by rewrite (drop_S _ _ _ Hlook) in Hdrop; injection Hdrop).
    apply lookup_lt_Some in Hlook as Hlt. rewrite pairs_length in Hlt.
    destruct (run_vote i nv p s k fuel Hlook) as (fuel' & nv' & Hfuel & ->). cbn [votes_error].
    destruct (is_authority k); cbn [negb]; [|done]. destruct (_ && bool_decide _); [done|]. apply IH; [done|lia|cbn in Hf; lia].
Qed.

End decoded.

(** A run ends, and its result is the verdict. *)
Lemma commit_run_returns (config : Config) :
  is_bytes (cf_commit config) -> 0 <= cf_block_number_bytes config ->
  exists decoded st, decode_grandpa_commit (cf_commit config) (cf_block_number_bytes config) = Some decoded /\
    verify config = Some st /\
    forall fuel, (match decoded with Ok c => 2 * length (cc_precommits (cm_message c)) | Err _ => 0 end <= fuel)%nat ->
      run is_authority is_parent fuel st = Some (commit_verdict is_authority is_parent config decoded).
Proof.
  intros Hbytes Hb. destruct (decode_commit_returns _ _ Hb Hbytes) as [decoded Hdec]. exists decoded.
  unfold verify, commit_verdict. rewrite Hdec. destruct decoded as [c|e].
  2: { eexists. split_and!; [done..|]. intros fuel _. by destruct fuel. }
  destruct (cm_set_id c =? _); cbn [negb]; [|eexists; split_and!; [done..|]; intros fuel _; by destruct fuel].
  destruct (Z.eqb_spec (len (cc_auth_data (cm_message c))) (len (cc_precommits (cm_message c)))) as [Hlen|]; cbn [negb];
    [|eexists; split_and!; [done..|]; intros fuel _; by destruct fuel].
  destruct (find_duplicate _ ∅); [eexists; split_and!; [done..|]; intros fuel _; by destruct fuel|].
  assert (Hlen' : length (cc_auth_data (cm_message c)) = length (cc_precommits (cm_message c))) by (unfold len in Hlen; lia).
  assert (Hsize : is_usize (len (cc_precommits (cm_message c)))).
  { apply decode_commit_partial in Hdec. apply commit_decode_iff in Hdec as (_ & pl & al & (Hn & _) & _); [done..]. }
  exists (reach (cf_commit config) (cf_block_number_bytes config) (cf_num_authorities config) c 0 0).
  split_and!; [done| |].
  - unfold Verification_resume, decoded_commit. cbn [commit block_number_bytes]. rewrite Hdec. exact (loop_at _ _ _ c Hlen' _ 0 0).
  - intros fuel Hf. apply run_from; [done..|lia|]. rewrite length_combine. lia.
Qed.

(** *** The outcome *)

Lemma find_duplicate_None (auth_data : list (list u8 * list u8)) (unique : gset (list u8)) :
  find_duplicate auth_data unique = None <-> NoDup auth_data.*2 /\ forall k, k ∈ auth_data.*2 -> k ∉ unique.
Proof.
  revert unique. induction auth_data as [|[s k] l IH]; intros unique; cbn [find_duplicate].
  { split; [intros _; split; [constructor|by intros ? ?%elem_of_nil]|done]. }
  rewrite !fmap_cons. cbn [snd]. rewrite NoDup_cons. setoid_rewrite elem_of_cons. case_bool_decide as Hk.
  - split; [done|]. intros [_ Hn]. exfalso. by apply (Hn k); [left|].
  - rewrite IH. setoid_rewrite elem_of_union. setoid_rewrite elem_of_singleton. split; [naive_solver|].
    intros [[Hkl Hnd] Hn]. split; [done|]. intros j Hj [->|?]; [done|]. apply (Hn j); [by right|done].
Qed.

Lemma votes_error_None c votes :
  votes_error is_authority is_parent c votes = None <->
  Forall (fun '(p, (_, k)) => is_authority k = true /\
    (same_target c p = true \/ is_parent (up_target_hash p) (up_target_number p) <> Some false)) votes.
Proof.
  induction votes as [|[p [s k]] votes IH]; [done|]. cbn [votes_error]. rewrite Forall_cons.
  destruct (is_authority k); cbn [negb]; [|naive_solver]. destruct (same_target c p); cbn [negb andb]; [naive_solver|].
  case_bool_decide; naive_solver.
Qed.

Lemma find_duplicate_Some (auth_data : list (list u8 * list u8)) (unique : gset (list u8)) key :
  find_duplicate auth_data unique = Some key <->
  exists before after, auth_data.*2 = before ++ key :: after /\ NoDup before /\
    (forall j, j ∈ before -> j ∉ unique) /\ (key ∈ before \/ key ∈ unique).
Proof.
  revert unique. induction auth_data as [|[s k] l IH]; intros unique; cbn [find_duplicate].
  { split; [done|]. by intros ([|??] & ? & ? & _). }
  rewrite fmap_cons. cbn [snd]. case_bool_decide as Hk.
  - split.
    + intros [= ->]. exists [], l.*2. split_and!; [done|constructor|by intros ? ?%elem_of_nil|by right].
    + intros ([|j before] & after & E & _ & Hn & _); [by injection E as -> _|]. injection E as -> _.
      destruct (Hn j); [by left|done].
  - rewrite IH. split.
    + intros (before & after & E & Hnd & Hn & Hkey). exists (k :: before), after. rewrite E. split_and!; [done|..].
      * constructor; [|done]. intros Hin. apply (Hn k Hin). set_solver.
      * intros j [->|Hj]%elem_of_cons; [done|]. specialize (Hn j Hj). set_solver.
      * set_solver.
    + intros ([|j before] & after & E & Hnd & Hn & Hkey); injection E as -> E; [set_solver|].
      apply NoDup_cons in Hnd as [Hj Hnd]. exists before, after. split_and!; [done..| |].
      * intros i Hi. specialize (Hn i). assert (i <> j) by congruence. set_solver.
      * set_solver.
Qed.

Lemma good_vote_iff c p s k :
  good_vote is_authority is_parent c (p, (s, k)) <->
  is_authority k = true /\ (same_target c p = true \/ is_parent (up_target_hash p) (up_target_number p) <> Some false).
Proof. unfold good_vote, same_target. cbn. rewrite andb_true_iff, bool_decide_eq_true, Z.eqb_eq. done. Qed.

Lemma votes_error_good c votes :
  votes_error is_authority is_parent c votes = None <-> Forall (good_vote is_authority is_parent c) votes.
Proof.
  rewrite votes_error_None. apply Forall_iff. intros [p [s k]]. by rewrite good_vote_iff.
Qed.

(** The first vote that is not good decides. *)
Lemma votes_error_first c before p s k after :
  Forall (good_vote is_authority is_parent c) before -> ~ good_vote is_authority is_parent c (p, (s, k)) ->
  votes_error is_authority is_parent c (before ++ (p, (s, k)) :: after) =
  Some (if is_authority k then BadAncestry else NotAuthority k).
Proof.
  intros Hb Hbad. rewrite good_vote_iff in Hbad. induction Hb as [|[p' [s' k']] before Hv _ IH]; cbn [app votes_error].
  - destruct (is_authority k); cbn [negb]; [|done]. destruct (same_target c p); cbn [negb andb]; [naive_solver|].
    case_bool_decide; naive_solver.
  - apply good_vote_iff in Hv as [-> Hv]. cbn [negb]. destruct (same_target c p'); cbn [negb andb]; [done|].
    case_bool_decide; naive_solver.
Qed.

Lemma votes_error_split c votes e :
  votes_error is_authority is_parent c votes = Some e ->
  exists before p s k after, votes = before ++ (p, (s, k)) :: after /\
    Forall (good_vote is_authority is_parent c) before /\ ~ good_vote is_authority is_parent c (p, (s, k)) /\
    e = if is_authority k then BadAncestry else NotAuthority k.
Proof.
  induction votes as [|[p [s k]] votes IH]; [done|]. intros He.
  assert (Decision (good_vote is_authority is_parent c (p, (s, k)))) as [Hg|Hg] by (unfold good_vote; apply _).
  - assert (Hv := Hg). apply good_vote_iff in Hv as [Hk Hv]. cbn [votes_error] in He. rewrite Hk in He. cbn [negb] in He.
    assert (votes_error is_authority is_parent c votes = Some e) as (b & p' & s' & k' & a & -> & Hb & Hr)%IH.
    { destruct (same_target c p); cbn [negb andb] in He; [done|]. case_bool_decide; naive_solver. }
    exists ((p, (s, k)) :: b), p', s', k', a. split; [done|]. split; [by constructor|done].
  - exists [], p, s, k, votes. split_and!; [done|constructor|done|].
    pose proof (votes_error_first c [] p s k votes) as Hf. cbn [app] in Hf. rewrite Hf in He by (done || constructor). congruence.
Qed.

Lemma signatures_valid_iff bnb c votes :
  Forall (fun vote => signature_valid bnb c vote = true) votes <-> forallb (signature_valid bnb c) votes = true.
Proof. rewrite forallb_forall, Forall_forall. by setoid_rewrite list_elem_of_In. Qed.

Section outcome.
Context (config : Config).
Hypothesis Hnum : 0 <= cf_num_authorities config.
Hypothesis Hbound : 2 * cf_num_authorities config < 2 ^ usize_bits.

Lemma verdict_outcome decoded :
  commit_outcome is_authority is_parent config decoded (commit_verdict is_authority is_parent config decoded).
Proof.
  destruct decoded as [c|e]; unfold commit_verdict; [|constructor].
  destruct (Z.eqb_spec (cm_set_id c) (cf_expected_authorities_set_id config)) as [Hid|Hid]; cbn [negb]; [|by constructor].
  destruct (Z.eqb_spec (len (cc_auth_data (cm_message c))) (len (cc_precommits (cm_message c)))) as [Hlen|Hlen]; cbn [negb].
  2: { apply outcome_lengths; [done|]. unfold len in Hlen. lia. }
  assert (well_formed config c) by (split; [done|unfold len in Hlen; lia]).
  destruct (find_duplicate _ ∅) as [key|] eqn:Hdup.
  { apply find_duplicate_Some in Hdup as (b & a & E & Hnd & _ & [Hin|[]%elem_of_empty]). by apply (outcome_duplicate _ _ _ _ b key a). }
  apply find_duplicate_None in Hdup as [Hnd _].
  destruct (votes_error _ _ c _) as [e|] eqn:Hve.
  { apply votes_error_split in Hve as (b & p & s & k & a & E & Hb & Hbad & ->). destruct (is_authority k) eqn:Hk.
    - unfold good_vote in Hbad. apply (outcome_ancestry _ _ _ _ b p s k a); [done..| |].
      + intros [= ? ?]. naive_solver.
      + destruct (is_parent _ _) as [[|]|]; naive_solver.
    - by apply (outcome_author _ _ _ _ b p s k a). }
  apply votes_error_good in Hve.
  destruct (Z.ltb_spec (len (cc_precommits (cm_message c))) (threshold (cf_num_authorities config))) as [Hlt|Hge].
  { apply outcome_few; [done..|]. apply Z.nlt_ge. rewrite <- quorum_iff by done. lia. }
  apply quorum_iff in Hge; [|done..].
  pose proof (outcome_votes is_authority is_parent config c
    (forallb (signature_valid (cf_block_number_bytes config) c) (combine (cc_precommits (cm_message c)) (cc_auth_data (cm_message c))))) as Ho.
  rewrite signatures_valid_iff in Ho. destruct (forallb _ _); by apply Ho.
Qed.

Lemma outcome_verdict decoded r :
  commit_outcome is_authority is_parent config decoded r -> r = commit_verdict is_authority is_parent config decoded.
Proof.
  unfold commit_verdict. destruct 1 as [e|c Hid|c Hid Hlen|c b k a Hw E Hnd Hin|c b p s k a Hw Hnd E Hb Hk|c b p s k a Hw Hnd E Hb Hk Ht Hp
    |c Hw Hnd Hg Hq|c valid Hw Hnd Hg Hq Hs]; [done|..].
  all: try destruct Hw as [Hid Hlen].
  { by apply Z.eqb_neq in Hid as ->. }
  all: rewrite Hid, Z.eqb_refl; cbn [negb].
  { by destruct (Z.eqb_spec (len (cc_auth_data (cm_message c))) (len (cc_precommits (cm_message c)))); [unfold len in *; lia|]. }
  all: unfold len; rewrite Hlen, Z.eqb_refl; cbn [negb].
  { rewrite (proj2 (find_duplicate_Some _ ∅ k)); [done|]. exists b, a. split_and!; [done..|set_solver|by left]. }
  all: rewrite (proj2 (find_duplicate_None _ ∅)) by (split; [done|set_solver]).
  { rewrite E, votes_error_first, Hk; [done..|]. by rewrite good_vote_iff, Hk; intros []. }
  { rewrite E, votes_error_first, Hk; [done..|]. unfold good_vote. rewrite Hp. intros [_ [[]|]]; congruence. }
  all: rewrite (proj2 (votes_error_good _ _)) by done.
  - destruct (Z.ltb_spec (Z.of_nat (length (cc_precommits (cm_message c)))) (threshold (cf_num_authorities config))) as [|Hge]; [done|].
    apply quorum_iff in Hge; [unfold len in Hq; lia|done..].
  - apply quorum_iff in Hq; [|done..]. unfold len in Hq. rewrite (proj2 (Z.ltb_ge _ _)) by done.
    rewrite signatures_valid_iff in Hs. destruct valid, (forallb _ _); naive_solver.
Qed.

End outcome.

(** C19: the verification of a commit ends with the one outcome of its content: whatever
    the answers (functions of the key and of the block asked about), a run asks at most two questions for each vote, does not panic, and
    returns the outcome that [commit_outcome] gives, and only it gives, for the decoded
    commit: an error for the format, the identifier of the set of authorities, the
    lengths, the first key that repeats, the first vote whose author is not an authority
    or whose block is said not to descend from the target; then [FinishedUnknown] without
    the votes of two thirds, and otherwise success or an error for the signatures. The
    quorum is counted on all the votes: those for which the answer was [None] count as
    well, and [FinishedUnknown] says that there are too few votes, whatever the answers,
    which the documentation of the source denies. *)
Theorem commit_run_verdict (config : Config) :
  is_bytes (cf_commit config) -> 0 <= cf_block_number_bytes config ->
  0 <= cf_num_authorities config -> 2 * cf_num_authorities config < 2 ^ usize_bits ->
  exists decoded st r, decode_grandpa_commit (cf_commit config) (cf_block_number_bytes config) = Some decoded /\
    verify config = Some st /\ (forall r', commit_outcome is_authority is_parent config decoded r' <-> r' = r) /\
    forall fuel, (match decoded with Ok c => 2 * length (cc_precommits (cm_message c)) | Err _ => 0 end <= fuel)%nat ->
      run is_authority is_parent fuel st = Some r.
Proof.
  intros Hb Hn Hnum Hbound. destruct (commit_run_returns config Hb Hn) as (decoded & st & Hd & Hv & Hrun).
  exists decoded, st, (commit_verdict is_authority is_parent config decoded). split_and!; [done..| |done].
  intros r. split; [by apply outcome_verdict|]. intros ->. by apply verdict_outcome.
Qed.

(** *** What is accepted *)

(** The verdict that accepts. *)
Lemma verdict_Ok config c :
  commit_verdict is_authority is_parent config (Ok c) = Finished (Ok tt) ->
  let votes := combine (cc_precommits (cm_message c)) (cc_auth_data (cm_message c)) in
  cm_set_id c = cf_expected_authorities_set_id config /\ len votes = len (cc_precommits (cm_message c)) /\
  NoDup (map (fun v => snd (snd v)) votes) /\ threshold (cf_num_authorities config) <= len votes /\
  Forall (fun v => signature_valid (cf_block_number_bytes config) c v = true) votes /\
  Forall (fun '(p, (_, k)) => is_authority k = true /\
    (same_target c p = true \/ is_parent (up_target_hash p) (up_target_number p) <> Some false)) votes.
Proof.
  intros Hv votes. unfold commit_verdict in Hv. revert Hv.
  destruct (Z.eqb_spec (cm_set_id c) (cf_expected_authorities_set_id config)) as [Hid|]; cbn [negb]; [|done].
  destruct (Z.eqb_spec (len (cc_auth_data (cm_message c))) (len (cc_precommits (cm_message c)))) as [Hlen|]; cbn [negb]; [|done].
  destruct (find_duplicate _ ∅) eqn:Hdup; [done|]. apply find_duplicate_None in Hdup as [Hnd _]. fold votes.
  destruct (votes_error _ _ c votes) eqn:Hve; [done|]. apply votes_error_None in Hve.
  assert (Hlv : len votes = len (cc_precommits (cm_message c))) by (unfold votes, len in *; rewrite length_combine; lia).
  destruct (Z.ltb_spec (len (cc_precommits (cm_message c))) (threshold (cf_num_authorities config))); [done|].
  destruct (forallb _ votes) eqn:Hs; [|done]. intros _. split_and!; try done; [|lia|].
  - assert (map (fun v => snd (snd v)) votes = (cc_auth_data (cm_message c)).*2) as ->; [|done].
    unfold votes. unfold len in Hlen. revert Hlen. generalize (cc_auth_data (cm_message c)) as l, (cc_precommits (cm_message c)) as l'.
    induction l as [|x l IH]; intros [|y l'] E; cbn in *; [done|lia|lia|]. f_equal. apply IH. lia.
  - apply Forall_forall. intros v Hin. rewrite forallb_forall in Hs. apply Hs. by apply list_elem_of_In.
Qed.

End facts.

(** ** Examples *)

(** The vote of the key [k] for a block. *)
Definition toy_commit (target : u8) (votes : list (u8 * u8)) : CommitMessageRef :=
  mkCommitMessageRef 5 1 (mkCompactCommitRef (replicate 32 target) 7
    (map (fun '(_, block) => mkUnsignedPrecommitRef (replicate 32 block) 9) votes)
    (map (fun '(k, _) => (replicate 32 k ++ replicate 32 0, replicate 32 k)) votes)).

Definition toy_config (c : CommitMessageRef) (n : u8) : Config :=
  mkConfig (commit_bytes 4 c [4 * n] [4 * n]) 4 1 4.

Definition toy_run (config : Config) (parent : option bool) : option InProgress :=
  let! st := @verify platform64 nom_complete nom_multi toy_ed25519 config in
  @run platform64 nom_complete nom_multi toy_ed25519 (fun _ => true) (fun _ _ => parent) 6 st.

(** A commit for the block [9] whose votes are all for the block [8], which the user
    does not know to be a descendant of it, is accepted: the number of verified
    signatures is not used. *)
Lemma unknown_votes_accepted :
  toy_run (toy_config (toy_commit 9 [(1, 8); (2, 8); (3, 8)]) 3) None = Some (Finished (Ok tt)).
Proof. vm_compute. reflexivity. Qed.

(** And a commit that has too few votes, all known to be valid, is reported as one to
    verify again when more blocks are known. *)
Lemma few_votes_unknown :
  toy_run (toy_config (toy_commit 9 [(1, 8); (2, 8)]) 2) (Some true) = Some FinishedUnknown.
Proof. vm_compute. reflexivity. Qed.

Lemma commit_run_verdict_witness :
  exists decoded st,
    @decode_grandpa_commit platform64 nom_complete nom_multi (cf_commit (toy_config (toy_commit 9 [(1, 8); (2, 9)]) 2)) 4
      = Some decoded /\
    @verify platform64 nom_complete nom_multi toy_ed25519 (toy_config (toy_commit 9 [(1, 8); (2, 9)]) 2) = Some st /\
    exists r, @commit_outcome toy_ed25519 (fun _ => true) (fun _ _ => Some false) (toy_config (toy_commit 9 [(1, 8); (2, 9)]) 2) decoded r /\
      @run platform64 nom_complete nom_multi toy_ed25519 (fun _ => true) (fun _ _ => Some false) 4 st = Some r.
Proof.
  destruct (@commit_run_verdict platform64 nom_complete nom_complete_laws nom_multi nom_multi_laws toy_ed25519 toy_ed25519_laws
    (fun _ => true) (fun _ _ => Some false) (toy_config (toy_commit 9 [(1, 8); (2, 9)]) 2)) as (decoded & st & r & Hd & Hv & Ho & Hrun).
  - vm_compute. repeat constructor; discriminate.
  - done.
  - done.
  - done.
  - exists decoded, st. split; [exact Hd|]. split; [exact Hv|]. exists r. split; [by apply Ho|]. apply Hrun.
    vm_compute in Hd. injection Hd as <-. vm_compute. lia.
Defined.
