(* ===== verification/WarpSync.v ===== *)
(** * Verification of warp sync proofs ([src/src/finality/grandpa/warp_sync.rs])

    A proof is a list of headers, each with a justification by the authorities that
    the header before it announces. The verifier goes through the list one fragment
    at a time; it succeeds exactly on the chains of headers that are each justified
    by the authorities of their time. *)

From S2P Require Import Prelude Leb128 Scale Nibble TrieNode HeaderBase HeaderAura HeaderBabe HeaderGrandpa Header HeaderDigest HeaderCodec ChainInformation FinalityBase Justification JustificationVerify.

Open Scope Z_scope.

(** ** Data *)

(** [enum Error]. *)
Inductive Error :=
  | Verify (err : JustificationVerify.Error)
  | TargetHashMismatch (justification_target_hash : list u8) (justification_target_height : u64) (header_hash : list u8)
  | NonMinimalProof
  | EmptyProofError
  | InvalidHeader (err : HeaderBase.Error)
  | InvalidJustification (err : NomError)
  | WrongChainAlgorithm.

Record WarpSyncFragment := mkWarpSyncFragment {
  scale_encoded_header : list u8;
  scale_encoded_justification : list u8
}.

Record Verifier := mkVerifier {
  wrong_chain_algorithm : bool;
  index : usize;
  authorities_set_id : u64;
  authorities_list : list GrandpaAuthority;
  fragments : list WarpSyncFragment;
  is_proof_complete : bool;
  block_number_bytes : usize
}.

Inductive Next :=
  | NotFinished (v : Verifier)
  | EmptyProof
  | Success (scale_encoded_header : list u8) (chain_information_finality : ChainInformationFinality).

(** ** The verifier *)

Section warp_sync.
Context `{Platform} `{Nom} `{NomMulti} `{Ed25519} `{Blake2b}.

Definition Verifier_new (start_chain_information_finality : ChainInformationFinality) (block_number_bytes : usize)
    (warp_sync_response_fragments : list WarpSyncFragment) (is_proof_complete : bool) : Verifier :=
  let '(wrong_chain_algorithm, authorities_list, authorities_set_id) :=
    match start_chain_information_finality with
    | Grandpa set_id authorities _ => (false, authorities, set_id)
    | _ => (true, [], 0)
    end in
  mkVerifier wrong_chain_algorithm 0 authorities_set_id authorities_list warp_sync_response_fragments
    is_proof_complete block_number_bytes.

(** The closure of [find_map]. *)
Definition change_of_log (log_item : DigestItemRef) : option GrandpaAuthoritiesIter :=
  match log_item with
  | ItemGrandpaConsensus (ScheduledChange change) => Some (next_authorities change)
  | ItemGrandpaConsensus (ForcedChange _ change) => Some (next_authorities change)
  | _ => None
  end.

(** [logs().find_map(..)]: [None] is a panic of the iterator. *)
Fixpoint find_change (fuel : nat) (logs : LogsIter) : option (option GrandpaAuthoritiesIter) :=
  match fuel with
  | O => None
  | S fuel =>
      match LogsIter_next logs with
      | None => None
      | Some None => Some None
      | Some (Some (log_item, logs)) =>
          match change_of_log log_item with
          | Some l => Some (Some l)
          | None => find_change fuel logs
          end
      end
  end.

(** The authorities that a header announces. *)
Definition next_authorities_list (header : HeaderRef) : option (option (list GrandpaAuthority)) :=
  let logs := DigestRef_logs (hd_digest header) in
  let! change := find_change (LogsIter_fuel logs) logs in
  match change with
  | None => Some None
  | Some next_authorities => let! l := iter_collect next_authorities in Some (Some l)
  end.

Definition Verifier_next (self : Verifier) : outcome Error Next :=
  if wrong_chain_algorithm self then Some (Err WrongChainAlgorithm)
  else
    match fragments self with
    | [] => Some (if is_proof_complete self then Ok EmptyProof else Err EmptyProofError)
    | _ :: _ =>
        let! fragment := fragments self !! Z.to_nat (index self) in
        let fragment_header_hash := hash_from_scale_encoded_header (scale_encoded_header fragment) in
        let! justification := decode_partial_grandpa (scale_encoded_justification fragment) (block_number_bytes self) in
        let* (justification, _) := Some (map_err InvalidJustification justification) in
        if negb (bool_decide (jr_target_hash justification = fragment_header_hash)) then
          Some (Err (TargetHashMismatch (jr_target_hash justification) (jr_target_number justification) fragment_header_hash))
        else
          let! verified := JustificationVerify.verify
            (JustificationVerify.mkConfig justification (block_number_bytes self) (authorities_set_id self)
               (map grandpa_public_key (authorities_list self))) in
          let* _ := Some (map_err Verify verified) in
          let! header := decode (scale_encoded_header fragment) in
          let* header := Some (map_err InvalidHeader header) in
          let! new_list := next_authorities_list header in
          let new_index := wadd usize_bits (index self) 1 in
          let finished := new_index =? len (fragments self) in
          let* (new_set_id, new_list) :=
            Some (match new_list with
                  | Some l => Ok (wadd 64 (authorities_set_id self) 1, l)
                  | None =>
                      if negb (is_proof_complete self) || negb finished then Err NonMinimalProof
                      else Ok (authorities_set_id self, authorities_list self)
                  end) in
          if finished then
            Some (Ok (Success (scale_encoded_header fragment) (Grandpa new_set_id new_list None)))
          else
            Some (Ok (NotFinished (mkVerifier (wrong_chain_algorithm self) new_index new_set_id new_list
              (fragments self) (is_proof_complete self) (block_number_bytes self))))
    end.

(** The loop of the callers, which call [next] until it finishes. The first [option]
    is that of the turns, the second one that of a panic. *)
Fixpoint Verifier_run (fuel : nat) (self : Verifier) : option (outcome Error Next) :=
  match fuel with
  | O => None
  | S fuel =>
      match Verifier_next self with
      | Some (Ok (NotFinished self)) => Verifier_run fuel self
      | r => Some r
      end
  end.

(** ** The chains of headers *)

(** [justified bnb set_id l f l']: the fragment [f] is justified by the authorities
    [l], whose identifier is [set_id], and its header announces [l']. *)
Inductive justified (bnb : usize) (set_id : u64) (l : list GrandpaAuthority) (f : WarpSyncFragment)
    (l' : option (list GrandpaAuthority)) : Prop :=
  | justified_by j rest header :
      decode_partial_grandpa (scale_encoded_justification f) bnb = Some (Ok (j, rest)) ->
      jr_target_hash j = hash_from_scale_encoded_header (scale_encoded_header f) ->
      JustificationVerify.verify (JustificationVerify.mkConfig j bnb set_id (map grandpa_public_key l)) = Some (Ok tt) ->
      decode (scale_encoded_header f) = Some (Ok header) ->
      next_authorities_list header = Some l' ->
      justified bnb set_id l f l'.

(** A list of fragments leads from a set of authorities to another one. The last
    header announces nothing only if the proof is complete. *)
Inductive warp_chain (bnb : usize) (complete : bool) : u64 -> list GrandpaAuthority -> list WarpSyncFragment ->
    u64 -> list GrandpaAuthority -> Prop :=
  | warp_last set_id l f : complete = true -> justified bnb set_id l f None -> warp_chain bnb complete set_id l [f] set_id l
  | warp_change set_id l f l' :
      justified bnb set_id l f (Some l') -> warp_chain bnb complete set_id l [f] (wadd 64 set_id 1) l'
  | warp_cons set_id l f l' g fs set_id' l'' :
      justified bnb set_id l f (Some l') -> warp_chain bnb complete (wadd 64 set_id 1) l' (g :: fs) set_id' l'' ->
      warp_chain bnb complete set_id l (f :: g :: fs) set_id' l''.

End warp_sync.

Section facts.
Context `{Platform} `{Nom} `{NomMulti} `{Ed25519} `{Blake2b}.
Context (bnb : usize) (complete : bool) (frags : list WarpSyncFragment) (Hsize : is_usize (len frags)).

(** The verifier before the fragment [i]. *)
Definition at_fragment (i : nat) (set_id : u64) (l : list GrandpaAuthority) : Verifier :=
  mkVerifier false (Z.of_nat i) set_id l frags complete bnb.

Definition after_fragment (i : nat) (f : WarpSyncFragment) (set_id : u64) (l : list GrandpaAuthority) : outcome Error Next :=
  Some (Ok (if decide (S i = length frags) then Success (scale_encoded_header f) (Grandpa set_id l None)
            else NotFinished (at_fragment (S i) set_id l))).

Lemma nonempty_match {A B} (l : list A) i x (a b : B) :
  l !! i = Some x -> match l with [] => a | _ :: _ => b end = b.
Proof. by destruct l. Qed.

Lemma next_justified i f set_id l l' :
  frags !! i = Some f -> justified bnb set_id l f l' ->
  Verifier_next (at_fragment i set_id l) =
  match l' with
  | Some l' => after_fragment i f (wadd 64 set_id 1) l'
  | None =>
      if complete && bool_decide (S i = length frags) then after_fragment i f set_id l else Some (Err NonMinimalProof)
  end.
Proof.
  intros Hi [j rest header Hj Hhash Hv Hd Hl]. apply lookup_lt_Some in Hi as Hlt. unfold Verifier_next.
  cbn [at_fragment wrong_chain_algorithm fragments index block_number_bytes authorities_set_id authorities_list is_proof_complete].
  rewrite (nonempty_match _ _ _ _ _ Hi), Nat2Z.id, Hi, Hj. cbn [map_err outcome_bind].
  rewrite bool_decide_true by done. cbn [negb]. rewrite Hv. cbn [map_err outcome_bind]. rewrite Hd. cbn [map_err outcome_bind].
  rewrite Hl. unfold is_uint, len in *.
  assert (Hidx : wadd usize_bits (Z.of_nat i) 1 = Z.of_nat (S i)).
  { unfold wadd. rewrite wrap_small by (unfold is_uint; lia). lia. }
  rewrite Hidx. unfold after_fragment.
  destruct (Z.eqb_spec (Z.of_nat (S i)) (Z.of_nat (length frags))), (decide (S i = length frags)); try lia;
    [rewrite bool_decide_true by done|rewrite bool_decide_false by done]; (destruct l'; [done|]);
    by destruct complete.
Qed.

Lemma next_inv i f set_id l r :
  frags !! i = Some f -> Verifier_next (at_fragment i set_id l) = Some (Ok r) -> exists l', justified bnb set_id l f l'.
Proof.
  intros Hi. unfold Verifier_next.
  cbn [at_fragment wrong_chain_algorithm fragments index block_number_bytes authorities_set_id authorities_list is_proof_complete].
  rewrite (nonempty_match _ _ _ _ _ Hi), Nat2Z.id, Hi.
  destruct (decode_partial_grandpa (scale_encoded_justification f) bnb) as [[[j rest]|]|] eqn:Hj; [|done..]. cbn [map_err outcome_bind].
  case_bool_decide as Hhash; cbn [negb]; [|done].
  destruct (JustificationVerify.verify _) as [[[]|]|] eqn:Hv; [|done..]. cbn [map_err outcome_bind].
  destruct (decode (scale_encoded_header f)) as [[header|]|] eqn:Hd; [|done..]. cbn [map_err outcome_bind].
  destruct (next_authorities_list header) as [l'|] eqn:Hl; [|done]. intros _. exists l'. by econstructor.
Qed.

(** The result that is expected from the fragments [fs]. *)
Definition expected (set_id : u64) (l : list GrandpaAuthority) (fs : list WarpSyncFragment) (o : outcome Error Next) : Prop :=
  forall r, o = Some (Ok r) <->
    exists set_id' l' f, warp_chain bnb complete set_id l fs set_id' l' /\ list.last fs = Some f /\
      r = Success (scale_encoded_header f) (Grandpa set_id' l' None).

Lemma chain_inv set_id l f fs set_id' l' :
  warp_chain bnb complete set_id l (f :: fs) set_id' l' -> exists o, justified bnb set_id l f o /\
    match o with
    | None => fs = [] /\ complete = true /\ set_id' = set_id /\ l' = l
    | Some l1 => fs = [] /\ set_id' = wadd 64 set_id 1 /\ l' = l1 \/ warp_chain bnb complete (wadd 64 set_id 1) l1 fs set_id' l'
    end.
Proof. intros Hc. inversion Hc; subst; (eexists; split; [eassumption|]); cbn; auto. Qed.

Lemma justified_det set_id l f o o' : justified bnb set_id l f o -> justified bnb set_id l f o' -> o = o'.
Proof. intros [j rest h Hj _ _ Hd Ho] [j' rest' h' Hj' _ _ Hd' Ho']. congruence. Qed.

Lemma chain_nil set_id l set_id' l' : ~ warp_chain bnb complete set_id l [] set_id' l'.
Proof. intros Hc. inversion Hc. Qed.

(** The chain is determined by its first fragment. *)
Lemma chain_step set_id l f l1 g fs set_id' l' :
  justified bnb set_id l f (Some l1) ->
  warp_chain bnb complete set_id l (f :: g :: fs) set_id' l' <-> warp_chain bnb complete (wadd 64 set_id 1) l1 (g :: fs) set_id' l'.
Proof.
  intros Hj. split; [|by apply warp_cons]. intros Hc. apply chain_inv in Hc as (o & Ho & Hrest).
  pose proof (justified_det _ _ _ _ _ Hj Ho) as <-. by destruct Hrest as [(? & _)|].
Qed.

Lemma at_end i f fs :
  drop i frags = f :: fs -> frags !! i = Some f /\ (S i = length frags <-> fs = []).
Proof.
  intros Hdrop. assert (Hi : frags !! i = Some f) by (by rewrite <- (Nat.add_0_r i), <- lookup_drop, Hdrop).
  split; [done|]. apply (f_equal length) in Hdrop. rewrite length_drop in Hdrop. apply lookup_lt_Some in Hi.
  cbn in Hdrop. split; [intros E; apply length_zero_iff_nil; lia|intros ->; cbn in Hdrop; lia].
Qed.

(** The chains of one fragment. *)
Lemma chain_change set_id l f l1 set_id' l' :
  justified bnb set_id l f (Some l1) ->
  warp_chain bnb complete set_id l [f] set_id' l' <-> set_id' = wadd 64 set_id 1 /\ l' = l1.
Proof.
  intros Hj. split; [|intros [-> ->]; by apply warp_change]. intros Hc. apply chain_inv in Hc as (o & Ho & Hrest).
  pose proof (justified_det _ _ _ _ _ Hj Ho) as <-. destruct Hrest as [(_ & ?)|Hc]; [done|]. by apply chain_nil in Hc.
Qed.

Lemma chain_unchanged set_id l f set_id' l' :
  justified bnb set_id l f None -> complete = true ->
  warp_chain bnb complete set_id l [f] set_id' l' <-> set_id' = set_id /\ l' = l.
Proof.
  intros Hj Hcomplete. split; [|intros [-> ->]; by apply warp_last]. intros Hc. apply chain_inv in Hc as (o & Ho & Hrest).
  pose proof (justified_det _ _ _ _ _ Hj Ho) as <-. by destruct Hrest as (_ & _ & ?).
Qed.

Lemma expected_single set_id l f set_id1 l1 :
  (forall set_id' l', warp_chain bnb complete set_id l [f] set_id' l' <-> set_id' = set_id1 /\ l' = l1) ->
  expected set_id l [f] (Some (Ok (Success (scale_encoded_header f) (Grandpa set_id1 l1 None)))).
Proof.
  intros Hc r. split.
  - intros [= <-]. exists set_id1, l1, f. rewrite Hc. done.
  - intros (set_id' & l' & f' & [-> ->]%Hc & [= <-] & ->). done.
Qed.

(** A chain makes the verifier advance. *)
Lemma chain_next i f fs set_id l set_id' l' :
  drop i frags = f :: fs -> warp_chain bnb complete set_id l (f :: fs) set_id' l' ->
  exists r, Verifier_next (at_fragment i set_id l) = Some (Ok r).
Proof.
  intros Hdrop Hc. apply chain_inv in Hc as (o & Hj & Hrest). destruct (at_end i f fs Hdrop) as [Hi Hend].
  rewrite (next_justified i f set_id l o Hi Hj). unfold after_fragment. destruct o as [l1|]; [by eexists|].
  destruct Hrest as (Hnil & Hcomplete & _). apply Hend in Hnil. rewrite Hcomplete, bool_decide_true by done. by eexists.
Qed.

Lemma run_fragments fs i set_id l fuel :
  drop i frags = fs -> fs <> [] -> (length fs <= fuel)%nat ->
  exists o, Verifier_run fuel (at_fragment i set_id l) = Some o /\ expected set_id l fs o.
Proof.
  revert i set_id l fuel. induction fs as [|f fs IH]; intros i set_id l fuel Hdrop Hne Hf; [done|].
  destruct fuel as [|fuel]; [cbn in Hf; lia|]. cbn [Verifier_run]. destruct (at_end i f fs Hdrop) as [Hi Hend].
  assert (Hnext : drop (S i) frags = fs) by (by rewrite (drop_S _ _ _ Hi) in Hdrop; injection Hdrop).
  assert (Hfail : (forall r, Verifier_next (at_fragment i set_id l) <> Some (Ok r)) ->
    expected set_id l (f :: fs) (Verifier_next (at_fragment i set_id l))).
  { intros Hno r. split; [by intros E%Hno|]. intros (set_id' & l' & f' & Hc & _).
    destruct (chain_next i f fs _ _ _ _ Hdrop Hc) as [r' E]. by apply Hno in E. }
  destruct (Verifier_next (at_fragment i set_id l)) as [[r|e]|] eqn:En; [|by eexists; split; [done|apply Hfail]..].
  clear Hfail. destruct (next_inv i f set_id l r Hi En) as [o Hj]. rewrite (next_justified i f set_id l o Hi Hj) in En.
  unfold after_fragment in En. destruct o as [l1|].
  - destruct (decide (S i = length frags)) as [Hlast|Hlast]; injection En as <-.
    + apply Hend in Hlast as ->. eexists. split; [done|]. apply expected_single. intros. by apply chain_change.
    + assert (fs <> []) by (by intros E%Hend). destruct (IH (S i) (wadd 64 set_id 1) l1 fuel) as (o & Ho & Hexp); [done..|cbn in Hf; lia|].
      exists o. split; [done|]. destruct fs as [|g fs]; [done|]. intros r.
      transitivity (exists set_id' l' f0, warp_chain bnb complete (wadd 64 set_id 1) l1 (g :: fs) set_id' l' /\
        list.last (g :: fs) = Some f0 /\ r = Success (scale_encoded_header f0) (Grandpa set_id' l' None)); [apply Hexp|].
      setoid_rewrite (fun a b => chain_step set_id l f l1 g fs a b Hj). done.
  - destruct (complete && bool_decide (S i = length frags)) eqn:Ec; [|done].
    apply andb_true_iff in Ec as [Hc Hlast]. apply bool_decide_eq_true in Hlast.
    rewrite decide_True in En by done. injection En as <-. apply Hend in Hlast as ->.
    eexists. split; [done|]. apply expected_single. intros. by apply chain_unchanged.
Qed.

End facts.

Section spec.
Context `{Platform} `{Nom} `{NomMulti} `{Ed25519} `{Blake2b}.

(** C32: the verifier of warp sync proofs ends, after as many turns as there are
    fragments, and never reads past them. It succeeds exactly when each header is
    justified by the current authorities, the first ones being those of the chain,
    and announces the next ones, except the last header of a complete proof, which
    may announce nothing; its result is the last header with the authorities that
    follow it, whose identifier has increased by one for each change. An empty proof
    is accepted only if it is complete, and a chain without Grandpa is refused. *)
Theorem warp_sync_spec (start : ChainInformationFinality) (bnb : usize) (frags : list WarpSyncFragment) (complete : bool) (fuel : nat) :
  is_usize (len frags) -> (1 <= fuel)%nat -> (length frags <= fuel)%nat ->
  exists o, Verifier_run fuel (Verifier_new start bnb frags complete) = Some o /\
    match start with
    | Outsourced => o = Some (Err WrongChainAlgorithm)
    | Grandpa set_id l _ =>
        (frags = [] -> o = Some (if complete then Ok EmptyProof else Err EmptyProofError)) /\
        (frags <> [] -> forall r, o = Some (Ok r) <->
           exists set_id' l' f, warp_chain bnb complete set_id l frags set_id' l' /\ list.last frags = Some f /\
             r = Success (scale_encoded_header f) (Grandpa set_id' l' None))
    end.
Proof.
  intros Hsize Hfuel Hlen. destruct start as [|set_id l sched]; cbn [Verifier_new].
  - destruct fuel; [lia|]. by eexists.
  - destruct (decide (frags = [])) as [->|Hne].
    + destruct fuel; [lia|]. exists (Some (if complete then Ok EmptyProof else Err EmptyProofError)).
      split; [by destruct complete|]. by split.
    + destruct (run_fragments bnb complete frags Hsize frags 0 set_id l fuel) as (o & Ho & Hexp); [done..|].
      exists o. split; [exact Ho|]. split; [done|]. intros _. exact Hexp.
Qed.

End spec.

(** ** Examples *)

Definition toy_authority (k : u8) : GrandpaAuthority := mkGrandpaAuthority (replicate 32 k) 1.

(** A header whose digest has the given items, encoded, and its fragment. *)
Definition toy_header (n : u64) (items : list DigestItem) : list u8 :=
  default [] (@Header_scale_encoding_vec platform64 nom_complete
    (mkHeader (replicate 32 1) n (replicate 32 2) (replicate 32 3) (mkDigest items (indices_of (map item_kind items))))).

Definition toy_fragment (header : list u8) (n : u64) (votes : list Precommit) : WarpSyncFragment :=
  mkWarpSyncFragment header
    (justification_bytes 4 (mkGrandpaJustification 5 (@hash_from_scale_encoded_header toy_blake2b header) n votes)
       [4 * len votes] [0] []).

(** The first header announces the authority [2], which justifies the second one. *)
Definition toy_proof : list WarpSyncFragment :=
  [toy_fragment (toy_header 10 [ItemGrandpaConsensus (ScheduledChange (mkGrandpaScheduledChange [toy_authority 2] 0))]) 10
     [toy_vote 1 9 10];
   toy_fragment (toy_header 20 []) 20 [toy_vote 2 9 20]].

Lemma toy_proof_verified :
  @Verifier_run platform64 nom_complete nom_multi toy_ed25519 toy_blake2b 2
    (Verifier_new (Grandpa 7 [toy_authority 1] None) 4 toy_proof true)
  = Some (Some (Ok (Success (toy_header 20 []) (Grandpa 8 [toy_authority 2] None)))).
Proof. vm_compute. reflexivity. Qed.

Lemma warp_sync_spec_witness :
  exists set_id' l',
    @warp_chain platform64 nom_complete nom_multi toy_ed25519 toy_blake2b 4 true 7 [toy_authority 1] toy_proof set_id' l' /\
    set_id' = 8 /\ l' = [toy_authority 2].
Proof.
  destruct (@warp_sync_spec platform64 nom_complete nom_multi toy_ed25519 toy_blake2b
    (Grandpa 7 [toy_authority 1] None) 4 toy_proof true 2) as (o & Ho & _ & Hspec).
  - done.
  - lia.
  - done.
  - rewrite toy_proof_verified in Ho. injection Ho as <-.
    destruct (proj1 (Hspec ltac:(discriminate) _) eq_refl) as (set_id' & l' & f & Hc & _ & E).
    exists set_id', l'. injection E as _ <- <-. done.
Defined.
