(* ===== verification/Protobuf.v ===== *)
(** * Protobuf messages ([src/src/util/protobuf.rs])

    The encoders of the fields, their decoders, and the decoder of a message whose
    fields are in any order. After the definitions comes the wire format, as a reference, and
    what the decoder does in terms of it.

    A message decoder is given a list of parsers of fields. [nom::Err] is
    [nom_err]: an error lets the decoder try the next parser, an
    [Incomplete] or a [Failure] stops it. What an error carries is not kept: no caller
    reads it. *)

From S2P Require Import Prelude Leb128 Scale HeaderBase.

Open Scope Z_scope.

(** ** Parsers *)

(** [nom::Err]. *)
Inductive nom_err := NomIncomplete | NomErr | NomFailure.

#[export] Instance nom_err_eq_dec : EqDecision nom_err.
Proof. solve_decision. Defined.

Definition nparser (A : Type) : Type := list u8 -> result nom_err (list u8 * A).

(** [nom::multi::length_data]: the length, then as many bytes; it reports the bytes
    that are missing with [Incomplete]. *)
Class NomLengthData := {
  nom_length_data : nparser usize -> nparser (list u8)
}.

Class NomLengthDataLaws `{NomLengthData} : Prop := {
  nom_length_data_spec : forall p bytes,
    nom_length_data p bytes =
      let? (rest, n) := p bytes in
      if len rest <? n then Err NomIncomplete
      else Ok (drop (Z.to_nat n) rest, take (Z.to_nat n) rest)
}.

(** An instance. *)
Definition nom_length : NomLengthData := {|
  nom_length_data := fun p bytes =>
    let? (rest, n) := p bytes in
    if len rest <? n then Err NomIncomplete
    else Ok (drop (Z.to_nat n) rest, take (Z.to_nat n) rest)
|}.

Lemma nom_length_laws : NomLengthDataLaws (H := nom_length).
Proof. split. done. Qed.

(** [nom::combinator::map_opt] and [verify] turn a value that is refused into an
    error. *)
Definition accept {A} (o : option A) : result nom_err A := ok_or o NomErr.

(** [nom::combinator::complete]. *)
Definition complete {A} (p : nparser A) : nparser A := fun bytes =>
  match p bytes with
  | Err NomIncomplete => Err NomErr
  | r => r
  end.

(** [nom::combinator::all_consuming]. *)
Definition all_consuming {A} (p : nparser A) : nparser A := fun bytes =>
  let? (rest, a) := p bytes in
  match rest with
  | [] => Ok (rest, a)
  | _ :: _ => Err NomErr
  end.

(** *** Strings *)

(** [lo <= b <= hi]. *)
Definition in_range (lo hi b : u8) : bool := (lo <=? b) && (b <=? hi).

(** [str::from_utf8] succeeds: the well-formed byte sequences of the Unicode standard. *)
Fixpoint is_utf8 (bytes : list u8) : bool :=
  match bytes with
  | [] => true
  | b0 :: tl =>
      if in_range 0 127 b0 then is_utf8 tl
      else
        match tl with
        | b1 :: tl =>
            if in_range 194 223 b0 then in_range 128 191 b1 && is_utf8 tl
            else
              match tl with
              | b2 :: tl =>
                  if in_range 224 239 b0 then
                    in_range (if b0 =? 224 then 160 else 128) (if b0 =? 237 then 159 else 191) b1
                      && in_range 128 191 b2 && is_utf8 tl
                  else
                    match tl with
                    | b3 :: tl =>
                        in_range 240 244 b0
                          && in_range (if b0 =? 240 then 144 else 128) (if b0 =? 244 then 143 else 191) b1
                          && in_range 128 191 b2 && in_range 128 191 b3 && is_utf8 tl
                    | [] => false
                    end
              | [] => false
              end
        | [] => false
        end
  end.

(** ** Encoders

    An iterator of buffers is the list of them. *)

Definition tag_encode (field : u64) (wire_ty : u8) : list u8 :=
  encode (Z.lor (wrap 64 (Z.shiftl field 3)) wire_ty).

Definition varint_zigzag_tag_encode (field value : u64) : list u8 := tag_encode field 0 ++ encode value.

(** [.map(|b| [b])]. *)
Definition one_byte_buffers (l : list u8) : list (list u8) := map (fun b => [b]) l.

Definition bool_tag_encode (field : u64) (bool_value : bool) : list (list u8) :=
  one_byte_buffers (varint_zigzag_tag_encode field (if bool_value then 1 else 0)).

Definition uint32_tag_encode (field : u64) (value : u32) : list (list u8) :=
  one_byte_buffers (varint_zigzag_tag_encode field value).

Definition enum_tag_encode (field enum_value : u64) : list (list u8) :=
  one_byte_buffers (varint_zigzag_tag_encode field enum_value).

Definition delimited_tag_encode (field : u64) (data : list u8) : list (list u8) :=
  one_byte_buffers (tag_encode field 2 ++ encode_usize (len data)) ++ [data].

Definition message_tag_encode (field : u64) (inner_message : list (list u8)) : list (list u8) :=
  let inner_message := foldl (fun a b => a ++ b) [] inner_message in
  one_byte_buffers (tag_encode field 2 ++ encode_usize (len inner_message)) ++ [inner_message].

Definition bytes_tag_encode (field : u64) (data : list u8) : list (list u8) := delimited_tag_encode field data.

Definition string_tag_encode (field : u64) (data : list u8) : list (list u8) := bytes_tag_encode field data.

Section decoders.
Context `{Platform} `{Nom} `{NomLengthData}.

(** [leb128::nom_leb128_usize], whose errors are all [nom::Err::Error]. *)
Definition leb128_usize : nparser usize := fun bytes => map_err (fun _ => NomErr) (nom_leb128_usize bytes).

(** [nom::bytes::complete::take]. *)
Definition take_n (n : nat) : nparser (list u8) := fun bytes => accept (nom_take n bytes).

Definition tag_decode : nparser (u64 * u8) := fun bytes =>
  let? (rest, num) := leb128_usize bytes in
  let wire_ty := Z.land num 7 in
  let field := Z.shiftr num 3 in
  Ok (rest, (field, wire_ty)).

(** The tag of the given field number and wire type, with [verify]. *)
Definition expect_tag (field : u64) (wire_ty : u8) : nparser unit := fun bytes =>
  let? (rest, (f, ty)) := tag_decode bytes in
  if (f =? field) && (ty =? wire_ty) then Ok (rest, tt) else Err NomErr.

Definition varint_zigzag_tag_decode (field : u64) : nparser u64 := fun bytes =>
  let? (rest, _) := expect_tag field 0 bytes in
  leb128_usize rest.

Definition delimited_tag_decode (field : u64) : nparser (list u8) := fun bytes =>
  let? (rest, _) := expect_tag field 2 bytes in
  nom_length_data leb128_usize rest.

Definition uint32_tag_decode (field : u64) : nparser u32 := fun bytes =>
  let? (rest, num) := varint_zigzag_tag_decode field bytes in
  let? num := accept (checked 32 num) in
  Ok (rest, num).

Definition bool_tag_decode (field : u64) : nparser bool := fun bytes =>
  let? (rest, n) := varint_zigzag_tag_decode field bytes in
  let? b := accept (match n with 0 => Some false | 1 => Some true | _ => None end) in
  Ok (rest, b).

Definition enum_tag_decode (field : u64) : nparser u64 := varint_zigzag_tag_decode field.

(** [map_parser]: what the inner parser leaves is dropped. *)
Definition message_tag_decode {O} (field : u64) (inner_message_parser : nparser O) : nparser O := fun bytes =>
  let? (rest, inner) := delimited_tag_decode field bytes in
  let? (_, o) := inner_message_parser inner in
  Ok (rest, o).

(** Two gibibytes. *)
Definition two_gib : Z := 2 * 1024 * 1024 * 1024.

Definition string_tag_decode (field : u64) : nparser (list u8) := fun bytes =>
  let? (rest, data) := delimited_tag_decode field bytes in
  let? data := accept (if two_gib <? len data then None else if is_utf8 data then Some data else None) in
  Ok (rest, data).

Definition bytes_tag_decode (field : u64) : nparser (list u8) := fun bytes =>
  let? (rest, data) := delimited_tag_decode field bytes in
  let? data := accept (if len data <=? two_gib then Some data else None) in
  Ok (rest, data).

Definition tag_value_skip_decode : nparser unit := fun bytes =>
  let? (inner_bytes, (_, wire_ty)) := tag_decode bytes in
  match wire_ty with
  | 0 => let? (rest, _) := leb128_usize inner_bytes in Ok (rest, tt)
  | 5 => let? (rest, _) := take_n 4 inner_bytes in Ok (rest, tt)
  | 1 => let? (rest, _) := take_n 8 inner_bytes in Ok (rest, tt)
  | 2 => let? (rest, _) := nom_length_data leb128_usize inner_bytes in Ok (rest, tt)
  | _ => Err NomErr
  end.

(** ** Messages *)

(** One of the parsers of [message_decode]: it reads a value, which is then added to
    the values read so far. *)
Record MessageField (S : Type) := mkField {
  mf_item : Type;
  mf_parse : nparser mf_item;
  mf_append : S -> mf_item -> S
}.

(** What one try of the parsers gives. *)
Inductive fields_result (S : Type) :=
  | FieldRead (rest : list u8) (out : S)
  | NoField
  | FieldError (e : nom_err).
Arguments FieldRead {S} _ _.
Arguments NoField {S}.
Arguments FieldError {S} _.

(** The body of the loop, up to the unknown fields. *)
Fixpoint try_fields {S} (fields : list (MessageField S)) (bytes : list u8) (out : S) : fields_result S :=
  match fields with
  | [] => NoField
  | f :: fields =>
      match mf_parse S f bytes with
      | Ok (rest, a) =>
          if bool_decide (bytes = rest) then FieldError NomErr
          else FieldRead rest (mf_append S f out a)
      | Err NomErr => try_fields fields bytes out
      | Err e => FieldError e
      end
  end.

(** The loop. The error of the end has no value to return: the error of the
    parsers of the fields, or of the unknown field if there is no parser. *)
Fixpoint message_loop {S O} (fuel : nat) (fields : list (MessageField S)) (finish : S -> option O) (bytes : list u8) (out : S)
    : result nom_err (list u8 * O) :=
  match fuel with
  | O => Err NomFailure
  | S fuel =>
      match try_fields fields bytes out with
      | FieldRead rest out => message_loop fuel fields finish rest out
      | FieldError e => Err e
      | NoField =>
          match tag_value_skip_decode bytes with
          | Ok (rest, _) => message_loop fuel fields finish rest out
          | Err try_skip_err =>
              match finish out with
              | Some o => Ok (bytes, o)
              | None => Err (match fields with [] => try_skip_err | _ :: _ => NomErr end)
              end
          end
      end
  end.

(** Each iteration reads at least one byte. *)
Definition message_decode {S O} (fields : list (MessageField S)) (init : S) (finish : S -> option O) : nparser O :=
  fun bytes => message_loop (Datatypes.S (length bytes)) fields finish bytes init.

End decoders.

Arguments FieldRead {S} _ _.
Arguments NoField {S}.
Arguments FieldError {S} _.
Arguments mkField {S} _ _ _.
Arguments mf_item {S} m : rename.
Arguments mf_parse {S} m _ : rename.
Arguments mf_append {S} m _ _ : rename.

(** *** [MessageDecodeFieldOutput]

    What is kept of the values of a field: the last one, which must exist for
    [(T,)], all of them for [Vec<T>], and the last one if any for [Option<T>]. *)

Definition single_append {T} (value : option T) (other : T) : option T := Some other.
Definition single_finish {T} (value : option T) : option T := value.

Definition vec_append {T} (value : list T) (other : T) : list T := value ++ [other].
Definition vec_finish {T} (value : list T) : option (list T) := Some value.

Definition option_append {T} (value : option T) (other : T) : option T := Some other.
Definition option_finish {T} (value : option T) : option (option T) := Some value.

(** ** The wire format, and what the decoder of messages does

    A message is a sequence of wire fields, each a number and a value of one of four
    types. The theorem says that [message_decode] reads the wire fields at the start of
    its input, gives each to the first parser that takes it, ignores the others, and
    stops at the first byte that does not start a wire field. *)

#[local] Arguments encode_usize : simpl never.
#[local] Arguments encode : simpl never.

(** ** Wire fields *)

Inductive wire :=
  | WVarint (v : usize)
  | WFixed64 (d : list u8)
  | WBytes (d : list u8)
  | WFixed32 (d : list u8).

Definition wire_ty (w : wire) : u8 :=
  match w with WVarint _ => 0 | WFixed64 _ => 1 | WBytes _ => 2 | WFixed32 _ => 5 end.

Definition wire_payload (w : wire) : list u8 :=
  match w with
  | WVarint v => encode_usize v
  | WFixed64 d | WFixed32 d => d
  | WBytes d => encode_usize (len d) ++ d
  end.

Definition wire_bytes (fw : u64 * wire) : list u8 :=
  encode_usize (8 * fst fw + wire_ty (snd fw)) ++ wire_payload (snd fw).

Definition wires_bytes (l : list (u64 * wire)) : list u8 := concat (map wire_bytes l).

Section spec.
Context `{Platform} `{Nom} `{!NomLaws} `{NomLengthData} `{!NomLengthDataLaws}.

Definition wire_ok (fw : u64 * wire) : Prop :=
  0 <= fst fw /\ is_usize (8 * fst fw + wire_ty (snd fw)) /\
  match snd fw with
  | WVarint v => is_usize v
  | WFixed64 d => is_array 8 d
  | WFixed32 d => is_array 4 d
  | WBytes d => is_usize (len d) /\ is_bytes d
  end.

(** No wire field at the start. *)
Definition no_wire (bytes : list u8) : Prop :=
  forall fw rest, wire_ok fw -> bytes <> wire_bytes fw ++ rest.

(** *** LEB128 *)

Lemma leb128_digits_bytes fuel v : 0 <= v -> is_bytes (leb128_digits fuel v).
Proof.
  revert v. induction fuel as [|fuel IH]; intros v Hv; cbn [leb128_digits]; [constructor|].
  destruct (Z.ltb_spec v 128).
  - repeat constructor; unfold_uint; lia.
  - pose proof (Z.mod_pos_bound v 128 ltac:(lia)). constructor; [unfold_uint; lia|]. apply IH. apply Z.div_pos; lia.
Qed.

Lemma encode_usize_bytes v : is_usize v -> is_bytes (encode_usize v).
Proof.
  intros Hv%is_usize_u64. unfold encode_usize. rewrite encode_digits by done. apply leb128_digits_bytes. by destruct Hv.
Qed.

Lemma leb128_usize_iff bytes rest v :
  is_bytes bytes -> leb128_usize bytes = Ok (rest, v) <-> is_usize v /\ bytes = encode_usize v ++ rest.
Proof.
  intros Hb. rewrite <- nom_leb128_usize_iff by done. unfold leb128_usize.
  destruct (nom_leb128_usize bytes) as [[r w]|e]; cbn; naive_solver.
Qed.

Lemma leb128_usize_read v rest : is_usize v -> is_bytes rest -> leb128_usize (encode_usize v ++ rest) = Ok (rest, v).
Proof. intros Hv Hr. apply leb128_usize_iff; [|done]. apply Forall_app. split; [by apply encode_usize_bytes|done]. Qed.

Lemma leb128_usize_err bytes e : leb128_usize bytes = Err e -> e = NomErr.
Proof. unfold leb128_usize. destruct (nom_leb128_usize bytes) as [[r w]|k]; cbn; congruence. Qed.

(** *** Tags *)

Lemma tag_parts n : 0 <= n -> Z.land n 7 = n `mod` 8 /\ Z.shiftr n 3 = n / 8.
Proof. intros Hn. split; [by apply (land_mask n 7 3)|by rewrite Z.shiftr_div_pow2]. Qed.

Lemma tag_decode_iff bytes rest f ty :
  is_bytes bytes ->
  tag_decode bytes = Ok (rest, (f, ty)) <->
  0 <= f /\ 0 <= ty < 8 /\ is_usize (8 * f + ty) /\ bytes = encode_usize (8 * f + ty) ++ rest.
Proof.
  intros Hb. unfold tag_decode. destruct (leb128_usize bytes) as [[r n]|e] eqn:E; cbn.
  - apply leb128_usize_iff in E as [Hn ->]; [|done]. destruct (tag_parts n) as [-> ->]; [by destruct Hn|].
    pose proof (Z.mod_pos_bound n 8 ltac:(lia)). pose proof (Z.div_mod n 8 ltac:(lia)).
    assert (0 <= n / 8) by (destruct Hn; apply Z.div_pos; lia). split.
    + intros [= <- <- <-]. replace (8 * (n / 8) + n `mod` 8) with n by lia. done.
    + intros (Hf & Hty & Hu & Heq). rewrite <- (app_nil_r (encode_usize n)) in Hb.
      assert (leb128_usize (encode_usize n ++ r) = Ok (r, n)) as R1.
      { apply leb128_usize_iff; [|done]. rewrite app_nil_r in Hb. exact Hb. }
      rewrite app_nil_r in Hb. pose proof Hb as Hb2. rewrite Heq in Hb2.
      assert (leb128_usize (encode_usize (8 * f + ty) ++ rest) = Ok (rest, 8 * f + ty)) as R2.
      { apply leb128_usize_iff; done. }
      rewrite <- Heq, R1 in R2. injection R2 as <- ->. do 3 f_equal.
      * rewrite Z.mul_comm, Z.div_add_l by lia. rewrite (Z.div_small ty) by lia. lia.
      * rewrite Z.add_comm, Z.mul_comm, Z.mod_add by lia. by apply Z.mod_small.
  - split; [done|]. intros (_ & _ & Hu & ->). exfalso.
    assert (leb128_usize (encode_usize (8 * f + ty) ++ rest) = Ok (rest, 8 * f + ty)) as R by (by apply leb128_usize_iff).
    by rewrite R in E.
Qed.

Lemma tag_decode_err bytes e : tag_decode bytes = Err e -> e = NomErr.
Proof.
  unfold tag_decode. destruct (leb128_usize bytes) as [[r n]|k] eqn:E; cbn; [done|]. intros [= <-]. by apply leb128_usize_err in E.
Qed.

Lemma wire_ty_range w : 0 <= wire_ty w < 8.
Proof. destruct w; cbn; lia. Qed.

Lemma payload_bytes fw : wire_ok fw -> is_bytes (wire_payload (snd fw)).
Proof.
  destruct fw as [f [v|d|d|d]]; intros (_ & _ & Hw); cbn in *; [by apply encode_usize_bytes|by destruct Hw| |by destruct Hw].
  destruct Hw. apply Forall_app. split; [by apply encode_usize_bytes|done].
Qed.

Lemma wire_is_bytes fw : wire_ok fw -> is_bytes (wire_bytes fw).
Proof.
  intros Hok. apply Forall_app. split; [by destruct Hok as (_ & ? & _); apply encode_usize_bytes|by apply payload_bytes].
Qed.

Lemma wire_nonempty fw : wire_bytes fw <> [].
Proof. unfold wire_bytes. intros [E _]%app_eq_nil. by apply encode_usize_nonempty in E. Qed.

Lemma tag_read f w rest :
  wire_ok (f, w) -> is_bytes rest -> tag_decode (wire_bytes (f, w) ++ rest) = Ok (wire_payload w ++ rest, (f, wire_ty w)).
Proof.
  intros Hok Hr. apply tag_decode_iff.
  - apply Forall_app. split; [by apply wire_is_bytes|done].
  - unfold wire_bytes. rewrite <- app_assoc. pose proof (wire_ty_range w). by destruct Hok as (? & ? & _).
Qed.

Lemma length_data_iff bytes rest d :
  is_bytes bytes ->
  nom_length_data leb128_usize bytes = Ok (rest, d) <-> is_usize (len d) /\ bytes = encode_usize (len d) ++ d ++ rest.
Proof.
  intros Hb. rewrite nom_length_data_spec. split.
  - destruct (leb128_usize bytes) as [[r n]|] eqn:E; cbn; [|done]. apply leb128_usize_iff in E as [Hn ->]; [|done].
    destruct (Z.ltb_spec (len r) n) as [|Hle]; [done|]. intros [= <- <-].
    assert (len (take (Z.to_nat n) r) = n) as -> by (unfold len in *; rewrite length_take; destruct Hn; lia).
    by rewrite take_drop.
  - intros [Hn ->]. rewrite leb128_usize_read; [|done|].
    + cbn. rewrite (proj2 (Z.ltb_ge _ _)) by (rewrite len_app; pose proof (len_nonneg rest); lia).
      unfold len. rewrite Nat2Z.id. by rewrite take_app_length, drop_app_length.
    + by apply Forall_app in Hb as [_ ?].
Qed.

Lemma take_n_read n d rest : is_array n d -> take_n n (d ++ rest) = Ok (rest, d).
Proof.
  intros [Hl Hd]. unfold take_n. rewrite nom_take_spec, length_app.
  rewrite (proj2 (Nat.leb_le _ _)) by lia. cbn. by rewrite drop_app_length', take_app_length'.
Qed.

(** A wire field is skipped, and what is skipped is a wire field. *)
Lemma skip_read fw rest : wire_ok fw -> is_bytes rest -> tag_value_skip_decode (wire_bytes fw ++ rest) = Ok (rest, tt).
Proof.
  destruct fw as [f w]. intros Hok Hr. unfold tag_value_skip_decode. rewrite tag_read by done. cbn [result_bind].
  destruct w as [v|d|d|d]; cbn [wire_ty wire_payload]; destruct Hok as (_ & _ & Hw); cbn in Hw.
  - by rewrite leb128_usize_read.
  - by rewrite (take_n_read 8).
  - destruct Hw. assert (E : nom_length_data leb128_usize ((encode_usize (len d) ++ d) ++ rest) = Ok (rest, d)); [|by rewrite E].
    apply length_data_iff; [|by rewrite <- app_assoc]. repeat (apply Forall_app; split); auto using encode_usize_bytes.
  - by rewrite (take_n_read 4).
Qed.

Lemma skip_inv bytes rest :
  is_bytes bytes -> tag_value_skip_decode bytes = Ok (rest, tt) -> exists fw, wire_ok fw /\ bytes = wire_bytes fw ++ rest.
Proof.
  intros Hb. unfold tag_value_skip_decode. destruct (tag_decode bytes) as [[r [f ty]]|] eqn:E; cbn [result_bind]; [|done].
  apply tag_decode_iff in E as (Hf & Hty & Hu & ->); [|done]. apply Forall_app in Hb as [_ Hr].
  assert (Htake : forall n, (let? (rest, _) := take_n n r in Ok (rest, tt)) = Ok (rest, tt) -> exists d, is_array n d /\ r = d ++ rest).
  { intros n. unfold take_n. rewrite nom_take_spec. destruct (Nat.leb_spec n (length r)); cbn; [|done].
    intros [= <-]. exists (take n r). split; [by apply is_array_take|by rewrite take_drop]. }
  assert (Hcases : ty = 0 \/ ty = 1 \/ ty = 2 \/ ty = 3 \/ ty = 4 \/ ty = 5 \/ ty = 6 \/ ty = 7) by lia.
  destruct Hcases as [->|[->|[->|[->|[->|[->|[->| ->]]]]]]]; cbv beta iota; try done.
  - destruct (leb128_usize r) as [[r2 v]|] eqn:Ev; cbn; [|done]. intros [= <-]. apply leb128_usize_iff in Ev as [Hv ->]; [|done].
    exists (f, WVarint v). split; [done|]. unfold wire_bytes. cbn. by rewrite <- app_assoc.
  - intros (d & Hd & ->)%Htake. exists (f, WFixed64 d). split; [done|]. unfold wire_bytes. cbn. by rewrite <- app_assoc.
  - destruct (nom_length_data leb128_usize r) as [[r2 d]|] eqn:Ed; cbn; [|done]. intros [= <-].
    apply length_data_iff in Ed as [Hd ->]; [|done]. apply Forall_app in Hr as [_ [Hbd _]%Forall_app].
    exists (f, WBytes d). split; [done|]. unfold wire_bytes. cbn. by rewrite <- !app_assoc.
  - intros (d & Hd & ->)%Htake. exists (f, WFixed32 d). split; [done|]. unfold wire_bytes. cbn. by rewrite <- app_assoc.
Qed.

Lemma no_wire_skip bytes : is_bytes bytes -> no_wire bytes -> exists e, tag_value_skip_decode bytes = Err e.
Proof.
  intros Hb Hn. destruct (tag_value_skip_decode bytes) as [[rest []]|e] eqn:E; [|by eexists].
  apply skip_inv in E as (fw & Hok & ->); [|done]. by destruct (Hn fw rest Hok).
Qed.

(** Every input is a sequence of wire fields, and a rest that starts with none. *)
Lemma wires_exist bytes :
  is_bytes bytes -> exists l tail, Forall wire_ok l /\ no_wire tail /\ is_bytes tail /\ bytes = wires_bytes l ++ tail.
Proof.
  revert bytes. induction bytes as [bytes IH] using (induction_ltof1 _ length). intros Hb.
  destruct (tag_value_skip_decode bytes) as [[rest []]|e] eqn:E.
  - apply skip_inv in E as (fw & Hok & ->); [|done]. apply Forall_app in Hb as [_ Hr].
    destruct (IH rest) as (l & tail & Hl & Hn & Ht & ->); [|done|].
    + unfold ltof. rewrite length_app. pose proof (wire_nonempty fw). destruct (wire_bytes fw); [done|]. cbn. lia.
    + exists (fw :: l), tail. split_and!; [by constructor|done|done|]. unfold wires_bytes. cbn. by rewrite <- app_assoc.
  - exists [], bytes. split_and!; [done| |done|done]. intros fw rest Hok ->. apply Forall_app in Hb as [_ Hr].
    by rewrite skip_read in E.
Qed.

(** ** Parsers of fields *)

(** The input starts with the tag and the length of a delimited field of this
    number, and ends before its value does. *)
Definition truncated (num : u64) (bytes : list u8) : bool :=
  match delimited_tag_decode num bytes with
  | Err NomIncomplete => true
  | _ => false
  end.

(** A parser, the number of the field that it reads, whether this field is
    delimited, and the value that it makes of a wire value. *)
Record FieldSpec (S : Type) := mkFieldSpec {
  fs_field : MessageField S;
  fs_num : u64;
  fs_delimited : bool;
  fs_interp : wire -> result nom_err (mf_item fs_field)
}.

Record field_spec_ok {S} (d : FieldSpec S) : Prop := {
  on_wire : forall f w rest, wire_ok (f, w) -> is_bytes rest ->
    mf_parse (fs_field S d) (wire_bytes (f, w) ++ rest) =
      if f =? fs_num S d then let? a := fs_interp S d w in Ok (rest, a) else Err NomErr;
  on_tail : forall bytes, is_bytes bytes -> no_wire bytes ->
    mf_parse (fs_field S d) bytes = Err (if fs_delimited S d && truncated (fs_num S d) bytes then NomIncomplete else NomErr)
}.

Lemma expect_tag_wire num ty f w rest :
  wire_ok (f, w) -> is_bytes rest ->
  expect_tag num ty (wire_bytes (f, w) ++ rest) =
    if (f =? num) && (wire_ty w =? ty) then Ok (wire_payload w ++ rest, tt) else Err NomErr.
Proof. intros Hok Hr. unfold expect_tag. by rewrite tag_read. Qed.

Lemma varint_on_wire num f w rest :
  wire_ok (f, w) -> is_bytes rest ->
  varint_zigzag_tag_decode num (wire_bytes (f, w) ++ rest) =
    if f =? num then let? v := (match w with WVarint v => Ok v | _ => Err NomErr end) in Ok (rest, v) else Err NomErr.
Proof.
  intros Hok Hr. unfold varint_zigzag_tag_decode. rewrite expect_tag_wire by done.
  destruct (f =? num); [|done]. destruct w as [v|d|d|d]; try done. cbn. apply leb128_usize_read; [by destruct Hok as (_ & _ & ?)|done].
Qed.

Lemma delimited_on_wire num f w rest :
  wire_ok (f, w) -> is_bytes rest ->
  delimited_tag_decode num (wire_bytes (f, w) ++ rest) =
    if f =? num then let? d := (match w with WBytes d => Ok d | _ => Err NomErr end) in Ok (rest, d) else Err NomErr.
Proof.
  intros Hok Hr. unfold delimited_tag_decode. rewrite expect_tag_wire by done.
  destruct (f =? num); [|done]. destruct w as [v|d|d|d]; try done. cbn [wire_ty Z.eqb andb result_bind wire_payload].
  pose proof (payload_bytes _ Hok) as Hp. destruct Hok as (_ & _ & ? & ?). apply length_data_iff.
  - cbn in Hp. by apply Forall_app.
  - by rewrite <- app_assoc.
Qed.

(** What follows a tag, if no wire field starts here. *)
Lemma expect_tag_inv num ty bytes r :
  is_bytes bytes -> expect_tag num ty bytes = Ok (r, tt) ->
  0 <= num /\ 0 <= ty < 8 /\ is_usize (8 * num + ty) /\ bytes = encode_usize (8 * num + ty) ++ r /\ is_bytes r.
Proof.
  intros Hb. unfold expect_tag. destruct (tag_decode bytes) as [[r' [f ty']]|] eqn:E; cbn [result_bind]; [|done].
  apply tag_decode_iff in E as (Hf & Hty & Hu & ->); [|done]. case_if; [|done]. bool_to_prop. subst. intros [= <-].
  apply Forall_app in Hb as [_ ?]. done.
Qed.

Lemma expect_tag_err num ty bytes e : expect_tag num ty bytes = Err e -> e = NomErr.
Proof.
  unfold expect_tag. destruct (tag_decode bytes) as [[r' [f ty']]|k] eqn:E; cbn [result_bind].
  - case_if; congruence.
  - intros [= <-]. by apply tag_decode_err in E.
Qed.

Lemma varint_on_tail num bytes : is_bytes bytes -> no_wire bytes -> varint_zigzag_tag_decode num bytes = Err NomErr.
Proof.
  intros Hb Hn. unfold varint_zigzag_tag_decode. destruct (expect_tag num 0 bytes) as [[r []]|e] eqn:E; cbn [result_bind].
  - apply expect_tag_inv in E as (Hf & _ & Hu & -> & Hr); [|done].
    destruct (leb128_usize r) as [[r2 v]|e] eqn:Ev; [|by apply leb128_usize_err in Ev as ->]. exfalso.
    apply leb128_usize_iff in Ev as [Hv ->]; [|done]. apply (Hn (num, WVarint v) r2); [done|].
    unfold wire_bytes. cbn. by rewrite <- app_assoc.
  - by apply expect_tag_err in E as ->.
Qed.

Lemma delimited_on_tail num bytes :
  is_bytes bytes -> no_wire bytes -> delimited_tag_decode num bytes = Err (if truncated num bytes then NomIncomplete else NomErr).
Proof.
  intros Hb Hn. unfold truncated. destruct (delimited_tag_decode num bytes) as [[r d]|[]] eqn:E; try done; exfalso; revert E;
    unfold delimited_tag_decode; (destruct (expect_tag num 2 bytes) as [[r' []]|e] eqn:E; cbn [result_bind];
      [|intros [= ->]; by apply expect_tag_err in E]);
    apply expect_tag_inv in E as (Hf & _ & Hu & -> & Hr); try done; intros E.
  - apply length_data_iff in E as [Hl ->]; [|done]. apply (Hn (num, WBytes d) r).
    + split; [done|]. split; [done|]. cbn. split; [done|]. by apply Forall_app in Hr as [_ [? _]%Forall_app].
    + unfold wire_bytes. cbn. by rewrite <- !app_assoc.
  - rewrite nom_length_data_spec in E. destruct (leb128_usize r') as [[r2 v]|e] eqn:Ev; cbn in E; [by case_if|].
    injection E as ->. by apply leb128_usize_err in Ev.
Qed.

Lemma truncated_iff num bytes :
  is_bytes bytes -> 0 <= num -> is_usize (8 * num + 2) ->
  truncated num bytes = true <->
  exists n d, is_usize n /\ len d < n /\ bytes = encode_usize (8 * num + 2) ++ encode_usize n ++ d.
Proof.
  intros Hb Hnum Hu. unfold truncated, delimited_tag_decode. split.
  - destruct (expect_tag num 2 bytes) as [[r []]|e] eqn:E; cbn [result_bind]; [|by apply expect_tag_err in E as ->].
    apply expect_tag_inv in E as (_ & _ & _ & -> & Hr); [|done]. rewrite nom_length_data_spec.
    destruct (leb128_usize r) as [[r2 n]|e] eqn:Ev; cbn; [|by apply leb128_usize_err in Ev as ->].
    apply leb128_usize_iff in Ev as [Hv ->]; [|done]. case_if; [|done]. bool_to_prop. intros _. by exists n, r2.
  - intros (n & d & Hn & Hlt & ->). apply Forall_app in Hb as [Ht Hb]. apply Forall_app in Hb as [Hl Hd].
    assert (Htag : tag_decode (encode_usize (8 * num + 2) ++ encode_usize n ++ d) = Ok (encode_usize n ++ d, (num, 2))).
    { apply tag_decode_iff; [|split_and!; try done; lia]. apply Forall_app. split; [done|by apply Forall_app]. }
    unfold expect_tag. rewrite Htag. cbn [result_bind]. rewrite Z.eqb_refl. cbn [andb Z.eqb Pos.eqb result_bind].
    rewrite nom_length_data_spec, leb128_usize_read by done. cbn [result_bind]. by rewrite (proj2 (Z.ltb_lt _ _)).
Qed.

(** *** The decoders of the file *)

Section kinds.
Context {S : Type}.

Definition varint_field {A} (num : u64) (conv : u64 -> option A) (parse : nparser A) (append : S -> A -> S) : FieldSpec S :=
  mkFieldSpec S (mkField A parse append) num false
    (fun w => match w with WVarint v => accept (conv v) | _ => Err NomErr end).

Definition delimited_field {A} (num : u64) (conv : list u8 -> result nom_err A) (parse : nparser A) (append : S -> A -> S)
    : FieldSpec S :=
  mkFieldSpec S (mkField A parse append) num true
    (fun w => match w with WBytes d => conv d | _ => Err NomErr end).

Lemma varint_field_ok {A} num conv (parse : nparser A) append :
  (forall bytes, parse bytes =
    let? (rest, v) := varint_zigzag_tag_decode num bytes in let? a := accept (conv v) in Ok (rest, a)) ->
  field_spec_ok (varint_field num conv parse append).
Proof.
  intros Hp. split; cbn.
  - intros f w rest Hok Hr. rewrite Hp, varint_on_wire by done. destruct (f =? num); [|done]. by destruct w.
  - intros bytes Hb Hn. by rewrite Hp, varint_on_tail.
Qed.

Lemma delimited_field_ok {A} num conv (parse : nparser A) append :
  (forall bytes, parse bytes =
    let? (rest, d) := delimited_tag_decode num bytes in let? a := conv d in Ok (rest, a)) ->
  field_spec_ok (delimited_field num conv parse append).
Proof.
  intros Hp. split; cbn.
  - intros f w rest Hok Hr. rewrite Hp, delimited_on_wire by done. destruct (f =? num); [|done]. by destruct w.
  - intros bytes Hb Hn. by rewrite Hp, delimited_on_tail.
Qed.

Definition uint32_field (num : u64) (append : S -> u32 -> S) : FieldSpec S :=
  varint_field num (checked 32) (uint32_tag_decode num) append.
Definition enum_field (num : u64) (append : S -> u64 -> S) : FieldSpec S :=
  varint_field num Some (enum_tag_decode num) append.
Definition bool_field (num : u64) (append : S -> bool -> S) : FieldSpec S :=
  varint_field num (fun n => match n with 0 => Some false | 1 => Some true | _ => None end) (bool_tag_decode num) append.
Definition bytes_field (num : u64) (append : S -> list u8 -> S) : FieldSpec S :=
  delimited_field num (fun d => accept (if len d <=? two_gib then Some d else None)) (bytes_tag_decode num) append.
Definition string_field (num : u64) (append : S -> list u8 -> S) : FieldSpec S :=
  delimited_field num (fun d => accept (if two_gib <? len d then None else if is_utf8 d then Some d else None))
    (string_tag_decode num) append.
Definition message_field {O} (num : u64) (inner : nparser O) (append : S -> O -> S) : FieldSpec S :=
  delimited_field num (fun d => let? (_, o) := inner d in Ok o) (message_tag_decode num inner) append.

Lemma uint32_field_ok num append : field_spec_ok (uint32_field num append).
Proof. by apply varint_field_ok. Qed.
Lemma enum_field_ok num append : field_spec_ok (enum_field num append).
Proof. apply varint_field_ok. intros bytes. unfold enum_tag_decode. by destruct (varint_zigzag_tag_decode num bytes) as [[r v]|]. Qed.
Lemma bool_field_ok num append : field_spec_ok (bool_field num append).
Proof. by apply varint_field_ok. Qed.
Lemma bytes_field_ok num append : field_spec_ok (bytes_field num append).
Proof. by apply delimited_field_ok. Qed.
Lemma string_field_ok num append : field_spec_ok (string_field num append).
Proof. by apply delimited_field_ok. Qed.
Lemma message_field_ok {O} num (inner : nparser O) append : field_spec_ok (message_field num inner append).
Proof.
  apply delimited_field_ok. intros bytes. unfold message_tag_decode. destruct (delimited_tag_decode num bytes) as [[r d]|]; [|done].
  cbn. by destruct (inner d) as [[? ?]|].
Qed.

(** ** The reference decoder *)

(** The values after the first parser that takes the wire field; [Ok None] if none
    does. *)
Fixpoint offer (ds : list (FieldSpec S)) (fw : u64 * wire) (out : S) : result nom_err (option S) :=
  match ds with
  | [] => Ok None
  | d :: ds =>
      if fst fw =? fs_num S d then
        match fs_interp S d (snd fw) with
        | Ok a => Ok (Some (mf_append (fs_field S d) out a))
        | Err NomErr => offer ds fw out
        | Err e => Err e
        end
      else offer ds fw out
  end.

Fixpoint apply_wires (ds : list (FieldSpec S)) (l : list (u64 * wire)) (out : S) : result nom_err S :=
  match l with
  | [] => Ok out
  | fw :: l =>
      let? out' := offer ds fw out in
      apply_wires ds l (default out out')
  end.

(** The end of the message. *)
Definition end_of_message {O} (ds : list (FieldSpec S)) (finish : S -> option O) (tail : list u8) (out : S)
    : result nom_err (list u8 * O) :=
  if existsb (fun d => fs_delimited S d && truncated (fs_num S d) tail) ds then Err NomIncomplete
  else let? o := accept (finish out) in Ok (tail, o).

Context (ds : list (FieldSpec S)) (Hds : Forall field_spec_ok ds).

Lemma try_fields_wire fw rest out :
  wire_ok fw -> is_bytes rest ->
  try_fields (map (fs_field S) ds) (wire_bytes fw ++ rest) out =
    match offer ds fw out with Ok (Some out) => FieldRead rest out | Ok None => NoField | Err e => FieldError e end.
Proof.
  intros Hok Hr. destruct fw as [f w]. induction Hds as [|d l Hd Hl IH]; [done|]. cbn [map try_fields offer fst snd].
  rewrite (on_wire _ Hd) by done. destruct (f =? fs_num S d); [|by apply IH].
  destruct (fs_interp S d w) as [a|[]]; cbn [result_bind]; [|done|by apply IH|done].
  rewrite bool_decide_eq_false_2; [done|]. intros E. apply (f_equal length) in E. rewrite length_app in E.
  pose proof (wire_nonempty (f, w)). destruct (wire_bytes (f, w)); [done|]. cbn in E. lia.
Qed.

Lemma try_fields_tail tail out :
  is_bytes tail -> no_wire tail ->
  try_fields (map (fs_field S) ds) tail out =
    if existsb (fun d => fs_delimited S d && truncated (fs_num S d) tail) ds then FieldError NomIncomplete else NoField.
Proof.
  intros Hb Hn. induction Hds as [|d l Hd Hl IH]; [done|]. cbn [map try_fields existsb].
  rewrite (on_tail _ Hd) by done. destruct (fs_delimited S d && truncated (fs_num S d) tail); [done|]. by apply IH.
Qed.

Lemma message_loop_spec {O} (finish : S -> option O) l tail fuel out :
  ds <> [] -> Forall wire_ok l -> is_bytes tail -> no_wire tail -> (length (wires_bytes l ++ tail) < fuel)%nat ->
  message_loop fuel (map (fs_field S) ds) finish (wires_bytes l ++ tail) out =
    let? out := apply_wires ds l out in end_of_message ds finish tail out.
Proof.
  intros Hne Hl Ht Hn. revert fuel out. induction Hl as [|fw l Hfw Hl IH]; intros fuel out Hfuel; (destruct fuel as [|fuel]; [lia|]).
  - cbn [wires_bytes map concat app message_loop apply_wires result_bind]. rewrite try_fields_tail by done. unfold end_of_message.
    destruct (existsb _ ds); [done|]. destruct (no_wire_skip tail) as [e ->]; [done..|].
    destruct (finish out); [done|]. by destruct ds.
  - unfold wires_bytes in *. cbn [map concat] in *. rewrite <- app_assoc in *. cbn [message_loop apply_wires].
    assert (Hr : is_bytes (concat (map wire_bytes l) ++ tail)).
    { apply Forall_app. split; [|done]. clear -Hl. induction Hl; cbn; [constructor|]. apply Forall_app. split; [by apply wire_is_bytes|done]. }
    rewrite try_fields_wire by done. rewrite length_app in Hfuel. pose proof (wire_nonempty fw).
    assert (0 < length (wire_bytes fw))%nat by (destruct (wire_bytes fw); [done|cbn; lia]).
    destruct (offer ds fw out) as [[out'|]|e]; cbn [result_bind default]; [apply IH; lia| |done].
    rewrite skip_read by done. apply IH. lia.
Qed.

(** The decoder of messages reads the wire fields at the start of the input, in
    order: each goes to the first parser that takes it, an unknown field or one of a
    wrong type is ignored. A known delimited field that is cut short is an
    [Incomplete]; otherwise the message ends where no wire field starts, and a required field that
    is missing is an error. *)
Lemma message_decode_wires {O} (init : S) (finish : S -> option O) l tail :
  ds <> [] -> Forall wire_ok l -> is_bytes tail -> no_wire tail ->
  message_decode (map (fs_field S) ds) init finish (wires_bytes l ++ tail) =
    let? out := apply_wires ds l init in end_of_message ds finish tail out.
Proof. intros. apply message_loop_spec; [done..|]. lia. Qed.

(** *** The order of the fields *)

(** No value makes a parser stop with an error. *)
Definition soft (d : FieldSpec S) : Prop := forall w e, fs_interp S d w = Err e -> e = NomErr.

(** The values of fields of different numbers can be added in any order. *)
Definition appends_commute : Prop :=
  forall d1 d2, d1 ∈ ds -> d2 ∈ ds -> fs_num S d1 <> fs_num S d2 -> forall out a b,
    mf_append (fs_field S d1) (mf_append (fs_field S d2) out b) a = mf_append (fs_field S d2) (mf_append (fs_field S d1) out a) b.

(** What a wire field does to the values. *)
Definition effect (fw : u64 * wire) (out : S) : S :=
  match offer ds fw out with Ok (Some out') => out' | _ => out end.

Lemma offer_cases fw :
  (forall out, offer ds fw out = Ok None) \/
  (exists d a, d ∈ ds /\ fs_num S d = fst fw /\ forall out, offer ds fw out = Ok (Some (mf_append (fs_field S d) out a))) \/
  (exists e, e <> NomErr /\ forall out, offer ds fw out = Err e).
Proof.
  clear Hds. induction ds as [|d l IH]; cbn [offer]; [by left|].
  assert (Hrest : (forall out, offer l fw out = Ok None) \/
    (exists d' a, d' ∈ d :: l /\ fs_num S d' = fst fw /\ forall out, offer l fw out = Ok (Some (mf_append (fs_field S d') out a))) \/
    (exists e, e <> NomErr /\ forall out, offer l fw out = Err e)).
  { destruct IH as [IH|[(d' & a & Hin & Hn & IH)|IH]]; [by left| |by right; right].
    right; left. exists d', a. split_and!; [by right|done|done]. }
  destruct (Z.eqb_spec (fst fw) (fs_num S d)) as [E|E]; [|done].
  destruct (fs_interp S d (snd fw)) as [a|e] eqn:Ei; [right; left; exists d, a; split_and!; [left|done|done]|].
  destruct e; [right; right; by exists NomIncomplete|done|right; right; by exists NomFailure].
Qed.

Lemma soft_offer fw out : Forall soft ds -> exists o, offer ds fw out = Ok o.
Proof.
  clear Hds. intros Hs. induction Hs as [|d l Hd Hl IH]; cbn [offer]; [by eexists|].
  destruct (fst fw =? fs_num S d); [|done]. destruct (fs_interp S d (snd fw)) as [a|e] eqn:Ei; [by eexists|].
  by rewrite (Hd _ _ Ei).
Qed.

Lemma apply_wires_effect l out : Forall soft ds -> apply_wires ds l out = Ok (foldl (fun out fw => effect fw out) out l).
Proof.
  intros Hs. revert out. induction l as [|fw l IH]; intros out; [done|]. cbn [apply_wires foldl].
  destruct (soft_offer fw out Hs) as [o E]. rewrite E. cbn [result_bind].
  assert (Heff : effect fw out = default out o) by (unfold effect; rewrite E; by destruct o). rewrite Heff. apply IH.
Qed.

Lemma effect_commute fw1 fw2 out :
  Forall soft ds -> appends_commute -> fst fw1 <> fst fw2 -> effect fw1 (effect fw2 out) = effect fw2 (effect fw1 out).
Proof.
  intros Hs Hc Hne. unfold effect.
  destruct (offer_cases fw1) as [E1|[(d1 & a & Hd1 & N1 & E1)|(e & _ & E1)]];
    destruct (offer_cases fw2) as [E2|[(d2 & b & Hd2 & N2 & E2)|(e2 & _ & E2)]]; rewrite !E1, !E2, ?E1, ?E2; try done.
  apply Hc; [done|done|congruence].
Qed.

Lemma effect_unknown fw out : fst fw ∉ map (fs_num S) ds -> effect fw out = out.
Proof.
  intros Hn. unfold effect. destruct (offer_cases fw) as [E|[(d & a & Hin & N & _)|(e & _ & E)]]; rewrite ?E; try done.
  destruct Hn. rewrite <- N. apply list_elem_of_fmap. by exists d.
Qed.

(** The fields of one number can be taken first. *)
Lemma effects_partition n l out :
  Forall soft ds -> appends_commute ->
  foldl (fun out fw => effect fw out) out l =
  foldl (fun out fw => effect fw out) (foldl (fun out fw => effect fw out) out (filter (fun fw => fst fw = n) l)) (filter (fun fw => fst fw <> n) l).
Proof.
  intros Hs Hc. revert out. induction l as [|fw l IH]; intros out; [done|]. rewrite !filter_cons. cbn [foldl].
  destruct (decide (fst fw = n)) as [E|E].
  - rewrite (decide_False (P := fst fw <> n)) by tauto. cbn [foldl]. apply IH.
  - rewrite (decide_True (P := fst fw <> n)) by done. cbn [foldl]. rewrite IH. f_equal.
    assert (Hall : Forall (fun fw' => fst fw' = n) (filter (fun fw' => fst fw' = n) l)).
    { apply Forall_forall. by intros ? [? _]%list_elem_of_filter. }
    clear IH. revert out. induction Hall as [|fw' l' Hfw' _ IHl]; intros out; [done|]. cbn [foldl]. rewrite <- IHl.
    by rewrite effect_commute by (done || congruence).
Qed.

Lemma effects_order (nums : list u64) l l' out :
  Forall soft ds -> appends_commute ->
  (forall fw, fst fw ∈ map (fs_num S) ds -> fw ∈ l \/ fw ∈ l' -> fst fw ∈ nums) ->
  (forall n, n ∈ nums -> filter (fun fw => fst fw = n) l = filter (fun fw => fst fw = n) l') ->
  foldl (fun out fw => effect fw out) out l = foldl (fun out fw => effect fw out) out l'.
Proof.
  intros Hs Hc. revert l l' out. induction nums as [|n nums IH]; intros l l' out Hall Hf.
  - assert (Hid : forall k out, (forall fw, fw ∈ k -> fst fw ∉ map (fs_num S) ds) -> foldl (fun out fw => effect fw out) out k = out).
    { induction k as [|fw k IHk]; intros o Hk; [done|]. cbn [foldl]. rewrite effect_unknown by (apply Hk; left).
      apply IHk. intros fw' Hin. apply Hk. by right. }
    rewrite !Hid; [done|..]; intros fw Hin Hd; destruct (not_elem_of_nil (fst fw)); eauto.
  - rewrite (effects_partition n l), (effects_partition n l') by done. rewrite (Hf n) by left. apply IH.
    + intros fw Hd Hin. assert (Hin' : (fw ∈ l \/ fw ∈ l') /\ fst fw <> n).
      { destruct Hin as [[? ?]%list_elem_of_filter|[? ?]%list_elem_of_filter]; auto. }
      destruct Hin' as [Hin' Hne]. apply (Hall fw Hd) in Hin'. by apply elem_of_cons in Hin' as [?|?].
    + intros m Hm. destruct (decide (m = n)) as [->|Hne].
      * assert (Hnil : forall k : list (u64 * wire), filter (fun fw => fst fw = n) (filter (fun fw => fst fw <> n) k) = []).
        { intros k. destruct (filter _ (filter _ k)) as [|fw k'] eqn:E; [done|]. exfalso.
          assert (Hin : fw ∈ fw :: k') by left. rewrite <- E in Hin. by apply list_elem_of_filter in Hin as [? [? _]%list_elem_of_filter]. }
        by rewrite !Hnil.
      * rewrite !list_filter_filter_l by (intros fw ->; done). apply Hf. by right.
Qed.

(** The fields of a message can be in any order, and unknown fields are allowed: two
    messages that have the same fields for each of the known numbers, in the same order for one
    number, decode to the same values. *)
Lemma apply_wires_order l l' out :
  Forall soft ds -> appends_commute ->
  (forall n, n ∈ map (fs_num S) ds -> filter (fun fw => fst fw = n) l = filter (fun fw => fst fw = n) l') ->
  apply_wires ds l out = apply_wires ds l' out.
Proof.
  intros Hs Hc Hf. rewrite !apply_wires_effect by done. f_equal. by apply (effects_order (map (fs_num S) ds)).
Qed.
End kinds.

(** ** Encoders *)

Lemma concat_one_byte l : concat (one_byte_buffers l) = l.
Proof. unfold one_byte_buffers. induction l as [|b l IH]; [done|]. cbn. by rewrite IH. Qed.

Lemma append_buffers (l : list (list u8)) acc : foldl (fun a b => a ++ b) acc l = acc ++ concat l.
Proof. revert acc. induction l as [|b l IH]; intros acc; cbn; [by rewrite app_nil_r|]. by rewrite IH, <- app_assoc. Qed.

Lemma concat_buffers (l : list (list u8)) : foldl (fun a b => a ++ b) [] l = concat l.
Proof. apply append_buffers. Qed.

(** The numbers of the fields that are used are small. *)
Definition field_number (f : u64) : Prop := 0 <= f < 2 ^ 28.

Lemma tag_number f ty : field_number f -> 0 <= ty < 8 -> Z.lor (wrap 64 (Z.shiftl f 3)) ty = 8 * f + ty.
Proof.
  intros Hf Hty. unfold field_number in Hf. change (2 ^ 28) with 268435456 in Hf.
  rewrite wrap_small by (unfold_uint; rewrite Z.shiftl_mul_pow2 by lia; change (2 ^ 3) with 8; lia).
  rewrite Z.lor_comm, lor_shiftl_add by (change (2 ^ 3) with 8; lia). change (2 ^ 3) with 8. lia.
Qed.

Lemma tag_usize f ty : field_number f -> 0 <= ty < 8 -> is_usize (8 * f + ty).
Proof.
  unfold field_number, is_uint. change (2 ^ 28) with 268435456. destruct usize_bits_spec as [-> | ->]; rewrite ?pow2_32, ?pow2_64; lia.
Qed.

Lemma varint_wire f v : field_number f -> concat (one_byte_buffers (varint_zigzag_tag_encode f v)) = wire_bytes (f, WVarint v).
Proof.
  intros Hf. rewrite concat_one_byte. unfold varint_zigzag_tag_encode, tag_encode, wire_bytes. rewrite tag_number by (done || lia).
  done.
Qed.

Lemma delimited_wire f d : field_number f -> concat (delimited_tag_encode f d) = wire_bytes (f, WBytes d).
Proof.
  intros Hf. unfold delimited_tag_encode, tag_encode, wire_bytes. rewrite concat_app, concat_one_byte, tag_number by (done || lia).
  cbn. by rewrite app_nil_r, <- app_assoc.
Qed.

Lemma message_wire f l : field_number f -> concat (message_tag_encode f l) = wire_bytes (f, WBytes (concat l)).
Proof. intros Hf. rewrite <- delimited_wire by done. unfold message_tag_encode. by rewrite concat_buffers. Qed.

Lemma wire_varint_ok f v : field_number f -> is_usize v -> wire_ok (f, WVarint v).
Proof. intros Hf Hv. split; [by destruct Hf|]. split; [|done]. apply tag_usize; [done|cbn; lia]. Qed.

Lemma wire_bytes_ok f d : field_number f -> is_usize (len d) -> is_bytes d -> wire_ok (f, WBytes d).
Proof. intros Hf Hl Hd. split; [by destruct Hf|]. split; [|done]. apply tag_usize; [done|cbn; lia]. Qed.

Lemma u32_usize v : is_u32 v -> is_usize v.
Proof. unfold is_uint. destruct usize_bits_spec as [-> | ->]; rewrite ?pow2_32, ?pow2_64; lia. Qed.

(** The end of the input starts no wire field. *)
Lemma no_wire_nil : no_wire [].
Proof. intros fw rest _ E. symmetry in E. apply app_eq_nil in E as [E _]. by apply wire_nonempty in E. Qed.

Lemma truncated_nil num : truncated num [] = false.
Proof. done. Qed.

Lemma end_of_input {S O} (ds : list (FieldSpec S)) (finish : S -> option O) out :
  end_of_message ds finish [] out = let? o := accept (finish out) in Ok ([], o).
Proof.
  unfold end_of_message. assert (E : existsb (fun d => fs_delimited S d && truncated (fs_num S d) []) ds = false); [|by rewrite E].
  induction ds as [|d l IH]; [done|]. cbn [existsb]. by rewrite truncated_nil, andb_false_r.
Qed.

(** A whole message. *)
Lemma message_decode_all {S O} (ds : list (FieldSpec S)) (init : S) (finish : S -> option O) l :
  Forall field_spec_ok ds -> ds <> [] -> Forall wire_ok l ->
  message_decode (map (fs_field S) ds) init finish (wires_bytes l) =
    let? out := apply_wires ds l init in let? o := accept (finish out) in Ok ([], o).
Proof.
  intros Hds Hne Hl. rewrite <- (app_nil_r (wires_bytes l)), message_decode_wires; [|done..|constructor|apply no_wire_nil].
  destruct (apply_wires ds l init); [|done]. cbn [result_bind]. apply end_of_input.
Qed.

(** What a decoder that must read the whole input does. *)
Lemma decode_whole {S O} (ds : list (FieldSpec S)) (init : S) (finish : S -> option O) bytes r o :
  Forall field_spec_ok ds -> ds <> [] -> is_bytes bytes ->
  all_consuming (complete (message_decode (map (fs_field S) ds) init finish)) bytes = Ok (r, o) <->
  r = [] /\ exists l out, Forall wire_ok l /\ bytes = wires_bytes l /\ apply_wires ds l init = Ok out /\ finish out = Some o.
Proof.
  intros Hds Hne Hb. unfold all_consuming, complete. split.
  - destruct (wires_exist bytes Hb) as (l & tail & Hl & Hn & Ht & ->). rewrite message_decode_wires by done.
    destruct (apply_wires ds l init) as [out|[]] eqn:Ea; cbn [result_bind]; try done. unfold end_of_message.
    destruct (existsb _ ds); [done|]. destruct (finish out) as [o'|] eqn:Ef; [|done]. cbn [accept ok_or result_bind].
    destruct tail; [|done]. intros [= <- <-]. split; [done|]. exists l, out. by rewrite app_nil_r.
  - intros (-> & l & out & Hl & -> & Ea & Ef). rewrite message_decode_all by done. rewrite Ea. cbn. by rewrite Ef.
Qed.
End spec.
