(* ===== verification/BlockRequest.v ===== *)
(** * Requests of blocks, of the state and of proofs
    ([src/src/network/protocol/block_request.rs], [state_request.rs] and
    [storage_call_proof.rs])

    The encoders and the decoders of the messages. What a request of blocks says is what is
    read, in whatever order its fields are; a response is read as it was
    built only if every block has a header and justifications. *)

From S2P Require Import Prelude Leb128 Scale HeaderBase FinalityBase Protobuf.

Open Scope Z_scope.

#[local] Arguments encode_usize : simpl never.
#[local] Arguments encode : simpl never.

(** ** Data *)

Inductive BlocksRequestDirection := Ascending | Descending.

Record BlocksRequestFields := mkBlocksRequestFields { brf_header : bool; brf_body : bool; brf_justifications : bool }.

Inductive BlocksRequestConfigStart :=
  | StartHash (hash : list u8)
  | StartNumber (number : u64).

Record BlocksRequestConfig := mkBlocksRequestConfig {
  brc_start : BlocksRequestConfigStart;
  brc_desired_count : u32;
  brc_direction : BlocksRequestDirection;
  brc_fields : BlocksRequestFields
}.

Record BlockData := mkBlockData {
  bd_hash : list u8;
  bd_header : option (list u8);
  bd_body : option (list (list u8));
  (** Identifiers of the consensus engines, justifications. *)
  bd_justifications : option (list (list u8 * list u8))
}.

Inductive DecodeBlockRequestError :=
  | BlockRequestProtobufDecode
  | ZeroBlocksRequested
  | InvalidDirection
  | MissingStartBlock
  | InvalidBlockNumber
  | InvalidBlockHashLength.

Inductive DecodeBlockResponseError :=
  | BlockResponseProtobufDecode
  | InvalidHashLength
  | BodyDecodeError
  | InvalidJustifications.

(** [Vec::resize]. *)
Definition resize (n : nat) (l : list u8) : list u8 := take n l ++ replicate (n - length l) 0.

(** ** Requests *)

(** The bits of the requested parts of the blocks. *)
Definition fields_bits (f : BlocksRequestFields) : u32 :=
  let fields := 0 in
  let fields := if brf_header f then Z.lor fields (Z.shiftl 1 24) else fields in
  let fields := if brf_body f then Z.lor fields (Z.shiftl 1 25) else fields in
  if brf_justifications f then Z.lor fields (Z.shiftl 1 28) else fields.

Definition build_block_request (block_number_bytes : usize) (config : BlocksRequestConfig) : list (list u8) :=
  let fields := fields_bits (brc_fields config) in
  let from_block :=
    match brc_start config with
    | StartHash h => bytes_tag_encode 2 h
    | StartNumber n => bytes_tag_encode 3 (resize (Z.to_nat block_number_bytes) (to_le_bytes 8 n))
    end in
  uint32_tag_encode 1 fields ++ from_block
    ++ enum_tag_encode 5 (match brc_direction config with Ascending => 0 | Descending => 1 end)
    ++ uint32_tag_encode 6 (brc_desired_count config)
    ++ bool_tag_encode 7 true.

(** The values of the fields 1, 2, 3, 5 and 6. *)
Definition request_values : Type := option u32 * option (list u8) * option (list u8) * option u64 * option u32.

(** The loop over the bytes of a block number; [None] is an error. A shift by the
    number of bits of the type or more is by its remainder. *)
Fixpoint number_loop (bytes : list u8) (num : u64) (shift : u32) : option u64 :=
  match bytes with
  | [] => Some num
  | byte :: bytes =>
      let! shifted := checked_mul 64 byte (wrap 64 (Z.shiftl 1 (shift `mod` 64))) in
      let! num := checked_add 64 num shifted in
      let! shift := checked_add 32 shift 8 in
      number_loop bytes num shift
  end.

Section messages.
Context `{Platform} `{Nom} `{NomLengthData} `{NomMulti}.

Definition request_fields : list (MessageField request_values) :=
  [mkField u32 (uint32_tag_decode 1) (fun '(a, b, c, d, e) v => (single_append a v, b, c, d, e));
   mkField (list u8) (bytes_tag_decode 2) (fun '(a, b, c, d, e) v => (a, option_append b v, c, d, e));
   mkField (list u8) (bytes_tag_decode 3) (fun '(a, b, c, d, e) v => (a, b, option_append c v, d, e));
   mkField u64 (enum_tag_decode 5) (fun '(a, b, c, d, e) v => (a, b, c, single_append d v, e));
   mkField u32 (uint32_tag_decode 6) (fun '(a, b, c, d, e) v => (a, b, c, d, option_append e v))].

Definition request_finish (out : request_values) : option (u32 * option (list u8) * option (list u8) * u64 * option u32) :=
  let '(a, b, c, d, e) := out in
  let! a := single_finish a in
  let! b := option_finish b in
  let! c := option_finish c in
  let! d := single_finish d in
  let! e := option_finish e in
  Some (a, b, c, d, e).

(** The block to start from. *)
Definition decode_start (expected_block_number_bytes : usize) (hash number : option (list u8))
    : result DecodeBlockRequestError BlocksRequestConfigStart :=
  match hash, number with
  | Some h, None => let? h := ok_or (array_try_from 32 h) InvalidBlockHashLength in Ok (StartHash h)
  | None, Some n =>
      if negb (len n =? expected_block_number_bytes) then Err InvalidBlockNumber
      else let? num := ok_or (number_loop n 0 0) InvalidBlockNumber in Ok (StartNumber num)
  | Some _, Some _ => Err BlockRequestProtobufDecode
  | None, None => Err MissingStartBlock
  end.

Definition decode_block_request (expected_block_number_bytes : usize) (request_bytes : list u8)
    : result DecodeBlockRequestError BlocksRequestConfig :=
  match all_consuming (complete (message_decode request_fields (None, None, None, None, None) request_finish)) request_bytes with
  | Err _ => Err BlockRequestProtobufDecode
  | Ok (_, (fields, hash, number, direction, max_blocks)) =>
      let? start := decode_start expected_block_number_bytes hash number in
      let max_blocks := default (2 ^ 32 - 1) max_blocks in
      let? desired_count := ok_or (if max_blocks =? 0 then None else Some max_blocks) ZeroBlocksRequested in
      let? direction := match direction with
                        | 0 => Ok Ascending
                        | 1 => Ok Descending
                        | _ => Err InvalidDirection
                        end in
      Ok (mkBlocksRequestConfig start desired_count direction
        (mkBlocksRequestFields (negb (Z.land fields (Z.shiftl 1 24) =? 0)) (negb (Z.land fields (Z.shiftl 1 25) =? 0))
          (negb (Z.land fields (Z.shiftl 1 28) =? 0))))
  end.

(** ** Responses *)

(** The justifications of a block, as they are sent. *)
Definition justifications_bytes (justifications : option (list (list u8 * list u8))) : list u8 :=
  match justifications with
  | Some justifications =>
      encode_scale_compact_usize (len justifications) ++
      concat (map (fun '(consensus_engine, justification) =>
        consensus_engine ++ encode_scale_compact_usize (len justification) ++ justification) justifications)
  | None => []
  end.

(** The content of the message of a block. *)
Definition block_message (block : BlockData) : list (list u8) :=
  bytes_tag_encode 1 (bd_hash block)
    ++ match bd_header block with Some h => bytes_tag_encode 2 h | None => [] end
    ++ match bd_body block with Some b => concat (map (bytes_tag_encode 3) b) | None => [] end
    ++ bytes_tag_encode 8 (justifications_bytes (bd_justifications block)).

Definition build_block_response (response : list BlockData) : list (list u8) :=
  concat (map (fun block => message_tag_encode 1 (block_message block)) response).

(** [util::nom_bytes_decode]; the kind of its error does not matter to its callers. *)
Definition nom_bytes_decode : parser (list u8) := fun bytes =>
  nom_result (match nom_length_data (fun bytes => map_err (fun _ => NomErr) (nom_scale_compact_usize bytes)) bytes with
              | Ok x => Some x
              | Err _ => None
              end).

(** A justification. *)
Definition justification_entry : parser (list u8 * list u8) := fun bytes =>
  let* (bytes, consensus_engine) := take_bytes 4 bytes in
  let* (bytes, justification) := nom_bytes_decode bytes in
  Some (Ok (bytes, (consensus_engine, justification))).

Definition decode_justifications : parser (list (list u8 * list u8)) := fun bytes =>
  let* (bytes, num_elems) := nom_usize bytes in
  nom_many_m_n num_elems justification_entry bytes.

(** The values of the fields 1, 2, 3 and 8 of a block. *)
Definition block_values : Type := option (list u8) * option (list u8) * list (list u8) * option (list u8).
Definition received_block : Type := list u8 * list u8 * list (list u8) * option (list u8).

Definition block_fields : list (MessageField block_values) :=
  [mkField (list u8) (bytes_tag_decode 1) (fun '(a, b, c, d) v => (single_append a v, b, c, d));
   mkField (list u8) (bytes_tag_decode 2) (fun '(a, b, c, d) v => (a, single_append b v, c, d));
   mkField (list u8) (bytes_tag_decode 3) (fun '(a, b, c, d) v => (a, b, vec_append c v, d));
   mkField (list u8) (bytes_tag_decode 8) (fun '(a, b, c, d) v => (a, b, c, option_append d v))].

Definition block_finish (out : block_values) : option received_block :=
  let '(a, b, c, d) := out in
  let! a := single_finish a in
  let! b := single_finish b in
  let! c := vec_finish c in
  let! d := option_finish d in
  Some (a, b, c, d).

Definition block_parser : nparser received_block := message_decode block_fields (None, None, [], None) block_finish.

Definition response_fields : list (MessageField (list received_block)) :=
  [mkField received_block (message_tag_decode 1 block_parser) vec_append].

(** A block of a response. *)
Definition decode_block (block : received_block) : outcome DecodeBlockResponseError BlockData :=
  let '(hash, header, body, justifications) := block in
  match array_try_from 32 hash with
  | None => Some (Err InvalidHashLength)
  | Some hash =>
      let* justifications :=
        match justifications with
        | Some justifications =>
            match decode_justifications justifications with
            | Some (Ok ([], out)) => Some (Ok (Some out))
            | Some _ => Some (Err InvalidJustifications)
            | None => None
            end
        | None => Some (Ok None)
        end in
      Some (Ok (mkBlockData hash (match header with [] => None | _ :: _ => Some header end) (Some body) justifications))
  end.

(** The loop over the blocks. *)
Fixpoint decode_blocks (blocks : list received_block) : outcome DecodeBlockResponseError (list BlockData) :=
  match blocks with
  | [] => Some (Ok [])
  | block :: blocks =>
      let* block := decode_block block in
      let* blocks := decode_blocks blocks in
      Some (Ok (block :: blocks))
  end.

Definition decode_block_response (response_bytes : list u8) : outcome DecodeBlockResponseError (list BlockData) :=
  match all_consuming (complete (message_decode response_fields [] vec_finish)) response_bytes with
  | Err _ => Some (Err BlockResponseProtobufDecode)
  | Ok (_, blocks) => decode_blocks blocks
  end.
End messages.

(** ** Block numbers *)

Lemma resize_number bnb n : 0 <= bnb -> resize (Z.to_nat bnb) (to_le_bytes 8 n) = number_bytes bnb n.
Proof.
  intros Hb. unfold resize, number_bytes, saturating_sub. rewrite length_to_le_bytes. f_equal; [|f_equal; lia].
  destruct (Z.le_ge_cases bnb 8); [by rewrite Z.min_r by lia|]. rewrite Z.min_l by lia.
  rewrite !take_ge by (rewrite length_to_le_bytes; lia). done.
Qed.

Lemma number_loop_zeros k num shift :
  is_u64 num -> 0 <= shift -> shift + 8 * Z.of_nat k < 2 ^ 32 -> number_loop (replicate k 0) num shift = Some num.
Proof.
  intros Hn. revert shift. induction k as [|k IH]; intros shift Hs Hb; [done|]. cbn [replicate number_loop].
  unfold checked_mul, checked_add. rewrite Z.mul_0_l, (checked_small 64 0), Z.add_0_r, (checked_small 64) by (done || (unfold_uint; lia)).
  rewrite checked_small by (unfold_uint; lia). apply IH; lia.
Qed.

(** The bytes that have a place in the number, then zeros. *)
Lemma number_loop_read (i : nat) bytes k num :
  (i + length bytes <= 8)%nat -> is_bytes bytes -> 0 <= num < 2 ^ (8 * Z.of_nat i) ->
  8 * (Z.of_nat i + len bytes + Z.of_nat k) < 2 ^ 32 ->
  number_loop (bytes ++ replicate k 0) num (8 * Z.of_nat i) = Some (num + 2 ^ (8 * Z.of_nat i) * from_le_bytes bytes).
Proof.
  intros Hl Hb. revert i num Hl. induction Hb as [|b bytes Hb0 Hb IH]; intros i num Hl Hnum Hk.
  - cbn [app from_le_bytes]. rewrite Z.mul_0_r, Z.add_0_r. unfold len in Hk. cbn in Hk. apply number_loop_zeros; [|lia|lia].
    split; [lia|]. apply Z.lt_le_trans with (2 ^ (8 * Z.of_nat i)); [lia|]. apply Z.pow_le_mono_r; cbn in Hl; lia.
  - cbn [length] in Hl. rewrite len_cons in Hk. cbn [app number_loop from_le_bytes].
    rewrite (Z.mod_small (8 * Z.of_nat i)) by lia. pose proof (pow2_pos (8 * Z.of_nat i) ltac:(lia)) as Hpos.
    assert (Hp : 2 ^ (8 * Z.of_nat (S i)) = 256 * 2 ^ (8 * Z.of_nat i)).
    { replace (8 * Z.of_nat (S i)) with (8 + 8 * Z.of_nat i) by lia. rewrite Z.pow_add_r by lia. done. }
    assert (Hlt : 2 ^ (8 * Z.of_nat (S i)) <= 2 ^ 64) by (apply Z.pow_le_mono_r; lia).
    unfold is_uint in Hb0. change (2 ^ 8) with 256 in Hb0.
    assert (b * 2 ^ (8 * Z.of_nat i) + num < 256 * 2 ^ (8 * Z.of_nat i)) by nia.
    assert (Hs : wrap 64 (Z.shiftl 1 (8 * Z.of_nat i)) = 2 ^ (8 * Z.of_nat i)).
    { rewrite Z.shiftl_mul_pow2, Z.mul_1_l by lia. apply wrap_small. split; [lia|]. nia. }
    rewrite Hs. unfold checked_mul, checked_add. rewrite checked_small by (split; nia). rewrite checked_small by (split; nia).
    rewrite checked_small by (unfold_uint; len_lia). replace (8 * Z.of_nat i + 8) with (8 * Z.of_nat (S i)) by lia.
    rewrite IH; [|lia|nia|lia]. f_equal. rewrite Hp. ring.
Qed.

Lemma number_loop_number bnb n : 0 <= bnb < 2 ^ 28 -> number_ok bnb n -> number_loop (number_bytes bnb n) 0 0 = Some n.
Proof.
  intros Hb Hn. unfold number_bytes. set (c := Z.to_nat (Z.min 8 bnb)).
  assert (Hc : take c (to_le_bytes 8 n) = to_le_bytes c n) by (apply take_to_le_bytes; lia). rewrite Hc.
  change 0 with (8 * Z.of_nat 0) at 3. rewrite (number_loop_read 0).
  - change (2 ^ (8 * Z.of_nat 0)) with 1. rewrite from_to_le_bytes; [f_equal; lia|].
    unfold number_ok in Hn. unfold is_uint. replace (8 * Z.of_nat c) with (8 * Z.min 8 bnb) by lia. done.
  - rewrite length_to_le_bytes. lia.
  - apply to_le_bytes_bytes.
  - change (2 ^ (8 * Z.of_nat 0)) with 1. lia.
  - rewrite len_le_bytes. unfold saturating_sub. change (2 ^ 28) with 268435456 in Hb. rewrite pow2_32. lia.
Qed.

(** ** The request *)

Section facts.
Context `{Platform} `{Nom} `{!NomLaws} `{NomLengthData} `{!NomLengthDataLaws} `{NomMulti} `{!NomMultiLaws}.

Definition start_ok (bnb : usize) (s : BlocksRequestConfigStart) : Prop :=
  match s with StartHash h => is_array 32 h | StartNumber n => number_ok bnb n end.

Definition request_ok (bnb : usize) (config : BlocksRequestConfig) : Prop :=
  start_ok bnb (brc_start config) /\ 1 <= brc_desired_count config < 2 ^ 32.

(** The wire fields of a request. *)
Definition request_wires (bnb : usize) (config : BlocksRequestConfig) : list (u64 * wire) :=
  [(1, WVarint (fields_bits (brc_fields config)));
   match brc_start config with StartHash h => (2, WBytes h) | StartNumber n => (3, WBytes (number_bytes bnb n)) end;
   (5, WVarint (match brc_direction config with Ascending => 0 | Descending => 1 end));
   (6, WVarint (brc_desired_count config));
   (7, WVarint 1)].

Lemma build_request_wires bnb config :
  0 <= bnb -> concat (build_block_request bnb config) = wires_bytes (request_wires bnb config).
Proof.
  intros Hb. unfold build_block_request, request_wires, wires_bytes. rewrite !concat_app.
  unfold uint32_tag_encode, enum_tag_encode, bool_tag_encode. rewrite !varint_wire by done. cbn [map concat].
  rewrite app_nil_r. destruct (brc_start config); unfold bytes_tag_encode; rewrite delimited_wire by done; [done|].
  by rewrite resize_number.
Qed.

Lemma fields_bits_u32 f : is_u32 (fields_bits f).
Proof. destruct f as [[] [] []]; by vm_compute. Qed.

Lemma request_wires_ok bnb config : 0 <= bnb < 2 ^ 28 -> request_ok bnb config -> Forall wire_ok (request_wires bnb config).
Proof.
  intros Hb [Hs Hc]. unfold request_wires.
  assert (Hsmall : forall v, 0 <= v < 2 ^ 32 -> is_usize v) by (intros v Hv; by apply u32_usize).
  repeat apply Forall_cons_2; [..|apply Forall_nil_2].
  - apply wire_varint_ok; [done|]. apply Hsmall, fields_bits_u32.
  - destruct (brc_start config) as [h|n]; cbn in Hs; apply wire_bytes_ok; try done.
    + apply Hsmall. rewrite (len_array 32) by done. lia.
    + by destruct Hs.
    + apply Hsmall. unfold len. rewrite number_bytes_length by lia. change (2 ^ 28) with 268435456 in Hb. lia.
    + apply number_bytes_bytes.
  - apply wire_varint_ok; [done|]. apply Hsmall. destruct (brc_direction config); lia.
  - apply wire_varint_ok; [done|]. apply Hsmall. lia.
  - apply wire_varint_ok; [done|]. apply Hsmall. lia.
Qed.

(** The parsers of the fields of a request. *)
Definition request_specs : list (FieldSpec request_values) :=
  [uint32_field 1 (fun '(a, b, c, d, e) v => (single_append a v, b, c, d, e));
   bytes_field 2 (fun '(a, b, c, d, e) v => (a, option_append b v, c, d, e));
   bytes_field 3 (fun '(a, b, c, d, e) v => (a, b, option_append c v, d, e));
   enum_field 5 (fun '(a, b, c, d, e) v => (a, b, c, single_append d v, e));
   uint32_field 6 (fun '(a, b, c, d, e) v => (a, b, c, d, option_append e v))].

Lemma request_specs_ok : Forall field_spec_ok request_specs.
Proof.
  unfold request_specs. repeat apply Forall_cons_2; [..|apply Forall_nil_2];
    first [apply uint32_field_ok | apply bytes_field_ok | apply enum_field_ok].
Qed.

Lemma request_specs_soft : Forall soft request_specs.
Proof.
  unfold request_specs. repeat apply Forall_cons_2; [..|apply Forall_nil_2]; intros [v|d|d|d] e; cbn; try congruence;
    unfold accept; repeat (destruct (checked _ _) || case_if); cbn; congruence.
Qed.

Lemma request_specs_commute : appends_commute request_specs.
Proof.
  intros d1 d2 Hd1 Hd2 Hne [[[[o1 o2] o3] o4] o5]. unfold request_specs in Hd1, Hd2.
  repeat (apply elem_of_cons in Hd1 as [->|Hd1]; [repeat (apply elem_of_cons in Hd2 as [->|Hd2]; [done|]); by apply elem_of_nil in Hd2|]).
  by apply elem_of_nil in Hd1.
Qed.

(** What the parsers make of a request. *)
Lemma request_apply bnb config :
  0 <= bnb < 2 ^ 28 -> request_ok bnb config ->
  apply_wires request_specs (request_wires bnb config) (None, None, None, None, None) =
    Ok (Some (fields_bits (brc_fields config)),
        match brc_start config with StartHash h => Some h | StartNumber _ => None end,
        match brc_start config with StartHash _ => None | StartNumber n => Some (number_bytes bnb n) end,
        Some (match brc_direction config with Ascending => 0 | Descending => 1 end),
        Some (brc_desired_count config)).
Proof.
  intros Hb [Hs Hc]. unfold request_wires.
  assert (Hbits : checked 32 (fields_bits (brc_fields config)) = Some (fields_bits (brc_fields config))) by apply checked_small, fields_bits_u32.
  assert (Hcount : checked 32 (brc_desired_count config) = Some (brc_desired_count config)) by (apply checked_small; unfold is_uint; lia).
  destruct (brc_start config) as [h|n]; cbn in Hs.
  - assert (Hl : (len h <=? two_gib) = true) by (rewrite (len_array 32) by done; done).
    cbn. rewrite Hbits. cbn. rewrite Hl. cbn. rewrite Hcount. cbn. done.
  - assert (Hl : (len (number_bytes bnb n) <=? two_gib) = true).
    { apply Z.leb_le. unfold len. rewrite number_bytes_length by lia. change (2 ^ 28) with 268435456 in Hb. unfold two_gib. lia. }
    cbn. rewrite Hbits. cbn. rewrite Hl. cbn. rewrite Hcount. cbn. done.
Qed.

Lemma bits_fields f :
  mkBlocksRequestFields (negb (Z.land (fields_bits f) (Z.shiftl 1 24) =? 0)) (negb (Z.land (fields_bits f) (Z.shiftl 1 25) =? 0))
    (negb (Z.land (fields_bits f) (Z.shiftl 1 28) =? 0)) = f.
Proof. destruct f as [[] [] []]; by vm_compute. Qed.

(** C23: decoding the request that is built for a configuration gives this
    configuration, provided that the block number has its size; and so does decoding any
    message with the same fields in another order, with unknown fields between
    them. *)
Theorem block_request_roundtrip (bnb : usize) (config : BlocksRequestConfig) (l : list (u64 * wire)) :
  0 <= bnb < 2 ^ 28 -> request_ok bnb config -> Forall wire_ok l ->
  (forall n, n ∈ [1; 2; 3; 5; 6] -> filter (fun fw => fst fw = n) l = filter (fun fw => fst fw = n) (request_wires bnb config)) ->
  decode_block_request bnb (concat (build_block_request bnb config)) = Ok config /\
  decode_block_request bnb (wires_bytes l) = Ok config.
Proof.
  intros Hb Hok Hl Hf.
  assert (Hdec : forall l, Forall wire_ok l ->
    (forall n, n ∈ [1; 2; 3; 5; 6] -> filter (fun fw => fst fw = n) l = filter (fun fw => fst fw = n) (request_wires bnb config)) ->
    decode_block_request bnb (wires_bytes l) = Ok config).
  { clear l Hl Hf. intros l Hl Hf. unfold decode_block_request, all_consuming, complete.
    change request_fields with (map (fs_field request_values) request_specs).
    rewrite message_decode_all by (done || apply request_specs_ok).
    rewrite (apply_wires_order request_specs l (request_wires bnb config)) by (apply request_specs_soft || apply request_specs_commute || exact Hf).
    rewrite request_apply by done. cbn [result_bind request_finish single_finish option_finish accept ok_or].
    destruct Hok as [Hs Hc]. assert (Hstart : decode_start bnb (match brc_start config with StartHash h => Some h | StartNumber _ => None end)
        (match brc_start config with StartHash _ => None | StartNumber n => Some (number_bytes bnb n) end) = Ok (brc_start config)).
    { destruct (brc_start config) as [h|n]; cbn in Hs |- *; [by rewrite array_try_from_array|].
      unfold len. rewrite number_bytes_length, Z2Nat.id, Z.eqb_refl by lia. cbn. by rewrite number_loop_number. }
    rewrite Hstart. cbn [result_bind default from_option]; unfold id. rewrite (proj2 (Z.eqb_neq (brc_desired_count config) 0)) by lia. cbn [ok_or result_bind].
    rewrite bits_fields. destruct config as [st ct dir fl]. cbn. by destruct dir. }
  split; [|by apply Hdec]. rewrite build_request_wires by lia. apply Hdec; [by apply request_wires_ok|done].
Qed.

(** ** The response *)

Lemma many_read {A} (p : parser A) (enc : A -> list u8) l rest :
  Forall (fun a => enc a <> [] /\ forall rest, p (enc a ++ rest) = Some (Ok (rest, a))) l ->
  nom_many_m_n (len l) p (concat (map enc l) ++ rest) = Some (Ok (rest, l)).
Proof.
  induction 1 as [|a l [Hne Ha] Hl IH]; [apply nom_many_zero|]. rewrite len_cons. pose proof (len_nonneg l).
  rewrite nom_many_step by lia. cbn [map concat]. rewrite <- app_assoc, Ha. cbn [outcome_bind].
  replace (1 + len l - 1) with (len l) by lia. rewrite IH. cbn [outcome_bind].
  destruct (Nat.eqb_spec (length (concat (map enc l) ++ rest)) (length (enc a ++ concat (map enc l) ++ rest))) as [E|E]; [|done].
  rewrite (length_app (enc a)) in E. destruct (enc a); [done|]. cbn in E. lia.
Qed.

Lemma nom_bytes_read d rest :
  is_usize (len d) -> nom_bytes_decode (encode_scale_compact_usize (len d) ++ d ++ rest) = Some (Ok (rest, d)).
Proof.
  intros Hd. unfold nom_bytes_decode. rewrite nom_length_data_spec. rewrite usize_decode_encode by done. cbn [map_err result_bind].
  rewrite (proj2 (Z.ltb_ge _ _)) by (rewrite len_app; pose proof (len_nonneg rest); lia).
  unfold len. rewrite Nat2Z.id. by rewrite take_app_length, drop_app_length.
Qed.

(** The data of a block that can be sent. *)
Definition justification_ok (j : list u8 * list u8) : Prop := is_array 4 j.1 /\ is_bytes j.2 /\ is_usize (len j.2).

Definition sendable (d : list u8) : Prop := is_bytes d /\ len d <= two_gib.

Record block_ok (b : BlockData) : Prop := {
  bo_hash : is_array 32 (bd_hash b);
  bo_header : forall h, bd_header b = Some h -> sendable h;
  bo_body : forall txs, bd_body b = Some txs -> Forall sendable txs;
  bo_justifications : forall js, bd_justifications b = Some js -> is_usize (len js) /\ Forall justification_ok js;
  bo_justifications_bytes : sendable (justifications_bytes (bd_justifications b));
  bo_message : is_usize (len (concat (block_message b)))
}.

Lemma decode_justifications_read js :
  is_usize (len js) -> Forall justification_ok js ->
  decode_justifications (justifications_bytes (Some js)) = Some (Ok ([], js)).
Proof.
  intros Hl Hjs. unfold decode_justifications, justifications_bytes. rewrite nom_usize_encode by done. cbn [outcome_bind].
  rewrite <- (app_nil_r (concat _)). apply (many_read justification_entry
    (fun '(consensus_engine, justification) => consensus_engine ++ encode_scale_compact_usize (len justification) ++ justification)).
  eapply Forall_impl; [exact Hjs|]. intros [e j] (He & Hj & Hu). cbn in He, Hj, Hu. split.
  - destruct He as [He _]. by destruct e.
  - intros rest. unfold justification_entry. rewrite <- !app_assoc, take_read by done. cbn [outcome_bind]. by rewrite nom_bytes_read.
Qed.

Lemma decode_justifications_nil : decode_justifications [] = Some (Err mkNomError).
Proof. done. Qed.

(** The wire fields of a block. *)
Definition block_wires (b : BlockData) : list (u64 * wire) :=
  [(1, WBytes (bd_hash b))]
    ++ match bd_header b with Some h => [(2, WBytes h)] | None => [] end
    ++ map (fun tx => (3, WBytes tx)) (default [] (bd_body b))
    ++ [(8, WBytes (justifications_bytes (bd_justifications b)))].

Lemma wires_bytes_app a b : wires_bytes (a ++ b) = wires_bytes a ++ wires_bytes b.
Proof. unfold wires_bytes. by rewrite map_app, concat_app. Qed.

Lemma wires_bytes_one fw : wires_bytes [fw] = wire_bytes fw.
Proof. unfold wires_bytes. cbn. apply app_nil_r. Qed.

Lemma block_message_wires b : concat (block_message b) = wires_bytes (block_wires b).
Proof.
  unfold block_message, block_wires, bytes_tag_encode. rewrite !concat_app, !wires_bytes_app, !wires_bytes_one.
  rewrite !delimited_wire by done. do 2 f_equal.
  - destruct (bd_header b); [|done]. by rewrite wires_bytes_one, delimited_wire.
  - f_equal. destruct (bd_body b) as [txs|]; [|done]. cbn [default from_option]. unfold id. induction txs as [|tx txs IH]; [done|].
    cbn [map concat]. rewrite concat_app, IH. unfold wires_bytes. cbn [map concat]. by rewrite delimited_wire.
Qed.

Lemma sendable_wire f d : field_number f -> sendable d -> wire_ok (f, WBytes d).
Proof.
  intros Hf [Hd Hl]. apply wire_bytes_ok; [done| |done]. apply u32_usize. unfold two_gib in Hl. split; [apply len_nonneg|].
  rewrite pow2_32. lia.
Qed.

Lemma block_wires_ok b : block_ok b -> Forall wire_ok (block_wires b).
Proof.
  intros [Hh Hhd Hbd _ Hj _]. unfold block_wires. repeat (apply Forall_app; split).
  - apply Forall_singleton, sendable_wire; [done|]. split; [by destruct Hh|]. by rewrite (len_array 32).
  - destruct (bd_header b) as [h|]; [|done]. apply Forall_singleton, sendable_wire; [done|auto].
  - destruct (bd_body b) as [txs|]; [|done]. apply Forall_map. eapply Forall_impl; [by apply Hbd|]. intros tx Htx. by apply sendable_wire.
  - apply Forall_singleton, sendable_wire; done.
Qed.

Definition block_specs : list (FieldSpec block_values) :=
  [bytes_field 1 (fun '(a, b, c, d) v => (single_append a v, b, c, d));
   bytes_field 2 (fun '(a, b, c, d) v => (a, single_append b v, c, d));
   bytes_field 3 (fun '(a, b, c, d) v => (a, b, vec_append c v, d));
   bytes_field 8 (fun '(a, b, c, d) v => (a, b, c, option_append d v))].

Lemma block_specs_ok : Forall field_spec_ok block_specs.
Proof. unfold block_specs. repeat apply Forall_cons_2; [..|apply Forall_nil_2]; apply bytes_field_ok. Qed.

Lemma apply_wires_app {S} (ds : list (FieldSpec S)) l l' out :
  apply_wires ds (l ++ l') out = let? out := apply_wires ds l out in apply_wires ds l' out.
Proof.
  revert out. induction l as [|fw l IH]; intros out; [done|]. cbn [app apply_wires]. destruct (offer ds fw out); [|done]. cbn. apply IH.
Qed.

Lemma apply_body txs a b c d :
  Forall sendable txs -> apply_wires block_specs (map (fun tx => (3, WBytes tx)) txs) (a, b, c, d) = Ok (a, b, c ++ txs, d).
Proof.
  intros Htx. revert c. induction Htx as [|tx txs [_ Hl] Htx IH]; intros c; cbn [map apply_wires]; [by rewrite app_nil_r|].
  cbn. rewrite (proj2 (Z.leb_le _ _) Hl). cbn. rewrite IH. unfold vec_append. by rewrite <- app_assoc.
Qed.

Lemma block_apply b :
  block_ok b ->
  apply_wires block_specs (block_wires b) (None, None, [], None) =
    Ok (Some (bd_hash b), bd_header b, default [] (bd_body b), Some (justifications_bytes (bd_justifications b))).
Proof.
  intros [Hh Hhd Hbd _ [_ Hj] _]. unfold block_wires.
  assert (E1 : apply_wires block_specs [(1, WBytes (bd_hash b))] (None, None, [], None) = Ok (Some (bd_hash b), None, [], None)).
  { cbn. by rewrite (proj2 (Z.leb_le (len (bd_hash b)) two_gib)) by (rewrite (len_array 32) by done; done). }
  rewrite apply_wires_app, E1. cbn [result_bind].
  assert (E2 : apply_wires block_specs (match bd_header b with Some h => [(2, WBytes h)] | None => [] end) (Some (bd_hash b), None, [], None)
    = Ok (Some (bd_hash b), bd_header b, [], None)).
  { destruct (bd_header b) as [h|]; [|done]. cbn. destruct (Hhd h eq_refl) as [_ Hl]. by rewrite (proj2 (Z.leb_le _ _) Hl). }
  rewrite apply_wires_app, E2. cbn [result_bind]. rewrite apply_wires_app, apply_body; [|destruct (bd_body b); [by apply Hbd|done]]. cbn [result_bind app].
  cbn. by rewrite (proj2 (Z.leb_le _ _) Hj).
Qed.

Lemma block_parser_read b :
  block_ok b ->
  block_parser (concat (block_message b)) =
    match bd_header b with
    | Some h => Ok ([], (bd_hash b, h, default [] (bd_body b), Some (justifications_bytes (bd_justifications b))))
    | None => Err NomErr
    end.
Proof.
  intros Hb. unfold block_parser. change block_fields with (map (fs_field block_values) block_specs).
  rewrite block_message_wires, message_decode_all by (done || apply block_specs_ok || by apply block_wires_ok).
  rewrite block_apply by done. cbn [result_bind]. by destruct (bd_header b).
Qed.

(** The wire fields of a response. *)
Definition response_wires (blocks : list BlockData) : list (u64 * wire) :=
  map (fun b => (1, WBytes (concat (block_message b)))) blocks.

Definition response_specs : list (FieldSpec (list received_block)) := [message_field 1 block_parser vec_append].

Lemma build_response_wires blocks : concat (build_block_response blocks) = wires_bytes (response_wires blocks).
Proof.
  unfold build_block_response, response_wires. induction blocks as [|b blocks IH]; [done|]. cbn [map concat].
  rewrite concat_app, IH, message_wire by done. done.
Qed.

Lemma block_message_bytes b : block_ok b -> is_bytes (concat (block_message b)).
Proof.
  intros Hb%block_wires_ok. rewrite block_message_wires. unfold wires_bytes. induction Hb as [|fw l Hfw Hl IH]; [constructor|].
  cbn. apply Forall_app. split; [by apply wire_is_bytes|done].
Qed.

(** The blocks with a header. *)
Definition with_header (blocks : list BlockData) : list BlockData := filter (fun b => is_Some (bd_header b)) blocks.

Definition as_received (b : BlockData) : received_block :=
  (bd_hash b, default [] (bd_header b), default [] (bd_body b), Some (justifications_bytes (bd_justifications b))).

Lemma response_apply blocks out :
  Forall block_ok blocks ->
  apply_wires response_specs (response_wires blocks) out = Ok (out ++ map as_received (with_header blocks)).
Proof.
  intros Hb. revert out. induction Hb as [|b blocks Hb Hbs IH]; intros out; [by rewrite app_nil_r|].
  unfold response_wires, with_header in *. rewrite filter_cons. cbn [map apply_wires offer response_specs fst fs_num snd message_field delimited_field Z.eqb fs_interp].
  rewrite block_parser_read by done. destruct (bd_header b) as [h|] eqn:Eh.
  - rewrite decide_True by done. cbn. rewrite IH. unfold vec_append. rewrite <- app_assoc. cbn. unfold as_received at 2. by rewrite Eh.
  - rewrite decide_False by (by intros []). cbn. apply IH.
Qed.

(** The block of a response, as it is read. *)
Definition received (b : BlockData) : BlockData :=
  mkBlockData (bd_hash b) (match bd_header b with Some (_ :: _) => bd_header b | _ => None end)
    (Some (default [] (bd_body b))) (bd_justifications b).

Lemma decode_block_read b :
  block_ok b -> is_Some (bd_header b) ->
  decode_block (as_received b) =
    match bd_justifications b with Some _ => Some (Ok (received b)) | None => Some (Err InvalidJustifications) end.
Proof.
  intros Hb [h Eh]. unfold decode_block, as_received, received. rewrite Eh, array_try_from_array by apply Hb.
  destruct (bd_justifications b) as [js|] eqn:Ej; [|done].
  destruct (bo_justifications _ Hb js Ej) as [Hl Hjs]. rewrite decode_justifications_read by done. cbn. by destruct h.
Qed.

Lemma decode_blocks_read blocks :
  Forall block_ok blocks -> Forall (fun b => is_Some (bd_header b)) blocks ->
  decode_blocks (map as_received blocks) =
    if decide (Forall (fun b => is_Some (bd_justifications b)) blocks) then Some (Ok (map received blocks))
    else Some (Err InvalidJustifications).
Proof.
  intros Hb Hh. induction Hb as [|b blocks Hb Hbs IH]; [done|]. apply Forall_cons in Hh as [Hh Hhs].
  cbn [map decode_blocks]. rewrite decode_block_read by done. destruct (bd_justifications b) as [js|] eqn:Ej; cbn [outcome_bind].
  - rewrite IH by done. destruct (decide (Forall (fun b => is_Some (bd_justifications b)) blocks)) as [Hj|Hj]; cbn [outcome_bind].
    + rewrite decide_True; [done|]. constructor; [by rewrite Ej|done].
    + rewrite decide_False; [done|]. by intros [_ ?]%Forall_cons.
  - rewrite decide_False; [done|]. intros [Hj _]%Forall_cons. rewrite Ej in Hj. by destruct Hj.
Qed.

(** C39: decoding the response that is built for a list of blocks: a block without a
    header is left out without an error; among the others, a block without
    justifications makes the whole response refused; otherwise the blocks are read as they were
    given, but an absent body as an empty one and an empty header as an absent one. *)
Theorem block_response_decoding (blocks : list BlockData) :
  Forall block_ok blocks ->
  decode_block_response (concat (build_block_response blocks)) =
    if decide (Forall (fun b => is_Some (bd_justifications b)) (with_header blocks))
    then Some (Ok (map received (with_header blocks)))
    else Some (Err InvalidJustifications).
Proof.
  intros Hb. unfold decode_block_response, all_consuming, complete.
  change response_fields with (map (fs_field (list received_block)) response_specs).
  rewrite build_response_wires, message_decode_all.
  - rewrite response_apply by done. cbn [app result_bind vec_finish accept ok_or]. apply decode_blocks_read.
    + apply Forall_forall. intros b [_ Hin]%list_elem_of_filter. rewrite Forall_forall in Hb. auto.
    + apply Forall_forall. by intros b [? _]%list_elem_of_filter.
  - apply Forall_singleton, message_field_ok.
  - done.
  - apply Forall_map. eapply Forall_impl; [exact Hb|]. intros b Hbo. apply wire_bytes_ok; [done|apply Hbo|by apply block_message_bytes].
Qed.
End facts.

(** ** Examples *)

Module Example.
#[local] Existing Instance platform64.
#[local] Existing Instance nom_complete.
#[local] Existing Instance nom_complete_laws.
#[local] Existing Instance nom_length.
#[local] Existing Instance nom_length_laws.
#[local] Existing Instance nom_multi.
#[local] Existing Instance nom_multi_laws.

Definition sample_request : BlocksRequestConfig :=
  mkBlocksRequestConfig (StartNumber 1000) 128 Descending (mkBlocksRequestFields true true false).

(** The fields in another order, and an unknown one. *)
Definition shuffled_request : list (u64 * wire) :=
  [(6, WVarint 128); (9, WFixed32 [1; 2; 3; 4]); (3, WBytes [232; 3; 0; 0]); (5, WVarint 1); (1, WVarint (2 ^ 24 + 2 ^ 25))].

Lemma block_request_roundtrip_witness :
  decode_block_request 4 (concat (build_block_request 4 sample_request)) = Ok sample_request /\
  decode_block_request 4 (wires_bytes shuffled_request) = Ok sample_request.
Proof.
  apply (block_request_roundtrip 4 sample_request shuffled_request).
  - lia.
  - split; [|cbn; lia]. by vm_compute.
  - repeat apply Forall_cons_2; [..|apply Forall_nil_2]; by repeat (split || vm_compute || apply Forall_cons_2 || apply Forall_nil_2).
  - intros n Hn. repeat (apply elem_of_cons in Hn as [->|Hn]; [by vm_compute|]). by apply elem_of_nil in Hn.
Defined.

Definition sample_block (header : option (list u8)) (justifications : option (list (list u8 * list u8))) : BlockData :=
  mkBlockData (replicate 32 7) header (Some [[1; 2]; [3]]) justifications.

Lemma sample_block_ok header justifications :
  header ∈ [None; Some [9]] -> justifications ∈ [None; Some [(replicate 4 5, [6; 6])]] ->
  block_ok (sample_block header justifications).
Proof.
  intros Hh Hj. repeat (apply elem_of_cons in Hh as [->|Hh]; [|]); try (by apply elem_of_nil in Hh);
    repeat (apply elem_of_cons in Hj as [->|Hj]; [|]); try (by apply elem_of_nil in Hj);
    (split; [split; [done|by apply Forall_replicate]|intros h [= <-]|intros txs [= <-]|intros js [= <-]| |by vm_compute]);
    repeat (apply Forall_cons_2 || apply Forall_nil_2 || split); by vm_compute.
Qed.

Lemma block_response_decoding_witness :
  decode_block_response (concat (build_block_response [sample_block (Some [9]) (Some [(replicate 4 5, [6; 6])]); sample_block None None])) =
    Some (Ok [sample_block (Some [9]) (Some [(replicate 4 5, [6; 6])])]) /\
  decode_block_response (concat (build_block_response [sample_block (Some [9]) None])) = Some (Err InvalidJustifications).
Proof.
  split.
  - rewrite (block_response_decoding [sample_block (Some [9]) (Some [(replicate 4 5, [6; 6])]); sample_block None None]); [by vm_compute|].
    apply Forall_cons_2; [apply sample_block_ok; set_solver|]. apply Forall_singleton, sample_block_ok; set_solver.
  - rewrite (block_response_decoding [sample_block (Some [9]) None]); [by vm_compute|].
    apply Forall_singleton, sample_block_ok; set_solver.
Defined.

(** A block number of more than eight bytes: the ninth byte is read as if it were the
    first one, although the number does not fit. *)
Example long_number_wraps :
  decode_start 9 None (Some [0; 0; 0; 0; 0; 0; 0; 0; 5]) = Ok (StartNumber 5).
Proof. by vm_compute. Qed.
End Example.

(** ** Requests of the state, storage proofs and call proofs
    ([src/src/network/protocol/state_request.rs] and
    [src/src/network/protocol/storage_call_proof.rs])

    The encoders of the requests and the decoders of the responses. The other half of
    each protocol is in the full nodes; the responses that they send are described as wire
    fields. *)

#[local] Arguments encode_usize : simpl never.
#[local] Arguments encode : simpl never.

(** ** State requests *)

Record StateRequestConfig := mkStateRequestConfig { sr_block_hash : list u8; sr_start_key : list u8 }.

Record StateResponseEntry := mkStateResponseEntry { se_key : list u8; se_value : list u8 }.

Inductive DecodeStateResponseError := StateResponseProtobufDecode.

Definition build_state_request (config : StateRequestConfig) : list (list u8) :=
  bytes_tag_encode 1 (sr_block_hash config) ++ bytes_tag_encode 2 (sr_start_key config) ++ bool_tag_encode 3 true.

(** ** Storage and call proofs *)

Record StorageProofRequestConfig := mkStorageProofRequestConfig { sp_block_hash : list u8; sp_keys : list (list u8) }.

Record CallProofRequestConfig := mkCallProofRequestConfig {
  cp_block_hash : list u8;
  cp_method : list u8;
  cp_parameter_vectored : list (list u8)
}.

Inductive StorageOrCallProof := StorageProof | CallProof.

Inductive DecodeStorageCallProofResponseError :=
  | ProofResponseProtobufDecode
  | ProofBadResponseTy
  | ProofDecodeError.

Definition build_storage_proof_request (config : StorageProofRequestConfig) : list (list u8) :=
  message_tag_encode 2
    (bytes_tag_encode 2 (sp_block_hash config) ++ concat (map (bytes_tag_encode 3) (sp_keys config))).

Definition build_call_proof_request (config : CallProofRequestConfig) : list (list u8) :=
  let parameter := foldl (fun a b => a ++ b) [] (cp_parameter_vectored config) in
  message_tag_encode 1
    (bytes_tag_encode 2 (cp_block_hash config) ++ string_tag_encode 3 (cp_method config) ++ bytes_tag_encode 4 parameter).

Section messages.
Context `{Platform} `{Nom} `{NomLengthData} `{NomMulti}.

(** A key and its value. *)
Definition entry_fields : list (MessageField (option (list u8) * option (list u8))) :=
  [mkField (list u8) (bytes_tag_decode 1) (fun '(a, b) v => (single_append a v, b));
   mkField (list u8) (bytes_tag_decode 2) (fun '(a, b) v => (a, single_append b v))].

Definition entry_finish (out : option (list u8) * option (list u8)) : option (list u8 * list u8) :=
  let '(a, b) := out in
  let! a := single_finish a in
  let! b := single_finish b in
  Some (a, b).

Definition entry_parser : nparser (list u8 * list u8) := message_decode entry_fields (None, None) entry_finish.

(** A state root, the entries of its trie, and whether they are all of them. *)
Definition state_values : Type := option (list u8) * list (list u8 * list u8) * option bool.

Definition state_fields : list (MessageField state_values) :=
  [mkField (list u8) (bytes_tag_decode 1) (fun '(a, b, c) v => (single_append a v, b, c));
   mkField (list u8 * list u8) (message_tag_decode 2 entry_parser) (fun '(a, b, c) v => (a, vec_append b v, c));
   mkField bool (bool_tag_decode 3) (fun '(a, b, c) v => (a, b, single_append c v))].

Definition state_finish (out : state_values) : option (list u8 * list (list u8 * list u8) * bool) :=
  let '(a, b, c) := out in
  let! a := single_finish a in
  let! b := vec_finish b in
  let! c := single_finish c in
  Some (a, b, c).

Definition state_parser : nparser (list u8 * list (list u8 * list u8) * bool) :=
  message_decode state_fields (None, [], None) state_finish.

Definition state_response_fields : list (MessageField (list (list u8 * list (list u8 * list u8) * bool))) :=
  [mkField (list u8 * list (list u8 * list u8) * bool) (message_tag_decode 1 state_parser) vec_append].

Definition decode_state_response (response_bytes : list u8) : result DecodeStateResponseError (list StateResponseEntry) :=
  match all_consuming (complete (message_decode state_response_fields [] vec_finish)) response_bytes with
  | Err _ => Err StateResponseProtobufDecode
  | Ok (_, entries) =>
      Ok (map (fun '(key, value) => mkStateResponseEntry key value) (concat (map (fun '(_, entries, _) => entries) entries)))
  end.

(** The proof, in a message in a message. *)
Definition proof_fields : list (MessageField (option (list u8))) := [mkField (list u8) (bytes_tag_decode 2) single_append].

Definition proof_parser : nparser (list u8) := message_decode proof_fields None single_finish.

Definition proof_response_fields (field_num : u64) : list (MessageField (option (list u8))) :=
  [mkField (list u8) (message_tag_decode field_num proof_parser) single_append].

(** A SCALE-encoded [Vec<Vec<u8>>]. *)
Definition proof_entries : parser (list (list u8)) := fun bytes =>
  let* (bytes, num_elems) := nom_usize bytes in
  nom_many_m_n num_elems nom_bytes_decode bytes.

Definition decode_storage_or_call_proof_response (ty : StorageOrCallProof) (response_bytes : list u8)
    : outcome DecodeStorageCallProofResponseError (list (list u8)) :=
  let field_num := match ty with CallProof => 1 | StorageProof => 2 end in
  match all_consuming (complete (message_decode (proof_response_fields field_num) None single_finish)) response_bytes with
  | Err _ => Some (Err ProofResponseProtobufDecode)
  | Ok (_, proof) =>
      match proof_entries proof with
      | Some (Ok ([], decoded)) => Some (Ok decoded)
      | Some _ => Some (Err ProofDecodeError)
      | None => None
      end
  end.
End messages.

(** ** Facts *)

Section facts.
Context `{Platform} `{Nom} `{!NomLaws} `{NomLengthData} `{!NomLengthDataLaws} `{NomMulti} `{!NomMultiLaws}.

(** *** The responses of the full nodes *)

(** A message in a field. *)
Definition nested (num : u64) (l : list (u64 * wire)) : u64 * wire := (num, WBytes (wires_bytes l)).

Definition entry_wires (e : StateResponseEntry) : list (u64 * wire) := [(1, WBytes (se_key e)); (2, WBytes (se_value e))].

Record StateChunk := mkStateChunk { ch_root : list u8; ch_entries : list StateResponseEntry; ch_complete : bool }.

Definition chunk_wires (c : StateChunk) : list (u64 * wire) :=
  [(1, WBytes (ch_root c))] ++ map (fun e => nested 2 (entry_wires e)) (ch_entries c) ++
  [(3, WVarint (if ch_complete c then 1 else 0))].

Definition state_response_wires (cs : list StateChunk) : list (u64 * wire) := map (fun c => nested 1 (chunk_wires c)) cs.

(** The proof of a list of nodes. *)
Definition proof_bytes (nodes : list (list u8)) : list u8 :=
  encode_scale_compact_usize (len nodes) ++ concat (map (fun n => encode_scale_compact_usize (len n) ++ n) nodes).

Definition proof_response_wires (ty : StorageOrCallProof) (nodes : list (list u8)) : list (u64 * wire) :=
  [nested (match ty with CallProof => 1 | StorageProof => 2 end) [(2, WBytes (proof_bytes nodes))]].

(** *** Sizes *)

Lemma wires_is_bytes l : Forall wire_ok l -> is_bytes (wires_bytes l).
Proof.
  unfold wires_bytes. induction 1 as [|fw l Hfw Hl IH]; [constructor|]. cbn. apply Forall_app. split; [by apply wire_is_bytes|done].
Qed.

Definition entry_ok (e : StateResponseEntry) : Prop :=
  sendable (se_key e) /\ sendable (se_value e) /\ is_usize (len (wires_bytes (entry_wires e))).

Definition chunk_ok (c : StateChunk) : Prop :=
  sendable (ch_root c) /\ Forall entry_ok (ch_entries c) /\ is_usize (len (wires_bytes (chunk_wires c))).

Lemma nested_ok num l : field_number num -> Forall wire_ok l -> is_usize (len (wires_bytes l)) -> wire_ok (nested num l).
Proof. intros Hn Hl Hu. apply wire_bytes_ok; [done|done|by apply wires_is_bytes]. Qed.

Lemma entry_wires_ok e : entry_ok e -> Forall wire_ok (entry_wires e).
Proof. intros (Hk & Hv & _). unfold entry_wires. repeat apply Forall_cons_2; [..|apply Forall_nil_2]; by apply sendable_wire. Qed.

Lemma chunk_wires_ok c : chunk_ok c -> Forall wire_ok (chunk_wires c).
Proof.
  intros (Hr & He & _). unfold chunk_wires. repeat (apply Forall_app; split).
  - apply Forall_singleton. by apply sendable_wire.
  - apply Forall_map. eapply Forall_impl; [exact He|]. intros e Hok. apply nested_ok; [done|by apply entry_wires_ok|by destruct Hok as (_ & _ & ?)].
  - apply Forall_singleton, wire_varint_ok; [done|]. apply u32_usize. by destruct (ch_complete c).
Qed.

(** *** State responses *)

Definition entry_specs : list (FieldSpec (option (list u8) * option (list u8))) :=
  [bytes_field 1 (fun '(a, b) v => (single_append a v, b)); bytes_field 2 (fun '(a, b) v => (a, single_append b v))].

Lemma entry_specs_ok : Forall field_spec_ok entry_specs.
Proof. repeat apply Forall_cons_2; [..|apply Forall_nil_2]; apply bytes_field_ok. Qed.

Lemma entry_parser_read e : entry_ok e -> entry_parser (wires_bytes (entry_wires e)) = Ok ([], (se_key e, se_value e)).
Proof.
  intros He. unfold entry_parser. change entry_fields with (map (fs_field (option (list u8) * option (list u8))) entry_specs).
  rewrite message_decode_all by (apply entry_specs_ok || done || by apply entry_wires_ok). destruct He as ([_ Hk] & [_ Hv] & _).
  unfold entry_wires. cbn. rewrite (proj2 (Z.leb_le _ _) Hk). cbn. by rewrite (proj2 (Z.leb_le _ _) Hv).
Qed.

Definition state_specs : list (FieldSpec state_values) :=
  [bytes_field 1 (fun '(a, b, c) v => (single_append a v, b, c));
   message_field 2 entry_parser (fun '(a, b, c) v => (a, vec_append b v, c));
   bool_field 3 (fun '(a, b, c) v => (a, b, single_append c v))].

Lemma state_specs_ok : Forall field_spec_ok state_specs.
Proof. apply Forall_cons_2; [apply bytes_field_ok|]. apply Forall_cons_2; [apply message_field_ok|]. apply Forall_singleton, bool_field_ok. Qed.

Lemma apply_entries es a b c :
  Forall entry_ok es ->
  apply_wires state_specs (map (fun e => nested 2 (entry_wires e)) es) (a, b, c) =
    Ok (a, b ++ map (fun e => (se_key e, se_value e)) es, c).
Proof.
  intros He. revert b. induction He as [|e es He Hes IH]; intros b; cbn [map apply_wires]; [by rewrite app_nil_r|].
  unfold nested at 1. cbn [offer state_specs fst snd fs_num fs_interp bytes_field message_field bool_field delimited_field varint_field Z.eqb Pos.eqb].
  rewrite entry_parser_read by done. cbn. rewrite IH. unfold vec_append. by rewrite <- app_assoc.
Qed.

Lemma state_parser_read c :
  chunk_ok c ->
  state_parser (wires_bytes (chunk_wires c)) = Ok ([], (ch_root c, map (fun e => (se_key e, se_value e)) (ch_entries c), ch_complete c)).
Proof.
  intros Hc. unfold state_parser. change state_fields with (map (fs_field state_values) state_specs).
  rewrite message_decode_all by (apply state_specs_ok || done || by apply chunk_wires_ok). destruct Hc as ([_ Hr] & He & _).
  assert (E1 : apply_wires state_specs [(1, WBytes (ch_root c))] (None, [], None) = Ok (Some (ch_root c), [], None)).
  { cbn. by rewrite (proj2 (Z.leb_le _ _) Hr). }
  unfold chunk_wires. rewrite apply_wires_app, E1. cbn [result_bind]. rewrite apply_wires_app, apply_entries by done. cbn [result_bind app].
  by destruct (ch_complete c).
Qed.

Lemma apply_chunks cs out :
  Forall chunk_ok cs ->
  apply_wires [message_field 1 state_parser vec_append] (state_response_wires cs) out =
    Ok (out ++ map (fun c => (ch_root c, map (fun e => (se_key e, se_value e)) (ch_entries c), ch_complete c)) cs).
Proof.
  intros Hc. revert out. unfold state_response_wires. induction Hc as [|c cs Hc Hcs IH]; intros out; cbn [map apply_wires]; [by rewrite app_nil_r|].
  unfold nested at 1. cbn [offer fst snd fs_num fs_interp message_field delimited_field Z.eqb Pos.eqb].
  rewrite state_parser_read by done. cbn. rewrite IH. unfold vec_append. by rewrite <- app_assoc.
Qed.

(** The entries of a state response are those of its tries, in order. *)
Theorem state_response_decoding (cs : list StateChunk) :
  Forall chunk_ok cs -> decode_state_response (wires_bytes (state_response_wires cs)) = Ok (concat (map ch_entries cs)).
Proof.
  intros Hc. unfold decode_state_response, all_consuming, complete.
  change state_response_fields with (map (fs_field _) [message_field 1 state_parser (vec_append (T := list u8 * list (list u8 * list u8) * bool))]).
  rewrite message_decode_all.
  - rewrite apply_chunks by done. cbn [app result_bind vec_finish accept ok_or]. f_equal. clear Hc.
    induction cs as [|c cs IH]; [done|]. cbn [map concat]. rewrite map_app, IH. f_equal. rewrite map_map.
    induction (ch_entries c) as [|e es IHe]; [done|]. cbn. rewrite IHe. by destruct e.
  - apply Forall_singleton, message_field_ok.
  - done.
  - apply Forall_map. eapply Forall_impl; [exact Hc|]. intros c Hok. apply nested_ok; [done|by apply chunk_wires_ok|by destruct Hok as (_ & _ & ?)].
Qed.

(** *** Proofs *)

Lemma proof_entries_read nodes :
  is_usize (len nodes) -> Forall (fun n => is_usize (len n)) nodes -> proof_entries (proof_bytes nodes) = Some (Ok ([], nodes)).
Proof.
  intros Hl Hn. unfold proof_entries, proof_bytes. rewrite nom_usize_encode by done. cbn [outcome_bind].
  rewrite <- (app_nil_r (concat _)). apply (many_read nom_bytes_decode (fun n => encode_scale_compact_usize (len n) ++ n)).
  eapply Forall_impl; [exact Hn|]. intros n Hu. split.
  - intros [E _]%app_eq_nil. by destruct (compact_len_encode (len n) Hu) as (_ & _ & Hne & _).
  - intros rest. rewrite <- app_assoc. by apply nom_bytes_read.
Qed.

Lemma proof_bytes_bytes nodes :
  is_usize (len nodes) -> Forall (fun n => is_usize (len n)) nodes -> Forall is_bytes nodes -> is_bytes (proof_bytes nodes).
Proof.
  intros Hl Hn Hb. unfold proof_bytes. apply Forall_app. split; [by apply (compact_len_encode (len nodes))|].
  induction Hb as [|n nodes Hbn Hb IH]; [constructor|]. apply Forall_cons in Hn as [Hu Hn]. cbn. rewrite <- app_assoc.
  apply Forall_app. split; [by apply (compact_len_encode (len n))|]. apply Forall_app. split; [done|]. apply IH; [|done].
  rewrite len_cons in Hl. unfold is_uint in *. pose proof (len_nonneg nodes). lia.
Qed.

Lemma node_len nodes n : n ∈ nodes -> len n <= len (proof_bytes nodes).
Proof.
  intros Hin. unfold proof_bytes. rewrite len_app.
  enough (len n <= len (concat (map (fun n => encode_scale_compact_usize (len n) ++ n) nodes))) by (pose proof (len_nonneg (encode_scale_compact_usize (len nodes))); lia).
  induction nodes as [|m nodes IH]; [by apply elem_of_nil in Hin|]. cbn [map concat]. rewrite !len_app.
  pose proof (len_nonneg (encode_scale_compact_usize (len m))). pose proof (len_nonneg m).
  pose proof (len_nonneg (concat (map (fun n => encode_scale_compact_usize (len n) ++ n) nodes))).
  apply elem_of_cons in Hin as [->|Hin]; [lia|]. specialize (IH Hin). lia.
Qed.

(** The wire fields of the response to the other kind of request are unknown. *)
Theorem proof_response_decoding (ty : StorageOrCallProof) (nodes : list (list u8)) :
  is_usize (len nodes) -> Forall is_bytes nodes -> len (proof_bytes nodes) <= two_gib - 32 ->
  decode_storage_or_call_proof_response ty (wires_bytes (proof_response_wires ty nodes)) = Some (Ok nodes) /\
  decode_storage_or_call_proof_response ty (wires_bytes (proof_response_wires (match ty with CallProof => StorageProof | StorageProof => CallProof end) nodes))
    = Some (Err ProofResponseProtobufDecode).
Proof.
  intros Hl Hb Hlen.
  assert (Hn : Forall (fun n => is_usize (len n)) nodes).
  { apply Forall_forall. intros n Hin%node_len. apply u32_usize. pose proof (len_nonneg n). unfold two_gib in Hlen. unfold is_uint. rewrite pow2_32. lia. }
  assert (Hp : sendable (proof_bytes nodes)) by (split; [by apply proof_bytes_bytes|unfold two_gib in *; lia]).
  assert (Hin : Forall wire_ok [(2, WBytes (proof_bytes nodes))]) by (by apply Forall_singleton, sendable_wire).
  assert (Hu : is_usize (len (wires_bytes [(2, WBytes (proof_bytes nodes))]))).
  { apply u32_usize. rewrite wires_bytes_one. unfold wire_bytes. cbn [fst snd wire_ty wire_payload]. rewrite !len_app.
    pose proof (len_nonneg (proof_bytes nodes)).
    assert (Hs : forall v, is_usize v -> len (encode_usize v) < 16).
    { intros v Hv. pose proof (encode_usize_short v Hv) as Hs. destruct usize_bits_spec as [E|E]; rewrite E in Hs;
        [change (2 * (32 / 8)) with 8 in Hs|change (2 * (64 / 8)) with 16 in Hs]; lia. }
    pose proof (Hs (8 * 2 + 2) ltac:(by apply u32_usize; vm_compute)). pose proof (Hs (len (proof_bytes nodes))
      ltac:(apply u32_usize; unfold is_uint; rewrite pow2_32; unfold two_gib in Hlen; lia)).
    pose proof (len_nonneg (encode_usize (8 * 2 + 2))). pose proof (len_nonneg (encode_usize (len (proof_bytes nodes)))).
    unfold is_uint. rewrite pow2_32. unfold two_gib in Hlen. lia. }
  assert (Hread : proof_parser (wires_bytes [(2, WBytes (proof_bytes nodes))]) = Ok ([], proof_bytes nodes)).
  { unfold proof_parser. change proof_fields with (map (fs_field (option (list u8))) [bytes_field 2 single_append]).
    rewrite message_decode_all by (done || by apply Forall_singleton, bytes_field_ok). cbn. by rewrite (proj2 (Z.leb_le _ _) (proj2 Hp)). }
  unfold decode_storage_or_call_proof_response, all_consuming, complete.
  split; (change (proof_response_fields ?n) with (map (fs_field (option (list u8))) [message_field n proof_parser single_append]);
    rewrite message_decode_all; [|by apply Forall_singleton, message_field_ok|done|apply Forall_singleton, nested_ok; [by destruct ty|done|done]]).
  - unfold proof_response_wires, nested. cbn [apply_wires offer fst snd fs_num fs_interp message_field delimited_field]. rewrite Z.eqb_refl, Hread.
    cbn [result_bind default from_option single_finish accept ok_or]. unfold id.
    cbn [message_field delimited_field fs_field mf_append single_append accept ok_or result_bind].
    by rewrite proof_entries_read.
  - destruct ty; done.
Qed.
End facts.

(** ** Examples *)

Module LightExample.
#[local] Existing Instance platform32.
#[local] Existing Instance nom_complete.
#[local] Existing Instance nom_complete_laws.
#[local] Existing Instance nom_length.
#[local] Existing Instance nom_length_laws.
#[local] Existing Instance nom_multi.
#[local] Existing Instance nom_multi_laws.

Lemma state_response_decoding_witness :
  decode_state_response (wires_bytes (state_response_wires
    [mkStateChunk [1] [mkStateResponseEntry [2] [3]; mkStateResponseEntry [4] []] true])) =
  Ok [mkStateResponseEntry [2] [3]; mkStateResponseEntry [4] []].
Proof.
  rewrite (state_response_decoding [mkStateChunk [1] [mkStateResponseEntry [2] [3]; mkStateResponseEntry [4] []] true]); [done|].
  apply Forall_singleton. repeat (split || apply Forall_cons_2 || apply Forall_nil_2); by vm_compute.
Defined.

Lemma proof_response_decoding_witness :
  decode_storage_or_call_proof_response CallProof (wires_bytes (proof_response_wires CallProof [[1; 2]; []])) = Some (Ok [[1; 2]; []]).
Proof.
  apply (proof_response_decoding CallProof [[1; 2]; []]); [by vm_compute| |by vm_compute].
  repeat (apply Forall_cons_2 || apply Forall_nil_2); by vm_compute.
Defined.

(** The entries of a state response that does not say whether it is complete are left
    out without an error. *)
Example incomplete_chunk_ignored :
  decode_state_response (wires_bytes [nested 1 [(1, WBytes [1]); nested 2 [(1, WBytes [2]); (2, WBytes [3])]]]) = Ok [].
Proof. by vm_compute. Qed.
End LightExample.
