(* ===== verification/PeerId.v ===== *)
(** * Multihashes, public keys and identifiers of peers ([src/src/libp2p/multihash.rs]
    and [src/src/libp2p/peer_id.rs])

    A peer is identified by the multihash of the Protobuf encoding of its public key:
    the encoding itself if it is short, as that of an Ed25519 key is. *)

From S2P Require Import Prelude Leb128 Scale HeaderBase Protobuf.

Open Scope Z_scope.

#[local] Arguments encode_usize : simpl never.
#[local] Arguments encode : simpl never.

(** ** Multihashes *)

Record MultihashRef := mkMultihashRef { mh_code : u32; mh_data : list u8 }.

(** [multihash::FromBytesError]. *)
Inductive MultihashError := MultihashDecodeError.

Definition MultihashRef_identity (data : list u8) : MultihashRef := mkMultihashRef 0 data.

Definition MultihashRef_as_bytes (self : MultihashRef) : list (list u8) :=
  [encode (mh_code self); encode_usize (len (mh_data self)); mh_data self].

Definition MultihashRef_to_vec (self : MultihashRef) : list u8 :=
  foldl (fun out slice => out ++ slice) [] (MultihashRef_as_bytes self).

(** ** Public keys *)

Inductive PublicKey := PkEd25519 (key : list u8).

Inductive FromProtobufEncodingError :=
  | ProtobufDecodeError
  | UnknownAlgorithm
  | BadEd25519Key
  | UnsupportedAlgorithm.

Definition to_protobuf_encoding (self : PublicKey) : list u8 :=
  match self with
  | PkEd25519 key =>
      let out := foldl (fun out slice => out ++ slice) [] (enum_tag_encode 1 1) in
      foldl (fun out slice => out ++ slice) out (bytes_tag_encode 2 key)
  end.

(** ** Identifiers *)

(** [sha2::Sha256], and the Base58 of the [bs58] crate. *)
Class PeerIdDeps := {
  sha256 : list u8 -> list u8;
  bs58_encode : list u8 -> list u8;
  bs58_decode : list u8 -> option (list u8)
}.

Class PeerIdDepsLaws `{PeerIdDeps} : Prop := {
  bs58_roundtrip : forall bytes, bs58_decode (bs58_encode bytes) = Some bytes
}.

(** The only field of [PeerId], a valid multihash. *)
Record PeerId := mkPeerId { pid_multihash : list u8 }.

(** [peer_id::FromBytesError]. *)
Inductive PeerIdError :=
  | PeerIdDecodeError (e : MultihashError)
  | InvalidMultihashAlgorithm
  | InvalidPublicKey (e : FromProtobufEncodingError).

(** [peer_id::ParseError]. *)
Inductive PeerIdParseError :=
  | Bs58Error
  | NotPeerId (e : PeerIdError).

Definition MAX_INLINE_KEY_LENGTH : usize := 42.

Section peer_id.
Context `{Platform} `{Nom} `{NomLengthData} `{PeerIdDeps}.

Definition multihash : nparser MultihashRef := fun bytes =>
  let? (bytes, c) := leb128_usize bytes in
  let? code := accept (checked 32 c) in
  let? (bytes, data) := nom_length_data leb128_usize bytes in
  Ok (bytes, mkMultihashRef code data).

Definition MultihashRef_from_bytes (input : list u8) : result MultihashError MultihashRef :=
  match all_consuming multihash input with
  | Ok (_, multihash) => Ok multihash
  | Err _ => Err MultihashDecodeError
  end.

(** The parser of the two fields, in this order. The error of the first closure
    that refuses its value is the error of the whole. *)
Definition from_protobuf_encoding (bytes : list u8) : result FromProtobufEncodingError PublicKey :=
  let? (bytes, val) := map_err (fun _ => ProtobufDecodeError) (enum_tag_decode 1 bytes) in
  let? val := (if (0 <=? val) && (val <=? 3) then Ok val else Err UnknownAlgorithm) in
  let? (bytes, d) := map_err (fun _ => ProtobufDecodeError) (bytes_tag_decode 2 bytes) in
  let? key := ok_or (array_try_from 32 d) BadEd25519Key in
  match bytes with
  | _ :: _ => Err ProtobufDecodeError
  | [] => if val =? 1 then Ok (PkEd25519 key) else Err UnsupportedAlgorithm
  end.

Definition PeerId_from_public_key (key : PublicKey) : PeerId :=
  let key_enc := to_protobuf_encoding key in
  mkPeerId
    (if len key_enc <=? MAX_INLINE_KEY_LENGTH
     then foldl (fun out slice => out ++ slice) [] (MultihashRef_as_bytes (MultihashRef_identity key_enc))
     else [18; 50] ++ sha256 key_enc).

(** An error comes with the bytes. *)
Definition PeerId_from_bytes (data : list u8) : result (PeerIdError * list u8) PeerId :=
  let r :=
    match MultihashRef_from_bytes data with
    | Ok hash =>
        if mh_code hash =? 0 then
          match from_protobuf_encoding (mh_data hash) with
          | Err err => Err (InvalidPublicKey err)
          | Ok _ => Ok tt
          end
        else if mh_code hash =? 18 then Ok tt
        else Err InvalidMultihashAlgorithm
    | Err err => Err (PeerIdDecodeError err)
    end in
  match r with
  | Ok _ => Ok (mkPeerId data)
  | Err err => Err (err, data)
  end.

Definition PeerId_as_bytes (self : PeerId) : list u8 := pid_multihash self.

Definition PeerId_to_base58 (self : PeerId) : list u8 := bs58_encode (PeerId_as_bytes self).

(** [PeerId::from_str]. *)
Definition PeerId_from_str (s : list u8) : result PeerIdParseError PeerId :=
  let? bytes := ok_or (bs58_decode s) Bs58Error in
  map_err (fun e => NotPeerId (fst e)) (PeerId_from_bytes bytes).
End peer_id.

(** ** Facts *)

Section facts.
Context `{Platform} `{Nom} `{!NomLaws} `{NomLengthData} `{!NomLengthDataLaws} `{PeerIdDeps}.

Lemma to_protobuf_wires key :
  to_protobuf_encoding (PkEd25519 key) = wires_bytes [(1, WVarint 1); (2, WBytes key)].
Proof.
  unfold to_protobuf_encoding. rewrite concat_buffers.
  rewrite append_buffers. unfold enum_tag_encode, bytes_tag_encode. rewrite varint_wire, delimited_wire by done.
  unfold wires_bytes. cbn [map concat]. by rewrite app_nil_r.
Qed.

(** The two bytes of the algorithm, and the two of the length of the key. *)
Lemma to_protobuf_bytes key : length key = 32%nat -> to_protobuf_encoding (PkEd25519 key) = [8; 1; 18; 32] ++ key.
Proof.
  intros Hk. rewrite to_protobuf_wires. unfold wires_bytes, wire_bytes. cbn [map concat fst snd wire_ty wire_payload].
  unfold len. rewrite Hk, app_nil_r. done.
Qed.

Lemma to_protobuf_is_bytes key : is_array 32 key -> is_bytes (to_protobuf_encoding (PkEd25519 key)).
Proof. intros [Hl Hk]. rewrite to_protobuf_bytes by done. apply Forall_app. split; [|done]. by repeat constructor. Qed.

Lemma varint_decode_iff num bytes rest v :
  is_bytes bytes -> field_number num ->
  varint_zigzag_tag_decode num bytes = Ok (rest, v) <-> is_usize v /\ bytes = wire_bytes (num, WVarint v) ++ rest.
Proof.
  intros Hb Hnum. split.
  - unfold varint_zigzag_tag_decode. destruct (expect_tag num 0 bytes) as [[r []]|] eqn:E; cbn [result_bind]; [|done].
    apply expect_tag_inv in E as (_ & _ & _ & -> & Hr); [|done]. intros [Hv ->]%leb128_usize_iff; [|done].
    split; [done|]. unfold wire_bytes. cbn. by rewrite <- app_assoc.
  - intros [Hv ->]. apply Forall_app in Hb as [_ Hr]. rewrite varint_on_wire by (done || by apply wire_varint_ok). by rewrite Z.eqb_refl.
Qed.

Lemma delimited_decode_iff num bytes rest d :
  is_bytes bytes -> field_number num ->
  delimited_tag_decode num bytes = Ok (rest, d) <-> is_usize (len d) /\ is_bytes d /\ bytes = wire_bytes (num, WBytes d) ++ rest.
Proof.
  intros Hb Hnum. split.
  - unfold delimited_tag_decode. destruct (expect_tag num 2 bytes) as [[r []]|] eqn:E; cbn [result_bind]; [|done].
    apply expect_tag_inv in E as (_ & _ & _ & -> & Hr); [|done]. intros [Hl ->]%length_data_iff; [|done].
    apply Forall_app in Hr as [_ [Hd _]%Forall_app]. split_and!; [done|done|]. unfold wire_bytes. cbn. by rewrite <- !app_assoc.
  - intros (Hl & Hd & ->). apply Forall_app in Hb as [_ Hr]. rewrite delimited_on_wire by (done || by apply wire_bytes_ok). by rewrite Z.eqb_refl.
Qed.

(** A public key is decoded from its own encoding only. *)
Lemma from_protobuf_iff bytes key :
  is_bytes bytes -> from_protobuf_encoding bytes = Ok (PkEd25519 key) <-> is_array 32 key /\ bytes = to_protobuf_encoding (PkEd25519 key).
Proof.
  intros Hb. rewrite to_protobuf_wires. unfold wires_bytes. cbn [map concat]. rewrite app_nil_r. unfold from_protobuf_encoding, enum_tag_decode, bytes_tag_decode. split.
  - destruct (varint_zigzag_tag_decode 1 bytes) as [[r v]|] eqn:E1; cbn [map_err result_bind]; [|done].
    apply varint_decode_iff in E1 as [Hv ->]; [|done|done]. apply Forall_app in Hb as [_ Hr].
    destruct ((0 <=? v) && (v <=? 3)); cbn [result_bind]; [|done].
    destruct (delimited_tag_decode 2 r) as [[r2 d]|] eqn:E2; cbn [map_err result_bind]; [|done].
    apply delimited_decode_iff in E2 as (Hl & Hd & ->); [|done|done].
    destruct (len d <=? two_gib); cbn [accept ok_or map_err result_bind]; [|done].
    destruct (array_try_from 32 d) as [k|] eqn:Ek; cbn [ok_or result_bind]; [|done]. apply array_try_from_Some in Ek as [-> Hk].
    destruct r2; [|done]. destruct (Z.eqb_spec v 1) as [->|]; [|done]. intros [= <-]. split; [done|]. by rewrite app_nil_r.
  - intros [Hk ->]. assert (Hv : varint_zigzag_tag_decode 1 (wire_bytes (1, WVarint 1) ++ wire_bytes (2, WBytes key)) = Ok (wire_bytes (2, WBytes key), 1)).
    { apply varint_decode_iff; [done|done|]. split; [|done]. apply u32_usize. by vm_compute. }
    rewrite Hv. cbn [map_err result_bind Z.leb Z.compare andb].
    assert (Hd : delimited_tag_decode 2 (wire_bytes (2, WBytes key)) = Ok ([], key)).
    { apply delimited_decode_iff; [by apply Forall_app in Hb as [_ ?]|done|]. rewrite app_nil_r.
      split_and!; [|by destruct Hk|done]. apply u32_usize. rewrite (len_array 32) by done. by vm_compute. }
    cbn. rewrite Hd. cbn [map_err result_bind]. rewrite (len_array 32) by done. change (Z.of_nat 32 <=? two_gib) with true. cbn [accept ok_or result_bind map_err]. by rewrite array_try_from_array.
Qed.

Lemma from_bytes_iff input code data :
  is_bytes input ->
  MultihashRef_from_bytes input = Ok (mkMultihashRef code data) <->
  is_u32 code /\ is_usize code /\ is_usize (len data) /\ input = MultihashRef_to_vec (mkMultihashRef code data).
Proof.
  intros Hb. unfold MultihashRef_to_vec. rewrite concat_buffers. cbn [MultihashRef_as_bytes concat mh_code mh_data]. rewrite app_nil_r.
  unfold MultihashRef_from_bytes, all_consuming, multihash. split.
  - destruct (leb128_usize input) as [[r c]|] eqn:E; cbn [result_bind]; [|done]. apply leb128_usize_iff in E as [Hc ->]; [|done].
    apply Forall_app in Hb as [_ Hr]. destruct (checked 32 c) as [c'|] eqn:Ec; cbn [accept ok_or result_bind]; [|done].
    apply checked_Some in Ec as [-> Hu]. destruct (nom_length_data leb128_usize r) as [[r2 d]|] eqn:Ed; cbn [result_bind]; [|done].
    apply length_data_iff in Ed as [Hl ->]; [|done]. destruct r2; [|done]. intros [= <- <-]. by rewrite app_nil_r.
  - intros (Hu & Hc & Hl & ->). change (encode code) with (encode_usize code) in *. apply Forall_app in Hb as [_ Hr].
    rewrite leb128_usize_read by done. cbn [result_bind]. rewrite checked_small by done. cbn [accept ok_or result_bind].
    assert (Ed : nom_length_data leb128_usize (encode_usize (len data) ++ data) = Ok ([], data)).
    { apply length_data_iff; [done|]. by rewrite app_nil_r. }
    by rewrite Ed.
Qed.

(** The bytes that are accepted as the identifier of a peer are exactly the
    identifiers of the Ed25519 public keys, and the multihashes of SHA-256, whatever the
    length of their hash. *)
Theorem peer_id_iff (data : list u8) (id : PeerId) :
  is_bytes data -> is_usize (len data) ->
  PeerId_from_bytes data = Ok id <->
  PeerId_as_bytes id = data /\
  ((exists key, is_array 32 key /\ id = PeerId_from_public_key (PkEd25519 key)) \/
   (exists hash, data = MultihashRef_to_vec (mkMultihashRef 18 hash))).
Proof.
  intros Hb Hlen.
  assert (Hkey : forall key, is_array 32 key ->
    PeerId_from_public_key (PkEd25519 key) = mkPeerId (MultihashRef_to_vec (mkMultihashRef 0 (to_protobuf_encoding (PkEd25519 key))))).
  { intros key [Hk _]. unfold PeerId_from_public_key. rewrite to_protobuf_bytes by done. rewrite (proj2 (Z.leb_le _ _)); [done|].
    rewrite len_app. unfold len. rewrite Hk. by vm_compute. }
  assert (Hsmall : forall c d, data = MultihashRef_to_vec (mkMultihashRef c d) -> is_usize (len d)).
  { intros c d ->. unfold MultihashRef_to_vec in Hlen. rewrite concat_buffers in Hlen. cbn [MultihashRef_as_bytes concat mh_data] in Hlen.
    unfold is_uint in *. pose proof (len_nonneg d). autorewrite with len in Hlen. pose proof (len_nonneg (encode c)). pose proof (len_nonneg (encode_usize (len d))). cbn in *. lia. }
  unfold PeerId_from_bytes. split.
  - destruct (MultihashRef_from_bytes data) as [[code d]|] eqn:E; [|done]. apply from_bytes_iff in E as (Hu & Hc & Hl & E); [|done].
    cbn [mh_code mh_data]. destruct (Z.eqb_spec code 0) as [->|_].
    + destruct (from_protobuf_encoding d) as [[key]|] eqn:Ek; [|done]. intros [= <-]. split; [done|]. left. exists key.
      apply from_protobuf_iff in Ek as [Hk ->]; [|].
      * split; [done|]. by rewrite Hkey, <- E.
      * rewrite E in Hb. unfold MultihashRef_to_vec in Hb. rewrite concat_buffers in Hb. cbn in Hb.
        apply Forall_app in Hb as [_ Hb]. apply Forall_app in Hb as [_ Hb]. by rewrite app_nil_r in Hb.
    + destruct (Z.eqb_spec code 18) as [->|_]; [|done]. intros [= <-]. split; [done|]. right. by exists d.
  - intros [<- [(key & Hk & ->)|(hash & Eh)]].
    + rewrite Hkey in * by done. cbn [PeerId_as_bytes pid_multihash] in *.
      assert (Em : MultihashRef_from_bytes (MultihashRef_to_vec (mkMultihashRef 0 (to_protobuf_encoding (PkEd25519 key)))) =
        Ok (mkMultihashRef 0 (to_protobuf_encoding (PkEd25519 key)))).
      { apply from_bytes_iff; [done|]. split_and!; [by vm_compute|by apply u32_usize; vm_compute|by eapply Hsmall|done]. }
      assert (Epk : from_protobuf_encoding (to_protobuf_encoding (PkEd25519 key)) = Ok (PkEd25519 key)).
      { apply from_protobuf_iff; [by apply to_protobuf_is_bytes|done]. }
      rewrite Em. cbn [mh_code mh_data Z.eqb]. by rewrite Epk.
    + assert (Em : MultihashRef_from_bytes (PeerId_as_bytes id) = Ok (mkMultihashRef 18 hash)).
      { apply from_bytes_iff; [done|]. split_and!; [by vm_compute|by apply u32_usize; vm_compute|by eapply Hsmall|done]. }
      rewrite Em. cbn. by destruct id.
Qed.

(** An identifier is read back from its bytes and from its Base58 form. *)
Theorem peer_id_roundtrip `{!PeerIdDepsLaws} (key : list u8) :
  is_array 32 key ->
  let id := PeerId_from_public_key (PkEd25519 key) in
  PeerId_from_bytes (PeerId_as_bytes id) = Ok id /\ PeerId_from_str (PeerId_to_base58 id) = Ok id /\
  from_protobuf_encoding (to_protobuf_encoding (PkEd25519 key)) = Ok (PkEd25519 key).
Proof.
  intros Hk. cbv zeta. assert (Hb : PeerId_as_bytes (PeerId_from_public_key (PkEd25519 key)) = [0; 36; 8; 1; 18; 32] ++ key).
  { unfold PeerId_from_public_key. rewrite to_protobuf_bytes by (by destruct Hk). rewrite len_app, (len_array 32 key) by done.
    change (len [8; 1; 18; 32] + Z.of_nat 32 <=? MAX_INLINE_KEY_LENGTH) with true. cbv iota.
    cbn [PeerId_as_bytes pid_multihash]. rewrite concat_buffers. cbn [MultihashRef_as_bytes MultihashRef_identity mh_code mh_data concat].
    rewrite len_app, (len_array 32 key) by done. change (encode_usize (len [8; 1; 18; 32] + Z.of_nat 32)) with [36]. change (encode 0) with [0].
    by rewrite app_nil_r. }
  assert (Hbytes : is_bytes (PeerId_as_bytes (PeerId_from_public_key (PkEd25519 key)))).
  { rewrite Hb. apply Forall_app. split; [by repeat constructor|by destruct Hk]. }
  assert (Hread : PeerId_from_bytes (PeerId_as_bytes (PeerId_from_public_key (PkEd25519 key))) = Ok (PeerId_from_public_key (PkEd25519 key))).
  { apply peer_id_iff; [done| |split; [done|left; by exists key]]. apply u32_usize. rewrite Hb, len_app, (len_array 32 key) by done. by vm_compute. }
  split_and!; [done| |apply from_protobuf_iff; [by apply to_protobuf_is_bytes|done]].
  unfold PeerId_from_str, PeerId_to_base58. rewrite bs58_roundtrip. cbn [ok_or result_bind]. by rewrite Hread.
Qed.
End facts.

(** ** Examples *)

Module Example.
#[local] Existing Instance platform32.
#[local] Existing Instance nom_complete.
#[local] Existing Instance nom_complete_laws.
#[local] Existing Instance nom_length.
#[local] Existing Instance nom_length_laws.

(** A toy instance. *)
Definition toy_deps : PeerIdDeps := {|
  sha256 := fun bytes => replicate 32 (foldr Z.add 0 bytes `mod` 256);
  bs58_encode := fun bytes => bytes;
  bs58_decode := Some
|}.
#[local] Existing Instance toy_deps.

Lemma toy_deps_laws : PeerIdDepsLaws.
Proof. split. done. Qed.
#[local] Existing Instance toy_deps_laws.

Definition sample_key : list u8 := replicate 32 7.

Lemma sample_key_ok : is_array 32 sample_key.
Proof. split; [done|by apply Forall_replicate]. Qed.

Lemma peer_id_iff_witness :
  PeerId_from_bytes ([0; 36; 8; 1; 18; 32] ++ sample_key) = Ok (PeerId_from_public_key (PkEd25519 sample_key)).
Proof.
  apply (peer_id_iff ([0; 36; 8; 1; 18; 32] ++ sample_key)).
  - apply Forall_app. split; [by repeat constructor|apply sample_key_ok].
  - by vm_compute.
  - split; [by vm_compute|]. left. exists sample_key. split; [apply sample_key_ok|done].
Defined.

Lemma peer_id_roundtrip_witness :
  PeerId_from_str (PeerId_to_base58 (PeerId_from_public_key (PkEd25519 sample_key))) = Ok (PeerId_from_public_key (PkEd25519 sample_key)).
Proof. apply (peer_id_roundtrip sample_key sample_key_ok). Defined.

(** The prefix that the code writes before a SHA-256 hash announces 50 bytes: it is
    not the multihash of a hash of 32 bytes. The encoding of an Ed25519 key is too short for
    this to be reached. *)
Example sha256_prefix_invalid : PeerId_from_bytes ([18; 50] ++ sha256 [1]) = Err (PeerIdDecodeError MultihashDecodeError, [18; 50] ++ sha256 [1]).
Proof. by vm_compute. Qed.

(** A multihash whose SHA-256 hash has one byte is accepted. *)
Example short_hash_accepted : PeerId_from_bytes [18; 1; 0] = Ok (mkPeerId [18; 1; 0]).
Proof. by vm_compute. Qed.
End Example.
