(* ===== verification/Multiaddr.v ===== *)
(** * Multiaddresses ([src/src/libp2p/multiaddr.rs])

    An address is a sequence of protocols, in a binary form and in a text form. The
    binary form that is accepted is exactly the concatenation of the encodings of protocols;
    what is printed is read back, except [quic]. *)

From S2P Require Import Prelude Leb128 Scale HeaderBase Protobuf PeerId.

Open Scope Z_scope.

#[local] Arguments encode_usize : simpl never.
#[local] Arguments encode : simpl never.

(** ** Data

    A string is its bytes. *)

Record Multiaddr := mkMultiaddr { ma_bytes : list u8 }.

Inductive FromVecError := mkFromVecError.

(** [multiaddr::ParseError]. *)
Inductive MultiaddrParseError :=
  | InvalidMultiaddr
  | UnexpectedEof
  | UnrecognizedProtocol
  | InvalidPort
  | InvalidIp
  | NotBase58
  | InvalidDomainName
  | InvalidMultihash (e : MultihashError)
  | InvalidMemoryPayload.

(** The field of a [DomainNameRef] is a valid domain name. *)
Record DomainNameRef := mkDomainNameRef { dn_bytes : list u8 }.

Inductive ProtocolRef :=
  | Dns (addr : DomainNameRef)
  | Dns4 (addr : DomainNameRef)
  | Dns6 (addr : DomainNameRef)
  | DnsAddr (addr : DomainNameRef)
  | Ip4 (ip : list u8)
  | Ip6 (ip : list u8)
  | P2p (multihash : list u8)
  | Quic
  | Tcp (port : u16)
  | Tls
  | Udp (port : u16)
  | Ws
  | Wss
  | Memory (payload : u64)
  | ExperimentalWebRtc
  | ExperimentalCertHash (hash : list u8).

(** ** Domain names *)

(** [str::split]. *)
Fixpoint str_split (sep : u8) (s : list u8) : list (list u8) :=
  match s with
  | [] => [[]]
  | c :: s =>
      if c =? sep then [] :: str_split sep s
      else
        match str_split sep s with
        | part :: parts => (c :: part) :: parts
        | [] => [[c]]
        end
  end.

(** [str::split_terminator]: a last part that is empty is left out. *)
Definition split_terminator (sep : u8) (s : list u8) : list (list u8) :=
  match last (str_split sep s) with
  | Some [] => removelast (str_split sep s)
  | _ => str_split sep s
  end.

Definition dot : u8 := 46.
Definition slash : u8 := 47.

(** A label of a domain name that is refused. *)
Definition bad_label (label : list u8) : bool := bool_decide (label = []) || (63 <? len label).

Definition DomainNameRef_try_from (input : list u8) : result MultiaddrParseError DomainNameRef :=
  if 255 <? len input then Err InvalidDomainName
  else if negb (bool_decide (input = [])) && negb (bool_decide (input = [dot])) && existsb bad_label (split_terminator dot input)
  then Err InvalidDomainName
  else if existsb (fun b => b =? slash) input then Err InvalidDomainName
  else Ok (mkDomainNameRef input).

(** ** The binary form *)

(** [u16::to_be_bytes] and [u64::to_be_bytes]. *)
Definition to_be_bytes (n : nat) (v : Z) : list u8 := rev (to_le_bytes n v).

Definition protocol_code (self : ProtocolRef) : usize :=
  match self with
  | Dns _ => 53
  | Dns4 _ => 54
  | Dns6 _ => 55
  | DnsAddr _ => 56
  | Ip4 _ => 4
  | Ip6 _ => 41
  | P2p _ => 421
  | Quic => 460
  | Tcp _ => 6
  | Tls => 448
  | Udp _ => 273
  | Ws => 477
  | Wss => 478
  | Memory _ => 777
  | ExperimentalWebRtc => 991234
  | ExperimentalCertHash _ => 991235
  end.

Definition protocol_extra (self : ProtocolRef) : list u8 :=
  match self with
  | Dns addr | Dns4 addr | Dns6 addr | DnsAddr addr => encode_usize (len (dn_bytes addr)) ++ dn_bytes addr
  | Ip4 ip | Ip6 ip => ip
  | P2p multihash => encode_usize (len multihash) ++ multihash
  | Tcp port | Udp port => to_be_bytes 2 port
  | Memory payload => to_be_bytes 8 payload
  | ExperimentalCertHash hash => hash
  | _ => []
  end.

Definition ProtocolRef_as_bytes (self : ProtocolRef) : list (list u8) :=
  one_byte_buffers (encode_usize (protocol_code self)) ++ [protocol_extra self].

Definition Multiaddr_empty : Multiaddr := mkMultiaddr [].

Definition Multiaddr_push (self : Multiaddr) (protocol : ProtocolRef) : Multiaddr :=
  mkMultiaddr (foldl (fun a b => a ++ b) (ma_bytes self) (ProtocolRef_as_bytes protocol)).

Definition Multiaddr_to_vec (self : Multiaddr) : list u8 := ma_bytes self.

Definition Multiaddr_from_protocol (proto : ProtocolRef) : Multiaddr :=
  mkMultiaddr (foldl (fun a b => a ++ b) [] (ProtocolRef_as_bytes proto)).

Definition Multiaddr_from_iter (iter : list ProtocolRef) : Multiaddr :=
  mkMultiaddr (foldl (fun bytes protocol => foldl (fun a b => a ++ b) bytes (ProtocolRef_as_bytes protocol)) [] iter).

Section binary.
Context `{Platform} `{Nom} `{NomLengthData}.

(** [nom::number::complete::be_u16] and [be_u64], the big-endian counterparts of
    [le_u16] and [le_u64]: the bytes of the integer in the other order. *)
Definition be_n (n : nat) : nparser Z := fun bytes =>
  let? (rest, b) := take_n n bytes in
  Ok (rest, from_le_bytes (rev b)).

(** [map_opt(length_data(..), |s| ..)]. *)
Definition domain_name : nparser DomainNameRef := fun bytes =>
  let? (rest, s) := nom_length_data leb128_usize bytes in
  let? name := accept (if is_utf8 s then match DomainNameRef_try_from s with Ok name => Some name | Err _ => None end else None) in
  Ok (rest, name).

Definition protocol : nparser ProtocolRef := fun bytes =>
  let? (bytes, protocol_code) := leb128_usize bytes in
  if protocol_code =? 4 then let? (rest, ip) := take_n 4 bytes in Ok (rest, Ip4 ip)
  else if protocol_code =? 6 then let? (rest, port) := be_n 2 bytes in Ok (rest, Tcp port)
  else if protocol_code =? 41 then let? (rest, ip) := take_n 16 bytes in Ok (rest, Ip6 ip)
  else if protocol_code =? 53 then let? (rest, addr) := domain_name bytes in Ok (rest, Dns addr)
  else if protocol_code =? 54 then let? (rest, addr) := domain_name bytes in Ok (rest, Dns4 addr)
  else if protocol_code =? 55 then let? (rest, addr) := domain_name bytes in Ok (rest, Dns6 addr)
  else if protocol_code =? 56 then let? (rest, addr) := domain_name bytes in Ok (rest, DnsAddr addr)
  else if protocol_code =? 273 then let? (rest, port) := be_n 2 bytes in Ok (rest, Udp port)
  else if protocol_code =? 421 then
    let? (rest, b) := nom_length_data leb128_usize bytes in
    let? b := accept (match MultihashRef_from_bytes b with Ok _ => Some b | Err _ => None end) in
    Ok (rest, P2p b)
  else if protocol_code =? 448 then Ok (bytes, Tls)
  else if protocol_code =? 460 then Ok (bytes, Quic)
  else if protocol_code =? 477 then Ok (bytes, Ws)
  else if protocol_code =? 478 then Ok (bytes, Wss)
  else if protocol_code =? 777 then let? (rest, payload) := be_n 8 bytes in Ok (rest, Memory payload)
  else if protocol_code =? 991234 then Ok (bytes, ExperimentalWebRtc)
  else if protocol_code =? 991235 then let? (rest, hash) := take_n 32 bytes in Ok (rest, ExperimentalCertHash hash)
  else Err NomErr.

(** [nom::combinator::iterator] over [protocol], driven to its end: the protocols, each
    with the bytes that were read, until the parser fails. A protocol takes at least a byte. *)
Fixpoint protocols_loop (fuel : nat) (bytes : list u8) : list (ProtocolRef * list u8) :=
  match fuel with
  | O => []
  | S fuel =>
      match protocol bytes with
      | Ok (rest, p) => (p, take (length bytes - length rest) bytes) :: protocols_loop fuel rest
      | Err _ => []
      end
  end.

Definition Multiaddr_iter (self : Multiaddr) : list ProtocolRef :=
  fst <$> protocols_loop (S (length (ma_bytes self))) (ma_bytes self).

(** [None] is the panic. *)
Definition Multiaddr_pop (self : Multiaddr) : option Multiaddr :=
  let! (_, last_bytes) := last (protocols_loop (S (length (ma_bytes self))) (ma_bytes self)) in
  let bytes_prefix := length last_bytes in
  let remain := (length (ma_bytes self) - bytes_prefix)%nat in
  Some (mkMultiaddr (take remain (ma_bytes self))).

(** [nom::multi::fold_many0]: the parser is applied until it fails with an error;
    another failure is that of the whole. *)
Fixpoint skip_protocols (fuel : nat) : nparser unit := fun bytes =>
  match fuel with
  | O => Err NomFailure
  | S fuel =>
      match protocol bytes with
      | Ok (rest, _) => if Nat.eqb (length rest) (length bytes) then Err NomErr else skip_protocols fuel rest
      | Err NomErr => Ok (bytes, tt)
      | Err e => Err e
      end
  end.

(** [TryFrom<Vec<u8>>]. *)
Definition Multiaddr_try_from (bytes : list u8) : result FromVecError Multiaddr :=
  match all_consuming (skip_protocols (S (length bytes))) bytes with
  | Err _ => Err mkFromVecError
  | Ok _ => Ok (mkMultiaddr bytes)
  end.
End binary.

(** ** The text form *)

(** Decimal integers: [Display] and [FromStr] of the unsigned types. *)
Fixpoint decimal_digits (fuel : nat) (v : Z) : list u8 :=
  match fuel with
  | O => []
  | S fuel => (if v <? 10 then [] else decimal_digits fuel (v / 10)) ++ [48 + v `mod` 10]
  end.

(** A [u64] has at most twenty digits. *)
Definition decimal (v : Z) : list u8 := decimal_digits 20 v.

Fixpoint parse_digits (w : Z) (s : list u8) (acc : Z) : option Z :=
  match s with
  | [] => Some acc
  | c :: s =>
      if in_range 48 57 c then
        let! acc := checked_mul w acc 10 in
        let! acc := checked_add w acc (c - 48) in
        parse_digits w s acc
      else None
  end.

(** A leading [+] is allowed before a digit. *)
Definition parse_uint (w : Z) (s : list u8) : option Z :=
  match s with
  | [] => None
  | 43 :: [] => None
  | 43 :: s => parse_digits w s 0
  | s => parse_digits w s 0
  end.

(** The names of the protocols. *)
Definition str_dns : list u8 := [100; 110; 115].
Definition str_dns4 : list u8 := [100; 110; 115; 52].
Definition str_dns6 : list u8 := [100; 110; 115; 54].
Definition str_dnsaddr : list u8 := [100; 110; 115; 97; 100; 100; 114].
Definition str_ip4 : list u8 := [105; 112; 52].
Definition str_ip6 : list u8 := [105; 112; 54].
Definition str_p2p : list u8 := [112; 50; 112].
Definition str_quic : list u8 := [113; 117; 105; 99].
Definition str_tcp : list u8 := [116; 99; 112].
Definition str_tls : list u8 := [116; 108; 115].
Definition str_udp : list u8 := [117; 100; 112].
Definition str_ws : list u8 := [119; 115].
Definition str_wss : list u8 := [119; 115; 115].
Definition str_memory : list u8 := [109; 101; 109; 111; 114; 121].
Definition str_webrtc : list u8 :=
  [101; 120; 112; 101; 114; 105; 109; 101; 110; 116; 97; 108; 45; 119; 101; 98; 114; 116; 99].
Definition str_certhash : list u8 :=
  [101; 120; 112; 101; 114; 105; 109; 101; 110; 116; 97; 108; 45; 99; 101; 114; 116; 104; 97; 115; 104].

(** The addresses of the [no_std_net] crate, and the [hex] crate. *)
Class MultiaddrDeps := {
  ipv4_display : list u8 -> list u8;
  ipv4_parse : list u8 -> option (list u8);
  ipv6_display : list u8 -> list u8;
  ipv6_parse : list u8 -> option (list u8);
  hex_encode : list u8 -> list u8;
  hex_decode : list u8 -> option (list u8)
}.

(** What is printed is read back, and has no slash in it. *)
Class MultiaddrDepsLaws `{MultiaddrDeps} `{PeerIdDeps} : Prop := {
  ipv4_roundtrip : forall ip, is_array 4 ip -> ipv4_parse (ipv4_display ip) = Some ip;
  ipv4_no_slash : forall ip, slash ∉ ipv4_display ip;
  ipv6_roundtrip : forall ip, is_array 16 ip -> ipv6_parse (ipv6_display ip) = Some ip;
  ipv6_no_slash : forall ip, slash ∉ ipv6_display ip;
  hex_roundtrip : forall bytes, is_bytes bytes -> hex_decode (hex_encode bytes) = Some bytes;
  hex_no_slash : forall bytes, slash ∉ hex_encode bytes;
  bs58_no_slash : forall bytes, slash ∉ bs58_encode bytes
}.

Section text.
Context `{Platform} `{Nom} `{NomLengthData} `{PeerIdDeps} `{MultiaddrDeps}.

(** [iter.next().ok_or(ParseError::UnexpectedEof)?]. *)
Definition next_part (iter : list (list u8)) : result MultiaddrParseError (list (list u8) * list u8) :=
  match iter with
  | [] => Err UnexpectedEof
  | part :: iter => Ok (iter, part)
  end.

Definition from_str_parts (iter : list (list u8)) : result MultiaddrParseError (list (list u8) * ProtocolRef) :=
  let? (iter, name) := next_part iter in
  if bool_decide (name = str_dns) then
    let? (iter, addr) := next_part iter in
    let? addr := DomainNameRef_try_from addr in Ok (iter, Dns addr)
  else if bool_decide (name = str_dns4) then
    let? (iter, addr) := next_part iter in
    let? addr := DomainNameRef_try_from addr in Ok (iter, Dns4 addr)
  else if bool_decide (name = str_dns6) then
    let? (iter, addr) := next_part iter in
    let? addr := DomainNameRef_try_from addr in Ok (iter, Dns6 addr)
  else if bool_decide (name = str_dnsaddr) then
    let? (iter, addr) := next_part iter in
    let? addr := DomainNameRef_try_from addr in Ok (iter, DnsAddr addr)
  else if bool_decide (name = str_ip4) then
    let? (iter, string_ip) := next_part iter in
    let? parsed := ok_or (ipv4_parse string_ip) InvalidIp in Ok (iter, Ip4 parsed)
  else if bool_decide (name = str_ip6) then
    let? (iter, string_ip) := next_part iter in
    let? parsed := ok_or (ipv6_parse string_ip) InvalidIp in Ok (iter, Ip6 parsed)
  else if bool_decide (name = str_p2p) then
    let? (iter, s) := next_part iter in
    let? decoded := ok_or (bs58_decode s) NotBase58 in
    match MultihashRef_from_bytes decoded with
    | Err err => Err (InvalidMultihash err)
    | Ok _ => Ok (iter, P2p decoded)
    end
  else if bool_decide (name = str_tcp) then
    let? (iter, port) := next_part iter in
    let? port := ok_or (parse_uint 16 port) InvalidPort in Ok (iter, Tcp port)
  else if bool_decide (name = str_tls) then Ok (iter, Tls)
  else if bool_decide (name = str_udp) then
    let? (iter, port) := next_part iter in
    let? port := ok_or (parse_uint 16 port) InvalidPort in Ok (iter, Udp port)
  else if bool_decide (name = str_ws) then Ok (iter, Ws)
  else if bool_decide (name = str_wss) then Ok (iter, Wss)
  else if bool_decide (name = str_memory) then
    let? (iter, payload) := next_part iter in
    let? payload := ok_or (parse_uint 64 payload) InvalidMemoryPayload in Ok (iter, Memory payload)
  else if bool_decide (name = str_webrtc) then Ok (iter, ExperimentalWebRtc)
  else if bool_decide (name = str_certhash) then
    let? (iter, string_hash) := next_part iter in
    let? parsed := ok_or (hex_decode string_hash) InvalidDomainName in
    let? correct_len := ok_or (array_try_from 32 parsed) InvalidDomainName in
    Ok (iter, ExperimentalCertHash correct_len)
  else Err UnrecognizedProtocol.

(** The loop of [from_str]: a protocol takes at least a part. *)
Fixpoint parse_parts (fuel : nat) (parts : list (list u8)) (bytes : list u8) : result MultiaddrParseError (list u8) :=
  match fuel, parts with
  | _, [] => Ok bytes
  | O, _ :: _ => Err UnexpectedEof
  | S fuel, _ :: _ =>
      let? (parts, protocol) := from_str_parts parts in
      parse_parts fuel parts (foldl (fun a b => a ++ b) bytes (ProtocolRef_as_bytes protocol))
  end.

Definition Multiaddr_from_str (input : list u8) : result MultiaddrParseError Multiaddr :=
  match str_split slash input with
  | [] :: parts =>
      let? bytes := parse_parts (length parts) parts [] in
      Ok (mkMultiaddr bytes)
  | _ => Err InvalidMultiaddr
  end.

(** [Display]. *)
Definition ProtocolRef_display (self : ProtocolRef) : list u8 :=
  match self with
  | Dns addr => [slash] ++ str_dns ++ [slash] ++ dn_bytes addr
  | Dns4 addr => [slash] ++ str_dns4 ++ [slash] ++ dn_bytes addr
  | Dns6 addr => [slash] ++ str_dns6 ++ [slash] ++ dn_bytes addr
  | DnsAddr addr => [slash] ++ str_dnsaddr ++ [slash] ++ dn_bytes addr
  | Ip4 ip => [slash] ++ str_ip4 ++ [slash] ++ ipv4_display ip
  | Ip6 ip => [slash] ++ str_ip6 ++ [slash] ++ ipv6_display ip
  | P2p multihash => [slash] ++ str_p2p ++ [slash] ++ bs58_encode multihash
  | Quic => [slash] ++ str_quic
  | Tcp port => [slash] ++ str_tcp ++ [slash] ++ decimal port
  | Tls => [slash] ++ str_tls
  | Udp port => [slash] ++ str_udp ++ [slash] ++ decimal port
  | Ws => [slash] ++ str_ws
  | Wss => [slash] ++ str_wss
  | Memory payload => [slash] ++ str_memory ++ [slash] ++ decimal payload
  | ExperimentalWebRtc => [slash] ++ str_webrtc
  | ExperimentalCertHash hash => [slash] ++ str_certhash ++ [slash] ++ hex_encode hash
  end.

Definition Multiaddr_display (self : Multiaddr) : list u8 := concat (map ProtocolRef_display (Multiaddr_iter self)).
End text.

(** ** Facts on the binary form *)

Section facts.
Context `{Platform} `{Nom} `{!NomLaws} `{NomLengthData} `{!NomLengthDataLaws}.

Definition protocol_bytes (p : ProtocolRef) : list u8 := encode_usize (protocol_code p) ++ protocol_extra p.

Lemma as_bytes_concat p : concat (ProtocolRef_as_bytes p) = protocol_bytes p.
Proof. unfold ProtocolRef_as_bytes, protocol_bytes. by rewrite concat_app, concat_one_byte; cbn; rewrite app_nil_r. Qed.

Definition domain_ok (n : DomainNameRef) : Prop :=
  DomainNameRef_try_from (dn_bytes n) = Ok n /\ is_utf8 (dn_bytes n) = true /\ is_bytes (dn_bytes n).

Definition protocol_ok (p : ProtocolRef) : Prop :=
  match p with
  | Dns addr | Dns4 addr | Dns6 addr | DnsAddr addr => domain_ok addr
  | Ip4 ip => is_array 4 ip
  | Ip6 ip => is_array 16 ip
  | P2p multihash => is_bytes multihash /\ is_usize (len multihash) /\ exists m, MultihashRef_from_bytes multihash = Ok m
  | Tcp port | Udp port => is_uint 16 port
  | Memory payload => is_uint 64 payload
  | ExperimentalCertHash hash => is_array 32 hash
  | _ => True
  end.

Lemma domain_name_eq s n : DomainNameRef_try_from s = Ok n -> n = mkDomainNameRef s.
Proof. unfold DomainNameRef_try_from. repeat case_if; congruence. Qed.

Lemma domain_len n : domain_ok n -> is_usize (len (dn_bytes n)).
Proof.
  intros [Hn _]. apply u32_usize. unfold DomainNameRef_try_from in Hn. destruct (Z.ltb_spec 255 (len (dn_bytes n))); [done|].
  pose proof (len_nonneg (dn_bytes n)). unfold is_uint. rewrite pow2_32. lia.
Qed.

(** *** The parts of a protocol *)

Lemma take_n_iff n bytes rest d : is_bytes bytes -> take_n n bytes = Ok (rest, d) <-> is_array n d /\ bytes = d ++ rest.
Proof.
  intros Hb. split; [|intros [Hd ->]; by apply take_n_read].
  unfold take_n. rewrite nom_take_spec. destruct (Nat.leb_spec n (length bytes)); cbn; [|done]. intros [= <- <-].
  split; [by apply is_array_take|by rewrite take_drop].
Qed.

Lemma be_n_iff n bytes rest v :
  is_bytes bytes -> be_n n bytes = Ok (rest, v) <-> is_uint (8 * Z.of_nat n) v /\ bytes = to_be_bytes n v ++ rest.
Proof.
  intros Hb. unfold be_n, to_be_bytes. split.
  - destruct (take_n n bytes) as [[r d]|] eqn:E; cbn; [|done]. intros [= <- <-]. apply take_n_iff in E as [[Hl Hd] ->]; [|done].
    assert (Hrev : is_array n (rev d)) by (split; [by rewrite length_rev|by apply Forall_rev]).
    split; [by apply is_uint_from_le_bytes|]. f_equal. destruct Hrev as [Hlr Hdr]. rewrite <- Hlr. rewrite to_from_le_bytes by done. by rewrite rev_involutive.
  - intros [Hv ->]. rewrite (take_n_read n (rev (to_le_bytes n v))).
    + cbn. rewrite rev_involutive. by rewrite from_to_le_bytes.
    + destruct (is_array_le n v). split; [by rewrite length_rev|by apply Forall_rev].
Qed.

Lemma domain_name_iff bytes rest n :
  is_bytes bytes -> domain_name bytes = Ok (rest, n) <-> domain_ok n /\ bytes = encode_usize (len (dn_bytes n)) ++ dn_bytes n ++ rest.
Proof.
  intros Hb. unfold domain_name. split.
  - destruct (nom_length_data leb128_usize bytes) as [[r s]|] eqn:E; cbn [result_bind]; [|done].
    apply length_data_iff in E as [Hl ->]; [|done]. destruct (is_utf8 s) eqn:Eu; [|done].
    destruct (DomainNameRef_try_from s) as [n'|] eqn:En; [|done]. cbn. intros [= <- <-].
    pose proof (domain_name_eq _ _ En) as ->. cbn. split; [|done]. split_and!; [done|done|]. by apply Forall_app in Hb as [_ [? _]%Forall_app].
  - intros [Hok ->]. assert (E : nom_length_data leb128_usize (encode_usize (len (dn_bytes n)) ++ dn_bytes n ++ rest) = Ok (rest, dn_bytes n)).
    { apply length_data_iff; [done|]. split; [by apply domain_len|done]. }
    rewrite E. cbn [result_bind]. destruct Hok as (Hn & Hu & _). by rewrite Hu, Hn.
Qed.

Lemma p2p_iff bytes rest b :
  is_bytes bytes ->
  (let? (rest, b) := nom_length_data leb128_usize bytes in
   let? b := accept (match MultihashRef_from_bytes b with Ok _ => Some b | Err _ => None end) in Ok (rest, P2p b)) = Ok (rest, P2p b) <->
  protocol_ok (P2p b) /\ bytes = encode_usize (len b) ++ b ++ rest.
Proof.
  intros Hb. split.
  - destruct (nom_length_data leb128_usize bytes) as [[r s]|] eqn:E; cbn [result_bind]; [|done].
    apply length_data_iff in E as [Hl ->]; [|done]. destruct (MultihashRef_from_bytes s) as [m|] eqn:Em; [|done]. cbn. intros [= <- <-].
    split; [|done]. split_and!; [by apply Forall_app in Hb as [_ [? _]%Forall_app]|done|by exists m].
  - intros [(_ & Hl & m & Em) ->]. assert (E : nom_length_data leb128_usize (encode_usize (len b) ++ b ++ rest) = Ok (rest, b)).
    { by apply length_data_iff. }
    rewrite E. cbn [result_bind]. by rewrite Em.
Qed.

Lemma code_usize p : is_usize (protocol_code p).
Proof. apply u32_usize. destruct p; by vm_compute. Qed.

(** A parser that wraps the value of another one. *)
Lemma wrap_inv {A B} (r : result nom_err (list u8 * A)) (f : A -> B) rest b :
  (let? (rest, a) := r in Ok (rest, f a)) = Ok (rest, b) -> exists a, r = Ok (rest, a) /\ b = f a.
Proof. destruct r as [[r a]|]; cbn; [|done]. intros [= -> <-]. by exists a. Qed.

Ltac code_case :=
  match goal with |- (if ?c =? ?k then _ else _) = _ -> _ => destruct (Z.eqb_spec c k) as [->|_] end.

Lemma protocol_read p rest : protocol_ok p -> is_bytes (protocol_bytes p ++ rest) -> protocol (protocol_bytes p ++ rest) = Ok (rest, p).
Proof.
  intros Hok Hb. unfold protocol, protocol_bytes in *. rewrite <- app_assoc in *. apply Forall_app in Hb as [_ Hr].
  rewrite leb128_usize_read by (done || apply code_usize).
  destruct p; cbn [protocol_code protocol_extra result_bind Z.eqb Pos.eqb] in *; try done; try rewrite <- app_assoc in *.
  all: try (rewrite (proj2 (domain_name_iff _ rest addr Hr)) by done; done).
  all: try (rewrite (take_n_read 4) by done; done).
  all: try (rewrite (take_n_read 16) by done; done).
  all: try (rewrite (take_n_read 32) by done; done).
  all: try (rewrite (proj2 (be_n_iff 2 _ rest port Hr)) by done; done).
  all: try (rewrite (proj2 (be_n_iff 8 _ rest payload Hr)) by done; done).
  by apply p2p_iff.
Qed.

Lemma protocol_inv bytes rest p :
  is_bytes bytes -> protocol bytes = Ok (rest, p) -> protocol_ok p /\ bytes = protocol_bytes p ++ rest.
Proof.
  intros Hb. unfold protocol, protocol_bytes. destruct (leb128_usize bytes) as [[r c]|] eqn:E; cbn [result_bind]; [|done].
  apply leb128_usize_iff in E as [_ ->]; [|done]. apply Forall_app in Hb as [_ Hr]. rewrite <- app_assoc.
  repeat code_case; try done.
  all: try (intros (a & [Ha ->]%take_n_iff & ->)%wrap_inv; [|done]; done).
  all: try (intros (a & [Ha ->]%be_n_iff & ->)%wrap_inv; [|done]; done).
  all: try (intros (a & [Ha ->]%domain_name_iff & ->)%wrap_inv; [|done]; cbn; by rewrite <- app_assoc).
  all: try (intros [= <- <-]; done).
  intros Hp. assert (Ep : exists b, p = P2p b).
  { revert Hp. destruct (nom_length_data leb128_usize r) as [[r2 b]|]; cbn; [|done].
    destruct (MultihashRef_from_bytes b); cbn; [|done]. intros [= _ <-]. by exists b. }
  destruct Ep as [b ->]. apply p2p_iff in Hp as [Hok ->]; [|done]. split; [done|]. cbn. by rewrite <- app_assoc.
Qed.

Lemma protocol_nonempty p : (0 < length (protocol_bytes p))%nat.
Proof.
  unfold protocol_bytes. rewrite length_app. pose proof (encode_usize_nonempty (protocol_code p)). destruct (encode_usize (protocol_code p)); [done|].
  cbn. lia.
Qed.

(** *** Addresses *)

Definition addr_bytes (ps : list ProtocolRef) : list u8 := concat (map protocol_bytes ps).

Lemma addr_bytes_app ps qs : addr_bytes (ps ++ qs) = addr_bytes ps ++ addr_bytes qs.
Proof. unfold addr_bytes. by rewrite map_app, concat_app. Qed.

Lemma from_iter_bytes ps : Multiaddr_from_iter ps = mkMultiaddr (addr_bytes ps).
Proof.
  unfold Multiaddr_from_iter. f_equal.
  assert (Hacc : forall acc, foldl (fun bytes protocol => foldl (fun a b => a ++ b) bytes (ProtocolRef_as_bytes protocol)) acc ps = acc ++ addr_bytes ps).
  { induction ps as [|p ps IH]; intros acc; cbn [foldl]; [by rewrite app_nil_r|]. rewrite IH, append_buffers, as_bytes_concat, <- app_assoc. done. }
  apply Hacc.
Qed.

Lemma addr_is_bytes ps : Forall protocol_ok ps -> is_bytes (addr_bytes ps).
Proof.
  intros Hps. unfold addr_bytes. induction Hps as [|p ps Hp Hps IH]; [constructor|]. cbn. apply Forall_app. split; [|done].
  apply Forall_app. split; [apply encode_usize_bytes, code_usize|].
  destruct p; cbn [protocol_extra protocol_ok] in *; try (by destruct Hp); try done;
    try (apply Forall_app; split; [by apply encode_usize_bytes, domain_len|by destruct Hp as (_ & _ & ?)]).
  - apply Forall_app. destruct Hp as (? & ? & _). split; [by apply encode_usize_bytes|done].
  - apply Forall_rev, to_le_bytes_bytes.
  - apply Forall_rev, to_le_bytes_bytes.
  - apply Forall_rev, to_le_bytes_bytes.
Qed.

Lemma addr_length ps : (length ps <= length (addr_bytes ps))%nat.
Proof.
  unfold addr_bytes. induction ps as [|p ps IH]; [done|]. cbn. rewrite length_app. pose proof (protocol_nonempty p). lia.
Qed.

Lemma protocols_loop_read ps fuel :
  Forall protocol_ok ps -> (length ps < fuel)%nat -> protocols_loop fuel (addr_bytes ps) = map (fun p => (p, protocol_bytes p)) ps.
Proof.
  intros Hps. revert fuel. induction Hps as [|p ps Hp Hps IH]; intros fuel Hf; (destruct fuel as [|fuel]; [cbn in Hf; lia|]); [done|].
  pose proof (addr_is_bytes (p :: ps) (Forall_cons_2 _ _ _ Hp Hps)) as Hb. unfold addr_bytes in *. cbn [map concat] in *.
  cbn [protocols_loop]. rewrite protocol_read by done. rewrite length_app, Nat.add_sub, take_app_length. f_equal. apply IH. cbn in Hf. lia.
Qed.

Lemma iter_read ps : Forall protocol_ok ps -> Multiaddr_iter (Multiaddr_from_iter ps) = ps.
Proof.
  intros Hps. unfold Multiaddr_iter. rewrite from_iter_bytes. cbn [ma_bytes]. pose proof (addr_length ps).
  rewrite protocols_loop_read by (done || lia). change (fst <$> map ?f ps) with (map fst (map f ps)). rewrite map_map. apply map_id.
Qed.

Lemma skip_protocols_read ps fuel :
  Forall protocol_ok ps -> (length ps < fuel)%nat -> skip_protocols fuel (addr_bytes ps) = Ok ([], tt).
Proof.
  intros Hps. revert fuel. induction Hps as [|p ps Hp Hps IH]; intros fuel Hf; (destruct fuel as [|fuel]; [cbn in Hf; lia|]); [done|].
  pose proof (addr_is_bytes (p :: ps) (Forall_cons_2 _ _ _ Hp Hps)) as Hb. unfold addr_bytes in *. cbn [map concat] in *.
  cbn [skip_protocols]. rewrite protocol_read by done. pose proof (protocol_nonempty p).
  destruct (Nat.eqb_spec (length (concat (map protocol_bytes ps))) (length (protocol_bytes p ++ concat (map protocol_bytes ps)))) as [E|_].
  - rewrite length_app in E. lia.
  - apply IH. cbn in Hf. lia.
Qed.

Lemma skip_protocols_inv fuel bytes :
  is_bytes bytes -> skip_protocols fuel bytes = Ok ([], tt) -> exists ps, Forall protocol_ok ps /\ bytes = addr_bytes ps.
Proof.
  revert bytes. induction fuel as [|fuel IH]; intros bytes Hb; cbn [skip_protocols]; [done|].
  destruct (protocol bytes) as [[rest p]|[]] eqn:E; try done.
  - apply protocol_inv in E as [Hp ->]; [|done]. case_match; [done|]. apply Forall_app in Hb as [_ Hr].
    intros (ps & Hps & ->)%IH; [|done]. exists (p :: ps). split; [by constructor|done].
  - intros [= ->]. by exists [].
Qed.

Lemma multiaddr_try_from_iff bytes a :
  is_bytes bytes ->
  Multiaddr_try_from bytes = Ok a <-> ma_bytes a = bytes /\ exists ps, Forall protocol_ok ps /\ a = Multiaddr_from_iter ps.
Proof.
  intros Hb. unfold Multiaddr_try_from, all_consuming. split.
  - destruct (skip_protocols (S (length bytes)) bytes) as [[rest []]|] eqn:E; cbn [result_bind]; [|done].
    destruct rest; [|done]. intros [= <-]. split; [done|]. apply skip_protocols_inv in E as (ps & Hps & ->); [|done].
    exists ps. split; [done|by rewrite from_iter_bytes].
  - intros (<- & ps & Hps & ->). rewrite from_iter_bytes in *. cbn [ma_bytes]. pose proof (addr_length ps).
    by rewrite skip_protocols_read by (done || lia).
Qed.

(** C25: the bytes that are accepted as an address are exactly the concatenations of the
    encodings of valid protocols. The protocols that were given are the ones that are
    enumerated; pushing a protocol adds it at the end, and popping removes the last one and panics
    only on the empty address. *)
Theorem multiaddr_binary (bytes : list u8) :
  is_bytes bytes ->
  (forall a, Multiaddr_try_from bytes = Ok a <-> ma_bytes a = bytes /\ exists ps, Forall protocol_ok ps /\ a = Multiaddr_from_iter ps) /\
  (forall ps p, Forall protocol_ok ps -> protocol_ok p ->
    Multiaddr_iter (Multiaddr_from_iter ps) = ps /\
    Multiaddr_push (Multiaddr_from_iter ps) p = Multiaddr_from_iter (ps ++ [p]) /\
    Multiaddr_pop (Multiaddr_from_iter (ps ++ [p])) = Some (Multiaddr_from_iter ps)) /\
  Multiaddr_pop Multiaddr_empty = None.
Proof.
  intros Hb. split_and!; [| |done].
  - intros a. by apply multiaddr_try_from_iff.
  - intros ps p Hps Hp. split; [by apply iter_read|]. rewrite !from_iter_bytes, addr_bytes_app.
    assert (Hone : addr_bytes [p] = protocol_bytes p) by apply app_nil_r. rewrite Hone. split.
    + unfold Multiaddr_push. cbn [ma_bytes]. f_equal.
      by rewrite append_buffers, as_bytes_concat.
    + unfold Multiaddr_pop. cbn [ma_bytes]. rewrite <- Hone, <- addr_bytes_app. pose proof (addr_length (ps ++ [p])).
      rewrite protocols_loop_read by (lia || by apply Forall_app; split; [|apply Forall_singleton]).
      rewrite map_app. cbn [map]. rewrite last_snoc. f_equal. f_equal. rewrite addr_bytes_app, Hone, length_app, Nat.add_sub. by rewrite take_app_length.
Qed.
End facts.

(** ** Facts on the text form *)

#[export] Instance DomainNameRef_eq_dec : EqDecision DomainNameRef.
Proof. solve_decision. Defined.
#[export] Instance ProtocolRef_eq_dec : EqDecision ProtocolRef.
Proof. solve_decision. Defined.

(** *** Splitting *)

Lemma str_split_part sep part s : sep ∉ part -> str_split sep (part ++ sep :: s) = part :: str_split sep s.
Proof.
  induction part as [|c part IH]; intros Hn; cbn [app str_split]; [by rewrite Z.eqb_refl|].
  apply not_elem_of_cons in Hn as [Hc Hn]. rewrite (proj2 (Z.eqb_neq c sep)) by done. by rewrite IH.
Qed.

Lemma str_split_last sep part : sep ∉ part -> str_split sep part = [part].
Proof.
  induction part as [|c part IH]; intros Hn; cbn [str_split]; [done|].
  apply not_elem_of_cons in Hn as [Hc Hn]. rewrite (proj2 (Z.eqb_neq c sep)) by done. by rewrite IH.
Qed.

Lemma str_split_parts sep parts :
  Forall (fun part => sep ∉ part) parts -> str_split sep (concat (map (cons sep) parts)) = [] :: parts.
Proof.
  intros Hp. destruct Hp as [|part parts Hpart Hp]; [done|]. cbn [map concat app str_split]. rewrite Z.eqb_refl. f_equal.
  revert part Hpart. induction Hp as [|q parts Hq Hp IH]; intros part Hpart; [by rewrite app_nil_r; apply str_split_last|].
  cbn [map concat]. change ((sep :: q) ++ concat (map (cons sep) parts)) with (sep :: (q ++ concat (map (cons sep) parts))).
  rewrite str_split_part by done. by rewrite IH.
Qed.

(** *** Decimal numbers *)

Lemma decimal_digits_parse w fuel v s :
  4 <= w -> 0 <= v < 10 ^ Z.of_nat fuel -> is_uint w v -> parse_digits w (decimal_digits fuel v ++ s) 0 = parse_digits w s v.
Proof.
  intros Hw. revert v s. induction fuel as [|fuel IH]; intros v s Hv Hu; [cbn in Hv |- *; f_equal; lia|].
  pose proof (Z.mod_pos_bound v 10 ltac:(lia)) as Hm. pose proof (Z.div_mod v 10 ltac:(lia)) as Hdm.
  assert (Hdig : forall acc, acc * 10 + v `mod` 10 = v -> 0 <= acc ->
    parse_digits w ((48 + v `mod` 10) :: s) acc = parse_digits w s v).
  { intros acc Hacc Hpos. cbn [parse_digits]. unfold in_range. rewrite (proj2 (Z.leb_le _ _)), (proj2 (Z.leb_le _ _)) by lia. cbn [andb].
    unfold checked_mul, checked_add. unfold is_uint in Hu. rewrite checked_small by (unfold is_uint; lia).
    replace (48 + v `mod` 10 - 48) with (v `mod` 10) by lia. rewrite checked_small by (unfold is_uint; lia). by rewrite Hacc. }
  cbn [decimal_digits]. destruct (Z.ltb_spec v 10) as [Hlt|Hge].
  - cbn [app]. apply Hdig; [|lia]. rewrite (Z.mod_small v 10) by lia. lia.
  - rewrite <- app_assoc. cbn [app]. rewrite IH.
    + apply Hdig; [lia|]. apply Z.div_pos; lia.
    + split; [apply Z.div_pos; lia|]. apply Z.div_lt_upper_bound; [lia|]. rewrite Nat2Z.inj_succ, Z.pow_succ_r in Hv by lia. lia.
    + unfold is_uint in *. split; [apply Z.div_pos; lia|]. apply Z.le_lt_trans with v; [|lia]. apply Z.div_le_upper_bound; lia.
Qed.

Lemma decimal_digits_range fuel v c : 0 <= v -> c ∈ decimal_digits fuel v -> 48 <= c <= 57.
Proof.
  revert v. induction fuel as [|fuel IH]; intros v Hv; cbn [decimal_digits]; [by intros ?%elem_of_nil|].
  pose proof (Z.mod_pos_bound v 10 ltac:(lia)). rewrite elem_of_app, list_elem_of_singleton. intros [Hc| ->]; [|lia].
  destruct (v <? 10); [by apply elem_of_nil in Hc|]. apply (IH (v / 10)); [|done]. apply Z.div_pos; lia.
Qed.

Lemma parse_decimal w v : 4 <= w <= 64 -> is_uint w v -> parse_uint w (decimal v) = Some v.
Proof.
  intros Hw Hv. assert (Hp : parse_digits w (decimal v) 0 = Some v).
  { unfold decimal. rewrite <- (app_nil_r (decimal_digits 20 v)), decimal_digits_parse; [done|lia| |done].
    destruct Hv as [H0 H1]. split; [done|]. apply Z.lt_le_trans with (2 ^ w); [done|]. apply Z.le_trans with (2 ^ 64); [apply Z.pow_le_mono_r; lia|].
    by vm_compute. }
  assert (Hr : forall c, c ∈ decimal v -> 48 <= c <= 57) by (intros c; apply decimal_digits_range; by destruct Hv).
  assert (Hne : decimal v <> []) by (unfold decimal; cbn [decimal_digits]; by intros [_ ?]%app_eq_nil).
  unfold parse_uint. destruct (decimal v) as [|c s]; [done|]. specialize (Hr c (list_elem_of_here _ _)).
  destruct c as [|c|c]; [lia| |lia]. do 6 (destruct c as [c|c|]; try lia; try done).
Qed.

Section text_facts.
Context `{Platform} `{Nom} `{!NomLaws} `{NomLengthData} `{!NomLengthDataLaws} `{MultiaddrDeps} `{PeerIdDeps}.
Context `{!PeerIdDepsLaws} `{!MultiaddrDepsLaws}.

(** The parts between the slashes. *)
Definition protocol_parts (p : ProtocolRef) : list (list u8) :=
  match p with
  | Dns addr => [str_dns; dn_bytes addr]
  | Dns4 addr => [str_dns4; dn_bytes addr]
  | Dns6 addr => [str_dns6; dn_bytes addr]
  | DnsAddr addr => [str_dnsaddr; dn_bytes addr]
  | Ip4 ip => [str_ip4; ipv4_display ip]
  | Ip6 ip => [str_ip6; ipv6_display ip]
  | P2p multihash => [str_p2p; bs58_encode multihash]
  | Quic => [str_quic]
  | Tcp port => [str_tcp; decimal port]
  | Tls => [str_tls]
  | Udp port => [str_udp; decimal port]
  | Ws => [str_ws]
  | Wss => [str_wss]
  | Memory payload => [str_memory; decimal payload]
  | ExperimentalWebRtc => [str_webrtc]
  | ExperimentalCertHash hash => [str_certhash; hex_encode hash]
  end.

Lemma display_parts p : ProtocolRef_display p = concat (map (cons slash) (protocol_parts p)).
Proof. destruct p; cbn; by rewrite ?app_nil_r. Qed.

Lemma domain_no_slash n : domain_ok n -> slash ∉ dn_bytes n.
Proof.
  intros [Hn _] Hin. unfold DomainNameRef_try_from in Hn. destruct (255 <? len (dn_bytes n)); [done|].
  destruct (_ && existsb bad_label _); [done|]. destruct (existsb (fun b => b =? slash) (dn_bytes n)) eqn:E; [done|].
  apply not_true_iff_false in E. apply E, existsb_exists. exists slash. split; [by apply list_elem_of_In|done].
Qed.

Lemma decimal_no_slash v : 0 <= v -> slash ∉ decimal v.
Proof. intros Hv Hin. apply decimal_digits_range in Hin; [|done]. unfold slash in Hin. lia. Qed.

Lemma parts_no_slash p : protocol_ok p -> Forall (fun part => slash ∉ part) (protocol_parts p).
Proof.
  assert (Hname : forall l, existsb (fun b => b =? slash) l = false -> slash ∉ l).
  { intros l Hl Hin. apply not_true_iff_false in Hl. apply Hl, existsb_exists. exists slash. split; [by apply list_elem_of_In|done]. }
  intros Hp. destruct p; cbn in Hp; repeat apply Forall_cons_2; try apply Forall_nil_2; try (by apply Hname);
    first [by apply domain_no_slash | apply ipv4_no_slash | apply ipv6_no_slash | apply bs58_no_slash | apply hex_no_slash
      | apply decimal_no_slash; by destruct Hp].
Qed.

(** Compares the names of protocols. *)
Ltac decide_names :=
  repeat match goal with
  | |- context [bool_decide (?a = ?b)] =>
      let v := eval vm_compute in (bool_decide (a = b)) in change (bool_decide (a = b)) with v
  end; cbv iota.

Lemma from_str_parts_read p rest :
  protocol_ok p -> from_str_parts (protocol_parts p ++ rest) = if bool_decide (p = Quic) then Err UnrecognizedProtocol else Ok (rest, p).
Proof.
  intros Hp. destruct p; cbn [protocol_ok] in Hp; unfold from_str_parts; cbn [protocol_parts app next_part result_bind];
    try (rewrite (bool_decide_eq_false_2 (_ = Quic)) by done); try (rewrite (bool_decide_eq_true_2 (_ = Quic)) by done);
    decide_names; cbn [next_part result_bind]; try done.
  all: try (destruct Hp as [Hn _]; rewrite Hn; done).
  - by rewrite ipv4_roundtrip.
  - by rewrite ipv6_roundtrip.
  - rewrite bs58_roundtrip. destruct Hp as (_ & _ & m & Hm). cbn [ok_or result_bind]. by rewrite Hm.
  - by rewrite parse_decimal by (done || lia).
  - by rewrite parse_decimal by (done || lia).
  - by rewrite parse_decimal by (done || lia).
  - rewrite hex_roundtrip by (by destruct Hp). cbn [ok_or result_bind]. by rewrite array_try_from_array.
Qed.

Lemma parts_nonempty p : exists part parts, protocol_parts p = part :: parts.
Proof. destruct p; by eexists _, _. Qed.

Lemma parse_parts_read ps fuel bytes :
  Forall protocol_ok ps -> (length (concat (map protocol_parts ps)) <= fuel)%nat ->
  parse_parts fuel (concat (map protocol_parts ps)) bytes =
    if bool_decide (Quic ∈ ps) then Err UnrecognizedProtocol else Ok (bytes ++ addr_bytes ps).
Proof.
  intros Hps. revert fuel bytes. induction Hps as [|p ps Hp Hps IH]; intros fuel bytes Hf.
  - rewrite bool_decide_eq_false_2 by apply not_elem_of_nil. cbn. rewrite app_nil_r. by destruct fuel.
  - cbn [map concat] in *. rewrite length_app in Hf. pose proof (from_str_parts_read p (concat (map protocol_parts ps)) Hp) as Hr.
    destruct (parts_nonempty p) as (part & parts & E). rewrite E in *. cbn [length] in Hf. destruct fuel as [|fuel]; [lia|].
    cbn [app parse_parts]. cbn [app] in Hr. rewrite Hr. destruct (decide (p = Quic)) as [->|Hne].
    + rewrite !bool_decide_eq_true_2 by (done || left). done.
    + rewrite (bool_decide_eq_false_2 (p = Quic)) by done. cbn [result_bind]. rewrite IH by lia. rewrite append_buffers, as_bytes_concat.
      destruct (decide (Quic ∈ ps)) as [Hin|Hin].
      * rewrite !bool_decide_eq_true_2 by (done || by right). done.
      * rewrite !bool_decide_eq_false_2; [|by intros [?|?]%elem_of_cons|done]. unfold addr_bytes. cbn. by rewrite <- app_assoc.
Qed.

(** An address that is printed is read back as the same address, unless it has
    the protocol [quic], which is printed and refused. *)
Theorem multiaddr_text (ps : list ProtocolRef) :
  Forall protocol_ok ps ->
  Multiaddr_from_str (Multiaddr_display (Multiaddr_from_iter ps)) =
    if bool_decide (Quic ∈ ps) then Err UnrecognizedProtocol else Ok (Multiaddr_from_iter ps).
Proof.
  intros Hps. unfold Multiaddr_from_str, Multiaddr_display. rewrite iter_read by done.
  assert (Hd : concat (map ProtocolRef_display ps) = concat (map (cons slash) (concat (map protocol_parts ps)))).
  { clear Hps. induction ps as [|p ps IH]; [done|]. cbn [map concat]. by rewrite map_app, concat_app, IH, display_parts. }
  rewrite Hd, str_split_parts.
  - rewrite parse_parts_read by done. rewrite from_iter_bytes. by destruct (bool_decide (Quic ∈ ps)).
  - induction Hps as [|p ps Hp Hps IH]; [constructor|]. cbn [map concat]. apply Forall_app. split; [by apply parts_no_slash|].
    apply IH. cbn [map concat] in Hd. by rewrite map_app, concat_app, display_parts in Hd; apply app_inv_head in Hd.
Qed.
End text_facts.

(** ** Examples *)

Module Example.
#[local] Existing Instance platform32.
#[local] Existing Instance nom_complete.
#[local] Existing Instance nom_complete_laws.
#[local] Existing Instance nom_length.
#[local] Existing Instance nom_length_laws.

(** A toy text form of bytes, without slashes. *)
Definition toy_print (bytes : list u8) : list u8 := map (fun b => if b <? slash then b else b + 1) bytes.
Definition toy_parse (s : list u8) : option (list u8) := Some (map (fun c => if c <? slash then c else c - 1) s).

Lemma toy_roundtrip bytes : toy_parse (toy_print bytes) = Some bytes.
Proof.
  unfold toy_parse, toy_print. f_equal. rewrite map_map. rewrite <- (map_id bytes) at 2. apply map_ext. intros b. unfold slash.
  destruct (Z.ltb_spec b 47); [by rewrite (proj2 (Z.ltb_lt _ _))|]. rewrite (proj2 (Z.ltb_ge _ _)) by lia. lia.
Qed.

Lemma toy_no_slash bytes : slash ∉ toy_print bytes.
Proof.
  unfold toy_print. intros (b & E & _)%list_elem_of_fmap. unfold slash in E. destruct (Z.ltb_spec b 47); lia.
Qed.

Definition toy_peer_deps : PeerIdDeps := {|
  sha256 := fun bytes => replicate 32 (foldr Z.add 0 bytes `mod` 256);
  bs58_encode := toy_print;
  bs58_decode := toy_parse
|}.
#[local] Existing Instance toy_peer_deps.

Definition toy_addr_deps : MultiaddrDeps := {|
  ipv4_display := toy_print;
  ipv4_parse := toy_parse;
  ipv6_display := toy_print;
  ipv6_parse := toy_parse;
  hex_encode := toy_print;
  hex_decode := toy_parse
|}.
#[local] Existing Instance toy_addr_deps.

Lemma toy_peer_laws : PeerIdDepsLaws.
Proof. split. apply toy_roundtrip. Qed.
#[local] Existing Instance toy_peer_laws.

Lemma toy_addr_laws : MultiaddrDepsLaws.
Proof. split; intros; apply toy_roundtrip || apply toy_no_slash. Qed.
#[local] Existing Instance toy_addr_laws.

(** [/dns4/example.com./tcp/30333/p2p/...]. *)
Definition example_com : DomainNameRef := mkDomainNameRef [101; 120; 97; 109; 112; 108; 101; 46; 99; 111; 109; 46].
Definition sample_addr : list ProtocolRef := [Dns4 example_com; Tcp 30333; P2p [18; 1; 0]].

Lemma sample_addr_ok : Forall protocol_ok sample_addr.
Proof.
  repeat apply Forall_cons_2; [..|apply Forall_nil_2]; cbn [protocol_ok].
  - split; [by vm_compute|]. split; [by vm_compute|]. by repeat constructor.
  - by vm_compute.
  - split; [by repeat constructor|]. split; [by vm_compute|]. by eexists; vm_compute.
Qed.

Lemma multiaddr_binary_witness :
  Multiaddr_try_from (ma_bytes (Multiaddr_from_iter sample_addr)) = Ok (Multiaddr_from_iter sample_addr) /\
  Multiaddr_iter (Multiaddr_from_iter sample_addr) = sample_addr.
Proof.
  assert (Hb : is_bytes (ma_bytes (Multiaddr_from_iter sample_addr))).
  { rewrite from_iter_bytes. apply addr_is_bytes, sample_addr_ok. }
  destruct (multiaddr_binary (ma_bytes (Multiaddr_from_iter sample_addr)) Hb) as (Htry & Hops & _). split.
  - apply Htry. split; [done|]. exists sample_addr. split; [apply sample_addr_ok|done].
  - by apply (Hops sample_addr Ws sample_addr_ok).
Defined.

Lemma multiaddr_text_witness :
  Multiaddr_from_str (Multiaddr_display (Multiaddr_from_iter sample_addr)) = Ok (Multiaddr_from_iter sample_addr) /\
  Multiaddr_from_str (Multiaddr_display (Multiaddr_from_iter [Udp 9; Quic])) = Err UnrecognizedProtocol.
Proof.
  split.
  - rewrite (multiaddr_text sample_addr sample_addr_ok). rewrite bool_decide_eq_false_2; [done|].
    intros Hin. repeat (apply elem_of_cons in Hin as [?|Hin]; [done|]). by apply elem_of_nil in Hin.
  - rewrite (multiaddr_text [Udp 9; Quic]); [by vm_compute|]. repeat apply Forall_cons_2; [..|apply Forall_nil_2]; by vm_compute.
Defined.
End Example.
