(* ===== verification/PeerMessages.v ===== *)
(** * Messages of the Kademlia and identify protocols
    ([src/src/network/protocol/kademlia.rs] and [src/src/network/protocol/identify.rs])

    The request for the nodes closest to a peer and its response, and what a node says of
    itself. *)

From S2P Require Import Prelude Leb128 Scale HeaderBase FinalityBase Protobuf BlockRequest PeerId Multiaddr.

Open Scope Z_scope.

#[local] Arguments encode_usize : simpl never.
#[local] Arguments encode : simpl never.

(** ** Kademlia *)

Inductive DecodeFindNodeResponseError :=
  | FindNodeProtobufDecode
  | BadResponseTy
  | BadPeerId (e : PeerIdError)
  | BadMultiaddr (e : FromVecError).

Definition build_find_node_request (peer_id : list u8) : list u8 :=
  let out := foldl (fun out slice => out ++ slice) [] (enum_tag_encode 1 4) in
  foldl (fun out slice => out ++ slice) out (bytes_tag_encode 2 peer_id).

(** ** Identify *)

Record IdentifyResponse := mkIdentifyResponse {
  ir_protocol_version : list u8;
  ir_agent_version : list u8;
  ir_ed25519_public_key : list u8;
  ir_listen_addrs : list Multiaddr;
  ir_observed_addr : Multiaddr;
  ir_protocols : list (list u8)
}.

Inductive DecodeIdentifyResponseError :=
  | IdentifyProtobufDecode
  | IdentifyInvalidMultiaddr
  | IdentifyInvalidPublicKey (e : FromProtobufEncodingError).

Definition build_identify_response (config : IdentifyResponse) : list (list u8) :=
  string_tag_encode 5 (ir_protocol_version config)
    ++ string_tag_encode 6 (ir_agent_version config)
    ++ bytes_tag_encode 1 (to_protobuf_encoding (PkEd25519 (ir_ed25519_public_key config)))
    ++ concat (map (fun addr => bytes_tag_encode 2 (ma_bytes addr)) (ir_listen_addrs config))
    ++ bytes_tag_encode 4 (ma_bytes (ir_observed_addr config))
    ++ concat (map (string_tag_encode 3) (ir_protocols config)).

Section messages.
Context `{Platform} `{Nom} `{NomLengthData}.

(** A peer and its addresses. *)
Definition peer_fields : list (MessageField (option (list u8) * list (list u8))) :=
  [mkField (list u8) (bytes_tag_decode 1) (fun '(a, b) v => (single_append a v, b));
   mkField (list u8) (bytes_tag_decode 2) (fun '(a, b) v => (a, vec_append b v))].

Definition peer_finish (out : option (list u8) * list (list u8)) : option (list u8 * list (list u8)) :=
  let '(a, b) := out in
  let! a := single_finish a in
  let! b := vec_finish b in
  Some (a, b).

Definition peer_parser : nparser (list u8 * list (list u8)) := message_decode peer_fields (None, []) peer_finish.

Definition find_node_values : Type := option u64 * list (list u8 * list (list u8)).

Definition find_node_fields : list (MessageField find_node_values) :=
  [mkField u64 (enum_tag_decode 1) (fun '(a, b) v => (single_append a v, b));
   mkField (list u8 * list (list u8)) (message_tag_decode 8 peer_parser) (fun '(a, b) v => (a, vec_append b v))].

Definition find_node_finish (out : find_node_values) : option (u64 * list (list u8 * list (list u8))) :=
  let '(a, b) := out in
  let! a := single_finish a in
  let! b := vec_finish b in
  Some (a, b).

(** The loop over the addresses of a peer. *)
Fixpoint decode_addrs (addrs : list (list u8)) : result FromVecError (list Multiaddr) :=
  match addrs with
  | [] => Ok []
  | addr :: addrs =>
      let? addr := Multiaddr_try_from addr in
      let? addrs := decode_addrs addrs in
      Ok (addr :: addrs)
  end.

(** The loop over the peers. *)
Fixpoint decode_peers (closer_peers : list (list u8 * list (list u8)))
    : result DecodeFindNodeResponseError (list (PeerId * list Multiaddr)) :=
  match closer_peers with
  | [] => Ok []
  | (peer_id, addrs) :: closer_peers =>
      let? peer_id := map_err (fun e => BadPeerId (fst e)) (PeerId_from_bytes peer_id) in
      let? multiaddrs := map_err BadMultiaddr (decode_addrs addrs) in
      let? out := decode_peers closer_peers in
      Ok ((peer_id, multiaddrs) :: out)
  end.

Definition decode_find_node_response (response_bytes : list u8)
    : result DecodeFindNodeResponseError (list (PeerId * list Multiaddr)) :=
  match all_consuming (complete (message_decode find_node_fields (None, []) find_node_finish)) response_bytes with
  | Ok (_, (ty, peers)) => if ty =? 4 then decode_peers peers else Err BadResponseTy
  | Err _ => Err FindNodeProtobufDecode
  end.

(** The values of the fields 5, 6, 1, 2, 4 and 3. *)
Definition identify_values : Type :=
  option (list u8) * option (list u8) * option (list u8) * list (list u8) * option (list u8) * list (list u8).

Definition identify_fields : list (MessageField identify_values) :=
  [mkField (list u8) (string_tag_decode 5) (fun '(a, b, c, d, e, f) v => (option_append a v, b, c, d, e, f));
   mkField (list u8) (string_tag_decode 6) (fun '(a, b, c, d, e, f) v => (a, option_append b v, c, d, e, f));
   mkField (list u8) (bytes_tag_decode 1) (fun '(a, b, c, d, e, f) v => (a, b, option_append c v, d, e, f));
   mkField (list u8) (bytes_tag_decode 2) (fun '(a, b, c, d, e, f) v => (a, b, c, vec_append d v, e, f));
   mkField (list u8) (bytes_tag_decode 4) (fun '(a, b, c, d, e, f) v => (a, b, c, d, option_append e v, f));
   mkField (list u8) (string_tag_decode 3) (fun '(a, b, c, d, e, f) v => (a, b, c, d, e, vec_append f v))].

Definition identify_finish (out : identify_values) : option identify_values :=
  let '(a, b, c, d, e, f) := out in
  let! a := option_finish a in
  let! b := option_finish b in
  let! c := option_finish c in
  let! d := vec_finish d in
  let! e := option_finish e in
  let! f := vec_finish f in
  Some (a, b, c, d, e, f).

Definition decode_identify_response (response_bytes : list u8) : result DecodeIdentifyResponseError IdentifyResponse :=
  match all_consuming (complete (message_decode identify_fields (None, None, None, [], None, []) identify_finish)) response_bytes with
  | Err _ => Err IdentifyProtobufDecode
  | Ok (_, (protocol_version, agent_version, ed25519_public_key, listen_addrs, observed_addr, protocols)) =>
      let? key := map_err IdentifyInvalidPublicKey (from_protobuf_encoding (default [] ed25519_public_key)) in
      let? listen_addrs := map_err (fun _ => IdentifyInvalidMultiaddr) (decode_addrs listen_addrs) in
      let? observed_addr := map_err (fun _ => IdentifyInvalidMultiaddr) (Multiaddr_try_from (default [] observed_addr)) in
      Ok (mkIdentifyResponse (default [] protocol_version) (default [] agent_version) (match key with PkEd25519 key => key end)
        listen_addrs observed_addr protocols)
  end.
End messages.

(** ** Facts *)

Section facts.
Context `{Platform} `{Nom} `{!NomLaws} `{NomLengthData} `{!NomLengthDataLaws}.

(** A field that is read again and again. *)
Lemma apply_repeated {S A} (ds : list (FieldSpec S)) (num : u64) (d : A -> list u8) (f : S -> A -> S) (l : list A) out :
  (forall out a, a ∈ l -> offer ds (num, WBytes (d a)) out = Ok (Some (f out a))) ->
  apply_wires ds (map (fun a => (num, WBytes (d a))) l) out = Ok (foldl f out l).
Proof.
  revert out. induction l as [|a l IH]; intros out Hf; [done|]. cbn [map apply_wires foldl]. rewrite Hf by left. cbn [result_bind default from_option].
  apply IH. intros out' a' Ha. apply Hf. by right.
Qed.

(** An address that can be sent. *)
Definition addr_ok (a : Multiaddr) : Prop := sendable (ma_bytes a) /\ exists ps, Forall protocol_ok ps /\ a = Multiaddr_from_iter ps.

Lemma addr_read a : addr_ok a -> Multiaddr_try_from (ma_bytes a) = Ok a.
Proof. intros [[Hb _] Hps]. by apply (multiaddr_try_from_iff (ma_bytes a)). Qed.

Lemma decode_addrs_read addrs : Forall addr_ok addrs -> decode_addrs (map ma_bytes addrs) = Ok addrs.
Proof. induction 1 as [|a addrs Ha Hs IH]; [done|]. cbn [map decode_addrs]. rewrite addr_read by done. cbn. by rewrite IH. Qed.

(** *** The response of Kademlia *)

Definition peer_wires (p : list u8 * list Multiaddr) : list (u64 * wire) :=
  [(1, WBytes (fst p))] ++ map (fun a => (2, WBytes (ma_bytes a))) (snd p).

Definition find_node_wires (ty : u64) (peers : list (list u8 * list Multiaddr)) : list (u64 * wire) :=
  [(1, WVarint ty)] ++ map (fun p => (8, WBytes (wires_bytes (peer_wires p)))) peers.

Definition peer_ok (p : list u8 * list Multiaddr) : Prop :=
  sendable (fst p) /\ Forall addr_ok (snd p) /\ is_usize (len (wires_bytes (peer_wires p))).

Lemma peer_wires_ok p : peer_ok p -> Forall wire_ok (peer_wires p).
Proof.
  intros (Hp & Ha & _). apply Forall_app. split; [by apply Forall_singleton, sendable_wire|]. apply Forall_map.
  eapply Forall_impl; [exact Ha|]. intros a [Hs _]. by apply sendable_wire.
Qed.

Definition peer_specs : list (FieldSpec (option (list u8) * list (list u8))) :=
  [bytes_field 1 (fun '(a, b) v => (single_append a v, b)); bytes_field 2 (fun '(a, b) v => (a, vec_append b v))].

Lemma peer_specs_ok : Forall field_spec_ok peer_specs.
Proof. repeat apply Forall_cons_2; [..|apply Forall_nil_2]; apply bytes_field_ok. Qed.

Lemma vec_append_all {A B} (d : A -> B) l acc : foldl (fun out a => vec_append out (d a)) acc l = acc ++ map d l.
Proof.
  revert acc. induction l as [|a l IH]; intros acc; cbn; [by rewrite app_nil_r|]. rewrite IH. unfold vec_append. by rewrite <- app_assoc.
Qed.

Lemma peer_parser_read p : peer_ok p -> peer_parser (wires_bytes (peer_wires p)) = Ok ([], (fst p, map ma_bytes (snd p))).
Proof.
  intros Hp. unfold peer_parser. change peer_fields with (map (fs_field (option (list u8) * list (list u8))) peer_specs).
  rewrite message_decode_all by (apply peer_specs_ok || done || by apply peer_wires_ok). destruct Hp as ([_ Hl] & Ha & _).
  assert (E1 : apply_wires peer_specs [(1, WBytes (fst p))] (None, []) = Ok (Some (fst p), [])).
  { cbn. by rewrite (proj2 (Z.leb_le _ _) Hl). }
  unfold peer_wires. rewrite apply_wires_app, E1.
  cbn [result_bind]. rewrite (apply_repeated _ 2 ma_bytes (fun '(a, b) m => (a, vec_append b (ma_bytes m)))).
  - assert (E : forall acc, foldl (fun '(a, b) m => (a, vec_append b (ma_bytes m))) (Some (fst p), acc) (snd p) = (Some (fst p), acc ++ map ma_bytes (snd p))).
    { clear. induction (snd p) as [|m l IH]; intros acc; cbn; [by rewrite app_nil_r|]. rewrite IH. unfold vec_append. by rewrite <- app_assoc. }
    rewrite E. done.
  - intros [o1 o2] a Hin. rewrite Forall_forall in Ha. destruct (Ha a Hin) as [[_ Hs] _]. cbn. by rewrite (proj2 (Z.leb_le _ _) Hs).
Qed.

Definition find_node_specs : list (FieldSpec find_node_values) :=
  [enum_field 1 (fun '(a, b) v => (single_append a v, b)); message_field 8 peer_parser (fun '(a, b) v => (a, vec_append b v))].

Lemma find_node_specs_ok : Forall field_spec_ok find_node_specs.
Proof. apply Forall_cons_2; [apply enum_field_ok|]. apply Forall_singleton, message_field_ok. Qed.

Lemma apply_peers peers ty acc :
  Forall peer_ok peers ->
  apply_wires find_node_specs (map (fun p => (8, WBytes (wires_bytes (peer_wires p)))) peers) (ty, acc) =
    Ok (ty, acc ++ map (fun p => (fst p, map ma_bytes (snd p))) peers).
Proof.
  intros Hp. revert acc. induction Hp as [|p peers Hp Hps IH]; intros acc; cbn [map apply_wires]; [by rewrite app_nil_r|].
  cbn [offer find_node_specs fst snd fs_num fs_interp enum_field message_field varint_field delimited_field Z.eqb Pos.eqb].
  rewrite peer_parser_read by done. cbn. rewrite IH. unfold vec_append. by rewrite <- app_assoc.
Qed.

(** The response of a node is read: the peers are checked one after the other, if the
    type is that of the response to this request. *)
Theorem find_node_decoding (ty : u64) (peers : list (list u8 * list Multiaddr)) :
  is_usize ty -> Forall peer_ok peers ->
  decode_find_node_response (wires_bytes (find_node_wires ty peers)) =
    if ty =? 4 then decode_peers (map (fun p => (fst p, map ma_bytes (snd p))) peers) else Err BadResponseTy.
Proof.
  intros Hty Hp. unfold decode_find_node_response, all_consuming, complete.
  change find_node_fields with (map (fs_field find_node_values) find_node_specs). rewrite message_decode_all.
  - assert (E1 : apply_wires find_node_specs (find_node_wires ty peers) (None, []) = Ok (Some ty, map (fun p => (fst p, map ma_bytes (snd p))) peers)).
    { unfold find_node_wires. rewrite apply_wires_app.
      assert (E0 : apply_wires find_node_specs [(1, WVarint ty)] (None, []) = Ok (Some ty, [])) by done.
      rewrite E0. cbn [result_bind]. by rewrite apply_peers. }
    by rewrite E1.
  - apply find_node_specs_ok.
  - done.
  - apply Forall_app. split; [by apply Forall_singleton, wire_varint_ok|]. apply Forall_map. eapply Forall_impl; [exact Hp|].
    intros p Hok. apply nested_ok; [done|by apply peer_wires_ok|by destruct Hok as (_ & _ & ?)].
Qed.

(** *** The response of identify *)

(** A string that can be sent. *)
Definition string_ok (v : list u8) : Prop := sendable v /\ is_utf8 v = true.

(** A response that can be sent. *)
Record identify_ok (r : IdentifyResponse) : Prop := {
  io_protocol_version : string_ok (ir_protocol_version r);
  io_agent_version : string_ok (ir_agent_version r);
  io_key : is_array 32 (ir_ed25519_public_key r);
  io_listen : Forall addr_ok (ir_listen_addrs r);
  io_observed : addr_ok (ir_observed_addr r);
  io_protocols : Forall string_ok (ir_protocols r)
}.

Definition identify_wires (r : IdentifyResponse) : list (u64 * wire) :=
  [(5, WBytes (ir_protocol_version r)); (6, WBytes (ir_agent_version r));
   (1, WBytes (to_protobuf_encoding (PkEd25519 (ir_ed25519_public_key r))))]
    ++ map (fun a => (2, WBytes (ma_bytes a))) (ir_listen_addrs r)
    ++ [(4, WBytes (ma_bytes (ir_observed_addr r)))]
    ++ map (fun p => (3, WBytes p)) (ir_protocols r).

Lemma concat_fields {A} (enc : A -> list (list u8)) (w : A -> u64 * wire) l :
  (forall a, concat (enc a) = wire_bytes (w a)) -> concat (concat (map enc l)) = wires_bytes (map w l).
Proof. intros E. induction l as [|a l IH]; [done|]. cbn. rewrite concat_app, IH, E. done. Qed.

Lemma identify_built r : concat (build_identify_response r) = wires_bytes (identify_wires r).
Proof.
  unfold build_identify_response, identify_wires, string_tag_encode, bytes_tag_encode. rewrite !concat_app, !delimited_wire by done.
  rewrite (concat_fields _ (fun a => (2, WBytes (ma_bytes a)))) by (intros; by apply delimited_wire).
  rewrite (concat_fields _ (fun p => (3, WBytes p))) by (intros; by apply delimited_wire).
  unfold wires_bytes. rewrite !map_app, !concat_app. cbn [map concat]. by rewrite !app_nil_r, !app_assoc.
Qed.

Definition identify_specs : list (FieldSpec identify_values) :=
  [string_field 5 (fun '(a, b, c, d, e, f) v => (option_append a v, b, c, d, e, f));
   string_field 6 (fun '(a, b, c, d, e, f) v => (a, option_append b v, c, d, e, f));
   bytes_field 1 (fun '(a, b, c, d, e, f) v => (a, b, option_append c v, d, e, f));
   bytes_field 2 (fun '(a, b, c, d, e, f) v => (a, b, c, vec_append d v, e, f));
   bytes_field 4 (fun '(a, b, c, d, e, f) v => (a, b, c, d, option_append e v, f));
   string_field 3 (fun '(a, b, c, d, e, f) v => (a, b, c, d, e, vec_append f v))].

Lemma identify_specs_ok : Forall field_spec_ok identify_specs.
Proof. repeat apply Forall_cons_2; [..|apply Forall_nil_2]; apply string_field_ok || apply bytes_field_ok. Qed.

Lemma key_sendable key : is_array 32 key -> sendable (to_protobuf_encoding (PkEd25519 key)).
Proof.
  intros Hk. split; [by apply to_protobuf_is_bytes|]. rewrite to_protobuf_bytes by apply Hk. rewrite len_app, (len_array 32 key) by done. by vm_compute.
Qed.

Lemma identify_wires_ok r : identify_ok r -> Forall wire_ok (identify_wires r).
Proof.
  intros [[Hv _] [Ha _] Hk Hl [Ho _] Hp]. repeat (apply Forall_app; split).
  - repeat apply Forall_cons_2; [..|apply Forall_nil_2]; apply sendable_wire; done || by apply key_sendable.
  - apply Forall_map. eapply Forall_impl; [exact Hl|]. intros a [Hs _]. by apply sendable_wire.
  - by apply Forall_singleton, sendable_wire.
  - apply Forall_map. eapply Forall_impl; [exact Hp|]. intros a [Hs _]. by apply sendable_wire.
Qed.

Lemma string_kept v : string_ok v -> (if two_gib <? len v then None else if is_utf8 v then Some v else None) = Some v.
Proof. intros [[_ Hl] Hu]. by rewrite (proj2 (Z.ltb_ge _ _) Hl), Hu. Qed.

Lemma bytes_kept v : sendable v -> (len v <=? two_gib) = true.
Proof. intros [_ Hl]. by apply Z.leb_le. Qed.

Lemma apply_listen l a b c d e f :
  Forall addr_ok l ->
  apply_wires identify_specs (map (fun m => (2, WBytes (ma_bytes m))) l) (a, b, c, d, e, f) = Ok (a, b, c, d ++ map ma_bytes l, e, f).
Proof.
  intros Hl. revert d. induction Hl as [|m l [Hs _] Hl IH]; intros d; cbn [map apply_wires]; [by rewrite app_nil_r|].
  cbn. rewrite bytes_kept by done. cbn. rewrite IH. unfold vec_append. by rewrite <- app_assoc.
Qed.

Lemma apply_protocols l a b c d e f :
  Forall string_ok l ->
  apply_wires identify_specs (map (fun p => (3, WBytes p)) l) (a, b, c, d, e, f) = Ok (a, b, c, d, e, f ++ l).
Proof.
  intros Hl. revert f. induction Hl as [|m l Hm Hl IH]; intros f; cbn [map apply_wires]; [by rewrite app_nil_r|].
  cbn. rewrite string_kept by done. cbn. rewrite IH. unfold vec_append. by rewrite <- app_assoc.
Qed.

Lemma apply_identify r :
  identify_ok r ->
  apply_wires identify_specs (identify_wires r) (None, None, None, [], None, []) =
    Ok (Some (ir_protocol_version r), Some (ir_agent_version r), Some (to_protobuf_encoding (PkEd25519 (ir_ed25519_public_key r))),
        map ma_bytes (ir_listen_addrs r), Some (ma_bytes (ir_observed_addr r)), ir_protocols r).
Proof.
  intros [Hv Ha Hk Hl [Ho _] Hp]. unfold identify_wires. rewrite apply_wires_app.
  set (key := to_protobuf_encoding _). assert (Hkey : sendable key) by (by apply key_sendable). clearbody key.
  cbn. rewrite !string_kept by done. cbn. rewrite bytes_kept by done. cbn.
  rewrite apply_wires_app, apply_listen by done. cbn. rewrite bytes_kept by done. cbn. by rewrite apply_protocols.
Qed.

(** What a node says of itself is read back from the bytes that it sends. *)
Theorem identify_roundtrip (r : IdentifyResponse) :
  identify_ok r -> decode_identify_response (concat (build_identify_response r)) = Ok r.
Proof.
  intros Hr. rewrite identify_built. unfold decode_identify_response, all_consuming, complete.
  change identify_fields with (map (fs_field identify_values) identify_specs). rewrite message_decode_all.
  - rewrite apply_identify by done. destruct Hr as [_ _ Hk Hl Ho _].
    assert (Epk : from_protobuf_encoding (to_protobuf_encoding (PkEd25519 (ir_ed25519_public_key r))) = Ok (PkEd25519 (ir_ed25519_public_key r))).
    { apply from_protobuf_iff; [by apply to_protobuf_is_bytes|done]. }
    set (key := to_protobuf_encoding _) in *. clearbody key. cbn. rewrite Epk. cbn. rewrite decode_addrs_read by done. cbn. rewrite addr_read by done. by destruct r.
  - apply identify_specs_ok.
  - done.
  - by apply identify_wires_ok.
Qed.
End facts.

(** The request is the message of the type [FIND_NODE] with the peer. *)
Lemma find_node_request_wires peer : build_find_node_request peer = wires_bytes [(1, WVarint 4); (2, WBytes peer)].
Proof.
  unfold build_find_node_request. rewrite !append_buffers. unfold enum_tag_encode, bytes_tag_encode.
  rewrite varint_wire, delimited_wire by done. unfold wires_bytes. cbn [map concat]. by rewrite app_nil_r.
Qed.

(** ** Examples *)

Module Example.
#[local] Existing Instance platform32.
#[local] Existing Instance nom_complete.
#[local] Existing Instance nom_complete_laws.
#[local] Existing Instance nom_length.
#[local] Existing Instance nom_length_laws.

(** [/tcp/30333]. *)
Definition addr : Multiaddr := Multiaddr_from_iter [Tcp 30333].

Lemma addr_is_ok : addr_ok addr.
Proof.
  split; [split; [by repeat constructor|by vm_compute]|]. exists [Tcp 30333]. split; [|done].
  by apply Forall_singleton; vm_compute.
Qed.

Lemma find_node_decoding_witness :
  decode_find_node_response (wires_bytes (find_node_wires 4 [([18; 1; 0], [addr])])) = Ok [(mkPeerId [18; 1; 0], [addr])] /\
  decode_find_node_response (wires_bytes (find_node_wires 4 [([18; 2; 0], [addr])])) = Err (BadPeerId (PeerIdDecodeError MultihashDecodeError)) /\
  decode_find_node_response (wires_bytes (find_node_wires 0 [])) = Err BadResponseTy.
Proof.
  assert (Hp : forall p, is_array 3 p -> Forall peer_ok [(p, [addr])]).
  { intros p [Hl Hb]. apply Forall_singleton. do 3 (destruct p as [|? p]; [done|]). destruct p; [|done].
    split; [split; [done|by vm_compute]|]. split; [apply Forall_singleton, addr_is_ok|by vm_compute]. }
  split_and!.
  - rewrite (find_node_decoding 4 [([18; 1; 0], [addr])]); [by vm_compute|by vm_compute|]. apply Hp. split; [done|by repeat constructor].
  - rewrite (find_node_decoding 4 [([18; 2; 0], [addr])]); [by vm_compute|by vm_compute|]. apply Hp. split; [done|by repeat constructor].
  - by rewrite (find_node_decoding 0 []); [|by vm_compute|constructor].
Defined.

Definition response : IdentifyResponse := {|
  ir_protocol_version := [47; 97];
  ir_agent_version := [115; 109];
  ir_ed25519_public_key := replicate 32 7;
  ir_listen_addrs := [addr; addr];
  ir_observed_addr := addr;
  ir_protocols := [[47; 112]; [47; 113]]
|}.

Lemma identify_roundtrip_witness : decode_identify_response (concat (build_identify_response response)) = Ok response.
Proof.
  assert (Hs : forall v, is_array 2 v -> is_utf8 v = true -> string_ok v).
  { intros v [Hl Hb] Hu. split; [|done]. split; [done|]. unfold len. by rewrite Hl. }
  apply identify_roundtrip. split.
  - apply Hs; [split; [done|by repeat constructor]|done].
  - apply Hs; [split; [done|by repeat constructor]|done].
  - split; [done|by apply Forall_replicate].
  - repeat apply Forall_cons_2; [..|apply Forall_nil_2]; apply addr_is_ok.
  - apply addr_is_ok.
  - repeat apply Forall_cons_2; [..|apply Forall_nil_2]; (apply Hs; [split; [done|by repeat constructor]|done]).
Defined.
End Example.
