(* ===== verification/GossipMessages.v ===== *)
(** * SCALE-encoded messages of the network
    ([src/src/network/protocol/block_announces.rs], [src/src/network/protocol/grandpa.rs]
    and [src/src/network/protocol/grandpa_warp_sync.rs])

    The announces of blocks and the handshake of their substream, the notifications of
    GrandPa, and the response to a warp sync request. The decoders are shown to accept
    exactly the encodings of the messages. *)

From S2P Require Import Prelude Leb128 Scale HeaderBase HeaderGrandpa Header HeaderCodec FinalityBase Justification Commit Protobuf BlockRequest.

Open Scope Z_scope.

(** ** Parsers *)

(** [nom::bytes::complete::tag] and [nom::branch::alt]. The errors of a parser here do not
    tell a failure, at which [alt] stops, from the errors at which it tries the next
    parser: what is known of [alt] covers both, and says that it tries the next parser
    when a tag is not there. *)
Class NomChoice := {
  nom_tag : list u8 -> parser (list u8);
  nom_alt : forall {A : Type}, list (parser A) -> parser A
}.

Class NomChoiceLaws `{NomChoice} : Prop := {
  nom_tag_spec : forall tag bytes,
    nom_tag tag bytes =
      if bool_decide (take (length tag) bytes = tag) then Some (Ok (drop (length tag) bytes, tag)) else Some (Err mkNomError);
  nom_alt_ok : forall A (p : parser A) ps bytes r,
    p bytes = r -> (forall e, r <> Some (Err e)) -> nom_alt (p :: ps) bytes = r;
  nom_alt_err : forall A (p : parser A) ps bytes e,
    p bytes = Some (Err e) -> nom_alt (p :: ps) bytes = Some (Err e) \/ nom_alt (p :: ps) bytes = nom_alt ps bytes;
  nom_alt_tag : forall A tag (q : parser A) ps bytes e,
    nom_tag tag bytes = Some (Err e) -> nom_alt ((fun bytes => let* (r, _) := nom_tag tag bytes in q r) :: ps) bytes = nom_alt ps bytes;
  nom_alt_nil : forall A bytes, nom_alt (A := A) [] bytes = Some (Err mkNomError)
}.

(** An instance. *)
Fixpoint first_of {A} (ps : list (parser A)) (bytes : list u8) : outcome NomError (list u8 * A) :=
  match ps with
  | [] => Some (Err mkNomError)
  | p :: ps =>
      match p bytes with
      | Some (Err _) => first_of ps bytes
      | r => r
      end
  end.

Definition nom_choice : NomChoice := {|
  nom_tag := fun tag bytes =>
    if bool_decide (take (length tag) bytes = tag) then Some (Ok (drop (length tag) bytes, tag)) else Some (Err mkNomError);
  nom_alt := fun A => first_of
|}.

Lemma nom_choice_laws : NomChoiceLaws (H := nom_choice).
Proof.
  split; [done| | | |done].
  - intros A p ps bytes r Hp Hne. cbn [nom_alt nom_choice first_of]. rewrite Hp. destruct r as [[]|]; try done. by destruct (Hne e).
  - intros A p ps bytes e Hp. right. cbn [nom_alt nom_choice first_of]. by rewrite Hp.
  - intros A tag q ps bytes e Hp. cbn [nom_alt nom_choice first_of]. by rewrite Hp.
Qed.

(** [nom::combinator::map] after [nom::sequence::preceded(nom::bytes::complete::tag(tag), p)]. *)
Definition tagged `{NomChoice} {A B} (tag : list u8) (p : parser A) (f : A -> B) : parser B := fun bytes =>
  let* (bytes, _) := nom_tag tag bytes in
  let* (bytes, a) := p bytes in
  Some (Ok (bytes, f a)).

(** [nom::combinator::map(nom::bytes::complete::tag(tag), |_| a)]. *)
Definition tag_value `{NomChoice} {A} (tag : list u8) (a : A) : parser A := fun bytes =>
  let* (bytes, _) := nom_tag tag bytes in
  Some (Ok (bytes, a)).

(** [nom::combinator::all_consuming] and [complete], and [finish]; the parsers here do not
    return [Incomplete], or its caller treats it as an error. *)
Definition whole {A} (p : parser A) (bytes : list u8) : outcome NomError A :=
  let* (rest, a) := p bytes in
  match rest with
  | [] => Some (Ok a)
  | _ :: _ => Some (Err mkNomError)
  end.

(** ** Block announces *)

Inductive Role := RoleFull | RoleLight | RoleAuthority.

Record BlockAnnouncesHandshakeRef := mkBlockAnnouncesHandshakeRef {
  hs_role : Role;
  hs_best_number : u64;
  hs_best_hash : list u8;
  hs_genesis_hash : list u8
}.

Definition Role_scale_encoding (self : Role) : list u8 :=
  match self with
  | RoleFull => [1]
  | RoleLight => [2]
  | RoleAuthority => [4]
  end.

Record BlockAnnounceRef := mkBlockAnnounceRef {
  ba_scale_encoded_header : list u8;
  ba_is_best : bool
}.

Definition encode_block_announce (announce : BlockAnnounceRef) : list (list u8) :=
  let is_best := if ba_is_best announce then [1] else [0] in
  [ba_scale_encoded_header announce; is_best; [0]].

(** [None] is the panic of the slice of the eight bytes of the number. *)
Definition encode_block_announces_handshake (handshake : BlockAnnouncesHandshakeRef) (block_number_bytes : usize)
    : option (list (list u8)) :=
  let! number := (if block_number_bytes <=? 8 then Some (take (Z.to_nat block_number_bytes) (to_le_bytes 8 (hs_best_number handshake))) else None) in
  let header := Role_scale_encoding (hs_role handshake) ++ number in
  Some [header; hs_best_hash handshake; hs_genesis_hash handshake].

(** ** GrandPa *)

Record UnsignedPrevoteRef := mkUnsignedPrevoteRef { uv_target_hash : list u8; uv_target_number : u64 }.

Record PrimaryProposeRef := mkPrimaryProposeRef { pp_target_hash : list u8; pp_target_number : u64 }.

Inductive MessageRef :=
  | MessagePrevote (m : UnsignedPrevoteRef)
  | MessagePrecommit (m : UnsignedPrecommitRef)
  | MessagePrimaryPropose (m : PrimaryProposeRef).

Record VoteMessageRef := mkVoteMessageRef {
  vm_round_number : u64;
  vm_set_id : u64;
  vm_message : MessageRef;
  vm_signature : list u8;
  vm_authority_public_key : list u8
}.

Record NeighborPacket := mkNeighborPacket {
  np_round_number : u64;
  np_set_id : u64;
  np_commit_finalized_height : u64
}.

Record CatchUpRequest := mkCatchUpRequest { cr_round_number : u64; cr_set_id : u64 }.

Record PrevoteRef := mkPrevoteRef {
  pv_target_hash : list u8;
  pv_target_number : u64;
  pv_signature : list u8;
  pv_authority_public_key : list u8
}.

Record CatchUpRef := mkCatchUpRef {
  cu_set_id : u64;
  cu_round_number : u64;
  cu_prevotes : list PrevoteRef;
  cu_precommits : list Precommit;
  cu_base_hash : list u8;
  cu_base_number : u64
}.

Inductive GrandpaNotificationRef :=
  | NotificationVote (m : VoteMessageRef)
  | NotificationCommit (m : CommitMessageRef)
  | NotificationNeighbor (m : NeighborPacket)
  | NotificationCatchUpRequest (m : CatchUpRequest)
  | NotificationCatchUp (m : CatchUpRef).

(** The [debug_assert!] that the number fits is not part of a release build. *)
Definition NeighborPacket_scale_encoding (self : NeighborPacket) (block_number_bytes : usize) : list (list u8) :=
  let commit_finalized_height := to_le_bytes 8 (np_commit_finalized_height self) in
  let commit_finalized_height := resize (Z.to_nat block_number_bytes) commit_finalized_height in
  [[1]; to_le_bytes 8 (np_round_number self); to_le_bytes 8 (np_set_id self); commit_finalized_height].

(** [None] is the panic of [todo!()]. *)
Definition GrandpaNotificationRef_scale_encoding (self : GrandpaNotificationRef) (block_number_bytes : usize)
    : option (list (list u8)) :=
  match self with
  | NotificationNeighbor n => Some ([2] :: NeighborPacket_scale_encoding n block_number_bytes)
  | _ => None
  end.

(** ** Warp sync *)

Record GrandpaWarpSyncResponseFragment := mkGrandpaWarpSyncResponseFragment {
  wf_scale_encoded_header : list u8;
  wf_scale_encoded_justification : list u8
}.

Record GrandpaWarpSyncResponse := mkGrandpaWarpSyncResponse {
  wr_fragments : list GrandpaWarpSyncResponseFragment;
  wr_is_finished : bool
}.

Section decoders.
Context `{Platform} `{Nom} `{NomMulti} `{NomLengthData} `{NomChoice}.

Definition is_best_parser : parser bool := nom_alt [tag_value [0] false; tag_value [1] true].

(** The closure that is given to [recognize] is that of the ancestries of votes. *)
Definition block_announce : parser BlockAnnounceRef := fun bytes =>
  let* (bytes, scale_encoded_header) := nom_recognize header_parser bytes in
  let* (bytes, is_best) := is_best_parser bytes in
  let* (bytes, _) := nom_bytes_decode bytes in
  Some (Ok (bytes, mkBlockAnnounceRef scale_encoded_header is_best)).

Definition decode_block_announce (bytes : list u8) : outcome NomError BlockAnnounceRef := whole block_announce bytes.

Definition role_parser : parser Role := nom_alt [tag_value [1] RoleFull; tag_value [2] RoleLight; tag_value [4] RoleAuthority].

Definition block_announces_handshake (expected_block_number_bytes : usize) : parser BlockAnnouncesHandshakeRef := fun bytes =>
  let* (bytes, role) := role_parser bytes in
  let* (bytes, best_number) := nom_varsize_number_decode_u64 expected_block_number_bytes bytes in
  let* (bytes, best_hash) := take_bytes 32 bytes in
  let* (bytes, genesis_hash) := take_bytes 32 bytes in
  Some (Ok (bytes, mkBlockAnnouncesHandshakeRef role best_number best_hash genesis_hash)).

Definition decode_block_announces_handshake (expected_block_number_bytes : usize) (handshake : list u8)
    : outcome NomError BlockAnnouncesHandshakeRef :=
  whole (block_announces_handshake expected_block_number_bytes) handshake.

(** *** GrandPa *)

Definition unsigned_prevote (block_number_bytes : usize) : parser UnsignedPrevoteRef := fun bytes =>
  let* (bytes, target_hash) := take_bytes 32 bytes in
  let* (bytes, target_number) := nom_varsize_number_decode_u64 block_number_bytes bytes in
  Some (Ok (bytes, mkUnsignedPrevoteRef target_hash target_number)).

Definition grandpa_unsigned_precommit (block_number_bytes : usize) : parser UnsignedPrecommitRef := fun bytes =>
  let* (bytes, target_hash) := take_bytes 32 bytes in
  let* (bytes, target_number) := nom_varsize_number_decode_u64 block_number_bytes bytes in
  Some (Ok (bytes, mkUnsignedPrecommitRef target_hash target_number)).

Definition primary_propose (block_number_bytes : usize) : parser PrimaryProposeRef := fun bytes =>
  let* (bytes, target_hash) := take_bytes 32 bytes in
  let* (bytes, target_number) := nom_varsize_number_decode_u64 block_number_bytes bytes in
  Some (Ok (bytes, mkPrimaryProposeRef target_hash target_number)).

Definition message (block_number_bytes : usize) : parser MessageRef :=
  nom_alt [tagged [0] (unsigned_prevote block_number_bytes) MessagePrevote;
           tagged [1] (grandpa_unsigned_precommit block_number_bytes) MessagePrecommit;
           tagged [2] (primary_propose block_number_bytes) MessagePrimaryPropose].

Definition vote_message (block_number_bytes : usize) : parser VoteMessageRef := fun bytes =>
  let* (bytes, round_number) := le_bytes 8 bytes in
  let* (bytes, set_id) := le_bytes 8 bytes in
  let* (bytes, message) := message block_number_bytes bytes in
  let* (bytes, signature) := take_bytes 64 bytes in
  let* (bytes, authority_public_key) := take_bytes 32 bytes in
  Some (Ok (bytes, mkVoteMessageRef round_number set_id message signature authority_public_key)).

Definition neighbor_packet (block_number_bytes : usize) : parser NeighborPacket := fun bytes =>
  let* (bytes, _) := nom_tag [1] bytes in
  let* (bytes, round_number) := le_bytes 8 bytes in
  let* (bytes, set_id) := le_bytes 8 bytes in
  let* (bytes, commit_finalized_height) := nom_varsize_number_decode_u64 block_number_bytes bytes in
  Some (Ok (bytes, mkNeighborPacket round_number set_id commit_finalized_height)).

Definition catch_up_request : parser CatchUpRequest := fun bytes =>
  let* (bytes, round_number) := le_bytes 8 bytes in
  let* (bytes, set_id) := le_bytes 8 bytes in
  Some (Ok (bytes, mkCatchUpRequest round_number set_id)).

Definition prevote (block_number_bytes : usize) : parser PrevoteRef := fun bytes =>
  let* (bytes, target_hash) := take_bytes 32 bytes in
  let* (bytes, target_number) := nom_varsize_number_decode_u64 block_number_bytes bytes in
  let* (bytes, signature) := take_bytes 64 bytes in
  let* (bytes, authority_public_key) := take_bytes 32 bytes in
  Some (Ok (bytes, mkPrevoteRef target_hash target_number signature authority_public_key)).

(** [decode_partial(s).map(|(a, b)| (b, a))]. *)
Definition swapped {A} (o : outcome NomError (A * list u8)) : outcome NomError (list u8 * A) :=
  let* (a, b) := o in Some (Ok (b, a)).

Definition catch_up (block_number_bytes : usize) : parser CatchUpRef := fun bytes =>
  let* (bytes, set_id) := le_bytes 8 bytes in
  let* (bytes, round_number) := le_bytes 8 bytes in
  let* (bytes, prevotes) := counted (prevote block_number_bytes) bytes in
  let* (bytes, precommits) := counted (fun s => swapped (PrecommitRef_decode_partial s block_number_bytes)) bytes in
  let* (bytes, base_hash) := take_bytes 32 bytes in
  let* (bytes, base_number) := nom_varsize_number_decode_u64 block_number_bytes bytes in
  Some (Ok (bytes, mkCatchUpRef set_id round_number prevotes precommits base_hash base_number)).

Definition grandpa_notification (block_number_bytes : usize) : parser GrandpaNotificationRef :=
  nom_alt [tagged [0] (vote_message block_number_bytes) NotificationVote;
           tagged [1] (fun s => swapped (decode_partial_grandpa_commit s block_number_bytes)) NotificationCommit;
           tagged [2] (neighbor_packet block_number_bytes) NotificationNeighbor;
           tagged [3] catch_up_request NotificationCatchUpRequest;
           tagged [4] (catch_up block_number_bytes) NotificationCatchUp].

Definition decode_grandpa_notification (scale_encoded : list u8) (block_number_bytes : usize)
    : outcome NomError GrandpaNotificationRef :=
  whole (grandpa_notification block_number_bytes) scale_encoded.

(** *** Warp sync *)

Definition decode_fragment (block_number_bytes : usize) : parser GrandpaWarpSyncResponseFragment := fun bytes =>
  let* (bytes, header) := nom_recognize header_parser bytes in
  let* (bytes, justification) := nom_recognize (fun s => swapped (decode_partial_grandpa s block_number_bytes)) bytes in
  Some (Ok (bytes, mkGrandpaWarpSyncResponseFragment header justification)).

Definition decode_fragments (block_number_bytes : usize) : parser (list GrandpaWarpSyncResponseFragment) :=
  counted (decode_fragment block_number_bytes).

Definition grandpa_warp_sync_response (block_number_bytes : usize) : parser GrandpaWarpSyncResponse := fun bytes =>
  let* (bytes, fragments) := decode_fragments block_number_bytes bytes in
  let* (bytes, is_finished) := le_bytes 1 bytes in
  Some (Ok (bytes, mkGrandpaWarpSyncResponse fragments (negb (is_finished =? 0)))).

Definition decode_grandpa_warp_sync_response (encoded : list u8) (block_number_bytes : usize)
    : outcome NomError GrandpaWarpSyncResponse :=
  whole (grandpa_warp_sync_response block_number_bytes) encoded.
End decoders.

(** ** Encodings *)

(** [reads p R]: [p] reads exactly the encodings of the values, where [R a pre] says
    that [pre] is an encoding of [a], and leaves what follows. *)
Definition reads {A} (p : parser A) (R : A -> list u8 -> Prop) : Prop :=
  forall bytes rest a, is_bytes bytes -> p bytes = Some (Ok (rest, a)) <-> exists pre, R a pre /\ bytes = pre ++ rest.

(** The parser does not panic. *)
Definition returns {A} (p : parser A) : Prop := forall bytes, is_bytes bytes -> p bytes <> None.

Definition role_byte (r : Role) : u8 := match r with RoleFull => 1 | RoleLight => 2 | RoleAuthority => 4 end.

Definition handshake_ok (bnb : usize) (h : BlockAnnouncesHandshakeRef) : Prop :=
  number_ok bnb (hs_best_number h) /\ is_array 32 (hs_best_hash h) /\ is_array 32 (hs_genesis_hash h).

Definition handshake_bytes (bnb : usize) (h : BlockAnnouncesHandshakeRef) : list u8 :=
  [role_byte (hs_role h)] ++ number_bytes bnb (hs_best_number h) ++ hs_best_hash h ++ hs_genesis_hash h.

Section encodings.
Context `{Platform} `{Nom} `{NomMulti}.

(** A sequence of items and its length. *)
Definition counted_encoding {A} (ok : A -> Prop) (enc : A -> list u8) (l : list A) (pre : list u8) : Prop :=
  exists n, compact_len (len l) n /\ Forall ok l /\ pre = n ++ concat (map enc l).

(** The tag and the block of a message. *)
Definition message_parts (m : MessageRef) : u8 * list u8 * u64 :=
  match m with
  | MessagePrevote m => (0, uv_target_hash m, uv_target_number m)
  | MessagePrecommit m => (1, up_target_hash m, up_target_number m)
  | MessagePrimaryPropose m => (2, pp_target_hash m, pp_target_number m)
  end.

Definition message_ok (bnb : usize) (m : MessageRef) : Prop :=
  let '(_, hash, number) := message_parts m in is_array 32 hash /\ number_ok bnb number.

Definition message_bytes (bnb : usize) (m : MessageRef) : list u8 :=
  let '(tag, hash, number) := message_parts m in [tag] ++ hash ++ number_bytes bnb number.

Definition vote_ok (bnb : usize) (v : VoteMessageRef) : Prop :=
  is_u64 (vm_round_number v) /\ is_u64 (vm_set_id v) /\ message_ok bnb (vm_message v) /\
  is_array 64 (vm_signature v) /\ is_array 32 (vm_authority_public_key v).

Definition vote_bytes (bnb : usize) (v : VoteMessageRef) : list u8 :=
  to_le_bytes 8 (vm_round_number v) ++ to_le_bytes 8 (vm_set_id v) ++ message_bytes bnb (vm_message v) ++
  vm_signature v ++ vm_authority_public_key v.

Definition commit_encoding (bnb : usize) (c : CommitMessageRef) (pre : list u8) : Prop :=
  commit_ok bnb c /\ exists pl al, compact_len (len (cc_precommits (cm_message c))) pl /\
    compact_len (len (cc_auth_data (cm_message c))) al /\ pre = commit_bytes bnb c pl al.

Definition neighbor_ok (bnb : usize) (n : NeighborPacket) : Prop :=
  is_u64 (np_round_number n) /\ is_u64 (np_set_id n) /\ number_ok bnb (np_commit_finalized_height n).

Definition neighbor_bytes (bnb : usize) (n : NeighborPacket) : list u8 :=
  [1] ++ to_le_bytes 8 (np_round_number n) ++ to_le_bytes 8 (np_set_id n) ++ number_bytes bnb (np_commit_finalized_height n).

Definition prevote_ok (bnb : usize) (p : PrevoteRef) : Prop :=
  is_array 32 (pv_target_hash p) /\ number_ok bnb (pv_target_number p) /\
  is_array 64 (pv_signature p) /\ is_array 32 (pv_authority_public_key p).

Definition prevote_bytes (bnb : usize) (p : PrevoteRef) : list u8 :=
  pv_target_hash p ++ number_bytes bnb (pv_target_number p) ++ pv_signature p ++ pv_authority_public_key p.

Definition catch_up_encoding (bnb : usize) (c : CatchUpRef) (pre : list u8) : Prop :=
  is_u64 (cu_set_id c) /\ is_u64 (cu_round_number c) /\ is_array 32 (cu_base_hash c) /\ number_ok bnb (cu_base_number c) /\
  exists votes commits,
    counted_encoding (prevote_ok bnb) (prevote_bytes bnb) (cu_prevotes c) votes /\
    counted_encoding (precommit_ok bnb) (precommit_bytes bnb) (cu_precommits c) commits /\
    pre = to_le_bytes 8 (cu_set_id c) ++ to_le_bytes 8 (cu_round_number c) ++ votes ++ commits ++
      cu_base_hash c ++ number_bytes bnb (cu_base_number c).

Definition notification_encoding (bnb : usize) (n : GrandpaNotificationRef) (pre : list u8) : Prop :=
  match n with
  | NotificationVote m => vote_ok bnb m /\ pre = 0 :: vote_bytes bnb m
  | NotificationCommit m => exists body, commit_encoding bnb m body /\ pre = 1 :: body
  | NotificationNeighbor m => neighbor_ok bnb m /\ pre = 2 :: neighbor_bytes bnb m
  | NotificationCatchUpRequest m =>
      (is_u64 (cr_round_number m) /\ is_u64 (cr_set_id m)) /\
      pre = 3 :: to_le_bytes 8 (cr_round_number m) ++ to_le_bytes 8 (cr_set_id m)
  | NotificationCatchUp m => exists body, catch_up_encoding bnb m body /\ pre = 4 :: body
  end.

(** Bytes that are one header, or one justification. *)
Definition recognized {A} (p : parser A) (d : list u8) : Prop := is_bytes d /\ exists a, p d = Some (Ok ([], a)).

Definition fragment_ok (bnb : usize) (f : GrandpaWarpSyncResponseFragment) : Prop :=
  recognized header_parser (wf_scale_encoded_header f) /\ recognized (grandpa_justification bnb) (wf_scale_encoded_justification f).

Definition fragment_bytes (f : GrandpaWarpSyncResponseFragment) : list u8 :=
  wf_scale_encoded_header f ++ wf_scale_encoded_justification f.
End encodings.

(** ** Facts *)

Section facts.
Context `{Platform} `{Nom} `{!NomLaws} `{NomMulti} `{!NomMultiLaws} `{NomLengthData} `{!NomLengthDataLaws} `{NomChoice} `{!NomChoiceLaws}.

Lemma codec_reads {A} (p : parser A) ok enc : codec p ok enc -> reads p (fun a pre => ok a /\ pre = enc a).
Proof. intros Hc bytes rest a Hb. rewrite (Hc bytes rest a Hb). split; [intros [? ->]; by eexists|by intros (pre & [? ->] & ->)]. Qed.

Lemma reads_rest {A} (p : parser A) R bytes rest a : reads p R -> is_bytes bytes -> p bytes = Some (Ok (rest, a)) -> is_bytes rest.
Proof. intros Hr Hb Hp. apply Hr in Hp as (pre & _ & ->); [|done]. by apply is_bytes_app_r in Hb. Qed.

Lemma reads_safe {A} (p : parser A) R bytes : reads p R -> returns p -> is_bytes bytes -> safe (p bytes).
Proof.
  intros Hr Ht Hb. specialize (Ht bytes Hb). destruct (p bytes) as [[[r a]|]|] eqn:E; [|done..]. by eapply reads_rest in E.
Qed.

Lemma safe_returns {A} (p : parser A) : (forall bytes, is_bytes bytes -> safe (p bytes)) -> returns p.
Proof. intros Hs bytes Hb E. specialize (Hs bytes Hb). by rewrite E in Hs. Qed.

(** A parser before the others. *)
Lemma reads_bind {A B} (p : parser A) R (f : list u8 -> A -> outcome NomError (list u8 * B)) bytes rest b :
  reads p R -> is_bytes bytes ->
  (let* (r, a) := p bytes in f r a) = Some (Ok (rest, b)) <->
  exists pre a r, R a pre /\ bytes = pre ++ r /\ f r a = Some (Ok (rest, b)).
Proof.
  intros Hr Hb. split.
  - destruct (p bytes) as [[[r a]|]|] eqn:E; [|done..]. cbn [outcome_bind]. apply Hr in E as (pre & HR & ->); [|done].
    intros Hf. by exists pre, a, r.
  - intros (pre & a & r & HR & -> & Hf). assert (E : p (pre ++ r) = Some (Ok (r, a))) by (apply Hr; [done|by exists pre]). by rewrite E.
Qed.

Lemma whole_iff {A} (p : parser A) R bytes a : reads p R -> is_bytes bytes -> whole p bytes = Some (Ok a) <-> R a bytes.
Proof.
  intros Hr Hb. assert (Hw : whole p bytes = Some (Ok a) <-> p bytes = Some (Ok ([], a))).
  { unfold whole. destruct (p bytes) as [[[[|x r] a']|]|]; cbn [outcome_bind]; split; congruence. }
  rewrite Hw, (Hr bytes [] a Hb). split; [intros (pre & HR & ->); by rewrite app_nil_r|]. intros HR. exists bytes. by rewrite app_nil_r.
Qed.

Lemma whole_returns {A} (p : parser A) bytes : returns p -> is_bytes bytes -> exists r, whole p bytes = Some r.
Proof. intros Ht Hb. specialize (Ht bytes Hb). unfold whole. destruct (p bytes) as [[[[|x r] a]|]|]; [by eexists..|done]. Qed.

(** *** Tags *)

Lemma tag_one t bytes :
  nom_tag [t] bytes = match bytes with
                      | b :: rest => if b =? t then Some (Ok (rest, [t])) else Some (Err mkNomError)
                      | [] => Some (Err mkNomError)
                      end.
Proof.
  rewrite nom_tag_spec. destruct bytes as [|b rest]; [done|]. cbn [length take drop]. rewrite take_0, drop_0.
  destruct (Z.eqb_spec b t) as [->|Hne]; [by rewrite bool_decide_eq_true_2|]. rewrite bool_decide_eq_false_2; [done|congruence].
Qed.

(** A parser after a tag of one byte, and the choice between such parsers. *)
Definition on_byte {A} (tp : u8 * parser A) : parser A := fun bytes =>
  let* (bytes, _) := nom_tag [tp.1] bytes in tp.2 bytes.

Definition byte_choice {A} (l : list (u8 * parser A)) : parser A := fun bytes =>
  match bytes with
  | [] => Some (Err mkNomError)
  | b :: rest =>
      match find (fun tp => b =? tp.1) l with
      | Some tp => tp.2 rest
      | None => Some (Err mkNomError)
      end
  end.

Lemma find_absent {A} (l : list (u8 * A)) b : b ∉ map fst l -> find (fun tp => b =? tp.1) l = None.
Proof.
  intros Hb. destruct (find _ l) as [tp|] eqn:E; [|done]. apply find_some in E as [Hin Heq]. apply Z.eqb_eq in Heq. subst b.
  destruct Hb. apply list_elem_of_fmap. exists tp. split; [done|by apply list_elem_of_In].
Qed.

Lemma alt_bytes {A} (l : list (u8 * parser A)) bytes : NoDup (map fst l) -> nom_alt (map on_byte l) bytes = byte_choice l bytes.
Proof.
  induction l as [|[t p] l IH]; intros Hnd; [rewrite nom_alt_nil; by destruct bytes|]. cbn [map] in *. apply NoDup_cons in Hnd as [Ht Hnd].
  specialize (IH Hnd). cbn [fst] in Ht. assert (Hon := tag_one t bytes).
  destruct bytes as [|b rest]; [|destruct (Z.eqb_spec b t) as [->|Hne]].
  - unfold on_byte at 1. cbn [fst snd]. by erewrite nom_alt_tag.
  - assert (Hp : on_byte (t, p) (t :: rest) = p rest) by (unfold on_byte; cbn [fst snd]; by rewrite Hon).
    cbn [byte_choice find fst snd] in *. rewrite Z.eqb_refl. rewrite (find_absent l t Ht) in IH. cbn [snd].
    destruct (p rest) as [[x|[]]|]; [by apply nom_alt_ok| |by apply nom_alt_ok].
    destruct (nom_alt_err _ _ (map on_byte l) _ _ Hp) as [->| ->]; done.
  - cbn [byte_choice find fst] in *. rewrite (proj2 (Z.eqb_neq b t) Hne), <- IH.
    unfold on_byte at 1. cbn [fst snd]. by erewrite nom_alt_tag.
Qed.
Lemma reads_ext {A} (p : parser A) (R R' : A -> list u8 -> Prop) : (forall a pre, R a pre <-> R' a pre) -> reads p R -> reads p R'.
Proof. intros E Hr bytes rest a Hb. rewrite (Hr bytes rest a Hb). by setoid_rewrite E. Qed.

Lemma reads_codec {A} (p : parser A) ok enc : reads p (fun a pre => ok a /\ pre = enc a) -> codec p ok enc.
Proof. intros Hr bytes rest a Hb. rewrite (Hr bytes rest a Hb). split; [by intros (pre & [? ->] & ->)|intros [? ->]; by eexists]. Qed.

Definition mapped {A B} (p : parser A) (f : A -> B) : parser B := fun bytes =>
  let* (bytes, a) := p bytes in Some (Ok (bytes, f a)).

Lemma reads_map {A B} (p : parser A) R (f : A -> B) : reads p R -> reads (mapped p f) (fun b pre => exists a, b = f a /\ R a pre).
Proof.
  intros Hr bytes rest b Hb. unfold mapped. rewrite (reads_bind p R) by done. split.
  - intros (pre & a & r & HR & -> & [= <- <-]). exists pre. eauto.
  - intros (pre & (a & -> & HR) & ->). by exists pre, a, rest.
Qed.

Lemma returns_map {A B} (p : parser A) (f : A -> B) : returns p -> returns (mapped p f).
Proof. intros Ht bytes Hb. specialize (Ht bytes Hb). unfold mapped. by destruct (p bytes) as [[[r a]|]|]. Qed.

Lemma reads_choice {A} (l : list (u8 * parser A)) (R : u8 -> A -> list u8 -> Prop) :
  NoDup (map fst l) -> Forall (fun tp => reads tp.2 (R tp.1)) l ->
  reads (nom_alt (map on_byte l)) (fun a pre => exists t body, t ∈ map fst l /\ R t a body /\ pre = t :: body).
Proof.
  intros Hnd Hl bytes rest a Hb. rewrite alt_bytes by done. rewrite Forall_forall in Hl. destruct bytes as [|b bytes].
  { split; [done|]. by intros (pre & (t & body & _ & _ & ->) & ?). }
  apply Forall_cons in Hb as [_ Hb]. cbn [byte_choice]. split.
  - destruct (find _ l) as [[t p]|] eqn:E; [|done]. apply find_some in E as [Hin Heq]. cbn [fst] in Heq. apply Z.eqb_eq in Heq. subst b. cbn [snd].
    apply list_elem_of_In in Hin. intros (body & HR & ->)%(Hl _ Hin); [|done]. exists (t :: body). split; [|done].
    exists t, body. split; [|done]. apply list_elem_of_fmap. by exists (t, p).
  - intros (pre & (t & body & Ht & HR & ->) & [= -> ->]). apply list_elem_of_fmap in Ht as ([t' p] & -> & Hin). cbn [fst] in *.
    assert (E : find (fun tp => t' =? tp.1) l = Some (t', p)); [|rewrite E; apply (Hl _ Hin); [done|by exists body]].
    clear -Hin Hnd. induction l as [|[u q] l IH]; [by apply elem_of_nil in Hin|]. cbn [map] in Hnd. apply NoDup_cons in Hnd as [Hu Hnd].
    cbn [find fst]. apply elem_of_cons in Hin as [[= -> ->]|Hin]; [by rewrite Z.eqb_refl|].
    rewrite (proj2 (Z.eqb_neq _ _)); [by apply IH|]. intros ->. destruct Hu. apply list_elem_of_fmap. by exists (u, p).
Qed.

Lemma returns_choice {A} (l : list (u8 * parser A)) :
  NoDup (map fst l) -> Forall (fun tp => returns tp.2) l -> returns (nom_alt (map on_byte l)).
Proof.
  intros Hnd Hl bytes Hb. rewrite alt_bytes by done. destruct bytes as [|b bytes]; [done|]. apply Forall_cons in Hb as [_ Hb]. cbn [byte_choice].
  destruct (find _ l) as [[t p]|] eqn:E; [|done]. apply find_some in E as [Hin _]. rewrite Forall_forall in Hl.
  apply (Hl (t, p)); [by apply list_elem_of_In|done].
Qed.

(** *** Recognized input *)

Lemma codec_recognize {A B} (same : A -> B) (p : parser A) : local_parser same p -> codec (nom_recognize p) (recognized p) (fun d => d).
Proof.
  intros Hloc bytes rest d Hb. rewrite nom_recognize_spec. split.
  - destruct (p bytes) as [[[r a]|]|] eqn:E; [|done..]. cbn [outcome_bind]. intros [= <- <-].
    destruct (Hloc _ _ _ Hb E) as (pre & -> & _ & Hp). rewrite length_app, Nat.add_sub, take_app_length. split; [|done].
    apply Forall_app in Hb as [Hpre _]. split; [done|]. destruct (Hp [] ltac:(constructor)) as (a' & Ha & _). rewrite app_nil_r in Ha. eauto.
  - intros [[Hd (a & Ha)] ->]. destruct (Hloc _ _ _ Hd Ha) as (pre & E & _ & Hp). rewrite app_nil_r in E. subst pre.
    destruct (Hp rest) as (a' & -> & _); [by apply is_bytes_app_r in Hb|]. cbn [outcome_bind].
    by rewrite length_app, Nat.add_sub, take_app_length.
Qed.

Lemma recognized_nonempty {A B} (same : A -> B) (p : parser A) d : local_parser same p -> recognized p d -> d <> [].
Proof. intros Hloc [Hd (a & Ha)] ->. destruct (Hloc _ _ _ Hd Ha) as (pre & E & Hne & _). by destruct pre. Qed.

Lemma justification_local bnb : 0 <= bnb -> local_parser (fun _ => tt) (grandpa_justification bnb).
Proof.
  intros Hb bytes rest j Hbytes E. unfold grandpa_justification in E.
  do 3 read_step E. destruct (precommits bnb _) as [[[r4 pr]|]|] eqn:Ep; [|done..]. cbn [outcome_bind] in E.
  apply precommits_inv in Ep as (pl & l & Hpl & Hl & Hr4 & -> & ->); [|done..].
  destruct (votes_ancestries r4) as [[[r5 v]|]|] eqn:Ev; [|done..]. cbn [outcome_bind] in E. injection E as -> <-.
  apply votes_inv in Ev as (hl & refs & Hhl & -> & Hnum & Hp); [|done].
  set (g := mkGrandpaJustification a a0 a1 l). set (data := va_slice v) in *.
  exists (justification_bytes bnb g pl hl data). split_and!.
  - unfold justification_bytes. cbn. by rewrite <- !app_assoc.
  - intros E. by unfold justification_bytes in E.
  - intros rest' Hr'. apply is_bytes_app_r in Hr4. apply Forall_app in Hr4 as [Hd _].
    destruct (parses_local Header_from header_parser data refs [] header_local Hd Hp) as (pre & Epre & Hpre). rewrite app_nil_r in Epre. subst pre.
    destruct (Hpre rest' Hr') as (refs' & Hp' & Hsame).
    assert (Hlen : len refs' = len refs). { unfold len. apply (f_equal length) in Hsame. rewrite !length_map in Hsame. by rewrite Hsame. }
    rewrite <- Hlen in Hhl.
    pose proof (justification_read bnb g pl hl data refs' rest' Hb ltac:(done) Hpl Hhl Hp' ltac:(by apply Forall_app)) as Hread.
    unfold decode_partial_grandpa in Hread.
    destruct (grandpa_justification bnb (justification_bytes bnb g pl hl data ++ rest')) as [[[x y]|]|]; [|done..].
    injection Hread as -> ->. by eexists.
Qed.
(** *** Block announces *)

Lemma codec_role : codec role_parser (fun _ => True) (fun r => [role_byte r]).
Proof.
  apply reads_codec. eapply reads_ext; [|apply (reads_choice
    [(1, fun bytes => Some (Ok (bytes, RoleFull))); (2, fun bytes => Some (Ok (bytes, RoleLight))); (4, fun bytes => Some (Ok (bytes, RoleAuthority)))]
    (fun t r body => role_byte r = t /\ body = []))].
  - intros r pre. split; [by intros (t & body & _ & [<- ->] & ->)|]. intros [_ ->]. exists (role_byte r), []. split; [|done].
    apply list_elem_of_In. destruct r; cbn; tauto.
  - cbn [map fst]. repeat (apply NoDup_cons; split; [apply (bool_decide_unpack _); by vm_compute|]). by apply NoDup_nil.
  - repeat apply Forall_cons_2; [..|apply Forall_nil_2]; intros bytes rest r _; cbn [fst snd]; split;
      [intros [= <- <-]; by exists []| |intros [= <- <-]; by exists []| |intros [= <- <-]; by exists []|];
      intros (pre & [Hr ->] & ->); by destruct r.
Qed.

Lemma codec_is_best : codec is_best_parser (fun _ => True) (fun b : bool => [if b then 1 else 0]).
Proof.
  apply reads_codec. eapply reads_ext; [|apply (reads_choice
    [(0, fun bytes => Some (Ok (bytes, false))); (1, fun bytes => Some (Ok (bytes, true)))]
    (fun t (r : bool) body => (if r then 1 else 0) = t /\ body = []))].
  - intros r pre. split; [by intros (t & body & _ & [<- ->] & ->)|]. intros [_ ->]. exists (if r then 1 else 0), []. split; [|done].
    apply list_elem_of_In. destruct r; cbn; tauto.
  - cbn [map fst]. repeat (apply NoDup_cons; split; [apply (bool_decide_unpack _); by vm_compute|]). by apply NoDup_nil.
  - repeat apply Forall_cons_2; [..|apply Forall_nil_2]; intros bytes rest r _; cbn [fst snd]; split;
      [intros [= <- <-]; by exists []| |intros [= <- <-]; by exists []|];
      intros (pre & [Hr ->] & ->); by destruct r.
Qed.

Lemma codec_handshake bnb : 0 <= bnb -> codec (block_announces_handshake bnb) (handshake_ok bnb) (handshake_bytes bnb).
Proof.
  intros Hb bytes rest h Hbytes. unfold block_announces_handshake, handshake_bytes. split.
  - intros Hd. eapply codec_bind in Hd; [|apply codec_role|done]. destruct Hd as (r & r1 & _ & -> & Hr1 & Hd). cbn beta in Hd.
    do 3 read_step Hd. injection Hd as <- <-. cbn. by rewrite <- !app_assoc.
  - intros [(Hn & Hh & Hg) ->]. rewrite <- !app_assoc in *. rewrite (codec_read _ _ _ _ _ codec_role) by done. cbn [outcome_bind]. read_all. by destruct h.
Qed.

Lemma nom_bytes_iff bytes rest d :
  is_bytes bytes -> nom_bytes_decode bytes = Some (Ok (rest, d)) <-> exists n, compact_len (len d) n /\ bytes = n ++ d ++ rest.
Proof.
  intros Hb. unfold nom_bytes_decode. rewrite nom_length_data_spec. split.
  - destruct (nom_scale_compact_usize bytes) as [[r n]|] eqn:E; [|done]. cbn [map_err result_bind].
    destruct (Z.ltb_spec (len r) n) as [|Hle]; [done|]. intros [= <- <-].
    assert (Hn : nom_usize bytes = Some (Ok (r, n))) by (unfold nom_usize; by rewrite E).
    apply compact_len_iff in Hn as (pre & Hpre & ->); [|done]. exists pre. pose proof Hpre as ([Hn0 _] & _).
    rewrite take_drop. split; [|done]. replace (len (take (Z.to_nat n) r)) with n; [done|]. unfold len in *. rewrite length_take. lia.
  - intros (n & Hn & ->). pose proof (proj2 (compact_len_iff (n ++ d ++ rest) (d ++ rest) (len d) Hb) ltac:(by exists n)) as E.
    unfold nom_usize in E. destruct (nom_scale_compact_usize (n ++ d ++ rest)) as [[r k]|]; [|done]. injection E as -> ->. cbn [map_err result_bind].
    rewrite (proj2 (Z.ltb_ge _ _)) by (rewrite len_app; pose proof (len_nonneg rest); lia).
    unfold len. by rewrite Nat2Z.id, take_app_length, drop_app_length.
Qed.
Lemma returns_handshake bnb : returns (block_announces_handshake bnb).
Proof.
  intros bytes Hb. unfold block_announces_handshake. assert (Hr : returns role_parser).
  { apply (returns_choice
      [(1, fun bytes => Some (Ok (bytes, RoleFull))); (2, fun bytes => Some (Ok (bytes, RoleLight))); (4, fun bytes => Some (Ok (bytes, RoleAuthority)))]).
    - cbn [map fst]. repeat (apply NoDup_cons; split; [apply (bool_decide_unpack _); by vm_compute|]). by apply NoDup_nil.
    - repeat apply Forall_cons_2; [..|apply Forall_nil_2]; done. }
  specialize (Hr bytes Hb). destruct (role_parser bytes) as [[[r role]|]|]; [|done..]. cbn [outcome_bind]. never_panics.
Qed.

(** The role is one byte, as the handshake is encoded. *)
Lemma role_encoding r : Role_scale_encoding r = [role_byte r].
Proof. by destruct r. Qed.

Lemma to_le_bytes_wrap m n : to_le_bytes m (n mod 2 ^ (8 * Z.of_nat m)) = to_le_bytes m n.
Proof.
  revert n. induction m as [|m IH]; intros n; [done|]. cbn [to_le_bytes].
  replace (2 ^ (8 * Z.of_nat (S m))) with (256 * 2 ^ (8 * Z.of_nat m)).
  2: { rewrite Nat2Z.inj_succ. replace (8 * Z.succ (Z.of_nat m)) with (8 + 8 * Z.of_nat m) by lia. by rewrite Z.pow_add_r by lia. }
  rewrite Z.rem_mul_r by lia. rewrite (Z.mul_comm 256 (_ mod _)). rewrite Z.mod_add, Z.mod_mod, Z.div_add by lia.
  rewrite (Z.div_small (n mod 256)) by (apply Z.mod_pos_bound; lia). rewrite Z.add_0_l, IH. done.
Qed.

Lemma number_bytes_mod bnb n : 0 <= bnb -> number_bytes bnb (n mod 2 ^ (8 * Z.min 8 bnb)) = number_bytes bnb n.
Proof.
  intros Hb. unfold number_bytes. f_equal. rewrite !take_to_le_bytes by lia. rewrite <- (Z2Nat.id (Z.min 8 bnb)) at 2 by lia.
  by rewrite to_le_bytes_wrap.
Qed.

Lemma number_bytes_wrap bnb n : 0 <= bnb <= 8 -> take (Z.to_nat bnb) (to_le_bytes 8 n) = number_bytes bnb (n mod 2 ^ (8 * bnb)).
Proof.
  intros Hb. rewrite <- (Z.min_r 8 bnb) at 3 by lia. rewrite number_bytes_mod by lia. unfold number_bytes, saturating_sub.
  rewrite Z.min_r by lia. replace (Z.to_nat (Z.max 0 (bnb - 8))) with 0%nat by lia. by rewrite app_nil_r.
Qed.

(** A handshake is accepted exactly if it is the encoding of its fields, with the block
    number on the expected number of bytes. A handshake that was built is accepted, with the number
    reduced to these bytes; building panics if there are more than eight. *)
Theorem handshake_codec (bnb : usize) (bytes : list u8) :
  0 <= bnb -> is_bytes bytes ->
  (exists r, decode_block_announces_handshake bnb bytes = Some r) /\
  forall h,
    (decode_block_announces_handshake bnb bytes = Some (Ok h) <-> handshake_ok bnb h /\ bytes = handshake_bytes bnb h) /\
    (is_array 32 (hs_best_hash h) -> is_array 32 (hs_genesis_hash h) ->
     match encode_block_announces_handshake h bnb with
     | Some bufs => bnb <= 8 /\ decode_block_announces_handshake bnb (concat bufs) =
         Some (Ok (mkBlockAnnouncesHandshakeRef (hs_role h) (hs_best_number h mod 2 ^ (8 * bnb)) (hs_best_hash h) (hs_genesis_hash h)))
     | None => 8 < bnb
     end).
Proof.
  intros Hb Hbytes. split; [by apply whole_returns; [apply returns_handshake|]|]. intros h. split.
  { apply (whole_iff _ (fun h pre => handshake_ok bnb h /\ pre = handshake_bytes bnb h)); [|done]. by apply codec_reads, codec_handshake. }
  intros Hh Hg. unfold encode_block_announces_handshake. destruct (Z.leb_spec bnb 8) as [H8|H8]; [|done]. cbn [mbind option_bind]. split; [done|].
  set (h' := mkBlockAnnouncesHandshakeRef _ _ _ _).
  assert (Hok : handshake_ok bnb h').
  { split; [|done]. unfold number_ok. rewrite Z.min_r by lia. apply Z.mod_pos_bound. lia. }
  assert (E : concat [Role_scale_encoding (hs_role h) ++ take (Z.to_nat bnb) (to_le_bytes 8 (hs_best_number h)); hs_best_hash h; hs_genesis_hash h] = handshake_bytes bnb h').
  { cbn [concat]. rewrite role_encoding, number_bytes_wrap, app_nil_r by done. unfold handshake_bytes. cbn. done. }
  rewrite E. apply (whole_iff _ (fun h pre => handshake_ok bnb h /\ pre = handshake_bytes bnb h)); [by apply codec_reads, codec_handshake| |done].
  rewrite <- E. cbn [concat]. rewrite app_nil_r. repeat (apply Forall_app; split); [by destruct (hs_role h); repeat constructor|..];
    [apply Forall_take, to_le_bytes_bytes|by destruct Hh|by destruct Hg].
Qed.

(** An announce is accepted exactly if it is a header, a flag and data. An announce that
    was built from a header is accepted. *)
Theorem block_announce_codec (bytes : list u8) (a : BlockAnnounceRef) :
  is_bytes bytes ->
  (decode_block_announce bytes = Some (Ok a) <->
   recognized header_parser (ba_scale_encoded_header a) /\
   exists n data, compact_len (len data) n /\
     bytes = ba_scale_encoded_header a ++ [if ba_is_best a then 1 else 0] ++ n ++ data) /\
  (recognized header_parser (ba_scale_encoded_header a) -> decode_block_announce (concat (encode_block_announce a)) = Some (Ok a)).
Proof.
  assert (Hr : reads block_announce (fun a pre => recognized header_parser (ba_scale_encoded_header a) /\
    exists n data, compact_len (len data) n /\ pre = ba_scale_encoded_header a ++ [if ba_is_best a then 1 else 0] ++ n ++ data)).
  { clear bytes a. intros bytes rest a Hb. unfold block_announce. split.
    - intros Hd. eapply codec_bind in Hd; [|apply (codec_recognize Header_from), header_local|done].
      destruct Hd as (h & r & Hh & -> & Hr & Hd). cbn beta in Hd.
      eapply codec_bind in Hd; [|apply codec_is_best|done]. destruct Hd as (b & r1 & _ & -> & Hr1 & Hd). cbn beta in Hd.
      destruct (nom_bytes_decode r1) as [[[r2 d]|]|] eqn:E; [|done..]. cbn [outcome_bind] in Hd. injection Hd as -> <-.
      apply nom_bytes_iff in E as (n & Hn & ->); [|done]. exists (h ++ [if b then 1 else 0] ++ n ++ d).
      split; [split; [done|by exists n, d]|]. by rewrite <- !app_assoc.
    - intros (pre & [Hh (n & d & Hn & ->)] & ->). rewrite <- !app_assoc in *.
      rewrite (codec_read _ _ _ _ _ (codec_recognize Header_from _ header_local)) by done. cbn [outcome_bind]. apply is_bytes_app_r in Hb.
      rewrite (codec_read _ _ _ _ _ codec_is_best) by done. cbn [outcome_bind]. apply is_bytes_app_r in Hb.
      rewrite (proj2 (nom_bytes_iff _ rest d Hb)) by (by exists n). by destruct a. }
  intros Hb. split; [by apply (whole_iff _ _ bytes a Hr)|]. intros Hh. cbn [encode_block_announce concat]. rewrite app_nil_r.
  apply (whole_iff _ _ _ a Hr).
  - apply Forall_app. split; [by destruct Hh|]. by destruct (ba_is_best a); repeat constructor.
  - split; [done|]. exists [0], []. split; [|by destruct (ba_is_best a)]. apply (compact_len_encode 0). by apply u32_usize.
Qed.
(** *** Notifications of GrandPa *)

(** A block hash and a block number. *)
Lemma hash_and_number {A} (mk : list u8 -> u64 -> A) bnb :
  0 <= bnb ->
  reads (fun bytes =>
    let* (bytes, target_hash) := take_bytes 32 bytes in
    let* (bytes, target_number) := nom_varsize_number_decode_u64 bnb bytes in
    Some (Ok (bytes, mk target_hash target_number)))
    (fun a pre => exists hash number, a = mk hash number /\ is_array 32 hash /\ number_ok bnb number /\ pre = hash ++ number_bytes bnb number).
Proof.
  intros Hb bytes rest a Hbytes. split.
  - intros Hd. do 2 read_step Hd. injection Hd as <- <-. eexists. split; [by exists a0, a1|]. by rewrite <- app_assoc.
  - intros (pre & (hash & number & -> & Hh & Hn & ->) & ->). rewrite <- app_assoc. by read_all.
Qed.

Definition message_variants (bnb : usize) : list (u8 * parser MessageRef) :=
  [(0, mapped (unsigned_prevote bnb) MessagePrevote); (1, mapped (grandpa_unsigned_precommit bnb) MessagePrecommit);
   (2, mapped (primary_propose bnb) MessagePrimaryPropose)].

Lemma small_tags (l : list u8) : bool_decide (NoDup l) = true -> NoDup l.
Proof. apply bool_decide_eq_true_1. Qed.

Lemma codec_message bnb : 0 <= bnb -> codec (message bnb) (message_ok bnb) (message_bytes bnb).
Proof.
  intros Hb. apply reads_codec. eapply reads_ext; [|apply (reads_choice (message_variants bnb)
    (fun t m body => let '(tag, hash, number) := message_parts m in
       tag = t /\ is_array 32 hash /\ number_ok bnb number /\ body = hash ++ number_bytes bnb number))].
  - intros m pre. unfold message_ok, message_bytes. destruct m as [m|m|m]; cbn [message_parts]; (split;
      [by intros (t & body & _ & (<- & Hh & Hn & ->) & ->)|intros [[Hh Hn] ->]; eexists _, _; split; [|by split_and!]];
      apply list_elem_of_In; cbn; tauto).
  - by apply small_tags.
  - repeat apply Forall_cons_2; [..|apply Forall_nil_2]; cbn [fst snd];
      (eapply reads_ext; [|eapply reads_map; by apply hash_and_number]); intros m pre; cbn beta; (split;
      [by intros (? & -> & hash & number & -> & Hh & Hn & ->)|]);
      (destruct m as [[hash number]|[hash number]|[hash number]]; cbn; intros (E & Hh & Hn & ->); try done;
       eexists; split; [done|]; by exists hash, number).
Qed.

Lemma returns_total {A} (p : parser A) : total p -> returns p.
Proof. intros Ht bytes _. apply Ht. Qed.

Lemma returns_message bnb : returns (message bnb).
Proof.
  apply (returns_choice (message_variants bnb)); [by apply small_tags|].
  repeat apply Forall_cons_2; [..|apply Forall_nil_2]; apply returns_map, returns_total; intros bytes;
    unfold unsigned_prevote, grandpa_unsigned_precommit, primary_propose; cbn [fst snd]; never_panics.
Qed.

Lemma codec_vote bnb : 0 <= bnb -> codec (vote_message bnb) (vote_ok bnb) (vote_bytes bnb).
Proof.
  intros Hb bytes rest v Hbytes. unfold vote_message, vote_bytes. split.
  - intros Hd. do 2 read_step Hd. eapply codec_bind in Hd; [|by apply codec_message|done].
    destruct Hd as (m & r1 & Hm & -> & Hr1 & Hd). cbn beta in Hd. do 2 read_step Hd. injection Hd as <- <-. cbn. by rewrite <- !app_assoc.
  - intros [(Hr & Hs & Hm & Hsig & Hkey) ->]. rewrite <- !app_assoc in *. read_all. do 2 apply is_bytes_app_r in Hbytes.
    rewrite (codec_read _ _ _ _ _ (codec_message bnb Hb)) by done. cbn [outcome_bind]. read_all. by destruct v.
Qed.

Lemma returns_vote bnb : 0 <= bnb -> returns (vote_message bnb).
Proof.
  intros Hb. apply safe_returns. intros bytes Hbytes. unfold vote_message.
  apply safe_bind; [by eapply codec_safe; eauto with codec|]. intros r1 round Hr1.
  apply safe_bind; [by eapply codec_safe; eauto with codec|]. intros r2 set Hr2.
  apply safe_bind; [apply (reads_safe _ _ _ (codec_reads _ _ _ (codec_message bnb Hb)) (returns_message bnb) Hr2)|]. intros r3 m Hr3.
  apply safe_bind; [by eapply codec_safe; eauto with codec|]. intros r4 sig Hr4.
  apply safe_bind; [by eapply codec_safe; eauto with codec|]. done.
Qed.

Lemma swapped_id {A} (o : outcome NomError (list u8 * A)) : swapped (let* (rest, a) := o in Some (Ok (a, rest))) = o.
Proof. by destruct o as [[[r a]|]|]. Qed.

Lemma reads_commit bnb : 0 <= bnb -> reads (fun s => swapped (decode_partial_grandpa_commit s bnb)) (commit_encoding bnb).
Proof.
  intros Hb bytes rest c Hbytes. pose proof (commit_decode_iff bytes rest bnb c Hb Hbytes) as Hc. split.
  - destruct (decode_partial_grandpa_commit bytes bnb) as [[[x y]|]|]; [|done..]. intros [= -> ->].
    destruct (proj1 Hc eq_refl) as [Hok (pl & al & Hpl & Hal & E)]. exists (commit_bytes bnb c pl al). split; [|done]. split; [done|]. by exists pl, al.
  - intros (pre & [Hok (pl & al & Hpl & Hal & ->)] & E). rewrite (proj2 Hc); [done|]. split; [done|]. by exists pl, al.
Qed.

Lemma returns_commit bnb : 0 <= bnb -> returns (fun s => swapped (decode_partial_grandpa_commit s bnb)).
Proof.
  intros Hb bytes Hbytes. destruct (decode_commit_returns bytes bnb Hb Hbytes) as [r Hr]. unfold decode_partial_grandpa_commit. rewrite swapped_id.
  intros E. unfold decode_grandpa_commit in Hr. by rewrite E in Hr.
Qed.

Lemma codec_neighbor bnb : 0 <= bnb -> codec (neighbor_packet bnb) (neighbor_ok bnb) (neighbor_bytes bnb).
Proof.
  intros Hb bytes rest n Hbytes. unfold neighbor_packet, neighbor_bytes. rewrite tag_one. split.
  - destruct bytes as [|b bytes]; [done|]. destruct (Z.eqb_spec b 1) as [->|]; [|done]. cbn [outcome_bind]. apply Forall_cons in Hbytes as [_ Hbytes].
    intros Hd. do 3 read_step Hd. injection Hd as <- <-. done.
  - intros [(Hr & Hs & Hn) ->]. rewrite <- !app_assoc. cbn [app]. rewrite Z.eqb_refl. cbn [outcome_bind]. read_all. by destruct n.
Qed.

Lemma neighbor_total bnb : total (neighbor_packet bnb).
Proof.
  intros bytes. unfold neighbor_packet. rewrite tag_one. destruct bytes as [|b bytes]; [done|]. destruct (b =? 1); [|done]. cbn [outcome_bind]. never_panics.
Qed.

Lemma codec_catch_up_request :
  codec catch_up_request (fun m => is_u64 (cr_round_number m) /\ is_u64 (cr_set_id m)) (fun m => to_le_bytes 8 (cr_round_number m) ++ to_le_bytes 8 (cr_set_id m)).
Proof.
  intros bytes rest m Hbytes. unfold catch_up_request. split.
  - intros Hd. do 2 read_step Hd. injection Hd as <- <-. done.
  - intros [[Hr Hs] ->]. rewrite <- !app_assoc. read_all. by destruct m.
Qed.

Lemma catch_up_request_total : total catch_up_request.
Proof. intros bytes. unfold catch_up_request. never_panics. Qed.

Lemma codec_prevote bnb : 0 <= bnb -> codec (prevote bnb) (prevote_ok bnb) (prevote_bytes bnb).
Proof.
  intros Hb bytes rest p Hbytes. unfold prevote, prevote_bytes. split.
  - intros Hd. do 4 read_step Hd. injection Hd as <- <-. cbn. by rewrite <- !app_assoc.
  - intros [(Hh & Hn & Hs & Hk) ->]. rewrite <- !app_assoc. read_all. by destruct p.
Qed.

Lemma prevote_total bnb : total (prevote bnb).
Proof. intros bytes. unfold prevote. never_panics. Qed.

Lemma prevote_bytes_ok bnb p : prevote_ok bnb p -> prevote_bytes bnb p <> [] /\ is_bytes (prevote_bytes bnb p).
Proof.
  intros ([Hl ?] & _ & [_ ?] & [_ ?]). unfold prevote_bytes. split; [by intros [E _]%app_eq_nil; rewrite E in Hl|].
  rewrite !Forall_app. split_and!; try done. apply number_bytes_bytes.
Qed.

Lemma reads_counted {A} (p : parser A) ok enc :
  codec p ok enc -> (forall a, ok a -> enc a <> [] /\ is_bytes (enc a)) -> reads (counted p) (counted_encoding ok enc).
Proof.
  intros Hc Henc bytes rest l Hb. rewrite (counted_iff p ok enc) by done. unfold counted_encoding. split.
  - intros (n & Hn & Hl & ->). eexists. split; [by exists n|]. by rewrite <- app_assoc.
  - intros (pre & (n & Hn & Hl & ->) & ->). exists n. by rewrite <- app_assoc.
Qed.

Lemma swapped_precommit bnb s : swapped (PrecommitRef_decode_partial s bnb) = precommit bnb s.
Proof. apply swapped_id. Qed.

Lemma codec_swapped_precommit bnb :
  0 <= bnb -> codec (fun s => swapped (PrecommitRef_decode_partial s bnb)) (precommit_ok bnb) (precommit_bytes bnb).
Proof. intros Hb bytes rest a. rewrite swapped_precommit. by apply codec_precommit. Qed.

Lemma reads_catch_up bnb : 0 <= bnb -> reads (catch_up bnb) (catch_up_encoding bnb).
Proof.
  intros Hb bytes rest c Hbytes. unfold catch_up.
  pose proof (reads_counted _ _ _ (codec_prevote bnb Hb) (prevote_bytes_ok bnb)) as Hv.
  pose proof (reads_counted _ _ _ (codec_swapped_precommit bnb Hb) (fun p => precommit_bytes_ok bnb p Hb)) as Hp. split.
  - intros Hd. do 2 read_step Hd. apply (reads_bind _ _ _ _ _ _ Hv) in Hd as (votes & vs & r1 & Hvs & -> & Hd); [|done]. cbn beta in Hd.
    apply is_bytes_app_r in Hr0. apply (reads_bind _ _ _ _ _ _ Hp) in Hd as (commits & ps & r2 & Hps & -> & Hd); [|done]. cbn beta in Hd.
    apply is_bytes_app_r in Hr0. do 2 read_step Hd. injection Hd as <- <-. eexists. split; [split_and!; [..|exists votes, commits; by split_and!]|]; [done..|].
    cbn. by rewrite <- !app_assoc.
  - intros (pre & (Hs & Hr & Hh & Hn & votes & commits & Hvs & Hps & ->) & ->). rewrite <- !app_assoc in *. read_all. do 2 apply is_bytes_app_r in Hbytes.
    rewrite (proj2 (Hv _ _ (cu_prevotes c) Hbytes)) by (by exists votes). cbn [outcome_bind]. apply is_bytes_app_r in Hbytes.
    rewrite (proj2 (Hp _ _ (cu_precommits c) Hbytes)) by (by exists commits). cbn [outcome_bind]. read_all. by destruct c.
Qed.

Lemma returns_catch_up bnb : 0 <= bnb -> returns (catch_up bnb).
Proof.
  intros Hb. apply safe_returns. intros bytes Hbytes. unfold catch_up.
  apply safe_bind; [by eapply codec_safe; eauto with codec|]. intros r1 set Hr1.
  apply safe_bind; [by eapply codec_safe; eauto with codec|]. intros r2 round Hr2.
  apply safe_bind; [eapply counted_safe; [by apply codec_prevote|apply prevote_bytes_ok|apply prevote_total|done]|]. intros r3 vs Hr3.
  apply safe_bind; [eapply counted_safe; [by apply codec_swapped_precommit|by apply (fun p => precommit_bytes_ok bnb p Hb)| |done]|].
  { intros s. rewrite swapped_precommit. apply precommit_total. }
  intros r4 ps Hr4. apply safe_bind; [by eapply codec_safe; eauto with codec|]. intros r5 hash Hr5.
  apply safe_bind; [by eapply codec_safe; eauto with codec|]. done.
Qed.

Definition notification_variants (bnb : usize) : list (u8 * parser GrandpaNotificationRef) :=
  [(0, mapped (vote_message bnb) NotificationVote);
   (1, mapped (fun s => swapped (decode_partial_grandpa_commit s bnb)) NotificationCommit);
   (2, mapped (neighbor_packet bnb) NotificationNeighbor);
   (3, mapped catch_up_request NotificationCatchUpRequest);
   (4, mapped (catch_up bnb) NotificationCatchUp)].

Lemma reads_notification bnb : 0 <= bnb -> reads (grandpa_notification bnb) (notification_encoding bnb).
Proof.
  intros Hb. eapply reads_ext; [|apply (reads_choice (notification_variants bnb) (fun t n body => notification_encoding bnb n (t :: body)))].
  - intros n pre. split; [by intros (t & body & _ & Hn & ->)|]. intros Hn.
    assert (exists t body, pre = t :: body /\ t ∈ map fst (notification_variants bnb)) as (t & body & -> & Ht); [|by exists t, body].
    destruct n; [destruct Hn as [_ ->]|destruct Hn as (body & _ & ->)|destruct Hn as [_ ->]|destruct Hn as [_ ->]|destruct Hn as (body & _ & ->)];
      (eexists _, _; split; [done|]); apply list_elem_of_In; cbn; tauto.
  - by apply small_tags.
  - repeat apply Forall_cons_2; [..|apply Forall_nil_2]; cbn [fst snd].
    + eapply reads_ext; [|by apply reads_map, codec_reads, codec_vote]. intros n pre. split; [by intros (m & -> & Hm & ->)|].
      destruct n; cbn; [intros [? [= ->]]; by eexists|by intros (? & _ & ?)|by intros [_ ?]|by intros [_ ?]|by intros (? & _ & ?)].
    + eapply reads_ext; [|by apply reads_map, reads_commit]. intros n pre. split; [intros (m & -> & Hm); cbn; by eexists|].
      destruct n; cbn; [by intros [_ ?]|intros (body & ? & [= ->]); by eexists|by intros [_ ?]|by intros [_ ?]|by intros (? & _ & ?)].
    + eapply reads_ext; [|by apply reads_map, codec_reads, codec_neighbor]. intros n pre. split; [by intros (m & -> & Hm & ->)|].
      destruct n; cbn -[to_le_bytes]; [by intros [_ ?]|by intros (? & _ & ?)|intros [? [= ->]]; by eexists|by intros [_ ?]|by intros (? & _ & ?)].
    + eapply reads_ext; [|apply reads_map, codec_reads, codec_catch_up_request]. intros n pre. split; [by intros (m & -> & Hm & ->)|].
      destruct n; cbn -[to_le_bytes]; [by intros [_ ?]|by intros (? & _ & ?)|by intros [_ ?]|intros [? [= ->]]; by eexists|by intros (? & _ & ?)].
    + eapply reads_ext; [|by apply reads_map, reads_catch_up]. intros n pre. split; [intros (m & -> & Hm); cbn; by eexists|].
      destruct n; cbn; [by intros [_ ?]|by intros (? & _ & ?)|by intros [_ ?]|by intros [_ ?]|intros (body & ? & [= ->]); by eexists].
Qed.

Lemma returns_notification bnb : 0 <= bnb -> returns (grandpa_notification bnb).
Proof.
  intros Hb. apply (returns_choice (notification_variants bnb)); [by apply small_tags|].
  repeat apply Forall_cons_2; [..|apply Forall_nil_2]; apply returns_map.
  - by apply returns_vote.
  - by apply returns_commit.
  - apply returns_total, neighbor_total.
  - apply returns_total, catch_up_request_total.
  - by apply returns_catch_up.
Qed.

(** C24: the notifications of GrandPa that are accepted are exactly the encodings of a
    notification whose fields have the sizes of their types, whichever encoding of
    the lengths is used. The decoder returns on every input. The state of a
    neighbour that was built is read back, with the height reduced to the bytes
    of a block number; building the other notifications panics. *)
Theorem grandpa_notification_codec (bnb : usize) (bytes : list u8) (n : GrandpaNotificationRef) :
  0 <= bnb -> is_bytes bytes ->
  (exists r, decode_grandpa_notification bytes bnb = Some r) /\
  (decode_grandpa_notification bytes bnb = Some (Ok n) <-> notification_encoding bnb n bytes) /\
  match GrandpaNotificationRef_scale_encoding n bnb with
  | Some bufs => exists m, n = NotificationNeighbor m /\
      (is_u64 (np_round_number m) -> is_u64 (np_set_id m) ->
       decode_grandpa_notification (concat bufs) bnb = Some (Ok (NotificationNeighbor
         (mkNeighborPacket (np_round_number m) (np_set_id m) (np_commit_finalized_height m mod 2 ^ (8 * Z.min 8 bnb))))))
  | None => forall m, n <> NotificationNeighbor m
  end.
Proof.
  intros Hb Hbytes. split_and!.
  - by apply whole_returns; [apply returns_notification|].
  - by apply whole_iff; [apply reads_notification|].
  - destruct n as [| |m| |]; [done|done| |done|done]. cbn [GrandpaNotificationRef_scale_encoding]. exists m. split; [done|]. intros Hr Hs.
    unfold NeighborPacket_scale_encoding. rewrite resize_number, <- number_bytes_mod by done.
    set (m' := mkNeighborPacket _ _ _). assert (Hm : neighbor_ok bnb m').
    { split_and!; [done|done|]. apply Z.mod_pos_bound. apply Z.pow_pos_nonneg; lia. }
    assert (E : concat [[2]; [1]; to_le_bytes 8 (np_round_number m); to_le_bytes 8 (np_set_id m);
      number_bytes bnb (np_commit_finalized_height m mod 2 ^ (8 * Z.min 8 bnb))] = 2 :: neighbor_bytes bnb m').
    { cbn [concat]. rewrite app_nil_r. done. }
    rewrite E. apply whole_iff with (R := notification_encoding bnb); [by apply reads_notification| |by split].
    apply Forall_cons. split; [by vm_compute|]. unfold neighbor_bytes. rewrite !Forall_app.
    split_and!; [by repeat constructor|apply to_le_bytes_bytes..|apply number_bytes_bytes].
Qed.

(** *** Warp sync *)

Lemma local_swapped bnb : 0 <= bnb -> local_parser (fun _ => tt) (fun s => swapped (decode_partial_grandpa s bnb)).
Proof.
  intros Hb bytes rest a Hbytes E. unfold decode_partial_grandpa in *. rewrite swapped_id in E.
  destruct (justification_local bnb Hb bytes rest a Hbytes E) as (pre & Hpre & Hne & Hloc). exists pre. split_and!; [done|done|].
  intros rest' Hr. rewrite swapped_id. by apply Hloc.
Qed.

Lemma codec_fragment bnb : 0 <= bnb -> codec (decode_fragment bnb) (fragment_ok bnb) fragment_bytes.
Proof.
  intros Hb bytes rest f Hbytes. unfold decode_fragment, fragment_bytes.
  pose proof (codec_recognize _ _ header_local) as Hh. pose proof (codec_recognize _ _ (local_swapped bnb Hb)) as Hj.
  assert (Hrec : forall d, recognized (fun s => swapped (decode_partial_grandpa s bnb)) d <-> recognized (grandpa_justification bnb) d).
  { intros d. unfold recognized, decode_partial_grandpa. by rewrite swapped_id. }
  split.
  - intros Hd. eapply codec_bind in Hd; [|exact Hh|done]. destruct Hd as (h & r & Hok & -> & Hr & Hd). cbn beta in Hd.
    eapply codec_bind in Hd; [|exact Hj|done]. destruct Hd as (j & r1 & Hok1 & -> & Hr1 & [= <- <-]). cbn. rewrite <- app_assoc. split; [|done].
    split; [done|by apply Hrec].
  - intros [[Hok Hok1%Hrec] ->]. rewrite <- app_assoc in *. rewrite (codec_read _ _ _ _ _ Hh) by done. cbn [outcome_bind].
    apply is_bytes_app_r in Hbytes. rewrite (codec_read _ _ _ _ _ Hj) by done. by destruct f.
Qed.

Lemma fragment_bytes_ok bnb f : fragment_ok bnb f -> fragment_bytes f <> [] /\ is_bytes (fragment_bytes f).
Proof.
  intros [Hh Hj]. unfold fragment_bytes. split.
  - intros [E _]%app_eq_nil. by apply (recognized_nonempty Header_from _ _ header_local Hh).
  - apply Forall_app. split; [by destruct Hh|by destruct Hj].
Qed.

(** The responses that are accepted are exactly the sequences of headers, each
    followed by a justification, and a byte, which says if the proof is complete. *)
Theorem warp_sync_response_codec (bnb : usize) (encoded : list u8) (r : GrandpaWarpSyncResponse) :
  0 <= bnb -> is_bytes encoded ->
  decode_grandpa_warp_sync_response encoded bnb = Some (Ok r) <->
  exists fs finished, counted_encoding (fragment_ok bnb) fragment_bytes (wr_fragments r) fs /\
    encoded = fs ++ [finished] /\ wr_is_finished r = negb (finished =? 0).
Proof.
  intros Hb Hbytes. pose proof (reads_counted _ _ _ (codec_fragment bnb Hb) (fragment_bytes_ok bnb)) as Hf.
  apply whole_iff with (R := fun r pre => exists fs finished, counted_encoding (fragment_ok bnb) fragment_bytes (wr_fragments r) fs /\
    pre = fs ++ [finished] /\ wr_is_finished r = negb (finished =? 0)); [|done].
  clear encoded r Hbytes. intros bytes rest r Hbytes. unfold grandpa_warp_sync_response, decode_fragments. split.
  - intros (fs & l & r1 & Hl & -> & Hd)%(reads_bind _ _ _ _ _ _ Hf); [|done]. apply is_bytes_app_r in Hbytes. cbn beta in Hd.
    read_step Hd. injection Hd as <- <-. exists (fs ++ [a]). cbn [to_le_bytes] in *. destruct Hok as [Ha0 Ha]. cbn in Ha.
    rewrite Z.mod_small by lia. split; [by exists fs, a|]. by rewrite <- app_assoc.
  - intros (pre & (fs & b & Hl & -> & Hfin) & ->). rewrite <- app_assoc in *. rewrite (proj2 (Hf _ _ (wr_fragments r) Hbytes)) by (by exists fs).
    cbn [outcome_bind]. apply is_bytes_app_r in Hbytes. apply Forall_cons in Hbytes as [Hu _].
    assert (Eb : [b] = to_le_bytes 1 b). { cbn. destruct Hu. cbn in *. by rewrite Z.mod_small by lia. }
    rewrite Eb, le_read by done. cbn [outcome_bind]. rewrite <- Hfin. by destruct r.
Qed.
End facts.

(** ** Examples *)

Module Example.
#[local] Existing Instance platform64.
#[local] Existing Instance nom_complete.
#[local] Existing Instance nom_complete_laws.
#[local] Existing Instance nom_multi.
#[local] Existing Instance nom_multi_laws.
#[local] Existing Instance nom_length.
#[local] Existing Instance nom_length_laws.
#[local] Existing Instance nom_choice.
#[local] Existing Instance nom_choice_laws.

(** The packet of the test [basic_decode_neighbor]. *)
Definition neighbor_packet_bytes : list u8 := [2; 1; 87; 14; 0; 0; 0; 0; 0; 0; 162; 13; 0; 0; 0; 0; 0; 0; 49; 231; 77; 0].

Definition neighbor : GrandpaNotificationRef := NotificationNeighbor (mkNeighborPacket 3671 3490 5105457).

Lemma grandpa_notification_codec_witness :
  decode_grandpa_notification neighbor_packet_bytes 4 = Some (Ok neighbor) /\
  exists r, decode_grandpa_notification [4; 0] 4 = Some r.
Proof.
  split.
  - apply (grandpa_notification_codec 4 neighbor_packet_bytes neighbor); [done|by repeat constructor|]. split; [by vm_compute|by vm_compute].
  - apply (grandpa_notification_codec 4 [4; 0] neighbor); [done|by repeat constructor].
Defined.

Definition sample_handshake : BlockAnnouncesHandshakeRef :=
  mkBlockAnnouncesHandshakeRef RoleLight 258 (replicate 32 1) (replicate 32 2).

Lemma handshake_codec_witness :
  decode_block_announces_handshake 4 ([2; 2; 1; 0; 0] ++ replicate 32 1 ++ replicate 32 2) = Some (Ok sample_handshake) /\
  encode_block_announces_handshake sample_handshake 9 = None.
Proof.
  assert (Ha : forall b, is_u8 b -> is_array 32 (replicate 32 b)) by (intros b Hb; split; [done|by apply Forall_replicate]).
  split; [|done]. apply (handshake_codec 4 ([2; 2; 1; 0; 0] ++ replicate 32 1 ++ replicate 32 2)); [done| |].
  - apply Forall_app. split; [by repeat constructor|]. apply Forall_app. split; by apply Forall_replicate.
  - split; [|done]. split_and!; [by vm_compute|by apply Ha..].
Defined.

(** The handshake that cannot be built is accepted. *)
Example long_handshake_accepted :
  decode_block_announces_handshake 9 ([2; 2; 1; 0; 0; 0; 0; 0; 0; 0] ++ replicate 32 1 ++ replicate 32 2) = Some (Ok sample_handshake).
Proof. by vm_compute. Qed.

(** A header with no log, and a response with this header and a justification without votes. *)
Definition plain_header : list u8 := replicate 32 0 ++ [4] ++ replicate 64 0 ++ [0].
Definition plain_justification : list u8 := replicate 8 1 ++ replicate 32 0 ++ [1; 0; 0; 0] ++ [0; 0].

Example warp_response_example :
  decode_grandpa_warp_sync_response ([4] ++ plain_header ++ plain_justification ++ [1]) 4 =
    Some (Ok (mkGrandpaWarpSyncResponse [mkGrandpaWarpSyncResponseFragment plain_header plain_justification] true)) /\
  decode_block_announce (plain_header ++ [1; 0]) = Some (Ok (mkBlockAnnounceRef plain_header true)) /\
  decode_block_announce (plain_header ++ [2; 0]) = Some (Err mkNomError).
Proof. by vm_compute. Qed.
End Example.
