(* ===== verification/VerifyBase.v ===== *)
(** * What the verifications of headers share ([src/src/verify])

    Durations, the schnorrkel and merlin crates, [nth] on the iterators over
    authorities, [any] and [find_map] on the items of a digest, and a header
    without its seal, which is what the seal signs. *)

From S2P Require Import Prelude Leb128 Scale Nibble TrieNode HeaderBase HeaderAura HeaderBabe HeaderGrandpa Header HeaderDigest.

Open Scope Z_scope.

(** ** [core::time::Duration] *)

Record Duration := mkDuration { dur_secs : u64; dur_nanos : u32 }.

Definition Duration_from_secs (secs : u64) : Duration := mkDuration secs 0.

(** [Duration::checked_add]; [+] panics when it returns [None]. *)
Definition Duration_checked_add (self rhs : Duration) : option Duration :=
  let! secs := checked_add 64 (dur_secs self) (dur_secs rhs) in
  let nanos := dur_nanos self + dur_nanos rhs in
  if nanos <? 1000000000 then Some (mkDuration secs nanos)
  else let! secs := checked_add 64 secs 1 in Some (mkDuration secs (nanos - 1000000000)).

Definition Duration_as_secs (self : Duration) : u64 := dur_secs self.

Definition Duration_ok (d : Duration) : Prop := is_u64 (dur_secs d) /\ 0 <= dur_nanos d < 1000000000.

(** ** Signatures and verifiable random functions

    [schnorrkel] and [merlin]: parsing a signature, a public key, the output and
    the proof of a VRF fails on bytes that are not the encoding of one;
    [verify_simple] checks a signature of a message in a context; [vrf_verify]
    checks that the output is that of the key on a transcript, and [make_bytes]
    derives bytes from it. *)
Class Schnorrkel := {
  Signature : Type;
  PublicKey : Type;
  VRFPreOut : Type;
  VRFProof : Type;
  VRFInOut : Type;
  Transcript : Type;
  Signature_from_bytes : list u8 -> option Signature;
  PublicKey_from_bytes : list u8 -> option PublicKey;
  verify_simple : PublicKey -> list u8 -> list u8 -> Signature -> bool;
  Transcript_new : list u8 -> Transcript;
  append_u64 : Transcript -> list u8 -> u64 -> Transcript;
  append_message : Transcript -> list u8 -> list u8 -> Transcript;
  VRFPreOut_from_bytes : list u8 -> option VRFPreOut;
  VRFProof_from_bytes : list u8 -> option VRFProof;
  vrf_verify : PublicKey -> Transcript -> VRFPreOut -> VRFProof -> option VRFInOut;
  make_bytes : nat -> VRFInOut -> list u8 -> list u8
}.

(** A toy instance: keys that start with 255 and proofs that end with 255 are not
    valid; a signature and a proof start with the key; the bytes of an output are
    the output itself. *)
Definition toy_schnorrkel : Schnorrkel := {|
  Signature := list u8; PublicKey := list u8; VRFPreOut := list u8; VRFProof := list u8;
  VRFInOut := list u8; Transcript := list (list u8 * list u8);
  Signature_from_bytes := array_try_from 64;
  PublicKey_from_bytes := fun bytes =>
    if bool_decide (head bytes = Some 255) then None else array_try_from 32 bytes;
  verify_simple := fun key _ _ signature => bool_decide (take 32 signature = key);
  Transcript_new := fun label => [(label, [])];
  append_u64 := fun t label v => t ++ [(label, to_le_bytes 8 v)];
  append_message := fun t label m => t ++ [(label, m)];
  VRFPreOut_from_bytes := array_try_from 32;
  VRFProof_from_bytes := fun bytes =>
    if bool_decide (last bytes = Some 255) then None else array_try_from 64 bytes;
  vrf_verify := fun key _ out proof => if bool_decide (take 32 proof = key) then Some out else None;
  make_bytes := fun n out _ => take n out
|}.

(** The labels: [b"substrate"], [b"BABE"], [b"slot number"], [b"current epoch"],
    [b"chain randomness"] and [b"substrate-babe-vrf"]. *)
Definition label_substrate : list u8 := [115; 117; 98; 115; 116; 114; 97; 116; 101].
Definition label_babe : list u8 := [66; 65; 66; 69].
Definition label_slot_number : list u8 := [115; 108; 111; 116; 32; 110; 117; 109; 98; 101; 114].
Definition label_current_epoch : list u8 := [99; 117; 114; 114; 101; 110; 116; 32; 101; 112; 111; 99; 104].
Definition label_chain_randomness : list u8 :=
  [99; 104; 97; 105; 110; 32; 114; 97; 110; 100; 111; 109; 110; 101; 115; 115].
Definition label_babe_vrf : list u8 :=
  [115; 117; 98; 115; 116; 114; 97; 116; 101; 45; 98; 97; 98; 101; 45; 118; 114; 102].

(** ** Iterators *)

(** [Iterator::nth] on authorities: [None] is a panic. *)
Fixpoint iter_nth {A} `{!ChunkCodec A} (n : nat) (self : AuthoritiesIter A) : option (option A) :=
  match iter_next self with
  | None => None
  | Some None => Some None
  | Some (Some (a, self)) =>
      match n with
      | O => Some (Some a)
      | S n => iter_nth n self
      end
  end.

Lemma iter_nth_collect {A} `{!ChunkCodec A} n (self : AuthoritiesIter A) l :
  iter_collect self = Some l -> iter_nth n self = Some (l !! n).
Proof.
  unfold iter_collect. generalize (iter_fuel self) as fuel. intros fuel. revert self l n.
  induction fuel as [|fuel IH]; intros self l n Hl; [done|]. cbn [iter_loop] in Hl.
  destruct n as [|n]; cbn [iter_nth]; destruct (iter_next self) as [[[a self']|]|]; try done;
    simplify_eq; try done; destruct (iter_loop fuel self') as [l'|] eqn:Hrec; simplify_eq; [done|].
  cbn [lookup list_lookup]. by apply IH.
Qed.

Section logs.
Context `{Platform} `{Nom}.

(** [Iterator::find_map] and [Iterator::any] on the items of a digest. *)
Fixpoint LogsIter_find_map_loop {A} (fuel : nat) (f : DigestItemRef -> option A) (self : LogsIter)
    : option (option A) :=
  match fuel with
  | O => None
  | S fuel =>
      match LogsIter_next self with
      | None => None
      | Some None => Some None
      | Some (Some (item, self)) =>
          match f item with
          | Some a => Some (Some a)
          | None => LogsIter_find_map_loop fuel f self
          end
      end
  end.

Definition LogsIter_find_map {A} (f : DigestItemRef -> option A) (self : LogsIter) : option (option A) :=
  LogsIter_find_map_loop (LogsIter_fuel self) f self.

Definition LogsIter_any (p : DigestItemRef -> bool) (self : LogsIter) : option bool :=
  let! r := LogsIter_find_map (fun item => if p item then Some tt else None) self in
  Some (bool_decide (is_Some r)).

Lemma yields_find_map {A} (f : DigestItemRef -> option A) it items :
  yields it items -> LogsIter_find_map f it = Some (first_of f items).
Proof.
  intros Hy. pose proof (yields_fuel _ _ Hy) as Hfuel. unfold LogsIter_find_map, first_of.
  revert Hfuel. generalize (LogsIter_fuel it) as fuel. intros fuel.
  revert fuel. induction Hy as [it Hn|it item it' items Hn _ IH]; intros fuel Hfuel;
    (destruct fuel as [|fuel]; [lia|]); cbn [LogsIter_find_map_loop]; rewrite Hn; [done|].
  cbn [omap list_omap]. destruct (f item); [done|]. apply IH. cbn in Hfuel. lia.
Qed.

Lemma yields_any p it items : yields it items -> LogsIter_any p it = Some (existsb p items).
Proof.
  intros Hy. unfold LogsIter_any. rewrite (yields_find_map _ _ _ Hy). f_equal. unfold first_of.
  clear Hy. induction items as [|item items IH]; [done|]. cbn [omap list_omap existsb].
  destruct (p item); cbn [head orb]; [by rewrite bool_decide_eq_true_2 by eauto | exact IH].
Qed.

(** ** A header without its seal *)

Definition set_digest (d : DigestRef) (h : HeaderRef) : HeaderRef :=
  mkHeader (parent_hash h) (hd_number h) (hd_state_root h) (hd_extrinsics_root h) d.

(** The hash of the header [h] with the items [l] as its digest. *)
Definition hash_with_items `{Blake2b} (h : HeaderRef) (l : list DigestItemRef) : option (list u8) :=
  let! bufs := mapM DigestItemRef_scale_encoding l in
  Some (hash_from_scale_encoded_header_vectored
    ([parent_hash h; encode_scale_compact_u64 (hd_number h); hd_state_root h; hd_extrinsics_root h]
      ++ encode_scale_compact_usize (len l) :: bufs)).

Lemma hash_view `{Blake2b} h l :
  yields (DigestRef_logs (hd_digest h)) l -> LogsIter_len (DigestRef_logs (hd_digest h)) = len l ->
  HeaderRef_hash h = hash_with_items h l.
Proof.
  intros Hy Hlen. unfold HeaderRef_hash, HeaderRef_scale_encoding, DigestRef_scale_encoding, hash_with_items.
  rewrite (yields_collect _ _ Hy), Hlen. by destruct (mapM _ l).
Qed.

(** Taking the seal out of a header leaves the other items. *)
Lemma unseal_spec `{Blake2b} h l item s :
  digest_view (hd_digest h) (l ++ [item]) -> item_seal item = Some s -> is_usize (len l + 1) ->
  exists d, DigestRef_pop_seal (hd_digest h) = Some (Some s, d) /\
    HeaderRef_hash (set_digest d h) = hash_with_items h l.
Proof.
  intros Hv Hs Hu. destruct (pop_seal_some _ _ _ _ Hv Hs Hu) as (d & Hpop & Hd & _).
  exists d. split; [done|]. destruct Hd as [Hy Hl _ _].
  rewrite (hash_view (set_digest d h) l); [done | exact Hy | exact Hl].
Qed.

(** The seal of a digest, if it has one of the two engines, is its last item. *)
Lemma seal_cases d items :
  digest_view d items ->
  (exists l item s, items = l ++ [item] /\ item_seal item = Some s) \/
  (forall item, item ∈ items -> item_seal item = None).
Proof.
  intros [_ _ (_ & Hlast & _) _].
  destruct (decide (Exists (fun item => is_Some (item_seal item)) items)) as [He|Hne].
  - left. apply Exists_exists in He as (item & Hin & [s Hs]).
    apply list_elem_of_lookup in Hin as [i Hi].
    assert (seal_kind (item_kind item) = true) as Hk by (by destruct item as [| | | |[]| | | | | | |]).
    pose proof (lookup_lt_Some _ _ _ Hi) as Hlt.
    assert (S i = length items) as Hlen.
    { transitivity (length (map item_kind items)); [|apply length_map]. apply (Hlast i (item_kind item)); [|done].
      exact (list_lookup_fmap_Some_2 item_kind items i item Hi). }
    exists (take i items), item, s. split; [|done].
    by rewrite <- (take_S_r _ _ _ Hi), take_ge by lia.
  - right. intros item Hin. destruct (item_seal item) eqn:Hs; [|done].
    destruct Hne. apply Exists_exists. eauto.
Qed.

End logs.
