(* ===== verification/VerifyAura.v ===== *)
(** * Verification of Aura blocks ([src/src/verify/aura.rs])

    A header is accepted exactly when its slot is later than that of its parent
    and not in the future, and the authority of that slot has signed the header
    without its seal. *)

From S2P Require Import Prelude Leb128 Scale Nibble TrieNode HeaderBase HeaderAura HeaderBabe HeaderGrandpa Header HeaderDigest VerifyBase.

Open Scope Z_scope.

(** ** Data *)

Record VerifyConfig := mkVerifyConfig {
  ac_header : HeaderRef;
  ac_parent_block_header : HeaderRef;
  ac_now_from_unix_epoch : Duration;
  ac_current_authorities : AuraAuthoritiesIter;
  ac_slot_duration : u64
}.

Record VerifySuccess := mkVerifySuccess { vs_authorities_change : bool }.

Inductive VerifyError :=
  | MissingSeal
  | MissingPreRuntimeDigest
  | ParentIsntAuraConsensus
  | SlotNumberNotIncreasing
  | TooFarInFuture
  | BadSignature
  | BadPublicKey
  | EmptyAuthorities.

Definition is_authorities_change (item : DigestItemRef) : bool :=
  match item with
  | ItemAuraConsensus (AuraAuthoritiesChange _) => true
  | _ => false
  end.

Definition tolerance : Duration := Duration_from_secs 30.

(** ** [verify_header] *)

Section aura.
Context `{Platform} `{Nom} `{Blake2b} `{Schnorrkel}.

(** The slot of the parent, unless it is the genesis block. *)
Definition check_parent_slot (config : VerifyConfig) (slot_number : u64) : outcome VerifyError unit :=
  if negb (hd_number (ac_parent_block_header config) =? 0) then
    let! pr := DigestRef_aura_pre_runtime (hd_digest (ac_parent_block_header config)) in
    match pr with
    | Some pr => if slot_number <=? aura_slot_number pr then Some (Err SlotNumberNotIncreasing) else Some (Ok tt)
    | None => Some (Err ParentIsntAuraConsensus)
    end
  else Some (Ok tt).

Definition check_future (config : VerifyConfig) (slot_number : u64) : outcome VerifyError unit :=
  let! t := Duration_checked_add (ac_now_from_unix_epoch config) tolerance in
  let current_slot := wmul 64 (Duration_as_secs t) 1000 / ac_slot_duration config in
  if current_slot <? slot_number then Some (Err TooFarInFuture) else Some (Ok tt).

(** The signature in the seal, and the hash that it signs. *)
Definition take_seal (config : VerifyConfig) : outcome VerifyError (Signature * list u8) :=
  let! (seal, digest) := DigestRef_pop_seal (hd_digest (ac_header config)) in
  match seal with
  | Some (SealAura seal) =>
      let* seal_signature := Some (ok_or (Signature_from_bytes seal) BadSignature) in
      let! pre_seal_hash := HeaderRef_hash (set_digest digest (ac_header config)) in
      Some (Ok (seal_signature, pre_seal_hash))
  | _ => Some (Err MissingSeal)
  end.

Definition signing_authority_key (config : VerifyConfig) (slot_number : u64) : outcome VerifyError PublicKey :=
  if iter_len (ac_current_authorities config) =? 0 then Some (Err EmptyAuthorities)
  else
    let! signing_authority := checked usize_bits (slot_number `mod` iter_len (ac_current_authorities config)) in
    match iter_nth (Z.to_nat signing_authority) (ac_current_authorities config) with
    | Some (Some authority) =>
        let! key := PublicKey_from_bytes (aura_public_key authority) in Some (Ok key)
    | _ => None
    end.

Definition verify_header (config : VerifyConfig) : outcome VerifyError VerifySuccess :=
  let! pr := DigestRef_aura_pre_runtime (hd_digest (ac_header config)) in
  let* pr := Some (ok_or pr MissingPreRuntimeDigest) in
  let slot_number := aura_slot_number pr in
  let* _ := check_parent_slot config slot_number in
  let* _ := check_future config slot_number in
  let! authorities_change := LogsIter_any is_authorities_change (DigestRef_logs (hd_digest (ac_header config))) in
  let* (seal_signature, pre_seal_hash) := take_seal config in
  let* authority_public_key := signing_authority_key config slot_number in
  if verify_simple authority_public_key label_substrate pre_seal_hash seal_signature
  then Some (Ok (mkVerifySuccess authorities_change))
  else Some (Err BadSignature).

(** ** What is accepted *)

(** [seal_signed h items hash_of sig hash]: the last item is an Aura seal with the
    signature [sig], and [hash] is that of the header without it. *)
Definition aura_sealed (h : HeaderRef) (items : list DigestItemRef) (sig : Signature) (hash : list u8) : Prop :=
  exists l seal, items = l ++ [ItemAuraSeal seal] /\ Signature_from_bytes seal = Some sig /\
    hash_with_items h l = Some hash.

(** The authorship of a block at [slot], with [pitems] the items of its parent. *)
Record aura_valid (config : VerifyConfig) (items pitems : list DigestItemRef) (authorities : list AuraAuthority)
    (slot : u64) (author : AuraAuthority) : Prop := {
  av_slot : first_of select_aura_pre_digest items = Some (mkAuraPreDigest slot);
  av_parent : hd_number (ac_parent_block_header config) <> 0 ->
    exists p, first_of select_aura_pre_digest pitems = Some p /\ aura_slot_number p < slot;
  av_future : slot * ac_slot_duration config <= (dur_secs (ac_now_from_unix_epoch config) + 30) * 1000;
  av_author : authorities !! Z.to_nat (slot `mod` len authorities) = Some author;
  av_signed : exists sig hash key, aura_sealed (ac_header config) items sig hash /\
    PublicKey_from_bytes (aura_public_key author) = Some key /\
    verify_simple key label_substrate hash sig = true
}.

(** The conditions on the caller: the digests come from the decoders, the list
    of authorities can be read, and the clock is in the next half billion years. *)
Record aura_config_ok (config : VerifyConfig) (items pitems : list DigestItemRef) (authorities : list AuraAuthority)
    : Prop := {
  aok_view : digest_view (hd_digest (ac_header config)) items;
  aok_len : is_usize (len items);
  aok_parent_view : digest_view (hd_digest (ac_parent_block_header config)) pitems;
  aok_authorities : iter_collect (ac_current_authorities config) = Some authorities;
  aok_authorities_len : is_usize (len authorities);
  aok_duration : 0 < ac_slot_duration config;
  aok_now : Duration_ok (ac_now_from_unix_epoch config);
  aok_clock : (dur_secs (ac_now_from_unix_epoch config) + 30) * 1000 < 2 ^ 64
}.

Section facts.
Context (config : VerifyConfig) (items pitems : list DigestItemRef) (authorities : list AuraAuthority).
Context (Hok : aura_config_ok config items pitems authorities).

Lemma check_parent_slot_spec slot :
  exists r, check_parent_slot config slot = Some r /\
    (r = Ok tt <-> (hd_number (ac_parent_block_header config) <> 0 ->
      exists p, first_of select_aura_pre_digest pitems = Some p /\ aura_slot_number p < slot)).
Proof.
  unfold check_parent_slot. destruct (Z.eqb_spec (hd_number (ac_parent_block_header config)) 0); cbn [negb].
  { eexists. split; [reflexivity|]. tauto. }
  rewrite (acc_aura_pre_runtime _ pitems) by apply view_accessors, (aok_parent_view _ _ _ _ Hok).
  destruct (first_of select_aura_pre_digest pitems) as [p|].
  - destruct (Z.leb_spec slot (aura_slot_number p)); (eexists; split; [reflexivity|]); split; try done.
    + intros Hp. destruct (Hp ltac:(done)) as (? & [= <-] & ?). lia.
    + intros _ _. by exists p.
  - eexists. split; [reflexivity|]. split; [done|]. intros Hp. by destruct Hp as (? & ? & ?).
Qed.

Lemma check_future_spec slot :
  exists r, check_future config slot = Some r /\
    (r = Ok tt <-> slot * ac_slot_duration config <= (dur_secs (ac_now_from_unix_epoch config) + 30) * 1000).
Proof.
  unfold check_future, Duration_checked_add, tolerance, Duration_from_secs, Duration_as_secs.
  destruct Hok as [_ _ _ _ _ Hd [Hs Hn] Hc]. set (secs := dur_secs _) in *. set (nanos := dur_nanos _) in *.
  cbn [dur_secs dur_nanos]. unfold checked_add. rewrite checked_small by (unfold_uint; lia).
  rewrite (proj2 (Z.ltb_lt _ _)) by lia. unfold wmul. cbn [dur_secs].
  rewrite wrap_small by (unfold_uint; lia). 
  destruct (Z.ltb_spec ((secs + 30) * 1000 / ac_slot_duration config) slot) as [Hlt|Hge];
    (eexists; split; [reflexivity|]); split; try done.
  - intros Hle. pose proof (Z.div_le_lower_bound ((secs + 30) * 1000) (ac_slot_duration config) slot Hd ltac:(lia)). lia.
  - intros _. pose proof (Z.mul_div_le ((secs + 30) * 1000) (ac_slot_duration config) Hd). nia.
Qed.

Lemma take_seal_spec :
  (exists sig hash, aura_sealed (ac_header config) items sig hash /\ take_seal config = Some (Ok (sig, hash))) \/
  ((forall sig hash, ~ aura_sealed (ac_header config) items sig hash) /\
   (forall r, take_seal config <> Some (Ok r)) /\
   (take_seal config = None -> exists l seal sig, items = l ++ [ItemAuraSeal seal] /\
      Signature_from_bytes seal = Some sig /\ hash_with_items (ac_header config) l = None)).
Proof.
  pose proof (aok_view _ _ _ _ Hok) as Hv. unfold take_seal.
  destruct (seal_cases _ _ Hv) as [(l & item & s & Hi & Hs)|Hnone].
  - destruct (unseal_spec (ac_header config) l item s) as (d & -> & ->);
      [by rewrite <- Hi | done | by rewrite Hi in Hok; destruct Hok as [_ Hl]; autorewrite with len in Hl |].
    destruct item as [| | | |[]| | | | | | |]; cbn in Hs; simplify_eq.
    + destruct (Signature_from_bytes seal) as [sig|] eqn:Hsig; cbn [ok_or outcome_bind].
      * destruct (hash_with_items (ac_header config) l) as [hash|] eqn:Hh.
        { left. exists sig, hash. split; [|done]. by exists l, seal. }
        right. split_and!; [|done|by eauto 10].
        intros sig' hash' (l' & seal' & Heq & _ & Hh'). apply app_inj_tail in Heq as [<- _]. congruence.
      * right. split_and!; [|done..]. intros sig' hash' (l' & seal' & Heq & Hs' & _).
        apply app_inj_tail in Heq as [_ [= <-]]. congruence.
    + right. split_and!; [|done..]. intros sig' hash' (l' & seal' & Heq & _ & _).
      by apply app_inj_tail in Heq as [_ ?].
  - rewrite (pop_seal_none _ items) by done. right. split_and!; [|done..].
    intros sig hash (l & seal & -> & _). specialize (Hnone (ItemAuraSeal seal)).
    cbn in Hnone. discriminate Hnone. apply elem_of_app. right. apply list_elem_of_singleton. done.
Qed.

Lemma signing_authority_key_spec slot :
  signing_authority_key config slot =
    match authorities !! Z.to_nat (slot `mod` len authorities) with
    | Some a => let! key := PublicKey_from_bytes (aura_public_key a) in Some (Ok key)
    | None => Some (Err EmptyAuthorities)
    end.
Proof.
  destruct Hok as [_ _ _ Hc Hl _ _ _]. unfold signing_authority_key. rewrite (iter_collect_len _ _ Hc).
  destruct (Z.eqb_spec (len authorities) 0) as [Hz|Hnz].
  { destruct authorities; [done|]. pose proof (len_nonneg l). rewrite len_cons in Hz. lia. }
  pose proof (len_nonneg authorities). pose proof (Z.mod_pos_bound slot (len authorities) ltac:(lia)) as Hm.
  rewrite checked_small by (unfold is_uint in *; lia). rewrite (iter_nth_collect _ _ _ Hc).
  destruct (authorities !! _) as [a|] eqn:Ha; [done|]. apply lookup_ge_None in Ha. unfold len in *. lia.
Qed.

(** What [verify_header] accepts, and when it panics. *)
Lemma aura_verify_accepts s :
  verify_header config = Some (Ok s) <->
  vs_authorities_change s = existsb is_authorities_change items /\
  exists slot author, aura_valid config items pitems authorities slot author.
Proof.
  pose proof (view_accessors _ _ (aok_view _ _ _ _ Hok)) as Hacc. unfold verify_header.
  rewrite (acc_aura_pre_runtime _ _ Hacc).
  destruct (first_of select_aura_pre_digest items) as [[slot]|] eqn:Hslot; cbn [ok_or outcome_bind aura_slot_number].
  2:{ split; [done|]. intros (_ & slot & a & [Hs _ _ _ _]). congruence. }
  assert (forall P : Prop, (exists slot' author, aura_valid config items pitems authorities slot' author) -> 
    (forall author, aura_valid config items pitems authorities slot author -> P) -> P) as Hsame.
  { intros P (slot' & a & Hv) HP. apply (HP a). destruct Hv as [Hs' ? ? ? ?]. simplify_eq. by split. }
  destruct (check_parent_slot_spec slot) as (r & -> & Hp). destruct r as [[]|e]; cbn [outcome_bind].
  2:{ split; [done|]. intros [_ Hv]. apply (Hsame _ Hv). intros a [_ Hp' _ _ _]. by apply Hp in Hp'. }
  destruct (check_future_spec slot) as (r & -> & Hf). destruct r as [[]|e]; cbn [outcome_bind].
  2:{ split; [done|]. intros [_ Hv]. apply (Hsame _ Hv). intros a [_ _ Hf' _ _]. by apply Hf in Hf'. }
  rewrite (yields_any _ _ items) by apply Hok.
  destruct take_seal_spec as [(sig & hash & Hseal & ->)|(Hno & Hr & _)]; cbn [outcome_bind].
  2:{ split; [destruct (take_seal config) as [[?|]|]; [by edestruct Hr | done..]|].
      intros [_ Hv]. apply (Hsame _ Hv). intros a [_ _ _ _ (sig & hash & key & Hs & _)]. by apply Hno in Hs. }
  assert (forall sig' hash', aura_sealed (ac_header config) items sig' hash' -> sig' = sig /\ hash' = hash) as Hdet.
  { intros sig' hash' (l' & seal' & Heq & Hs' & Hh'). destruct Hseal as (l & seal & Heq' & Hs & Hh).
    rewrite Heq' in Heq. apply app_inj_tail in Heq as [<- [= <-]]. split; congruence. }
  rewrite signing_authority_key_spec. destruct (authorities !! _) as [a|] eqn:Ha; cbn [outcome_bind].
  2:{ split; [done|]. intros [_ Hv]. apply (Hsame _ Hv). intros a [_ _ _ Ha' _]. congruence. }
  destruct (PublicKey_from_bytes (aura_public_key a)) as [key|] eqn:Hk; cbn [outcome_bind].
  2:{ split; [done|]. intros [_ Hv]. apply (Hsame _ Hv). intros a' [_ _ _ Ha' (? & ? & ? & _ & ? & _)]. congruence. }
  destruct (verify_simple key label_substrate hash sig) eqn:Hver.
  - split.
    + intros [= <-]. split; [done|]. exists slot, a. split; [done | by apply Hp | by apply Hf | done |].
      by exists sig, hash, key.
    + intros [Hc _]. destruct s as [c]. cbn in Hc. by subst c.
  - split; [done|]. intros [_ Hv]. apply (Hsame _ Hv).
    intros a' [_ _ _ Ha' (sig' & hash' & key' & Hs' & Hk' & Hver')].
    apply Hdet in Hs' as [-> ->]. congruence.
Qed.

Lemma aura_verify_panics :
  verify_header config = None ->
  (exists l seal, items = l ++ [ItemAuraSeal seal] /\ hash_with_items (ac_header config) l = None) \/
  (exists slot author, first_of select_aura_pre_digest items = Some (mkAuraPreDigest slot) /\
    authorities !! Z.to_nat (slot `mod` len authorities) = Some author /\
    PublicKey_from_bytes (aura_public_key author) = None).
Proof.
  pose proof (view_accessors _ _ (aok_view _ _ _ _ Hok)) as Hacc. unfold verify_header.
  rewrite (acc_aura_pre_runtime _ _ Hacc).
  destruct (first_of select_aura_pre_digest items) as [[slot]|] eqn:Hslot; cbn [ok_or outcome_bind aura_slot_number];
    [|done].
  destruct (check_parent_slot_spec slot) as (r & -> & _). destruct r as [[]|e]; cbn [outcome_bind]; [|done].
  destruct (check_future_spec slot) as (r & -> & _). destruct r as [[]|e]; cbn [outcome_bind]; [|done].
  rewrite (yields_any _ _ items) by apply Hok.
  destruct take_seal_spec as [(sig & hash & Hseal & ->)|(_ & Hr & Hnone)]; cbn [outcome_bind].
  - rewrite signing_authority_key_spec. destruct (authorities !! _) as [a|] eqn:Ha; cbn [outcome_bind]; [|done].
    destruct (PublicKey_from_bytes (aura_public_key a)) as [key|] eqn:Hk; cbn [outcome_bind]; [by case_if|].
    intros _. right. eauto.
  - destruct (take_seal config) as [[[? ?]|]|] eqn:Ht; cbn [outcome_bind]; try done.
    + by destruct (Hr _ eq_refl).
    + intros _. left. destruct (Hnone eq_refl) as (l & seal & sig & ? & _ & ?). eauto.
Qed.

End facts.
End aura.
