(* ===== verification/VerifyBabe.v ===== *)
(** * Verification of Babe blocks ([src/src/verify/babe.rs])

    A header is accepted when its slot is later than that of its parent, the epoch
    of the block is that of its parent or, with an epoch change in its digest, the
    next one, the epoch allows the kind of claim that the block makes on its slot,
    the claimed authority has signed the header without its seal, and the claim is
    right: the output of the verifiable random function is that of the author, and
    below the threshold for a primary claim, or the author is the one that the slot
    designates for a secondary claim.

    The threshold of primary slot claims ([calculate_primary_threshold]) goes through 64-bit floating-point numbers, which are those of
    the Standard Library's [SpecFloat] with a precision of 53 bits, and through the
    rationals and the integers of the num crates. [f64::powf], whose precision is
    not specified, is a parameter. *)

From Stdlib Require Import SpecFloat.
From S2P Require Import Prelude Leb128 Scale Nibble TrieNode HeaderBase HeaderAura HeaderBabe HeaderGrandpa Header HeaderDigest ChainInformation VerifyBase.

Open Scope Z_scope.

Abbreviation u128 := Z (only parsing).

(** ** 64-bit floating-point numbers *)

Definition f64 : Type := spec_float.

(** [v as f64], for an integer. *)
Definition f64_from (v : Z) : f64 := binary_normalize 53 1024 v 0 false.
Definition f64_div (a b : f64) : f64 := SFdiv 53 1024 a b.
Definition f64_sub (a b : f64) : f64 := SFsub 53 1024 a b.
Definition f64_zero : f64 := S754_zero false.

Definition f64_is_finite (a : f64) : bool :=
  match a with
  | S754_zero _ | S754_finite _ _ _ => true
  | S754_infinity _ | S754_nan => false
  end.

(** [f64::powf]. *)
Class Powf := { powf : f64 -> f64 -> f64 }.

(** Zero to a power that is positive is zero. *)
Class PowfLaws `{Powf} : Prop := {
  powf_zero : forall theta, SFltb f64_zero theta = true -> powf f64_zero theta = f64_zero
}.

(** An instance: the power 1, whatever the exponent. *)
Definition toy_powf : Powf := {| powf := fun a _ => a |}.

Lemma toy_powf_laws : PowfLaws (H := toy_powf).
Proof. split. done. Qed.

(** ** Rationals *)

(** [num_rational::BigRational]: a numerator and a positive denominator without a
    common factor. *)
Definition BigRational_new (numer denom : Z) : Z * Z :=
  (numer / Z.gcd numer denom, denom / Z.gcd numer denom).

(** [BigRational::from_float]: the exact value, unless it is not finite. *)
Definition BigRational_from_float (f : f64) : option (Z * Z) :=
  match f with
  | S754_zero _ => Some (0, 1)
  | S754_finite s m e =>
      let m := if s then Zneg m else Zpos m in
      Some (if 0 <=? e then (m * 2 ^ e, 1) else BigRational_new m (2 ^ (- e)))
  | S754_infinity _ | S754_nan => None
  end.

(** [BigInt::to_biguint]. *)
Definition to_biguint (v : Z) : option Z := if v <? 0 then None else Some v.

(** ** The threshold *)

Section threshold.
Context `{Powf}.

(** [Iterator::sum::<u64>]. *)
Definition sum_u64 (l : list u64) : u64 := foldl (wadd 64) 0 l.

(** [authorities_weights] is the iterator over the authorities, mapped to their
    weights. *)
Definition calculate_primary_threshold (c : u64 * u64) (authorities_weights : BabeAuthoritiesIter)
    (authority_weight : u64) : option u128 :=
  if iter_len authorities_weights =? 0 then None
  else
    let c := f64_div (f64_from (fst c)) (f64_from (snd c)) in
    if negb (f64_is_finite c) then None
    else
      let! authorities := iter_collect authorities_weights in
      let theta := f64_div (f64_from authority_weight) (f64_from (sum_u64 (map babe_weight authorities))) in
      if negb (SFltb f64_zero theta) then None
      else
        let! p := BigRational_from_float (f64_sub (f64_from 1) (powf (f64_sub (f64_from 1) c) theta)) in
        let! numer := to_biguint (fst p) in
        let! denom := to_biguint (snd p) in
        checked 128 (Z.shiftl 1 128 * numer / denom).

(** The value of a floating-point number times [2^128], rounded down. *)
Definition scaled (f : f64) : Z :=
  match f with
  | S754_finite s m e =>
      let m := if s then Zneg m else Zpos m in
      if 0 <=? e then 2 ^ 128 * (m * 2 ^ e) else (2 ^ 128 * m) / 2 ^ (- e)
  | _ => 0
  end.

Lemma gcd_div_cancel k n d : 0 < d -> (k * (n / Z.gcd n d)) / (d / Z.gcd n d) = (k * n) / d.
Proof.
  intros Hd. pose proof (Z.gcd_nonneg n d) as Hg. assert (Z.gcd n d <> 0) as Hz.
  { intros [_ ?]%Z.gcd_eq_0. lia. }
  destruct (Z.gcd_divide_l n d) as [a Ha], (Z.gcd_divide_r n d) as [b Hb].
  set (g := Z.gcd n d) in *. rewrite Ha, Hb. rewrite !Z.div_mul by lia.
  rewrite Z.mul_assoc, Z.div_mul_cancel_r; [done | nia | lia].
Qed.

(** The threshold is [2^128 * (1 - (1 - c) ^ theta)], with the rounding errors of
    the floating-point operations and no other: it is a [u128]. *)
Lemma primary_threshold_spec c authorities w t :
  calculate_primary_threshold c authorities w = Some t ->
  exists l, iter_collect authorities = Some l /\ l <> [] /\ is_uint 128 t /\
    let ratio := f64_div (f64_from (fst c)) (f64_from (snd c)) in
    let theta := f64_div (f64_from w) (f64_from (sum_u64 (map babe_weight l))) in
    f64_is_finite ratio = true /\ SFltb f64_zero theta = true /\
    t = scaled (f64_sub (f64_from 1) (powf (f64_sub (f64_from 1) ratio) theta)).
Proof.
  unfold calculate_primary_threshold. destruct (Z.eqb_spec (iter_len authorities) 0) as [|Hnz]; [done|].
  destruct (f64_is_finite _) eqn:Hf; cbn [negb]; [|done].
  destruct (iter_collect authorities) as [l|] eqn:Hl; [|done].
  rewrite (iter_collect_len _ _ Hl) in Hnz.
  destruct (SFltb f64_zero _) eqn:Ht; cbn [negb]; [|done]. intros Hc. exists l. cbv zeta.
  set (x := f64_sub (f64_from 1) (powf _ _)) in *. split_and!; [done | by intros -> | | done | done |].
  - destruct (BigRational_from_float x) as [p|]; [|done].
    destruct (to_biguint (fst p)); [|done]. destruct (to_biguint (snd p)); [|done].
    by apply checked_Some in Hc as [-> ?].
  - revert Hc. clear. unfold scaled. destruct x as [| | |s m e]; cbn [BigRational_from_float]; try done.
    + cbn. intros [= <-]. done.
    + set (v := if s then Zneg m else Zpos m). unfold to_biguint. rewrite Z.shiftl_1_l.
      destruct (Z.leb_spec 0 e).
      * cbn [fst snd]. destruct (Z.ltb_spec (v * 2 ^ e) 0); [done|]. cbn. intros [-> _]%checked_Some.
        by rewrite Z.div_1_r.
      * cbn [BigRational_new fst snd]. destruct (Z.ltb_spec (v / Z.gcd v (2 ^ (- e))) 0); [done|].
        destruct (Z.ltb_spec (2 ^ (- e) / Z.gcd v (2 ^ (- e))) 0); [done|]. intros [-> _]%checked_Some.
        apply gcd_div_cancel, pow2_pos. lia.
Qed.

(** A constant of 1, which is valid, and a constant of 0 over 0, which is valid as
    well: the computation, said not to panic, panics. So does that of an authority
    without weight. *)
Lemma primary_threshold_panics `{!PowfLaws} (key : list u8) :
  let authorities := Listed [mkBabeAuthority key 1] in
  calculate_primary_threshold (1, 1) authorities 1 = None /\
  calculate_primary_threshold (0, 0) authorities 1 = None /\
  calculate_primary_threshold (1, 4) (Listed [mkBabeAuthority key 0; mkBabeAuthority key 1]) 0 = None.
Proof.
  split_and!; [|reflexivity..].
  transitivity (let! p := BigRational_from_float (f64_sub (f64_from 1) (powf f64_zero (f64_from 1))) in
    let! numer := to_biguint (fst p) in
    let! denom := to_biguint (snd p) in
    checked 128 (Z.shiftl 1 128 * numer / denom)); [reflexivity|].
  rewrite powf_zero by reflexivity. reflexivity.
Qed.

End threshold.

(** ** The verification *)

(** ** Data *)

(** [now_from_unix_epoch] is not used. *)
Record VerifyConfig := mkVerifyConfig {
  bc_header : HeaderRef;
  bc_parent_block_header : HeaderRef;
  bc_now_from_unix_epoch : Duration;
  bc_slots_per_epoch : u64;
  bc_parent_block_epoch : option BabeEpochInformationRef;
  bc_parent_block_next_epoch : BabeEpochInformationRef
}.

Record VerifySuccess := mkVerifySuccess {
  vs_slot_number : u64;
  vs_epoch_transition_target : option BabeEpochInformation
}.

Inductive VerifyError :=
  | MissingSeal
  | MissingPreRuntimeDigest
  | ParentIsntBabeConsensus
  | SlotNumberNotIncreasing
  | UnexpectedEpochChangeLog
  | MissingEpochChangeLog
  | InvalidBabeParametersChange (err : BabeValidityError)
  | InvalidAuthorityIndex
  | BadSignature
  | BadVrfProof
  | BadSecondarySlotAuthor
  | OverPrimaryClaimThreshold
  | ForbiddenSlotType.

(** What the pre-runtime digest claims: [authority_index], [slot_number],
    [primary_slot_claim] and [vrf_output_and_proof]. *)
Record Claim := mkClaim {
  cl_authority_index : u32;
  cl_slot_number : u64;
  cl_primary : bool;
  cl_vrf : option (list u8 * list u8)
}.

Definition claim_of (pre : BabePreDigest) : Claim :=
  match pre with
  | Primary digest =>
      mkClaim (primary_authority_index digest) (primary_slot_number digest) true
        (Some (primary_vrf_output digest, primary_vrf_proof digest))
  | SecondaryPlain digest => mkClaim (plain_authority_index digest) (plain_slot_number digest) false None
  | SecondaryVRF digest =>
      mkClaim (primary_authority_index digest) (primary_slot_number digest) false
        (Some (primary_vrf_output digest, primary_vrf_proof digest))
  end.

(** [num_bigint::BigUint::from_bytes_be]. *)
Definition from_bytes_be (bytes : list u8) : Z := from_le_bytes (rev bytes).

Section babe.
Context `{Platform} `{Nom} `{Blake2b} `{Schnorrkel} `{Powf}.

(** ** The steps of [verify_header] *)

(** The slot of the parent, unless it is the genesis block. *)
Definition parent_slot (config : VerifyConfig) (slot_number : u64) : outcome VerifyError (option u64) :=
  if negb (hd_number (bc_parent_block_header config) =? 0) then
    let! pr := DigestRef_babe_pre_runtime (hd_digest (bc_parent_block_header config)) in
    match pr with
    | Some pr =>
        if slot_number <=? BabePreDigestRef_slot_number pr then Some (Err SlotNumberNotIncreasing)
        else Some (Ok (Some (BabePreDigestRef_slot_number pr)))
    | None => Some (Err ParentIsntBabeConsensus)
    end
  else Some (Ok None).

(** The assertions on the epochs of the configuration. *)
Definition epochs_asserted (config : VerifyConfig) (parent_slot_number : option u64) : bool :=
  let next := bc_parent_block_next_epoch config in
  match bc_parent_block_epoch config with
  | Some curr =>
      match checked_add 64 (epoch_index curr) 1 with
      | Some n => n =? epoch_index next
      | None => false
      end
      && match start_slot_number curr, parent_slot_number with
         | Some s, Some p => s <=? p
         | _, _ => false
         end
  | None => epoch_index next =? 0
  end
  && match start_slot_number next with
     | None => true
     | Some n => match parent_slot_number with Some p => p <? n | None => false end
     end
  && Bool.eqb (epoch_index next =? 0) (bool_decide (start_slot_number next = None)).

(** The epoch that the block belongs to. *)
Definition block_epoch_info (config : VerifyConfig) (slot_number : u64) (epoch_change : bool)
    : outcome VerifyError BabeEpochInformationRef :=
  let next := bc_parent_block_next_epoch config in
  match bc_parent_block_epoch config, epoch_change with
  | Some parent_epoch, false => Some (Ok parent_epoch)
  | None, false =>
      if hd_number (bc_parent_block_header config) =? 0 then Some (Err MissingEpochChangeLog) else None
  | Some _, true =>
      if match start_slot_number next with None => true | Some n => n <=? slot_number end
      then Some (Ok next)
      else Some (Err UnexpectedEpochChangeLog)
  | None, true => if hd_number (bc_header config) =? 1 then Some (Ok next) else None
  end.

Definition check_slot_type (allowed_slots : BabeAllowedSlots) (claim : Claim) : outcome VerifyError unit :=
  match allowed_slots, cl_primary claim, cl_vrf claim with
  | _, true, None => None
  | _, true, Some _ => Some (Ok tt)
  | PrimaryAndSecondaryPlainSlots, false, None => Some (Ok tt)
  | PrimaryAndSecondaryVrfSlots, false, Some _ => Some (Ok tt)
  | _, _, _ => Some (Err ForbiddenSlotType)
  end.

(** The new next epoch, if the digest has an epoch change: [None] is a panic. *)
Definition transition_target (config : VerifyConfig) (epoch : BabeEpochInformationRef) (slot_number : u64)
    (info : option (BabeNextEpochRef * option BabeNextConfig)) : option (option BabeEpochInformation) :=
  match info with
  | None => Some None
  | Some (info, epoch_cfg) =>
      let! index := checked_add 64 (epoch_index epoch) 1 in
      let! start := checked_add 64 (default slot_number (start_slot_number epoch)) (bc_slots_per_epoch config) in
      let! authorities := iter_collect (epoch_authorities info) in
      Some (Some {|
        epoch_index := index;
        start_slot_number := Some start;
        ei_authorities := authorities;
        ei_randomness := epoch_randomness info;
        ei_c := match epoch_cfg with Some cfg => config_c cfg | None => ei_c epoch end;
        ei_allowed_slots :=
          match epoch_cfg with Some cfg => config_allowed_slots cfg | None => ei_allowed_slots epoch end
      |})
  end.

Definition validate_target (target : option BabeEpochInformation) : result VerifyError unit :=
  match target with
  | None => Ok tt
  | Some target => map_err InvalidBabeParametersChange (BabeEpochInformation_validate target)
  end.

(** The hash of the header without its last seal. *)
Definition pre_seal_hash (config : VerifyConfig) : option (list u8) :=
  let! (_, digest) := DigestRef_pop_seal (hd_digest (bc_header config)) in
  HeaderRef_hash (set_digest digest (bc_header config)).

Definition signing_authority (epoch : BabeEpochInformationRef) (claim : Claim) : outcome VerifyError BabeAuthority :=
  let* i := Some (ok_or (checked usize_bits (cl_authority_index claim)) InvalidAuthorityIndex) in
  let! a := iter_nth (Z.to_nat i) (ei_authorities epoch) in
  Some (ok_or a InvalidAuthorityIndex).

Definition vrf_transcript (epoch : BabeEpochInformationRef) (slot_number : u64) : Transcript :=
  append_message
    (append_u64 (append_u64 (Transcript_new label_babe) label_slot_number slot_number)
      label_current_epoch (epoch_index epoch))
    label_chain_randomness (ei_randomness epoch).

(** The output of the verifiable random function, and the threshold of a primary
    claim. *)
Definition check_vrf (epoch : BabeEpochInformationRef) (claim : Claim) (author : BabeAuthority) (key : PublicKey)
    : outcome VerifyError unit :=
  match cl_vrf claim with
  | None => Some (Ok tt)
  | Some (vrf_output, vrf_proof) =>
      let! vrf_output := VRFPreOut_from_bytes vrf_output in
      let! vrf_proof := VRFProof_from_bytes vrf_proof in
      let* vrf_in_out :=
        Some (ok_or (vrf_verify key (vrf_transcript epoch (cl_slot_number claim)) vrf_output vrf_proof) BadVrfProof) in
      if cl_primary claim then
        let! threshold := calculate_primary_threshold (ei_c epoch) (ei_authorities epoch) (babe_weight author) in
        if threshold <=? from_le_bytes (make_bytes 16 vrf_in_out label_babe_vrf)
        then Some (Err OverPrimaryClaimThreshold)
        else Some (Ok tt)
      else Some (Ok tt)
  end.

(** [blake2(randomness | slot_number)], as a number. *)
Definition slot_hash (randomness : list u8) (slot_number : u64) : Z :=
  from_bytes_be (hasher_finalize (foldl hasher_update hasher_new [randomness; to_le_bytes 8 slot_number])).

Definition check_secondary (epoch : BabeEpochInformationRef) (claim : Claim) : outcome VerifyError unit :=
  if cl_primary claim then Some (Ok tt)
  else if iter_len (ei_authorities epoch) =? 0 then None
  else
    let expected := slot_hash (ei_randomness epoch) (cl_slot_number claim) `mod` iter_len (ei_authorities epoch) in
    match checked 32 expected with
    | Some v => if v =? cl_authority_index claim then Some (Ok tt) else Some (Err BadSecondarySlotAuthor)
    | None => Some (Err BadSecondarySlotAuthor)
    end.

Definition verify_header (config : VerifyConfig) : outcome VerifyError VerifySuccess :=
  let digest := hd_digest (bc_header config) in
  let! pre := DigestRef_babe_pre_runtime digest in
  let* pre := Some (ok_or pre MissingPreRuntimeDigest) in
  let claim := claim_of pre in
  let slot_number := cl_slot_number claim in
  let* parent_slot_number := parent_slot config slot_number in
  if negb (epochs_asserted config parent_slot_number) then None
  else
    let! info := DigestRef_babe_epoch_information digest in
    let* epoch := block_epoch_info config slot_number (bool_decide (is_Some info)) in
    let* _ := check_slot_type (ei_allowed_slots epoch) claim in
    let! seal := DigestRef_babe_seal digest in
    let* seal := Some (ok_or seal MissingSeal) in
    let* seal_signature := Some (ok_or (Signature_from_bytes seal) BadSignature) in
    let! target := transition_target config epoch slot_number info in
    let* _ := Some (validate_target target) in
    let! hash := pre_seal_hash config in
    let* author := signing_authority epoch claim in
    let! key := PublicKey_from_bytes (babe_public_key author) in
    if negb (verify_simple key label_substrate hash seal_signature) then Some (Err BadSignature)
    else
      let* _ := check_vrf epoch claim author key in
      let* _ := check_secondary epoch claim in
      Some (Ok (mkVerifySuccess slot_number target)).

End babe.
