(* ===== verification/VerifyBabeSpec.v ===== *)
(** * What the verification of Babe blocks accepts

    [verify_header] of VerifyBabe.v accepts exactly the headers whose authorship is
    right, as stated over the items of the digests, provided that the caller
    follows the conditions on the epochs; and the only cases in which it panics are
    listed. *)

From S2P Require Import Prelude Leb128 Scale Nibble TrieNode HeaderBase HeaderAura HeaderBabe HeaderGrandpa Header HeaderDigest ChainInformation VerifyBase VerifyBabe.

Open Scope Z_scope.

(** ** Steps that may panic or fail *)

Lemma outcome_bind_Ok {E A B} (r : outcome E A) (f : A -> outcome E B) b :
  outcome_bind r f = Some (Ok b) <-> exists a, r = Some (Ok a) /\ f a = Some (Ok b).
Proof. destruct r as [[]|]; cbn; naive_solver. Qed.

Lemma outcome_bind_None {E A B} (r : outcome E A) (f : A -> outcome E B) :
  outcome_bind r f = None <-> r = None \/ exists a, r = Some (Ok a) /\ f a = None.
Proof. destruct r as [[]|]; cbn; naive_solver. Qed.

Lemma step_Ok {A B} (e : option A) (k : A -> option B) b :
  (let! x := e in k x) = Some b <-> exists x, e = Some x /\ k x = Some b.
Proof. destruct e; naive_solver. Qed.

Lemma step_None {A B} (e : option A) (k : A -> option B) :
  (let! x := e in k x) = None <-> e = None \/ exists x, e = Some x /\ k x = None.
Proof. destruct e; naive_solver. Qed.

Lemma ok_or_Ok {E A} (o : option A) (e : E) a : Some (ok_or o e) = Some (Ok a) <-> o = Some a.
Proof. destruct o; cbn; naive_solver. Qed.

Lemma ok_or_panics {E A} (o : option A) (e : E) : Some (ok_or o e) <> None.
Proof. done. Qed.

(** ** The specification *)

Section spec.
Context `{Platform} `{Nom} `{Blake2b} `{Schnorrkel} `{Powf}.

(** How the epochs that the caller gives must relate to the slot of the parent. *)
Definition epochs_linked {authorities} (current : option (BabeEpochInformationOf authorities))
    (next : BabeEpochInformationOf authorities) (pslot : option u64) : Prop :=
  match current, pslot with
  | None, None => epoch_index next = 0 /\ start_slot_number next = None
  | Some curr, Some p =>
      exists cs ns, start_slot_number curr = Some cs /\ start_slot_number next = Some ns /\ cs <= p < ns /\
        is_u64 (epoch_index curr) /\ is_u64 (epoch_index next) /\ epoch_index next = epoch_index curr + 1
  | _, _ => False
  end.

Record babe_config_ok (config : VerifyConfig) (items pitems : list DigestItemRef) (pslot : option u64) : Prop := {
  bk_view : digest_view (hd_digest (bc_header config)) items;
  bk_len : is_usize (len items);
  bk_index : forall pre, first_of select_babe_pre_digest items = Some pre -> is_u32 (cl_authority_index (claim_of pre));
  bk_parent_view : digest_view (hd_digest (bc_parent_block_header config)) pitems;
  bk_parent : pslot = None <-> hd_number (bc_parent_block_header config) = 0;
  bk_parent_slot : forall p, pslot = Some p ->
    exists pre, first_of select_babe_pre_digest pitems = Some pre /\ BabePreDigestRef_slot_number pre = p;
  bk_number : hd_number (bc_header config) = hd_number (bc_parent_block_header config) + 1;
  bk_epochs : epochs_linked (bc_parent_block_epoch config) (bc_parent_block_next_epoch config) pslot;
  bk_authorities : forall e, bc_parent_block_epoch config = Some e \/ bc_parent_block_next_epoch config = e ->
    exists l, iter_collect (ei_authorities e) = Some l
}.

Definition slot_of (pre : BabePreDigest) : u64 := cl_slot_number (claim_of pre).
Definition index_of_claim (pre : BabePreDigest) : u32 := cl_authority_index (claim_of pre).

(** The epoch of a block: that of its parent, or the next one, which has started,
    if the block has an epoch change. *)
Definition block_epoch (config : VerifyConfig) (items : list DigestItemRef) (slot : u64)
    (epoch : BabeEpochInformationRef) : Prop :=
  match first_of select_next_epoch items with
  | None => bc_parent_block_epoch config = Some epoch
  | Some _ => epoch = bc_parent_block_next_epoch config /\ forall n, start_slot_number epoch = Some n -> n <= slot
  end.

Definition slot_type_ok (allowed : BabeAllowedSlots) (pre : BabePreDigest) : Prop :=
  match pre with
  | Primary _ => True
  | SecondaryPlain _ => allowed = PrimaryAndSecondaryPlainSlots
  | SecondaryVRF _ => allowed = PrimaryAndSecondaryVrfSlots
  end.

(** The epoch that the block announces: it follows the epoch of the block and starts
    a fixed number of slots after it. *)
Definition announced (config : VerifyConfig) (items : list DigestItemRef) (slot : u64) (epoch : BabeEpochInformationRef)
    (target : option BabeEpochInformation) : Prop :=
  match first_of select_next_epoch items with
  | None => target = None
  | Some info =>
      exists e, target = Some e /\ iter_collect (epoch_authorities info) = Some (ei_authorities e) /\
        epoch_index e = epoch_index epoch + 1 /\ is_u64 (epoch_index e) /\
        (exists start, start_slot_number e = Some start /\ is_u64 start /\
          start = default slot (start_slot_number epoch) + bc_slots_per_epoch config) /\
        ei_randomness e = epoch_randomness info /\
        (ei_c e, ei_allowed_slots e) = match first_of select_next_config items with
                                       | Some cfg => (config_c cfg, config_allowed_slots cfg)
                                       | None => (ei_c epoch, ei_allowed_slots epoch)
                                       end /\
        epoch_valid e
  end.

(** The last item is a Babe seal: a signature by [key] of the rest of the header. *)
Definition babe_signed (h : HeaderRef) (items : list DigestItemRef) (key : PublicKey) : Prop :=
  exists l seal sig hash, items = l ++ [ItemBabeSeal seal] /\ Signature_from_bytes seal = Some sig /\
    hash_with_items h l = Some hash /\ verify_simple key label_substrate hash sig = true.

Definition vrf_valid (epoch : BabeEpochInformationRef) (d : BabePrimaryPreDigest) (key : PublicKey) (io : VRFInOut) : Prop :=
  exists o p, VRFPreOut_from_bytes (primary_vrf_output d) = Some o /\ VRFProof_from_bytes (primary_vrf_proof d) = Some p /\
    vrf_verify key (vrf_transcript epoch (primary_slot_number d)) o p = Some io.

Definition designated (epoch : BabeEpochInformationRef) (authorities : list BabeAuthority) (pre : BabePreDigest) : Prop :=
  slot_hash (ei_randomness epoch) (slot_of pre) `mod` len authorities = index_of_claim pre.

Definition claim_valid (epoch : BabeEpochInformationRef) (authorities : list BabeAuthority) (author : BabeAuthority)
    (key : PublicKey) (pre : BabePreDigest) : Prop :=
  match pre with
  | Primary d => exists io t, vrf_valid epoch d key io /\
      calculate_primary_threshold (ei_c epoch) (ei_authorities epoch) (babe_weight author) = Some t /\
      from_le_bytes (make_bytes 16 io label_babe_vrf) < t
  | SecondaryPlain _ => designated epoch authorities pre
  | SecondaryVRF d => (exists io, vrf_valid epoch d key io) /\ designated epoch authorities pre
  end.

Record babe_valid (config : VerifyConfig) (items : list DigestItemRef) (pslot : option u64) (pre : BabePreDigest)
    (epoch : BabeEpochInformationRef) (authorities : list BabeAuthority) (author : BabeAuthority)
    (target : option BabeEpochInformation) : Prop := {
  bv_pre : first_of select_babe_pre_digest items = Some pre;
  bv_slot : forall p, pslot = Some p -> p < slot_of pre;
  bv_epoch : block_epoch config items (slot_of pre) epoch;
  bv_type : slot_type_ok (ei_allowed_slots epoch) pre;
  bv_target : announced config items (slot_of pre) epoch target;
  bv_authorities : iter_collect (ei_authorities epoch) = Some authorities;
  bv_author : authorities !! Z.to_nat (index_of_claim pre) = Some author;
  bv_key : exists key, PublicKey_from_bytes (babe_public_key author) = Some key /\
    babe_signed (bc_header config) items key /\ claim_valid epoch authorities author key pre
}.

(** The cases in which it panics: a header that cannot be hashed, an epoch change
    that cannot be represented, or data of the header or of the epoch that the
    cryptographic libraries or the computation of the threshold refuse. *)
Inductive babe_panic (config : VerifyConfig) (items : list DigestItemRef) : Prop :=
  | panic_hash l seal : items = l ++ [ItemBabeSeal seal] -> hash_with_items (bc_header config) l = None ->
      babe_panic config items
  | panic_epoch pre epoch info : first_of select_babe_pre_digest items = Some pre ->
      first_of select_next_epoch items = Some info -> epoch = bc_parent_block_next_epoch config ->
      ~ is_u64 (epoch_index epoch + 1) \/
      ~ is_u64 (default (slot_of pre) (start_slot_number epoch) + bc_slots_per_epoch config) \/
      iter_collect (epoch_authorities info) = None ->
      babe_panic config items
  | panic_author pre epoch authorities author : first_of select_babe_pre_digest items = Some pre ->
      block_epoch config items (slot_of pre) epoch -> iter_collect (ei_authorities epoch) = Some authorities ->
      authorities !! Z.to_nat (index_of_claim pre) = Some author ->
      PublicKey_from_bytes (babe_public_key author) = None \/
      (exists out proof, cl_vrf (claim_of pre) = Some (out, proof) /\
        (VRFPreOut_from_bytes out = None \/ VRFProof_from_bytes proof = None)) \/
      (cl_primary (claim_of pre) = true /\
        calculate_primary_threshold (ei_c epoch) (ei_authorities epoch) (babe_weight author) = None) ->
      babe_panic config items.

(** ** The steps *)

Section facts.
Context (config : VerifyConfig) (items pitems : list DigestItemRef) (pslot : option u64).
Context (Hok : babe_config_ok config items pitems pslot).

Lemma parent_slot_spec slot :
  exists r, parent_slot config slot = Some r /\
    forall p, r = Ok p <-> p = pslot /\ forall p, pslot = Some p -> p < slot.
Proof.
  destruct Hok as [_ _ _ Hv Hn Hs _ _ _]. unfold parent_slot.
  destruct (Z.eqb_spec (hd_number (bc_parent_block_header config)) 0) as [Hz|Hz]; cbn [negb].
  { apply Hn in Hz as ->. eexists. split; [reflexivity|]. naive_solver. }
  destruct pslot as [p|]; [|naive_solver]. destruct (Hs p eq_refl) as (pre & Hp & <-).
  rewrite (acc_babe_pre_runtime _ pitems), Hp by by apply view_accessors.
  destruct (Z.leb_spec slot (BabePreDigestRef_slot_number pre)) as [Hle|Hlt];
    (eexists; split; [reflexivity|]); intros p; split; try done.
  - intros [_ Hlt]. specialize (Hlt _ eq_refl). lia.
  - intros [= <-]. split; [done|]. by intros p [= <-].
  - by intros [-> _].
Qed.

Lemma epochs_asserted_ok : epochs_asserted config pslot = true.
Proof.
  pose proof (bk_epochs _ _ _ _ Hok) as He. unfold epochs_asserted. unfold epochs_linked in He.
  destruct (bc_parent_block_epoch config) as [curr|], pslot as [p|]; try done.
  - destruct He as (cs & ns & -> & -> & Hp & Hc & Hn & Hi). unfold checked_add.
    rewrite <- Hi, checked_small by done. rewrite Z.eqb_refl.
    rewrite (proj2 (Z.leb_le cs p)), (proj2 (Z.ltb_lt p ns)) by lia.
    unfold is_uint in Hc. rewrite (proj2 (Z.eqb_neq _ _)) by lia. done.
  - destruct He as [-> ->]. done.
Qed.

Lemma block_epoch_info_spec slot :
  exists r, block_epoch_info config slot (bool_decide (is_Some (first_of select_next_epoch items))) = Some r /\
    forall e, r = Ok e <-> block_epoch config items slot e.
Proof.
  destruct Hok as [_ _ _ _ Hp _ Hn He _]. unfold block_epoch_info, block_epoch, epochs_linked in *.
  destruct (first_of select_next_epoch items) as [info|];
    [rewrite bool_decide_eq_true_2 by eauto | rewrite bool_decide_eq_false_2 by (by intros [? ?])].
  - destruct (bc_parent_block_epoch config) as [curr|], pslot as [p|]; try done.
    + destruct He as (cs & ns & _ & Hns & _). rewrite Hns.
      destruct (Z.leb_spec ns slot); (eexists; split; [reflexivity|]); intros e; split; try done.
      * intros [= <-]. split; [done|]. intros n. rewrite Hns. by intros [= <-].
      * by intros [-> _].
      * intros [-> Hle]. specialize (Hle _ Hns). lia.
    + rewrite (proj2 (Z.eqb_eq _ 1)) by (rewrite Hn; destruct Hp as [Hp _]; specialize (Hp eq_refl); lia).
      destruct He as [_ Hns]. eexists. split; [reflexivity|]. intros e. split; [|by intros [-> _]].
      intros [= <-]. split; [done|]. intros n. by rewrite Hns.
  - destruct (bc_parent_block_epoch config) as [curr|], pslot as [p|]; try done.
    + eexists. split; [reflexivity|]. naive_solver.
    + rewrite (proj2 (Z.eqb_eq _ 0)) by by apply Hp. eexists. split; [reflexivity|]. naive_solver.
Qed.

Lemma check_slot_type_spec allowed pre :
  exists r, check_slot_type allowed (claim_of pre) = Some r /\ (r = Ok tt <-> slot_type_ok allowed pre).
Proof.
  destruct pre, allowed; cbn; (eexists; split; [reflexivity|]); naive_solver.
Qed.

(** The epoch information of the digest, in terms of its items. *)
Definition epoch_log : option (BabeNextEpochRef * option BabeNextConfig) :=
  match first_of select_next_epoch items with
  | Some epoch => Some (epoch, first_of select_next_config items)
  | None => None
  end.

Lemma epoch_log_change : bool_decide (is_Some epoch_log) = bool_decide (is_Some (first_of select_next_epoch items)).
Proof.
  unfold epoch_log. apply bool_decide_ext. destruct (first_of select_next_epoch items); split; intros [? ?]; eauto; done.
Qed.

Lemma transition_target_spec (epoch : BabeEpochInformationRef) slot t :
  (transition_target config epoch slot epoch_log = Some t /\ Some (validate_target t) = Some (Ok tt)) <->
  announced config items slot epoch t.
Proof.
  unfold transition_target, epoch_log, announced.
  destruct (first_of select_next_epoch items) as [info|]; [|naive_solver].
  assert (forall e : BabeEpochInformation, Some (validate_target (Some e)) = Some (Ok tt) <-> epoch_valid e) as Hval.
  { intros e. unfold validate_target, BabeEpochInformation_validate.
    change (epoch_valid e) with (epoch_valid (BabeEpochInformationRef_from e)). rewrite <- epoch_validate_spec.
    destruct (BabeEpochInformationRef_validate (BabeEpochInformationRef_from e)) as [[]|]; cbn; naive_solver. }
  split.
  - intros [Ht Hv]. apply step_Ok in Ht as (i & Hi & Ht). apply step_Ok in Ht as (st & Hst & Ht).
    apply step_Ok in Ht as (l & Hl & [= <-]). apply Hval in Hv.
    apply checked_Some in Hi as [-> ?], Hst as [-> ?].
    eexists. split_and!; [reflexivity | done | done | done | by eexists | done | | done].
    by destruct (first_of select_next_config items).
  - intros (e & -> & Hl & Hi & Hiu & (st & Hs & Hsu & Hst) & Hr & Hc & Hv). split; [|by apply Hval].
    unfold checked_add. rewrite checked_small by (by rewrite <- Hi).
    rewrite checked_small by (by rewrite <- Hst). rewrite Hl. do 2 f_equal.
    destruct e as [i start l r c a]; cbn in *. subst. f_equal;
      by destruct (first_of select_next_config items); simplify_eq.
Qed.

Lemma transition_target_panics (epoch : BabeEpochInformationRef) slot :
  transition_target config epoch slot epoch_log = None ->
  exists info, first_of select_next_epoch items = Some info /\
    (~ is_u64 (epoch_index epoch + 1) \/
     ~ is_u64 (default slot (start_slot_number epoch) + bc_slots_per_epoch config) \/
     iter_collect (epoch_authorities info) = None).
Proof.
  unfold transition_target, epoch_log. destruct (first_of select_next_epoch items) as [info|]; [|done].
  intros Hn. exists info. split; [done|]. apply step_None in Hn as [Hn%checked_None|(i & _ & Hn)]; [tauto|].
  apply step_None in Hn as [Hn%checked_None|(st & _ & Hn)]; [tauto|].
  apply step_None in Hn as [Hn|(l & _ & Hn)]; [tauto|done].
Qed.

(** The seal is the last item. *)
Lemma babe_seal_spec seal :
  first_of select_babe_seal items = Some seal <-> exists l, items = l ++ [ItemBabeSeal seal].
Proof.
  assert (forall l : list DigestItemRef, (forall item, item ∈ l -> item_seal item = None) ->
    first_of select_babe_seal l = None) as Hnone.
  { intros l Hl. apply (first_of_None _ KBabeSeal); [solve_select|].
    intros (item & Hk & Hin)%list_elem_of_fmap. apply Hl in Hin.
    by destruct item as [| | | |[]| | | | | | |]. }
  assert (forall l item, (forall item, item ∈ l -> item_seal item = None) ->
    first_of select_babe_seal (l ++ [item]) = select_babe_seal item) as Hlast.
  { intros l item Hl%Hnone. unfold first_of in *. rewrite omap_app.
    destruct (omap select_babe_seal l); [|done]. cbn. by destruct (select_babe_seal item). }
  pose proof (bk_view _ _ _ _ Hok) as Hv.
  destruct (seal_cases _ _ Hv) as [(l & item & s & Hi & Hs)|Hno].
  - assert (forall item, item ∈ l -> item_seal item = None) as Hl.
    { destruct Hv as [_ _ Hwf _]. rewrite Hi, map_app in Hwf. cbn [map] in Hwf.
      apply kinds_wf_unseal in Hwf as [_ Hl]; [|by destruct item as [| | | |[]| | | | | | |]].
      intros it Hin. specialize (Hl (item_kind it)). rewrite list_elem_of_fmap in Hl.
      specialize (Hl ltac:(eauto)). by destruct it as [| | | |[]| | | | | | |]. }
    rewrite Hi, Hlast by done. split.
    + intros Hsel. exists l. by destruct item as [| | | |[]| | | | | | |]; simplify_eq/=.
    + intros (l' & Heq). by apply app_inj_tail in Heq as [_ ->].
  - rewrite Hnone by done. split; [done|]. intros (l & ->). specialize (Hno (ItemBabeSeal seal)).
    cbn in Hno. discriminate Hno. apply elem_of_app. right. by apply list_elem_of_singleton.
Qed.

Lemma pre_seal_hash_spec l seal :
  items = l ++ [ItemBabeSeal seal] -> pre_seal_hash config = hash_with_items (bc_header config) l.
Proof.
  intros Hi. unfold pre_seal_hash. destruct (unseal_spec (bc_header config) l (ItemBabeSeal seal) (SealBabe seal))
    as (d & -> & ->); [pose proof (bk_view _ _ _ _ Hok) as Hv; by rewrite Hi in Hv | done | |done].
  pose proof (bk_len _ _ _ _ Hok) as Hl. rewrite Hi in Hl. by autorewrite with len in Hl.
Qed.

Lemma signing_authority_spec (epoch : BabeEpochInformationRef) authorities pre :
  iter_collect (ei_authorities epoch) = Some authorities -> first_of select_babe_pre_digest items = Some pre ->
  signing_authority epoch (claim_of pre) =
    Some (ok_or (authorities !! Z.to_nat (index_of_claim pre)) InvalidAuthorityIndex).
Proof.
  intros Hc Hp. unfold signing_authority, index_of_claim. apply (bk_index _ _ _ _ Hok) in Hp.
  rewrite checked_small.
  - cbn [ok_or outcome_bind]. by rewrite (iter_nth_collect _ _ _ Hc).
  - unfold is_uint in *. destruct usize_bits_spec as [-> | ->]; lia.
Qed.

Lemma check_secondary_spec (epoch : BabeEpochInformationRef) authorities pre :
  iter_collect (ei_authorities epoch) = Some authorities -> authorities <> [] ->
  is_u32 (index_of_claim pre) ->
  exists r, check_secondary epoch (claim_of pre) = Some r /\
    (r = Ok tt <-> (cl_primary (claim_of pre) = true \/ designated epoch authorities pre)).
Proof.
  intros Hc Hne Hu. unfold check_secondary, designated, slot_of, index_of_claim in *.
  assert (iter_len (ei_authorities epoch) = len authorities) as Hlen by exact (iter_collect_len _ _ Hc).
  destruct (cl_primary (claim_of pre)); [eexists; split; [reflexivity|]; naive_solver|].
  assert (len authorities <> 0) as Hl by (destruct authorities; [done | rewrite len_cons; pose proof (len_nonneg authorities); lia]).
  rewrite Hlen, (proj2 (Z.eqb_neq _ _)) by done.
  destruct (checked 32 _) as [v|] eqn:Hv.
  - apply checked_Some in Hv as [-> _].
    destruct (Z.eqb_spec (slot_hash (ei_randomness epoch) (cl_slot_number (claim_of pre)) `mod` len authorities)
      (cl_authority_index (claim_of pre))); (eexists; split; [reflexivity|]); naive_solver.
  - apply checked_None in Hv. eexists. split; [reflexivity|]. split; [done|]. intros [?|Hd]; [done|].
    rewrite Hd in Hv. done.
Qed.

Lemma check_vrf_spec (epoch : BabeEpochInformationRef) authorities author key pre :
  (check_vrf epoch (claim_of pre) author key = Some (Ok tt) /\
   (cl_primary (claim_of pre) = true \/ designated epoch authorities pre)) <->
  claim_valid epoch authorities author key pre.
Proof.
  destruct pre as [d|d|d]; cbn [claim_valid]; unfold check_vrf; cbn [claim_of cl_vrf cl_primary cl_slot_number].
  - split.
    + intros [Hc _]. apply step_Ok in Hc as (o & Ho & Hc). apply step_Ok in Hc as (p & Hp & Hc).
      apply outcome_bind_Ok in Hc as (io & Hio%ok_or_Ok & Hc). apply step_Ok in Hc as (t & Ht & Hc).
      exists io, t. split_and!; [by exists o, p | done|].
      destruct (Z.leb_spec t (from_le_bytes (make_bytes 16 io label_babe_vrf))); [done|lia].
    + intros (io & t & (o & p & Ho & Hp & Hio) & Ht & Hlt). split; [|by left].
      rewrite Ho, Hp, Hio. cbn [ok_or outcome_bind]. rewrite Ht. by rewrite (proj2 (Z.leb_gt _ _)) by lia.
  - naive_solver.
  - split.
    + intros [Hc [?|Hd]]; [done|]. split; [|done].
      apply step_Ok in Hc as (o & Ho & Hc). apply step_Ok in Hc as (p & Hp & Hc).
      apply outcome_bind_Ok in Hc as (io & Hio%ok_or_Ok & Hc). exists io. by exists o, p.
    + intros [(io & o & p & Ho & Hp & Hio) Hd]. split; [|by right].
      rewrite Ho, Hp, Hio. done.
Qed.

Lemma check_vrf_panics (epoch : BabeEpochInformationRef) author key pre :
  check_vrf epoch (claim_of pre) author key = None ->
  (exists out proof, cl_vrf (claim_of pre) = Some (out, proof) /\
    (VRFPreOut_from_bytes out = None \/ VRFProof_from_bytes proof = None)) \/
  (cl_primary (claim_of pre) = true /\
    calculate_primary_threshold (ei_c epoch) (ei_authorities epoch) (babe_weight author) = None).
Proof.
  unfold check_vrf. destruct (cl_vrf (claim_of pre)) as [[out proof]|]; [|done].
  intros Hn. apply step_None in Hn as [Hn|(o & _ & Hn)]; [left; eauto 10|].
  apply step_None in Hn as [Hn|(p & _ & Hn)]; [left; eauto 10|].
  apply outcome_bind_None in Hn as [?|(io & _ & Hn)]; [done|].
  destruct (cl_primary (claim_of pre)); [|done]. right. split; [done|].
  apply step_None in Hn as [Hn|(t & _ & Hn)]; [done|]. by case_if.
Qed.

Lemma epoch_authorities_ok (epoch : BabeEpochInformationRef) slot :
  block_epoch config items slot epoch -> exists l, iter_collect (ei_authorities epoch) = Some l.
Proof.
  intros He. apply (bk_authorities _ _ _ _ Hok). unfold block_epoch in He.
  destruct (first_of select_next_epoch items); [right; by destruct He as [-> _] | by left].
Qed.

(** ** The verification *)

(** [verify_header] with its steps in terms of the items. *)
Lemma verify_header_steps :
  verify_header config =
    (let* pre := Some (ok_or (first_of select_babe_pre_digest items) MissingPreRuntimeDigest) in
     let* _ := parent_slot config (slot_of pre) in
     let* epoch := block_epoch_info config (slot_of pre)
       (bool_decide (is_Some (first_of select_next_epoch items))) in
     let* _ := check_slot_type (ei_allowed_slots epoch) (claim_of pre) in
     let* seal := Some (ok_or (first_of select_babe_seal items) MissingSeal) in
     let* sig := Some (ok_or (Signature_from_bytes seal) BadSignature) in
     let! target := transition_target config epoch (slot_of pre) epoch_log in
     let* _ := Some (validate_target target) in
     let! hash := pre_seal_hash config in
     let* author := signing_authority epoch (claim_of pre) in
     let! key := PublicKey_from_bytes (babe_public_key author) in
     if negb (verify_simple key label_substrate hash sig) then Some (Err BadSignature)
     else
       let* _ := check_vrf epoch (claim_of pre) author key in
       let* _ := check_secondary epoch (claim_of pre) in
       Some (Ok (mkVerifySuccess (slot_of pre) target))).
Proof.
  pose proof (view_accessors _ _ (bk_view _ _ _ _ Hok)) as Hacc. unfold verify_header.
  rewrite (acc_babe_pre_runtime _ _ Hacc). destruct (first_of select_babe_pre_digest items) as [pre|]; [|done].
  cbn [ok_or outcome_bind]. fold (slot_of pre).
  destruct (parent_slot_spec (slot_of pre)) as (r & -> & Hr). destruct r as [p|e]; [|done].
  destruct (proj1 (Hr p) eq_refl) as [-> _]. cbn [outcome_bind].
  rewrite epochs_asserted_ok. cbn [negb]. rewrite (acc_babe_epoch _ _ Hacc). fold epoch_log.
  rewrite epoch_log_change. by rewrite (acc_babe_seal _ _ Hacc).
Qed.

Lemma babe_verify_accepts s :
  verify_header config = Some (Ok s) <->
  exists pre epoch authorities author,
    babe_valid config items pslot pre epoch authorities author (vs_epoch_transition_target s) /\
    vs_slot_number s = slot_of pre.
Proof.
  rewrite verify_header_steps. split.
  - intros Hs. apply outcome_bind_Ok in Hs as (pre & Hpre%ok_or_Ok & Hs).
    apply outcome_bind_Ok in Hs as (p & Hp & Hs).
    destruct (parent_slot_spec (slot_of pre)) as (r & Hr & Hrs). rewrite Hr in Hp. injection Hp as ->.
    destruct (proj1 (Hrs p) eq_refl) as [_ Hslot]. clear Hrs Hr.
    apply outcome_bind_Ok in Hs as (epoch & He & Hs).
    destruct (block_epoch_info_spec (slot_of pre)) as (r & Hr & Hrs). rewrite Hr in He. injection He as ->.
    pose proof (proj1 (Hrs epoch) eq_refl) as Hepoch. clear Hrs Hr.
    apply outcome_bind_Ok in Hs as ([] & Ht & Hs).
    destruct (check_slot_type_spec (ei_allowed_slots epoch) pre) as (r & Hr & Hrs). rewrite Hr in Ht. injection Ht as ->.
    apply outcome_bind_Ok in Hs as (seal & Hseal%ok_or_Ok%babe_seal_spec & Hs).
    apply outcome_bind_Ok in Hs as (sig & Hsig%ok_or_Ok & Hs).
    apply step_Ok in Hs as (target & Htar & Hs). apply outcome_bind_Ok in Hs as ([] & Hval & Hs).
    apply step_Ok in Hs as (hash & Hhash & Hs). destruct Hseal as (l & Hi).
    rewrite (pre_seal_hash_spec _ _ Hi) in Hhash.
    destruct (epoch_authorities_ok epoch (slot_of pre) Hepoch) as (authorities & Hauth).
    apply outcome_bind_Ok in Hs as (author & Ha & Hs).
    rewrite (signing_authority_spec _ _ _ Hauth Hpre) in Ha. apply ok_or_Ok in Ha.
    apply step_Ok in Hs as (key & Hkey & Hs).
    destruct (verify_simple key label_substrate hash sig) eqn:Hver; cbn [negb] in Hs; [|done].
    apply outcome_bind_Ok in Hs as ([] & Hvrf & Hs). apply outcome_bind_Ok in Hs as ([] & Hsec & [= <-]).
    assert (authorities <> []) as Hne by (intros ->; done).
    destruct (check_secondary_spec epoch authorities pre Hauth Hne (bk_index _ _ _ _ Hok _ Hpre)) as (r & Hr' & Hrs').
    rewrite Hr' in Hsec. injection Hsec as ->.
    exists pre, epoch, authorities, author. split; [|done].
    split; [done | done | done | by apply Hrs | by apply transition_target_spec | done | done |].
    exists key. split_and!; [done | by exists l, seal, sig, hash |]. apply check_vrf_spec. split; [done | by apply Hrs'].
  - intros (pre & epoch & authorities & author & [Hpre Hslot Hepoch Htype Htar Hauth Ha Hkey] & Hs).
    destruct Hkey as (key & Hkey & (l & seal & sig & hash & Hi & Hsig & Hhash & Hver) & Hclaim).
    rewrite Hpre. cbn [ok_or outcome_bind].
    destruct (parent_slot_spec (slot_of pre)) as (r & -> & Hr). rewrite (proj2 (Hr pslot)) by done. cbn [outcome_bind].
    destruct (block_epoch_info_spec (slot_of pre)) as (r' & -> & Hr'). rewrite (proj2 (Hr' epoch)) by done. cbn [outcome_bind].
    destruct (check_slot_type_spec (ei_allowed_slots epoch) pre) as (r'' & -> & Hr''). rewrite (proj2 Hr'') by done.
    cbn [outcome_bind]. rewrite (proj2 (babe_seal_spec seal)) by eauto. cbn [ok_or outcome_bind]. rewrite Hsig.
    cbn [ok_or outcome_bind]. apply transition_target_spec in Htar as [-> [= ->]]. cbn [outcome_bind].
    rewrite (pre_seal_hash_spec _ _ Hi), Hhash, (signing_authority_spec _ _ _ Hauth Hpre), Ha. cbn [ok_or outcome_bind].
    rewrite Hkey, Hver. cbn [negb]. apply (check_vrf_spec epoch authorities) in Hclaim as [-> Hd]. cbn [outcome_bind].
    assert (authorities <> []) as Hne by (intros ->; done).
    destruct (check_secondary_spec epoch authorities pre Hauth Hne (bk_index _ _ _ _ Hok _ Hpre)) as (r3 & -> & Hr3).
    rewrite (proj2 Hr3) by done. cbn [outcome_bind]. destruct s as [sl t]. cbn in Hs. by subst.
Qed.

Lemma babe_verify_panics : verify_header config = None -> babe_panic config items.
Proof.
  rewrite verify_header_steps. intros Hs.
  apply outcome_bind_None in Hs as [?|(pre & Hpre%ok_or_Ok & Hs)]; [done|].
  destruct (parent_slot_spec (slot_of pre)) as (r & Hr & _).
  apply outcome_bind_None in Hs as [Hs|(p & _ & Hs)]; [congruence|]. clear r Hr.
  destruct (block_epoch_info_spec (slot_of pre)) as (r & Hr & Hrs).
  apply outcome_bind_None in Hs as [Hs|(epoch & He & Hs)]; [congruence|].
  rewrite Hr in He. injection He as ->. pose proof (proj1 (Hrs epoch) eq_refl) as Hepoch. clear Hrs Hr.
  destruct (check_slot_type_spec (ei_allowed_slots epoch) pre) as (r & Hr & _).
  apply outcome_bind_None in Hs as [Hs|([] & _ & Hs)]; [congruence|]. clear r Hr.
  apply outcome_bind_None in Hs as [?|(seal & (l & Hi)%ok_or_Ok%babe_seal_spec & Hs)]; [done|].
  apply outcome_bind_None in Hs as [?|(sig & _ & Hs)]; [done|].
  apply step_None in Hs as [Hs|(target & _ & Hs)].
  { apply transition_target_panics in Hs as (info & Hinfo & Hc). eapply (panic_epoch _ _ pre epoch info); try done.
    unfold block_epoch in Hepoch. rewrite Hinfo in Hepoch. apply Hepoch. }
  apply outcome_bind_None in Hs as [?|([] & _ & Hs)]; [done|].
  apply step_None in Hs as [Hs|(hash & _ & Hs)].
  { rewrite (pre_seal_hash_spec _ _ Hi) in Hs. by apply (panic_hash _ _ l seal). }
  destruct (epoch_authorities_ok epoch (slot_of pre) Hepoch) as (authorities & Hauth).
  rewrite (signing_authority_spec _ _ _ Hauth Hpre) in Hs.
  apply outcome_bind_None in Hs as [?|(author & Ha%ok_or_Ok & Hs)]; [done|].
  apply (panic_author _ _ pre epoch authorities author); [done..|].
  apply step_None in Hs as [Hs|(key & _ & Hs)]; [by left|].
  destruct (verify_simple key label_substrate hash sig); cbn [negb] in Hs; [|done].
  apply outcome_bind_None in Hs as [Hs|([] & _ & Hs)]; [right; by eapply check_vrf_panics|].
  assert (authorities <> []) as Hne by (intros ->; done).
  destruct (check_secondary_spec epoch authorities pre Hauth Hne (bk_index _ _ _ _ Hok _ Hpre)) as (r & Hr & _).
  apply outcome_bind_None in Hs as [Hs|([] & _ & Hs)]; [congruence | done].
Qed.

End facts.
End spec.
