(* ===== verification/HeaderOnly.v ===== *)
(** * Verification of a header without its body ([src/src/verify/header_only.rs])

    The header must follow its parent and pass the verification of the consensus
    engine of the chain; it must have no item of the other engine. *)

From S2P Require Import Prelude Leb128 Scale Nibble TrieNode HeaderBase HeaderAura HeaderBabe HeaderGrandpa Header HeaderDigest ChainInformation VerifyBase VerifyAura VerifyBabe VerifyBabeSpec.

Open Scope Z_scope.

(** ** Data *)

Inductive ConfigConsensus :=
  | ConfigAura (current_authorities : AuraAuthoritiesIter) (slot_duration : u64) (now_from_unix_epoch : Duration)
  | ConfigBabe (slots_per_epoch : u64) (parent_block_epoch : option BabeEpochInformationRef)
      (parent_block_next_epoch : BabeEpochInformationRef) (now_from_unix_epoch : Duration).

Record Config := mkConfig {
  ho_parent_block_header : HeaderRef;
  ho_block_header : HeaderRef;
  ho_consensus : ConfigConsensus;
  ho_allow_unknown_consensus_engines : bool
}.

Inductive Success :=
  | SuccessAura (authorities_change : bool)
  | SuccessBabe (slot_number : u64) (epoch_transition_target : option BabeEpochInformation).

Inductive Error :=
  | NonSequentialBlockNumber
  | BadParentHash
  | UnknownConsensusEngine (engine : list u8)
  | MultipleConsensusEngines
  | AuraVerification (err : VerifyAura.VerifyError)
  | BabeVerification (err : VerifyBabe.VerifyError).

(** ** [verify] *)

Definition unknown_engine (item : DigestItemRef) : option (list u8) :=
  match item with
  | ItemUnknownConsensus engine _ | ItemUnknownSeal engine _ | ItemUnknownPreRuntime engine _ => Some engine
  | _ => None
  end.

Section header_only.
Context `{Platform} `{Nom} `{Blake2b} `{Schnorrkel} `{Powf}.

(** The arguments of [aura::verify_header] and [babe::verify_header]. *)
Definition aura_config (config : Config) (authorities : AuraAuthoritiesIter) (slot_duration : u64) (now : Duration)
    : VerifyAura.VerifyConfig :=
  VerifyAura.mkVerifyConfig (ho_block_header config) (ho_parent_block_header config) now authorities slot_duration.

Definition babe_config (config : Config) (slots_per_epoch : u64) (epoch : option BabeEpochInformationRef)
    (next_epoch : BabeEpochInformationRef) (now : Duration) : VerifyBabe.VerifyConfig :=
  VerifyBabe.mkVerifyConfig (ho_block_header config) (ho_parent_block_header config) now slots_per_epoch epoch
    next_epoch.

Definition outcome_map_err {E F A} (f : E -> F) (r : outcome E A) : outcome F A :=
  let! r := r in Some (map_err f r).

Definition verify_consensus (config : Config) : outcome Error Success :=
  match ho_consensus config with
  | ConfigAura current_authorities slot_duration now =>
      let! other := DigestRef_has_any_babe (hd_digest (ho_block_header config)) in
      if other : bool then Some (Err MultipleConsensusEngines)
      else
        let* s := outcome_map_err AuraVerification
          (VerifyAura.verify_header (aura_config config current_authorities slot_duration now)) in
        Some (Ok (SuccessAura (vs_authorities_change s)))
  | ConfigBabe slots_per_epoch parent_block_epoch parent_block_next_epoch now =>
      let! other := DigestRef_has_any_aura (hd_digest (ho_block_header config)) in
      if other : bool then Some (Err MultipleConsensusEngines)
      else
        let* s := outcome_map_err BabeVerification
          (VerifyBabe.verify_header
            (babe_config config slots_per_epoch parent_block_epoch parent_block_next_epoch now)) in
        Some (Ok (SuccessBabe (vs_slot_number s) (vs_epoch_transition_target s)))
  end.

Definition verify (config : Config) : outcome Error Success :=
  let! hash := HeaderRef_hash (ho_parent_block_header config) in
  if negb (bool_decide (hash = parent_hash (ho_block_header config))) then Some (Err BadParentHash)
  else if match checked_add 64 (hd_number (ho_parent_block_header config)) 1 with
          | None => true
          | Some v => negb (v =? hd_number (ho_block_header config))
          end
  then Some (Err NonSequentialBlockNumber)
  else
    let! engine :=
      if negb (ho_allow_unknown_consensus_engines config)
      then LogsIter_find_map unknown_engine (DigestRef_logs (hd_digest (ho_block_header config)))
      else Some None in
    match engine with
    | Some engine => Some (Err (UnknownConsensusEngine engine))
    | None => verify_consensus config
    end.

(** ** What is accepted *)

(** The header follows its parent. *)
Record linked (parent header : HeaderRef) : Prop := {
  lk_hash : HeaderRef_hash parent = Some (parent_hash header);
  lk_number : hd_number header = hd_number parent + 1;
  lk_bound : is_u64 (hd_number header)
}.

(** The item belongs to the other engine, or to an unknown one. *)
Definition foreign_item (config : Config) (item : DigestItemRef) : bool :=
  match ho_consensus config with
  | ConfigAura _ _ _ => DigestItemRef_is_babe item
  | ConfigBabe _ _ _ _ => DigestItemRef_is_aura item
  end
  || (negb (ho_allow_unknown_consensus_engines config) && bool_decide (is_Some (unknown_engine item))).

Definition authorship (config : Config) (items pitems : list DigestItemRef) (pslot : option u64) (s : Success) : Prop :=
  match ho_consensus config, s with
  | ConfigAura iter slot_duration now, SuccessAura change =>
      change = existsb is_authorities_change items /\
      exists authorities slot author, iter_collect iter = Some authorities /\
        aura_valid (aura_config config iter slot_duration now) items pitems authorities slot author
  | ConfigBabe spe epoch next now, SuccessBabe slot target =>
      exists pre e authorities author,
        babe_valid (babe_config config spe epoch next now) items pslot pre e authorities author target /\
        slot = slot_of pre
  | _, _ => False
  end.

(** The conditions on the caller, those on the numbers apart. *)
Definition config_ok (config : Config) (items pitems : list DigestItemRef) (pslot : option u64) : Prop :=
  match ho_consensus config with
  | ConfigAura iter slot_duration now =>
      exists authorities, aura_config_ok (aura_config config iter slot_duration now) items pitems authorities
  | ConfigBabe spe epoch next now =>
      hd_number (ho_block_header config) = hd_number (ho_parent_block_header config) + 1 ->
      babe_config_ok (babe_config config spe epoch next now) items pitems pslot
  end.

(** The cases in which the engine panics. *)
Definition engine_panic (config : Config) (items : list DigestItemRef) : Prop :=
  match ho_consensus config with
  | ConfigAura iter slot_duration now =>
      (exists l seal, items = l ++ [ItemAuraSeal seal] /\ hash_with_items (ho_block_header config) l = None) \/
      (exists authorities slot author, iter_collect iter = Some authorities /\
        first_of select_aura_pre_digest items = Some (mkAuraPreDigest slot) /\
        authorities !! Z.to_nat (slot `mod` len authorities) = Some author /\
        PublicKey_from_bytes (aura_public_key author) = None)
  | ConfigBabe spe epoch next now => babe_panic (babe_config config spe epoch next now) items
  end.

Section facts.
Context (config : Config) (items pitems : list DigestItemRef) (pslot : option u64).
Context (Hv : digest_view (hd_digest (ho_block_header config)) items).
Context (Hok : config_ok config items pitems pslot).

Lemma outcome_map_err_Ok {E F A} (f : E -> F) (r : outcome E A) a :
  outcome_map_err f r = Some (Ok a) <-> r = Some (Ok a).
Proof. destruct r as [[]|]; cbn; naive_solver. Qed.

Lemma outcome_map_err_None {E F A} (f : E -> F) (r : outcome E A) : outcome_map_err f r = None <-> r = None.
Proof. destruct r as [[]|]; cbn; naive_solver. Qed.

Lemma linked_check :
  is_u64 (hd_number (ho_block_header config)) ->
  match checked_add 64 (hd_number (ho_parent_block_header config)) 1 with
  | None => true
  | Some v => negb (v =? hd_number (ho_block_header config))
  end = false <-> hd_number (ho_block_header config) = hd_number (ho_parent_block_header config) + 1.
Proof.
  intros Hu. unfold checked_add. destruct (checked 64 _) as [v|] eqn:Hc.
  - apply checked_Some in Hc as [-> _]. rewrite negb_false_iff, Z.eqb_eq. lia.
  - apply checked_None in Hc. split; [done|]. intros Hn. rewrite <- Hn in Hc. done.
Qed.

Lemma verify_consensus_accepts s :
  hd_number (ho_block_header config) = hd_number (ho_parent_block_header config) + 1 ->
  verify_consensus config = Some (Ok s) <->
  existsb match ho_consensus config with
          | ConfigAura _ _ _ => DigestItemRef_is_babe
          | ConfigBabe _ _ _ _ => DigestItemRef_is_aura
          end items = false /\ authorship config items pitems pslot s.
Proof.
  intros Hnum. unfold verify_consensus, authorship, config_ok in *. pose proof (view_accessors _ _ Hv) as Hacc.
  destruct (ho_consensus config) as [iter dur now|spe epoch next now].
  - destruct Hok as (authorities & Hok'). rewrite (acc_any_babe _ _ Hacc).
    destruct (existsb DigestItemRef_is_babe items); [naive_solver|].
    rewrite outcome_bind_Ok. setoid_rewrite outcome_map_err_Ok.
    setoid_rewrite (aura_verify_accepts _ _ _ _ Hok').
    pose proof (aok_authorities _ _ _ _ Hok') as Hc. cbn [ac_current_authorities aura_config] in Hc.
    split.
    + intros ([c] & [Hch (slot & a & Ha)] & [= <-]). cbn in *. split; [done|]. split; [done|]. eauto 10.
    + intros (_ & Hs). destruct s as [change|]; [|done]. destruct Hs as (-> & l & slot & a & Hl & Ha).
      rewrite Hc in Hl. injection Hl as ->. eexists (VerifyAura.mkVerifySuccess _). split; [|done]. split; [done|]. eauto.
  - rewrite (acc_any_aura _ _ Hacc). destruct (existsb DigestItemRef_is_aura items); [naive_solver|].
    rewrite outcome_bind_Ok. setoid_rewrite outcome_map_err_Ok.
    setoid_rewrite (babe_verify_accepts _ _ _ _ (Hok Hnum)).
    split.
    + intros ([slot t] & Hs & [= <-]). cbn in Hs. split; [done|].
      destruct Hs as (pre & e & l & a & ? & ?). eauto 10.
    + intros (_ & Hs). destruct s as [|slot t]; [done|]. destruct Hs as (pre & e & l & a & ? & ->).
      eexists (VerifyBabe.mkVerifySuccess _ _). split; [|done]. cbn. eauto 10.
Qed.

Lemma verify_consensus_panics :
  hd_number (ho_block_header config) = hd_number (ho_parent_block_header config) + 1 ->
  verify_consensus config = None -> engine_panic config items.
Proof.
  intros Hnum. unfold verify_consensus, engine_panic, config_ok in *. pose proof (view_accessors _ _ Hv) as Hacc.
  destruct (ho_consensus config) as [iter dur now|spe epoch next now].
  - destruct Hok as (authorities & Hok'). rewrite (acc_any_babe _ _ Hacc).
    destruct (existsb DigestItemRef_is_babe items); [done|].
    intros [Hn%outcome_map_err_None|(s & _ & ?)]%outcome_bind_None; [|done].
    apply (aura_verify_panics _ _ _ _ Hok') in Hn as [?|(slot & a & ? & ? & ?)]; [by left|].
    right. exists authorities, slot, a. split; [|done]. by apply (aok_authorities _ _ _ _ Hok').
  - rewrite (acc_any_aura _ _ Hacc). destruct (existsb DigestItemRef_is_aura items); [done|].
    intros [Hn%outcome_map_err_None|(s & _ & ?)]%outcome_bind_None; [|done].
    by apply (babe_verify_panics _ _ _ _ (Hok Hnum)) in Hn.
Qed.

Lemma first_of_existsb {A} (f : DigestItemRef -> option A) (l : list DigestItemRef) :
  first_of f l = None <-> existsb (fun item => bool_decide (is_Some (f item))) l = false.
Proof.
  unfold first_of. induction l as [|item l IH]; [done|]. cbn [omap list_omap existsb].
  destruct (f item) eqn:Hf.
  - rewrite bool_decide_eq_true_2 by eauto. done.
  - rewrite bool_decide_eq_false_2 by (by intros [? ?]). exact IH.
Qed.

Lemma foreign_items :
  existsb (foreign_item config) items = false <->
  existsb match ho_consensus config with
          | ConfigAura _ _ _ => DigestItemRef_is_babe
          | ConfigBabe _ _ _ _ => DigestItemRef_is_aura
          end items = false /\
  (ho_allow_unknown_consensus_engines config = false -> first_of unknown_engine items = None).
Proof.
  rewrite first_of_existsb. unfold foreign_item. clear Hv Hok.
  induction items as [|item l IH]; [naive_solver|]. cbn [existsb].
  rewrite !orb_false_iff, IH.
  destruct (ho_consensus config), (ho_allow_unknown_consensus_engines config); cbn [negb andb]; naive_solver.
Qed.

Lemma verify_header_only_accepts s :
  is_u64 (hd_number (ho_block_header config)) ->
  verify config = Some (Ok s) <->
  linked (ho_parent_block_header config) (ho_block_header config) /\
  existsb (foreign_item config) items = false /\ authorship config items pitems pslot s.
Proof.
  intros Hu. rewrite foreign_items. pose proof (linked_check Hu) as Hlc. unfold verify.
  destruct (HeaderRef_hash (ho_parent_block_header config)) as [hash|] eqn:Hh.
  2:{ split; [done|]. intros [[? _ _] _]. congruence. }
  destruct (bool_decide_reflect (hash = parent_hash (ho_block_header config))) as [->|Hne]; cbn [negb].
  2:{ split; [done|]. intros [[? _ _] _]. congruence. }
  destruct (match checked_add 64 (hd_number (ho_parent_block_header config)) 1 with Some _ => _ | None => _ end) eqn:Hc.
  { split; [done|]. intros [[_ Hn _] _]. by apply Hlc in Hn. }
  clear Hc. pose proof (proj1 Hlc eq_refl) as Hc. pose proof (verify_consensus_accepts s Hc) as Hs.
  assert (linked (ho_parent_block_header config) (ho_block_header config)) as Hl by by split.
  destruct (ho_allow_unknown_consensus_engines config); cbn [negb]; [naive_solver|].
  rewrite (yields_find_map _ _ items) by apply Hv.
  destruct (first_of unknown_engine items); [|naive_solver]. split; [done|].
  intros (_ & (_ & Hn) & _). by specialize (Hn eq_refl).
Qed.

Lemma verify_header_only_panics :
  is_u64 (hd_number (ho_block_header config)) -> verify config = None ->
  HeaderRef_hash (ho_parent_block_header config) = None \/ engine_panic config items.
Proof.
  intros Hu. pose proof (linked_check Hu) as Hlc. unfold verify.
  destruct (HeaderRef_hash (ho_parent_block_header config)) as [hash|] eqn:Hh; [|by left].
  destruct (negb _); [done|].
  destruct (match checked_add 64 (hd_number (ho_parent_block_header config)) 1 with Some _ => _ | None => _ end) eqn:Hc;
    [done|].
  clear Hc. pose proof (proj1 Hlc eq_refl) as Hc. rewrite (yields_find_map _ _ items) by apply Hv.
  destruct (ho_allow_unknown_consensus_engines config); cbn [negb];
    [|destruct (first_of unknown_engine items); [done|]];
    intros Hn; right; by apply verify_consensus_panics.
Qed.

End facts.
End header_only.

(** ** The theorem *)

Section theorem.
Context `{Platform} `{Nom} `{Blake2b} `{Schnorrkel} `{Powf}.

(** C11: verifying a header without its body. It is accepted exactly when it follows its
    parent by hash and by number, has no item of another consensus engine, and its
    authorship is right. For Aura, its slot is later than that of its parent and starts at
    most 30 seconds after the clock, and the authority of the slot signed it. For Babe,
    its epoch is that of its parent or the next one, the epoch allows its claim, its
    author signed it and is entitled to the slot, and the epoch that it announces follows
    its own. The only panics are listed: a header that cannot be hashed, an epoch that
    cannot be represented, keys and proofs that cannot be parsed, and a threshold that
    cannot be computed. The condition on the configuration includes that the epochs follow
    each other and that the parent is before the next one; it fails for the children of a
    block that is late for its epoch, on which assertions of the source fail
    ([late_block_breaks_children]). Such a block is accepted: without an epoch change a
    block is in the epoch of its parent whatever its slot, although the source documents
    [MissingEpochChangeLog] for it. *)
Theorem header_verify_spec (config : Config) (items pitems : list DigestItemRef) (pslot : option u64) :
  digest_view (hd_digest (ho_block_header config)) items -> is_u64 (hd_number (ho_block_header config)) ->
  config_ok config items pitems pslot ->
  (forall s, verify config = Some (Ok s) <->
    linked (ho_parent_block_header config) (ho_block_header config) /\
    existsb (foreign_item config) items = false /\ authorship config items pitems pslot s) /\
  (verify config = None ->
    HeaderRef_hash (ho_parent_block_header config) = None \/ engine_panic config items).
Proof.
  intros Hv Hu Hok. split; [intros s; by apply verify_header_only_accepts | by apply (verify_header_only_panics config items pitems pslot)].
Qed.

End theorem.

(** ** Examples *)

Module Example.
#[local] Existing Instance platform64.
#[local] Existing Instance nom_complete.
#[local] Existing Instance toy_blake2b.
#[local] Existing Instance toy_schnorrkel.
#[local] Existing Instance toy_powf.

Definition key (k : u8) : list u8 := replicate 32 k.
Definition seal (k : u8) : list u8 := replicate 64 k.

Definition header (parent : list u8) (n : u64) (items : list DigestItem) : HeaderRef :=
  HeaderRef_from (mkHeader parent n (replicate 32 2) (replicate 32 3) (mkDigest items (indices_of (map item_kind items)))).
Definition hash_of (h : HeaderRef) : list u8 := default [] (HeaderRef_hash h).

Definition now : Duration := mkDuration 100 0.

(** *** Aura *)

Definition aura_parent : HeaderRef := header (replicate 32 9) 0 [].
Definition aura_items : list DigestItem :=
  [ItemAuraPreDigest (mkAuraPreDigest 21); ItemOther [1]; ItemAuraSeal (seal 6)].
Definition aura_example (slot_duration : u64) : Config :=
  mkConfig aura_parent (header (hash_of aura_parent) 1 aura_items)
    (ConfigAura (Listed [mkAuraAuthority (key 5); mkAuraAuthority (key 6)]) slot_duration now) false.

(** A slot is accepted until 30 seconds before its start. *)
Lemma aura_accepted :
  verify (aura_example 6190) = Some (Ok (SuccessAura false)) /\
  verify (aura_example 6191) = Some (Err (AuraVerification VerifyAura.TooFarInFuture)).
Proof. split; vm_compute; reflexivity. Qed.

Lemma header_verify_spec_witness :
  exists slot author, aura_valid (aura_config (aura_example 6190)
      (Listed [mkAuraAuthority (key 5); mkAuraAuthority (key 6)]) 6190 now)
    (map DigestItemRef_from aura_items) [] [mkAuraAuthority (key 5); mkAuraAuthority (key 6)] slot author.
Proof.
  destruct (header_verify_spec (aura_example 6190) (map DigestItemRef_from aura_items) [] None) as [Hs _].
  - apply view_parsed; [|reflexivity]. apply (@from_slice_view aura_items (mkDigestRef (Parsed aura_items) (indices_of (map item_kind aura_items)))).
    reflexivity.
  - vm_compute. split; [discriminate | reflexivity].
  - cbn [config_ok aura_example ho_consensus]. exists [mkAuraAuthority (key 5); mkAuraAuthority (key 6)].
    split; try (vm_compute; split; (discriminate || reflexivity)); try reflexivity.
    + apply view_parsed; [|reflexivity]. apply (@from_slice_view aura_items (mkDigestRef (Parsed aura_items) (indices_of (map item_kind aura_items)))).
      reflexivity.
    + apply (view_parsed []); [|reflexivity]. apply (@from_slice_view [] (mkDigestRef (Parsed []) empty_indices)). reflexivity.
    + split; [vm_compute; split; (discriminate || reflexivity) | vm_compute; split; (discriminate || reflexivity)].
  - destruct (proj1 (Hs (SuccessAura false)) (proj1 aura_accepted)) as (_ & _ & _ & l & slot & a & Hl & Ha).
    injection Hl as <-. by exists slot, a.
Defined.

(** *** Babe *)

Definition epoch (index start : u64) : BabeEpochInformationRef :=
  mkBabeEpochInformation index (Some start) (Listed [mkBabeAuthority (key 7) 1]) (replicate 32 0) (1, 4)
    PrimaryAndSecondaryPlainSlots.

Definition claim (slot : u64) : DigestItem := ItemBabePreDigest (SecondaryPlain (mkBabeSecondaryPlainPreDigest 0 slot)).
Definition epoch_change : DigestItem :=
  ItemBabeConsensus (NextEpochData (mkBabeNextEpoch [mkBabeAuthority (key 7) 1] (replicate 32 0))).

Definition babe_parent : HeaderRef := header (replicate 32 9) 5 [claim 15; ItemBabeSeal (seal 7)].
Definition babe_child (parent : HeaderRef) (items : list DigestItem) : HeaderRef :=
  header (hash_of parent) (hd_number parent + 1) (items ++ [ItemBabeSeal (seal 7)]).

Definition babe_example (parent block : HeaderRef) (current next : BabeEpochInformationRef) : Config :=
  mkConfig parent block (ConfigBabe 10 (Some current) next now) false.

(** Epochs 0 and 1 start at slots 10 and 20. A block at slot 25 without an epoch
    change is accepted as a block of epoch 0, although it is the first one of epoch
    1, which [MissingEpochChangeLog] is for; a block at slot 45 that announces epoch
    2 is accepted as a block of epoch 1, although epoch 2 starts at slot 30. In both cases
    the verification of a child of the block, with the epochs that are documented,
    fails an assertion. A first block of the chain with a slot near the end of the
    range does not even get that far: computing the start of the next epoch
    panics, before its signature is looked at. *)
Theorem late_block_breaks_children :
  (let block := babe_child babe_parent [claim 25] in
   verify (babe_example babe_parent block (epoch 0 10) (epoch 1 20)) = Some (Ok (SuccessBabe 25 None)) /\
   verify (babe_example block (babe_child block [claim 26]) (epoch 0 10) (epoch 1 20)) = None) /\
  (let block := babe_child babe_parent [claim 45; epoch_change] in
   exists target, verify (babe_example babe_parent block (epoch 0 10) (epoch 1 20)) = Some (Ok (SuccessBabe 45 (Some target))) /\
     BabeEpochInformationRef_from target = epoch 2 30 /\
     verify (babe_example block (babe_child block [claim 46]) (epoch 1 20) (epoch 2 30)) = None) /\
  (forall bytes, length bytes = 64%nat ->
   verify (mkConfig aura_parent
     (header (hash_of aura_parent) 1 [claim (2 ^ 64 - 1); epoch_change; ItemBabeSeal bytes])
     (ConfigBabe 10 None (mkBabeEpochInformation 0 None (Listed [mkBabeAuthority (key 7) 1]) (replicate 32 0) (1, 4)
       PrimaryAndSecondaryPlainSlots) now) false) = None).
Proof.
  split_and!; [split; vm_compute; reflexivity | eexists; split_and!; vm_compute; reflexivity |].
  intros bytes Hl. do 64 (destruct bytes as [|? bytes]; [done|]). destruct bytes; [|done].
  vm_compute. reflexivity.
Qed.

(** The keys and the proofs that are refused by the libraries, although they have
    the right length: what the comments on the [unwrap]s exclude. *)
Lemma unparsable_data_panics :
  verify (mkConfig aura_parent (header (hash_of aura_parent) 1 aura_items)
    (ConfigAura (Listed [mkAuraAuthority (key 255)]) 6000 now) false) = None /\
  verify (babe_example babe_parent
    (babe_child babe_parent [ItemBabePreDigest (Primary (mkBabePrimaryPreDigest 0 16 (replicate 32 0) (replicate 64 255)))])
    (epoch 0 10) (epoch 1 20)) = None.
Proof. split; vm_compute; reflexivity. Qed.

End Example.
