(* ===== verification/BlocksTree.v ===== *)
(** * The tree of the blocks that are not finalized ([src/src/chain/blocks_tree.rs]
    and [src/src/chain/blocks_tree/*.rs])

    The latest finalized block with the state of its consensus and of its finality,
    and a fork tree of its descendants: verifying a header and inserting it, the
    best block, and finality, by a justification, by a commit or without a proof.

    The key that the slab of the fork tree gives to a new block is an argument. The
    source puts the inner value in an [Option] in order to move it into the objects
    that an operation returns and back; the objects here have the value. *)

From S2P Require Import Prelude Leb128 Scale Nibble TrieNode BTree ForkTree ForkTreePrune HeaderBase HeaderAura HeaderBabe HeaderGrandpa Header HeaderDigest ChainInformation FinalityBase Justification JustificationVerify Commit CommitVerify VerifyBase VerifyBabe HeaderOnly.

Open Scope Z_scope.

(** ** Data *)

Inductive FinalizedConsensus :=
  | FinalizedUnknown
  | FinalizedAura (authorities_list : list AuraAuthority) (slot_duration : u64)
  | FinalizedBabe (block_epoch_information : option BabeEpochInformation)
      (next_epoch_transition : BabeEpochInformation) (slots_per_epoch : u64).

(** [enum Finality]. *)
Inductive Finality :=
  | FinalityOutsourced
  | FinalityGrandpa (after_finalized_block_authorities_set_id : u64)
      (finalized_triggered_authorities : list GrandpaAuthority)
      (finalized_scheduled_change : option (u64 * list GrandpaAuthority)).

Inductive BlockConsensus :=
  | BlockAura (authorities_list : list AuraAuthority)
  | BlockBabe (current_epoch : option BabeEpochInformation) (next_epoch : BabeEpochInformation).

Record Block (T : Type) := mkBlock {
  bl_header : Header;
  bl_hash : list u8;
  bl_consensus : BlockConsensus;
  bl_user_data : T
}.
Arguments mkBlock {T} _ _ _ _.
Arguments bl_header {T} _.
Arguments bl_hash {T} _.
Arguments bl_consensus {T} _.
Arguments bl_user_data {T} _.

(** [NonFinalizedTreeInner]. *)
Record NonFinalizedTree (T : Type) := mkNonFinalizedTree {
  finalized_block_header : Header;
  finalized_block_hash : list u8;
  finality : Finality;
  finalized_consensus : FinalizedConsensus;
  blocks : ForkTree (Block T);
  blocks_by_hash : gmap (list u8) NodeIndex;
  current_best : option NodeIndex;
  nt_block_number_bytes : usize;
  allow_unknown_consensus_engines : bool
}.
Arguments mkNonFinalizedTree {T} _ _ _ _ _ _ _ _ _.
Arguments finalized_block_header {T} _.
Arguments finalized_block_hash {T} _.
Arguments finality {T} _.
Arguments finalized_consensus {T} _.
Arguments blocks {T} _.
Arguments blocks_by_hash {T} _.
Arguments current_best {T} _.
Arguments nt_block_number_bytes {T} _.
Arguments allow_unknown_consensus_engines {T} _.

(** [blocks_capacity] only reserves memory. *)
Record TreeConfig := mkTreeConfig {
  tc_chain_information : ValidChainInformation;
  tc_block_number_bytes : usize;
  tc_allow_unknown_consensus_engines : bool
}.

(** [VerifyConsensusSpecific]. *)
Inductive VerifyConsensusSpecific :=
  | SpecificUnknown
  | SpecificAura (authorities_list : list AuraAuthority)
  | SpecificBabe (current_epoch : option BabeEpochInformation) (next_epoch : BabeEpochInformation).

Record VerifyContext (T : Type) := mkVerifyContext {
  vc_chain : NonFinalizedTree T;
  vc_parent_tree_index : option NodeIndex;
  vc_header : Header;
  vc_consensus : VerifyConsensusSpecific
}.
Arguments mkVerifyContext {T} _ _ _ _.
Arguments vc_chain {T} _.
Arguments vc_parent_tree_index {T} _.
Arguments vc_header {T} _.
Arguments vc_consensus {T} _.

Inductive HeaderVerifyError :=
  | HvInvalidHeader (err : HeaderBase.Error)
  | HvUnknownConsensusEngine
  | HvConsensusMismatch
  | HvBadParent (parent_hash : list u8)
  | HvVerificationFailed (err : HeaderOnly.Error).

(** [BodyVerifyStep1]. *)
Inductive BodyVerifyStep1 (T : Type) :=
  | Step1Duplicate (chain : NonFinalizedTree T)
  | Step1InvalidHeader (chain : NonFinalizedTree T) (err : HeaderBase.Error)
  | Step1BadParent (chain : NonFinalizedTree T) (parent_hash : list u8)
  | ParentRuntimeRequired (context : VerifyContext T) (now_from_unix_epoch : Duration).
Arguments Step1Duplicate {T} _.
Arguments Step1InvalidHeader {T} _ _.
Arguments Step1BadParent {T} _ _.
Arguments ParentRuntimeRequired {T} _ _.

Inductive VerifyOut (T : Type) :=
  | HeaderOk (context : VerifyContext T) (is_new_best : bool) (consensus : BlockConsensus)
  | HeaderErr (chain : NonFinalizedTree T) (err : HeaderVerifyError)
  | HeaderDuplicate (chain : NonFinalizedTree T)
  | BodyOut (step : BodyVerifyStep1 T).
Arguments HeaderOk {T} _ _ _.
Arguments HeaderErr {T} _ _.
Arguments HeaderDuplicate {T} _.
Arguments BodyOut {T} _.

(** [HeaderInsert] and [BodyInsert] have the same fields. *)
Record Insert (T : Type) := mkInsert {
  is_context : VerifyContext T;
  is_hash : list u8;
  is_is_new_best : bool;
  is_consensus : BlockConsensus
}.
Arguments mkInsert {T} _ _ _ _.
Arguments is_context {T} _.
Arguments is_hash {T} _.
Arguments is_is_new_best {T} _.
Arguments is_consensus {T} _.

(** [Result<HeaderVerifySuccess, HeaderVerifyError>], with the tree that is given
    back, or that the insertion has. *)
Inductive HeaderVerified (T : Type) :=
  | VerifiedErr (chain : NonFinalizedTree T) (err : HeaderVerifyError)
  | VerifiedDuplicate (chain : NonFinalizedTree T)
  | VerifiedInsert (block_height : u64) (is_new_best : bool) (insert : Insert T).
Arguments VerifiedErr {T} _ _.
Arguments VerifiedDuplicate {T} _.
Arguments VerifiedInsert {T} _ _ _.

(** [verify::header_body::SuccessConsensus]. *)
Inductive SuccessConsensus :=
  | ScAura (authorities_change : bool)
  | ScBabe (slot_number : u64) (epoch_transition_target : option BabeEpochInformation).

Inductive FinalityVerifyError :=
  | EqualToFinalized
  | EqualFinalizedHeightButInequalHash
  | BelowFinalized
  | UnknownTargetBlock (block_number : u64) (block_hash : list u8)
  | TooFarAhead (justification_block_number : u64) (justification_block_hash : list u8)
      (block_to_finalize_number : u64) (block_to_finalize_hash : list u8).

Inductive JustificationVerifyError :=
  | JustificationEngineMismatch
  | JvInvalidJustification (err : NomError)
  | JvVerificationFailed (err : JustificationVerify.Error)
  | JvFinalityVerify (err : FinalityVerifyError).

Inductive CommitVerifyError :=
  | NotGrandpa
  | InvalidCommit
  | CvFinalityVerify (err : FinalityVerifyError)
  | NotEnoughKnownBlocks (target_block_number : u64)
  | CvVerificationFailed (err : CommitVerify.Error).

Inductive SetFinalizedError := UnknownBlock.

(** ** Fields that are assigned *)

Section setters.
Context {T : Type}.
Implicit Types self : NonFinalizedTree T.

Definition with_blocks (b : ForkTree (Block T)) (h : gmap (list u8) NodeIndex) self : NonFinalizedTree T :=
  mkNonFinalizedTree (finalized_block_header self) (finalized_block_hash self) (finality self)
    (finalized_consensus self) b h (current_best self) (nt_block_number_bytes self)
    (allow_unknown_consensus_engines self).

Definition with_current_best (v : option NodeIndex) self : NonFinalizedTree T :=
  mkNonFinalizedTree (finalized_block_header self) (finalized_block_hash self) (finality self)
    (finalized_consensus self) (blocks self) (blocks_by_hash self) v (nt_block_number_bytes self)
    (allow_unknown_consensus_engines self).

Definition with_finality (v : Finality) self : NonFinalizedTree T :=
  mkNonFinalizedTree (finalized_block_header self) (finalized_block_hash self) v
    (finalized_consensus self) (blocks self) (blocks_by_hash self) (current_best self) (nt_block_number_bytes self)
    (allow_unknown_consensus_engines self).

Definition with_finalized (header : Header) (hash : list u8) (consensus : FinalizedConsensus) self : NonFinalizedTree T :=
  mkNonFinalizedTree header hash (finality self)
    consensus (blocks self) (blocks_by_hash self) (current_best self) (nt_block_number_bytes self)
    (allow_unknown_consensus_engines self).

End setters.

(** ** The best block ([best_block.rs]) *)

Section tree.
Context `{Platform} `{Nom} `{NomMulti} `{Blake2b} `{Schnorrkel} `{Powf} `{Ed25519}.
Context {T : Type}.

Definition block_score (header : HeaderRef) : option usize :=
  let! pr := DigestRef_babe_pre_runtime (hd_digest header) in
  Some (match pr with
        | Some pr => if BabePreDigestRef_is_primary pr then 1 else 0
        | None => 1
        end).

(** [iter.map(|i| block_score(&blocks.get(i).unwrap().header)).sum()]. *)
Fixpoint sum_scores (tree : ForkTree (Block T)) (acc : usize) (l : list NodeIndex) : option usize :=
  match l with
  | [] => Some acc
  | i :: l =>
      let! block := fork_get tree i in
      let! score := block_score (HeaderRef_from (bl_header block)) in
      sum_scores tree (wadd usize_bits acc score) l
  end.

Definition is_better_block (tree : ForkTree (Block T)) (old_best : NodeIndex) (maybe_new_best_parent : option NodeIndex)
    (maybe_new_best : HeaderRef) : option comparison :=
  let! descends :=
    match maybe_new_best_parent with
    | Some p_idx => is_ancestor tree old_best p_idx
    | None => Some false
    end in
  if descends : bool then Some Gt
  else
    let! (ascend, descend) :=
      match maybe_new_best_parent with
      | Some maybe_new_best_parent => ascend_and_descend tree old_best maybe_new_best_parent
      | None => let! path := node_to_root_path tree old_best in Some (path, [])
      end in
    let! curr_best_chain_score := sum_scores tree 0 ascend in
    let! candidate_score := block_score maybe_new_best in
    let! candidate_chain_score := sum_scores tree 0 descend in
    Some (Z.compare (wadd usize_bits candidate_chain_score candidate_score) curr_best_chain_score).

(** ** The tree ([blocks_tree.rs]) *)

Definition NonFinalizedTree_new (config : TreeConfig) : option (NonFinalizedTree T) :=
  let chain_information := valid_inner (tc_chain_information config) in
  let! hash := Header_hash (ci_finalized_block_header chain_information) in
  Some {|
    finalized_block_header := ci_finalized_block_header chain_information;
    finalized_block_hash := hash;
    finality :=
      match ci_finality chain_information with
      | Outsourced => FinalityOutsourced
      | Grandpa set_id authorities change => FinalityGrandpa set_id authorities change
      end;
    finalized_consensus :=
      match ci_consensus chain_information with
      | ConsensusUnknown => FinalizedUnknown
      | ConsensusAura authorities slot_duration => FinalizedAura authorities slot_duration
      | ConsensusBabe slots_per_epoch current next => FinalizedBabe current next slots_per_epoch
      end;
    blocks := ForkTree_new;
    blocks_by_hash := ∅;
    current_best := None;
    nt_block_number_bytes := tc_block_number_bytes config;
    allow_unknown_consensus_engines := tc_allow_unknown_consensus_engines config
  |}.

Definition tree_clear (self : NonFinalizedTree T) : NonFinalizedTree T :=
  with_current_best None (with_blocks (fork_clear (blocks self)) ∅ self).

Definition tree_is_empty (self : NonFinalizedTree T) : bool := fork_is_empty (blocks self).
Definition tree_len (self : NonFinalizedTree T) : usize := fork_len (blocks self).

Definition tree_iter_unordered (self : NonFinalizedTree T) : list HeaderRef :=
  (fun '(_, b) => HeaderRef_from (bl_header b)) <$> iter_unordered (blocks self).
Definition tree_iter_ancestry_order (self : NonFinalizedTree T) : option (list HeaderRef) :=
  let! l := iter_ancestry_order (blocks self) in Some ((fun '(_, b) => HeaderRef_from (bl_header b)) <$> l).

(** The consensus of the finalized block, as chain information. *)
Definition finalized_consensus_ref (self : NonFinalizedTree T) : ChainInformationConsensusRef :=
  match finalized_consensus self with
  | FinalizedUnknown => ConsensusUnknown
  | FinalizedAura authorities_list slot_duration =>
      ConsensusAura (AuraAuthoritiesIter_from_slice authorities_list) slot_duration
  | FinalizedBabe block_epoch_information next_epoch_transition slots_per_epoch =>
      ConsensusBabe slots_per_epoch (BabeEpochInformationRef_from <$> block_epoch_information)
        (BabeEpochInformationRef_from next_epoch_transition)
  end.

(** The last step is an [unwrap]. *)
Definition as_chain_information (self : NonFinalizedTree T) : option ValidChainInformationRef :=
  match ValidChainInformationRef_try_from {|
    ci_finalized_block_header := HeaderRef_from (finalized_block_header self);
    ci_consensus := finalized_consensus_ref self;
    ci_finality :=
      match finality self with
      | FinalityOutsourced => Outsourced
      | FinalityGrandpa set_id authorities change => Grandpa set_id authorities change
      end
  |} with
  | Ok v => Some v
  | Err _ => None
  end.

Definition best_block_header (self : NonFinalizedTree T) : option HeaderRef :=
  match current_best self with
  | Some index => let! b := fork_get (blocks self) index in Some (HeaderRef_from (bl_header b))
  | None => Some (HeaderRef_from (finalized_block_header self))
  end.

Definition best_block_hash (self : NonFinalizedTree T) : option (list u8) :=
  match current_best self with
  | Some index => let! b := fork_get (blocks self) index in Some (bl_hash b)
  | None => Some (finalized_block_hash self)
  end.

Definition best_block_consensus (self : NonFinalizedTree T) : option ChainInformationConsensusRef :=
  let! best :=
    match current_best self with
    | Some idx => let! b := fork_get (blocks self) idx in Some (Some (bl_consensus b))
    | None => Some None
    end in
  match finalized_consensus self, best with
  | FinalizedUnknown, _ => Some ConsensusUnknown
  | FinalizedAura authorities_list slot_duration, None
  | FinalizedAura _ slot_duration, Some (BlockAura authorities_list) =>
      Some (ConsensusAura (AuraAuthoritiesIter_from_slice authorities_list) slot_duration)
  | FinalizedBabe current next slots_per_epoch, None
  | FinalizedBabe _ _ slots_per_epoch, Some (BlockBabe current next) =>
      Some (ConsensusBabe slots_per_epoch (BabeEpochInformationRef_from <$> current) (BabeEpochInformationRef_from next))
  | _, _ => None
  end.

Definition contains_non_finalized_block (self : NonFinalizedTree T) (hash : list u8) : bool :=
  bool_decide (is_Some (blocks_by_hash self !! hash)).

(** [None] is a panic, [Some None] an unknown block. *)
Definition non_finalized_block_user_data (self : NonFinalizedTree T) (hash : list u8) : option (option T) :=
  match blocks_by_hash self !! hash with
  | None => Some None
  | Some node_index => let! b := fork_get (blocks self) node_index in Some (Some (bl_user_data b))
  end.

(** The index of the [BlockAccess]. *)
Definition non_finalized_block_by_hash (self : NonFinalizedTree T) (hash : list u8) : option NodeIndex :=
  blocks_by_hash self !! hash.

(** [BlockAccess::parent_block]: [Some None] is the [Err]. *)
Definition BlockAccess_parent_block (self : NonFinalizedTree T) (node_index : NodeIndex) : option (option NodeIndex) :=
  let! path := node_to_root_path (blocks self) node_index in Some (path !! 1%nat).

Definition set_user_data (v : T) (b : Block T) : Block T := mkBlock (bl_header b) (bl_hash b) (bl_consensus b) v.

(** An assignment through [into_user_data] or [user_data_mut]. *)
Definition BlockAccess_user_data_mut (self : NonFinalizedTree T) (node_index : NodeIndex) (v : T)
    : option (NonFinalizedTree T) :=
  let! tree := fork_get_mut (blocks self) node_index (set_user_data v) in
  Some (with_blocks tree (blocks_by_hash self) self).

(** ** Verification ([verify.rs]) *)

(** What the parent, or the finalized block, says about the consensus. *)
Definition parent_consensus (self : NonFinalizedTree T) (parent_tree_index : option NodeIndex)
    : option VerifyConsensusSpecific :=
  match parent_tree_index with
  | Some parent_tree_index =>
      let! b := fork_get (blocks self) parent_tree_index in
      Some (match bl_consensus b with
            | BlockAura authorities_list => SpecificAura authorities_list
            | BlockBabe current_epoch next_epoch => SpecificBabe current_epoch next_epoch
            end)
  | None =>
      Some (match finalized_consensus self with
            | FinalizedUnknown => SpecificUnknown
            | FinalizedAura authorities_list _ => SpecificAura authorities_list
            | FinalizedBabe block_epoch_information next_epoch_transition _ =>
                SpecificBabe block_epoch_information next_epoch_transition
            end)
  end.

Definition parent_header (self : NonFinalizedTree T) (parent_tree_index : option NodeIndex) : option Header :=
  match parent_tree_index with
  | Some parent_tree_index => let! b := fork_get (blocks self) parent_tree_index in Some (bl_header b)
  | None => Some (finalized_block_header self)
  end.

(** The consensus of the block that was verified. [todo!()] and [unreachable!()]
    are panics. *)
Definition success_consensus (context : VerifyContext T) (success : SuccessConsensus) : option BlockConsensus :=
  let! parent :=
    match vc_parent_tree_index context with
    | Some idx => let! b := fork_get (blocks (vc_chain context)) idx in Some (Some (bl_consensus b))
    | None => Some None
    end in
  match success, vc_consensus context, finalized_consensus (vc_chain context), parent with
  | ScAura authorities_change, SpecificAura parent_authorities, FinalizedAura _ _, _ =>
      if authorities_change then None else Some (BlockAura parent_authorities)
  | ScBabe slot_number (Some epoch_transition_target), SpecificBabe _ _, FinalizedBabe _ _ _,
      Some (BlockBabe _ next_epoch)
  | ScBabe slot_number (Some epoch_transition_target), SpecificBabe _ _, FinalizedBabe _ next_epoch _, None =>
      match start_slot_number next_epoch with
      | Some _ => Some (BlockBabe (Some next_epoch) epoch_transition_target)
      | None =>
          Some (BlockBabe
            (Some {| epoch_index := epoch_index next_epoch;
                     start_slot_number := Some slot_number;
                     ei_authorities := ei_authorities next_epoch;
                     ei_randomness := ei_randomness next_epoch;
                     ei_c := ei_c next_epoch;
                     ei_allowed_slots := ei_allowed_slots next_epoch |})
            epoch_transition_target)
      end
  | ScBabe _ None, SpecificBabe _ _, FinalizedBabe _ _ _, Some (BlockBabe current_epoch next_epoch)
  | ScBabe _ None, SpecificBabe _ _, FinalizedBabe current_epoch next_epoch _, None =>
      Some (BlockBabe current_epoch next_epoch)
  | _, _, _, _ => None
  end.

Definition apply_success_body (context : VerifyContext T) (success : SuccessConsensus)
    : option (bool * BlockConsensus) :=
  let! is_new_best :=
    match current_best (vc_chain context) with
    | Some current_best =>
        let! ordering := is_better_block (blocks (vc_chain context)) current_best (vc_parent_tree_index context)
          (HeaderRef_from (vc_header context)) in
        Some (match ordering with Gt => true | _ => false end)
    | None => Some true
    end in
  let! consensus := success_consensus context success in
  Some (is_new_best, consensus).

Definition apply_success_header (context : VerifyContext T) (success : HeaderOnly.Success)
    : option (bool * BlockConsensus) :=
  apply_success_body context
    (match success with
     | SuccessAura authorities_change => ScAura authorities_change
     | SuccessBabe slot_number epoch_transition_target => ScBabe slot_number epoch_transition_target
     end).

(** The configuration of the verification of the header, or the error. *)
Definition header_config_consensus (context : VerifyContext T) (now : Duration)
    : result HeaderVerifyError HeaderOnly.ConfigConsensus :=
  match finalized_consensus (vc_chain context), vc_consensus context with
  | FinalizedAura _ slot_duration, SpecificAura authorities_list =>
      Ok (ConfigAura (AuraAuthoritiesIter_from_slice authorities_list) slot_duration now)
  | FinalizedBabe _ _ slots_per_epoch, SpecificBabe current_epoch next_epoch =>
      Ok (ConfigBabe slots_per_epoch (BabeEpochInformationRef_from <$> current_epoch)
            (BabeEpochInformationRef_from next_epoch) now)
  | FinalizedUnknown, SpecificUnknown => Err HvUnknownConsensusEngine
  | _, _ => Err HvConsensusMismatch
  end.

Definition verify_header_only (context : VerifyContext T) (now : Duration) : option (VerifyOut T) :=
  let! parent := parent_header (vc_chain context) (vc_parent_tree_index context) in
  match header_config_consensus context now with
  | Err err => Some (HeaderErr (vc_chain context) err)
  | Ok consensus =>
      let! r := HeaderOnly.verify {|
        ho_parent_block_header := HeaderRef_from parent;
        ho_block_header := HeaderRef_from (vc_header context);
        ho_consensus := consensus;
        ho_allow_unknown_consensus_engines := allow_unknown_consensus_engines (vc_chain context)
      |} in
      match r with
      | Ok success =>
          let! (is_new_best, consensus) := apply_success_header context success in
          Some (HeaderOk context is_new_best consensus)
      | Err err => Some (HeaderErr (vc_chain context) (HvVerificationFailed err))
      end
  end.

(** [NonFinalizedTreeInner::verify]. *)
Definition tree_verify (self : NonFinalizedTree T) (scale_encoded_header : list u8) (now : Duration) (full : bool)
    : option (VerifyOut T) :=
  let! decoded := decode scale_encoded_header in
  match decoded with
  | Err err =>
      Some (if full then BodyOut (Step1InvalidHeader self err) else HeaderErr self (HvInvalidHeader err))
  | Ok decoded_header =>
      let hash := hash_from_scale_encoded_header scale_encoded_header in
      if bool_decide (is_Some (blocks_by_hash self !! hash)) then
        Some (if full then BodyOut (Step1Duplicate self) else HeaderDuplicate self)
      else
        match (if bool_decide (parent_hash decoded_header = finalized_block_hash self) then Some None
               else Some <$> blocks_by_hash self !! parent_hash decoded_header) with
        | None =>
            let parent_hash := parent_hash decoded_header in
            Some (if full then BodyOut (Step1BadParent self parent_hash)
                  else HeaderErr self (HvBadParent parent_hash))
        | Some parent_tree_index =>
            let! consensus := parent_consensus self parent_tree_index in
            let! header := Header_from decoded_header in
            let context := mkVerifyContext self parent_tree_index header consensus in
            if full then Some (BodyOut (ParentRuntimeRequired context now))
            else verify_header_only context now
        end
  end.

Definition tree_verify_header (self : NonFinalizedTree T) (scale_encoded_header : list u8) (now : Duration)
    : option (HeaderVerified T) :=
  let! out := tree_verify self scale_encoded_header now false in
  match out with
  | HeaderErr self err => Some (VerifiedErr self err)
  | HeaderOk context is_new_best consensus =>
      let! hash := Header_hash (vc_header context) in
      Some (VerifiedInsert (hd_number (vc_header context)) is_new_best (mkInsert context hash is_new_best consensus))
  | HeaderDuplicate self => Some (VerifiedDuplicate self)
  | BodyOut _ => None
  end.

Definition tree_verify_body (self : NonFinalizedTree T) (scale_encoded_header : list u8) (now : Duration)
    : option (BodyVerifyStep1 T) :=
  let! out := tree_verify self scale_encoded_header now true in
  match out with
  | BodyOut step => Some step
  | _ => None
  end.

(** The arm of [with_body_verify] for a body that was verified. *)
Definition body_verified (context : VerifyContext T) (success : SuccessConsensus) : option (Insert T) :=
  let! (is_new_best, consensus) := apply_success_body context success in
  let! hash := Header_hash (vc_header context) in
  Some (mkInsert context hash is_new_best consensus).

(** [HeaderInsert::insert] and [BodyInsert::insert]. *)
Definition Insert_insert (self : Insert T) (new_node_index : NodeIndex) (user_data : T) : option (NonFinalizedTree T) :=
  let chain := vc_chain (is_context self) in
  let! (new_node_index, tree) :=
    fork_insert (blocks chain) new_node_index (vc_parent_tree_index (is_context self))
      (mkBlock (vc_header (is_context self)) (is_hash self) (is_consensus self) user_data) in
  if bool_decide (is_Some (blocks_by_hash chain !! is_hash self)) then None
  else
    let chain := with_blocks tree (<[is_hash self := new_node_index]> (blocks_by_hash chain)) chain in
    Some (if is_is_new_best self then with_current_best (Some new_node_index) chain else chain).

Definition Insert_header (self : Insert T) : HeaderRef := HeaderRef_from (vc_header (is_context self)).

(** [HeaderInsert::into_header], and the destructor: the tree is given back. *)
Definition HeaderInsert_into_header (self : Insert T) : Header * NonFinalizedTree T :=
  (vc_header (is_context self), vc_chain (is_context self)).
(** [BodyInsert::abort] and [BodyVerifyRuntimeRequired::abort]. *)
Definition BodyInsert_abort (self : Insert T) : NonFinalizedTree T := vc_chain (is_context self).
Definition RuntimeRequired_abort (context : VerifyContext T) : NonFinalizedTree T := vc_chain context.

(** The ancestors of a block being verified. *)
Definition context_parent_block (context : VerifyContext T) : option NodeIndex := vc_parent_tree_index context.

Definition context_nth_ancestor (context : VerifyContext T) (n : u64) : option (option NodeIndex) :=
  match vc_parent_tree_index context, checked usize_bits n with
  | Some parent_index, Some n =>
      let! path := node_to_root_path (blocks (vc_chain context)) parent_index in Some (path !! Z.to_nat n)
  | _, _ => Some None
  end.

Definition context_num_non_finalized_ancestors (context : VerifyContext T) : option u64 :=
  match vc_parent_tree_index context with
  | None => Some 0
  | Some p => let! path := node_to_root_path (blocks (vc_chain context)) p in checked 64 (len path)
  end.

(** ** Finality ([finality.rs]) *)

Definition select_grandpa (item : DigestItemRef) : option GrandpaConsensusLogRef :=
  match item with ItemGrandpaConsensus gp => Some gp | _ => None end.

(** [header.digest.logs().filter_map(..)]. *)
Definition grandpa_logs (header : Header) : option (list GrandpaConsensusLogRef) :=
  let! items := LogsIter_collect (Digest_logs (hd_digest header)) in Some (omap select_grandpa items).

(** A scheduled change of the header triggers at the height [number]. *)
Fixpoint triggers_at (header_number number : u64) (logs : list GrandpaConsensusLogRef) : option bool :=
  match logs with
  | [] => Some false
  | ScheduledChange change :: logs =>
      let! trigger_block_height := checked_add 64 header_number (change_delay change) in
      if trigger_block_height =? number then Some true else triggers_at header_number number logs
  | _ :: logs => triggers_at header_number number logs
  end.

Fixpoint path_triggers_at (tree : ForkTree (Block T)) (number : u64) (path : list NodeIndex) : option bool :=
  match path with
  | [] => Some false
  | ancestor :: path =>
      let! b := fork_get tree ancestor in
      let! logs := grandpa_logs (bl_header b) in
      let! t := triggers_at (hd_number (bl_header b)) number logs in
      if t : bool then Some true else path_triggers_at tree number path
  end.

(** The closure of [filter]. *)
Definition is_checkpoint (tree : ForkTree (Block T)) (scheduled : option u64) (node_index : NodeIndex) (block : Block T)
    : option bool :=
  if bool_decide (scheduled = Some (hd_number (bl_header block))) then Some true
  else
    let! path := root_to_node_path tree node_index in
    path_triggers_at tree (hd_number (bl_header block)) path.

Fixpoint filter_checkpoints (tree : ForkTree (Block T)) (scheduled : option u64) (l : list (NodeIndex * Block T))
    : option (list (u64 * list u8)) :=
  match l with
  | [] => Some []
  | (node_index, block) :: l =>
      let! c := is_checkpoint tree scheduled node_index block in
      let! rest := filter_checkpoints tree scheduled l in
      Some (if c : bool then (hd_number (bl_header block), bl_hash block) :: rest else rest)
  end.

Definition finality_checkpoints (self : NonFinalizedTree T) : option (list (u64 * list u8)) :=
  match finality self with
  | FinalityOutsourced => Some []
  | FinalityGrandpa _ _ finalized_scheduled_change =>
      filter_checkpoints (blocks self) (fst <$> finalized_scheduled_change) (iter_unordered (blocks self))
  end.

(** The loop on the logs of a header for [would_happen]: a second scheduled change
    panics. *)
Fixpoint next_trigger (header_number : u64) (trigger_height : option u64) (logs : list GrandpaConsensusLogRef)
    : option (option u64) :=
  match logs with
  | [] => Some trigger_height
  | ScheduledChange change :: logs =>
      let! trigger_block_height := checked_add 64 header_number (change_delay change) in
      match trigger_height with
      | Some _ => None
      | None => next_trigger header_number (Some trigger_block_height) logs
      end
  | _ :: logs => next_trigger header_number trigger_height logs
  end.

Fixpoint would_happen (tree : ForkTree (Block T)) (trigger_height : option u64) (path : list NodeIndex)
    : option (option u64) :=
  match path with
  | [] => Some trigger_height
  | node :: path =>
      let! b := fork_get tree node in
      let! logs := grandpa_logs (bl_header b) in
      let! trigger_height := next_trigger (hd_number (bl_header b)) trigger_height logs in
      would_happen tree trigger_height path
  end.

(** [.find_map(..)] on the path to the root: the hash of the block at a height. *)
Fixpoint find_at_height (tree : ForkTree (Block T)) (number : u64) (path : list NodeIndex) : option (option (list u8)) :=
  match path with
  | [] => Some None
  | b :: path =>
      let! b := fork_get tree b in
      if hd_number (bl_header b) =? number then Some (Some (bl_hash b)) else find_at_height tree number path
  end.

Definition earliest (a b : option u64) : option u64 :=
  match a, b with
  | Some a, Some b => Some (Z.min a b)
  | Some a, None => Some a
  | None, Some b => Some b
  | None, None => None
  end.

(** [panic!()] if the finality is outsourced. *)
Definition verify_grandpa_finality (self : NonFinalizedTree T) (target_hash : list u8) (target_number : u64)
    : outcome FinalityVerifyError (NodeIndex * u64 * list (list u8)) :=
  match finality self with
  | FinalityOutsourced => None
  | FinalityGrandpa set_id finalized_triggered_authorities finalized_scheduled_change =>
      if target_number =? hd_number (finalized_block_header self) then
        Some (Err (if bool_decide (target_hash = finalized_block_hash self) then EqualToFinalized
                   else EqualFinalizedHeightButInequalHash))
      else if target_number <? hd_number (finalized_block_header self) then Some (Err BelowFinalized)
      else
        let* block_index :=
          Some (ok_or (blocks_by_hash self !! target_hash) (UnknownTargetBlock target_number target_hash)) in
        let! path := root_to_node_path (blocks self) block_index in
        let! would := would_happen (blocks self) None path in
        let earliest_trigger := earliest (fst <$> finalized_scheduled_change) would in
        match (match earliest_trigger with
               | Some t => if t <? target_number then Some t else None
               | None => None
               end) with
        | Some earliest_trigger =>
            let! path := node_to_root_path (blocks self) block_index in
            let! hash := find_at_height (blocks self) earliest_trigger path in
            let! hash := hash in
            Some (Err (TooFarAhead target_number target_hash earliest_trigger hash))
        | None =>
            let authorities_list :=
              match finalized_scheduled_change with
              | Some (trigger_height, list) =>
                  if trigger_height <? target_number then list else finalized_triggered_authorities
              | None => finalized_triggered_authorities
              end in
            Some (Ok (block_index, set_id, grandpa_public_key <$> authorities_list))
        end
  end.

(** The node that [FinalityApply] finalizes. *)
Definition tree_verify_justification (self : NonFinalizedTree T) (consensus_engine_id scale_encoded_justification : list u8)
    : outcome JustificationVerifyError NodeIndex :=
  match finality self with
  | FinalityGrandpa _ _ _ =>
      if bool_decide (consensus_engine_id = engine_grandpa) then
        let* decoded := outcome_map_err JvInvalidJustification
          (decode_grandpa scale_encoded_justification (nt_block_number_bytes self)) in
        let* (block_index, authorities_set_id, authorities_list) := outcome_map_err JvFinalityVerify
          (verify_grandpa_finality self (jr_target_hash decoded) (jr_target_number decoded)) in
        let* _ := outcome_map_err JvVerificationFailed (JustificationVerify.verify {|
          JustificationVerify.cf_justification := decoded;
          JustificationVerify.cf_block_number_bytes := nt_block_number_bytes self;
          JustificationVerify.cf_authorities_set_id := authorities_set_id;
          JustificationVerify.cf_authorities_list := authorities_list
        |}) in
        Some (Ok block_index)
      else Some (Err JustificationEngineMismatch)
  | FinalityOutsourced => Some (Err JustificationEngineMismatch)
  end.

(** The loop on the questions of the verification of a commit. *)
Fixpoint commit_loop (fuel : nat) (self : NonFinalizedTree T) (block_index : NodeIndex) (target_number : u64)
    (authorities_list : list (list u8)) (verification : InProgress) : outcome CommitVerifyError NodeIndex :=
  match fuel with
  | O => None
  | S fuel =>
      match verification with
      | Finished (Ok tt) => Some (Ok block_index)
      | FinishedUnknown => Some (Err (NotEnoughKnownBlocks target_number))
      | Finished (Err error) => Some (Err (CvVerificationFailed error))
      | IsAuthority is_authority =>
          let! to_find := IsAuthority_authority_public_key is_authority in
          let result := existsb (fun a => bool_decide (a = to_find)) authorities_list in
          let! verification := IsAuthority_resume is_authority result in
          commit_loop fuel self block_index target_number authorities_list verification
      | IsParent is_parent _ =>
          let! hash := IsParent_block_hash is_parent in
          match blocks_by_hash self !! hash with
          | Some idx =>
              let! result := is_ancestor (blocks self) block_index idx in
              let! verification := IsParent_resume is_parent (Some result) in
              commit_loop fuel self block_index target_number authorities_list verification
          | None =>
              let! verification := IsParent_resume is_parent None in
              commit_loop fuel self block_index target_number authorities_list verification
          end
      end
  end.

(** There are at most two questions for each vote. *)
Definition tree_verify_grandpa_commit_message (self : NonFinalizedTree T) (message : list u8)
    : outcome CommitVerifyError NodeIndex :=
  match finality self with
  | FinalityOutsourced => Some (Err NotGrandpa)
  | FinalityGrandpa _ _ _ =>
      let* decoded_commit := outcome_map_err (fun _ => InvalidCommit)
        (decode_grandpa_commit message (nt_block_number_bytes self)) in
      let target_number := cc_target_number (cm_message decoded_commit) in
      let* (block_index, expected_authorities_set_id, authorities_list) := outcome_map_err CvFinalityVerify
        (verify_grandpa_finality self (cc_target_hash (cm_message decoded_commit)) target_number) in
      let! num_authorities := checked 32 (len authorities_list) in
      let! verification := CommitVerify.verify {|
        CommitVerify.cf_commit := message;
        CommitVerify.cf_block_number_bytes := nt_block_number_bytes self;
        CommitVerify.cf_expected_authorities_set_id := expected_authorities_set_id;
        CommitVerify.cf_num_authorities := num_authorities
      |} in
      commit_loop (S (2 * length (cc_precommits (cm_message decoded_commit)))) self block_index target_number
        authorities_list verification
  end.

(** *** Setting the finalized block *)

(** The state of the loop: the set identifier, the triggered authorities and the
    scheduled change. *)
Definition grandpa_state : Type := u64 * list GrandpaAuthority * option (u64 * list GrandpaAuthority).

Fixpoint apply_changes (new_height header_number : u64) (st : grandpa_state) (logs : list GrandpaConsensusLogRef)
    : option grandpa_state :=
  match logs with
  | [] => Some st
  | ScheduledChange change :: logs =>
      let '(set_id, triggered, scheduled) := st in
      let! trigger_block_height := checked_add 64 header_number (change_delay change) in
      let! authorities := iter_collect (next_authorities change) in
      apply_changes new_height header_number
        (if new_height <? trigger_block_height
         then (set_id, triggered, Some (trigger_block_height, authorities))
         else (wadd 64 set_id 1, authorities, scheduled)) logs
  | _ :: logs => apply_changes new_height header_number st logs
  end.

Fixpoint apply_path (tree : ForkTree (Block T)) (new_height : u64) (st : grandpa_state) (path : list NodeIndex)
    : option grandpa_state :=
  match path with
  | [] => Some st
  | node :: path =>
      let! b := fork_get tree node in
      let! logs := grandpa_logs (bl_header b) in
      let! st := apply_changes new_height (hd_number (bl_header b)) st logs in
      apply_path tree new_height st path
  end.

(** The scheduled change is reset before the loop. *)
Definition update_finality (self : NonFinalizedTree T) (block_index : NodeIndex) (new_height : u64) : option Finality :=
  match finality self with
  | FinalityOutsourced => Some FinalityOutsourced
  | FinalityGrandpa set_id triggered _ =>
      let! path := root_to_node_path (blocks self) block_index in
      let! (set_id, triggered, scheduled) := apply_path (blocks self) new_height (set_id, triggered, None) path in
      Some (FinalityGrandpa set_id triggered scheduled)
  end.

(** The scan for the best block among the strict descendants of a block. *)
Fixpoint find_new_best (tree : ForkTree (Block T)) (block_index : NodeIndex) (new_best_block : option NodeIndex)
    (l : list (NodeIndex * Block T)) : option (option NodeIndex) :=
  match l with
  | [] => Some new_best_block
  | (idx, block) :: l =>
      let! skip :=
        if idx =? block_index then Some true
        else let! a := is_ancestor tree block_index idx in Some (negb a) in
      if skip : bool then find_new_best tree block_index new_best_block l
      else
        let! replace :=
          match new_best_block with
          | Some new_best_block =>
              let! parent := fork_parent tree idx in
              let! ordering := is_better_block tree new_best_block parent (HeaderRef_from (bl_header block)) in
              Some (match ordering with Gt => true | _ => false end)
          | None => Some true
          end in
        find_new_best tree block_index (if replace : bool then Some idx else new_best_block) l
  end.

(** The best block after the finalization, and whether it changes. *)
Definition update_best (self : NonFinalizedTree T) (block_index : NodeIndex) : option (option NodeIndex * bool) :=
  let! best := current_best self in
  let! update :=
    if block_index =? best then Some true
    else let! a := is_ancestor (blocks self) block_index best in Some (negb a) in
  if update : bool then
    let! new_best := find_new_best (blocks self) block_index None (iter_unordered (blocks self)) in
    Some (new_best, true)
  else Some (current_best self, false).

Definition update_consensus (self : NonFinalizedTree T) (new : BlockConsensus) : option FinalizedConsensus :=
  match finalized_consensus self, new with
  | FinalizedAura _ slot_duration, BlockAura new_list => Some (FinalizedAura new_list slot_duration)
  | FinalizedBabe _ _ slots_per_epoch, BlockBabe current_epoch next_epoch =>
      Some (FinalizedBabe current_epoch next_epoch slots_per_epoch)
  | _, _ => None
  end.

Definition swap_header (header : Header) (b : Block T) : Block T :=
  mkBlock header (bl_hash b) (bl_consensus b) (bl_user_data b).

(** [SetFinalizedBlockIter], driven to its end as its destructor does: the hashes of
    the blocks that are pruned, and the user data of those that it yields. *)
Fixpoint finalized_iter (by_hash : gmap (list u8) NodeIndex) (l : list (PrunedNode (Block T)))
    : list T * gmap (list u8) NodeIndex :=
  match l with
  | [] => ([], by_hash)
  | pruned :: l =>
      let '(yielded, by_hash) := finalized_iter (delete (bl_hash (pn_user_data pruned)) by_hash) l in
      (if pn_is_prune_target_ancestor pruned then bl_user_data (pn_user_data pruned) :: yielded else yielded, by_hash)
  end.

(** [NonFinalizedTreeInner::set_finalized_block], with the iterator driven to its
    end: the tree, the user data that are yielded, and [updates_best_block]. *)
Definition set_finalized_inner (self : NonFinalizedTree T) (block_index_to_finalize : NodeIndex)
    : option (NonFinalizedTree T * list T * bool) :=
  let! b := fork_get (blocks self) block_index_to_finalize in
  let! finality := update_finality self block_index_to_finalize (hd_number (bl_header b)) in
  let! (new_best, updates_best_block) := update_best self block_index_to_finalize in
  let! consensus := update_consensus self (bl_consensus b) in
  let! tree := fork_get_mut (blocks self) block_index_to_finalize (swap_header (finalized_block_header self)) in
  let! hash := Header_hash (bl_header b) in
  let! (pruned, tree) := prune_ancestors tree block_index_to_finalize in
  let '(yielded, by_hash) := finalized_iter (blocks_by_hash self) pruned in
  Some (with_blocks tree by_hash (with_current_best new_best
          (with_finality finality (with_finalized (bl_header b) hash consensus self))), yielded, updates_best_block).

Definition tree_set_finalized_block (self : NonFinalizedTree T) (block_hash : list u8)
    : outcome SetFinalizedError (NonFinalizedTree T * list T * bool) :=
  match blocks_by_hash self !! block_hash with
  | None => Some (Err UnknownBlock)
  | Some block_index => let! r := set_finalized_inner self block_index in Some (Ok r)
  end.

(** [FinalityApply::apply], [block_user_data] and [is_current_best_block]. *)
Definition FinalityApply_apply (chain : NonFinalizedTree T) (to_finalize : NodeIndex)
    : option (NonFinalizedTree T * list T * bool) :=
  set_finalized_inner chain to_finalize.
Definition FinalityApply_block_user_data (chain : NonFinalizedTree T) (to_finalize : NodeIndex) : option T :=
  let! b := fork_get (blocks chain) to_finalize in Some (bl_user_data b).
Definition FinalityApply_is_current_best_block (chain : NonFinalizedTree T) (to_finalize : NodeIndex) : bool :=
  bool_decide (Some to_finalize = current_best chain).

End tree.
