(* ===== verification/BlocksTreeBest.v ===== *)
(** * The best block of the tree ([src/src/chain/blocks_tree/best_block.rs])

    The score of a chain is the sum of the scores of its blocks. [is_better_block]
    compares the two branches after their common ancestor; this is the comparison
    of the whole chains, except that a descendant of a block is always better. The
    best block is then a leaf whose chain has the greatest score: this holds after
    the insertion of a block, for the scan that follows a finalization, and when
    the blocks that are not below the new finalized one are removed. *)

From S2P Require Import Prelude BTree ForkTree ForkTreePrune ForkTreeFacts HeaderBase HeaderBabe Header BlocksTree.

Open Scope Z_scope.

(** ** Sums *)

(** A list of distinct keys is not longer than the range of the keys. *)
Lemma NoDup_range (n : Z) (l : list Z) : NoDup l -> (forall k, k ∈ l -> 0 <= k < n) -> l <> [] -> len l <= n.
Proof.
  intros Hnd Hr Hne. assert (0 < n) as Hn. { destruct l as [|x l]; [done|]. pose proof (Hr x ltac:(by left)). lia. }
  assert (l ⊆+ seqZ 0 n) as Hs.
  { apply NoDup_submseteq; [done|]. intros k Hk. apply elem_of_seqZ. apply Hr in Hk. lia. }
  apply submseteq_length in Hs. rewrite length_seqZ in Hs. unfold len. lia.
Qed.

Section best.
Context `{Platform} `{Nom}.
Context {T : Type}.
Implicit Types t : ForkTree (Block T).

Definition wf t : Prop := exists f, fork_rep t f.

(** The score of a block, when it can be computed. *)
Definition score_of (b : Block T) : Z := default 0 (block_score (HeaderRef_from (bl_header b))).
Definition scored t : Prop :=
  forall k b, fork_get t k = Some b -> is_Some (block_score (HeaderRef_from (bl_header b))).

(** The keys of the slab: the greatest index is not one of them. *)
Definition keys_ok t : Prop := forall k, is_Some (fork_get t k) -> 0 <= k < 2 ^ usize_bits - 1.

Definition score_at t (k : NodeIndex) : Z := from_option score_of 0 (fork_get t k).
Definition chain_score t (l : list NodeIndex) : Z := foldr (fun k acc => score_at t k + acc) 0 l.

(** The score of the chain that ends at a block. *)
Definition total t (k : NodeIndex) : Z := from_option (chain_score t) 0 (node_to_root_path t k).
Definition total_opt t (k : option NodeIndex) : Z := from_option (total t) 0 k.

Lemma block_score_range h s : block_score h = Some s -> 0 <= s <= 1.
Proof.
  unfold block_score. destruct (DigestRef_babe_pre_runtime _) as [[pr|]|]; [|intros [= <-]; lia|done].
  destruct (BabePreDigestRef_is_primary pr); intros [= <-]; lia.
Qed.

Lemma score_of_range b : 0 <= score_of b <= 1.
Proof. unfold score_of. destruct (block_score _) eqn:E; cbn; [by eapply block_score_range|lia]. Qed.

Lemma score_at_range t k : 0 <= score_at t k <= 1.
Proof. unfold score_at. destruct (fork_get t k); cbn; [apply score_of_range|lia]. Qed.

Lemma chain_score_app t l1 l2 : chain_score t (l1 ++ l2) = chain_score t l1 + chain_score t l2.
Proof. unfold chain_score. induction l1 as [|k l1 IH]; cbn [app foldr]; [lia|]. rewrite IH. lia. Qed.

Lemma chain_score_rev t l : chain_score t (rev l) = chain_score t l.
Proof.
  induction l as [|k l IH]; [done|]. cbn [rev]. rewrite chain_score_app, IH. unfold chain_score. cbn [foldr]. lia.
Qed.

Lemma chain_score_range t l : 0 <= chain_score t l <= len l.
Proof.
  induction l as [|k l IH]; cbn [chain_score foldr]; [done|].
  fold (chain_score t l). rewrite len_cons. pose proof (score_at_range t k). lia.
Qed.

Lemma sum_scores_spec t acc l :
  scored t -> (forall k, k ∈ l -> is_Some (fork_get t k)) -> 0 <= acc -> acc + len l < 2 ^ usize_bits ->
  sum_scores t acc l = Some (acc + chain_score t l).
Proof.
  intros Hs. revert acc. induction l as [|k l IH]; intros acc Hall Hacc Hb; cbn [sum_scores chain_score foldr].
  { f_equal. lia. }
  rewrite len_cons in Hb. fold (chain_score t l). pose proof (len_nonneg l).
  destruct (Hall k ltac:(by left)) as [b Hb']. rewrite Hb'. destruct (Hs k b Hb') as [s E].
  rewrite E. assert (score_at t k = s) as ->. { unfold score_at, score_of. rewrite Hb'. cbn. by rewrite E. }
  pose proof (block_score_range _ _ E). unfold wadd. rewrite wrap_small by (unfold is_uint; lia).
  rewrite IH; [f_equal; lia | | lia | lia]. intros j Hj. apply Hall. by right.
Qed.

(** ** The score of a chain *)

Lemma total_step t k p :
  wf t -> fork_parent t k = Some p -> total t k = score_at t k + total_opt t p.
Proof.
  intros Hwf Hp. assert (is_Some (fork_get t k)) as Hk by (apply fork_get_parent; eauto).
  destruct (fork_path t k Hwf Hk) as (l & Hl & _ & _ & Hpar). rewrite Hp in Hpar. unfold total at 1. rewrite Hl.
  cbn [from_option chain_score foldr]. fold (chain_score t l).
  destruct p as [p|]; [destruct Hpar as [_ Hl'] | subst l; done]. cbn [total_opt from_option]. unfold total. by rewrite Hl'.
Qed.

Lemma total_range t k : 0 <= total t k.
Proof. unfold total. destruct (node_to_root_path t k); cbn; [|lia]. pose proof (chain_score_range t l). lia. Qed.

Lemma total_opt_range t k : 0 <= total_opt t k.
Proof. destruct k; cbn; [apply total_range|lia]. Qed.

(** A chain that is longer does not have a lower score. *)
Lemma total_ancestor t a k : wf t -> is_ancestor t a k = Some true -> total t a <= total t k.
Proof.
  intros Hwf Ha. assert (Hk : is_Some (fork_get t k)) by (by eapply ancestor_get). revert k Hk Ha.
  apply (node_ind t (fun k => is_ancestor t a k = Some true -> total t a <= total t k) Hwf).
  - intros k Hk Ha. apply ancestor_step in Ha as [->|(q & Hq & _)]; [lia|congruence|done|apply fork_get_parent; eauto].
  - intros k p Hk IH Ha. apply ancestor_step in Ha as [->|(q & Hq & Ha)]; [lia| |done|apply fork_get_parent; eauto].
    assert (q = p) as -> by congruence. rewrite (total_step t k _ Hwf Hk). cbn. pose proof (score_at_range t k).
    specialize (IH Ha). lia.
Qed.

(** The strict descendants of a block are below one of its children. *)
Lemma strict_ancestor_parent t a k p :
  wf t -> fork_parent t k = Some p -> is_ancestor t a k = Some true -> a <> k ->
  exists q, p = Some q /\ is_ancestor t a q = Some true.
Proof.
  intros Hwf Hp Ha Hne. apply ancestor_step in Ha as [->|(q & Hq & Ha)]; [done| |done|apply fork_get_parent; eauto].
  assert (p = Some q) as -> by congruence. eauto.
Qed.

Lemma wf_nodes t k : nodes t !! k = None <-> fork_get t k = None.
Proof. symmetry. apply fork_get_None. Qed.

Lemma path_length t l k :
  wf t -> keys_ok t -> node_to_root_path t k = Some l -> is_Some (fork_get t k) -> len l <= 2 ^ usize_bits - 1.
Proof.
  intros Hwf Hkeys Hl Hk. destruct (fork_path t k Hwf Hk) as (l' & Hl' & _ & Hall & _).
  assert (l = k :: l') as -> by congruence. apply NoDup_range; [by eapply path_nodup | | done].
  intros j Hj. apply Hkeys. by apply Hall.
Qed.

(** The block descends from the old best one. *)
Definition descends t (old : NodeIndex) (par : option NodeIndex) : Prop :=
  exists p, par = Some p /\ is_ancestor t old p = Some true.

Lemma keys_ok_max t : keys_ok t -> nodes t !! (2 ^ usize_bits - 1) = None.
Proof.
  intros Hkeys. apply wf_nodes. destruct (fork_get t (2 ^ usize_bits - 1)) eqn:E; [|done].
  assert (is_Some (fork_get t (2 ^ usize_bits - 1))) as Hs by eauto. apply Hkeys in Hs. lia.
Qed.

(** [is_better_block] compares the scores of the chains. *)
Lemma is_better_block_spec t old par h s :
  wf t -> scored t -> keys_ok t -> is_Some (fork_get t old) -> (forall p, par = Some p -> is_Some (fork_get t p)) ->
  block_score h = Some s ->
  exists c, is_better_block t old par h = Some c /\
    ((descends t old par /\ c = Gt) \/ (~ descends t old par /\ c = (total_opt t par + s ?= total t old))).
Proof.
  intros Hwf Hsc Hkeys Hold Hpar Hs. pose proof (block_score_range _ _ Hs). unfold is_better_block.
  destruct (fork_path t old Hwf Hold) as (lo & Hlo & Hanc & Hall & _).
  pose proof (path_length t _ _ Hwf Hkeys Hlo Hold) as Hlen.
  pose proof (keys_ok_max t Hkeys) as Hmax. destruct par as [p|].
  - specialize (Hpar p eq_refl). destruct (fork_path t p Hwf Hpar) as (lp & Hlp & Hancp & Hallp & _).
    rewrite Hancp. destruct (bool_decide_reflect (old ∈ p :: lp)) as [Hin|Hin].
    { exists Gt. split; [done|]. left. split; [|done]. exists p. split; [done|]. rewrite Hancp. by rewrite bool_decide_eq_true_2. }
    pose proof Hwf as [f Hf].
    destruct (ascend_and_descend_spec t f old p Hf Hmax Hold Hpar) as (up & down & common & -> & P1 & P2 & _).
    assert (k0 : forall k, k ∈ up -> is_Some (fork_get t k)).
    { intros k Hk. apply Hall. assert (old :: lo = up ++ common) as -> by congruence. apply elem_of_app. by left. }
    assert (k1 : forall k, k ∈ down -> is_Some (fork_get t k) /\ k ∈ p :: lp).
    { intros k Hk. assert (k ∈ p :: lp). { assert (p :: lp = rev down ++ common) as -> by congruence.
        apply elem_of_app. left. by apply elem_of_rev. } split; [by apply Hallp|done]. }
    pose proof (path_nodup t p _ Hwf Hlp Hpar) as Hnd. assert (p :: lp = rev down ++ common) as Ep by congruence.
    rewrite Ep in Hnd. apply NoDup_app in Hnd as (Hnd & _ & _). rewrite <- Permutation_rev in Hnd.
    assert (len (old :: down) <= 2 ^ usize_bits - 1) as Hd.
    { apply NoDup_range; [|intros k [->|Hk]%elem_of_cons; apply Hkeys; [done|by apply k1]|done].
      apply NoDup_cons. split; [|done]. intros Hk. by apply Hin, k1. }
    assert (old :: lo = up ++ common) as Eo by congruence. rewrite Eo, len_app in Hlen. rewrite len_cons in Hd.
    pose proof (len_nonneg common).
    rewrite (sum_scores_spec t 0 up), (sum_scores_spec t 0 down), Hs by (done || lia || (intros ? ?; by apply k1)).
    pose proof (chain_score_range t down). unfold wadd. rewrite wrap_small by (unfold is_uint; lia).
    eexists. split; [done|]. right. split.
    { intros (q & [= <-] & Ha). rewrite Hancp in Ha. injection Ha as ?%bool_decide_eq_true. done. }
    cbn [total_opt from_option]. unfold total. rewrite P1, P2. cbn [from_option].
    rewrite !chain_score_app, chain_score_rev. rewrite !Z.add_0_l.
    destruct (Z.compare_spec (chain_score t down + s) (chain_score t up)),
      (Z.compare_spec (chain_score t down + chain_score t common + s) (chain_score t up + chain_score t common));
      (reflexivity || lia).
  - rewrite Hlo. rewrite sum_scores_spec by (done || lia). rewrite Hs. cbn [sum_scores].
    unfold wadd. rewrite wrap_small by (unfold is_uint; pose proof (usize_bits_pos); destruct usize_bits_spec as [->| ->]; lia).
    eexists. split; [done|]. right. split; [by intros (q & ? & _)|]. cbn [total_opt from_option]. unfold total. by rewrite Hlo.
Qed.

(** ** The best block of a set of blocks *)

(** No block of the set has a chain with a greater score, and none descends from it. *)
Definition best_in t (P : NodeIndex -> Prop) (best : option NodeIndex) : Prop :=
  match best with
  | None => forall k, ~ P k
  | Some b => P b /\ (forall k, P k -> total t k <= total t b) /\
      (forall k, P k -> is_ancestor t b k = Some true -> k = b)
  end.

Definition in_tree t (k : NodeIndex) : Prop := is_Some (fork_get t k).

Lemma best_in_ext t (P Q : NodeIndex -> Prop) best : (forall k, P k <-> Q k) -> best_in t P best -> best_in t Q best.
Proof. intros Hpq. destruct best; cbn; setoid_rewrite Hpq; done. Qed.

(** One more block, which replaces the best one if it is better. *)
Lemma best_step t (P : NodeIndex -> Prop) best k par (r : bool) :
  wf t -> fork_parent t k = Some par -> (forall j, P j -> in_tree t j) -> best_in t P best ->
  (r = true <-> match best with None => True | Some c => descends t c par \/ total t c < total t k end) ->
  best_in t (fun j => P j \/ j = k) (if r then Some k else best).
Proof.
  intros Hwf Hpar Hin Hbest Hr. destruct best as [c|].
  2:{ rewrite (proj2 Hr I). cbn in *. split_and!; [by right| |]; intros j [?%Hbest| ->]; (done || lia). }
  destruct Hbest as (Hc & Hmax & Hleaf). destruct r.
  - destruct (proj1 Hr eq_refl) as [(p & -> & Ha)|Hgt].
    + assert (is_ancestor t c k = Some true) as Hck.
      { apply ancestor_step; [done|apply fork_get_parent; eauto|]. right. eauto. }
      pose proof (total_ancestor t c k Hwf Hck). split_and!; [by right| |].
      * intros j [Hj| ->]; [|lia]. apply Hmax in Hj. lia.
      * intros j [Hj| ->] Hkj; [|done]. assert (j = c) as -> by (apply Hleaf; [done|by eapply ancestor_trans]).
        by apply (ancestor_antisym t c k Hwf).
    + split_and!; [by right| |].
      * intros j [Hj| ->]; [|lia]. apply Hmax in Hj. lia.
      * intros j [Hj| ->] Hkj; [|done]. apply Hmax in Hj. apply total_ancestor in Hkj; [lia|done].
  - assert (~ (descends t c par \/ total t c < total t k)) as Hn by (intros ?%Hr; done).
    split_and!; [by left| |].
    + intros j [Hj| ->]; [by apply Hmax|]. apply Znot_gt_le. intros ?. apply Hn. right. lia.
    + intros j [Hj| ->] Hcj; [by apply Hleaf|]. destruct (decide (k = c)) as [|Hne]; [done|].
      apply (strict_ancestor_parent t c k par) in Hcj as (q & -> & Hq); [|done|done|congruence].
      exfalso. apply Hn. left. exists q. done.
Qed.

(** The answer of [is_better_block] for a block of the tree, or about to be. *)
Lemma is_better_block_test t old par h s :
  wf t -> scored t -> keys_ok t -> in_tree t old -> (forall p, par = Some p -> in_tree t p) -> block_score h = Some s ->
  exists c, is_better_block t old par h = Some c /\
    (match c with Gt => true | _ => false end = true <-> descends t old par \/ total t old < total_opt t par + s).
Proof.
  intros Hwf Hsc Hkeys Hold Hpar Hs.
  destruct (is_better_block_spec t old par h s Hwf Hsc Hkeys Hold Hpar Hs) as (c & Hc & Hcases). exists c. split; [done|].
  destruct Hcases as [[Hd ->]|[Hd ->]]; [naive_solver|].
  destruct (Z.compare_spec (total_opt t par + s) (total t old)); naive_solver lia.
Qed.

Lemma fork_parent_in t k p : wf t -> fork_parent t k = Some (Some p) -> in_tree t p.
Proof.
  intros Hwf Hp. assert (in_tree t k) as Hk by (apply fork_get_parent; eauto).
  destruct (fork_path t k Hwf Hk) as (l & _ & _ & _ & Hpar). rewrite Hp in Hpar. by destruct Hpar.
Qed.

(** The scan after a finalization. *)
Definition below_strictly t x (k : NodeIndex) : Prop := is_ancestor t x k = Some true /\ k <> x.

Lemma find_new_best_spec t x l (P : NodeIndex -> Prop) best :
  wf t -> scored t -> keys_ok t -> (forall k b, (k, b) ∈ l -> fork_get t k = Some b) ->
  (forall j, P j -> in_tree t j) -> best_in t P best ->
  exists best', find_new_best t x best l = Some best' /\
    best_in t (fun j => P j \/ (j ∈ l.*1 /\ below_strictly t x j)) best'.
Proof.
  intros Hwf Hsc Hkeys. revert P best. induction l as [|[k b] l IH]; intros P best Hl HP Hbest; cbn [find_new_best].
  { exists best. split; [done|]. eapply best_in_ext; [|done]. cbn. intros j.
    split; [by left|intros [?|[Hj _]]; [done|by apply elem_of_nil in Hj]]. }
  pose proof (Hl k b ltac:(by left)) as Hk. assert (in_tree t k) as Hkt by (eexists; done).
  assert (Hl' : forall j c, (j, c) ∈ l -> fork_get t j = Some c) by (intros j c ?; apply Hl; by right).
  destruct (ancestor_total t x k Hwf Hkt) as [a Ha].
  assert ((if k =? x then Some true else let! a := is_ancestor t x k in Some (negb a)) =
    Some (if k =? x then true else negb a)) as ->.
  { rewrite Ha. by destruct (k =? x). }
  assert (Hskip : (if k =? x then true else negb a) = false <-> below_strictly t x k).
  { unfold below_strictly. rewrite Ha. destruct (Z.eqb_spec k x), a; cbn; naive_solver. }
  destruct (if k =? x then true else negb a).
  - destruct (IH P best Hl' HP Hbest) as (best' & -> & Hb'). exists best'. split; [done|].
    eapply best_in_ext; [|done]. intros j. cbn. rewrite elem_of_cons.
    assert (~ below_strictly t x k) by (intros ?%Hskip; done). naive_solver.
  - assert (exists par, fork_parent t k = Some par) as [par Hpar] by (by apply fork_get_parent in Hkt as [? ?]; eauto).
    assert (exists r, match best with
      | Some new_best_block =>
          let! parent := fork_parent t k in
          let! ordering := is_better_block t new_best_block parent (HeaderRef_from (bl_header b)) in
          Some (match ordering with Gt => true | _ => false end)
      | None => Some true
      end = Some r /\
      (r = true <-> match best with None => True | Some c => descends t c par \/ total t c < total t k end)) as (r & -> & Hr).
    { destruct best as [c|]; [|by exists true]. rewrite Hpar. destruct (Hsc k b Hk) as [s Hs].
      destruct (is_better_block_test t c par (HeaderRef_from (bl_header b)) s) as (o & -> & Ho); try done.
      { by apply HP, Hbest. } { intros p ->. by eapply fork_parent_in. }
      eexists. split; [done|]. rewrite Ho. rewrite (total_step t k par Hwf Hpar). unfold score_at, score_of. rewrite Hk.
      cbn [from_option]. rewrite Hs. cbn [default]. by rewrite Z.add_comm. }
    destruct (IH (fun j => P j \/ j = k) (if r then Some k else best) Hl') as (best' & -> & Hb').
    { intros j [?| ->]; [by apply HP|done]. } { by eapply best_step. }
    exists best'. split; [done|]. eapply best_in_ext; [|done]. intros j. cbn. rewrite elem_of_cons.
    pose proof (proj1 Hskip eq_refl). naive_solver.
Qed.

(** ** Insertion *)

Section insertion.
Context (t t' : ForkTree (Block T)) (new : NodeIndex) (par : option NodeIndex) (d : Block T).
Context (Hwf : wf t) (Hins : inserted t t' new par d).

Lemma inserted_step k p :
  fork_parent t k = Some p -> fork_parent t' k = Some p /\ score_at t' k = score_at t k.
Proof.
  intros Hp. assert (in_tree t k) as Hk by (apply fork_get_parent; eauto).
  destruct (inserted_some _ _ _ _ _ _ Hins Hk) as [_ Hne]. unfold score_at.
  rewrite (in_parent _ _ _ _ _ Hins), (in_get _ _ _ _ _ Hins). by rewrite !decide_False.
Qed.

Lemma inserted_total k : in_tree t k -> total t' k = total t k.
Proof.
  pose proof (in_rep _ _ _ _ _ Hins) as Hwf'. revert k. apply (node_ind t (fun k => total t' k = total t k) Hwf).
  - intros k Hp. destruct (inserted_step k _ Hp) as [Hp' Hs].
    rewrite (total_step t' k _ Hwf' Hp'), (total_step t k _ Hwf Hp), Hs. done.
  - intros k p Hp IH. destruct (inserted_step k _ Hp) as [Hp' Hs].
    rewrite (total_step t' k _ Hwf' Hp'), (total_step t k _ Hwf Hp), Hs. cbn. by rewrite IH.
Qed.

Lemma inserted_total_opt : total_opt t' par = total_opt t par.
Proof.
  enough (forall q, (forall p, q = Some p -> in_tree t p) -> total_opt t' q = total_opt t q) as Hq
    by (apply Hq, (in_par _ _ _ _ _ Hins)).
  intros [p|] Hp; [|done]. cbn. apply inserted_total. by apply Hp.
Qed.

Lemma inserted_in_tree k : in_tree t' k <-> in_tree t k \/ k = new.
Proof.
  unfold in_tree. rewrite (in_get _ _ _ _ _ Hins). case_decide; subst; [naive_solver|]. naive_solver.
Qed.

Lemma inserted_new_total s :
  block_score (HeaderRef_from (bl_header d)) = Some s -> total t' new = total_opt t par + s.
Proof.
  intros Hs. rewrite (total_step t' new par) by (by eapply in_rep || by rewrite (in_parent _ _ _ _ _ Hins), decide_True).
  rewrite inserted_total_opt. unfold score_at. rewrite (in_get _ _ _ _ _ Hins), decide_True by done.
  cbn [from_option]. unfold score_of. rewrite Hs. apply Z.add_comm.
Qed.

(** The new best block is right after the insertion. *)
Lemma inserted_best s best (r : bool) :
  scored t -> keys_ok t -> block_score (HeaderRef_from (bl_header d)) = Some s -> best_in t (in_tree t) best ->
  match best with
  | Some old =>
      let! ordering := is_better_block t old par (HeaderRef_from (bl_header d)) in
      Some (match ordering with Gt => true | _ => false end)
  | None => Some true
  end = Some r ->
  best_in t' (in_tree t') (if r then Some new else best).
Proof.
  intros Hsc Hkeys Hs Hbest Hr. pose proof (in_rep _ _ _ _ _ Hins) as Hwf'.
  apply (best_in_ext t' (fun k => in_tree t k \/ k = new)); [intros k; by rewrite inserted_in_tree|].
  apply (best_step t' (in_tree t) best new par r); [done|by rewrite (in_parent _ _ _ _ _ Hins), decide_True| | |].
  - intros j Hj. apply inserted_in_tree. by left.
  - destruct best as [b|]; [|done]. destruct Hbest as (Hb & Hmax & Hleaf). split; [done|]. split.
    + intros k Hk. rewrite !inserted_total by done. by apply Hmax.
    + intros k Hk Ha. apply Hleaf; [done|]. by apply (inserted_ancestor t t' new par d b k Hwf Hins Hk).
  - destruct best as [b|]; [|injection Hr as <-; done]. destruct Hbest as (Hb & _).
    destruct (is_better_block_test t b par (HeaderRef_from (bl_header d)) s) as (c & Hc & Ht); try done.
    { apply (in_par _ _ _ _ _ Hins). }
    rewrite Hc in Hr. injection Hr as <-. rewrite Ht, (inserted_new_total s Hs), inserted_total by done.
    apply or_iff_compat_r. unfold descends. apply exist_proper. intros p. split; intros [-> Ha]; (split; [done|]).
    all: pose proof (in_par _ _ _ _ _ Hins p eq_refl) as Hp; by apply (inserted_ancestor t t' new (Some p) d b p Hwf Hins Hp).
Qed.

End insertion.

(** ** Finalization *)

Section finalization.
Context (t : ForkTree (Block T)) (x : NodeIndex) (Hwf : wf t).

(** What the node that is removed becomes before does not matter. *)
Lemma pruned_after_update t1 t2 (g : Block T -> Block T) :
  updates t t1 (fun k b => if decide (k = x) then g b else b) -> pruned_to t1 t2 x -> pruned_to t t2 x.
Proof.
  intros Hup [Hrep Hget Hpar Hanc]. split; [done| | |].
  - intros k d. rewrite Hget, (updates_ancestor t t1 _ _ _ Hwf Hup), (up_get _ _ _ Hup).
    destruct (decide (k = x)); [naive_solver|]. by destruct (fork_get t k).
  - intros k Hk. rewrite <- !(up_parent _ _ _ Hup). by apply Hpar.
  - intros a k. by rewrite Hanc, (updates_ancestor t t1 _ _ _ Hwf Hup).
Qed.

Section pruned.
Context (t' : ForkTree (Block T)) (Hpr : pruned_to t t' x).

Lemma pruned_in_tree k : in_tree t' k <-> below_strictly t x k.
Proof.
  unfold in_tree, below_strictly. split.
  - intros [d Hd]. by apply (pr_get _ _ _ Hpr) in Hd as (_ & ? & ?).
  - intros [Ha Hne]. destruct (ancestor_get t x k Hwf Ha) as [_ [d Hd]]. exists d. by apply (pr_get _ _ _ Hpr).
Qed.

Lemma pruned_score k : in_tree t' k -> score_at t' k = score_at t k.
Proof. intros [d Hd]. unfold score_at. rewrite Hd. apply (pr_get _ _ _ Hpr) in Hd as (-> & _). done. Qed.

Lemma pruned_total k : in_tree t' k -> total t k = total t' k + total t x.
Proof.
  pose proof (pr_rep _ _ _ Hpr) as Hwf'. revert k.
  assert (Hstep : forall k p, fork_parent t' k = Some p -> fork_parent t k = Some (Some (default x p)) /\ score_at t' k = score_at t k).
  { intros k p Hp. assert (in_tree t' k) as Hk by (apply fork_get_parent; eauto). split; [|by apply pruned_score].
    destruct (pr_parent _ _ _ Hpr k Hk) as [[? ?]|(q & _ & ? & ?)]; destruct p; naive_solver. }
  apply (node_ind t' (fun k => total t k = total t' k + total t x) Hwf').
  - intros k Hp. destruct (Hstep k _ Hp) as [Hp' Hs].
    rewrite (total_step t' k _ Hwf' Hp), (total_step t k _ Hwf Hp'), Hs. cbn. lia.
  - intros k p Hp IH. destruct (Hstep k _ Hp) as [Hp' Hs].
    rewrite (total_step t' k _ Hwf' Hp), (total_step t k _ Hwf Hp'), Hs. cbn. rewrite IH. lia.
Qed.

Lemma pruned_best best : best_in t (below_strictly t x) best -> best_in t' (in_tree t') best.
Proof.
  destruct best as [b|]; [|intros Hb k Hk%pruned_in_tree; by apply (Hb k)].
  intros (Hb & Hmax & Hleaf). split; [by apply pruned_in_tree|]. split.
  - intros k Hk. pose proof (pruned_total k Hk). pose proof (pruned_total b (proj2 (pruned_in_tree b) Hb)).
    apply pruned_in_tree, Hmax in Hk. lia.
  - intros k Hk Ha. apply Hleaf; [by apply pruned_in_tree|]. by apply (pr_ancestor _ _ _ Hpr) in Ha as (? & _).
Qed.

End pruned.
End finalization.

(** The best block among those below the new finalized one; whether it changes. *)
Lemma update_best_spec (self : NonFinalizedTree T) x :
  let t := blocks self in
  wf t -> scored t -> keys_ok t -> in_tree t x -> best_in t (in_tree t) (current_best self) ->
  exists best updates, update_best self x = Some (best, updates) /\ best_in t (below_strictly t x) best /\
    (updates = true <-> best <> current_best self).
Proof.
  intros t Hwf Hsc Hkeys Hx Hbest. subst t. unfold update_best.
  destruct (current_best self) as [b|] eqn:Eb; [|by apply Hbest in Hx]. destruct Hbest as (Hb & Hmax & Hleaf).
  destruct (ancestor_total (blocks self) x b Hwf Hb) as [a Ha].
  assert ((if x =? b then Some true else let! a := is_ancestor (blocks self) x b in Some (negb a)) =
    Some (if x =? b then true else negb a)) as ->.
  { rewrite Ha. by destruct (x =? b). }
  assert (Hup : (if x =? b then true else negb a) = false <-> below_strictly (blocks self) x b).
  { unfold below_strictly. rewrite Ha. destruct (Z.eqb_spec x b), a; cbn; naive_solver. }
  destruct (if x =? b then true else negb a).
  - destruct (find_new_best_spec (blocks self) x (iter_unordered (blocks self)) (fun _ => False) None) as (best & -> & Hbest);
      try done.
    { intros k d. apply elem_of_iter_unordered. } { intros k Hk. exact Hk. }
    exists best, true. split; [done|]. split.
    { eapply best_in_ext; [|done]. cbn. intros k. rewrite elem_of_iter_keys. split; [naive_solver|].
      intros [Hk Hne]. right. split; [by apply (ancestor_get _ x k Hwf)|done]. }
    split; [|done]. intros _ ->. destruct Hbest as ([?|[_ Hbs]] & _); [done|]. destruct Hbs as [Hxb Hne]. discriminate (proj2 Hup (conj Hxb Hne)).
  - exists (Some b), false. split; [done|]. pose proof (proj1 Hup eq_refl) as Hbs. split; [|naive_solver].
    split; [done|]. split.
    + intros k [Hk _]. apply Hmax. by eapply ancestor_get.
    + intros k [Hk _]. apply Hleaf. by eapply ancestor_get.
Qed.

End best.
