(* ===== verification/BlocksTreeInv.v ===== *)
(** * The invariant of the tree of blocks, and the insertion of a block

    [tree_inv]: the fork tree is well formed and [blocks_by_hash] is its index by
    hash; every block has the hash of its header and was accepted on top of its parent, with
    the consensus that the parent and the finalized block say, and has the consensus
    that its verification gives; the best block is right. *)

From S2P Require Import Prelude Leb128 Scale Nibble TrieNode BTree ForkTree ForkTreePrune ForkTreeFacts HeaderBase HeaderAura HeaderBabe HeaderGrandpa Header HeaderDigest HeaderCodec ChainInformation FinalityBase Justification JustificationVerify Commit CommitVerify VerifyBase VerifyBabe VerifyBabeSpec HeaderOnly BlocksTree BlocksTreeBest.

Open Scope Z_scope.

(** ** Headers that were decoded *)

Section headers.
Context `{Platform} `{Nom}.

Definition items_of (h : Header) : list DigestItemRef := map DigestItemRef_from (dg_list (hd_digest h)).

Definition hdr_ok (h : Header) : Prop := digest_view (DigestRef_from (hd_digest h)) (items_of h).

Lemma decode_digest bs h :
  is_bytes bs -> decode bs = Some (Ok h) -> exists items, digest_view (hd_digest h) items.
Proof.
  intros Hb. unfold decode. intros ([h' rest] & Hp & Hd)%outcome_bind_Ok. destruct rest; [|done]. injection Hd as ->.
  revert Hp. unfold decode_partial. case_if; [done|]. intros ([bs' n] & Hn & Hp)%outcome_bind_Ok.
  destruct (nom_scale_compact_u64 (drop 32 bs)) as [[bs'' n'']|] eqn:Hc; [|done]. cbn in Hn. injection Hn as -> ->.
  revert Hp. case_if; [done|]. intros ([d rest] & Hd & [= <- ->])%outcome_bind_Ok. cbn.
  eapply from_scale_bytes_view; [|exact Hd]. apply Forall_drop, Forall_drop.
  apply nom_scale_compact_local in Hc as (pre & E & _). apply (Forall_drop _ 32) in Hb. rewrite E in Hb.
  by apply Forall_app in Hb as [_ ?].
Qed.

Lemma decoded_hdr_ok bs r h : is_bytes bs -> decode bs = Some (Ok r) -> Header_from r = Some h -> hdr_ok h.
Proof.
  intros Hb Hd Hf. destruct (decode_digest bs r Hb Hd) as [items Hv]. unfold Header_from, Digest_from in Hf.
  rewrite (yields_collect _ _ (view_yields _ _ Hv)) in Hf.
  destruct (mapM DigestItem_from items) as [list|] eqn:Hm; [|done]. injection Hf as <-.
  unfold hdr_ok, items_of. cbn [hd_digest dg_list DigestRef_from dg_indices]. apply view_parsed.
  - rewrite <- (map_item_kind_into _ _ Hm). apply Hv.
  - rewrite <- (map_item_kind_into _ _ Hm). apply Hv.
Qed.

Lemma hdr_ok_score h : hdr_ok h -> is_Some (block_score (HeaderRef_from h)).
Proof.
  intros Hv%view_accessors. unfold block_score. cbn [HeaderRef_from hd_digest]. rewrite (acc_babe_pre_runtime _ _ Hv). eauto.
Qed.

Lemma hdr_ok_logs h : hdr_ok h -> LogsIter_collect (Digest_logs (hd_digest h)) = Some (items_of h).
Proof. intros Hv. apply yields_collect, Hv. Qed.

End headers.

(** ** The invariant *)

(** The consensus of a block, as its children see it. *)
Definition specific_of (c : BlockConsensus) : VerifyConsensusSpecific :=
  match c with
  | BlockAura authorities => SpecificAura authorities
  | BlockBabe current next => SpecificBabe current next
  end.

(** An epoch that starts at its first block. *)
Definition start_at (slot : u64) (e : BabeEpochInformation) : BabeEpochInformation :=
  mkBabeEpochInformation (epoch_index e)
    (match start_slot_number e with Some s => Some s | None => Some slot end)
    (ei_authorities e) (ei_randomness e) (ei_c e) (ei_allowed_slots e).

(** The consensus of a block from that of its parent. *)
Definition child_consensus (parent : VerifyConsensusSpecific) (s : Success) : option BlockConsensus :=
  match s, parent with
  | SuccessAura false, SpecificAura authorities => Some (BlockAura authorities)
  | SuccessBabe slot (Some target), SpecificBabe _ next => Some (BlockBabe (Some (start_at slot next)) target)
  | SuccessBabe _ None, SpecificBabe current next => Some (BlockBabe current next)
  | _, _ => None
  end.

(** The parameters of the engine of the chain are the same. *)
Definition same_engine (a b : FinalizedConsensus) : Prop :=
  match a, b with
  | FinalizedUnknown, FinalizedUnknown => True
  | FinalizedAura _ d, FinalizedAura _ d' => d = d'
  | FinalizedBabe _ _ n, FinalizedBabe _ _ n' => n = n'
  | _, _ => False
  end.

Section inv.
Context `{Platform} `{Nom} `{NomMulti} `{Blake2b} `{Schnorrkel} `{Powf} `{Ed25519}.
Context {T : Type}.
Implicit Types self : NonFinalizedTree T.

(** A header that was accepted on top of a block, at some time. *)
Definition accepted self (par : option NodeIndex) (h : Header) (c : BlockConsensus) : Prop :=
  exists parent spec now consensus s,
    parent_header self par = Some parent /\ parent_consensus self par = Some spec /\
    header_config_consensus (mkVerifyContext self par h spec) now = Ok consensus /\
    verify (mkConfig (HeaderRef_from parent) (HeaderRef_from h) consensus (allow_unknown_consensus_engines self)) = Some (Ok s) /\
    child_consensus spec s = Some c.

Record tree_inv self : Prop := {
  ti_rep : wf (blocks self);
  ti_keys : keys_ok (blocks self);
  ti_finalized : Header_hash (finalized_block_header self) = Some (finalized_block_hash self);
  ti_hash : forall k b, fork_get (blocks self) k = Some b -> Header_hash (bl_header b) = Some (bl_hash b);
  ti_index : forall h k, blocks_by_hash self !! h = Some k <-> exists b, fork_get (blocks self) k = Some b /\ bl_hash b = h;
  ti_header : forall k b, fork_get (blocks self) k = Some b -> hdr_ok (bl_header b);
  ti_accepted : forall k b par, fork_get (blocks self) k = Some b -> fork_parent (blocks self) k = Some par ->
    accepted self par (bl_header b) (bl_consensus b);
  ti_best : best_in (blocks self) (in_tree (blocks self)) (current_best self)
}.

Lemma ti_scored self : tree_inv self -> scored (blocks self).
Proof. intros Hinv k b Hk. by eapply hdr_ok_score, ti_header. Qed.

(** Two blocks do not have the same hash. *)
Lemma ti_inj self k k' b b' :
  tree_inv self -> fork_get (blocks self) k = Some b -> fork_get (blocks self) k' = Some b' -> bl_hash b = bl_hash b' -> k = k'.
Proof.
  intros Hinv Hk Hk' E. assert (blocks_by_hash self !! bl_hash b = Some k) as E1 by (apply ti_index; eauto).
  assert (blocks_by_hash self !! bl_hash b = Some k') as E2 by (apply ti_index; eauto). congruence.
Qed.

(** *** Acceptance *)

Lemma verify_linked (config : Config) s :
  verify config = Some (Ok s) -> linked (ho_parent_block_header config) (ho_block_header config).
Proof.
  unfold verify. destruct (HeaderRef_hash _) as [hash|] eqn:Hh; [|done].
  destruct (bool_decide_reflect (hash = parent_hash (ho_block_header config))) as [->|]; [|done]. cbn [negb].
  unfold checked_add. destruct (checked 64 _) as [v|] eqn:Hc; [|done].
  apply checked_Some in Hc as [-> Hu]. destruct (Z.eqb_spec (hd_number (ho_parent_block_header config) + 1) (hd_number (ho_block_header config))) as [E|];
    [|done]. intros _. split; [done|lia|]. by rewrite <- E.
Qed.

Lemma accepted_linked self par h c :
  accepted self par h c -> exists parent, parent_header self par = Some parent /\ linked (HeaderRef_from parent) (HeaderRef_from h).
Proof. intros (parent & spec & now & consensus & s & Hp & _ & _ & Hv & _). exists parent. split; [done|]. by apply verify_linked in Hv. Qed.

(** The engine of the block is that of the chain. *)
Lemma accepted_engine self par h c :
  accepted self par h c -> exists fc, update_consensus self c = Some fc /\ same_engine (finalized_consensus self) fc /\
    forall self', finalized_consensus self' = fc -> parent_consensus self' None = Some (specific_of c).
Proof.
  intros (parent & spec & now & consensus & s & _ & _ & Hc & _ & Hs).
  unfold header_config_consensus in Hc. cbn [vc_chain vc_consensus] in Hc. unfold update_consensus.
  destruct (finalized_consensus self), spec; try done; destruct s as [[]|? []]; cbn in Hs; try done; injection Hs as <-.
  all: eexists; split; [done|]; split; [done|]; intros self' E; cbn; by rewrite E.
Qed.

Lemma accepted_transfer self self' par par' h c :
  parent_header self' par' = parent_header self par -> parent_consensus self' par' = parent_consensus self par ->
  same_engine (finalized_consensus self) (finalized_consensus self') ->
  allow_unknown_consensus_engines self' = allow_unknown_consensus_engines self ->
  accepted self par h c -> accepted self' par' h c.
Proof.
  intros Hh Hc He Ha (parent & spec & now & consensus & s & E1 & E2 & E3 & E4 & E5).
  exists parent, spec, now, consensus, s. rewrite Hh, Hc, Ha. split_and!; try done.
  revert E3. unfold header_config_consensus. cbn [vc_chain vc_consensus].
  destruct (finalized_consensus self), (finalized_consensus self'), spec; cbn in He; subst; done.
Qed.

Lemma same_engine_refl fc : same_engine fc fc.
Proof. by destruct fc. Qed.

(** The parent of a block, before and after an insertion. *)
Lemma parent_consensus_get self k b :
  fork_get (blocks self) k = Some b -> parent_consensus self (Some k) = Some (specific_of (bl_consensus b)).
Proof. intros Hk. cbn. rewrite Hk. by destruct (bl_consensus b). Qed.

(** ** Verification of a header *)

(** A block that was verified and can be inserted. *)
Record insertable self (ins : Insert T) : Prop := {
  ia_chain : vc_chain (is_context ins) = self;
  ia_header : hdr_ok (vc_header (is_context ins));
  ia_hash : Header_hash (vc_header (is_context ins)) = Some (is_hash ins);
  ia_parent : forall p, vc_parent_tree_index (is_context ins) = Some p -> in_tree (blocks self) p;
  ia_accepted : accepted self (vc_parent_tree_index (is_context ins)) (vc_header (is_context ins)) (is_consensus ins);
  ia_best :
    match current_best self with
    | Some old =>
        let! ordering := is_better_block (blocks self) old (vc_parent_tree_index (is_context ins))
          (HeaderRef_from (vc_header (is_context ins))) in
        Some (match ordering with Gt => true | _ => false end)
    | None => Some true
    end = Some (is_is_new_best ins)
}.

(** The consensus is the one of the specification. *)
Lemma success_consensus_child self par h spec s c :
  parent_consensus self par = Some spec ->
  success_consensus (mkVerifyContext self par h spec)
    (match s with SuccessAura change => ScAura change | SuccessBabe slot target => ScBabe slot target end) = Some c ->
  child_consensus spec s = Some c.
Proof.
  unfold success_consensus, parent_consensus. cbn [vc_parent_tree_index vc_chain vc_consensus].
  destruct par as [p|].
  - destruct (fork_get (blocks self) p) as [b|]; [|done].
    destruct s as [[]|slot [target|]], (bl_consensus b) as [|cur next], (finalized_consensus self); intros [= <-]; cbn; try done.
    unfold start_at. destruct next as [? [] ? ? ? ?]; cbn; naive_solver.
  - destruct s as [[]|slot [target|]], (finalized_consensus self) as [| |cur next]; intros [= <-]; cbn; try done.
    unfold start_at. destruct next as [? [] ? ? ? ?]; cbn; naive_solver.
Qed.

Lemma parent_index_in self (decoded : HeaderRef) par :
  tree_inv self ->
  (if bool_decide (parent_hash decoded = finalized_block_hash self) then Some None
   else Some <$> blocks_by_hash self !! parent_hash decoded) = Some par ->
  forall p, par = Some p -> in_tree (blocks self) p.
Proof.
  intros Hinv. case_bool_decide; [naive_solver|]. destruct (blocks_by_hash self !! _) as [k|] eqn:E; [|done].
  intros [= <-] p [= <-]. apply ti_index in E as (b & Hb & _); [|done]. by exists b.
Qed.

Lemma verify_header_only_inv self par h spec now out :
  tree_inv self -> hdr_ok h -> (forall p, par = Some p -> in_tree (blocks self) p) -> parent_consensus self par = Some spec ->
  verify_header_only (mkVerifyContext self par h spec) now = Some out ->
  (exists err, out = HeaderErr self err) \/
  exists r c, out = HeaderOk (mkVerifyContext self par h spec) r c /\
    forall hash, Header_hash h = Some hash -> insertable self (mkInsert (mkVerifyContext self par h spec) hash r c).
Proof.
  intros Hinv Hh Hpar Hspec. unfold verify_header_only. cbn [vc_chain vc_parent_tree_index vc_header].
  destruct (parent_header self par) as [parent|] eqn:Hp; [|done].
  destruct (header_config_consensus _ now) as [consensus|err] eqn:Hc; [|intros [= <-]; eauto].
  destruct (verify _) as [[s|err]|] eqn:Hv; [|intros [= <-]; eauto|done].
  unfold apply_success_header, apply_success_body. cbn [vc_chain vc_parent_tree_index vc_header].
  destruct (match current_best self with Some _ => _ | None => _ end) as [r|] eqn:Hr; [|done].
  destruct (success_consensus _ _) as [c|] eqn:Hs; [|done]. intros [= <-]. right. exists r, c. split; [done|].
  intros hash Hhash. split; cbn [is_context is_hash is_is_new_best is_consensus vc_chain vc_header vc_parent_tree_index]; try done.
  apply success_consensus_child in Hs; [|done]. by exists parent, spec, now, consensus, s.
Qed.

(** What [verify_header] answers: the tree that it gives back is the same, and a block
    that it accepts can be inserted. *)
Lemma verify_header_inv self bs now out :
  tree_inv self -> is_bytes bs -> tree_verify_header self bs now = Some out ->
  match out with
  | VerifiedErr chain _ | VerifiedDuplicate chain => chain = self
  | VerifiedInsert height r ins => insertable self ins /\ height = hd_number (vc_header (is_context ins)) /\ r = is_is_new_best ins
  end.
Proof.
  intros Hinv Hb. unfold tree_verify_header, tree_verify.
  destruct (decode bs) as [[decoded|err]|] eqn:Hd; [|intros [= <-]; done|done].
  case_bool_decide; [intros [= <-]; done|].
  destruct (if bool_decide (parent_hash decoded = _) then _ else _) as [par|] eqn:Hpar; [|intros [= <-]; done].
  destruct (parent_consensus self par) as [spec|] eqn:Hspec; [|done].
  destruct (Header_from decoded) as [h|] eqn:Hh; [|done].
  destruct (verify_header_only _ now) as [vo|] eqn:Hv; [|done].
  apply verify_header_only_inv in Hv as [[err ->]|(r & c & -> & Hins)]; [| |done|by eapply decoded_hdr_ok|by eapply parent_index_in|done].
  { intros [= <-]. done. }
  cbn [vc_header]. destruct (Header_hash h) as [hash|] eqn:Hhash; [|done]. intros [= <-]. split; [by apply Hins|done].
Qed.

(** ** Insertion *)

(** A block is inserted unless another one has the hash. *)
Lemma insert_inv self ins new user_data :
  tree_inv self -> insertable self ins -> fork_get (blocks self) new = None -> 0 <= new < 2 ^ usize_bits - 1 ->
  match Insert_insert ins new user_data with
  | Some self' => blocks_by_hash self !! is_hash ins = None /\ tree_inv self' /\
      inserted (blocks self) (blocks self') new (vc_parent_tree_index (is_context ins))
        (mkBlock (vc_header (is_context ins)) (is_hash ins) (is_consensus ins) user_data) /\
      current_best self' = (if is_is_new_best ins then Some new else current_best self) /\
      finalized_block_header self' = finalized_block_header self /\ finality self' = finality self
  | None => is_Some (blocks_by_hash self !! is_hash ins)
  end.
Proof.
  intros Hinv [Hchain Hh Hhash Hpar Hacc Hbest] Hnew Hrange. unfold Insert_insert. rewrite Hchain.
  set (b := mkBlock _ _ _ user_data). set (par := vc_parent_tree_index _) in *.
  destruct (fork_insert_inserted (blocks self) new par b (ti_rep _ Hinv) Hnew Hpar) as (t' & -> & Hins).
  case_bool_decide as Hdup; [done|].
  assert (blocks_by_hash self !! is_hash ins = None) as Hfree by (by apply eq_None_not_Some).
  set (chain := with_blocks t' (<[is_hash ins:=new]> (blocks_by_hash self)) self).
  assert (Hget : forall k c, fork_get t' k = Some c -> (k = new /\ c = b) \/ (k <> new /\ fork_get (blocks self) k = Some c)).
  { intros k c. rewrite (in_get _ _ _ _ _ Hins). case_decide; naive_solver. }
  assert (Hpsame : forall q, (forall p, q = Some p -> in_tree (blocks self) p) ->
    parent_header chain q = parent_header self q /\ parent_consensus chain q = parent_consensus self q).
  { intros [p|] Hq; [|done]. cbn. destruct (inserted_some _ _ _ _ _ _ Hins (Hq p eq_refl)) as [_ Hne].
    rewrite (in_get _ _ _ _ _ Hins), decide_False by done. done. }
  assert (tree_inv (with_current_best (if is_is_new_best ins then Some new else current_best self) chain)) as Hinv'.
  { split; cbn [with_current_best chain with_blocks blocks finalized_block_header finalized_block_hash blocks_by_hash current_best].
    - by eapply in_rep.
    - intros k Hk. apply (inserted_in_tree _ _ _ _ _ Hins) in Hk as [Hk| ->]; [by apply (ti_keys _ Hinv)|done].
    - apply Hinv.
    - intros k c [[-> ->]|[_ Hk]]%Hget; [done|by eapply ti_hash].
    - intros h k. rewrite lookup_insert_Some, (ti_index _ Hinv). split.
      + intros [[<- <-]|[Hne (c & Hc & <-)]].
        * exists b. rewrite (in_get _ _ _ _ _ Hins). by rewrite decide_True.
        * exists c. split; [|done]. rewrite (in_get _ _ _ _ _ Hins). rewrite decide_False by congruence. done.
      + intros (c & [[-> ->]|[Hne Hc]]%Hget & <-); [by left|]. right. split; [|eauto].
        intros E. rewrite E in Hfree. assert (blocks_by_hash self !! bl_hash c = Some k) as ? by (apply ti_index; eauto). congruence.
    - intros k c [[-> ->]|[_ Hk]]%Hget; [done|by eapply ti_header].
    - intros k c q Hk Hq. rewrite (in_parent _ _ _ _ _ Hins) in Hq.
      assert (accepted self q (bl_header c) (bl_consensus c) /\ forall p, q = Some p -> in_tree (blocks self) p) as [Ha Hqs].
      { apply Hget in Hk as [[-> ->]|[Hne Hk]].
        - rewrite decide_True in Hq by done. injection Hq as <-. done.
        - rewrite decide_False in Hq by done. split; [by eapply ti_accepted|]. intros p ->. eapply fork_parent_in; [apply Hinv|done]. }
      destruct (Hpsame q Hqs) as [E1 E2]. eapply accepted_transfer; [exact E1|exact E2|apply same_engine_refl|done|done].
    - destruct (hdr_ok_score _ Hh) as [s Hs].
      eapply (inserted_best (blocks self) t' new par b); [apply Hinv|done|by apply ti_scored|apply Hinv|exact Hs|apply Hinv|done]. }
  destruct (is_is_new_best ins); (split; [done|]; split; [done|]; split; [done|]; done).
Qed.

(** ** The other operations *)

Lemma new_inv config self : NonFinalizedTree_new config = Some self -> tree_inv self.
Proof.
  unfold NonFinalizedTree_new. destruct (Header_hash _) as [hash|] eqn:Hh; [|done]. intros [= <-].
  assert (forall k, fork_get (@ForkTree_new (Block T)) k = None) as Hnone by done.
  split; cbn [blocks finalized_block_header finalized_block_hash blocks_by_hash current_best]; try done.
  - exists FNil. split; [done|done|constructor|]. intros k. cbn. rewrite lookup_empty. split; [by intros ?%elem_of_nil|by intros [? ?]].
  - intros k [? Hk]. done.
  - intros h k. rewrite lookup_empty. split; [done|]. intros (b & Hb & _). done.
  - intros k [? Hk]. done.
Qed.

Lemma clear_inv self : tree_inv self -> tree_inv (tree_clear self).
Proof.
  intros Hinv. split; cbn [tree_clear with_current_best with_blocks blocks finalized_block_header finalized_block_hash blocks_by_hash current_best]; try done.
  - exists FNil. split; [done|done|constructor|]. intros k. cbn. rewrite lookup_empty. split; [by intros ?%elem_of_nil|by intros [? ?]].
  - intros k [? Hk]. done.
  - apply Hinv.
  - intros h k. rewrite lookup_empty. split; [done|]. intros (b & Hb & _). done.
  - intros k [? Hk]. done.
Qed.

(** An assignment of the user data keeps all the rest. *)
Lemma user_data_inv self k v :
  tree_inv self -> in_tree (blocks self) k ->
  exists self', BlockAccess_user_data_mut self k v = Some self' /\ tree_inv self' /\
    updates (blocks self) (blocks self') (fun j b => if decide (j = k) then set_user_data v b else b).
Proof.
  intros Hinv Hk. unfold BlockAccess_user_data_mut.
  destruct (updates_get_mut (blocks self) k (set_user_data v) (ti_rep _ Hinv) Hk) as (t' & -> & Hup).
  eexists. split; [done|]. split; [|done].
  set (g := fun j (b : Block T) => if decide (j = k) then set_user_data v b else b) in *.
  assert (Hg : forall j b, bl_header (g j b) = bl_header b /\ bl_hash (g j b) = bl_hash b /\ bl_consensus (g j b) = bl_consensus b).
  { intros j b. unfold g. by case_decide. }
  assert (Hinvg : forall j c, fork_get t' j = Some c -> exists b, fork_get (blocks self) j = Some b /\
    bl_header c = bl_header b /\ bl_hash c = bl_hash b /\ bl_consensus c = bl_consensus b).
  { intros j c (b & Hb & ->)%(updates_inv _ _ _ _ _ Hup). exists b. split; [done|]. apply Hg. }
  assert (Htot : forall j, in_tree (blocks self) j -> total t' j = total (blocks self) j).
  { pose proof (updates_wf _ _ _ Hup (ti_rep _ Hinv)) as Hwf'.
    assert (Hsc : forall j, score_at t' j = score_at (blocks self) j).
    { intros j. unfold score_at. rewrite (up_get _ _ _ Hup). destruct (fork_get (blocks self) j) as [b|]; [|done].
      cbn. unfold score_of. by rewrite (proj1 (Hg j b)). }
    apply (node_ind (blocks self) (fun j => total t' j = total (blocks self) j) (ti_rep _ Hinv)); [intros j Hj|intros j p Hj IH].
    all: rewrite (total_step t' j _ Hwf' (eq_trans (up_parent _ _ _ Hup j) Hj)), (total_step _ j _ (ti_rep _ Hinv) Hj), Hsc;
      cbn; rewrite ?IH; done. }
  split; cbn [with_blocks blocks finalized_block_header finalized_block_hash blocks_by_hash current_best].
  - eapply updates_wf; [done|apply Hinv].
  - intros j Hj. apply (ti_keys _ Hinv). by apply (updates_some _ _ _ _ Hup).
  - apply Hinv.
  - intros j c (b & Hb & -> & -> & _)%Hinvg. by eapply ti_hash.
  - intros h j. rewrite (ti_index _ Hinv). split.
    + intros (b & Hb & <-). exists (g j b). split; [by eapply updates_fwd|apply Hg].
    + intros (c & (b & Hb & _ & -> & _)%Hinvg & <-). eauto.
  - intros j c (b & Hb & -> & _)%Hinvg. by eapply ti_header.
  - intros j c q (b & Hb & -> & _ & ->)%Hinvg Hq. rewrite (up_parent _ _ _ Hup) in Hq.
    eapply accepted_transfer; [..|by eapply ti_accepted]; [| |apply same_engine_refl|done].
    all: destruct q as [p|]; [|done]; cbn; rewrite (up_get _ _ _ Hup); destruct (fork_get (blocks self) p) as [pb|]; [|done]; cbn.
    + by rewrite (proj1 (Hg p pb)).
    + by rewrite (proj2 (proj2 (Hg p pb))).
  - pose proof (ti_best _ Hinv) as Hbest. apply (best_in_ext t' (in_tree (blocks self))).
    { intros j. symmetry. by apply (updates_some _ _ _ _ Hup). }
    destruct (current_best self) as [c|]; [|done]. destruct Hbest as (Hc & Hmax & Hleaf). split; [done|]. split.
    + intros j Hj. rewrite !Htot by done. by apply Hmax.
    + intros j Hj Ha. apply Hleaf; [done|]. by apply (updates_ancestor _ _ _ _ _ (ti_rep _ Hinv) Hup).
Qed.

End inv.
