(* ===== verification/BlocksTreeFinality.v ===== *)
(** * Finality in the tree of blocks ([src/src/chain/blocks_tree/finality.rs])

    What [set_finalized_block] does to a tree that satisfies the invariant, and what
    an accepted justification or commit says about the tree. *)

From S2P Require Import Prelude Leb128 Scale Nibble TrieNode BTree ForkTree ForkTreePrune ForkTreeFacts HeaderBase HeaderAura HeaderBabe HeaderGrandpa Header HeaderDigest HeaderCodec ChainInformation FinalityBase Justification JustificationVerify Commit CommitVerify VerifyBase VerifyBabe VerifyBabeSpec HeaderOnly BlocksTree BlocksTreeBest BlocksTreeInv.

Open Scope Z_scope.

Section finality.
Context `{Platform} `{Nom} `{NomMulti} `{Blake2b} `{Schnorrkel} `{Powf} `{Ed25519}.
Context {T : Type}.
Implicit Types self : NonFinalizedTree T.

(** ** Setting the finalized block *)

Lemma updates_path (t t' : ForkTree (Block T)) g k :
  wf t -> updates t t' g -> in_tree t k -> node_to_root_path t' k = node_to_root_path t k.
Proof.
  intros [f Hf] Hup Hk. assert (Hin : k ∈ fids f). { apply Hf. by apply fmap_is_Some in Hk. }
  apply fpath_is_Some in Hin as [l Hl]. destruct (up_rep _ _ _ Hup f Hf) as (f' & Hf' & _ & Hp).
  rewrite (node_to_root_path_rep t f k l Hf Hl). apply (node_to_root_path_rep t' f'); [done|]. by rewrite Hp.
Qed.

(** The iterator removes the hashes of the blocks that it goes through. *)
Lemma finalized_iter_spec by_hash (l : list (PrunedNode (Block T))) :
  exists by_hash', finalized_iter by_hash l =
    ((fun o => bl_user_data (pn_user_data o)) <$> filter (fun o => pn_is_prune_target_ancestor o = true) l, by_hash') /\
    forall h k, by_hash' !! h = Some k <-> by_hash !! h = Some k /\ forall o, o ∈ l -> bl_hash (pn_user_data o) <> h.
Proof.
  revert by_hash. induction l as [|o l IH]; intros by_hash; cbn [finalized_iter].
  { exists by_hash. split; [done|]. intros h k. split; [intros ?; split; [done|]; by intros o ?%elem_of_nil|by intros [? _]]. }
  destruct (IH (delete (bl_hash (pn_user_data o)) by_hash)) as (by_hash' & -> & Hb). exists by_hash'. split.
  - rewrite filter_cons. destruct (pn_is_prune_target_ancestor o); [rewrite decide_True by done|rewrite decide_False by done]; done.
  - intros h k. rewrite Hb, lookup_delete_Some. setoid_rewrite elem_of_cons. naive_solver.
Qed.

Lemma mapM_yielded (f : Z -> option T) (l : list (PrunedNode (Block T))) :
  (forall o, o ∈ l -> f (pn_index o) = Some (bl_user_data (pn_user_data o))) ->
  mapM f (pn_index <$> l) = Some ((fun o => bl_user_data (pn_user_data o)) <$> l).
Proof.
  intros Hl. apply mapM_Some. apply Forall2_fmap_l, Forall2_fmap_r. apply Forall_Forall2_diag. by apply Forall_forall.
Qed.

(** The effect of a finalization on the tree. *)
Record finalized_at self self' (x : NodeIndex) (b : Block T) (fin : Finality) (yielded : list T) (changed : bool) : Prop := {
  fa_inv : tree_inv self';
  fa_blocks : pruned_to (blocks self) (blocks self') x;
  fa_header : finalized_block_header self' = bl_header b;
  fa_hash : finalized_block_hash self' = bl_hash b;
  fa_consensus : parent_consensus self' None = Some (specific_of (bl_consensus b));
  fa_finality : finality self' = fin;
  fa_yielded : exists path, node_to_root_path (blocks self) x = Some path /\
    mapM (fun k => bl_user_data <$> fork_get (blocks self) k) path = Some yielded;
  fa_best : changed = true <-> current_best self' <> current_best self
}.

Section setting.
Context (self : NonFinalizedTree T) (x : NodeIndex) (b : Block T) (t1 t2 : ForkTree (Block T)) (outs : list (PrunedNode (Block T))).
Context (Hinv : tree_inv self) (Hx : fork_get (blocks self) x = Some b).
Context (Hup : updates (blocks self) t1 (fun k d => if decide (k = x) then swap_header (finalized_block_header self) d else d)).
Context (Hpr : pruned_to (blocks self) t2 x).
Context (Houts : forall k d, (k, d) ∈ (item <$> outs) <-> fork_get t1 k = Some d /\ ~ (is_ancestor t1 x k = Some true /\ k <> x)).

(** The blocks that leave the tree are those that are not below the finalized one. *)
Lemma removed_block o :
  o ∈ outs -> exists d, fork_get (blocks self) (pn_index o) = Some d /\ bl_hash (pn_user_data o) = bl_hash d /\
    bl_user_data (pn_user_data o) = bl_user_data d /\ ~ below_strictly (blocks self) x (pn_index o).
Proof.
  intros Ho. assert ((pn_index o, pn_user_data o) ∈ (item <$> outs)) as Hio by (apply list_elem_of_fmap; eauto).
  apply Houts in Hio as [Hd Hns]. apply (updates_inv _ _ _ _ _ Hup) in Hd as (d & Hd & E). exists d. split; [done|].
  rewrite E. split_and!; [by case_decide|by case_decide|]. unfold below_strictly.
  by rewrite <- (updates_ancestor _ _ _ _ _ (ti_rep _ Hinv) Hup).
Qed.

Lemma block_removed k d :
  fork_get (blocks self) k = Some d -> ~ below_strictly (blocks self) x k -> exists o, o ∈ outs /\ bl_hash (pn_user_data o) = bl_hash d.
Proof.
  intros Hd Hns. assert ((k, if decide (k = x) then swap_header (finalized_block_header self) d else d) ∈ (item <$> outs)) as Hio.
  { apply Houts. split; [by eapply (updates_fwd _ _ _ _ _ Hup)|]. by rewrite (updates_ancestor _ _ _ _ _ (ti_rep _ Hinv) Hup). }
  apply list_elem_of_fmap in Hio as (o & E & Ho). exists o. split; [done|]. injection E as _ <-. by case_decide.
Qed.

(** The index by hash. *)
Lemma index_after (by_hash : gmap (list u8) NodeIndex) :
  (forall h k, by_hash !! h = Some k <-> blocks_by_hash self !! h = Some k /\ forall o, o ∈ outs -> bl_hash (pn_user_data o) <> h) ->
  forall h k, by_hash !! h = Some k <-> exists d, fork_get t2 k = Some d /\ bl_hash d = h.
Proof.
  intros Hbh h k. rewrite Hbh, (ti_index _ Hinv). split.
  - intros [(d & Hd & <-) Hno]. exists d. split; [|done]. apply (pr_get _ _ _ Hpr). split; [done|].
    change (below_strictly (blocks self) x k). destruct (ancestor_total (blocks self) x k (ti_rep _ Hinv) ltac:(by eexists)) as [a Ha].
    destruct a, (decide (k = x)); [|done| |]; exfalso.
    all: destruct (block_removed k d Hd) as (o & Ho & E); [unfold below_strictly; rewrite Ha; naive_solver|by apply (Hno o Ho)].
  - intros (d & (Hd & Hbs)%(pr_get _ _ _ Hpr) & <-). split; [eauto|]. intros o Ho E.
    destruct (removed_block o Ho) as (d' & Hd' & E' & _ & Hns). apply Hns.
    assert (pn_index o = k) as -> by (eapply ti_inj; [done..|congruence]). done.
Qed.

(** The blocks that stay were accepted on top of what is now their parent. *)
Lemma accepted_after self' k d q :
  blocks self' = t2 -> finalized_block_header self' = bl_header b -> parent_consensus self' None = Some (specific_of (bl_consensus b)) ->
  same_engine (finalized_consensus self) (finalized_consensus self') ->
  allow_unknown_consensus_engines self' = allow_unknown_consensus_engines self ->
  fork_get t2 k = Some d -> fork_parent t2 k = Some q -> accepted self' q (bl_header d) (bl_consensus d).
Proof.
  intros Ht Hh Hc He Hal Hd Hq. assert (in_tree t2 k) as Hk by (eexists; done). apply (pr_get _ _ _ Hpr) in Hd as (Hd & _).
  destruct (pr_parent _ _ _ Hpr k Hk) as [[Hp Hp2]|(p & Hne & Hp & Hp2)]; rewrite Hp2 in Hq; injection Hq as <-.
  all: eapply accepted_transfer; [..|eapply ti_accepted; [done|exact Hd|exact Hp]]; [| |done|done].
  - cbn. by rewrite Hx, Hh.
  - by rewrite (parent_consensus_get self x b Hx).
  - pose proof (fork_parent_in t2 k p (pr_rep _ _ _ Hpr) Hp2) as [pd Hpd]. cbn. rewrite Ht, Hpd.
    apply (pr_get _ _ _ Hpr) in Hpd as (-> & _). done.
  - pose proof (fork_parent_in t2 k p (pr_rep _ _ _ Hpr) Hp2) as [pd Hpd]. cbn. rewrite Ht, Hpd.
    apply (pr_get _ _ _ Hpr) in Hpd as (-> & _). done.
Qed.

(** The data that are yielded, from the finalized block to the oldest one. *)
Lemma yielded_after :
  Some (pn_index <$> filter (fun o => pn_is_prune_target_ancestor o = true) outs) = node_to_root_path t1 x ->
  exists path, node_to_root_path (blocks self) x = Some path /\
    mapM (fun k => bl_user_data <$> fork_get (blocks self) k) path =
    Some ((fun o => bl_user_data (pn_user_data o)) <$> filter (fun o => pn_is_prune_target_ancestor o = true) outs).
Proof.
  intros Hpath. eexists. split; [rewrite <- (updates_path _ _ _ x (ti_rep _ Hinv) Hup) by (by eexists); by rewrite <- Hpath|].
  apply mapM_yielded. intros o [_ Ho]%list_elem_of_filter. destruct (removed_block o Ho) as (d & -> & _ & -> & _). done.
Qed.

End setting.

Lemma set_finalized_at self x b :
  tree_inv self -> fork_get (blocks self) x = Some b ->
  match update_finality self x (hd_number (bl_header b)) with
  | None => set_finalized_inner self x = None
  | Some fin => exists self' yielded changed, set_finalized_inner self x = Some (self', yielded, changed) /\
      finalized_at self self' x b fin yielded changed
  end.
Proof.
  intros Hinv Hx. pose proof (ti_rep _ Hinv) as Hwf. assert (in_tree (blocks self) x) as Hxt by (eexists; done).
  unfold set_finalized_inner. rewrite Hx. destruct (update_finality self x _) as [fin|]; [|done].
  destruct (update_best_spec self x Hwf (ti_scored _ Hinv) (ti_keys _ Hinv) Hxt (ti_best _ Hinv)) as (best & changed & -> & Hbest & Hch).
  destruct (proj2 (fork_get_parent (blocks self) x) Hxt) as [xpar Hxpar].
  destruct (accepted_engine _ _ _ _ (ti_accepted _ Hinv x b xpar Hx Hxpar)) as (fc & -> & Hengine & Hnone).
  destruct (updates_get_mut (blocks self) x (swap_header (finalized_block_header self)) Hwf Hxt) as (t1 & -> & Hup).
  rewrite (ti_hash _ Hinv x b Hx). pose proof (updates_wf _ _ _ Hup Hwf) as [f1 Hf1].
  assert (in_tree t1 x) as Hxt1 by (by apply (updates_some _ _ _ _ Hup)).
  destruct (prune_ancestors_to t1 f1 x Hf1 Hxt1) as (outs & t2 & Hrun & Hpr1 & Hnd & Houts).
  destruct (prune_all_queries t1 f1 x false Hf1 Hxt1) as (outs' & t2' & Hrun' & _ & _ & _ & _ & Hpath).
  unfold prune_ancestors in Hrun |- *. rewrite Hrun in Hrun'. injection Hrun' as <- <-. rewrite Hrun.
  pose proof (pruned_after_update (blocks self) x Hwf t1 t2 _ Hup Hpr1) as Hpr.
  destruct (finalized_iter_spec (blocks_by_hash self) outs) as (by_hash & -> & Hbh).
  eexists _, _, _. split; [reflexivity|]. split; try done; [|by apply Hnone|by eapply yielded_after].
  set (self' := with_blocks t2 by_hash _).
  split; cbn [self' with_blocks with_current_best with_finality with_finalized blocks finalized_block_header finalized_block_hash blocks_by_hash current_best].
  - apply Hpr.
  - intros k [d Hd]. apply (ti_keys _ Hinv). apply (pr_get _ _ _ Hpr) in Hd as (? & _). by exists d.
  - by eapply ti_hash.
  - intros k d (Hd & _)%(pr_get _ _ _ Hpr). by eapply ti_hash.
  - by eapply index_after.
  - intros k d (Hd & _)%(pr_get _ _ _ Hpr). by eapply ti_header.
  - intros k d q Hd Hq. apply (accepted_after self x b t2 Hinv Hx Hpr self' k d q); try done. by apply Hnone.
  - by apply (pruned_best (blocks self) x Hwf t2 Hpr).
Qed.

End finality.

(** ** The authorities of GrandPa in the tree of blocks ([src/src/chain/blocks_tree/finality.rs])

    The changes of authorities that the blocks of a chain schedule; what a
    finalization does with them, and which proofs of finality are refused because
    of them. *)

(** ** The changes of a chain *)

(** The height at which a change triggers, and the new authorities. *)
Abbreviation Change := (u64 * list GrandpaAuthority)%type (only parsing).

Definition header_changes (h : Header) : list Change :=
  omap (fun item : DigestItem =>
    match item with
    | ItemGrandpaConsensus (ScheduledChange c) => Some (hd_number h + change_delay c, next_authorities c)
    | _ => None
    end) (dg_list (hd_digest h)).

(** The state of the authorities after a change, when the block at [height] is finalized. *)
Definition apply_change (height : u64) (st : grandpa_state) (c : Change) : grandpa_state :=
  let '(set_id, triggered, scheduled) := st in
  if height <? fst c then (set_id, triggered, Some c) else (wadd 64 set_id 1, snd c, scheduled).

Section grandpa.
Context `{Platform} `{Nom} `{NomMulti} `{Blake2b} `{Schnorrkel} `{Powf} `{Ed25519}.
Context {T : Type}.
Implicit Types self : NonFinalizedTree T.

(** From the oldest block to the newest. *)
Definition path_changes (t : ForkTree (Block T)) (path : list NodeIndex) : list Change :=
  flat_map (fun k => from_option (fun b => header_changes (bl_header b)) [] (fork_get t k)) path.
Definition chain_changes (t : ForkTree (Block T)) (k : NodeIndex) : list Change :=
  from_option (fun path => path_changes t (rev path)) [] (node_to_root_path t k).

Definition path_ok (t : ForkTree (Block T)) (path : list NodeIndex) : Prop :=
  forall k, k ∈ path -> exists b, fork_get t k = Some b /\ hdr_ok (bl_header b).

Lemma path_ok_cons t k path :
  path_ok t (k :: path) -> exists b, fork_get t k = Some b /\ hdr_ok (bl_header b) /\ path_ok t path /\
    path_changes t (k :: path) = header_changes (bl_header b) ++ path_changes t path.
Proof.
  intros Hok. destruct (Hok k) as (b & Hb & Hh); [by left|]. exists b. split_and!; [done|done| |].
  - intros j Hj. apply Hok. by right.
  - cbn. by rewrite Hb.
Qed.

(** The scheduled changes among the logs, with their heights. *)
Definition log_change (n : u64) (log : GrandpaConsensusLogRef) : option (u64 * GrandpaAuthoritiesIter) :=
  match log with ScheduledChange c => Some (n + change_delay c, next_authorities c) | _ => None end.

Lemma grandpa_logs_changes h :
  hdr_ok h -> exists logs, grandpa_logs h = Some logs /\
    omap (log_change (hd_number h)) logs = (fun '(n, l) => (n, Listed l)) <$> header_changes h.
Proof.
  intros Hh. unfold grandpa_logs. rewrite hdr_ok_logs by done. eexists. split; [done|].
  unfold items_of, header_changes. generalize (hd_number h) as n. intros n.
  induction (dg_list (hd_digest h)) as [|item l IH]; [done|]. cbn [map omap list_omap].
  destruct item as [| | | | | |log| | | | |]; cbn [DigestItemRef_from select_grandpa]; try exact IH.
  cbn [omap list_omap]. destruct log as [c|? c| | |]; cbn;
    try exact IH. by rewrite IH.
Qed.

(** *** The first trigger *)

(** A second change, or a height that is not an [u64], is a panic. *)
Fixpoint single_trigger (trigger : option u64) (l : list Change) : option (option u64) :=
  match l with
  | [] => Some trigger
  | (n, _) :: l =>
      if bool_decide (is_u64 n) then
        match trigger with
        | Some _ => None
        | None => single_trigger (Some n) l
        end
      else None
  end.

Lemma checked_decide n : checked 64 n = if bool_decide (is_u64 n) then Some n else None.
Proof.
  case_bool_decide; [by apply checked_small|]. by apply checked_None.
Qed.

Lemma next_trigger_changes n trigger logs l :
  omap (log_change n) logs = (fun '(n, l) => (n, Listed l)) <$> l -> next_trigger n trigger logs = single_trigger trigger l.
Proof.
  revert trigger l. induction logs as [|log logs IH]; intros trigger l E; cbn [next_trigger].
  { destruct l as [|[]]; done. }
  cbn [omap list_omap] in E. destruct log as [c|? c| | |]; cbn [log_change] in E; try by apply IH.
  destruct l as [|[m a] l]; [done|]. injection E as <- _ E. cbn [single_trigger]. unfold checked_add. rewrite checked_decide.
  case_bool_decide; [|done]. destruct trigger; [done|]. by apply IH.
Qed.

Lemma single_trigger_app trigger l l' :
  single_trigger trigger (l ++ l') = let! trigger := single_trigger trigger l in single_trigger trigger l'.
Proof.
  revert trigger. induction l as [|[n a] l IH]; intros trigger; [done|]. cbn [app single_trigger].
  destruct (bool_decide _); [|done]. by destruct trigger.
Qed.

Lemma would_happen_changes t trigger path :
  path_ok t path -> would_happen t trigger path = single_trigger trigger (path_changes t path).
Proof.
  revert trigger. induction path as [|k path IH]; intros trigger Hok; [done|]. cbn [would_happen].
  destruct (path_ok_cons t k path Hok) as (b & -> & Hh & Hok' & ->).
  destruct (grandpa_logs_changes _ Hh) as (logs & -> & Hl). rewrite (next_trigger_changes _ _ _ _ Hl), single_trigger_app.
  destruct (single_trigger trigger (header_changes (bl_header b))); [|done]. by apply IH.
Qed.

Lemma single_trigger_Some l r :
  single_trigger None l = Some r <-> (l = [] /\ r = None) \/ (exists n a, l = [(n, a)] /\ is_u64 n /\ r = Some n).
Proof.
  destruct l as [|[n a] [|[m b] l]]; cbn [single_trigger].
  - split; [intros [= <-]; by left|]. intros [[_ ->]|(? & ? & ? & _)]; done.
  - case_bool_decide; split.
    + intros [= <-]. right. eauto.
    + intros [[? _]|(? & ? & [= <- <-] & _ & ->)]; done.
    + done.
    + intros [[? _]|(? & ? & [= <- <-] & ? & ->)]; done.
  - split; [|intros [[? _]|(? & ? & ? & _)]; done]. case_bool_decide; [|done]. by case_bool_decide.
Qed.

(** *** The changes of a finalization *)

Lemma apply_changes_spec height n st logs l :
  omap (log_change n) logs = (fun '(n, l) => (n, Listed l)) <$> l ->
  apply_changes height n st logs =
  if bool_decide (Forall (fun c => is_u64 (fst c)) l) then Some (foldl (apply_change height) st l) else None.
Proof.
  revert st l. induction logs as [|log logs IH]; intros st l E; cbn [apply_changes].
  { destruct l as [|[]]; [|done]. rewrite bool_decide_eq_true_2; [done|constructor]. }
  cbn [omap list_omap] in E. destruct log as [c|? c| | |]; cbn [log_change] in E; try by apply IH.
  destruct l as [|[m a] l]; [done|]. injection E as <- Ha E. destruct st as [[set_id triggered] scheduled].
  unfold checked_add. rewrite checked_decide. rewrite Ha, iter_collect_listed. cbn [foldl apply_change fst snd].
  case_bool_decide as Hm.
  - rewrite (IH _ l E).
    destruct (bool_decide_reflect (Forall (fun c => is_u64 (fst c)) l)).
    + rewrite (bool_decide_eq_true_2 (Forall _ (_ :: _))) by (by constructor). by destruct (height <? _).
    + rewrite (bool_decide_eq_false_2 (Forall _ (_ :: _))) by (by intros [_ ?]%Forall_cons). done.
  - rewrite bool_decide_eq_false_2; [done|]. intros Hf. by apply Forall_cons in Hf as [? _].
Qed.

Lemma apply_path_spec t height st path :
  path_ok t path -> apply_path t height st path =
  if bool_decide (Forall (fun c => is_u64 (fst c)) (path_changes t path))
  then Some (foldl (apply_change height) st (path_changes t path)) else None.
Proof.
  revert st. induction path as [|k path IH]; intros st Hok; [by rewrite bool_decide_eq_true_2 by constructor|].
  cbn [apply_path]. destruct (path_ok_cons t k path Hok) as (b & -> & Hh & Hok' & ->).
  destruct (grandpa_logs_changes _ Hh) as (logs & -> & Hl). rewrite (apply_changes_spec _ _ _ _ _ Hl), foldl_app.
  rewrite (bool_decide_ext _ _ (Forall_app _ _ _)).
  destruct (bool_decide_reflect (Forall (fun c => is_u64 (fst c)) (header_changes (bl_header b)))) as [Hf|Hf].
  - rewrite IH by done. destruct (bool_decide_reflect (Forall (fun c => is_u64 (fst c)) (path_changes t path))) as [Hg|Hg].
    + by rewrite bool_decide_eq_true_2.
    + by rewrite bool_decide_eq_false_2 by tauto.
  - by rewrite bool_decide_eq_false_2 by tauto.
Qed.

(** ** The chain of a block *)

Lemma chain_path self k :
  tree_inv self -> in_tree (blocks self) k ->
  exists l, node_to_root_path (blocks self) k = Some l /\ root_to_node_path (blocks self) k = Some (rev l) /\
    path_ok (blocks self) (rev l).
Proof.
  intros Hinv Hk. destruct (root_path_rev (blocks self) k (ti_rep _ Hinv) (keys_ok_max _ (ti_keys _ Hinv)) Hk) as (l & Hl & Hr).
  exists l. split_and!; [done|done|]. intros j Hj. apply (proj1 (elem_of_rev l j)) in Hj.
  apply (path_ancestors _ _ _ _ (ti_rep _ Hinv) Hl Hk) in Hj. destruct (ancestor_get _ _ _ (ti_rep _ Hinv) Hj) as [[b Hb] _].
  exists b. split; [done|]. by eapply ti_header.
Qed.

(** The height of a block is that of the finalized one, plus its depth. *)
Lemma block_number self k b :
  tree_inv self -> fork_get (blocks self) k = Some b ->
  exists l, node_to_root_path (blocks self) k = Some l /\
    hd_number (bl_header b) = hd_number (finalized_block_header self) + len l.
Proof.
  intros Hinv Hk. assert (in_tree (blocks self) k) as Hkt by (eexists; done). revert b Hk.
  revert k Hkt. apply (node_ind (blocks self) (fun k => forall b, fork_get (blocks self) k = Some b -> _) (ti_rep _ Hinv)).
  - intros k Hp b Hb. destruct (fork_path _ k (ti_rep _ Hinv) ltac:(by eexists)) as (l & Hl & _ & _ & Hpar).
    rewrite Hp in Hpar. subst l. exists [k]. split; [done|].
    destruct (accepted_linked _ _ _ _ (ti_accepted _ Hinv k b _ Hb Hp)) as (parent & [= <-] & Hlk). cbn. apply (lk_number _ _ Hlk).
  - intros k p Hp IH b Hb. destruct (fork_path _ k (ti_rep _ Hinv) ltac:(by eexists)) as (l & Hl & _ & _ & Hpar).
    rewrite Hp in Hpar. destruct Hpar as [[pb Hpb] Hlp]. exists (k :: l). split; [done|].
    destruct (accepted_linked _ _ _ _ (ti_accepted _ Hinv k b _ Hb Hp)) as (parent & Hph & Hlk).
    cbn in Hph. rewrite Hpb in Hph. injection Hph as <-. destruct (IH pb Hpb) as (l' & Hl' & Hn).
    assert (l' = l) as -> by congruence. pose proof (lk_number _ _ Hlk) as E. cbn in E. rewrite len_cons. lia.
Qed.

(** Every height of the chain is found. *)
Lemma find_at_height_spec self k b l n :
  tree_inv self -> fork_get (blocks self) k = Some b -> node_to_root_path (blocks self) k = Some l ->
  exists r, find_at_height (blocks self) n l = Some r /\
    (is_Some r <-> hd_number (finalized_block_header self) < n <= hd_number (bl_header b)).
Proof.
  intros Hinv Hk. assert (in_tree (blocks self) k) as Hkt by (eexists; done). revert b l Hk.
  revert k Hkt. apply (node_ind (blocks self) (fun k => forall (b : Block T) (l : list NodeIndex),
    fork_get (blocks self) k = Some b -> node_to_root_path (blocks self) k = Some l ->
    exists r, find_at_height (blocks self) n l = Some r /\
      (is_Some r <-> hd_number (finalized_block_header self) < n <= hd_number (bl_header b))) (ti_rep _ Hinv)).
  - intros k Hp b l Hb Hl. destruct (fork_path _ k (ti_rep _ Hinv) ltac:(by eexists)) as (l' & Hl' & _ & _ & Hpar).
    rewrite Hp in Hpar. subst l'. assert (l = [k]) as -> by congruence. cbn [find_at_height]. rewrite Hb.
    destruct (block_number self k b Hinv Hb) as (l' & E & Hn). assert (l' = [k]) as -> by congruence. rewrite len_cons, len_nil in Hn.
    destruct (Z.eqb_spec (hd_number (bl_header b)) n); eexists; (split; [done|]); split; try (intros [? ?]); (eauto || lia || done).
  - intros k p Hp IH b l Hb Hl. destruct (fork_path _ k (ti_rep _ Hinv) ltac:(by eexists)) as (l' & Hl' & _ & _ & Hpar).
    rewrite Hp in Hpar. destruct Hpar as [[pb Hpb] Hlp]. assert (l = k :: l') as -> by congruence. cbn [find_at_height]. rewrite Hb.
    destruct (block_number self k b Hinv Hb) as (l1 & E1 & Hn). assert (l1 = k :: l') as -> by congruence. rewrite len_cons in Hn.
    destruct (block_number self p pb Hinv Hpb) as (l2 & E2 & Hn2). assert (l2 = l') as -> by congruence. pose proof (len_nonneg l').
    destruct (Z.eqb_spec (hd_number (bl_header b)) n).
    + eexists. split; [done|]. split; [lia|]. eauto.
    + destruct (IH pb l' Hpb Hlp) as (r & -> & Hr). exists r. split; [done|]. rewrite Hr. lia.
Qed.

(** ** Finalization *)

(** The changes of the chain of the block are applied in order, without the change
    that was pending. *)
Lemma update_finality_spec self k height set_id triggered scheduled :
  tree_inv self -> in_tree (blocks self) k -> finality self = FinalityGrandpa set_id triggered scheduled ->
  update_finality self k height =
  if bool_decide (Forall (fun c => is_u64 (fst c)) (chain_changes (blocks self) k)) then
    let '(set_id, triggered, scheduled) := foldl (apply_change height) (set_id, triggered, None) (chain_changes (blocks self) k) in
    Some (FinalityGrandpa set_id triggered scheduled)
  else None.
Proof.
  intros Hinv Hk Hf. unfold update_finality. rewrite Hf. destruct (chain_path self k Hinv Hk) as (l & Hl & -> & Hok).
  rewrite apply_path_spec by done. unfold chain_changes. rewrite Hl. cbn [from_option]. case_bool_decide; [|done].
  by destruct (foldl _ _ _) as [[? ?] ?].
Qed.

Lemma apply_change_scheduled height st l n a :
  (forall n a, snd st = Some (n, a) -> height < n) -> snd (foldl (apply_change height) st l) = Some (n, a) -> height < n.
Proof.
  revert st. induction l as [|c l IH]; intros st Hst; cbn [foldl]; [by apply Hst|]. apply IH. intros m b.
  destruct st as [[set_id triggered] scheduled]. cbn [apply_change snd]. destruct (Z.ltb_spec height (fst c)); cbn [snd].
  - intros [= ->]. done.
  - apply Hst.
Qed.

(** The pending change is after the finalized block. *)
Definition finality_ok self : Prop :=
  forall set_id triggered n l, finality self = FinalityGrandpa set_id triggered (Some (n, l)) ->
    hd_number (finalized_block_header self) < n.

(** ** The check of a proof of finality *)

Definition trigger_of (l : list Change) : option u64 := fst <$> head l.

(** The target can be finalized with the current authorities: it is above the finalized
    block and known, and nothing changes the authorities below it. *)
Record finality_target self (hash : list u8) (number : u64) (scheduled : option Change) (k : NodeIndex) : Prop := {
  ft_number : hd_number (finalized_block_header self) < number;
  ft_block : blocks_by_hash self !! hash = Some k;
  ft_scheduled : forall n l, scheduled = Some (n, l) -> number <= n;
  ft_changes : chain_changes (blocks self) k = [] \/
    exists n l, chain_changes (blocks self) k = [(n, l)] /\ is_u64 n /\ number <= n
}.

(** The reasons for a panic. *)
Definition finality_panic self (number : u64) (scheduled : option Change) (k : NodeIndex) (b : Block T) : Prop :=
  (2 <= length (chain_changes (blocks self) k))%nat \/
  (exists n l, chain_changes (blocks self) k = [(n, l)] /\ ~ is_u64 n) \/
  (exists n, earliest (fst <$> scheduled) (trigger_of (chain_changes (blocks self) k)) = Some n /\ n < number /\
    ~ hd_number (finalized_block_header self) < n <= hd_number (bl_header b)).

Section check.
Context (self : NonFinalizedTree T) (set_id : u64) (triggered : list GrandpaAuthority) (scheduled : option Change).
Context (Hinv : tree_inv self) (Hfin : finality self = FinalityGrandpa set_id triggered scheduled).

(** The end of [verify_grandpa_finality], for a known block. *)
Definition finality_answer (hash : list u8) (number : u64) (k : NodeIndex) : outcome FinalityVerifyError (NodeIndex * u64 * list (list u8)) :=
  let! would := single_trigger None (chain_changes (blocks self) k) in
  match earliest (fst <$> scheduled) would with
  | Some n =>
      if n <? number then
        let! path := node_to_root_path (blocks self) k in
        let! r := find_at_height (blocks self) n path in
        let! r := r in
        Some (Err (TooFarAhead number hash n r))
      else Some (Ok (k, set_id, grandpa_public_key <$> triggered))
  | None => Some (Ok (k, set_id, grandpa_public_key <$> triggered))
  end.

Lemma earliest_le a b n : earliest a b = Some n -> forall m, a = Some m -> n <= m.
Proof. destruct a, b; intros [= <-] m [= <-]; lia. Qed.

Lemma verify_grandpa_finality_answer hash number :
  verify_grandpa_finality self hash number =
  if number =? hd_number (finalized_block_header self) then
    Some (Err (if bool_decide (hash = finalized_block_hash self) then EqualToFinalized else EqualFinalizedHeightButInequalHash))
  else if number <? hd_number (finalized_block_header self) then Some (Err BelowFinalized)
  else
    match blocks_by_hash self !! hash with
    | Some k => finality_answer hash number k
    | None => Some (Err (UnknownTargetBlock number hash))
    end.
Proof.
  unfold verify_grandpa_finality. rewrite Hfin. do 2 (case_if; [done|]).
  destruct (blocks_by_hash self !! hash) as [k|] eqn:Hk; [|done]. cbn [ok_or outcome_bind].
  assert (in_tree (blocks self) k) as Hkt by (apply ti_index in Hk as (b & Hb & _); [by exists b|done]).
  destruct (chain_path self k Hinv Hkt) as (l & Hl & -> & Hok). rewrite would_happen_changes by done.
  unfold finality_answer, chain_changes. rewrite Hl. cbn [from_option].
  destruct (single_trigger None _) as [would|]; [|done].
  destruct (earliest (fst <$> scheduled) would) as [n|] eqn:He.
  - destruct (Z.ltb_spec n number) as [|Hle]; [done|]. destruct scheduled as [[m a]|]; [|done].
    pose proof (earliest_le _ _ _ He m eq_refl). rewrite (proj2 (Z.ltb_ge m number)) by lia. done.
  - destruct scheduled as [[m a]|], would; done.
Qed.

Lemma single_trigger_None l :
  single_trigger None l = None <-> (2 <= length l)%nat \/ exists n a, l = [(n, a)] /\ ~ is_u64 n.
Proof.
  destruct l as [|[n a] [|[m b] l]]; cbn [single_trigger length].
  - split; [done|]. intros [?|(? & ? & ? & _)]; [lia|done].
  - case_bool_decide; split; try done; [|by right; eauto]. intros [?|(? & ? & [= <- <-] & ?)]; [lia|done].
  - split; [left; lia|]. intros _. case_bool_decide; [|done]. by case_bool_decide.
Qed.

Lemma single_trigger_head l would : single_trigger None l = Some would -> would = trigger_of l.
Proof. intros [[-> ->]|(n & a & -> & _ & ->)]%single_trigger_Some; done. Qed.

Lemma earliest_ge a b m :
  (forall n, earliest a b = Some n -> m <= n) <-> (forall n, a = Some n -> m <= n) /\ (forall n, b = Some n -> m <= n).
Proof.
  destruct a as [a|], b as [b|]; cbn; split; try naive_solver.
  - intros Hn. specialize (Hn _ eq_refl). split; intros ? [= <-]; lia.
  - intros [Ha Hb] n [= <-]. specialize (Ha _ eq_refl). specialize (Hb _ eq_refl). lia.
Qed.

(** The three answers. *)
Lemma finality_answer_cases hash number k b :
  fork_get (blocks self) k = Some b ->
  let cs := chain_changes (blocks self) k in
  match earliest (fst <$> scheduled) (trigger_of cs) with
  | Some n => n < number
  | None => False
  end ->
  single_trigger None cs <> None ->
  exists n, earliest (fst <$> scheduled) (trigger_of cs) = Some n /\
    ((hd_number (finalized_block_header self) < n <= hd_number (bl_header b) /\
      exists h, finality_answer hash number k = Some (Err (TooFarAhead number hash n h))) \/
     (~ hd_number (finalized_block_header self) < n <= hd_number (bl_header b) /\ finality_answer hash number k = None)).
Proof.
  intros Hb cs Hlt Hs. unfold finality_answer. fold cs. destruct (single_trigger None cs) as [would|] eqn:Es; [|done].
  rewrite (single_trigger_head _ _ Es). destruct (earliest _ _) as [n|]; [|done]. exists n. split; [done|].
  rewrite (proj2 (Z.ltb_lt n number)) by done. assert (in_tree (blocks self) k) as Hk by (eexists; done).
  destruct (chain_path self k Hinv Hk) as (l & Hl & _). rewrite Hl.
  destruct (find_at_height_spec self k b l n Hinv Hb Hl) as (r & -> & Hr). destruct r as [h|].
  - left. split; [apply Hr; eauto|]. eauto.
  - right. split; [|done]. intros Hn%Hr. by destruct Hn.
Qed.

Lemma finality_answer_Ok hash number k b r :
  fork_get (blocks self) k = Some b ->
  finality_answer hash number k = Some (Ok r) <->
  r = (k, set_id, grandpa_public_key <$> triggered) /\ (forall n l, scheduled = Some (n, l) -> number <= n) /\
  (chain_changes (blocks self) k = [] \/ exists n l, chain_changes (blocks self) k = [(n, l)] /\ is_u64 n /\ number <= n).
Proof.
  intros Hb. set (cs := chain_changes (blocks self) k).
  assert (Hchanges : (cs = [] \/ exists n l, cs = [(n, l)] /\ is_u64 n /\ number <= n) <->
    single_trigger None cs <> None /\ forall n, trigger_of cs = Some n -> number <= n).
  { split.
    - intros [->|(n & l & -> & Hu & Hn)]; [done|]. split; [cbn; by rewrite bool_decide_eq_true_2|]. by intros ? [= <-].
    - intros [Hs Ht]. destruct (single_trigger None cs) as [w|] eqn:Es; [|done].
      apply single_trigger_Some in Es as [[-> _]|(n & l & -> & Hu & _)]; [by left|]. right. exists n, l. split_and!; [done|done|].
      by apply Ht. }
  rewrite Hchanges. assert (Hsched : (forall n l, scheduled = Some (n, l) -> number <= n) <-> forall n, fst <$> scheduled = Some n -> number <= n).
  { split; [intros Hn n ([m l] & E & ->)%fmap_Some; by eapply Hn|]. intros Hn n l ->. by apply Hn. }
  rewrite Hsched. destruct (single_trigger None cs) as [w|] eqn:Es.
  2:{ unfold finality_answer. fold cs. rewrite Es. naive_solver. }
  destruct (earliest (fst <$> scheduled) (trigger_of cs)) as [n|] eqn:Ee.
  - destruct (Z.lt_ge_cases n number) as [Hlt|Hge].
    + destruct (finality_answer_cases hash number k b Hb) as (m & E & Hcase).
      { fold cs. by rewrite Ee. } { fold cs. by rewrite Es. }
      assert (finality_answer hash number k <> Some (Ok r)) as Hne by (destruct Hcase as [[_ [h ->]]|[_ ->]]; done).
      split; [done|]. intros (_ & Ha & _ & Hc). pose proof (proj2 (earliest_ge (fst <$> scheduled) (trigger_of cs) number) (conj Ha Hc) n Ee). lia.
    + unfold finality_answer. fold cs. rewrite Es, (single_trigger_head _ _ Es), Ee, (proj2 (Z.ltb_ge n number)) by lia.
      split; [intros [= <-]|by intros (-> & _)]. split; [done|].
      destruct (proj1 (earliest_ge (fst <$> scheduled) (trigger_of cs) number)) as [Ha Hc]; [intros m ?; replace m with n by congruence; lia|]. done.
  - unfold finality_answer. fold cs. rewrite Es, (single_trigger_head _ _ Es), Ee.
    split; [intros [= <-]|by intros (-> & _)]. split; [done|].
    destruct (proj1 (earliest_ge (fst <$> scheduled) (trigger_of cs) number)) as [Ha Hc]; [by rewrite Ee|]. done.
Qed.

Lemma finality_answer_None hash number k b :
  fork_get (blocks self) k = Some b -> finality_answer hash number k = None <-> finality_panic self number scheduled k b.
Proof.
  intros Hb. unfold finality_panic. set (cs := chain_changes (blocks self) k). rewrite <- Logic.or_assoc, <- single_trigger_None.
  destruct (single_trigger None cs) as [w|] eqn:Es.
  2:{ unfold finality_answer. fold cs. rewrite Es. naive_solver. }
  split.
  - intros Hn. right. destruct (earliest (fst <$> scheduled) (trigger_of cs)) as [n|] eqn:Ee.
    2:{ unfold finality_answer in Hn. fold cs in Hn. by rewrite Es, (single_trigger_head _ _ Es), Ee in Hn. }
    destruct (Z.lt_ge_cases n number) as [Hlt|Hge].
    2:{ unfold finality_answer in Hn. fold cs in Hn. by rewrite Es, (single_trigger_head _ _ Es), Ee, (proj2 (Z.ltb_ge n number)) in Hn. }
    destruct (finality_answer_cases hash number k b Hb) as (m & E & Hcase).
    { fold cs. by rewrite Ee. } { fold cs. by rewrite Es. }
    destruct Hcase as [[_ [h Hh]]|[Hno _]]; [congruence|]. exists n. fold cs in E. rewrite Ee in E. injection E as <-. done.
  - intros [?|(n & Ee & Hlt & Hno)]; [done|]. destruct (finality_answer_cases hash number k b Hb) as (m & E & Hcase).
    { fold cs. by rewrite Ee. } { fold cs. by rewrite Es. }
    fold cs in E. rewrite Ee in E. injection E as <-. destruct Hcase as [[? _]|[_ ?]]; done.
Qed.

(** The check accepts exactly the targets above. *)
Lemma verify_grandpa_finality_Ok hash number r :
  verify_grandpa_finality self hash number = Some (Ok r) <->
  exists k, r = (k, set_id, grandpa_public_key <$> triggered) /\ finality_target self hash number scheduled k.
Proof.
  rewrite verify_grandpa_finality_answer.
  destruct (Z.eqb_spec number (hd_number (finalized_block_header self))).
  { split; [done|]. intros (k & _ & [? _ _ _]). lia. }
  destruct (Z.ltb_spec number (hd_number (finalized_block_header self))).
  { split; [done|]. intros (k & _ & [? _ _ _]). lia. }
  destruct (blocks_by_hash self !! hash) as [k|] eqn:Hk.
  2:{ split; [done|]. intros (k & _ & [_ ? _ _]). congruence. }
  pose proof (proj1 (ti_index _ Hinv hash k) Hk) as (b & Hb & _). rewrite (finality_answer_Ok _ _ _ b) by done. split.
  - intros (-> & Hs & Hc). exists k. split; [done|]. split; [lia|done|done|done].
  - intros (k' & -> & [_ Hk' Hs Hc]). assert (k' = k) as -> by congruence. done.
Qed.

(** And it panics exactly in the cases above. *)
Lemma verify_grandpa_finality_None hash number :
  verify_grandpa_finality self hash number = None <->
  hd_number (finalized_block_header self) < number /\
  exists k b, blocks_by_hash self !! hash = Some k /\ fork_get (blocks self) k = Some b /\ finality_panic self number scheduled k b.
Proof.
  rewrite verify_grandpa_finality_answer.
  destruct (Z.eqb_spec number (hd_number (finalized_block_header self))); [split; [done|]; intros [? _]; lia|].
  destruct (Z.ltb_spec number (hd_number (finalized_block_header self))); [split; [done|]; intros [? _]; lia|].
  destruct (blocks_by_hash self !! hash) as [k|] eqn:Hk; [|naive_solver].
  pose proof (proj1 (ti_index _ Hinv hash k) Hk) as (b & Hb & _). rewrite (finality_answer_None _ _ _ b) by done. split.
  - intros Hp. split; [lia|]. eauto.
  - intros (_ & k' & b' & [= <-] & Hb' & Hp). congruence.
Qed.

End check.
End grandpa.
