(* ===== verification/BlocksTreeRun.v ===== *)
(** * The tree of blocks over its runs ([src/src/chain/blocks_tree.rs])

    A run starts with [NonFinalizedTree::new] and goes through the operations that
    change the tree: a header that is verified and inserted, an assignment of user
    data, [clear], and finalization, by itself or after a justification or a commit that
    was verified.

    The epochs of an accepted block follow from those of its parent as
    [ChainInformationRef::validate] asks; the information of the finalized block can
    then always be exported. *)

From S2P Require Import Prelude Leb128 Scale Nibble TrieNode BTree ForkTree ForkTreePrune ForkTreeFacts HeaderBase HeaderAura HeaderBabe HeaderGrandpa Header HeaderDigest HeaderCodec ChainInformation FinalityBase Justification JustificationVerify Commit CommitVerify VerifyBase VerifyBabe VerifyBabeSpec HeaderOnly BlocksTree BlocksTreeBest BlocksTreeInv BlocksTreeFinality.

Open Scope Z_scope.

(** The epochs of the children of a block, given its number. *)
Definition specific_valid (number : u64) (spec : VerifyConsensusSpecific) : Prop :=
  match spec with
  | SpecificBabe current next => epochs_valid number current next /\ 0 <= epoch_index next
  | _ => True
  end.

Section epochs.
Context `{Platform} `{Nom} `{NomMulti} `{Blake2b} `{Schnorrkel} `{Powf} `{Ed25519}.
Context {T : Type}.
Implicit Types self : NonFinalizedTree T.

(** What a header that is accepted says about the epochs. *)
Lemma babe_accepted_epochs (config : VerifyConfig) s :
  verify_header config = Some (Ok s) ->
  match vs_epoch_transition_target s with
  | None => is_Some (bc_parent_block_epoch config)
  | Some target => epoch_index target = epoch_index (bc_parent_block_next_epoch config) + 1 /\
      is_u64 (epoch_index target) /\ is_Some (start_slot_number target) /\ epoch_valid target
  end.
Proof.
  unfold verify_header. cbv zeta. intros (pre & _ & Hv)%step_Ok. apply outcome_bind_Ok in Hv as (p & _ & Hv).
  apply outcome_bind_Ok in Hv as (pslot & _ & Hv). destruct (negb (epochs_asserted config pslot)); [done|].
  apply step_Ok in Hv as (info & _ & Hv). apply outcome_bind_Ok in Hv as (epoch & Hepoch & Hv).
  apply outcome_bind_Ok in Hv as (u1 & _ & Hv). apply step_Ok in Hv as (seal & _ & Hv).
  apply outcome_bind_Ok in Hv as (seal' & _ & Hv). apply outcome_bind_Ok in Hv as (sig & _ & Hv).
  apply step_Ok in Hv as (target & Ht & Hv). apply outcome_bind_Ok in Hv as (u & Hval & Hv).
  apply step_Ok in Hv as (hash & _ & Hv). apply outcome_bind_Ok in Hv as (author & _ & Hv).
  apply step_Ok in Hv as (key & _ & Hv). destruct (negb _); [done|].
  apply outcome_bind_Ok in Hv as (u2 & _ & Hv). apply outcome_bind_Ok in Hv as (u3 & _ & [= <-]). cbn [vs_epoch_transition_target].
  unfold block_epoch_info in Hepoch. destruct info as [[info cfg]|]; cbn [transition_target] in Ht.
  - rewrite bool_decide_eq_true_2 in Hepoch by eauto.
    assert (epoch = bc_parent_block_next_epoch config) as ->.
    { destruct (bc_parent_block_epoch config); repeat case_match; congruence. }
    apply step_Ok in Ht as (index & Hi & Ht). apply step_Ok in Ht as (start & _ & Ht).
    apply step_Ok in Ht as (l & _ & [= <-]). cbn [validate_target] in Hval.
    unfold checked_add in Hi. apply checked_Some in Hi as [-> Hu]. cbn [epoch_index start_slot_number]. split_and!; [done|done|eauto|].
    set (target := mkBabeEpochInformation _ _ _ _ _ _) in *. unfold BabeEpochInformation_validate in Hval.
    destruct (BabeEpochInformationRef_validate (BabeEpochInformationRef_from target)) as [[]|] eqn:E; [|done].
    by apply epoch_validate_spec in E.
  - injection Ht as <-. rewrite bool_decide_eq_false_2 in Hepoch by (by intros [? ?]).
    destruct (bc_parent_block_epoch config); [eauto|]. case_match; done.
Qed.

Lemma epoch_valid_ref e : epoch_valid (BabeEpochInformationRef_from e) <-> epoch_valid e.
Proof. done. Qed.

(** The epochs of a block follow those of its parent. *)
Lemma accepted_valid self par parent spec h c :
  parent_header self par = Some parent -> parent_consensus self par = Some spec ->
  specific_valid (hd_number parent) spec -> 0 <= hd_number parent -> accepted self par h c ->
  specific_valid (hd_number h) (specific_of c).
Proof.
  intros Hp Hspec Hvalid Hnn (parent' & spec' & now & consensus & s & Hp' & Hspec' & Hc & Hv & Hs).
  assert (parent' = parent) as -> by congruence. assert (spec' = spec) as -> by congruence.
  pose proof (lk_number _ _ (verify_linked _ _ Hv)) as Hn. cbn in Hn.
  assert (hd_number h <> 0) as Hne by lia.
  destruct spec as [|l|current next]; [|destruct s as [[]|? []]; cbn in Hs; try done; by injection Hs as <-|].
  { by destruct s as [[]|? []]. }
  destruct Hvalid as [[Hvn Hvs Hvc Hve] Hi]. destruct s as [[]|slot target]; cbn in Hs; try done.
  unfold header_config_consensus in Hc. cbn [vc_chain vc_consensus] in Hc. destruct (finalized_consensus self) as [| |c0 n0 spe]; [done|done|].
  injection Hc as <-. unfold verify in Hv. apply step_Ok in Hv as (hash & _ & Hv). do 2 (case_if; [done|]).
  apply step_Ok in Hv as (engine & _ & Hv). destruct engine; [done|]. unfold verify_consensus in Hv. cbn [ho_consensus] in Hv.
  apply step_Ok in Hv as (other & _ & Hv). destruct other; [done|].
  apply outcome_bind_Ok in Hv as (r & Hr%outcome_map_err_Ok & [= <- Ht]). apply babe_accepted_epochs in Hr. rewrite Ht in Hr. clear Ht.
  destruct target as [target|]; injection Hs as <-; cbn [specific_of specific_valid].
  - destruct Hr as (Hidx & Hu & [st Hst] & Hev). cbn in Hidx.
    split; [split|lia]; [done| | |].
    + rewrite Hst. split; [done|]. lia.
    + done.
    + intros e [= <-]. unfold start_at. split_and!; [done| |].
      * destruct (start_slot_number next); by eexists.
      * cbn. unfold wadd. rewrite Hidx in *. by apply wrap_small.
  - cbn in Hr. apply fmap_is_Some in Hr as [e He]. split; [split|done]; [done|done| |done].
    rewrite He. split; [done|lia].
Qed.

(** ** The finalized block *)

Record finalized_valid self : Prop := {
  fv_number : 0 <= hd_number (finalized_block_header self);
  fv_spec : forall spec, parent_consensus self None = Some spec -> specific_valid (hd_number (finalized_block_header self)) spec;
  fv_grandpa : forall set_id triggered scheduled, finality self = FinalityGrandpa set_id triggered scheduled ->
    grandpa_valid (hd_number (finalized_block_header self)) set_id scheduled
}.

(** Every block of the tree is valid. *)
Lemma block_valid self k b :
  tree_inv self -> finalized_valid self -> fork_get (blocks self) k = Some b ->
  specific_valid (hd_number (bl_header b)) (specific_of (bl_consensus b)) /\
  hd_number (finalized_block_header self) < hd_number (bl_header b).
Proof.
  intros Hinv Hfin Hk. destruct (block_number self k b Hinv Hk) as (l & Hl & Hnum). split.
  2:{ destruct (fork_path _ k (ti_rep _ Hinv) ltac:(by eexists)) as (l' & Hl' & _). assert (l = k :: l') as -> by congruence.
      rewrite len_cons in Hnum. pose proof (len_nonneg l'). lia. }
  clear l Hl Hnum. assert (in_tree (blocks self) k) as Hkt by (eexists; done). revert b Hk. revert k Hkt.
  apply (node_ind (blocks self) (fun k => forall b, fork_get (blocks self) k = Some b ->
    specific_valid (hd_number (bl_header b)) (specific_of (bl_consensus b))) (ti_rep _ Hinv)).
  - intros k Hp b Hb. pose proof (ti_accepted _ Hinv k b _ Hb Hp) as Ha.
    destruct Ha as (parent & spec & ? & ? & ? & Hph & Hpc & _). cbn in Hph. injection Hph as <-.
    eapply (accepted_valid self None); [done|exact Hpc|by apply Hfin|apply Hfin|by eapply ti_accepted].
  - intros k p Hp IH b Hb. destruct (fork_parent_in _ _ _ (ti_rep _ Hinv) Hp) as [pb Hpb].
    eapply (accepted_valid self (Some p)); [by cbn; rewrite Hpb|by apply parent_consensus_get|by apply IH| |by eapply ti_accepted].
    destruct (block_number self p pb Hinv Hpb) as (l & _ & ->). pose proof (fv_number _ Hfin). pose proof (len_nonneg l). lia.
Qed.

Lemma new_valid config self :
  ValidChainInformation_try_from (valid_inner (tc_chain_information config)) = Ok (tc_chain_information config) ->
  0 <= hd_number (ci_finalized_block_header (valid_inner (tc_chain_information config))) ->
  match ci_consensus (valid_inner (tc_chain_information config)) with
  | ConsensusBabe _ _ next => 0 <= epoch_index next
  | _ => True
  end ->
  NonFinalizedTree_new config = Some self -> finalized_valid self.
Proof.
  intros Hvalid Hn Hi. unfold NonFinalizedTree_new. destruct (Header_hash _) as [hash|]; [|done]. intros [= <-].
  set (info := valid_inner (tc_chain_information config)) in *. unfold ValidChainInformation_try_from in Hvalid.
  destruct (ChainInformationRef_validate _) as [[]|] eqn:Hv; [|done]. apply validate_spec in Hv as [Hc Hg].
  unfold ChainInformationRef_from in Hc, Hg. cbn [ci_consensus ci_finality ci_finalized_block_header HeaderRef_from hd_number] in Hc, Hg.
  split; cbn [finalized_block_header finality finalized_consensus parent_consensus]; [done| |].
  - intros spec [= <-]. destruct (ci_consensus info) as [| |spe current next]; [done|done|].
    cbn [ChainInformationConsensusRef_from] in Hc. destruct Hc as [Hvn Hvs Hvc Hve]. split; [|done]. split; [done|done| |].
    + rewrite <- Hvc. by destruct current.
    + intros e ->. by apply (Hve (BabeEpochInformationRef_from e)).
  - intros set_id triggered scheduled. by destruct (ci_finality info); intros [= <- <- <-].
Qed.

(** The finalized block stays valid. *)
Lemma finalized_at_valid self self' x b yielded changed fin :
  tree_inv self -> finalized_valid self -> fork_get (blocks self) x = Some b ->
  update_finality self x (hd_number (bl_header b)) = Some fin ->
  finalized_at self self' x b fin yielded changed -> finalized_valid self'.
Proof.
  intros Hinv Hfin Hx Hup Hat. destruct (block_valid self x b Hinv Hfin Hx) as [Hb Hlt].
  pose proof (fv_number _ Hfin). split; rewrite (fa_header _ _ _ _ _ _ _ Hat); [lia| |].
  { intros spec. rewrite (fa_consensus _ _ _ _ _ _ _ Hat). by intros [= <-]. }
  intros set_id triggered scheduled Hf. rewrite (fa_finality _ _ _ _ _ _ _ Hat) in Hf. subst fin.
  split; [|lia]. intros n l ->. destruct (finality self) as [|id0 tr0 sc0] eqn:Ef; [by unfold update_finality in Hup; rewrite Ef in Hup|].
  rewrite (update_finality_spec self x _ id0 tr0 sc0) in Hup; [|done|by eexists|done].
  case_bool_decide; [|done]. destruct (foldl _ _ _) as [[id1 tr1] sc1] eqn:Efold. injection Hup as -> -> ->.
  eapply (apply_change_scheduled _ (id0, tr0, None)); [done|]. by rewrite Efold.
Qed.

(** The chain information is exported without a panic. *)
Lemma as_chain_information_valid self :
  finalized_valid self -> exists info, as_chain_information self = Some info /\ chain_valid (valid_inner info).
Proof.
  intros [Hn Hs Hg]. unfold as_chain_information, ValidChainInformationRef_try_from.
  set (info := mkChainInformation _ _ _). assert (chain_valid info) as Hvalid.
  { split; cbn [info ci_consensus ci_finality ci_finalized_block_header HeaderRef_from hd_number].
    - unfold finalized_consensus_ref. cbn [parent_consensus] in Hs. destruct (finalized_consensus self) as [| |current next spe]; [done|done|].
      destruct (Hs _ eq_refl) as [[Hvn Hvs Hvc Hve] _]. split; [done|done| |].
      + rewrite <- Hvc. by destruct current.
      + intros e (e' & -> & ->)%fmap_Some. by apply (Hve e').
    - destruct (finality self) as [|id tr sc]; [done|]. by eapply Hg. }
  rewrite (proj2 (validate_spec info) Hvalid). eexists. split; [done|]. done.
Qed.

End epochs.

(** ** Runs of the tree *)

(** ** Proofs of finality *)

Section proofs.
Context `{Platform} `{Nom} `{!NomLaws} `{NomMulti} `{!NomMultiLaws} `{Blake2b} `{Schnorrkel} `{Powf} `{Ed25519} `{!Ed25519Laws}.
Context {T : Type}.
Implicit Types self : NonFinalizedTree T.

(** A vote: the key and the signature, the block and its number. *)
Record Vote := mkVote { vt_key : list u8; vt_signature : list u8; vt_hash : list u8; vt_number : u64 }.

Definition signed (bnb : usize) (round set_id : u64) (v : Vote) : Prop :=
  ed25519_verify (vt_key v) (vt_signature v) (precommit_message bnb (vt_hash v) (vt_number v) round set_id) = true.

(** The votes are a proof that a block can be finalized: they are of distinct authorities of the
    current set and of more than two thirds of them (whose number times two is a [usize]), and their
    signatures are valid; the block can be finalized with this set. *)
Record proven self (k : NodeIndex) (hash : list u8) (number : u64) (round : u64) (votes : list Vote) : Prop := {
  pv_finality : exists set_id triggered scheduled,
    finality self = FinalityGrandpa set_id triggered scheduled /\ finality_target self hash number scheduled k /\
    Forall (fun v => vt_key v ∈ grandpa_public_key <$> triggered) votes /\
    (2 * len triggered < 2 ^ usize_bits -> 2 * len triggered < 3 * len votes) /\ Forall (signed (nt_block_number_bytes self) round set_id) votes;
  pv_distinct : NoDup (vt_key <$> votes)
}.

Lemma len_fmap {A B} (f : A -> B) (l : list A) : len (f <$> l) = len l.
Proof. unfold len. by rewrite length_fmap. Qed.

(** The vote of a precommit of a justification. *)
Definition precommit_vote (p : Precommit) : Vote :=
  mkVote (pc_authority_public_key p) (pc_signature p) (pc_target_hash p) (pc_target_number p).

Lemma justification_proven self engine bs k :
  tree_inv self -> tree_verify_justification self engine bs = Some (Ok k) ->
  engine = engine_grandpa /\ exists d l, decode_grandpa bs (nt_block_number_bytes self) = Some (Ok d) /\
    PrecommitsRef_collect (jr_precommits d) = Some l /\
    proven self k (jr_target_hash d) (jr_target_number d) (jr_round d) (precommit_vote <$> l).
Proof.
  intros Hinv. unfold tree_verify_justification. destruct (finality self) as [|set_id triggered scheduled] eqn:Hfin; [done|].
  case_bool_decide; [|done]. intros (d & Hd%outcome_map_err_Ok & Hv)%outcome_bind_Ok. split; [done|]. exists d.
  apply outcome_bind_Ok in Hv as ([[k' id] keys] & Hf%outcome_map_err_Ok & Hv).
  apply (verify_grandpa_finality_Ok self _ _ _ Hinv Hfin) in Hf as (k0 & [= -> -> ->] & Htarget).
  apply outcome_bind_Ok in Hv as ([] & Hj%outcome_map_err_Ok & [= <-]).
  apply JustificationVerify.verify_ok in Hj as (l & Hcol & Hlen & [Hauth Hnd] & Hsig).
  exists l. split; [done|]. split; [exact Hcol|]. cbn [JustificationVerify.cf_authorities_list] in *.
  split.
  - exists set_id, triggered, scheduled. split_and!; [done|done| | |].
    + rewrite Forall_fmap. exact Hauth.
    + rewrite !len_fmap in *. intros Hs. apply quorum_iff; [apply len_nonneg|done..].
    + rewrite Forall_fmap. exact Hsig.
  - rewrite <- list_fmap_compose. exact Hnd.
Qed.

(** *** Commits *)

(** The answers of the tree to the questions of the verification. *)
Definition answer_authority (keys : list (list u8)) (key : list u8) : bool := existsb (fun a => bool_decide (a = key)) keys.
Definition answer_parent self (k : NodeIndex) (hash : list u8) (number : u64) : option bool :=
  match blocks_by_hash self !! hash with Some idx => is_ancestor (blocks self) k idx | None => None end.

Definition commit_result (k : NodeIndex) (number : u64) (final : InProgress) : result CommitVerifyError NodeIndex :=
  match final with
  | Finished (Ok tt) => Ok k
  | Finished (Err e) => Err (CvVerificationFailed e)
  | _ => Err (NotEnoughKnownBlocks number)
  end.

(** The loop is a run of the verification. *)
Lemma commit_loop_run self k number keys fuel st final :
  tree_inv self -> run (answer_authority keys) (answer_parent self k) fuel st = Some final ->
  commit_loop (S fuel) self k number keys st = Some (commit_result k number final).
Proof.
  intros Hinv. revert st. induction fuel as [|fuel IH]; intros st Hrun; destruct st as [inner|inner n|[[]|e]|];
    try (injection Hrun as <-; done); cbn [run] in Hrun; try done.
  - remember (S fuel) as f. cbn [commit_loop]. destruct (IsAuthority_authority_public_key inner) as [key|]; [|done].
    unfold answer_authority in Hrun at 1. destruct (IsAuthority_resume inner _) as [st|]; [|done]. subst f. by apply IH.
  - remember (S fuel) as f. cbn [commit_loop]. destruct (IsParent_block_hash inner) as [hash|]; [|done].
    unfold answer_parent in Hrun at 1. destruct (blocks_by_hash self !! hash) as [idx|] eqn:Hi.
    + apply ti_index in Hi as (b & Hb & _); [|done].
      destruct (ancestor_total (blocks self) k idx (ti_rep _ Hinv) ltac:(by eexists)) as [a Ha]. rewrite Ha in Hrun |- *.
      destruct (IsParent_resume inner _) as [st|]; [|done]. subst f. by apply IH.
    + destruct (IsParent_resume inner _) as [st|]; [|done]. subst f. by apply IH.
Qed.

Definition commit_votes (c : CommitMessageRef) : list Vote :=
  (fun '(p, (s, k)) => mkVote k s (up_target_hash p) (up_target_number p)) <$>
    combine (cc_precommits (cm_message c)) (cc_auth_data (cm_message c)).

Lemma commit_proven self bs k :
  tree_inv self -> is_bytes bs -> 0 <= nt_block_number_bytes self ->
  tree_verify_grandpa_commit_message self bs = Some (Ok k) ->
  exists c, decode_grandpa_commit bs (nt_block_number_bytes self) = Some (Ok c) /\
    proven self k (cc_target_hash (cm_message c)) (cc_target_number (cm_message c)) (cm_round_number c) (commit_votes c) /\
    forall v j, v ∈ commit_votes c -> blocks_by_hash self !! vt_hash v = Some j ->
      (vt_hash v = cc_target_hash (cm_message c) /\ vt_number v = cc_target_number (cm_message c)) \/
      is_ancestor (blocks self) k j = Some true.
Proof.
  intros Hinv Hb Hbnb. unfold tree_verify_grandpa_commit_message.
  destruct (finality self) as [|set_id triggered scheduled] eqn:Hfin; [done|].
  intros (c & Hc%outcome_map_err_Ok & Hv)%outcome_bind_Ok.
  apply outcome_bind_Ok in Hv as ([[k' id] keys] & Hf%outcome_map_err_Ok & Hv).
  apply (verify_grandpa_finality_Ok self _ _ _ Hinv Hfin) in Hf as (k0 & [= -> -> ->] & Htarget).
  apply step_Ok in Hv as (num & Hnum & Hv). apply checked_Some in Hnum as [-> _].
  apply step_Ok in Hv as (st & Hst & Hv). set (config := CommitVerify.mkConfig _ _ _ _) in Hst.
  destruct (commit_run_returns (answer_authority (grandpa_public_key <$> triggered)) (answer_parent self k0) config Hb Hbnb)
    as (decoded & st' & Hdec & Hst' & Hrun). cbn [config cf_commit cf_block_number_bytes] in Hdec.
  rewrite Hc in Hdec. injection Hdec as <-. rewrite Hst in Hst'. injection Hst' as <-.
  specialize (Hrun _ (le_n _)). rewrite (commit_loop_run self k0 _ _ _ st _ Hinv Hrun) in Hv.
  assert (commit_verdict (answer_authority (grandpa_public_key <$> triggered)) (answer_parent self k0) config (Ok c) = Finished (Ok tt) /\ k0 = k)
    as [Hok <-]. { destruct (commit_verdict _ _ config (Ok c)) as [| |[[]|e]|]; cbn in Hv; naive_solver. }
  apply verdict_Ok in Hok as (Hid & _ & Hnd & Hlen & Hsig & Hvotes).
  cbn [config cf_expected_authorities_set_id cf_num_authorities cf_block_number_bytes] in *.
  exists c. split; [done|]. split; [split|].
  - exists set_id, triggered, scheduled. split_and!; [done|done| | |].
    + apply Forall_fmap. eapply Forall_impl; [exact Hvotes|]. intros [p [s key]] [Ha _]. cbn.
      unfold answer_authority in Ha. rewrite JustificationVerify.existsb_key in Ha. by apply bool_decide_eq_true in Ha.
    + unfold commit_votes. rewrite !len_fmap in *. intros Hs. apply quorum_iff; [apply len_nonneg|done..].
    + apply Forall_fmap. eapply Forall_impl; [exact Hsig|]. intros [p [s key]] Hs. cbn in Hs |- *. unfold signed. cbn. by rewrite <- Hid.
  - unfold commit_votes. rewrite <- list_fmap_compose. erewrite list_fmap_ext; [exact Hnd|]. intros i [p [s key]] _. done.
  - intros v j (x & -> & Hin)%list_elem_of_fmap Hj. rewrite Forall_forall in Hvotes. specialize (Hvotes x Hin).
    destruct x as [p [s key]]. cbn [vt_hash vt_number] in *. destruct Hvotes as [_ [Hs|Hp]].
    + left. unfold same_target in Hs. apply andb_true_iff in Hs as [Hs1 Hs2]. by apply bool_decide_eq_true in Hs1; apply Z.eqb_eq in Hs2.
    + right. unfold answer_parent in Hp. rewrite Hj in Hp. apply ti_index in Hj as (b & Hb' & _); [|done].
      destruct (ancestor_total (blocks self) k0 j (ti_rep _ Hinv) ltac:(by eexists)) as [[] Ha]; [done|]. by rewrite Ha in Hp.
Qed.

End proofs.

(** ** Runs *)

Section runs.
Context `{Platform} `{Nom} `{NomMulti} `{Blake2b} `{Schnorrkel} `{Powf} `{Ed25519}.
Context {T : Type}.
Implicit Types self : NonFinalizedTree T.

(** The key of a new node is a vacant one of the slab. *)
Inductive tree_step self : NonFinalizedTree T -> Prop :=
  | step_insert bs now height is_new_best ins new user_data self' :
      is_bytes bs -> tree_verify_header self bs now = Some (VerifiedInsert height is_new_best ins) ->
      fork_get (blocks self) new = None -> 0 <= new < 2 ^ usize_bits - 1 ->
      Insert_insert ins new user_data = Some self' -> tree_step self self'
  | step_rejected bs now err self' :
      is_bytes bs -> tree_verify_header self bs now = Some (VerifiedErr self' err) -> tree_step self self'
  | step_duplicate bs now self' :
      is_bytes bs -> tree_verify_header self bs now = Some (VerifiedDuplicate self') -> tree_step self self'
  | step_user_data hash k v self' :
      non_finalized_block_by_hash self hash = Some k -> BlockAccess_user_data_mut self k v = Some self' -> tree_step self self'
  | step_clear : tree_step self (tree_clear self)
  | step_set_finalized hash self' yielded changed :
      tree_set_finalized_block self hash = Some (Ok (self', yielded, changed)) -> tree_step self self'
  | step_justification engine bs k self' yielded changed :
      tree_verify_justification self engine bs = Some (Ok k) ->
      FinalityApply_apply self k = Some (self', yielded, changed) -> tree_step self self'
  | step_commit bs k self' yielded changed :
      tree_verify_grandpa_commit_message self bs = Some (Ok k) ->
      FinalityApply_apply self k = Some (self', yielded, changed) -> tree_step self self'.

(** A configuration whose chain information was validated; its numbers are [u64]s. *)
Record config_valid (config : TreeConfig) : Prop := {
  cv_valid : ValidChainInformation_try_from (valid_inner (tc_chain_information config)) = Ok (tc_chain_information config);
  cv_number : 0 <= hd_number (ci_finalized_block_header (valid_inner (tc_chain_information config)));
  cv_epoch : match ci_consensus (valid_inner (tc_chain_information config)) with
             | ConsensusBabe _ _ next => 0 <= epoch_index next
             | _ => True
             end
}.

Definition reachable (config : TreeConfig) self : Prop :=
  exists start, NonFinalizedTree_new config = Some start /\ rtc tree_step start self.

(** A header follows another one. *)
Definition follows (a b : Header) : Prop := linked (HeaderRef_from a) (HeaderRef_from b).

(** *** One step *)

Record good self : Prop := { gd_inv : tree_inv self; gd_valid : finalized_valid self }.

Lemma finalized_valid_same self self' :
  finalized_block_header self' = finalized_block_header self -> finality self' = finality self ->
  finalized_consensus self' = finalized_consensus self -> finalized_valid self -> finalized_valid self'.
Proof.
  intros Hh Hf Hc [Hn Hs Hg]. split; rewrite ?Hh, ?Hf; [done| |done]. intros spec. cbn [parent_consensus]. rewrite Hc. apply Hs.
Qed.

Lemma insert_finalized ins new user_data self' :
  Insert_insert ins new user_data = Some self' ->
  finalized_block_header self' = finalized_block_header (vc_chain (is_context ins)) /\
  finality self' = finality (vc_chain (is_context ins)) /\
  finalized_consensus self' = finalized_consensus (vc_chain (is_context ins)).
Proof.
  unfold Insert_insert. destruct (fork_insert _ _ _ _) as [[k t]|]; [|done]. case_bool_decide; [done|]. intros [= <-].
  by destruct (is_is_new_best ins).
Qed.

(** The chain from the finalized block to a block of the tree. *)
Lemma chain_follows self k b :
  tree_inv self -> fork_get (blocks self) k = Some b -> rtc follows (finalized_block_header self) (bl_header b).
Proof.
  intros Hinv Hk. assert (in_tree (blocks self) k) as Hkt by (eexists; done). revert b Hk. revert k Hkt.
  apply (node_ind (blocks self) (fun k => forall b, fork_get (blocks self) k = Some b ->
    rtc follows (finalized_block_header self) (bl_header b)) (ti_rep _ Hinv)).
  - intros k Hp b Hb. destruct (accepted_linked _ _ _ _ (ti_accepted _ Hinv k b _ Hb Hp)) as (parent & [= <-] & Hlk).
    by apply rtc_once.
  - intros k p Hp IH b Hb. destruct (accepted_linked _ _ _ _ (ti_accepted _ Hinv k b _ Hb Hp)) as (parent & Hph & Hlk).
    cbn in Hph. destruct (fork_get (blocks self) p) as [pb|] eqn:Hpb; [|done]. injection Hph as <-.
    eapply rtc_r; [by apply IH|done].
Qed.

Lemma finalize_step self k self' yielded changed :
  good self -> set_finalized_inner self k = Some (self', yielded, changed) ->
  good self' /\ rtc follows (finalized_block_header self) (finalized_block_header self').
Proof.
  intros [Hinv Hvalid] Hs. assert (exists b, fork_get (blocks self) k = Some b) as [b Hb].
  { unfold set_finalized_inner in Hs. destruct (fork_get (blocks self) k); [eauto|done]. }
  pose proof (set_finalized_at self k b Hinv Hb) as Hat.
  destruct (update_finality self k _) as [fin|] eqn:Hup; [|congruence].
  destruct Hat as (s & y & c & Hs' & Hat). rewrite Hs in Hs'. injection Hs' as <- <- <-.
  split; [split; [apply Hat|by eapply finalized_at_valid]|].
  rewrite (fa_header _ _ _ _ _ _ _ Hat). by eapply chain_follows.
Qed.

Lemma tree_step_good self self' :
  good self -> tree_step self self' -> good self' /\ rtc follows (finalized_block_header self) (finalized_block_header self').
Proof.
  intros Hgood Hstep. pose proof Hgood as [Hinv Hvalid].
  destruct Hstep as [bs now height r ins new ud self' Hb Hv Hnew Hr Hi|bs now err self' Hb Hv|bs now self' Hb Hv|hash k v self' Hk Hu| |hash self' y c Hs|
    engine bs k self' y c _ Hs|bs k self' y c _ Hs].
  - apply verify_header_inv in Hv as (Hins & _); [|done|done]. pose proof (insert_inv self ins new ud Hinv Hins Hnew Hr) as Hii.
    rewrite Hi in Hii. destruct Hii as (_ & Hinv' & _). apply insert_finalized in Hi as (Hh & Hf & Hc).
    rewrite (ia_chain _ _ Hins) in Hh, Hf, Hc. rewrite Hh. split; [|done]. split; [done|by apply (finalized_valid_same self)].
  - apply verify_header_inv in Hv as ->; [|done|done]. done.
  - apply verify_header_inv in Hv as ->; [|done|done]. done.
  - apply ti_index in Hk as (b & Hb & _); [|done]. destruct (user_data_inv self k v Hinv ltac:(by eexists)) as (s & Hs & Hinv' & _).
    assert (s = self') as -> by congruence. unfold BlockAccess_user_data_mut in Hs.
    destruct (fork_get_mut _ k _) as [t|]; [|done]. injection Hs as <-. split; [|done]. split; [done|by apply (finalized_valid_same self)].
  - split; [|done]. split; [by apply clear_inv|by apply (finalized_valid_same self)].
  - unfold tree_set_finalized_block in Hs. destruct (blocks_by_hash self !! hash) as [k|]; [|done].
    destruct (set_finalized_inner self k) as [[[s y'] c']|] eqn:E; [|done]. injection Hs as <- <- <-. by eapply finalize_step.
  - by eapply finalize_step.
  - by eapply finalize_step.
Qed.

Lemma run_good self self' :
  good self -> rtc tree_step self self' -> good self' /\ rtc follows (finalized_block_header self) (finalized_block_header self').
Proof.
  intros Hg Hrun. induction Hrun as [self|self self1 self' Hs _ IH]; [done|].
  destruct (tree_step_good self self1 Hg Hs) as [Hg1 Hf]. destruct (IH Hg1) as [Hg' Hf']. split; [done|]. by etrans.
Qed.

Lemma reachable_good config self : config_valid config -> reachable config self -> good self.
Proof.
  intros [Hv Hn He] (start & Hnew & Hrun). apply (run_good start); [|done]. split; [by eapply new_inv|by eapply new_valid].
Qed.

End runs.
