(* ===== verification/BlocksTreeSpec.v ===== *)
(** * The tree of blocks: theorems and examples

    What holds of every tree that a run reaches, what a finalization does, which proofs
    of finality are accepted; then runs that lose a change of authorities, or panic. *)

From S2P Require Import Prelude Leb128 Scale Nibble TrieNode BTree ForkTree ForkTreePrune ForkTreeFacts HeaderBase HeaderAura HeaderBabe HeaderGrandpa Header HeaderDigest HeaderCodec ChainInformation FinalityBase Justification JustificationVerify Commit CommitVerify VerifyBase VerifyBabe VerifyBabeSpec HeaderOnly BlocksTree BlocksTreeBest BlocksTreeInv BlocksTreeFinality BlocksTreeRun.

Open Scope Z_scope.

Section theorems.
Context `{Platform} `{Nom} `{NomMulti} `{Blake2b} `{Schnorrkel} `{Powf} `{Ed25519}.
Context {T : Type}.
Implicit Types self : NonFinalizedTree T.

(** C3: every tree that a run reaches is coherent. The blocks form a tree that hangs
    from the finalized block; a hash is in the index exactly when a block has it, and it
    is the hash of the header of the block; every block was accepted on top of its
    parent, by its hash and its number, with the authorities and epochs that the
    parent gives, and has those that its verification gives; the height of a block
    is that of the finalized block plus its depth; and the chain information of
    the finalized block is valid, so that it is exported without a panic. *)
Theorem blocks_tree_invariant (config : TreeConfig) self :
  config_valid config -> reachable config self ->
  tree_inv self /\
  (forall k b, fork_get (blocks self) k = Some b -> exists path, node_to_root_path (blocks self) k = Some path /\
     hd_number (bl_header b) = hd_number (finalized_block_header self) + len path) /\
  exists info, as_chain_information self = Some info /\ chain_valid (valid_inner info).
Proof.
  intros Hc Hr. destruct (reachable_good config self Hc Hr) as [Hinv Hvalid]. split; [done|]. split.
  - intros k b Hk. by apply block_number.
  - by apply as_chain_information_valid.
Qed.

(** C6: the best block of a tree that a run reaches. If the tree is empty, it is the
    finalized block. Otherwise it is a leaf, and no chain has a greater score: no other
    block has more blocks with a primary claim (for Babe), or more blocks (for another
    engine), between the finalized block and itself. This is the rule of best_block.rs;
    the documentation of verify/babe.rs has another one, in which the highest slot comes
    first and primary claims only break ties. *)
Theorem best_block_spec (config : TreeConfig) self :
  config_valid config -> reachable config self ->
  match current_best self with
  | None => tree_is_empty self = true /\ best_block_hash self = Some (finalized_block_hash self)
  | Some k => exists b, fork_get (blocks self) k = Some b /\ best_block_hash self = Some (bl_hash b) /\
      (forall j, fork_parent (blocks self) j <> Some (Some k)) /\
      (forall j, is_Some (fork_get (blocks self) j) -> total (blocks self) j <= total (blocks self) k)
  end.
Proof.
  intros Hc Hr. destruct (reachable_good config self Hc Hr) as [Hinv _]. pose proof (ti_best _ Hinv) as Hbest.
  unfold best_block_hash. destruct (current_best self) as [k|].
  - destruct Hbest as ([b Hb] & Hmax & Hleaf). exists b. rewrite Hb. split_and!; [done|done| |done].
    intros j Hj. assert (in_tree (blocks self) j) as Hjt by (apply fork_get_parent; eauto).
    assert (is_ancestor (blocks self) k j = Some true) as Ha.
    { apply ancestor_step; [apply Hinv|done|]. right. exists k. split; [done|].
      apply ancestor_refl; [apply Hinv|by eexists]. }
    pose proof (Hleaf j Hjt Ha) as ->.
    destruct (fork_path (blocks self) k (ti_rep _ Hinv) Hjt) as (l & Hl & _ & _ & Hpar). rewrite Hj in Hpar.
    destruct Hpar as [_ Hl']. rewrite Hl in Hl'. injection Hl' as Hl'. apply (f_equal length) in Hl'. cbn in Hl'. lia.
  - split; [|done]. unfold tree_is_empty, fork_is_empty. apply Nat.eqb_eq. apply map_size_empty_iff.
    apply map_eq. intros j. rewrite lookup_empty. apply fork_get_None. destruct (fork_get (blocks self) j) eqn:E; [|done].
    exfalso. by apply (Hbest j); eexists.
Qed.

(** C7: finality is not reverted. Whatever is done after a tree was reached, the
    finalized block is the same or a descendant, through a chain of headers each of
    which has the hash of the one before and the next number. *)
Theorem finality_never_reverts (config : TreeConfig) self self' :
  config_valid config -> reachable config self -> rtc tree_step self self' ->
  rtc follows (finalized_block_header self) (finalized_block_header self').
Proof. intros Hc Hr Hrun. destruct (reachable_good config self Hc Hr) as [Hinv Hv]. by apply run_good. Qed.

(** C5: finalizing a block. An unknown hash is refused. Otherwise the tree that remains is
    the strict descendants of the block, and satisfies the invariant; the block is the
    finalized one; the user data of the block and of its ancestors are yielded, from the
    block on; the best block is the best of those that remain, and the boolean says
    whether it changes. The changes of the GrandPa authorities that the chain schedules
    are applied in order, from the oldest: one whose height is reached replaces the
    authorities and increments the identifier of the set, another one is kept as the
    pending change. The only panic is a height that overflows. Only the changes of the
    chain count: a change that was pending before, scheduled by a block already finalized,
    is dropped, although the documentation of [finalized_scheduled_change] says that it
    will happen ([scheduled_change_lost]). *)
Theorem set_finalized_spec self (hash : list u8) :
  tree_inv self ->
  (blocks_by_hash self !! hash = None -> tree_set_finalized_block self hash = Some (Err UnknownBlock)) /\
  (forall k, blocks_by_hash self !! hash = Some k -> exists b, fork_get (blocks self) k = Some b /\
    let height := hd_number (bl_header b) in
    match tree_set_finalized_block self hash with
    | Some (Ok (self', yielded, changed)) => exists fin, finalized_at self self' k b fin yielded changed /\
        match finality self with
        | FinalityOutsourced => fin = FinalityOutsourced
        | FinalityGrandpa set_id triggered _ =>
            let '(set_id, triggered, scheduled) :=
              foldl (apply_change height) (set_id, triggered, None) (chain_changes (blocks self) k) in
            fin = FinalityGrandpa set_id triggered scheduled
        end
    | Some (Err _) => False
    | None => ~ Forall (fun c => is_u64 (fst c)) (chain_changes (blocks self) k)
    end).
Proof.
  intros Hinv. unfold tree_set_finalized_block. split; [by intros ->|]. intros k Hk. rewrite Hk.
  destruct (proj1 (ti_index _ Hinv hash k) Hk) as (b & Hb & _). exists b. split; [done|].
  pose proof (set_finalized_at self k b Hinv Hb) as Hat.
  destruct (update_finality self k (hd_number (bl_header b))) as [fin|] eqn:Hup.
  - destruct Hat as (self' & y & c & -> & Hat). exists fin. split; [done|].
    destruct (finality self) as [|set_id triggered scheduled] eqn:Hf; [unfold update_finality in Hup; rewrite Hf in Hup; by injection Hup|].
    rewrite (update_finality_spec self k _ set_id triggered scheduled) in Hup; [|done|by eexists|done].
    case_bool_decide; [|done]. destruct (foldl _ _ _) as [[? ?] ?]. by injection Hup.
  - rewrite Hat. destruct (finality self) as [|set_id triggered scheduled] eqn:Hf; [unfold update_finality in Hup; by rewrite Hf in Hup|].
    rewrite (update_finality_spec self k _ set_id triggered scheduled) in Hup; [|done|by eexists|done].
    case_bool_decide; [|done]. by destruct (foldl _ _ _) as [[? ?] ?].
Qed.


End theorems.

Section finality.
Context `{Platform} `{Nom} `{!NomLaws} `{NomMulti} `{!NomMultiLaws} `{Blake2b} `{Schnorrkel} `{Powf} `{Ed25519} `{!Ed25519Laws}.
Context {T : Type}.


End finality.

(** ** Examples *)

Module Example.
#[local] Existing Instance platform64.
#[local] Existing Instance nom_complete.
#[local] Existing Instance nom_multi.
#[local] Existing Instance toy_blake2b.
#[local] Existing Instance toy_schnorrkel.
#[local] Existing Instance toy_powf.
#[local] Existing Instance toy_ed25519.

Definition key (k : u8) : list u8 := replicate 32 k.

Definition header (parent : list u8) (n : u64) (items : list DigestItem) : Header :=
  mkHeader parent n (replicate 32 2) (replicate 32 3) (mkDigest items (indices_of (map item_kind items))).
Definition hash_of (h : Header) : list u8 := default [] (Header_hash h).
Definition bytes_of (h : Header) : list u8 := default [] (Header_scale_encoding_vec h).

(** A child of a block, at the slot of its number. *)
Definition child (parent : Header) (items : list DigestItem) : Header :=
  let n := hd_number parent + 1 in
  header (hash_of parent) n ([ItemAuraPreDigest (mkAuraPreDigest n)] ++ items ++ [ItemAuraSeal (replicate 64 6)]).

Definition genesis : Header := header (key 9) 0 [].
Definition now : Duration := mkDuration 100 0.

(** A chain with one Aura authority, and one GrandPa authority. *)
Definition config : TreeConfig :=
  mkTreeConfig (mkValidChainInformation (mkChainInformation genesis (ConsensusAura [mkAuraAuthority (key 6)] 6000)
    (Grandpa 0 [mkGrandpaAuthority (key 7) 1] None))) 4 false.

Definition start : option (NonFinalizedTree u8) := NonFinalizedTree_new config.

(** Verifying a header and inserting it with a vacant key. *)
Definition add (bs : list u8) (new : NodeIndex) (self : NonFinalizedTree u8) : option (NonFinalizedTree u8) :=
  if forallb (fun b => (0 <=? b) && (b <? 2 ^ 8)) bs && (0 <=? new) && (new <? 2 ^ 64 - 1) then
    match fork_get (blocks self) new, tree_verify_header self bs now with
    | None, Some (VerifiedInsert _ _ ins) => Insert_insert ins new new
    | _, _ => None
    end
  else None.

Definition add_all (l : list (Header * NodeIndex)) (self : option (NonFinalizedTree u8)) : option (NonFinalizedTree u8) :=
  foldl (fun self '(h, new) => let! self := self in add (bytes_of h) new self) self l.

(** A change of the GrandPa authorities. *)
Definition change (k : u8) (delay : u32) : DigestItem :=
  ItemGrandpaConsensus (ScheduledChange (mkGrandpaScheduledChange [mkGrandpaAuthority (key k) 1] delay)).

Definition block1 : Header := child genesis [change 8 2].
Definition block2 : Header := child block1 [].
Definition block3 : Header := child block2 [].
Definition block4 : Header := child block3 [].
Definition tree4 : option (NonFinalizedTree u8) := add_all [(block1, 0); (block2, 1); (block3, 2); (block4, 3)] start.

Definition finalize (h : Header) (self : option (NonFinalizedTree u8)) : option (NonFinalizedTree u8) :=
  let! self := self in
  match tree_set_finalized_block self (hash_of h) with
  | Some (Ok (self, _, _)) => Some self
  | _ => None
  end.

(** The justification of a block by one authority. *)
Definition justification (h : Header) (number : u64) (voters : list u8) : list u8 :=
  justification_bytes 4
    (mkGrandpaJustification 5 (hash_of h) number
      (map (fun k => mkPrecommit (hash_of h) number (replicate 64 k) (key k)) voters))
    [4 * len voters] [0] [].

Definition justified (h : Header) (number : u64) (voters : list u8) (self : option (NonFinalizedTree u8)) :=
  let! self := self in tree_verify_justification self engine_grandpa (justification h number voters).

(** *** The runs *)

Lemma add_step bs new self self' : add bs new self = Some self' -> tree_step self self'.
Proof.
  unfold add. destruct (forallb _ bs) eqn:Hb; [|done]. destruct (Z.leb_spec 0 new); [|done].
  destruct (Z.ltb_spec new (2 ^ 64 - 1)); [|done]. cbn [andb]. destruct (fork_get (blocks self) new) eqn:Hn; [done|].
  destruct (tree_verify_header self bs now) as [[| |height r ins]|] eqn:Hv; try done. intros Hi.
  eapply (step_insert self bs now height r ins new new self'); try done.
  apply Forall_forall. intros b Hin%list_elem_of_In. rewrite forallb_forall in Hb. apply Hb in Hin.
  apply andb_true_iff in Hin as [?%Z.leb_le ?%Z.ltb_lt]. done.
Qed.

Lemma add_all_None l : add_all l None = None.
Proof. by induction l as [|[]]. Qed.

Lemma add_all_run l self self' : add_all l (Some self) = Some self' -> rtc tree_step self self'.
Proof.
  revert self. induction l as [|[h new] l IH]; intros self; cbn [add_all foldl]; [by intros [= ->]|].
  destruct (add (bytes_of h) new self) as [s|] eqn:E; [|by fold (add_all l None); rewrite add_all_None].
  intros Hl. eapply rtc_l; [by eapply add_step|by apply IH].
Qed.

Lemma finalize_run h self self' : finalize h (Some self) = Some self' -> tree_step self self'.
Proof.
  unfold finalize. destruct (tree_set_finalized_block self (hash_of h)) as [[[[s y] c]|]|] eqn:E; try done.
  intros [= <-]. by eapply step_set_finalized.
Qed.

Lemma config_is_valid : config_valid config.
Proof. split; [reflexivity | vm_compute; discriminate | exact I]. Qed.

Lemma tree4_reachable self : tree4 = Some self -> reachable config self.
Proof.
  unfold tree4. destruct start as [s|] eqn:Es; [|by rewrite add_all_None]. intros Hl. exists s. split; [done|]. by eapply add_all_run.
Qed.

Lemma finalized_reachable h self self' : reachable config self -> finalize h (Some self) = Some self' -> reachable config self'.
Proof. intros (s & Hs & Hr) Hf. exists s. split; [done|]. eapply rtc_r; [done|by eapply finalize_run]. Qed.

(** The tree, evaluated. *)
Definition tree : NonFinalizedTree u8 := Eval vm_compute in default (mkNonFinalizedTree genesis [] FinalityOutsourced FinalizedUnknown ForkTree_new ∅ None 0 false) tree4.
Definition tree_at3 : NonFinalizedTree u8 := Eval vm_compute in default tree (finalize block3 (Some tree)).

Lemma tree4_eq : tree4 = Some tree.
Proof. vm_compute. reflexivity. Qed.
Lemma tree_at3_eq : finalize block3 (Some tree) = Some tree_at3.
Proof. vm_compute. reflexivity. Qed.

Lemma tree_reachable : reachable config tree.
Proof. apply tree4_reachable, tree4_eq. Qed.
Lemma tree_at3_reachable : reachable config tree_at3.
Proof. eapply finalized_reachable; [apply tree_reachable|apply tree_at3_eq]. Qed.
Lemma tree_ok : tree_inv tree.
Proof. apply (reachable_good config tree config_is_valid tree_reachable). Qed.
Lemma tree_at3_ok : tree_inv tree_at3.
Proof. apply (reachable_good config tree_at3 config_is_valid tree_at3_reachable). Qed.

(** *** Witnesses *)

Lemma blocks_tree_invariant_witness :
  tree_len tree = 4 /\ exists info, as_chain_information tree = Some info /\ chain_valid (valid_inner info).
Proof.
  split; [vm_compute; reflexivity|].
  destruct (blocks_tree_invariant config tree config_is_valid tree_reachable) as (_ & _ & Hinfo). exact Hinfo.
Defined.

Lemma best_block_spec_witness :
  current_best tree = Some 3 /\ forall j, is_Some (fork_get (blocks tree) j) -> total (blocks tree) j <= total (blocks tree) 3.
Proof.
  split; [vm_compute; reflexivity|]. intros j Hj.
  destruct (best_block_spec config tree config_is_valid tree_reachable) as (b & _ & _ & _ & Hmax). exact (Hmax j Hj).
Defined.

Lemma finality_never_reverts_witness :
  finalized_block_header tree = genesis /\ rtc follows (finalized_block_header tree) (finalized_block_header tree_at3).
Proof.
  split; [vm_compute; reflexivity|].
  apply (finality_never_reverts config tree tree_at3 config_is_valid tree_reachable).
  apply rtc_once. eapply finalize_run. exact tree_at3_eq.
Defined.

Lemma set_finalized_spec_witness :
  exists self' yielded changed fin b, tree_set_finalized_block tree (hash_of block3) = Some (Ok (self', yielded, changed)) /\
    finalized_at tree self' 2 b fin yielded changed /\ yielded = [2; 1; 0] /\ changed = false.
Proof.
  destruct (set_finalized_spec tree (hash_of block3) tree_ok) as [_ Hs].
  destruct (Hs 2 ltac:(vm_compute; reflexivity)) as (b & Hb & Hm). clear Hs.
  destruct (tree_set_finalized_block tree (hash_of block3)) as [[[[self' y] c]|]|] eqn:E; [|vm_compute in E; discriminate..].
  destruct Hm as (fin & Hat & _). exists self', y, c, fin, b. split; [done|]. split; [exact Hat|].
  vm_compute in E. injection E as _ <- <-. done.
Defined.



(** *** Faults *)

(** A change of authorities that is pending when a later block is finalized is
    lost. Block 1 schedules that the authority 8 replaces the authority 7 at height 3. If
    block 3 is finalized at once, the set 1 of the authority 8 is in force: its
    justification of block 4 is accepted and that of the authority 7 is not. If block
    1 is finalized before block 3, the change is recorded with block 1, then
    forgotten with block 3: the set 0 of the authority 7 stays in force, and the
    justification of the authority 8 is refused. *)
Theorem scheduled_change_lost :
  (finality <$> finalize block1 tree4) =
    Some (FinalityGrandpa 0 [mkGrandpaAuthority (key 7) 1] (Some (3, [mkGrandpaAuthority (key 8) 1]))) /\
  (finality <$> finalize block3 (finalize block1 tree4)) = Some (FinalityGrandpa 0 [mkGrandpaAuthority (key 7) 1] None) /\
  (finality <$> finalize block3 tree4) = Some (FinalityGrandpa 1 [mkGrandpaAuthority (key 8) 1] None) /\
  justified block4 4 [7] (finalize block3 (finalize block1 tree4)) = Some (Ok 3) /\
  justified block4 4 [8] (finalize block3 (finalize block1 tree4)) =
    Some (Err (JvVerificationFailed (JustificationVerify.NotAuthority (key 8)))) /\
  justified block4 4 [8] (finalize block3 tree4) = Some (Ok 3).
Proof. split_and!; vm_compute; reflexivity. Qed.

(** Block 1 with its number on two bytes. *)
Definition block1_long : list u8 := take 32 (bytes_of block1) ++ [5; 0] ++ drop 33 (bytes_of block1).

(** The trees of the examples, evaluated. *)
Definition tree0 : NonFinalizedTree u8 := Eval vm_compute in default tree start.
Definition tree1 : NonFinalizedTree u8 := Eval vm_compute in default tree (add (bytes_of block1) 0 tree0).
Definition block2_change : Header := child block1 [change 9 1].
Definition tree2 : NonFinalizedTree u8 := Eval vm_compute in default tree (add (bytes_of block2_change) 1 tree1).
Definition insert_long : Insert u8 := Eval vm_compute in
  match tree_verify_header tree1 block1_long now with
  | Some (VerifiedInsert _ _ ins) => ins
  | _ => mkInsert (mkVerifyContext tree None genesis SpecificUnknown) [] false (BlockAura [])
  end.

Lemma tree0_reachable : reachable config tree0.
Proof. exists tree0. split; [vm_compute; reflexivity|constructor]. Qed.
Lemma tree1_reachable : reachable config tree1.
Proof. exists tree0. split; [vm_compute; reflexivity|]. apply rtc_once. apply (add_step (bytes_of block1) 0). vm_compute. reflexivity. Qed.
Lemma tree2_reachable : reachable config tree2.
Proof.
  destruct tree1_reachable as (s & Hs & Hr). exists s. split; [done|]. eapply rtc_r; [done|].
  apply (add_step (bytes_of block2_change) 1). vm_compute. reflexivity.
Qed.

Lemma long_verified : tree_verify_header tree1 block1_long now = Some (VerifiedInsert 1 false insert_long).
Proof. vm_compute. reflexivity. Qed.

(** Data of the network that make the tree panic, in trees that runs reach. A
    justification without any vote, for a known block whose chain schedules a
    change, with a number above the height of the change, which no block of the chain has.
    Any justification for a block whose chain schedules two changes. A header with a
    change of the Aura authorities, when it is verified. A known header with its
    number encoded on more bytes, which is verified as a new one, when it is inserted. *)
Theorem network_data_panics :
  (reachable config tree1 /\ tree_verify_justification tree1 engine_grandpa (justification block1 100 []) = None) /\
  (reachable config tree2 /\ tree_verify_justification tree2 engine_grandpa (justification block2_change 2 [7]) = None) /\
  (reachable config tree0 /\
     tree_verify_header tree0 (bytes_of (child genesis [ItemAuraConsensus (AuraAuthoritiesChange [mkAuraAuthority (key 6)])])) now = None) /\
  tree_verify_header tree1 (bytes_of block1) now = Some (VerifiedDuplicate tree1) /\
  tree_verify_header tree1 block1_long now = Some (VerifiedInsert 1 false insert_long) /\
  (forall new user_data, fork_get (blocks tree1) new = None -> 0 <= new < 2 ^ 64 - 1 -> Insert_insert insert_long new user_data = None).
Proof.
  split; [split; [apply tree1_reachable|vm_compute; reflexivity]|].
  split; [split; [apply tree2_reachable|vm_compute; reflexivity]|].
  split; [split; [apply tree0_reachable|vm_compute; reflexivity]|].
  split; [vm_compute; reflexivity|]. split; [exact long_verified|].
  destruct (reachable_good config tree1 config_is_valid tree1_reachable) as [Hinv _].
  assert (is_bytes block1_long) as Hb by (apply (bool_decide_unpack _); vm_compute; exact I).
  destruct (verify_header_inv tree1 block1_long now _ Hinv Hb long_verified) as (Hins & _). intros new ud Hnew Hrange.
  pose proof (insert_inv tree1 insert_long new ud Hinv Hins Hnew Hrange) as Hi.
  destruct (Insert_insert insert_long new ud); [|reflexivity]. destruct Hi as [Hnone _]. vm_compute in Hnone. discriminate.
Qed.

End Example.
