(* ===== verification/PendingBlocks.v ===== *)
(** * Pending blocks ([src/src/sync/all_forks/pending_blocks.rs])

    The blocks that are not verified yet (Disjoint.v), the sources that know blocks
    (Sources.v), and the requests for blocks that are sent to the sources, which are
    indexed by block, by request and by source. This file has the operations;
    PendingBlocksInv.v has the invariant and the theorems. *)

From S2P Require Import Prelude BTree Sources Disjoint.

Open Scope Z_scope.

(** ** Data *)

(** [Config]; the capacities only size allocations. *)
Record PendingConfig := mkPendingConfig {
  cfg_finalized_block_height : u64;
  cfg_verify_bodies : bool;
  cfg_max_requests_per_block : u32
}.

Inductive UnverifiedBlockState :=
  | HeightHashKnown
  | HeaderKnown (parent_hash : Hash)
  | HeaderBodyKnown (parent_hash : Hash).

#[export] Instance UnverifiedBlockState_eq_dec : EqDecision UnverifiedBlockState.
Proof. solve_decision. Defined.

Definition state_parent_hash (self : UnverifiedBlockState) : option Hash :=
  match self with
  | HeightHashKnown => None
  | HeaderKnown parent_hash => Some parent_hash
  | HeaderBodyKnown parent_hash => Some parent_hash
  end.

Record RequestParams := mkRequestParams {
  first_block_height : u64;
  first_block_hash : Hash;
  rq_num_blocks : u64
}.

Record DesiredRequest := mkDesiredRequest { dr_source_id : u64; dr_request_params : RequestParams }.

Section pending.
Context `{Platform} {TBl TRq TSrc : Type}.

Record UnverifiedBlock := mkUnverifiedBlock { ub_state : UnverifiedBlockState; ub_user_data : TBl }.

Record Request := mkRequest { rq_detail : RequestParams; rq_source_id : u64; rq_user_data : TRq }.

(** [struct Source] only wraps the data of a source. *)
Record PendingBlocks := mkPendingBlocks {
  pb_sources : AllForksSources (TSrc := TSrc);
  pb_blocks : DisjointBlocks UnverifiedBlock;
  verify_bodies : bool;
  (** Height, hash, request. *)
  blocks_requests : gset (Z * Z * Z);
  (** Request, height, hash. *)
  requested_blocks : gset (Z * Z * Z);
  (** Source, request. *)
  source_occupations : gset (Z * Z);
  requests : gmap Z Request;
  max_requests_per_block : usize
}.

Definition with_sources (self : PendingBlocks) (s : AllForksSources (TSrc := TSrc)) : PendingBlocks :=
  mkPendingBlocks s (pb_blocks self) (verify_bodies self) (blocks_requests self) (requested_blocks self)
    (source_occupations self) (requests self) (max_requests_per_block self).
Definition with_blocks (self : PendingBlocks) (b : DisjointBlocks UnverifiedBlock) : PendingBlocks :=
  mkPendingBlocks (pb_sources self) b (verify_bodies self) (blocks_requests self) (requested_blocks self)
    (source_occupations self) (requests self) (max_requests_per_block self).

(** ** Sources *)

(** [usize::try_from(..).unwrap_or(usize::max_value())] of a [u32]. *)
Definition PendingBlocks_new (config : PendingConfig) : PendingBlocks :=
  mkPendingBlocks (AllForksSources_new (cfg_finalized_block_height config)) DisjointBlocks_new
    (cfg_verify_bodies config) ∅ ∅ ∅ ∅
    (if cfg_max_requests_per_block config <=? usize_max then cfg_max_requests_per_block config else usize_max).

Definition pending_add_source (self : PendingBlocks) (user_data : TSrc) (best_block_number : u64) (best_block_hash : Hash)
    : u64 * PendingBlocks :=
  let '(id, s) := add_source (pb_sources self) best_block_number best_block_hash user_data in
  (id, with_sources self s).

(** The loop of [remove_source] over the requests of the source. *)
Fixpoint remove_requests (source_id : u64) (entries : list (Z * Z)) (self : PendingBlocks)
    : option (list (u64 * RequestParams * TRq) * PendingBlocks) :=
  match entries with
  | [] => Some ([], self)
  | (_, pending_request_id) :: entries =>
      let! request := requests self !! pending_request_id in
      let detail := rq_detail request in
      let self := mkPendingBlocks (pb_sources self) (pb_blocks self) (verify_bodies self)
        (blocks_requests self ∖ {[(first_block_height detail, first_block_hash detail, pending_request_id)]})
        (requested_blocks self ∖ {[(pending_request_id, first_block_height detail, first_block_hash detail)]})
        (source_occupations self ∖ {[(source_id, pending_request_id)]})
        (delete pending_request_id (requests self)) (max_requests_per_block self) in
      let! (out, self) := remove_requests source_id entries self in
      Some ((pending_request_id, detail, rq_user_data request) :: out, self)
  end.

(** The entries of a source in [source_occupations]. *)
Definition occupations_of (self : PendingBlocks) (source_id : u64) : list (Z * Z) :=
  bset_range (source_id, 0) (source_id, usize_max) (source_occupations self).

Definition pending_remove_source (self : PendingBlocks) (source_id : u64)
    : option (TSrc * list (u64 * RequestParams * TRq) * PendingBlocks) :=
  let! (user_data, s) := remove_source (pb_sources self) source_id in
  let self := with_sources self s in
  let! (pending_requests, self) := remove_requests source_id (occupations_of self source_id) self in
  Some (user_data, pending_requests, self).

Definition pending_sources (self : PendingBlocks) : list u64 := sources_keys (pb_sources self).

Definition sources_user_data_iter_mut (self : PendingBlocks) (f : TSrc -> TSrc) : PendingBlocks :=
  with_sources self (user_data_iter_mut (pb_sources self) f).

Definition pending_index (self : PendingBlocks) (id : u64) : option TSrc := sources_index (pb_sources self) id.
Definition pending_index_mut (self : PendingBlocks) (id : u64) (f : TSrc -> TSrc) : option PendingBlocks :=
  let! s := sources_index_mut (pb_sources self) id f in Some (with_sources self s).

Definition add_known_block_to_source (self : PendingBlocks) (source_id height : u64) (hash : Hash) : PendingBlocks :=
  with_sources self (add_known_block (pb_sources self) source_id height hash).

Definition remove_known_block_of_source (self : PendingBlocks) (source_id height : u64) (hash : Hash) : PendingBlocks :=
  with_sources self (source_remove_known_block (pb_sources self) source_id height hash).

Definition add_known_block_to_source_and_set_best (self : PendingBlocks) (source_id height : u64) (hash : Hash)
    : option PendingBlocks :=
  let! s := add_known_block_and_set_best (pb_sources self) source_id height hash in
  Some (with_sources self s).

Definition source_best_block (self : PendingBlocks) (source_id : u64) : option (u64 * Hash) :=
  best_block (pb_sources self) source_id.

Definition source_num_ongoing_requests (self : PendingBlocks) (source_id : u64) : usize :=
  len (occupations_of self source_id).

Definition pending_knows_non_finalized_block (self : PendingBlocks) (height : u64) (hash : Hash) : option (list u64) :=
  knows_non_finalized_block (pb_sources self) height hash.

Definition pending_source_knows_non_finalized_block (self : PendingBlocks) (source_id height : u64) (hash : Hash)
    : option bool :=
  source_knows_non_finalized_block (pb_sources self) source_id height hash.

Definition remove_sources_known_block (self : PendingBlocks) (height : u64) (hash : Hash) : PendingBlocks :=
  with_sources self (remove_known_block (pb_sources self) height hash).

(** ** Blocks *)

Definition pending_set_finalized_block_height (self : PendingBlocks) (height : u64) : option (list TBl * PendingBlocks) :=
  let! s := set_finalized_block_height (pb_sources self) height in
  let '(removed, b) := remove_below_height (pb_blocks self) (wadd 64 height 1) in
  Some ((fun '(_, _, bl) => ub_user_data bl) <$> removed, with_blocks (with_sources self s) b).

Definition insert_unverified_block (self : PendingBlocks) (height : u64) (hash : Hash) (state : UnverifiedBlockState)
    (user_data : TBl) : option (TBl * UnverifiedBlockState) * PendingBlocks :=
  if height <=? src_finalized_block_height (pb_sources self) then (None, self)
  else
    let '(old, b) := disjoint_insert (pb_blocks self) height hash (state_parent_hash state)
      (mkUnverifiedBlock state user_data) in
    ((fun bl => (ub_user_data bl, ub_state bl)) <$> old, with_blocks self b).

Definition contains_unverified_block (self : PendingBlocks) (height : u64) (hash : Hash) : bool :=
  disjoint_contains (pb_blocks self) height hash.

Definition unverified_block_user_data (self : PendingBlocks) (height : u64) (hash : Hash) : option TBl :=
  let! bl := disjoint_user_data (pb_blocks self) height hash in Some (ub_user_data bl).

Definition unverified_block_user_data_mut (self : PendingBlocks) (height : u64) (hash : Hash) (f : TBl -> TBl)
    : option PendingBlocks :=
  let! b := disjoint_user_data_mut (pb_blocks self) height hash
    (fun bl => mkUnverifiedBlock (ub_state bl) (f (ub_user_data bl))) in
  Some (with_blocks self b).

(** [self.blocks.user_data_mut(height, hash).unwrap().state = state]. *)
Definition set_state (b : DisjointBlocks UnverifiedBlock) (height : u64) (hash : Hash) (state : UnverifiedBlockState)
    : option (DisjointBlocks UnverifiedBlock) :=
  disjoint_user_data_mut b height hash (fun bl => mkUnverifiedBlock state (ub_user_data bl)).

Definition set_unverified_block_state (self : PendingBlocks) (height : u64) (hash : Hash) (state : UnverifiedBlockState)
    : option PendingBlocks :=
  let! b :=
    match state_parent_hash state with
    | Some parent_hash => set_parent_hash (pb_blocks self) height hash parent_hash
    | None => Some (pb_blocks self)
    end in
  let! b := set_state b height hash state in
  Some (with_blocks self b).

(** The end of the two functions below: the state and then the parent are set. *)
Definition set_header (self : PendingBlocks) (height : u64) (hash : Hash) (state : UnverifiedBlockState) (parent_hash : Hash)
    : option PendingBlocks :=
  let! b := set_state (pb_blocks self) height hash state in
  let! b := set_parent_hash b height hash parent_hash in
  Some (with_blocks self b).

Definition set_unverified_block_header_known (self : PendingBlocks) (height : u64) (hash parent_hash : Hash)
    : option PendingBlocks :=
  let! bl := disjoint_user_data (pb_blocks self) height hash in
  match ub_state bl with
  | HeaderKnown cur_ph | HeaderBodyKnown cur_ph => if cur_ph =? parent_hash then Some self else None
  | HeightHashKnown => set_header self height hash (HeaderKnown parent_hash) parent_hash
  end.

Definition set_unverified_block_header_body_known (self : PendingBlocks) (height : u64) (hash parent_hash : Hash)
    : option PendingBlocks :=
  let! bl := disjoint_user_data (pb_blocks self) height hash in
  match ub_state bl with
  | HeaderKnown cur_ph =>
      if cur_ph =? parent_hash then set_header self height hash (HeaderBodyKnown parent_hash) parent_hash else None
  | HeaderBodyKnown cur_ph => if cur_ph =? parent_hash then Some self else None
  | HeightHashKnown => set_header self height hash (HeaderBodyKnown parent_hash) parent_hash
  end.

Definition remove_unverified_block (self : PendingBlocks) (height : u64) (hash : Hash) : option (TBl * PendingBlocks) :=
  let! (bl, b) := disjoint_remove (pb_blocks self) height hash in
  Some (ub_user_data bl, with_blocks self b).

Definition mark_unverified_block_as_bad (self : PendingBlocks) (height : u64) (hash : Hash) : option PendingBlocks :=
  let! b := set_block_bad (pb_blocks self) height hash in Some (with_blocks self b).

Definition num_unverified_blocks (self : PendingBlocks) : usize := disjoint_len (pb_blocks self).

(** The closure of the filter of [unverified_leaves]. *)
Definition is_leaf (self : PendingBlocks) (pending : TreeRoot) : option bool :=
  let! bl := disjoint_user_data (pb_blocks self) (tr_block_number pending) (tr_block_hash pending) in
  Some (match ub_state bl with
        | HeightHashKnown => false
        | HeaderKnown _ => negb (verify_bodies self)
        | HeaderBodyKnown _ => true
        end).

(** [Iterator::filter] with a closure that may panic. *)
Fixpoint filter_panic {A} (f : A -> option bool) (l : list A) : option (list A) :=
  match l with
  | [] => Some []
  | a :: l =>
      let! keep := f a in
      let! l := filter_panic f l in
      Some (if keep then a :: l else l)
  end.

Definition unverified_leaves (self : PendingBlocks) : option (list TreeRoot) :=
  filter_panic (is_leaf self) (good_tree_roots (pb_blocks self)).

Definition parent_bad (self : PendingBlocks) (height : u64) (hash : Hash) : bool :=
  default false (is_parent_bad (pb_blocks self) height hash).

(** The closure of [parent_known_iter]. *)
Definition parent_known (self : PendingBlocks) (height : u64) (hash : Hash) : bool :=
  match checked_sub 64 height 1, disjoint_parent_hash (pb_blocks self) height hash with
  | Some n, Some h => disjoint_contains (pb_blocks self) n h
  | _, _ => false
  end.

(** [!self.sources.keys().any(|source_id| best_block(source_id) == (height, hash))]. *)
Definition is_best_of_source (self : PendingBlocks) (height : u64) (hash : Hash) : bool :=
  existsb (fun id => bool_decide (best_block (pb_sources self) id = Some (height, hash))) (sources_keys (pb_sources self)).

Definition unnecessary_unverified_blocks (self : PendingBlocks) : option (list (u64 * Hash)) :=
  let all := (fun '(height, hash, _) => (height, hash)) <$> disjoint_iter (pb_blocks self) in
  let bad_parent_iter := filter (fun '(height, hash) => parent_bad self height hash = true) all in
  let parent_known_iter := filter (fun '(height, hash) => parent_known self height hash = true) all in
  let! bad_iter := filter_panic (fun '(height, hash) => is_bad (pb_blocks self) height hash) all in
  let bad_iter := filter (fun '(height, hash) => parent_bad self height hash = false) bad_iter in
  Some (filter (fun '(height, hash) => is_best_of_source self height hash = false)
    (bad_parent_iter ++ parent_known_iter ++ bad_iter)).

(** ** Requests *)

(** The loop of [add_request]: an entry for the first block and for each of its
    ancestors that are in the collection. *)
Fixpoint add_request_loop (fuel : nat) (b : DisjointBlocks UnverifiedBlock) (request_id : u64) (iter : u64 * Hash)
    (br rb : gset (Z * Z * Z)) : option (gset (Z * Z * Z) * gset (Z * Z * Z)) :=
  match fuel with
  | O => None
  | S fuel =>
      let br := {[(fst iter, snd iter, request_id)]} ∪ br in
      let rb := {[(request_id, fst iter, snd iter)]} ∪ rb in
      match disjoint_parent_hash b (fst iter) (snd iter) with
      | Some p => add_request_loop fuel b request_id (wsub 64 (fst iter) 1, p) br rb
      | None => Some (br, rb)
      end
  end.

(** [request_id] is the key that the slab gives. Each turn but the last one is on
    another block of the collection. *)
Definition add_request (self : PendingBlocks) (request_id source_id : u64) (detail : RequestParams) (user_data : TRq)
    : option PendingBlocks :=
  if negb (sources_contains (pb_sources self) source_id) then None
  else
    let requests' := <[request_id := mkRequest detail source_id user_data]> (requests self) in
    let source_occupations' := {[(source_id, request_id)]} ∪ source_occupations self in
    let! (br, rb) := add_request_loop (S (size (blocks (pb_blocks self)))) (pb_blocks self) request_id
      (first_block_height detail, first_block_hash detail) (blocks_requests self) (requested_blocks self) in
    Some (mkPendingBlocks (pb_sources self) (pb_blocks self) (verify_bodies self) br rb source_occupations' requests'
      (max_requests_per_block self)).

(** The entries of a request in [requested_blocks]. *)
Definition blocks_of_request (self : PendingBlocks) (request_id : u64) : list (Z * Z * Z) :=
  bset_range (request_id, 0, hash_min) (request_id, u64_max, hash_max) (requested_blocks self).

Definition finish_request (self : PendingBlocks) (request_id : u64)
    : option (RequestParams * u64 * TRq * PendingBlocks) :=
  let! request := requests self !! request_id in
  let blocks_to_remove := blocks_of_request self request_id in
  Some (rq_detail request, rq_source_id request, rq_user_data request,
    mkPendingBlocks (pb_sources self) (pb_blocks self) (verify_bodies self)
      (gset_remove_all ((fun '(r, height, hash) => (height, hash, r)) <$> blocks_to_remove) (blocks_requests self))
      (gset_remove_all blocks_to_remove (requested_blocks self))
      (source_occupations self ∖ {[(rq_source_id request, request_id)]})
      (delete request_id (requests self)) (max_requests_per_block self)).

Definition request_source (self : PendingBlocks) (request_id : u64) : option u64 :=
  rq_source_id <$> requests self !! request_id.

Definition obsolete_requests (self : PendingBlocks) : list (u64 * TRq) :=
  (fun '(id, rq) => (id, rq_user_data rq)) <$>
    filter (fun '(_, rq) => first_block_height (rq_detail rq) <= src_finalized_block_height (pb_sources self))
      (btree_iter (requests self)).

(** *** The requests to start *)

(** The entries of a block in [blocks_requests]. *)
Definition requests_of_block (self : PendingBlocks) (height : u64) (hash : Hash) : list (Z * Z * Z) :=
  bset_range (height, hash, 0) (height, hash, usize_max) (blocks_requests self).

(** [.any(|(_, _, request_id)| self.requests[request_id.0].source_id == *source_id)]. *)
Fixpoint any_from_source (self : PendingBlocks) (source_id : u64) (entries : list (Z * Z * Z)) : option bool :=
  match entries with
  | [] => Some false
  | (_, _, request_id) :: entries =>
      let! request := requests self !! request_id in
      if rq_source_id request =? source_id then Some true else any_from_source self source_id entries
  end.

Definition is_header_known (state : UnverifiedBlockState) : bool :=
  match state with HeaderKnown _ => true | _ => false end.

(** The blocks whose header or body is missing. *)
Definition unknown_parts (self : PendingBlocks) : list (u64 * Hash) :=
  (if verify_bodies self then
     (fun '(height, hash, _) => (height, hash)) <$>
       filter (fun '(_, _, block_info) => is_header_known (ub_state block_info) = true)
         (disjoint_iter (pb_blocks self))
   else [])
  ++ filter (fun '(height, _) => src_finalized_block_height (pb_sources self) < height)
       (unknown_blocks (pb_blocks self)).

(** The closure of [flat_map]. *)
Definition desired_of_block (self : PendingBlocks) (force_source : option u64) (block : u64 * Hash)
    : option (list DesiredRequest) :=
  let '(height, hash) := block in
  let! possible_sources :=
    match force_source with
    | Some force_source =>
        let! knows := source_knows_non_finalized_block (pb_sources self) force_source height hash in
        Some (if knows then [force_source] else [])
    | None => knows_non_finalized_block (pb_sources self) height hash
    end in
  let! l := filter_panic (fun source_id =>
    let! any := any_from_source self source_id (requests_of_block self height hash) in Some (negb any)) possible_sources in
  (* [NonZeroU64::new(..).unwrap()]. *)
  mapM (fun source_id =>
    let n := wsub 64 height (src_finalized_block_height (pb_sources self)) in
    if n =? 0 then None else Some (mkDesiredRequest source_id (mkRequestParams height hash n))) l.

Definition desired_requests_inner (self : PendingBlocks) (force_source : option u64) : option (list DesiredRequest) :=
  let l := filter (fun '(height, hash) => len (requests_of_block self height hash) < max_requests_per_block self)
    (unknown_parts self) in
  let! l := mapM (desired_of_block self force_source) l in
  Some (concat l).

Definition desired_requests (self : PendingBlocks) : option (list DesiredRequest) := desired_requests_inner self None.

Definition source_desired_requests (self : PendingBlocks) (source_id : u64) : option (list RequestParams) :=
  let! l := desired_requests_inner self (Some source_id) in Some (dr_request_params <$> l).

End pending.
