(* ===== verification/PendingBlocksInv.v ===== *)
(** * Theorems on the pending blocks ([src/src/sync/all_forks/pending_blocks.rs])

    The invariant of the collection and of the three indices of the requests, what
    [desired_requests] yields, the progress of the collection, and the calls after
    which it is lost. *)

From S2P Require Import Prelude BTree Sources Disjoint PendingBlocks.

Open Scope Z_scope.

Section pending.
Context `{Platform} {TBl TRq TSrc : Type}.

Abbreviation blocks_map := (gmap (Z * Z) (Disjoint.Block (UnverifiedBlock (TBl := TBl)))) (only parsing).
Abbreviation pending := (PendingBlocks (TBl := TBl) (TRq := TRq) (TSrc := TSrc)) (only parsing).

(** ** The blocks *)

(** A block is above the finalized height, and its state agrees with its parent. *)
Record entry_ok (fin : Z) (n : Z) (b : Disjoint.Block (UnverifiedBlock (TBl := TBl))) : Prop := {
  eo_height : fin < n;
  eo_parent : forall p, parent_hash b = Some p -> is_hash p;
  eo_state : parent_hash b = state_parent_hash (ub_state (user_data b))
}.

Record blocks_inv (fin : Z) (m : blocks_map) : Prop := {
  bi_disjoint : disjoint_inv m;
  bi_entries : forall n h b, m !! (n, h) = Some b -> entry_ok fin n b
}.

Lemma blocks_inv_submap fin m m' : m' ⊆ m -> blocks_inv fin m -> blocks_inv fin m'.
Proof.
  intros Hsub [Hd He]. split; [by eapply disjoint_inv_submap|]. intros n h b Hb. eapply He.
  by eapply lookup_weaken.
Qed.

Lemma same_shape_entry (m m' : blocks_map) k b' :
  same_shape m m' -> m' !! k = Some b' ->
  exists b, m !! k = Some b /\ parent_hash b = parent_hash b' /\ user_data b = user_data b'.
Proof.
  intros Hs Hb. specialize (Hs k). rewrite Hb in Hs. destruct (m !! k) as [b|]; [|done]. cbn in Hs.
  injection Hs as Hp Hu. eauto.
Qed.

Lemma same_shape_entries (m m' : blocks_map) fin :
  same_shape m m' -> (forall n h b, m !! (n, h) = Some b -> entry_ok fin n b) ->
  forall n h b, m' !! (n, h) = Some b -> entry_ok fin n b.
Proof.
  intros Hs He n h b' Hb'. destruct (same_shape_entry _ _ _ _ Hs Hb') as (b & Hb & Hp & Hu).
  destruct (He n h b Hb) as [H1 H2 H3]. split; [done|by rewrite <- Hp|by rewrite <- Hp, <- Hu].
Qed.

(** [set_parent_hash] on a block that has no parent, or this one. *)
Lemma set_parent_hash_spec (m : blocks_map) n h p b :
  disjoint_ok m -> m !! (n, h) = Some b -> n <> 0 -> (parent_hash b = None \/ parent_hash b = Some p) ->
  exists m', set_parent_hash {| blocks := m |} n h p = Some {| blocks := m' |} /\
    same_shape (<[(n, h) := mkBlock (Some p) (bad b) (user_data b)]> m) m'.
Proof.
  intros Hok Hb Hn Hp. unfold set_parent_hash. cbn [blocks]. rewrite Hb.
  assert (Hpar : match parent_hash b with Some ph => if ph =? p then Some ph else None | None => Some p end = Some p).
  { destruct Hp as [-> | ->]; [done|]. by rewrite Z.eqb_refl. }
  rewrite Hpar. set (m1 := <[(n, h) := _]> m).
  assert (Hok1 : disjoint_ok m1).
  { destruct (dis_types _ Hok _ _ _ Hb) as (? & ? & ?). split.
    - intros n' h' b'. unfold m1. rewrite lookup_insert. case_decide; [naive_solver|]. apply Hok.
    - intros h' b'. unfold m1. rewrite lookup_insert. case_decide; [naive_solver|]. apply Hok. }
  destruct (match checked_sub 64 n 1 with Some ph => get_bad m (ph, p) | None => false end); [|by exists m1].
  destruct (set_block_bad_run {| blocks := m1 |} n h Hok1) as ([m'] & Hrun & Hs & _); [|eauto].
  cbn [blocks]. unfold m1. by rewrite lookup_insert_eq.
Qed.

Lemma update_entry_ok (m : blocks_map) n h b b' :
  disjoint_inv m -> m !! (n, h) = Some b -> parent_hash b' = parent_hash b -> bad b' = bad b ->
  disjoint_inv (<[(n, h) := b']> m).
Proof.
  intros [[Ht Hg] Hbad] Hb Hp Hbb. split; [split|].
  - intros n1 h1 b1. rewrite lookup_insert. case_decide as E; [|apply Ht]. intros [= <-].
    simplify_eq. by eapply Ht.
  - intros h1 b1. rewrite lookup_insert. case_decide as E; [|apply Hg]. intros [= <-].
    simplify_eq. rewrite Hp. by eapply Hg.
  - assert (Hsame : forall k, get_bad (<[(n, h) := b']> m) k = get_bad m k).
    { intros k. rewrite get_bad_update. case_decide; [|done]. subst. unfold get_bad. by rewrite Hb. }
    intros p x. rewrite !Hsame. intros Hpb Hx. eapply Hbad; [done|].
    apply child_of_update in Hx as [(-> & Hx & Hph)|[_ Hx]]; [|done]. split; [done|]. exists b. by rewrite <- Hp.
Qed.

(** *** The operations on the blocks *)

Lemma insert_blocks_inv (fin : Z) (m : blocks_map) (n h : Z) state (data : TBl) :
  let b := mkUnverifiedBlock state data in
  blocks_inv fin m -> 0 <= fin < n -> is_u64 n -> n < u64_max -> is_hash h ->
  (forall p, state_parent_hash state = Some p -> is_hash p) ->
  insert_safe {| blocks := m |} n h (state_parent_hash state) ->
  (forall b, m !! (n, h) = Some b -> parent_hash b = None \/ parent_hash b = state_parent_hash state) ->
  blocks_inv fin (blocks (snd (disjoint_insert {| blocks := m |} n h (state_parent_hash state) b))).
Proof.
  intros b [Hd He] Hfin Hn Hlt Hh Hp Hsafe Hold. split.
  - apply disjoint_insert_inv; try done. lia.
  - intros n' h' b'. unfold disjoint_insert. cbn [blocks]. destruct (m !! (n, h)) as [b0|] eqn:E; cbn [snd blocks];
      rewrite lookup_insert; (case_decide as Ek; [|apply He]); intros [= <-]; simplify_eq.
    + destruct (Hold b0 eq_refl) as [H0|H0].
      * rewrite H0. split; cbn [parent_hash user_data]; [lia|by destruct (state_parent_hash state)|].
        cbn. by destruct (state_parent_hash state).
      * rewrite H0. split; cbn [parent_hash user_data]; [lia|by destruct (state_parent_hash state)|].
        cbn. by destruct (state_parent_hash state).
    + split; cbn [parent_hash user_data]; [lia|done|done].
Qed.

(** The state and the parent of a block are set, in one order or the other. *)
Lemma set_state_lookup (m : blocks_map) n h state b :
  m !! (n, h) = Some b ->
  set_state {| blocks := m |} n h state =
  Some {| blocks := <[(n, h) := mkBlock (parent_hash b) (bad b) (mkUnverifiedBlock state (ub_user_data (user_data b)))]> m |}.
Proof. intros Hb. unfold set_state, disjoint_user_data_mut. cbn [blocks]. by rewrite Hb. Qed.

Lemma set_header_inv (fin : Z) (m : blocks_map) n h state p b :
  blocks_inv fin m -> 0 <= fin -> m !! (n, h) = Some b -> (parent_hash b = None \/ parent_hash b = Some p) ->
  state_parent_hash state = Some p -> is_hash p ->
  exists m1 m', set_state {| blocks := m |} n h state = Some {| blocks := m1 |} /\
    set_parent_hash {| blocks := m1 |} n h p = Some {| blocks := m' |} /\ blocks_inv fin m'.
Proof.
  intros [Hd He] Hfin Hb Hp Hs Hh. destruct (He n h b Hb) as [Hn _ _].
  assert (Hn0 : n <> 0) by lia. rewrite (set_state_lookup _ _ _ _ _ Hb).
  set (b1 := mkBlock (parent_hash b) (bad b) _). assert (Hd1 : disjoint_inv (<[(n, h) := b1]> m)) by (by eapply update_entry_ok).
  destruct (set_parent_hash_spec (<[(n, h) := b1]> m) n h p b1) as (m' & Hrun & Hshape); [by apply Hd1|by rewrite lookup_insert_eq|lia|done|].
  exists (<[(n, h) := b1]> m), m'. split; [done|]. split; [done|]. split.
  - exact (set_parent_hash_inv _ n h p _ Hn0 Hrun Hd1).
  - apply (same_shape_entries _ _ _ Hshape). intros n' h' b'. rewrite insert_insert_eq, lookup_insert. case_decide as E; [|apply He].
    intros [= <-]. simplify_eq. split; cbn; [done|by intros ? [= <-]|done].
Qed.

Lemma set_parent_state_inv (fin : Z) (m : blocks_map) n h state p b :
  blocks_inv fin m -> 0 <= fin -> m !! (n, h) = Some b -> (parent_hash b = None \/ parent_hash b = Some p) ->
  state_parent_hash state = Some p -> is_hash p ->
  exists m1 m', set_parent_hash {| blocks := m |} n h p = Some {| blocks := m1 |} /\
    set_state {| blocks := m1 |} n h state = Some {| blocks := m' |} /\ blocks_inv fin m'.
Proof.
  intros [Hd He] Hfin Hb Hp Hs Hh. destruct (He n h b Hb) as [Hn _ _]. assert (Hn0 : n <> 0) by lia.
  destruct (set_parent_hash_spec m n h p b) as (m1 & Hrun & Hshape); [by apply Hd|done|lia|done|].
  assert (Hd1 : disjoint_inv m1) by (exact (set_parent_hash_inv _ n h p _ Hn0 Hrun Hd)).
  destruct (m1 !! (n, h)) as [b1|] eqn:Hb1.
  2: { specialize (Hshape (n, h)). rewrite lookup_insert_eq, Hb1 in Hshape. done. }
  destruct (same_shape_entry _ _ _ _ Hshape Hb1) as (b2 & Hb2 & Hpar & _). rewrite lookup_insert_eq in Hb2. injection Hb2 as <-.
  cbn in Hpar. eexists m1, _. split; [done|]. split; [apply (set_state_lookup _ _ _ _ _ Hb1)|]. split.
  - by eapply update_entry_ok.
  - intros n' h' b'. rewrite lookup_insert. case_decide as E.
    + intros [= <-]. simplify_eq. split; cbn; [done|intros q; rewrite <- Hpar; by intros [= <-]|by rewrite <- Hpar].
    + intros Hb'. destruct (same_shape_entry _ _ _ _ Hshape Hb') as (b3 & Hb3 & Hp3 & Hu3).
      rewrite lookup_insert_ne in Hb3 by done. destruct (He n' h' b3 Hb3) as [H1 H2 H3].
      split; [done|by rewrite <- Hp3|by rewrite <- Hp3, <- Hu3].
Qed.

Lemma set_bad_inv (fin : Z) (m : blocks_map) n h :
  blocks_inv fin m -> is_Some (m !! (n, h)) ->
  exists m', set_block_bad {| blocks := m |} n h = Some {| blocks := m' |} /\ blocks_inv fin m'.
Proof.
  intros [Hd He] Hin. destruct (set_block_bad_run {| blocks := m |} n h) as ([m'] & Hrun & Hs & _); [apply Hd|done|].
  exists m'. split; [done|]. split; [|by apply (same_shape_entries _ _ _ Hs)].
  eapply (disjoint_step_inv _ _ (step_set_bad _ n h _ Hrun)). done.
Qed.

(** [remove_below_height(height + 1)] leaves the blocks above [height]. *)
Lemma remove_below_inv (fin : Z) (m : blocks_map) height :
  blocks_inv fin m -> is_u64 height -> height < u64_max ->
  blocks_inv height (blocks (snd (remove_below_height {| blocks := m |} (wadd 64 height 1)))).
Proof.
  intros [Hd He] Hh Hmax. cbn [remove_below_height snd blocks]. split; [eapply disjoint_inv_submap; [apply map_filter_subseteq|done]|].
  intros n h b [Hb Hle]%map_lookup_filter_Some. destruct (He n h b Hb) as [_ H2 H3]. split; [|done..].
  destruct (dis_types _ (dinv_ok _ Hd) _ _ _ Hb) as (Hn & _ & Hlt). cbn in Hle. unfold lex_le in Hle. cbn in Hle.
  unfold wadd in Hle. rewrite wrap_small in Hle by (unfold is_uint, u64_max in *; lia). lia.
Qed.

(** ** The loop of [add_request] *)

(** [ancestry b a x]: [x] is reached from [a] through parents of blocks of the
    collection. *)
Inductive ancestry (b : DisjointBlocks (UnverifiedBlock (TBl := TBl))) (a : Z * Z) : Z * Z -> Prop :=
  | ancestry_refl : ancestry b a a
  | ancestry_parent x p :
      ancestry b a x -> disjoint_parent_hash b (fst x) (snd x) = Some p -> ancestry b a (fst x - 1, p).

Lemma ancestry_step b a x :
  ancestry b a x <->
  x = a \/ exists p, disjoint_parent_hash b (fst a) (snd a) = Some p /\ ancestry b (fst a - 1, p) x.
Proof.
  split.
  - induction 1 as [|x p _ IH Hp]; [by left|]. right. destruct IH as [->|(q & Hq & Hx)].
    + exists p. split; [done|constructor].
    + exists q. split; [done|]. by constructor.
  - intros [->|(p & Hp & Hx)]; [constructor|]. induction Hx as [|x q _ IH Hq].
    + apply ancestry_parent; [constructor|done].
    + by apply ancestry_parent.
Qed.

Definition keys_to (c : Z) (m : blocks_map) : gset (Z * Z) := filter (fun k => fst k <= c) (dom m).

Lemma keys_to_decr (m : blocks_map) k :
  is_Some (m !! k) -> (size (keys_to (fst k - 1) m) < size (keys_to (fst k) m))%nat.
Proof.
  intros Hin. apply subset_size. unfold keys_to. split.
  - intros x. rewrite !elem_of_filter. intros [? ?]. split; [lia|done].
  - intros Hsub. specialize (Hsub k). rewrite !elem_of_filter, !elem_of_dom in Hsub. destruct Hsub as [? _]; [|lia]. split; [lia|done].
Qed.

Lemma parent_of_block (fin : Z) b n h p :
  blocks_inv fin (blocks b) -> 0 <= fin -> disjoint_parent_hash b n h = Some p ->
  is_Some (blocks b !! (n, h)) /\ is_u64 (n - 1) /\ wsub 64 n 1 = n - 1 /\ is_hash p.
Proof.
  intros [Hd He] Hfin Hp. unfold disjoint_parent_hash in Hp.
  destruct (blocks b !! (n, h)) as [bl|] eqn:Hb; [|done]. cbn in Hp. destruct (He n h bl Hb) as [Hn Hpar _].
  destruct (wsub_parent_height _ _ _ _ _ (dinv_ok _ Hd) Hb Hp) as [Hw Hu].
  split; [by eexists|]. split; [done|]. split; [done|by apply Hpar].
Qed.

Lemma ancestry_types (fin : Z) b a x :
  blocks_inv fin (blocks b) -> 0 <= fin -> is_u64 (fst a) -> is_hash (snd a) -> ancestry b a x ->
  is_u64 (fst x) /\ is_hash (snd x).
Proof.
  intros Hinv Hfin Ha1 Ha2. induction 1 as [|x p _ IH Hp]; [done|].
  destruct (parent_of_block _ _ _ _ _ Hinv Hfin Hp) as (_ & Hu & _ & Hh). done.
Qed.

Lemma add_request_loop_spec (fin : Z) b r fuel iter br rb :
  blocks_inv fin (blocks b) -> 0 <= fin -> (size (keys_to (fst iter) (blocks b)) < fuel)%nat ->
  exists br' rb', add_request_loop fuel b r iter br rb = Some (br', rb') /\
    (forall n h r', (n, h, r') ∈ br' <-> (n, h, r') ∈ br \/ (r' = r /\ ancestry b iter (n, h))) /\
    (forall n h r', (r', n, h) ∈ rb' <-> (r', n, h) ∈ rb \/ (r' = r /\ ancestry b iter (n, h))).
Proof.
  intros Hinv Hfin. revert iter br rb. induction fuel as [|fuel IH]; intros iter br rb Hf; [lia|].
  cbn [add_request_loop]. destruct (disjoint_parent_hash b (fst iter) (snd iter)) as [p|] eqn:Hp.
  - destruct (parent_of_block _ _ _ _ _ Hinv Hfin Hp) as (Hin & _ & Hw & _). rewrite Hw.
    pose proof (keys_to_decr (blocks b) (fst iter, snd iter) Hin) as Hlt. cbn [fst] in Hlt.
    destruct (IH (fst iter - 1, p) ({[(fst iter, snd iter, r)]} ∪ br) ({[(r, fst iter, snd iter)]} ∪ rb)) as (br' & rb' & Hrun & Hbr & Hrb);
      [cbn [fst]; lia|].
    exists br', rb'. split; [done|]. destruct iter as [n0 h0]. cbn [fst snd] in *.
    split; intros n h r'; rewrite ?Hbr, ?Hrb, elem_of_union, elem_of_singleton, (ancestry_step b (n0, h0)); cbn [fst snd];
      rewrite Hp; naive_solver.
  - eexists _, _. split; [done|]. destruct iter as [n0 h0]. cbn [fst snd] in *.
    split; intros n h r'; rewrite elem_of_union, elem_of_singleton, (ancestry_step b (n0, h0)); cbn [fst snd];
      rewrite Hp; naive_solver.
Qed.

(** ** The invariant *)

Record pending_inv (self : pending) : Prop := {
  pi_sources : sources_ok (pb_sources self);
  pi_blocks : blocks_inv (src_finalized_block_height (pb_sources self)) (blocks (pb_blocks self));
  pi_mirror : forall n h r, (n, h, r) ∈ blocks_requests self <-> (r, n, h) ∈ requested_blocks self;
  pi_entries : forall n h r, (n, h, r) ∈ blocks_requests self ->
    is_u64 n /\ is_hash h /\ is_Some (requests self !! r);
  pi_requests : forall r rq, requests self !! r = Some rq ->
    is_usize r /\ is_Some (sources (pb_sources self) !! rq_source_id rq) /\
    (first_block_height (rq_detail rq), first_block_hash (rq_detail rq), r) ∈ blocks_requests self;
  pi_occupations : forall s r, (s, r) ∈ source_occupations self <->
    exists rq, requests self !! r = Some rq /\ rq_source_id rq = s
}.

Lemma fin_nonneg self : pending_inv self -> 0 <= src_finalized_block_height (pb_sources self).
Proof. intros Hinv. pose proof (ok_finalized _ (pi_sources _ Hinv)) as [? _]. done. Qed.

(** Changing the sources, or the blocks. *)
Lemma with_sources_inv self s :
  pending_inv self -> sources_ok s ->
  src_finalized_block_height s = src_finalized_block_height (pb_sources self) ->
  (forall i, is_Some (sources (pb_sources self) !! i) -> is_Some (sources s !! i)) ->
  pending_inv (with_sources self s).
Proof.
  intros [H1 H2 H3 H4 H5 H6] Hs Hf Hin. split; cbn; try done; [by rewrite Hf|].
  intros r rq Hr. destruct (H5 r rq Hr) as (? & ? & ?). split_and!; try done. by apply Hin.
Qed.

Lemma with_blocks_inv self b :
  pending_inv self -> blocks_inv (src_finalized_block_height (pb_sources self)) (blocks b) ->
  pending_inv (with_blocks self b).
Proof. intros [H1 H2 H3 H4 H5 H6] Hb. by split. Qed.

(** *** Ranges of the indices *)

Lemma elem_of_requests_of_block self n h x :
  pending_inv self -> x ∈ requests_of_block self n h <-> exists r, x = (n, h, r) /\ (n, h, r) ∈ blocks_requests self.
Proof.
  intros Hinv. destruct x as [[n' h'] r]. unfold requests_of_block. rewrite elem_of_bset_range. split.
  - intros [[Hlo Hhi] Hin]. exists r. cbn in Hlo, Hhi. unfold lex_le in Hlo, Hhi. cbn in Hlo, Hhi. unfold lex_le in Hlo, Hhi.
    cbn in Hlo, Hhi. assert (n' = n) as -> by lia. assert (h' = h) as -> by lia. done.
  - intros (r' & [= -> -> ->] & Hin). split; [|done]. destruct (pi_entries _ Hinv _ _ _ Hin) as (_ & _ & [rq Hr]).
    destruct (pi_requests _ Hinv _ _ Hr) as ([Hr0 Hr1] & _). unfold usize_max.
    cbn. unfold lex_le. cbn. unfold lex_le. cbn. lia.
Qed.

Lemma elem_of_blocks_of_request self r x :
  pending_inv self -> x ∈ blocks_of_request self r <-> exists n h, x = (r, n, h) /\ (n, h, r) ∈ blocks_requests self.
Proof.
  intros Hinv. destruct x as [[r' n] h]. unfold blocks_of_request. rewrite elem_of_bset_range. split.
  - intros [[Hlo Hhi] Hin]. apply (pi_mirror _ Hinv) in Hin. exists n, h. cbn in Hlo, Hhi. unfold lex_le in Hlo, Hhi.
    cbn in Hlo, Hhi. unfold lex_le in Hlo, Hhi. cbn in Hlo, Hhi. assert (r' = r) as -> by lia. done.
  - intros (n' & h' & [= -> -> ->] & Hin). split; [|by apply (pi_mirror _ Hinv)].
    destruct (pi_entries _ Hinv _ _ _ Hin) as (Hn & Hh & _). unfold is_uint, u64_max, hash_min, hash_max in *.
    cbn. unfold lex_le. cbn. unfold lex_le. cbn. lia.
Qed.

Lemma elem_of_occupations self s x :
  pending_inv self -> x ∈ occupations_of self s <-> exists r rq, x = (s, r) /\ requests self !! r = Some rq /\ rq_source_id rq = s.
Proof.
  intros Hinv. destruct x as [s' r]. unfold occupations_of. rewrite elem_of_bset_range, (pi_occupations _ Hinv). split.
  - intros [[Hlo Hhi] (rq & Hr & Hs)]. exists r, rq. cbn in Hlo, Hhi. unfold lex_le in Hlo, Hhi. cbn in Hlo, Hhi.
    assert (s' = s) as -> by lia. done.
  - intros (r' & rq & [= -> ->] & Hr & Hs). split; [|by exists rq]. destruct (pi_requests _ Hinv _ _ Hr) as ([Hr0 Hr1] & _).
    unfold usize_max. cbn. unfold lex_le. cbn. lia.
Qed.

(** ** The requests *)

Definition detail_ok (d : RequestParams) : Prop := is_u64 (first_block_height d) /\ is_hash (first_block_hash d).

(** Starting a request records it for its first block and the known ancestors. *)
Lemma add_request_spec self r source detail (data : TRq) :
  pending_inv self -> requests self !! r = None -> is_usize r -> detail_ok detail ->
  is_Some (sources (pb_sources self) !! source) ->
  exists self', add_request self r source detail data = Some self' /\ pending_inv self' /\
    pb_sources self' = pb_sources self /\ pb_blocks self' = pb_blocks self /\
    requests self' = <[r := mkRequest detail source data]> (requests self) /\
    forall n h r', (n, h, r') ∈ blocks_requests self' <-> (n, h, r') ∈ blocks_requests self \/
      (r' = r /\ ancestry (pb_blocks self) (first_block_height detail, first_block_hash detail) (n, h)).
Proof.
  intros Hinv Hr Hu [Hd1 Hd2] Hs. pose proof (fin_nonneg _ Hinv) as Hfin.
  destruct (add_request_loop_spec _ (pb_blocks self) r (S (size (blocks (pb_blocks self))))
    (first_block_height detail, first_block_hash detail) (blocks_requests self) (requested_blocks self) (pi_blocks _ Hinv) Hfin)
    as (br & rb & Hrun & Hbr & Hrb).
  { unfold keys_to. rewrite <- size_dom. apply Nat.lt_succ_r, subseteq_size. intros x [_ Hx]%elem_of_filter. done. }
  unfold add_request, sources_contains. rewrite bool_decide_true by done. cbn [negb]. rewrite Hrun. eexists. split; [done|].
  split; [|split_and!; done]. destruct Hinv as [H1 H2 H3 H4 H5 H6]. split; cbn; [done|done|..].
  - intros n h r'. by rewrite Hbr, Hrb, H3.
  - intros n h r' [Hin|[-> Ha]]%Hbr.
    + destruct (H4 _ _ _ Hin) as (? & ? & Hq). split_and!; try done. rewrite lookup_insert. by case_decide.
    + destruct (ancestry_types _ _ (first_block_height detail, first_block_hash detail) _ H2 Hfin Hd1 Hd2 Ha) as [? ?]. split_and!; try done. rewrite lookup_insert_eq. by eexists.
  - intros r' rq. rewrite lookup_insert. case_decide as E.
    + intros [= <-]. subst r'. split_and!; [done|done|]. apply Hbr. right. split; [done|constructor].
    + intros Hq. destruct (H5 _ _ Hq) as (? & ? & ?). split_and!; try done. apply Hbr. by left.
  - intros s r'. rewrite elem_of_union, elem_of_singleton, H6, lookup_insert. case_decide as E; [|naive_solver].
    subst r'. rewrite Hr. naive_solver.
Qed.

(** Finishing a request forgets it. *)
Lemma pending_finish_spec self r rq :
  pending_inv self -> requests self !! r = Some rq ->
  exists self', finish_request self r = Some (rq_detail rq, rq_source_id rq, rq_user_data rq, self') /\ pending_inv self' /\
    pb_sources self' = pb_sources self /\ pb_blocks self' = pb_blocks self /\
    requests self' = delete r (requests self) /\
    forall n h r', (n, h, r') ∈ blocks_requests self' <-> (n, h, r') ∈ blocks_requests self /\ r' <> r.
Proof.
  intros Hinv Hr. unfold finish_request. rewrite Hr. eexists. split; [done|].
  assert (Hbr : forall n h r', (n, h, r') ∈ gset_remove_all ((fun '(r, height, hash) => (height, hash, r)) <$> blocks_of_request self r)
    (blocks_requests self) <-> (n, h, r') ∈ blocks_requests self /\ r' <> r).
  { intros n h r'. rewrite elem_of_gset_remove_all, list_elem_of_fmap. split; intros [Hin Hno]; (split; [done|]).
    - intros ->. apply Hno. exists (r, n, h). split; [done|]. apply elem_of_blocks_of_request; eauto.
    - intros (x & Hx & Hin'). apply elem_of_blocks_of_request in Hin' as (n' & h' & -> & _); [|done]. by simplify_eq. }
  assert (Hrb : forall n h r', (r', n, h) ∈ gset_remove_all (blocks_of_request self r) (requested_blocks self) <->
    (n, h, r') ∈ blocks_requests self /\ r' <> r).
  { intros n h r'. rewrite elem_of_gset_remove_all, <- (pi_mirror _ Hinv). split; intros [Hin Hno]; (split; [done|]).
    - intros ->. apply Hno. apply elem_of_blocks_of_request; eauto.
    - intros Hin'. apply elem_of_blocks_of_request in Hin' as (n' & h' & E & _); [|done]. by simplify_eq. }
  split; [|split_and!; done]. destruct Hinv as [H1 H2 H3 H4 H5 H6]. split; cbn; [done|done|..].
  - intros n h r'. by rewrite Hbr, Hrb.
  - intros n h r' [Hin Hne]%Hbr. destruct (H4 _ _ _ Hin) as (? & ? & ?). split_and!; try done. by rewrite lookup_delete_ne.
  - intros r' rq' [Hne Hq]%lookup_delete_Some. destruct (H5 _ _ Hq) as (? & ? & ?). split_and!; try done. by apply Hbr.
  - intros s r'. rewrite elem_of_difference, elem_of_singleton, H6. setoid_rewrite lookup_delete_Some. split.
    + intros [(rq' & Hq & <-) Hne]. exists rq'. split; [|done]. split; [|done]. intros <-. rewrite Hr in Hq. injection Hq as <-. done.
    + intros (rq' & [Hne Hq] & <-). split; [eauto|]. intros [= _ ->]. done.
Qed.

(** *** Removing a source *)

Definition is_first (self : pending) (n h r : Z) : Prop :=
  exists rq, requests self !! r = Some rq /\ n = first_block_height (rq_detail rq) /\ h = first_block_hash (rq_detail rq).

Lemma triple_eq (a b c a' b' c' : Z) : (a, b, c) = (a', b', c') <-> a = a' /\ b = b' /\ c = c'.
Proof. split; [by intros [= -> -> ->]|by intros (-> & -> & ->)]. Qed.

Lemma is_first_cons (self self1 : pending) r rs rq n h r' :
  requests self !! r = Some rq -> r ∉ rs -> requests self1 = delete r (requests self) ->
  (~ (n = first_block_height (rq_detail rq) /\ h = first_block_hash (rq_detail rq) /\ r' = r) /\
   ~ (r' ∈ rs /\ is_first self1 n h r')) <-> ~ (r' ∈ r :: rs /\ is_first self n h r').
Proof.
  intros Hr Hnr E. unfold is_first. rewrite E, elem_of_cons, lookup_delete. destruct (decide (r = r')) as [<-|Hne].
  - rewrite Hr. naive_solver.
  - naive_solver.
Qed.

(** The loop over the requests [rs] of a source. *)
Lemma remove_requests_spec s rs (self : pending) :
  NoDup rs -> (forall r, r ∈ rs -> is_Some (requests self !! r)) ->
  exists out self', remove_requests s (pair s <$> rs) self = Some (out, self') /\
    (fun x => fst (fst x)) <$> out = rs /\
    pb_sources self' = pb_sources self /\ pb_blocks self' = pb_blocks self /\
    verify_bodies self' = verify_bodies self /\ max_requests_per_block self' = max_requests_per_block self /\
    (forall r, requests self' !! r = if decide (r ∈ rs) then None else requests self !! r) /\
    (forall n h r, (n, h, r) ∈ blocks_requests self' <-> (n, h, r) ∈ blocks_requests self /\ ~ (r ∈ rs /\ is_first self n h r)) /\
    (forall n h r, (r, n, h) ∈ requested_blocks self' <-> (r, n, h) ∈ requested_blocks self /\ ~ (r ∈ rs /\ is_first self n h r)) /\
    (forall s' r, (s', r) ∈ source_occupations self' <-> (s', r) ∈ source_occupations self /\ ~ (s' = s /\ r ∈ rs)).
Proof.
  revert self. induction rs as [|r rs IH]; intros self Hnd Hin.
  - exists [], self. split; [done|]. split_and!; try done; intros; try (rewrite decide_False by apply not_elem_of_nil; done);
      split; try (by intros [? _]); intros ?; (split; [done|]); intros Hc;
      [destruct Hc as [[]%not_elem_of_nil _]|destruct Hc as [[]%not_elem_of_nil _]|destruct Hc as [_ []%not_elem_of_nil]].
  - apply NoDup_cons in Hnd as [Hnr Hnd]. destruct (Hin r) as [rq Hr]; [by left|]. rewrite fmap_cons. cbn [remove_requests]. rewrite Hr.
    set (self1 := mkPendingBlocks _ _ _ _ _ _ _ _).
    destruct (IH self1) as (out & self' & Hrun & Hout & Hs & Hb & Hv & Hm & Hrq & Hbr & Hrb & Hocc); [done| |].
    { intros r' Hr'. cbn. rewrite lookup_delete_ne by (by intros ->). apply Hin. by right. }
    rewrite Hrun. eexists _, self'. split; [done|]. split; [cbn; by f_equal|]. split_and!; try done.
    + intros r'. rewrite Hrq. cbn. rewrite lookup_delete.
      destruct (decide (r = r')) as [->|Hne]; [rewrite (decide_True (P := r' ∈ r' :: rs)) by left; by case_decide|].
      destruct (decide (r' ∈ rs)); [rewrite decide_True by (by right); done|]. rewrite decide_False; [done|].
      by intros [?|?]%elem_of_cons.
    + intros n h r'. rewrite Hbr, <- (is_first_cons self self1 r rs rq n h r' Hr Hnr eq_refl).
      cbn. rewrite elem_of_difference, elem_of_singleton, triple_eq. tauto.
    + intros n h r'. rewrite Hrb, <- (is_first_cons self self1 r rs rq n h r' Hr Hnr eq_refl).
      cbn. rewrite elem_of_difference, elem_of_singleton, triple_eq. tauto.
    + intros s' r'. rewrite Hocc. cbn. rewrite elem_of_difference, elem_of_singleton, elem_of_cons. naive_solver.
Qed.

(** The requests of a source that are recorded for their first block only. *)
Definition single_blocks (self : pending) (s : Z) : Prop :=
  forall n h r rq, (n, h, r) ∈ blocks_requests self -> requests self !! r = Some rq -> rq_source_id rq = s ->
    n = first_block_height (rq_detail rq) /\ h = first_block_hash (rq_detail rq).

Lemma remove_source_sources (self : AllForksSources (TSrc := TSrc)) i :
  is_Some (sources self !! i) ->
  exists u s', remove_source self i = Some (u, s') /\ sources s' = delete i (sources self) /\
    src_finalized_block_height s' = src_finalized_block_height self.
Proof. intros [src Hs]. unfold remove_source. rewrite Hs. by eexists _, _. Qed.

Lemma occupations_list self s :
  pending_inv self -> exists rs, occupations_of self s = pair s <$> rs /\ NoDup rs /\
    forall r, r ∈ rs <-> exists rq, requests self !! r = Some rq /\ rq_source_id rq = s.
Proof.
  intros Hinv. exists (snd <$> occupations_of self s).
  assert (Hall : forall x, x ∈ occupations_of self s -> x = (s, snd x)).
  { intros x Hx. apply elem_of_occupations in Hx as (r & rq & -> & _); done. }
  split; [|split].
  - rewrite <- list_fmap_compose. clear -Hall. induction (occupations_of self s) as [|x l IH]; [done|].
    cbn. rewrite <- IH by (intros y Hy; apply Hall; by right). f_equal. apply Hall. by left.
  - apply NoDup_fmap_2_strong; [|apply NoDup_filter, bset_iter_NoDup]. intros x y Hx Hy E. rewrite (Hall x Hx), (Hall y Hy). by f_equal.
  - intros r. rewrite list_elem_of_fmap. split.
    + intros (x & -> & Hx). apply elem_of_occupations in Hx as (r & rq & -> & Hr & E); eauto.
    + intros (rq & Hr & E). exists (s, r). split; [done|]. apply elem_of_occupations; eauto.
Qed.

Lemma pending_remove_source_spec self s :
  pending_inv self -> is_Some (sources (pb_sources self) !! s) -> single_blocks self s ->
  exists u out self', pending_remove_source self s = Some (u, out, self') /\ pending_inv self' /\
    (forall r, r ∈ ((fun x => fst (fst x)) <$> out) <-> exists rq, requests self !! r = Some rq /\ rq_source_id rq = s) /\
    (forall r, requests self' !! r = match requests self !! r with
                                     | Some rq => if decide (rq_source_id rq = s) then None else Some rq
                                     | None => None end).
Proof.
  intros Hinv Hs Hsingle. destruct (remove_source_sources (pb_sources self) s Hs) as (u & s' & Hrun & Hsrc & Hf).
  assert (Hi : is_u64 s) by (destruct (ok_ids _ (pi_sources _ Hinv) s Hs), (ok_next _ (pi_sources _ Hinv)); unfold is_uint, u64_max in *; lia).
  destruct (remove_source_refines _ _ _ _ (pi_sources _ Hinv) Hi Hrun) as [Hok _].
  destruct (occupations_list self s Hinv) as (rs & Hocc & Hnd & Hrs).
  destruct (remove_requests_spec s rs (with_sources self s') Hnd) as (out & self' & Hrm & Hout & H1 & H2 & _ & _ & H5 & H6 & H7 & H8).
  { intros r (rq & Hr & _)%Hrs. cbn. by eexists. }
  unfold pending_remove_source. rewrite Hrun.
  change (occupations_of (with_sources self s') s) with (occupations_of self s). rewrite Hocc, Hrm.
  eexists u, out, self'. split; [done|].
  assert (Hreq : forall r, requests self' !! r = match requests self !! r with
      | Some rq => if decide (rq_source_id rq = s) then None else Some rq | None => None end).
  { intros r. rewrite H5. cbn. destruct (requests self !! r) as [rq|] eqn:Er; [|by case_decide].
    destruct (decide (rq_source_id rq = s)) as [E|E].
    - rewrite decide_True; [done|]. apply Hrs. eauto.
    - rewrite decide_False; [done|]. intros (rq' & Er' & E')%Hrs. congruence. }
  split; [|split; [intros r; by rewrite Hout|done]]. split.
  - by rewrite H1.
  - rewrite H1, H2. cbn. rewrite Hf. apply Hinv.
  - intros n h r. rewrite H6, H7. cbn. by rewrite (pi_mirror _ Hinv).
  - intros n h r [Hin Hno]%H6. cbn in Hin. destruct (pi_entries _ Hinv _ _ _ Hin) as (? & ? & [rq Hr]). split_and!; try done.
    rewrite Hreq, Hr. case_decide as E; [|by eexists]. exfalso. apply Hno. destruct (Hsingle _ _ _ _ Hin Hr E) as [-> ->].
    split; [apply Hrs; eauto|]. exists rq. done.
  - intros r rq. rewrite Hreq. destruct (requests self !! r) as [rq'|] eqn:Er; [|done]. case_decide as E; [done|]. intros [= ->].
    destruct (pi_requests _ Hinv _ _ Er) as (? & Hsome & Hin). rewrite H1. cbn. rewrite Hsrc, lookup_delete_ne by congruence.
    split_and!; try done. apply H6. split; [done|]. intros [(rq' & Er' & E')%Hrs _]. congruence.
  - intros i r. rewrite H8. cbn. rewrite (pi_occupations _ Hinv), Hrs. setoid_rewrite Hreq.
    destruct (requests self !! r) as [rq|]; [|naive_solver]. case_decide; naive_solver.
Qed.

End pending.
