(* ===== verification/PendingBlocksRun.v ===== *)
(** * Runs of the pending blocks ([src/src/sync/all_forks/pending_blocks.rs])

    The operations as events with the conditions under which they may be called, the
    safety of every run, what [desired_requests] yields, the progress of the
    collection, and the calls after which it is lost. *)

From S2P Require Import Prelude BTree Sources Disjoint PendingBlocks PendingBlocksInv.

Open Scope Z_scope.

Section pending.
Context `{Platform} {TBl TRq TSrc : Type}.

Abbreviation pending := (PendingBlocks (TBl := TBl) (TRq := TRq) (TSrc := TSrc)) (only parsing).

(** ** Operations as events *)

Inductive pending_op :=
  | PAddSource (user_data : TSrc) (height : u64) (hash : Hash)
  | PRemoveSource (source_id : u64)
  | PSourcesDataMut (f : TSrc -> TSrc)
  | PIndexMut (source_id : u64) (f : TSrc -> TSrc)
  | PAddKnown (source_id height : u64) (hash : Hash)
  | PRemoveKnown (source_id height : u64) (hash : Hash)
  | PAddKnownBest (source_id height : u64) (hash : Hash)
  | PRemoveSourcesKnown (height : u64) (hash : Hash)
  | PSetFinalized (height : u64)
  | PInsert (height : u64) (hash : Hash) (state : UnverifiedBlockState) (user_data : TBl)
  | PDataMut (height : u64) (hash : Hash) (f : TBl -> TBl)
  | PSetState (height : u64) (hash : Hash) (state : UnverifiedBlockState)
  | PHeaderKnown (height : u64) (hash parent_hash : Hash)
  | PHeaderBodyKnown (height : u64) (hash parent_hash : Hash)
  | PRemove (height : u64) (hash : Hash)
  | PMarkBad (height : u64) (hash : Hash)
  | PAddRequest (request_id source_id : u64) (detail : RequestParams) (user_data : TRq)
  | PFinishRequest (request_id : u64).

(** [None] is a panic. *)
Definition run_pending_op (self : pending) (op : pending_op) : option pending :=
  match op with
  | PAddSource u n h => Some (snd (pending_add_source self u n h))
  | PRemoveSource i => snd <$> pending_remove_source self i
  | PSourcesDataMut f => Some (sources_user_data_iter_mut self f)
  | PIndexMut i f => pending_index_mut self i f
  | PAddKnown i n h => Some (add_known_block_to_source self i n h)
  | PRemoveKnown i n h => Some (remove_known_block_of_source self i n h)
  | PAddKnownBest i n h => add_known_block_to_source_and_set_best self i n h
  | PRemoveSourcesKnown n h => Some (remove_sources_known_block self n h)
  | PSetFinalized n => snd <$> pending_set_finalized_block_height self n
  | PInsert n h state u => Some (snd (insert_unverified_block self n h state u))
  | PDataMut n h f => unverified_block_user_data_mut self n h f
  | PSetState n h state => set_unverified_block_state self n h state
  | PHeaderKnown n h p => set_unverified_block_header_known self n h p
  | PHeaderBodyKnown n h p => set_unverified_block_header_body_known self n h p
  | PRemove n h => snd <$> remove_unverified_block self n h
  | PMarkBad n h => mark_unverified_block_as_bad self n h
  | PAddRequest r i detail u => add_request self r i detail u
  | PFinishRequest r => snd <$> finish_request self r
  end.

Definition is_block (self : pending) (n : u64) (h : Hash) : Prop := is_Some (blocks (pb_blocks self) !! (n, h)).
Definition is_source (self : pending) (i : u64) : Prop := is_Some (sources (pb_sources self) !! i).

(** A parent that does not contradict the one that is known. *)
Definition parent_agrees (self : pending) (n : u64) (h : Hash) (parent : option Hash) : Prop :=
  forall p, disjoint_parent_hash (pb_blocks self) n h = Some p -> parent = Some p.

Definition parent_typed (parent : option Hash) : Prop := forall p, parent = Some p -> is_hash p.

(** The documented preconditions (the source, the block or the request exists, the
    finalized height does not decrease, the parent hash is the known one), arguments
    of their types, and what the source leaves to the caller: the largest height is
    not used, a block with a bad parent is not inserted under its children, a source
    is removed when its requests are on single blocks. *)
Definition pending_op_ok (self : pending) (op : pending_op) : Prop :=
  match op with
  | PAddSource _ n h => is_u64 n /\ is_hash h /\ next_source_id (pb_sources self) < u64_max
  | PRemoveSource i => is_source self i /\ single_blocks self i
  | PSourcesDataMut _ => True
  | PIndexMut i _ => is_source self i
  | PAddKnown i n h => is_u64 i /\ is_u64 n /\ is_hash h
  | PRemoveKnown _ _ _ | PRemoveSourcesKnown _ _ => True
  | PAddKnownBest i n h => is_source self i /\ is_u64 n /\ is_hash h
  | PSetFinalized n => is_u64 n /\ n < u64_max /\ src_finalized_block_height (pb_sources self) <= n
  | PInsert n h state _ => is_u64 n /\ is_hash h /\ n < u64_max /\ parent_typed (state_parent_hash state) /\
      parent_agrees self n h (state_parent_hash state) /\
      insert_safe (pb_blocks self) n h (state_parent_hash state)
  | PDataMut n h _ => is_block self n h
  | PSetState n h state => is_block self n h /\ parent_typed (state_parent_hash state) /\
      parent_agrees self n h (state_parent_hash state)
  | PHeaderKnown n h p | PHeaderBodyKnown n h p => is_block self n h /\ is_hash p /\ parent_agrees self n h (Some p)
  | PRemove n h | PMarkBad n h => is_block self n h
  | PAddRequest r i detail _ => is_source self i /\ is_usize r /\ requests self !! r = None /\ detail_ok detail
  | PFinishRequest r => is_Some (requests self !! r)
  end.

Definition pending_step (self self' : pending) : Prop :=
  exists op, pending_op_ok self op /\ run_pending_op self op = Some self'.

(** The outcome of an operation: no panic, and the invariant. *)
Definition op_safe (self : pending) (op : pending_op) : Prop :=
  exists self', run_pending_op self op = Some self' /\ pending_inv self'.

(** ** Sources *)

Lemma source_id_typed (self : pending) i : pending_inv self -> is_source self i -> is_u64 i.
Proof.
  intros Hinv Hi. destruct (ok_ids _ (pi_sources _ Hinv) i Hi), (ok_next _ (pi_sources _ Hinv)).
  unfold is_uint, u64_max in *. lia.
Qed.

(** An operation on the sources alone, which removes none and keeps the height. *)
Lemma sources_op_safe (self : pending) op sop s :
  pending_inv self -> source_op_ok (pb_sources self) sop -> run_source_op (pb_sources self) sop = Some s ->
  src_finalized_block_height s = src_finalized_block_height (pb_sources self) ->
  (forall i, is_Some (sources (pb_sources self) !! i) -> is_Some (sources s !! i)) ->
  run_pending_op self op = Some (with_sources self s) -> op_safe self op.
Proof.
  intros Hinv Hop Hrun Hf Hin Hp. exists (with_sources self s). split; [done|]. apply with_sources_inv; try done.
  by eapply (source_op_refines _ _ _ (pi_sources _ Hinv) Hop Hrun).
Qed.

Lemma add_source_safe (self : pending) u n h :
  pending_inv self -> pending_op_ok self (PAddSource u n h) -> op_safe self (PAddSource u n h).
Proof.
  intros Hinv Hok. apply (sources_op_safe _ _ (OpAddSource n h u) _ Hinv Hok eq_refl); [done| |done].
  intros i [src Hi]. cbn. rewrite lookup_insert. case_decide; by eexists.
Qed.

Lemma known_ops_safe (self : pending) i n h :
  pending_inv self ->
  (is_u64 i -> is_u64 n -> is_hash h -> op_safe self (PAddKnown i n h)) /\
  (op_safe self (PRemoveKnown i n h)) /\ op_safe self (PRemoveSourcesKnown n h).
Proof.
  intros Hinv. pose proof (pi_sources _ Hinv) as Hs. split_and!.
  - intros Hi Hn Hh. destruct (add_known_same (pb_sources self) i n h) as (E1 & _ & E2).
    apply (sources_op_safe _ _ (OpAddKnown i n h) _ Hinv (conj Hi (conj Hn Hh)) eq_refl); [done|by rewrite E1|done].
  - eexists. split; [done|]. apply with_sources_inv; [done|by apply source_remove_known_refines|done|done].
  - eexists. split; [done|]. apply with_sources_inv; [done|by apply remove_known_refines|done|done].
Qed.

Lemma add_known_best_safe (self : pending) i n h :
  pending_inv self -> is_source self i -> is_u64 n -> is_hash h -> op_safe self (PAddKnownBest i n h).
Proof.
  intros Hinv [src Hi] Hn Hh. assert (Hid : is_u64 i) by (apply (source_id_typed self); [done|by eexists]).
  destruct (add_known_same (pb_sources self) i n h) as (E1 & _ & E2).
  assert (Hrun : is_Some (add_known_block_and_set_best (pb_sources self) i n h)).
  { unfold add_known_block_and_set_best. rewrite E1, Hi. by eexists. }
  destruct Hrun as [s Hrun].
  apply (sources_op_safe _ _ (OpAddKnownBest i n h) s Hinv (conj Hid (conj Hn Hh)) Hrun).
  - unfold add_known_block_and_set_best in Hrun. rewrite E1, Hi in Hrun. by injection Hrun as <-.
  - unfold add_known_block_and_set_best in Hrun. rewrite E1, Hi in Hrun. injection Hrun as <-.
    intros j Hj. cbn. rewrite lookup_insert. case_decide; [by eexists|done].
  - cbn. unfold add_known_block_to_source_and_set_best. by rewrite Hrun.
Qed.

(** Writing the data of the sources. *)
Lemma sources_data_ok (s s' : AllForksSources (TSrc := TSrc)) :
  sources_ok s -> next_source_id s' = next_source_id s -> known_blocks1 s' = known_blocks1 s ->
  known_blocks2 s' = known_blocks2 s -> src_finalized_block_height s' = src_finalized_block_height s ->
  (forall i, is_Some (sources s' !! i) <-> is_Some (sources s !! i)) -> sources_ok s'.
Proof.
  intros [H1 H2 H3 H4 H5 H6] E1 E2 E3 E4 Hi. split; rewrite ?E1, ?E2, ?E3, ?E4; try done.
  intros i Hin%Hi. by apply H4.
Qed.

Lemma sources_data_safe (self : pending) op :
  pending_inv self -> pending_op_ok self op ->
  match op with PSourcesDataMut _ | PIndexMut _ _ => op_safe self op | _ => True end.
Proof.
  intros Hinv Hok. destruct op as [| |f|i f| | | | | | | | | | | | | |]; try done.
  - assert (Hi : forall i, is_Some (sources (user_data_iter_mut (pb_sources self) f) !! i) <-> is_Some (sources (pb_sources self) !! i)).
    { intros i. cbn. by rewrite lookup_fmap, fmap_is_Some. }
    eexists. split; [done|]. apply with_sources_inv; [done| |done|by intros ? ?%Hi].
    by apply (sources_data_ok (pb_sources self)); [apply (pi_sources _ Hinv)|..].
  - destruct Hok as [src Hsrc]. unfold op_safe. cbn [run_pending_op]. unfold pending_index_mut, sources_index_mut.
    rewrite Hsrc. eexists. split; [done|]. set (s' := mkAllForksSources _ _ _ _ _).
    assert (Hi : forall j, is_Some (sources s' !! j) <-> is_Some (sources (pb_sources self) !! j)).
    { intros j. cbn. rewrite lookup_insert. case_decide; [|done]. subst. rewrite Hsrc. by split; eexists. }
    apply with_sources_inv; [done| |done|by intros ? ?%Hi].
    by apply (sources_data_ok (pb_sources self)); [apply (pi_sources _ Hinv)|..].
Qed.

(** ** Blocks *)

Lemma set_finalized_safe (self : pending) n :
  pending_inv self -> pending_op_ok self (PSetFinalized n) -> op_safe self (PSetFinalized n).
Proof.
  intros Hinv (Hn & Hmax & Hle). unfold op_safe. cbn [run_pending_op]. unfold pending_set_finalized_block_height.
  assert (Hrun : exists s, set_finalized_block_height (pb_sources self) n = Some s /\
    src_finalized_block_height s = n /\ sources s = sources (pb_sources self)).
  { unfold set_finalized_block_height. destruct (Z.ltb_spec n (src_finalized_block_height (pb_sources self))); [lia|].
    by eexists. }
  destruct Hrun as (s & Hrun & Hf & Hsrc). rewrite Hrun.
  destruct (set_finalized_refines _ _ _ (pi_sources _ Hinv) Hn Hrun) as [Hs _].
  pose proof (remove_below_inv _ _ n (pi_blocks _ Hinv) Hn Hmax) as Hb.
  destruct (pb_blocks self) as [m] eqn:Em. cbn [blocks] in Hb.
  destruct (remove_below_height {| blocks := m |} (wadd 64 n 1)) as [removed b]. eexists. split; [done|].
  destruct Hinv as [H1 H2 H3 H4 H5 H6]. split; cbn; try done; [by rewrite Hf|].
  intros r rq Hr. rewrite Hsrc. by apply H5.
Qed.

Lemma insert_safe_op (self : pending) n h state (data : TBl) :
  pending_inv self -> pending_op_ok self (PInsert n h state data) -> op_safe self (PInsert n h state data).
Proof.
  intros Hinv (Hn & Hh & Hlt & Hp & Hagree & Hsafe). unfold op_safe. cbn [run_pending_op]. unfold insert_unverified_block.
  destruct (Z.leb_spec n (src_finalized_block_height (pb_sources self))) as [Hle|Hgt]; [by exists self|].
  pose proof (fin_nonneg _ Hinv) as Hfin. destruct (pb_blocks self) as [m] eqn:Em.
  pose proof (insert_blocks_inv (src_finalized_block_height (pb_sources self)) m n h state data) as Hb.
  destruct (disjoint_insert {| blocks := m |} n h _ _) as [old b] eqn:Eins. eexists. split; [done|].
  cbn [snd]. apply with_blocks_inv; [done|]. cbn zeta in Hb. rewrite Eins in Hb. cbn [snd] in Hb. apply Hb; try done; [|].
  - pose proof (pi_blocks _ Hinv) as Hbi. by rewrite Em in Hbi.
  - intros b0 Hb0. destruct (parent_hash b0) as [p|] eqn:Ep; [right|by left]. symmetry. apply Hagree.
    rewrite Em. unfold disjoint_parent_hash. cbn [blocks]. rewrite Hb0. done.
Qed.

(** Writing the data of a block that keeps its state. *)
Lemma data_mut_safe (self : pending) n h f :
  pending_inv self -> is_block self n h -> op_safe self (PDataMut n h f).
Proof.
  intros Hinv [b Hb]. unfold op_safe. cbn [run_pending_op]. unfold unverified_block_user_data_mut, disjoint_user_data_mut.
  rewrite Hb. eexists. split; [done|]. apply with_blocks_inv; [done|]. destruct (pi_blocks _ Hinv) as [Hd He].
  split; cbn [blocks]; [by eapply update_entry_ok|]. intros n' h' b'. rewrite lookup_insert. case_decide as E; [|apply He].
  intros [= <-]. simplify_eq. by destruct (He n' h' b Hb) as [H1 H2 H3].
Qed.

Lemma agrees_parent (self : pending) n h p b :
  blocks (pb_blocks self) !! (n, h) = Some b -> parent_agrees self n h p -> parent_hash b = None \/ parent_hash b = p.
Proof.
  intros Hb Ha. destruct (parent_hash b) as [q|] eqn:Eq; [right|by left]. symmetry. apply Ha.
  unfold disjoint_parent_hash. by rewrite Hb.
Qed.

Lemma set_state_safe (self : pending) n h state :
  pending_inv self -> pending_op_ok self (PSetState n h state) -> op_safe self (PSetState n h state).
Proof.
  intros Hinv ([b Hb] & Hp & Ha). unfold op_safe. cbn [run_pending_op]. unfold set_unverified_block_state.
  pose proof (agrees_parent _ _ _ _ _ Hb Ha) as Hpar. pose proof (pi_blocks _ Hinv) as Hbi. pose proof (fin_nonneg _ Hinv) as Hfin.
  destruct (pb_blocks self) as [m]. cbn [blocks] in *. destruct (state_parent_hash state) as [p|] eqn:Es.
  - destruct (set_parent_state_inv _ m n h state p b Hbi Hfin Hb Hpar Es (Hp p eq_refl)) as (m1 & m' & -> & -> & Hm').
    eexists. split; [done|]. by apply with_blocks_inv.
  - rewrite (set_state_lookup _ _ _ _ _ Hb). eexists. split; [done|]. apply with_blocks_inv; [done|].
    destruct Hbi as [Hd He]. split; cbn [blocks]; [by eapply update_entry_ok|].
    intros n' h' b'. rewrite lookup_insert. case_decide as E; [|apply He]. intros [= <-]. simplify_eq.
    destruct (He n' h' b Hb) as [H1 H2 H3]. split; cbn; [done|done|]. destruct Hpar as [-> | ->]; done.
Qed.

(** The two functions that announce a header; in the first the state may be there already. *)
Lemma set_header_safe (self : pending) n h state p b :
  pending_inv self -> blocks (pb_blocks self) !! (n, h) = Some b -> (parent_hash b = None \/ parent_hash b = Some p) ->
  state_parent_hash state = Some p -> is_hash p ->
  exists self', set_header self n h state p = Some self' /\ pending_inv self'.
Proof.
  intros Hinv Hb Hpar Hs Hp. pose proof (pi_blocks _ Hinv) as Hbi. pose proof (fin_nonneg _ Hinv) as Hfin.
  unfold set_header. destruct (pb_blocks self) as [m]. cbn [blocks] in *.
  destruct (set_header_inv _ m n h state p b Hbi Hfin Hb Hpar Hs Hp) as (m1 & m' & -> & -> & Hm').
  eexists. split; [done|]. by apply with_blocks_inv.
Qed.

Lemma header_known_safe (self : pending) n h p :
  pending_inv self -> is_block self n h -> is_hash p -> parent_agrees self n h (Some p) ->
  op_safe self (PHeaderKnown n h p) /\ op_safe self (PHeaderBodyKnown n h p).
Proof.
  intros Hinv [b Hb] Hp Ha. pose proof (agrees_parent _ _ _ _ _ Hb Ha) as Hpar.
  destruct (bi_entries _ _ (pi_blocks _ Hinv) _ _ _ Hb) as [_ _ Hs].
  unfold op_safe. cbn [run_pending_op].
  unfold set_unverified_block_header_known, set_unverified_block_header_body_known, disjoint_user_data.
  rewrite Hb. cbn [fmap option_fmap option_map]. destruct (ub_state (user_data b)) as [|q|q] eqn:Es; cbn [state_parent_hash] in Hs.
  - split; apply (set_header_safe self n h _ p b); done.
  - assert (q = p) as -> by (destruct Hpar; congruence). rewrite Z.eqb_refl. split; [by exists self|].
    by apply (set_header_safe self n h _ p b).
  - assert (q = p) as -> by (destruct Hpar; congruence). rewrite Z.eqb_refl. split; by exists self.
Qed.

Lemma remove_mark_safe (self : pending) n h :
  pending_inv self -> is_block self n h -> op_safe self (PRemove n h) /\ op_safe self (PMarkBad n h).
Proof.
  intros Hinv Hin. pose proof (pi_blocks _ Hinv) as Hbi. unfold op_safe. cbn [run_pending_op].
  unfold remove_unverified_block, disjoint_remove, mark_unverified_block_as_bad. split.
  - destruct Hin as [b Hb]. rewrite Hb. eexists. split; [done|]. apply with_blocks_inv; [done|]. cbn [blocks].
    eapply blocks_inv_submap; [apply delete_subseteq|done].
  - unfold is_block in Hin. destruct (pb_blocks self) as [m]. cbn [blocks] in *.
    destruct (set_bad_inv _ m n h Hbi Hin) as (m' & -> & Hm'). eexists. split; [done|]. by apply with_blocks_inv.
Qed.

(** ** Every operation *)

Lemma pending_op_safe (self : pending) op : pending_inv self -> pending_op_ok self op -> op_safe self op.
Proof.
  intros Hinv Hok. destruct op as [u n h|i|f|i f|i n h|i n h|i n h|n h|n|n h st u|n h f|n h st|n h p|n h p|n h|n h|r i d u|r].
  - by apply add_source_safe.
  - destruct Hok as [Hi Hs]. destruct (pending_remove_source_spec self i Hinv Hi Hs) as (u & out & self' & E & Hinv' & _).
    exists self'. cbn. by rewrite E.
  - by apply (sources_data_safe self (PSourcesDataMut f)).
  - by apply (sources_data_safe self (PIndexMut i f)).
  - destruct Hok as (? & ? & ?). by apply (known_ops_safe self i n h Hinv).
  - by apply (known_ops_safe self i n h Hinv).
  - destruct Hok as (? & ? & ?). by apply add_known_best_safe.
  - by apply (known_ops_safe self 0 n h Hinv).
  - by apply set_finalized_safe.
  - by apply insert_safe_op.
  - by apply data_mut_safe.
  - by apply set_state_safe.
  - destruct Hok as (? & ? & ?). by apply header_known_safe.
  - destruct Hok as (? & ? & ?). by apply header_known_safe.
  - by apply remove_mark_safe.
  - by apply remove_mark_safe.
  - destruct Hok as (Hi & Hr & Hnone & Hd). destruct (add_request_spec self r i d u Hinv Hnone Hr Hd Hi) as (self' & E & Hinv' & _).
    by exists self'.
  - destruct Hok as [rq Hr]. destruct (pending_finish_spec self r rq Hinv Hr) as (self' & E & Hinv' & _).
    exists self'. cbn. by rewrite E.
Qed.

Lemma pending_new_inv config : is_u64 (cfg_finalized_block_height config) -> pending_inv (PendingBlocks_new config : pending).
Proof.
  intros Hf. split; cbn; [by apply sources_new_ok|..].
  2: { intros n h r. by rewrite !elem_of_empty. }
  2: { intros n h r. by rewrite elem_of_empty. }
  2: { intros r rq. by rewrite lookup_empty. }
  2: { intros i r. rewrite elem_of_empty. setoid_rewrite lookup_empty. naive_solver. }
  split; [split; [split|]|]; try (intros ? ? ?; rewrite lookup_empty; done); try (intros ? ?; rewrite lookup_empty; done).
  intros p x. unfold get_bad. by rewrite lookup_empty.
Qed.

Lemma pending_reachable_inv config (self : pending) :
  is_u64 (cfg_finalized_block_height config) -> rtc pending_step (PendingBlocks_new config) self -> pending_inv self.
Proof.
  intros Hf. apply (rtc_ind_r (fun s => pending_inv s)); [by apply pending_new_inv|].
  intros s s' _ (op & Hok & Hrun) Hs. destruct (pending_op_safe s op Hs Hok) as (s'' & Hrun' & Hs'). congruence.
Qed.

(** ** Queries *)

Lemma filter_panic_total {A} (f : A -> option bool) (g : A -> bool) (l : list A) :
  (forall a, a ∈ l -> f a = Some (g a)) -> filter_panic f l = Some (filter (fun a => g a = true) l).
Proof.
  induction l as [|a l IH]; intros Hf; [done|]. cbn [filter_panic]. rewrite (Hf a) by left.
  rewrite IH by (intros b Hb; apply Hf; by right). rewrite filter_cons. by destruct (g a).
Qed.

(** *** Leaves *)

(** A block that can be verified as soon as its parent is: it is good, its parent is
    not in the collection, and its header, and its body if needed, are known. *)
Definition ready (self : pending) (n : u64) (h p : Hash) : Prop :=
  exists b, blocks (pb_blocks self) !! (n, h) = Some b /\ bad b = false /\ parent_hash b = Some p /\
    blocks (pb_blocks self) !! (n - 1, p) = None /\
    (verify_bodies self = true -> ub_state (user_data b) = HeaderBodyKnown p).

Lemma elem_of_tree_roots (m : DisjointBlocks (UnverifiedBlock (TBl := TBl))) t :
  disjoint_ok (blocks m) -> t ∈ good_tree_roots m <->
  exists b, blocks m !! (tr_block_number t, tr_block_hash t) = Some b /\ bad b = false /\
    parent_hash b = Some (tr_parent_block_hash t) /\
    blocks m !! (tr_block_number t - 1, tr_parent_block_hash t) = None.
Proof.
  intros Hok. unfold good_tree_roots. rewrite list_elem_of_omap. split.
  - intros ([[n h] b] & [Hbad Hb%elem_of_btree_iter]%list_elem_of_filter & E). cbn in Hbad.
    destruct (parent_hash b) as [p|] eqn:Ep; [|done]. destruct (wsub_parent_height _ _ _ _ _ Hok Hb Ep) as [Hw _].
    rewrite Hw in E. case_bool_decide as Hin; [done|]. injection E as <-. cbn. exists b. split_and!; try done.
    by apply eq_None_not_Some.
  - destruct t as [h n p]. cbn. intros (b & Hb & Hbad & Hp & Hnone). exists (n, h, b). split.
    + apply list_elem_of_filter. split; [done|]. by apply elem_of_btree_iter.
    + rewrite Hp. destruct (wsub_parent_height _ _ _ _ _ Hok Hb Hp) as [-> _].
      rewrite bool_decide_false; [done|]. rewrite Hnone. by intros [].
Qed.

Lemma unverified_leaves_spec (self : pending) :
  pending_inv self -> exists l, unverified_leaves self = Some l /\
    forall t, t ∈ l <-> ready self (tr_block_number t) (tr_block_hash t) (tr_parent_block_hash t).
Proof.
  intros Hinv. destruct (pi_blocks _ Hinv) as [[Hok _] He]. unfold unverified_leaves.
  rewrite (filter_panic_total _ (fun t => default false (is_leaf self t))).
  2: { intros t (b & Hb & _)%elem_of_tree_roots; [|done]. unfold is_leaf, disjoint_user_data. by rewrite Hb. }
  eexists. split; [done|]. intros t. rewrite list_elem_of_filter, elem_of_tree_roots by done. unfold ready, is_leaf, disjoint_user_data.
  split.
  - intros [Hleaf (b & Hb & Hbad & Hp & Hnone)]. exists b. split_and!; try done. rewrite Hb in Hleaf. cbn in Hleaf.
    destruct (He _ _ _ Hb) as [_ _ Hs]. rewrite Hp in Hs. destruct (ub_state (user_data b)); cbn in *; try done.
    + by destruct (verify_bodies self).
    + intros _. by injection Hs as ->.
  - intros (b & Hb & Hbad & Hp & Hnone & Hv). split; [|by exists b]. rewrite Hb. cbn.
    destruct (He _ _ _ Hb) as [_ _ Hs]. rewrite Hp in Hs. destruct (ub_state (user_data b)); cbn in *; try done.
    destruct (verify_bodies self); [|done]. by specialize (Hv eq_refl).
Qed.

Lemma unnecessary_total (self : pending) : is_Some (unnecessary_unverified_blocks self).
Proof.
  unfold unnecessary_unverified_blocks.
  rewrite (filter_panic_total _ (fun '(n, h) => get_bad (blocks (pb_blocks self)) (n, h))); [by eexists|].
  intros [n h] Hin. apply list_elem_of_fmap in Hin as ([[n' h'] u] & [= -> ->] & Hin).
  unfold disjoint_iter in Hin. apply list_elem_of_fmap in Hin as ([[n h] b] & [= -> -> ->] & Hb%elem_of_btree_iter).
  unfold is_bad, get_bad. by rewrite Hb.
Qed.

(** *** Missing parts *)

(** A block that has to be downloaded: a block without its header, unless it is bad;
    a block without its body, when bodies are verified; a missing parent of a good
    block, above the finalized height. *)
Definition needs_download (self : pending) (n : u64) (h : Hash) : Prop :=
  match blocks (pb_blocks self) !! (n, h) with
  | Some b =>
      match ub_state (user_data b) with
      | HeightHashKnown => bad b = false
      | HeaderKnown _ => verify_bodies self = true
      | HeaderBodyKnown _ => False
      end
  | None => src_finalized_block_height (pb_sources self) < n /\
      exists h' b, blocks (pb_blocks self) !! (n + 1, h') = Some b /\ parent_hash b = Some h /\ bad b = false
  end.

Lemma elem_of_unknown_parts (self : pending) n h :
  pending_inv self -> (n, h) ∈ unknown_parts self <-> needs_download self n h.
Proof.
  intros Hinv. destruct (pi_blocks _ Hinv) as [[Hok _] He]. unfold unknown_parts, needs_download.
  rewrite elem_of_app, list_elem_of_filter. unfold unknown_blocks.
  rewrite merge_Permutation, elem_of_app, elem_of_unknown_iter1, elem_of_unknown_iter2 by done.
  assert (Hfst : (n, h) ∈ (if verify_bodies self then
     (fun '(height, hash, _) => (height, hash)) <$> filter (fun '(_, _, info) => is_header_known (ub_state info) = true)
         (disjoint_iter (pb_blocks self)) else []) <->
    verify_bodies self = true /\ exists b p, blocks (pb_blocks self) !! (n, h) = Some b /\ ub_state (user_data b) = HeaderKnown p).
  { destruct (verify_bodies self); [|rewrite elem_of_nil; naive_solver]. rewrite list_elem_of_fmap. split.
    - intros ([[n' h'] u] & [= <- <-] & [Hk Hin]%list_elem_of_filter). split; [done|]. unfold disjoint_iter in Hin.
      apply list_elem_of_fmap in Hin as ([[n' h'] b] & [= -> -> ->] & Hb%elem_of_btree_iter). exists b.
      destruct (ub_state (user_data b)) as [|p|]; try done. by exists p.
    - intros (_ & b & p & Hb & Hs). exists (n, h, user_data b). split; [done|]. apply list_elem_of_filter. split; [by rewrite Hs|].
      unfold disjoint_iter. apply list_elem_of_fmap. exists (n, h, b). split; [done|]. by apply elem_of_btree_iter. }
  rewrite Hfst. unfold child_of. cbn [fst snd]. destruct (blocks (pb_blocks self) !! (n, h)) as [b|] eqn:Hb.
  - destruct (He _ _ _ Hb) as [Hn _ Hs]. destruct (ub_state (user_data b)) eqn:Es; cbn in Hs; split.
    + intros [(_ & b' & p & [= <-] & E)|[_ [(b' & [= <-] & ? & _)|[? _]]]]; congruence.
    + intros Hg. right. split; [done|]. left. by exists b.
    + intros [(? & _)|[_ [(b' & [= <-] & _ & E)|[? _]]]]; congruence.
    + intros Hv. left. split; [done|]. by eexists _, _.
    + intros [(_ & b' & p & [= <-] & E)|[_ [(b' & [= <-] & _ & E)|[? _]]]]; congruence.
    + done.
  - split.
    + intros [(_ & b' & p & ? & _)|[Hn [(? & ? & _)|(_ & h' & b & (_ & b' & Hb' & Hp) & Hb2 & Hg)]]]; [done|done|].
      split; [done|]. exists h', b. rewrite Hb' in Hb2. by injection Hb2 as ->.
    + intros (Hn & h' & b & Hb2 & Hp & Hg). right. split; [done|]. right. split; [done|]. exists h', b. by split_and!; eauto.
Qed.

(** *** Requests to start *)

(** The number of requests that a block is part of. *)
Definition num_requests (self : pending) (n : u64) (h : Hash) : Z :=
  Z.of_nat (size (filter (fun x => fst x = (n, h)) (blocks_requests self))).

Definition requested_from (self : pending) (n : u64) (h : Hash) (i : u64) : Prop :=
  exists r rq, (n, h, r) ∈ blocks_requests self /\ requests self !! r = Some rq /\ rq_source_id rq = i.

Lemma len_requests_of_block (self : pending) n h :
  pending_inv self -> len (requests_of_block self n h) = num_requests self n h.
Proof.
  intros Hinv. unfold num_requests, len. f_equal.
  assert (Hnd : NoDup (requests_of_block self n h)) by (apply NoDup_filter, bset_iter_NoDup).
  rewrite <- (size_list_to_set (C := gset (Z * Z * Z)) _ Hnd). f_equal. apply set_eq. intros [[n' h'] r].
  rewrite elem_of_list_to_set, elem_of_requests_of_block, elem_of_filter by done. cbn. naive_solver.
Qed.

(** What [any_from_source] returns. *)
Definition from_source (self : pending) (i : u64) (x : Z * Z * Z) : bool :=
  match requests self !! snd x with Some rq => rq_source_id rq =? i | None => false end.

Lemma any_from_source_total (self : pending) i l :
  (forall x, x ∈ l -> is_Some (requests self !! snd x)) -> any_from_source self i l = Some (existsb (from_source self i) l).
Proof.
  induction l as [|[[n h] r] l IH]; intros Hl; [done|]. cbn [any_from_source existsb]. unfold from_source at 1. cbn [snd].
  destruct (Hl (n, h, r)) as [rq Hr]; [left|]. cbn in Hr. rewrite Hr. destruct (rq_source_id rq =? i); [done|].
  apply IH. intros x Hx. apply Hl. by right.
Qed.

Lemma any_from_source_spec (self : pending) n h i :
  pending_inv self -> exists any, any_from_source self i (requests_of_block self n h) = Some any /\
    (any = true <-> requested_from self n h i).
Proof.
  intros Hinv. rewrite any_from_source_total.
  2: { intros x (r & -> & Hin)%elem_of_requests_of_block; [|done]. by apply (pi_entries _ Hinv) in Hin as (_ & _ & ?). }
  eexists. split; [done|]. rewrite existsb_exists. unfold requested_from, from_source. split.
  - intros (x & Hx & E). apply list_elem_of_In, elem_of_requests_of_block in Hx as (r & -> & Hin); [|done]. cbn in E.
    destruct (requests self !! r) as [rq|] eqn:Er; [|done]. exists r, rq. split_and!; try done. lia.
  - intros (r & rq & Hin & Hr & E). exists (n, h, r). split; [apply list_elem_of_In, elem_of_requests_of_block; eauto|].
    cbn. rewrite Hr. lia.
Qed.

(** The sources to ask, with and without [force_source]. *)
Lemma possible_sources_spec (self : pending) force n h :
  pending_inv self -> src_finalized_block_height (pb_sources self) < n ->
  exists l,
    match force with
    | Some i => let! knows := source_knows_non_finalized_block (pb_sources self) i n h in Some (if knows then [i] else [])
    | None => knows_non_finalized_block (pb_sources self) n h
    end = Some l /\ NoDup l /\
    forall i, i ∈ l <-> (i, n, h) ∈ known_blocks1 (pb_sources self) /\ (force = None \/ force = Some i).
Proof.
  intros Hinv Hn. pose proof (knows_sources _ n h (pi_sources _ Hinv)) as Hk.
  destruct (Z.leb_spec n (src_finalized_block_height (pb_sources self))); [lia|]. destruct Hk as (ids & Hrun & Hnd & Hids).
  destruct force as [i|].
  - unfold source_knows_non_finalized_block. destruct (Z.leb_spec n (src_finalized_block_height (pb_sources self))); [lia|].
    case_bool_decide as Hin; eexists; (split; [done|]); (split; [first [apply NoDup_singleton|apply NoDup_nil_2]|]); intros j.
    + rewrite list_elem_of_singleton. naive_solver.
    + rewrite elem_of_nil. naive_solver.
  - exists ids. split; [done|]. split; [done|]. intros i. rewrite Hids. naive_solver.
Qed.

(** The requests for one block. *)
Definition wanted_from (self : pending) (force : option u64) (n : u64) (h : Hash) (i : u64) : Prop :=
  (i, n, h) ∈ known_blocks1 (pb_sources self) /\ (force = None \/ force = Some i) /\ ~ requested_from self n h i.

Definition request_for (self : pending) (n : u64) (h : Hash) (i : u64) : DesiredRequest :=
  mkDesiredRequest i (mkRequestParams n h (n - src_finalized_block_height (pb_sources self))).

Lemma mapM_total {A B} (f : A -> option B) (g : A -> B) (l : list A) :
  (forall a, a ∈ l -> f a = Some (g a)) -> mapM f l = Some (g <$> l).
Proof.
  induction l as [|a l IH]; intros Hf; [done|]. cbn. rewrite (Hf a) by left. cbn.
  rewrite IH by (intros b Hb; apply Hf; by right). done.
Qed.

Lemma desired_of_block_spec (self : pending) force n h :
  pending_inv self -> is_u64 n -> src_finalized_block_height (pb_sources self) < n ->
  exists l, desired_of_block self force (n, h) = Some l /\
    forall dr, dr ∈ l <-> exists i, dr = request_for self n h i /\ wanted_from self force n h i.
Proof.
  intros Hinv Hu Hn. pose proof (ok_finalized _ (pi_sources _ Hinv)) as Hf. unfold desired_of_block.
  destruct (possible_sources_spec self force n h Hinv Hn) as (srcs & Hrun & _ & Hsrcs). rewrite Hrun.
  set (g := fun i => negb (default false (any_from_source self i (requests_of_block self n h)))).
  rewrite (filter_panic_total _ g).
  2: { intros i _. unfold g. destruct (any_from_source_spec self n h i Hinv) as (any & -> & _). done. }
  rewrite (mapM_total _ (request_for self n h)).
  2: { intros i _. unfold request_for. assert (Hw : wsub 64 n (src_finalized_block_height (pb_sources self)) = n - src_finalized_block_height (pb_sources self)).
       { apply wrap_small. unfold is_uint in *. lia. }
       rewrite Hw. destruct (Z.eqb_spec (n - src_finalized_block_height (pb_sources self)) 0); [lia|done]. }
  eexists. split; [done|]. intros dr. rewrite list_elem_of_fmap. unfold wanted_from. split.
  - intros (i & -> & [Hg Hi]%list_elem_of_filter). exists i. split; [done|]. apply Hsrcs in Hi as [Hi Hfo]. split_and!; try done.
    intros Hreq. destruct (any_from_source_spec self n h i Hinv) as (any & E & Hany). unfold g in Hg. rewrite E in Hg. cbn in Hg.
    apply Hany in Hreq as ->. done.
  - intros (i & -> & Hi & Hfo & Hreq). exists i. split; [done|]. apply list_elem_of_filter. split; [|by apply Hsrcs].
    destruct (any_from_source_spec self n h i Hinv) as (any & E & Hany). unfold g. rewrite E. cbn. destruct any; [|done].
    exfalso. by apply Hreq, Hany.
Qed.

Lemma mapM_concat {A B} (f : A -> option (list B)) (R : A -> B -> Prop) (l : list A) :
  (forall a, a ∈ l -> exists k, f a = Some k /\ forall b, b ∈ k <-> R a b) ->
  exists ks, mapM f l = Some ks /\ forall b, b ∈ concat ks <-> exists a, a ∈ l /\ R a b.
Proof.
  induction l as [|a l IH]; intros Hf.
  - exists []. split; [done|]. intros b. cbn. rewrite elem_of_nil. split; [done|]. by intros (a & []%elem_of_nil & _).
  - destruct (Hf a) as (k & Hk & HR); [left|]. destruct IH as (ks & Hks & Hin); [intros b Hb; apply Hf; by right|].
    exists (k :: ks). cbn. rewrite Hk. cbn. rewrite Hks. split; [done|]. intros b. rewrite elem_of_app, HR, Hin.
    setoid_rewrite elem_of_cons. naive_solver.
Qed.

Lemma needs_download_typed (self : pending) n h :
  pending_inv self -> needs_download self n h -> is_u64 n /\ src_finalized_block_height (pb_sources self) < n.
Proof.
  intros Hinv. destruct (pi_blocks _ Hinv) as [[Hok _] He]. unfold needs_download.
  destruct (blocks (pb_blocks self) !! (n, h)) as [b|] eqn:Hb.
  - intros _. split; [by eapply dis_types|by eapply He].
  - intros (Hn & h' & b & Hb' & Hp & _). split; [|done].
    destruct (wsub_parent_height _ _ _ _ _ Hok Hb' Hp) as [_ Hu]. by replace (n + 1 - 1) with n in Hu by lia.
Qed.

Lemma desired_requests_inner_spec (self : pending) force :
  pending_inv self -> exists l, desired_requests_inner self force = Some l /\
    forall dr, dr ∈ l <-> exists n h i, dr = request_for self n h i /\ needs_download self n h /\
      num_requests self n h < max_requests_per_block self /\ wanted_from self force n h i.
Proof.
  intros Hinv. unfold desired_requests_inner.
  destruct (mapM_concat (desired_of_block self force)
    (fun '(n, h) dr => exists i, dr = request_for self n h i /\ wanted_from self force n h i)
    (filter (fun '(height, hash) => len (requests_of_block self height hash) < max_requests_per_block self) (unknown_parts self)))
    as (ks & Hks & Hin).
  { intros [n h] [_ Hin]%list_elem_of_filter. apply elem_of_unknown_parts in Hin; [|done].
    destruct (needs_download_typed _ _ _ Hinv Hin). by apply desired_of_block_spec. }
  rewrite Hks. eexists. split; [done|]. intros dr. rewrite Hin. split.
  - intros ([n h] & [Hlen Hun]%list_elem_of_filter & i & -> & Hw). exists n, h, i. rewrite len_requests_of_block in Hlen by done.
    split_and!; try done. by apply elem_of_unknown_parts.
  - intros (n & h & i & -> & Hun & Hlen & Hw). exists (n, h). split; [|eauto]. apply list_elem_of_filter.
    rewrite len_requests_of_block by done. split; [done|]. by apply elem_of_unknown_parts.
Qed.

(** ** Theorems *)

(** C15: after any sequence of operations called within their conditions, the indices of
    the requests agree with each other, with the requests and with the sources, every
    block is above the finalized height, its state agrees with its parent, and the
    descendants of bad blocks are bad; the next operation within its conditions does not
    panic, and neither do the queries. The conditions are those of [pending_op_ok], of
    which some are not in the documentation: without them the collection can panic or lose
    blocks ([remove_source_leaves_entries], [insert_again_is_stuck]).
    [source_desired_requests] is documented to panic for an unknown source; it does not.
    *)
Theorem pending_safe (config : PendingConfig) (self : pending) :
  is_u64 (cfg_finalized_block_height config) -> rtc pending_step (PendingBlocks_new config) self ->
  pending_inv self /\ (forall op, pending_op_ok self op -> is_Some (run_pending_op self op)) /\
  is_Some (unverified_leaves self) /\ is_Some (unnecessary_unverified_blocks self) /\
  is_Some (desired_requests self) /\ forall i, is_Some (source_desired_requests self i).
Proof.
  intros Hf Hrun. pose proof (pending_reachable_inv _ _ Hf Hrun) as Hinv. split_and!; [done|..].
  - intros op Hok. destruct (pending_op_safe _ _ Hinv Hok) as (self' & -> & _). by eexists.
  - destruct (unverified_leaves_spec _ Hinv) as (l & -> & _). by eexists.
  - apply unnecessary_total.
  - unfold desired_requests. destruct (desired_requests_inner_spec _ None Hinv) as (l & -> & _). by eexists.
  - intros i. unfold source_desired_requests. destruct (desired_requests_inner_spec _ (Some i) Hinv) as (l & -> & _). by eexists.
Qed.

(** C16: [desired_requests] yields a request exactly for each block whose header or body
    has to be downloaded and that is part of fewer requests than the maximum, and each
    source that knows the block and has no request for it in progress; the request goes
    down to the finalized block, a positive number of blocks. The variant for one source
    yields the requests of that source. The states are those that [pending_op_ok] allows
    to reach: after the removal of a source with a request for several blocks
    [desired_requests] can panic ([remove_source_leaves_entries]). *)
Theorem pending_desired_spec (config : PendingConfig) (self : pending) :
  is_u64 (cfg_finalized_block_height config) -> rtc pending_step (PendingBlocks_new config) self ->
  let wanted n h i dr := dr = request_for self n h i /\ 0 < rq_num_blocks (dr_request_params dr) /\
    needs_download self n h /\ num_requests self n h < max_requests_per_block self /\
    (i, n, h) ∈ known_blocks1 (pb_sources self) /\ ~ requested_from self n h i in
  (exists l, desired_requests self = Some l /\ forall dr, dr ∈ l <-> exists n h i, wanted n h i dr) /\
  (forall i, exists l, source_desired_requests self i = Some l /\
    forall params, params ∈ l <-> exists n h dr, wanted n h i dr /\ params = dr_request_params dr).
Proof.
  intros Hf Hrun wanted. pose proof (pending_reachable_inv _ _ Hf Hrun) as Hinv.
  assert (Hpos : forall n h i, needs_download self n h -> 0 < rq_num_blocks (dr_request_params (request_for self n h i))).
  { intros n h i Hn%needs_download_typed; [cbn; lia|done]. }
  unfold wanted, desired_requests, source_desired_requests, wanted_from. split.
  - destruct (desired_requests_inner_spec self None Hinv) as (l & -> & Hl). exists l. split; [done|]. intros dr. rewrite Hl.
    split; intros (n & h & i & -> & Hw); exists n, h, i; [|by unfold wanted_from; naive_solver].
    destruct Hw as (Hn & Hm & Hk & _ & Hr). split_and!; try done. by apply Hpos.
  - intros i. destruct (desired_requests_inner_spec self (Some i) Hinv) as (l & -> & Hl). eexists. split; [done|].
    intros params. rewrite list_elem_of_fmap. split.
    + intros (dr & -> & (n & h & j & -> & Hn & Hm & Hk & [E|[= <-]] & Hr)%Hl); [done|]. exists n, h, (request_for self n h i).
      split_and!; try done. by apply Hpos.
    + intros (n & h & dr & (-> & _ & Hn & Hm & Hk & Hr) & ->). exists (request_for self n h i). split; [done|]. apply Hl.
      exists n, h, i. split_and!; try done. unfold wanted_from. naive_solver.
Qed.

(** Going down from a good block to one without a parent in the collection. *)
Lemma good_ancestor (self : pending) (k : nat) n h b :
  pending_inv self -> (Z.to_nat n <= k)%nat -> blocks (pb_blocks self) !! (n, h) = Some b -> bad b = false ->
  exists n' h', ancestry (pb_blocks self) (n, h) (n', h') /\
    (needs_download self n' h' \/ exists p, ready self n' h' p).
Proof.
  intros Hinv. destruct (pi_blocks _ Hinv) as [[Hok Hcl] He]. pose proof (fin_nonneg _ Hinv) as Hfin.
  revert n h b. induction k as [|k IH]; intros n h b Hk Hb Hg; destruct (He _ _ _ Hb) as [Hn _ Hs]; [lia|].
  destruct (parent_hash b) as [p|] eqn:Hp.
  2: { exists n, h. split; [constructor|]. left. unfold needs_download. rewrite Hb.
       by destruct (ub_state (user_data b)). }
  destruct (blocks (pb_blocks self) !! (n - 1, p)) as [bp|] eqn:Hbp.
  - assert (Hgp : bad bp = false).
    { destruct (bad bp) eqn:E; [|done]. assert (Hbad : get_bad (blocks (pb_blocks self)) (n, h) = true).
      { apply (Hcl (n - 1, p)); [unfold get_bad; by rewrite Hbp|]. split; [cbn; lia|]. by exists b. }
      unfold get_bad in Hbad. rewrite Hb in Hbad. congruence. }
    destruct (IH (n - 1) p bp) as (n' & h' & Ha & Hr); [lia|done|done|]. exists n', h'. split; [|done].
    apply ancestry_step. right. exists p. split; [|done]. unfold disjoint_parent_hash. cbn [fst snd]. by rewrite Hb.
  - exists n, h. split; [constructor|]. unfold needs_download, ready. rewrite Hb.
    destruct (verify_bodies self) eqn:Ev; [|right; exists p, b; split_and!; done].
    destruct (ub_state (user_data b)) as [|q|q] eqn:Es; cbn in Hs; [done|by left|right].
    exists p, b. injection Hs as <-. split_and!; done.
Qed.

(** C17: no good block is forgotten: for each good block of the collection, the block or
    one of its ancestors either is one of the blocks that [desired_requests] asks for, or
    is one of the leaves that [unverified_leaves] offers for verification. The states are
    those that [pending_op_ok] allows to reach: a block that is inserted again with less
    than is known of it can be forgotten ([insert_again_is_stuck]). *)
Theorem pending_progress (config : PendingConfig) (self : pending) (n : u64) (h : Hash) :
  is_u64 (cfg_finalized_block_height config) -> rtc pending_step (PendingBlocks_new config) self ->
  is_bad (pb_blocks self) n h = Some false ->
  exists n' h', ancestry (pb_blocks self) (n, h) (n', h') /\
    ((n', h') ∈ unknown_parts self \/
     exists l p, unverified_leaves self = Some l /\
       {| tr_block_hash := h'; tr_block_number := n'; tr_parent_block_hash := p |} ∈ l).
Proof.
  intros Hf Hrun Hbad. pose proof (pending_reachable_inv _ _ Hf Hrun) as Hinv. unfold is_bad in Hbad.
  destruct (blocks (pb_blocks self) !! (n, h)) as [b|] eqn:Hb; [|done]. injection Hbad as Hbad.
  destruct (good_ancestor self (Z.to_nat n) n h b Hinv (Nat.le_refl _) Hb Hbad) as (n' & h' & Ha & Hr).
  exists n', h'. split; [done|]. destruct Hr as [Hr|[p Hr]]; [left; by apply elem_of_unknown_parts|]. right.
  destruct (unverified_leaves_spec _ Hinv) as (l & El & Hl). exists l, p. split; [done|]. by apply Hl.
Qed.

End pending.

(** ** Concrete runs *)

Section concrete.
#[local] Existing Instance platform64.

Abbreviation unit_op := (pending_op (TBl := unit) (TRq := unit) (TSrc := unit)) (only parsing).
Abbreviation unit_pending := (PendingBlocks (TBl := unit) (TRq := unit) (TSrc := unit)) (only parsing).

Definition pb_config : PendingConfig := mkPendingConfig 9 true 2.
Definition pb_empty : unit_pending := PendingBlocks_new pb_config.

Definition run_pending_ops (ops : list unit_op) : option unit_pending :=
  foldl (fun acc op => let! self := acc in run_pending_op self op) (Some pb_empty) ops.
Definition pb_after (ops : list unit_op) : unit_pending :=
  default pb_empty (run_pending_ops ops).

(** A source announces a block, of which only the height and the hash are known. *)
Definition ops_announce : list unit_op := [PAddSource tt 11 110; PInsert 11 110 HeightHashKnown tt].

Lemma pb_announce_reachable : rtc pending_step pb_empty (pb_after ops_announce).
Proof.
  apply rtc_l with (pb_after [PAddSource tt 11 110]).
  - exists (PAddSource tt 11 110). split; [|by vm_compute]. unfold pending_op_ok, is_uint. cbn. unfold u64_max. lia.
  - apply rtc_once. exists (PInsert 11 110 HeightHashKnown tt). split; [|by vm_compute]. unfold pending_op_ok.
    split; [unfold is_uint; lia|]. split; [unfold is_uint; lia|]. split; [unfold u64_max; lia|]. split; [done|].
    split; [|left; by vm_compute]. intros p Hp. by vm_compute in Hp.
Qed.

Lemma pending_safe_witness :
  is_u64 (cfg_finalized_block_height pb_config) /\ rtc pending_step pb_empty (pb_after ops_announce) /\
  is_Some (run_pending_op (pb_after ops_announce) (PAddRequest 0 0 (mkRequestParams 11 110 2) tt)).
Proof.
  assert (Hf : is_u64 (cfg_finalized_block_height pb_config)) by (unfold is_uint; cbn; lia).
  split; [exact Hf|]. split; [exact pb_announce_reachable|].
  apply (proj1 (proj2 (pending_safe pb_config (pb_after ops_announce) Hf pb_announce_reachable))).
  split; [by eexists|]. split; [unfold is_uint, usize_bits; cbn; lia|]. split; [by vm_compute|]. by split; unfold is_uint; cbn; lia.
Defined.

Lemma pending_desired_spec_witness :
  is_u64 (cfg_finalized_block_height pb_config) /\ rtc pending_step pb_empty (pb_after ops_announce) /\
  desired_requests (pb_after ops_announce) = Some [mkDesiredRequest 0 (mkRequestParams 11 110 2)] /\
  exists l, source_desired_requests (pb_after ops_announce) 0 = Some l /\
    (mkRequestParams 11 110 2 ∈ l <-> exists n h dr,
      (dr = request_for (pb_after ops_announce) n h 0 /\ 0 < rq_num_blocks (dr_request_params dr) /\
       needs_download (pb_after ops_announce) n h /\
       num_requests (pb_after ops_announce) n h < max_requests_per_block (pb_after ops_announce) /\
       (0, n, h) ∈ known_blocks1 (pb_sources (pb_after ops_announce)) /\ ~ requested_from (pb_after ops_announce) n h 0) /\
      mkRequestParams 11 110 2 = dr_request_params dr).
Proof.
  assert (Hf : is_u64 (cfg_finalized_block_height pb_config)) by (unfold is_uint; cbn; lia).
  split; [exact Hf|]. split; [exact pb_announce_reachable|]. split; [by vm_compute|].
  destruct (proj2 (pending_desired_spec pb_config (pb_after ops_announce) Hf pb_announce_reachable) 0) as (l & E & Hl).
  exists l. split; [exact E|]. apply Hl.
Defined.

Lemma pending_progress_witness :
  is_u64 (cfg_finalized_block_height pb_config) /\ rtc pending_step pb_empty (pb_after ops_announce) /\
  is_bad (pb_blocks (pb_after ops_announce)) 11 110 = Some false /\
  exists n' h', ancestry (pb_blocks (pb_after ops_announce)) (11, 110) (n', h') /\
    ((n', h') ∈ unknown_parts (pb_after ops_announce) \/
     exists l p, unverified_leaves (pb_after ops_announce) = Some l /\
       {| tr_block_hash := h'; tr_block_number := n'; tr_parent_block_hash := p |} ∈ l).
Proof.
  assert (Hf : is_u64 (cfg_finalized_block_height pb_config)) by (unfold is_uint; cbn; lia).
  assert (Hb : is_bad (pb_blocks (pb_after ops_announce)) 11 110 = Some false) by (by vm_compute).
  split; [exact Hf|]. split; [exact pb_announce_reachable|]. split; [exact Hb|].
  exact (pending_progress pb_config (pb_after ops_announce) 11 110 Hf pb_announce_reachable Hb).
Defined.

(** *** Calls after which the collection is lost *)

(** Two sources know a block and its missing parent; the block is asked from the first
    one, which is then removed. The entry of the parent stays in [blocks_requests]
    with the identifier of a request that does not exist any more. *)
Definition ops_removed_source : list unit_op :=
  [PAddSource tt 11 110; PAddSource tt 11 110; PAddKnown 1 10 100; PInsert 11 110 (HeaderKnown 100) tt;
   PAddRequest 0 0 (mkRequestParams 11 110 2) tt; PRemoveSource 0].

Lemma remove_source_leaves_entries :
  elements (blocks_requests (pb_after ops_removed_source)) = [(10, 100, 0)] /\
  requests (pb_after ops_removed_source) !! 0 = None /\
  is_Some (run_pending_ops ops_removed_source) /\ desired_requests (pb_after ops_removed_source) = None.
Proof. split_and!; vm_compute; try done. by eexists. Qed.

(** The entry counts as a request of the parent, until a later request that gets the
    same identifier is finished. *)
Lemma remove_source_entry_counts :
  num_requests (pb_after ops_removed_source) 10 100 = 1 /\
  num_requests (pb_after (ops_removed_source ++ [PAddRequest 0 1 (mkRequestParams 11 110 2) tt; PFinishRequest 0])) 10 100 = 0.
Proof. by vm_compute. Qed.

(** A block with a header is inserted again with its height and hash only: its state
    forgets the parent and the collection of blocks does not. The block is then
    neither downloaded nor offered for verification. *)
Definition ops_stuck : list unit_op :=
  [PAddSource tt 10 100; PInsert 10 100 (HeaderKnown 90) tt; PInsert 10 100 HeightHashKnown tt].

Lemma insert_again_is_stuck :
  is_bad (pb_blocks (pb_after ops_stuck)) 10 100 = Some false /\
  unverified_leaves (pb_after ops_stuck) = Some [] /\ desired_requests (pb_after ops_stuck) = Some [] /\
  desired_requests (pb_after [PAddSource tt 10 100; PInsert 10 100 (HeaderKnown 90) tt]) =
    Some [mkDesiredRequest 0 (mkRequestParams 10 100 1)].
Proof. by vm_compute. Qed.

(** Finalizing the largest height removes no block: the height plus one is zero. *)
Lemma set_finalized_max_keeps :
  num_unverified_blocks (pb_after (ops_announce ++ [PSetFinalized u64_max])) = 1.
Proof. by vm_compute. Qed.

End concrete.
