(* ===== verification/TrieStructure.v ===== *)
(** * The structure of a trie ([src/src/trie/trie_structure.rs])

    A radix-16 trie without its values: nodes in a slab, linked by the indices of
    their parents and of their children, with the part of the key that each node adds
    to its parent. This file has the operations. TrieStructureInv.v has the invariant
    and the searches, TrieStructureOps.v the insertions and the removals.

    An access to a node ([NodeAccess] and its two kinds) holds the index of the node;
    the trie that it borrows is an argument. [None] is a panic, or the end of the
    fuel. The capacities and [remove_prefix], which is [todo!()], are left out. *)

From S2P Require Import Prelude Nibble.

Open Scope Z_scope.

Section structure.
Context `{Platform} {TUd : Type}.

(** ** Data *)

Record Node := mkNode {
  nd_parent : option (Z * Nibble);
  nd_partial_key : list Nibble;
  nd_children : list (option Z);
  nd_has_storage_value : bool;
  nd_user_data : TUd
}.

Record TrieStructure := mkTrieStructure {
  nodes : gmap Z Node;
  root_index : option Z
}.

Inductive ExistingNodeInnerResult :=
  | NodeFound (node_index : Z) (has_storage_value : bool)
  | NodeNotFound (closest_ancestor : option Z).

Inductive NodeAccess :=
  | AccStorage (node_index : Z)
  | AccBranch (node_index : Z).

(** [Vacant] holds the key and the closest ancestor. *)
Inductive TrieEntry :=
  | OccupiedEntry (n : NodeAccess)
  | VacantEntry (key : list Nibble) (closest_ancestor : option Z).

Record PrepareInsertOne := mkPrepareInsertOne {
  one_parent : option (Z * Nibble);
  one_partial_key : list Nibble;
  one_children : list (option Z)
}.

Record PrepareInsertTwo := mkPrepareInsertTwo {
  storage_child_index : Nibble;
  storage_partial_key : list Nibble;
  branch_parent : option (Z * Nibble);
  branch_partial_key : list Nibble;
  branch_children : list (option Z)
}.

Inductive PrepareInsert :=
  | InsertOne (n : PrepareInsertOne)
  | InsertTwo (n : PrepareInsertTwo).

Inductive Remove :=
  | StorageToBranch (node_index : Z)
  | SingleRemoveChild (child : NodeAccess) (user_data : TUd)
  | SingleRemoveNoChild (parent : NodeAccess) (user_data : TUd)
  | TrieNowEmpty (user_data : TUd)
  | BranchAlsoRemoved (sibling : NodeAccess) (storage_user_data branch_user_data : TUd).

(** [[None; 16]]. *)
Definition no_children : list (option Z) := replicate 16 None.

(** [children[usize::from(u8::from(index))]], read and written. *)
Definition child_slot (node : Node) (index : Nibble) : option (option Z) := nd_children node !! Z.to_nat index.
Definition write_child (children : list (option Z)) (index : Nibble) (child : option Z) : list (option Z) :=
  <[Z.to_nat index := child]> children.

(** [children.iter().find_map(|c| *c)] and [children.iter().filter(|c| c.is_some()).count()]. *)
Definition first_child (children : list (option Z)) : option Z := head (omap id children).
Definition num_children (children : list (option Z)) : nat := length (omap id children).

Definition with_parent (node : Node) (parent : option (Z * Nibble)) (partial_key : list Nibble) : Node :=
  mkNode parent partial_key (nd_children node) (nd_has_storage_value node) (nd_user_data node).
Definition with_children (node : Node) (children : list (option Z)) : Node :=
  mkNode (nd_parent node) (nd_partial_key node) children (nd_has_storage_value node) (nd_user_data node).
Definition with_storage_value (node : Node) (has_storage_value : bool) : Node :=
  mkNode (nd_parent node) (nd_partial_key node) (nd_children node) has_storage_value (nd_user_data node).
Definition with_user_data (node : Node) (user_data : TUd) : Node :=
  mkNode (nd_parent node) (nd_partial_key node) (nd_children node) (nd_has_storage_value node) user_data.

Definition set_node (self : TrieStructure) (i : Z) (node : Node) : TrieStructure :=
  mkTrieStructure (<[i := node]> (nodes self)) (root_index self).

(** ** Access *)

Definition TrieStructure_new : TrieStructure := mkTrieStructure ∅ None.

Definition trie_is_empty (self : TrieStructure) : bool := bool_decide (size (nodes self) = 0%nat).

Definition trie_len (self : TrieStructure) : usize := Z.of_nat (size (nodes self)).

Definition node_by_index_inner (self : TrieStructure) (node_index : Z) : option NodeAccess :=
  let! node := nodes self !! node_index in
  Some (if nd_has_storage_value node then AccStorage node_index else AccBranch node_index).

Definition node_by_index (self : TrieStructure) (node_index : Z) : option NodeAccess :=
  node_by_index_inner self node_index.

Definition root_node (self : TrieStructure) : option (option NodeAccess) :=
  match root_index self with
  | None => Some None
  | Some root_index => let! n := node_by_index_inner self root_index in Some (Some n)
  end.

(** The loop of [existing_node_inner] over the partial key of a node; [None] when a
    nibble differs. *)
Fixpoint strip_partial_key (partial_key key : list Nibble) : option (list Nibble) :=
  match partial_key with
  | [] => Some key
  | nibble :: partial_key =>
      match key with
      | n :: key => if n =? nibble then strip_partial_key partial_key key else None
      | [] => None
      end
  end.

Fixpoint existing_node_loop (fuel : nat) (self : TrieStructure) (current_index : Z) (key : list Nibble)
    (closest_ancestor : option Z) : option ExistingNodeInnerResult :=
  match fuel with
  | O => None
  | S fuel =>
      let! current := nodes self !! current_index in
      match strip_partial_key (nd_partial_key current) key with
      | None => Some (NodeNotFound closest_ancestor)
      | Some [] => Some (NodeFound current_index (nd_has_storage_value current))
      | Some (child_index :: key) =>
          let! child := child_slot current child_index in
          match child with
          | Some next_index => existing_node_loop fuel self next_index key (Some current_index)
          | None => Some (NodeNotFound (Some current_index))
          end
      end
  end.

(** Each turn but the last one takes a nibble of the key. *)
Definition existing_node_inner (self : TrieStructure) (key : list Nibble) : option ExistingNodeInnerResult :=
  match root_index self with
  | None => Some (NodeNotFound None)
  | Some root => existing_node_loop (S (length key)) self root key None
  end.

Definition trie_node (self : TrieStructure) (key : list Nibble) : option TrieEntry :=
  let! r := existing_node_inner self key in
  Some match r with
       | NodeFound node_index true => OccupiedEntry (AccStorage node_index)
       | NodeFound node_index false => OccupiedEntry (AccBranch node_index)
       | NodeNotFound closest_ancestor => VacantEntry key closest_ancestor
       end.

Definition existing_node (self : TrieStructure) (key : list Nibble) : option (option NodeAccess) :=
  let! r := existing_node_inner self key in
  Some match r with
       | NodeFound node_index has_storage_value =>
           Some (if has_storage_value then AccStorage node_index else AccBranch node_index)
       | NodeNotFound _ => None
       end.

Definition into_vacant (self : TrieEntry) : option (list Nibble * option Z) :=
  match self with VacantEntry key closest_ancestor => Some (key, closest_ancestor) | OccupiedEntry _ => None end.

Definition into_occupied (self : TrieEntry) : option NodeAccess :=
  match self with OccupiedEntry e => Some e | VacantEntry _ _ => None end.

(** ** Paths *)

(** [iter::successors(Some(target), ..).skip(1)]. *)
Fixpoint reverse_path_loop (fuel : nat) (self : TrieStructure) (current : Z) : option (list Z) :=
  match fuel with
  | O => None
  | S fuel =>
      let! node := nodes self !! current in
      match nd_parent node with
      | None => Some []
      | Some (parent, _) => let! path := reverse_path_loop fuel self parent in Some (parent :: path)
      end
  end.

Definition reverse_node_path (self : TrieStructure) (target : Z) : option (list Z) :=
  reverse_path_loop (S (size (nodes self))) self target.

(** [take_while(|n| *n != current)]. *)
Fixpoint take_until (current : Z) (l : list Z) : list Z :=
  match l with
  | [] => []
  | n :: l => if n =? current then [] else n :: take_until current l
  end.

Fixpoint node_path_loop (fuel : nat) (reverse_path : list Z) (current : Z) : option (list Z) :=
  match fuel with
  | O => None
  | S fuel =>
      match last (take_until current reverse_path) with
      | None => Some []
      | Some n => let! path := node_path_loop fuel reverse_path n in Some (n :: path)
      end
  end.

(** The first element, an invalid key, is skipped. *)
Definition node_path (self : TrieStructure) (target : Z) : option (list Z) :=
  let! reverse_path := reverse_node_path self target in
  node_path_loop (S (length reverse_path)) reverse_path usize_max.

(** The closure of [node_full_key]. *)
Definition key_part (self : TrieStructure) (n : Z) : option (list Nibble) :=
  let! node := nodes self !! n in
  Some (match nd_parent node with Some (_, child_index) => [child_index] | None => [] end ++ nd_partial_key node).

Definition node_full_key (self : TrieStructure) (target : Z) : option (list Nibble) :=
  let! path := node_path self target in
  let! parts := mapM (key_part self) (path ++ [target]) in
  Some (concat parts).

Definition node_full_key_by_index (self : TrieStructure) (node_index : Z) : option (option (list Nibble)) :=
  if bool_decide (is_Some (nodes self !! node_index)) then
    let! key := node_full_key self node_index in Some (Some key)
  else Some None.

(** ** Enumeration *)

Definition next_sibling (self : TrieStructure) (node_index : Z) : option (option Z) :=
  let! node := nodes self !! node_index in
  match nd_parent node with
  | None => Some None
  | Some (parent_index, child_index) =>
      let! parent := nodes self !! parent_index in
      Some (first_child (drop (Z.to_nat (child_index + 1)) (nd_children parent)))
  end.

Fixpoint descendants_loop (fuel : nat) (self : TrieStructure) (current : Z) : option (list Z) :=
  match fuel with
  | O => None
  | S fuel =>
      let! node := nodes self !! current in
      let! next :=
        match first_child (nd_children node) with
        | Some first_child => Some (Some first_child)
        | None => next_sibling self current
        end in
      match next with
      | None => Some []
      | Some next => let! l := descendants_loop fuel self next in Some (next :: l)
      end
  end.

Definition trie_descendants (self : TrieStructure) (node_index : Z) : option (list Z) :=
  descendants_loop (S (size (nodes self))) self node_index.

Definition all_nodes_ordered (self : TrieStructure) : option (list Z) :=
  match root_index self with
  | Some root_index => let! l := trie_descendants self root_index in Some (root_index :: l)
  | None => Some []
  end.

(** ** Accesses

    The methods of the accesses to the two kinds of nodes have the same bodies: they
    are the definitions on an index. *)

Definition access_node_index (self : NodeAccess) : Z :=
  match self with AccStorage n => n | AccBranch n => n end.

Definition into_storage (self : NodeAccess) : option Z :=
  match self with AccStorage n => Some n | AccBranch _ => None end.

Definition has_storage_value (self : NodeAccess) : bool :=
  match self with AccStorage _ => true | AccBranch _ => false end.

(** [node_by_index_inner(index?).unwrap()]. *)
Definition access_of (self : TrieStructure) (index : option Z) : option (option NodeAccess) :=
  match index with
  | None => Some None
  | Some index => let! n := node_by_index_inner self index in Some (Some n)
  end.

Definition index_parent (self : TrieStructure) (node_index : Z) : option (option NodeAccess) :=
  let! node := nodes self !! node_index in access_of self (fst <$> nd_parent node).

(** [Err(self)] is [None] in the three functions below. *)
Definition index_first_child (self : TrieStructure) (node_index : Z) : option (option NodeAccess) :=
  let! node := nodes self !! node_index in access_of self (first_child (nd_children node)).

Definition index_next_sibling (self : TrieStructure) (node_index : Z) : option (option NodeAccess) :=
  let! sibling := next_sibling self node_index in access_of self sibling.

Definition index_child (self : TrieStructure) (node_index : Z) (index : Nibble) : option (option NodeAccess) :=
  let! node := nodes self !! node_index in
  let! child := child_slot node index in access_of self child.

Definition index_child_user_data (self : TrieStructure) (node_index : Z) (index : Nibble) : option (option TUd) :=
  let! node := nodes self !! node_index in
  let! child := child_slot node index in
  match child with
  | None => Some None
  | Some child_idx => let! child := nodes self !! child_idx in Some (Some (nd_user_data child))
  end.

Definition index_is_root_node (self : TrieStructure) (node_index : Z) : bool :=
  bool_decide (root_index self = Some node_index).

Definition index_partial_key (self : TrieStructure) (node_index : Z) : option (list Nibble) :=
  let! node := nodes self !! node_index in Some (nd_partial_key node).

(** [user_data], read, and written through the reference. *)
Definition index_user_data (self : TrieStructure) (node_index : Z) : option TUd :=
  let! node := nodes self !! node_index in Some (nd_user_data node).
Definition index_set_user_data (self : TrieStructure) (node_index : Z) (user_data : TUd) : option (TrieStructure) :=
  let! node := nodes self !! node_index in Some (set_node self node_index (with_user_data node user_data)).

(** [BranchNodeAccess::insert_storage_value]. *)
Definition branch_insert_storage_value (self : TrieStructure) (node_index : Z) : option TrieStructure :=
  let! node := nodes self !! node_index in Some (set_node self node_index (with_storage_value node true)).

(** ** Insertion *)

(** [while k1.next() == k2.next() { len += 1 }], which does not end on equal lists. *)
Fixpoint common_len (k1 k2 : list Nibble) : option nat :=
  match k1, k2 with
  | a :: k1, b :: k2 => if a =? b then S <$> common_len k1 k2 else Some 0%nat
  | [], [] => None
  | _, _ => Some 0%nat
  end.

(** The slot of the new node: [None] when it becomes the root. *)
Definition new_parent (key : list Nibble) (future_parent : option (Z * nat)) : option (option (Z * Nibble)) :=
  match future_parent with
  | Some (future_parent_index, future_parent_key_len) =>
      let! new_child_index := key !! future_parent_key_len in Some (Some (future_parent_index, new_child_index))
  | None => Some None
  end.

(** The end of [insert_storage_value]: there is a node in the slot already. A slice
    that follows an index in range is in range. *)
Definition prepare_existing (self : TrieStructure) (key : list Nibble) (future_parent : option (Z * nat))
    (existing_node_index : Z) : option PrepareInsert :=
  let! existing_node := nodes self !! existing_node_index in
  let existing_node_partial_key := nd_partial_key existing_node in
  let new_node_partial_key := drop (match future_parent with Some (_, n) => S n | None => 0 end) key in
  if bool_decide (new_node_partial_key `prefix_of` existing_node_partial_key) then
    let! existing_node_new_child_index := existing_node_partial_key !! length new_node_partial_key in
    let! parent := new_parent key future_parent in
    Some (InsertOne (mkPrepareInsertOne parent new_node_partial_key
      (write_child no_children existing_node_new_child_index (Some existing_node_index))))
  else
    let! branch_partial_key_len := common_len new_node_partial_key existing_node_partial_key in
    let! existing_node_new_child_index := existing_node_partial_key !! branch_partial_key_len in
    let! storage_child_index := new_node_partial_key !! branch_partial_key_len in
    let! parent := new_parent key future_parent in
    Some (InsertTwo (mkPrepareInsertTwo storage_child_index (drop (S branch_partial_key_len) new_node_partial_key)
      parent (take branch_partial_key_len new_node_partial_key)
      (write_child no_children existing_node_new_child_index (Some existing_node_index)))).

(** [Vacant::insert_storage_value]. *)
Definition vacant_insert_storage_value (self : TrieStructure) (key : list Nibble) (closest_ancestor : option Z)
    : option PrepareInsert :=
  match closest_ancestor, root_index self with
  | Some _, None => None
  | Some ancestor, Some _ =>
      let! ancestor_key := node_full_key self ancestor in
      let future_parent_key_len := length ancestor_key in
      let! new_child_index := key !! future_parent_key_len in
      let! future_parent := nodes self !! ancestor in
      let! child := child_slot future_parent new_child_index in
      match child with
      | Some i => prepare_existing self key (Some (ancestor, future_parent_key_len)) i
      | None => Some (InsertOne (mkPrepareInsertOne (Some (ancestor, new_child_index))
          (drop (S future_parent_key_len) key) no_children))
      end
  | None, Some root => prepare_existing self key None root
  | None, None => Some (InsertOne (mkPrepareInsertOne None key no_children))
  end.

(** [for n in num..vec.len() { vec[n - num] = vec[n] }] and [truncate]. *)
Definition truncate_first_elems (vec : list Nibble) (num : nat) : option (list Nibble) :=
  let! vec' := foldl (fun acc n => let! v := acc in let! x := v !! n in Some (<[(n - num)%nat := x]> v)) (Some vec)
    (seq num (length vec - num)) in
  Some (take (Z.to_nat (wsub usize_bits (len vec') (Z.of_nat num))) vec').

(** [vec.resize(..)], the loop from the last element, [copy_from_slice] and the nibble. *)
Definition insert_front (vec first : list Nibble) (next : Nibble) : option (list Nibble) :=
  let shift := S (length first) in
  let previous_len := length vec in
  let! vec := foldl (fun acc n => let! v := acc in let! x := v !! n in Some (<[(n + shift)%nat := x]> v))
    (Some (vec ++ replicate shift 0)) (rev (seq 0 previous_len)) in
  Some (<[length first := next]> (first ++ drop (length first) vec)).

(** The loop that makes the children of a new node point to it. *)
Fixpoint update_children (self : TrieStructure) (new_node_index : Z) (num : nat) (child_index : Z)
    (children : list (option Z)) : option TrieStructure :=
  match children with
  | [] => Some self
  | None :: children => update_children self new_node_index num (child_index + 1) children
  | Some c :: children =>
      let! child := nodes self !! c in
      let! partial_key := truncate_first_elems (nd_partial_key child) num in
      update_children (set_node self c (with_parent child (Some (new_node_index, child_index)) partial_key))
        new_node_index num (child_index + 1) children
  end.

(** The slot of a parent, or the root, is updated. *)
Definition update_parent (self : TrieStructure) (parent : option (Z * Nibble)) (child : option Z) : option TrieStructure :=
  match parent with
  | Some (parent_index, child_index) =>
      let! parent := nodes self !! parent_index in
      let! _ := child_slot parent child_index in
      Some (set_node self parent_index (with_children parent (write_child (nd_children parent) child_index child)))
  | None => Some (mkTrieStructure (nodes self) child)
  end.

(** The keys that the slab gives to the new nodes are arguments. *)
Definition insert_one (self : TrieStructure) (prepare : PrepareInsertOne) (new_node_index : Z) (user_data : TUd)
    : option TrieStructure :=
  let self := set_node self new_node_index
    (mkNode (one_parent prepare) (one_partial_key prepare) (one_children prepare) true user_data) in
  let! self := update_children self new_node_index (S (length (one_partial_key prepare))) 0 (one_children prepare) in
  update_parent self (one_parent prepare) (Some new_node_index).

Definition insert_two (self : TrieStructure) (prepare : PrepareInsertTwo) (new_branch_node_index new_storage_node_index : Z)
    (storage_node_user_data branch_node_user_data : TUd) : option TrieStructure :=
  let self := set_node self new_branch_node_index
    (mkNode (branch_parent prepare) (branch_partial_key prepare) (branch_children prepare) false branch_node_user_data) in
  let self := set_node self new_storage_node_index
    (mkNode (Some (new_branch_node_index, storage_child_index prepare)) (storage_partial_key prepare) no_children true
       storage_node_user_data) in
  let! self := update_parent self (Some (new_branch_node_index, storage_child_index prepare)) (Some new_storage_node_index) in
  let! self := update_children self new_branch_node_index (S (length (branch_partial_key prepare))) 0 (branch_children prepare) in
  update_parent self (branch_parent prepare) (Some new_branch_node_index).

(** Key of the branch node that will be inserted. *)
Definition branch_node_key (self : TrieStructure) (prepare : PrepareInsertTwo) : option (list Nibble) :=
  match branch_parent prepare with
  | Some (parent_index, child_index) =>
      let! parent := node_full_key self parent_index in
      Some (parent ++ child_index :: branch_partial_key prepare)
  | None => Some (branch_partial_key prepare)
  end.

(** [PrepareInsert::insert], with the index of the new storage node. *)
Definition prepare_insert (self : TrieStructure) (prepare : PrepareInsert) (new_branch_node_index new_storage_node_index : Z)
    (storage_node_user_data branch_node_user_data : TUd) : option TrieStructure :=
  match prepare with
  | InsertOne n => insert_one self n new_storage_node_index storage_node_user_data
  | InsertTwo n => insert_two self n new_branch_node_index new_storage_node_index storage_node_user_data branch_node_user_data
  end.

(** ** Removal *)

(** A node takes the place of its parent, which has been removed. *)
Definition replace_parent (self : TrieStructure) (node_index : Z) (removed : Node) : option TrieStructure :=
  let! node := nodes self !! node_index in
  let! (_, child_index) := nd_parent node in
  let! partial_key := insert_front (nd_partial_key node) (nd_partial_key removed) child_index in
  Some (set_node self node_index (with_parent node (nd_parent removed) partial_key)).

(** [single_remove] of [remove]: whether the parent of the removed node stays. *)
Definition keeps_parent (self : TrieStructure) (parent : option (Z * Nibble)) : option bool :=
  match parent with
  | Some (parent_index, _) =>
      let! parent := nodes self !! parent_index in
      Some (nd_has_storage_value parent || (2 <=? num_children (nd_children parent))%nat)
  | None => Some true
  end.

(** The end of [remove]: the parent, a branch node, is removed too. *)
Definition remove_branch (self : TrieStructure) (parent_index : Z) (storage_user_data : TUd)
    : option (Remove * TrieStructure) :=
  let! removed_branch := nodes self !! parent_index in
  let self := mkTrieStructure (delete parent_index (nodes self)) (root_index self) in
  let! sibling_node_index := first_child (nd_children removed_branch) in
  let! self := replace_parent self sibling_node_index removed_branch in
  let! self := update_parent self (nd_parent removed_branch) (Some sibling_node_index) in
  let! sibling := node_by_index_inner self sibling_node_index in
  Some (BranchAlsoRemoved sibling storage_user_data (nd_user_data removed_branch), self).

(** [StorageNodeAccess::remove]. *)
Definition trie_remove (self : TrieStructure) (node_index : Z) : option (Remove * TrieStructure) :=
  let! node := nodes self !! node_index in
  if (2 <=? num_children (nd_children node))%nat then
    Some (StorageToBranch node_index, set_node self node_index (with_storage_value node false))
  else
    let removed_node := node in
    let self := mkTrieStructure (delete node_index (nodes self)) (root_index self) in
    let child_node_index := first_child (nd_children removed_node) in
    let! self :=
      match child_node_index with
      | Some child_node_index => replace_parent self child_node_index removed_node
      | None => Some self
      end in
    let! self := update_parent self (nd_parent removed_node) child_node_index in
    let! single_remove := keeps_parent self (nd_parent removed_node) in
    if single_remove then
      match child_node_index, nd_parent removed_node with
      | Some child_node_index, _ =>
          let! child := node_by_index_inner self child_node_index in
          Some (SingleRemoveChild child (nd_user_data removed_node), self)
      | None, Some (parent_index, _) =>
          let! parent := node_by_index_inner self parent_index in
          Some (SingleRemoveNoChild parent (nd_user_data removed_node), self)
      | None, None => Some (TrieNowEmpty (nd_user_data removed_node), self)
      end
    else
      let! (parent_index, _) := nd_parent removed_node in
      remove_branch self parent_index (nd_user_data removed_node).

End structure.

Arguments Node : clear implicits.
Arguments TrieStructure : clear implicits.
Arguments Remove : clear implicits.

(** [structure_equal]: the user data of the two tries may be of different types. *)
Section equal.
Context {TUd T : Type}.

Definition same_parent_nibble (me other : option (Z * Nibble)) : bool :=
  match me, other with
  | Some (_, i), Some (_, j) => i =? j
  | None, None => true
  | _, _ => false
  end.

Fixpoint structure_equal_loop (self : TrieStructure TUd) (other : TrieStructure T) (me_iter other_iter : list Z)
    : option bool :=
  match me_iter, other_iter with
  | me_node_idx :: me_iter, other_node_idx :: other_iter =>
      let! me_node := nodes self !! me_node_idx in
      let! other_node := nodes other !! other_node_idx in
      if negb (Bool.eqb (nd_has_storage_value me_node) (nd_has_storage_value other_node)) then Some false
      else if negb (same_parent_nibble (nd_parent me_node) (nd_parent other_node)) then Some false
      else if negb (bool_decide (nd_partial_key me_node = nd_partial_key other_node)) then Some false
      else structure_equal_loop self other me_iter other_iter
  | [], [] => Some true
  | _, _ => Some false
  end.

Definition structure_equal (self : TrieStructure TUd) (other : TrieStructure T) : option bool :=
  if negb (bool_decide (size (nodes self) = size (nodes other))) then Some false
  else
    let! me_iter := all_nodes_ordered self in
    let! other_iter := all_nodes_ordered other in
    structure_equal_loop self other me_iter other_iter.

End equal.
