(* ===== verification/TrieStructureInv.v ===== *)
(** * The invariant of the structure of a trie, and the searches
    ([src/src/trie/trie_structure.rs])

    The invariant relates the links of the nodes to their full keys: a function [K]
    gives the key of each index, and each node is in the slot of its parent that its
    key says. The keys do not change while a node is in the trie, so that an operation
    only has to give the keys of the new nodes. The search of a key, the path to a
    node and its full key are shown to agree with [K]. *)

From S2P Require Import Prelude Nibble TrieStructure.

Open Scope Z_scope.

Section structure.
Context `{Platform} {TUd : Type}.
Implicit Types (self : TrieStructure TUd) (nd : Node TUd) (K : Z -> list Nibble).

(** ** Links *)

Definition get_child nd (n : Nibble) : option Z :=
  if bool_decide (is_nibble n) then mjoin (nd_children nd !! Z.to_nat n) else None.

(** A slot is the place of a child in its parent, or of the root. *)
Definition slot_child self (s : option (Z * Nibble)) : option Z :=
  match s with
  | None => root_index self
  | Some (p, n) => nodes self !! p ≫= fun nd => get_child nd n
  end.

Definition slot_key K (s : option (Z * Nibble)) : list Nibble :=
  match s with None => [] | Some (p, n) => K p ++ [n] end.

Record node_ok K (i : Z) nd : Prop := {
  no_children_len : length (nd_children nd) = 16%nat;
  no_index : 0 <= i < usize_max;
  no_partial : Forall (is_uint 4) (nd_partial_key nd);
  no_key : K i = slot_key K (nd_parent nd) ++ nd_partial_key nd;
  no_key_len : is_usize (len (K i))
}.

Record links_ok K self : Prop := {
  lk_link : forall s i, slot_child self s = Some i <-> exists nd, nodes self !! i = Some nd /\ nd_parent nd = s;
  lk_node : forall i nd, nodes self !! i = Some nd -> node_ok K i nd
}.

(** A branch node has several children. *)
Definition branches_ok self : Prop :=
  forall i nd, nodes self !! i = Some nd -> nd_has_storage_value nd = false -> (2 <= num_children (nd_children nd))%nat.

Record trie_inv K self : Prop := {
  tv_links : links_ok K self;
  tv_branches : branches_ok self
}.

Section links.
Context {K : Z -> list Nibble} {self : TrieStructure TUd}.
Context (Hok : links_ok K self).

Lemma key_eq i nd : nodes self !! i = Some nd -> K i = slot_key K (nd_parent nd) ++ nd_partial_key nd.
Proof. intros Hi. apply (lk_node _ _ Hok i nd Hi). Qed.

Lemma parent_link i nd p n :
  nodes self !! i = Some nd -> nd_parent nd = Some (p, n) ->
  exists pn, nodes self !! p = Some pn /\ get_child pn n = Some i /\ is_nibble n.
Proof.
  intros Hi Hp. assert (Hs : slot_child self (Some (p, n)) = Some i) by (apply (lk_link _ _ Hok); eauto).
  cbn in Hs. destruct (nodes self !! p) as [pn|]; [|done]. cbn in Hs. exists pn. split_and!; try done.
  unfold get_child in Hs. by case_bool_decide.
Qed.

Lemma child_link p pn n i :
  nodes self !! p = Some pn -> get_child pn n = Some i ->
  exists nd, nodes self !! i = Some nd /\ nd_parent nd = Some (p, n).
Proof. intros Hp Hc. apply (lk_link _ _ Hok). cbn. by rewrite Hp. Qed.

Lemma root_link i : root_index self = Some i -> exists nd, nodes self !! i = Some nd /\ nd_parent nd = None.
Proof. intros Hr. by apply (lk_link _ _ Hok None i). Qed.

Lemma parent_key i nd p n : nodes self !! i = Some nd -> nd_parent nd = Some (p, n) -> K i = K p ++ n :: nd_partial_key nd.
Proof. intros Hi Hp. rewrite (key_eq i nd Hi), Hp. cbn. by rewrite <- app_assoc. Qed.

Lemma child_slot_get nd i n : nodes self !! i = Some nd -> is_nibble n -> child_slot nd n = Some (get_child nd n).
Proof.
  intros Hi Hn. unfold child_slot, get_child. rewrite bool_decide_true by done.
  destruct (lookup_lt_is_Some_2 (nd_children nd) (Z.to_nat n)) as [c Hc].
  { rewrite (no_children_len _ _ _ (lk_node _ _ Hok i nd Hi)). unfold is_uint in Hn. lia. }
  rewrite Hc. by destruct c.
Qed.

(** ** Ancestors *)

(** [anc i a]: [a] is [i] or one of its ancestors. *)
Inductive anc : Z -> Z -> Prop :=
  | anc_self i : anc i i
  | anc_parent i nd p n a : nodes self !! i = Some nd -> nd_parent nd = Some (p, n) -> anc p a -> anc i a.

Lemma anc_node i a : is_Some (nodes self !! i) -> anc i a ->
  is_Some (nodes self !! a) /\ K a `prefix_of` K i /\ (a = i \/ (length (K a) < length (K i))%nat).
Proof.
  intros Hi Ha. induction Ha as [i|i nd p n a Hnd Hp _ IH]; [by split_and!; [|exists []; rewrite app_nil_r|left]|].
  destruct (parent_link _ _ _ _ Hnd Hp) as (pn & Hpn & _). destruct IH as (Han & Hpre & Hlen); [by eexists|].
  pose proof (parent_key _ _ _ _ Hnd Hp) as HK. split_and!; [done|..].
  - rewrite HK. etrans; [done|]. by exists (n :: nd_partial_key nd).
  - right. rewrite HK, length_app. cbn. destruct Hlen as [->|?]; lia.
Qed.

Lemma anc_root i : is_Some (nodes self !! i) -> exists r, root_index self = Some r /\ anc i r.
Proof.
  remember (length (K i)) as k eqn:Ek. revert i Ek. induction k as [k IH] using lt_wf_ind. intros i -> [nd Hnd].
  destruct (nd_parent nd) as [[p n]|] eqn:Hp.
  - destruct (parent_link _ _ _ _ Hnd Hp) as (pn & Hpn & _). destruct (IH (length (K p))) with p as (r & Hr & Ha); [|done|by eexists|].
    { rewrite (parent_key _ _ _ _ Hnd Hp), length_app. cbn. lia. }
    exists r. split; [done|]. by eapply anc_parent.
  - exists i. split; [|constructor]. apply (lk_link _ _ Hok None). eauto.
Qed.

(** The child of an ancestor on the way to a node. *)
Lemma anc_child j p : is_Some (nodes self !! j) -> anc j p ->
  j = p \/ exists c cn n, nodes self !! c = Some cn /\ nd_parent cn = Some (p, n) /\ anc j c.
Proof.
  intros Hj Ha. induction Ha as [i|i nd q n a Hnd Hp Ha IH]; [by left|]. right.
  destruct (parent_link _ _ _ _ Hnd Hp) as (qn & Hqn & _). destruct IH as [->|(c & cn & m & Hc & Hcp & Hac)]; [by eexists|..].
  - exists i, nd, n. split_and!; try done. constructor.
  - exists c, cn, m. split_and!; try done. by eapply anc_parent.
Qed.

(** A node whose key is a prefix of the key of another is one of its ancestors. *)
Lemma prefix_anc i j : is_Some (nodes self !! i) -> is_Some (nodes self !! j) -> K i `prefix_of` K j -> anc j i.
Proof.
  remember (length (K i)) as k eqn:Ek. revert i Ek. induction k as [k IH] using lt_wf_ind. intros i -> [nd Hnd] Hj Hpre.
  destruct (nd_parent nd) as [[p n]|] eqn:Hp.
  - destruct (parent_link _ _ _ _ Hnd Hp) as (pn & Hpn & Hc & _). pose proof (parent_key _ _ _ _ Hnd Hp) as HK.
    assert (Hlt : (length (K p) < length (K i))%nat) by (rewrite HK, length_app; cbn; lia).
    assert (Hap : anc j p).
    { apply (IH (length (K p))); [done|done|by eexists|done|]. etrans; [|done]. rewrite HK. by eexists. }
    destruct (anc_child j p Hj Hap) as [->|(c & cn & m & Hcn & Hcp & Hac)].
    { apply prefix_length in Hpre. lia. }
    destruct (anc_node j c Hj Hac) as (_ & Hcpre & _). rewrite (parent_key _ _ _ _ Hcn Hcp) in Hcpre. rewrite HK in Hpre.
    destruct Hpre as [x Hx], Hcpre as [y Hy]. rewrite Hx, <- !app_assoc in Hy. apply app_inv_head in Hy.
    injection Hy as <- _. destruct (parent_link _ _ _ _ Hcn Hcp) as (pn' & Hpn' & Hc' & _). by simplify_eq.
  - destruct (anc_root j Hj) as (r & Hr & Ha). assert (Hri : slot_child self None = Some i) by (apply (lk_link _ _ Hok); eauto).
    cbn in Hri. by simplify_eq.
Qed.

Lemma key_inj i j : is_Some (nodes self !! i) -> is_Some (nodes self !! j) -> K i = K j -> i = j.
Proof.
  intros Hi Hj E. assert (Ha : anc j i) by (apply prefix_anc; [done|done|rewrite E; by exists []; rewrite app_nil_r]).
  destruct (anc_node j i Hj Ha) as (_ & _ & [->|Hlt]); [done|]. rewrite E in Hlt. lia.
Qed.

(** The child of a node towards a longer key. *)
Lemma child_towards i nd j n rest :
  nodes self !! i = Some nd -> is_Some (nodes self !! j) -> K j = K i ++ n :: rest ->
  exists c, get_child nd n = Some c /\ anc j c.
Proof.
  intros Hi Hj HK. assert (Ha : anc j i) by (apply prefix_anc; [by eexists|done|rewrite HK; by eexists]).
  destruct (anc_child j i Hj Ha) as [->|(c & cn & m & Hcn & Hcp & Hac)].
  { apply (f_equal length) in HK. rewrite length_app in HK. cbn in HK. lia. }
  destruct (parent_link _ _ _ _ Hcn Hcp) as (nd' & Hnd' & Hc & _). simplify_eq.
  destruct (anc_node j c Hj Hac) as (_ & Hpre & _). rewrite (parent_key _ _ _ _ Hcn Hcp), HK in Hpre.
  destruct Hpre as [y Hy]. rewrite <- app_assoc in Hy. apply app_inv_head in Hy. injection Hy as -> _. eauto.
Qed.

(** ** The search *)

(** What the search of a key returns: the node that has it, or the node with the
    longest key that is a prefix of it. *)
Definition search_spec (key : list Nibble) (r : ExistingNodeInnerResult) : Prop :=
  match r with
  | NodeFound i b => exists nd, nodes self !! i = Some nd /\ K i = key /\ b = nd_has_storage_value nd
  | NodeNotFound (Some a) =>
      is_Some (nodes self !! a) /\ (exists n rest, key = K a ++ n :: rest) /\
      forall j, is_Some (nodes self !! j) -> K j `prefix_of` key -> K j `prefix_of` K a
  | NodeNotFound None => forall j, is_Some (nodes self !! j) -> ~ K j `prefix_of` key
  end.

Lemma strip_spec (pk key : list Nibble) :
  match strip_partial_key pk key with Some rest => key = pk ++ rest | None => ~ pk `prefix_of` key end.
Proof.
  revert key. induction pk as [|a pk IH]; intros key; [done|]. cbn. destruct key as [|b key].
  - by intros ?%prefix_nil_not.
  - destruct (Z.eqb_spec b a) as [->|Hne].
    + specialize (IH key). destruct (strip_partial_key pk key); [by subst|]. by intros ?%prefix_cons_inv_2.
    + by intros ?%prefix_cons_inv_1.
Qed.

Lemma prefix_cases (l1 l2 l : list Nibble) :
  l1 `prefix_of` l -> l2 `prefix_of` l -> l1 `prefix_of` l2 \/ exists m rest, l1 = l2 ++ m :: rest.
Proof.
  intros H1 H2. destruct (prefix_weak_total l1 l2 l H1 H2) as [?|[[|m rest] ->]]; [by left|left|right; eauto].
  exists []. by rewrite !app_nil_r.
Qed.

(** Nothing below a slot whose node does not have a prefix of the key. *)
Lemma not_found_slot i nd key :
  nodes self !! i = Some nd -> ~ nd_partial_key nd `prefix_of` key ->
  search_spec (slot_key K (nd_parent nd) ++ key) (NodeNotFound (fst <$> nd_parent nd)).
Proof.
  intros Hi Hno. destruct (nd_parent nd) as [[p n]|] eqn:Hp; cbn.
  - destruct (parent_link _ _ _ _ Hi Hp) as (pn & Hpn & Hc & _). split; [by eexists|]. split; [by rewrite <- app_assoc; eauto|].
    intros j Hj Hpre. destruct (prefix_cases (K j) (K p) _ Hpre) as [?|(m & rest & HK)]; [rewrite <- app_assoc; by eexists|done|].
    exfalso. destruct (child_towards p pn j m rest Hpn Hj HK) as (c & Hcc & Ha).
    rewrite HK, <- app_assoc in Hpre. apply prefix_app_inv in Hpre. pose proof (prefix_cons_inv_1 _ _ _ _ Hpre) as ->.
    rewrite Hc in Hcc. injection Hcc as <-. destruct (anc_node j i Hj Ha) as (_ & Hij & _).
    rewrite (parent_key _ _ _ _ Hi Hp), HK in Hij. apply prefix_app_inv, prefix_cons_inv_2 in Hij.
    apply Hno. etrans; [done|]. by apply prefix_cons_inv_2 in Hpre.
  - intros j Hj Hpre. apply Hno. destruct (anc_root j Hj) as (r & Hr & Ha).
    assert (Hri : slot_child self None = Some i) by (apply (lk_link _ _ Hok); eauto). cbn in Hri. rewrite Hri in Hr. injection Hr as <-.
    destruct (anc_node j i Hj Ha) as (_ & Hij & _). rewrite (key_eq i nd Hi), Hp in Hij. cbn in Hij. by etrans.
Qed.

Lemma not_found_child i nd n rest :
  nodes self !! i = Some nd -> get_child nd n = None -> search_spec (K i ++ n :: rest) (NodeNotFound (Some i)).
Proof.
  intros Hi Hc. cbn. split; [by eexists|]. split; [eauto|]. intros j Hj Hpre.
  destruct (prefix_cases (K j) (K i) _ Hpre) as [?|(m & rest' & HK)]; [by eexists|done|].
  destruct (child_towards i nd j m rest' Hi Hj HK) as (c & Hcc & _).
  rewrite HK in Hpre. apply prefix_app_inv, prefix_cons_inv_1 in Hpre as ->. congruence.
Qed.

Lemma existing_node_loop_spec fuel i nd key :
  nodes self !! i = Some nd -> Forall (is_uint 4) key -> (length key < fuel)%nat ->
  exists r, existing_node_loop fuel self i key (fst <$> nd_parent nd) = Some r /\
    search_spec (slot_key K (nd_parent nd) ++ key) r.
Proof.
  revert i nd key. induction fuel as [|fuel IH]; intros i nd key Hi Hkey Hf; [lia|]. cbn [existing_node_loop]. rewrite Hi.
  pose proof (strip_spec (nd_partial_key nd) key) as Hstrip. pose proof (key_eq i nd Hi) as HK.
  destruct (strip_partial_key (nd_partial_key nd) key) as [[|n rest]|].
  - eexists. split; [done|]. exists nd. subst key. rewrite app_nil_r. done.
  - subst key. rewrite app_assoc, <- HK. apply Forall_app in Hkey as [_ [Hn Hrest]%Forall_cons].
    rewrite (child_slot_get nd i n Hi Hn). destruct (get_child nd n) as [c|] eqn:Hc.
    + destruct (child_link i nd n c Hi Hc) as (cn & Hcn & Hcp). specialize (IH c cn rest Hcn Hrest). rewrite Hcp in IH. cbn in IH.
      rewrite <- app_assoc in IH. cbn in IH. apply IH. rewrite length_app in Hf. cbn in Hf. lia.
    + eexists. split; [done|]. by eapply not_found_child.
  - eexists. split; [done|]. by apply (not_found_slot i).
Qed.

(** The search terminates, does not panic, and finds the node with the key. *)
Lemma existing_node_inner_spec key :
  Forall (is_uint 4) key -> exists r, existing_node_inner self key = Some r /\ search_spec key r.
Proof.
  intros Hkey. unfold existing_node_inner. destruct (root_index self) as [root|] eqn:Hr.
  - destruct (root_link root Hr) as (nd & Hnd & Hp).
    destruct (existing_node_loop_spec (S (length key)) root nd key Hnd Hkey) as (r & Hrun & Hs); [lia|].
    rewrite Hp in Hrun, Hs. eauto.
  - eexists. split; [done|]. intros j Hj. destruct (anc_root j Hj) as (r & Hr' & _). congruence.
Qed.

(** ** Paths *)

(** The nodes whose key is shorter. *)
Definition shorter (i : Z) : gset Z := filter (fun j => (length (K j) < length (K i))%nat) (dom (nodes self)).

Lemma shorter_decr i p : is_Some (nodes self !! p) -> (length (K p) < length (K i))%nat -> (size (shorter p) < size (shorter i))%nat.
Proof.
  intros Hp Hlt. apply subset_size. unfold shorter. split.
  - intros x. rewrite !elem_of_filter. intros [? ?]. split; [lia|done].
  - intros Hsub. specialize (Hsub p). rewrite !elem_of_filter, !elem_of_dom in Hsub. destruct Hsub as [? _]; [done|lia].
Qed.

(** A path to the root: the keys of its nodes decrease, their parts make the key. *)
Lemma reverse_path_loop_spec fuel i :
  is_Some (nodes self !! i) -> (size (shorter i) < fuel)%nat ->
  exists l parts, reverse_path_loop fuel self i = Some l /\ NoDup (i :: l) /\
    Forall (fun j => is_Some (nodes self !! j) /\ (length (K j) < length (K i))%nat) l /\
    mapM (key_part self) (rev l ++ [i]) = Some parts /\ concat parts = K i.
Proof.
  revert i. induction fuel as [|fuel IH]; intros i [nd Hi] Hf; [lia|]. cbn [reverse_path_loop]. rewrite Hi.
  assert (Hpart : key_part self i = Some (match nd_parent nd with Some (_, n) => [n] | None => [] end ++ nd_partial_key nd)).
  { unfold key_part. by rewrite Hi. }
  pose proof (key_eq i nd Hi) as HK. destruct (nd_parent nd) as [[p n]|] eqn:Hp.
  - destruct (parent_link _ _ _ _ Hi Hp) as (pn & Hpn & _).
    assert (Hlt : (length (K p) < length (K i))%nat) by (rewrite HK; cbn; rewrite !length_app; cbn; lia).
    pose proof (shorter_decr i p ltac:(by eexists) Hlt) as Hdec.
    destruct (IH p) as (l & parts & -> & Hnd & Hall & Hparts & Hcat); [by eexists|lia|].
    exists (p :: l), (parts ++ [[n] ++ nd_partial_key nd]). split; [done|].
    assert (Hall' : Forall (fun j => is_Some (nodes self !! j) /\ (length (K j) < length (K i))%nat) (p :: l)).
    { apply Forall_cons. split; [split; [by eexists|done]|]. eapply Forall_impl; [exact Hall|]. intros j [? ?]. split; [done|lia]. }
    split_and!; [|done|..].
    + apply NoDup_cons. split; [|done]. intros Hin. rewrite Forall_forall in Hall'. destruct (Hall' i Hin). lia.
    + cbn [rev]. apply mapM_Some. apply Forall2_app; [by apply mapM_Some|]. by repeat constructor.
    + rewrite concat_app, Hcat. cbn. rewrite app_nil_r, HK. cbn. by rewrite <- app_assoc.
  - exists [], [nd_partial_key nd]. split; [done|]. split_and!; [apply NoDup_singleton|done| |].
    + cbn. by rewrite Hpart.
    + cbn. rewrite app_nil_r, HK. done.
Qed.

Lemma take_until_head x a b : x ∉ a -> (head b = Some x \/ b = []) -> take_until x (a ++ b) = a.
Proof.
  intros Hx Hb. induction a as [|y a IH]; cbn.
  - destruct Hb as [Hb| ->]; [|done]. destruct b as [|z b]; [done|]. injection Hb as ->. cbn. by rewrite Z.eqb_refl.
  - apply not_elem_of_cons in Hx as [Hne Hx]. destruct (Z.eqb_spec y x); [congruence|]. by rewrite IH.
Qed.

(** The path is the reverse of the reversed path. *)
Lemma node_path_loop_spec a b x fuel :
  NoDup (a ++ b) -> x ∉ a -> (head b = Some x \/ b = []) -> (length a < fuel)%nat -> node_path_loop fuel (a ++ b) x = Some (rev a).
Proof.
  revert b x fuel. induction a as [|y a IH] using rev_ind; intros b x fuel Hnd Hx Hb Hf; destruct fuel as [|fuel]; try lia.
  - cbn [node_path_loop]. by rewrite (take_until_head x [] b Hx Hb).
  - cbn [node_path_loop]. rewrite (take_until_head x (a ++ [y]) b Hx Hb), last_snoc.
    rewrite length_app in Hf. cbn in Hf. rewrite <- app_assoc in Hnd |- *. cbn [app] in Hnd |- *.
    rewrite (IH (y :: b) y fuel); [by rewrite rev_app_distr|done| |by left|lia].
    apply NoDup_app in Hnd as (_ & Hdisj & _). intros Hy. apply (Hdisj y Hy). by left.
Qed.

Lemma node_full_key_spec i : is_Some (nodes self !! i) -> node_full_key self i = Some (K i).
Proof.
  intros Hi. unfold node_full_key, node_path, reverse_node_path.
  destruct (reverse_path_loop_spec (S (size (nodes self))) i Hi) as (l & parts & -> & Hnd & Hall & Hparts & Hcat).
  { unfold shorter. rewrite <- size_dom. apply Nat.lt_succ_r, subseteq_size. intros x [_ Hx]%elem_of_filter. done. }
  apply NoDup_cons in Hnd as [_ Hnd]. pose proof (node_path_loop_spec l [] usize_max (S (length l))) as Hpath.
  rewrite app_nil_r in Hpath. rewrite Hpath; [|done| |by right|lia].
  - rewrite Hparts. by rewrite Hcat.
  - intros Hin. rewrite Forall_forall in Hall. destruct (Hall _ Hin) as [[nd Hmax] _].
    pose proof (no_index _ _ _ (lk_node _ _ Hok _ _ Hmax)). lia.
Qed.

End links.
End structure.

Arguments anc {TUd} self _ _.
Arguments search_spec {TUd} K self _ _.
