(* ===== verification/TrieStructureOps.v ===== *)
(** * Insertions and removals in the structure of a trie
    ([src/src/trie/trie_structure.rs])

    The trie is viewed as two functions: what a node says of itself ([view_core]), and
    which node is in a slot ([slot_child]). The operations of the source are four
    changes of the view: adding a leaf, putting a node between a slot and the node in
    it, and their inverses. *)

From stdpp Require Import functions.
From S2P Require Import Prelude Nibble TrieStructure TrieStructureInv.

Open Scope Z_scope.

(** ** Moving the nibbles of a partial key *)

Section vectors.
Context `{Platform}.

Lemma truncate_loop (vec : list Nibble) num k :
  (num + k <= length vec)%nat ->
  foldl (fun acc n => let! v := acc in let! x := v !! n in Some (<[(n - num)%nat := x]> v)) (Some vec) (seq num k)
  = Some (take k (drop num vec) ++ drop k vec).
Proof.
  induction k as [|k IH]; intros Hk; [done|].
  rewrite seq_S, foldl_app, IH by lia. cbn. replace (num + k - num)%nat with k by lia.
  destruct (lookup_lt_is_Some_2 vec (num + k)) as [x Hx]; [lia|].
  assert (Hlen : length (take k (drop num vec)) = k) by (rewrite length_take, length_drop; lia).
  assert (Hget : (take k (drop num vec) ++ drop k vec) !! (num + k)%nat = Some x).
  { rewrite lookup_app_r by lia. rewrite Hlen, lookup_drop. rewrite <- Hx. f_equal. lia. }
  rewrite Hget. f_equal. rewrite insert_app_r_alt by lia. rewrite Hlen, Nat.sub_diag.
  destruct (lookup_lt_is_Some_2 vec k) as [y Hy]; [lia|]. rewrite (drop_S vec y k Hy). cbn.
  rewrite (take_S_r (drop num vec) k x) by (by rewrite lookup_drop). by rewrite <- app_assoc.
Qed.

Lemma truncate_first_elems_spec (vec : list Nibble) num :
  (num <= length vec)%nat -> is_usize (len vec) -> truncate_first_elems vec num = Some (drop num vec).
Proof.
  intros Hn Hlen. unfold truncate_first_elems. rewrite truncate_loop by lia. f_equal.
  assert (Hl : length (take (length vec - num) (drop num vec)) = (length vec - num)%nat) by (rewrite length_take, length_drop; lia).
  assert (Hw : wsub usize_bits (len (take (length vec - num) (drop num vec) ++ drop (length vec - num) vec)) (Z.of_nat num)
    = Z.of_nat (length vec - num)).
  { unfold len in *. rewrite length_app, Hl, length_drop. unfold wsub. rewrite wrap_small; [lia|]. unfold is_uint in *. lia. }
  rewrite Hw, Nat2Z.id, take_app_length' by done. apply take_ge. rewrite length_drop. lia.
Qed.

Lemma insert_front_loop (vec : list Nibble) shift j :
  (j <= length vec)%nat -> exists v,
  foldl (fun acc n => let! v := acc in let! x := v !! n in Some (<[(n + shift)%nat := x]> v))
    (Some (vec ++ replicate shift 0)) (rev (seq j (length vec - j))) = Some v /\
  length v = (length vec + shift)%nat /\
  (forall i, (i < j + shift)%nat -> v !! i = (vec ++ replicate shift 0) !! i) /\
  (forall i, (j + shift <= i)%nat -> v !! i = vec !! (i - shift)%nat).
Proof.
  intros Hj. remember (length vec - j)%nat as k eqn:Ek. revert j Hj Ek. induction k as [|k IH]; intros j Hj Ek.
  - exists (vec ++ replicate shift 0). split; [done|]. rewrite length_app, length_replicate. split; [done|]. split; [done|].
    intros i Hi. rewrite !lookup_ge_None_2; [done|lia|rewrite length_app, length_replicate; lia].
  - cbn [seq]. destruct (IH (S j)) as (v & Hrun & Hlen & Hlo & Hhi); [lia|lia|].
    change (rev (j :: seq (S j) k)) with (rev (seq (S j) k) ++ [j]). rewrite foldl_app, Hrun. cbn.
    destruct (lookup_lt_is_Some_2 vec j) as [x Hx]; [lia|].
    rewrite Hlo by lia. rewrite lookup_app_l, Hx by lia. eexists. split; [done|]. rewrite length_insert. split; [done|]. split.
    + intros i Hi. rewrite list_lookup_insert_ne by lia. apply Hlo. lia.
    + intros i Hi. destruct (decide (i = j + shift)%nat) as [->|Hne].
      * rewrite list_lookup_insert_eq by lia. rewrite <- Hx. f_equal. lia.
      * rewrite list_lookup_insert_ne by lia. apply Hhi. lia.
Qed.

Lemma insert_front_spec (vec first : list Nibble) next : insert_front vec first next = Some (first ++ next :: vec).
Proof.
  unfold insert_front. destruct (insert_front_loop vec (S (length first)) 0) as (v & Hrun & Hlen & _ & Hhi); [lia|].
  rewrite Nat.sub_0_r in Hrun. rewrite Hrun. f_equal.
  destruct (lookup_lt_is_Some_2 v (length first)) as [x Hx]; [lia|]. rewrite (drop_S v x (length first) Hx).
  rewrite insert_app_r_alt, Nat.sub_diag by lia. cbn. f_equal. f_equal. apply list_eq. intros i.
  rewrite lookup_drop, Hhi by lia. f_equal. lia.
Qed.

End vectors.

(** ** Views *)

Section structure.
Context `{Platform} {TUd : Type}.
Implicit Types (self : TrieStructure TUd) (nd : Node TUd) (K : Z -> list Nibble).

Abbreviation slot := (option (Z * Nibble)) (only parsing).
Abbreviation core_type := (slot * list Nibble * bool * TUd)%type (only parsing).

Definition core nd : core_type := (nd_parent nd, nd_partial_key nd, nd_has_storage_value nd, nd_user_data nd).
Definition view_core self (i : Z) : option core_type := core <$> nodes self !! i.

Record view_links K (co : Z -> option core_type) (sl : slot -> option Z) : Prop := {
  vl_link : forall s i, sl s = Some i <-> exists pk b u, co i = Some (s, pk, b, u);
  vl_parent : forall p n i, sl (Some (p, n)) = Some i -> is_Some (co p) /\ is_nibble n;
  vl_node : forall i s pk b u, co i = Some (s, pk, b, u) ->
    0 <= i < usize_max /\ Forall (is_uint 4) pk /\ K i = slot_key K s ++ pk /\ is_usize (len (K i))
}.

Definition children_16 self : Prop := forall i nd, nodes self !! i = Some nd -> length (nd_children nd) = 16%nat.

Lemma view_core_Some self i s pk b u :
  view_core self i = Some (s, pk, b, u) <-> exists nd, nodes self !! i = Some nd /\ core nd = (s, pk, b, u).
Proof. unfold view_core. rewrite fmap_Some. naive_solver. Qed.

Lemma links_ok_view K self : links_ok K self <-> view_links K (view_core self) (slot_child self) /\ children_16 self.
Proof.
  split.
  - intros [Hl Hn]. split; [split|].
    + intros s i. rewrite Hl. setoid_rewrite view_core_Some. unfold core. split.
      * intros (nd & Hi & <-). by eexists _, _, _, nd.
      * intros (pk & b & u & nd & Hi & [= <- <- <- <-]). by exists nd.
    + intros p n i Hs. cbn in Hs. unfold view_core. destruct (nodes self !! p) as [pn|]; [|done]. split; [by eexists|].
      cbn in Hs. unfold get_child in Hs. by case_bool_decide.
    + intros i s pk b u (nd & Hi & [= <- <- <- <-])%view_core_Some. by destruct (Hn i nd Hi).
    + intros i nd Hi. by destruct (Hn i nd Hi).
  - intros [[Hl Hp Hn] H16]. split.
    + intros s i. rewrite Hl. setoid_rewrite view_core_Some. unfold core. split.
      * intros (pk & b & u & nd & Hi & [= <- <- <- <-]). by exists nd.
      * intros (nd & Hi & <-). by eexists _, _, _, nd.
    + intros i nd Hi. destruct (Hn i (nd_parent nd) (nd_partial_key nd) (nd_has_storage_value nd) (nd_user_data nd)) as (H1 & H2 & H3 & H4).
      { unfold view_core. by rewrite Hi. }
      split; try done. by apply (H16 i).
Qed.

(** *** The four changes *)

Section changes.
Context {K : Z -> list Nibble} {co co' : Z -> option core_type} {sl sl' : slot -> option Z}.
Context (Hv : view_links K co sl).

(** The nodes that a slot names are there. *)
Definition slot_valid (s : slot) : Prop := match s with None => True | Some (p, n) => is_Some (co p) /\ is_nibble n end.

Lemma slot_of_node i s pk b u : co i = Some (s, pk, b, u) -> sl s = Some i /\ slot_valid s.
Proof.
  intros Hi. assert (Hs : sl s = Some i) by (apply (vl_link _ _ _ Hv); eauto). split; [done|].
  destruct s as [[p n]|]; [|done]. by apply (vl_parent _ _ _ Hv _ _ i).
Qed.

Lemma slot_key_fresh new key s : co new = None -> slot_valid s -> slot_key (<[new := key]> K) s = slot_key K s.
Proof.
  intros Hnew Hs. destruct s as [[p n]|]; [|done]. cbn. rewrite fn_lookup_insert_ne; [done|]. intros ->.
  destruct Hs as [[? ?] _]. congruence.
Qed.

Lemma slot_fresh new n : co new = None -> sl (Some (new, n)) = None.
Proof.
  intros Hnew. destruct (sl (Some (new, n))) as [i|] eqn:E; [|done]. apply (vl_parent _ _ _ Hv) in E as [[? ?] _]. congruence.
Qed.

(** The key of the old nodes, after a new node. *)
Lemma old_node new key i s pk b u :
  co new = None -> co i = Some (s, pk, b, u) -> <[new := key]> K i = slot_key (<[new := key]> K) s ++ pk /\ is_usize (len (<[new := key]> K i)).
Proof.
  intros Hnew Hi. rewrite fn_lookup_insert_ne by congruence. destruct (slot_of_node _ _ _ _ _ Hi) as [_ Hs].
  rewrite (slot_key_fresh new key s Hnew Hs). by destruct (vl_node _ _ _ Hv _ _ _ _ _ Hi) as (_ & _ & ? & ?).
Qed.

Lemma add_leaf_view new s pk b u :
  co new = None -> sl s = None -> slot_valid s -> 0 <= new < usize_max -> Forall (is_uint 4) pk ->
  is_usize (len (slot_key K s ++ pk)) ->
  (forall i, co' i = if decide (i = new) then Some (s, pk, b, u) else co i) ->
  (forall t, sl' t = if decide (t = s) then Some new else sl t) ->
  view_links (<[new := slot_key K s ++ pk]> K) co' sl'.
Proof.
  intros Hnew Hs Hval Hidx Hpk Hlen Hco Hsl. split.
  - intros t i. rewrite Hsl, Hco. case_decide as E1; case_decide as E2; subst.
    + naive_solver.
    + split; [congruence|]. intros (pk' & b' & u' & Hi). apply slot_of_node in Hi as [? _]. congruence.
    + split; [|naive_solver]. intros Ht. apply (vl_link _ _ _ Hv) in Ht as (? & ? & ? & ?). congruence.
    + apply Hv.
  - intros p n i. rewrite Hsl, Hco. case_decide as E1.
    + intros _. subst s. destruct Hval as [Hp Hn]. split; [|done]. case_decide; [by eexists|done].
    + intros Hi. apply (vl_parent _ _ _ Hv) in Hi as [Hp Hn]. split; [|done]. case_decide; [by eexists|done].
  - intros i t pk' b' u'. rewrite Hco. case_decide as E.
    + intros [= <- <- <- <-]. subst i. rewrite fn_lookup_insert, slot_key_fresh by done. done.
    + intros Hi. destruct (vl_node _ _ _ Hv _ _ _ _ _ Hi) as (? & ? & _). by destruct (old_node new (slot_key K s ++ pk) _ _ _ _ _ Hnew Hi).
Qed.

(** A new node between a slot and the node [e] that is in it. *)
Lemma splice_view new e s pk m rest b u be ue :
  co new = None -> co e = Some (s, pk ++ m :: rest, be, ue) -> 0 <= new < usize_max ->
  (forall i, co' i = if decide (i = new) then Some (s, pk, b, u)
                     else if decide (i = e) then Some (Some (new, m), rest, be, ue) else co i) ->
  (forall t, sl' t = if decide (t = s) then Some new else if decide (t = Some (new, m)) then Some e else sl t) ->
  view_links (<[new := slot_key K s ++ pk]> K) co' sl'.
Proof.
  intros Hnew He Hidx Hco Hsl. destruct (slot_of_node _ _ _ _ _ He) as [Hs Hval].
  destruct (vl_node _ _ _ Hv _ _ _ _ _ He) as (Hei & Hpk & HK & Hlen). apply Forall_app in Hpk as [Hpk [Hm Hrest]%Forall_cons].
  assert (Hne : e <> new) by congruence.
  assert (Hsnew : s <> Some (new, m)). { intros ->. destruct Hval as [[? ?] _]. congruence. }
  split.
  - intros t i. rewrite Hsl, Hco. destruct (decide (t = s)) as [->|Hts].
    + destruct (decide (i = new)) as [->|Hin]; [naive_solver|]. split; [congruence|]. intros (pk' & b' & u' & Hi). revert Hi.
      destruct (decide (i = e)) as [->|]; [congruence|]. intros Hi. apply slot_of_node in Hi as [? _]. congruence.
    + destruct (decide (t = Some (new, m))) as [->|Htn].
      * destruct (decide (i = new)) as [->|Hin]; [naive_solver congruence|]. destruct (decide (i = e)) as [->|Hie]; [naive_solver|].
        split; [congruence|]. intros (pk' & b' & u' & Hi). apply slot_of_node in Hi as [_ [[? ?] _]]. congruence.
      * destruct (decide (i = new)) as [->|Hin].
        { split; [|naive_solver]. intros Ht. apply (vl_link _ _ _ Hv) in Ht as (? & ? & ? & ?). congruence. }
        destruct (decide (i = e)) as [->|Hie]; [|apply Hv]. split; [|naive_solver].
        intros Ht. apply (vl_link _ _ _ Hv) in Ht as (? & ? & ? & ?). congruence.
  - intros p n i. rewrite Hsl, Hco. assert (Hp : is_Some (co p) -> is_Some (if decide (p = new) then Some (s, pk, b, u)
      else if decide (p = e) then Some (Some (new, m), rest, be, ue) else co p)) by (intros ?; repeat case_decide; by eauto).
    destruct (decide (Some (p, n) = s)) as [<-|]; [intros _; destruct Hval; eauto|].
    destruct (decide (Some (p, n) = Some (new, m))) as [E|E].
    + intros _. injection E as -> ->. rewrite decide_True by done. eauto.
    + intros Hi. apply (vl_parent _ _ _ Hv) in Hi as [? ?]. eauto.
  - assert (Hlen' : is_usize (len (slot_key K s ++ pk))).
    { rewrite HK in Hlen. unfold is_uint, len in *. rewrite !length_app in *. cbn in Hlen. lia. }
    intros i t pk' b' u'. rewrite Hco. case_decide as E; [|case_decide as E2].
    + intros [= <- <- <- <-]. subst i. rewrite fn_lookup_insert, (slot_key_fresh new) by done. done.
    + intros [= <- <- <- <-]. subst i. split; [done|]. split; [done|]. rewrite fn_lookup_insert_ne by done. cbn.
      rewrite fn_lookup_insert, HK, <- !app_assoc. split; [done|]. by rewrite HK in Hlen.
    + intros Hi. destruct (vl_node _ _ _ Hv _ _ _ _ _ Hi) as (? & ? & _). by destruct (old_node new (slot_key K s ++ pk) _ _ _ _ _ Hnew Hi).
Qed.

(** A node without children is removed. *)
Lemma drop_leaf_view i s pk b u :
  co i = Some (s, pk, b, u) -> (forall n, sl (Some (i, n)) = None) ->
  (forall j, co' j = if decide (j = i) then None else co j) ->
  (forall t, sl' t = if decide (t = s) then None else sl t) -> view_links K co' sl'.
Proof.
  intros Hi Hno Hco Hsl. destruct (slot_of_node _ _ _ _ _ Hi) as [Hs _]. split.
  - intros t j. rewrite Hsl, Hco. case_decide as E1; case_decide as E2; subst.
    + naive_solver.
    + split; [done|]. intros (? & ? & ? & Hj). apply slot_of_node in Hj as [? _]. congruence.
    + split; [|naive_solver]. intros Ht. apply (vl_link _ _ _ Hv) in Ht as (? & ? & ? & ?). congruence.
    + apply Hv.
  - intros p n j. rewrite Hsl, Hco. case_decide; [done|]. intros Hj. destruct (vl_parent _ _ _ Hv _ _ _ Hj) as [Hp Hn]. split; [|done].
    rewrite decide_False; [done|]. intros ->. by rewrite Hno in Hj.
  - intros j t pk' b' u'. rewrite Hco. case_decide; [done|]. apply Hv.
Qed.

(** A node with one child is removed; the child takes its slot. *)
Lemma unsplice_view i s pk b u m c pkc bc uc :
  co i = Some (s, pk, b, u) -> co c = Some (Some (i, m), pkc, bc, uc) -> (forall n, n <> m -> sl (Some (i, n)) = None) ->
  (forall j, co' j = if decide (j = i) then None else if decide (j = c) then Some (s, pk ++ m :: pkc, bc, uc) else co j) ->
  (forall t, sl' t = if decide (t = s) then Some c else if decide (t = Some (i, m)) then None else sl t) -> view_links K co' sl'.
Proof.
  intros Hi Hc Hno Hco Hsl. destruct (slot_of_node _ _ _ _ _ Hi) as [Hs Hval]. destruct (slot_of_node _ _ _ _ _ Hc) as [Hsc [_ Hm]].
  destruct (vl_node _ _ _ Hv _ _ _ _ _ Hi) as (_ & Hpk & HK & _). destruct (vl_node _ _ _ Hv _ _ _ _ _ Hc) as (Hcidx & Hpkc & HKc & Hlen).
  cbn in HKc.
  assert (Hci : c <> i). { intros ->. apply (f_equal length) in HKc. rewrite !length_app in HKc. cbn in HKc. lia. }
  assert (Hself : forall n, s <> Some (i, n)).
  { intros n ->. apply (f_equal length) in HK. cbn in HK. rewrite !length_app in HK. cbn in HK. lia. }
  split.
  - intros t j. rewrite Hsl, Hco. destruct (decide (t = s)) as [->|Hts].
    + destruct (decide (j = i)) as [->|Hj]; [naive_solver congruence|]. destruct (decide (j = c)) as [->|Hjc]; [naive_solver|].
      split; [congruence|]. intros (? & ? & ? & Hj'). apply slot_of_node in Hj' as [? _]. congruence.
    + destruct (decide (t = Some (i, m))) as [->|Htm].
      * split; [done|]. intros (pk' & b' & u' & Hj). revert Hj. case_decide; [done|]. case_decide; [congruence|].
        intros Hj. apply slot_of_node in Hj as [? _]. congruence.
      * destruct (decide (j = i)) as [->|Hj].
        { split; [|naive_solver]. intros Ht. apply (vl_link _ _ _ Hv) in Ht as (? & ? & ? & ?). congruence. }
        destruct (decide (j = c)) as [->|Hjc]; [|apply Hv]. split; [|naive_solver].
        intros Ht. apply (vl_link _ _ _ Hv) in Ht as (? & ? & ? & ?). congruence.
  - intros p n j. rewrite Hsl, Hco. assert (Hp : is_Some (co p) -> p <> i -> is_Some (if decide (p = i) then None
      else if decide (p = c) then Some (s, pk ++ m :: pkc, bc, uc) else co p)) by (intros ? ?; repeat case_decide; by eauto).
    destruct (decide (Some (p, n) = s)) as [<-|]; [intros _; destruct Hval; split; [|done]; apply Hp; [done|]; intros ->; by eapply Hself|].
    destruct (decide (Some (p, n) = Some (i, m))) as [E|E]; [done|]. intros Hj. destruct (vl_parent _ _ _ Hv _ _ _ Hj) as [? ?]. split; [|done]. apply Hp; [done|].
    intros ->. rewrite Hno in Hj by congruence. done.
  - intros j t pk' b' u'. rewrite Hco. case_decide as E; [done|]. case_decide as E2; [|apply Hv]. intros [= <- <- <- <-]. subst j.
    split; [done|]. split; [apply Forall_app; split; [done|by apply Forall_cons]|]. split; [|done].
    rewrite HKc, HK, <- !app_assoc. done.
Qed.

End changes.

(** *** The view of the code *)

Lemma view_core_set self i nd j : view_core (set_node self i nd) j = if decide (j = i) then Some (core nd) else view_core self j.
Proof. unfold view_core. cbn. rewrite lookup_insert. destruct (decide (i = j)), (decide (j = i)); done || congruence. Qed.

Lemma slot_child_set self i nd t :
  slot_child (set_node self i nd) t =
  match t with Some (p, n) => if decide (p = i) then get_child nd n else slot_child self t | None => root_index self end.
Proof. destruct t as [[p n]|]; [|done]. cbn. rewrite lookup_insert. destruct (decide (i = p)), (decide (p = i)); done || congruence. Qed.

(** A node whose children do not change. *)
Lemma slot_child_update self i nd nd' t :
  nodes self !! i = Some nd -> nd_children nd' = nd_children nd -> slot_child (set_node self i nd') t = slot_child self t.
Proof.
  intros Hi Hc. rewrite slot_child_set. destruct t as [[p n]|]; [|done]. case_decide; [|done]. subst. cbn. rewrite Hi. cbn.
  unfold get_child. by rewrite Hc.
Qed.

Lemma children_16_set self i nd : children_16 self -> length (nd_children nd) = 16%nat -> children_16 (set_node self i nd).
Proof. intros H16 Hl j nd'. cbn. rewrite lookup_insert. case_decide; [|apply H16]. by intros [= <-]. Qed.

Lemma get_child_write nd ch n c m :
  length ch = 16%nat -> nd_children nd = write_child ch n c -> is_nibble n ->
  get_child nd m = if decide (m = n) then c else if bool_decide (is_nibble m) then mjoin (ch !! Z.to_nat m) else None.
Proof.
  intros Hl Hc Hn. unfold get_child. rewrite Hc. unfold write_child. case_bool_decide as Hm.
  - case_decide as E.
    + subst. rewrite list_lookup_insert_eq by (unfold is_uint in *; lia). by destruct c.
    + rewrite list_lookup_insert_ne; [done|]. unfold is_uint in *. lia.
  - case_decide; [|done]. by subst.
Qed.

Lemma get_child_none nd m : nd_children nd = no_children -> get_child nd m = None.
Proof.
  intros Hc. unfold get_child. rewrite Hc. case_bool_decide; [|done]. destruct (no_children !! Z.to_nat m) as [[z|]|] eqn:E; try done.
  unfold no_children in E. apply lookup_replicate in E as [? _]. done.
Qed.

Lemma get_child_one nd n e m :
  nd_children nd = write_child no_children n (Some e) -> is_nibble n -> get_child nd m = if decide (m = n) then Some e else None.
Proof.
  intros Hc Hn. rewrite (get_child_write nd no_children n (Some e) m) by done. case_decide; [done|].
  by apply (get_child_none (mkNode None [] no_children false (nd_user_data nd)) m).
Qed.

Definition valid_slot self (s : slot) : Prop :=
  match s with None => True | Some (p, n) => is_Some (nodes self !! p) /\ is_nibble n end.

Lemma valid_slot_view self s : slot_valid (co := view_core self) s <-> valid_slot self s.
Proof. destruct s as [[p n]|]; [|done]. cbn. unfold view_core. by rewrite fmap_is_Some. Qed.

Lemma update_parent_view self s c :
  children_16 self -> valid_slot self s -> exists self', update_parent self s c = Some self' /\
    (forall i, view_core self' i = view_core self i) /\
    (forall t, slot_child self' t = if decide (t = s) then c else slot_child self t) /\ children_16 self' /\
    (forall i, is_Some (nodes self' !! i) <-> is_Some (nodes self !! i)).
Proof.
  intros H16 Hs. destruct s as [[p n]|]; cbn [update_parent].
  - destruct Hs as [[pn Hp] Hn]. rewrite Hp. pose proof (H16 p pn Hp) as Hl.
    destruct (lookup_lt_is_Some_2 (nd_children pn) (Z.to_nat n)) as [old Hold]; [unfold is_uint in Hn; lia|].
    unfold child_slot. rewrite Hold. eexists. split; [done|]. set (pn' := with_children pn _). split_and!.
    + intros i. rewrite view_core_set. case_decide; [|done]. subst. unfold view_core. by rewrite Hp.
    + intros t. rewrite slot_child_set. destruct t as [[q m]|]; [|by rewrite decide_False]. destruct (decide (q = p)) as [->|Hne].
      * rewrite (get_child_write pn' (nd_children pn) n c m Hl eq_refl Hn). cbn. rewrite Hp. cbn. unfold get_child.
        destruct (decide (m = n)), (decide (Some (p, m) = Some (p, n))); congruence.
      * rewrite decide_False by congruence. done.
    + apply children_16_set; [done|]. cbn. unfold write_child. by rewrite length_insert.
    + intros i. cbn. rewrite lookup_insert. case_decide; [|done]. subst. rewrite Hp. by split; eexists.
  - eexists. split; [done|]. split_and!; try done. intros [[q m]|]; [by rewrite decide_False|by rewrite decide_True].
Qed.

Lemma update_children_skip self new num i k l :
  update_children self new num i (replicate k None ++ l) = update_children self new num (i + Z.of_nat k) l.
Proof.
  revert i. induction k as [|k IH]; intros i; cbn [replicate app update_children]; [f_equal; lia|]. rewrite IH. f_equal. lia.
Qed.

Lemma update_children_none self new num : update_children self new num 0 no_children = Some self.
Proof. unfold no_children. rewrite <- (app_nil_r (replicate 16 None)). by rewrite update_children_skip. Qed.

Lemma update_children_one self new num m e en :
  is_nibble m -> nodes self !! e = Some en -> (num <= length (nd_partial_key en))%nat -> is_usize (len (nd_partial_key en)) ->
  update_children self new num 0 (write_child no_children m (Some e)) =
  Some (set_node self e (with_parent en (Some (new, m)) (drop num (nd_partial_key en)))).
Proof.
  intros Hm He Hn Hlen. unfold write_child, no_children. rewrite insert_take_drop by (rewrite length_replicate; unfold is_uint in Hm; lia).
  rewrite take_replicate, drop_replicate, update_children_skip. cbn [update_children].
  rewrite He, (truncate_first_elems_spec _ _ Hn Hlen).
  rewrite <- (app_nil_r (replicate (16 - S (Z.to_nat m)) None)), update_children_skip. cbn [update_children].
  do 4 f_equal. unfold is_uint in Hm. f_equal. lia.
Qed.

(** ** Children *)

Lemma omap_id_elem (l : list (option Z)) c : c ∈ omap id l <-> exists i, l !! i = Some (Some c).
Proof.
  rewrite list_elem_of_omap. split.
  - intros (x & Hx & E). cbn in E. subst x. by apply list_elem_of_lookup in Hx.
  - intros [i Hi]. exists (Some c). split; [|done]. by eapply list_elem_of_lookup_2.
Qed.

Lemma omap_id_two (l : list (option Z)) :
  (2 <= length (omap id l))%nat <-> exists i j x y, i <> j /\ l !! i = Some (Some x) /\ l !! j = Some (Some y).
Proof.
  induction l as [|[c|] l IH]; cbn.
  - split; [lia|]. intros (i & j & x & y & _ & Hi & _). by rewrite lookup_nil in Hi.
  - split.
    + intros Hl. destruct (omap id l) as [|d l'] eqn:E; [cbn in Hl; lia|].
      destruct (proj1 (omap_id_elem l d)) as [j Hj]; [rewrite E; left|]. exists 0%nat, (S j), c, d. done.
    + intros (i & j & x & y & Hij & Hi & Hj). assert (Hex : exists d, d ∈ omap id l).
      { destruct i as [|i]; [|exists x; apply omap_id_elem; by exists i]. destruct j as [|j]; [done|].
        exists y. apply omap_id_elem. by exists j. }
      destruct Hex as [d Hd]. destruct (omap id l); [by apply elem_of_nil in Hd|cbn; lia].
  - rewrite IH. split; intros (i & j & x & y & Hij & Hi & Hj).
    + exists (S i), (S j), x, y. split; [lia|done].
    + destruct i as [|i]; [done|]. destruct j as [|j]; [done|]. exists i, j, x, y. split; [lia|done].
Qed.

Section node.
Context {nd : Node TUd} (H16 : length (nd_children nd) = 16%nat).

Lemma child_index i c : nd_children nd !! i = Some (Some c) <-> (i < 16)%nat /\ get_child nd (Z.of_nat i) = Some c.
Proof.
  unfold get_child. rewrite Nat2Z.id. split.
  - intros Hi. apply lookup_lt_Some in Hi as Hlt. rewrite H16 in Hlt. split; [done|].
    rewrite bool_decide_true by (unfold is_uint; lia). by rewrite Hi.
  - intros [Hlt Hc]. rewrite bool_decide_true in Hc by (unfold is_uint; lia).
    destruct (nd_children nd !! i) as [[x|]|]; try done. by injection Hc as ->.
Qed.

Lemma nibble_index n c : get_child nd n = Some c -> exists i, n = Z.of_nat i /\ nd_children nd !! i = Some (Some c).
Proof.
  intros Hc. assert (Hn : is_nibble n) by (unfold get_child in Hc; by case_bool_decide).
  exists (Z.to_nat n). unfold is_uint in Hn. split; [lia|]. apply child_index. rewrite Z2Nat.id by lia. split; [lia|done].
Qed.

Lemma num_children_two :
  (2 <= num_children (nd_children nd))%nat <->
  exists n m, n <> m /\ is_Some (get_child nd n) /\ is_Some (get_child nd m).
Proof.
  unfold num_children. rewrite omap_id_two. split.
  - intros (i & j & x & y & Hij & Hi & Hj). apply child_index in Hi as [_ Hi], Hj as [_ Hj].
    exists (Z.of_nat i), (Z.of_nat j). split; [lia|]. split; by eexists.
  - intros (n & m & Hnm & [x Hx] & [y Hy]). apply nibble_index in Hx as (i & -> & Hi), Hy as (j & -> & Hj).
    exists i, j, x, y. split; [lia|done].
Qed.

Lemma first_child_none : first_child (nd_children nd) = None <-> forall n, get_child nd n = None.
Proof.
  unfold first_child. split.
  - intros E n. destruct (get_child nd n) as [c|] eqn:Hc; [|done]. apply nibble_index in Hc as (i & -> & Hi).
    assert (Hin : c ∈ omap id (nd_children nd)) by (apply omap_id_elem; eauto).
    destruct (omap id (nd_children nd)); [by apply elem_of_nil in Hin|done].
  - intros Hno. destruct (omap id (nd_children nd)) as [|c l] eqn:E; [done|].
    destruct (proj1 (omap_id_elem (nd_children nd) c)) as [i Hi]; [rewrite E; left|].
    apply child_index in Hi as [_ Hi]. congruence.
Qed.

Lemma first_child_get c : first_child (nd_children nd) = Some c -> exists n, get_child nd n = Some c.
Proof.
  unfold first_child. destruct (omap id (nd_children nd)) as [|d l] eqn:E; [done|]. intros [= ->].
  destruct (proj1 (omap_id_elem (nd_children nd) c)) as [i Hi]; [rewrite E; left|].
  apply child_index in Hi as [_ Hi]. eauto.
Qed.

(** The only child. *)
Lemma first_child_one c :
  first_child (nd_children nd) = Some c -> ~ (2 <= num_children (nd_children nd))%nat ->
  exists n, get_child nd n = Some c /\ forall m, m <> n -> get_child nd m = None.
Proof.
  intros Hc Hnum. destruct (first_child_get c Hc) as (n & Hn). exists n. split; [done|]. intros m Hm.
  destruct (get_child nd m) as [d|] eqn:Hd; [|done]. exfalso. apply Hnum, num_children_two. exists m, n. rewrite Hn, Hd.
  split; [done|]. split; by eexists.
Qed.

End node.

(** The condition on branch nodes in the view. *)
Definition view_branches (co : Z -> option core_type) (sl : slot -> option Z) : Prop :=
  forall i s pk u, co i = Some (s, pk, false, u) ->
    exists n m, n <> m /\ is_Some (sl (Some (i, n))) /\ is_Some (sl (Some (i, m))).

Lemma branches_ok_view self :
  children_16 self -> branches_ok self <-> view_branches (view_core self) (slot_child self).
Proof.
  intros H16. split.
  - intros Hb i s pk u (nd & Hi & [= <- <- Hsv <-])%view_core_Some.
    destruct (proj1 (num_children_two (H16 i nd Hi)) (Hb i nd Hi Hsv)) as (n & m & Hnm & Hn & Hm). exists n, m. cbn. by rewrite Hi.
  - intros Hb i nd Hi Hsv. apply (num_children_two (H16 i nd Hi)).
    destruct (Hb i (nd_parent nd) (nd_partial_key nd) (nd_user_data nd)) as (n & m & Hnm & Hn & Hm).
    { unfold view_core. rewrite Hi. cbn. unfold core. by rewrite Hsv. }
    exists n, m. cbn in Hn, Hm. rewrite Hi in Hn, Hm. done.
Qed.

Lemma trie_inv_view K self :
  trie_inv K self <->
  view_links K (view_core self) (slot_child self) /\ view_branches (view_core self) (slot_child self) /\ children_16 self.
Proof.
  split.
  - intros [Hl Hb]. apply links_ok_view in Hl as [Hl H16]. split; [done|]. split; [|done]. by apply branches_ok_view.
  - intros (Hl & Hb & H16). split; [by apply links_ok_view|]. by apply branches_ok_view.
Qed.

End structure.
