(* ===== verification/TrieStructureUpdate.v ===== *)
(** * Updates of the structure of a trie ([src/src/trie/trie_structure.rs])

    The insertion of a key and the removal of a storage value do not panic, keep the
    invariant, and change the set of the nodes as they should; the nodes are those that
    the set of the keys needs. *)

From stdpp Require Import functions.
From S2P Require Import Prelude Nibble TrieStructure TrieStructureInv TrieStructureOps.

Open Scope Z_scope.

Section structure.
Context `{Platform} {TUd : Type}.
Implicit Types (self : TrieStructure TUd) (nd : Node TUd) (K : Z -> list Nibble).

Abbreviation slot := (option (Z * Nibble)) (only parsing).

(** ** Preparation of an insertion *)

Lemma common_len_spec (k1 k2 : list Nibble) :
  ~ k1 `prefix_of` k2 -> ~ k2 `prefix_of` k1 ->
  exists pre a b r1 r2, common_len k1 k2 = Some (length pre) /\ k1 = pre ++ a :: r1 /\ k2 = pre ++ b :: r2 /\ a <> b.
Proof.
  revert k2. induction k1 as [|a k1 IH]; intros [|b k2] H1 H2; [exfalso; apply H1, prefix_nil|exfalso; apply H1, prefix_nil|exfalso; apply H2, prefix_nil|].
  cbn. destruct (Z.eqb_spec a b) as [->|Hne].
  - destruct (IH k2) as (pre & x & y & r1 & r2 & -> & -> & -> & Hxy).
    + intros Hp. by apply H1, prefix_cons.
    + intros Hp. by apply H2, prefix_cons.
    + by exists (b :: pre), x, y, r1, r2.
  - by exists [], a, b, k1, k2.
Qed.

(** What is prepared: the slot of the new node and the node that is in the slot. *)
Definition in_slot self (s : slot) (pk : list Nibble) (m : Nibble) (ch : list (option Z)) : Prop :=
  exists e en rest, slot_child self s = Some e /\ nodes self !! e = Some en /\
    nd_partial_key en = pk ++ m :: rest /\ ch = write_child no_children m (Some e).

Definition prepare_ok K self (key : list Nibble) (prepare : PrepareInsert) : Prop :=
  match prepare with
  | InsertOne (mkPrepareInsertOne s pk ch) =>
      key = slot_key K s ++ pk /\ valid_slot self s /\
      ((slot_child self s = None /\ ch = no_children) \/ exists m, in_slot self s pk m ch)
  | InsertTwo (mkPrepareInsertTwo n spk s bpk ch) =>
      key = slot_key K s ++ bpk ++ n :: spk /\ valid_slot self s /\ exists m, m <> n /\ in_slot self s bpk m ch
  end.

(** The parent and the length of its key, and the slot. *)
Definition future_slot K (key : list Nibble) (future_parent : option (Z * nat)) (s : slot) : Prop :=
  match future_parent, s with
  | None, None => True
  | Some (p, l), Some (q, n) => p = q /\ l = length (K p) /\ key !! l = Some n
  | _, _ => False
  end.

Lemma prepare_existing_spec K self key fp s e en pk :
  future_slot K key fp s -> key = slot_key K s ++ pk -> valid_slot self s ->
  slot_child self s = Some e -> nodes self !! e = Some en -> ~ nd_partial_key en `prefix_of` pk ->
  exists prepare, prepare_existing self key fp e = Some prepare /\ prepare_ok K self key prepare.
Proof.
  intros Hfp Hkey Hval Hs He Hno. unfold prepare_existing. rewrite He.
  assert (Hdrop : drop (match fp with Some (_, n) => S n | None => 0 end) key = pk).
  { destruct fp as [[p l]|], s as [[q n]|]; try done; cbn in Hfp, Hkey |- *.
    destruct Hfp as (<- & -> & _). rewrite Hkey. apply drop_app_length'. rewrite length_app. cbn. lia. }
  assert (Hpar : new_parent key fp = Some s).
  { destruct fp as [[p l]|], s as [[q n]|]; try done; cbn in Hfp |- *. destruct Hfp as (<- & _ & ->). done. }
  rewrite Hdrop, Hpar. case_bool_decide as Hpre.
  - destruct Hpre as [[|m rest] Hpk].
    { exfalso. apply Hno. rewrite Hpk, app_nil_r. by exists []; rewrite app_nil_r. }
    rewrite Hpk, lookup_app_r, Nat.sub_diag by done. cbn. eexists. split; [done|]. cbn. split; [done|]. split; [done|].
    right. exists m, e, en, rest. done.
  - destruct (common_len_spec pk (nd_partial_key en) Hpre Hno) as (pre & a & b & r1 & r2 & -> & -> & Hen & Hab).
    rewrite Hen, !lookup_app_r, Nat.sub_diag by done. cbn. eexists. split; [done|]. cbn.
    rewrite take_app_length.
    split; [|split; [done|]].
    + rewrite Hkey. f_equal. f_equal. f_equal. change (a :: r1) with ([a] ++ r1). rewrite app_assoc. symmetry.
      apply drop_app_length'. rewrite length_app. cbn. lia.
    + exists b. split; [done|]. exists e, en, r2. done.
Qed.

Lemma prepare_spec K self key ca :
  links_ok K self -> Forall (is_uint 4) key -> search_spec K self key (NodeNotFound ca) ->
  exists prepare, vacant_insert_storage_value self key ca = Some prepare /\ prepare_ok K self key prepare.
Proof.
  intros Hok Hkey Hs. unfold vacant_insert_storage_value. destruct ca as [a|].
  - destruct Hs as ([an Ha] & (n & rest & Hrest) & Hlong).
    destruct (anc_root Hok a) as (root & -> & _); [by eexists|].
    rewrite (node_full_key_spec Hok) by (by eexists).
    assert (Hn : key !! length (K a) = Some n) by (rewrite Hrest, lookup_app_r, Nat.sub_diag; done).
    assert (Hnib : is_nibble n) by (by eapply Forall_lookup_1). rewrite Hn, Ha, (child_slot_get Hok an a n Ha Hnib).
    assert (Hval : valid_slot self (Some (a, n))) by (split; [by eexists|done]).
    assert (Hslot : slot_child self (Some (a, n)) = get_child an n) by (cbn; by rewrite Ha).
    assert (Hk : key = slot_key K (Some (a, n)) ++ rest) by (cbn; by rewrite <- app_assoc).
    destruct (get_child an n) as [e|] eqn:Hc.
    + destruct (child_link Hok a an n e Ha Hc) as (en & He & Hep).
      apply (prepare_existing_spec K self key _ (Some (a, n)) e en rest); try done. intros Hpre.
      assert (HK : K e `prefix_of` key).
      { rewrite (parent_key Hok _ _ _ _ He Hep), Hrest. by apply prefix_app, prefix_cons. }
      apply Hlong in HK; [|by eexists]. apply prefix_length in HK.
      rewrite (parent_key Hok _ _ _ _ He Hep), length_app in HK. cbn in HK. lia.
    + eexists. split; [done|]. cbn [prepare_ok]. split; [|split; [done|by left]].
      rewrite Hk at 1. f_equal. rewrite Hk. cbn. symmetry. apply drop_app_length'. rewrite length_app. cbn. lia.
  - cbn in Hs. destruct (root_index self) as [root|] eqn:Hr.
    + destruct (root_link Hok root Hr) as (nd & Hnd & Hp). apply (prepare_existing_spec K self key None None root nd key); try done.
      intros Hpre. apply (Hs root); [by eexists|]. by rewrite (key_eq Hok root nd Hnd), Hp.
    + eexists. split; [done|]. cbn. by auto.
Qed.

(** ** Insertion *)

Lemma slot_child_fresh self new n : nodes self !! new = None -> slot_child self (Some (new, n)) = None.
Proof. intros Hnew. cbn. by rewrite Hnew. Qed.

Lemma valid_slot_set self i nd s : valid_slot self s -> valid_slot (set_node self i nd) s.
Proof. destruct s as [[p n]|]; [|done]. intros [Hp Hn]. split; [|done]. cbn. rewrite lookup_insert. case_decide; [by eexists|done]. Qed.

Lemma one_child_len n (e : Z) : length (write_child no_children n (Some e)) = 16%nat.
Proof. unfold write_child. by rewrite length_insert. Qed.

(** A new node without children in an empty slot. *)
Lemma insert_leaf_run self s pk new u :
  children_16 self -> nodes self !! new = None -> valid_slot self s ->
  exists self', insert_one self (mkPrepareInsertOne s pk no_children) new u = Some self' /\
    (forall i, view_core self' i = if decide (i = new) then Some (s, pk, true, u) else view_core self i) /\
    (forall t, slot_child self' t = if decide (t = s) then Some new else slot_child self t) /\ children_16 self'.
Proof.
  intros H16 Hnew Hval. unfold insert_one. cbn [one_parent one_partial_key one_children]. rewrite update_children_none.
  set (nd := mkNode _ _ _ _ _). destruct (update_parent_view (set_node self new nd) s (Some new)) as (self' & -> & Hco & Hsl & H16' & _).
  { by apply children_16_set. } { by apply valid_slot_set. }
  exists self'. split; [done|]. split; [|split; [|done]].
  - intros i. rewrite Hco, view_core_set. done.
  - intros t. rewrite Hsl. case_decide; [done|]. rewrite slot_child_set. destruct t as [[p n]|]; [|done]. case_decide; [|done]. subst p.
    by rewrite (get_child_none nd), slot_child_fresh.
Qed.

(** A new node with the child [e], whose partial key is shortened. *)
Lemma insert_node_run self s pk m e en rest new b u :
  children_16 self -> nodes self !! new = None -> valid_slot self s -> is_nibble m -> nodes self !! e = Some en ->
  nd_partial_key en = pk ++ m :: rest -> is_usize (len (nd_partial_key en)) ->
  let nd := mkNode s pk (write_child no_children m (Some e)) b u in
  update_children (set_node self new nd) new (S (length pk)) 0 (write_child no_children m (Some e)) =
    Some (set_node (set_node self new nd) e (with_parent en (Some (new, m)) rest)).
Proof.
  intros H16 Hnew Hval Hm He Hpk Hlen nd. rewrite (update_children_one _ _ _ m e en); [|done| | |done].
  - do 3 f_equal. rewrite Hpk. change (m :: rest) with ([m] ++ rest). rewrite app_assoc. apply drop_app_length'. rewrite length_app. cbn. lia.
  - cbn. rewrite lookup_insert_ne by congruence. done.
  - rewrite Hpk, length_app. cbn. lia.
Qed.

Lemma insert_splice_run self s pk m e en rest new u :
  children_16 self -> nodes self !! new = None -> valid_slot self s -> is_nibble m -> nodes self !! e = Some en ->
  nd_partial_key en = pk ++ m :: rest -> is_usize (len (nd_partial_key en)) ->
  exists self', insert_one self (mkPrepareInsertOne s pk (write_child no_children m (Some e))) new u = Some self' /\
    (forall i, view_core self' i = if decide (i = new) then Some (s, pk, true, u) else
       if decide (i = e) then Some (Some (new, m), rest, nd_has_storage_value en, nd_user_data en) else view_core self i) /\
    (forall t, slot_child self' t = if decide (t = s) then Some new else
       if decide (t = Some (new, m)) then Some e else slot_child self t) /\ children_16 self'.
Proof.
  intros H16 Hnew Hval Hm He Hpk Hlen. unfold insert_one. cbn [one_parent one_partial_key one_children].
  rewrite (insert_node_run self s pk m e en rest new true u H16 Hnew Hval Hm He Hpk Hlen).
  set (nd := mkNode _ _ _ _ _). set (en' := with_parent _ _ _). assert (Hne : e <> new) by congruence.
  destruct (update_parent_view (set_node (set_node self new nd) e en') s (Some new)) as (self' & -> & Hco & Hsl & H16' & _).
  { apply children_16_set; [apply children_16_set; [done|apply one_child_len]|exact (H16 e en He)]. } { by apply valid_slot_set, valid_slot_set. }
  exists self'. split; [done|]. split; [|split; [|done]].
  - intros i. rewrite Hco, !view_core_set. repeat case_decide; congruence || done.
  - intros t. rewrite Hsl. case_decide; [done|].
    rewrite (slot_child_update _ e en) by (done || (cbn; by rewrite lookup_insert_ne)).
    rewrite slot_child_set. destruct t as [[p n]|]; [|by rewrite decide_False]. destruct (decide (p = new)) as [->|Hp].
    + rewrite (get_child_one nd m e n eq_refl Hm). destruct (decide (n = m)) as [->|]; [by rewrite decide_True|].
      rewrite decide_False by congruence. by rewrite slot_child_fresh.
    + rewrite decide_False by congruence. done.
Qed.

(** A branch node with the child [e] and the new storage node. *)
Lemma insert_two_run self s bpk m e en rest n spk nb ns u ub :
  children_16 self -> nodes self !! nb = None -> nodes self !! ns = None -> nb <> ns -> valid_slot self s ->
  is_nibble m -> is_nibble n -> m <> n -> nodes self !! e = Some en ->
  nd_partial_key en = bpk ++ m :: rest -> is_usize (len (nd_partial_key en)) ->
  exists self', insert_two self (mkPrepareInsertTwo n spk s bpk (write_child no_children m (Some e))) nb ns u ub = Some self' /\
    (forall i, view_core self' i = if decide (i = ns) then Some (Some (nb, n), spk, true, u) else
       if decide (i = nb) then Some (s, bpk, false, ub) else
       if decide (i = e) then Some (Some (nb, m), rest, nd_has_storage_value en, nd_user_data en) else view_core self i) /\
    (forall t, slot_child self' t = if decide (t = Some (nb, n)) then Some ns else if decide (t = s) then Some nb else
       if decide (t = Some (nb, m)) then Some e else slot_child self t) /\ children_16 self'.
Proof.
  intros H16 Hnb Hns Hne Hval Hm Hn Hmn He Hpk Hlen. unfold insert_two.
  cbn [branch_parent branch_partial_key branch_children storage_child_index storage_partial_key].
  set (bn := mkNode s _ _ _ ub). set (sn := mkNode _ spk _ _ u). set (self2 := set_node (set_node self nb bn) ns sn).
  assert (H16b : children_16 self2) by (apply children_16_set; [apply children_16_set; [done|apply one_child_len]|done]).
  assert (Hsl2 : forall t, slot_child self2 t = if decide (t = Some (nb, m)) then Some e else slot_child self t).
  { intros t. unfold self2. rewrite !slot_child_set. destruct t as [[p q]|]; [|by rewrite decide_False].
    destruct (decide (p = ns)) as [->|]; [rewrite (get_child_none sn) by done; rewrite decide_False by congruence; by rewrite slot_child_fresh|].
    destruct (decide (p = nb)) as [->|]; [|by rewrite decide_False by congruence].
    rewrite (get_child_one bn m e q eq_refl Hm). destruct (decide (q = m)) as [->|]; [by rewrite decide_True|].
    rewrite decide_False by congruence. by rewrite slot_child_fresh. }
  destruct (update_parent_view self2 (Some (nb, n)) (Some ns)) as (self3 & -> & Hco3 & Hsl3 & H163 & Hdom3); [done| |].
  { split; [|done]. unfold self2. cbn. rewrite lookup_insert_ne, lookup_insert_eq by done. by eexists. }
  assert (He3 : exists en3, nodes self3 !! e = Some en3 /\ core en3 = core en).
  { assert (Hv : view_core self3 e = Some (core en)).
    { rewrite Hco3. unfold self2. rewrite !view_core_set, !decide_False by congruence. unfold view_core. by rewrite He. }
    unfold view_core in Hv. apply fmap_Some in Hv as (en3 & ? & ?). eauto. }
  destruct He3 as (en3 & He3 & [= Hc1 Hc2 Hc3 Hc4]).
  rewrite (update_children_one self3 nb (S (length bpk)) m e en3); [|done|done|rewrite Hc2, Hpk, length_app; cbn; lia|by rewrite Hc2].
  assert (Hrest : drop (S (length bpk)) (nd_partial_key en3) = rest).
  { rewrite Hc2, Hpk. change (m :: rest) with ([m] ++ rest). rewrite app_assoc. apply drop_app_length'. rewrite length_app. cbn. lia. }
  rewrite Hrest. set (en' := with_parent _ _ _).
  destruct (update_parent_view (set_node self3 e en') s (Some nb)) as (self' & -> & Hco & Hsl & H16' & _).
  { apply children_16_set; [done|exact (H163 e en3 He3)]. }
  { apply valid_slot_set. destruct s as [[p q]|]; [|done]. destruct Hval as [Hp Hq]. split; [|done]. apply Hdom3. unfold self2. cbn.
    rewrite !lookup_insert. repeat case_decide; by eauto. }
  exists self'. split; [done|]. split; [|split; [|done]].
  - intros i. rewrite Hco, view_core_set, Hco3. unfold self2. rewrite !view_core_set. unfold core at 1. cbn. rewrite Hc3, Hc4.
    repeat case_decide; congruence || done.
  - intros t. rewrite Hsl, (slot_child_update _ e en3) by done. rewrite Hsl3, Hsl2.
    destruct (decide (t = s)) as [->|]; [|done]. rewrite decide_False; [done|].
    intros ->. destruct Hval as [[? ?] _]. congruence.
Qed.

(** The entries of a trie: a key, whether it has a storage value, and the user data. *)
Definition has_entry K self (k : list Nibble) (b : bool) (u : TUd) : Prop :=
  exists i nd, nodes self !! i = Some nd /\ K i = k /\ nd_has_storage_value nd = b /\ nd_user_data nd = u.

Definition node_data self (i : Z) : option (bool * TUd) :=
  (fun nd => (nd_has_storage_value nd, nd_user_data nd)) <$> nodes self !! i.

Lemma has_entry_data K self k b u : has_entry K self k b u <-> exists i, node_data self i = Some (b, u) /\ K i = k.
Proof.
  unfold has_entry, node_data. setoid_rewrite fmap_Some. split.
  - intros (i & nd & Hi & <- & <- & <-). exists i. split; [by exists nd|done].
  - intros (i & (nd & Hi & [= -> ->]) & <-). by exists i, nd.
Qed.

Lemma node_data_view self i : node_data self i = (fun '(_, _, b, u) => (b, u)) <$> view_core self i.
Proof. unfold node_data, view_core. by destruct (nodes self !! i). Qed.

(** The entries after a new node. *)
Lemma entries_new K self self' new key b0 u0 :
  nodes self !! new = None -> (forall i, node_data self' i = if decide (i = new) then Some (b0, u0) else node_data self i) ->
  forall k b u, has_entry (<[new := key]> K) self' k b u <-> (k = key /\ b = b0 /\ u = u0) \/ has_entry K self k b u.
Proof.
  intros Hnew Hd k b u. rewrite !has_entry_data. assert (Hn : node_data self new = None) by (unfold node_data; by rewrite Hnew). split.
  - intros (i & Hi & HK). rewrite Hd in Hi. destruct (decide (i = new)) as [->|Hne].
    + left. rewrite fn_lookup_insert in HK. naive_solver.
    + right. exists i. by rewrite fn_lookup_insert_ne in HK.
  - intros [(-> & -> & ->)|(i & Hi & HK)].
    + exists new. by rewrite Hd, decide_True, fn_lookup_insert.
    + exists i. rewrite Hd, decide_False, fn_lookup_insert_ne by congruence. done.
Qed.

(** Nodes that keep their children keep the condition on branches. *)
Lemma view_branches_mono (co co' : Z -> option (slot * list Nibble * bool * TUd)) (sl sl' : slot -> option Z) :
  view_branches co sl -> (forall i n, is_Some (co i) -> is_Some (sl (Some (i, n))) -> is_Some (sl' (Some (i, n)))) ->
  (forall i s pk u, co' i = Some (s, pk, false, u) -> (exists s' pk', co i = Some (s', pk', false, u)) \/
     exists n m, n <> m /\ is_Some (sl' (Some (i, n))) /\ is_Some (sl' (Some (i, m)))) ->
  view_branches co' sl'.
Proof.
  intros Hb Hsl Hco i s pk u Hi. destruct (Hco _ _ _ _ Hi) as [(s' & pk' & Hi')|]; [|done].
  destruct (Hb _ _ _ _ Hi') as (n & m & Hnm & Hn & Hm). exists n, m. split; [done|]. split; apply Hsl; by eauto.
Qed.

Section insertion.
Context {K : Z -> list Nibble} {self : TrieStructure TUd}.
Context (Hinv : trie_inv K self).

Lemma inv_parts :
  view_links K (view_core self) (slot_child self) /\ view_branches (view_core self) (slot_child self) /\ children_16 self.
Proof. by apply trie_inv_view. Qed.

Lemma view_fresh new : nodes self !! new = None -> view_core self new = None.
Proof. intros Hnew. unfold view_core. by rewrite Hnew. Qed.

Lemma view_lookup i nd : nodes self !! i = Some nd ->
  view_core self i = Some (nd_parent nd, nd_partial_key nd, nd_has_storage_value nd, nd_user_data nd).
Proof. intros Hi. unfold view_core. by rewrite Hi. Qed.

(** The node in a slot. *)
Lemma slot_node s e en : slot_child self s = Some e -> nodes self !! e = Some en -> nd_parent en = s.
Proof.
  intros Hs He. apply (lk_link _ _ (tv_links _ _ Hinv)) in Hs as (en' & He' & <-). congruence.
Qed.

Lemma partial_len i nd : nodes self !! i = Some nd -> is_usize (len (nd_partial_key nd)).
Proof.
  intros Hi. destruct (lk_node _ _ (tv_links _ _ Hinv) i nd Hi) as [_ _ _ HK Hlen]. rewrite HK in Hlen.
  unfold len, is_uint in *. rewrite length_app in Hlen. lia.
Qed.

Lemma insert_leaf_spec s pk new u :
  nodes self !! new = None -> 0 <= new < usize_max -> valid_slot self s -> slot_child self s = None ->
  Forall (is_uint 4) pk -> is_usize (len (slot_key K s ++ pk)) ->
  exists self', insert_one self (mkPrepareInsertOne s pk no_children) new u = Some self' /\
    trie_inv (<[new := slot_key K s ++ pk]> K) self' /\
    (forall i, view_core self' i = if decide (i = new) then Some (s, pk, true, u) else view_core self i).
Proof.
  intros Hnew Hidx Hval Hs Hpk Hlen. destruct inv_parts as (Hl & Hb & H16).
  destruct (insert_leaf_run self s pk new u H16 Hnew Hval) as (self' & Hrun & Hco & Hsl & H16').
  exists self'. split; [done|]. split; [|done]. apply trie_inv_view. split; [|split; [|done]].
  - eapply (add_leaf_view Hl new s pk true u); try done; [by apply view_fresh|by apply valid_slot_view].
  - eapply view_branches_mono; [exact Hb|..].
    + intros i n _ Hi. rewrite Hsl. case_decide; [by eexists|done].
    + intros i t pk' u'. rewrite Hco. case_decide; [congruence|]. left. eauto.
Qed.

Lemma insert_splice_spec s pk m e en rest new u :
  nodes self !! new = None -> 0 <= new < usize_max -> slot_child self s = Some e -> nodes self !! e = Some en ->
  nd_partial_key en = pk ++ m :: rest ->
  exists self', insert_one self (mkPrepareInsertOne s pk (write_child no_children m (Some e))) new u = Some self' /\
    trie_inv (<[new := slot_key K s ++ pk]> K) self' /\
    (forall i, view_core self' i = if decide (i = new) then Some (s, pk, true, u) else
       if decide (i = e) then Some (Some (new, m), rest, nd_has_storage_value en, nd_user_data en) else view_core self i).
Proof.
  intros Hnew Hidx Hs He Hpk. destruct inv_parts as (Hl & Hb & H16). pose proof (view_lookup e en He) as Hve.
  rewrite (slot_node s e en Hs He), Hpk in Hve. destruct (slot_of_node Hl _ _ _ _ _ Hve) as [_ Hval%valid_slot_view].
  assert (Hm : is_nibble m).
  { destruct (vl_node _ _ _ Hl _ _ _ _ _ Hve) as (_ & Hnib & _). by apply Forall_app in Hnib as [_ [? _]%Forall_cons]. }
  destruct (insert_splice_run self s pk m e en rest new u H16 Hnew Hval Hm He Hpk (partial_len e en He)) as (self' & Hrun & Hco & Hsl & H16').
  exists self'. split; [done|]. split; [|done]. apply trie_inv_view. split; [|split; [|done]].
  - eapply (splice_view Hl new e s pk m rest true u); try done. by apply view_fresh.
  - eapply view_branches_mono; [exact Hb|..].
    + intros i n _ Hi. rewrite Hsl. repeat case_decide; by eauto.
    + intros i t pk' u'. rewrite Hco. case_decide; [congruence|]. case_decide; [|by eauto]. intros [= <- <- Hsv <-]. subst i.
      left. rewrite Hve, Hsv. eauto.
Qed.

Lemma insert_two_spec s bpk m e en rest n spk nb ns u ub :
  nodes self !! nb = None -> nodes self !! ns = None -> nb <> ns -> 0 <= nb < usize_max -> 0 <= ns < usize_max ->
  slot_child self s = Some e -> nodes self !! e = Some en -> nd_partial_key en = bpk ++ m :: rest -> m <> n ->
  Forall (is_uint 4) (n :: spk) -> is_usize (len (slot_key K s ++ bpk ++ n :: spk)) ->
  exists self', insert_two self (mkPrepareInsertTwo n spk s bpk (write_child no_children m (Some e))) nb ns u ub = Some self' /\
    trie_inv (<[ns := slot_key K s ++ bpk ++ n :: spk]> (<[nb := slot_key K s ++ bpk]> K)) self' /\
    (forall i, view_core self' i = if decide (i = ns) then Some (Some (nb, n), spk, true, u) else
       if decide (i = nb) then Some (s, bpk, false, ub) else
       if decide (i = e) then Some (Some (nb, m), rest, nd_has_storage_value en, nd_user_data en) else view_core self i).
Proof.
  intros Hnb Hns Hne Hib His Hs He Hpk Hmn [Hn Hspk]%Forall_cons Hlen. destruct inv_parts as (Hl & Hb & H16).
  pose proof (view_lookup e en He) as Hve.
  rewrite (slot_node s e en Hs He), Hpk in Hve. destruct (slot_of_node Hl _ _ _ _ _ Hve) as [_ Hval].
  assert (Hm : is_nibble m).
  { destruct (vl_node _ _ _ Hl _ _ _ _ _ Hve) as (_ & Hnib & _). by apply Forall_app in Hnib as [_ [? _]%Forall_cons]. }
  apply valid_slot_view in Hval.
  destruct (insert_two_run self s bpk m e en rest n spk nb ns u ub H16 Hnb Hns Hne Hval Hm Hn Hmn He Hpk (partial_len e en He))
    as (self' & Hrun & Hco & Hsl & H16').
  exists self'. split; [done|]. split; [|done]. apply trie_inv_view.
  set (co1 := fun i => if decide (i = nb) then Some (s, bpk, false, ub) else
    if decide (i = e) then Some (Some (nb, m), rest, nd_has_storage_value en, nd_user_data en) else view_core self i).
  set (sl1 := fun t => if decide (t = s) then Some nb else if decide (t = Some (nb, m)) then Some e else slot_child self t).
  assert (Hl1 : view_links (<[nb := slot_key K s ++ bpk]> K) co1 sl1).
  { eapply (splice_view Hl nb e s bpk m rest false ub); try done. by apply view_fresh. }
  assert (Hkey : slot_key (<[nb := slot_key K s ++ bpk]> K) (Some (nb, n)) ++ spk = slot_key K s ++ bpk ++ n :: spk).
  { cbn. rewrite fn_lookup_insert, <- !app_assoc. done. }
  split; [|split; [|done]].
  - rewrite <- Hkey. eapply (add_leaf_view Hl1 ns (Some (nb, n)) spk true u); try done.
    + unfold co1. rewrite !decide_False by congruence. by apply view_fresh.
    + unfold sl1. rewrite decide_False; [|intros <-; destruct Hval as [[? ?] _]; congruence].
      rewrite decide_False by congruence. by apply slot_child_fresh.
    + split; [|done]. unfold co1. rewrite decide_True by done. by eexists.
    + by rewrite Hkey.
  - eapply view_branches_mono; [exact Hb|..].
    + intros i q _ Hi. rewrite Hsl. repeat case_decide; by eauto.
    + intros i t pk' u'. rewrite Hco. case_decide; [congruence|]. case_decide.
      * intros _. subst i. right. exists m, n. split; [done|]. rewrite !Hsl. split; repeat case_decide; by eauto.
      * case_decide; [|by eauto]. intros [= <- <- Hsv <-]. subst i. left. rewrite Hve, Hsv. eauto.
Qed.

(** The insertion that is prepared for a key. *)
Lemma prepare_insert_spec key prepare nb ns u ub :
  Forall (is_uint 4) key -> is_usize (len key) -> prepare_ok K self key prepare ->
  nodes self !! nb = None -> nodes self !! ns = None -> nb <> ns -> 0 <= nb < usize_max -> 0 <= ns < usize_max ->
  exists self' K', prepare_insert self prepare nb ns u ub = Some self' /\ trie_inv K' self' /\ K' ns = key /\
    (forall i, is_Some (nodes self !! i) -> K' i = K i) /\
    forall k b v, has_entry K' self' k b v <-> has_entry K self k b v \/ (k = key /\ b = true /\ v = u) \/
      match prepare with
      | InsertOne _ => False
      | InsertTwo n => k = slot_key K (branch_parent n) ++ branch_partial_key n /\ b = false /\ v = ub
      end.
Proof.
  intros Hkey Hlen Hprep Hnb Hns Hne Hib His. destruct prepare as [[s pk ch]|[n spk s bpk ch]]; cbn in Hprep |- *.
  - destruct Hprep as (-> & Hval & Hch). apply Forall_app in Hkey as [_ Hpk].
    assert (Hold : forall i, is_Some (nodes self !! i) -> <[ns := slot_key K s ++ pk]> K i = K i).
    { intros i [nd Hi]. rewrite fn_lookup_insert_ne; congruence. }
    destruct Hch as [[Hs ->]|(m & e & en & rest & Hs & He & Hpe & ->)].
    + destruct (insert_leaf_spec s pk ns u Hns His Hval Hs Hpk Hlen) as (self' & Hrun & Hinv' & Hco).
      exists self', (<[ns := slot_key K s ++ pk]> K). rewrite fn_lookup_insert. split_and!; try done.
      intros k b v. rewrite (entries_new K self self' ns (slot_key K s ++ pk) true u Hns); [tauto|].
      intros i. rewrite !node_data_view, Hco. by case_decide.
    + destruct (insert_splice_spec s pk m e en rest ns u Hns His Hs He Hpe) as (self' & Hrun & Hinv' & Hco).
      exists self', (<[ns := slot_key K s ++ pk]> K). rewrite fn_lookup_insert. split_and!; try done.
      intros k b v. rewrite (entries_new K self self' ns (slot_key K s ++ pk) true u Hns); [tauto|].
      intros i. rewrite !node_data_view, Hco. case_decide; [done|]. case_decide; [|done]. subst i. by rewrite (view_lookup e en He).
  - destruct Hprep as (-> & Hval & m & Hmn & e & en & rest & Hs & He & Hpe & ->).
    apply Forall_app in Hkey as [_ [_ Hpk]%Forall_app].
    destruct (insert_two_spec s bpk m e en rest n spk nb ns u ub Hnb Hns Hne Hib His Hs He Hpe Hmn Hpk Hlen) as (self' & Hrun & Hinv' & Hco).
    exists self', (<[ns := slot_key K s ++ bpk ++ n :: spk]> (<[nb := slot_key K s ++ bpk]> K)).
    rewrite fn_lookup_insert. split_and!; try done.
    + intros i [nd Hi]. rewrite !fn_lookup_insert_ne; congruence.
    + set (self1 := set_node self nb (mkNode s bpk [] false ub)). intros k b v.
      rewrite (entries_new _ self1 self' ns (slot_key K s ++ bpk ++ n :: spk) true u), (entries_new K self self1 nb (slot_key K s ++ bpk) false ub Hnb).
      * tauto.
      * intros i. rewrite !node_data_view. unfold self1. rewrite view_core_set. by case_decide.
      * cbn. rewrite lookup_insert_ne by done. done.
      * intros i. rewrite !node_data_view, Hco. unfold self1. rewrite view_core_set. case_decide; [done|]. case_decide; [done|].
        case_decide; [|done]. subst i. by rewrite (view_lookup e en He).
Qed.

End insertion.
(** ** Removal *)

Definition delete_node self (i : Z) : TrieStructure TUd := mkTrieStructure (delete i (nodes self)) (root_index self).

(** A node with at most one child is removed, its child takes its slot. *)
Definition remove_node self (i : Z) nd : option (TrieStructure TUd) :=
  let! t :=
    match first_child (nd_children nd) with
    | Some c => replace_parent (delete_node self i) c nd
    | None => Some (delete_node self i)
    end in
  update_parent t (nd_parent nd) (first_child (nd_children nd)).

Lemma view_core_delete self i j : view_core (delete_node self i) j = if decide (j = i) then None else view_core self j.
Proof. unfold view_core. cbn. rewrite lookup_delete. destruct (decide (i = j)), (decide (j = i)); done || congruence. Qed.

Lemma slot_child_delete self i t :
  slot_child (delete_node self i) t =
  match t with Some (p, n) => if decide (p = i) then None else slot_child self t | None => root_index self end.
Proof. destruct t as [[p n]|]; [|done]. cbn. rewrite lookup_delete. destruct (decide (i = p)), (decide (p = i)); done || congruence. Qed.

Lemma children_16_delete self i : children_16 self -> children_16 (delete_node self i).
Proof. intros H16 j nd Hj. cbn in Hj. apply lookup_delete_Some in Hj as [_ Hj]. by apply (H16 j). Qed.

Lemma replace_parent_run self c cn p m nd :
  nodes self !! c = Some cn -> nd_parent cn = Some (p, m) ->
  replace_parent self c nd = Some (set_node self c (with_parent cn (nd_parent nd) (nd_partial_key nd ++ m :: nd_partial_key cn))).
Proof. intros Hc Hp. unfold replace_parent. rewrite Hc, Hp, insert_front_spec. done. Qed.

(** The node in a slot that is not its own. *)
Lemma parent_not_self K self i nd n : links_ok K self -> nodes self !! i = Some nd -> nd_parent nd <> Some (i, n).
Proof.
  intros Hok Hi Hp. pose proof (parent_key Hok _ _ _ _ Hi Hp) as HK. apply (f_equal length) in HK. rewrite length_app in HK. cbn in HK. lia.
Qed.

Lemma parent_valid K self i nd : links_ok K self -> nodes self !! i = Some nd -> valid_slot self (nd_parent nd).
Proof.
  intros Hok Hi. destruct (nd_parent nd) as [[p n]|] eqn:Hp; [|done]. destruct (parent_link Hok _ _ _ _ Hi Hp) as (pn & Hpn & _ & Hn).
  split; [by eexists|done].
Qed.

Lemma valid_slot_delete K self i nd :
  links_ok K self -> nodes self !! i = Some nd -> valid_slot (delete_node self i) (nd_parent nd).
Proof.
  intros Hok Hi. pose proof (parent_valid _ _ _ _ Hok Hi) as Hv. pose proof (fun n => parent_not_self _ _ _ _ n Hok Hi) as Hno.
  destruct (nd_parent nd) as [[p n]|]; [|done]. destruct Hv as [Hp Hn]. split; [|done]. cbn. rewrite lookup_delete_ne; [done|].
  intros ->. by apply (Hno n).
Qed.

(** The result of [remove_node]. *)
Record node_removed K self (i : Z) nd (self' : TrieStructure TUd) : Prop := {
  nr_links : links_ok K self';
  nr_data : forall j, node_data self' j = if decide (j = i) then None else node_data self j;
  nr_slots : forall t, slot_child self' t = if decide (t = nd_parent nd) then first_child (nd_children nd) else
    match t with Some (p, _) => if decide (p = i) then None else slot_child self t | None => slot_child self t end;
  nr_core : forall j, j <> i -> Some j <> first_child (nd_children nd) -> view_core self' j = view_core self j
}.

Lemma remove_leaf_run K self i nd :
  links_ok K self -> nodes self !! i = Some nd -> first_child (nd_children nd) = None ->
  exists self', remove_node self i nd = Some self' /\ node_removed K self i nd self'.
Proof.
  intros Hok Hi Hno. unfold remove_node. rewrite Hno. pose proof (proj1 (links_ok_view K self) Hok) as [Hl H16].
  destruct (update_parent_view (delete_node self i) (nd_parent nd) None) as (self' & -> & Hco & Hsl & H16' & _).
  { by apply children_16_delete. } { by eapply valid_slot_delete. }
  exists self'. split; [done|]. pose proof (proj1 (first_child_none (H16 i nd Hi)) Hno) as Hnone.
  assert (Hslots : forall t, slot_child self' t = if decide (t = nd_parent nd) then None else slot_child self t).
  { intros t. rewrite Hsl. case_decide; [done|]. rewrite slot_child_delete. destruct t as [[p n]|]; [|done]. case_decide; [|done]. subst.
    cbn. rewrite Hi. cbn. by rewrite Hnone. }
  split.
  - apply links_ok_view. split; [|done]. eapply (drop_leaf_view Hl i); [by apply view_lookup| | |done].
    + intros n. cbn. rewrite Hi. apply Hnone.
    + intros j. by rewrite Hco, view_core_delete.
  - intros j. rewrite !node_data_view, Hco, view_core_delete. by case_decide.
  - intros t. rewrite Hsl, Hno, slot_child_delete. by destruct t as [[p n]|].
  - intros j Hj _. by rewrite Hco, view_core_delete, decide_False.
Qed.

Lemma remove_inner_run K self i nd c :
  links_ok K self -> nodes self !! i = Some nd -> first_child (nd_children nd) = Some c ->
  ~ (2 <= num_children (nd_children nd))%nat ->
  exists self', remove_node self i nd = Some self' /\ node_removed K self i nd self'.
Proof.
  intros Hok Hi Hfc Hnum. unfold remove_node. rewrite Hfc. pose proof (proj1 (links_ok_view K self) Hok) as [Hl H16].
  destruct (first_child_one (H16 i nd Hi) c Hfc Hnum) as (m & Hm & Hother).
  destruct (child_link Hok i nd m c Hi Hm) as (cn & Hc & Hcp).
  assert (Hci : c <> i). { intros ->. rewrite Hi in Hc. injection Hc as <-. by apply (parent_not_self _ _ _ _ m Hok Hi). }
  assert (Hcd : nodes (delete_node self i) !! c = Some cn) by (cbn; by rewrite lookup_delete_ne).
  rewrite (replace_parent_run _ c cn i m nd Hcd Hcp). set (cn' := with_parent _ _ _).
  destruct (update_parent_view (set_node (delete_node self i) c cn') (nd_parent nd) (Some c)) as (self' & -> & Hco & Hsl & H16' & _).
  { apply children_16_set; [by apply children_16_delete|exact (H16 c cn Hc)]. } { by eapply valid_slot_set, valid_slot_delete. }
  exists self'. split; [done|].
  assert (Hslots : forall t, slot_child self' t = if decide (t = nd_parent nd) then Some c else
    if decide (t = Some (i, m)) then None else slot_child self t).
  { intros t. rewrite Hsl. case_decide; [done|]. rewrite (slot_child_update _ c cn) by done. rewrite slot_child_delete.
    destruct t as [[p n]|]; [|done]. destruct (decide (p = i)) as [->|]; [|by rewrite decide_False by congruence].
    case_decide; [done|]. cbn. rewrite Hi. cbn. rewrite Hother; [done|]. congruence. }
  assert (Hcore : forall j, view_core self' j = if decide (j = i) then None else if decide (j = c) then
    Some (nd_parent nd, nd_partial_key nd ++ m :: nd_partial_key cn, nd_has_storage_value cn, nd_user_data cn) else view_core self j).
  { intros j. rewrite Hco, view_core_set, view_core_delete. repeat case_decide; congruence || done. }
  split.
  - apply links_ok_view. split; [|done].
    eapply (unsplice_view Hl i (nd_parent nd) (nd_partial_key nd) _ _ m c (nd_partial_key cn)); [by apply view_lookup| | |exact Hcore|exact Hslots].
    + rewrite (view_lookup c cn Hc), Hcp. done.
    + intros n Hn. cbn. rewrite Hi. by apply Hother.
  - intros j. rewrite !node_data_view, Hcore. case_decide; [done|]. case_decide; [|done]. subst. by rewrite (view_lookup c cn Hc).
  - intros t. rewrite Hsl, Hfc, (slot_child_update _ c cn) by done. rewrite slot_child_delete. by destruct t as [[p n]|].
  - intros j Hj Hjc. rewrite Hcore, !decide_False; congruence.
Qed.

Lemma remove_node_run K self i nd :
  links_ok K self -> nodes self !! i = Some nd -> ~ (2 <= num_children (nd_children nd))%nat ->
  exists self', remove_node self i nd = Some self' /\ node_removed K self i nd self'.
Proof.
  intros Hok Hi Hnum. destruct (first_child (nd_children nd)) as [c|] eqn:Hfc; [by eapply remove_inner_run|by eapply remove_leaf_run].
Qed.

(** What the removal of a storage value returns, and the trie after it. *)
Inductive remove_outcome K self (i : Z) nd : Remove TUd -> TrieStructure TUd -> Prop :=
  | outcome_branch :
      (2 <= num_children (nd_children nd))%nat ->
      remove_outcome K self i nd (StorageToBranch i) (set_node self i (with_storage_value nd false))
  | outcome_child c acc self' :
      first_child (nd_children nd) = Some c -> node_removed K self i nd self' -> node_by_index_inner self' c = Some acc ->
      remove_outcome K self i nd (SingleRemoveChild acc (nd_user_data nd)) self'
  | outcome_parent p n acc self' :
      first_child (nd_children nd) = None -> nd_parent nd = Some (p, n) -> node_removed K self i nd self' ->
      node_by_index_inner self' p = Some acc ->
      remove_outcome K self i nd (SingleRemoveNoChild acc (nd_user_data nd)) self'
  | outcome_empty self' :
      first_child (nd_children nd) = None -> nd_parent nd = None -> node_removed K self i nd self' ->
      remove_outcome K self i nd (TrieNowEmpty (nd_user_data nd)) self'
  | outcome_two p n pn sibling acc self1 self' :
      first_child (nd_children nd) = None -> nd_parent nd = Some (p, n) -> node_removed K self i nd self1 ->
      nodes self1 !! p = Some pn -> nd_has_storage_value pn = false -> first_child (nd_children pn) = Some sibling ->
      node_removed K self1 p pn self' -> node_by_index_inner self' sibling = Some acc ->
      remove_outcome K self i nd (BranchAlsoRemoved acc (nd_user_data nd) (nd_user_data pn)) self'.

Section removal.
Context {K : Z -> list Nibble} {self : TrieStructure TUd} {i : Z} {nd : Node TUd}.

(** A removal keeps the condition on branches, except for the parent. *)
Lemma removed_branches self' :
  links_ok K self -> nodes self !! i = Some nd -> node_removed K self i nd self' ->
  (forall j jn, nodes self !! j = Some jn -> j <> i -> nd_has_storage_value jn = false -> (2 <= num_children (nd_children jn))%nat) ->
  forall j jn, nodes self' !! j = Some jn -> nd_has_storage_value jn = false ->
    (forall n, nd_parent nd = Some (j, n) -> is_Some (first_child (nd_children nd)) \/ (2 <= num_children (nd_children jn))%nat) ->
    (2 <= num_children (nd_children jn))%nat.
Proof.
  intros Hok Hi Hrm Hb j jn Hj Hsv Hpar. pose proof (proj1 (links_ok_view K self) Hok) as [_ H16].
  pose proof (proj1 (links_ok_view K self') (nr_links _ _ _ _ _ Hrm)) as [_ H16'].
  destruct (decide (fst <$> nd_parent nd = Some j /\ first_child (nd_children nd) = None)) as [[Hp Hn]|Hno].
  { apply fmap_Some in Hp as ([p n] & Hp & ->). destruct (Hpar n Hp) as [[? ?]|]; [congruence|done]. }
  pose proof (nr_data _ _ _ _ _ Hrm j) as Hd. unfold node_data in Hd. rewrite Hj in Hd. cbn in Hd.
  destruct (decide (j = i)) as [->|Hji]; [done|]. destruct (nodes self !! j) as [jn0|] eqn:Hj0; [|done]. cbn in Hd.
  injection Hd as Hsv0 _. rewrite Hsv in Hsv0. apply (num_children_two (H16' j jn Hj)).
  destruct (proj1 (num_children_two (H16 j jn0 Hj0)) (Hb j jn0 Hj0 Hji (eq_sym Hsv0))) as (n & m & Hnm & Hn & Hm).
  assert (Hstay : forall q, is_Some (get_child jn0 q) -> is_Some (get_child jn q)).
  { intros q Hq. pose proof (nr_slots _ _ _ _ _ Hrm (Some (j, q))) as Hs. cbn in Hs. rewrite Hj, Hj0 in Hs. cbn in Hs. rewrite Hs.
    destruct (decide (Some (j, q) = nd_parent nd)) as [E|E]; [|by rewrite decide_False].
    destruct (first_child (nd_children nd)) eqn:Hfc; [by eexists|]. exfalso. apply Hno. by rewrite <- E. }
  exists n, m. split; [done|]. split; by apply Hstay.
Qed.

Lemma removed_lookup self' j :
  node_removed K self i nd self' -> is_Some (nodes self' !! j) <-> j <> i /\ is_Some (nodes self !! j).
Proof.
  intros Hrm. pose proof (nr_data _ _ _ _ _ Hrm j) as Hd. unfold node_data in Hd.
  rewrite <- (fmap_is_Some (fun nd => (nd_has_storage_value nd, nd_user_data nd)) (nodes self' !! j)), Hd.
  case_decide as E; [|by rewrite fmap_is_Some; naive_solver]. split; [by intros []|by intros []].
Qed.

(** The child that takes the slot of a removed node is a node. *)
Lemma removed_first_child self' c :
  links_ok K self -> nodes self !! i = Some nd -> node_removed K self i nd self' -> first_child (nd_children nd) = Some c ->
  is_Some (nodes self' !! c).
Proof.
  intros Hok Hi Hrm Hfc. pose proof (nr_slots _ _ _ _ _ Hrm (nd_parent nd)) as Hs. rewrite decide_True, Hfc in Hs by done.
  apply (lk_link _ _ (nr_links _ _ _ _ _ Hrm)) in Hs as (cn & Hc & _). by eexists.
Qed.

End removal.

Lemma node_access self j : is_Some (nodes self !! j) -> exists acc, node_by_index_inner self j = Some acc /\ access_node_index acc = j.
Proof. intros [jn Hj]. unfold node_by_index_inner. rewrite Hj. eexists. split; [done|]. by destruct (nd_has_storage_value jn). Qed.

Lemma trie_remove_alt self i nd :
  nodes self !! i = Some nd -> ~ (2 <= num_children (nd_children nd))%nat ->
  trie_remove self i =
  let! t := remove_node self i nd in
  let! single_remove := keeps_parent t (nd_parent nd) in
  if single_remove then
    match first_child (nd_children nd), nd_parent nd with
    | Some c, _ => let! child := node_by_index_inner t c in Some (SingleRemoveChild child (nd_user_data nd), t)
    | None, Some (p, _) => let! parent := node_by_index_inner t p in Some (SingleRemoveNoChild parent (nd_user_data nd), t)
    | None, None => Some (TrieNowEmpty (nd_user_data nd), t)
    end
  else let! (p, _) := nd_parent nd in remove_branch t p (nd_user_data nd).
Proof.
  intros Hi Hnum. unfold trie_remove. rewrite Hi. destruct (Nat.leb_spec 2 (num_children (nd_children nd))) as [?|_]; [lia|].
  unfold remove_node. fold (delete_node self i).
  destruct (match first_child (nd_children nd) with Some c => replace_parent (delete_node self i) c nd | None => Some (delete_node self i) end); done.
Qed.

Lemma remove_branch_alt self p pn c u :
  nodes self !! p = Some pn -> first_child (nd_children pn) = Some c ->
  remove_branch self p u =
  let! t := remove_node self p pn in
  let! sibling := node_by_index_inner t c in Some (BranchAlsoRemoved sibling u (nd_user_data pn), t).
Proof.
  intros Hp Hc. unfold remove_branch, remove_node. rewrite Hp. fold (delete_node self p). rewrite Hc.
  by destruct (replace_parent (delete_node self p) c pn).
Qed.

(** The data of a node does not matter to the links. *)
Lemma view_links_data K (co co' : Z -> option (slot * list Nibble * bool * TUd)) (sl sl' : slot -> option Z) :
  view_links K co sl -> (forall j, fst ∘ fst <$> co' j = fst ∘ fst <$> co j) -> (forall t, sl' t = sl t) -> view_links K co' sl'.
Proof.
  intros [H1 H2 H3] Hco Hsl. assert (Hco' : forall j s pk, (exists b u, co' j = Some (s, pk, b, u)) <-> exists b u, co j = Some (s, pk, b, u)).
  { intros j s pk. specialize (Hco j). destruct (co j) as [[[[s1 pk1] b1] u1]|], (co' j) as [[[[s2 pk2] b2] u2]|]; naive_solver. }
  split.
  - intros s j. rewrite Hsl, H1. split.
    + intros (pk & Hj). apply Hco' in Hj as (b & u & Hj). eauto.
    + intros (pk & b & u & Hj). destruct (proj1 (Hco' j s pk)) as (b' & u' & Hj'); eauto.
  - intros p n j. rewrite Hsl. intros [[[[[s pk] b] u] Hp] Hn]%H2. split; [|done].
    destruct (proj2 (Hco' p s pk)) as (b' & u' & Hp'); [by eauto|by eexists].
  - intros j s pk b u Hj. destruct (proj1 (Hco' j s pk)) as (b' & u' & Hj'); [by eauto|]. by eapply H3.
Qed.

Lemma keeps_parent_spec K self i nd self1 :
  trie_inv K self -> nodes self !! i = Some nd -> node_removed K self i nd self1 ->
  exists b, keeps_parent self1 (nd_parent nd) = Some b /\ (b = true -> trie_inv K self1) /\
    (b = false -> first_child (nd_children nd) = None /\ is_Some (nd_parent nd)).
Proof.
  intros [Hok Hb] Hi Hrm. pose proof (nr_links _ _ _ _ _ Hrm) as Hok1.
  assert (Hother : forall j jn, nodes self1 !! j = Some jn -> nd_has_storage_value jn = false ->
    (forall n, nd_parent nd = Some (j, n) -> is_Some (first_child (nd_children nd)) \/ (2 <= num_children (nd_children jn))%nat) ->
    (2 <= num_children (nd_children jn))%nat).
  { eapply (removed_branches self1 Hok Hi Hrm). intros j jn Hj _. by apply (Hb j). }
  destruct (nd_parent nd) as [[p n]|] eqn:Hp; cbn [keeps_parent].
  - destruct (parent_link Hok _ _ _ _ Hi Hp) as (pn0 & Hpn0 & _).
    destruct (proj2 (removed_lookup self1 p Hrm)) as [pn Hpn].
    { split; [|by eexists]. intros ->. by apply (parent_not_self K self i nd n Hok Hi). }
    rewrite Hpn. eexists. split; [done|]. split.
    + intros Hkeep. split; [done|]. intros j jn Hj Hsv. apply (Hother j jn Hj Hsv). intros q [= <- <-].
      rewrite Hpn in Hj. injection Hj as <-. rewrite Hsv in Hkeep. cbn [orb] in Hkeep. apply Nat.leb_le in Hkeep. by right.
    + intros [Hsv Hnum%Nat.leb_gt]%orb_false_iff. split; [|by eexists]. destruct (first_child (nd_children nd)) as [c|] eqn:Hfc; [|done].
      exfalso. specialize (Hother p pn Hpn Hsv (fun _ _ => or_introl (ex_intro _ c eq_refl))). lia.
  - exists true. split; [done|]. split; [|done]. intros _. split; [done|]. intros j jn Hj Hsv. by apply (Hother j jn Hj Hsv).
Qed.

(** The parent of the removed node is removed too. *)
Lemma remove_branch_run K self i nd self1 p n :
  trie_inv K self -> nodes self !! i = Some nd -> first_child (nd_children nd) = None -> nd_parent nd = Some (p, n) ->
  node_removed K self i nd self1 -> keeps_parent self1 (nd_parent nd) = Some false ->
  exists r self', remove_branch self1 p (nd_user_data nd) = Some (r, self') /\
    remove_outcome K self i nd r self' /\ trie_inv K self'.
Proof.
  intros [Hok Hb] Hi Hfc Hp Hrm Hkeep. pose proof (nr_links _ _ _ _ _ Hrm) as Hok1.
  pose proof (proj1 (links_ok_view K self) Hok) as [_ H16]. pose proof (proj1 (links_ok_view K self1) Hok1) as [_ H161].
  rewrite Hp in Hkeep. cbn [keeps_parent] in Hkeep. destruct (nodes self1 !! p) as [pn|] eqn:Hpn; [|done].
  apply (inj Some), orb_false_iff in Hkeep as [Hsv Hnum%Nat.leb_gt].
  (* Before the removal the parent had two children: one of them stays. *)
  assert (Hsib : is_Some (first_child (nd_children pn))).
  { destruct (first_child (nd_children pn)) as [c|] eqn:Hc; [by eexists|]. exfalso. rewrite (first_child_none (H161 p pn Hpn)) in Hc.
    destruct (parent_link Hok _ _ _ _ Hi Hp) as (pn0 & Hpn0 & _).
    pose proof (nr_data _ _ _ _ _ Hrm p) as Hd. unfold node_data in Hd. rewrite Hpn, Hpn0 in Hd. cbn in Hd.
    destruct (decide (p = i)) as [->|Hpi]; [done|]. injection Hd as Hsv0 _. rewrite Hsv in Hsv0.
    destruct (proj1 (num_children_two (H16 p pn0 Hpn0)) (Hb p pn0 Hpn0 (eq_sym Hsv0))) as (a & b & Hab & Ha & Hb').
    assert (Hstay : forall q, q <> n -> get_child pn0 q = None).
    { intros q Hq. pose proof (nr_slots _ _ _ _ _ Hrm (Some (p, q))) as Hs. cbn in Hs. rewrite Hpn, Hpn0 in Hs. cbn in Hs.
      rewrite Hc, decide_False, decide_False in Hs; [done|done|]. rewrite Hp. congruence. }
    destruct (decide (a = n)) as [->|Han]; [|rewrite (Hstay a Han) in Ha; by destruct Ha].
    rewrite (Hstay b (not_eq_sym Hab)) in Hb'. by destruct Hb'. }
  destruct Hsib as [c Hc].
  assert (Hnum2 : ~ (2 <= num_children (nd_children pn))%nat) by lia.
  destruct (remove_node_run K self1 p pn Hok1 Hpn Hnum2) as (self' & Hrun & Hrm').
  destruct (node_access self' c) as (acc & Hacc & _); [by eapply removed_first_child|].
  rewrite (remove_branch_alt self1 p pn c _ Hpn Hc), Hrun, Hacc. eexists _, self'. split; [done|]. split; [by eapply outcome_two|].
  split; [by apply (nr_links _ _ _ _ _ Hrm')|]. intros j jn Hj Hsvj.
  eapply (removed_branches self' Hok1 Hpn Hrm'); [|done|done|intros; left; rewrite Hc; by eexists].
  intros k kn Hk Hkp Hsvk. eapply (removed_branches self1 Hok Hi Hrm); [|done|done|].
  - intros k0 kn0 Hk0 _ Hsvk0. by apply (Hb k0).
  - intros q Hq. rewrite Hp in Hq. congruence.
Qed.

(** Removing a storage value does not panic and keeps the invariant. *)
Lemma trie_remove_run K self i nd :
  trie_inv K self -> nodes self !! i = Some nd ->
  exists r self', trie_remove self i = Some (r, self') /\ remove_outcome K self i nd r self' /\ trie_inv K self'.
Proof.
  intros Hinv Hi. pose proof (tv_links _ _ Hinv) as Hok.
  destruct (decide (2 <= num_children (nd_children nd))%nat) as [Hnum|Hnum].
  - unfold trie_remove. rewrite Hi. destruct (Nat.leb_spec 2 (num_children (nd_children nd))); [|lia].
    eexists _, _. split; [done|]. split; [by constructor|]. apply trie_inv_view. destruct (inv_parts Hinv) as (Hl & Hb & H16).
    assert (Hsl : forall t, slot_child (set_node self i (with_storage_value nd false)) t = slot_child self t).
    { intros t. by apply (slot_child_update self i nd). }
    assert (H16n : children_16 (set_node self i (with_storage_value nd false))).
    { apply children_16_set; [done|]. exact (H16 i nd Hi). }
    split; [|split; [|done]].
    + eapply view_links_data; [exact Hl| |exact Hsl]. intros j. rewrite view_core_set. case_decide; [|done]. subst. by rewrite (view_lookup i nd Hi).
    + apply (proj1 (branches_ok_view _ H16n)). intros j jn. cbn. rewrite lookup_insert.
      case_decide; [by intros [= <-]|]. apply (tv_branches _ _ Hinv).
  - rewrite (trie_remove_alt self i nd Hi Hnum). destruct (remove_node_run K self i nd Hok Hi Hnum) as (self1 & -> & Hrm).
    assert (Hkeep : exists b, keeps_parent self1 (nd_parent nd) = Some b /\ (b = true -> trie_inv K self1) /\
      (b = false -> first_child (nd_children nd) = None /\ is_Some (nd_parent nd))) by (by eapply keeps_parent_spec).
    destruct Hkeep as ([|] & Hkeep & Hgood & Hbad); rewrite Hkeep.
    + specialize (Hgood eq_refl). destruct (first_child (nd_children nd)) as [c|] eqn:Hfc.
      * destruct (node_access self1 c) as (acc & Hacc & _); [by eapply removed_first_child|]. rewrite Hacc.
        eexists _, _. split; [done|]. split; [|done]. by eapply outcome_child.
      * destruct (nd_parent nd) as [[p n]|] eqn:Hp; [|eexists _, _; split; [done|]; split; [by eapply outcome_empty|done]].
        destruct (parent_link Hok _ _ _ _ Hi Hp) as (pn & Hpn & _).
        destruct (node_access self1 p) as (acc & Hacc & _).
        { apply (removed_lookup self1 p Hrm). split; [|by eexists]. intros ->. by apply (parent_not_self K self i nd n Hok Hi). }
        rewrite Hacc. eexists _, _. split; [done|]. split; [by eapply outcome_parent|done].
    + destruct (Hbad eq_refl) as (Hfc & [[p n] Hp]). rewrite Hp in Hkeep |- *. apply (remove_branch_run K self i nd self1 p n); try done.
      by rewrite Hp.
Qed.

End structure.
