(* ===== verification/TrieStructureRun.v ===== *)
(** * Runs of the structure of a trie ([src/src/trie/trie_structure.rs])

    A trie built by insertions and removals has exactly the nodes that the set of its
    keys needs: one for each key, and one for each branching point. The comparison of
    two tries does not see all nodes: a closed theorem shows it. *)

From stdpp Require Import functions.
From S2P Require Import Prelude Nibble TrieStructure TrieStructureInv TrieStructureOps TrieStructureUpdate.

Open Scope Z_scope.

Section structure.
Context `{Platform} {TUd : Type}.
Implicit Types (self : TrieStructure TUd) (nd : Node TUd) (K : Z -> list Nibble).

(** ** The nodes that a set of keys needs *)

(** Two keys of the set part after [k]. *)
Definition branching (S : gset (list Nibble)) (k : list Nibble) : Prop :=
  exists a b x y, a <> b /\ k ++ a :: x ∈ S /\ k ++ b :: y ∈ S.

(** The keys with a storage value. *)
Definition keys_are K self (S : gset (list Nibble)) : Prop :=
  forall k, k ∈ S <-> exists i nd, nodes self !! i = Some nd /\ nd_has_storage_value nd = true /\ K i = k.

Section nodes.
Context {K : Z -> list Nibble} {self : TrieStructure TUd}.
Context (Hinv : trie_inv K self).

Definition longer (i : Z) : gset Z := filter (fun j => (length (K i) < length (K j))%nat) (dom (nodes self)).

Lemma longer_decr i c : is_Some (nodes self !! c) -> (length (K i) < length (K c))%nat -> (size (longer c) < size (longer i))%nat.
Proof.
  intros Hc Hlt. apply subset_size. unfold longer. split.
  - intros x. rewrite !elem_of_filter. intros [? ?]. split; [lia|done].
  - intros Hsub. specialize (Hsub c). rewrite !elem_of_filter, !elem_of_dom in Hsub. destruct Hsub as [? _]; [done|lia].
Qed.

(** There is a storage value below every node. *)
Lemma storage_below i :
  is_Some (nodes self !! i) -> exists j jn, nodes self !! j = Some jn /\ nd_has_storage_value jn = true /\ K i `prefix_of` K j.
Proof.
  remember (size (longer i)) as k eqn:Ek. revert i Ek. induction k as [k IH] using lt_wf_ind. intros i -> [nd Hi].
  pose proof (tv_links _ _ Hinv) as Hok. destruct (nd_has_storage_value nd) eqn:Hsv; [by exists i, nd|].
  destruct (proj1 (num_children_two (no_children_len _ _ _ (lk_node _ _ Hok i nd Hi))) (tv_branches _ _ Hinv i nd Hi Hsv)) as (n & _ & _ & [c Hc] & _).
  destruct (child_link Hok i nd n c Hi Hc) as (cn & Hcn & Hcp). pose proof (parent_key Hok _ _ _ _ Hcn Hcp) as HK.
  destruct (IH (size (longer c))) with c as (j & jn & Hj & Hjs & Hpre); [|done|by eexists|].
  { apply longer_decr; [by eexists|]. rewrite HK, length_app. cbn. lia. }
  exists j, jn. split_and!; try done. etrans; [|done]. rewrite HK. by eexists.
Qed.

Lemma storage_below_child i nd n c :
  nodes self !! i = Some nd -> get_child nd n = Some c ->
  exists j jn x, nodes self !! j = Some jn /\ nd_has_storage_value jn = true /\ K j = K i ++ n :: x.
Proof.
  intros Hi Hc. pose proof (tv_links _ _ Hinv) as Hok. destruct (child_link Hok i nd n c Hi Hc) as (cn & Hcn & Hcp).
  destruct (storage_below c) as (j & jn & Hj & Hjs & [x Hx]); [by eexists|]. rewrite (parent_key Hok _ _ _ _ Hcn Hcp), <- app_assoc in Hx.
  by exists j, jn, (nd_partial_key cn ++ x).
Qed.

Lemma branching_prefix (k l x y : list Nibble) (a b : Nibble) :
  a <> b -> l `prefix_of` k ++ a :: x -> l `prefix_of` k ++ b :: y -> l `prefix_of` k.
Proof.
  intros Hab H1 H2. destruct (prefix_cases l k _ H1) as [?|(m & rest & ->)]; [by eexists|done|].
  apply prefix_app_inv in H1, H2. apply prefix_cons_inv_1 in H1, H2. congruence.
Qed.

(** The nodes are those of the keys and of the branching points. *)
Lemma nodes_canonical S k :
  keys_are K self S -> Forall (is_uint 4) k -> (exists i, is_Some (nodes self !! i) /\ K i = k) <-> k ∈ S \/ branching S k.
Proof.
  intros HS Hk. pose proof (tv_links _ _ Hinv) as Hok. split.
  - intros (i & [nd Hi] & <-). destruct (nd_has_storage_value nd) eqn:Hsv; [left; apply HS; by exists i, nd|]. right.
    destruct (proj1 (num_children_two (no_children_len _ _ _ (lk_node _ _ Hok i nd Hi))) (tv_branches _ _ Hinv i nd Hi Hsv))
      as (a & b & Hab & [c Hc] & [d Hd]).
    destruct (storage_below_child i nd a c Hi Hc) as (j1 & jn1 & x & Hj1 & Hs1 & HK1).
    destruct (storage_below_child i nd b d Hi Hd) as (j2 & jn2 & y & Hj2 & Hs2 & HK2).
    exists a, b, x, y. split; [done|]. rewrite <- HK1, <- HK2. split; apply HS; eauto.
  - intros [(i & nd & Hi & _ & HK)%HS|(a & b & x & y & Hab & (i & ni & Hi & _ & Hx)%HS & (j & nj & Hj & _ & Hy)%HS)]; [by eauto|].
    destruct (existing_node_inner_spec Hok k Hk) as (r & _ & Hr). destruct r as [r b'|[anc|]]; cbn in Hr.
    + destruct Hr as (nr & Hnr & HK & _). eauto.
    + exfalso. destruct Hr as ([an Han] & (n & rest & ->) & Hlong). rewrite <- app_assoc in Hx, Hy. cbn in Hx, Hy.
      destruct (child_towards Hok anc an i n _ Han ltac:(by eexists) Hx) as (c & Hc & Hac).
      destruct (child_towards Hok anc an j n _ Han ltac:(by eexists) Hy) as (c' & Hc' & Hac'). rewrite Hc in Hc'. injection Hc' as <-.
      destruct (anc_node Hok i c) as (Hcn & Hpi & _); [by eexists|done|]. destruct (anc_node Hok j c) as (_ & Hpj & _); [by eexists|done|].
      assert (HKc : K c `prefix_of` K anc ++ n :: rest).
      { rewrite Hx in Hpi. rewrite Hy in Hpj. apply (branching_prefix _ _ x y a b); [done|by rewrite <- app_assoc..]. }
      apply (Hlong c Hcn) in HKc. apply prefix_length in HKc. destruct (child_link Hok anc an n c Han Hc) as (cn & Hcn' & Hcp).
      rewrite (parent_key Hok _ _ _ _ Hcn' Hcp), length_app in HKc. cbn in HKc. lia.
    + exfalso. destruct (anc_root Hok i) as (r & Hr1 & Ha1); [by eexists|]. destruct (anc_root Hok j) as (r2 & Hr2 & Ha2); [by eexists|].
      rewrite Hr1 in Hr2. injection Hr2 as <-. destruct (anc_node Hok i r) as (Hrn & Hpi & _); [by eexists|done|].
      destruct (anc_node Hok j r) as (_ & Hpj & _); [by eexists|done|]. apply (Hr r Hrn). rewrite Hx in Hpi. rewrite Hy in Hpj.
      by apply (branching_prefix _ _ x y a b).
Qed.

End nodes.
(** ** Operations *)

Lemma keys_are_data K self S :
  keys_are K self S <-> forall k, k ∈ S <-> exists i u, node_data self i = Some (true, u) /\ K i = k.
Proof.
  unfold keys_are, node_data. assert (Hiff : forall k, (exists i nd, nodes self !! i = Some nd /\ nd_has_storage_value nd = true /\ K i = k) <->
    exists i u, (fun nd => (nd_has_storage_value nd, nd_user_data nd)) <$> nodes self !! i = Some (true, u) /\ K i = k).
  { intros k. split.
    - intros (i & nd & Hi & Hs & HK). exists i, (nd_user_data nd). rewrite Hi. cbn. by rewrite Hs.
    - intros (i & u & Hi & HK). apply fmap_Some in Hi as (nd & Hi & [= Hs _]). by exists i, nd. }
  split; intros HS k; by rewrite HS, Hiff.
Qed.

Lemma keys_are_entry K self S : keys_are K self S <-> forall k, k ∈ S <-> exists u, has_entry K self k true u.
Proof.
  rewrite keys_are_data. setoid_rewrite has_entry_data. split; intros HS k; rewrite HS; naive_solver.
Qed.

(** The removal of a storage value takes its key out of the set. *)
Lemma outcome_data K self i nd r self' j u :
  nodes self !! i = Some nd -> remove_outcome K self i nd r self' ->
  node_data self' j = Some (true, u) <-> j <> i /\ node_data self j = Some (true, u).
Proof.
  intros Hi Hout. assert (Hone : forall t p pn t', node_removed K t p pn t' ->
    node_data t' j = Some (true, u) <-> j <> p /\ node_data t j = Some (true, u)).
  { intros t p pn t' Hrm. rewrite (nr_data _ _ _ _ _ Hrm). case_decide; naive_solver. }
  destruct Hout as [Hnum|c acc t Hfc Hrm _|p n acc t _ _ Hrm _|t _ _ Hrm|p n pn sib acc t1 t _ _ Hrm Hp Hsv _ Hrm' _];
    [| by eapply Hone..|].
  - unfold node_data. cbn. rewrite lookup_insert. destruct (decide (i = j)) as [<-|]; [naive_solver|]. naive_solver.
  - rewrite (Hone _ _ _ _ Hrm'), (Hone _ _ _ _ Hrm). split; [naive_solver|]. intros [Hj Hd]. split_and!; try done.
    intros ->. assert (Hd1 : node_data t1 p = Some (true, u)) by (by apply (Hone _ _ _ _ Hrm)).
    unfold node_data in Hd1. rewrite Hp in Hd1. cbn in Hd1. congruence.
Qed.

Lemma remove_keys K self i nd r self' S :
  trie_inv K self -> nodes self !! i = Some nd -> remove_outcome K self i nd r self' -> keys_are K self S -> keys_are K self' (S ∖ {[K i]}).
Proof.
  intros Hinv Hi Hout HS. apply keys_are_data. intros k. rewrite elem_of_difference, elem_of_singleton, (proj1 (keys_are_data K self S) HS).
  setoid_rewrite (fun j u => outcome_data K self i nd r self' j u Hi Hout). split.
  - intros [(j & u & Hd & <-) Hne]. exists j, u. split; [|done]. split; [|done]. intros ->. done.
  - intros (j & u & [Hj Hd] & <-). split; [eauto|]. intros HK. apply Hj.
    apply (key_inj (tv_links _ _ Hinv)); [|by eexists|done]. unfold node_data in Hd. apply fmap_Some in Hd as (jn & ? & _). by eexists.
Qed.

(** A branch node gets a storage value. *)
Lemma branch_insert_spec K self i nd S :
  trie_inv K self -> nodes self !! i = Some nd -> keys_are K self S ->
  exists self', branch_insert_storage_value self i = Some self' /\ trie_inv K self' /\ keys_are K self' ({[K i]} ∪ S).
Proof.
  intros Hinv Hi HS. unfold branch_insert_storage_value. rewrite Hi. eexists. split; [done|]. destruct (inv_parts Hinv) as (Hl & Hb & H16).
  assert (H16n : children_16 (set_node self i (with_storage_value nd true))) by (apply children_16_set; [done|exact (H16 i nd Hi)]).
  split.
  - apply trie_inv_view. split; [|split; [|done]].
    + eapply view_links_data; [exact Hl| |intros t; by apply (slot_child_update self i nd)].
      intros j. rewrite view_core_set. case_decide; [|done]. subst. by rewrite (view_lookup i nd Hi).
    + apply (proj1 (branches_ok_view _ H16n)). intros j jn. cbn. rewrite lookup_insert.
      case_decide; [by intros [= <-]|]. apply (tv_branches _ _ Hinv).
  - apply keys_are_data. intros k. rewrite elem_of_union, elem_of_singleton, (proj1 (keys_are_data K self S) HS). split.
    + intros [->|(j & u & Hd & <-)]; [exists i, (nd_user_data nd)|exists j, u]; unfold node_data in *; cbn; rewrite lookup_insert.
      * by rewrite decide_True.
      * case_decide; [|done]. subst. rewrite Hi in Hd. cbn in Hd. injection Hd as _ <-. done.
    + intros (j & u & Hd & <-). unfold node_data in Hd. cbn in Hd. rewrite lookup_insert in Hd. case_decide; [subst; by left|].
      right. by exists j, u.
Qed.

(** Setting and removing a key, as the clients of the structure do. The indices that
    the slab gives, and the user data of the new nodes, are arguments. *)
Inductive trie_op :=
  | TInsert (key : list Nibble) (new_branch_node_index new_storage_node_index : Z) (storage_data branch_data : TUd)
  | TRemove (key : list Nibble).

Definition run_trie_op self (op : trie_op) : option (TrieStructure TUd) :=
  match op with
  | TInsert key nb ns u ub =>
      let! e := trie_node self key in
      match e with
      | VacantEntry key closest_ancestor =>
          let! prepare := vacant_insert_storage_value self key closest_ancestor in
          prepare_insert self prepare nb ns u ub
      | OccupiedEntry (AccBranch i) => branch_insert_storage_value self i
      | OccupiedEntry (AccStorage _) => Some self
      end
  | TRemove key =>
      let! e := trie_node self key in
      match e with
      | OccupiedEntry (AccStorage i) => snd <$> trie_remove self i
      | _ => Some self
      end
  end.

Definition key_ok (key : list Nibble) : Prop := Forall (is_uint 4) key /\ is_usize (len key).

Definition trie_op_ok self (op : trie_op) : Prop :=
  match op with
  | TInsert key nb ns _ _ => key_ok key /\ nodes self !! nb = None /\ nodes self !! ns = None /\ nb <> ns /\
      0 <= nb < usize_max /\ 0 <= ns < usize_max
  | TRemove key => key_ok key
  end.

Definition run_trie_spec (S : gset (list Nibble)) (op : trie_op) : gset (list Nibble) :=
  match op with TInsert key _ _ _ _ => {[key]} ∪ S | TRemove key => S ∖ {[key]} end.

(** What the search of a key says of the set. *)
Definition entry_ok self (S : gset (list Nibble)) (k : list Nibble) (e : TrieEntry) : Prop :=
  match e with
  | OccupiedEntry (AccStorage i) => k ∈ S /\ node_full_key self i = Some k
  | OccupiedEntry (AccBranch i) => k ∉ S /\ branching S k /\ node_full_key self i = Some k
  | VacantEntry k' _ => k' = k /\ k ∉ S /\ ~ branching S k
  end.

Lemma found_storage K self S i nd :
  trie_inv K self -> keys_are K self S -> nodes self !! i = Some nd -> K i ∈ S <-> nd_has_storage_value nd = true.
Proof.
  intros Hinv HS Hi. rewrite (HS (K i)). split; [|by exists i, nd]. intros (j & jn & Hj & Hs & HK).
  assert (j = i) as -> by (apply (key_inj (tv_links _ _ Hinv)); [by eexists|by eexists|done]). congruence.
Qed.

Lemma trie_node_spec K self S k :
  trie_inv K self -> keys_are K self S -> Forall (is_uint 4) k ->
  exists e, trie_node self k = Some e /\ entry_ok self S k e /\
    match e with
    | OccupiedEntry acc => exists nd, nodes self !! access_node_index acc = Some nd /\ K (access_node_index acc) = k
    | VacantEntry _ ca => search_spec K self k (NodeNotFound ca)
    end.
Proof.
  intros Hinv HS Hk. pose proof (tv_links _ _ Hinv) as Hok. destruct (existing_node_inner_spec Hok k Hk) as (r & Hrun & Hr).
  unfold trie_node. rewrite Hrun. destruct r as [i b|ca].
  - destruct Hr as (nd & Hi & HK & ->). pose proof (found_storage K self S i nd Hinv HS Hi) as Hin. rewrite HK in Hin.
    pose proof (node_full_key_spec Hok i ltac:(by eexists)) as Hfull. rewrite HK in Hfull.
    pose proof (proj1 (nodes_canonical Hinv S k HS Hk)) as Hcan.
    destruct (nd_has_storage_value nd); (eexists; split; [done|]; split; [|by exists nd]); cbn.
    + split; [by apply Hin|done].
    + assert (Hnot : k ∉ S) by (intros ?%Hin; done). split_and!; try done. destruct Hcan as [?|?]; [|done|done]. exists i. split; [by eexists|done].
  - eexists. split; [done|]. split; [|done]. cbn. split; [done|].
    assert (Hno : ~ (k ∈ S \/ branching S k)); [|tauto]. rewrite <- (nodes_canonical Hinv S k HS Hk). intros (i & Hi & HK).
    destruct ca as [a|]; cbn in Hr.
    + destruct Hr as (_ & (n & rest & Hrest) & Hlong). assert (HKa : K i `prefix_of` K a) by (apply Hlong; [done|by rewrite HK]).
      apply prefix_length in HKa. rewrite HK, Hrest, length_app in HKa. cbn in HKa. lia.
    + apply (Hr i Hi). by rewrite HK.
Qed.

(** One operation. *)
Lemma run_trie_op_spec K self S op :
  trie_inv K self -> keys_are K self S -> trie_op_ok self op ->
  exists K' self', run_trie_op self op = Some self' /\ trie_inv K' self' /\ keys_are K' self' (run_trie_spec S op).
Proof.
  intros Hinv HS Hop. destruct op as [key nb ns u ub|key]; cbn [run_trie_op run_trie_spec].
  - destruct Hop as ([Hkey Hlen] & Hnb & Hns & Hne & Hib & His).
    destruct (trie_node_spec K self S key Hinv HS Hkey) as (e & -> & Hok & Hnode). destruct e as [[i|i]|k ca]; cbn in Hok, Hnode.
    + destruct Hnode as (nd & Hi & HK). exists K, self. split_and!; try done. replace ({[key]} ∪ S) with S; [done|]. set_solver.
    + destruct Hnode as (nd & Hi & <-). destruct (branch_insert_spec K self i nd S Hinv Hi HS) as (self' & Hrun & ? & ?).
      exists K, self'. split_and!; done.
    + destruct Hok as (-> & _). destruct (prepare_spec K self key ca (tv_links _ _ Hinv) Hkey Hnode) as (prepare & -> & Hprep).
      destruct (prepare_insert_spec Hinv key prepare nb ns u ub Hkey Hlen Hprep Hnb Hns Hne Hib His) as (self' & K' & Hrun & Hinv' & _ & _ & Hent).
      exists K', self'. split_and!; try done. apply keys_are_entry. intros k. rewrite elem_of_union, elem_of_singleton.
      rewrite (proj1 (keys_are_entry K self S) HS). setoid_rewrite Hent. destruct prepare; naive_solver.
  - destruct Hop as [Hkey Hlen]. destruct (trie_node_spec K self S key Hinv HS Hkey) as (e & -> & Hok & Hnode).
    destruct e as [[i|i]|k ca]; cbn in Hok, Hnode.
    + destruct Hnode as (nd & Hi & <-). destruct (trie_remove_run K self i nd Hinv Hi) as (r & self' & -> & Hout & Hinv').
      exists K, self'. split_and!; [done|done|]. exact (remove_keys K self i nd r self' S Hinv Hi Hout HS).
    + exists K, self. split_and!; try done. replace (S ∖ {[key]}) with S; [done|]. set_solver.
    + destruct Hok as (-> & Hno & _). exists K, self. split_and!; try done. replace (S ∖ {[key]}) with S; [done|]. set_solver.
Qed.

(** ** Runs *)

Fixpoint run_trie_ops self (ops : list trie_op) : option (TrieStructure TUd) :=
  match ops with
  | [] => Some self
  | op :: ops => let! t := run_trie_op self op in run_trie_ops t ops
  end.

Fixpoint trie_ops_ok self (ops : list trie_op) : Prop :=
  match ops with
  | [] => True
  | op :: ops => trie_op_ok self op /\ forall self', run_trie_op self op = Some self' -> trie_ops_ok self' ops
  end.

Lemma run_trie_ops_spec K self S ops :
  trie_inv K self -> keys_are K self S -> trie_ops_ok self ops ->
  exists K' self', run_trie_ops self ops = Some self' /\ trie_inv K' self' /\ keys_are K' self' (foldl run_trie_spec S ops).
Proof.
  revert K self S. induction ops as [|op ops IH]; intros K self S Hinv HS Hok; [by exists K, self|].
  destruct Hok as [Hop Hops]. destruct (run_trie_op_spec K self S op Hinv HS Hop) as (K1 & self1 & Hrun & Hinv1 & HS1).
  destruct (IH K1 self1 _ Hinv1 HS1 (Hops self1 Hrun)) as (K2 & self2 & Hrun2 & Hinv2 & HS2). exists K2, self2. cbn. by rewrite Hrun.
Qed.

Lemma trie_new_inv : trie_inv (fun _ => []) (TrieStructure_new (TUd := TUd)) /\ keys_are (fun _ => []) (TrieStructure_new (TUd := TUd)) ∅.
Proof.
  split; [split|].
  - split.
    + intros s i. cbn. split; [destruct s as [[p n]|]; cbn; by rewrite ?lookup_empty|]. intros (nd & Hi & _). by rewrite lookup_empty in Hi.
    + intros i nd. cbn. by rewrite lookup_empty.
  - intros i nd. cbn. by rewrite lookup_empty.
  - intros k. split; [by intros ?%elem_of_empty|]. intros (i & nd & Hi & _). cbn in Hi. by rewrite lookup_empty in Hi.
Qed.

(** C2: a sequence of insertions and removals of keys does not panic, and the trie it
    builds depends only on the set [S] of keys that results: the search of any key
    ends, finds a storage node exactly for the keys of [S], a branch node exactly for
    the other keys at which two keys of [S] part, and no node for the rest; the node
    that is found has the key as its full key. *)
Theorem trie_structure_refinement (ops : list trie_op) :
  trie_ops_ok TrieStructure_new ops ->
  exists self, run_trie_ops TrieStructure_new ops = Some self /\
    forall k, Forall (is_uint 4) k ->
      exists e, trie_node self k = Some e /\ entry_ok self (foldl run_trie_spec ∅ ops) k e.
Proof.
  intros Hops. destruct trie_new_inv as [Hinv HS]. destruct (run_trie_ops_spec _ _ ∅ ops Hinv HS Hops) as (K & self & Hrun & Hinv' & HS').
  exists self. split; [done|]. intros k Hk. destruct (trie_node_spec K self _ k Hinv' HS' Hk) as (e & He & Hok & _). eauto.
Qed.

End structure.

(** ** Concrete tries *)

Section concrete.
#[local] Existing Instance platform64.

Definition trie_after (ops : list (trie_op (TUd := Z))) : TrieStructure Z := default TrieStructure_new (run_trie_ops TrieStructure_new ops).

(** Two keys that part after their first nibble, the key at which they part, and one removed. *)
Definition ops_branch : list (trie_op (TUd := Z)) := [TInsert [6; 1] 1 0 7 0; TInsert [6; 2; 3] 1 2 8 9; TRemove [6; 1]].

Lemma ops_branch_ok : trie_ops_ok TrieStructure_new ops_branch.
Proof.
  assert (Hmax : usize_max = 2 ^ 64 - 1) by done. assert (Hkey : forall k : list Z, Forall (is_uint 4) k -> (length k < 10)%nat -> key_ok k).
  { intros k Hk Hl. split; [done|]. unfold is_uint, len, usize_bits. cbn. lia. }
  assert (Hn : forall n : Z, 0 <= n < 16 -> is_uint 4 n) by done.
  split; [split_and!; try done; [apply Hkey; [repeat constructor; lia|cbn; lia]|rewrite Hmax; lia..]|].
  intros t1 E1. vm_compute in E1. injection E1 as <-.
  split; [split_and!; try done; [apply Hkey; [repeat constructor; lia|cbn; lia]|rewrite Hmax; lia..]|].
  intros t2 E2. vm_compute in E2. injection E2 as <-.
  split; [apply Hkey; [repeat constructor; lia|cbn; lia]|done].
Qed.

Lemma trie_structure_refinement_witness :
  trie_ops_ok TrieStructure_new ops_branch /\
  exists self, run_trie_ops TrieStructure_new ops_branch = Some self /\
    (exists e, trie_node self [6; 2; 3] = Some e /\ entry_ok self (foldl run_trie_spec ∅ ops_branch) [6; 2; 3] e).
Proof.
  split; [exact ops_branch_ok|]. destruct (trie_structure_refinement ops_branch ops_branch_ok) as (self & Hrun & Hk).
  exists self. split; [exact Hrun|]. apply Hk. repeat constructor; lia.
Defined.

(** The branch node of two keys, and its user data, as in the documentation. *)
Lemma branch_example :
  trie_node (trie_after [TInsert [6; 1] 1 0 7 0; TInsert [6; 2; 3] 1 2 8 9]) [6] = Some (OccupiedEntry (AccBranch 1)) /\
  trie_len (trie_after [TInsert [6; 1] 1 0 7 0; TInsert [6; 2; 3] 1 2 8 9]) = 3 /\
  trie_len (trie_after ops_branch) = 1 /\ node_full_key (trie_after ops_branch) 2 = Some [6; 2; 3].
Proof. split_and!; by vm_compute. Qed.

(** The enumeration goes down to the first leaf and over its siblings, and does not
    come back up: here the node of [[2]], the second child of the root, is not
    visited. The descendants of a leaf, on the other hand, include its siblings. *)
Definition ops_left : list (trie_op (TUd := Z)) := [TInsert [] 10 0 0 0; TInsert [1] 10 1 0 0; TInsert [1; 1] 10 2 0 0].
Definition trie_2 : TrieStructure Z := trie_after (ops_left ++ [TInsert [2] 10 3 0 0]).
Definition trie_3 : TrieStructure Z := trie_after (ops_left ++ [TInsert [3; 3] 10 3 0 0]).

Lemma structure_equal_misses_nodes :
  all_nodes_ordered trie_2 = Some [0; 1; 2] /\ trie_len trie_2 = 4 /\ trie_descendants trie_2 1 = Some [2] /\
  trie_descendants (trie_after [TInsert [] 10 0 0 0; TInsert [1] 10 1 0 0; TInsert [2] 10 2 0 0]) 1 = Some [2] /\
  structure_equal trie_2 trie_3 = Some true /\
  trie_node trie_2 [2] = Some (OccupiedEntry (AccStorage 3)) /\ trie_node trie_3 [2] = Some (VacantEntry [2] (Some 0)).
Proof. split_and!; by vm_compute. Qed.

End concrete.
