(* ===== verification/CanonicalTrie.v ===== *)
(** * Canonical tries

    The tries of ProofVerify.v that a storage has: each node without a value has
    several children. A canonical trie is determined by its entries, so that the Merkle
    value of its root is a function of the storage; the information that a proof gives
    about a key ([trie_info]) is that of the entries. *)

From S2P Require Import Prelude Nibble TrieNode ProofVerify.

Open Scope Z_scope.

(** ** Entries *)

Inductive trie_entry : Trie -> list Nibble -> TrieEntryVersion * list u8 -> Prop :=
  | entry_here ver pk v ts : trie_entry (TNode ver pk (Some v) ts) pk (ver, v)
  | entry_child ver pk v ts n t rest x :
      0 <= n -> ts !! Z.to_nat n = Some (Some t) -> trie_entry t rest x -> trie_entry (TNode ver pk v ts) (pk ++ n :: rest) x.

Definition has_child (ts : list (option Trie)) (n : nat) : Prop := exists t, ts !! n = Some (Some t).

Inductive canonical : Trie -> Prop :=
  | canonical_node ver pk v ts :
      length ts = 16%nat -> Forall (is_uint 4) pk ->
      (v = None -> ver = V1 /\ exists n m, n <> m /\ has_child ts n /\ has_child ts m) ->
      (forall n t, ts !! n = Some (Some t) -> canonical t) -> canonical (TNode ver pk v ts).

Lemma entry_prefix t k x : trie_entry t k x -> trie_pk t `prefix_of` k.
Proof. intros [|]; cbn; [by exists []; rewrite app_nil_r|by eexists]. Qed.

Lemma entry_cases ver pk v ts k x :
  trie_entry (TNode ver pk v ts) k x <->
  (k = pk /\ exists y, v = Some y /\ x = (ver, y)) \/
  exists n t rest, 0 <= n /\ k = pk ++ n :: rest /\ ts !! Z.to_nat n = Some (Some t) /\ trie_entry t rest x.
Proof.
  split; [by inversion 1; subst; eauto 10|].
  intros [(-> & y & -> & ->)|(n & t & rest & Hn & -> & Ht & He)]; [constructor|by eapply entry_child].
Qed.

Lemma app_cons_ne (l rest : list Nibble) n : l <> l ++ n :: rest.
Proof. intros E. apply (f_equal length) in E. rewrite length_app in E. cbn in E. lia. Qed.

Lemma entry_inv_here ver pk v ts x : trie_entry (TNode ver pk v ts) pk x <-> exists y, v = Some y /\ x = (ver, y).
Proof.
  rewrite entry_cases. split; [|by left]. intros [[_ ?]|(n & t & rest & _ & E & _)]; [done|]. by apply app_cons_ne in E.
Qed.

Lemma entry_inv_child ver pk v ts n rest x :
  0 <= n -> trie_entry (TNode ver pk v ts) (pk ++ n :: rest) x <-> exists t, ts !! Z.to_nat n = Some (Some t) /\ trie_entry t rest x.
Proof.
  intros Hn. rewrite entry_cases. split; [|intros (t & Ht & He); right; by exists n, t, rest].
  intros [[E _]|(n' & t & rest' & _ & E & Ht & He)]; [by apply eq_sym, app_cons_ne in E|]. apply app_inv_head in E. injection E as -> ->. eauto.
Qed.

(** ** Entries of canonical tries *)

Lemma canonical_entry t : canonical t -> exists k x, trie_entry t k x.
Proof.
  induction 1 as [ver pk v ts Hlen Hpk Hnone Hts IH]. destruct v as [v|]; [exists pk, (ver, v); constructor|].
  destruct Hnone as (_ & n & _ & _ & (t & Ht) & _); [done|]. destruct (IH n t Ht) as (k & x & He).
  exists (pk ++ Z.of_nat n :: k), x. eapply entry_child; [lia| |done]. by rewrite Nat2Z.id.
Qed.

Lemma fork_prefix (k l x y : list Nibble) (a b : Nibble) :
  a <> b -> l `prefix_of` k ++ a :: x -> l `prefix_of` k ++ b :: y -> l `prefix_of` k.
Proof.
  revert k. induction l as [|c l IH]; intros [|d k] Hab Hx Hy; cbn in *.
  - apply prefix_nil.
  - apply prefix_nil.
  - apply prefix_cons_inv_1 in Hx, Hy. congruence.
  - pose proof (prefix_cons_inv_1 _ _ _ _ Hx) as ->. apply prefix_cons. by apply IH; [|apply prefix_cons_inv_2 in Hx|apply prefix_cons_inv_2 in Hy].
Qed.

(** The partial key is the longest common prefix of the keys. *)
Lemma canonical_longest t p : canonical t -> (forall k x, trie_entry t k x -> p `prefix_of` k) -> p `prefix_of` trie_pk t.
Proof.
  intros Hc Hp. destruct Hc as [ver pk v ts Hlen Hpk Hnone Hts]. cbn. destruct v as [v|]; [apply (Hp pk (ver, v)); constructor|].
  destruct Hnone as (_ & n & m & Hnm & (t & Ht) & (t' & Ht')); [done|].
  destruct (canonical_entry t (Hts n t Ht)) as (k & x & He). destruct (canonical_entry t' (Hts m t' Ht')) as (k' & x' & He').
  apply (fork_prefix pk p k k' (Z.of_nat n) (Z.of_nat m)); [lia|..].
  - apply (Hp _ x). eapply entry_child; [lia| |done]. by rewrite Nat2Z.id.
  - apply (Hp _ x'). eapply entry_child; [lia| |done]. by rewrite Nat2Z.id.
Qed.

Lemma canonical_same_pk t t' :
  canonical t -> canonical t' -> (forall k x, trie_entry t k x <-> trie_entry t' k x) -> trie_pk t = trie_pk t'.
Proof.
  intros Hc Hc' Hsame. apply (anti_symm prefix).
  - apply (canonical_longest t' _ Hc'). intros k x He%Hsame. by eapply entry_prefix.
  - apply (canonical_longest t _ Hc). intros k x He%Hsame. by eapply entry_prefix.
Qed.

(** A canonical trie is determined by its entries. *)
Lemma canonical_unique t t' :
  canonical t -> canonical t' -> (forall k x, trie_entry t k x <-> trie_entry t' k x) -> t = t'.
Proof.
  intros Hc. revert t'. induction Hc as [ver pk v ts Hlen Hpk Hnone Hts IH]. intros t' Hc' Hsame.
  pose proof (canonical_same_pk _ t' (canonical_node ver pk v ts Hlen Hpk Hnone Hts) Hc' Hsame) as Epk.
  destruct Hc' as [ver' pk' v' ts' Hlen' _ Hnone' Hts']. cbn in Epk. subst pk'.
  assert (Ev : ver = ver' /\ v = v').
  { pose proof (Hsame pk) as Hpk'. setoid_rewrite entry_inv_here in Hpk'. destruct v as [y|], v' as [y'|].
    - destruct (proj1 (Hpk' (ver, y))) as (z & [= <-] & [= <- <-]); eauto.
    - destruct (proj1 (Hpk' (ver, y))) as (z & ? & _); [eauto|done].
    - destruct (proj2 (Hpk' (ver', y'))) as (z & ? & _); [eauto|done].
    - destruct Hnone as [-> _]; [done|]. by destruct Hnone' as [-> _]. }
  destruct Ev as [<- <-]. f_equal.
  assert (Hch : forall n t, ts !! n = Some (Some t) -> exists u, ts' !! n = Some (Some u) /\ t = u).
  { intros n t Ht. destruct (canonical_entry t (Hts n t Ht)) as (k & x & He).
    assert (Hu : exists u, ts' !! n = Some (Some u)).
    { pose proof (Hsame (pk ++ Z.of_nat n :: k) x) as Hs. rewrite !entry_inv_child, Nat2Z.id in Hs by lia.
      destruct (proj1 Hs) as (u & Hu & _); eauto. }
    destruct Hu as [u Hu]. exists u. split; [done|]. apply (IH n t Ht); [by eapply Hts'|]. intros k' x'.
    pose proof (Hsame (pk ++ Z.of_nat n :: k') x') as Hs. rewrite !entry_inv_child, Nat2Z.id in Hs by lia. naive_solver. }
  assert (Hch' : forall n u, ts' !! n = Some (Some u) -> is_Some (mjoin (ts !! n))).
  { intros n u Hu. destruct (canonical_entry u (Hts' n u Hu)) as (k & x & He).
    pose proof (Hsame (pk ++ Z.of_nat n :: k) x) as Hs. rewrite !entry_inv_child, Nat2Z.id in Hs by lia.
    destruct (proj2 Hs) as (t & Ht & _); [eauto|]. rewrite Ht. by eexists. }
  apply list_eq. intros n. destruct (ts !! n) as [[t|]|] eqn:Et, (ts' !! n) as [[u|]|] eqn:Eu; try done.
  all: try (destruct (Hch n t Et) as (w & Hw & ->); by simplify_eq).
  all: try (destruct (Hch' n u Eu) as [w Hw]; by rewrite Et in Hw).
  all: try (apply lookup_lt_Some in Et; apply lookup_ge_None in Eu; lia).
  all: apply lookup_lt_Some in Eu; apply lookup_ge_None in Et; lia.
Qed.

(** ** The information at a key *)

Lemma entry_info t k v ns :
  trie_info t k v ns -> Forall (is_uint 4) k -> forall x, v = Some x <-> exists ver, trie_entry t k (ver, x).
Proof.
  intros Hi. induction Hi as [t|t k n rest Hpk|t pre a b rest rest' Hpk Hab|t n rest Hch|t n c rest v ns Hch _ IH]; intros Hk x.
  - destruct t as [ver pk v ts]. cbn. setoid_rewrite entry_inv_here. naive_solver.
  - split; [done|]. intros (ver & He%entry_prefix). rewrite Hpk in He. destruct He as [z Hz]. apply (f_equal length) in Hz.
    rewrite !length_app in Hz. cbn in Hz. lia.
  - split; [done|]. intros (ver & He%entry_prefix). rewrite Hpk in He. apply prefix_app_inv, prefix_cons_inv_1 in He. done.
  - apply Forall_app in Hk as [_ [Hn _]%Forall_cons]. split; [done|]. intros (ver & He). destruct t as [ver' pk v ts]. cbn in *.
    apply entry_inv_child in He as (t & Ht & _); [by rewrite Ht in Hch|]. unfold is_uint in Hn. lia.
  - apply Forall_app in Hk as [_ [Hn Hrest]%Forall_cons]. rewrite (IH Hrest x). destruct t as [ver' pk v' ts]. cbn in *.
    setoid_rewrite entry_inv_child; [|unfold is_uint in Hn; lia]. destruct (ts !! Z.to_nat n) as [[c'|]|]; try done. cbn in Hch. naive_solver.
Qed.
