(* ===== verification/CalculateRoot.v ===== *)
(** * The calculation of the root of a trie ([src/src/trie/calculate_root.rs])

    The calculation walks over the structure of the trie (TrieStructure.v), fills the
    Merkle values that are missing, and asks the caller for the keys and for the
    storage values. The cache is the structure with the Merkle values found so far; it
    is told of the changes of the storage.

    This file has the operations; CalculateRootWalk.v has the walk and
    CalculateRootSpec.v the theorems. [None] is a panic, or the end of the fuel. *)

From S2P Require Import Prelude Nibble TrieNode TrieStructure.

Open Scope Z_scope.

(** ** Cache *)

Record CacheEntry := mkCacheEntry { merkle_value : option Output }.
Definition CacheEntry_default : CacheEntry := mkCacheEntry None.

Record CalculationCache := mkCalculationCache { structure : option (TrieStructure CacheEntry) }.

Definition CalculationCache_empty : CalculationCache := mkCalculationCache None.

Section calculation.
Context `{Platform} `{Blake2b}.

(** The nibbles of a key: [bytes_to_nibbles(key.iter().copied())]. *)
Definition key_nibbles (key : list u8) : list Nibble := BytesToNibbles_all (bytes_to_nibbles key).

(** [node.user_data().merkle_value = None]. *)
Definition clear_merkle_value (self : TrieStructure CacheEntry) (node_index : Z) : option (TrieStructure CacheEntry) :=
  index_set_user_data self node_index (mkCacheEntry None).

(** [for idx in 0..16u8 { if let Some(mut child) = .. }]. *)
Fixpoint clear_children (self : TrieStructure CacheEntry) (node_index : Z) (indices : list Z) : option (TrieStructure CacheEntry) :=
  match indices with
  | [] => Some self
  | idx :: indices =>
      let! child := index_child self node_index idx in
      let! self :=
        match child with
        | Some child => clear_merkle_value self (access_node_index child)
        | None => Some self
        end in
      clear_children self node_index indices
  end.

(** The change of the structure, and the node from which Merkle values are invalid. *)
Definition update_structure (structure : TrieStructure CacheEntry) (key : list u8) (has_value : bool)
    (new_branch_node_index new_storage_node_index : Z) : option (TrieStructure CacheEntry * option NodeAccess) :=
  let! entry := trie_node structure (key_nibbles key) in
  match entry, has_value with
  | VacantEntry key closest_ancestor, true =>
      let! prepare := vacant_insert_storage_value structure key closest_ancestor in
      match prepare with
      | InsertOne insert =>
          let! structure := insert_one structure insert new_storage_node_index CacheEntry_default in
          let! parent := index_parent structure new_storage_node_index in
          Some (structure, parent)
      | InsertTwo insert =>
          let! structure := insert_two structure insert new_branch_node_index new_storage_node_index
            CacheEntry_default CacheEntry_default in
          let! inserted_branch := index_parent structure new_storage_node_index in
          let! inserted_branch := inserted_branch in
          let! structure := clear_children structure (access_node_index inserted_branch) all_nibbles in
          let! parent := index_parent structure (access_node_index inserted_branch) in
          Some (structure, parent)
      end
  | VacantEntry _ _, false => Some (structure, None)
  | OccupiedEntry (AccBranch i), true =>
      let! structure := branch_insert_storage_value structure i in
      Some (structure, Some (AccStorage i))
  | OccupiedEntry (AccStorage i), true => Some (structure, Some (AccStorage i))
  | OccupiedEntry (AccBranch _), false => Some (structure, None)
  | OccupiedEntry (AccStorage i), false =>
      let! (removed, structure) := trie_remove structure i in
      Some (structure,
        match removed with
        | StorageToBranch i => Some (AccBranch i)
        | BranchAlsoRemoved sibling _ _ => Some sibling
        | SingleRemoveChild child _ => Some child
        | SingleRemoveNoChild parent _ => Some parent
        | TrieNowEmpty _ => None
        end)
  end.

(** [while let Some(mut node) = parent.take()]: up to an ancestor that is invalid. *)
Fixpoint invalidate_loop (fuel : nat) (self : TrieStructure CacheEntry) (parent : option NodeAccess)
    : option (TrieStructure CacheEntry) :=
  match fuel with
  | O => None
  | S fuel =>
      match parent with
      | None => Some self
      | Some node =>
          let! entry := index_user_data self (access_node_index node) in
          match merkle_value entry with
          | None => Some self
          | Some _ =>
              let! self := clear_merkle_value self (access_node_index node) in
              let! parent := index_parent self (access_node_index node) in
              invalidate_loop fuel self parent
          end
      end
  end.

(** The end of [storage_value_update]: the node and its ancestors. *)
Definition invalidate_from (structure : TrieStructure CacheEntry) (node_to_invalidate : option NodeAccess) : option (TrieStructure CacheEntry) :=
  match node_to_invalidate with
  | None => Some structure
  | Some node =>
      let! structure := clear_merkle_value structure (access_node_index node) in
      let! parent := index_parent structure (access_node_index node) in
      invalidate_loop (S (S (size (nodes structure)))) structure parent
  end.

(** The indices that the slab gives to new nodes are arguments. *)
Definition cache_storage_value_update (self : CalculationCache) (key : list u8) (has_value : bool)
    (new_branch_node_index new_storage_node_index : Z) : option CalculationCache :=
  match structure self with
  | None => Some self
  | Some structure =>
      let! (structure, node_to_invalidate) :=
        update_structure structure key has_value new_branch_node_index new_storage_node_index in
      let! structure := invalidate_from structure node_to_invalidate in
      Some (mkCalculationCache (Some structure))
  end.

Definition prefix_remove_update (self : CalculationCache) (prefix : list u8) : CalculationCache :=
  match structure self with
  | None => self
  | Some _ => mkCalculationCache None
  end.

(** ** Calculation *)

Record CalcInner := mkCalcInner {
  calc_cache : CalculationCache;
  calc_current : option Z;
  coming_from_child : bool
}.

Inductive RootMerkleValueCalculation :=
  | Finished (hash : list u8) (cache : CalculationCache)
  | AllKeys (calculation : CalcInner)
  | CalcStorageValue (calculation : CalcInner).

(** [From<Output> for [u8; 32]]: [copy_from_slice] panics on another length. *)
Definition Output_into_hash (output : Output) : option (list u8) :=
  if len (Output_as_ref output) =? 32 then Some (Output_as_ref output) else None.

(** The Merkle values of the children: [child.merkle_value.as_ref().unwrap()]. *)
Definition child_merkle_value (self : TrieStructure CacheEntry) (current : Z) (child_idx : Z) : option (option Output) :=
  let! child := index_child_user_data self current child_idx in
  match child with
  | None => Some None
  | Some child => let! v := merkle_value child in Some (Some v)
  end.

(** The Merkle value of the current node, from its children, and its place in the node. *)
Definition fill_merkle_value (self : TrieStructure CacheEntry) (current : Z) (stored_value : option (list u8))
    (version : TrieEntryVersion) : option (TrieStructure CacheEntry) :=
  let! partial_key := index_partial_key self current in
  let! children := mapM (child_merkle_value self current) all_nibbles in
  let! merkle_value := calculate_merkle_value
    {| cfg_ty := if index_is_root_node self current then Root partial_key else NonRoot partial_key;
       cfg_children := children; cfg_stored_value := stored_value; cfg_version := version |} in
  index_set_user_data self current (mkCacheEntry (Some merkle_value)).

(** One turn of the loop of [next]. *)
Inductive walk_step :=
  | WalkContinue (self : TrieStructure CacheEntry) (current : Z) (coming_from_child : bool)
  | WalkFinished (hash : list u8)
  | WalkStorageValue.

Definition walk_turn (self : TrieStructure CacheEntry) (current : Z) (coming_from_child : bool) : option walk_step :=
  let! access := node_by_index_inner self current in
  let! entry := index_user_data self current in
  match merkle_value entry with
  | Some _ =>
      let! sibling := index_next_sibling self current in
      match sibling with
      | Some sibling => Some (WalkContinue self (access_node_index sibling) false)
      | None =>
          let! parent := index_parent self current in
          match parent with
          | Some parent => Some (WalkContinue self (access_node_index parent) true)
          | None =>
              let! root := root_node self in
              let! root := root in
              let! entry := index_user_data self (access_node_index root) in
              let! merkle_value := merkle_value entry in
              let! hash := Output_into_hash merkle_value in
              Some (WalkFinished hash)
          end
      end
  | None =>
      let! child := if coming_from_child then Some None else index_first_child self current in
      match child with
      | Some first_child => Some (WalkContinue self (access_node_index first_child) false)
      | None =>
          if has_storage_value access then Some WalkStorageValue
          else
            let! self := fill_merkle_value self current None V1 in
            Some (WalkContinue self current true)
      end
  end.

Fixpoint walk_loop (fuel : nat) (self : TrieStructure CacheEntry) (current : Z) (coming_from_child : bool)
    : option RootMerkleValueCalculation :=
  match fuel with
  | O => None
  | S fuel =>
      let! step := walk_turn self current coming_from_child in
      match step with
      | WalkContinue self current coming_from_child => walk_loop fuel self current coming_from_child
      | WalkFinished hash => Some (Finished hash (mkCalculationCache (Some self)))
      | WalkStorageValue =>
          Some (CalcStorageValue (mkCalcInner (mkCalculationCache (Some self)) (Some current) true))
      end
  end.

(** The number of turns is bounded by the square of the number of nodes. *)
Definition walk_fuel (self : TrieStructure CacheEntry) : nat := S (S (size (nodes self)) * S (S (size (nodes self)))).

Definition empty_root : option (list u8) :=
  let! merkle_value := calculate_merkle_value
    {| cfg_ty := Root []; cfg_children := replicate 16 None; cfg_stored_value := None; cfg_version := V1 |} in
  Output_into_hash merkle_value.

Definition CalcInner_next (self : CalcInner) : option RootMerkleValueCalculation :=
  match structure (calc_cache self) with
  | None => Some (AllKeys self)
  | Some trie_structure =>
      match calc_current self with
      | Some current => walk_loop (walk_fuel trie_structure) trie_structure current (coming_from_child self)
      | None =>
          let! root := root_node trie_structure in
          match root with
          | Some root => walk_loop (walk_fuel trie_structure) trie_structure (access_node_index root) (coming_from_child self)
          | None => let! hash := empty_root in Some (Finished hash (calc_cache self))
          end
      end
  end.

(** The memory that the cache does not need is given back, which is left out. *)
Definition root_merkle_value (cache : option CalculationCache) : option RootMerkleValueCalculation :=
  CalcInner_next (mkCalcInner (default CalculationCache_empty cache) None false).

(** [AllKeys::inject]: the keys are inserted in an empty structure. *)
Fixpoint insert_keys (self : TrieStructure CacheEntry) (keys : list (list u8)) (indices : list (Z * Z))
    : option (TrieStructure CacheEntry) :=
  match keys, indices with
  | key :: keys, (new_branch_node_index, new_storage_node_index) :: indices =>
      let! entry := trie_node self (key_nibbles key) in
      let! (key, closest_ancestor) := into_vacant entry in
      let! prepare := vacant_insert_storage_value self key closest_ancestor in
      let! self := prepare_insert self prepare new_branch_node_index new_storage_node_index
        CacheEntry_default CacheEntry_default in
      insert_keys self keys indices
  | [], _ => Some self
  | _ :: _, [] => None
  end.

Definition AllKeys_inject (calculation : CalcInner) (keys : list (list u8)) (indices : list (Z * Z))
    : option RootMerkleValueCalculation :=
  let! structure := insert_keys TrieStructure_new keys indices in
  CalcInner_next (mkCalcInner (mkCalculationCache (Some structure)) (calc_current calculation) (coming_from_child calculation)).

(** [StorageValue::key]: two nibbles at a time; [full_key.next().unwrap()] for the second. *)
Fixpoint nibble_pairs (full_key : list Nibble) : option (list u8) :=
  match full_key with
  | [] => Some []
  | nibble1 :: nibble2 :: full_key =>
      let! rest := nibble_pairs full_key in Some (Z.lor (wrap 8 (Z.shiftl nibble1 4)) nibble2 :: rest)
  | [_] => None
  end.

Definition StorageValue_key (calculation : CalcInner) : option (list u8) :=
  let! trie_structure := structure (calc_cache calculation) in
  let! current := calc_current calculation in
  let! full_key := node_full_key_by_index trie_structure current in
  let! full_key := full_key in
  nibble_pairs full_key.

Definition StorageValue_inject (calculation : CalcInner) (version : TrieEntryVersion) (stored_value : option (list u8))
    : option RootMerkleValueCalculation :=
  let! stored_value := stored_value in
  let! trie_structure := structure (calc_cache calculation) in
  let! current := calc_current calculation in
  let! _ := node_by_index trie_structure current in
  let! trie_structure := fill_merkle_value trie_structure current (Some stored_value) version in
  CalcInner_next (mkCalcInner (mkCalculationCache (Some trie_structure)) (Some current) (coming_from_child calculation)).

End calculation.
