(* ===== verification/CalculateRootWalk.v ===== *)
(** * The walk of the root calculation ([src/src/trie/calculate_root.rs])

    The Merkle values in the cache are those of a trie ([denotes], over the tries of
    ProofVerify.v) that the structure and the storage values describe. The walk keeps
    this, fills the missing values from the leaves up, and ends: its measure is made of
    the number of missing values and of the place of the current node in the order of
    the keys. *)

From S2P Require Import Prelude Nibble TrieNode BTree ProofVerify TrieStructure TrieStructureInv TrieStructureOps CalculateRoot.

Open Scope Z_scope.

Section walk.
Context `{Platform} `{Blake2bLaws}.
Implicit Types (self : TrieStructure CacheEntry) (nd : Node CacheEntry) (K : Z -> list Nibble).

(** ** Structures that differ in the Merkle values only *)

Definition skeleton nd : Node CacheEntry := with_user_data nd CacheEntry_default.

Definition same_skeleton self (self' : TrieStructure CacheEntry) : Prop :=
  root_index self' = root_index self /\ forall i, skeleton <$> nodes self' !! i = skeleton <$> nodes self !! i.

Lemma same_skeleton_refl self : same_skeleton self self.
Proof. done. Qed.

Lemma same_skeleton_trans self1 self2 self3 : same_skeleton self1 self2 -> same_skeleton self2 self3 -> same_skeleton self1 self3.
Proof. intros [Ha Hb] [Hc Hd]. split; [congruence|]. intros i. by rewrite Hd, Hb. Qed.

Lemma skeleton_fields nd nd' :
  skeleton nd = skeleton nd' -> nd_parent nd = nd_parent nd' /\ nd_partial_key nd = nd_partial_key nd' /\
  nd_children nd = nd_children nd' /\ nd_has_storage_value nd = nd_has_storage_value nd'.
Proof. unfold skeleton, with_user_data. by intros [= ? ? ? ?]. Qed.

Lemma skeleton_node self self' i nd' :
  same_skeleton self self' -> nodes self' !! i = Some nd' ->
  exists nd, nodes self !! i = Some nd /\ nd_parent nd = nd_parent nd' /\ nd_partial_key nd = nd_partial_key nd' /\
    nd_children nd = nd_children nd' /\ nd_has_storage_value nd = nd_has_storage_value nd'.
Proof.
  intros [_ Hs] Hi. specialize (Hs i). rewrite Hi in Hs. destruct (nodes self !! i) as [nd|]; [|done]. cbn in Hs.
  injection Hs as E1 E2 E3 E4. exists nd. by split_and!.
Qed.

Lemma skeleton_node' self self' i nd :
  same_skeleton self self' -> nodes self !! i = Some nd ->
  exists nd', nodes self' !! i = Some nd' /\ nd_parent nd' = nd_parent nd /\ nd_partial_key nd' = nd_partial_key nd /\
    nd_children nd' = nd_children nd /\ nd_has_storage_value nd' = nd_has_storage_value nd.
Proof.
  intros [Hr Hs] Hi. apply (skeleton_node self' self); [|done]. split; [done|]. intros j. by rewrite Hs.
Qed.

Lemma set_user_data_skeleton self i nd u :
  nodes self !! i = Some nd -> same_skeleton self (set_node self i (with_user_data nd u)).
Proof. intros Hi. split; [done|]. intros j. cbn. rewrite lookup_insert. case_decide; [|done]. subst. by rewrite Hi. Qed.

Lemma skeleton_dom self self' : same_skeleton self self' -> dom (nodes self') = dom (nodes self).
Proof.
  intros [_ Hs]. apply set_eq. intros i. rewrite !elem_of_dom. specialize (Hs i). destruct (nodes self !! i), (nodes self' !! i); try done; by split.
Qed.

Lemma skeleton_size self self' : same_skeleton self self' -> size (nodes self') = size (nodes self).
Proof. intros Hsk. by rewrite <- !size_dom, (skeleton_dom self self' Hsk). Qed.

Lemma skeleton_slot self self' s : same_skeleton self self' -> slot_child self' s = slot_child self s.
Proof.
  intros Hsk. destruct s as [[p n]|]; [|apply Hsk]. cbn. destruct (nodes self' !! p) as [pn|] eqn:Hp.
  - destruct (skeleton_node self self' p pn Hsk Hp) as (pn0 & -> & _ & _ & Ech & _). cbn. unfold get_child. by rewrite Ech.
  - destruct (nodes self !! p) as [pn0|] eqn:Hp0; [|done]. destruct (skeleton_node' self self' p pn0 Hsk Hp0) as (pn & ? & _). congruence.
Qed.

Lemma skeleton_links K self self' : links_ok K self -> same_skeleton self self' -> links_ok K self'.
Proof.
  intros Hok Hsk. split.
  - intros s i. rewrite (skeleton_slot self self' s Hsk), (lk_link _ _ Hok). split; intros (nd & Hi & Hp).
    + destruct (skeleton_node' self self' i nd Hsk Hi) as (nd' & Hi' & Ep & _). exists nd'. by rewrite Ep.
    + destruct (skeleton_node self self' i nd Hsk Hi) as (nd' & Hi' & Ep & _). exists nd'. by rewrite Ep.
  - intros i nd Hi. destruct (skeleton_node self self' i nd Hsk Hi) as (nd0 & Hi0 & Ep & Epk & Ech & _).
    destruct (lk_node _ _ Hok i nd0 Hi0). split; by rewrite <- ?Ep, <- ?Epk, <- ?Ech.
Qed.

(** ** The trie that a structure describes *)

Section fixed.
Context (K : Z -> list Nibble) (self0 : TrieStructure CacheEntry).
Context (val : list Nibble -> option (TrieEntryVersion * list u8)).
Context (Hinv : trie_inv K self0).

(** The version and the value of a node. *)
Definition node_value_is (i : Z) nd (ver : TrieEntryVersion) (v : option (list u8)) : Prop :=
  if nd_has_storage_value nd then exists x, val (K i) = Some (ver, x) /\ v = Some x else ver = V1 /\ v = None.

Inductive denotes : Z -> Trie -> Prop :=
  | denotes_node i nd ver v ts :
      nodes self0 !! i = Some nd -> node_value_is i nd ver v -> length ts = 16%nat ->
      (forall n, is_nibble n -> get_child nd n = None -> ts !! Z.to_nat n = Some None) ->
      (forall n c, get_child nd n = Some c -> exists t, ts !! Z.to_nat n = Some (Some t)) ->
      (forall n c t, get_child nd n = Some c -> ts !! Z.to_nat n = Some (Some t) -> denotes c t) ->
      denotes i (TNode ver (nd_partial_key nd) v ts).

Definition is_root (i : Z) : bool := bool_decide (root_index self0 = Some i).

(** The Merkle value of a node of the trie, or of its root. *)
Definition merkle (root : bool) (t : Trie) : option Output := calculate_merkle_value (if root then root_config t else node_config t).

Definition filled self (i : Z) : Prop :=
  exists nd o, nodes self !! i = Some nd /\ merkle_value (nd_user_data nd) = Some o.
Definition unfilled self (i : Z) : Prop :=
  exists nd, nodes self !! i = Some nd /\ merkle_value (nd_user_data nd) = None.

#[local] Instance filled_dec self i : Decision (filled self i).
Proof.
  destruct (nodes self !! i) as [nd|] eqn:E.
  - destruct (merkle_value (nd_user_data nd)) as [o|] eqn:Eo.
    + left. by exists nd, o.
    + right. intros (nd' & o' & ? & ?). congruence.
  - right. intros (nd' & o' & ? & ?). congruence.
Defined.

(** The Merkle values that are there are right, and so are those of the children. *)
Definition cache_ok self : Prop :=
  forall i nd o, nodes self !! i = Some nd -> merkle_value (nd_user_data nd) = Some o ->
    (forall n c, get_child nd n = Some c -> filled self c) /\ exists t, denotes i t /\ merkle (is_root i) t = Some o.

(** *** Filling a Merkle value *)

Lemma list_choice {A B} (R : A -> B -> Prop) (l : list A) : (forall a, a ∈ l -> exists b, R a b) -> exists k, Forall2 R l k.
Proof.
  induction l as [|a l IH]; intros Hl; [by exists []|]. destruct (Hl a) as [b Hb]; [left|].
  destruct IH as [k Hk]; [intros x Hx; apply Hl; by right|]. exists (b :: k). by constructor.
Qed.

Lemma merkle_total config :
  length (cfg_children config) = 16%nat -> Forall (is_uint 4) (cfg_partial_key config) -> is_Some (calculate_merkle_value config).
Proof.
  intros Hch Hpk. unfold calculate_merkle_value, node_value_chunks. unfold len. rewrite Hch. cbn [Z.of_nat Z.eqb Pos.of_succ_nat Pos.succ].
  destruct (partial_key_chunks_spec (cfg_partial_key config) Hpk) as (chunks & -> & _). rewrite (proj2 (Z.eqb_eq _ 16)) by done.
  cbn [negb]. destruct (has_children config); by eexists.
Qed.

Definition opt_merkle (t : option Trie) : option Output := match t with Some t => merkle false t | None => None end.

Lemma nibbles_nth l n {A} (R : Z -> A -> Prop) (k : list A) x :
  Forall2 R l k -> l = all_nibbles -> is_nibble n -> k !! Z.to_nat n = Some x -> R n x.
Proof.
  intros HF -> Hn Hx. destruct (Forall2_lookup_r _ _ _ _ _ HF Hx) as (m & Hm & HR). unfold all_nibbles in Hm.
  rewrite lookup_seqZ in Hm. destruct Hm as [Hm _]. replace n with m; [done|]. unfold is_uint in Hn. lia.
Qed.

(** A child of a node is not the root. *)
Lemma child_not_root i nd n c : nodes self0 !! i = Some nd -> get_child nd n = Some c -> is_root c = false.
Proof.
  intros Hi Hc. apply bool_decide_false. intros Hr. destruct (child_link (tv_links _ _ Hinv) i nd n c Hi Hc) as (cn & Hcn & Hcp).
  destruct (root_link (tv_links _ _ Hinv) c Hr) as (cn' & Hcn' & Hnone). congruence.
Qed.

(** The children of a node are all filled: their values are those of tries. *)
Lemma children_tries self i nd :
  same_skeleton self0 self -> cache_ok self -> nodes self !! i = Some nd -> (forall n c, get_child nd n = Some c -> filled self c) ->
  exists ts, length ts = 16%nat /\ mapM (child_merkle_value self i) all_nibbles = Some (opt_merkle <$> ts) /\
    forall n, is_nibble n -> exists x, ts !! Z.to_nat n = Some x /\
      (get_child nd n = None -> x = None) /\ (forall c, get_child nd n = Some c -> exists t, x = Some t /\ denotes c t).
Proof.
  intros Hsk Hc Hi Hfill. destruct (skeleton_node self0 self i nd Hsk Hi) as (nd0 & Hi0 & _ & _ & Ech & _).
  assert (Hget : forall n, get_child nd n = get_child nd0 n) by (intros n; unfold get_child; by rewrite Ech).
  destruct (list_choice (fun n (x : option Trie) => child_merkle_value self i n = Some (opt_merkle x) /\
    (get_child nd n = None -> x = None) /\ (forall c, get_child nd n = Some c -> exists t, x = Some t /\ denotes c t)) all_nibbles) as [ts Hts].
  { intros n Hn. apply elem_of_seqZ in Hn. assert (Hnib : is_nibble n) by (unfold is_uint; lia).
    assert (Hslot : child_slot nd n = Some (get_child nd n)).
    { rewrite Hget, <- (child_slot_get (tv_links _ _ Hinv) nd0 i n Hi0 Hnib). unfold child_slot. by rewrite Ech. }
    unfold child_merkle_value, index_child_user_data. rewrite Hi, Hslot. destruct (get_child nd n) as [c|] eqn:Hcn.
    - destruct (Hfill n c Hcn) as (cn & o & Hcc & Ho). rewrite Hcc, Ho. destruct (Hc c cn o Hcc Ho) as (_ & t & Hden & Hm).
      rewrite Hget in Hcn. rewrite (child_not_root i nd0 n c Hi0 Hcn) in Hm.
      exists (Some t). cbn [opt_merkle]. rewrite Hm. split; [done|]. split; [done|]. intros c' [= <-]. eauto.
    - exists None. done. }
  assert (Hlen : length ts = 16%nat) by (rewrite <- (Forall2_length _ _ _ Hts); unfold all_nibbles; by rewrite length_seqZ).
  exists ts. split; [done|]. split.
  - apply mapM_Some. apply Forall2_fmap_r. eapply Forall2_impl; [exact Hts|]. by intros n x [? _].
  - intros n Hn. destruct (lookup_lt_is_Some_2 ts (Z.to_nat n)) as [x Hx]; [rewrite Hlen; unfold is_uint in Hn; lia|].
    exists x. split; [done|]. apply (nibbles_nth _ n _ _ x Hts eq_refl Hn Hx).
Qed.

Lemma fill_spec self i nd ver v :
  same_skeleton self0 self -> cache_ok self -> nodes self !! i = Some nd ->
  (forall n c, get_child nd n = Some c -> filled self c) -> node_value_is i nd ver v ->
  exists o, fill_merkle_value self i v ver = Some (set_node self i (with_user_data nd (mkCacheEntry (Some o)))) /\
    exists t, denotes i t /\ merkle (is_root i) t = Some o.
Proof.
  intros Hsk Hc Hi Hfill Hval. destruct (children_tries self i nd Hsk Hc Hi Hfill) as (ts & Hlen & Hmap & Hts).
  destruct (skeleton_node self0 self i nd Hsk Hi) as (nd0 & Hi0 & _ & Epk & Ech & Esv).
  pose proof (no_partial _ _ _ (lk_node _ _ (tv_links _ _ Hinv) i nd0 Hi0)) as Hpk.
  assert (Hget : forall n, get_child nd n = get_child nd0 n) by (intros n; unfold get_child; by rewrite Ech).
  assert (Hat : forall n c, get_child nd0 n = Some c -> exists t, ts !! Z.to_nat n = Some (Some t) /\ denotes c t).
  { intros n c Hcn. assert (Hn : is_nibble n) by (unfold get_child in Hcn; by case_bool_decide).
    destruct (Hts n Hn) as (x & Hx & _ & Hx0). rewrite <- Hget in Hcn. destruct (Hx0 c Hcn) as (t & -> & Ht). eauto. }
  assert (Hden : denotes i (TNode ver (nd_partial_key nd0) v ts)).
  { apply denotes_node; [done| |done|..].
    - unfold node_value_is in Hval |- *. by rewrite Esv.
    - intros n Hn Hnone. destruct (Hts n Hn) as (x & Hx & Hx0 & _). by rewrite Hx, Hx0 by (by rewrite Hget).
    - intros n c Hcn. destruct (Hat n c Hcn) as (t & Ht & _). eauto.
    - intros n c t Hcn Ht. destruct (Hat n c Hcn) as (t' & Ht' & Hd). by simplify_eq. }
  set (config := {| cfg_ty := if index_is_root_node self i then Root (nd_partial_key nd) else NonRoot (nd_partial_key nd);
    cfg_children := opt_merkle <$> ts; cfg_stored_value := v; cfg_version := ver |}).
  assert (Hcfg : config = if is_root i then root_config (TNode ver (nd_partial_key nd0) v ts) else node_config (TNode ver (nd_partial_key nd0) v ts)).
  { unfold config, index_is_root_node, is_root. rewrite (proj1 Hsk), Epk. case_bool_decide; cbn; f_equal. }
  destruct (merkle_total config) as [o Ho].
  { unfold config. cbn. by rewrite length_fmap. } { unfold config, cfg_partial_key. cbn. rewrite <- Epk. by destruct (index_is_root_node self i). }
  exists o. split; [|eexists; split; [exact Hden|]; unfold merkle; by rewrite <- Ho, Hcfg; destruct (is_root i)].
  unfold fill_merkle_value, index_partial_key. rewrite Hi, Hmap. fold config. rewrite Ho. unfold index_set_user_data. by rewrite Hi.
Qed.

(** ** The walk *)

Definition left_filled self (cur : Z) : Prop :=
  forall a an p n pn m c, anc self0 cur a -> nodes self0 !! a = Some an -> nd_parent an = Some (p, n) ->
    nodes self0 !! p = Some pn -> m < n -> get_child pn m = Some c -> filled self c.

Definition children_filled self (i : Z) : Prop :=
  forall nd n c, nodes self0 !! i = Some nd -> get_child nd n = Some c -> filled self c.

(** The state of the walk: what is to the left of the path to the current node is
    filled, and what is above is not. *)
Record walk_inv self (cur : Z) (coming : bool) : Prop := {
  wi_skeleton : same_skeleton self0 self;
  wi_cache : cache_ok self;
  wi_node : is_Some (nodes self0 !! cur);
  wi_parent : forall nd p n, nodes self0 !! cur = Some nd -> nd_parent nd = Some (p, n) -> unfilled self p;
  wi_left : left_filled self cur;
  wi_coming : coming = true -> unfilled self cur -> children_filled self cur
}.

Lemma filled_unfilled self i : filled self i -> unfilled self i -> False.
Proof. intros (nd & o & Hi & Ho) (nd' & Hi' & Hn). congruence. Qed.

Lemma not_filled self i : same_skeleton self0 self -> is_Some (nodes self0 !! i) -> ~ filled self i -> unfilled self i.
Proof.
  intros Hsk [nd0 Hi0] Hno. destruct (skeleton_node' self0 self i nd0 Hsk Hi0) as (nd & Hi & _). exists nd. split; [done|].
  destruct (merkle_value (nd_user_data nd)) as [o|] eqn:E; [|done]. destruct Hno. by exists nd, o.
Qed.

(** Above an unfilled node, nothing is filled. *)
Lemma unfilled_parent self i nd p n :
  same_skeleton self0 self -> cache_ok self -> nodes self0 !! i = Some nd -> nd_parent nd = Some (p, n) -> unfilled self i -> unfilled self p.
Proof.
  intros Hsk Hc Hi Hp Hun. destruct (parent_link (tv_links _ _ Hinv) i nd p n Hi Hp) as (pn & Hpn & Hch & _).
  apply not_filled; [done|by eexists|]. intros (pn' & o & Hpn' & Ho). destruct (Hc p pn' o Hpn' Ho) as [Hfill _].
  destruct (skeleton_node self0 self p pn' Hsk Hpn') as (pn0 & Hpn0 & _ & _ & Ech & _). simplify_eq.
  apply (filled_unfilled self i); [|done]. apply (Hfill n). unfold get_child in *. by rewrite <- Ech.
Qed.

Lemma get_child_neg nd n : n < 0 -> get_child nd n = None.
Proof. intros Hn. unfold get_child. rewrite bool_decide_false; [done|]. unfold is_uint. lia. Qed.

(** The first child from a slot on. *)
Lemma first_child_from nd k :
  length (nd_children nd) = 16%nat -> 0 <= k ->
  match first_child (drop (Z.to_nat k) (nd_children nd)) with
  | Some c => exists n, k <= n /\ get_child nd n = Some c /\ forall m, k <= m < n -> get_child nd m = None
  | None => forall m, k <= m -> get_child nd m = None
  end.
Proof.
  intros H16 Hk. remember (16 - Z.to_nat k)%nat as d eqn:Ed. revert k Hk Ed. induction d as [|d IH]; intros k Hk Ed.
  - rewrite drop_ge by lia. cbn. intros m Hm. unfold get_child. case_bool_decide; [|done]. rewrite lookup_ge_None_2; [done|]. lia.
  - destruct (lookup_lt_is_Some_2 (nd_children nd) (Z.to_nat k)) as [x Hx]; [lia|]. rewrite (drop_S _ x _ Hx).
    assert (Hget : get_child nd k = x).
    { unfold get_child. rewrite bool_decide_true by (unfold is_uint; lia). rewrite Hx. by destruct x. }
    destruct x as [c|]; [exists k; split_and!; [lia|done|lia]|].
    specialize (IH (k + 1) ltac:(lia) ltac:(lia)). replace (Z.to_nat (k + 1)) with (S (Z.to_nat k)) in IH by lia.
    set (l := drop (S (Z.to_nat k)) (nd_children nd)) in *. change (first_child (None :: l)) with (first_child l).
    destruct (first_child l) as [c|].
    + destruct IH as (n & Hn & Hc & Hbef). exists n. split_and!; [lia|done|]. intros m Hm. destruct (decide (m = k)) as [->|]; [done|]. apply Hbef. lia.
    + intros m Hm. destruct (decide (m = k)) as [->|]; [done|]. apply IH. lia.
Qed.

Lemma anc_inv i nd a : nodes self0 !! i = Some nd -> anc self0 i a -> a = i \/ exists p n, nd_parent nd = Some (p, n) /\ anc self0 p a.
Proof. intros Hi Ha. destruct Ha as [|i nd' p n a Hi' Hp Ha]; [by left|]. right. simplify_eq. eauto. Qed.

Lemma left_filled_parent self i nd p n : nodes self0 !! i = Some nd -> nd_parent nd = Some (p, n) -> left_filled self i -> left_filled self p.
Proof. intros Hi Hp Hl a an p' n' pn m c Ha. apply Hl. by eapply anc_parent. Qed.

(** *** The moves of the walk *)

Lemma move_sibling self cur coming nd p n pn s n' :
  walk_inv self cur coming -> filled self cur -> nodes self0 !! cur = Some nd -> nd_parent nd = Some (p, n) ->
  nodes self0 !! p = Some pn -> n < n' -> get_child pn n' = Some s -> (forall m, n < m < n' -> get_child pn m = None) ->
  walk_inv self s false.
Proof.
  intros [Hsk Hc Hcur Hpar Hleft _] Hf Hi Hp Hpn Hlt Hs Hbetween. destruct (child_link (tv_links _ _ Hinv) p pn n' s Hpn Hs) as (sn & Hsn & Hsp).
  destruct (parent_link (tv_links _ _ Hinv) cur nd p n Hi Hp) as (pn' & Hpn' & Hcn & _). simplify_eq.
  split; try done.
  - intros sn' p' m Hsn' Hsp'. simplify_eq. eauto.
  - intros a an q m qn m' c Ha Han Hap Hq Hm Hch. destruct (anc_inv s sn a Hsn Ha) as [->|(p' & n2 & Hsp' & Hpa)]; simplify_eq.
    + destruct (Z.lt_trichotomy m' n) as [?|[->|?]].
      * eapply (Hleft cur); [constructor|done..].
      * by simplify_eq.
      * rewrite Hbetween in Hch by lia. done.
    + eapply (Hleft a); [by eapply anc_parent|done..].
Qed.

Lemma move_parent self cur coming nd p n pn :
  walk_inv self cur coming -> filled self cur -> nodes self0 !! cur = Some nd -> nd_parent nd = Some (p, n) ->
  nodes self0 !! p = Some pn -> (forall m, n < m -> get_child pn m = None) -> walk_inv self p true.
Proof.
  intros [Hsk Hc Hcur Hpar Hleft _] Hf Hi Hp Hpn Hafter. split; try done.
  - intros pn' q m Hpn' Hq. eapply unfilled_parent; try done. eauto.
  - by apply (left_filled_parent self cur nd p n).
  - intros _ _ pn' m c Hpn' Hch. simplify_eq. destruct (Z.lt_trichotomy m n) as [?|[->|?]].
    + eapply (Hleft cur); [constructor|done..].
    + destruct (parent_link (tv_links _ _ Hinv) cur nd p n Hi Hp) as (pn' & Hpn'' & Hcn & _). by simplify_eq.
    + rewrite Hafter in Hch by done. done.
Qed.

Lemma move_child self cur coming nd n c :
  walk_inv self cur coming -> unfilled self cur -> nodes self0 !! cur = Some nd -> get_child nd n = Some c ->
  (forall m, m < n -> get_child nd m = None) -> walk_inv self c false.
Proof.
  intros [Hsk Hc Hcur Hpar Hleft _] Hu Hi Hch Hbefore. destruct (child_link (tv_links _ _ Hinv) cur nd n c Hi Hch) as (cn & Hcn & Hcp).
  split; try done.
  - intros cn' p m Hcn' Hp. by simplify_eq.
  - intros a an q m qn m' c' Ha Han Hap Hq Hm Hch'. destruct (anc_inv c cn a Hcn Ha) as [->|(p' & n2 & Hcp' & Hpa)]; simplify_eq.
    + rewrite Hbefore in Hch' by done. done.
    + eapply (Hleft a); eauto.
Qed.

Lemma filled_set self i nd o j :
  filled self j -> filled (set_node self i (with_user_data nd (mkCacheEntry (Some o)))) j.
Proof.
  intros (jn & o' & Hj & Ho). unfold filled. cbn. rewrite lookup_insert. destruct (decide (i = j)) as [->|].
  - eexists _, o. by split.
  - by exists jn, o'.
Qed.

Lemma filled_set_self self i nd o : filled (set_node self i (with_user_data nd (mkCacheEntry (Some o)))) i.
Proof. eexists _, o. cbn. rewrite lookup_insert, decide_True by done. by split. Qed.

Lemma filled_set_inv self i nd o j :
  filled (set_node self i (with_user_data nd (mkCacheEntry (Some o)))) j -> j = i \/ filled self j.
Proof.
  intros (jn & o' & Hj & Ho). cbn in Hj. rewrite lookup_insert in Hj. destruct (decide (i = j)) as [->|]; [by left|]. right. by exists jn, o'.
Qed.

Lemma unfilled_set self i nd o j :
  j <> i -> unfilled self j -> unfilled (set_node self i (with_user_data nd (mkCacheEntry (Some o)))) j.
Proof. intros Hne (jn & Hj & Ho). exists jn. cbn. rewrite lookup_insert_ne by done. done. Qed.

(** A node is filled, once its children are. *)
Lemma move_fill self cur coming nd ver v :
  walk_inv self cur coming -> nodes self !! cur = Some nd -> children_filled self cur -> node_value_is cur nd ver v ->
  exists self', fill_merkle_value self cur v ver = Some self' /\ walk_inv self' cur true /\ filled self' cur /\
    forall j, j <> cur -> filled self' j <-> filled self j.
Proof.
  intros [Hsk Hc Hcur Hpar Hleft _] Hi Hch Hval. destruct (skeleton_node self0 self cur nd Hsk Hi) as (nd0 & Hi0 & Ep & Epk & Ech & Esv).
  assert (Hchild : forall n c, get_child nd n = Some c -> filled self c).
  { intros n c Hcn. apply (Hch nd0 n c Hi0). unfold get_child in *. by rewrite Ech. }
  destruct (fill_spec self cur nd ver v Hsk Hc Hi Hchild Hval) as (o & Hrun & t & Hden & Hm). eexists. split; [done|].
  split; [|split; [apply filled_set_self|]].
  - split; [| |done|..].
    + eapply same_skeleton_trans; [done|]. by apply set_user_data_skeleton.
    + intros j jn o' Hj Ho. cbn in Hj. rewrite lookup_insert in Hj. destruct (decide (cur = j)) as [<-|].
      * injection Hj as <-. cbn in Ho. injection Ho as <-. split; [|by exists t]. intros n c Hcn. apply filled_set. by apply (Hchild n).
      * destruct (Hc j jn o' Hj Ho) as [Hjc Hjt]. split; [|done]. intros n' c' Hc'. apply filled_set. by apply (Hjc n').
    + intros nd' p n Hi' Hp. apply unfilled_set; [|by eapply Hpar]. intros ->.
      pose proof (parent_key (tv_links _ _ Hinv) _ _ _ _ Hi' Hp) as HK. apply (f_equal length) in HK. rewrite length_app in HK. cbn in HK. lia.
    + intros a an p n pn m c Ha Han Hp Hpn Hlt Hcm. apply filled_set. by eapply (Hleft a).
    + intros _ Hun. exfalso. apply (filled_unfilled _ _ (filled_set_self self cur nd o) Hun).
  - intros j Hj. split; [|apply filled_set]. by intros [?|?]%filled_set_inv.
Qed.

(** *** The measure *)

Definition missing self : gset Z := filter (fun i => ~ filled self i) (dom (nodes self0)).

(** The nodes that come later in the order of the keys. *)
Definition later (i : Z) : gset Z := filter (fun j => ~ key_le (K j) (K i)) (dom (nodes self0)).

Definition walk_measure self (cur : Z) (coming : bool) : nat :=
  size (missing self) * (size (nodes self0) + 2) + (if coming && bool_decide (~ filled self cur) then 0 else S (size (later cur))).

Lemma key_le_app (x y : list Nibble) : key_le x (x ++ y).
Proof. induction x as [|a x IH]; cbn; [done|]. by right. Qed.

Lemma key_le_fork (x y z : list Nibble) a b : a < b -> key_le (x ++ a :: y) (x ++ b :: z).
Proof. intros Hab. induction x as [|c x IH]; cbn; [by left|]. by right. Qed.

Lemma later_decr i j : is_Some (nodes self0 !! j) -> K i <> K j -> key_le (K i) (K j) -> (size (later j) < size (later i))%nat.
Proof.
  intros Hj Hne Hle. apply subset_size. unfold later. split.
  - intros x. rewrite !elem_of_filter. intros [Hx Hd]. split; [|done]. intros Hxi. apply Hx. by etrans.
  - intros Hsub. specialize (Hsub j). rewrite !elem_of_filter, elem_of_dom in Hsub. destruct Hsub as [Hjj _].
    + split; [|done]. intros Hji. apply Hne. by apply (anti_symm key_le).
    + apply Hjj. by destruct (total key_le (K j) (K j)).
Qed.

Lemma later_size i : (size (later i) <= size (nodes self0))%nat.
Proof. rewrite <- size_dom. apply subseteq_size. unfold later. intros x [_ Hx]%elem_of_filter. done. Qed.

Lemma missing_size self : (size (missing self) <= size (nodes self0))%nat.
Proof. rewrite <- size_dom. apply subseteq_size. unfold missing. intros x [_ Hx]%elem_of_filter. done. Qed.

Lemma missing_decr self self' i :
  is_Some (nodes self0 !! i) -> ~ filled self i -> filled self' i -> (forall j, j <> i -> filled self' j <-> filled self j) ->
  (size (missing self') < size (missing self))%nat.
Proof.
  intros Hi Hno Hf Hsame. apply subset_size. unfold missing. split.
  - intros x. rewrite !elem_of_filter. intros [Hx Hd]. split; [|done]. destruct (decide (x = i)) as [->|]; [done|]. by rewrite <- Hsame.
  - intros Hsub. specialize (Hsub i). rewrite !elem_of_filter, elem_of_dom in Hsub. by destruct Hsub.
Qed.

Lemma walk_measure_bound self cur coming :
  (walk_measure self cur coming < S (size (nodes self0)) * S (S (size (nodes self0))))%nat.
Proof.
  unfold walk_measure. pose proof (later_size cur). pose proof (missing_size self). destruct (coming && bool_decide (~ filled self cur)); nia.
Qed.

Lemma sibling_key_lt nd i p n pn s n' :
  nodes self0 !! i = Some nd -> nd_parent nd = Some (p, n) -> nodes self0 !! p = Some pn -> get_child pn n' = Some s -> n < n' ->
  (size (later s) < size (later i))%nat.
Proof.
  intros Hi Hp Hpn Hs Hlt. destruct (child_link (tv_links _ _ Hinv) p pn n' s Hpn Hs) as (sn & Hsn & Hsp).
  apply later_decr; [by eexists|..]; rewrite (parent_key (tv_links _ _ Hinv) _ _ _ _ Hi Hp), (parent_key (tv_links _ _ Hinv) _ _ _ _ Hsn Hsp).
  - intros E. apply app_inv_head in E. injection E as ? _. lia.
  - by apply key_le_fork.
Qed.

Lemma child_key_lt nd i n c :
  nodes self0 !! i = Some nd -> get_child nd n = Some c -> (size (later c) < size (later i))%nat.
Proof.
  intros Hi Hc. destruct (child_link (tv_links _ _ Hinv) i nd n c Hi Hc) as (cn & Hcn & Hcp).
  apply later_decr; [by eexists|..]; rewrite (parent_key (tv_links _ _ Hinv) _ _ _ _ Hcn Hcp).
  - intros E. apply (f_equal length) in E. rewrite length_app in E. cbn in E. lia.
  - apply key_le_app.
Qed.

(** *** A turn *)

(** The root of the trie is filled, and gives the hash. *)
Definition root_hash self (hash : list u8) : Prop :=
  exists r t o, root_index self0 = Some r /\ filled self r /\ denotes r t /\ merkle true t = Some o /\ hash = Output_as_ref o.

(** The current node has a storage value, which is needed. *)
Definition value_needed self (cur : Z) : Prop :=
  unfilled self cur /\ children_filled self cur /\ exists nd, nodes self0 !! cur = Some nd /\ nd_has_storage_value nd = true.

(** The nodes with a storage value that are not filled. *)
Definition values_missing self : gset Z :=
  filter (fun i => (nd_has_storage_value <$> nodes self0 !! i) = Some true) (missing self).

Definition turn_ok self (cur : Z) (coming : bool) (step : walk_step) : Prop :=
  match step with
  | WalkContinue self' cur' coming' => walk_inv self' cur' coming' /\
      (walk_measure self' cur' coming' < walk_measure self cur coming)%nat /\ values_missing self' = values_missing self
  | WalkFinished hash => root_hash self hash
  | WalkStorageValue => value_needed self cur
  end.

Lemma access_some self i : same_skeleton self0 self -> is_Some (nodes self0 !! i) ->
  exists acc, node_by_index_inner self i = Some acc /\ access_node_index acc = i.
Proof.
  intros Hsk [nd0 Hi0]. destruct (skeleton_node' self0 self i nd0 Hsk Hi0) as (nd & Hi & _). unfold node_by_index_inner. rewrite Hi.
  eexists. split; [done|]. by destruct (nd_has_storage_value nd).
Qed.

Lemma root_output_hash t o : merkle true t = Some o -> Output_into_hash o = Some (Output_as_ref o).
Proof.
  intros Hm. assert (Hlen : len (Output_as_ref o) = 32); [|unfold Output_into_hash; by rewrite Hlen].
  destruct (node_value t) as [v|] eqn:Ev.
  - pose proof (merkle_value_root t v Ev) as Hr. unfold merkle in Hm. rewrite Hm in Hr. injection Hr as ->. unfold len. by rewrite blake2b_length.
  - exfalso. unfold node_value in Ev. destruct (node_value_chunks (node_config t)) eqn:Ec; [done|].
    unfold merkle, calculate_merkle_value in Hm. replace (node_value_chunks (root_config t)) with (node_value_chunks (node_config t)) in Hm by (by destruct t).
    by rewrite Ec in Hm.
Qed.

Lemma measure_filled self cur coming : filled self cur ->
  walk_measure self cur coming = (size (missing self) * (size (nodes self0) + 2) + S (size (later cur)))%nat.
Proof. intros Hf. unfold walk_measure. rewrite bool_decide_false by (by intros ?). by rewrite andb_false_r. Qed.

Lemma measure_down self cur : walk_measure self cur false = (size (missing self) * (size (nodes self0) + 2) + S (size (later cur)))%nat.
Proof. done. Qed.

(** Filling a branch node does not change the values that are missing. *)
Lemma fill_branch_missing self self' i nd :
  nodes self0 !! i = Some nd -> nd_has_storage_value nd = false -> (forall j, j <> i -> filled self' j <-> filled self j) ->
  values_missing self' = values_missing self.
Proof.
  intros Hi Hsv Hsame. apply set_eq. intros j. unfold values_missing, missing. rewrite !elem_of_filter.
  destruct (decide (j = i)) as [->|Hne]; [rewrite Hi; cbn; rewrite Hsv; naive_solver|]. by rewrite (Hsame j Hne).
Qed.

(** From a node that is filled: to its next sibling, to its parent, or the end. *)
Lemma turn_filled self cur coming :
  walk_inv self cur coming -> filled self cur -> exists step, walk_turn self cur coming = Some step /\ turn_ok self cur coming step.
Proof.
  intros HW Hf. pose proof HW as [Hsk Hc Hcur Hpar Hleft _]. pose proof Hf as (nd & o & Hi & Ho).
  destruct (skeleton_node self0 self cur nd Hsk Hi) as (nd0 & Hi0 & Ep & _). destruct (access_some self cur Hsk Hcur) as (acc & Hacc & Ecur).
  unfold walk_turn, index_user_data, index_next_sibling, next_sibling, index_parent. rewrite Hacc, Hi, Ho.
  destruct (nd_parent nd) as [[p n]|] eqn:Hp.
  - destruct (parent_link (tv_links _ _ Hinv) cur nd0 p n Hi0 Ep) as (pn & Hpn & Hcn & Hn).
    destruct (skeleton_node' self0 self p pn Hsk Hpn) as (pn' & Hpn' & _ & _ & Ech & _). rewrite Hpn', Ech.
    pose proof (first_child_from pn (n + 1) (no_children_len _ _ _ (lk_node _ _ (tv_links _ _ Hinv) p pn Hpn)) ltac:(unfold is_uint in Hn; lia)) as Hfc.
    destruct (first_child (drop (Z.to_nat (n + 1)) (nd_children pn))) as [s|]; cbn [access_of fmap option_fmap option_map fst].
    + destruct Hfc as (n' & Hn' & Hs & Hbetween). destruct (child_link (tv_links _ _ Hinv) p pn n' s Hpn Hs) as (sn & Hsn & _).
      destruct (access_some self s Hsk ltac:(by eexists)) as (acc' & Hacc' & Eacc). rewrite Hacc', Eacc. eexists. split; [done|]. split; [|split; [|done]].
      * apply (move_sibling self cur coming nd0 p n pn s n'); try done; [lia|]. intros m Hm. apply Hbetween. lia.
      * rewrite (measure_filled _ _ _ Hf), measure_down.
        pose proof (sibling_key_lt nd0 cur p n pn s n' Hi0 Ep Hpn Hs ltac:(lia)). lia.
    + destruct (access_some self p Hsk ltac:(by eexists)) as (acc' & Hacc' & Eacc). rewrite Hacc', Eacc. eexists. split; [done|]. split; [|split; [|done]].
      * apply (move_parent self cur coming nd0 p n pn); try done. intros m Hm. apply Hfc. lia.
      * rewrite (measure_filled _ _ _ Hf). unfold walk_measure. rewrite bool_decide_true; [cbn; lia|].
        intros Hfp. apply (filled_unfilled self p Hfp). by apply (Hpar nd0 p n).
  - cbn [access_of fmap option_fmap option_map].
    assert (Hr : root_index self0 = Some cur) by (apply (lk_link _ _ (tv_links _ _ Hinv) None); eauto).
    unfold root_node. rewrite (proj1 Hsk), Hr, Hacc. rewrite Ecur, Hi, Ho. destruct (Hc cur nd o Hi Ho) as (_ & t & Hden & Hm). unfold is_root in Hm. rewrite bool_decide_true in Hm by done.
    rewrite (root_output_hash t o Hm). eexists. split; [done|]. by exists cur, t, o.
Qed.

(** From a node that is not: to its first child, to itself once it is filled, or a
    storage value is asked. *)
Lemma turn_unfilled self cur coming :
  walk_inv self cur coming -> unfilled self cur -> exists step, walk_turn self cur coming = Some step /\ turn_ok self cur coming step.
Proof.
  intros HW Hu. pose proof HW as [Hsk Hc Hcur Hpar Hleft Hcoming]. pose proof Hu as (nd & Hi & Ho).
  destruct (skeleton_node self0 self cur nd Hsk Hi) as (nd0 & Hi0 & Ep & _ & Ech & Esv).
  assert (Hacc : node_by_index_inner self cur = Some (if nd_has_storage_value nd then AccStorage cur else AccBranch cur)).
  { unfold node_by_index_inner. by rewrite Hi. }
  unfold walk_turn, index_user_data. rewrite Hacc, Hi, Ho.
  pose proof (first_child_from nd0 0 (no_children_len _ _ _ (lk_node _ _ (tv_links _ _ Hinv) cur nd0 Hi0)) ltac:(done)) as Hfc.
  change (drop (Z.to_nat 0) (nd_children nd0)) with (nd_children nd0) in Hfc.
  assert (Hdown : forall c, coming = false -> first_child (nd_children nd) = Some c ->
    walk_inv self c false /\ (walk_measure self c false < walk_measure self cur coming)%nat).
  { intros c -> Hfirst. rewrite Ech in Hfc. rewrite Hfirst in Hfc. destruct Hfc as (n & Hn & Hch & Hbefore). split.
    - apply (move_child self cur false nd0 n c); try done. intros m Hm. destruct (decide (0 <= m)); [apply Hbefore; lia|].
      apply get_child_neg. lia.
    - rewrite !measure_down. pose proof (child_key_lt nd0 cur n c Hi0 Hch). lia. }
  assert (Hup : children_filled self cur -> exists step,
    (if has_storage_value (if nd_has_storage_value nd then AccStorage cur else AccBranch cur) then Some WalkStorageValue
     else let! t := fill_merkle_value self cur None V1 in Some (WalkContinue t cur true)) = Some step /\ turn_ok self cur coming step).
  { intros Hch. destruct (nd_has_storage_value nd) eqn:Hsv; cbn [has_storage_value].
    - eexists. split; [done|]. split; [done|]. split; [done|]. exists nd0. by rewrite Esv.
    - destruct (move_fill self cur coming nd V1 None HW Hi Hch) as (self' & -> & HW' & Hf' & Hsame); [unfold node_value_is; by rewrite Hsv|].
      eexists. split; [done|]. split; [done|]. split; [|by apply (fill_branch_missing self self' cur nd0); [..|rewrite Esv|]].
      rewrite (measure_filled _ _ _ Hf'). unfold walk_measure.
      assert (Hno : ~ filled self cur) by (intros Hf; by apply (filled_unfilled self cur)).
      pose proof (missing_decr self self' cur Hcur Hno Hf' Hsame). pose proof (later_size cur).
      destruct (coming && bool_decide (~ filled self cur)); nia. }
  destruct coming; [by apply Hup, Hcoming|]. unfold index_first_child. rewrite Hi.
  destruct (first_child (nd_children nd)) as [c|] eqn:Hfirst; cbn [access_of].
  - destruct (Hdown c eq_refl eq_refl) as [HWc Hlt]. destruct (access_some self c Hsk (wi_node _ _ _ HWc)) as (acc' & -> & ->). eexists. split; [done|]. by split.
  - apply Hup. rewrite Ech in Hfc. rewrite Hfirst in Hfc. intros nd' n c Hnd' Hch. simplify_eq. destruct (decide (0 <= n)).
    + by rewrite Hfc in Hch by lia.
    + by rewrite get_child_neg in Hch by lia.
Qed.

(** *** The loop *)

Definition loop_ok self (r : RootMerkleValueCalculation) : Prop :=
  match r with
  | Finished hash cache => exists self', structure cache = Some self' /\ same_skeleton self0 self' /\ cache_ok self' /\
      root_hash self' hash /\ values_missing self' = values_missing self
  | CalcStorageValue calculation => exists self' cur, calculation = mkCalcInner (mkCalculationCache (Some self')) (Some cur) true /\
      walk_inv self' cur true /\ value_needed self' cur /\ values_missing self' = values_missing self
  | AllKeys _ => False
  end.

Lemma walk_turn_spec self cur coming :
  walk_inv self cur coming -> exists step, walk_turn self cur coming = Some step /\ turn_ok self cur coming step.
Proof.
  intros HW. destruct (decide (filled self cur)) as [Hf|Hf]; [by apply turn_filled|].
  apply turn_unfilled; [done|]. apply not_filled; [apply HW|apply HW|done].
Qed.

Lemma walk_loop_spec fuel self cur coming :
  walk_inv self cur coming -> (walk_measure self cur coming < fuel)%nat ->
  exists r, walk_loop fuel self cur coming = Some r /\ loop_ok self r.
Proof.
  revert self cur coming. induction fuel as [|fuel IH]; intros self cur coming HW Hf; [lia|]. cbn [walk_loop].
  destruct (walk_turn_spec self cur coming HW) as (step & -> & Hstep). destruct step as [self' cur' coming'|hash|].
  - destruct Hstep as (HW' & Hlt & Hsame). destruct (IH self' cur' coming' HW') as (r & Hrun & Hr); [lia|]. exists r. split; [done|].
    destruct r; [|done|]; cbn in Hr |- *; rewrite <- Hsame; done.
  - eexists. split; [done|]. exists self. split_and!; try done; apply HW.
  - eexists. split; [done|]. exists self, cur. split_and!; try done. destruct HW as [? ? ? ? ? _]. split; try done. intros _ _. apply Hstep.
Qed.

Lemma calc_next_spec self cur coming :
  walk_inv self cur coming -> exists r, CalcInner_next (mkCalcInner (mkCalculationCache (Some self)) (Some cur) coming) = Some r /\ loop_ok self r.
Proof.
  intros HW. unfold CalcInner_next. cbn [structure calc_cache calc_current coming_from_child]. apply walk_loop_spec; [done|]. unfold walk_fuel. rewrite (skeleton_size self0 self (wi_skeleton _ _ _ HW)).
  pose proof (walk_measure_bound self cur coming). lia.
Qed.

(** The calculation starts at the root. *)
Lemma calc_start_spec self r :
  same_skeleton self0 self -> cache_ok self -> root_index self0 = Some r ->
  exists res, root_merkle_value (Some (mkCalculationCache (Some self))) = Some res /\ loop_ok self res.
Proof.
  intros Hsk Hc Hr. destruct (root_link (tv_links _ _ Hinv) r Hr) as (rn & Hrn & Hp).
  destruct (access_some self r Hsk ltac:(by eexists)) as (acc & Hacc & Eacc).
  destruct (calc_next_spec self r false) as (res & Hrun & Hres).
  { split; try done; [intros nd p n Hnd Hpn; by simplify_eq|].
    intros a an p n pn m c Ha Han Hpa. destruct (anc_inv r rn a Hrn Ha) as [->|(q & k & Hq & _)]; by simplify_eq. }
  exists res. split; [|done]. unfold root_merkle_value, CalcInner_next. cbn [from_option id structure calc_cache calc_current coming_from_child].
  unfold root_node. rewrite (proj1 Hsk), Hr, Hacc, Eacc. exact Hrun.
Qed.

(** *** The answers of the caller *)

(** The key that is asked. *)
Lemma StorageValue_key_spec self cur coming :
  walk_inv self cur coming -> StorageValue_key (mkCalcInner (mkCalculationCache (Some self)) (Some cur) coming) = nibble_pairs (K cur).
Proof.
  intros HW. unfold StorageValue_key. cbn [structure calc_cache calc_current].
  destruct (wi_node _ _ _ HW) as [nd0 Hi0]. destruct (skeleton_node' self0 self cur nd0 (wi_skeleton _ _ _ HW) Hi0) as (nd & Hi & _).
  unfold node_full_key_by_index. rewrite bool_decide_true by (by eexists).
  rewrite (node_full_key_spec (skeleton_links K self0 self (tv_links _ _ Hinv) (wi_skeleton _ _ _ HW)) cur) by (by eexists). done.
Qed.

Lemma StorageValue_inject_spec self cur ver v :
  walk_inv self cur true -> value_needed self cur -> val (K cur) = Some (ver, v) ->
  exists self' r, StorageValue_inject (mkCalcInner (mkCalculationCache (Some self)) (Some cur) true) ver (Some v) = Some r /\
    loop_ok self' r /\ values_missing self' = values_missing self ∖ {[cur]}.
Proof.
  intros HW (Hun & Hch & nd0 & Hi0 & Hsv) Hval. destruct (skeleton_node' self0 self cur nd0 (wi_skeleton _ _ _ HW) Hi0) as (nd & Hi & _ & _ & _ & Esv).
  destruct (move_fill self cur true nd ver (Some v) HW Hi Hch) as (self' & Hrun & HW' & Hf' & Hsame).
  { unfold node_value_is. rewrite Esv, Hsv. by exists v. }
  destruct (calc_next_spec self' cur true HW') as (r & Hnext & Hr). exists self', r. split; [|split; [done|]].
  - unfold StorageValue_inject. cbn [structure calc_cache calc_current coming_from_child]. unfold node_by_index, node_by_index_inner.
    by rewrite Hi, Hrun.
  - apply set_eq. intros j. unfold values_missing, missing. rewrite elem_of_difference, !elem_of_filter, elem_of_singleton.
    destruct (decide (j = cur)) as [->|Hne]; [naive_solver|]. rewrite (Hsame j Hne). naive_solver.
Qed.

Lemma value_needed_missing self cur : value_needed self cur -> cur ∈ values_missing self.
Proof.
  intros (Hun & _ & nd & Hi & Hsv). unfold values_missing, missing. rewrite !elem_of_filter, elem_of_dom, Hi. cbn. rewrite Hsv.
  split_and!; [done| |by eexists]. intros Hf. by apply (filled_unfilled self cur).
Qed.

(** Once the root is filled, no value is missing. *)
Lemma all_filled self i :
  same_skeleton self0 self -> cache_ok self -> (forall r, root_index self0 = Some r -> filled self r) -> is_Some (nodes self0 !! i) -> filled self i.
Proof.
  intros Hsk Hc Hr Hi. destruct (anc_root (tv_links _ _ Hinv) i Hi) as (r & Hroot & Ha). specialize (Hr r Hroot). clear Hroot.
  induction Ha as [|i nd p n a Hnd Hp Ha IH]; [done|]. destruct (parent_link (tv_links _ _ Hinv) _ _ _ _ Hnd Hp) as (pn & Hpn & Hcn & _).
  destruct (IH Hr ltac:(by eexists)) as (pn' & o & Hpn' & Ho). destruct (Hc p pn' o Hpn' Ho) as [Hfill _]. apply (Hfill n).
  destruct (skeleton_node self0 self p pn' Hsk Hpn') as (pn0 & Hpn0 & _ & _ & Ech & _). simplify_eq. unfold get_child in *. by rewrite <- Ech.
Qed.

End fixed.
End walk.
