(* ===== verification/CalculateRootSpec.v ===== *)
(** * The root of a storage ([src/src/trie/calculate_root.rs])

    A calculation whose questions are answered from a storage ends, and gives the
    Merkle value of the root of the one canonical trie with the entries of the storage
    (CanonicalTrie.v). A cache that is right for the storage is given back filled, and
    makes the next calculation ask for nothing. *)

From S2P Require Import Prelude Nibble TrieNode BTree ProofVerify TrieStructure TrieStructureInv TrieStructureOps TrieStructureUpdate TrieStructureRun CanonicalTrie CalculateRoot CalculateRootWalk.

Open Scope Z_scope.

Section root.
Context `{Platform} `{Blake2bLaws}.
Implicit Types (self : TrieStructure CacheEntry) (nd : Node CacheEntry) (K : Z -> list Nibble).
Implicit Types (σ : gmap (list u8) (TrieEntryVersion * list u8)).

(** ** Keys *)

Lemma key_nibbles_of key : key_nibbles key = nibbles_of key.
Proof. unfold key_nibbles. by rewrite BytesToNibbles_all_spec. Qed.

Lemma key_nibbles_nibbles key : is_bytes key -> Forall (is_uint 4) (key_nibbles key).
Proof. rewrite key_nibbles_of. apply nibbles_of_nibbles. Qed.

Lemma key_nibbles_inj key key' : is_bytes key -> is_bytes key' -> key_nibbles key = key_nibbles key' -> key = key'.
Proof. rewrite !key_nibbles_of. apply nibbles_of_inj. Qed.

(** The key that is asked is the one whose nibbles make the path. *)
Lemma nibble_pairs_key key : is_bytes key -> nibble_pairs (key_nibbles key) = Some key.
Proof.
  rewrite key_nibbles_of. induction 1 as [|b key Hb _ IH]; [done|]. rewrite nibbles_of_cons. cbn [nibble_pairs]. rewrite IH. f_equal. f_equal.
  unfold is_uint in Hb. change (2 ^ 8) with 256 in Hb.
  rewrite join_nibbles; [rewrite (Z.div_mod b 16) at 3 by lia; lia|..]; unfold is_uint; change (2 ^ 4) with 16.
  - split; [apply Z.div_pos; lia|apply Z.div_lt_upper_bound; lia].
  - apply Z.mod_pos_bound. lia.
Qed.

Lemma key_nibbles_prefix key key' : is_bytes key -> is_bytes key' -> key_nibbles key `prefix_of` key_nibbles key' -> key `prefix_of` key'.
Proof.
  rewrite !key_nibbles_of. intros Hk. revert key'. induction Hk as [|b key Hb Hk IH]; intros key' Hk' Hpre; [apply prefix_nil|].
  destruct Hk' as [|b' key' Hb' Hk']; [by apply prefix_nil_not in Hpre|]. rewrite !nibbles_of_cons in Hpre.
  pose proof (prefix_cons_inv_1 _ _ _ _ Hpre) as E1. apply prefix_cons_inv_2 in Hpre.
  pose proof (prefix_cons_inv_1 _ _ _ _ Hpre) as E2. apply prefix_cons_inv_2 in Hpre.
  assert (b = b') as <- by (rewrite (Z.div_mod b 16), (Z.div_mod b' 16) by lia; lia). by apply prefix_cons, IH.
Qed.

(** ** The trie of a storage *)

Definition storage_keys σ : gset (list Nibble) := set_map key_nibbles (dom σ).

Definition storage_val σ (k : list Nibble) : option (TrieEntryVersion * list u8) := let! key := nibble_pairs k in σ !! key.

Definition trie_of σ (t : Trie) : Prop :=
  canonical t /\ forall k x, trie_entry t k x <-> exists key, k = key_nibbles key /\ σ !! key = Some x.

(** The root hash of a storage. *)
Definition storage_root σ (hash : list u8) : Prop :=
  if decide (σ = ∅) then
    Output_as_ref <$> calculate_merkle_value
      {| cfg_ty := Root []; cfg_children := replicate 16 None; cfg_stored_value := None; cfg_version := V1 |} = Some hash
  else exists t, trie_of σ t /\ Output_as_ref <$> calculate_merkle_value (root_config t) = Some hash.

Lemma trie_of_unique σ t t' : trie_of σ t -> trie_of σ t' -> t = t'.
Proof. intros [Hc He] [Hc' He']. apply canonical_unique; [done..|]. intros k x. by rewrite He, He'. Qed.

Lemma storage_root_unique σ hash hash' : storage_root σ hash -> storage_root σ hash' -> hash' = hash.
Proof.
  unfold storage_root. case_decide; [congruence|]. intros (t & Ht & Hh) (t' & Ht' & Hh').
  rewrite (trie_of_unique σ t' t Ht' Ht) in Hh'. congruence.
Qed.

(** ** The trie that a structure describes is that of the storage *)

Section denotes.
Context {K : Z -> list Nibble} {self : TrieStructure CacheEntry} {val : list Nibble -> option (TrieEntryVersion * list u8)}.
Context (Hinv : trie_inv K self).

Lemma denotes_canonical i t : denotes K self val i t -> canonical t.
Proof.
  induction 1 as [i nd ver v ts Hi Hval Hlen Hnone Hsome _ IH]. pose proof (tv_links _ _ Hinv) as Hok.
  pose proof (lk_node _ _ Hok i nd Hi) as [H16 _ Hpk _ _]. constructor; [done|done|..].
  - intros ->. unfold node_value_is in Hval. destruct (nd_has_storage_value nd) eqn:Hsv.
    + destruct Hval as (x & _ & Hx). done.
    + destruct Hval as [-> _]. split; [done|].
      destruct (proj1 (num_children_two H16) (tv_branches _ _ Hinv i nd Hi Hsv)) as (a & b & Hab & [c Hc] & [d Hd]).
      assert (Hnib : forall n x, get_child nd n = Some x -> is_nibble n) by (intros n x Hx; unfold get_child in Hx; by case_bool_decide).
      pose proof (Hnib a c Hc) as Ha. pose proof (Hnib b d Hd) as Hb. unfold is_uint in Ha, Hb.
      exists (Z.to_nat a), (Z.to_nat b). split_and!; [lia|by apply (Hsome a c)|by apply (Hsome b d)].
  - intros n t Ht. assert (Hn : is_nibble (Z.of_nat n)) by (apply lookup_lt_Some in Ht; unfold is_uint; lia).
    destruct (get_child nd (Z.of_nat n)) as [c|] eqn:Hc.
    + apply (IH (Z.of_nat n) c t Hc). by rewrite Nat2Z.id.
    + pose proof (Hnone _ Hn Hc) as Hno. rewrite Nat2Z.id in Hno. congruence.
Qed.

(** The entries below a node are the storage values of the nodes below it. *)
Lemma denotes_entries i nd t :
  nodes self !! i = Some nd -> denotes K self val i t -> forall k x, trie_entry t k x <->
  exists j jn, nodes self !! j = Some jn /\ nd_has_storage_value jn = true /\ K j = slot_key K (nd_parent nd) ++ k /\ val (K j) = Some x.
Proof.
  intros Hnd Hden. revert nd Hnd. induction Hden as [i nd ver v ts Hi Hval Hlen Hnone Hsome _ IH]. intros nd' Hnd' k x. simplify_eq.
  pose proof (tv_links _ _ Hinv) as Hok. pose proof (key_eq Hok i nd Hi) as HKi. rewrite entry_cases. split.
  - intros [(-> & y & -> & ->)|(n & t & rest & Hn & -> & Ht & He)].
    + unfold node_value_is in Hval. destruct (nd_has_storage_value nd) eqn:Hsv; [|by destruct Hval]. destruct Hval as (y' & Hy & [= <-]).
      exists i, nd. done.
    + assert (Hnib : is_nibble n) by (apply lookup_lt_Some in Ht; unfold is_uint; lia).
      destruct (get_child nd n) as [c|] eqn:Hc; [|pose proof (Hnone _ Hnib Hc); congruence].
      destruct (child_link Hok i nd n c Hi Hc) as (cn & Hcn & Hcp).
      apply (IH n c t Hc Ht cn Hcn) in He as (j & jn & Hj & Hs & HK & Hv). exists j, jn. split_and!; try done.
      rewrite HK, Hcp. cbn. rewrite HKi, <- !app_assoc. done.
  - intros (j & jn & Hj & Hs & HK & Hv).
    assert (Ha : anc self j i).
    { destruct (nd_parent nd) as [[p n]|] eqn:Hp; cbn in HK.
      - destruct (parent_link Hok i nd p n Hi Hp) as (pn & Hpn & Hc & _). rewrite <- app_assoc in HK.
        destruct (child_towards Hok p pn j n k Hpn ltac:(by eexists) HK) as (c & Hc' & Hac). by simplify_eq.
      - assert (Hr : slot_child self None = Some i) by (apply (lk_link _ _ Hok); eauto). cbn in Hr.
        destruct (anc_root Hok j ltac:(by eexists)) as (r & Hr' & Har). by simplify_eq. }
    destruct (anc_node Hok j i ltac:(by eexists) Ha) as (_ & [rest Hrest] & _). rewrite HKi, <- app_assoc, HK in Hrest. apply app_inv_head in Hrest as ->.
    destruct rest as [|n rest].
    + left. rewrite app_nil_r in *. split; [done|]. assert (j = i) as -> by (apply (key_inj Hok); [by eexists|by eexists|congruence]). simplify_eq.
      unfold node_value_is in Hval. rewrite Hs in Hval. destruct Hval as (y & Hy & ->). rewrite Hv in Hy. injection Hy as ->. eauto.
    + right. rewrite app_assoc, <- HKi in HK. destruct (child_towards Hok i nd j n rest Hi ltac:(by eexists) HK) as (c & Hc & _).
      destruct (Hsome n c Hc) as (t & Ht). assert (Hnib : is_nibble n) by (unfold get_child in Hc; by case_bool_decide).
      exists n, t, rest. split_and!; [unfold is_uint in Hnib; lia|done|done|]. destruct (child_link Hok i nd n c Hi Hc) as (cn & Hcn & Hcp).
      apply (IH n c t Hc Ht cn Hcn). exists j, jn. split_and!; try done. rewrite Hcp. cbn. by rewrite <- app_assoc.
Qed.

End denotes.

(** ** Caches *)

(** A cache that is right for a storage: it is empty, or it has the structure of the
    trie, and Merkle values of the trie. *)
Definition cache_for σ (cache : CalculationCache) : Prop :=
  match structure cache with
  | None => True
  | Some self => exists K, trie_inv K self /\ keys_are K self (storage_keys σ) /\ cache_ok K self (storage_val σ) self
  end.

Lemma same_skeleton_sym self self' : same_skeleton self self' -> same_skeleton self' self.
Proof. intros [Hr Hs]. split; [done|]. intros i. by rewrite Hs. Qed.

Lemma skeleton_inv K self self' : trie_inv K self -> same_skeleton self self' -> trie_inv K self'.
Proof.
  intros Hinv Hsk. split; [by apply (skeleton_links K self); [apply Hinv|]|]. intros i nd Hi Hsv.
  destruct (skeleton_node self self' i nd Hsk Hi) as (nd0 & Hi0 & _ & _ & Ech & Esv). rewrite <- Ech. apply (tv_branches _ _ Hinv i nd0 Hi0). congruence.
Qed.

Lemma skeleton_keys K self self' S : keys_are K self S -> same_skeleton self self' -> keys_are K self' S.
Proof.
  intros HS Hsk k. rewrite (HS k). split; intros (i & nd & Hi & Hs & HK).
  - destruct (skeleton_node' self self' i nd Hsk Hi) as (nd' & Hi' & _ & _ & _ & Esv). exists i, nd'. by rewrite Esv.
  - destruct (skeleton_node self self' i nd Hsk Hi) as (nd' & Hi' & _ & _ & _ & Esv). exists i, nd'. by rewrite Esv.
Qed.

Lemma skeleton_denotes K self self' val i t : same_skeleton self self' -> denotes K self val i t -> denotes K self' val i t.
Proof.
  intros Hsk. induction 1 as [i nd ver v ts Hi Hval Hlen Hnone Hsome _ IH].
  destruct (skeleton_node' self self' i nd Hsk Hi) as (nd' & Hi' & Ep & <- & Ech & Esv).
  assert (Hget : forall n, get_child nd' n = get_child nd n) by (intros n; unfold get_child; by rewrite Ech).
  apply denotes_node; [done| |done|..].
  - unfold node_value_is in *. by rewrite Esv.
  - intros n. rewrite Hget. apply Hnone.
  - intros n c. rewrite Hget. apply Hsome.
  - intros n c t. rewrite Hget. apply IH.
Qed.

Lemma skeleton_cache K self self' val : same_skeleton self self' -> cache_ok K self val self' -> cache_ok K self' val self'.
Proof.
  intros Hsk Hc i nd o Hi Ho. destruct (Hc i nd o Hi Ho) as (Hch & t & Hd & Hm). split; [done|]. exists t. split; [by eapply skeleton_denotes|].
  unfold is_root in *. by rewrite (proj1 Hsk).
Qed.

(** ** The root *)

Section storage.
Context (σ : gmap (list u8) (TrieEntryVersion * list u8)).
Context (Hbytes : forall key, is_Some (σ !! key) -> is_bytes key).

Lemma elem_storage_keys k : k ∈ storage_keys σ <-> exists key x, k = key_nibbles key /\ σ !! key = Some x.
Proof. unfold storage_keys. rewrite elem_of_map. setoid_rewrite elem_of_dom. unfold is_Some. naive_solver. Qed.

Lemma storage_val_key key x : is_bytes key -> storage_val σ (key_nibbles key) = Some x <-> σ !! key = Some x.
Proof. intros Hb. unfold storage_val. by rewrite nibble_pairs_key. Qed.

Context {K : Z -> list Nibble} {self : TrieStructure CacheEntry}.
Context (Hinv : trie_inv K self) (HS : keys_are K self (storage_keys σ)).

Lemma storage_node i nd :
  nodes self !! i = Some nd -> nd_has_storage_value nd = true -> exists key x, is_bytes key /\ K i = key_nibbles key /\ σ !! key = Some x.
Proof.
  intros Hi Hs. assert (Hin : K i ∈ storage_keys σ) by (apply HS; eauto). apply elem_storage_keys in Hin as (key & x & HK & Hx).
  exists key, x. split_and!; try done. apply Hbytes. by eexists.
Qed.

Lemma denotes_trie_of r t : root_index self = Some r -> denotes K self (storage_val σ) r t -> trie_of σ t.
Proof.
  intros Hr Hd. split; [by eapply denotes_canonical|]. destruct (root_link (tv_links _ _ Hinv) r Hr) as (rn & Hrn & Hp).
  intros k x. rewrite (denotes_entries Hinv r rn t Hrn Hd), Hp. cbn. split.
  - intros (j & jn & Hj & Hs & <- & Hv). destruct (storage_node j jn Hj Hs) as (key & y & Hb & HK & Hy). exists key. split; [done|].
    rewrite HK in Hv. by apply storage_val_key in Hv.
  - intros (key & -> & Hx). pose proof (Hbytes key ltac:(by eexists)) as Hb.
    destruct (proj1 (HS (key_nibbles key))) as (j & jn & Hj & Hs & HK); [apply elem_storage_keys; eauto|].
    exists j, jn. rewrite HK. split_and!; try done. by apply storage_val_key.
Qed.

Lemma root_storage : root_index self = None <-> σ = ∅.
Proof.
  split.
  - intros Hr. apply map_empty. intros key. apply eq_None_not_Some. intros [x Hx].
    destruct (proj1 (HS (key_nibbles key))) as (j & jn & Hj & _); [apply elem_storage_keys; eauto|].
    destruct (anc_root (tv_links _ _ Hinv) j ltac:(by eexists)) as (r & ? & _). congruence.
  - intros E. destruct (root_index self) as [r|] eqn:Hr; [|done]. destruct (root_link (tv_links _ _ Hinv) r Hr) as (rn & Hrn & _).
    destruct (storage_below Hinv r ltac:(by eexists)) as (j & jn & Hj & Hs & _).
    destruct (storage_node j jn Hj Hs) as (key & x & _ & _ & Hx). by rewrite E, lookup_empty in Hx.
Qed.

Lemma root_hash_storage self' hash : root_hash K self (storage_val σ) self' hash -> storage_root σ hash.
Proof.
  intros (r & t & o & Hr & _ & Hd & Hm & ->). unfold storage_root. case_decide as E; [apply root_storage in E; congruence|].
  exists t. split; [by apply (denotes_trie_of r)|]. unfold merkle in Hm. by rewrite Hm.
Qed.

End storage.

(** ** The structure from the keys *)

(** The keys of the list, with the indices that the slab gives. *)
Definition insertions (keys : list (list u8)) (indices : list (Z * Z)) : list (trie_op (TUd := CacheEntry)) :=
  zip_with (fun key '(nb, ns) => TInsert (key_nibbles key) nb ns CacheEntry_default CacheEntry_default) keys indices.

(** A key does not come after one that it is a prefix of, nor twice. *)
Definition prefixes_first (keys : list (list u8)) : Prop := ForallOrdPairs (fun key key' => ~ key' `prefix_of` key) keys.

Lemma prefixes_first_nodup keys : prefixes_first keys -> NoDup keys.
Proof. induction 1 as [|key keys Hf _ IH]; constructor; [|done]. intros Hk. rewrite Forall_forall in Hf. by apply (Hf key Hk). Qed.

Definition all_empty K self : Prop := forall k b u, has_entry K self k b u -> u = CacheEntry_default.

(** One key, which has no node yet. *)
Lemma insert_key_spec K self S key nb ns :
  trie_inv K self -> keys_are K self S -> all_empty K self -> (forall k, k ∈ S -> ~ key `prefix_of` k) ->
  trie_op_ok self (TInsert key nb ns CacheEntry_default CacheEntry_default) ->
  exists K' self' ca prepare, trie_node self key = Some (VacantEntry key ca) /\ vacant_insert_storage_value self key ca = Some prepare /\
    prepare_insert self prepare nb ns CacheEntry_default CacheEntry_default = Some self' /\
    trie_inv K' self' /\ keys_are K' self' ({[key]} ∪ S) /\ all_empty K' self'.
Proof.
  intros Hinv HS Hemp Hpre ([Hkey Hlen] & Hnb & Hns & Hne & Hib & His).
  destruct (trie_node_spec K self S key Hinv HS Hkey) as (e & Hrun & Hok & Hnode). destruct e as [[i|i]|k ca]; cbn in Hok, Hnode.
  - destruct Hok as [Hin _]. by destruct (Hpre key Hin).
  - destruct Hok as (_ & (a & b & x & y & _ & Hin & _) & _). destruct (Hpre _ Hin). by eexists.
  - destruct Hok as (-> & _). destruct (prepare_spec K self key ca (tv_links _ _ Hinv) Hkey Hnode) as (prepare & Hprep & Hprepok).
    destruct (prepare_insert_spec Hinv key prepare nb ns CacheEntry_default CacheEntry_default Hkey Hlen Hprepok Hnb Hns Hne Hib His)
      as (self' & K' & Hins & Hinv' & _ & _ & Hent).
    exists K', self', ca, prepare. split_and!; try done.
    + apply keys_are_entry. intros k. rewrite elem_of_union, elem_of_singleton. rewrite (proj1 (keys_are_entry K self S) HS).
      setoid_rewrite Hent. destruct prepare; naive_solver.
    + intros k b u Hk. apply Hent in Hk as [Hk|[(_ & _ & ->)|Hk]]; [by eapply Hemp|done|]. destruct prepare; [done|]. by destruct Hk as (_ & _ & ->).
Qed.

Lemma insert_keys_spec K self S keys indices :
  trie_inv K self -> keys_are K self S -> all_empty K self -> Forall is_bytes keys -> prefixes_first keys ->
  (forall k key, k ∈ S -> key ∈ keys -> ~ key_nibbles key `prefix_of` k) ->
  length indices = length keys -> trie_ops_ok self (insertions keys indices) ->
  exists K' self', insert_keys self keys indices = Some self' /\ trie_inv K' self' /\
    keys_are K' self' (list_to_set (key_nibbles <$> keys) ∪ S) /\ all_empty K' self'.
Proof.
  revert K self S indices. induction keys as [|key keys IH]; intros K self S indices Hinv HS Hemp Hb Hpf Hpre Hlen Hops.
  { exists K, self. cbn. split_and!; try done. replace (∅ ∪ S) with S by set_solver. by destruct indices. }
  destruct indices as [|[nb ns] indices]; [done|]. destruct Hops as [Hop Hops].
  destruct (insert_key_spec K self S (key_nibbles key) nb ns Hinv HS Hemp) as (K1 & self1 & ca & prepare & Hrun & Hprep & Hins & Hinv1 & HS1 & Hemp1);
    [intros k Hk; apply (Hpre k key Hk); left|done|].
  apply Forall_cons in Hb as [Hbk Hb]. inversion Hpf as [|? ? Hfirst Hpf']; subst.
  destruct (IH K1 self1 ({[key_nibbles key]} ∪ S) indices) as (K2 & self2 & Hrun2 & Hinv2 & HS2 & Hemp2); try done.
  - intros k key' [->%elem_of_singleton|Hk]%elem_of_union Hin; [|apply (Hpre k key' Hk); by right]. intros Hp.
    rewrite Forall_forall in Hfirst, Hb. apply (Hfirst key' Hin). apply key_nibbles_prefix; [by apply Hb|done..].
  - cbn in Hlen. lia.
  - apply Hops. cbn [run_trie_op]. by rewrite Hrun, Hprep.
  - exists K2, self2. cbn [insert_keys]. rewrite Hrun. cbn [into_vacant]. rewrite Hprep, Hins. split_and!; try done.
    cbn. replace ({[key_nibbles key]} ∪ list_to_set (key_nibbles <$> keys) ∪ S)
      with (list_to_set (key_nibbles <$> keys) ∪ ({[key_nibbles key]} ∪ S)) by set_solver. done.
Qed.

Lemma all_empty_unfilled K self i : all_empty K self -> ~ filled self i.
Proof.
  intros Hemp (nd & o & Hi & Ho). assert (E : nd_user_data nd = CacheEntry_default) by (apply (Hemp (K i) (nd_has_storage_value nd)); by exists i, nd).
  by rewrite E in Ho.
Qed.

Lemma all_empty_cache K self val : all_empty K self -> cache_ok K self val self.
Proof. intros Hemp i nd o Hi Ho. destruct (all_empty_unfilled K self i Hemp). by exists nd, o. Qed.

(** ** The answers of the caller *)

(** The storage values that the calculation asks are read, and its keys are noted. *)
Fixpoint answer_values (fuel : nat) (read : list u8 -> option (TrieEntryVersion * list u8)) (calculation : RootMerkleValueCalculation)
    : option (list u8 * CalculationCache * list (list u8)) :=
  match fuel, calculation with
  | _, Finished hash cache => Some (hash, cache, [])
  | S fuel, CalcStorageValue calculation =>
      let! key := StorageValue_key calculation in
      let! (version, value) := read key in
      let! calculation := StorageValue_inject calculation version (Some value) in
      let! (hash, cache, asked) := answer_values fuel read calculation in
      Some (hash, cache, key :: asked)
  | _, _ => None
  end.

(** The keys are given when the calculation asks for them. *)
Definition calculate_root (read : list u8 -> option (TrieEntryVersion * list u8)) (keys : list (list u8)) (indices : list (Z * Z))
    (cache : option CalculationCache) : option (list u8 * CalculationCache * list (list u8)) :=
  let! calculation := root_merkle_value cache in
  let! calculation :=
    match calculation with
    | AllKeys calculation => AllKeys_inject calculation keys indices
    | calculation => Some calculation
    end in
  answer_values (S (length keys)) read calculation.

Section answers.
Context (σ : gmap (list u8) (TrieEntryVersion * list u8)).
Context (Hbytes : forall key, is_Some (σ !! key) -> is_bytes key).
Context {K : Z -> list Nibble} {self0 : TrieStructure CacheEntry}.
Context (Hinv : trie_inv K self0) (HS : keys_are K self0 (storage_keys σ)).

(** What the calculation ends with: each missing value was asked once. *)
Definition answers_ok self (out : list u8 * CalculationCache * list (list u8)) : Prop :=
  let '(hash, cache, asked) := out in
  storage_root σ hash /\ cache_for σ cache /\ Forall is_bytes asked /\
  (exists self', structure cache = Some self' /\ same_skeleton self0 self' /\
    forall r, root_index self0 = Some r -> filled self' r) /\
  key_nibbles <$> asked ≡ₚ K <$> elements (values_missing self0 self).

Lemma finished_ok self self' hash :
  same_skeleton self0 self' -> cache_ok K self0 (storage_val σ) self' -> root_hash K self0 (storage_val σ) self' hash ->
  values_missing self0 self' = values_missing self0 self -> answers_ok self (hash, mkCalculationCache (Some self'), []).
Proof.
  intros Hsk Hc Hroot Hsame. assert (Hfill : forall r, root_index self0 = Some r -> filled self' r).
  { intros r' Hr'. destruct Hroot as (r & t & o & Hr & Hf & _). by simplify_eq. }
  split_and!; [by eapply root_hash_storage| |constructor|by exists self'|].
  - exists K. split_and!; [by apply (skeleton_inv K self0)|by apply (skeleton_keys K self0)|by apply (skeleton_cache K self0)].
  - rewrite <- Hsame. replace (values_missing self0 self') with (∅ : gset Z); [by rewrite elements_empty|]. apply set_eq. intros i.
    unfold values_missing, missing. rewrite !elem_of_filter, elem_of_dom. split; [by intros ?%elem_of_empty|]. intros (_ & Hno & Hi).
    destruct Hno. by eapply (all_filled K self0 (storage_val σ)).
Qed.

Lemma answer_values_spec fuel self r :
  loop_ok K self0 (storage_val σ) self r -> (size (values_missing self0 self) < fuel)%nat ->
  exists out, answer_values fuel (fun key => σ !! key) r = Some out /\ answers_ok self out.
Proof.
  revert self r. induction fuel as [|fuel IH]; intros self r Hr Hf; [lia|]. destruct r as [hash cache|calc|calc]; [|done|]; cbn [answer_values].
  - destruct Hr as (self' & Hs & Hsk & Hc & Hroot & Hsame). eexists. split; [done|]. destruct cache as [s]. cbn in Hs. subst s. by apply finished_ok.
  - destruct Hr as (self' & cur & -> & HW & Hneed & Hsame). rewrite (StorageValue_key_spec K self0 (storage_val σ) Hinv self' cur true HW).
    pose proof Hneed as (_ & _ & nd & Hi & Hs). destruct (storage_node σ Hbytes HS cur nd Hi Hs) as (key & [ver v] & Hb & HK & Hx).
    rewrite HK, nibble_pairs_key, Hx by done.
    destruct (StorageValue_inject_spec K self0 (storage_val σ) Hinv self' cur ver v HW Hneed) as (self2 & r2 & Hrun & Hr2 & Hmiss).
    { rewrite HK. by apply storage_val_key. }
    rewrite Hrun. pose proof (value_needed_missing self0 self' cur Hneed) as Hin. rewrite Hsame in Hmiss, Hin.
    assert (Hel : elements (values_missing self0 self) ≡ₚ cur :: elements (values_missing self0 self2)).
    { rewrite Hmiss, <- elements_union_singleton by set_solver. f_equiv. by rewrite <- union_difference_singleton. }
    destruct (IH self2 r2 Hr2) as ([[hash cache] asked] & Hout & Hok).
    { apply Permutation_length in Hel. cbn in Hel. unfold size, set_size in *. cbn in *. lia. }
    rewrite Hout. eexists. split; [done|]. destruct Hok as (Hroot & Hcache & Hab & Hstr & Hasked). split_and!; try done; [by constructor|].
    rewrite Hel, !fmap_cons, Hasked, HK. done.
Qed.

Lemma missing_node self i : i ∈ values_missing self0 self -> exists nd, nodes self0 !! i = Some nd /\ nd_has_storage_value nd = true.
Proof.
  unfold values_missing, missing. rewrite !elem_of_filter. intros [Hi _]. apply fmap_Some in Hi as (nd & Hi & Hs). exists nd. by rewrite <- Hs.
Qed.

Lemma missing_keys self :
  NoDup (K <$> elements (values_missing self0 self)) /\
  forall k, k ∈ K <$> elements (values_missing self0 self) -> exists key x, is_bytes key /\ k = key_nibbles key /\ σ !! key = Some x.
Proof.
  split.
  - apply NoDup_fmap_2_strong; [|apply NoDup_elements]. intros i j Hi%elem_of_elements Hj%elem_of_elements E.
    apply missing_node in Hi as (ni & Hi & _), Hj as (nj & Hj & _). apply (key_inj (tv_links _ _ Hinv)); [by eexists|by eexists|done].
  - intros k (i & -> & Hi%elem_of_elements)%list_elem_of_fmap. apply missing_node in Hi as (nd & Hi & Hs). by eapply storage_node.
Qed.

Lemma missing_bound self keys : (forall key, is_Some (σ !! key) -> key ∈ keys) -> (size (values_missing self0 self) <= length keys)%nat.
Proof.
  intros Hkeys. destruct (missing_keys self) as [Hnd Hin].
  change (size (values_missing self0 self)) with (length (elements (values_missing self0 self))).
  rewrite <- (length_fmap key_nibbles keys), <- (length_fmap K (elements (values_missing self0 self))).
  apply submseteq_length, NoDup_submseteq; [done|]. intros k (key & x & _ & -> & Hx)%Hin. apply list_elem_of_fmap. exists key. split; [done|].
  apply Hkeys. by eexists.
Qed.

Lemma empty_root_spec : exists hash, empty_root = Some hash /\ Output_as_ref <$> calculate_merkle_value
  {| cfg_ty := Root []; cfg_children := replicate 16 None; cfg_stored_value := None; cfg_version := V1 |} = Some hash.
Proof.
  set (t := TNode V1 [] None (replicate 16 None)).
  change {| cfg_ty := Root []; cfg_children := replicate 16 None; cfg_stored_value := None; cfg_version := V1 |} with (root_config t).
  assert (Hnv : is_Some (node_value t)) by (by eexists). destruct Hnv as [v Hv]. pose proof (merkle_value_root t v Hv) as Hr.
  destruct (calculate_merkle_value (root_config t)) as [o|] eqn:Eo; [|done]. exists (Output_as_ref o). split; [|done].
  unfold empty_root. change {| cfg_ty := Root []; cfg_children := replicate 16 None; cfg_stored_value := None; cfg_version := V1 |} with (root_config t).
  rewrite Eo. by apply (root_output_hash t).
Qed.

(** The calculation over the structure of the storage. *)
Lemma run_spec keys :
  cache_ok K self0 (storage_val σ) self0 -> (forall key, is_Some (σ !! key) -> key ∈ keys) ->
  exists r out, CalcInner_next (mkCalcInner (mkCalculationCache (Some self0)) None false) = Some r /\
    (forall c, r <> AllKeys c) /\ answer_values (S (length keys)) (fun key => σ !! key) r = Some out /\ answers_ok self0 out.
Proof.
  intros Hc Hkeys. destruct (root_index self0) as [root|] eqn:Hroot.
  - destruct (calc_start_spec K self0 (storage_val σ) Hinv self0 root (same_skeleton_refl self0) Hc Hroot) as (r & Hrun & Hr).
    destruct (answer_values_spec (S (length keys)) self0 r Hr) as (out & Hout & Hok); [pose proof (missing_bound self0 keys Hkeys); lia|].
    exists r, out. split_and!; try done. intros c ->. done.
  - destruct empty_root_spec as (hash & He & Hh). exists (Finished hash (mkCalculationCache (Some self0))), (hash, mkCalculationCache (Some self0), []).
    split_and!; [|done|done|].
    + unfold CalcInner_next. cbn [structure calc_cache calc_current coming_from_child]. unfold root_node. by rewrite Hroot, He.
    + split_and!; [|by exists K|constructor|exists self0; split_and!; [done..|intros r Hr; congruence]|].
      * unfold storage_root. rewrite decide_True; [done|]. by apply (root_storage σ Hbytes Hinv HS).
      * replace (values_missing self0 self0) with (∅ : gset Z); [by rewrite elements_empty|]. apply set_eq. intros i. split; [by intros ?%elem_of_empty|].
        intros (nd & Hi & _)%missing_node. destruct (anc_root (tv_links _ _ Hinv) i ltac:(by eexists)) as (r & ? & _). congruence.
Qed.

End answers.

(** ** The calculation *)

Definition keys_of σ (keys : list (list u8)) : Prop := Forall is_bytes keys /\ forall key, key ∈ keys <-> is_Some (σ !! key).

(** The structure that the calculation works on: that of the cache, or that of the keys. *)
Lemma structure_spec σ keys indices cache :
  keys_of σ keys -> cache_for σ cache ->
  (structure cache = None -> prefixes_first keys /\ length indices = length keys /\ trie_ops_ok TrieStructure_new (insertions keys indices)) ->
  exists K self, trie_inv K self /\ keys_are K self (storage_keys σ) /\ cache_ok K self (storage_val σ) self /\
    (structure cache = None -> all_empty K self) /\ (forall s, structure cache = Some s -> s = self) /\
    exists out, calculate_root (fun key => σ !! key) keys indices (Some cache) = Some out /\ answers_ok σ (K := K) (self0 := self) self out.
Proof.
  intros [Hb Hkeys] Hc Hnone. assert (Hbytes : forall key, is_Some (σ !! key) -> is_bytes key).
  { intros key Hk%Hkeys. rewrite Forall_forall in Hb. by apply Hb. }
  destruct cache as [[s|]]; cbn in Hc, Hnone.
  - destruct Hc as (K & Hinv & HS & Hc). exists K, s. split_and!; try done; [by intros ? [= <-]|].
    destruct (run_spec σ Hbytes Hinv HS keys Hc ltac:(by intros key ?%Hkeys)) as (r & out & Hrun & Hnot & Hout & Hok). exists out. split; [|done].
    unfold calculate_root, root_merkle_value. cbn [from_option id]. rewrite Hrun. destruct r; [done| |done]. by destruct (Hnot calculation).
  - destruct (Hnone eq_refl) as (Hpf & Hlen & Hops). destruct (trie_new_inv (TUd := CacheEntry)) as [Hinv HS].
    destruct (insert_keys_spec _ TrieStructure_new ∅ keys indices Hinv HS) as (K & self & Hrun & Hinv' & HS' & Hemp); try done.
    { intros k b u (i & nd & Hi & _). cbn in Hi. by rewrite lookup_empty in Hi. }
    replace (list_to_set (key_nibbles <$> keys) ∪ ∅) with (storage_keys σ) in HS'; cycle 1.
    { apply set_eq. intros k. rewrite elem_storage_keys, elem_of_union, elem_of_list_to_set, list_elem_of_fmap. setoid_rewrite Hkeys.
      unfold is_Some. set_solver. }
    pose proof (all_empty_cache K self (storage_val σ) Hemp) as Hc'.
    destruct (run_spec σ Hbytes Hinv' HS' keys Hc' ltac:(by intros key ?%Hkeys)) as (r & out & Hnext & Hnot & Hout & Hok).
    exists K, self. split_and!; try done. exists out. split; [|done].
    change (calculate_root (fun key => σ !! key) keys indices (Some (mkCalculationCache None))) with
      (let! r := AllKeys_inject (mkCalcInner (mkCalculationCache None) None false) keys indices in
       answer_values (S (length keys)) (fun key => σ !! key) r).
    unfold AllKeys_inject. rewrite Hrun. cbn [calc_current coming_from_child]. by rewrite Hnext.
Qed.

Lemma asked_spec σ keys {K self} (Hinv : trie_inv K self) (HS : keys_are K self (storage_keys σ)) self' asked :
  keys_of σ keys -> Forall is_bytes asked -> key_nibbles <$> asked ≡ₚ K <$> elements (values_missing self self') ->
  NoDup asked /\ asked ⊆ keys /\ (prefixes_first keys -> (forall i, ~ filled self' i) -> asked ≡ₚ keys).
Proof.
  intros [Hb Hkeys] Hab Hperm. assert (Hbytes : forall key, is_Some (σ !! key) -> is_bytes key).
  { intros key Hk%Hkeys. rewrite Forall_forall in Hb. by apply Hb. }
  rewrite Forall_forall in Hab, Hb. destruct (missing_keys σ Hbytes Hinv HS self') as [Hndk Hin].
  assert (Hnd : NoDup asked) by (apply (NoDup_fmap_1 key_nibbles); by rewrite Hperm).
  assert (Hsub : asked ⊆ keys).
  { intros key Hk. destruct (Hin (key_nibbles key)) as (key' & x & Hb' & HK & Hx); [rewrite <- Hperm; apply list_elem_of_fmap; eauto|].
    apply key_nibbles_inj in HK as ->; [|by apply Hab|done]. apply Hkeys. by eexists. }
  split_and!; try done. intros Hpf Hno. apply NoDup_Permutation; [done| |].
  - by apply prefixes_first_nodup.
  - intros key. split; [apply Hsub|]. intros Hk. pose proof (Hb key Hk) as Hbk. apply Hkeys in Hk as [x Hx].
    assert (Hks : key_nibbles key ∈ storage_keys σ) by (apply elem_storage_keys; eauto).
    apply HS in Hks as (i & nd & Hi & Hs & HK).
    assert (Hel : key_nibbles key ∈ key_nibbles <$> asked).
    { rewrite Hperm, <- HK. apply list_elem_of_fmap. exists i. split; [done|]. apply elem_of_elements. unfold values_missing, missing.
      rewrite !elem_of_filter, elem_of_dom, Hi. cbn. rewrite Hs. split_and!; [done|apply Hno|by eexists]. }
    apply list_elem_of_fmap in Hel as (key' & HK' & Hk'). apply key_nibbles_inj in HK' as ->; [done|done|by apply Hab].
Qed.

(** C1: for a storage [σ] whose keys are [keys], in an order in which no key comes after
    one that it is a prefix of, and a cache that is right for [σ] or empty: the
    calculation ends without a panic when its questions are answered from [σ]. The hash is
    the Merkle value of the root of the trie of [σ], the only canonical trie with the
    entries of [σ] (for an empty storage, that of an empty node), so that it does not
    depend on the order of the keys. No key is asked twice, only keys of [σ] are, and all
    of them when the cache is empty. The cache that is given back is right, and a
    calculation with it gives the hash again and asks for nothing. The order of the keys
    is a condition when there is no cache: in another one the insertion of a key at which
    two earlier ones part panics ([CalculateRootCache.keys_order_panics]), although the
    documentation asks for no order. *)
Theorem root_calculation_spec σ keys indices cache :
  keys_of σ keys -> cache_for σ cache ->
  (structure cache = None -> prefixes_first keys /\ length indices = length keys /\ trie_ops_ok TrieStructure_new (insertions keys indices)) ->
  exists hash cache' asked, calculate_root (fun key => σ !! key) keys indices (Some cache) = Some (hash, cache', asked) /\
    storage_root σ hash /\ (forall hash', storage_root σ hash' -> hash' = hash) /\
    NoDup asked /\ asked ⊆ keys /\ (structure cache = None -> asked ≡ₚ keys) /\
    cache_for σ cache' /\ exists cache2, calculate_root (fun key => σ !! key) keys indices (Some cache') = Some (hash, cache2, []).
Proof.
  intros Hkeys Hc Hnone.
  destruct (structure_spec σ keys indices cache Hkeys Hc Hnone) as (K & self & Hinv & HS & Hcok & Hemp & _ & [[hash cache'] asked] & Hrun & Hok).
  pose proof Hok as (Hroot & Hc' & Hab & (self' & Hs' & Hsk & Hfill) & Hperm). exists hash, cache', asked.
  destruct (asked_spec σ keys Hinv HS self asked Hkeys Hab Hperm) as (Hnd & Hsub & Hall). split_and!; try done.
  - intros hash' Hh. by apply (storage_root_unique σ).
  - intros Hn. apply Hall; [by apply Hnone|]. intros i. apply (all_empty_unfilled K). by apply Hemp.
  - destruct (structure_spec σ keys indices cache' Hkeys Hc') as (K2 & self2 & Hinv2 & HS2 & Hc2 & _ & Hs2 & [[hash2 cache2] asked2] & Hrun2 & Hok2).
    { intros Hn. congruence. }
    destruct Hok2 as (Hroot2 & _ & _ & _ & Hperm2). exists cache2. rewrite Hrun2. pose proof (Hs2 self' Hs') as ->.
    rewrite (storage_root_unique σ _ _ Hroot Hroot2). rewrite (proj2 (elements_empty_iff _)) in Hperm2.
    + apply Permutation_nil_r, fmap_nil_inv in Hperm2. by rewrite Hperm2.
    + apply elem_of_equiv_empty. intros i Hi. unfold values_missing, missing in Hi. rewrite !elem_of_filter, elem_of_dom in Hi. destruct Hi as (_ & Hno & Hi). destruct Hno.
      apply (all_filled K2 self2 (storage_val σ) Hinv2); try done. intros r Hr. apply Hfill. by rewrite <- Hr, (proj1 Hsk).
Qed.

End root.

(** ** Concrete storages *)

Section concrete.
#[local] Existing Instance platform64.
#[local] Existing Instance toy_blake2b.
#[local] Existing Instance toy_blake2b_laws.

(** Two keys, one a prefix of the other. *)
Definition storage_two : gmap (list u8) (TrieEntryVersion * list u8) := {[ [17] := (V1, [5]); [17; 34] := (V1, [6]) ]}.
Definition keys_two : list (list u8) := [[17]; [17; 34]].
Definition indices_two : list (Z * Z) := [(10, 0); (11, 1)].

Lemma keys_two_of : keys_of storage_two keys_two.
Proof.
  split; [repeat constructor; unfold is_uint; lia|]. intros key. unfold keys_two, storage_two. rewrite !elem_of_cons, elem_of_nil.
  rewrite lookup_insert_is_Some, lookup_singleton_is_Some. naive_solver.
Qed.

Lemma small_key_ok (key : list u8) : Forall (fun b => 0 <= b < 256) key -> (length key < 10)%nat -> key_ok (key_nibbles key).
Proof.
  intros Hb Hl. split; [by apply key_nibbles_nibbles|]. rewrite key_nibbles_of. unfold len. rewrite length_nibbles_of.
  unfold is_uint, usize_bits. cbn. lia.
Qed.

Lemma small_op_ok (self : TrieStructure CacheEntry) key nb ns :
  Forall (fun b => 0 <= b < 256) key -> (length key < 10)%nat -> nodes self !! nb = None -> nodes self !! ns = None ->
  nb <> ns -> 0 <= nb < 100 -> 0 <= ns < 100 -> trie_op_ok self (TInsert (key_nibbles key) nb ns CacheEntry_default CacheEntry_default).
Proof.
  intros Hb Hl Hnb Hns Hne Hib His. assert (Hmax : usize_max = 2 ^ 64 - 1) by done. split; [by apply small_key_ok|]. rewrite Hmax.
  split_and!; try done; lia.
Qed.

Lemma insertions_two_ok : trie_ops_ok TrieStructure_new (insertions keys_two indices_two).
Proof.
  split; [apply small_op_ok; [repeat constructor; lia|cbn; lia|done|done|lia..]|]. intros t1 E1. vm_compute in E1. injection E1 as <-.
  split; [apply small_op_ok; [repeat constructor; lia|cbn; lia|done|done|lia..]|done].
Qed.

Lemma root_calculation_spec_witness :
  keys_of storage_two keys_two /\ exists hash cache asked,
    calculate_root (fun key => storage_two !! key) keys_two indices_two (Some CalculationCache_empty) = Some (hash, cache, asked) /\ asked ≡ₚ keys_two.
Proof.
  split; [exact keys_two_of|].
  destruct (root_calculation_spec storage_two keys_two indices_two CalculationCache_empty keys_two_of I) as (hash & cache & asked & Hrun & _ & _ & _ & _ & Hasked & _).
  - intros _. split; [repeat constructor; by intros Hp%prefix_length; cbn in Hp; lia|]. split; [reflexivity|exact insertions_two_ok].
  - exists hash, cache, asked. split; [exact Hrun|by apply Hasked].
Defined.

End concrete.
