(* ===== verification/CalculateRootCache.v ===== *)
(** * The updates of the cache ([src/src/trie/calculate_root.rs])

    When the storage changes, the cache changes the structure of its trie and removes
    the Merkle values that are no longer right. The cache stays right for the storage,
    but for one kind of change: a key without a node, which is a prefix of another key.
    A closed theorem shows that the root is then wrong. *)

From stdpp Require Import functions.
From S2P Require Import Prelude Nibble TrieNode ProofVerify TrieStructure TrieStructureInv TrieStructureOps TrieStructureUpdate TrieStructureRun CanonicalTrie CalculateRoot CalculateRootWalk CalculateRootSpec.

Open Scope Z_scope.

Section cache.
Context `{Platform} `{Blake2bLaws}.
Implicit Types (self : TrieStructure CacheEntry) (nd : Node CacheEntry) (K : Z -> list Nibble).
Implicit Types (val : list Nibble -> option (TrieEntryVersion * list u8)).

(** ** Values that stay *)

(** The node [i] of the new structure is that of the old one, but for its parent. *)
Definition kept K self val (K' : Z -> list Nibble) (self' : TrieStructure CacheEntry) (val' : list Nibble -> option (TrieEntryVersion * list u8))
    (i : Z) (nd' : Node CacheEntry) : Prop :=
  exists nd, nodes self !! i = Some nd /\ nd_partial_key nd' = nd_partial_key nd /\ nd_has_storage_value nd' = nd_has_storage_value nd /\
    nd_user_data nd' = nd_user_data nd /\ (forall n, get_child nd' n = get_child nd n) /\
    (root_index self' = Some i <-> root_index self = Some i) /\ (nd_has_storage_value nd = true -> val' (K' i) = val (K i)).

Lemma kept_denotes K self val K' self' val' i t :
  denotes K self val i t ->
  (forall j nd', nodes self' !! j = Some nd' -> filled self' j -> kept K self val K' self' val' j nd' /\ forall n c, get_child nd' n = Some c -> filled self' c) ->
  filled self' i -> denotes K' self' val' i t.
Proof.
  intros Hd Hkept. induction Hd as [i nd ver v ts Hi Hval Hlen Hnone Hsome _ IH]. intros Hf. pose proof Hf as (nd' & o & Hi' & _).
  destruct (Hkept i nd' Hi' Hf) as [(nd0 & Hnd0 & Epk & Esv & _ & Hget & _ & Hv) Hch]. assert (nd0 = nd) as -> by congruence.
  rewrite <- Epk. apply denotes_node; [done| |done|..].
  - unfold node_value_is in *. rewrite Esv. destruct (nd_has_storage_value nd); [|done]. destruct Hval as (y & Hy & ->). exists y. by rewrite Hv.
  - intros n. rewrite Hget. apply Hnone.
  - intros n c. rewrite Hget. apply Hsome.
  - intros n c t Hc Ht. apply (IH n c t); [by rewrite <- Hget|done|]. by apply (Hch n).
Qed.

Lemma kept_cache K self val K' self' val' :
  cache_ok K self val self ->
  (forall j nd', nodes self' !! j = Some nd' -> filled self' j -> kept K self val K' self' val' j nd' /\ forall n c, get_child nd' n = Some c -> filled self' c) ->
  cache_ok K' self' val' self'.
Proof.
  intros Hc Hkept i nd' o Hi Ho. assert (Hf : filled self' i) by (by exists nd', o). destruct (Hkept i nd' Hi Hf) as [Hk Hch]. split; [done|].
  destruct Hk as (nd & Hnd & _ & _ & Eu & _ & Hroot & _). rewrite Eu in Ho. destruct (Hc i nd o Hnd Ho) as (_ & t & Hd & Hm).
  exists t. split; [by eapply kept_denotes|]. replace (is_root self' i) with (is_root self i); [done|].
  unfold is_root. apply bool_decide_ext. by rewrite Hroot.
Qed.

(** ** Invalidation *)

Lemma anc_up self x i nd p n : anc self x i -> nodes self !! i = Some nd -> nd_parent nd = Some (p, n) -> anc self x p.
Proof.
  intros Ha Hi Hp. induction Ha as [x|x xn q m a Hx Hxp _ IH]; [|eapply anc_parent; [done..|by apply IH]].
  eapply anc_parent; [done..|]. constructor.
Qed.

Lemma anc_skeleton self self' x i : same_skeleton self self' -> anc self x i -> anc self' x i.
Proof.
  intros Hsk. induction 1 as [x|x xn q m a Hx Hxp _ IH]; [constructor|].
  destruct (skeleton_node' self self' x xn Hsk Hx) as (xn' & Hx' & Ep & _). eapply anc_parent; [done|by rewrite Ep|done].
Qed.

(** What the walk towards the root does: the nodes above [x] are empty, the others are
    as before. *)
Definition cleared_above self (A : Z -> Prop) (self' : TrieStructure CacheEntry) : Prop :=
  same_skeleton self self' /\ forall j nd', nodes self' !! j = Some nd' ->
    (A j -> merkle_value (nd_user_data nd') = None) /\ (~ A j -> nodes self !! j = Some nd').

Lemma clear_run self x nd :
  nodes self !! x = Some nd -> exists self', clear_merkle_value self x = Some self' /\
    same_skeleton self self' /\ forall j, nodes self' !! j = if decide (j = x) then Some (skeleton nd) else nodes self !! j.
Proof.
  intros Hx. unfold clear_merkle_value, index_set_user_data. rewrite Hx. eexists. split; [done|]. split; [by apply set_user_data_skeleton|].
  intros j. cbn. rewrite lookup_insert. destruct (decide (x = j)), (decide (j = x)); done || congruence.
Qed.

Lemma unfilled_clear self self' x nd j :
  nodes self !! x = Some nd -> (forall i, nodes self' !! i = if decide (i = x) then Some (skeleton nd) else nodes self !! i) ->
  unfilled self' j <-> j = x \/ unfilled self j.
Proof.
  intros Hx Hn. unfold unfilled. rewrite Hn. destruct (decide (j = x)) as [->|Hne]; [|naive_solver].
  split; [by left|]. intros _. by exists (skeleton nd).
Qed.

(** Below an unfilled node on the path to the root, the others are unfilled. *)
Definition unfilled_up self (x : Z) : Prop :=
  forall a an p n, anc self x a -> nodes self !! a = Some an -> nd_parent an = Some (p, n) -> unfilled self a -> unfilled self p.

Lemma unfilled_above self x a : unfilled_up self x -> unfilled self x -> anc self x a -> unfilled self a.
Proof.
  intros Hup Hx Ha. induction Ha as [x|x xn p n a Hxn Hp _ IH]; [done|]. apply IH.
  - intros b bn q m Hb. apply Hup. by eapply anc_parent.
  - apply (Hup x xn p n); [constructor|done..].
Qed.

(** One step towards the root: the node is cleared, and then those above its parent. *)
Section step.
Context {K : Z -> list Nibble} {self self1 : TrieStructure CacheEntry} (i p : Z) (n : Nibble) (nd : Node CacheEntry).
Context (Hok : links_ok K self) (Hi : nodes self !! i = Some nd) (Hp : nd_parent nd = Some (p, n)).
Context (Hsk : same_skeleton self self1).
Context (Hn1 : forall j, nodes self1 !! j = if decide (j = i) then Some (skeleton nd) else nodes self !! j).

Lemma parent_not_below : ~ anc self p i.
Proof.
  intros Ha. destruct (parent_link Hok i nd p n Hi Hp) as (pn & Hpn & _). destruct (anc_node Hok p i ltac:(by eexists) Ha) as (_ & Hpre & _).
  apply prefix_length in Hpre. rewrite (parent_key Hok _ _ _ _ Hi Hp), length_app in Hpre. cbn in Hpre. lia.
Qed.

Lemma unfilled_up_clear : unfilled_up self p -> unfilled_up self1 p.
Proof.
  intros Hup a an q m Ha Han Hq. rewrite !(unfilled_clear self self1 i nd) by done. apply (anc_skeleton self1 self) in Ha; [|by apply same_skeleton_sym].
  destruct (skeleton_node self self1 a an Hsk Han) as (an0 & Han0 & Ep & _). intros [->|Hun]; [by destruct parent_not_below|].
  right. apply (Hup a an0 q m); [done|done|congruence|done].
Qed.

Lemma cleared_step self2 : cleared_above self1 (anc self1 p) self2 -> cleared_above self (anc self i) self2.
Proof.
  intros [Hsk2 Hn2]. split; [by eapply same_skeleton_trans|]. pose proof (same_skeleton_sym _ _ Hsk) as Hsym.
  intros j jn Hj. destruct (Hn2 j jn Hj) as [Ha Hno]. split.
  - intros Haj. destruct (anc_inv self i nd j Hi Haj) as [->|(q & m & Hq & Hpj)].
    + rewrite Hn1, decide_True in Hno by done. assert (E : Some (skeleton nd) = Some jn); [|by injection E as <-].
      apply Hno. intros Hpi. apply parent_not_below. by apply (anc_skeleton self1 self).
    + apply Ha. apply (anc_skeleton self self1); [done|]. congruence.
  - intros Haj. assert (Hji : j <> i) by (intros ->; apply Haj; constructor).
    rewrite Hn1, decide_False in Hno by done. apply Hno. intros Hpj. apply Haj. eapply anc_parent; [done..|].
    by apply (anc_skeleton self1 self).
Qed.

End step.

Lemma cleared_root self self1 i nd :
  nodes self !! i = Some nd -> nd_parent nd = None -> same_skeleton self self1 ->
  (forall j, nodes self1 !! j = if decide (j = i) then Some (skeleton nd) else nodes self !! j) -> cleared_above self (anc self i) self1.
Proof.
  intros Hi Hp Hsk Hn1. split; [done|]. intros j jn Hj. rewrite Hn1 in Hj. split.
  - intros Haj. destruct (anc_inv self i nd j Hi Haj) as [->|(q & m & Hq & _)]; [|congruence]. rewrite decide_True in Hj by done. by injection Hj as <-.
  - intros Haj. rewrite decide_False in Hj; [done|]. intros ->. apply Haj. constructor.
Qed.

Lemma invalidate_loop_spec K fuel self acc i :
  links_ok K self -> access_node_index acc = i -> is_Some (nodes self !! i) -> unfilled_up self i -> (size (shorter (K := K) (self := self) i) + 1 < fuel)%nat ->
  exists self', invalidate_loop fuel self (Some acc) = Some self' /\ cleared_above self (anc self i) self'.
Proof.
  revert self acc i. induction fuel as [|fuel IH]; intros self acc i Hok Hacc [nd Hi] Hup Hf; [lia|].
  cbn [invalidate_loop]. unfold index_user_data. rewrite Hacc, Hi. destruct (merkle_value (nd_user_data nd)) as [o|] eqn:Ho; cycle 1.
  { exists self. split; [done|]. split; [done|]. intros j jn Hj. split; [|done]. intros Ha.
    destruct (unfilled_above self i j Hup ltac:(by exists nd) Ha) as (jn' & ? & ?). congruence. }
  destruct (clear_run self i nd Hi) as (self1 & -> & Hsk & Hn1). unfold index_parent. rewrite (Hn1 i), decide_True by done. cbn [skeleton with_user_data nd_parent].
  destruct (nd_parent nd) as [[p n]|] eqn:Hp; cbn [fmap option_fmap option_map fst access_of].
  - destruct (parent_link Hok i nd p n Hi Hp) as (pn & Hpn & _). destruct (access_some self self1 p Hsk ltac:(by eexists)) as (acc' & -> & Eacc).
    destruct (IH self1 acc' p) as (self2 & Hrun & Hclear); [by apply (skeleton_links K self)|done| | | |].
    + rewrite Hn1. case_decide; [by eexists|by eexists].
    + apply (unfilled_up_clear i p n nd Hok Hi Hp Hsk Hn1). intros a an q m Ha. apply Hup. by eapply anc_parent.
    + assert (Hlt : (length (K p) < length (K i))%nat) by (rewrite (parent_key Hok _ _ _ _ Hi Hp), length_app; cbn; lia).
      pose proof (shorter_decr i p ltac:(by eexists) Hlt).
      replace (size (shorter (K := K) (self := self1) p)) with (size (shorter (K := K) (self := self) p)); [lia|].
      unfold shorter. by rewrite (skeleton_dom self self1 Hsk).
    + exists self2. split; [done|]. by apply (cleared_step i p n nd Hok Hi Hp Hsk Hn1).
  - exists self1. destruct fuel as [|fuel]; [lia|]. split; [done|]. by apply (cleared_root self self1 i nd).
Qed.

Lemma shorter_size K self i : (size (shorter (K := K) (self := self) i) <= size (nodes self))%nat.
Proof. rewrite <- size_dom. apply subseteq_size. unfold shorter. intros x [_ Hx]%elem_of_filter. done. Qed.

(** The end of [storage_value_update]: a node, and then those above it. *)
Lemma invalidate_spec K self acc x :
  links_ok K self -> access_node_index acc = x -> is_Some (nodes self !! x) ->
  (forall nd p n, nodes self !! x = Some nd -> nd_parent nd = Some (p, n) -> unfilled_up self p) ->
  exists self2, invalidate_from self (Some acc) = Some self2 /\ cleared_above self (anc self x) self2.
Proof.
  intros Hok Hacc [nd Hi] Hup. unfold invalidate_from. rewrite Hacc. destruct (clear_run self x nd Hi) as (self1 & -> & Hsk & Hn1). unfold index_parent.
  rewrite (Hn1 x), decide_True by done. cbn [skeleton with_user_data nd_parent].
  destruct (nd_parent nd) as [[p n]|] eqn:Hp; cbn [fmap option_fmap option_map fst access_of].
  - destruct (parent_link Hok x nd p n Hi Hp) as (pn & Hpn & _). destruct (access_some self self1 p Hsk ltac:(by eexists)) as (acc' & -> & Eacc).
    destruct (invalidate_loop_spec K (S (S (size (nodes self1)))) self1 acc' p) as (self2 & Hrun & Hclear); [by apply (skeleton_links K self)|done| | | |].
    + rewrite Hn1. case_decide; [by eexists|by eexists].
    + apply (unfilled_up_clear x p n nd Hok Hi Hp Hsk Hn1). by eapply Hup.
    + pose proof (shorter_size K self1 p). lia.
    + exists self2. split; [done|]. by apply (cleared_step x p n nd Hok Hi Hp Hsk Hn1).
  - exists self1. split; [done|]. by apply (cleared_root self self1 x nd).
Qed.

(** The children of a node. *)
Lemma clear_children_spec K self i nd l :
  links_ok K self -> nodes self !! i = Some nd -> Forall (is_uint 4) l ->
  exists self', clear_children self i l = Some self' /\ cleared_above self (fun j => exists n, n ∈ l /\ get_child nd n = Some j) self'.
Proof.
  intros Hok Hi Hl. revert self nd Hok Hi. induction Hl as [|n l Hn Hl IH]; intros self nd Hok Hi; cbn [clear_children].
  { exists self. split; [done|]. split; [done|]. intros j jn Hj. split; [|done]. intros (n & Hin & _). by apply elem_of_nil in Hin. }
  unfold index_child. rewrite Hi, (child_slot_get Hok nd i n Hi Hn). destruct (get_child nd n) as [c|] eqn:Hc; cbn [access_of].
  - destruct (child_link Hok i nd n c Hi Hc) as (cn & Hcn & Hcp). destruct (node_access self c ltac:(by eexists)) as (acc & -> & ->).
    destruct (clear_run self c cn Hcn) as (self1 & -> & Hsk & Hn1). destruct (skeleton_node' self self1 i nd Hsk Hi) as (nd1 & Hi1 & _ & _ & Ech & _).
    assert (Hget : forall m, get_child nd1 m = get_child nd m) by (intros m; unfold get_child; by rewrite Ech).
    destruct (IH self1 nd1 (skeleton_links K self self1 Hok Hsk) Hi1) as (self' & Hrun & Hsk' & Hclear). exists self'. split; [done|].
    split; [by eapply same_skeleton_trans|]. intros j jn Hj. destruct (Hclear j jn Hj) as [HA Hno]. setoid_rewrite Hget in HA. setoid_rewrite Hget in Hno. split.
    + intros (m & [->|Hm]%elem_of_cons & Hcm); [|eauto]. rewrite Hc in Hcm. injection Hcm as <-.
      destruct (decide (Exists (fun m => get_child nd m = Some c) l)) as [Hy|Hy]; rewrite Exists_exists in Hy; [by apply HA|].
      specialize (Hno Hy). rewrite Hn1, decide_True in Hno by done. by injection Hno as <-.
    + intros HnA. rewrite Hn1, decide_False in Hno; [|intros ->; apply HnA; exists n; split; [left|done]].
      apply Hno. intros (m & Hm & Hcm). apply HnA. exists m. split; [by right|done].
  - destruct (IH self nd Hok Hi) as (self' & Hrun & Hsk' & Hclear). exists self'. split; [done|]. split; [done|]. intros j jn Hj.
    destruct (Hclear j jn Hj) as [HA Hno]. split.
    + intros (m & [->|Hm]%elem_of_cons & Hcm); [congruence|eauto].
    + intros HnA. apply Hno. intros (m & Hm & Hcm). apply HnA. exists m. split; [by right|done].
Qed.

(** ** Changes of the storage *)

Section update.
Context (σ : gmap (list u8) (TrieEntryVersion * list u8)) (key : list u8) (value : option (TrieEntryVersion * list u8)).
Context (Hbytes : forall k, is_Some (σ !! k) -> is_bytes k) (Hkey : is_bytes key).
Context {K : Z -> list Nibble} {self : TrieStructure CacheEntry}.
Context (Hinv : trie_inv K self) (HS : keys_are K self (storage_keys σ)) (Hc : cache_ok K self (storage_val σ) self).

(** The storage after the change. *)
Definition changed : gmap (list u8) (TrieEntryVersion * list u8) := partial_alter (fun _ => value) key σ.

Lemma changed_val i nd :
  nodes self !! i = Some nd -> nd_has_storage_value nd = true -> K i <> key_nibbles key -> storage_val changed (K i) = storage_val σ (K i).
Proof.
  intros Hi Hs Hne. destruct (storage_node σ Hbytes HS i nd Hi Hs) as (k & x & Hb & HK & Hx). rewrite HK in *. unfold storage_val.
  rewrite nibble_pairs_key by done. unfold changed. rewrite lookup_partial_alter_ne; [done|]. congruence.
Qed.

Lemma changed_keys : storage_keys changed =
  match value with Some _ => {[key_nibbles key]} ∪ storage_keys σ | None => storage_keys σ ∖ {[key_nibbles key]} end.
Proof.
  apply set_eq. intros k. assert (Hk : k ∈ storage_keys changed <-> exists k' x, k = key_nibbles k' /\ changed !! k' = Some x) by apply elem_storage_keys.
  rewrite Hk. unfold changed. setoid_rewrite lookup_partial_alter. destruct value as [y|].
  - rewrite elem_of_union, elem_of_singleton, elem_storage_keys. split.
    + intros (k' & x & -> & Hx). case_decide; [subst; by left|right; eauto].
    + intros [->|(k' & x & -> & Hx)]; [exists key, y; by rewrite decide_True|].
      destruct (decide (key = k')) as [<-|Hne]; [exists key, y; by rewrite decide_True|exists k', x; by rewrite decide_False].
  - rewrite elem_of_difference, elem_of_singleton, elem_storage_keys. split.
    + intros (k' & x & -> & Hx). case_decide; [done|]. split; [eauto|]. intros E. apply key_nibbles_inj in E; [done| |done].
      apply Hbytes. by eexists.
    + intros ((k' & x & -> & Hx) & Hne). exists k', x. rewrite decide_False by congruence. done.
Qed.

(** The Merkle values that stay are right. *)
Lemma update_cache_ok K' s1 (A : Z -> Prop) self2 :
  links_ok K' s1 -> cleared_above s1 A self2 ->
  (forall c cn p n, A c -> nodes s1 !! c = Some cn -> nd_parent cn = Some (p, n) -> A p) ->
  (forall i nd1, nodes s1 !! i = Some nd1 -> ~ A i -> filled s1 i -> kept K self (storage_val σ) K' s1 (storage_val changed) i nd1) ->
  (forall c cn p n, nodes s1 !! c = Some cn -> nd_parent cn = Some (p, n) -> ~ A p -> filled s1 p -> filled self c -> filled s1 c) ->
  cache_ok K' self2 (storage_val changed) self2.
Proof.
  intros Hok [Hsk Hclear] Hup Hkept Hfill. apply (kept_cache K self (storage_val σ)); [done|]. intros j nd' Hj Hf.
  pose proof Hf as (nd'' & o & Hj' & Ho). assert (nd'' = nd') as -> by congruence. destruct (Hclear j nd' Hj) as [HA HnA].
  assert (Hno : ~ A j) by (intros HAj; rewrite (HA HAj) in Ho; done). specialize (HnA Hno).
  assert (Hf1 : filled s1 j) by (by exists nd', o). pose proof (Hkept j nd' HnA Hno Hf1) as Hk.
  destruct Hk as (nd & Hnd & Hrest). split; [exists nd; rewrite (proj1 Hsk); done|]. intros n c Hch.
  destruct Hrest as (_ & _ & Eu & Hget & _). rewrite Eu in Ho. destruct (Hc j nd o Hnd Ho) as [Hchf _].
  destruct (child_link Hok j nd' n c HnA Hch) as (cn & Hcn & Hcp). rewrite Hget in Hch.
  destruct (Hfill c cn j n Hcn Hcp Hno Hf1 (Hchf n c Hch)) as (cn' & oc & Hcn' & Hoc). assert (cn' = cn) as -> by congruence.
  destruct (skeleton_node' s1 self2 c cn Hsk Hcn) as (c2 & Hc2 & _). exists c2, oc. split; [done|]. destruct (Hclear c c2 Hc2) as [_ HnAc].
  rewrite HnAc in Hcn; [congruence|]. intros HAc. apply Hno. by apply (Hup c cn j n).
Qed.

(** A node whose view has not changed. *)
Lemma kept_view K' s1 i nd1 :
  links_ok K' s1 -> nodes s1 !! i = Some nd1 -> view_core s1 i = view_core self i ->
  (forall n, slot_child s1 (Some (i, n)) = slot_child self (Some (i, n))) -> K' i = K i ->
  (nd_has_storage_value nd1 = true -> K i <> key_nibbles key) -> kept K self (storage_val σ) K' s1 (storage_val changed) i nd1.
Proof.
  intros Hok1 Hi1 Hco Hsl HK Hne. unfold view_core in Hco. rewrite Hi1 in Hco. cbn in Hco. symmetry in Hco. apply fmap_Some in Hco as (nd & Hi & E).
  unfold core in E. injection E as Ep Epk Esv Eu. exists nd. split_and!; try done.
  - intros n. specialize (Hsl n). cbn in Hsl. by rewrite Hi1, Hi in Hsl.
  - pose proof (lk_link _ _ Hok1 None i) as Hr1. pose proof (lk_link _ _ (tv_links _ _ Hinv) None i) as Hr. cbn in Hr1, Hr.
    rewrite Hr1, Hr. split; intros (x & Hx & Hpx); simplify_eq; eexists; split; [done|congruence|done|congruence].
  - intros Hs. rewrite HK. apply (changed_val i nd Hi Hs). apply Hne. congruence.
Qed.

(** Above a node whose ancestors are old nodes, filled nodes have filled ancestors only below. *)
Lemma unfilled_up_old K' s1 x :
  links_ok K' s1 -> is_Some (nodes s1 !! x) ->
  (forall a, anc s1 x a -> (fun nd => (nd_parent nd, nd_user_data nd)) <$> nodes s1 !! a = (fun nd => (nd_parent nd, nd_user_data nd)) <$> nodes self !! a) ->
  unfilled_up s1 x.
Proof.
  intros Hok1 Hx Hold a an q n Ha Han Hq Hun. pose proof (Hold a Ha) as Ea. pose proof (Hold q (anc_up s1 x a an q n Ha Han Hq)) as Eq.
  rewrite Han in Ea. symmetry in Ea. apply fmap_Some in Ea as (an0 & Han0 & [= Ep Eu]).
  destruct Hun as (an' & Han' & Hnone). assert (an' = an) as -> by congruence.
  assert (Hu0 : unfilled self q).
  { apply (unfilled_parent K self (storage_val σ) Hinv self a an0 q n (same_skeleton_refl self) Hc Han0); [congruence|]. exists an0. split; [done|]. by rewrite <- Eu. }
  destruct Hu0 as (qn & Hqn & Hqnone). rewrite Hqn in Eq. cbn in Eq. apply fmap_Some in Eq as (qn1 & Hqn1 & [= _ Eu1]). exists qn1. split; [done|].
  by rewrite <- Eu1.
Qed.

Definition parent_and_data nd : option (Z * Nibble) * CacheEntry := (nd_parent nd, nd_user_data nd).

(** From the changed structure to the cache. *)
Lemma finish_some K' s1 acc x :
  trie_inv K' s1 -> keys_are K' s1 (storage_keys changed) -> access_node_index acc = x -> is_Some (nodes s1 !! x) ->
  (forall nd p n, nodes s1 !! x = Some nd -> nd_parent nd = Some (p, n) ->
    forall a, anc s1 p a -> parent_and_data <$> nodes s1 !! a = parent_and_data <$> nodes self !! a) ->
  (forall i nd1, nodes s1 !! i = Some nd1 -> ~ anc s1 x i -> filled s1 i -> kept K self (storage_val σ) K' s1 (storage_val changed) i nd1) ->
  (forall c cn p n, nodes s1 !! c = Some cn -> nd_parent cn = Some (p, n) -> filled s1 p -> filled self c -> filled s1 c) ->
  exists self2, invalidate_from s1 (Some acc) = Some self2 /\ cache_for changed (mkCalculationCache (Some self2)).
Proof.
  intros Hinv1 HS1 Hacc Hx Hold Hkept Hfill. pose proof (tv_links _ _ Hinv1) as Hok1.
  destruct (invalidate_spec K' s1 acc x Hok1 Hacc Hx) as (self2 & Hrun & Hclear).
  { intros nd p n Hnd Hp. destruct (parent_link Hok1 x nd p n Hnd Hp) as (pn & Hpn & _).
    apply (unfilled_up_old K' s1 p Hok1); [by eexists|]. by apply (Hold nd p n). }
  exists self2. split; [done|]. exists K'. split_and!; [by apply (skeleton_inv K' s1), Hclear|by apply (skeleton_keys K' s1), Hclear|].
  apply (update_cache_ok K' s1 (anc s1 x)); try done; [by intros c cn p n Ha Hcn Hp; eapply anc_up|]. intros c cn p n Hcn Hp _. by apply (Hfill c cn p n).
Qed.

Lemma finish_none K' s1 :
  trie_inv K' s1 -> keys_are K' s1 (storage_keys changed) ->
  (forall i nd1, nodes s1 !! i = Some nd1 -> filled s1 i -> kept K self (storage_val σ) K' s1 (storage_val changed) i nd1) ->
  (forall c cn p n, nodes s1 !! c = Some cn -> nd_parent cn = Some (p, n) -> filled s1 p -> filled self c -> filled s1 c) ->
  exists self2, invalidate_from s1 None = Some self2 /\ cache_for changed (mkCalculationCache (Some self2)).
Proof.
  intros Hinv1 HS1 Hkept Hfill. exists s1. split; [done|]. exists K'. split_and!; try done.
  apply (update_cache_ok K' s1 (fun _ => False)); [by apply Hinv1| |done|by intros i nd1 Hi _; apply Hkept|by intros c cn p n Hcn Hp _; apply (Hfill c cn p n)].
  split; [done|]. intros j nd' Hj. split; [done|]. by intros _.
Qed.

(** *** A value that changes *)

Lemma not_self_key i j nd : is_Some (nodes self !! i) -> K i = key_nibbles key -> nodes self !! j = Some nd -> j <> i -> K j <> key_nibbles key.
Proof. intros Hi HK Hj Hne E. apply Hne. apply (key_inj (tv_links _ _ Hinv)); [by eexists|done|congruence]. Qed.

Lemma update_modify i nd :
  nodes self !! i = Some nd -> nd_has_storage_value nd = true -> K i = key_nibbles key -> is_Some value ->
  exists self2, invalidate_from self (Some (AccStorage i)) = Some self2 /\ cache_for changed (mkCalculationCache (Some self2)).
Proof.
  intros Hi Hs HK [v Hv]. apply (finish_some K self _ i); try done.
  - rewrite changed_keys, Hv. replace ({[key_nibbles key]} ∪ storage_keys σ) with (storage_keys σ); [done|].
    assert (key_nibbles key ∈ storage_keys σ) by (apply HS; eauto). set_solver.
  - intros j jn Hj Ha _. apply (kept_view K self j jn (tv_links _ _ Hinv) Hj); try done. intros _.
    apply (not_self_key i j jn); [by eexists|done|done|]. intros ->. apply Ha. constructor.
Qed.

(** A key without a storage value is removed. *)
Lemma update_nothing :
  value = None -> key_nibbles key ∉ storage_keys σ ->
  exists self2, invalidate_from self None = Some self2 /\ cache_for changed (mkCalculationCache (Some self2)).
Proof.
  intros Hv Hno. apply (finish_none K self); try done.
  - rewrite changed_keys, Hv. replace (storage_keys σ ∖ {[key_nibbles key]}) with (storage_keys σ) by set_solver. done.
  - intros j jn Hj _. apply (kept_view K self j jn (tv_links _ _ Hinv) Hj); try done. intros Hs E. apply Hno. rewrite <- E. apply HS. eauto.
Qed.

(** *** The flag of a node changes *)

Lemma set_flag_parts i nd b :
  nodes self !! i = Some nd -> let s1 := set_node self i (with_storage_value nd b) in
  (forall j, parent_and_data <$> nodes s1 !! j = parent_and_data <$> nodes self !! j) /\
  (forall t, slot_child s1 t = slot_child self t) /\ (forall j, j <> i -> view_core s1 j = view_core self j) /\
  forall j, filled s1 j <-> filled self j.
Proof.
  intros Hi s1. assert (Hd : forall j, parent_and_data <$> nodes s1 !! j = parent_and_data <$> nodes self !! j).
  { intros j. cbn. rewrite lookup_insert. case_decide; [|done]. subst. by rewrite Hi. }
  split_and!; [done|by intros t; apply (slot_child_update self i nd)|intros j Hj; unfold s1; rewrite view_core_set; by rewrite decide_False|].
  intros j. specialize (Hd j). unfold filled. destruct (nodes s1 !! j) as [n1|], (nodes self !! j) as [n2|]; try done.
  cbn in Hd. injection Hd as _ Eu. split; intros (n & o & [= <-] & Ho); eexists _, o; (split; [done|congruence]).
Qed.

Lemma update_flag i nd b acc :
  nodes self !! i = Some nd -> K i = key_nibbles key -> access_node_index acc = i ->
  let s1 := set_node self i (with_storage_value nd b) in
  trie_inv K s1 -> keys_are K s1 (storage_keys changed) ->
  exists self2, invalidate_from s1 (Some acc) = Some self2 /\ cache_for changed (mkCalculationCache (Some self2)).
Proof.
  intros Hi HK Hacc s1 Hinv1 HS1. destruct (set_flag_parts i nd b Hi) as (Hd & Hsl & Hco & Hf). fold s1 in Hd, Hsl, Hco, Hf.
  apply (finish_some K s1 acc i); try done.
  - cbn. rewrite lookup_insert, decide_True by done. by eexists.
  - intros j jn Hj Ha _. assert (Hji : j <> i) by (intros ->; apply Ha; constructor).
    apply (kept_view K s1 j jn (tv_links _ _ Hinv1) Hj); [by apply Hco|done|done|]. intros _.
    assert (Hj0 : is_Some (nodes self !! j)) by (cbn in Hj; rewrite lookup_insert_ne in Hj by done; by eexists). destruct Hj0 as [j0 Hj0].
    apply (not_self_key i j j0); [by eexists|done|done|done].
  - intros c cn p n _ _ _. by apply Hf.
Qed.

(** *** A new leaf *)

Lemma view_filled s1 i : view_core s1 i = view_core self i -> filled s1 i <-> filled self i.
Proof.
  unfold view_core, filled. destruct (nodes s1 !! i) as [n1|], (nodes self !! i) as [n2|]; try done. cbn. unfold core. intros [= _ _ _ Eu].
  split; intros (n & o & [= <-] & Ho); eexists _, o; (split; [done|congruence]).
Qed.

Lemma view_parent_data s1 i : view_core s1 i = view_core self i -> parent_and_data <$> nodes s1 !! i = parent_and_data <$> nodes self !! i.
Proof.
  unfold view_core. destruct (nodes s1 !! i) as [n1|], (nodes self !! i) as [n2|]; try done. cbn. unfold core, parent_and_data. by intros [= -> _ _ ->].
Qed.

(** New nodes, in the slot of [top]. The nodes that are filled, and those with a shorter
    key than [top], are as before. *)
Lemma update_insert K' (s1 : TrieStructure CacheEntry) top topn new :
  trie_inv K' s1 -> keys_are K' s1 (storage_keys changed) -> (forall i, is_Some (nodes self !! i) -> K' i = K i) ->
  K' new = key_nibbles key -> unfilled s1 new -> nodes s1 !! top = Some topn ->
  (forall i, filled s1 i \/ (length (K' i) < length (K' top))%nat -> view_core s1 i = view_core self i) ->
  (forall i n, filled s1 i -> (forall m, nd_parent topn <> Some (i, m)) -> slot_child s1 (Some (i, n)) = slot_child self (Some (i, n))) ->
  (forall c cn p n, nodes s1 !! c = Some cn -> nd_parent cn = Some (p, n) -> filled s1 p -> filled self c -> filled s1 c) ->
  exists parent self2, index_parent s1 top = Some parent /\ invalidate_from s1 parent = Some self2 /\ cache_for changed (mkCalculationCache (Some self2)).
Proof.
  intros Hinv1 HS1 HKold HKnew Hnew Htop Hco Hsl Hch. pose proof (tv_links _ _ Hinv1) as Hok1.
  assert (Hkept : forall j jn, nodes s1 !! j = Some jn -> filled s1 j -> (forall n, nd_parent topn <> Some (j, n)) ->
    kept K self (storage_val σ) K' s1 (storage_val changed) j jn).
  { intros j jn Hj Hf Hs. pose proof (Hco j (or_introl Hf)) as Ej.
    assert (Hj0 : is_Some (nodes self !! j)) by (destruct (proj1 (view_filled s1 j Ej) Hf) as (n0 & o & ? & _); by eexists).
    apply (kept_view K' s1 j jn Hok1 Hj Ej); [intros n; by apply Hsl|by apply HKold|]. intros _ E. destruct Hnew as (nn & Hnn & Hnone).
    assert (j = new) as -> by (apply (key_inj Hok1); [by eexists|by eexists|]; rewrite HKnew, HKold by done; done).
    apply (filled_unfilled s1 new Hf). by exists nn. }
  unfold index_parent. rewrite Htop. destruct (nd_parent topn) as [[p n]|] eqn:Hp; cbn [fmap option_fmap option_map fst access_of].
  - destruct (parent_link Hok1 top topn p n Htop Hp) as (pn & Hpn & _). destruct (node_access s1 p ltac:(by eexists)) as (acc & -> & Hacc).
    exists (Some acc). destruct (finish_some K' s1 acc p) as (self2 & Hrun & Hfor); try done; [..|by exists self2].
    + intros pn' q m Hpn' Hq a Ha. apply view_parent_data, Hco. right.
      destruct (parent_link Hok1 p pn' q m Hpn' Hq) as (qn & Hqn & _). destruct (anc_node Hok1 q a ltac:(by eexists) Ha) as (_ & Hlen%prefix_length & _).
      rewrite (parent_key Hok1 _ _ _ _ Htop Hp), (parent_key Hok1 _ _ _ _ Hpn' Hq), !length_app. cbn. lia.
    + intros j jn Hj Ha Hf. apply Hkept; [done|done|]. intros m [= -> _]. apply Ha. constructor.
  - exists None. destruct (finish_none K' s1) as (self2 & Hrun & Hfor); try done; [|by exists self2]. intros j jn Hj Hf. by apply Hkept.
Qed.

Lemma update_leaf K' (s1 : TrieStructure CacheEntry) s pk new :
  trie_inv K' s1 -> keys_are K' s1 (storage_keys changed) -> K' new = key_nibbles key -> (forall i, is_Some (nodes self !! i) -> K' i = K i) ->
  nodes self !! new = None ->
  (forall i, view_core s1 i = if decide (i = new) then Some (s, pk, true, CacheEntry_default) else view_core self i) ->
  (forall t, slot_child s1 t = if decide (t = s) then Some new else slot_child self t) ->
  exists parent self2, index_parent s1 new = Some parent /\ invalidate_from s1 parent = Some self2 /\ cache_for changed (mkCalculationCache (Some self2)).
Proof.
  intros Hinv1 HS1 HKnew HKold Hfresh Hco Hsl. pose proof (Hco new) as E. rewrite decide_True in E by done.
  apply view_core_Some in E as (nn & Hnn & [= Hp _ _ Hu]). assert (Hun : unfilled s1 new) by (exists nn; by rewrite Hu).
  apply (update_insert K' s1 new nn new); try done.
  - intros i Hi. rewrite Hco, decide_False; [done|]. intros ->. destruct Hi as [Hi|?]; [by apply (filled_unfilled s1 new)|lia].
  - intros i n _ Hs. rewrite Hsl, decide_False; [done|]. intros E. apply (Hs n). congruence.
  - intros c cn p n _ _ _ Hf. apply view_filled; [|done]. rewrite Hco, decide_False; [done|]. intros ->. destruct Hf as (n0 & o & ? & _). congruence.
Qed.

(** *** A new branch node *)

(** The views of a structure with a new branch node [nb], in the slot [s], above the new
    storage node [ns] and the old node [e]. *)
Section branch.
Context {K' : Z -> list Nibble} {s0 : TrieStructure CacheEntry} {s : option (Z * Nibble)} {bpk rest spk : list Nibble} {m n : Nibble} {e nb ns : Z}
  {en : Node CacheEntry}.
Context (Hinv0 : trie_inv K' s0) (Hfb : nodes self !! nb = None) (Hfs : nodes self !! ns = None) (Hne : nb <> ns) (Heb : e <> nb) (Hes : e <> ns).
Context (Hco : forall i, view_core s0 i = if decide (i = ns) then Some (Some (nb, n), spk, true, CacheEntry_default) else
     if decide (i = nb) then Some (s, bpk, false, CacheEntry_default) else
     if decide (i = e) then Some (Some (nb, m), rest, nd_has_storage_value en, nd_user_data en) else view_core self i).
Context (Hsl : forall t, slot_child s0 t = if decide (t = Some (nb, n)) then Some ns else if decide (t = s) then Some nb else
     if decide (t = Some (nb, m)) then Some e else slot_child self t).

Lemma branch_nodes : exists nsn e0 b0, nodes s0 !! ns = Some nsn /\ nd_parent nsn = Some (nb, n) /\ nodes s0 !! e = Some e0 /\
  nd_parent e0 = Some (nb, m) /\ nodes s0 !! nb = Some b0 /\ nd_parent b0 = s /\ nd_user_data b0 = CacheEntry_default.
Proof.
  pose proof (Hco ns) as E1. rewrite decide_True in E1 by done. apply view_core_Some in E1 as (x & Hx & [= Hxp _ _ _]).
  pose proof (Hco e) as E2. rewrite !decide_False, decide_True in E2 by done. apply view_core_Some in E2 as (y & Hy & [= Hyp _ _ _]).
  pose proof (Hco nb) as E3. rewrite decide_False, decide_True in E3 by done. apply view_core_Some in E3 as (z & Hz & [= Hzp _ _ Hzu]).
  by exists x, y, z.
Qed.

(** The children of the new branch node are cleared, the rest is as before. *)
Lemma branch_cleared : exists s1, clear_children s0 nb all_nibbles = Some s1 /\ same_skeleton s0 s1 /\
  unfilled s1 ns /\ unfilled s1 e /\ forall i, i <> ns -> i <> e -> nodes s1 !! i = nodes s0 !! i.
Proof.
  pose proof (tv_links _ _ Hinv0) as Hok0. destruct branch_nodes as (nsn & e0 & b0 & Hns & Hnsp & He0 & He0p & Hb0 & Hbp & _).
  destruct (clear_children_spec K' s0 nb b0 all_nibbles Hok0 Hb0) as (s1 & Hrun & Hsk & Hclear).
  { apply Forall_forall. intros x Hx%elem_of_seqZ. unfold is_uint. lia. }
  assert (Hun : forall c cn k, nodes s0 !! c = Some cn -> nd_parent cn = Some (nb, k) -> unfilled s1 c).
  { intros c cn k Hcn Hcp. destruct (skeleton_node' s0 s1 c cn Hsk Hcn) as (c1 & Hc1 & _). exists c1. split; [done|].
    apply (proj1 (Hclear c c1 Hc1)). destruct (parent_link Hok0 c cn nb k Hcn Hcp) as (b1 & Hb1 & Hck & Hk). assert (b1 = b0) as -> by congruence.
    exists k. split; [|done]. apply elem_of_seqZ. unfold is_uint in Hk. lia. }
  exists s1. split_and!; [done|done|by eapply Hun|by eapply Hun|]. intros i Hi1 Hi2. destruct (nodes s1 !! i) as [i1|] eqn:Ei1.
  - symmetry. apply (proj2 (Hclear i i1 Ei1)). intros (k & _ & Hk). assert (Hs : slot_child s0 (Some (nb, k)) = Some i) by (cbn; by rewrite Hb0).
    rewrite Hsl in Hs. destruct (decide (Some (nb, k) = Some (nb, n))); [congruence|].
    destruct (decide (Some (nb, k) = s)) as [<-|]; [by apply (parent_not_self K' s0 nb b0 k Hok0 Hb0)|].
    destruct (decide (Some (nb, k) = Some (nb, m))); [congruence|]. by rewrite slot_child_fresh in Hs.
  - destruct (nodes s0 !! i) as [i0|] eqn:Ei0; [|done]. destruct (skeleton_node' s0 s1 i i0 Hsk Ei0) as (? & ? & _). congruence.
Qed.

Lemma update_branch :
  keys_are K' s0 (storage_keys changed) -> K' ns = key_nibbles key -> (forall i, is_Some (nodes self !! i) -> K' i = K i) ->
  exists s1 parent self2, clear_children s0 nb all_nibbles = Some s1 /\ index_parent s1 nb = Some parent /\
    invalidate_from s1 parent = Some self2 /\ cache_for changed (mkCalculationCache (Some self2)).
Proof.
  intros HS0 HKns HKold. pose proof (tv_links _ _ Hinv0) as Hok0. destruct branch_nodes as (nsn & e0 & b0 & Hns & Hnsp & He0 & He0p & Hb0 & Hbp & Hbu).
  destruct branch_cleared as (s1 & Hrun & Hsk & Hnsun & Heun & Hother).
  assert (Hview : forall i, i <> ns -> i <> e -> i <> nb -> view_core s1 i = view_core self i).
  { intros i Hi1 Hi2 Hi3. unfold view_core at 1. rewrite Hother by done. fold (view_core s0 i). by rewrite Hco, !decide_False. }
  assert (Hnot : forall i, filled s1 i -> i <> ns /\ i <> e /\ i <> nb).
  { intros i Hf. split_and!; intros ->; apply (filled_unfilled s1 _ Hf); [done|done|]. exists b0. rewrite Hother by done. by rewrite Hbu. }
  assert (Hlong : forall c cn k, nodes s0 !! c = Some cn -> nd_parent cn = Some (nb, k) -> (length (K' nb) < length (K' c))%nat).
  { intros c cn k Hcn Hcp. rewrite (parent_key Hok0 _ _ _ _ Hcn Hcp), length_app. cbn. lia. }
  destruct (update_insert K' s1 nb b0 ns) as (parent & self2 & Hpar & Hinval & Hfor);
    [by apply (skeleton_inv K' s0)|by apply (skeleton_keys K' s0)|done|done|done|by rewrite Hother| | |..|by exists s1, parent, self2].
  - intros i [Hf|Hlen]; [by apply Hview; apply Hnot|]. apply Hview; intros ->; [| |lia].
    + pose proof (Hlong ns nsn n Hns Hnsp). lia.
    + pose proof (Hlong e e0 m He0 He0p). lia.
  - intros i k Hf Hs. destruct (Hnot i Hf) as (_ & _ & Hib). rewrite (skeleton_slot s0 s1 _ Hsk), Hsl, !decide_False; [done|congruence| |congruence].
    intros E. apply (Hs k). congruence.
  - intros c cn p k Hcn Hcp Hfp Hfc. destruct (Hnot p Hfp) as (_ & _ & Hpb).
    assert (Hfresh : c <> nb /\ c <> ns) by (split; intros ->; destruct Hfc as (? & ? & ? & _); congruence). destruct Hfresh.
    apply view_filled; [|done]. apply Hview; [done| |done]. intros ->. destruct (skeleton_node s0 s1 e cn Hsk Hcn) as (e1 & He1 & Ep & _). congruence.
Qed.

End branch.

(** *** Nodes that are removed *)

Lemma data_filled s1 j : node_data s1 j = node_data self j -> filled s1 j <-> filled self j.
Proof.
  unfold node_data, filled. destruct (nodes s1 !! j) as [n1|], (nodes self !! j) as [n2|]; try done. cbn. intros [= _ Eu].
  split; intros (n & o & [= <-] & Ho); eexists _, o; (split; [done|congruence]).
Qed.

(** The node [x] may have got another parent; the nodes that are not above it are as
    before, and the node of the key is no longer there. *)
Lemma update_shrink (s1 : TrieStructure CacheEntry) acc x i :
  trie_inv K s1 -> keys_are K s1 (storage_keys changed) -> access_node_index acc = x -> is_Some (nodes s1 !! x) ->
  is_Some (nodes self !! i) -> K i = key_nibbles key -> nodes s1 !! i = None ->
  (forall j, is_Some (nodes s1 !! j) -> node_data s1 j = node_data self j) ->
  (forall j, is_Some (nodes s1 !! j) -> j <> x -> view_core s1 j = view_core self j) ->
  (forall j n, is_Some (nodes s1 !! j) -> ~ anc s1 x j -> slot_child s1 (Some (j, n)) = slot_child self (Some (j, n))) ->
  exists self2, invalidate_from s1 (Some acc) = Some self2 /\ cache_for changed (mkCalculationCache (Some self2)).
Proof.
  intros Hinv1 HS1 Hacc Hx Hi HK Hgone Hdata Hco Hsl. pose proof (tv_links _ _ Hinv1) as Hok1. apply (finish_some K s1 acc x); try done.
  - intros nd p n Hnd Hp a Ha. apply view_parent_data, Hco.
    + destruct (parent_link Hok1 x nd p n Hnd Hp) as (pn & Hpn & _). by destruct (anc_node Hok1 p a ltac:(by eexists) Ha) as (? & _).
    + intros ->. by apply (parent_not_below x p n nd Hok1 Hnd Hp).
  - intros j jn Hj Ha _. assert (Hjx : j <> x) by (intros ->; apply Ha; constructor). pose proof (Hco j ltac:(by eexists) Hjx) as Ej.
    apply (kept_view K s1 j jn Hok1 Hj Ej); [intros n; apply Hsl; [by eexists|done]|done|]. intros _.
    unfold view_core in Ej. rewrite Hj in Ej. cbn in Ej. symmetry in Ej. apply fmap_Some in Ej as (j0 & Hj0 & _).
    apply (not_self_key i j j0); try done. intros ->. congruence.
  - intros c cn p n Hcn _ _. apply data_filled, Hdata. by eexists.
Qed.

Lemma update_remove i nd acc x s1 :
  nodes self !! i = Some nd -> K i = key_nibbles key -> node_removed K self i nd s1 ->
  trie_inv K s1 -> keys_are K s1 (storage_keys changed) -> access_node_index acc = x -> is_Some (nodes s1 !! x) ->
  match first_child (nd_children nd) with Some c => x = c | None => fst <$> nd_parent nd = Some x end ->
  exists self2, invalidate_from s1 (Some acc) = Some self2 /\ cache_for changed (mkCalculationCache (Some self2)).
Proof.
  intros Hi HK Hrm Hinv1 HS1 Hacc Hx Hwhere. pose proof (fun j => removed_lookup s1 j Hrm) as Hlook.
  apply (update_shrink s1 acc x i); try done.
  - destruct (nodes s1 !! i) as [x0|] eqn:E; [|done]. destruct (proj1 (Hlook i) ltac:(by eexists)). done.
  - intros j Hj%Hlook. rewrite (nr_data _ _ _ _ _ Hrm), decide_False by apply Hj. done.
  - intros j Hj%Hlook Hjx. apply (nr_core _ _ _ _ _ Hrm); [apply Hj|]. intros E. rewrite <- E in Hwhere. congruence.
  - intros j n Hj Ha. rewrite (nr_slots _ _ _ _ _ Hrm). apply Hlook in Hj as [Hji Hj].
    destruct (decide (Some (j, n) = nd_parent nd)) as [E|]; [|by rewrite decide_False].
    exfalso. apply Ha. destruct (first_child (nd_children nd)) as [c|] eqn:Hfc.
    + rewrite Hwhere. pose proof (nr_slots _ _ _ _ _ Hrm (nd_parent nd)) as Hs. rewrite decide_True, Hfc in Hs by done.
      apply (lk_link _ _ (nr_links _ _ _ _ _ Hrm)) in Hs as (cn & Hcn & Hcp). eapply anc_parent; [done|by rewrite Hcp, <- E|constructor].
    + rewrite <- E in Hwhere. injection Hwhere as <-. constructor.
Qed.

(** The branch node above goes too. *)
Lemma update_remove_two i nd p n pn sib acc s1 s2 :
  nodes self !! i = Some nd -> K i = key_nibbles key -> first_child (nd_children nd) = None -> nd_parent nd = Some (p, n) ->
  node_removed K self i nd s1 -> nodes s1 !! p = Some pn -> first_child (nd_children pn) = Some sib -> node_removed K s1 p pn s2 ->
  trie_inv K s2 -> keys_are K s2 (storage_keys changed) -> access_node_index acc = sib -> is_Some (nodes s2 !! sib) ->
  exists self2, invalidate_from s2 (Some acc) = Some self2 /\ cache_for changed (mkCalculationCache (Some self2)).
Proof.
  intros Hi HK Hno Hp Hrm1 Hpn Hsib Hrm2 Hinv2 HS2 Hacc Hx.
  assert (Hlook : forall j, is_Some (nodes s2 !! j) <-> j <> p /\ j <> i /\ is_Some (nodes self !! j)).
  { intros j. rewrite (removed_lookup s2 j Hrm2), (removed_lookup s1 j Hrm1). done. }
  apply (update_shrink s2 acc sib i); try done.
  - destruct (nodes s2 !! i) as [x0|] eqn:E; [|done]. destruct (proj1 (Hlook i) ltac:(by eexists)) as (_ & ? & _). done.
  - intros j (Hjp & Hji & _)%Hlook. rewrite (nr_data _ _ _ _ _ Hrm2), decide_False, (nr_data _ _ _ _ _ Hrm1), decide_False by done. done.
  - intros j (Hjp & Hji & _)%Hlook Hjs. rewrite (nr_core _ _ _ _ _ Hrm2), (nr_core _ _ _ _ _ Hrm1); try done; congruence.
  - intros j m Hj Ha. rewrite (nr_slots _ _ _ _ _ Hrm2). apply Hlook in Hj as (Hjp & Hji & _).
    destruct (decide (Some (j, m) = nd_parent pn)) as [E|].
    + exfalso. apply Ha. pose proof (nr_slots _ _ _ _ _ Hrm2 (nd_parent pn)) as Hs. rewrite decide_True, Hsib in Hs by done.
      apply (lk_link _ _ (nr_links _ _ _ _ _ Hrm2)) in Hs as (cn & Hcn & Hcp). eapply anc_parent; [done|by rewrite Hcp, <- E|constructor].
    + rewrite decide_False, (nr_slots _ _ _ _ _ Hrm1), !decide_False by (done || congruence). done.
Qed.

(** ** The cases *)

Lemma node_not_between i nd :
  nodes self !! i = Some nd -> key_nibbles key `prefix_of` K i -> exists k, is_Some (σ !! k) /\ key `prefix_of` k.
Proof.
  intros Hi Hpre. destruct (storage_below Hinv i ltac:(by eexists)) as (j & jn & Hj & Hs & Hij).
  destruct (storage_node σ Hbytes HS j jn Hj Hs) as (k & x & Hb & HK & Hx). exists k. split; [by eexists|].
  apply key_nibbles_prefix; [done|done|]. rewrite <- HK. by etrans.
Qed.

(** A key that has no node gets a value. *)
Lemma update_vacant ca nb ns :
  is_Some value -> search_spec K self (key_nibbles key) (NodeNotFound ca) ->
  trie_op_ok self (TInsert (key_nibbles key) nb ns CacheEntry_default CacheEntry_default) ->
  (forall k, is_Some (σ !! k) -> ~ key `prefix_of` k) ->
  exists prepare s1 parent self2, vacant_insert_storage_value self (key_nibbles key) ca = Some prepare /\
    match prepare with
    | InsertOne insert => insert_one self insert ns CacheEntry_default = Some s1 /\ index_parent s1 ns = Some parent
    | InsertTwo insert => exists s0 acc, insert_two self insert nb ns CacheEntry_default CacheEntry_default = Some s0 /\
        index_parent s0 ns = Some (Some acc) /\ clear_children s0 (access_node_index acc) all_nibbles = Some s1 /\
        index_parent s1 (access_node_index acc) = Some parent
    end /\ invalidate_from s1 parent = Some self2 /\ cache_for changed (mkCalculationCache (Some self2)).
Proof.
  intros [v Hv] Hsearch ([Hkn Hlen] & Hnb & Hns & Hne & Hib & His) Hbetween. destruct (inv_parts Hinv) as (_ & _ & H16).
  destruct (prepare_spec K self (key_nibbles key) ca (tv_links _ _ Hinv) Hkn Hsearch) as (prepare & -> & Hprep). exists prepare.
  destruct (prepare_insert_spec Hinv (key_nibbles key) prepare nb ns CacheEntry_default CacheEntry_default Hkn Hlen Hprep Hnb Hns Hne Hib His)
    as (s0 & K' & Hins & Hinv0 & HKns & HKold & Hent).
  assert (HS0 : keys_are K' s0 (storage_keys changed)).
  { rewrite changed_keys, Hv. apply keys_are_entry. intros k. rewrite elem_of_union, elem_of_singleton, (proj1 (keys_are_entry K self _) HS).
    setoid_rewrite Hent. destruct prepare; naive_solver. }
  assert (Hslot : forall s e en pk rest, slot_child self s = Some e -> nodes self !! e = Some en -> nd_partial_key en = pk ++ rest ->
    slot_key K s ++ pk `prefix_of` K e).
  { intros s e en pk rest Hs He Hpk. rewrite (key_eq (tv_links _ _ Hinv) e en He), (slot_node Hinv s e en Hs He), Hpk, app_assoc. by eexists. }
  destruct prepare as [[s pk ch]|[n spk s bpk ch]]; cbn [prepare_ok prepare_insert] in Hprep, Hins.
  - destruct Hprep as (HK & Hval & [[Hs ->]|(m & e & en & rest & Hs & He & Hpk & _)]); cycle 1.
    { exfalso. destruct (node_not_between e en He) as (k & Hk & Hpre); [rewrite HK; by eapply Hslot|]. by apply (Hbetween k). }
    destruct (insert_leaf_run self s pk ns CacheEntry_default H16 Hns Hval) as (s1 & Hrun & Hco & Hsl & _).
    rewrite Hrun in Hins. injection Hins as <-. destruct (update_leaf K' s1 s pk ns) as (parent & self2 & Hpar & Hinval & Hfor); try done.
    exists s1, parent, self2. done.
  - destruct Hprep as (HK & Hval & m & Hmn & e & en & rest & Hs & He & Hpk & ->).
    assert (Hm : is_nibble m). { pose proof (no_partial _ _ _ (lk_node _ _ (tv_links _ _ Hinv) e en He)) as Hp. rewrite Hpk in Hp. by apply Forall_app in Hp as [_ [? _]%Forall_cons]. }
    assert (Hn : is_nibble n) by (rewrite HK in Hkn; by apply Forall_app in Hkn as [_ [_ [? _]%Forall_cons]%Forall_app]).
    destruct (insert_two_run self s bpk m e en rest n spk nb ns CacheEntry_default CacheEntry_default H16 Hnb Hns Hne Hval Hm Hn Hmn He Hpk) as (s0' & Hrun & Hco & Hsl & _);
      [by apply (partial_len Hinv e)|]. rewrite Hrun in Hins. injection Hins as ->.
    assert (Heb : e <> nb) by congruence. assert (Hes : e <> ns) by congruence.
    destruct (update_branch Hinv0 Hnb Hns Hne Heb Hes Hco Hsl HS0 HKns HKold) as (s1 & parent & self2 & Hclear & Hpar & Hinval & Hfor).
    destruct (branch_nodes Hne Heb Hes Hco) as (nsn & _ & bn & Hnsn & Hnsp & _ & _ & Hbn & _).
    destruct (node_access s0 nb ltac:(by eexists)) as (acc & Hacc & Eacc).
    exists s1, parent, self2. split; [done|]. split; [|done]. exists s0, acc. rewrite Eacc. split_and!; try done.
    unfold index_parent. rewrite Hnsn, Hnsp. cbn. by rewrite Hacc.
Qed.

(** The value of a key is removed. *)
Lemma update_removed i nd :
  nodes self !! i = Some nd -> nd_has_storage_value nd = true -> K i = key_nibbles key -> value = None ->
  exists removed s1 self2, trie_remove self i = Some (removed, s1) /\
    invalidate_from s1 (match removed with
      | StorageToBranch i => Some (AccBranch i)
      | BranchAlsoRemoved sibling _ _ => Some sibling
      | SingleRemoveChild child _ => Some child
      | SingleRemoveNoChild parent _ => Some parent
      | TrieNowEmpty _ => None
      end) = Some self2 /\ cache_for changed (mkCalculationCache (Some self2)).
Proof.
  intros Hi Hs HK Hv. destruct (trie_remove_run K self i nd Hinv Hi) as (removed & s1 & -> & Hout & Hinv1). exists removed, s1.
  pose proof (remove_keys K self i nd removed s1 _ Hinv Hi Hout HS) as HS1. rewrite HK in HS1.
  assert (HS1' : keys_are K s1 (storage_keys changed)) by (by rewrite changed_keys, Hv).
  assert (Hacc : forall t j acc, node_by_index_inner t j = Some acc -> access_node_index acc = j /\ is_Some (nodes (TUd := CacheEntry) t !! j)).
  { intros t j acc Ha. unfold node_by_index_inner in Ha. destruct (nodes t !! j) as [jn|]; [|done]. injection Ha as <-. split; [by destruct (nd_has_storage_value jn)|by eexists]. }
  enough (exists self2, invalidate_from s1 (match removed with
      | StorageToBranch i => Some (AccBranch i) | BranchAlsoRemoved sibling _ _ => Some sibling | SingleRemoveChild child _ => Some child
      | SingleRemoveNoChild parent _ => Some parent | TrieNowEmpty _ => None end) = Some self2 /\ cache_for changed (mkCalculationCache (Some self2)))
    as (self2 & ? & ?) by (by exists self2).
  destruct Hout as [Hnum|c acc t Hfc Hrm Ha|p n acc t Hfc Hp Hrm Ha|t Hfc Hp Hrm|p n pn sib acc t1 t Hfc Hp Hrm1 Hpn Hpsv Hsib Hrm2 Ha].
  - by apply (update_flag i nd false).
  - apply Hacc in Ha as [? ?]. apply (update_remove i nd acc c t); try done. by rewrite Hfc.
  - apply Hacc in Ha as [? ?]. apply (update_remove i nd acc p t); try done. by rewrite Hfc, Hp.
  - apply (finish_none K t); try done.
    + intros j jn Hj. destruct (anc_root (tv_links _ _ Hinv1) j ltac:(by eexists)) as (r & Hr & _). pose proof (nr_slots _ _ _ _ _ Hrm None) as E.
      rewrite decide_True, Hfc in E by done. cbn in E. congruence.
    + intros c cn q m Hcn. destruct (anc_root (tv_links _ _ Hinv1) c ltac:(by eexists)) as (r & Hr & _). pose proof (nr_slots _ _ _ _ _ Hrm None) as E.
      rewrite decide_True, Hfc in E by done. cbn in E. congruence.
  - apply Hacc in Ha as [? ?]. by apply (update_remove_two i nd p n pn sib acc t1 t).
Qed.

End update.

(** ** The update *)

(** The insertion of a key between a node and its parent: the key has no value and no
    node, and another key extends it. *)
Definition inserted_between (σ : gmap (list u8) (TrieEntryVersion * list u8)) (key : list u8) (value : option (TrieEntryVersion * list u8)) : Prop :=
  is_Some value /\ σ !! key = None /\ ~ branching (storage_keys σ) (key_nibbles key) /\ exists k, is_Some (σ !! k) /\ key `prefix_of` k.

(** C12: when a value of the storage changes, appears or disappears, the update of a cache
    that is right for the storage does not panic and gives a cache that is right for
    the new storage, whatever nodes the change adds to the trie or takes out of it:
    unless the key is one that is inserted between a node and its parent. *)
Theorem cache_update_spec (σ : gmap (list u8) (TrieEntryVersion * list u8)) (key : list u8) (value : option (TrieEntryVersion * list u8))
    (cache : CalculationCache) (nb ns : Z) :
  (forall k, is_Some (σ !! k) -> is_bytes k) -> is_bytes key -> cache_for σ cache -> ~ inserted_between σ key value ->
  (forall self, structure cache = Some self -> trie_op_ok self (TInsert (key_nibbles key) nb ns CacheEntry_default CacheEntry_default)) ->
  exists cache', cache_storage_value_update cache key (match value with Some _ => true | None => false end) nb ns = Some cache' /\
    cache_for (changed σ key value) cache'.
Proof.
  intros Hbytes Hkey Hcache Hbetween Hfresh. unfold cache_storage_value_update. destruct cache as [[self|]]; cbn [structure] in *; [|by eexists].
  specialize (Hfresh self eq_refl). destruct Hcache as (K & Hinv & HS & Hc). pose proof (key_nibbles_nibbles key Hkey) as Hkn.
  destruct (trie_node_spec K self _ _ Hinv HS Hkn) as (e & He & Hok & Hnode). unfold update_structure. rewrite He.
  assert (Hin : key_nibbles key ∈ storage_keys σ <-> is_Some (σ !! key)).
  { rewrite elem_storage_keys. split; [|intros [x Hx]; eauto]. intros (k & x & E & Hx). apply key_nibbles_inj in E as ->; [by eexists|done|].
    apply Hbytes. by eexists. }
  assert (Hgoal : forall s1 node self2, invalidate_from s1 node = Some self2 -> cache_for (changed σ key value) (mkCalculationCache (Some self2)) ->
    exists cache', (let! t := invalidate_from s1 node in Some (mkCalculationCache (Some t))) = Some cache' /\ cache_for (changed σ key value) cache').
  { intros s1 node self2 -> Hfor. eauto. }
  destruct e as [[i|i]|k ca]; cbn [entry_ok access_node_index] in Hok, Hnode.
  - destruct Hnode as (nd & Hi & HK), Hok as [Hkin _]. rewrite <- HK in Hkin. pose proof (proj1 (found_storage K self _ i nd Hinv HS Hi) Hkin) as Hs.
    destruct value as [v|].
    + destruct (update_modify σ key (Some v) Hbytes Hkey Hinv HS Hc i nd) as (self2 & Hrun & Hfor); [done..|by eexists|]. by eapply Hgoal.
    + destruct (update_removed σ key None Hbytes Hkey Hinv HS Hc i nd) as (removed & s1 & self2 & -> & Hrun & Hfor); [done..|]. by eapply Hgoal.
  - destruct Hnode as (nd & Hi & HK), Hok as (Hno & _). destruct value as [v|].
    + destruct (branch_insert_spec K self i nd _ Hinv Hi HS) as (s1 & Hrun & Hinv1 & HS1). unfold branch_insert_storage_value in *.
      rewrite Hi in Hrun |- *. injection Hrun as <-. rewrite HK in HS1.
      destruct (update_flag σ key (Some v) Hbytes Hinv HS Hc i nd true (AccStorage i)) as (self2 & Hrun & Hfor); try done; [by rewrite changed_keys|].
      by eapply Hgoal.
    + destruct (update_nothing σ key None Hbytes Hkey Hinv HS Hc) as (self2 & Hrun & Hfor); [done..|]. by eapply Hgoal.
  - destruct Hok as (-> & Hno & Hnb). destruct value as [v|].
    + destruct (update_vacant σ key (Some v) Hbytes Hkey Hinv HS Hc ca nb ns) as (prepare & s1 & parent & self2 & -> & Hrun & Hinval & Hfor); [by eexists|done|done| |].
      { intros k Hk Hpre. apply Hbetween. split; [by eexists|]. split; [|by eauto]. apply eq_None_not_Some. by rewrite <- Hin. }
      destruct prepare as [insert|insert].
      * destruct Hrun as [-> ->]. by eapply Hgoal.
      * destruct Hrun as (s0 & acc & -> & -> & -> & ->). by eapply Hgoal.
    + destruct (update_nothing σ key None Hbytes Hkey Hinv HS Hc) as (self2 & Hrun & Hfor); [done..|]. by eapply Hgoal.
Qed.

End cache.

(** ** Concrete caches *)

Section concrete.
#[local] Existing Instance platform64.
#[local] Existing Instance toy_blake2b.
#[local] Existing Instance toy_blake2b_laws.

(** The cache with the structure of two keys. *)
Definition cache_two : CalculationCache := mkCalculationCache (insert_keys TrieStructure_new keys_two indices_two).

Lemma cache_two_for : cache_for storage_two cache_two.
Proof.
  destruct (trie_new_inv (TUd := CacheEntry)) as [Hinv HS]. destruct keys_two_of as [Hb Hkeys].
  destruct (insert_keys_spec _ TrieStructure_new ∅ keys_two indices_two Hinv HS) as (K & self & Hrun & Hinv' & HS' & Hemp); try done.
  { intros k b u (i & nd & Hi & _). cbn in Hi. by rewrite lookup_empty in Hi. }
  { repeat constructor; by intros Hp%prefix_length; cbn in Hp; lia. }
  { exact insertions_two_ok. }
  unfold cache_for, cache_two. cbn [structure]. rewrite Hrun. exists K. split_and!; [done| |by apply all_empty_cache].
  replace (storage_keys storage_two) with (list_to_set (key_nibbles <$> keys_two) ∪ ∅ : gset (list Nibble)); [done|]. by vm_compute.
Qed.

Lemma cache_update_spec_witness :
  cache_for storage_two cache_two /\ exists cache,
    cache_storage_value_update cache_two [17] false 20 21 = Some cache /\ cache_for (changed storage_two [17] None) cache.
Proof.
  split; [exact cache_two_for|]. apply (cache_update_spec storage_two [17] None cache_two 20 21).
  - intros k Hk. destruct keys_two_of as [Hb Hkeys]. apply Hkeys in Hk. rewrite Forall_forall in Hb. by apply Hb.
  - repeat constructor; lia.
  - exact cache_two_for.
  - intros [[? ?] _]. done.
  - intros self E. vm_compute in E. injection E as <-. apply small_op_ok; [repeat constructor; lia|cbn; lia|done|done|lia..].
Defined.

(** The root of one key is calculated. Then a key that is a prefix of it gets a value: the
    cache keeps the Merkle value of the first node, whose partial key is now shorter
    and which is no longer the root, and the root that is calculated with the cache is
    not the root of the storage. *)
Definition storage_one : gmap (list u8) (TrieEntryVersion * list u8) := {[ [17; 34] := (V1, [6]) ]}.

Lemma cache_between_wrong :
  exists hash1 cache1 asked1 cache2 hash cache3 asked3 hash' cache4 asked4,
    calculate_root (fun key => storage_one !! key) [[17; 34]] [(10, 0)] None = Some (hash1, cache1, asked1) /\
    cache_storage_value_update cache1 [17] true 11 1 = Some cache2 /\ inserted_between storage_one [17] (Some (V1, [5])) /\
    calculate_root (fun key => storage_two !! key) keys_two indices_two (Some cache2) = Some (hash, cache3, asked3) /\
    calculate_root (fun key => storage_two !! key) keys_two indices_two None = Some (hash', cache4, asked4) /\ hash <> hash'.
Proof.
  eexists _, _, _, _, _, _, _, _, _, _. split; [vm_compute; reflexivity|]. split; [vm_compute; reflexivity|]. split.
  { split_and!; [by eexists|done| |exists [17; 34]; split; [by eexists|by exists [34]]].
    intros (a & b & x & y & Hab & Hx & Hy). unfold storage_keys, storage_one in Hx, Hy. rewrite dom_singleton_L, set_map_singleton_L, elem_of_singleton in Hx, Hy.
    rewrite <- Hy in Hx. apply app_inv_head in Hx. congruence. }
  split; [vm_compute; reflexivity|]. split; [vm_compute; reflexivity|]. by vm_compute.
Qed.

(** The keys are inserted with [into_vacant().unwrap()]: a key at which two earlier keys
    part has a branch node already, and the insertion panics. *)
Lemma keys_order_panics :
  insert_keys TrieStructure_new [[17; 16]; [17; 32]; [17]] [(10, 0); (11, 1); (12, 2)] = None /\
  is_Some (insert_keys TrieStructure_new [[17]; [17; 16]; [17; 32]] [(10, 0); (11, 1); (12, 2)]).
Proof. split; [by vm_compute|]. vm_compute. by eexists. Qed.

End concrete.
