(* ===== verification/RootProof.v ===== *)
(** * Proofs against a calculated root

    The calculation of a root (CalculateRootSpec.v) and the verification of proofs
    (ProofVerify.v) fit together: what a proof that is accepted against the root that is
    calculated from a storage says of a key is what the storage has at the key. *)

From S2P Require Import Prelude Nibble TrieNode ProofVerify TrieStructure TrieStructureRun CanonicalTrie CalculateRoot CalculateRootWalk CalculateRootSpec.

Open Scope Z_scope.

Section proofs.
Context `{Platform} `{Blake2bLaws}.

(** ** The nodes of a canonical trie can be decoded *)

Lemma subtrie_canonical t c : canonical t -> subtrie t c -> canonical c.
Proof.
  intros Ht. induction 1 as [|c n c' _ IH Hch]; [done|]. destruct IH as [ver pk v ts _ _ _ Hts]. cbn in Hch.
  destruct (ts !! Z.to_nat n) as [[x|]|] eqn:E; try done. cbn in Hch. injection Hch as ->. by apply (Hts (Z.to_nat n)).
Qed.

Lemma subtrie_entry t c k x : subtrie t c -> trie_entry c k x -> exists pre, trie_entry t (pre ++ k) x.
Proof.
  intros Hc. revert k. induction Hc as [|c n c' _ IH Hch]; intros k He; [by exists []|]. destruct c as [ver pk v ts]. cbn in Hch.
  destruct (ts !! Z.to_nat n) as [[t'|]|] eqn:E; try done. cbn in Hch. injection Hch as ->.
  destruct (IH (pk ++ Z.of_nat (Z.to_nat n) :: k)) as [pre Hpre]; [eapply entry_child; [lia|by rewrite Nat2Z.id|done]|].
  exists (pre ++ pk ++ [Z.of_nat (Z.to_nat n)]). by rewrite <- !app_assoc.
Qed.

(** Keys of at most 134 bytes: the length of a partial key is written without the
    ambiguity of [first_byte_max + 255]. *)
Definition short_entries (t : Trie) : Prop := forall k x, trie_entry t k x -> (length k <= 268)%nat /\ is_usize (len (snd x)).

Lemma first_byte_max_ge config : 15 <= first_byte_max config.
Proof. unfold first_byte_max, node_header. repeat case_match; vm_compute; done. Qed.

Lemma merkle_usize t o : calculate_merkle_value (node_config t) = Some o -> is_usize (len (Output_as_ref o)).
Proof.
  intros Ho. destruct (node_value_chunks (node_config t)) as [chunks|] eqn:Ec; [|by unfold calculate_merkle_value in Ho; rewrite Ec in Ho].
  pose proof (merkle_value_eq _ _ _ Ec Ho) as E. assert (Hle : 0 <= len (Output_as_ref o) <= 32).
  { destruct t as [ver pk v ts]. cbn in E. rewrite E. pose proof (len_nonneg (concat chunks)). destruct (Z.ltb_spec (len (concat chunks)) 32); [lia|].
    unfold len. rewrite blake2b_length. lia. }
  unfold is_uint. destruct usize_bits_spec as [-> | ->]; lia.
Qed.

Lemma canonical_node_ok t c : canonical t -> short_entries t -> subtrie t c -> node_ok c.
Proof.
  intros Ht Hshort Hc. pose proof (subtrie_canonical t c Ht Hc) as Hcan. destruct (canonical_entry c Hcan) as (k & x & He).
  assert (Hlen : (length (trie_pk c) <= 268)%nat).
  { destruct (subtrie_entry t c k x Hc He) as (pre & Hpre). destruct (Hshort _ _ Hpre) as [Hl _]. rewrite length_app in Hl.
    pose proof (prefix_length _ _ (entry_prefix c k x He)). lia. }
  assert (Husize : forall z, 0 <= z <= 268 -> is_usize z) by (intros z Hz; unfold is_uint; destruct usize_bits_spec as [-> | ->]; lia).
  split; [split|].
  - destruct Hcan as [ver pk v ts H16 _ _ _]. cbn. unfold len. by rewrite length_map, H16.
  - rewrite node_config_pk. by destruct Hcan.
  - rewrite node_config_pk. unfold len. apply Husize. lia.
  - destruct Hcan as [ver pk v ts _ _ _ _]. cbn. apply Forall_map, Forall_forall. intros [t'|] _ o Ho; [|done]. by apply (merkle_usize t').
  - rewrite node_config_value. intros v Hv. destruct c as [ver pk v' ts]. cbn in Hv. subst v'.
    destruct (subtrie_entry t _ pk (ver, v) Hc (entry_here ver pk v ts)) as (pre & Hpre). by destruct (Hshort _ _ Hpre).
  - intros Hno Hnone. exfalso. destruct Hcan as [ver pk v ts H16 Hpk Htwo Hts]. cbn in Hnone. subst v. destruct Htwo as (_ & n & _ & _ & (t' & Ht') & _); [done|].
    apply not_true_iff_false in Hno. apply Hno. unfold has_children. apply existsb_exists.
    destruct (merkle_total (node_config t')) as [o Ho].
    + destruct (Hts n t' Ht') as [ver' pk' v' ts' H16' _ _ _]. cbn. by rewrite length_map.
    + rewrite node_config_pk. by destruct (Hts n t' Ht').
    + exists (Some o). split; [|by apply bool_decide_true]. cbn. apply in_map_iff. exists (Some t'). split; [done|].
      apply list_elem_of_In. by eapply list_elem_of_lookup_2.
  - intros (m & Hm & E). pose proof (first_byte_max_ge (node_config c)). unfold len in E. lia.
Qed.

(** ** The verification *)

Definition short_storage (σ : gmap (list u8) (TrieEntryVersion * list u8)) : Prop :=
  forall k x, σ !! k = Some x -> (length k <= 134)%nat /\ is_usize (len (snd x)).

Lemma trie_of_short σ t : short_storage σ -> trie_of σ t -> short_entries t.
Proof.
  intros Hs [_ He] k x (key & -> & Hx)%He. destruct (Hs key x Hx) as [Hl Hu]. split; [|done].
  rewrite key_nibbles_of, length_nibbles_of. lia.
Qed.

(** What the storage says of the answer about a key. *)
Definition answer_ok (σ : gmap (list u8) (TrieEntryVersion * list u8)) (proof : list (list u8)) (key : list u8)
    (r : result VerifyError (option (list u8))) : Prop :=
  match r with
  | Ok v => v = snd <$> σ !! key
  | Err TrieRootNotFound => exists t v, trie_of σ t /\ node_value t = Some v /\ (v ∉ proof \/ len v < 32)
  | Err (MissingProofEntry _) => exists t, trie_of σ t /\
      (lacks_node proof t \/ exists x, snd <$> σ !! key = Some x /\ 33 <= len x /\ x ∉ proof)
  | Err _ => False
  end.

Lemma info_storage σ t key v ns :
  (forall k, is_Some (σ !! k) -> is_bytes k) -> is_bytes key -> trie_of σ t -> trie_info t (key_nibbles key) v ns -> v = snd <$> σ !! key.
Proof.
  intros Hbytes Hkey [_ He] Hi. pose proof (entry_info t _ v ns Hi (key_nibbles_nibbles key Hkey)) as Hv.
  assert (Hsame : forall x, v = Some x <-> snd <$> σ !! key = Some x).
  { intros x. rewrite (Hv x). setoid_rewrite He. rewrite fmap_Some. split.
    - intros (ver & k & E & Hk). apply key_nibbles_inj in E as ->; [|done|apply Hbytes; by eexists]. exists (ver, x). done.
    - intros ([ver y] & Hk & ->). exists ver, key. done. }
  destruct v as [x|]; [symmetry; by apply Hsame|]. destruct (snd <$> σ !! key) as [x|]; [|done]. by apply Hsame.
Qed.

(** C13: the root that is calculated from a storage (with keys of at most 134 bytes), and
    the verification of proofs against it, agree: for a proof without collision with the
    data of the trie, the verification ends, and what it says of a key is the value that
    the storage has at the key, or that it has none. It fails only when the root is not in
    the proof, or is a node of less than 32 bytes, or when a node or the value is not in
    the proof. The storage is not empty, and its keys are given in an order in which no
    key comes after one that it is a prefix of. *)
Theorem proof_against_calculated_root (σ : gmap (list u8) (TrieEntryVersion * list u8)) keys indices hash cache asked key proof :
  keys_of σ keys -> prefixes_first keys -> length indices = length keys -> trie_ops_ok TrieStructure_new (insertions keys indices) ->
  σ <> ∅ -> short_storage σ -> calculate_root (fun k => σ !! k) keys indices (Some CalculationCache_empty) = Some (hash, cache, asked) ->
  (forall t, trie_of σ t -> no_collision proof t) -> is_bytes key ->
  exists r, verify_proof key hash proof = Some r /\ answer_ok σ proof key r.
Proof.
  intros Hkeys Hpf Hlen Hops Hne Hshort Hrun Hnc Hkey.
  destruct (structure_spec σ keys indices CalculationCache_empty Hkeys I) as (K & self & _ & _ & _ & _ & _ & out & Hrun' & Hok); [done|].
  rewrite Hrun in Hrun'. injection Hrun' as <-. destruct Hok as (Hroot & _). unfold storage_root in Hroot. rewrite decide_False in Hroot by done.
  destruct Hroot as (t & Ht & Hhash). assert (Hbytes : forall k, is_Some (σ !! k) -> is_bytes k).
  { intros k Hk. destruct Hkeys as [Hb Hk']. rewrite Forall_forall in Hb. apply Hb. by apply Hk'. }
  destruct (trie_node_info_correct t proof (key_nibbles key)) as (root & v & r & Hr & Hv & Hinfo & Hout);
    [intros c Hc; apply (canonical_node_ok t); [apply Ht|by apply (trie_of_short σ)|done]|by apply Hnc|by apply key_nibbles_nibbles|].
  rewrite Hr in Hhash. cbn in Hhash. injection Hhash as <-. unfold verify_proof. fold (key_nibbles key). rewrite Hinfo. eexists. split; [done|].
  destruct r as [info|e]; cbn [outcome_ok] in Hout.
  - destruct Hout as (w & ns & Hi & _ & Hm). pose proof (info_storage σ t key w ns Hbytes Hkey Ht Hi) as Ew.
    destruct (info_storage_value info); cbn in Hm |- *; [congruence| |congruence]. destruct Hm as (x & -> & _ & H33 & Hx). exists t. split; [done|]. right. eauto.
  - destruct e; cbn in Hout |- *; [by exists t, v|done|]. exists t. split; [done|]. by left.
Qed.

End proofs.

(** ** A concrete storage *)

Section concrete.
#[local] Existing Instance platform64.
#[local] Existing Instance toy_blake2b.
#[local] Existing Instance toy_blake2b_laws.

(** One key, with a value of 40 bytes. *)
Definition storage_long : gmap (list u8) (TrieEntryVersion * list u8) := {[ [18] := (V0, replicate 40 1) ]}.
Definition trie_long : Trie := TNode V0 [1; 2] (Some (replicate 40 1)) (replicate 16 None).
Definition proof_long : list (list u8) := [default [] (node_value trie_long)].

Lemma trie_long_of : trie_of storage_long trie_long.
Proof.
  split.
  - constructor; [done|by repeat constructor|done|]. intros n t Ht. by apply lookup_replicate in Ht as [? _].
  - intros k x. unfold trie_long, storage_long. rewrite entry_cases. split.
    + intros [(-> & y & [= <-] & ->)|(n & t & rest & _ & _ & Ht & _)]; [by exists [18]|]. by apply lookup_replicate in Ht as [? _].
    + intros (key & -> & [<- <-]%lookup_singleton_Some). left. split; [by vm_compute|eauto].
Qed.

Lemma long_subtrie c : subtrie trie_long c -> c = trie_long.
Proof.
  induction 1 as [|c n c' _ -> Hch]; [done|]. unfold trie_child, trie_long in Hch.
  destruct (replicate 16 (None : option Trie) !! Z.to_nat n) as [[t|]|] eqn:E; try done. by apply lookup_replicate in E as [? _].
Qed.

Lemma long_no_collision t : trie_of storage_long t -> no_collision proof_long t.
Proof.
  intros Ht. rewrite (trie_of_unique storage_long t trie_long Ht trie_long_of). intros x y c Hx ->%long_subtrie Hy Hh.
  destruct Hy as [Hy|Hy]; vm_compute in Hy; injection Hy as <-; apply elem_of_cons in Hx as [->|[]%not_elem_of_nil]; vm_compute in Hh |- *; done.
Qed.

Lemma proof_against_calculated_root_witness :
  exists hash cache asked, calculate_root (fun k => storage_long !! k) [[18]] [(1, 0)] (Some CalculationCache_empty) = Some (hash, cache, asked) /\
    exists r, verify_proof [18] hash proof_long = Some r /\ answer_ok storage_long proof_long [18] r /\ r = Ok (Some (replicate 40 1)).
Proof.
  destruct (calculate_root (fun k => storage_long !! k) [[18]] [(1, 0)] (Some CalculationCache_empty)) as [[[hash cache] asked]|] eqn:E; [|by vm_compute in E].
  exists hash, cache, asked. split; [reflexivity|].
  destruct (proof_against_calculated_root storage_long [[18]] [(1, 0)] hash cache asked [18] proof_long) as (r & Hr & Hok).
  - split; [repeat constructor; lia|]. intros key. unfold storage_long. rewrite lookup_singleton_is_Some, list_elem_of_singleton. naive_solver.
  - repeat constructor.
  - reflexivity.
  - split; [|done]. apply small_op_ok; [repeat constructor; lia|cbn; lia|done|done|lia..].
  - done.
  - intros k x Hx. unfold storage_long in Hx. apply lookup_singleton_Some in Hx as [<- <-]. split; [cbn; lia|]. by vm_compute.
  - exact E.
  - exact long_no_collision.
  - repeat constructor; lia.
  - exists r. split; [exact Hr|]. split; [exact Hok|]. vm_compute in E. injection E as <- _ _. vm_compute in Hr. injection Hr as <-. reflexivity.
Defined.

End concrete.
