(* ===== verification/TrieRoot.v ===== *)
(** * The roots of lists of entries ([src/src/trie.rs])

    The loops that drive the calculation of a root over a list of entries: the root of
    an empty trie, of a list of keys and values, and of a list of values whose keys are
    their encoded indices, such as the transactions of a block ([src/src/header.rs],
    [extrinsics_root]). *)

From S2P Require Import Prelude Scale Nibble TrieNode ProofVerify HeaderBase TrieStructure TrieStructureRun CanonicalTrie CalculateRoot CalculateRootWalk CalculateRootSpec.

Open Scope Z_scope.

Section roots.
Context `{Platform} `{Blake2b}.

(** The loop over the questions of the calculation: [keys] are given when they are
    asked, [find] is the value at a key. The indices of the new nodes are arguments. *)
Fixpoint root_loop (fuel : nat) (version : TrieEntryVersion) (keys : option (list (list u8))) (indices : list (Z * Z))
    (find : list u8 -> option (option (list u8))) (calculation : RootMerkleValueCalculation) : option (list u8) :=
  match fuel with
  | O => None
  | S fuel =>
      match calculation with
      | Finished hash _ => Some hash
      | AllKeys calc =>
          let! keys' := keys in
          let! calculation := AllKeys_inject calc keys' indices in
          root_loop fuel version keys indices find calculation
      | CalcStorageValue value =>
          let! key := StorageValue_key value in
          let! result := find key in
          let! calculation := StorageValue_inject value version result in
          root_loop fuel version keys indices find calculation
      end
  end.

(** A value is never asked. *)
Definition empty_trie_merkle_value : option (list u8) :=
  let! calculation := root_merkle_value None in
  root_loop 3 V1 (Some []) [] (fun _ => Some None) calculation.

(** [entries.iter().find(|(k, _)| ..)]: the first entry with the key. *)
Definition find_entry_value (entries : list (list u8 * list u8)) (key : list u8) : option (list u8) :=
  snd ∘ snd <$> list_find (fun e => fst e = key) entries.

Definition trie_root (version : TrieEntryVersion) (entries : list (list u8 * list u8)) (indices : list (Z * Z)) : option (list u8) :=
  let! calculation := root_merkle_value None in
  root_loop (3 + length entries) version (Some (fst <$> entries)) indices (fun key => Some (find_entry_value entries key)) calculation.

Definition USIZE_COMPACT_BYTES : usize := 1 + usize_bits / 8.

(** The conversion to an [ArrayVec], and [collect] into one: a panic when it is too long. *)
Definition array_vec (bytes : list u8) : option (list u8) := if len bytes <=? USIZE_COMPACT_BYTES then Some bytes else None.

Definition ordered_key (num : usize) : option (list u8) := array_vec (encode_scale_compact_usize num).

Definition find_ordered (entries : list (list u8)) (key : list u8) : option (option (list u8)) :=
  let! key := array_vec key in
  match nom_scale_compact_usize key with
  | Ok (_, key) => Some (entries !! Z.to_nat key)
  | Err _ => None
  end.

Definition ordered_root (version : TrieEntryVersion) (entries : list (list u8)) (indices : list (Z * Z)) : option (list u8) :=
  let! calculation := root_merkle_value None in
  root_loop (3 + length entries) version (mapM ordered_key (seqZ 0 (len entries))) indices (find_ordered entries) calculation.

(** [header.rs]. *)
Definition extrinsics_root (transactions : list (list u8)) (indices : list (Z * Z)) : option (list u8) := ordered_root V0 transactions indices.

(** ** The loop and the answers *)

Lemma root_loop_answers fuel read version keys indices find r hash cache asked :
  answer_values fuel read r = Some (hash, cache, asked) ->
  (forall key x, read key = Some x -> exists v, x = (version, v) /\ find key = Some (Some v)) ->
  root_loop (S fuel) version keys indices find r = Some hash.
Proof.
  intros Hrun Hfind. revert r hash cache asked Hrun. induction fuel as [|fuel IH]; intros r hash cache asked Hrun.
  - destruct r; cbn in Hrun; [|done|done]. by injection Hrun as <- _ _.
  - destruct r as [h c|c|c]; [by injection Hrun as <- _ _|done|]. cbn [answer_values] in Hrun.
    change (root_loop (S (S fuel)) version keys indices find (CalcStorageValue c)) with
      (let! key := StorageValue_key c in let! result := find key in let! calculation := StorageValue_inject c version result in
       root_loop (S fuel) version keys indices find calculation).
    destruct (StorageValue_key c) as [key|]; [|done]. destruct (read key) as [[ver v]|] eqn:Er; [|done].
    destruct (Hfind key _ Er) as (v' & [= -> ->] & ->). destruct (StorageValue_inject c version (Some v')) as [c'|]; [|done].
    destruct (answer_values fuel read c') as [[[h' ca'] as']|] eqn:Ea; [|done]. injection Hrun as <- _ _. by apply (IH c' h' ca' as').
Qed.

End roots.

Section theorems.
Context `{Platform} `{Blake2bLaws}.

Lemma answers_root (σ : gmap (list u8) (TrieEntryVersion * list u8)) keys indices version find :
  keys_of σ keys -> prefixes_first keys -> length indices = length keys -> trie_ops_ok TrieStructure_new (insertions keys indices) ->
  (forall key x, σ !! key = Some x -> exists v, x = (version, v) /\ find key = Some (Some v)) ->
  exists calculation hash, root_merkle_value None = Some calculation /\
    root_loop (3 + length keys) version (Some keys) indices find calculation = Some hash /\ storage_root σ hash.
Proof.
  intros Hkeys Hpf Hlen Hops Hfind.
  destruct (structure_spec σ keys indices CalculationCache_empty Hkeys I) as (K & self & _ & _ & _ & _ & _ & [[hash cache] asked] & Hrun & Hok); [done|].
  destruct Hok as (Hroot & _). exists (AllKeys (mkCalcInner CalculationCache_empty None false)), hash. split; [done|]. split; [|done].
  change (calculate_root (fun key => σ !! key) keys indices (Some CalculationCache_empty)) with
    (let! r := AllKeys_inject (mkCalcInner CalculationCache_empty None false) keys indices in answer_values (S (length keys)) (fun key => σ !! key) r) in Hrun.
  change (root_loop (3 + length keys) version (Some keys) indices find (AllKeys (mkCalcInner CalculationCache_empty None false))) with
    (let! r := AllKeys_inject (mkCalcInner CalculationCache_empty None false) keys indices in root_loop (2 + length keys) version (Some keys) indices find r).
  destruct (AllKeys_inject (mkCalcInner CalculationCache_empty None false) keys indices) as [r|]; [|done].
  by apply (root_loop_answers (S (length keys)) (fun key => σ !! key) version (Some keys) indices find r hash cache asked).
Qed.

(** ** Entries *)

(** The storage of a list of entries. *)
Definition entries_storage (version : TrieEntryVersion) (entries : list (list u8 * list u8)) : gmap (list u8) (TrieEntryVersion * list u8) :=
  (fun v => (version, v)) <$> list_to_map entries.

Lemma entries_keys version entries : Forall is_bytes (fst <$> entries) -> keys_of (entries_storage version entries) (fst <$> entries).
Proof.
  intros Hb. split; [done|]. intros key. unfold entries_storage. rewrite lookup_fmap, fmap_is_Some, <- elem_of_dom, dom_list_to_map_L, elem_of_list_to_set. done.
Qed.

Lemma find_entry_value_spec entries key v : NoDup (fst <$> entries) -> (key, v) ∈ entries -> find_entry_value entries key = Some v.
Proof.
  unfold find_entry_value. induction entries as [|[k w] entries IH]; intros Hnd Hin; [by apply elem_of_nil in Hin|]. cbn.
  apply NoDup_cons in Hnd as [Hk Hnd]. apply elem_of_cons in Hin as [[= -> ->]|Hin]; [by rewrite decide_True|].
  rewrite decide_False; [|intros ->; apply Hk, list_elem_of_fmap; by exists (key, v)].
  specialize (IH Hnd Hin). destruct (list_find _ entries) as [[i e]|]; done.
Qed.

(** The root of a list of entries is that of its storage, whatever the order, as long as
    no key comes after one that it is a prefix of. *)
Lemma trie_root_spec version entries indices :
  Forall is_bytes (fst <$> entries) -> prefixes_first (fst <$> entries) -> length indices = length entries ->
  trie_ops_ok TrieStructure_new (insertions (fst <$> entries) indices) ->
  exists hash, trie_root version entries indices = Some hash /\ storage_root (entries_storage version entries) hash.
Proof.
  intros Hb Hpf Hlen Hops. pose proof (prefixes_first_nodup _ Hpf) as Hnd.
  destruct (answers_root (entries_storage version entries) (fst <$> entries) indices version (fun key => Some (find_entry_value entries key)))
    as (c & hash & Hrun & Hloop & Hroot); try done; [by apply entries_keys|by rewrite length_fmap| |].
  - intros key x Hx. unfold entries_storage in Hx. rewrite lookup_fmap in Hx. apply fmap_Some in Hx as (v & Hv & ->).
    apply elem_of_list_to_map_2 in Hv. exists v. by rewrite (find_entry_value_spec entries key v).
  - exists hash. unfold trie_root. rewrite Hrun. rewrite length_fmap in Hloop. done.
Qed.

(** ** Indices as keys *)

(** The keys of [n] entries: their encoded indices. *)
Definition ordered_keys (n : Z) : list (list u8) := encode_scale_compact_usize <$> seqZ 0 n.

Definition ordered_storage (version : TrieEntryVersion) (entries : list (list u8)) : gmap (list u8) (TrieEntryVersion * list u8) :=
  entries_storage version (zip (ordered_keys (len entries)) entries).

(** No encoded index is a prefix of another. *)
Lemma encoded_prefix_free i j rest : is_usize i -> is_usize j -> encode_scale_compact_usize j = encode_scale_compact_usize i ++ rest -> i = j.
Proof.
  intros Hi Hj E. pose proof (usize_decode_encode j [] Hj) as Dj. rewrite app_nil_r, E, usize_decode_encode in Dj by done. by injection Dj.
Qed.

Lemma index_usize n i : is_usize n -> i ∈ seqZ 0 n -> is_usize i.
Proof. intros Hn Hi%elem_of_seqZ. unfold is_uint in *. lia. Qed.

Lemma ordered_keys_ok n : is_usize n -> Forall is_bytes (ordered_keys n) /\ prefixes_first (ordered_keys n).
Proof.
  intros Hn. assert (Hall : Forall is_usize (seqZ 0 n)) by (apply Forall_forall; intros i Hi; by apply (index_usize n)). split.
  - apply Forall_fmap. eapply Forall_impl; [exact Hall|]. intros i Hi. by apply usize_encode.
  - pose proof (NoDup_seqZ 0 n) as Hnd. unfold prefixes_first, ordered_keys. induction Hall as [|i l Hi Hl IH]; constructor.
    + apply Forall_fmap, Forall_forall. intros j Hj. apply NoDup_cons in Hnd as [Hno _]. rewrite Forall_forall in Hl. cbn. intros [rest E].
      apply encoded_prefix_free in E; [|by apply Hl|done]. congruence.
    + apply IH. by apply NoDup_cons in Hnd as [_ ?].
Qed.

Lemma array_vec_index i : is_usize i -> array_vec (encode_scale_compact_usize i) = Some (encode_scale_compact_usize i).
Proof.
  intros Hi. unfold array_vec, USIZE_COMPACT_BYTES, is_uint in *. assert (Hlen : len (encode_scale_compact_usize i) <= 1 + usize_bits / 8).
  - destruct usize_bits_spec as [E|E]; rewrite E in *.
    + apply (encode_scale_compact_len i 4); [exact Hi|lia].
    + apply (encode_scale_compact_len i 8); [exact Hi|lia].
  - by rewrite (proj2 (Z.leb_le _ _) Hlen).
Qed.

Lemma ordered_lookup version entries key x :
  is_usize (len entries) -> ordered_storage version entries !! key = Some x ->
  exists i v, is_usize i /\ key = encode_scale_compact_usize i /\ entries !! Z.to_nat i = Some v /\ x = (version, v).
Proof.
  intros Hn Hx. unfold ordered_storage, entries_storage in Hx. rewrite lookup_fmap in Hx. apply fmap_Some in Hx as (v & Hv & ->).
  apply elem_of_list_to_map_2, list_elem_of_lookup in Hv as (k & Hk). apply lookup_zip_with_Some in Hk as (key' & v' & [= -> ->] & Hkey & Hv).
  unfold ordered_keys in Hkey. apply list_lookup_fmap_Some in Hkey as (i & -> & Hi).
  exists i, v'. apply lookup_seqZ in Hi as [-> Hi]. split_and!; try done; [unfold is_uint in *; lia|]. by rewrite Z.add_0_l, Nat2Z.id.
Qed.

(** C14: the root of a list of values whose keys are their indices in compact encoding
    (as for the transactions of a block): for any list, the calculation ends without a
    panic and gives the root of the storage with the value of each index at its encoded
    index. The keys are decoded back to the indices, and the order of the keys is one
    in which the trie can be built because no encoding is a prefix of another. *)
Theorem ordered_root_spec version entries indices :
  is_usize (len entries) -> length indices = length entries ->
  trie_ops_ok TrieStructure_new (insertions (ordered_keys (len entries)) indices) ->
  exists hash, ordered_root version entries indices = Some hash /\ storage_root (ordered_storage version entries) hash.
Proof.
  intros Hn Hlen Hops. destruct (ordered_keys_ok (len entries) Hn) as [Hb Hpf].
  assert (Hlk : length (ordered_keys (len entries)) = length entries) by (unfold ordered_keys, len; rewrite length_fmap, length_seqZ; lia).
  assert (Hfst : fst <$> zip (ordered_keys (len entries)) entries = ordered_keys (len entries)) by (apply fst_zip; lia).
  destruct (answers_root (ordered_storage version entries) (ordered_keys (len entries)) indices version (find_ordered entries))
    as (c & hash & Hrun & Hloop & Hroot); [|done|congruence|done| |].
  - unfold ordered_storage. rewrite <- Hfst at 2. apply entries_keys. by rewrite Hfst.
  - intros key x (i & v & Hi & -> & Hv & ->)%ordered_lookup; [|done]. exists v. split; [done|]. unfold find_ordered. rewrite array_vec_index by done.
    rewrite <- (app_nil_r (encode_scale_compact_usize i)), usize_decode_encode by done. by rewrite Hv.
  - exists hash. split; [|done]. unfold ordered_root. rewrite Hrun. replace (mapM ordered_key (seqZ 0 (len entries))) with (Some (ordered_keys (len entries))).
    + by rewrite <- Hlk.
    + symmetry. apply mapM_Some, Forall2_fmap_r, Forall_Forall2_diag, Forall_forall. intros i Hi. by apply array_vec_index, (index_usize (len entries)).
Qed.

(** The root of an empty trie. *)
Lemma empty_trie_merkle_value_spec : empty_trie_merkle_value = Some (blake2b_32 [0]).
Proof.
  destruct (answers_root ∅ [] [] V1 (fun _ => Some None)) as (c & hash & Hrun & Hloop & Hroot);
    [split; [done|]; intros key; rewrite lookup_empty; split; [by intros ?%elem_of_nil|by intros []]|constructor|done|done|by intros key x; rewrite lookup_empty|].
  unfold empty_trie_merkle_value. rewrite Hrun. cbn [length] in Hloop. rewrite Nat.add_0_r in Hloop. rewrite Hloop. f_equal.
  unfold storage_root in Hroot. rewrite decide_True in Hroot by done.
  pose proof (merkle_value_root (TNode V1 [] None (replicate 16 None)) [0] eq_refl) as Hm.
  assert (E : Some hash = Some (blake2b_32 [0])) by (rewrite <- Hm, <- Hroot; done). by injection E.
Qed.

End theorems.

(** ** Concrete entries *)

Section concrete.
#[local] Existing Instance platform64.
#[local] Existing Instance toy_blake2b.
#[local] Existing Instance toy_blake2b_laws.

Lemma ordered_root_spec_witness :
  is_usize (len [[7]; [8; 9]]) /\ exists hash, ordered_root V0 [[7]; [8; 9]] [(10, 0); (11, 1)] = Some hash /\ storage_root (ordered_storage V0 [[7]; [8; 9]]) hash.
Proof.
  split; [by vm_compute|]. apply (ordered_root_spec V0 [[7]; [8; 9]] [(10, 0); (11, 1)]); [by vm_compute|reflexivity|].
  split; [apply (small_op_ok _ [0]); [repeat constructor; lia|cbn; lia|done|done|lia..]|]. intros t1 E1. vm_compute in E1. injection E1 as <-.
  split; [apply (small_op_ok _ [4]); [repeat constructor; lia|cbn; lia|done|done|lia..]|done].
Defined.

(** The host function [ext_trie_blake2_256_root] gives the entries of the runtime to
    [trie_root]: an entry that comes twice, or a key at which two earlier keys part,
    makes it panic. *)
Lemma trie_root_panics :
  trie_root V0 [([17], [1]); ([17], [1])] [(10, 0); (11, 1)] = None /\
  trie_root V0 [([17; 16], [1]); ([17; 32], [2]); ([17], [3])] [(10, 0); (11, 1); (12, 2)] = None /\
  is_Some (trie_root V0 [([17], [3]); ([17; 16], [1]); ([17; 32], [2])] [(10, 0); (11, 1); (12, 2)]).
Proof. split; [by vm_compute|]. split; [by vm_compute|]. vm_compute. by eexists. Qed.

End concrete.
