(* ===== verification/ReadWrite.v ===== *)
(** * The buffers of a socket ([src/src/libp2p/read_write.rs])

    What a connection is given when there is something to read or to write: the data
    that was received, and the memory for the data to send, in two slices. Writing copies the data
    at the start of the slices, in order, and moves their start. *)

From S2P Require Import Prelude.

Open Scope Z_scope.

(** ** Data *)

(** The slices to write to are what is left of them; [rw_behind] is the memory
    before their start, in which the data that was written is found. It is not a field
    of the source. *)
Record ReadWrite (TNow : Type) := mkReadWrite {
  rw_now : TNow;
  incoming_buffer : option (list u8);
  outgoing_buffer : option (list u8 * list u8);
  read_bytes : usize;
  written_bytes : usize;
  rw_wake_up_after : option TNow;
  rw_behind : list u8
}.
Arguments mkReadWrite {TNow} _ _ _ _ _ _ _.
Arguments rw_now {TNow} _.
Arguments incoming_buffer {TNow} _.
Arguments outgoing_buffer {TNow} _.
Arguments read_bytes {TNow} _.
Arguments written_bytes {TNow} _.
Arguments rw_wake_up_after {TNow} _.
Arguments rw_behind {TNow} _.

Section read_write.
Context `{Platform} {TNow : Type}.

Implicit Types self : ReadWrite TNow.

(** *** Assignments to fields *)

Definition with_incoming (buf : option (list u8)) (read : usize) self : ReadWrite TNow :=
  mkReadWrite (rw_now self) buf (outgoing_buffer self) read (written_bytes self) (rw_wake_up_after self) (rw_behind self).
Definition with_outgoing (bufs : option (list u8 * list u8)) (written : usize) (behind : list u8) self : ReadWrite TNow :=
  mkReadWrite (rw_now self) (incoming_buffer self) bufs (read_bytes self) written (rw_wake_up_after self) behind.
Definition with_wake_up (t : option TNow) self : ReadWrite TNow :=
  mkReadWrite (rw_now self) (incoming_buffer self) (outgoing_buffer self) (read_bytes self) (written_bytes self) t (rw_behind self).

(** ** Operations

    [None] is a panic. *)

Definition is_dead self : bool :=
  match incoming_buffer self, outgoing_buffer self with None, None => true | _, _ => false end.

Definition advance_read (num : usize) self : option (ReadWrite TNow) :=
  match incoming_buffer self with
  | Some buf =>
      if num <=? len buf then Some (with_incoming (Some (drop (Z.to_nat num) buf)) (wadd usize_bits (read_bytes self) num) self)
      else None
  | None => if num =? 0 then Some self else None
  end.

(** What is left, and what is behind. *)
Definition advance_buf (buf : list u8) (n : usize) : option (list u8 * list u8) :=
  if n <=? len buf then Some (drop (Z.to_nat n) buf, take (Z.to_nat n) buf) else None.

Definition advance_write (num : usize) self : option (ReadWrite TNow) :=
  match outgoing_buffer self with
  | Some (buf0, buf1) =>
      let written := wadd usize_bits (written_bytes self) num in
      let out_buf_0_len := len buf0 in
      let! (buf0, behind0) := advance_buf buf0 (Z.min num out_buf_0_len) in
      let! (buf1, behind1) := advance_buf buf1 (saturating_sub num out_buf_0_len) in
      let bufs := if bool_decide (buf0 = []) && negb (bool_decide (buf1 = [])) then (buf1, buf0) else (buf0, buf1) in
      Some (with_outgoing (Some bufs) written (rw_behind self ++ behind0 ++ behind1) self)
  | None => if num =? 0 then Some self else None
  end.

Definition close_write self : ReadWrite TNow := with_outgoing None (written_bytes self) (rw_behind self) self.

Definition incoming_buffer_available self : usize := match incoming_buffer self with Some buf => len buf | None => 0 end.

Definition discard_all_incoming self : option (ReadWrite TNow) := advance_read (incoming_buffer_available self) self.

(** [IncomingBytes::next] and [size_hint]. *)
Definition IncomingBytes_next self : option u8 * ReadWrite TNow :=
  match incoming_buffer self with
  | Some (byte :: buf) => (Some byte, with_incoming (Some buf) (wadd usize_bits (read_bytes self) 1) self)
  | Some [] | None => (None, self)
  end.

Definition IncomingBytes_len self : usize := match incoming_buffer self with Some b => len b | None => 0 end.

(** [read_bytes::<N>]. *)
Definition read_bytes_array (N : nat) self : option (list u8 * ReadWrite TNow) :=
  match incoming_buffer self with
  | Some buf =>
      if Z.of_nat N <=? len buf then
        let! me := advance_read (Z.of_nat N) self in
        Some (take N buf, me)
      else None
  | None => if Nat.eqb N 0 then Some ([], self) else None
  end.

(** The sum of the sizes of two slices does not overflow. *)
Definition outgoing_buffer_available self : usize :=
  match outgoing_buffer self with Some (a, b) => len a + len b | None => 0 end.

(** [slice[..n].copy_from_slice(data)], where [n] is the length of the data. *)
Definition copy_at_start (data slice : list u8) : list u8 := data ++ drop (length data) slice.

Definition rw_write_out (data : list u8) self : option (ReadWrite TNow) :=
  match outgoing_buffer self with
  | None => if bool_decide (data = []) then Some self else None
  | Some (buf0, buf1) =>
      if len data <=? len buf0 + len buf1 then
        let to_copy_buf1 := Z.to_nat (Z.min (len buf0) (len data)) in
        let buf0 := copy_at_start (take to_copy_buf1 data) buf0 in
        let buf1 := copy_at_start (drop to_copy_buf1 data) buf1 in
        advance_write (len data) (with_outgoing (Some (buf0, buf1)) (written_bytes self) (rw_behind self) self)
      else None
  end.

(** A [VecDeque] is given by its two slices; what is left of it is returned. *)
Definition write_from_vec_deque (slice1 slice2 : list u8) self : option (list u8 * ReadWrite TNow) :=
  let outgoing_available := outgoing_buffer_available self in
  let to_copy1 := Z.min (len slice1) outgoing_available in
  let to_copy2 := if to_copy1 =? len slice1 then Z.min (len slice2) (outgoing_available - to_copy1) else 0 in
  let! me := rw_write_out (take (Z.to_nat to_copy1) slice1) self in
  let! me := rw_write_out (take (Z.to_nat to_copy2) slice2) me in
  Some (drop (Z.to_nat (to_copy1 + to_copy2)) (slice1 ++ slice2), me).

(** [wake_up_after]; [ltb] is the order of the times. *)
Definition wake_up_after (ltb : TNow -> TNow -> bool) (after : TNow) self : ReadWrite TNow :=
  match rw_wake_up_after self with
  | Some t => if ltb t after then self else with_wake_up (Some after) self
  | None => with_wake_up (Some after) self
  end.

(** ** Facts *)

(** [self'] is [self] after [data] was written. *)
Definition wrote self (data : list u8) self' : Prop :=
  rw_behind self' = rw_behind self ++ data /\
  written_bytes self' = wadd usize_bits (written_bytes self) (len data) /\
  outgoing_buffer_available self' = outgoing_buffer_available self - len data /\
  (outgoing_buffer self' = None <-> outgoing_buffer self = None) /\
  incoming_buffer self' = incoming_buffer self /\ read_bytes self' = read_bytes self /\
  rw_now self' = rw_now self /\ rw_wake_up_after self' = rw_wake_up_after self.

(** The data that is written out is found, in order, in the memory before the start of
    the slices. *)
Lemma write_out_spec (data : list u8) self :
  is_usize (written_bytes self) -> len data <= outgoing_buffer_available self ->
  exists self', rw_write_out data self = Some self' /\ wrote self data self'.
Proof.
  intros Hw Hd. unfold rw_write_out, outgoing_buffer_available in *. destruct (outgoing_buffer self) as [[a b]|] eqn:Eo.
  - rewrite (proj2 (Z.leb_le _ _) Hd). pose proof (len_nonneg a). pose proof (len_nonneg b). pose proof (len_nonneg data).
    set (n := Z.to_nat (Z.min (len a) (len data))).
    assert (Hn : (n <= length a)%nat /\ (n <= length data)%nat) by (unfold n, len in *; lia).
    assert (Hrest : (length data - n <= length b)%nat) by (unfold n, len in *; lia).
    unfold advance_write. cbn [outgoing_buffer with_outgoing]. unfold copy_at_start, advance_buf.
    rewrite !len_app. replace (Z.to_nat (Z.min (len data) (len (take n data) + len (drop (length (take n data)) a)))) with n.
    2: { unfold len. rewrite ?length_app, ?length_take, ?length_drop, ?length_take. unfold n, len in *. lia. }
    rewrite (proj2 (Z.leb_le (Z.min _ _) _)) by lia. cbn [mbind option_bind].
    assert (Hsat : Z.to_nat (saturating_sub (len data) (len (take n data) + len (drop (length (take n data)) a))) = length (drop n data)).
    { unfold saturating_sub, len. rewrite ?length_app, ?length_take, ?length_drop, ?length_take. unfold n, len in *. lia. }
    rewrite (proj2 (Z.leb_le (saturating_sub _ _) _)).
    2: { unfold saturating_sub, len in *. rewrite ?length_app, ?length_take, ?length_drop in *. unfold n in *. lia. }
    cbn [mbind option_bind]. rewrite Hsat.
    rewrite !take_app_length', !drop_app_length' by (rewrite ?length_take; lia).
    eexists. split; [done|]. unfold wrote, outgoing_buffer_available. cbn. rewrite Eo. split_and!; try done.
    + by rewrite take_drop.
    + destruct (bool_decide _ && _); cbn; unfold len in *; rewrite !length_drop, !length_take; unfold n in *; lia.
  - pose proof (len_nonneg data). assert (data = []) as -> by (destruct data; [done|]; rewrite len_cons in Hd; pose proof (len_nonneg data); lia).
    exists self. split; [done|]. unfold wrote, outgoing_buffer_available. rewrite Eo, app_nil_r, len_nil. split_and!; try done.
    unfold wadd. rewrite Z.add_0_r. by rewrite wrap_small.
Qed.

Lemma wadd_wadd a b c : wadd usize_bits (wadd usize_bits a b) c = wadd usize_bits a (b + c).
Proof. unfold wadd, wrap. rewrite Z.add_mod_idemp_l by (pose proof (pow2_pos usize_bits); pose proof usize_bits_pos; lia). f_equal. lia. Qed.

Lemma wrote_nil self : is_usize (written_bytes self) -> wrote self [] self.
Proof.
  intros Hw. unfold wrote. rewrite app_nil_r, len_nil. unfold wadd. rewrite Z.add_0_r, Z.sub_0_r, wrap_small by done. done.
Qed.

Lemma wrote_trans self1 self2 self3 (d1 d2 : list u8) :
  wrote self1 d1 self2 -> wrote self2 d2 self3 -> wrote self1 (d1 ++ d2) self3.
Proof.
  intros (Hb1 & Hw1 & Ha1 & Ho1 & Hi1 & Hr1 & Hn1 & Ht1) (Hb2 & Hw2 & Ha2 & Ho2 & Hi2 & Hr2 & Hn2 & Ht2).
  unfold wrote. rewrite Hb2, Hb1, Hw2, Hw1, wadd_wadd, len_app, <- app_assoc. split_and!; try congruence; [lia|].
  by rewrite Ho2.
Qed.

Lemma wrote_usize self (data : list u8) self' : wrote self data self' -> is_usize (written_bytes self').
Proof. intros (_ & -> & _). apply wrap_uint. pose proof usize_bits_pos. lia. Qed.

(** How many bytes were written, from the difference of the counters. *)
Lemma wrote_count self (data : list u8) self' :
  is_usize (written_bytes self) -> is_usize (len data) -> wrote self data self' ->
  wsub usize_bits (written_bytes self') (written_bytes self) = len data.
Proof.
  intros Hw Hd (_ & -> & _). unfold wsub, wadd, wrap. rewrite Zminus_mod_idemp_l.
  replace (written_bytes self + len data - written_bytes self) with (len data) by lia. by apply wrap_small.
Qed.

(** As much as possible of the content of a [VecDeque] is written, and what was written is
    removed from it. *)
Theorem write_from_vec_deque_spec (slice1 slice2 : list u8) self :
  is_usize (written_bytes self) ->
  let n := Z.to_nat (Z.min (len (slice1 ++ slice2)) (outgoing_buffer_available self)) in
  exists self', write_from_vec_deque slice1 slice2 self = Some (drop n (slice1 ++ slice2), self') /\
    wrote self (take n (slice1 ++ slice2)) self'.
Proof.
  intros Hw n. assert (Ha : 0 <= outgoing_buffer_available self).
  { unfold outgoing_buffer_available. case_match; [|done]. case_match. len_lia. }
  unfold write_from_vec_deque. set (avail := outgoing_buffer_available self) in *.
  set (n1 := Z.min (len slice1) avail).
  set (n2 := if n1 =? len slice1 then Z.min (len slice2) (avail - n1) else 0).
  assert (Hn : n = Z.to_nat (n1 + n2)).
  { unfold n, n2, n1. rewrite len_app. pose proof (len_nonneg slice1). pose proof (len_nonneg slice2).
    destruct (Z.eqb_spec (Z.min (len slice1) avail) (len slice1)); f_equal; lia. }
  assert (Hn2 : 0 <= n2 <= len slice2 /\ n1 + n2 <= avail).
  { unfold n2, n1. pose proof (len_nonneg slice1). pose proof (len_nonneg slice2). case_if; bool_to_prop; lia. }
  assert (H1 : 0 <= n1 <= len slice1 /\ n1 <= avail) by (unfold n1; pose proof (len_nonneg slice1); lia).
  assert (Hsplit : take n (slice1 ++ slice2) = take (Z.to_nat n1) slice1 ++ take (Z.to_nat n2) slice2).
  { rewrite Hn, take_app. unfold n2, len in *. destruct (Z.eqb_spec n1 (Z.of_nat (length slice1))) as [E|E].
    - rewrite !(take_ge slice1) by lia. f_equal. f_equal. lia.
    - rewrite Z.add_0_r. f_equal. by replace (Z.to_nat n1 - length slice1)%nat with 0%nat by lia. }
  destruct (write_out_spec (take (Z.to_nat n1) slice1) self) as (s1 & -> & W1); [done| |].
  { unfold len in *. rewrite length_take. fold avail. lia. }
  destruct (write_out_spec (take (Z.to_nat n2) slice2) s1) as (s2 & -> & W2); [by eapply wrote_usize| |].
  { destruct W1 as (_ & _ & -> & _). fold avail. unfold len in *. rewrite !length_take. lia. }
  exists s2. rewrite <- Hn, Hsplit. split; [done|]. by eapply wrote_trans.
Qed.

End read_write.
