(* ===== verification/Multistream.v ===== *)
(** * Negotiating a protocol ([src/src/libp2p/connection/multistream_select.rs])

    The two state machines of multistream-select: the dialer, which requests one protocol, and
    the listener, which answers. Both are driven by [read_write], which is given the data that
    was received and the memory for the data to send. The name of a protocol is its bytes; an
    iterator over names that can be cloned is the list of what it yields. *)

From S2P Require Import Prelude Leb128 ReadWrite.

Open Scope Z_scope.

(** ** Data *)

Inductive Config :=
  | Dialer (requested_protocol : list u8)
  | Listener (supported_protocols : list (list u8)).

Inductive InProgressState :=
  | SendHandshake (num_bytes_written : usize)
  | SendProtocolRequest (num_bytes_written : usize)
  | SendProtocolOk (num_bytes_written : usize) (protocol : list u8)
  | SendLsResponse (num_bytes_written : usize)
  | SendProtocolNa (num_bytes_written : usize)
  | HandshakeExpected
  | CommandExpected
  | ProtocolRequestAnswerExpected.

Record Negotiating := mkNegotiating {
  ms_config : option Config;
  ms_state : InProgressState;
  max_frame_len : usize;
  recv_buffer : Framed
}.

Inductive Negotiation :=
  | Negotiation_InProgress (self : Negotiating)
  | Success (protocol : list u8)
  | NotAvailable.

Inductive MsError :=
  | ReadClosed
  | WriteClosed
  | Frame (e : FramedError)
  | BadHandshake
  | InvalidCommand
  | UnexpectedProtocolRequestAnswer.

Inductive MessageOut :=
  | Handshake
  | Ls
  | LsResponse (list : list (list u8))
  | ProtocolRequest (p : list u8)
  | ProtocolOk (p : list u8)
  | ProtocolNa.

(** ["/multistream/1.0.0\n"], ["ls\n"], ["na\n"] and ["\n"]. *)
Definition HANDSHAKE : list u8 :=
  [47; 109; 117; 108; 116; 105; 115; 116; 114; 101; 97; 109; 47; 49; 46; 48; 46; 48; 10].
Definition ls_command : list u8 := [108; 115; 10].
Definition na_answer : list u8 := [110; 97; 10].
Definition newline : list u8 := [10].

Definition with_state (st : InProgressState) (self : Negotiating) : Negotiating :=
  mkNegotiating (ms_config self) st (max_frame_len self) (recv_buffer self).
Definition with_recv (f : Framed) (self : Negotiating) : Negotiating :=
  mkNegotiating (ms_config self) (ms_state self) (max_frame_len self) f.

Section multistream.
Context `{Platform}.

(** [InProgress::new]. *)
Definition max_proto_name_len (config : Config) : usize :=
  match config with
  | Dialer requested_protocol => len requested_protocol
  | Listener supported_protocols => foldr Z.max 0 (map len supported_protocols)
  end.

Definition MIN_PROTO_LEN_NO_ERR : usize := 512.

Definition Negotiating_new (config : Config) : Negotiating :=
  let max := wadd usize_bits (Z.max (Z.max (max_proto_name_len config) MIN_PROTO_LEN_NO_ERR) (len HANDSHAKE)) 1 in
  {| ms_config := Some config; ms_state := SendHandshake 0; max_frame_len := max;
     recv_buffer := InProgress (FramedInProgress_new max) |}.

Definition Negotiation_new (config : Config) : Negotiation := Negotiation_InProgress (Negotiating_new config).

(** ** Messages

    The bytes of a message are an iterator of buffers: one per byte of the length prefix, then
    those of the body. [n] counts the calls of the closure that makes the body; sending the name of a
    protocol turns the message into [Ls] and sets the count so that the next buffer is the end
    of the line. [None] is a panic. *)

Definition length_of (self : MessageOut) : usize :=
  match self with
  | Handshake => len HANDSHAKE
  | Ls => 3
  | LsResponse list => len list
  | ProtocolRequest p | ProtocolOk p => wadd usize_bits (len p) 1
  | ProtocolNa => 3
  end.

Definition body_next (self : MessageOut) (n : nat) : option (option (list u8 * MessageOut * nat)) :=
  match self with
  | Handshake => if Nat.eqb n 0 then Some (Some (HANDSHAKE, self, S n)) else Some None
  | Ls =>
      if Nat.eqb n 0 then Some (Some (ls_command, self, S n))
      else if Nat.eqb n 500 then Some (Some (newline, self, S n))
      else Some None
  | LsResponse list =>
      if Nat.eqb (n `mod` 3) 0 then
        match list !! (n / 3)%nat with
        | None => Some None
        | Some p => Some (Some (encode_usize (wadd usize_bits (len p) 1), self, S n))
        end
      else if Nat.eqb (n `mod` 3) 1 then
        let! protocol := list !! (n / 3)%nat in Some (Some (protocol, self, S n))
      else Some (Some (newline, self, S n))
  | ProtocolOk p | ProtocolRequest p =>
      if Nat.eqb n 0 then Some (Some (p, Ls, S 499)) else None
  | ProtocolNa => if Nat.eqb n 0 then Some (Some (na_answer, self, S n)) else Some None
  end.

Fixpoint body_collect (fuel : nat) (self : MessageOut) (n : nat) : option (list (list u8)) :=
  match fuel with
  | O => None
  | S fuel =>
      let! item := body_next self n in
      match item with
      | None => Some []
      | Some (buf, self', n) => let! bufs := body_collect fuel self' n in Some (buf :: bufs)
      end
  end.

(** The number of buffers of the body, and one. *)
Definition body_fuel (self : MessageOut) : nat :=
  match self with LsResponse list => S (3 * length list) | _ => 3%nat end.

Definition into_bytes (self : MessageOut) : option (list (list u8)) :=
  let! body := body_collect (body_fuel self) self 0 in
  Some (map (fun b => [b]) (encode_usize (length_of self)) ++ body).

Context {TNow : Type}.
Implicit Types read_write : ReadWrite TNow.

Fixpoint write_out_bufs (bufs : list (list u8)) (message_offset : usize) read_write : option (bool * ReadWrite TNow) :=
  match bufs with
  | [] => Some (true, read_write)
  | buf :: bufs =>
      if len buf <=? message_offset then write_out_bufs bufs (message_offset - len buf) read_write
      else
        let buf := drop (Z.to_nat message_offset) buf in
        let to_write := Z.min (len buf) (outgoing_buffer_available read_write) in
        let! rw := rw_write_out (take (Z.to_nat to_write) buf) read_write in
        if to_write <? len buf then Some (false, rw) else write_out_bufs bufs 0 rw
  end.

(** [MessageOut::write_out]. *)
Definition message_write_out (self : MessageOut) (message_offset : usize) read_write : option (bool * ReadWrite TNow) :=
  let! bufs := into_bytes self in
  write_out_bufs bufs message_offset read_write.

(** ** The state machine *)

(** The end of an iteration of the loop of [read_write]. *)
Inductive Step :=
  | Continue (self : Negotiating)
  | Break (self : Negotiating)
  | Return (r : result MsError Negotiation).

(** The first step of an iteration: the received data goes to [recv_buffer]. *)
Definition inject (self : Negotiating) read_write : option (ReadWrite TNow * result MsError Negotiating) :=
  match recv_buffer self with
  | InProgress f =>
      match update f (default [] (incoming_buffer read_write)) with
      | Err e => Some (read_write, Err (Frame e))
      | Ok (num_read, framed_result) =>
          let! rw := advance_read num_read read_write in
          Some (rw, Ok (with_recv framed_result self))
      end
  | Finished _ => Some (read_write, Ok self)
  end.

(** What the states that send a message have in common: [again] is the state when
    the message is not sent in full, [k] is what follows otherwise. *)
Definition send (message : MessageOut) (num_bytes_written : usize) (again : usize -> InProgressState)
    (k : Step) (self : Negotiating) read_write : option (ReadWrite TNow * Step) :=
  match outgoing_buffer read_write with
  | None => Some (read_write, Return (Err WriteClosed))
  | Some _ =>
      let written_before := written_bytes read_write in
      let! (done, rw) := message_write_out message num_bytes_written read_write in
      let num_bytes_written := wadd usize_bits num_bytes_written (wsub usize_bits (written_bytes rw) written_before) in
      Some (rw, if done : bool then k else Break (with_state (again num_bytes_written) self))
  end.

(** What the states that wait for a frame have in common; the failure of the
    [debug_assert_eq!] counts as a panic. *)
Definition expect (k : list u8 -> Step) (self : Negotiating) read_write : option (ReadWrite TNow * Step) :=
  match incoming_buffer read_write with
  | None => Some (read_write, Return (Err ReadClosed))
  | Some _ =>
      match recv_buffer self with
      | Finished frame => Some (read_write, k frame)
      | InProgress f =>
          if incoming_buffer_available read_write =? 0 then Some (read_write, Break self) else None
      end
  end.

(** [recv_buffer] after its frame was taken. *)
Definition frame_taken (self : Negotiating) : Negotiating :=
  with_recv (InProgress (FramedInProgress_new (max_frame_len self))) self.

(** The command of the dialer. *)
Definition on_command (supported_protocols : list (list u8)) (self : Negotiating) (frame : list u8) : Step :=
  if bool_decide (frame = []) then Return (Err InvalidCommand)
  else if bool_decide (frame = ls_command) then Continue (with_state (SendLsResponse 0) (frame_taken self))
  else
    match list_find (fun p => p = take (length frame - 1) frame) supported_protocols with
    | Some (_, protocol) => Continue (with_state (SendProtocolOk 0 protocol) (frame_taken self))
    | None => Continue (with_state (SendProtocolNa 0) (frame_taken self))
    end.

(** The answer of the listener. *)
Definition on_answer (requested_protocol : list u8) (frame : list u8) : result MsError Negotiation :=
  if negb (bool_decide (last frame = Some 10)) then Err UnexpectedProtocolRequestAnswer
  else if bool_decide (frame = na_answer) then Ok NotAvailable
  else if negb (bool_decide (take (length frame - 1) frame = requested_protocol)) then Err UnexpectedProtocolRequestAnswer
  else Ok (Success requested_protocol).

Definition on_handshake (next : InProgressState) (self : Negotiating) (frame : list u8) : Step :=
  if bool_decide (frame = HANDSHAKE) then Continue (with_state next (frame_taken self)) else Return (Err BadHandshake).

(** One iteration of the loop of [read_write], after the first step. *)
Definition dispatch (self : Negotiating) read_write : option (ReadWrite TNow * Step) :=
  match ms_state self, ms_config self with
  | SendHandshake n, Some (Dialer _) =>
      send Handshake n SendHandshake (Continue (with_state (SendProtocolRequest 0) self)) self read_write
  | SendHandshake n, Some (Listener _) =>
      send Handshake n SendHandshake (Continue (with_state HandshakeExpected self)) self read_write
  | SendProtocolRequest n, Some (Dialer requested_protocol) =>
      send (ProtocolRequest requested_protocol) n SendProtocolRequest
        (Continue (with_state HandshakeExpected self)) self read_write
  | SendProtocolNa n, _ =>
      send ProtocolNa n SendProtocolNa (Continue (with_state CommandExpected self)) self read_write
  | SendProtocolOk n protocol, _ =>
      send (ProtocolOk protocol) n (fun n => SendProtocolOk n protocol) (Return (Ok (Success protocol))) self read_write
  | SendLsResponse n, Some (Listener supported_protocols) =>
      send (LsResponse supported_protocols) n SendLsResponse (Continue (with_state CommandExpected self)) self read_write
  | HandshakeExpected, Some (Dialer _) =>
      expect (on_handshake ProtocolRequestAnswerExpected self) self read_write
  | HandshakeExpected, Some (Listener _) =>
      expect (on_handshake CommandExpected self) self read_write
  | CommandExpected, Some (Listener supported_protocols) =>
      expect (on_command supported_protocols self) self read_write
  | ProtocolRequestAnswerExpected, Some (Dialer requested_protocol) =>
      expect (fun frame => Return (on_answer requested_protocol frame)) self read_write
  (* [unreachable!()] *)
  | SendProtocolRequest _, Some (Listener _) | SendLsResponse _, Some (Dialer _)
  | CommandExpected, Some (Dialer _) | ProtocolRequestAnswerExpected, Some (Listener _)
  | (SendHandshake _ | SendProtocolRequest _ | SendLsResponse _ | HandshakeExpected
     | CommandExpected | ProtocolRequestAnswerExpected), None => None
  end.

Fixpoint negotiation_loop (fuel : nat) (self : Negotiating) read_write
    : option (ReadWrite TNow * result MsError Negotiation) :=
  match fuel with
  | O => None
  | S fuel =>
      let! (rw, injected) := inject self read_write in
      match injected with
      | Err e => Some (rw, Err e)
      | Ok self =>
          let! (rw, step) := dispatch self rw in
          match step with
          | Continue self => negotiation_loop fuel self rw
          | Break self => Some (rw, Ok (Negotiation_InProgress self))
          | Return r => Some (rw, r)
          end
      end
  end.

(** The listener may answer several commands in one call; each takes at least one byte of
    the received data and two iterations. *)
Definition negotiation_fuel (read_write : ReadWrite TNow) : nat :=
  (2 * length (default [] (incoming_buffer read_write)) + 6)%nat.

(** [InProgress::read_write]. *)
Definition negotiation_read_write (self : Negotiating) read_write : option (ReadWrite TNow * result MsError Negotiation) :=
  negotiation_loop (negotiation_fuel read_write) self read_write.

End multistream.

(** ** The bytes of the messages *)

Section messages.
Context `{Platform}.

(** A frame: the length of the content, then the content. *)
Definition frame_of (content : list u8) : list u8 := encode_usize (len content) ++ content.

(** The entry of a protocol in the answer to [ls]. *)
Definition ls_entry (p : list u8) : list u8 := encode_usize (wadd usize_bits (len p) 1) ++ p ++ newline.

Definition message_body (m : MessageOut) : list u8 :=
  match m with
  | Handshake => HANDSHAKE
  | Ls => ls_command
  | LsResponse ps => concat (map ls_entry ps)
  | ProtocolRequest p | ProtocolOk p => p ++ newline
  | ProtocolNa => na_answer
  end.

Definition message_bytes (m : MessageOut) : list u8 := encode_usize (length_of m) ++ message_body m.

Lemma ls_indices k : (((3 * k) `mod` 3 = 0) /\ ((3 * k) / 3 = k) /\ (S (3 * k) `mod` 3 = 1) /\ (S (3 * k) / 3 = k) /\
  (S (S (3 * k)) `mod` 3 = 2))%nat.
Proof.
  rewrite (Nat.mul_comm 3 k). replace (S (k * 3)) with (1 + k * 3)%nat by lia. replace (S (1 + k * 3)) with (2 + k * 3)%nat by lia.
  rewrite !Nat.Div0.mod_add, Nat.Div0.mod_mul, Nat.div_mul, Nat.div_add by lia. done.
Qed.

Lemma body_collect_ls l1 l2 :
  exists bufs, body_collect (S (3 * length l2)) (LsResponse (l1 ++ l2)) (3 * length l1) = Some bufs /\
    concat bufs = concat (map ls_entry l2).
Proof.
  revert l1. induction l2 as [|p l2 IH]; intros l1.
  - exists []. split; [|done]. cbn. destruct (ls_indices (length l1)) as (E1 & E2 & _). cbn in E1, E2. rewrite E1, E2. cbn.
    by rewrite app_nil_r, lookup_ge_None_2.
  - destruct (IH (l1 ++ [p])) as (bufs & Hb & Hc). exists (encode_usize (wadd usize_bits (len p) 1) :: p :: newline :: bufs).
    split; [|cbn [concat map]; rewrite Hc; unfold ls_entry; by rewrite !app_assoc].
    destruct (ls_indices (length l1)) as (E1 & E2 & E3 & E4 & E5).
    replace (S (3 * length (p :: l2))) with (S (S (S (S (3 * length l2))))) by (cbn [length]; lia).
    assert (Hl : (l1 ++ p :: l2) !! length l1 = Some p) by by apply list_lookup_middle.
    cbn [body_collect]. unfold body_next at 1. rewrite E1, E2, Hl. cbn [Nat.eqb].
    unfold body_next at 1. rewrite E3, E4, Hl. cbn [Nat.eqb]. unfold body_next at 1. rewrite E5. cbn [Nat.eqb].
    rewrite <- app_assoc in Hb. cbn [app] in Hb. rewrite length_app in Hb. cbn [length] in Hb.
    replace (3 * (length l1 + 1))%nat with (S (S (S (3 * length l1)))) in Hb by lia.
    cbn [body_collect] in Hb. by rewrite Hb.
Qed.

(** The buffers of a message hold its bytes. *)
Lemma into_bytes_spec m : exists bufs, into_bytes m = Some bufs /\ concat bufs = message_bytes m.
Proof.
  assert (Hbody : exists bufs, body_collect (body_fuel m) m 0 = Some bufs /\ concat bufs = message_body m).
  { destruct m as [| |ps|p|p|]; try (by eexists; split; [reflexivity|]; cbn; rewrite ?app_nil_r).
    apply (body_collect_ls [] ps). }
  destruct Hbody as (bufs & Hb & Hc). unfold into_bytes. rewrite Hb. eexists. split; [done|].
  rewrite concat_app, Hc. unfold message_bytes. f_equal. induction (encode_usize (length_of m)); cbn; by f_equal.
Qed.

Context {TNow : Type}.
Implicit Types rw : ReadWrite TNow.

Lemma available_nonneg rw : 0 <= outgoing_buffer_available rw.
Proof. unfold outgoing_buffer_available. case_match; [|done]. case_match. len_lia. Qed.

Lemma drop_app_Z {A} (l k : list A) (n : Z) : len l <= n -> drop (Z.to_nat n) (l ++ k) = drop (Z.to_nat (n - len l)) k.
Proof. intros Hn. unfold len in *. rewrite drop_app, drop_ge by lia. cbn. f_equal. lia. Qed.

(** As much as possible of what is left of a message is written. *)
Lemma write_out_bufs_spec bufs off rw :
  is_usize (written_bytes rw) -> 0 <= off <= len (concat bufs) ->
  let rest := drop (Z.to_nat off) (concat bufs) in
  exists rw', write_out_bufs bufs off rw = Some (len rest <=? outgoing_buffer_available rw, rw') /\
    wrote rw (take (Z.to_nat (Z.min (len rest) (outgoing_buffer_available rw))) rest) rw'.
Proof.
  revert off rw. induction bufs as [|buf bufs IH]; intros off rw Hw Hoff; cbn [concat write_out_bufs].
  - pose proof (available_nonneg rw). assert (off = 0) as -> by (cbn in Hoff; change (len (@nil Z)) with 0 in Hoff; lia). cbn.
    exists rw. rewrite drop_nil, len_nil, take_nil, (proj2 (Z.leb_le _ _)) by lia. split; [done|]. by apply wrote_nil.
  - cbn [concat] in Hoff. rewrite len_app in Hoff. destruct (Z.leb_spec (len buf) off) as [Hle|Hgt].
    { rewrite drop_app_Z by done. apply IH; [done|lia]. }
    pose proof (available_nonneg rw) as Ha. set (avail := outgoing_buffer_available rw) in *.
    assert (Hdl : drop (Z.to_nat off) (buf ++ concat bufs) = drop (Z.to_nat off) buf ++ concat bufs)
      by (apply drop_app_le; unfold len in *; lia).
    rewrite Hdl. set (b := drop (Z.to_nat off) buf). set (k := Z.min (len b) avail). pose proof (len_nonneg b).
    destruct (write_out_spec (take (Z.to_nat k) b) rw) as (rw1 & -> & W1); [done| |].
    { fold avail. unfold k, len in *. rewrite length_take. lia. }
    destruct (Z.ltb_spec k (len b)) as [Hk|Hk].
    + exists rw1. rewrite len_app, (proj2 (Z.leb_gt _ _)) by (pose proof (len_nonneg (concat bufs)); lia).
      split; [done|]. rewrite Z.min_r by (pose proof (len_nonneg (concat bufs)); lia).
      rewrite take_app_le by (unfold len in *; lia). by replace avail with k by lia.
    + replace (take (Z.to_nat k) b) with b in W1 by (symmetry; apply take_ge; unfold len in *; lia).
      destruct (IH 0 rw1) as (rw2 & -> & W2); [by eapply wrote_usize|pose proof (len_nonneg (concat bufs)); lia|].
      assert (Hav : outgoing_buffer_available rw1 = avail - len b) by by destruct W1 as (_ & _ & -> & _).
      rewrite Hav in *. change (drop (Z.to_nat 0) (concat bufs)) with (concat bufs) in *.
      exists rw2. split; [do 2 f_equal; rewrite len_app; destruct (Z.leb_spec (len (concat bufs)) (avail - len b)); decide_tests; done|].
      replace (take _ (b ++ concat bufs)) with (b ++ take (Z.to_nat (Z.min (len (concat bufs)) (avail - len b))) (concat bufs)).
      { by eapply wrote_trans. }
      rewrite take_app, (take_ge b) by (rewrite len_app; unfold len in *; lia). f_equal. f_equal. rewrite len_app. unfold len in *. lia.
Qed.

(** Sending a message from an offset. *)
Lemma message_write_out_spec m off rw :
  is_usize (written_bytes rw) -> 0 <= off <= len (message_bytes m) ->
  let rest := drop (Z.to_nat off) (message_bytes m) in
  exists rw', message_write_out m off rw = Some (len rest <=? outgoing_buffer_available rw, rw') /\
    wrote rw (take (Z.to_nat (Z.min (len rest) (outgoing_buffer_available rw))) rest) rw'.
Proof.
  intros Hw Hoff. unfold message_write_out. destruct (into_bytes_spec m) as (bufs & -> & Hc). rewrite <- Hc in *.
  by apply write_out_bufs_spec.
Qed.
End messages.

(** ** Reading frames *)

Section frames.
Context `{Platform}.

(** A prefix that decodes is the encoding of what it decodes to, when no part of it does. *)
Lemma decode_leb128_exact pre b v :
  is_bytes (pre ++ [b]) -> decode_leb128 0 0 pre = None -> decode_leb128 0 0 (pre ++ [b]) = Some (Ok v) ->
  pre ++ [b] = encode_usize v.
Proof.
  intros Hb Hn Hd. rewrite (decode_leb128_nom []) in Hd.
  destruct (nom_leb128_usize_loop [] 0 0 (pre ++ [b])) as [[rest w]|[? []]] eqn:E; try done. injection Hd as ->.
  assert (Hiff : forall bs rest v, is_bytes bs -> nom_leb128_usize_loop [] 0 0 bs = Ok (rest, v) -> is_usize v /\ bs = encode_usize v ++ rest).
  { intros bs r' v' Hbs Hrun. apply decode_loop_inv in Hrun as (w & -> & Hu & Hw & _ & Hdig); [|done|lia|done].
    replace (0 + w * 2 ^ (7 * 0)) with w in * by lia. split; [done|]. pose proof (is_usize_u64 w Hu). unfold encode_usize.
    rewrite encode_digits by done. apply Hdig; [by apply u64_digits_fuel|lia]. }
  apply Hiff in E as [Hu E]; [|done]. destruct (decide (rest = [])) as [->|Hne]; [by rewrite app_nil_r in E|]. exfalso.
  destruct (exists_last Hne) as (rest' & c & ->). rewrite app_assoc in E. apply app_inj_tail in E as [-> ->].
  rewrite (decode_leb128_nom []) in Hn. unfold encode_usize in Hn. pose proof (is_usize_u64 v Hu).
  rewrite encode_digits, decode_loop_digits in Hn; replace (0 + v * 2 ^ (7 * 0)) with v in * by lia;
    done || lia || by apply u64_digits_fuel.
Qed.

(** What a run of the reader tells of the data, when the buffer [pre] holds the bytes of the
    prefix read so far. *)
Definition read_of (pre data : list u8) (max t n : Z) (f : Framed) : Prop :=
  match f with
  | InProgress g => n = t + len data /\ framed_ok g
  | Finished x => exists rest, pre ++ data = frame_of x ++ rest /\ n = t + len (frame_of x) - len pre /\
      is_usize (len x) /\ len x <= max
  end.

Lemma update_body_new max v data t n f :
  is_usize v -> v <= max ->
  update_body {| max_len := max; buffer := []; inner := Body v |} v data t = Ok (n, f) ->
  read_of (encode_usize v) data max (t + len (encode_usize v)) (n + len (encode_usize v)) f.
Proof.
  intros Hv Hmax. pose proof (len_nonneg data). destruct (Z.lt_ge_cases (len data) v) as [Hlt|Hge].
  - rewrite update_body_short by (cbn; rewrite ?len_nil; unfold is_uint in *; lia || done). intros [= <- <-].
    split; [lia|]. unfold framed_ok. cbn. split; [done|lia].
  - destruct (split_at_len data v) as (body & rest & -> & Hb); [unfold is_uint in *; lia|].
    rewrite update_body_done by (cbn; rewrite ?len_nil; lia || done). intros [= <- <-]. cbn.
    exists rest. unfold frame_of. rewrite Hb, <- app_assoc, len_app, Hb. split_and!; [done|lia|done|lia].
Qed.

Lemma update_loop_read max pre data t n f :
  is_bytes pre -> decode_leb128 0 0 pre = None -> is_bytes data ->
  update_loop {| max_len := max; buffer := pre; inner := Length |} data t = Ok (n, f) -> read_of pre data max t n f.
Proof.
  intros Hpre Hdec Hdata. revert pre t Hpre Hdec. induction Hdata as [|b data Hb Hdata IH]; intros pre t Hpre Hdec; cbn.
  - intros [= <- <-]. split; [rewrite len_nil; lia|done].
  - assert (Hbs : is_bytes (pre ++ [b])) by (apply Forall_app; auto). destruct (_ <=? _); [done|].
    destruct (decode_leb128 0 0 (pre ++ [b])) as [[v|e]|] eqn:E; [|done|].
    + destruct (Z.ltb_spec max v) as [|Hmax]; [done|]. pose proof (decode_leb128_usize _ _ Hbs E) as Hu.
      pose proof (decode_leb128_exact _ _ _ Hbs Hdec E) as Hp. rewrite (update_loop_body _ v) by done. intros Hrun.
      apply (update_body_new max v) in Hrun; [|done..]. rewrite <- Hp in Hrun. unfold read_of in *. destruct f as [g|x].
      * destruct Hrun as [Hn Hg]. split; [|done]. len_lia.
      * destruct Hrun as (rest & Heq & Hn & Hrest). exists rest. rewrite <- app_assoc in Heq. split; [done|]. split; [|done]. len_lia.
    + intros Hrun. apply IH in Hrun; [|done..]. unfold read_of in *. destruct f as [g|x].
      * destruct Hrun as [Hn Hg]. split; [|done]. len_lia.
      * destruct Hrun as (rest & Heq & Hn & Hrest). exists rest. rewrite <- app_assoc in Heq. split; [done|]. split; [|done]. len_lia.
Qed.

(** [f] is the reader after the bytes [received], all of which it has taken. *)
Definition reading (max : usize) (received : list u8) (f : Framed) : Prop :=
  is_bytes received /\ update (FramedInProgress_new max) received = Ok (len received, f).

Lemma reading_new max : reading max [] (InProgress (FramedInProgress_new max)).
Proof. split; [constructor|done]. Qed.

Lemma update_new_read max data n f :
  is_bytes data -> update (FramedInProgress_new max) data = Ok (n, f) -> read_of [] data max 0 n f.
Proof. intros Hd Hrun. by apply update_loop_read in Hrun. Qed.

Lemma reading_finished max received x :
  reading max received (Finished x) -> received = frame_of x /\ is_usize (len x) /\ len x <= max.
Proof.
  intros [Hb Hr]. apply update_new_read in Hr as (rest & Heq & Hn & Hu & Hm); [|done]. cbn [app] in Heq. subst received.
  rewrite len_app, (len_nil (A:=Z)) in Hn. assert (rest = []) as -> by (destruct rest; [done|]; len_lia). by rewrite app_nil_r.
Qed.

Lemma reading_ok max received g : reading max received (InProgress g) -> framed_ok g.
Proof. intros [Hb Hr]. by apply update_new_read in Hr as [_ ?]. Qed.

Lemma update_more max received g data :
  reading max received (InProgress g) ->
  update (FramedInProgress_new max) (received ++ data) = add_read (len received) (update g data).
Proof. intros [Hb Hr]. rewrite update_app by (done || constructor). by rewrite Hr. Qed.

(** A frame is never the start of another. *)
Lemma frame_of_inj x y r1 r2 :
  is_usize (len x) -> is_usize (len y) -> frame_of x ++ r1 = frame_of y ++ r2 -> x = y /\ r1 = r2.
Proof.
  intros Hx Hy Heq. set (m := Z.max (len x) (len y)).
  pose proof (framed_roundtrip m x r1 Hx ltac:(lia)) as Ex. pose proof (framed_roundtrip m y r2 Hy ltac:(lia)) as Ey.
  unfold frame_of in Heq. rewrite <- !app_assoc in Heq. rewrite Heq, Ey in Ex. injection Ex as _ <-. split; [done|].
  by apply app_inv_head, app_inv_head in Heq.
Qed.

Lemma reading_frame max x : is_bytes (frame_of x) -> is_usize (len x) -> len x <= max -> reading max (frame_of x) (Finished x).
Proof.
  intros Hb Hu Hm. split; [done|]. unfold frame_of in *. pose proof (framed_roundtrip max x [] Hu Hm) as E.
  rewrite app_nil_r in E. by rewrite E, len_app.
Qed.

(** Feeding the reader. *)
Lemma reading_update max received g data n f :
  reading max received (InProgress g) -> is_bytes data -> update g data = Ok (n, f) ->
  0 <= n <= len data /\ reading max (received ++ take (Z.to_nat n) data) f /\
  match f with InProgress _ => n = len data | Finished _ => 0 < n end.
Proof.
  intros Hr Hd Hu. pose proof (update_more max received g data Hr) as Hm. rewrite Hu in Hm. cbn [add_read] in Hm.
  assert (Hall : is_bytes (received ++ data)) by (apply Forall_app; by destruct Hr).
  pose proof (update_new_read _ _ _ _ Hall Hm) as Hread. pose proof (len_nonneg data). destruct f as [g'|x]; cbn [read_of app] in Hread.
  - destruct Hread as [Hn Hg]. rewrite len_app in Hn. assert (n = len data) as -> by lia.
    rewrite (take_ge data) by (unfold len; lia). split; [lia|]. split; [|done]. split; [done|]. by rewrite Hm, len_app.
  - destruct Hread as (rest & Heq & Hn & Hux & Hmx). rewrite (len_nil (A:=Z)) in Hn.
    assert (Hlt : len received < len (frame_of x)).
    { apply Z.nle_gt. intros Hle. assert (Hp : exists r, received = frame_of x ++ r).
      { exists (drop (length (frame_of x)) received). rewrite <- (take_drop (length (frame_of x)) received) at 1. f_equal.
        apply (f_equal (take (length (frame_of x)))) in Heq. rewrite take_app_length, take_app_le in Heq by (unfold len in *; lia). done. }
      destruct Hp as [r ->]. destruct Hr as [_ Hr]. unfold frame_of in Hr. rewrite <- app_assoc, framed_roundtrip in Hr by done. done. }
    assert (Htake : received ++ take (Z.to_nat n) data = frame_of x).
    { apply (f_equal (take (length (frame_of x)))) in Heq. rewrite take_app_length, take_app, take_ge in Heq by (unfold len in *; lia).
      rewrite <- Heq. f_equal. f_equal. unfold len in *. lia. }
    pose proof (f_equal len Heq) as Hlen. rewrite !len_app in Hlen. pose proof (len_nonneg rest). split; [lia|]. split; [|lia].
    rewrite Htake. apply reading_frame; [|done|done]. rewrite Heq in Hall. by apply Forall_app in Hall as [? _].
Qed.

Lemma reading_error max received g data e :
  reading max received (InProgress g) -> update g data = Err e -> update (FramedInProgress_new max) (received ++ data) = Err e.
Proof. intros Hr Hu. by rewrite (update_more _ _ g), Hu. Qed.

End frames.
