(* ===== verification/MultistreamSpec.v ===== *)
(** * Negotiating a protocol: what the two sides do

    A call of [read_write] is described by the bytes it takes from the received data
    and by those it writes. The state of each side is a function of all the bytes it has
    sent and received, however they were cut: [dialer_at] and [listener_at] relate them, and every
    outcome of a call, errors included, is described by the bytes exchanged. The two sides are then
    put together: whatever the order of the calls, the amounts delivered and the sizes of the
    memory to write to, they never fail, and they agree. *)

From S2P Require Import Prelude Leb128 HeaderBase Protobuf ReadWrite Multistream.

Open Scope Z_scope.

Section calls.
Context `{Platform} {TNow : Type}.
Implicit Types rw : ReadWrite TNow.

(** ** Reading and writing *)

Definition incoming rw : list u8 := default [] (incoming_buffer rw).

Definition rw_ok rw : Prop :=
  is_usize (written_bytes rw) /\ is_usize (read_bytes rw) /\ is_bytes (incoming rw).

(** [rw'] is [rw] after [r] was read and [w] was written. *)
Definition moved rw (r w : list u8) rw' : Prop :=
  incoming rw = r ++ incoming rw' /\ (incoming_buffer rw' = None <-> incoming_buffer rw = None) /\
  rw_behind rw' = rw_behind rw ++ w /\
  outgoing_buffer_available rw' = outgoing_buffer_available rw - len w /\
  (outgoing_buffer rw' = None <-> outgoing_buffer rw = None) /\
  written_bytes rw' = wadd usize_bits (written_bytes rw) (len w) /\
  read_bytes rw' = wadd usize_bits (read_bytes rw) (len r).

Lemma wadd_0 v : is_usize v -> wadd usize_bits v 0 = v.
Proof. intros Hv. unfold wadd. by rewrite Z.add_0_r, wrap_small. Qed.

Lemma moved_refl rw : rw_ok rw -> moved rw [] [] rw.
Proof.
  intros (Hw & Hr & _). unfold moved. rewrite app_nil_r, !len_nil, !wadd_0, Z.sub_0_r by done. done.
Qed.

Lemma moved_trans rw1 rw2 rw3 r1 r2 w1 w2 :
  moved rw1 r1 w1 rw2 -> moved rw2 r2 w2 rw3 -> moved rw1 (r1 ++ r2) (w1 ++ w2) rw3.
Proof.
  intros (Ei1 & En1 & Eb1 & Ea1 & Eo1 & Ew1 & Er1) (Ei2 & En2 & Eb2 & Ea2 & Eo2 & Ew2 & Er2). unfold moved.
  rewrite Ei1, Ei2, Eb2, Eb1, Ew2, Ew1, Er2, Er1, !wadd_wadd, !len_app, <- !app_assoc, En2, Eo2, Ea2, Ea1.
  split_and!; try done. lia.
Qed.

Lemma moved_ok rw r w rw' : rw_ok rw -> moved rw r w rw' -> rw_ok rw'.
Proof.
  intros (Hw & Hr & Hb) (Ei & _ & _ & _ & _ & Ew & Er). pose proof usize_bits_pos. rewrite Ei in Hb. apply Forall_app in Hb as [_ Hb].
  unfold rw_ok. rewrite Ew, Er. split_and!; [apply wrap_uint; lia..|done].
Qed.

Lemma wrote_moved rw w rw' : rw_ok rw -> wrote rw w rw' -> moved rw [] w rw'.
Proof.
  intros (Hw & Hr & _) (Eb & Ew & Ea & Eo & Ei & Er & _ & _). unfold moved, incoming.
  rewrite Ei, len_nil, wadd_0 by done. by split_and!.
Qed.

Lemma advance_read_spec n rw :
  rw_ok rw -> 0 <= n <= len (incoming rw) ->
  exists rw', advance_read n rw = Some rw' /\ moved rw (take (Z.to_nat n) (incoming rw)) [] rw'.
Proof.
  intros Hok Hn. unfold advance_read, incoming in *. destruct (incoming_buffer rw) as [buf|] eqn:E; cbn [from_option id] in *.
  - rewrite (proj2 (Z.leb_le _ _)) by lia. eexists. split; [done|]. unfold moved, incoming, with_incoming. cbn. rewrite E. cbn.
    rewrite take_drop, app_nil_r, wadd_0, Z.sub_0_r by apply Hok. split_and!; try done. f_equal. unfold len in *. rewrite length_take. lia.
  - change (len (@nil Z)) with 0 in Hn. rewrite (proj2 (Z.eqb_eq _ _)) by lia. exists rw. split; [done|]. rewrite take_nil. by apply moved_refl.
Qed.

(** ** One iteration *)

Definition frame_weight (f : Framed) : nat := match f with Finished _ => 2 | InProgress _ => 0 end.

Definition state_weight (st : InProgressState) : nat :=
  match st with
  | SendHandshake _ => 3
  | SendProtocolRequest _ => 2
  | SendProtocolOk _ _ | SendLsResponse _ | SendProtocolNa _ => 1
  | HandshakeExpected | CommandExpected | ProtocolRequestAnswerExpected => 0
  end.

(** What decreases at each iteration, with the data to read. *)
Definition weight (self : Negotiating) : nat := frame_weight (recv_buffer self) + state_weight (ms_state self).

Lemma inject_spec max inp (self : Negotiating) rw :
  reading max inp (recv_buffer self) -> rw_ok rw ->
  (exists e, inject self rw = Some (rw, Err (Frame e)) /\ update (FramedInProgress_new max) (inp ++ incoming rw) = Err e) \/
  (exists rw' r f, inject self rw = Some (rw', Ok (with_recv f self)) /\ moved rw r [] rw' /\ reading max (inp ++ r) f /\
     (forall g, f = InProgress g -> incoming rw' = []) /\
     (frame_weight f + 2 * length (incoming rw') <= frame_weight (recv_buffer self) + 2 * length (incoming rw))%nat).
Proof.
  intros Hr Hok. unfold inject. destruct (recv_buffer self) as [g|x] eqn:Ef.
  2: { right. exists rw, [], (Finished x). rewrite app_nil_r. split_and!; try done; [|by apply moved_refl]. destruct self. cbn in *. by subst. }
  fold (incoming rw). destruct (update g (incoming rw)) as [[n f]|e] eqn:Eu.
  2: { left. exists e. split; [done|]. by eapply reading_error. }
  right. destruct (reading_update max inp g (incoming rw) n f) as (Hn & Hr' & Hf); [done|apply Hok|done|].
  destruct (advance_read_spec n rw Hok Hn) as (rw' & -> & Hm). exists rw', (take (Z.to_nat n) (incoming rw)), f.
  assert (Hinc : incoming rw' = drop (Z.to_nat n) (incoming rw)).
  { destruct Hm as [Hm _]. rewrite <- (take_drop (Z.to_nat n) (incoming rw)) in Hm at 1. by apply app_inv_head in Hm. }
  split_and!; try done.
  - intros g' ->. rewrite Hinc, drop_ge; [done|]. unfold len in Hf. lia.
  - rewrite Hinc, length_drop. unfold len in *. destruct f; cbn; lia.
Qed.

Lemma send_closed m n again k self rw :
  outgoing_buffer rw = None -> send m n again k self rw = Some (rw, Return (Err WriteClosed)).
Proof. unfold send. by intros ->. Qed.

(** Sending what is left of a message. *)
Lemma send_spec m n again k self rw :
  rw_ok rw -> outgoing_buffer rw <> None -> is_usize (len (message_bytes m)) -> 0 <= n < len (message_bytes m) ->
  let rest := drop (Z.to_nat n) (message_bytes m) in
  (exists rw', send m n again k self rw = Some (rw', k) /\ moved rw [] rest rw') \/
  (exists rw', let n' := n + outgoing_buffer_available rw in
     send m n again k self rw = Some (rw', Break (with_state (again n') self)) /\ n <= n' < len (message_bytes m) /\
     moved rw [] (take (Z.to_nat (n' - n)) rest) rw' /\ outgoing_buffer_available rw' = 0).
Proof.
  intros Hok Ho Hu Hn rest. unfold send. destruct (outgoing_buffer rw) as [bufs|]; [|done]. pose proof (available_nonneg rw).
  assert (Hrest : len rest = len (message_bytes m) - n) by (unfold rest, len in *; rewrite length_drop; lia).
  destruct (message_write_out_spec m n rw) as (rw' & -> & W); [apply Hok|lia|]. fold rest in W |- *.
  pose proof (wrote_moved _ _ _ Hok W) as Hm.
  destruct (Z.leb_spec (len rest) (outgoing_buffer_available rw)) as [Hle|Hgt].
  - left. exists rw'. split; [done|]. rewrite Z.min_l, take_ge in Hm by (unfold len in *; lia). done.
  - right. exists rw'. rewrite Z.min_r in W, Hm by lia.
    assert (Hl : len (take (Z.to_nat (outgoing_buffer_available rw)) rest) = outgoing_buffer_available rw)
      by (unfold len in *; rewrite length_take; lia).
    rewrite (wrote_count rw (take (Z.to_nat (outgoing_buffer_available rw)) rest) rw'), Hl by (done || apply Hok || (rewrite Hl; unfold is_uint in *; lia)).
    unfold wadd. rewrite wrap_small by (unfold is_uint in *; lia).
    replace (n + outgoing_buffer_available rw - n) with (outgoing_buffer_available rw) by lia.
    split_and!; try done; try lia. destruct Hm as (_ & _ & _ & -> & _). lia.
Qed.

(** ** One side

    What the proofs about one side amount to: [at_] relates the bytes sent and received so far
    and the state, [returns] what a call returns. *)

Class Party (at_ : list u8 -> list u8 -> Negotiating -> Prop)
    (returns : list u8 -> list u8 -> ReadWrite TNow -> result MsError Negotiation -> Prop) := {
  party_reading sent recvd self : at_ sent recvd self ->
    exists base inp, recvd = base ++ inp /\ reading (max_frame_len self) inp (recv_buffer self) /\
      (forall r f, reading (max_frame_len self) (inp ++ r) f -> at_ sent (recvd ++ r) (with_recv f self)) /\
      (forall rw e, update (FramedInProgress_new (max_frame_len self)) (inp ++ incoming rw) = Err e ->
         returns sent recvd rw (Err (Frame e)));
  party_dispatch sent recvd self rw : at_ sent recvd self -> rw_ok rw ->
    (forall g, recv_buffer self = InProgress g -> incoming rw = []) ->
    exists rw' step w, dispatch self rw = Some (rw', step) /\ moved rw [] w rw' /\
      match step with
      | Continue self' => at_ (sent ++ w) recvd self' /\ (weight self' < weight self)%nat
      | Break self' => returns (sent ++ w) recvd rw' (Ok (Negotiation_InProgress self'))
      | Return r => returns (sent ++ w) recvd rw' r
      end
}.

Section party.
Context {at_ returns} `{!Party at_ returns}.

Lemma negotiation_loop_spec fuel sent recvd self rw :
  at_ sent recvd self -> rw_ok rw -> (weight self + 2 * length (incoming rw) < fuel)%nat ->
  exists rw' res r w, negotiation_loop fuel self rw = Some (rw', res) /\ moved rw r w rw' /\
    returns (sent ++ w) (recvd ++ r) rw' res.
Proof.
  revert sent recvd self rw. induction fuel as [|fuel IH]; intros sent recvd self rw Hat Hok Hf; [lia|].
  cbn [negotiation_loop]. destruct (party_reading _ _ _ Hat) as (base & inp & -> & Hr & Hmore & Herr).
  destruct (inject_spec _ _ self rw Hr Hok) as [(e & -> & He)|(rw1 & r1 & f & -> & Hm1 & Hr1 & Hnone & Hw1)].
  { exists rw, (Err (Frame e)), [], []. rewrite !app_nil_r. split; [done|]. split; [by apply moved_refl|]. by apply Herr. }
  apply Hmore in Hr1. rewrite <- app_assoc in Hr1. pose proof (moved_ok _ _ _ _ Hok Hm1) as Hok1.
  destruct (party_dispatch _ _ (with_recv f self) rw1 Hr1 Hok1) as (rw2 & step & w2 & -> & Hm2 & Hstep); [by intros g ->%Hnone|].
  pose proof (moved_trans _ _ _ _ _ _ _ Hm1 Hm2) as Hm12. rewrite app_nil_r in Hm12. cbn [app] in Hm12.
  destruct step as [self'|self'|res]; [|by exists rw2, (Ok (Negotiation_InProgress self')), r1, w2; rewrite <- app_assoc
    |by exists rw2, res, r1, w2; rewrite <- app_assoc].
  destruct Hstep as [Hat' Hw']. assert (Hinc : incoming rw1 = incoming rw2) by apply Hm2.
  destruct (IH _ _ self' rw2 Hat') as (rw3 & res & r3 & w3 & -> & Hm3 & Hout).
  { by apply (moved_ok rw1 [] w2). }
  { rewrite <- Hinc. unfold weight in *. cbn [recv_buffer ms_state with_recv] in Hw'. lia. }
  exists rw3, res, (r1 ++ r3), (w2 ++ w3). split; [done|]. split; [by eapply moved_trans|].
  by rewrite <- !app_assoc in *.
Qed.

(** A call returns, and the outcome is the one of the side. *)
Lemma negotiation_call_spec sent recvd self rw :
  at_ sent recvd self -> rw_ok rw ->
  exists rw' res r w, negotiation_read_write self rw = Some (rw', res) /\ moved rw r w rw' /\
    returns (sent ++ w) (recvd ++ r) rw' res.
Proof.
  intros Hat Hok. apply (negotiation_loop_spec _ sent recvd); [done..|]. unfold negotiation_fuel. fold (incoming rw).
  unfold weight, frame_weight, state_weight. repeat case_match; lia.
Qed.
End party.

(** ** The dialer *)

(** A slice has at most [isize::MAX] bytes. *)
Definition name_ok (p : list u8) : Prop := len p < 2 ^ (usize_bits - 1).
Existing Class name_ok.

Lemma usize_halves : 2 ^ usize_bits = 2 * 2 ^ (usize_bits - 1) /\ 2 ^ 31 <= 2 ^ (usize_bits - 1).
Proof. split; [apply half_usize|apply half_usize_big]. Qed.

Lemma handshake_frame : message_bytes Handshake = frame_of HANDSHAKE.
Proof. done. Qed.

Lemma request_frame p : name_ok p ->
  message_bytes (ProtocolRequest p) = frame_of (p ++ newline) /\ message_bytes (ProtocolOk p) = frame_of (p ++ newline) /\
  is_usize (len (p ++ newline)) /\ is_usize (len (frame_of (p ++ newline))).
Proof.
  intros Hp. unfold name_ok in Hp. pose proof usize_halves. pose proof (len_nonneg p).
  assert (E : wadd usize_bits (len p) 1 = len (p ++ newline)).
  { rewrite len_app. change (len newline) with 1. unfold wadd. apply wrap_small. unfold is_uint. lia. }
  assert (Hu : is_usize (len (p ++ newline))) by (rewrite <- E; apply wrap_uint; pose proof usize_bits_pos; lia).
  unfold message_bytes. cbn [length_of message_body]. rewrite E. split_and!; try done. unfold frame_of.
  pose proof (encode_usize_short (len (p ++ newline)) Hu) as Hs. pose proof (len_nonneg (encode_usize (len (p ++ newline)))).
  rewrite len_app. unfold is_uint in *.
  assert (Hb : 2 * (usize_bits / 8) <= 16) by (destruct usize_bits_spec as [-> | ->]; done).
  assert (El : len (p ++ newline) = len p + 1) by by rewrite len_app. lia.
Qed.

Lemma message_nonempty m : 0 < len (message_bytes m).
Proof.
  unfold message_bytes. rewrite len_app. pose proof (encode_usize_nonempty (length_of m)). pose proof (len_nonneg (message_body m)).
  destruct (encode_usize (length_of m)); [done|]. rewrite len_cons. pose proof (len_nonneg l). lia.
Qed.

(** All the bytes the dialer sends. *)
Definition dialer_sends (p : list u8) : list u8 := message_bytes Handshake ++ message_bytes (ProtocolRequest p).

(** The state of the dialer, after it sent [sent] and received [recvd]. *)
Definition dialer_at (p sent recvd : list u8) (self : Negotiating) : Prop :=
  ms_config self = Some (Dialer p) /\ max_frame_len self = max_frame_len (Negotiating_new (Dialer p)) /\
  match ms_state self with
  | SendHandshake n => 0 <= n < len (message_bytes Handshake) /\ sent = take (Z.to_nat n) (message_bytes Handshake) /\
      reading (max_frame_len self) recvd (recv_buffer self)
  | SendProtocolRequest n => 0 <= n < len (message_bytes (ProtocolRequest p)) /\
      sent = message_bytes Handshake ++ take (Z.to_nat n) (message_bytes (ProtocolRequest p)) /\
      reading (max_frame_len self) recvd (recv_buffer self)
  | HandshakeExpected => sent = dialer_sends p /\ reading (max_frame_len self) recvd (recv_buffer self)
  | ProtocolRequestAnswerExpected => sent = dialer_sends p /\
      exists inp, recvd = frame_of HANDSHAKE ++ inp /\ reading (max_frame_len self) inp (recv_buffer self)
  | _ => False
  end.

(** What a call returns, after all that was sent and received. *)
Definition dialer_returns (p sent recvd : list u8) rw (res : result MsError Negotiation) : Prop :=
  match res with
  | Ok (Negotiation_InProgress self) => dialer_at p sent recvd self /\
      (sent <> dialer_sends p /\ outgoing_buffer_available rw = 0 \/
       sent = dialer_sends p /\ incoming rw = [] /\ exists g, recv_buffer self = InProgress g)
  | Ok (Success q) => q = p /\ sent = dialer_sends p /\ recvd = frame_of HANDSHAKE ++ frame_of (p ++ newline)
  | Ok NotAvailable => sent = dialer_sends p /\ recvd = frame_of HANDSHAKE ++ frame_of na_answer
  | Err WriteClosed => sent <> dialer_sends p /\ outgoing_buffer rw = None
  | Err ReadClosed => sent = dialer_sends p /\ incoming_buffer rw = None
  | Err (Frame e) => exists base inp, recvd = base ++ inp /\ (base = [] \/ base = frame_of HANDSHAKE) /\
      update (FramedInProgress_new (max_frame_len (Negotiating_new (Dialer p)))) (inp ++ incoming rw) = Err e
  | Err BadHandshake => sent = dialer_sends p /\ exists x, x <> HANDSHAKE /\ is_usize (len x) /\ recvd = frame_of x
  | Err UnexpectedProtocolRequestAnswer => sent = dialer_sends p /\
      exists x, x <> na_answer /\ x <> p ++ newline /\ is_usize (len x) /\ recvd = frame_of HANDSHAKE ++ frame_of x
  | Err InvalidCommand => False
  end.

Lemma take_app_split {A} (l : list A) (n k : Z) :
  0 <= n -> 0 <= k -> take (Z.to_nat n) l ++ take (Z.to_nat k) (drop (Z.to_nat n) l) = take (Z.to_nat (n + k)) l.
Proof.
  intros Hn Hk. rewrite Z2Nat.inj_add by done. rewrite <- (take_take_drop l). done.
Qed.

Lemma take_short {A} (l : list A) (n : Z) : 0 <= n < len l -> take (Z.to_nat n) l <> l.
Proof. intros Hn E. apply (f_equal length) in E. rewrite length_take in E. unfold len in Hn. lia. Qed.

(** An answer that ends with an end of line. *)
Lemma last_newline (x : list u8) : last x = Some 10 -> take (length x - 1) x ++ newline = x.
Proof.
  intros Hl. apply last_Some in Hl as [l ->]. rewrite length_app. cbn [length].
  by replace (length l + 1 - 1)%nat with (length l) by lia; rewrite take_app_length.
Qed.

Lemma on_answer_spec p x :
  match on_answer p x with
  | Ok (Success q) => q = p /\ x = p ++ newline
  | Ok NotAvailable => x = na_answer
  | Err UnexpectedProtocolRequestAnswer => x <> na_answer /\ x <> p ++ newline
  | _ => False
  end.
Proof.
  unfold on_answer. destruct (decide (last x = Some 10)) as [Hl|Hl].
  - rewrite (bool_decide_true (last x = _)) by done. cbn [negb]. case_bool_decide as Hna; [done|].
    pose proof (last_newline x Hl) as Hx. case_bool_decide as Hp; cbn.
    + by rewrite <- Hx, Hp.
    + split; [done|]. intros ->. apply Hp. rewrite length_app. cbn.
      by replace (length p + 1 - 1)%nat with (length p) by lia; rewrite take_app_length.
  - rewrite (bool_decide_false (last x = _)) by done. cbn. split; intros ->; apply Hl; [done|]. by apply last_snoc.
Qed.

Lemma dialer_reading p sent recvd self : dialer_at p sent recvd self ->
  exists base inp, recvd = base ++ inp /\ (base = [] \/ base = frame_of HANDSHAKE) /\
    reading (max_frame_len self) inp (recv_buffer self) /\
    (forall r f, reading (max_frame_len self) (inp ++ r) f -> dialer_at p sent (recvd ++ r) (with_recv f self)).
Proof.
  intros (Hc & Hm & Hst). unfold dialer_at. cbn [with_recv ms_config max_frame_len ms_state recv_buffer].
  destruct (ms_state self); try done; destruct Hst as (Hn & Hs & Hr).
  1-3: exists [], recvd; split_and!; [done|by left|done|]; intros r f Hf; tauto.
  rename Hs into inp. destruct Hr as (-> & Hr). exists (frame_of HANDSHAKE), inp. split_and!; [done|by right|done|]. intros r f Hf. split_and!; try done.
  exists (inp ++ r). by rewrite app_assoc.
Qed.

(** Sending a message in [sent], which starts with the complete messages [before]. *)
Lemma send_cases m n again k (self : Negotiating) rw (before : list u8) :
  rw_ok rw -> is_usize (len (message_bytes m)) -> 0 <= n < len (message_bytes m) ->
  exists rw' step w, send m n again k self rw = Some (rw', step) /\ moved rw [] w rw' /\
    (step = k /\ before ++ take (Z.to_nat n) (message_bytes m) ++ w = before ++ message_bytes m \/
     exists n', 0 <= n' < len (message_bytes m) /\
       before ++ take (Z.to_nat n) (message_bytes m) ++ w = before ++ take (Z.to_nat n') (message_bytes m) /\
       (step = Return (Err WriteClosed) /\ outgoing_buffer rw' = None \/
        step = Break (with_state (again n') self) /\ outgoing_buffer_available rw' = 0)).
Proof.
  intros Hok Hu Hn. destruct (decide (outgoing_buffer rw = None)) as [Ho|Ho].
  - rewrite send_closed by done. exists rw, (Return (Err WriteClosed)), []. split; [done|]. split; [by apply moved_refl|].
    right. exists n. rewrite app_nil_r. split; [done|]. split; [done|]. by left.
  - destruct (send_spec m n again k self rw) as [(rw' & -> & Hm)|(rw' & -> & Hn' & Hm & Ha)]; [done..| |].
    + exists rw', k, (drop (Z.to_nat n) (message_bytes m)). split; [done|]. split; [done|]. left. by rewrite take_drop.
    + eexists rw', _, _. split; [done|]. split; [done|]. right. exists (n + outgoing_buffer_available rw). split; [lia|].
      split; [|by right]. f_equal. rewrite take_app_split by (pose proof (available_nonneg rw); lia). do 2 f_equal. lia.
Qed.

(** Waiting for a frame. *)
Lemma expect_cases k (self : Negotiating) rw :
  rw_ok rw -> (forall g, recv_buffer self = InProgress g -> incoming rw = []) ->
  exists step, expect k self rw = Some (rw, step) /\ moved rw [] [] rw /\
    (step = Return (Err ReadClosed) /\ incoming_buffer rw = None \/ step = Break self /\ (incoming rw = [] /\ exists g, recv_buffer self = InProgress g) \/
     exists x, recv_buffer self = Finished x /\ step = k x).
Proof.
  intros Hok Hinc. pose proof (moved_refl rw Hok) as Hm. unfold expect, incoming_buffer_available, incoming in *.
  destruct (incoming_buffer rw) as [buf|]; [|by eexists; split; [done|]; split; [done|]; left].
  destruct (recv_buffer self) as [g|x]; [|by eexists; split; [done|]; split; [done|]; right; right; eauto].
  specialize (Hinc g eq_refl). cbn [from_option id] in Hinc. subst buf. eexists. split; [done|]. split; [done|]. right; left. by eauto.
Qed.

Lemma dialer_sends_neq p n n' :
  (n < len (message_bytes Handshake) -> take (Z.to_nat n) (message_bytes Handshake) <> dialer_sends p) /\
  (0 <= n' < len (message_bytes (ProtocolRequest p)) ->
   message_bytes Handshake ++ take (Z.to_nat n') (message_bytes (ProtocolRequest p)) <> dialer_sends p).
Proof.
  unfold dialer_sends. split; intros Hn E.
  - apply (f_equal length) in E. rewrite length_app, length_take in E. pose proof (message_nonempty (ProtocolRequest p)). unfold len in *. lia.
  - apply app_inv_head in E. by apply take_short in E.
Qed.

Lemma dialer_dispatch p sent recvd self rw : name_ok p -> dialer_at p sent recvd self -> rw_ok rw ->
  (forall g, recv_buffer self = InProgress g -> incoming rw = []) ->
  exists rw' step w, dispatch self rw = Some (rw', step) /\ moved rw [] w rw' /\
    match step with
    | Continue self' => dialer_at p (sent ++ w) recvd self' /\ (weight self' < weight self)%nat
    | Break self' => dialer_returns p (sent ++ w) recvd rw' (Ok (Negotiation_InProgress self'))
    | Return r => dialer_returns p (sent ++ w) recvd rw' r
    end.
Proof.
  intros Hp (Hc & Hm & Hst) Hok Hinc. destruct (request_frame p Hp) as (_ & _ & _ & Hreq).
  destruct (request_frame p Hp) as (Ereq & _). rewrite <- Ereq in Hreq.
  unfold dispatch. rewrite Hc. destruct (ms_state self) as [n|n| | | | | |] eqn:Es; try done.
  - destruct Hst as (Hn & -> & Hr).
    destruct (send_cases Handshake n SendHandshake (Continue (with_state (SendProtocolRequest 0) self)) self rw [])
      as (rw' & step & w & -> & Hmv & Hcase); [done| |done|].
    { unfold is_uint. destruct usize_bits_spec as [-> | ->]; done. }
    cbn [app] in Hcase. exists rw', step, w. split; [done|]. split; [done|].
    destruct Hcase as [(-> & ->)|(n' & Hn' & -> & [(-> & Ho)|(-> & Ha)])].
    + split; [|unfold weight; cbn; rewrite Es; cbn; lia]. unfold dialer_at. cbn. rewrite app_nil_r.
      pose proof (message_nonempty (ProtocolRequest p)). by split_and!.
    + split; [apply (proj1 (dialer_sends_neq p n' 0)); lia|done].
    + split; [|left; split; [apply (proj1 (dialer_sends_neq p n' 0)); lia|done]]. unfold dialer_at. split_and!; try done; apply Hn'.
  - destruct Hst as (Hn & -> & Hr).
    destruct (send_cases (ProtocolRequest p) n SendProtocolRequest (Continue (with_state HandshakeExpected self)) self rw (message_bytes Handshake))
      as (rw' & step & w & -> & Hmv & Hcase); [done..|].
    exists rw', step, w. split; [done|]. split; [done|]. rewrite <- app_assoc.
    destruct Hcase as [(-> & ->)|(n' & Hn' & -> & [(-> & Ho)|(-> & Ha)])].
    + split; [|unfold weight; cbn; rewrite Es; cbn; lia]. by split_and!.
    + split; [apply (proj2 (dialer_sends_neq p 0 n')); lia|done].
    + split; [|left; split; [apply (proj2 (dialer_sends_neq p 0 n')); lia|done]]. split_and!; try done; apply Hn'.
  - destruct Hst as (-> & Hr). destruct (expect_cases (on_handshake ProtocolRequestAnswerExpected self) self rw Hok Hinc) as (step & -> & Hmv & Hcase).
    exists rw, step, []. split; [done|]. split; [done|]. rewrite app_nil_r.
    destruct Hcase as [(-> & Hb)|[(-> & Hb)|(x & Hx & ->)]]; [done| |].
    { split; [|by right]. unfold dialer_at. rewrite Es. by split_and!. }
    rewrite Hx in Hr. apply reading_finished in Hr as (-> & Hu & _). unfold on_handshake. case_bool_decide as Hh.
    + subst x. split; [|unfold weight; cbn; rewrite Hx, Es; cbn; lia]. split_and!; try done. cbn. split; [done|].
      exists []. rewrite app_nil_r. split; [done|]. apply reading_new.
    + split; [done|]. by exists x.
  - destruct Hst as (-> & inp & -> & Hr). destruct (expect_cases (fun frame => Return (on_answer p frame)) self rw Hok Hinc) as (step & -> & Hmv & Hcase).
    exists rw, step, []. split; [done|]. split; [done|]. rewrite app_nil_r.
    destruct Hcase as [(-> & Hb)|[(-> & Hb)|(x & Hx & ->)]]; [done| |].
    { split; [|by right]. unfold dialer_at. rewrite Es. split_and!; try done. by exists inp. }
    rewrite Hx in Hr. apply reading_finished in Hr as (-> & Hu & _). pose proof (on_answer_spec p x) as Ha.
    unfold dialer_returns. repeat case_match; try done.
    + by destruct Ha as [-> ->].
    + by subst x.
    + destruct Ha as [Ha1 Ha2]. split; [done|]. by exists x.
Qed.

(** The proofs about the dialer, as those of a side. *)
#[export] Instance dialer_party p `{!name_ok p} : Party (dialer_at p) (dialer_returns p).
Proof.
  split.
  - intros sent recvd self Hat. destruct (dialer_reading _ _ _ _ Hat) as (base & inp & -> & Hbase & Hr & Hmore).
    exists base, inp. split_and!; try done. intros rw e He. exists base, inp. split; [done|]. split; [done|].
    destruct Hat as (_ & <- & _). done.
  - intros. by apply dialer_dispatch.
Qed.

Lemma dialer_new p : dialer_at p [] [] (Negotiating_new (Dialer p)).
Proof. unfold dialer_at. cbn [Negotiating_new ms_config max_frame_len ms_state recv_buffer]. by split_and!. Qed.

(** A call of the dialer returns. What it returns is a function of the bytes sent and received
    since the beginning. It is still in progress only when the memory to write to is full or the
    received data is read; it succeeds when it received the handshake and the name of
    the protocol, without reading anything more; it reports that the protocol is not available when it
    received the handshake and [na]; every error tells what was wrong with the bytes received, or
    which half of the connection was closed. *)
Theorem dialer_read_write (p sent recvd : list u8) (self : Negotiating) rw :
  name_ok p -> dialer_at p sent recvd self -> rw_ok rw ->
  exists rw' res r w, negotiation_read_write self rw = Some (rw', res) /\ moved rw r w rw' /\
    dialer_returns p (sent ++ w) (recvd ++ r) rw' res.
Proof. intros Hp Hat Hok. by apply (negotiation_call_spec (at_ := dialer_at p)). Qed.

(** ** The listener *)

(** The message that answers a command; the empty command is an error. *)
Definition listener_answer (ps : list (list u8)) (cmd : list u8) : option MessageOut :=
  if bool_decide (cmd = []) then None
  else if bool_decide (cmd = ls_command) then Some (LsResponse ps)
  else
    match list_find (fun p => p = take (length cmd - 1) cmd) ps with
    | Some (_, p) => Some (ProtocolOk p)
    | None => Some ProtocolNa
    end.

(** A command after whose answer the negotiation goes on. *)
Definition goes_on (ps : list (list u8)) (cmd : list u8) : Prop :=
  is_usize (len cmd) /\ (listener_answer ps cmd = Some (LsResponse ps) \/ listener_answer ps cmd = Some ProtocolNa).

Definition answers (ps cmds : list (list u8)) : list u8 :=
  concat (map (fun cmd => from_option message_bytes [] (listener_answer ps cmd)) cmds).

Definition frames (cmds : list (list u8)) : list u8 := concat (map frame_of cmds).

(** What is sent is what the negotiation allows: slices have at most [isize::MAX] bytes, and so
    has the answer to [ls]. *)
Definition names_ok (ps : list (list u8)) : Prop := Forall name_ok ps /\ is_usize (len (message_bytes (LsResponse ps))).
Existing Class names_ok.

(** A state in which there is something to send. *)
Definition sends (st : InProgressState) : bool := Nat.ltb 0 (state_weight st).

(** [n] bytes of the answer [m] to the last of the commands were sent. *)
Definition answering (ps : list (list u8)) (m : MessageOut) (n : usize) (sent recvd : list u8) (self : Negotiating) : Prop :=
  exists cmds cmd inp, Forall (goes_on ps) cmds /\ is_usize (len cmd) /\
    listener_answer ps cmd = Some m /\ 0 <= n < len (message_bytes m) /\
    sent = (message_bytes Handshake ++ answers ps cmds) ++ take (Z.to_nat n) (message_bytes m) /\
    recvd = (frame_of HANDSHAKE ++ frames (cmds ++ [cmd])) ++ inp /\ reading (max_frame_len self) inp (recv_buffer self).

(** The state of the listener, after it sent [sent] and received [recvd]: commands that were answered,
    then the one that is being answered, if any, then the bytes that follow. *)
Definition listener_at (ps : list (list u8)) (sent recvd : list u8) (self : Negotiating) : Prop :=
  ms_config self = Some (Listener ps) /\ max_frame_len self = max_frame_len (Negotiating_new (Listener ps)) /\
  match ms_state self with
  | SendHandshake n => 0 <= n < len (message_bytes Handshake) /\ sent = take (Z.to_nat n) (message_bytes Handshake) /\
      reading (max_frame_len self) recvd (recv_buffer self)
  | HandshakeExpected => sent = message_bytes Handshake /\ reading (max_frame_len self) recvd (recv_buffer self)
  | CommandExpected => exists cmds inp, Forall (goes_on ps) cmds /\ sent = message_bytes Handshake ++ answers ps cmds /\
      recvd = (frame_of HANDSHAKE ++ frames cmds) ++ inp /\ reading (max_frame_len self) inp (recv_buffer self)
  | SendProtocolOk n q => answering ps (ProtocolOk q) n sent recvd self
  | SendLsResponse n => answering ps (LsResponse ps) n sent recvd self
  | SendProtocolNa n => answering ps ProtocolNa n sent recvd self
  | SendProtocolRequest _ | ProtocolRequestAnswerExpected => False
  end.

(** The commands whose frames were read. *)
Definition commands_read (ps : list (list u8)) (base : list u8) : Prop :=
  base = [] \/ exists cmds, Forall (fun cmd => is_usize (len cmd) /\ listener_answer ps cmd <> None) cmds /\
    base = frame_of HANDSHAKE ++ frames cmds.

(** What a call returns. *)
Definition listener_returns (ps : list (list u8)) (sent recvd : list u8) rw (res : result MsError Negotiation) : Prop :=
  match res with
  | Ok (Negotiation_InProgress self) => listener_at ps sent recvd self /\
      (sends (ms_state self) = true /\ outgoing_buffer_available rw = 0 \/
       sends (ms_state self) = false /\ incoming rw = [] /\ exists g, recv_buffer self = InProgress g)
  | Ok (Success q) => exists cmds cmd inp, Forall (goes_on ps) cmds /\ is_usize (len cmd) /\ listener_answer ps cmd = Some (ProtocolOk q) /\
      sent = (message_bytes Handshake ++ answers ps cmds) ++ message_bytes (ProtocolOk q) /\
      recvd = (frame_of HANDSHAKE ++ frames (cmds ++ [cmd])) ++ inp
  | Ok NotAvailable => False
  | Err WriteClosed => outgoing_buffer rw = None
  | Err ReadClosed => incoming_buffer rw = None
  | Err (Frame e) => exists base inp, recvd = base ++ inp /\
      commands_read ps base /\
      update (FramedInProgress_new (max_frame_len (Negotiating_new (Listener ps)))) (inp ++ incoming rw) = Err e
  | Err BadHandshake => exists x, x <> HANDSHAKE /\ is_usize (len x) /\ recvd = frame_of x
  | Err InvalidCommand => exists cmds, Forall (goes_on ps) cmds /\ recvd = (frame_of HANDSHAKE ++ frames cmds) ++ frame_of []
  | Err UnexpectedProtocolRequestAnswer => False
  end.

Lemma frames_snoc cmds cmd : frames (cmds ++ [cmd]) = frames cmds ++ frame_of cmd.
Proof. unfold frames. rewrite map_app, concat_app. cbn. by rewrite app_nil_r. Qed.

Lemma answers_snoc ps cmds cmd m : listener_answer ps cmd = Some m -> answers ps (cmds ++ [cmd]) = answers ps cmds ++ message_bytes m.
Proof. intros Hm. unfold answers. rewrite map_app, concat_app. cbn. by rewrite app_nil_r, Hm. Qed.

Lemma answer_usize ps cmd m : names_ok ps -> listener_answer ps cmd = Some m -> is_usize (len (message_bytes m)).
Proof.
  intros [Hn Hl]. unfold listener_answer. repeat case_bool_decide; try done; [by intros [= <-]|].
  destruct (list_find _ ps) as [[i q]|] eqn:E; intros [= <-].
  - apply list_find_Some in E as (Hi & _). apply (Forall_lookup_1 _ _ _ _ Hn) in Hi. destruct (request_frame q Hi) as (_ & -> & _ & ?). done.
  - unfold is_uint. destruct usize_bits_spec as [-> | ->]; done.
Qed.

Lemma goes_on_answer ps cmd m : is_usize (len cmd) -> listener_answer ps cmd = Some m -> (forall q, m <> ProtocolOk q) -> goes_on ps cmd.
Proof.
  intros Hu Hm Hne. split; [done|]. unfold listener_answer in *. repeat case_bool_decide; try done; [by left|].
  destruct (list_find _ ps) as [[i q]|]; [|by right]. injection Hm as <-. by destruct (Hne q).
Qed.

Lemma goes_on_known ps cmds : Forall (goes_on ps) cmds -> Forall (fun cmd => is_usize (len cmd) /\ listener_answer ps cmd <> None) cmds.
Proof. intros Hg. eapply Forall_impl; [done|]. intros cmd [Hu [-> | ->]]; done. Qed.

Lemma answering_reading ps m n sent recvd self : answering ps m n sent recvd self ->
  exists base inp, recvd = base ++ inp /\ commands_read ps base /\ reading (max_frame_len self) inp (recv_buffer self) /\
    (forall r f, reading (max_frame_len self) (inp ++ r) f -> answering ps m n sent (recvd ++ r) (with_recv f self)).
Proof.
  intros (cmds & cmd & inp & Hg & Hu & Ha & Hn & Hs & -> & Hr). exists (frame_of HANDSHAKE ++ frames (cmds ++ [cmd])), inp.
  split; [done|]. split; [|split; [done|]].
  - right. exists (cmds ++ [cmd]). split; [|done]. apply Forall_app. split; [by apply goes_on_known|]. apply Forall_singleton. by rewrite Ha.
  - intros r f Hf. exists cmds, cmd, (inp ++ r). rewrite (app_assoc _ inp r). tauto.
Qed.

Lemma listener_reading ps sent recvd self : listener_at ps sent recvd self ->
  exists base inp, recvd = base ++ inp /\ commands_read ps base /\ reading (max_frame_len self) inp (recv_buffer self) /\
    (forall r f, reading (max_frame_len self) (inp ++ r) f -> listener_at ps sent (recvd ++ r) (with_recv f self)).
Proof.
  intros (Hc & Hm & Hst). unfold listener_at. cbn [with_recv ms_config max_frame_len ms_state recv_buffer].
  destruct (ms_state self); try done.
  2-4: destruct (answering_reading _ _ _ _ _ _ Hst) as (base & inp & Hb & Hread & Hr & Hmore); exists base, inp; split_and!; auto; apply Hr.
  - exists [], recvd. split; [done|]. split; [by left|]. split; [apply Hst|]. intros r f Hf. tauto.
  - exists [], recvd. split; [done|]. split; [by left|]. split; [apply Hst|]. intros r f Hf. tauto.
  - destruct Hst as (cmds & inp & Hg & Hs & -> & Hr). exists (frame_of HANDSHAKE ++ frames cmds), inp. split; [done|]. split; [|split; [done|]].
    + right. exists cmds. split; [by apply goes_on_known|done].
    + intros r f Hf. split_and!; try done. exists cmds, (inp ++ r). rewrite (app_assoc _ inp r). tauto.
Qed.

(** The answer to the last of the commands was sent. *)
Definition answered (ps : list (list u8)) (m : MessageOut) (sent recvd : list u8) (self : Negotiating) : Prop :=
  exists cmds cmd inp, Forall (goes_on ps) cmds /\ is_usize (len cmd) /\ listener_answer ps cmd = Some m /\
    sent = (message_bytes Handshake ++ answers ps cmds) ++ message_bytes m /\
    recvd = (frame_of HANDSHAKE ++ frames (cmds ++ [cmd])) ++ inp /\ reading (max_frame_len self) inp (recv_buffer self).

Lemma answering_send ps m n again k sent recvd self rw :
  names_ok ps -> answering ps m n sent recvd self -> rw_ok rw ->
  exists rw' step w, send m n again k self rw = Some (rw', step) /\ moved rw [] w rw' /\
    (step = k /\ answered ps m (sent ++ w) recvd self \/
     step = Return (Err WriteClosed) /\ outgoing_buffer rw' = None \/
     exists n', step = Break (with_state (again n') self) /\ outgoing_buffer_available rw' = 0 /\
       answering ps m n' (sent ++ w) recvd (with_state (again n') self)).
Proof.
  intros Hps (cmds & cmd & inp & Hg & Hu & Ha & Hn & -> & -> & Hr) Hok.
  destruct (send_cases m n again k self rw (message_bytes Handshake ++ answers ps cmds)) as (rw' & step & w & -> & Hm & Hcase);
    [done|by eapply answer_usize|done|].
  exists rw', step, w. split; [done|]. split; [done|]. rewrite <- (app_assoc (message_bytes Handshake ++ answers ps cmds)).
  destruct Hcase as [(-> & ->)|(n' & Hn' & -> & [(-> & Ho)|(-> & Hav)])].
  - left. split; [done|]. by exists cmds, cmd, inp.
  - right. by left.
  - right. right. exists n'. split; [done|]. split; [done|]. by exists cmds, cmd, inp.
Qed.

(** After an answer that does not end the negotiation, the next command is expected. *)
Lemma answered_next ps m sent recvd self :
  ms_config self = Some (Listener ps) -> max_frame_len self = max_frame_len (Negotiating_new (Listener ps)) ->
  (forall q, m <> ProtocolOk q) -> answered ps m sent recvd self -> listener_at ps sent recvd (with_state CommandExpected self).
Proof.
  intros Hc Hmax Hm (cmds & cmd & inp & Hg & Hu & Ha & -> & -> & Hr). split; [done|]. split; [done|].
  cbn. exists (cmds ++ [cmd]), inp. split_and!; try done; [| |apply Hr..].
  - apply Forall_app. split; [done|]. apply Forall_singleton. by eapply goes_on_answer.
  - rewrite (answers_snoc _ _ _ m) by done. symmetry. apply app_assoc.
Qed.

(** A command makes the listener answer. *)
Lemma on_command_at ps cmds sent x self rw :
  ms_config self = Some (Listener ps) -> max_frame_len self = max_frame_len (Negotiating_new (Listener ps)) ->
  ms_state self = CommandExpected -> recv_buffer self = Finished x ->
  Forall (goes_on ps) cmds -> sent = message_bytes Handshake ++ answers ps cmds -> is_usize (len x) ->
  let recvd := (frame_of HANDSHAKE ++ frames cmds) ++ frame_of x in
  match on_command ps self x with
  | Continue self' => listener_at ps sent recvd self' /\ (weight self' < weight self)%nat
  | Break _ => False
  | Return r => listener_returns ps sent recvd rw r
  end.
Proof.
  intros Hc Hm Hst Hf Hg Hs Hu recvd.
  assert (Hans : forall m, listener_answer ps x = Some m -> answering ps m 0 sent recvd (frame_taken self)).
  { intros m Ha. exists cmds, x, []. pose proof (message_nonempty m). change (take (Z.to_nat 0) (message_bytes m)) with (@nil Z).
    rewrite !app_nil_r, frames_snoc, app_assoc. split_and!; try done. }
  assert (Hw : forall st, (state_weight st <= 1)%nat -> (weight (with_state st (frame_taken self)) < weight self)%nat).
  { intros st Hle. unfold weight. cbn. rewrite Hf, Hst. cbn. lia. }
  unfold on_command, listener_answer in *. repeat case_bool_decide.
  - subst x. by exists cmds.
  - split; [|apply Hw; cbn; lia]. split_and!; try done. cbn. by apply Hans.
  - destruct (list_find _ ps) as [[i q]|]; (split; [|apply Hw; cbn; lia]); split_and!; try done; cbn; by apply Hans.
Qed.

Lemma listener_dispatch ps sent recvd self rw : names_ok ps -> listener_at ps sent recvd self -> rw_ok rw ->
  (forall g, recv_buffer self = InProgress g -> incoming rw = []) ->
  exists rw' step w, dispatch self rw = Some (rw', step) /\ moved rw [] w rw' /\
    match step with
    | Continue self' => listener_at ps (sent ++ w) recvd self' /\ (weight self' < weight self)%nat
    | Break self' => listener_returns ps (sent ++ w) recvd rw' (Ok (Negotiation_InProgress self'))
    | Return r => listener_returns ps (sent ++ w) recvd rw' r
    end.
Proof.
  intros Hps Hat Hok Hinc. pose proof Hat as (Hc & Hm & Hst). unfold dispatch. rewrite Hc.
  destruct (ms_state self) as [n| |n q|n|n| | |] eqn:Es; try done.
  - destruct Hst as (Hn & -> & Hr).
    destruct (send_cases Handshake n SendHandshake (Continue (with_state HandshakeExpected self)) self rw [])
      as (rw' & step & w & -> & Hmv & Hcase); [done| |done|].
    { unfold is_uint. destruct usize_bits_spec as [-> | ->]; done. }
    cbn [app] in Hcase. exists rw', step, w. split; [done|]. split; [done|].
    destruct Hcase as [(-> & ->)|(n' & Hn' & -> & [(-> & Ho)|(-> & Ha)])]; [|done|].
    + split; [|unfold weight; cbn; rewrite Es; cbn; lia]. by split_and!.
    + split; [|by left]. by split_and!; try done; apply Hn'.
  - destruct (answering_send ps (ProtocolOk q) n (fun n => SendProtocolOk n q) (Return (Ok (Success q))) sent recvd self rw)
      as (rw' & step & w & -> & Hmv & Hcase); [done..|]. exists rw', step, w. split; [done|]. split; [done|].
    destruct Hcase as [(-> & (cmds & cmd & inp & ? & ? & ? & ? & ? & _))|[(-> & Ho)|(n' & -> & Ha & Hat')]]; [by exists cmds, cmd, inp|done|].
    split; [by split_and!|by left].
  - destruct (answering_send ps (LsResponse ps) n SendLsResponse (Continue (with_state CommandExpected self)) sent recvd self rw)
      as (rw' & step & w & -> & Hmv & Hcase); [done..|]. exists rw', step, w. split; [done|]. split; [done|].
    destruct Hcase as [(-> & Hans)|[(-> & Ho)|(n' & -> & Ha & Hat')]]; [|done|split; [by split_and!|by left]].
    split; [by apply (answered_next ps _ _ _ _ Hc Hm) in Hans|unfold weight; cbn; rewrite Es; cbn; lia].
  - destruct (answering_send ps ProtocolNa n SendProtocolNa (Continue (with_state CommandExpected self)) sent recvd self rw)
      as (rw' & step & w & -> & Hmv & Hcase); [done..|]. exists rw', step, w. split; [done|]. split; [done|].
    destruct Hcase as [(-> & Hans)|[(-> & Ho)|(n' & -> & Ha & Hat')]]; [|done|split; [by split_and!|by left]].
    split; [by apply (answered_next ps _ _ _ _ Hc Hm) in Hans|unfold weight; cbn; rewrite Es; cbn; lia].
  - destruct Hst as (-> & Hr). destruct (expect_cases (on_handshake CommandExpected self) self rw Hok Hinc) as (step & -> & Hmv & Hcase).
    exists rw, step, []. split; [done|]. split; [done|]. rewrite app_nil_r.
    destruct Hcase as [(-> & Hb)|[(-> & Hb)|(x & Hx & ->)]]; [done|by split; [|right; rewrite Es]|].
    rewrite Hx in Hr. apply reading_finished in Hr as (-> & Hu & _). unfold on_handshake. case_bool_decide as Hh; [|by exists x].
    subst x. split; [|unfold weight; cbn; rewrite Hx, Es; cbn; lia]. split_and!; try done. cbn.
    exists [], []. unfold answers, frames. cbn [map concat]. rewrite !app_nil_r. split_and!; try done; constructor.
  - destruct Hst as (cmds & inp & Hg & -> & -> & Hr). destruct (expect_cases (on_command ps self) self rw Hok Hinc) as (step & -> & Hmv & Hcase).
    exists rw, step, []. split; [done|]. split; [done|]. rewrite app_nil_r.
    destruct Hcase as [(-> & Hb)|[(-> & Hb)|(x & Hx & ->)]]; [done|by split; [|right; rewrite Es]|].
    rewrite Hx in Hr. apply reading_finished in Hr as (-> & Hu & _).
    pose proof (on_command_at ps cmds _ x self rw Hc Hm Es Hx Hg eq_refl Hu) as Hcmd. by destruct (on_command ps self x).
Qed.

#[export] Instance listener_party ps `{!names_ok ps} : Party (listener_at ps) (listener_returns ps).
Proof.
  split.
  - intros sent recvd self Hat. destruct (listener_reading _ _ _ _ Hat) as (base & inp & -> & Hbase & Hr & Hmore).
    exists base, inp. split_and!; try done; [apply Hr..|]. intros rw e He. exists base, inp. split; [done|]. split; [done|].
    destruct Hat as (_ & <- & _). done.
  - intros. by apply listener_dispatch.
Qed.

Lemma listener_new ps : listener_at ps [] [] (Negotiating_new (Listener ps)).
Proof. unfold listener_at. cbn [Negotiating_new ms_config max_frame_len ms_state recv_buffer]. by split_and!. Qed.

(** C40: a call of the listener returns. It answers the commands in the order of the frames that
    hold them, each in full before the next is looked at; it is still in progress only when the memory to write
    to is full or the received data is read; it succeeds once it acknowledged a protocol; the
    errors tell what was wrong with the bytes received, or which half of the connection was
    closed. *)
Theorem listener_read_write (ps : list (list u8)) (sent recvd : list u8) (self : Negotiating) rw :
  names_ok ps -> listener_at ps sent recvd self -> rw_ok rw ->
  exists rw' res r w, negotiation_read_write self rw = Some (rw', res) /\ moved rw r w rw' /\
    listener_returns ps (sent ++ w) (recvd ++ r) rw' res.
Proof. intros Hp Hat Hok. by apply (negotiation_call_spec (at_ := listener_at ps)). Qed.

(** ** The two sides together *)

(** The answer to the request of [p]. *)
Definition reply (p : list u8) (ps : list (list u8)) : list u8 := if bool_decide (p ∈ ps) then p ++ newline else na_answer.

(** All the bytes the listener sends to a dialer that requests [p]. *)
Definition listener_sends (p : list u8) (ps : list (list u8)) : list u8 := frame_of HANDSHAKE ++ frame_of (reply p ps).

Lemma take_newline (p : list u8) : take (length (p ++ newline) - 1) (p ++ newline) = p.
Proof. rewrite length_app. cbn [length]. by replace (length p + length newline - 1)%nat with (length p) by (cbn; lia); rewrite take_app_length. Qed.

Lemma request_answer p ps : name_ok p -> p ++ newline <> ls_command ->
  exists m, listener_answer ps (p ++ newline) = Some m /\ message_bytes m = frame_of (reply p ps) /\
    (forall q, m = ProtocolOk q -> q = p /\ p ∈ ps).
Proof.
  intros Hp Hls. unfold listener_answer, reply. rewrite bool_decide_false by (by destruct p). rewrite bool_decide_false by done.
  rewrite take_newline. destruct (list_find _ ps) as [[i q]|] eqn:E.
  - apply list_find_Some in E as (Hi & -> & _). apply list_elem_of_lookup_2 in Hi. exists (ProtocolOk p). rewrite bool_decide_true by done.
    destruct (request_frame p Hp) as (_ & ? & _). split; [done|]. split; [done|]. by intros q [= <-].
  - apply list_find_None in E. exists ProtocolNa. rewrite bool_decide_false; [done|]. intros Hin. by apply (Forall_forall _ _) with p in E.
Qed.

(** The frames at the start of a single frame. *)
Lemma frames_of_one cmds x rest :
  Forall (fun cmd => is_usize (len cmd)) cmds -> is_usize (len x) -> frames cmds ++ rest = frame_of x ->
  cmds = [] /\ rest = frame_of x \/ cmds = [x] /\ rest = [].
Proof.
  intros Hc Hx Heq. destruct Hc as [|cmd cmds Hcmd Hcmds]; [by left|]. right. unfold frames in Heq. cbn [map concat] in Heq. fold (frames cmds) in Heq.
  rewrite <- app_assoc, <- (app_nil_r (frame_of x)) in Heq. apply frame_of_inj in Heq as [-> Heq]; [|done..].
  apply app_eq_nil in Heq as [Hf ->]. destruct Hcmds as [|cmd' cmds]; [done|]. unfold frames in Hf. cbn [map concat] in Hf.
  apply app_eq_nil in Hf as [Hf _]. unfold frame_of in Hf. apply app_eq_nil in Hf as [Hf _]. by apply encode_usize_nonempty in Hf.
Qed.

(** What starts like frames that are not too long is never refused. *)
Lemma update_start_ok max x y z rest e :
  is_bytes y -> is_usize (len x) -> len x <= max -> y ++ z = frame_of x ++ rest -> update (FramedInProgress_new max) y <> Err e.
Proof.
  intros Hy Hx Hm Heq He. pose proof (framed_roundtrip max x rest Hx Hm) as Hr. unfold frame_of in Heq. rewrite <- app_assoc in Heq.
  rewrite <- Heq, update_app, He in Hr; [done|constructor|done].
Qed.

(** A reader that goes on has not received a whole frame. *)
Lemma reading_short max y g x rest :
  reading max y (InProgress g) -> is_usize (len x) -> len x <= max -> y <> frame_of x ++ rest.
Proof. intros [_ Hr] Hx Hm ->. unfold frame_of in Hr. by rewrite <- app_assoc, framed_roundtrip in Hr. Qed.
End calls.

(** *** Calls, and what travels between the sides *)

Section negotiation.
Context `{Platform}.

(** A call with the received [data] and two slices to write to: the state, the number of
    bytes read and the bytes written. An error or a panic is [None]. *)
Definition call (self : Negotiating) (data buf0 buf1 : list u8) : option (Negotiation * nat * list u8) :=
  let! (rw, res) := negotiation_read_write self (mkReadWrite tt (Some data) (Some (buf0, buf1)) 0 0 None []) in
  match res with
  | Ok n => Some (n, Z.to_nat (read_bytes rw), rw_behind rw)
  | Err _ => None
  end.

Record Connection := mkConnection {
  dialer : Negotiation;
  listener : Negotiation;
  to_listener : list u8;
  to_dialer : list u8
}.

Definition connection_new (p : list u8) (ps : list (list u8)) : Connection :=
  {| dialer := Negotiation_new (Dialer p); listener := Negotiation_new (Listener ps); to_listener := []; to_dialer := [] |}.

(** One side is called, with some of the bytes that travel to it and two slices to write to. *)
Inductive Event :=
  | DialerCall (delivered : nat) (buf0 buf1 : list u8)
  | ListenerCall (delivered : nat) (buf0 buf1 : list u8).

Definition connection_step (c : Connection) (e : Event) : option Connection :=
  match e with
  | DialerCall k buf0 buf1 =>
      match dialer c with
      | Negotiation_InProgress self =>
          let! (n, r, w) := call self (take k (to_dialer c)) buf0 buf1 in
          Some {| dialer := n; listener := listener c; to_listener := to_listener c ++ w; to_dialer := drop r (to_dialer c) |}
      | _ => Some c
      end
  | ListenerCall k buf0 buf1 =>
      match listener c with
      | Negotiation_InProgress self =>
          let! (n, r, w) := call self (take k (to_listener c)) buf0 buf1 in
          Some {| dialer := dialer c; listener := n; to_listener := drop r (to_listener c); to_dialer := to_dialer c ++ w |}
      | _ => Some c
      end
  end.

Fixpoint connection_run (c : Connection) (events : list Event) : option Connection :=
  match events with
  | [] => Some c
  | e :: events => let! c := connection_step c e in connection_run c events
  end.

(** Rounds in which each side is called once, with all that travels to it. *)
Fixpoint connection_rounds (c : Connection) (rounds : list (list u8 * list u8 * (list u8 * list u8))) : option Connection :=
  match rounds with
  | [] => Some c
  | (buf0, buf1, (buf2, buf3)) :: rounds =>
      let! c := connection_step c (DialerCall (length (to_dialer c)) buf0 buf1) in
      let! c := connection_step c (ListenerCall (length (to_listener c)) buf2 buf3) in
      connection_rounds c rounds
  end.

(** Each side is given some memory to write to. *)
Definition round_writes (r : list u8 * list u8 * (list u8 * list u8)) : Prop :=
  let '(buf0, buf1, (buf2, buf3)) := r in 1 <= len buf0 + len buf1 /\ 1 <= len buf2 + len buf3.

Definition is_in_progress (n : Negotiation) : bool := match n with Negotiation_InProgress _ => true | _ => false end.

(** A protocol that can be requested: it is neither [ls] nor [na], and its name is not longer than what
    the listener accepts. *)
Record negotiable (p : list u8) (ps : list (list u8)) : Prop := {
  requested_ok : name_ok p;
  requested_bytes : is_bytes p;
  requested_not_ls : p ++ newline <> ls_command;
  requested_not_na : p ++ newline <> na_answer;
  supported_ok : names_ok ps;
  requested_len : len p <= Z.max (max_proto_name_len (Listener ps)) MIN_PROTO_LEN_NO_ERR
}.

Lemma max_names_bound (ps : list (list u8)) : Forall name_ok ps -> 0 <= max_proto_name_len (Listener ps) < 2 ^ (usize_bits - 1).
Proof.
  pose proof usize_halves. cbn [max_proto_name_len]. induction 1 as [|q ps Hq _ IH]; cbn [map foldr]; [lia|].
  unfold name_ok in Hq. pose proof (len_nonneg q). lia.
Qed.

Section sides.
Context (p : list u8) (ps : list (list u8)) (Hn : negotiable p ps).

Lemma listener_max : max_frame_len (Negotiating_new (Listener ps)) = Z.max (max_proto_name_len (Listener ps)) MIN_PROTO_LEN_NO_ERR + 1.
Proof.
  pose proof (max_names_bound ps (proj1 (supported_ok _ _ Hn))). pose proof usize_halves. unfold Negotiating_new. cbn [max_frame_len].
  change (len HANDSHAKE) with 19. unfold MIN_PROTO_LEN_NO_ERR. unfold wadd. rewrite wrap_small by (unfold is_uint; lia). lia.
Qed.

Lemma dialer_max : max_frame_len (Negotiating_new (Dialer p)) = Z.max (len p) MIN_PROTO_LEN_NO_ERR + 1.
Proof.
  pose proof (requested_ok _ _ Hn) as Hp. unfold name_ok in Hp. pose proof usize_halves. unfold Negotiating_new. cbn [max_frame_len max_proto_name_len].
  change (len HANDSHAKE) with 19. unfold MIN_PROTO_LEN_NO_ERR. unfold wadd. pose proof (len_nonneg p). rewrite wrap_small by (unfold is_uint; lia). lia.
Qed.

Lemma dialer_sends_frames : dialer_sends p = frame_of HANDSHAKE ++ frame_of (p ++ newline).
Proof. unfold dialer_sends. by rewrite (proj1 (request_frame p (requested_ok _ _ Hn))). Qed.

Lemma handshake_usize : is_usize (len HANDSHAKE).
Proof. unfold is_uint. destruct usize_bits_spec as [-> | ->]; done. Qed.

Lemma request_usize : is_usize (len (p ++ newline)).
Proof. apply request_frame, Hn. Qed.

Lemma reply_usize : is_usize (len (reply p ps)).
Proof. unfold reply. case_if; [apply request_usize|]. unfold is_uint. destruct usize_bits_spec as [-> | ->]; done. Qed.

(** The frames fit in the buffers. *)
Lemma frames_fit :
  len HANDSHAKE <= max_frame_len (Negotiating_new (Dialer p)) /\ len (reply p ps) <= max_frame_len (Negotiating_new (Dialer p)) /\
  len HANDSHAKE <= max_frame_len (Negotiating_new (Listener ps)) /\ len (p ++ newline) <= max_frame_len (Negotiating_new (Listener ps)).
Proof.
  rewrite dialer_max, listener_max, len_app. change (len HANDSHAKE) with 19. change (len newline) with 1.
  pose proof (requested_len _ _ Hn). unfold MIN_PROTO_LEN_NO_ERR in *. split_and!; try lia.
  unfold reply. case_if; [rewrite len_app; change (len newline) with 1; lia|change (len na_answer) with 3; lia].
Qed.

Lemma frame_of_bytes x : is_bytes x -> is_usize (len x) -> is_bytes (frame_of x).
Proof. intros Hx Hu. apply Forall_app. split; [by apply encode_usize_bytes|done]. Qed.

Lemma stream_bytes : is_bytes (dialer_sends p) /\ is_bytes (listener_sends p ps).
Proof.
  assert (Hh : is_bytes (frame_of HANDSHAKE)) by (apply frame_of_bytes; [repeat constructor; done|apply handshake_usize]).
  assert (Hpn : is_bytes (p ++ newline)) by (apply Forall_app; split; [apply Hn|by repeat constructor]).
  rewrite dialer_sends_frames. unfold listener_sends. split; apply Forall_app; (split; [done|]).
  - apply frame_of_bytes; [done|apply request_usize].
  - apply frame_of_bytes; [|apply reply_usize]. unfold reply. case_if; [done|by repeat constructor].
Qed.

(** The state of the dialer and of the listener, finished or not. *)
Definition dialer_view (sent recvd : list u8) (n : Negotiation) : Prop :=
  match n with
  | Negotiation_InProgress self => dialer_at p sent recvd self
  | Success q => q = p /\ sent = dialer_sends p /\ recvd = frame_of HANDSHAKE ++ frame_of (p ++ newline)
  | NotAvailable => sent = dialer_sends p /\ recvd = frame_of HANDSHAKE ++ frame_of na_answer
  end.

Definition listener_view (sent recvd : list u8) (n : Negotiation) : Prop :=
  match n with
  | Negotiation_InProgress self => listener_at ps sent recvd self
  | Success q => q = p /\ p ∈ ps /\ sent = listener_sends p ps
  | NotAvailable => False
  end.

(** A call of a side, with the description of what it returns. *)
Lemma call_party at_ returns `{!Party (TNow := unit) at_ returns} sent recvd self data buf0 buf1 :
  at_ sent recvd self -> is_bytes data -> is_usize (len data) ->
  exists rw res r w, returns (sent ++ w) (recvd ++ r) rw res /\ data = r ++ incoming rw /\
    incoming_buffer rw <> None /\ outgoing_buffer rw <> None /\ outgoing_buffer_available rw = len buf0 + len buf1 - len w /\
    call self data buf0 buf1 = match res with Ok n => Some (n, length r, w) | Err _ => None end.
Proof.
  intros Hat Hb Hu. unfold call. set (rw0 := mkReadWrite tt (Some data) (Some (buf0, buf1)) 0 0 None []).
  assert (Hok : rw_ok rw0).
  { split_and!; [..|done]; cbn; unfold is_uint; pose proof usize_halves; lia. }
  destruct (negotiation_call_spec sent recvd self rw0 Hat Hok) as (rw & res & r & w & -> & Hm & Hret).
  destruct Hm as (Hi & Hin & Hbe & Ha & Ho & Hw & Hr). exists rw, res, r, w. split; [done|].
  cbn in Hi, Hbe. change (incoming rw0) with data in Hi. split; [done|]. split; [by rewrite Hin|]. split; [by rewrite Ho|]. split; [done|].
  destruct res as [n|e]; [|done]. rewrite Hbe, Hr. cbn [read_bytes rw0]. unfold wadd. rewrite Z.add_0_l, wrap_small.
  - by unfold len; rewrite Nat2Z.id.
  - unfold is_uint in *. subst data. rewrite len_app in Hu. pose proof (len_nonneg r). pose proof (len_nonneg (incoming rw)). lia.
Qed.

Lemma frame_of_len x : is_usize (len x) -> len (frame_of x) <= 16 + len x.
Proof.
  intros Hx. unfold frame_of. rewrite len_app. pose proof (encode_usize_short (len x) Hx).
  assert (2 * (usize_bits / 8) <= 16) by (destruct usize_bits_spec as [-> | ->]; done). lia.
Qed.

Lemma stream_usize : is_usize (len (dialer_sends p)) /\ is_usize (len (listener_sends p ps)).
Proof.
  pose proof usize_halves. pose proof (frame_of_len _ request_usize) as H1. pose proof (frame_of_len _ reply_usize) as H2.
  pose proof (requested_ok _ _ Hn) as Hp. unfold name_ok in Hp. rewrite dialer_sends_frames. unfold listener_sends, is_uint.
  rewrite !(len_app (frame_of HANDSHAKE)). change (len (frame_of HANDSHAKE)) with 20.
  assert (Hr : len (reply p ps) <= len p + 3) by (unfold reply; case_if; [rewrite len_app; change (len newline) with 1|change (len na_answer) with 3]; pose proof (len_nonneg p); lia).
  rewrite len_app in H1. change (len newline) with 1 in H1. pose proof (len_nonneg (frame_of (p ++ newline))). pose proof (len_nonneg (frame_of (reply p ps))). lia.
Qed.

(** What the listener sends is never wrong for the dialer. *)
Lemma dialer_no_error sent recvd (rw : ReadWrite unit) rest e :
  recvd ++ incoming rw ++ rest = listener_sends p ps -> incoming_buffer rw <> None -> outgoing_buffer rw <> None ->
  ~ dialer_returns p sent recvd rw (Err e).
Proof.
  intros Hs Hin Ho Hret. pose proof (proj2 stream_bytes) as Hb. rewrite <- Hs in Hb. destruct frames_fit as (Hf1 & Hf2 & _). unfold listener_sends in Hs.
  pose proof handshake_usize. pose proof reply_usize. destruct e as [| |e| | |]; cbn [dialer_returns] in Hret.
  - by destruct Hret.
  - by destruct Hret.
  - destruct Hret as (base & inp & -> & [-> | ->] & Hu).
    + revert Hu. apply (update_start_ok _ HANDSHAKE _ rest (frame_of (reply p ps))); try done.
      * cbn [app] in Hb. rewrite app_assoc in Hb. by apply Forall_app in Hb as [? _].
      * by rewrite <- Hs, <- app_assoc.
    + rewrite <- app_assoc in Hs, Hb. apply app_inv_head in Hs. revert Hu.
      apply (update_start_ok _ (reply p ps) _ rest []); try done; [|by rewrite app_nil_r, <- Hs, <- app_assoc].
      apply Forall_app in Hb as [_ Hb]. rewrite app_assoc in Hb. by apply Forall_app in Hb as [? _].
  - destruct Hret as (_ & x & Hx & Hux & ->). by apply frame_of_inj in Hs as [? _].
  - done.
  - destruct Hret as (_ & x & Hna & Hp & Hux & ->). rewrite <- app_assoc in Hs. apply app_inv_head in Hs.
    rewrite <- (app_nil_r (frame_of (reply p ps))) in Hs. apply frame_of_inj in Hs as [Hs _]; [|done..]. unfold reply in Hs. by case_if.
Qed.

(** A call of the dialer that receives what the listener sends. *)
Lemma dialer_call sent recvd self data rest buf0 buf1 :
  dialer_at p sent recvd self -> recvd ++ data ++ rest = listener_sends p ps ->
  exists n r w left, call self data buf0 buf1 = Some (n, length r, w) /\ data = r ++ left /\ dialer_view (sent ++ w) (recvd ++ r) n /\
    match n with
    | Negotiation_InProgress _ => len buf0 + len buf1 <= len w \/ sent ++ w = dialer_sends p /\ left = [] /\ recvd ++ r <> listener_sends p ps
    | _ => True
    end.
Proof.
  intros Hat Hstream. pose proof (requested_ok _ _ Hn). destruct stream_bytes as [_ Hbs]. destruct stream_usize as [_ Hus].
  rewrite <- Hstream in Hbs, Hus. apply Forall_app in Hbs as [Hbr [Hbd _]%Forall_app].
  destruct (call_party (dialer_at p) (dialer_returns p) sent recvd self data buf0 buf1 Hat Hbd) as (rw & res & r & w & Hret & -> & Hin & Ho & Ha & Hcall).
  { unfold is_uint in *. len_lia. }
  assert (Hs : (recvd ++ r) ++ incoming rw ++ rest = listener_sends p ps) by by rewrite <- Hstream, <- !app_assoc.
  destruct res as [n|e]; [|by apply (dialer_no_error _ _ _ rest) in Hret].
  exists n, r, w, (incoming rw). split; [done|]. split; [done|]. destruct n as [self'|q|]; [|done..].
  destruct Hret as [Hat' Hprog]. split; [done|]. destruct Hprog as [[Hs' Ha']|(Hs' & Hi & g & Hg)]; [left; lia|]. right. split; [done|]. split; [done|].
  intros Hall. destruct frames_fit as (Hf1 & Hf2 & _). destruct Hat' as (_ & Hmax & Hst). rewrite Hg, Hmax, Hall in Hst. unfold listener_sends in Hst.
  pose proof handshake_usize. pose proof reply_usize.
  destruct (ms_state self'); try done; try (destruct Hst as (_ & _ & Hr); by apply (reading_short _ _ _ HANDSHAKE (frame_of (reply p ps))) in Hr).
  - destruct Hst as (_ & Hr). by apply (reading_short _ _ _ HANDSHAKE (frame_of (reply p ps))) in Hr.
  - destruct Hst as (_ & inp & Heq & Hr). apply app_inv_head in Heq. subst inp. apply (reading_short _ _ _ (reply p ps) []) in Hr; try done.
    by rewrite app_nil_r in Hr.
Qed.

(** The commands of a dialer. *)
Lemma commands_of cmds inp rest :
  Forall (fun cmd => is_usize (len cmd)) cmds -> ((frame_of HANDSHAKE ++ frames cmds) ++ inp) ++ rest = dialer_sends p ->
  cmds = [] /\ inp ++ rest = frame_of (p ++ newline) \/ cmds = [p ++ newline] /\ inp = [] /\ rest = [].
Proof.
  rewrite dialer_sends_frames, <- !app_assoc. intros Hc Heq%app_inv_head.
  apply frames_of_one in Heq as [?|[? [-> ->]%app_eq_nil]]; [by left|by right|done|apply request_usize].
Qed.

Lemma goes_on_usize cmds : Forall (goes_on ps) cmds -> Forall (fun cmd => is_usize (len cmd)) cmds.
Proof. intros Hg. eapply Forall_impl; [done|]. by intros cmd [? _]. Qed.

Lemma known_usize cmds :
  Forall (fun cmd => is_usize (len cmd) /\ listener_answer ps cmd <> None) cmds -> Forall (fun cmd => is_usize (len cmd)) cmds.
Proof. intros Hg. eapply Forall_impl; [done|]. by intros cmd [? _]. Qed.

(** The answers to the commands of a dialer. *)
Lemma answers_one : answers ps [p ++ newline] = frame_of (reply p ps).
Proof.
  destruct (request_answer p ps (requested_ok _ _ Hn) (requested_not_ls _ _ Hn)) as (m & Ha & Hm & _).
  unfold answers. cbn [map concat]. rewrite Ha. cbn [from_option]. by rewrite app_nil_r.
Qed.

Lemma last_command cmds cmd inp rest :
  Forall (goes_on ps) cmds -> is_usize (len cmd) -> ((frame_of HANDSHAKE ++ frames (cmds ++ [cmd])) ++ inp) ++ rest = dialer_sends p ->
  cmds = [] /\ cmd = p ++ newline.
Proof.
  intros Hg%goes_on_usize Hu Heq. apply commands_of in Heq as [[Heq _]|[Heq _]]; [by destruct cmds| |apply Forall_app; split; [done|by apply Forall_singleton]].
  by destruct cmds as [|c [|]]; simplify_list_eq.
Qed.

(** What the dialer sends is never wrong for the listener. *)
Lemma listener_no_error sent recvd (rw : ReadWrite unit) rest e :
  recvd ++ incoming rw ++ rest = dialer_sends p -> incoming_buffer rw <> None -> outgoing_buffer rw <> None ->
  ~ listener_returns ps sent recvd rw (Err e).
Proof.
  intros Hs Hin Ho Hret. pose proof (proj1 stream_bytes) as Hb. rewrite <- Hs in Hb. destruct frames_fit as (_ & _ & Hf3 & Hf4).
  pose proof handshake_usize. pose proof request_usize. destruct e as [| |e| | |]; cbn [listener_returns] in Hret; try done.
  - destruct Hret as (base & inp & -> & [-> | (cmds & Hc & ->)] & Hu).
    + rewrite dialer_sends_frames in Hs. revert Hu. apply (update_start_ok _ HANDSHAKE _ rest (frame_of (p ++ newline))); try done.
      * cbn [app] in Hb. rewrite app_assoc in Hb. by apply Forall_app in Hb as [? _].
      * by rewrite <- Hs, <- app_assoc.
    + rewrite <- app_assoc, (app_assoc inp), app_assoc in Hs. rewrite <- app_assoc in Hb. apply Forall_app in Hb as [_ Hb]. rewrite app_assoc in Hb. apply Forall_app in Hb as [Hb _].
      apply known_usize in Hc. apply commands_of in Hs as [(-> & Hs)|(-> & Hs & ->)]; [| |done].
      * revert Hu. apply (update_start_ok _ (p ++ newline) _ rest []); try done. by rewrite app_nil_r.
      * by rewrite Hs in Hu.
  - destruct Hret as (x & Hx & Hux & ->). rewrite dialer_sends_frames in Hs. by apply frame_of_inj in Hs as [? _].
  - destruct Hret as (cmds & Hg & ->). destruct (last_command cmds [] [] (incoming rw ++ rest)) as [_ Hnil]; [done| | |by destruct p].
    + rewrite len_nil. unfold is_uint. pose proof usize_halves. lia.
    + by rewrite frames_snoc, app_nil_r, (app_assoc (frame_of HANDSHAKE)).
Qed.

(** What is sent is the start of the stream. *)
Lemma dialer_prefix sent recvd n : dialer_view sent recvd n -> exists rest, sent ++ rest = dialer_sends p.
Proof.
  destruct n as [self|q|]; cbn [dialer_view].
  - intros (_ & _ & Hst). unfold dialer_sends in *. destruct (ms_state self); try done.
    + destruct Hst as (_ & -> & _). exists (drop (Z.to_nat num_bytes_written) (message_bytes Handshake) ++ message_bytes (ProtocolRequest p)).
      by rewrite app_assoc, take_drop.
    + destruct Hst as (_ & -> & _). exists (drop (Z.to_nat num_bytes_written) (message_bytes (ProtocolRequest p))). by rewrite <- app_assoc, take_drop.
    + destruct Hst as [-> _]. exists []. by rewrite app_nil_r.
    + destruct Hst as [-> _]. exists []. by rewrite app_nil_r.
  - intros (_ & -> & _). exists []. by rewrite app_nil_r.
  - intros (-> & _). exists []. by rewrite app_nil_r.
Qed.

Lemma answering_prefix m n sent recvd self rest :
  answering ps m n sent recvd self -> recvd ++ rest = dialer_sends p -> exists rest, sent ++ rest = listener_sends p ps.
Proof.
  intros (cmds & cmd & inp & Hg & Hu & Ha & _ & -> & -> & _) Hs. apply last_command in Hs as [-> ->]; [|done..].
  destruct (request_answer p ps (requested_ok _ _ Hn) (requested_not_ls _ _ Hn)) as (m' & Ha' & Hm & _). rewrite Ha in Ha'. injection Ha' as <-.
  exists (drop (Z.to_nat n) (message_bytes m)). unfold answers, listener_sends. cbn [map concat]. by rewrite app_nil_r, <- app_assoc, take_drop, Hm.
Qed.

Lemma listener_prefix sent recvd n rest :
  listener_view sent recvd n -> recvd ++ rest = dialer_sends p -> exists rest, sent ++ rest = listener_sends p ps.
Proof.
  destruct n as [self|q|]; cbn [listener_view]; [|by intros (_ & _ & ->) _; exists []; rewrite app_nil_r|done].
  intros (_ & _ & Hst) Hs. unfold listener_sends. rewrite <- handshake_frame. destruct (ms_state self); try done; try by eapply answering_prefix.
  - destruct Hst as (_ & -> & _). exists (drop (Z.to_nat num_bytes_written) (message_bytes Handshake) ++ frame_of (reply p ps)).
    by rewrite app_assoc, take_drop.
  - destruct Hst as [-> _]. by eexists.
  - destruct Hst as (cmds & inp & Hg & -> & -> & _). apply commands_of in Hs as [[-> _]|[-> _]]; [| |by apply goes_on_usize].
    + unfold answers. cbn. rewrite app_nil_r. by eexists.
    + exists []. by rewrite app_nil_r, answers_one.
Qed.

(** A call of the listener that receives what the dialer sends. *)
Lemma listener_call sent recvd self data rest buf0 buf1 :
  listener_at ps sent recvd self -> recvd ++ data ++ rest = dialer_sends p ->
  exists n r w left, call self data buf0 buf1 = Some (n, length r, w) /\ data = r ++ left /\ listener_view (sent ++ w) (recvd ++ r) n /\
    match n with
    | Negotiation_InProgress _ => len buf0 + len buf1 <= len w \/ left = [] /\ (recvd ++ r = dialer_sends p -> sent ++ w = listener_sends p ps)
    | _ => True
    end.
Proof.
  intros Hat Hstream. pose proof (supported_ok _ _ Hn). destruct stream_bytes as [Hbs _]. destruct stream_usize as [Hus _].
  rewrite <- Hstream in Hbs, Hus. apply Forall_app in Hbs as [Hbr [Hbd _]%Forall_app].
  destruct (call_party (listener_at ps) (listener_returns ps) sent recvd self data buf0 buf1 Hat Hbd) as (rw & res & r & w & Hret & -> & Hin & Ho & Ha & Hcall).
  { unfold is_uint in *. len_lia. }
  assert (Hs : (recvd ++ r) ++ incoming rw ++ rest = dialer_sends p) by by rewrite <- Hstream, <- !app_assoc.
  destruct res as [n|e]; [|by apply (listener_no_error _ _ _ rest) in Hret].
  exists n, r, w, (incoming rw). split; [done|]. split; [done|]. destruct n as [self'|q|]; [| |done].
  - destruct Hret as [Hat' Hprog]. split; [done|]. destruct Hprog as [[Hs' Ha']|(Hs' & Hi & g & Hg)]; [left; lia|]. right. split; [done|]. intros Hall.
    destruct frames_fit as (_ & _ & Hf3 & Hf4). destruct Hat' as (_ & Hmax & Hst). rewrite Hg, Hmax, Hall in Hst.
    pose proof handshake_usize. pose proof request_usize. destruct (ms_state self'); try done.
    + destruct Hst as (_ & Hr). rewrite dialer_sends_frames in Hr. by apply (reading_short _ _ _ HANDSHAKE (frame_of (p ++ newline))) in Hr.
    + destruct Hst as (cmds & inp & Hgo%goes_on_usize & -> & Heq & Hr). rewrite <- (app_nil_r (_ ++ inp)) in Heq. symmetry in Heq.
      apply commands_of in Heq as [[-> Heq]|[-> _]]; [| |done].
      * rewrite app_nil_r in Heq. subst inp. apply (reading_short _ _ _ (p ++ newline) []) in Hr; try done. by rewrite app_nil_r in Hr.
      * by rewrite answers_one.
  - destruct Hret as (cmds & cmd & inp & Hg & Hu & Hans & Hsent & Hrecv). rewrite Hrecv in Hs. apply last_command in Hs as [-> ->]; [|done..].
    destruct (request_answer p ps (requested_ok _ _ Hn) (requested_not_ls _ _ Hn)) as (m & Ha' & Hm & Hq). rewrite Hans in Ha'. injection Ha' as <-.
    destruct (Hq q eq_refl) as [-> Hp]. split; [|done]. split; [done|]. split; [done|]. rewrite Hsent, Hm. unfold answers. cbn [map concat]. by rewrite app_nil_r.
Qed.

(** *** The invariant of the connection *)

(** What each side sent is what the other received and what travels. *)
Record connected (c : Connection) (dialer_sent listener_sent : list u8) : Prop := {
  connected_dialer : exists recvd, listener_sent = recvd ++ to_dialer c /\ dialer_view dialer_sent recvd (dialer c);
  connected_listener : exists recvd, dialer_sent = recvd ++ to_listener c /\ listener_view listener_sent recvd (listener c)
}.

Lemma connected_new : connected (connection_new p ps) [] [].
Proof. split; exists []; (split; [done|]); [apply dialer_new|apply listener_new]. Qed.

(** The streams of a connection. *)
Lemma connected_streams c ds ls : connected c ds ls ->
  (exists rest, ds ++ rest = dialer_sends p) /\ (exists rest, ls ++ rest = listener_sends p ps).
Proof.
  intros [(rd & Hls & Hd) (rl & Hds & Hl)]. pose proof (dialer_prefix _ _ _ Hd) as [rest Hrest]. split; [by exists rest|].
  apply (listener_prefix _ _ _ (to_listener c ++ rest) Hl). by rewrite app_assoc, <- Hds.
Qed.

Lemma drop_read {A} (k : nat) (l r left : list A) : take k l = r ++ left -> l = r ++ drop (length r) l.
Proof. intros E. rewrite <- (take_drop k l), E, <- app_assoc. by rewrite drop_app_length. Qed.

Lemma dialer_step c ds ls k buf0 buf1 self :
  connected c ds ls -> dialer c = Negotiation_InProgress self ->
  exists c' w, connection_step c (DialerCall k buf0 buf1) = Some c' /\ connected c' (ds ++ w) ls /\
    listener c' = listener c /\ to_listener c' = to_listener c ++ w /\
    (forall self', dialer c' = Negotiation_InProgress self' -> (length (to_dialer c) <= k)%nat ->
       len buf0 + len buf1 <= len w \/ ds ++ w = dialer_sends p /\ ls <> listener_sends p ps).
Proof.
  intros Hc Hd. destruct (connected_streams _ _ _ Hc) as [_ [rest Hrest]]. destruct Hc as [(rd & Hls & Hdv) (rl & Hds & Hlv)].
  rewrite Hd in Hdv. cbn [connection_step]. rewrite Hd.
  destruct (dialer_call ds rd self (take k (to_dialer c)) (drop k (to_dialer c) ++ rest) buf0 buf1 Hdv) as (n & r & w & left & -> & Hr & Hv & Hprog).
  { by rewrite (app_assoc (take _ _)), take_drop, app_assoc, <- Hls. }
  pose proof (drop_read _ _ _ _ Hr) as Hdrop. eexists _, w. split; [done|].
  assert (Hls' : ls = (rd ++ r) ++ drop (length r) (to_dialer c)) by by rewrite <- app_assoc, <- Hdrop.
  split_and!; [|done..|].
  - split; cbn [dialer listener to_dialer to_listener]; [exists (rd ++ r)|exists rl; rewrite Hds, <- app_assoc]; done.
  - cbn. intros self' -> Hk. destruct Hprog as [?|(Hall & -> & Hne)]; [by left|]. right. split; [done|].
    rewrite take_ge, app_nil_r in Hr by done. by rewrite Hls, Hr.
Qed.

Lemma listener_step c ds ls k buf0 buf1 self :
  connected c ds ls -> listener c = Negotiation_InProgress self ->
  exists c' w, connection_step c (ListenerCall k buf0 buf1) = Some c' /\ connected c' ds (ls ++ w) /\ dialer c' = dialer c /\
    ((length (to_listener c) <= k)%nat -> ds = dialer_sends p -> len buf0 + len buf1 <= len w \/ ls ++ w = listener_sends p ps).
Proof.
  intros Hc Hl. destruct (connected_streams _ _ _ Hc) as [[rest Hrest] _]. destruct Hc as [(rd & Hls & Hdv) (rl & Hds & Hlv)].
  rewrite Hl in Hlv. cbn [connection_step]. rewrite Hl.
  destruct (listener_call ls rl self (take k (to_listener c)) (drop k (to_listener c) ++ rest) buf0 buf1 Hlv) as (n & r & w & left & -> & Hr & Hv & Hprog).
  { by rewrite (app_assoc (take _ _)), take_drop, app_assoc, <- Hds. }
  pose proof (drop_read _ _ _ _ Hr) as Hdrop. eexists _, w. split; [done|].
  assert (Hds' : ds = (rl ++ r) ++ drop (length r) (to_listener c)) by by rewrite <- app_assoc, <- Hdrop.
  split_and!; [|done..|].
  - split; cbn [dialer listener to_dialer to_listener]; [exists rd; rewrite Hls, <- app_assoc|exists (rl ++ r)]; done.
  - intros Hk Hall. destruct n as [self'|q|]; [|right; apply Hv|done]. destruct Hprog as [?|[-> Himp]]; [by left|]. right. apply Himp.
    rewrite take_ge, app_nil_r in Hr by done. by rewrite <- Hall, Hds, Hr.
Qed.

Lemma connection_step_ok c ds ls e : connected c ds ls ->
  exists c' dw lw, connection_step c e = Some c' /\ connected c' (ds ++ dw) (ls ++ lw) /\
    (is_in_progress (dialer c) = false -> dialer c' = dialer c).
Proof.
  intros Hc. destruct e as [k b0 b1|k b0 b1].
  - destruct (dialer c) as [self|q|] eqn:Hd.
    + destruct (dialer_step c ds ls k b0 b1 self Hc Hd) as (c' & w & ? & ? & _). exists c', w, []. by rewrite app_nil_r.
    + exists c, [], []. cbn. rewrite Hd, !app_nil_r. done.
    + exists c, [], []. cbn. rewrite Hd, !app_nil_r. done.
  - destruct (listener c) as [self|q|] eqn:Hl.
    + destruct (listener_step c ds ls k b0 b1 self Hc Hl) as (c' & w & ? & ? & Hsame & _). exists c', [], w. rewrite app_nil_r, Hsame. done.
    + exists c, [], []. cbn. rewrite Hl, !app_nil_r. done.
    + exists c, [], []. cbn. rewrite Hl, !app_nil_r. done.
Qed.

Lemma connection_run_ok events c ds ls : connected c ds ls ->
  exists c' ds' ls', connection_run c events = Some c' /\ connected c' ds' ls'.
Proof.
  revert c ds ls. induction events as [|e events IH]; intros c ds ls Hc; [by exists c, ds, ls|].
  destruct (connection_step_ok c ds ls e Hc) as (c' & dw & lw & Hs & Hc' & _). cbn [connection_run]. rewrite Hs. by eapply IH.
Qed.

(** A listener that supports the protocol is done once it sent all its stream. *)
Lemma listener_sent_all sent recvd self rest :
  p ∈ ps -> listener_at ps sent recvd self -> recvd ++ rest = dialer_sends p -> sent <> listener_sends p ps.
Proof.
  intros Hp (_ & _ & Hst) Hs Hall. destruct (request_answer p ps (requested_ok _ _ Hn) (requested_not_ls _ _ Hn)) as (m & Ha & Hm & _).
  assert (Hshort : frame_of (reply p ps) <> []).
  { unfold frame_of. intros [E _]%app_eq_nil. by apply encode_usize_nonempty in E. }
  assert (Hans : forall m' n, answering ps m' n sent recvd self -> False).
  { intros m' n (cmds & cmd & inp & Hg & Hu & Ha' & Hlt & Hsent & -> & _). apply last_command in Hs as [-> ->]; [|done..].
    rewrite Ha in Ha'. injection Ha' as <-. rewrite Hsent in Hall. unfold listener_sends, answers in Hall. cbn [map concat] in Hall.
    rewrite app_nil_r, <- handshake_frame in Hall. apply app_inv_head in Hall. rewrite <- Hm in Hall. by apply take_short in Hall. }
  unfold listener_sends in Hall. rewrite <- handshake_frame in Hall.
  destruct (ms_state self); try done; try by eapply Hans.
  - destruct Hst as (Hlt & -> & _). apply (f_equal len) in Hall. rewrite len_app in Hall. unfold len in *. rewrite length_take in Hall. lia.
  - destruct Hst as [-> _]. rewrite <- (app_nil_r (message_bytes Handshake)) in Hall at 1. by apply app_inv_head in Hall.
  - destruct Hst as (cmds & inp & Hg & -> & -> & _). pose proof (goes_on_usize _ Hg) as Hgu. apply commands_of in Hs as [[-> _]|[-> _]]; [| |done].
    + by apply app_inv_head in Hall.
    + apply Forall_inv in Hg as [_ Hg]. unfold listener_answer in Hg. rewrite bool_decide_false, bool_decide_false, take_newline in Hg by (apply Hn || by destruct p).
      destruct (list_find _ ps) as [[i q]|] eqn:E; [by destruct Hg|]. apply list_find_None in E. by apply (Forall_forall _ _) with p in E.
Qed.

(** The outcomes agree. *)
Lemma connected_agree c ds ls : connected c ds ls ->
  match dialer c with
  | Negotiation_InProgress _ => True
  | Success q => q = p /\ p ∈ ps /\ listener c = Success p
  | NotAvailable => p ∉ ps
  end /\
  match listener c with
  | Negotiation_InProgress _ => True
  | Success q => q = p /\ p ∈ ps
  | NotAvailable => False
  end.
Proof.
  intros Hc. destruct (connected_streams _ _ _ Hc) as [[drest Hd] [lrest Hl]]. destruct Hc as [(rd & Hls & Hdv) (rl & Hds & Hlv)].
  rewrite Hls in Hl. split; [|destruct (listener c); try done; by destruct Hlv as (? & ? & _)].
  assert (Hrep : forall x rest, is_usize (len x) -> frame_of HANDSHAKE ++ frame_of x ++ rest = listener_sends p ps -> x = reply p ps /\ rest = []).
  { intros x rest Hx E%app_inv_head. rewrite <- (app_nil_r (frame_of (reply p ps))) in E. by apply frame_of_inj in E; [|done|apply reply_usize]. }
  destruct (dialer c) as [self|q|]; [done| |].
  - destruct Hdv as (-> & Hall & ->). rewrite <- !app_assoc in Hl. apply Hrep in Hl as [Hr [Htd Hlr]%app_eq_nil]; [|apply request_usize].
    assert (Hp : p ∈ ps) by (unfold reply in Hr; case_if; [by bool_to_prop|by destruct (requested_not_na _ _ Hn)]). split; [done|]. split; [done|].
    rewrite Htd, app_nil_r, Hr in Hls. destruct (listener c) as [self|q|]; [|by destruct Hlv as (-> & _)|done]. exfalso.
    by apply (listener_sent_all ls rl self (to_listener c ++ drest) Hp Hlv); [rewrite app_assoc, <- Hds|].
  - destruct Hdv as (Hall & ->). rewrite <- !app_assoc in Hl. apply Hrep in Hl as [Hr _].
    + unfold reply in Hr. case_if; [|by bool_to_prop]. by destruct (requested_not_na _ _ Hn).
    + unfold is_uint. destruct usize_bits_spec as [-> | ->]; done.
Qed.

(** *** Progress *)

(** A round in which the dialer does not finish sends something. *)
Lemma round_progress c ds ls buf0 buf1 buf2 buf3 :
  connected c ds ls -> 1 <= len buf0 + len buf1 -> 1 <= len buf2 + len buf3 ->
  exists c1 c2 ds' ls', connection_step c (DialerCall (length (to_dialer c)) buf0 buf1) = Some c1 /\
    connection_step c1 (ListenerCall (length (to_listener c1)) buf2 buf3) = Some c2 /\ connected c2 ds' ls' /\
    (is_in_progress (dialer c2) = false \/ len ds + len ls < len ds' + len ls').
Proof.
  intros Hc Hb1 Hb2. destruct (dialer c) as [self|q|] eqn:Hd.
  2, 3: cbn [connection_step]; rewrite Hd; exists c;
    destruct (connection_step_ok c ds ls (ListenerCall (length (to_listener c)) buf2 buf3) Hc) as (c2 & dw & lw & Hs & Hc2 & Hk);
    exists c2, (ds ++ dw), (ls ++ lw); split_and!; try done; left; by rewrite Hk, Hd by by rewrite Hd.
  destruct (dialer_step c ds ls (length (to_dialer c)) buf0 buf1 self Hc Hd) as (c1 & w & Hs1 & Hc1 & _ & _ & Hprog). exists c1.
  destruct (listener c1) as [self1|q|] eqn:Hl.
  - destruct (listener_step c1 _ ls (length (to_listener c1)) buf2 buf3 self1 Hc1 Hl) as (c2 & w2 & Hs2 & Hc2 & Hsame & Hprog2).
    exists c2, (ds ++ w), (ls ++ w2). split_and!; try done. rewrite Hsame. destruct (dialer c1) as [self'| |] eqn:Hd1; [|by left..]. right.
    destruct (Hprog self' eq_refl ltac:(lia)) as [Hw|[Hall Hne]]; [len_lia|]. destruct (Hprog2 ltac:(lia) Hall) as [Hw|Hall2]; [len_lia|].
    destruct w2 as [|b w2]; [by rewrite app_nil_r in Hall2|]. len_lia.
  - exists c1, (ds ++ w), ls. cbn [connection_step]. rewrite Hl. split_and!; try done. destruct (dialer c1) as [self'| |] eqn:Hd1; [|by left..]. right.
    destruct (Hprog self' eq_refl ltac:(lia)) as [Hw|[_ Hne]]; [len_lia|]. destruct Hc1 as [_ (rl & _ & Hlv)]. rewrite Hl in Hlv. by destruct Hlv as (_ & _ & ?).
  - destruct Hc1 as [_ (rl & _ & Hlv)]. by rewrite Hl in Hlv.
Qed.

Lemma rounds_finish rounds c ds ls :
  connected c ds ls -> Forall round_writes rounds ->
  is_in_progress (dialer c) = false \/ len (dialer_sends p) + len (listener_sends p ps) < len ds + len ls + len rounds ->
  exists c' ds' ls', connection_rounds c rounds = Some c' /\ connected c' ds' ls' /\ is_in_progress (dialer c') = false.
Proof.
  intros Hc Hw. revert c ds ls Hc. induction Hw as [|[[b0 b1] [b2 b3]] rounds [Hb1 Hb2] _ IH]; intros c ds ls Hc Hlt.
  - exists c, ds, ls. split; [done|]. split; [done|]. destruct Hlt as [?|Hlt]; [done|]. destruct (connected_streams _ _ _ Hc) as [[r1 H1] [r2 H2]].
    rewrite <- H1, <- H2 in Hlt. len_lia.
  - destruct (round_progress c ds ls b0 b1 b2 b3 Hc Hb1 Hb2) as (c1 & c2 & ds' & ls' & Hs1 & Hs2 & Hc2 & Hprog). cbn [connection_rounds]. rewrite Hs1, Hs2.
    apply (IH c2 ds' ls' Hc2). destruct Hprog as [?|Hprog]; [by left|]. destruct Hlt as [Hfin|Hlt]; [|right; rewrite len_cons in Hlt; lia].
    left. destruct (connection_step_ok c ds ls (DialerCall (length (to_dialer c)) b0 b1) Hc) as (c1' & ? & ? & E1 & Hc1 & K1). rewrite Hs1 in E1. injection E1 as <-.
    destruct (connection_step_ok c1 _ _ (ListenerCall (length (to_listener c1)) b2 b3) Hc1) as (c2' & ? & ? & E2 & _ & K2). rewrite Hs2 in E2. injection E2 as <-.
    by rewrite K2, K1 by (rewrite ?K1; done).
Qed.
End sides.

(** C20: the two sides agree. Whatever the order in which they are called, the amounts of
    data delivered and the memory they are given to write to, no call fails or panics; the
    dialer only succeeds with the protocol it requested, when the listener supports it and
    has succeeded too; it is only told that the protocol is not available when the
    listener does not support it. The name is [negotiable]: neither ls nor na, with which
    the sides fail or disagree ([ls_fails], [na_disagrees]), and not longer than what the
    listener accepts. *)
Theorem negotiation_agrees (p : list u8) (ps : list (list u8)) (events : list Event) :
  negotiable p ps ->
  exists c, connection_run (connection_new p ps) events = Some c /\
    match dialer c with
    | Negotiation_InProgress _ => True
    | Success q => q = p /\ p ∈ ps /\ listener c = Success p
    | NotAvailable => p ∉ ps
    end /\
    match listener c with
    | Negotiation_InProgress _ => True
    | Success q => q = p /\ p ∈ ps
    | NotAvailable => False
    end.
Proof.
  intros Hn. destruct (connection_run_ok p ps Hn events _ _ _ (connected_new p ps)) as (c & ds & ls & Hr & Hc).
  exists c. split; [done|]. by apply (connected_agree p ps Hn c ds ls).
Qed.

(** C21: the negotiation ends. After any calls, as many rounds as there are bytes to
    exchange, and one, are enough for it to end, even if the sides are only given one byte
    to write to each time: both sides succeed if the listener supports the protocol, and
    otherwise the dialer is told that it is not available. The name is [negotiable]:
    neither ls nor na, and not longer than what the listener accepts. *)
Theorem negotiation_completes (p : list u8) (ps : list (list u8)) (events : list Event)
    (rounds : list (list u8 * list u8 * (list u8 * list u8))) :
  negotiable p ps -> Forall round_writes rounds ->
  len (dialer_sends p) + len (listener_sends p ps) < len rounds ->
  exists c c', connection_run (connection_new p ps) events = Some c /\ connection_rounds c rounds = Some c' /\
    (p ∈ ps -> dialer c' = Success p /\ listener c' = Success p) /\ (p ∉ ps -> dialer c' = NotAvailable).
Proof.
  intros Hn Hw Hlen. destruct (connection_run_ok p ps Hn events _ _ _ (connected_new p ps)) as (c & ds & ls & Hr & Hc).
  destruct (rounds_finish p ps Hn rounds c ds ls Hc Hw) as (c' & ds' & ls' & Hrr & Hc' & Hfin); [right; pose proof (len_nonneg ds); pose proof (len_nonneg ls); lia|].
  exists c, c'. split; [done|]. split; [done|]. destruct (connected_agree p ps Hn c' ds' ls' Hc') as [Hd _].
  destruct (dialer c') as [self|q|]; [done| |]; [destruct Hd as (-> & Hp & ->)|]; by split; intros ?.
Qed.

End negotiation.

(** ** Examples *)

Module Negotiate.

#[local] Existing Instance platform64.

(** ["/foo"]. *)
Definition foo : list u8 := [47; 102; 111; 111].

Lemma foo_negotiable : negotiable foo [foo].
Proof.
  split; [done| |done|done| |done].
  - repeat constructor; done.
  - split; [by constructor|done].
Qed.

(** One byte at a time. *)
Definition one_byte : list u8 * list u8 * (list u8 * list u8) := ([0], [], ([], [0])).

Lemma dialer_read_write_witness :
  exists rw' res r w, negotiation_read_write (Negotiating_new (Dialer foo)) (mkReadWrite 0%nat (Some [19; 47]) (Some ([0; 0], [0])) 0 0 None []) = Some (rw', res) /\
    moved (mkReadWrite 0%nat (Some [19; 47]) (Some ([0; 0], [0])) 0 0 None []) r w rw' /\ dialer_returns foo w r rw' res.
Proof.
  apply (dialer_read_write foo [] []); [done|apply dialer_new|]. split; [done|]. split; [done|]. repeat constructor; done.
Defined.

Lemma listener_read_write_witness :
  exists rw' res r w, negotiation_read_write (Negotiating_new (Listener [foo])) (mkReadWrite 0%nat (Some [19; 47]) None 0 0 None []) = Some (rw', res) /\
    moved (mkReadWrite 0%nat (Some [19; 47]) None 0 0 None []) r w rw' /\ listener_returns [foo] w r rw' res.
Proof.
  apply (listener_read_write [foo] [] []); [apply foo_negotiable|apply listener_new|]. split; [done|]. split; [done|]. repeat constructor; done.
Defined.

Lemma negotiation_agrees_witness :
  exists c, connection_run (connection_new foo [foo]) [DialerCall 3 [0; 0] [0]; ListenerCall 2 (repeat 0 40) []; DialerCall 1 [] (repeat 0 30); ListenerCall 40 [] []] = Some c /\
    match dialer c with
    | Negotiation_InProgress _ => True
    | Success q => q = foo /\ foo ∈ [foo] /\ listener c = Success foo
    | NotAvailable => foo ∉ [foo]
    end /\
    match listener c with
    | Negotiation_InProgress _ => True
    | Success q => q = foo /\ foo ∈ [foo]
    | NotAvailable => False
    end.
Proof. apply (negotiation_agrees foo [foo]). apply foo_negotiable. Defined.

Lemma negotiation_completes_witness :
  exists c c', connection_run (connection_new foo [foo]) [ListenerCall 0 [0] []] = Some c /\ connection_rounds c (repeat one_byte 60) = Some c' /\
    dialer c' = Success foo /\ listener c' = Success foo.
Proof.
  destruct (negotiation_completes foo [foo] [ListenerCall 0 [0] []] (repeat one_byte 60)) as (c & c' & Hr & Hc & Hs & _);
    [apply foo_negotiable|repeat (constructor; [done|]); constructor|done|].
  exists c, c'. split; [done|]. split; [done|]. apply Hs. left.
Defined.

(** What a listener reads when the dialer sends other data, here one byte, right after its request:
    that byte too. The negotiation succeeds, and the byte is lost. *)
Example listener_reads_too_much :
  match call (Negotiating_new (Listener [foo])) (dialer_sends foo ++ [99]) (repeat 0 64) [] with
  | Some (Success q, read, w) => q = foo /\ read = S (length (dialer_sends foo)) /\ w = listener_sends foo [foo]
  | _ => False
  end.
Proof. vm_compute. done. Qed.

(** The same with data that does not start like a frame: the negotiation fails, although
    the dialer respects the protocol. *)
Example listener_refuses_data :
  call (Negotiating_new (Listener [foo])) (dialer_sends foo ++ repeat 255 20) (repeat 0 64) [] = None.
Proof. vm_compute. done. Qed.

(** The end of the line of a command is not looked at. *)
Example listener_ignores_newline : listener_answer [foo] (foo ++ [33]) = Some (ProtocolOk foo).
Proof. reflexivity. Qed.

(** The prefix of the answer to [ls] is the number of protocols and not the number of bytes:
    a reader of frames finds a frame of one byte. *)
Example ls_response_prefix :
  message_bytes (LsResponse [foo]) = [1; 5; 47; 102; 111; 111; 10] /\
  update (FramedInProgress_new 100) (message_bytes (LsResponse [foo])) = Ok (2, Finished [5]).
Proof. by split. Qed.

(** A protocol named [na] that is supported: the listener succeeds, and the dialer is told that
    it is not available. *)
Example na_disagrees :
  match connection_rounds (connection_new [110; 97] [[110; 97]]) (repeat (repeat 0 64, [], (repeat 0 64, [])) 2) with
  | Some c => dialer c = NotAvailable /\ listener c = Success [110; 97]
  | None => False
  end.
Proof. vm_compute. done. Qed.

(** A protocol named [ls] that is supported: the call of the dialer fails. *)
Example ls_fails :
  connection_rounds (connection_new [108; 115] [[108; 115]]) (repeat (repeat 0 64, [], (repeat 0 64, [])) 2) = None.
Proof. vm_compute. done. Qed.

(** An offset past the end of the message does not panic. *)
Example write_out_past_end :
  let rw := mkReadWrite 0%nat None (Some ([0], [0])) 0 0 None [] in message_write_out Handshake 100 rw = Some (true, rw).
Proof. reflexivity. Qed.

End Negotiate.
